(* ===== verification/_CoqProject ===== *)
-Q . S2P
Prelude.v
Channel.v
GitPerms.v
Ifc.v
Nostr.v
Bytes.v
Hex.v
Kinds.v
EventFilter.v
Thread.v
EventQueue.v
EventQueueFacts.v
EventQueueProps.v
SubRegistry.v
SubRegistryProps.v
AudioRoom.v
AudioRoomProps.v
AudioWire.v
Conformance.v
Network.v
RuleMatch.v
GitManifest.v
GitReport.v
ObjectStore.v
GitPublish.v
GitPublishWorld.v
GitPublishProps.v
GitMemory.v
GitSystem.v
MeshWire.v
Directory.v
DirectoryProps.v
Reliable.v
ReliableProps.v
AuditLog.v
AuditLogProps.v
Membership.v
MembershipProps.v
Program.v
WorkflowTemplate.v
WorkflowDef.v
WorkflowDefProps.v
WorkflowStore.v
WorkflowRun.v
WorkflowRunProps.v
Tenant.v
WorkflowEngine.v
WorkflowDoors.v
WorkflowEngineProps.v
WorkflowCluster.v
WorkflowSchedule.v
IngestPolicy.v
Envelopes.v
EnvelopesProps.v
IngestRequests.v
ModerationDoors.v
IngestThread.v
Ingest.v
IngestStages.v
IngestProps.v
ThreadStore.v
ThreadPages.v
ThreadCounts.v
PairingWire.v
PairingSession.v
PairingProps.v
ReadQuery.v
ReadFilter.v
ReadDoors.v
ReadProps.v
ReadPushdown.v
ReadHistory.v
ReadCount.v
ReadSamples.v
AuthEvents.v
AuthLimits.v
AuthShared.v
AuthMemory.v
