(* ===== verification/Prelude.v ===== *)
(** * Verification library for the Maju workspace

    Maju is a Nostr relay with an agent harness: clients hold WebSocket
    connections to the relay ([crates/maju-relay]), which stores events, fans
    them out to subscriptions, carries huddle audio, hosts git repositories and
    forwards tunnel streams between its runtimes; agents are attached by the ACP
    harness ([crates/maju-acp]), which queues the events of a channel and hands
    them to an agent process in batches; both share the data model of
    [crates/maju-core].  Several runtimes of the relay share a PostgreSQL
    database, a Redis and an object store.  This library is a shallow embedding
    of the parts of the workspace that decide things: each definition is the
    translation of a Rust item and keeps its name, and the theorems are about
    these definitions.

    ** Parts, files and sources

    - [Prelude]: this file.  Rust's [Result], machine integers, strings as
      bytes, lists, hash tables, and the lemmas, tactics and hints shared by
      all components.
    - [Bytes]: byte orders of integers and the bytes of a [Uuid]; [Hex]: what
      the sources use of the [hex] crate.
    - [Nostr]: what the sources use of the [nostr] and [uuid] crates, which are
      not part of the repository, as records and the class [NostrLib];
      [StoredEvent] of [maju-core/src/event.rs].
    - [Channel]: [maju-core/src/channel.rs], names, roles and types of channels.
    - [GitPerms]: [maju-core/src/git_perms.rs], ref patterns, protection tags
      and the evaluation of a push; uses the roles of [Channel].
    - [Ifc]: [ifc-core/src/lib.rs], information flow labels and the egress check.
    - [Kinds]: [maju-core/src/kind.rs], the registry of event kinds and the
      gates on kinds.
    - [EventFilter]: [maju-core/src/filter.rs], NIP-01 matching and the reader
      gate; used by the subscription registry.
    - [Thread]: [maju-core/src/nip10.rs], [maju-acp/src/scope.rs] and
      [parse_thread_tags] of [maju-acp/src/queue.rs]: thread markers and the
      session scope of an event.
    - [EventQueue], [EventQueueFacts], [EventQueueProps]:
      [maju-acp/src/queue.rs], the event queue of the harness.  The first file
      is the state, its operations and the step relation [step] with
      [reachable]; the second the invariant [queue_wf] and its preservation;
      the third the theorems.  Queues are keyed by the scopes of [Thread].
    - [RuleMatch]: [maju-acp/src/filter.rs], the rules that choose which events
      the harness takes.
    - [SubRegistry], [SubRegistryProps]: [maju-relay/src/subscription.rs], the
      subscriptions of all connections with the five indexes of the fan-out,
      as a transition system ([registry_step]).
    - [AudioRoom], [AudioRoomProps]: [maju-relay/src/audio/room.rs], huddle
      rooms and their manager, as transition systems ([room_step],
      [manager_step]).
    - [AudioWire]: [maju-relay/src/audio/wire.rs] and the client's half in
      [desktop/src-tauri/src/huddle/wire.rs].
    - [Conformance]: [maju-conformance/src], the checker of recorded traces
      against the tenant isolation model.
    - [Network]: [maju-core/src/network.rs], the address predicate against
      server-side request forgery.
    - Git publication ([maju-relay/src/api/git]): [GitManifest] is
      [manifest.rs]; [GitReport] the parser of the receive-pack report in
      [transport.rs]; [ObjectStore] is [store.rs], where a handler is a program
      ([Prog]) that suspends at each request to the bucket; [GitPublish] is
      [cas_publish.rs], [hydrate.rs], the push handler of [transport.rs] and the
      announcement handler of [handlers/side_effects.rs]; [GitPublishWorld] and
      [GitPublishProps] are the proof rules for programs among concurrent
      handlers and the specification of each handler; [GitSystem] is any number
      of handlers interleaved request by request, with the theorems;
      [GitMemory] a concrete bucket on which handlers are evaluated.
    - Tunnel sessions: [MeshWire] is the frames of [maju-relay-mesh]
      ([wire.rs], [peer.rs], [lib.rs]); [Directory], [DirectoryProps] are
      [maju-relay/src/tunnel/directory.rs], the leases in Redis, as a step
      relation over all runtimes; [Reliable], [ReliableProps] are
      [tunnel/reliable.rs] with the consumer in [mesh_boot.rs]: joining,
      the streams of a session, and the renewal of a lease.
    - The audit log: [AuditLog], [AuditLogProps] are [maju-audit/src], the hash
      chains of all communities, with concurrent writers ([log_step]) and the
      verification of a range.
    - Channel membership: [Membership] is the channel and member tables of
      [maju-db/src] ([channel.rs], [channel_members.rs]) with
      [maju-db/src/channel_authz.rs] and the membership commands of the relay
      ([handlers/side_effects.rs]: create, put, remove, leave, join, kick,
      metadata, delete); [MembershipProps] its invariants and authorisation.
    - Workflows: [WorkflowTemplate] is the substitution of [{{...}}] in
      [maju-workflow/src/executor.rs]; [WorkflowDef], [WorkflowDefProps] are
      [schema.rs] and the validation of a definition; [WorkflowStore] the rows
      and transactions of [maju-db/src/workflow.rs]; [WorkflowRun],
      [WorkflowRunProps] the executor, as a program over requests ([Req]);
      [WorkflowEngine] is [maju-workflow/src/lib.rs]: authority, triggers,
      events and the scheduler; [WorkflowDoors] the ways into the engine, the
      command handlers of [maju-relay/src/handlers] and the webhook route;
      [WorkflowEngineProps] their theorems; [WorkflowCluster] the schedulers of
      several pods interleaved request by request; [WorkflowSchedule] the
      instants over time.
    - [Tenant]: [maju-core/src/tenant.rs] and the binding of a request to a
      community.
    - Event ingestion ([maju-relay/src/handlers/ingest.rs]): [Program] is the
      free monad over a signature of requests, with its weakest-precondition
      rules; [IngestPolicy] the scopes of [maju-auth/src/scope.rs] and the
      policy of each kind; [Envelopes] and [EnvelopesProps] the checks of the
      shape of an event; [IngestRequests] what the pipeline asks of the other
      components; [ModerationDoors] the commands it runs itself
      ([relay_admin.rs], [moderation_commands.rs], [moderation_authz.rs],
      [report.rs]); [IngestThread] the ancestry of a reply; [Ingest] the stages
      up to [ingest_event_inner]; [IngestStages] the proof rules of stages;
      [IngestProps] the theorems.
    - Threads in the database ([maju-db/src/store/thread.rs], [event.rs]):
      [ThreadStore] is the statements on the tables of events and thread rows,
      [ThreadPages] reading a channel by windows, [ThreadCounts] the rows and
      counters as replies of [IngestThread] and deletions come in.
    - Device pairing ([maju-core/src/pairing]): [PairingWire] is the messages,
      the key schedule and the QR payload ([types.rs], [crypto.rs], [qr.rs]);
      [PairingSession] both sides of the session ([session.rs]) as operations
      on a session that may fail; [PairingProps] the theorems, over a network
      that an adversary controls.
    - Subscriptions and counts ([maju-relay/src/handlers/req.rs], [count.rs]):
      [ReadQuery] is the query of a filter ([EventQuery]) and the statements it
      becomes over the tables of [ThreadStore] ([maju-db/src/store/event.rs]);
      [ReadFilter] the pure part of the handlers, their gates and the visibility
      of an event; [ReadDoors] the handlers of [REQ] and [COUNT] as programs;
      [ReadProps] what they may send; [ReadPushdown] the agreement of a query
      with its filter; [ReadHistory] and [ReadCount] the handlers over one
      database; [ReadSamples] their evaluation.
    - Authentication: [AuthEvents] is the checks of one signed event
      ([maju-auth/src/nip42.rs], [nip98.rs]), the owner attestation of
      [maju-sdk/src/nip_oa.rs] and the device tag; [AuthLimits] the replay guard
      and the rate limiter over Redis ([nip98_replay.rs] and [rate_limit.rs] of
      [maju-auth], [nip98_replay.rs] and [rate_limiter.rs] of [maju-pubsub],
      [maju-relay/src/admission.rs]); [AuthShared] all runtimes on one Redis
      ([shared_step]) and the theorems; [AuthMemory] a Redis in memory that has
      the laws, on which guard and limiter are evaluated.

    ** How the code is modelled

    A method with [&mut self] is a function that also returns the new state; a
    state is a [Record] with the fields of the struct.  A [HashMap] is a
    [gmap], a [HashSet] a [gset], a [Vec] or [VecDeque] a list.  Where the code
    iterates over a hash table in an order the standard library leaves open,
    the order is the class [HashOrder] and the theorems hold for all orders.
    Clocks, jitter and fresh identifiers are arguments.  Integers are [Z] with
    the width's wrap-around or saturation written out ([wrap], [wrapping_add],
    [saturating_mul], [in_width]).  Fallible code returns [option] or [result].
    Code that waits for a shared service is cut at each call: the git handlers
    are programs, the audit log and the directory are step relations; other
    handlers run between any two calls, and a call may fail before or after it
    took effect.  Where a theorem is about one database that does not change
    meanwhile, a program is run along an environment that answers each request
    ([along] of [Program]).  Logging and metrics are left out.

    Code outside the repository is a parameter, with its documented behaviour
    as laws: the tag and filter types of the [nostr] crate ([NostrLib]), the
    channels of tokio ([ChannelLib] of [AudioRoom]), the expression engines
    (an argument), the bucket ([S3Lib], [S3Laws]), SHA-256 ([DigestLib],
    [Sha256Lib]), [serde_json] ([SerdeLib], [JsonLib]), Redis ([RedisLib],
    [RedisLaws]), [postcard] and the runtime id ([PostcardLib], [RuntimeLib]),
    [chrono] and the columns of PostgreSQL ([ChronoLib], [ColumnLib]), numbers
    and printing of JSON ([JsonNum], [JsonPrint]), [npub] encoding ([NpubLib]),
    cron expressions ([CronLib], with [CronLaws]), the expression language of
    step conditions ([EvalLib]), the clock and the identifiers of runs
    ([RunLib]), the token digest and hexadecimal ([TokenDigest], [HexLib],
    [HexEncode], [HexDecode]), the key
    derivation, key parsing, URIs and encryption of the pairing session
    ([HkdfLib], [KeyLib], [QrLib], [PairingCrypto]), parsing of UUIDs
    ([UuidParse]), the times that [chrono] can represent ([TimeRange]), the
    decoding of a row ([RowDecode]), URLs, signatures and JSON of authentication
    ([UrlLib], [SignatureLib], [AuthJson]) and a Redis with expiry
    ([ExpiringRedis], [ExpiringRedisLaws]).  The
    witnesses instantiate them ([slice_lib], [bounded_channels], [GitMemory]
    and the [demo] instances).  Statements that need SHA-256 to be free of
    collisions say so of the bodies that occur in the execution, or return the
    collision.

    Some loops of the sources are not structural and run on fuel.  The eviction
    loop of the queue gets the number of events of the channel; every round
    pops one, and [EventQueueFacts] shows that the loop ends below the cap.  The
    index allocator of a room makes 255 rounds, as in the code; the theorem on
    admission shows that it finds an index whenever the room is below its
    participant cap.  The pkt-line iterator gets the length of its input;
    [report_scan_exact] shows that a quarter of it and one is enough.  The chunks of a payload get
    its length, and every chunk takes at least one byte.
    Retries of the git handlers are bounded by the code's own constants.  The
    template scanner and the loop over the steps of a workflow get a measure of
    their input, the scheduler as many rounds as the statement asks for.

    ** What the theorems show

    - The event queue: bounded and coherent in every reachable state
      ([queue_invariant]); which scope a flush takes, with which batch
      ([flush_next_dispatch], [flushable_iff_flush]); no event lost on the hold
      path ([hold_round_trip]) or by expiry ([in_flight_expiry]); the retry
      policy and its dead letter ([requeue_retry_policy]); channel clean-up and
      native steering ([native_steer_withholding]).
    - The subscription registry: the indexed fan-out refines a scan of all
      subscriptions with the declarative filter semantics ([fan_out_exact]);
      indexes stay exact ([registry_indexes_exact]); no leak through stale
      candidates or after a revocation ([stale_candidates_never_leak],
      [channel_revocation]).
    - Audio rooms: the room invariant, admission, automatic end, epochs, and the
      frame header.
    - Git publication: the history of a repository's pointer is one line of
      publishable manifests ([published_history_linear]); a push that reports
      success is in it, one that is refused is not, and readers see only members
      of it ([push_success_is_durable], [denied_push_publishes_nothing],
      [push_conflict_truthful], [reads_never_see_corruption]); an announcement
      never overwrites ([announcement_never_overwrites]); canonical bytes and
      object keys are injective; the report scan is exact.
    - Tunnel sessions: at most one live lease per session and fenced
      generations ([lease_fencing], [stale_owner_stays_fenced],
      [owner_calls_truthful]); in-order delivery over a stream that may break at
      any byte or be ended by the fence ([session_stream_delivery]), and fenced
      against another generation ([delivery_fenced]); a join reaches the owner ([join_reaches_owner]); a
      lost lease is noticed ([renewer_fails_loud]).
    - The audit log: chains are gap-free under concurrent writers
      ([audit_chains_linear]), verify after the round trip through the database
      ([logged_chains_verify]) and detect tampering with everything that is not
      at the beginning of the verified range ([tampering_detected]).
    - Channel membership: a channel keeps an owner ([channels_keep_an_owner]),
      every change is made by somebody the rules allow
      ([membership_changes_authorised]).
    - Workflows: template substitution is exact and never rescans what it
      inserted; a definition that is accepted is well-formed and its graph of
      steps runs forward; every effect of a run was permitted when it was made,
      on outputs that are what the outside answered ([run_effects_are_permitted]),
      and the stored row tells how far the run came and why it stopped, by a
      reading of the answers that does not use the executor
      ([run_ends_with_its_result]); a run starts only with the authority the
      author has at that moment ([runs_start_with_current_authority]); any
      number of pods fire a scheduled instant at most once
      ([scheduled_fires_at_most_once]); interval workflows keep firing
      ([interval_workflows_keep_firing]).
    - Event ingestion: an event is written only after every gate
      ([stored_events_passed_every_gate]) and the answer tells what was stored
      and sent, a revived reaction included ([answer_tells_what_was_stored]); the envelope checks accept
      exactly the well-formed contents ([not_before_exact],
      [nip44_content_exact], [project_envelope_exact]).
    - Threads: depth and shape of the rows are bounded ([thread_rows_bounded]),
      counters are exact as long as the time of every root is known and no
      deletion reads its event's row too early ([thread_counters_exact],
      [stale_deletion_leaves_count]), and the windows of a channel
      show every message once ([channel_pages_cover]).
    - Device pairing: a session moves only along the protocol
      ([session_follows_protocol]); when both sides complete they agree on the
      transcript ([pairing_agreement]).
    - Subscriptions and counts: whatever the database, the search and the
      caches answer, a reader is sent only what it may see, and a subscription
      is registered only after the gates ([requests_read_only_what_is_allowed]);
      over one database the history of a subscription is complete
      ([subscription_is_answered_in_full]), and a count is the number of
      events that its reader may see ([count_is_exact]), both for requests and
      rows of the usual form; [ReadSamples] shows what happens otherwise.
    - Authentication limits: a signed HTTP authorization is admitted once within
      its window, up to the last second of one that was stamped ahead
      ([http_authorization_admitted_once]); the fixed-window limiter admits at
      most twice its limit in any stretch as long as its window
      ([rate_limit_bounds_every_interval]).
    - Isolation and safety checks: the trace checker decides the conformance
      predicate and explains its rejections; the egress check is sound and
      complete for the history; the address predicate equals its deny table;
      rule matching fails closed; pushes are allowed exactly by the rules.
    - Data: kinds, filters, thread markers and session scopes.

    ** What is not modelled

    Cryptography, HTTP and WebSocket transport, the processes of git and of
    agents, the user interfaces and, beyond the interfaces named above, the
    database, Redis and object stores: they are calls to systems outside the
    sources.  Within the modelled files: the formatting of prompts in
    [queue.rs], [build_eval_context] of the harness's [filter.rs], the tracer
    sinks of [maju-conformance], the level meter of the desktop's [wire.rs]
    (floating point), the start-up probe of the git store, the transfer of git
    packs into a scratch directory, the connection management of the mesh, the
    HTTP routes of the audit log, roster snapshots and the lookup of direct
    messages, the checks of imeta tags and link previews, push leases, device
    sessions, identity archives and product feedback (requests of the ingest
    pipeline), the full-text search, the links of huddles and the routing of
    reads to replicas, trace emission and the participants of a thread summary, and the approvals of workflow steps as far as no code creates
    them.  Error texts are constructors or
    shortened where no code reads them.

    ** Plan

    Next: the handlers around authentication ([handlers/auth.rs], the doors of
    [api]), mentions in workflow messages ([workflow_sink.rs]), the deletion of communities ([maju-deletion]), mesh
    membership and gossip ([maju-relay-mesh]), reconciliation
    ([maju-backend-kubernetes]) and personas ([maju-persona]). *)
From Stdlib Require Export Ascii.
From stdpp Require Export base gmap list strings sorting pretty.
From Stdlib Require Export ZArith Lia.

Declare Scope maju_scope.
Delimit Scope maju_scope with maju.
Open Scope maju_scope.

(** Comparisons with large constants must not be unfolded by [simpl]. *)
#[global] Arguments Nat.leb : simpl never.
#[global] Arguments Nat.ltb : simpl never.

(** ** Rust's [Result] *)

Inductive result (E A : Type) : Type :=
  | Ok (a : A)
  | Err (e : E).
Arguments Ok {E A} a.
Arguments Err {E A} e.

#[export] Instance result_ret {E} : MRet (result E) := λ A a, Ok a.
#[export] Instance result_bind {E} : MBind (result E) := λ A B f m,
  match m with Ok a => f a | Err e => Err e end.
#[export] Instance result_eq_dec {E A} `{EqDecision E, EqDecision A} :
  EqDecision (result E A).
Proof. solve_decision. Defined.

(** [Result::map_err]. *)
Definition map_err {E F A} (f : E → F) (m : result E A) : result F A :=
  match m with Ok a => Ok a | Err e => Err (f e) end.

(** [Result::err]. *)
Definition err {E A} (m : result E A) : option E :=
  match m with Ok _ => None | Err e => Some e end.

Definition is_ok {E A} (m : result E A) : bool :=
  match m with Ok _ => true | Err _ => false end.

(** ** Machine integers

    Unsigned [w]-bit integers are [Z]; the operations the sources use with
    wrap-around or saturation are written out. *)

Definition wrap (w : Z) (z : Z) : Z := z `mod` 2 ^ w.
Definition wrapping_add (w x y : Z) : Z := wrap w (x + y).
Definition saturating_mul (w x y : Z) : Z := Z.min (x * y) (2 ^ w - 1).
Definition in_width (w z : Z) : Prop := (0 ≤ z < 2 ^ w)%Z.

(** ** Strings

    A Rust [&str] is the [string] of its UTF-8 bytes. *)

Fixpoint strip_prefix (p s : string) : option string :=
  match p, s with
  | EmptyString, _ => Some s
  | String a p', String b s' => if Ascii.eqb a b then strip_prefix p' s' else None
  | _, _ => None
  end.

Definition starts_with (p s : string) : bool :=
  match strip_prefix p s with Some _ => true | None => false end.

(** [str::split(c)]. *)
Fixpoint str_split (c : ascii) (s : string) : list string :=
  match s with
  | EmptyString => [EmptyString]
  | String a s' =>
      let ws := str_split c s' in
      if Ascii.eqb a c then EmptyString :: ws
      else match ws with
           | [] => [String a EmptyString]
           | w :: ws' => String a w :: ws'
           end
  end.

(** [slice::join]. *)
Fixpoint str_join (c : ascii) (l : list string) : string :=
  match l with
  | [] => EmptyString
  | [w] => w
  | w :: l' => w +:+ String c (str_join c l')
  end.

Fixpoint str_forall (f : ascii → bool) (s : string) : bool :=
  match s with EmptyString => true | String a s' => f a && str_forall f s' end.

Fixpoint str_contains_char (c : ascii) (s : string) : bool :=
  match s with EmptyString => false | String a s' => Ascii.eqb a c || str_contains_char c s' end.

Definition in_range (lo hi : nat) (c : ascii) : bool :=
  (lo <=? nat_of_ascii c) && (nat_of_ascii c <=? hi).

Definition is_ascii_digit (c : ascii) : bool := in_range 48 57 c.
Definition is_ascii_upper (c : ascii) : bool := in_range 65 90 c.
Definition is_ascii_lower (c : ascii) : bool := in_range 97 122 c.
Definition is_ascii_alphanumeric (c : ascii) : bool :=
  is_ascii_digit c || is_ascii_upper c || is_ascii_lower c.
Definition is_ascii_hexdigit (c : ascii) : bool :=
  is_ascii_digit c || in_range 65 70 c || in_range 97 102 c.

Definition to_ascii_lowercase_char (c : ascii) : ascii :=
  if is_ascii_upper c then ascii_of_nat (nat_of_ascii c + 32) else c.
Fixpoint to_ascii_lowercase (s : string) : string :=
  match s with
  | EmptyString => EmptyString
  | String a s' => String (to_ascii_lowercase_char a) (to_ascii_lowercase s')
  end.

(** ** Iterator idioms *)

(** [Iterator::min_by_key]: the first element with the least key. *)
Fixpoint min_by_key {A} (f : A → Z) (l : list A) : option A :=
  match l with
  | [] => None
  | x :: l' =>
      match min_by_key f l' with
      | None => Some x
      | Some y => if (f y <? f x)%Z then Some y else Some x
      end
  end.

(** The idiom [if seen.insert(x) { out.push(x) }] over a sequence. *)
Definition push_unseen {A} `{EqDecision A} (out : list A) (x : A) : list A :=
  if decide (x ∈ out) then out else out ++ [x].
Definition dedup {A} `{EqDecision A} (l : list A) : list A := foldl push_unseen [] l.

(** [Iterator::position] on a decidable predicate. *)
Fixpoint position {A} (f : A → bool) (l : list A) : option nat :=
  match l with
  | [] => None
  | x :: l' => if f x then Some 0%nat else S <$> position f l'
  end.

(** [Iterator::find_map]. *)
Definition find_map {A B} (f : A → option B) (l : list A) : option B := head (omap f l).

(** [Vec::remove] / [VecDeque::remove] at an index: the element and the rest. *)
Definition remove_at {A} (n : nat) (l : list A) : option (A * list A) :=
  match l !! n with
  | Some x => Some (x, take n l ++ drop (S n) l)
  | None => None
  end.

(** ** Hash maps

    [HashMap]/[DashMap] iterate in an unspecified order.  The order is a
    parameter of every definition that iterates: an instance of [HashOrder].
    All theorems hold for every instance; evaluation uses [canonical_order]. *)

Class HashOrder : Type := {
  hash_iter : ∀ {K A : Type} `{Countable K}, gmap K A → list (K * A);
  hash_iter_perm : ∀ {K A : Type} `{Countable K} (m : gmap K A),
    hash_iter m ≡ₚ map_to_list m
}.

Definition canonical_order : HashOrder := {|
  hash_iter := λ K A _ _ m, map_to_list m;
  hash_iter_perm := λ K A _ _ m, reflexivity _
|}.

(** [map.entry(k).or_default()] on a map of lists, and the clean-up idiom
    "remove the key when its list became empty". *)
Definition get_list {K A} `{Countable K} (m : gmap K (list A)) (k : K) : list A :=
  default [] (m !! k).
Definition put_list {K A} `{Countable K} (k : K) (l : list A) (m : gmap K (list A)) :
  gmap K (list A) :=
  match l with [] => delete k m | _ => <[k := l]> m end.

(** ** Tactics and hints *)

Create HintDb maju discriminated.
#[export] Hint Constants Opaque : maju.

(** Case analysis on every [match] and [decide] of the goal, closing what
    computation and congruence close. *)
Ltac split_cases :=
  repeat (first [case_match | case_decide]; simplify_eq/=; try done).

(** Reduce boolean connectives in hypotheses and goal to propositions. *)
Ltac boolify :=
  repeat match goal with
  | H : (_ && _)%bool = true |- _ => apply andb_true_iff in H; destruct H
  | H : (_ && _)%bool = false |- _ => apply andb_false_iff in H
  | H : (_ || _)%bool = false |- _ => apply orb_false_iff in H; destruct H
  | H : (_ || _)%bool = true |- _ => apply orb_true_iff in H
  | H : negb _ = true |- _ => apply negb_true_iff in H
  | H : negb _ = false |- _ => apply negb_false_iff in H
  | H : bool_decide _ = true |- _ => apply bool_decide_eq_true in H
  | H : bool_decide _ = false |- _ => apply bool_decide_eq_false in H
  | H : (_ =? _)%Z = true |- _ => apply Z.eqb_eq in H
  | H : (_ =? _)%Z = false |- _ => apply Z.eqb_neq in H
  | H : (_ <? _)%Z = true |- _ => apply Z.ltb_lt in H
  | H : (_ <? _)%Z = false |- _ => apply Z.ltb_ge in H
  | H : (_ <=? _)%Z = true |- _ => apply Z.leb_le in H
  | H : (_ <=? _)%Z = false |- _ => apply Z.leb_gt in H
  | H : (_ =? _)%nat = true |- _ => apply Nat.eqb_eq in H
  | H : (_ =? _)%nat = false |- _ => apply Nat.eqb_neq in H
  | H : (_ <=? _)%nat = true |- _ => apply Nat.leb_le in H
  | H : (_ <=? _)%nat = false |- _ => apply Nat.leb_gt in H
  | H : (_ <? _)%nat = true |- _ => apply Nat.ltb_lt in H
  | H : (_ <? _)%nat = false |- _ => apply Nat.ltb_ge in H
  | H : (_ =? _)%string = true |- _ => apply String.eqb_eq in H
  | H : (_ =? _)%string = false |- _ => apply String.eqb_neq in H
  end.

(** ** Lemmas on results *)

Lemma bind_ok {E A B} (f : A → result E B) m b :
  m ≫= f = Ok b ↔ ∃ a, m = Ok a ∧ f a = Ok b.
Proof. destruct m; naive_solver. Qed.

Lemma err_None_ok {E A} (m : result E A) : err m = None ↔ is_ok m = true.
Proof. by destruct m. Qed.

(** ** Lemmas on strings *)

Lemma str_app_assoc (s t u : string) : (s +:+ t) +:+ u = s +:+ (t +:+ u).
Proof. induction s as [|c s IH]; [done|]. exact (f_equal (String c) IH). Qed.

Lemma strip_prefix_app p s : strip_prefix p (p +:+ s) = Some s.
Proof. induction p as [|a p IH]; simpl; [done|]. by rewrite Ascii.eqb_refl. Qed.

Lemma strip_prefix_Some p s r : strip_prefix p s = Some r ↔ s = p +:+ r.
Proof.
  split; [|intros ->; apply strip_prefix_app].
  revert s; induction p as [|a p IH]; intros [|b s] H; simplify_eq/=; try done.
  destruct (Ascii.eqb_spec a b) as [->|]; [|done]. by rewrite (IH s).
Qed.

Lemma str_split_nonempty c s : str_split c s ≠ [].
Proof. destruct s; simpl; [done|]. by repeat case_match. Qed.

Lemma str_join_cons c w ws : ws ≠ [] → str_join c (w :: ws) = w +:+ String c (str_join c ws).
Proof. by destruct ws. Qed.

(** Splitting and joining on the same character is the identity. *)
Lemma str_join_split c s : str_join c (str_split c s) = s.
Proof.
  induction s as [|a s IH]; simpl; [done|].
  pose proof (str_split_nonempty c s) as Hne.
  destruct (Ascii.eqb_spec a c) as [->|].
  - rewrite str_join_cons by done. by rewrite IH.
  - destruct (str_split c s) as [|w [|w' ws]]; [done| |]; simpl in *; by rewrite <- IH.
Qed.

Lemma str_split_no_sep c s w : w ∈ str_split c s → str_contains_char c w = false.
Proof.
  revert w; induction s as [|a s IH]; intros w; simpl.
  - by intros ->%list_elem_of_singleton.
  - destruct (Ascii.eqb a c) eqn:E.
    + intros [->|Hw]%elem_of_cons; [done|auto].
    + destruct (str_split c s) as [|w' ws].
      * intros ->%list_elem_of_singleton; simpl. by rewrite E.
      * intros [->|Hw]%elem_of_cons; simpl.
        -- rewrite E. apply IH; left.
        -- apply IH; by right.
Qed.

Lemma str_split_no_char c s : str_contains_char c s = false → str_split c s = [s].
Proof.
  induction s as [|a s IH]; simpl; [done|]. intros [H1 H2]%orb_false_iff.
  by rewrite H1, IH.
Qed.

Lemma str_split_cons c w s :
  str_contains_char c w = false → str_split c (w +:+ String c s) = w :: str_split c s.
Proof.
  induction w as [|a w IH]; simpl; [by rewrite Ascii.eqb_refl|].
  intros [H1 H2]%orb_false_iff. by rewrite H1, IH.
Qed.

(** Splitting a join gives the pieces back when none contains the separator. *)
Lemma str_split_join c l :
  l ≠ [] → Forall (λ w, str_contains_char c w = false) l → str_split c (str_join c l) = l.
Proof.
  intros Hne Hl. induction l as [|w [|w' l] IH]; [done| |]; inversion Hl; subst.
  - by apply str_split_no_char.
  - rewrite str_join_cons by done. rewrite str_split_cons by done. f_equal. by apply IH.
Qed.

Lemma str_forall_no_char f c s :
  f c = false → str_forall f s = true → str_contains_char c s = false.
Proof.
  intros Hc. induction s as [|a s IH]; simpl; [done|]. intros [Ha Hs]%andb_true_iff.
  apply orb_false_iff; split; [|auto].
  destruct (Ascii.eqb_spec a c); [congruence|done].
Qed.

(** ** More iterator and map idioms *)

(** [slice::sort_by_key] is a stable sort. *)
Fixpoint insert_by_key {A} (f : A → Z) (x : A) (l : list A) : list A :=
  match l with
  | [] => [x]
  | y :: l' => if (f x <=? f y)%Z then x :: l else y :: insert_by_key f x l'
  end.
Definition sort_by_key {A} (f : A → Z) (l : list A) : list A := foldr (insert_by_key f) [] l.

(** [for x in l.into_iter().rev() { queue.push_front(x) }]. *)
Definition push_front_rev {A} (l queue : list A) : list A :=
  foldl (λ acc x, x :: acc) queue (reverse l).

(** Sum of [f k v] over the entries of a map. *)
Definition map_sum {K A} `{Countable K} (f : K → A → nat) (m : gmap K A) : nat :=
  sum_list_with (λ kv, f kv.1 kv.2) (map_to_list m).

(** All elements of a map of lists, in canonical order. *)
Definition map_flat {K A} `{Countable K} (m : gmap K (list A)) : list A :=
  concat ((map_to_list m).*2).

(** [sort] and [dedup] of strings; strings are compared by bytes. *)
Fixpoint insert_str (s : string) (l : list string) : list string :=
  match l with
  | [] => [s]
  | t :: l' => if String.leb s t then s :: l else t :: insert_str s l'
  end.
Definition sort_str (l : list string) : list string := foldr insert_str [] l.

Fixpoint dedup_str (l : list string) : list string :=
  match l with
  | s :: (t :: _) as l' => if (s =? t)%string then dedup_str l' else s :: dedup_str l'
  | _ => l
  end.

(** The keys of a [BTreeMap], in order. *)
Definition btree_keys {A} (m : gmap string A) : list string := sort_str ((map_to_list m).*1).

Lemma push_front_rev_app {A} (l queue : list A) : push_front_rev l queue = l ++ queue.
Proof.
  unfold push_front_rev. rewrite <- (reverse_involutive l) at 2. generalize (reverse l) as r.
  intros r; revert queue; induction r as [|x r IH]; intros queue; simpl; [done|].
  rewrite IH, reverse_cons, <- app_assoc. done.
Qed.

Lemma min_by_key_None {A} (f : A → Z) l : min_by_key f l = None ↔ l = [].
Proof. destruct l; simpl; [done|]. by repeat case_match. Qed.

Lemma min_by_key_Some {A} (f : A → Z) l x :
  min_by_key f l = Some x → x ∈ l ∧ ∀ y, y ∈ l → (f x ≤ f y)%Z.
Proof.
  revert x; induction l as [|z l IH]; intros x; simpl; [done|].
  destruct (min_by_key f l) as [y|] eqn:E.
  - destruct (IH y eq_refl) as [Hin Hle]. case_match; boolify; intros [= <-];
      (split; [set_solver|]); intros w [->|Hw]%elem_of_cons; try lia; specialize (Hle w Hw); lia.
  - apply min_by_key_None in E as ->. intros [= <-]. split; [set_solver|].
    intros y ->%list_elem_of_singleton. lia.
Qed.

Lemma insert_by_key_perm {A} (f : A → Z) x l : insert_by_key f x l ≡ₚ x :: l.
Proof.
  induction l as [|y l IH]; simpl; [done|]. case_match; [done|].
  rewrite IH. apply Permutation_swap.
Qed.

Lemma sort_by_key_perm {A} (f : A → Z) l : sort_by_key f l ≡ₚ l.
Proof. induction l as [|x l IH]; simpl; [done|]. by rewrite insert_by_key_perm, IH. Qed.

Definition key_le {A} (f : A → Z) (x y : A) : Prop := (f x ≤ f y)%Z.

Lemma insert_by_key_sorted {A} (f : A → Z) x l :
  StronglySorted (key_le f) l → StronglySorted (key_le f) (insert_by_key f x l).
Proof.
  induction 1 as [|y l Hl IH Hy]; simpl; [by repeat constructor|].
  case_match; boolify.
  - constructor; [by constructor|]. constructor; [done|].
    eapply Forall_impl; [exact Hy|]. unfold key_le. intros; lia.
  - constructor; [done|]. rewrite insert_by_key_perm. constructor; [unfold key_le; lia|done].
Qed.

Lemma sort_by_key_sorted {A} (f : A → Z) l : StronglySorted (key_le f) (sort_by_key f l).
Proof. induction l; simpl; [constructor|]. by apply insert_by_key_sorted. Qed.

(** Stability: elements with the same key keep their order. *)
Lemma insert_by_key_stable {A} (f : A → Z) (k : Z) x l :
  List.filter (λ y, (f y =? k)%Z) (insert_by_key f x l) =
  List.filter (λ y, (f y =? k)%Z) (x :: l).
Proof.
  induction l as [|y l IH]; simpl in *; [done|].
  destruct (f x <=? f y)%Z eqn:E; [done|]. boolify. simpl. rewrite IH.
  destruct (f x =? k)%Z eqn:Ex, (f y =? k)%Z eqn:Ey; boolify; try done. lia.
Qed.

Lemma sort_by_key_stable {A} (f : A → Z) (k : Z) l :
  List.filter (λ y, (f y =? k)%Z) (sort_by_key f l) = List.filter (λ y, (f y =? k)%Z) l.
Proof.
  induction l as [|x l IH]; [done|]. change (sort_by_key f (x :: l)) with (insert_by_key f x (sort_by_key f l)).
  rewrite insert_by_key_stable. simpl. by rewrite IH.
Qed.

Section unseen.
Context {A : Type} `{EqDecision A}.

Lemma elem_of_push_unseen (out : list A) x y : y ∈ push_unseen out x ↔ y ∈ out ∨ y = x.
Proof. unfold push_unseen. case_decide; set_solver. Qed.

Lemma elem_of_push_all (acc l : list A) y : y ∈ foldl push_unseen acc l ↔ y ∈ acc ∨ y ∈ l.
Proof.
  revert acc; induction l as [|x l IH]; intros acc; simpl; [set_solver|].
  rewrite IH, elem_of_push_unseen. set_solver.
Qed.

Lemma NoDup_push_unseen (out : list A) x : NoDup out → NoDup (push_unseen out x).
Proof.
  intros Hout. unfold push_unseen. case_decide; [done|].
  apply NoDup_app. split_and!; [done|set_solver|apply NoDup_singleton].
Qed.

End unseen.

Section maps.
Context {K A : Type} `{Countable K}.
Implicit Types (k : K).

Lemma hash_iter_elem {HO : HashOrder} (m : gmap K A) k a :
  (k, a) ∈ hash_iter m ↔ m !! k = Some a.
Proof. by rewrite hash_iter_perm, elem_of_map_to_list. Qed.

Lemma hash_iter_keys {HO : HashOrder} (m : gmap K A) k :
  k ∈ (hash_iter m).*1 ↔ is_Some (m !! k).
Proof.
  rewrite list_elem_of_fmap. split.
  - intros ([k' a] & -> & ?%hash_iter_elem). by exists a.
  - intros [a ?]. exists (k, a). by rewrite hash_iter_elem.
Qed.

Lemma get_list_lookup (m : gmap K (list A)) k l : m !! k = Some l → get_list m k = l.
Proof. unfold get_list. by intros ->. Qed.

Lemma get_list_ne_nil (m : gmap K (list A)) k : get_list m k ≠ [] → m !! k = Some (get_list m k).
Proof. unfold get_list. by destruct (m !! k). Qed.

Lemma lookup_put_list (m : gmap K (list A)) k k' l :
  put_list k l m !! k' = if decide (k = k') then (match l with [] => None | _ => Some l end) else m !! k'.
Proof.
  unfold put_list. destruct l; case_decide; subst;
    by rewrite ?lookup_delete_eq, ?lookup_delete_ne, ?lookup_insert_eq, ?lookup_insert_ne by done.
Qed.

Lemma get_put_list (m : gmap K (list A)) k k' l :
  get_list (put_list k l m) k' = if decide (k = k') then l else get_list m k'.
Proof. unfold get_list. rewrite lookup_put_list. case_decide; [|done]. by destruct l. Qed.

Lemma put_list_idemp (m : gmap K (list A)) k l1 l2 : put_list k l1 (put_list k l2 m) = put_list k l1 m.
Proof.
  apply map_eq; intros k'. rewrite !lookup_put_list. by case_decide.
Qed.

Lemma map_sum_delete (f : K → A → nat) m k a :
  m !! k = Some a → map_sum f m = f k a + map_sum f (delete k m).
Proof. intros Hk. unfold map_sum. by rewrite <- (map_to_list_delete m k a Hk). Qed.

Lemma map_sum_insert (f : K → A → nat) m k a :
  map_sum f (<[k := a]> m) = f k a + map_sum f (delete k m).
Proof.
  rewrite (map_sum_delete f _ k a) by apply lookup_insert_eq. by rewrite delete_insert_eq.
Qed.

Lemma map_sum_ext (f g : K → A → nat) m :
  (∀ k a, m !! k = Some a → f k a = g k a) → map_sum f m = map_sum g m.
Proof.
  intros Hfg. unfold map_sum.
  assert (∀ kv, kv ∈ map_to_list m → f kv.1 kv.2 = g kv.1 kv.2) as Hl
    by (intros [k a] ?%elem_of_map_to_list; by apply Hfg).
  revert Hl. generalize (map_to_list m). induction l as [|kv l IH]; intros Hl; simpl; [done|].
  rewrite Hl by left. rewrite IH; [done|]. intros; apply Hl; by right.
Qed.

Lemma map_flat_delete (m : gmap K (list A)) k : map_flat m ≡ₚ get_list m k ++ map_flat (delete k m).
Proof.
  unfold map_flat, get_list. destruct (m !! k) as [l|] eqn:E; simpl.
  - by rewrite <- (map_to_list_delete m k l E).
  - by rewrite delete_id.
Qed.

Lemma map_flat_insert (m : gmap K (list A)) k l : map_flat (<[k := l]> m) ≡ₚ l ++ map_flat (delete k m).
Proof.
  rewrite (map_flat_delete _ k), delete_insert_eq. by rewrite (get_list_lookup _ k l) by apply lookup_insert_eq.
Qed.

Lemma map_flat_put (m : gmap K (list A)) k l : map_flat (put_list k l m) ≡ₚ l ++ map_flat (delete k m).
Proof. destruct l; simpl; [done|]. apply map_flat_insert. Qed.

Lemma elem_of_map_flat (m : gmap K (list A)) (x : A) :
  x ∈ map_flat m ↔ ∃ k l, m !! k = Some l ∧ x ∈ l.
Proof.
  unfold map_flat. rewrite list_elem_of_In, in_concat. split.
  - intros (l & Hl & Hx). apply list_elem_of_In, list_elem_of_fmap in Hl as ([k l'] & -> & Hk%elem_of_map_to_list).
    exists k, l'. by rewrite list_elem_of_In.
  - intros (k & l & Hk & Hx). exists l. rewrite <- !list_elem_of_In. split; [|done].
    apply list_elem_of_fmap. exists (k, l). by rewrite elem_of_map_to_list.
Qed.

End maps.

(** ** Sorted strings *)

Definition str_le (s t : string) : Prop := String.leb s t = true.

Lemma str_le_total s t : str_le s t ∨ str_le t s.
Proof. apply String.leb_total. Qed.

Lemma str_leb_compare s t : String.leb s t = true ↔ String.compare s t ≠ Gt.
Proof. unfold String.leb. by destruct (String.compare s t). Qed.

Lemma ascii_compare_trans_lt a b c :
  Ascii.compare a b = Lt → Ascii.compare b c = Lt → Ascii.compare a c = Lt.
Proof. unfold Ascii.compare. rewrite !N.compare_lt_iff. lia. Qed.

Lemma str_le_trans s t u : str_le s t → str_le t u → str_le s u.
Proof.
  unfold str_le. rewrite !str_leb_compare.
  revert t u; induction s as [|a s IH]; intros [|b t] [|c u]; simpl; try done.
  destruct (Ascii.compare a b) eqn:Eab; [|..|done]; destruct (Ascii.compare b c) eqn:Ebc; try done; intros H1 H2.
  - apply Ascii.compare_eq_iff in Eab as ->. rewrite Ebc. apply Ascii.compare_eq_iff in Ebc as ->. by eapply IH.
  - apply Ascii.compare_eq_iff in Eab as ->. by rewrite Ebc.
  - apply Ascii.compare_eq_iff in Ebc as ->. by rewrite Eab.
  - by rewrite (ascii_compare_trans_lt _ _ _ Eab Ebc).
Qed.

Lemma elem_of_insert_str s t l : s ∈ insert_str t l ↔ s = t ∨ s ∈ l.
Proof.
  induction l as [|u l IH]; simpl; [set_solver|]. case_match; [set_solver|]. rewrite !elem_of_cons, IH. tauto.
Qed.

Lemma elem_of_sort_str s l : s ∈ sort_str l ↔ s ∈ l.
Proof. induction l as [|u l IH]; simpl; [done|]. by rewrite elem_of_insert_str, IH, elem_of_cons. Qed.

Lemma insert_str_perm t l : insert_str t l ≡ₚ t :: l.
Proof. induction l as [|u l IH]; simpl; [done|]. case_match; [done|]. rewrite IH. apply Permutation_swap. Qed.

Lemma sort_str_perm l : sort_str l ≡ₚ l.
Proof. induction l as [|u l IH]; simpl; [done|]. by rewrite insert_str_perm, IH. Qed.

Lemma insert_str_sorted t l : StronglySorted str_le l → StronglySorted str_le (insert_str t l).
Proof.
  induction 1 as [|u l Hl IH Hu]; simpl; [repeat constructor|].
  destruct (String.leb t u) eqn:E.
  - constructor; [by constructor|]. constructor; [done|]. eapply Forall_impl; [exact Hu|].
    intros x Hx. by eapply str_le_trans.
  - constructor; [done|]. apply Forall_forall. intros x Hx. apply elem_of_insert_str in Hx as [->|Hx].
    + destruct (str_le_total t u) as [H|H]; [unfold str_le in H; congruence|done].
    + by eapply Forall_forall in Hu.
Qed.

Lemma sort_str_sorted l : StronglySorted str_le (sort_str l).
Proof. induction l; simpl; [constructor|by apply insert_str_sorted]. Qed.

Lemma sort_str_id l : StronglySorted str_le l → sort_str l = l.
Proof.
  induction 1 as [|u l Hl IH Hu]; simpl; [done|]. rewrite IH. destruct Hu as [|v l Huv]; simpl; [done|].
  by unfold str_le in Huv; rewrite Huv.
Qed.

Lemma dedup_str_cons s t l :
  dedup_str (s :: t :: l) = if (s =? t)%string then dedup_str (t :: l) else s :: dedup_str (t :: l).
Proof. done. Qed.
Arguments dedup_str : simpl never.

Lemma elem_of_dedup_str s l : s ∈ dedup_str l ↔ s ∈ l.
Proof.
  induction l as [|u [|v l] IH]; [done|done|]. rewrite dedup_str_cons. destruct (u =? v)%string eqn:E.
  - apply String.eqb_eq in E as ->. rewrite IH. set_solver.
  - rewrite elem_of_cons, IH. set_solver.
Qed.

Lemma dedup_str_Forall (P : string → Prop) l : Forall P l → Forall P (dedup_str l).
Proof. rewrite !Forall_forall. intros H x Hx. apply H. by apply elem_of_dedup_str. Qed.

Lemma dedup_str_sorted l : StronglySorted str_le l → StronglySorted str_le (dedup_str l).
Proof.
  induction l as [|u [|v l] IH]; [done|done|]. rewrite dedup_str_cons. intros H. inversion H as [|?? Hl Hu]; subst.
  destruct (u =? v)%string; [by apply IH|]. constructor; [by apply IH|]. by apply dedup_str_Forall.
Qed.

Lemma dedup_str_head u l : ∃ l', dedup_str (u :: l) = u :: l'.
Proof.
  revert u; induction l as [|v l IH]; intros u; [by eexists|]. rewrite dedup_str_cons.
  destruct (u =? v)%string eqn:E; [apply String.eqb_eq in E as ->; apply IH|by eexists].
Qed.

Lemma dedup_str_idemp l : dedup_str (dedup_str l) = dedup_str l.
Proof.
  induction l as [|u [|v l] IH]; [done|done|]. rewrite dedup_str_cons. destruct (u =? v)%string eqn:E; [done|].
  destruct (dedup_str_head v l) as [l' Hl']. rewrite Hl' in *. by rewrite dedup_str_cons, E, IH.
Qed.

Lemma str_le_antisym s t : str_le s t → str_le t s → s = t.
Proof.
  unfold str_le. rewrite !str_leb_compare, (String.compare_antisym t s). intros H1 H2.
  apply String.compare_eq_iff. by destruct (String.compare s t).
Qed.

Lemma dedup_str_NoDup l : StronglySorted str_le l → NoDup (dedup_str l).
Proof.
  induction l as [|u [|v l] IH]; intros H; [constructor|apply NoDup_singleton|]. rewrite dedup_str_cons.
  inversion H as [|?? Hl Hu]; subst. destruct (u =? v)%string eqn:E; [by apply IH|].
  constructor; [|by apply IH]. rewrite elem_of_dedup_str. intros Hin. apply String.eqb_neq in E. apply E.
  inversion Hu as [|?? Huv]; subst. apply str_le_antisym; [done|].
  apply elem_of_cons in Hin as [->|Hin]; [by apply str_le_antisym in Huv|].
  inversion Hl as [|?? _ Hv]; subst. by eapply Forall_forall in Hv.
Qed.

(** A sorted list without duplicates is determined by its elements. *)
Lemma sort_dedup_ext l l' : (∀ s, s ∈ l ↔ s ∈ l') → dedup_str (sort_str l) = dedup_str (sort_str l').
Proof.
  intros H. assert (Hp : dedup_str (sort_str l) ≡ₚ dedup_str (sort_str l')).
  { apply NoDup_Permutation; [apply dedup_str_NoDup, sort_str_sorted..|]. intros s.
    by rewrite !elem_of_dedup_str, !elem_of_sort_str. }
  assert (HA : ∀ k, StronglySorted str_le (dedup_str (sort_str k))) by (intros; apply dedup_str_sorted, sort_str_sorted).
  revert Hp. generalize (HA l) (HA l'). generalize (dedup_str (sort_str l)) (dedup_str (sort_str l')). clear.
  intros l l' Hl. revert l'. induction Hl as [|a l Hl IH Ha]; intros l' Hl' Hp; [by apply Permutation_nil in Hp|].
  destruct Hl' as [|b l' Hl' Hb]; [symmetry in Hp; by apply Permutation_nil_cons in Hp|].
  assert (a = b) as ->.
  { assert (H1 : a ∈ b :: l') by (rewrite <- Hp; left). assert (H2 : b ∈ a :: l) by (rewrite Hp; left).
    apply elem_of_cons in H1 as [->|H1]; [done|]. apply elem_of_cons in H2 as [->|H2]; [done|].
    apply str_le_antisym; [by eapply Forall_forall in Ha|by eapply Forall_forall in Hb]. }
  f_equal. apply IH; [done|]. by eapply Permutation.Permutation_cons_inv.
Qed.

Lemma elem_of_btree_keys {A} (m : gmap string A) k : k ∈ btree_keys m ↔ is_Some (m !! k).
Proof.
  unfold btree_keys. rewrite elem_of_sort_str, list_elem_of_fmap. split.
  - intros ([k' a] & -> & H). apply elem_of_map_to_list in H. by exists a.
  - intros [a Ha]. exists (k, a). split; [done|]. by apply elem_of_map_to_list.
Qed.

(** ** UTF-8

    [std::str::from_utf8] to the scalar values, and back. *)

Definition byte_val (c : ascii) : Z := Z.of_N (N_of_ascii c).
Definition byte_chr (b : Z) : ascii := ascii_of_N (Z.to_N b).
Definition is_cont (b : Z) : bool := ((128 <=? b) && (b <? 192))%Z.

Fixpoint utf8_decode (s : string) : option (list Z) :=
  match s with
  | EmptyString => Some []
  | String c1 s1 =>
      let b1 := byte_val c1 in
      if (b1 <? 128)%Z then cons b1 <$> utf8_decode s1
      else
        match s1 with
        | String c2 s2 =>
            let b2 := byte_val c2 in
            if (194 <=? b1)%Z && (b1 <? 224)%Z && is_cont b2
            then cons ((b1 - 192) * 64 + (b2 - 128))%Z <$> utf8_decode s2
            else
              match s2 with
              | String c3 s3 =>
                  let b3 := byte_val c3 in
                  let v3 := ((b1 - 224) * 4096 + (b2 - 128) * 64 + (b3 - 128))%Z in
                  if (224 <=? b1)%Z && (b1 <? 240)%Z && is_cont b2 && is_cont b3 && (2048 <=? v3)%Z
                     && negb ((55296 <=? v3)%Z && (v3 <? 57344)%Z)
                  then cons v3 <$> utf8_decode s3
                  else
                    match s3 with
                    | String c4 s4 =>
                        let b4 := byte_val c4 in
                        let v4 := ((b1 - 240) * 262144 + (b2 - 128) * 4096 + (b3 - 128) * 64 + (b4 - 128))%Z in
                        if (240 <=? b1)%Z && (b1 <? 245)%Z && is_cont b2 && is_cont b3 && is_cont b4
                           && (65536 <=? v4)%Z && (v4 <? 1114112)%Z
                        then cons v4 <$> utf8_decode s4
                        else None
                    | EmptyString => None
                    end
              | EmptyString => None
              end
        | EmptyString => None
        end
  end.

Definition utf8_char (v : Z) : list Z :=
  if (v <? 128)%Z then [v]
  else if (v <? 2048)%Z then [192 + v / 64; 128 + v mod 64]%Z
  else if (v <? 65536)%Z then [224 + v / 4096; 128 + (v / 64) mod 64; 128 + v mod 64]%Z
  else [240 + v / 262144; 128 + (v / 4096) mod 64; 128 + (v / 64) mod 64; 128 + v mod 64]%Z.

Definition utf8_encode (l : list Z) : string :=
  foldr (λ b s, String (byte_chr b) s) EmptyString (l ≫= utf8_char).

(** The bytes of a string. *)
Fixpoint str_bytes (s : string) : list Z :=
  match s with EmptyString => [] | String c s' => byte_val c :: str_bytes s' end.

Lemma byte_chr_val c : byte_chr (byte_val c) = c.
Proof. unfold byte_chr, byte_val. by rewrite N2Z.id, ascii_N_embedding. Qed.

Definition is_ascii (c : ascii) : bool := (byte_val c <? 128)%Z.

Lemma utf8_decode_ascii s : str_forall is_ascii s = true → utf8_decode s = Some (str_bytes s).
Proof.
  induction s as [|c s IH]; [done|]. simpl. rewrite andb_true_iff. unfold is_ascii. intros [-> Hs]. by rewrite IH.
Qed.

Lemma utf8_encode_ascii s : str_forall is_ascii s = true → utf8_encode (str_bytes s) = s.
Proof.
  induction s as [|c s IH]; [done|]. simpl. rewrite andb_true_iff. unfold is_ascii. intros [Hc Hs].
  unfold utf8_encode in *. csimpl. unfold utf8_char at 1. rewrite Hc. simpl. by rewrite byte_chr_val, IH.
Qed.

(** A substring. *)
Fixpoint str_contains (p s : string) : bool :=
  starts_with p s || match s with EmptyString => false | String _ s' => str_contains p s' end.

Fixpoint ends_with_char (c : ascii) (s : string) : bool :=
  match s with
  | EmptyString => false
  | String a EmptyString => Ascii.eqb a c
  | String _ s' => ends_with_char c s'
  end.

(** [str::strip_suffix]. *)
Fixpoint strip_suffix (p s : string) : option string :=
  if (s =? p)%string then Some EmptyString
  else match s with EmptyString => None | String a s' => String a <$> strip_suffix p s' end.

Lemma strip_suffix_Some p s r : strip_suffix p s = Some r → s = r +:+ p.
Proof.
  revert r; induction s as [|a s IH]; intros r; cbn [strip_suffix].
  - destruct (EmptyString =? p)%string eqn:E; [|done]. apply String.eqb_eq in E as <-. by intros [= <-].
  - destruct (String a s =? p)%string eqn:E; [apply String.eqb_eq in E as <-; by intros [= <-]|].
    destruct (strip_suffix p s) as [r'|]; [|done]. intros [= <-]. simpl. by rewrite (IH r').
Qed.

Lemma str_forall_impl (f g : ascii → bool) s :
  (∀ c, f c = true → g c = true) → str_forall f s = true → str_forall g s = true.
Proof. intros H. induction s as [|c s IH]; [done|]. simpl. rewrite !andb_true_iff. intros [? ?]. auto. Qed.

(** ** Decimal numbers *)

Fixpoint dec_value (acc : N) (s : string) : option N :=
  match s with
  | EmptyString => Some acc
  | String c s' => if is_ascii_digit c then dec_value (acc * 10 + (N_of_ascii c - 48)) s' else None
  end.

(** [str::parse] at an unsigned type of width [w]. *)
Definition parse_unsigned (w : N) (s : string) : option N :=
  let digits := match s with String c s' => if Ascii.eqb c "+" then s' else s | EmptyString => s end in
  if (digits =? "")%string then None
  else v ← dec_value 0 digits; if (v <? 2 ^ w)%N then Some v else None.

Lemma pretty_digit x : (x < 10)%N →
  is_ascii_digit (pretty_N_char x) = true ∧ (N_of_ascii (pretty_N_char x) - 48 = x)%N ∧
  Ascii.eqb (pretty_N_char x) "+" = false.
Proof.
  intros H. assert (Hin : x ∈ N_of_nat <$> seq 0 10).
  { apply list_elem_of_fmap. exists (N.to_nat x). rewrite elem_of_seq. lia. }
  clear H. revert x Hin. apply Forall_forall. vm_compute. by repeat constructor.
Qed.

(** The digits [pretty] prints. *)
Definition pretty_text (s : string) : Prop :=
  str_forall is_ascii_digit s = true.

Lemma pretty_N_go_text x s : pretty_text s → pretty_text (pretty_N_go x s).
Proof.
  revert s. induction (N.lt_wf_0 x) as [x _ IH]; intros s Hs. destruct (decide (0 < x)%N) as [Hx|Hx].
  - rewrite pretty_N_go_step by done. apply IH; [by apply N.div_lt|].
    unfold pretty_text. simpl. rewrite (proj1 (pretty_digit (x mod 10) ltac:(by apply N.mod_lt))). exact Hs.
  - assert (x = 0%N) as -> by lia. by rewrite pretty_N_go_0.
Qed.

Lemma pretty_N_text (n : N) : pretty_text (pretty n).
Proof. unfold pretty, pretty_N. destruct (decide (n = 0)%N); [done|]. by apply pretty_N_go_text. Qed.

Lemma dec_value_go x s : dec_value 0 (pretty_N_go x s) = dec_value x s.
Proof.
  revert s. induction (N.lt_wf_0 x) as [x _ IH]; intros s. destruct (decide (0 < x)%N) as [Hx|Hx].
  - rewrite pretty_N_go_step by done. rewrite IH by (by apply N.div_lt). cbn [dec_value].
    destruct (pretty_digit (x mod 10) ltac:(by apply N.mod_lt)) as (-> & -> & _). f_equal.
    rewrite (N.div_mod x 10) at 3 by done. lia.
  - assert (x = 0%N) as -> by lia. by rewrite pretty_N_go_0.
Qed.

Lemma dec_value_pretty (n : N) : dec_value 0 (pretty n) = Some n.
Proof.
  unfold pretty, pretty_N. destruct (decide (n = 0)%N) as [->|]; [done|]. by rewrite dec_value_go.
Qed.

Lemma pretty_N_nonempty (n : N) : pretty n ≠ "".
Proof.
  intros H. pose proof (dec_value_pretty n) as Hv. rewrite H in Hv. simpl in Hv. injection Hv as <-.
  vm_compute in H. discriminate.
Qed.

Lemma parse_unsigned_pretty w (n : N) : (n < 2 ^ w)%N → parse_unsigned w (pretty n) = Some n.
Proof.
  intros Hn. unfold parse_unsigned. pose proof (pretty_N_text n) as Ht. pose proof (pretty_N_nonempty n) as Hne.
  pose proof (dec_value_pretty n) as Hv. destruct (pretty n) as [|c s]; [done|].
  assert (Ascii.eqb c "+" = false) as ->.
  { unfold pretty_text in Ht. simpl in Ht. apply andb_true_iff in Ht as [Hc _].
    destruct (Ascii.eqb c "+") eqn:E; [|done]. apply Ascii.eqb_eq in E as ->. done. }
  cbn [String.eqb]. rewrite Hv. csimpl. destruct (N.ltb_spec n (2 ^ w)); [done|lia].
Qed.
