(* ===== verification/Channel.v ===== *)
(** * Channel and membership vocabulary ([crates/maju-core/src/channel.rs])

    The enums shared by the SDK and the database layer, their canonical
    strings, the permission order of member roles, and the canonical form of a
    channel name.  Names are sequences of Unicode scalar values ([list Z]),
    because the trimming predicate is [char::is_whitespace].  The [String]
    error of each [from_str] carries the rejected input; the surrounding
    message text of [format!] is not modelled. *)
From S2P Require Import Prelude.

(** ** Channel names *)

(** [char::is_whitespace]: the Unicode [White_Space] property. *)
Definition is_whitespace (c : Z) : bool :=
  ((9 <=? c) && (c <=? 13) || (c =? 32) || (c =? 133) || (c =? 160) || (c =? 5760)
   || (8192 <=? c) && (c <=? 8202) || (c =? 8232) || (c =? 8233) || (c =? 8239)
   || (c =? 8287) || (c =? 12288))%Z.

(** [str::trim_start_matches(f)] and [str::trim_end]. *)
Fixpoint trim_start_matches (f : Z → bool) (s : list Z) : list Z :=
  match s with
  | [] => []
  | c :: s' => if f c then trim_start_matches f s' else s
  end.
Definition trim_end (s : list Z) : list Z :=
  reverse (trim_start_matches is_whitespace (reverse s)).

Definition hash_char : Z := 35%Z.

Definition canonical_channel_name (name : list Z) : list Z :=
  trim_end (trim_start_matches (λ c, (c =? hash_char)%Z || is_whitespace c) name).

(** ** Enums *)

Inductive ChannelVisibility := Open | Private.
Definition visibility_as_str (v : ChannelVisibility) : string :=
  match v with Open => "open" | Private => "private" end.
Definition visibility_from_str (s : string) : result string ChannelVisibility :=
  if (s =? "open")%string then Ok Open
  else if (s =? "private")%string then Ok Private
  else Err s.

Inductive ChannelType := Stream | Forum | Dm | Workflow.
Definition channel_type_as_str (t : ChannelType) : string :=
  match t with Stream => "stream" | Forum => "forum" | Dm => "dm" | Workflow => "workflow" end.
Definition channel_type_from_str (s : string) : result string ChannelType :=
  if (s =? "stream")%string then Ok Stream
  else if (s =? "forum")%string then Ok Forum
  else if (s =? "dm")%string then Ok Dm
  else if (s =? "workflow")%string then Ok Workflow
  else Err s.

Inductive MemberRole := Owner | Admin | Member | Guest | Bot.
#[export] Instance MemberRole_eq_dec : EqDecision MemberRole.
Proof. solve_decision. Defined.

Definition role_as_str (r : MemberRole) : string :=
  match r with
  | Owner => "owner" | Admin => "admin" | Member => "member" | Guest => "guest" | Bot => "bot"
  end.

Definition is_elevated (r : MemberRole) : bool :=
  match r with Owner | Admin => true | _ => false end.

Definition permission_level (r : MemberRole) : Z :=
  match r with Owner => 4 | Admin => 3 | Member => 2 | Guest => 1 | Bot => 0 end%Z.

Definition has_at_least (r required : MemberRole) : bool :=
  (permission_level required <=? permission_level r)%Z.

Definition role_from_str (s : string) : result string MemberRole :=
  if (s =? "owner")%string then Ok Owner
  else if (s =? "admin")%string then Ok Admin
  else if (s =? "member")%string then Ok Member
  else if (s =? "guest")%string then Ok Guest
  else if (s =? "bot")%string then Ok Bot
  else Err s.

(** ** Lemmas *)

Lemma permission_level_inj : Inj (=) (=) permission_level.
Proof. by intros [] []. Qed.

Lemma has_at_least_spec r q :
  has_at_least r q = true ↔ (permission_level q ≤ permission_level r)%Z.
Proof. apply Z.leb_le. Qed.

Lemma role_from_as r : role_from_str (role_as_str r) = Ok r.
Proof. by destruct r. Qed.

Lemma trim_start_matches_suffix f s : ∃ p, s = p ++ trim_start_matches f s ∧ Forall (λ c, f c = true) p.
Proof.
  induction s as [|c s (p & Hp & Hall)]; simpl; [by exists []|].
  destruct (f c) eqn:E; [|by exists []].
  exists (c :: p). split; [by rewrite Hp at 1|by constructor].
Qed.

Lemma trim_start_matches_head f s c s' : trim_start_matches f s = c :: s' → f c = false.
Proof. induction s as [|d s IH]; simpl; [done|]. destruct (f d) eqn:E; [done|congruence]. Qed.

Lemma trim_start_matches_id f s : (∀ c s', s = c :: s' → f c = false) → trim_start_matches f s = s.
Proof. destruct s as [|c s]; simpl; [done|]. intros H. by rewrite (H c s). Qed.

Lemma trim_start_matches_keep f s1 c s2 :
  f c = false → ∃ s1', trim_start_matches f (s1 ++ c :: s2) = s1' ++ c :: s2.
Proof.
  intros Hc. induction s1 as [|d s1 [s1' IH]]; simpl.
  - rewrite Hc. by exists [].
  - destruct (f d); [by exists s1'|by exists (d :: s1)].
Qed.

Lemma trim_end_head s c s' : trim_end s = c :: s' → ∃ s'', s = c :: s''.
Proof.
  unfold trim_end. destruct (trim_start_matches_suffix is_whitespace (reverse s)) as (p & Hp & _).
  intros H. apply (f_equal reverse) in Hp. rewrite reverse_involutive, reverse_app, H in Hp.
  rewrite Hp. simpl. eauto.
Qed.

Lemma trim_end_idemp s : trim_end (trim_end s) = trim_end s.
Proof.
  unfold trim_end. rewrite reverse_involutive. f_equal.
  apply trim_start_matches_id. intros c s' H. by eapply trim_start_matches_head.
Qed.

(** ** Properties *)

(** The role names are read back, and nothing else is accepted. *)
Theorem role_round_trip s r : role_from_str s = Ok r ↔ s = role_as_str r.
Proof.
  split; [|intros ->; apply role_from_as].
  unfold role_from_str. repeat case_match; boolify; intros ?; by simplify_eq.
Qed.

Lemma canonical_name_start_clean name c s' :
  canonical_channel_name name = c :: s' → ((c =? hash_char)%Z || is_whitespace c) = false.
Proof.
  unfold canonical_channel_name. intros (s'' & H)%trim_end_head.
  by apply trim_start_matches_head in H.
Qed.

(** A canonical name is canonical, starts with neither blank nor [#], and is a part of the given name. *)
Theorem canonical_name_idempotent name :
  canonical_channel_name (canonical_channel_name name) = canonical_channel_name name ∧
  (∀ c s', canonical_channel_name name = c :: s' → c ≠ hash_char ∧ is_whitespace c = false) ∧
  (∃ p q, name = p ++ canonical_channel_name name ++ q).
Proof.
  split_and!.
  - unfold canonical_channel_name at 1.
    rewrite (trim_start_matches_id _ (canonical_channel_name name)) by apply canonical_name_start_clean.
    unfold canonical_channel_name. apply trim_end_idemp.
  - intros c s' H%canonical_name_start_clean. by boolify.
  - unfold canonical_channel_name, trim_end.
    destruct (trim_start_matches_suffix (λ c, (c =? hash_char)%Z || is_whitespace c) name) as (p & Hp & _).
    set (m := trim_start_matches _ name) in *.
    destruct (trim_start_matches_suffix is_whitespace (reverse m)) as (q & Hq & _).
    apply (f_equal reverse) in Hq. rewrite reverse_involutive, reverse_app in Hq.
    exists p, (reverse q). by rewrite <- Hq.
Qed.
