(* ===== verification/GitPerms.v ===== *)
(** * Git push policy ([crates/maju-core/src/git_perms.rs])

    Ref patterns and their parser, protection rules parsed from
    [maju-protect] tags, the union of the rules matching a ref, and the
    evaluation of a push.  A panic ([unreachable!]) is the value [None] of
    [matches_checked]; [parse_never_panics] shows that no parsed pattern
    reaches it.  The [Debug] rendering inside the [Display] text of parse
    errors is not modelled; the denial reasons of the policy are. *)
From S2P Require Import Prelude Channel.

(** ** Constants and data *)

Definition GIT_NO_CHANNEL_BINDING_TOKEN : string := "no_channel_binding".
Definition GIT_NO_CHANNEL_BINDING_BODY : string :=
  "no_channel_binding: repository has no channel binding".
Definition MAX_PROTECTION_RULES : nat := 50.
Definition MAX_PATTERN_LENGTH : nat := 256.
Definition MAX_WILDCARDS_PER_PATTERN : nat := 3.
#[global] Arguments MAX_PROTECTION_RULES : simpl never.
#[global] Arguments MAX_PATTERN_LENGTH : simpl never.
#[global] Arguments MAX_WILDCARDS_PER_PATTERN : simpl never.

Inductive PatternSegment :=
  | Literal (s : string)
  | Wildcard
  | RecursiveWildcard.
#[export] Instance PatternSegment_eq_dec : EqDecision PatternSegment.
Proof. solve_decision. Defined.

Record RefPattern := { raw : string; segments : list PatternSegment }.

Inductive PatternError :=
  | EmptyPattern
  | TooLong
  | MissingRefsPrefix
  | InvalidSegment (s : string)
  | TooManyWildcards.

(** ** [RefPattern::parse] *)

Definition slash : ascii := "/".
Definition star : ascii := "*".

Definition is_literal_char (c : ascii) : bool :=
  is_ascii_alphanumeric c || Ascii.eqb c "." || Ascii.eqb c "_" || Ascii.eqb c "-".

Definition is_partial_glob (part : string) : bool :=
  str_contains_char star part || str_contains_char "?" part
  || str_contains_char "[" part || str_contains_char "]" part.

(** The loop over [parts.iter().enumerate()]: [wildcards] is the running
    [wildcard_count]; [rest = []] is [i == parts.len() - 1]. *)
Fixpoint parse_segments (wildcards : nat) (parts : list string) :
  result PatternError (list PatternSegment) :=
  match parts with
  | [] => Ok []
  | part :: rest =>
      if (part =? "**")%string then
        match rest with
        | _ :: _ => Err (InvalidSegment "** must be the last segment")
        | [] =>
            if MAX_WILDCARDS_PER_PATTERN <? S wildcards then Err TooManyWildcards
            else segs ← parse_segments (S wildcards) rest; Ok (RecursiveWildcard :: segs)
        end
      else if (part =? "*")%string then
        if MAX_WILDCARDS_PER_PATTERN <? S wildcards then Err TooManyWildcards
        else segs ← parse_segments (S wildcards) rest; Ok (Wildcard :: segs)
      else if (part =? "")%string then Err (InvalidSegment "")
      else if is_partial_glob part then Err (InvalidSegment part)
      else if negb (str_forall is_literal_char part) then Err (InvalidSegment part)
      else segs ← parse_segments wildcards rest; Ok (Literal part :: segs)
  end.

Definition parse (pattern : string) : result PatternError RefPattern :=
  if (pattern =? "")%string then Err EmptyPattern
  else if MAX_PATTERN_LENGTH <? String.length pattern then Err TooLong
  else if negb (starts_with "refs/" pattern) then Err MissingRefsPrefix
  else
    segs ← parse_segments 0 (str_split slash pattern);
    Ok {| raw := pattern; segments := segs |}.

(** ** [RefPattern::matches] *)

(** The [.zip(..).all(..)] of the two branches; [None] is the panic of
    [unreachable!]. *)
Fixpoint all_segments (l : list (PatternSegment * string)) : option bool :=
  match l with
  | [] => Some true
  | (pat, seg) :: l' =>
      match pat with
      | Wildcard => all_segments l'
      | Literal lit => if (lit =? seg)%string then all_segments l' else Some false
      | RecursiveWildcard => None
      end
  end.

Definition matches_checked (p : RefPattern) (ref_name : string) : option bool :=
  let ref_segments := str_split slash ref_name in
  match last (segments p) with
  | Some RecursiveWildcard =>
      let prefix_len := length (segments p) - 1 in
      if length ref_segments <=? prefix_len then Some false
      else all_segments (zip (take prefix_len (segments p)) (take prefix_len ref_segments))
  | _ =>
      if negb (length ref_segments =? length (segments p)) then Some false
      else all_segments (zip (segments p) ref_segments)
  end.

Definition matches (p : RefPattern) (ref_name : string) : bool :=
  default false (matches_checked p ref_name).

(** ** Ref updates *)

Inductive UpdateKind := Create | FastForward | NonFastForward | Delete.
#[export] Instance UpdateKind_eq_dec : EqDecision UpdateKind.
Proof. solve_decision. Defined.

Definition ZERO_OID : string := "0000000000000000000000000000000000000000".

Definition classify (old_oid new_oid : string) (is_ancestor : bool) : UpdateKind :=
  if (old_oid =? ZERO_OID)%string then Create
  else if (new_oid =? ZERO_OID)%string then Delete
  else if is_ancestor then FastForward
  else NonFastForward.

Record RefUpdate := {
  ref_name : string;
  update_kind : UpdateKind;
  old_oid : string;
  new_oid : string
}.

(** ** Protection rules *)

Record ProtectionRule := {
  pattern : RefPattern;
  push_role : option MemberRole;
  no_force_push : bool;
  no_delete : bool;
  require_patch : bool
}.

Inductive RuleParseError :=
  | TooFewValues
  | TooManyRules
  | InvalidPattern (e : PatternError)
  | UnknownRule (r : string)
  | InvalidRole (r : string).

(** "Take the strictest (highest permission level)". *)
Definition stricter (existing : option MemberRole) (role : MemberRole) : MemberRole :=
  match existing with
  | None => role
  | Some e => if (permission_level e <? permission_level role)%Z then role else e
  end.

(** The mutable locals of the loop of [parse_protection_tag_with_warnings]. *)
Record RuleAcc := {
  acc_push_role : option MemberRole;
  acc_no_force_push : bool;
  acc_no_delete : bool;
  acc_require_patch : bool;
  acc_unknown : list string
}.

Definition parse_rule (acc : RuleAcc) (rule_str : string) : result RuleParseError RuleAcc :=
  match strip_prefix "push:" rule_str with
  | Some role_str =>
      role ← map_err (λ _, InvalidRole role_str) (role_from_str role_str);
      match role with
      | Bot | Guest => Err (InvalidRole role_str)
      | _ => Ok {| acc_push_role := Some (stricter (acc_push_role acc) role);
                   acc_no_force_push := acc_no_force_push acc;
                   acc_no_delete := acc_no_delete acc;
                   acc_require_patch := acc_require_patch acc;
                   acc_unknown := acc_unknown acc |}
      end
  | None =>
      let hit s := (rule_str =? s)%string in
      Ok {| acc_push_role := acc_push_role acc;
            acc_no_force_push := if hit "no-force-push" then true else acc_no_force_push acc;
            acc_no_delete := if hit "no-delete" then true else acc_no_delete acc;
            acc_require_patch := if hit "require-patch" then true else acc_require_patch acc;
            acc_unknown :=
              if hit "no-force-push" || hit "no-delete" || hit "require-patch"
              then acc_unknown acc else acc_unknown acc ++ [rule_str] |}
  end.

Fixpoint parse_rules (acc : RuleAcc) (rules : list string) : result RuleParseError RuleAcc :=
  match rules with
  | [] => Ok acc
  | r :: rules' => acc' ← parse_rule acc r; parse_rules acc' rules'
  end.

Definition parse_protection_tag_with_warnings (values : list string) :
  result RuleParseError (ProtectionRule * list string) :=
  match values with
  | v0 :: ((_ :: _) as rule_strs) =>
      pat ← map_err InvalidPattern (parse v0);
      acc ← parse_rules {| acc_push_role := None; acc_no_force_push := false;
                           acc_no_delete := false; acc_require_patch := false;
                           acc_unknown := [] |} rule_strs;
      Ok ({| pattern := pat; push_role := acc_push_role acc;
             no_force_push := acc_no_force_push acc; no_delete := acc_no_delete acc;
             require_patch := acc_require_patch acc |}, acc_unknown acc)
  | _ => Err TooFewValues
  end.

Definition parse_protection_tag (values : list string) : result RuleParseError ProtectionRule :=
  r ← parse_protection_tag_with_warnings values; Ok r.1.

Record ParsedProtection := { rules : list ProtectionRule; unknown_rules : list string }.

Definition is_protect_tag (tag : list string) : bool :=
  match tag with name :: _ => (name =? "maju-protect")%string | [] => false end.

Fixpoint parse_protection_loop (acc : ParsedProtection) (tags : list (list string)) :
  result RuleParseError ParsedProtection :=
  match tags with
  | [] => Ok acc
  | tag :: tags' =>
      if negb (is_protect_tag tag) then parse_protection_loop acc tags'
      else if MAX_PROTECTION_RULES <=? length (rules acc) then Err TooManyRules
      else
        p ← parse_protection_tag_with_warnings (tail tag);
        parse_protection_loop
          {| rules := rules acc ++ [p.1]; unknown_rules := unknown_rules acc ++ p.2 |} tags'
  end.

Definition parse_protection_tags (tags : list (list string)) : result RuleParseError ParsedProtection :=
  parse_protection_loop {| rules := []; unknown_rules := [] |} tags.

(** ** Policy *)

Definition default_min_role (name : string) (kind : UpdateKind) : MemberRole :=
  let is_branch := starts_with "refs/heads/" name in
  let is_tag := starts_with "refs/tags/" name in
  match kind with
  | Create => if is_branch || is_tag then Member else Admin
  | FastForward => if is_branch then Member else if is_tag then Admin else Admin
  | NonFastForward => Admin
  | Delete => Admin
  end.

Record EffectiveRules := {
  eff_push_role : option MemberRole;
  eff_no_force_push : bool;
  eff_no_delete : bool;
  eff_require_patch : bool;
  has_explicit_match : bool
}.

Definition no_rules : EffectiveRules :=
  {| eff_push_role := None; eff_no_force_push := false; eff_no_delete := false;
     eff_require_patch := false; has_explicit_match := false |}.

Definition union_rule (name : string) (eff : EffectiveRules) (rule : ProtectionRule) : EffectiveRules :=
  if negb (matches (pattern rule) name) then eff
  else
    {| eff_push_role :=
         match push_role rule with
         | Some role => Some (stricter (eff_push_role eff) role)
         | None => eff_push_role eff
         end;
       eff_no_force_push := eff_no_force_push eff || no_force_push rule;
       eff_no_delete := eff_no_delete eff || no_delete rule;
       eff_require_patch := eff_require_patch eff || require_patch rule;
       has_explicit_match := true |}.

Definition for_ref (name : string) (rs : list ProtectionRule) : EffectiveRules :=
  foldl (union_rule name) no_rules rs.

Record Denial := { denied_ref : string; reason : string }.

Definition evaluate_ref_update (update : RefUpdate) (role : MemberRole) (rs : list ProtectionRule) :
  result Denial unit :=
  let name := ref_name update in
  let deny why := Err {| denied_ref := name; reason := why |} in
  let effective := for_ref name rs in
  let default_role := default_min_role name (update_kind update) in
  if negb (has_explicit_match effective) then
    if negb (has_at_least role default_role) then
      deny ("requires " +:+ role_as_str default_role +:+ " role (you have "
            +:+ role_as_str role +:+ "), using built-in defaults")
    else Ok ()
  else if eff_require_patch effective then
    deny "direct push denied: require-patch is set, submit a NIP-34 patch"
  else
    let min_role :=
      match eff_push_role effective with
      | Some explicit =>
          if (permission_level default_role <=? permission_level explicit)%Z
          then explicit else default_role
      | None => default_role
      end in
    if negb (has_at_least role min_role) then
      deny ("requires " +:+ role_as_str min_role +:+ " role (you have "
            +:+ role_as_str role +:+ ")")
    else if eff_no_force_push effective && bool_decide (update_kind update = NonFastForward) then
      deny "non-fast-forward update denied: no-force-push is set"
    else if eff_no_delete effective && bool_decide (update_kind update = Delete) then
      deny "ref deletion denied: no-delete is set"
    else Ok ().

Definition evaluate_push (updates : list RefUpdate) (role : MemberRole) (rs : list ProtectionRule) :
  result (list Denial) unit :=
  let denials := omap (λ u, err (evaluate_ref_update u role rs)) updates in
  match denials with [] => Ok () | _ => Err denials end.

(** ** Declarative specifications *)

Definition segment_str (seg : PatternSegment) : string :=
  match seg with Literal s => s | Wildcard => "*" | RecursiveWildcard => "**" end.

Definition segment_ok (seg : PatternSegment) : Prop :=
  match seg with
  | Literal s => s ≠ "" ∧ str_forall is_literal_char s = true
  | _ => True
  end.

(** [**] occurs only as the last segment. *)
Fixpoint rec_only_last (segs : list PatternSegment) : Prop :=
  match segs with
  | [] => True
  | RecursiveWildcard :: segs' => segs' = []
  | _ :: segs' => rec_only_last segs'
  end.

Definition is_wild (seg : PatternSegment) : bool :=
  match seg with Literal _ => false | _ => true end.
Definition wild_count (segs : list PatternSegment) : nat := length (List.filter is_wild segs).

Definition wf_segments (segs : list PatternSegment) : Prop :=
  Forall segment_ok segs ∧ rec_only_last segs ∧ wild_count segs ≤ MAX_WILDCARDS_PER_PATTERN.

(** One pattern segment against one path segment, and a whole pattern. *)
Inductive segment_matches : PatternSegment → string → Prop :=
  | literal_matches s : segment_matches (Literal s) s
  | wildcard_matches s : segment_matches Wildcard s.

Definition ref_matches (segs : list PatternSegment) (names : list string) : Prop :=
  Forall2 segment_matches segs names ∨
  ∃ prefix names1 names2,
    segs = prefix ++ [RecursiveWildcard] ∧ names = names1 ++ names2 ∧ names2 ≠ [] ∧
    Forall2 segment_matches prefix names1.

(** What one matching rule demands of an update, and when a ref may move. *)
Definition rule_permits (kind : UpdateKind) (role : MemberRole) (r : ProtectionRule) : Prop :=
  require_patch r = false ∧
  (∀ p, push_role r = Some p → (permission_level p ≤ permission_level role)%Z) ∧
  (kind = NonFastForward → no_force_push r = false) ∧
  (kind = Delete → no_delete r = false).

Definition ref_allowed (u : RefUpdate) (role : MemberRole) (rs : list ProtectionRule) : Prop :=
  (permission_level (default_min_role (ref_name u) (update_kind u)) ≤ permission_level role)%Z ∧
  ∀ r, r ∈ rs → matches (pattern r) (ref_name u) = true → rule_permits (update_kind u) role r.

(** ** Lemmas: parsing *)

Lemma literal_not_special s c :
  str_forall is_literal_char s = true → is_literal_char c = false → str_contains_char c s = false.
Proof. intros Hs Hc. by eapply str_forall_no_char. Qed.

Lemma literal_no_glob s : str_forall is_literal_char s = true → is_partial_glob s = false.
Proof.
  intros Hs. unfold is_partial_glob.
  by rewrite !(literal_not_special s) by done.
Qed.

Lemma literal_not_star s x :
  str_forall is_literal_char s = true → s ≠ String star x.
Proof. intros Hs ->. done. Qed.

Lemma parse_segments_ok n parts segs :
  n ≤ MAX_WILDCARDS_PER_PATTERN →
  parse_segments n parts = Ok segs ↔
    parts = segment_str <$> segs ∧ Forall segment_ok segs ∧ rec_only_last segs ∧
    n + wild_count segs ≤ MAX_WILDCARDS_PER_PATTERN.
Proof.
  revert n segs; induction parts as [|part rest IH]; intros n segs Hn; simpl.
  { split; [intros [= <-]|intros (H & _); by destruct segs]. split_and!; [done..|unfold wild_count; simpl; lia]. }
  unfold wild_count in *.
  split.
  - destruct (part =? "**")%string eqn:E1; [|destruct (part =? "*")%string eqn:E2].
    + destruct rest; [|done]. case_match; [done|]. boolify. intros [= <-].
      split_and!; [by subst part|by repeat constructor|done|simpl; lia].
    + case_match; [done|]. boolify. rewrite bind_ok. intros (segs' & Hp & [= <-]).
      apply IH in Hp as (-> & ? & ? & ?); [|lia].
      split_and!; [by subst part|by constructor|done|simpl; lia].
    + repeat (case_match; [done|]). boolify. rewrite bind_ok. intros (segs' & Hp & [= <-]).
      apply IH in Hp as (-> & ? & ? & ?); [|lia].
      split_and!; [done|by constructor|done|simpl; lia].
  - intros (Heq & Hok & Hrec & Hcnt). destruct segs as [|seg segs]; [done|].
    simplify_eq/=. inversion Hok as [|?? Hseg Hok']; subst.
    destruct seg as [s| |]; simpl in *.
    + destruct Hseg as [Hne Hlit].
      pose proof (literal_not_star s) as Hstar.
      destruct (s =? "**")%string eqn:E1; [apply String.eqb_eq in E1; by destruct (Hstar "*" Hlit)|].
      destruct (s =? "*")%string eqn:E2; [apply String.eqb_eq in E2; by destruct (Hstar "" Hlit)|].
      destruct (s =? "")%string eqn:E3; [by apply String.eqb_eq in E3|].
      rewrite literal_no_glob, Hlit by done; simpl. apply bind_ok. exists segs. split; [|done].
      by apply IH.
    + case_match; boolify; [lia|]. apply bind_ok. exists segs. split; [|done].
      apply IH; [lia|]. split_and!; try done; lia.
    + subst segs. simpl in *. case_match; boolify; [lia|]. done.
Qed.

Lemma segment_str_no_slash seg : segment_ok seg → str_contains_char slash (segment_str seg) = false.
Proof. destruct seg; simpl; [|done..]. intros [? Hs]. by apply literal_not_special. Qed.

Lemma parse_ok_iff p rp :
  parse p = Ok rp ↔
    raw rp = p ∧ str_join slash (segment_str <$> segments rp) = p ∧ wf_segments (segments rp) ∧
    starts_with "refs/" p = true ∧ String.length p ≤ MAX_PATTERN_LENGTH.
Proof.
  unfold parse, wf_segments. split.
  - repeat case_match; try done. boolify. rewrite bind_ok. intros (segs & Hp & [= <-]); simpl.
    apply parse_segments_ok in Hp as (Hsplit & ? & ? & ?); [|unfold MAX_WILDCARDS_PER_PATTERN; lia].
    split_and!; try done. rewrite <- Hsplit. apply str_join_split.
  - intros (Hraw & Hjoin & (Hok & Hrec & Hcnt) & Hpre & Hlen).
    destruct (p =? "")%string eqn:E; [by apply String.eqb_eq in E; subst p; rewrite E in Hpre|].
    case_match; boolify; [lia|]. rewrite Hpre; simpl. apply bind_ok.
    exists (segments rp). split; [|by destruct rp; simplify_eq/=].
    apply parse_segments_ok; [unfold MAX_WILDCARDS_PER_PATTERN; lia|]. split_and!; try done.
    rewrite <- Hjoin. apply str_split_join.
    + intros Hnil. rewrite Hnil in Hjoin. simpl in Hjoin. by subst p.
    + apply Forall_fmap. eapply Forall_impl; [exact Hok|]. apply segment_str_no_slash.
Qed.

(** ** Lemmas: matching *)

Lemma all_segments_spec l names :
  Forall (λ seg, seg ≠ RecursiveWildcard) l → length l = length names →
  ∃ b, all_segments (zip l names) = Some b ∧ (b = true ↔ Forall2 segment_matches l names).
Proof.
  intros Hl. revert names; induction Hl as [|seg l Hseg Hl IH]; intros [|nm names] Hlen;
    simplify_eq/=; [by exists true; eauto|].
  destruct (IH names Hlen) as (b & Hb & Hspec).
  destruct seg as [s| |]; [|exists b|done].
  - destruct (s =? nm)%string eqn:E; boolify.
    + subst. exists b. rewrite Hb, Hspec. split; [done|]. split.
      * intros ?. constructor; [constructor|done].
      * by inversion 1.
    + exists false. split; [done|]. split; [done|]. inversion 1 as [|???? Hm]; subst. by inversion Hm.
  - split; [done|]. rewrite Hspec. split; [intros ?; constructor; [constructor|done]|by inversion 1].
Qed.

Lemma rec_only_last_cases segs :
  rec_only_last segs →
  Forall (λ seg, seg ≠ RecursiveWildcard) segs ∨
  ∃ prefix, segs = prefix ++ [RecursiveWildcard] ∧ Forall (λ seg, seg ≠ RecursiveWildcard) prefix.
Proof.
  induction segs as [|seg segs IH]; intros H; [by left|].
  destruct seg as [s| |]; simpl in H.
  3: { subst. right. by exists []. }
  all: destruct (IH H) as [Hall|(prefix & -> & Hall)];
    [left; by constructor | right; eexists (_ :: prefix); split; [done|by constructor]].
Qed.

Lemma last_not_rec segs :
  Forall (λ seg, seg ≠ RecursiveWildcard) segs → last segs ≠ Some RecursiveWildcard.
Proof.
  intros Hall H. apply last_Some in H as [l' ->]. apply Forall_app in Hall as [_ Hall].
  by inversion Hall.
Qed.

(** On a pattern whose [**] is last, matching never panics and decides
    [ref_matches]. *)
Lemma matches_checked_spec rp name :
  rec_only_last (segments rp) →
  ∃ b, matches_checked rp name = Some b ∧
       (b = true ↔ ref_matches (segments rp) (str_split slash name)).
Proof.
  intros Hrec. unfold matches_checked. set (names := str_split slash name).
  destruct (rec_only_last_cases _ Hrec) as [Hall|(prefix & Heq & Hall)].
  - assert (Hno : ¬ ∃ prefix, segments rp = prefix ++ [RecursiveWildcard]).
    { intros [prefix Heq]. apply (last_not_rec _ Hall). by rewrite Heq, last_snoc. }
    assert (Hiff : ref_matches (segments rp) names ↔ Forall2 segment_matches (segments rp) names).
    { split; [|by left]. intros [?|(prefix & ? & ? & Heq & _)]; [done|]. exfalso; eauto. }
    destruct (last (segments rp)) as [[| |]|] eqn:Hlast;
      [| |by destruct (last_not_rec _ Hall)|].
    all: destruct (length names =? length (segments rp)) eqn:E; simpl; boolify;
      [setoid_rewrite Hiff; by apply all_segments_spec|].
    all: exists false; split; [done|]; split; [done|]; intros HF%Hiff%Forall2_length; lia.
  - rewrite Heq, last_snoc, length_app; simpl.
    replace (length prefix + 1 - 1) with (length prefix) by lia.
    assert (Hiff : ref_matches (prefix ++ [RecursiveWildcard]) names ↔
      ∃ n1 n2, names = n1 ++ n2 ∧ n2 ≠ [] ∧ Forall2 segment_matches prefix n1).
    { split.
      - intros [HF|(pre' & n1 & n2 & [-> _]%app_inj_tail & ? & ? & ?)]; [|eauto].
        apply Forall2_app_inv_l in HF as (n1 & n2 & _ & HF & _). inversion HF as [|???? Hm]. by inversion Hm.
      - intros (n1 & n2 & ? & ? & ?). right. eauto 10. }
    setoid_rewrite Hiff. destruct (length names <=? length prefix) eqn:E; boolify.
    + exists false. split; [done|]. split; [done|]. intros (n1 & n2 & Hn & Hne & HF%Forall2_length).
      rewrite Hn, length_app in E. destruct n2; simpl in *; [done|lia].
    + rewrite take_app_length.
      destruct (all_segments_spec prefix (take (length prefix) names)) as (b & Hb & Hspec);
        [done|rewrite length_take; lia|].
      exists b. rewrite Hb, Hspec. split; [done|]. split.
      * intros HF. exists (take (length prefix) names), (drop (length prefix) names).
        split_and!; [by rewrite take_drop| |done].
        intros Hd%(f_equal length). rewrite length_drop in Hd. simpl in Hd. lia.
      * intros (n1 & n2 & -> & _ & HF). by rewrite (Forall2_length _ _ _ HF), take_app_length.
Qed.

(** ** Lemmas: the union of matching rules *)

Lemma for_ref_snoc name rs r : for_ref name (rs ++ [r]) = union_rule name (for_ref name rs) r.
Proof. unfold for_ref. by rewrite foldl_app. Qed.

Definition some_match (name : string) (rs : list ProtectionRule) (f : ProtectionRule → bool) : Prop :=
  ∃ r, r ∈ rs ∧ matches (pattern r) name = true ∧ f r = true.

Lemma some_match_snoc name rs r f :
  some_match name (rs ++ [r]) f ↔
  some_match name rs f ∨ (matches (pattern r) name = true ∧ f r = true).
Proof.
  unfold some_match. split.
  - intros (r' & [?| ->%list_elem_of_singleton]%elem_of_app & ? & ?); eauto.
  - intros [(r' & ? & ? & ?)|[? ?]]; [exists r'|exists r];
      (split_and!; [apply elem_of_app|done|done]); [by left|right; by apply list_elem_of_singleton].
Qed.

Lemma for_ref_flags name rs :
  (has_explicit_match (for_ref name rs) = true ↔ some_match name rs (λ _, true)) ∧
  (eff_no_force_push (for_ref name rs) = true ↔ some_match name rs no_force_push) ∧
  (eff_no_delete (for_ref name rs) = true ↔ some_match name rs no_delete) ∧
  (eff_require_patch (for_ref name rs) = true ↔ some_match name rs require_patch).
Proof.
  induction rs as [|r rs IH] using rev_ind.
  { simpl. unfold some_match. split_and!; (split; [done|intros (r & ?%elem_of_nil & _); done]). }
  rewrite for_ref_snoc, !some_match_snoc. unfold union_rule.
  destruct IH as (IH1 & IH2 & IH3 & IH4).
  destruct (matches (pattern r) name); simpl.
  - rewrite !orb_true_iff, IH2, IH3, IH4. tauto.
  - rewrite IH1, IH2, IH3, IH4. intuition congruence.
Qed.

Lemma stricter_level o role q :
  (permission_level (stricter o role) ≤ q ↔
   permission_level role ≤ q ∧ ∀ e, o = Some e → permission_level e ≤ q)%Z.
Proof.
  unfold stricter. destruct o as [e|].
  - destruct (_ <? _)%Z eqn:E; boolify; split; intros.
    + split; [done|]. intros ? [= <-]. lia.
    + tauto.
    + split; [lia|]. intros ? [= <-]. lia.
    + naive_solver.
  - naive_solver.
Qed.

Lemma for_ref_role name rs q :
  (∀ p, eff_push_role (for_ref name rs) = Some p → (permission_level p ≤ q)%Z) ↔
  (∀ r, r ∈ rs → matches (pattern r) name = true →
        ∀ p, push_role r = Some p → (permission_level p ≤ q)%Z).
Proof.
  induction rs as [|r rs IH] using rev_ind.
  { simpl. split; [intros _ r ?%elem_of_nil; done|done]. }
  rewrite for_ref_snoc. unfold union_rule.
  assert (Hsplit : (∀ r0, r0 ∈ rs ++ [r] → matches (pattern r0) name = true →
        ∀ p, push_role r0 = Some p → (permission_level p ≤ q)%Z) ↔
      (∀ r0, r0 ∈ rs → matches (pattern r0) name = true →
        ∀ p, push_role r0 = Some p → (permission_level p ≤ q)%Z) ∧
      (matches (pattern r) name = true → ∀ p, push_role r = Some p → (permission_level p ≤ q)%Z)).
  { setoid_rewrite elem_of_app. setoid_rewrite list_elem_of_singleton. naive_solver. }
  rewrite Hsplit, <- IH. clear Hsplit IH.
  destruct (matches (pattern r) name); simpl; [|intuition congruence].
  destruct (push_role r) as [role|]; [|naive_solver].
  split.
  - intros H. specialize (H _ eq_refl). apply stricter_level in H as [? ?]. naive_solver.
  - intros [H1 H2] p [= <-]. apply stricter_level. naive_solver.
Qed.

(** The update is accepted exactly when the default minimum role is met and
    every matching rule permits it. *)
Lemma evaluate_ref_update_iff u role rs :
  evaluate_ref_update u role rs = Ok () ↔ ref_allowed u role rs.
Proof.
  unfold evaluate_ref_update, ref_allowed, rule_permits.
  destruct (for_ref_flags (ref_name u) rs) as (Hm & Hf & Hd & Hp).
  pose proof (for_ref_role (ref_name u) rs (permission_level role)) as Hr.
  set (eff := for_ref (ref_name u) rs) in *.
  set (dflt := default_min_role (ref_name u) (update_kind u)).
  destruct (has_explicit_match eff) eqn:Em; simpl.
  2: { assert (Hnone : ∀ r, r ∈ rs → matches (pattern r) (ref_name u) = true → False).
       { intros r ? ?. enough (false = true) by done. apply Hm. by exists r. }
       destruct (has_at_least role dflt) eqn:El; simpl.
       - apply has_at_least_spec in El. split; [|done]. intros _. split; [done|]. intros; exfalso; eauto.
       - split; [done|]. intros [H%has_at_least_spec _]. congruence. }
  set (min := match eff_push_role eff with Some _ => _ | None => _ end).
  assert (Hmin : has_at_least role min = true ↔
    (permission_level dflt ≤ permission_level role)%Z ∧
    ∀ p, eff_push_role eff = Some p → (permission_level p ≤ permission_level role)%Z).
  { rewrite has_at_least_spec. unfold min. destruct (eff_push_role eff); [|naive_solver].
    case_match; boolify; naive_solver lia. }
  rewrite Hr in Hmin. unfold some_match in *.
  assert (Hflag : ∀ (b : bool) (f : ProtectionRule → bool),
    (b = true ↔ ∃ r, r ∈ rs ∧ matches (pattern r) (ref_name u) = true ∧ f r = true) →
    b = false ↔ ∀ r, r ∈ rs → matches (pattern r) (ref_name u) = true → f r = false).
  { intros b f Hb. destruct b; split; try done.
    - intros H. destruct (proj1 Hb eq_refl) as (r & ? & ? & ?). by rewrite H in *.
    - intros _ r ? ?. destruct (f r) eqn:E; [|done]. enough (false = true) by done. apply Hb. eauto. }
  apply Hflag in Hf, Hd, Hp. clear Hflag Hm Hr Em.
  set (kind := update_kind u).
  trans (eff_require_patch eff = false ∧ has_at_least role min = true ∧
         (kind = NonFastForward → eff_no_force_push eff = false) ∧
         (kind = Delete → eff_no_delete eff = false)).
  - destruct (eff_require_patch eff), (has_at_least role min), (eff_no_force_push eff),
      (eff_no_delete eff), kind; simpl; intuition congruence.
  - rewrite Hp, Hmin, Hf, Hd. split.
    + intros (H1 & [H2 H3] & H4 & H5). split; [done|]. intros r Hr Hmr. split_and!; eauto.
    + intros (H1 & H). split_and!; [|done| | |]; intros; by eapply H.
Qed.

Lemma evaluate_ref_update_denied u role rs d :
  evaluate_ref_update u role rs = Err d → denied_ref d = ref_name u.
Proof. unfold evaluate_ref_update. repeat case_match; intros; by simplify_eq. Qed.

(** ** Lemmas: pushes and protection tags *)

Lemma evaluate_push_ok_iff updates role rs :
  evaluate_push updates role rs = Ok () ↔ ∀ u, u ∈ updates → ref_allowed u role rs.
Proof.
  unfold evaluate_push. setoid_rewrite <- evaluate_ref_update_iff.
  induction updates as [|u us IH]; simpl; [split; [intros _ u ?%elem_of_nil|]; done|].
  setoid_rewrite elem_of_cons.
  destruct (evaluate_ref_update u role rs) as [[]|d] eqn:E; simpl.
  - rewrite IH. naive_solver.
  - split; [done|]. intros H. rewrite (H u) in E by auto. done.
Qed.

Lemma ref_allowed_mono u role role' rs rs' :
  rs ⊆ rs' → (permission_level role' ≤ permission_level role)%Z →
  ref_allowed u role' rs' → ref_allowed u role rs.
Proof.
  intros Hrs Hle [H1 H2]. split; [lia|]. intros r Hr Hm.
  destruct (H2 r (Hrs r Hr) Hm) as (? & Hp & ? & ?). split_and!; try done.
  intros p Hpr. specialize (Hp p Hpr). lia.
Qed.

Lemma default_min_role_level name kind : (2 ≤ permission_level (default_min_role name kind))%Z.
Proof. unfold default_min_role. repeat case_match; simpl; lia. Qed.

Definition human_role (o : option MemberRole) : Prop :=
  match o with Some Bot | Some Guest => False | _ => True end.

Lemma stricter_human o role : human_role o → human_role (Some role) → human_role (Some (stricter o role)).
Proof. unfold stricter. destruct o as [[]|], role; simpl; try done. Qed.

Lemma parse_rules_human rs acc acc' :
  parse_rules acc rs = Ok acc' → human_role (acc_push_role acc) → human_role (acc_push_role acc').
Proof.
  revert acc; induction rs as [|r rs IH]; intros acc; simpl; [by intros [= <-]|].
  intros (acc1 & Hr & Hrest)%bind_ok Hh. apply (IH acc1 Hrest).
  unfold parse_rule in Hr. destruct (strip_prefix "push:" r) as [role_str|]; [|by simplify_eq/=].
  apply bind_ok in Hr as (role & _ & Hr).
  destruct role; simplify_eq/=; by apply stricter_human.
Qed.

Lemma parse_tag_wf values r us :
  parse_protection_tag_with_warnings values = Ok (r, us) →
  human_role (push_role r) ∧ wf_segments (segments (pattern r)).
Proof.
  unfold parse_protection_tag_with_warnings. destruct values as [|v0 [|v1 vs]]; try done.
  intros (pat & Hpat & (acc & Hacc & [= <- <-])%bind_ok)%bind_ok; simpl. split.
  - by eapply parse_rules_human.
  - destruct (parse v0) as [pat'|] eqn:E; simplify_eq/=. apply parse_ok_iff in E. by destruct E as (_ & _ & ? & _).
Qed.

Definition protect_tags (tags : list (list string)) : list (list string) :=
  List.filter is_protect_tag tags.

Lemma parse_loop_filter acc tags :
  parse_protection_loop acc tags = parse_protection_loop acc (protect_tags tags).
Proof.
  revert acc; induction tags as [|tag tags IH]; intros acc; simpl; [done|].
  destruct (is_protect_tag tag) eqn:E; simpl; [|apply IH]. rewrite E; simpl.
  destruct (MAX_PROTECTION_RULES <=? length (rules acc)); [done|]. destruct (parse_protection_tag_with_warnings _); simpl; [|done]. apply IH.
Qed.

Definition rule_wf (r : ProtectionRule) : Prop :=
  human_role (push_role r) ∧ wf_segments (segments (pattern r)).

Lemma parse_loop_ok acc tags p :
  parse_protection_loop acc tags = Ok p →
  length (rules acc) ≤ MAX_PROTECTION_RULES → Forall rule_wf (rules acc) →
  Forall rule_wf (rules p) ∧ length (rules p) ≤ MAX_PROTECTION_RULES ∧
  length (rules p) = length (rules acc) + length (protect_tags tags).
Proof.
  revert acc; induction tags as [|tag tags IH]; intros acc; simpl; [intros [= <-]; simpl; auto with lia|].
  destruct (is_protect_tag tag) eqn:E; simpl; [|apply IH].
  destruct (MAX_PROTECTION_RULES <=? length (rules acc)) eqn:El; [done|]. boolify.
  intros ([r us] & Htag & Hrest)%bind_ok Hlen Hwf. apply IH in Hrest; simpl in *.
  - rewrite length_app in Hrest. simpl in Hrest. destruct Hrest as (? & ? & ?). split_and!; [done|done|lia].
  - rewrite length_app. simpl. lia.
  - apply Forall_app. split; [done|]. constructor; [|done]. by eapply parse_tag_wf.
Qed.

Lemma parse_loop_prefix acc tags extra p :
  parse_protection_loop acc (tags ++ extra) = Ok p →
  ∃ q, parse_protection_loop acc tags = Ok q ∧ parse_protection_loop q extra = Ok p.
Proof.
  revert acc; induction tags as [|tag tags IH]; intros acc; simpl; [eauto|].
  destruct (is_protect_tag tag); simpl; [|apply IH].
  destruct (MAX_PROTECTION_RULES <=? length (rules acc)); [done|].
  intros (t & Ht & (q & Hq & Hp)%IH)%bind_ok. exists q. split; [|done].
  apply bind_ok. eauto.
Qed.

Lemma parse_loop_extends acc tags p :
  parse_protection_loop acc tags = Ok p → rules acc ⊆ rules p.
Proof.
  revert acc; induction tags as [|tag tags IH]; intros acc; simpl; [by intros [= <-]|].
  destruct (is_protect_tag tag); simpl; [|apply IH].
  destruct (MAX_PROTECTION_RULES <=? length (rules acc)); [done|].
  intros (t & Ht & Hp%IH)%bind_ok. simpl in Hp. set_solver.
Qed.

(** ** Properties *)

(** C30: A push is allowed exactly when every update satisfies every protection rule that
    matches its ref and the role requirements; otherwise the denials are, in order, exactly the
    offending refs. *)
Theorem evaluate_push_spec updates role rs :
  (evaluate_push updates role rs = Ok () ↔ ∀ u, u ∈ updates → ref_allowed u role rs) ∧
  (∀ ds, evaluate_push updates role rs = Err ds →
     ds ≠ [] ∧
     ∃ denied, denied `sublist_of` updates ∧ denied_ref <$> ds = ref_name <$> denied ∧
       ∀ u, u ∈ updates → (u ∈ denied ↔ ¬ ref_allowed u role rs)).
Proof.
  split; [apply evaluate_push_ok_iff|]. intros ds. unfold evaluate_push.
  set (dn := omap _ updates). intros H.
  assert (ds = dn ∧ dn ≠ []) as [-> Hne] by (by destruct dn; simplify_eq).
  split; [done|]. clear H Hne. subst dn.
  exists (filter (λ u, is_ok (evaluate_ref_update u role rs) = false) updates). split_and!.
  - apply sublist_filter.
  - induction updates as [|u us IH]; simpl; [done|]. rewrite filter_cons.
    destruct (evaluate_ref_update u role rs) as [[]|d] eqn:E; simpl.
    + done.
    + f_equal; [by eapply evaluate_ref_update_denied|done].
  - intros u Hu. rewrite list_elem_of_filter, <- evaluate_ref_update_iff.
    destruct (evaluate_ref_update u role rs) as [[]|]; simpl; naive_solver.
Qed.

(** Permissions are monotone: fewer updates, fewer rules or a higher role never turn an
    allowed push into a denied one. *)
Theorem push_monotone updates updates' role role' rs rs' :
  updates ⊆ updates' → rs ⊆ rs' → (permission_level role' ≤ permission_level role)%Z →
  evaluate_push updates' role' rs' = Ok () → evaluate_push updates role rs = Ok ().
Proof.
  intros Hu Hrs Hle H. rewrite evaluate_push_ok_iff in *. intros u Hin.
  eapply ref_allowed_mono; eauto.
Qed.

(** Guests and bots never push anything, whatever the rules. *)
Theorem guests_and_bots_never_push updates role rs :
  role = Guest ∨ role = Bot → updates ≠ [] →
  ∃ ds, evaluate_push updates role rs = Err ds ∧ denied_ref <$> ds = ref_name <$> updates.
Proof.
  intros Hrole Hne.
  assert (Hden : ∀ u, ∃ d, evaluate_ref_update u role rs = Err d ∧ denied_ref d = ref_name u).
  { intros u. destruct (evaluate_ref_update u role rs) as [[]|d] eqn:E.
    - exfalso. apply evaluate_ref_update_iff in E as [E _].
      pose proof (default_min_role_level (ref_name u) (update_kind u)).
      destruct Hrole; subst role; simpl in E; lia.
    - exists d. split; [done|]. by eapply evaluate_ref_update_denied. }
  unfold evaluate_push. set (dn := omap _ updates).
  assert (Hmap : denied_ref <$> dn = ref_name <$> updates).
  { subst dn. clear Hne. induction updates as [|u us IH]; simpl; [done|].
    destruct (Hden u) as (d & -> & Hd). simpl. f_equal; [done|apply IH]. }
  destruct dn eqn:E; [destruct updates; by simplify_eq/=|]. eauto.
Qed.

(** Pattern parsing accepts exactly the documented grammar and keeps the raw text, from
    which the segments are printed back. *)
Theorem parse_accepts_grammar p rp :
  (parse p = Ok rp ↔
    raw rp = p ∧ p = str_join slash (segment_str <$> segments rp) ∧ wf_segments (segments rp) ∧
    starts_with "refs/" p = true ∧ String.length p ≤ MAX_PATTERN_LENGTH) ∧
  (parse p = Ok rp → parse (raw rp) = Ok rp).
Proof.
  split.
  - rewrite parse_ok_iff. naive_solver.
  - intros H. assert (raw rp = p) as -> by (apply parse_ok_iff in H; tauto). done.
Qed.

(** A parsed pattern never indexes out of range when matching, and matches exactly the refs
    the glob semantics gives. *)
Theorem parse_never_panics p rp name :
  parse p = Ok rp →
  matches_checked rp name = Some (matches rp name) ∧
  (matches rp name = true ↔ ref_matches (segments rp) (str_split slash name)).
Proof.
  intros (_ & _ & (_ & Hrec & _) & _)%parse_ok_iff. unfold matches.
  destruct (matches_checked_spec rp name Hrec) as (b & -> & Hb). by split.
Qed.

(** Parsed protection tags give one well-formed rule per protect tag and at most 50,
    unknown tags are ignored, and adding tags only restricts pushes. *)
Theorem protection_tags_bounded tags p :
  parse_protection_tags tags = Ok p →
  length (rules p) = length (protect_tags tags) ∧ length (rules p) ≤ MAX_PROTECTION_RULES ∧
  Forall rule_wf (rules p) ∧
  parse_protection_tags (protect_tags tags) = Ok p ∧
  (∀ extra p' updates role, parse_protection_tags (tags ++ extra) = Ok p' →
     evaluate_push updates role (rules p') = Ok () → evaluate_push updates role (rules p) = Ok ()).
Proof.
  unfold parse_protection_tags. intros H.
  assert (Hlen : length (rules {| rules := []; unknown_rules := [] |}) ≤ MAX_PROTECTION_RULES) by (simpl; lia).
  destruct (parse_loop_ok _ _ _ H Hlen) as (Hwf & Hle & Hcount); [constructor|].
  split_and!; [done|done|done|by rewrite <- parse_loop_filter|].
  intros extra p' updates role (q & Hq & Hp')%parse_loop_prefix.
  assert (q = p) as -> by congruence. apply parse_loop_extends in Hp'.
  rewrite !evaluate_push_ok_iff. intros Hok u Hu. by eapply ref_allowed_mono; [exact Hp'|reflexivity|apply Hok].
Qed.

(** ** Witnesses *)

Definition main_rule : ProtectionRule :=
  {| pattern := {| raw := "refs/heads/main"; segments := [Literal "refs"; Literal "heads"; Literal "main"] |};
     push_role := Some Admin; no_force_push := true; no_delete := false; require_patch := false |}.
Definition ff_main : RefUpdate :=
  {| ref_name := "refs/heads/main"; update_kind := FastForward; old_oid := "a"; new_oid := "b" |}.
Definition new_branch : RefUpdate :=
  {| ref_name := "refs/heads/x"; update_kind := Create; old_oid := ZERO_OID; new_oid := "b" |}.

Example push_monotone_witness :
  evaluate_push [ff_main; new_branch] Admin [main_rule] = Ok () ∧
  evaluate_push [new_branch] Owner [] = Ok ().
Proof.
  split; [vm_compute; reflexivity|].
  apply (push_monotone [new_branch] [ff_main; new_branch] Owner Admin [] [main_rule]).
  - set_solver.
  - set_solver.
  - simpl; lia.
  - vm_compute; reflexivity.
Defined.

Example guests_and_bots_never_push_witness :
  ∃ ds, evaluate_push [ff_main; new_branch] Bot [] = Err ds ∧
        denied_ref <$> ds = ["refs/heads/main"; "refs/heads/x"].
Proof.
  apply (guests_and_bots_never_push [ff_main; new_branch] Bot []); [by right|done].
Defined.

Definition heads_any : RefPattern :=
  {| raw := "refs/heads/**"; segments := [Literal "refs"; Literal "heads"; RecursiveWildcard] |}.

Example parse_never_panics_witness :
  parse "refs/heads/**" = Ok heads_any ∧
  matches_checked heads_any "refs/heads/a/b" = Some (matches heads_any "refs/heads/a/b") ∧
  matches heads_any "refs/heads/a/b" = true ∧ matches heads_any "refs/heads" = false.
Proof.
  split; [vm_compute; reflexivity|].
  destruct (parse_never_panics "refs/heads/**" heads_any "refs/heads/a/b") as [H _];
    [vm_compute; reflexivity|].
  split; [exact H|]. split; vm_compute; reflexivity.
Defined.

Definition two_tags : list (list string) :=
  [["d"; "x"]; ["maju-protect"; "refs/heads/*"; "push:admin"; "no-delete"]].

Example protection_tags_bounded_witness :
  ∃ p, parse_protection_tags two_tags = Ok p ∧ length (rules p) = 1.
Proof.
  eexists. split; [vm_compute; reflexivity|].
  destruct (protection_tags_bounded two_tags
    {| rules := [{| pattern := {| raw := "refs/heads/*"; segments := [Literal "refs"; Literal "heads"; Wildcard] |};
                    push_role := Some Admin; no_force_push := false; no_delete := true; require_patch := false |}];
       unknown_rules := [] |}) as [H _]; [vm_compute; reflexivity|].
  exact H.
Defined.
