(* ===== verification/Ifc.v ===== *)
(** * Reader-set information-flow control ([crates/ifc-core/src/lib.rs])

    [BTreeSet<Principal>] is a stdpp finite set [gset Principal] over [Principal];
    universes have decidable equality.  [&mut self] methods of [FlowState] are
    functions from state to state.  The [Display] texts are included. *)
From S2P Require Import Prelude.

Section ifc.
Context {Universe Principal : Type}.
Context `{EqDecision Universe, Countable Principal}.

Inductive ReaderSet :=
  | Everyone
  | Only (readers : (gset Principal)).

#[export] Instance ReaderSet_eq_dec : EqDecision ReaderSet.
Proof. solve_decision. Defined.

Implicit Types (r : ReaderSet).

Definition readers_can_flow_to (r destination : ReaderSet) : bool :=
  match r, destination with
  | Everyone, _ => true
  | Only _, Everyone => false
  | Only source, Only destination => bool_decide (destination ⊆ source)
  end.

Definition readers_join (r other : ReaderSet) : ReaderSet :=
  match r, other with
  | Everyone, value => value
  | value, Everyone => value
  | Only l, Only r => Only (l ∩ r)
  end.

Definition readers_meet (r other : ReaderSet) : ReaderSet :=
  match r, other with
  | Everyone, _ => Everyone
  | _, Everyone => Everyone
  | Only l, Only r => Only (l ∪ r)
  end.

Definition explicit_readers (r : ReaderSet) : option (gset Principal) :=
  match r with Everyone => None | Only readers => Some readers end.

Definition explicit_count (r : ReaderSet) : option nat := size <$> explicit_readers r.

Record ConfidentialityLabel := { universe : Universe; reader_set : ReaderSet }.

Inductive LabelError := EmptyReaderSet | CrossUniverse.
Definition label_error_text (e : LabelError) : string :=
  match e with
  | EmptyReaderSet => "restricted label has no authorized readers"
  | CrossUniverse => "labels belong to different universes"
  end.

Implicit Types (l label destination : ConfidentialityLabel).

Definition public (u : Universe) : ConfidentialityLabel :=
  {| universe := u; reader_set := Everyone |}.

Definition restricted (u : Universe) (readers : (gset Principal)) : result LabelError ConfidentialityLabel :=
  if decide (elements readers = []) then Err EmptyReaderSet
  else Ok {| universe := u; reader_set := Only readers |}.

Definition restricted_to (u : Universe) (principal : Principal) : ConfidentialityLabel :=
  {| universe := u; reader_set := Only {[ principal ]} |}.

Definition is_public (l : ConfidentialityLabel) : bool :=
  match reader_set l with Everyone => true | Only _ => false end.

Definition reader_count (l : ConfidentialityLabel) : option nat := explicit_count (reader_set l).

Definition can_flow_to (l destination : ConfidentialityLabel) : bool :=
  bool_decide (universe l = universe destination)
  && readers_can_flow_to (reader_set l) (reader_set destination).

Definition label_join (l other : ConfidentialityLabel) : result LabelError ConfidentialityLabel :=
  if decide (universe l ≠ universe other) then Err CrossUniverse
  else Ok {| universe := universe l; reader_set := readers_join (reader_set l) (reader_set other) |}.

(** ** Flow state *)

Record FlowState := {
  accumulated : option ConfidentialityLabel;
  unresolved_input : bool
}.

Implicit Types (st : FlowState).

Definition flow_default : FlowState := {| accumulated := None; unresolved_input := false |}.

Definition observe (st : FlowState) (label : ConfidentialityLabel) : FlowState :=
  match accumulated st with
  | None => {| accumulated := Some label; unresolved_input := unresolved_input st |}
  | Some existing =>
      match label_join existing label with
      | Ok combined => {| accumulated := Some combined; unresolved_input := unresolved_input st |}
      | Err (CrossUniverse | EmptyReaderSet) =>
          {| accumulated := Some existing; unresolved_input := true |}
      end
  end.

Definition mark_unknown (st : FlowState) : FlowState :=
  {| accumulated := accumulated st; unresolved_input := true |}.

Inductive EgressError := UnresolvedInput | DestinationUniverseMismatch | DestinationWidensReaders.
Definition egress_error_text (e : EgressError) : string :=
  match e with
  | UnresolvedInput => "input provenance is unresolved"
  | DestinationUniverseMismatch => "destination belongs to a different universe"
  | DestinationWidensReaders => "destination widens the accumulated reader set"
  end.

Definition check_egress (st : FlowState) (destination : ConfidentialityLabel) : result EgressError unit :=
  if unresolved_input st then Err UnresolvedInput
  else match accumulated st with
       | None => Ok ()
       | Some acc =>
           if decide (universe acc ≠ universe destination) then Err DestinationUniverseMismatch
           else if negb (readers_can_flow_to (reader_set acc) (reader_set destination))
           then Err DestinationWidensReaders
           else Ok ()
       end.

Definition has_observed_input (st : FlowState) : bool :=
  match accumulated st with Some _ => true | None => false end.
Definition accumulated_label (st : FlowState) : option ConfidentialityLabel := accumulated st.
Definition has_unresolved_input (st : FlowState) : bool := unresolved_input st.

Record FlowSnapshot := {
  snap_accumulated : option ConfidentialityLabel;
  snap_unresolved_input : bool
}.
Definition snapshot (st : FlowState) : FlowSnapshot :=
  {| snap_accumulated := accumulated st; snap_unresolved_input := unresolved_input st |}.

(** ** Histories

    What a computation boundary sees: labelled and unlabelled inputs. *)

Inductive FlowInput :=
  | Labelled (l : ConfidentialityLabel)
  | Unlabelled.

Definition flow_step (st : FlowState) (i : FlowInput) : FlowState :=
  match i with Labelled l => observe st l | Unlabelled => mark_unknown st end.

Definition flow_run (st : FlowState) (h : list FlowInput) : FlowState := foldl flow_step st h.

(** The specification of a safe release: everything that entered is labelled
    and may individually flow to the destination. *)
Definition may_release (h : list FlowInput) (destination : ConfidentialityLabel) : Prop :=
  ∀ i, i ∈ h → ∃ l, i = Labelled l ∧ can_flow_to l destination = true.

(** ** Lemmas: the lattice of reader sets *)

Definition flows (r d : ReaderSet) : Prop := readers_can_flow_to r d = true.

Lemma flows_only (a b : (gset Principal)) : flows (Only a) (Only b) ↔ b ⊆ a.
Proof. apply bool_decide_eq_true. Qed.

#[export] Instance flows_preorder : PreOrder flows.
Proof.
  split.
  - intros [|a]; [done|]. by apply flows_only.
  - intros [|a] [|b] [|c]; try done. rewrite !flows_only. set_solver.
Qed.

Lemma flows_join r1 r2 d : flows (readers_join r1 r2) d ↔ flows r1 d ∧ flows r2 d.
Proof.
  destruct r1 as [|a], r2 as [|b], d as [|c]; simpl; rewrite ?flows_only; try (unfold flows; simpl; naive_solver).
  set_solver.
Qed.

Lemma flows_meet d r1 r2 : flows d (readers_meet r1 r2) ↔ flows d r1 ∧ flows d r2.
Proof.
  destruct r1 as [|a], r2 as [|b], d as [|c]; simpl; rewrite ?flows_only; try (unfold flows; simpl; naive_solver).
  set_solver.
Qed.

Lemma flows_antisym r d : flows r d → flows d r → r = d.
Proof.
  destruct r as [|a], d as [|b]; try done. rewrite !flows_only. intros. f_equal. set_solver.
Qed.

(** ** Lemmas: flow states *)

Lemma can_flow_to_spec l d :
  can_flow_to l d = true ↔ universe l = universe d ∧ flows (reader_set l) (reader_set d).
Proof. unfold can_flow_to, flows. by rewrite andb_true_iff, bool_decide_eq_true. Qed.

Lemma check_egress_ok st d :
  check_egress st d = Ok () ↔
    unresolved_input st = false ∧ ∀ acc, accumulated st = Some acc → can_flow_to acc d = true.
Proof.
  unfold check_egress. destruct (unresolved_input st); [naive_solver|].
  destruct (accumulated st) as [acc|]; [|naive_solver].
  setoid_rewrite can_flow_to_spec. unfold flows. case_decide as Hu; [naive_solver|].
  destruct (readers_can_flow_to _ _) eqn:E; simpl; [|naive_solver congruence].
  split; [|done]. intros _. split; [done|]. by intros ? [= <-].
Qed.

Lemma check_egress_observe st l d :
  check_egress (observe st l) d = Ok () ↔ check_egress st d = Ok () ∧ can_flow_to l d = true.
Proof.
  rewrite !check_egress_ok. unfold observe. destruct (accumulated st) as [acc|]; simpl; [|naive_solver].
  unfold label_join. setoid_rewrite can_flow_to_spec. case_decide as Hu; simpl.
  - split; [naive_solver|]. intros [[_ Hq] [Hl _]]. destruct (Hq acc eq_refl) as [Ha _]. congruence.
  - split.
    + intros [? Hacc]. destruct (Hacc _ eq_refl) as [Hun Hfl]; simpl in *. apply flows_join in Hfl as [Hf1 Hf2].
      split_and!; [done| |congruence|done]. by intros ? [= <-].
    + intros [[? Hacc] [Hl Hfl]]. split; [done|]. intros ? [= <-]; simpl.
      destruct (Hacc _ eq_refl). by rewrite flows_join.
Qed.

Lemma check_egress_step st i d :
  check_egress (flow_step st i) d = Ok () ↔
    check_egress st d = Ok () ∧ ∃ l, i = Labelled l ∧ can_flow_to l d = true.
Proof.
  destruct i as [l|]; simpl.
  - rewrite check_egress_observe. naive_solver.
  - rewrite check_egress_ok. simpl. naive_solver.
Qed.

Lemma check_egress_run st h d :
  check_egress (flow_run st h) d = Ok () ↔ check_egress st d = Ok () ∧ may_release h d.
Proof.
  unfold flow_run, may_release. induction h as [|i h IH] using rev_ind; simpl.
  - split; [|tauto]. intros ?. split; [done|]. by intros i ?%elem_of_nil.
  - rewrite foldl_app. simpl. rewrite check_egress_step, IH.
    setoid_rewrite elem_of_app. setoid_rewrite list_elem_of_singleton. naive_solver.
Qed.

(** ** Properties *)

(** After any history of observations the egress check releases exactly when no unresolved
    input was seen and the destination may read every observed label. *)
Theorem egress_sound_complete h d :
  check_egress (flow_run flow_default h) d = Ok () ↔ may_release h d.
Proof.
  rewrite check_egress_run. split; [tauto|]. intros ?. split; [|done]. by apply check_egress_ok.
Qed.

(** A denied destination stays denied after any further observations, and an unresolved
    input is never forgotten. *)
Theorem egress_denial_permanent h h' d e :
  check_egress (flow_run flow_default h) d = Err e →
  ∃ e', check_egress (flow_run flow_default (h ++ h')) d = Err e' ∧
        (e = UnresolvedInput → e' = UnresolvedInput).
Proof.
  intros He. unfold flow_run. rewrite foldl_app. fold (flow_run flow_default h).
  fold (flow_run (flow_run flow_default h) h'). set (st := flow_run flow_default h) in *.
  destruct (check_egress (flow_run st h') d) as [[]|e'] eqn:E.
  - apply check_egress_run in E as [E _]. congruence.
  - exists e'. split; [done|]. intros ->.
    assert (Hun : unresolved_input st = true).
    { unfold check_egress in He. by repeat case_match. }
    assert (Hrun : unresolved_input (flow_run st h') = true).
    { clear E He. unfold flow_run. revert Hun. generalize st. induction h' as [|i h' IH]; intros st' Hun; simpl; [done|].
      apply IH. destruct i; simpl; [|done]. unfold observe. by repeat case_match. }
    unfold check_egress in E. rewrite Hrun in E. congruence.
Qed.

(** Reader sets under can_flow_to form a partial order with join and meet as least upper
    and greatest lower bounds. *)
Theorem reader_sets_form_lattice :
  PreOrder flows ∧ AntiSymm (=) flows ∧
  (∀ r1 r2 d, flows (readers_join r1 r2) d ↔ flows r1 d ∧ flows r2 d) ∧
  (∀ d r1 r2, flows d (readers_meet r1 r2) ↔ flows d r1 ∧ flows d r2).
Proof.
  split_and!; [apply _|exact flows_antisym|exact flows_join|exact flows_meet].
Qed.

End ifc.

(** ** Witness *)

Definition w_label (rs : list nat) : @ConfidentialityLabel nat nat _ _ :=
  {| universe := 0; reader_set := Only (list_to_set rs) |}.

Example egress_denial_permanent_witness :
  check_egress (flow_run flow_default [Labelled (w_label [1; 2])]) (public 0) = Err DestinationWidensReaders ∧
  ∃ e', check_egress (flow_run flow_default ([Labelled (w_label [1; 2])] ++ [Labelled (w_label [1])])) (public 0) = Err e'.
Proof.
  split; [vm_compute; reflexivity|].
  destruct (egress_denial_permanent [Labelled (w_label [1; 2])] [Labelled (w_label [1])] (public 0)
    DestinationWidensReaders) as (e' & He & _); [vm_compute; reflexivity|].
  by exists e'.
Defined.
