(* ===== verification/Nostr.v ===== *)
(** * The vocabulary the sources take from the [nostr] and [uuid] crates

    The two crates are not part of the repository.  What the sources use of
    them is collected here: plain data with public fields is a record, and the
    accessors of opaque types are the operations of the interface [NostrLib],
    a parameter of every definition that uses them.  Event ids and public keys
    are represented by their lower-case hex strings ([to_hex]), on which they
    are compared; a [Uuid] by its 128-bit value.

    [StoredEvent] is [crates/maju-core/src/event.rs]. *)
From S2P Require Import Prelude.

(** [as_slice]: the raw parts of a tag; [tag_kind]: [t.kind().to_string()];
    [tag_content]: [t.content()]; [uuid_to_string]: [Uuid]'s [Display]. *)
Class NostrLib : Type := {
  Tag : Type;
  as_slice : Tag → list string;
  tag_kind : Tag → string;
  tag_content : Tag → option string;
  uuid_to_string : N → string
}.

Abbreviation Uuid := N (only parsing).

(** Documented behaviour of [nostr::Tag]: its kind is the first part, its
    content the second, as accessed through [as_slice]. *)
Class NostrTagLaws (L : NostrLib) : Prop := {
  tag_kind_slice : ∀ (t : Tag) (k : string) (rest : list string),
    as_slice t = k :: rest → tag_kind t = k;
  tag_content_slice : ∀ (t : Tag), tag_content t = as_slice t !! 1%nat
}.

Section data.
Context {L : NostrLib}.

(** [nostr::Event] (public fields; [kind.as_u16()], [created_at.as_secs()]). *)
Record Event := {
  id : string;
  pubkey : string;
  created_at : Z;
  kind : Z;
  tags : list Tag;
  content : string
}.

(** [nostr::Filter] (public fields).  [generic_tags] is keyed by the letter of
    the [SingleLetterTag]; sets are lists in iteration order. *)
Record Filter := {
  ids : option (list string);
  authors : option (list string);
  kinds : option (list Z);
  since : option Z;
  until : option Z;
  generic_tags : gmap string (list string);
  search : option string;
  limit : option N
}.

Record StoredEvent := {
  event : Event;
  received_at : Z;
  channel_id : option Uuid;
  verified : bool
}.

(** [StoredEvent::new]; [now] is [Utc::now()]. *)
Definition stored_event_new (now : Z) (ev : Event) (channel : option Uuid) : StoredEvent :=
  {| event := ev; received_at := now; channel_id := channel; verified := false |}.

Definition is_verified (s : StoredEvent) : bool := verified s.

Definition with_received_at (ev : Event) (at_ : Z) (channel : option Uuid) (v : bool) : StoredEvent :=
  {| event := ev; received_at := at_; channel_id := channel; verified := v |}.

(** [event_kind_u32] of [kind.rs]. *)
Definition event_kind_u32 (ev : Event) : Z := kind ev.

(** The tag of [ev] has kind [k] and content [v]. *)
Definition tag_is (k v : string) (t : Tag) : bool :=
  (tag_kind t =? k)%string && bool_decide (tag_content t = Some v).

End data.

(** A concrete instance for evaluation: tags are their raw parts. *)
Definition slice_lib : NostrLib := {|
  Tag := list string;
  as_slice := λ t, t;
  tag_kind := λ t, default "" (head t);
  tag_content := λ t, t !! 1%nat;
  uuid_to_string := λ u, pretty u
|}.

Lemma slice_lib_laws : NostrTagLaws slice_lib.
Proof. split; [|done]. intros t k rest H. simpl in *. by subst t. Qed.

(** ** Identifiers *)

(** Documented behaviour of [Uuid]'s [Display]: hex digits and hyphens, injective. *)
Class UuidLaws (L : NostrLib) : Prop := {
  uuid_text u : str_forall (λ c, is_ascii_hexdigit c || Ascii.eqb c "-") (uuid_to_string u) = true;
  uuid_injective u v : uuid_to_string u = uuid_to_string v → u = v
}.

Lemma uuid_no_char {L : NostrLib} {UL : UuidLaws L} c u :
  is_ascii_hexdigit c || Ascii.eqb c "-" = false → str_contains_char c (uuid_to_string u) = false.
Proof.
  intros Hc. apply (str_forall_no_char (λ c, is_ascii_hexdigit c || Ascii.eqb c "-")); [exact Hc|]. apply uuid_text.
Qed.

(** Binary text of a positive number without its leading one. *)
Fixpoint print_pos (p : positive) : string :=
  match p with
  | xH => ""
  | xO p' => String "0" (print_pos p')
  | xI p' => String "1" (print_pos p')
  end.
Fixpoint parse_pos (s : string) : positive :=
  match s with
  | EmptyString => xH
  | String c s' => if Ascii.eqb c "1" then xI (parse_pos s') else xO (parse_pos s')
  end.

Lemma parse_print_pos p : parse_pos (print_pos p) = p.
Proof. induction p as [p IH|p IH|]; simpl; congruence. Qed.

(** Identifiers printed in binary. *)
Definition text_lib : NostrLib := {|
  Tag := list string; as_slice := λ t, t; tag_kind := λ t, default "" (hd_error t); tag_content := λ t, t !! 1%nat;
  uuid_to_string := λ u, print_pos (N.succ_pos u)
|}.

#[export] Instance text_lib_uuids : UuidLaws text_lib.
Proof.
  constructor.
  - intros u. cbn [uuid_to_string text_lib]. generalize (N.succ_pos u). intros p.
    induction p as [p IH|p IH|]; simpl; [exact IH|exact IH|done].
  - intros u v H. cbn in H. apply (f_equal parse_pos) in H. rewrite !parse_print_pos in H. lia.
Qed.
