(* ===== verification/Bytes.v ===== *)
(** * Byte orders

    Bytes are integers below 256.  [to_be_bytes], [from_be_bytes] of the
    standard library and the 16 bytes of a [Uuid]. *)
From S2P Require Import Prelude Nostr.

Definition bytes_ok (bs : list Z) : Prop := Forall (in_width 8) bs.

(** [uN::from_be_bytes]. *)
Definition from_be_bytes (bs : list Z) : Z := foldl (λ acc b, (acc * 256 + b)%Z) 0%Z bs.

(** Byte [k] of [n], from the low end; [l as u8] is byte 0. *)
Definition byte_at (k n : Z) : Z := Z.land (Z.shiftr n (8 * k)) 255.

(** [to_be_bytes] of a [k]-byte integer; two's complement for a signed one. *)
Fixpoint be_bytes (k : nat) (n : Z) : list Z :=
  match k with O => [] | S k' => byte_at (Z.of_nat k') n :: be_bytes k' n end.

(** [Uuid::as_bytes] and [Uuid::from_bytes]. *)
Definition uuid_bytes (u : Uuid) : list Z :=
  (λ k, byte_at k (Z.of_N u)) <$> [15; 14; 13; 12; 11; 10; 9; 8; 7; 6; 5; 4; 3; 2; 1; 0]%Z.
#[global] Arguments uuid_bytes : simpl never.
Definition uuid_from_bytes (bs : list Z) : Uuid := Z.to_N (from_be_bytes bs).

Lemma byte_at_div k n : (0 ≤ k)%Z → byte_at k n = ((n / 256 ^ k) mod 256)%Z.
Proof.
  intros Hk. unfold byte_at. change 255%Z with (Z.ones 8). rewrite Z.land_ones, Z.shiftr_div_pow2 by lia.
  by rewrite Z.pow_mul_r by lia.
Qed.

Lemma byte_at_width k n : (0 ≤ k)%Z → in_width 8 (byte_at k n).
Proof. intros Hk. rewrite byte_at_div by done. unfold in_width. change (2 ^ 8)%Z with 256%Z. apply Z.mod_pos_bound. lia. Qed.

Lemma uuid_be_bytes u : uuid_bytes u = be_bytes 16 (Z.of_N u).
Proof. reflexivity. Qed.

Lemma be_bytes_length k n : length (be_bytes k n) = k.
Proof. induction k; simpl; congruence. Qed.

Lemma be_bytes_ok k n : bytes_ok (be_bytes k n).
Proof. induction k as [|k IH]; constructor; [apply byte_at_width; lia|exact IH]. Qed.

Lemma from_be_bytes_acc k n a :
  foldl (λ acc b, (acc * 256 + b)%Z) a (be_bytes k n) = (a * 256 ^ Z.of_nat k + n mod 256 ^ Z.of_nat k)%Z.
Proof.
  revert a. induction k as [|k IH]; intros a.
  - simpl. change (256 ^ 0)%Z with 1%Z. rewrite Z.mod_1_r. lia.
  - cbn [be_bytes foldl]. rewrite IH, byte_at_div by lia. rewrite Nat2Z.inj_succ, Z.pow_succ_r by lia.
    rewrite (Z.mul_comm 256 (256 ^ _)), Z.rem_mul_r by lia. ring.
Qed.

Lemma from_be_bytes_be k n : (0 ≤ n < 256 ^ Z.of_nat k)%Z → from_be_bytes (be_bytes k n) = n.
Proof. intros Hn. unfold from_be_bytes. rewrite from_be_bytes_acc. rewrite Z.mod_small by done. lia. Qed.

Lemma be_bytes_app k n b : in_width 8 b → be_bytes (S k) (n * 256 + b) = be_bytes k n ++ [b].
Proof.
  intros Hb. unfold in_width in Hb. change (2 ^ 8)%Z with 256%Z in Hb. induction k as [|k IH].
  - cbn [be_bytes app]. rewrite byte_at_div by lia. f_equal. change (256 ^ Z.of_nat 0)%Z with 1%Z.
    Z.to_euclidean_division_equations; lia.
  - change (be_bytes (S (S k)) (n * 256 + b)) with (byte_at (Z.of_nat (S k)) (n * 256 + b) :: be_bytes (S k) (n * 256 + b)).
    rewrite IH. cbn [be_bytes app]. f_equal. rewrite !byte_at_div by lia.
    rewrite Nat2Z.inj_succ, Z.pow_succ_r by lia. f_equal.
    rewrite <- Z.div_div by lia. f_equal. Z.to_euclidean_division_equations; lia.
Qed.

Lemma from_be_bytes_bounds bs : bytes_ok bs → (0 ≤ from_be_bytes bs < 256 ^ Z.of_nat (length bs))%Z.
Proof.
  induction bs as [|b bs IH] using rev_ind; intros H; [done|].
  apply Forall_app in H as [H Hb]. apply Forall_cons in Hb as [Hb _]. specialize (IH H).
  unfold from_be_bytes in *. rewrite foldl_app. cbn [foldl]. rewrite length_app, Nat2Z.inj_add. cbn [length].
  rewrite Z.pow_add_r by lia. unfold in_width in Hb. change (2 ^ 8)%Z with 256%Z in Hb. change (256 ^ Z.of_nat 1)%Z with 256%Z. nia.
Qed.

Lemma be_bytes_from bs : bytes_ok bs → be_bytes (length bs) (from_be_bytes bs) = bs.
Proof.
  induction bs as [|b bs IH] using rev_ind; intros H; [done|].
  apply Forall_app in H as [H Hb]. apply Forall_cons in Hb as [Hb _].
  rewrite length_app, Nat.add_comm. cbn [length plus].
  unfold from_be_bytes in *. rewrite foldl_app. cbn [foldl]. rewrite be_bytes_app by done. by rewrite (IH H).
Qed.

Lemma uuid_bytes_length u : length (uuid_bytes u) = 16.
Proof. reflexivity. Qed.

Lemma uuid_round_trip u : (u < 2 ^ 128)%N → uuid_from_bytes (uuid_bytes u) = u.
Proof.
  intros Hu. unfold uuid_from_bytes. rewrite uuid_be_bytes, from_be_bytes_be; [lia|].
  change (256 ^ Z.of_nat 16)%Z with (Z.of_N (2 ^ 128)). lia.
Qed.

Lemma uuid_from_round_trip bs : bytes_ok bs → length bs = 16 →
  uuid_bytes (uuid_from_bytes bs) = bs ∧ (uuid_from_bytes bs < 2 ^ 128)%N.
Proof.
  intros Hb Hl. pose proof (from_be_bytes_bounds bs Hb) as Hr. unfold uuid_from_bytes. rewrite Hl in Hr.
  change (256 ^ Z.of_nat 16)%Z with (Z.of_N (2 ^ 128)) in Hr.
  rewrite uuid_be_bytes, Z2N.id by lia. split; [|lia]. rewrite <- Hl. by apply be_bytes_from.
Qed.
