(* ===== verification/Hex.v ===== *)
(** * Hexadecimal text

    The [hex] crate as an interface, its documented behaviour, and an instance
    for evaluation. *)
From S2P Require Import Prelude Bytes.

(** [hex::decode] and [hex::encode]. *)
Class HexLib : Type := { hex_decode : string → option (list Z) }.
Class HexEncode : Type := { encode_hex : list Z → string }.

Definition is_lower_hex_digit (c : ascii) : bool := is_ascii_digit c || in_range 97 102 c.

(** Two lower-case digits per byte, and back. *)
Class HexTextLaws (HL : HexLib) (HE : HexEncode) : Prop := {
  encode_hex_text bs : str_forall is_lower_hex_digit (encode_hex bs) = true;
  encode_hex_length bs : String.length (encode_hex bs) = 2 * length bs;
  hex_decode_encode bs : bytes_ok bs → hex_decode (encode_hex bs) = Some bs
}.

(** ** A concrete instance *)

Definition nibble_chr (n : Z) : ascii := ascii_of_N (Z.to_N (if (n <? 10)%Z then 48 + n else 87 + n)).
Definition nibble_of (c : ascii) : option Z :=
  let n := Z.of_N (N_of_ascii c) in
  if in_range 48 57 c then Some (n - 48)%Z else if in_range 97 102 c then Some (n - 87)%Z
  else if in_range 65 70 c then Some (n - 55)%Z else None.
Fixpoint nibbles_text (bs : list Z) : string :=
  match bs with [] => "" | b :: bs => String (nibble_chr (b / 16 mod 16)) (String (nibble_chr (b mod 16)) (nibbles_text bs)) end.
Fixpoint nibbles_of (s : string) : option (list Z) :=
  match s with
  | EmptyString => Some []
  | String a (String b s) => x ← nibble_of a; y ← nibble_of b; bs ← nibbles_of s; Some ((x * 16 + y)%Z :: bs)
  | _ => None
  end.
Definition plain_hex : HexLib := {| hex_decode := nibbles_of |}.
Definition plain_hex_encode : HexEncode := {| encode_hex := nibbles_text |}.

Definition nibble_ok (n : Z) : bool :=
  bool_decide (nibble_of (nibble_chr n) = Some n) && is_lower_hex_digit (nibble_chr n).

Lemma nibble_chr_ok n : (0 ≤ n < 16)%Z → nibble_of (nibble_chr n) = Some n ∧ is_lower_hex_digit (nibble_chr n) = true.
Proof.
  intros H. assert (Hin : n ∈ Z.of_nat <$> seq 0 16).
  { apply list_elem_of_fmap. exists (Z.to_nat n). rewrite elem_of_seq. lia. }
  assert (Hall : forallb nibble_ok (Z.of_nat <$> seq 0 16) = true) by reflexivity.
  rewrite forallb_forall in Hall. specialize (Hall n). unfold nibble_ok in Hall.
  apply list_elem_of_In, Hall, andb_true_iff in Hin as [H1%bool_decide_eq_true H2]. done.
Qed.

#[export] Instance plain_hex_laws : HexTextLaws plain_hex plain_hex_encode.
Proof.
  split; cbn [encode_hex hex_decode plain_hex plain_hex_encode].
  - induction bs as [|b bs IH]; [done|]. cbn [nibbles_text str_forall].
    by rewrite !(proj2 (nibble_chr_ok _ (Z.mod_pos_bound _ 16 ltac:(done)))), IH.
  - induction bs as [|b bs IH]; [done|]. cbn [nibbles_text String.length length]. rewrite IH. lia.
  - induction bs as [|b bs IH]; [done|]. intros [Hb Hbs]%Forall_cons. cbn [nibbles_text nibbles_of].
    rewrite !(proj1 (nibble_chr_ok _ (Z.mod_pos_bound _ 16 ltac:(done)))). csimpl. rewrite IH by done. csimpl. do 2 f_equal.
    unfold in_width in Hb. change (2 ^ 8)%Z with 256%Z in Hb. Z.to_euclidean_division_equations; lia.
Qed.
