(* ===== verification/Kinds.v ===== *)
(** * Event kind registry ([crates/maju-core/src/kind.rs])

    Every [pub const] kind, the registry [ALL_KINDS], the read-gate sets, the
    range and role predicates, and the shared-tag read gate.  Kinds are [u32]
    values ([Z]); [matches!] over constants is list membership. *)
From S2P Require Import Prelude Nostr.

(** ** Constants *)

Definition KIND_PROFILE : Z := 0%Z.
Definition KIND_TEXT_NOTE : Z := 1%Z.
Definition KIND_CONTACT_LIST : Z := 3%Z.
Definition KIND_MUTE_LIST : Z := 10000%Z.
Definition KIND_PIN_LIST : Z := 10001%Z.
Definition KIND_NIP65_RELAY_LIST_METADATA : Z := 10002%Z.
Definition KIND_BOOKMARK_LIST : Z := 10003%Z.
Definition KIND_EMOJI_LIST : Z := 10030%Z.
Definition KIND_FOLLOW_SET : Z := 30000%Z.
Definition KIND_BOOKMARK_SET : Z := 30003%Z.
Definition KIND_EMOJI_SET : Z := 30030%Z.
Definition KIND_CHANNEL_METADATA : Z := 41%Z.
Definition KIND_DELETION : Z := 5%Z.
Definition KIND_REACTION : Z := 7%Z.
Definition KIND_GIFT_WRAP : Z := 1059%Z.
Definition KIND_FILE_METADATA : Z := 1063%Z.
Definition KIND_LONG_FORM : Z := 30023%Z.
Definition KIND_USER_STATUS : Z := 30315%Z.
Definition KIND_READ_STATE : Z := 30078%Z.
Definition KIND_AUTH : Z := 22242%Z.
Definition KIND_BLOSSOM_AUTH : Z := 24242%Z.
Definition KIND_NOSTR_IDENTITY_BINDING : Z := 24243%Z.
Definition KIND_HTTP_AUTH : Z := 27235%Z.
Definition KIND_AGENT_PROFILE : Z := 10100%Z.
Definition KIND_AGENT_ENGRAM : Z := 30174%Z.
Definition KIND_EVENT_REMINDER : Z := 30300%Z.
Definition KIND_DEVICE_SESSION : Z := 30360%Z.
Definition KIND_PUSH_LEASE : Z := 30350%Z.
Definition KIND_PRIVATE_MANAGED_AGENT : Z := 30179%Z.
Definition KIND_PERSONA : Z := 30175%Z.
Definition KIND_TEAM : Z := 30176%Z.
Definition KIND_MANAGED_AGENT : Z := 30177%Z.
Definition KIND_TEAM_CATALOG : Z := 30178%Z.
Definition KIND_REPORT : Z := 1984%Z.
Definition KIND_PRODUCT_FEEDBACK : Z := 42000%Z.
Definition KIND_NIP29_PUT_USER : Z := 9000%Z.
Definition KIND_NIP29_REMOVE_USER : Z := 9001%Z.
Definition KIND_NIP29_EDIT_METADATA : Z := 9002%Z.
Definition KIND_NIP29_DELETE_EVENT : Z := 9005%Z.
Definition KIND_NIP29_CREATE_GROUP : Z := 9007%Z.
Definition KIND_NIP29_DELETE_GROUP : Z := 9008%Z.
Definition KIND_NIP29_CREATE_INVITE : Z := 9009%Z.
Definition KIND_NIP29_JOIN_REQUEST : Z := 9021%Z.
Definition KIND_NIP29_LEAVE_REQUEST : Z := 9022%Z.
Definition KIND_MODERATION_BAN : Z := 9040%Z.
Definition KIND_MODERATION_UNBAN : Z := 9041%Z.
Definition KIND_MODERATION_TIMEOUT : Z := 9042%Z.
Definition KIND_MODERATION_UNTIMEOUT : Z := 9043%Z.
Definition KIND_MODERATION_RESOLVE_REPORT : Z := 9044%Z.
Definition RELAY_ADMIN_ADD_MEMBER : Z := 9030%Z.
Definition RELAY_ADMIN_REMOVE_MEMBER : Z := 9031%Z.
Definition RELAY_ADMIN_CHANGE_ROLE : Z := 9032%Z.
Definition RELAY_ADMIN_SET_WORKSPACE_PROFILE : Z := 9033%Z.
Definition KIND_NIP43_MEMBERSHIP_LIST : Z := 13534%Z.
Definition KIND_NIP43_MEMBER_ADDED : Z := 8000%Z.
Definition KIND_NIP43_MEMBER_REMOVED : Z := 8001%Z.
Definition KIND_NIP43_LEAVE_REQUEST : Z := 28936%Z.
Definition KIND_IA_ARCHIVE_REQUEST : Z := 9035%Z.
Definition KIND_IA_UNARCHIVE_REQUEST : Z := 9036%Z.
Definition KIND_IA_ARCHIVED : Z := 8002%Z.
Definition KIND_IA_UNARCHIVED : Z := 8003%Z.
Definition KIND_IA_ARCHIVED_LIST : Z := 13535%Z.
Definition KIND_NIP29_GROUP_METADATA : Z := 39000%Z.
Definition KIND_NIP29_GROUP_ADMINS : Z := 39001%Z.
Definition KIND_NIP29_GROUP_MEMBERS : Z := 39002%Z.
Definition KIND_NIP29_GROUP_ROLES : Z := 39003%Z.
Definition KIND_THREAD_SUMMARY : Z := 39005%Z.
Definition KIND_WINDOW_BOUNDS : Z := 39006%Z.
Definition KIND_WORKFLOW_DEF : Z := 30620%Z.
Definition KIND_DM_VISIBILITY : Z := 30622%Z.
Definition PARAM_REPLACEABLE_KIND_MIN : Z := 30000%Z.
Definition PARAM_REPLACEABLE_KIND_MAX : Z := 39999%Z.
Definition EPHEMERAL_KIND_MIN : Z := 20000%Z.
Definition EPHEMERAL_KIND_MAX : Z := 29999%Z.
Definition KIND_PRESENCE_UPDATE : Z := 20001%Z.
Definition KIND_PAIRING : Z := 24134%Z.
Definition KIND_TYPING_INDICATOR : Z := 20002%Z.
Definition KIND_DEVICE_STATUS : Z := 20003%Z.
Definition KIND_AGENT_OBSERVER_FRAME : Z := 24200%Z.
Definition KIND_HUDDLE_REACTION : Z := 24810%Z.
Definition KIND_STREAM_MESSAGE : Z := 9%Z.
Definition KIND_STREAM_MESSAGE_V2 : Z := 40002%Z.
Definition KIND_STREAM_MESSAGE_EDIT : Z := 40003%Z.
Definition KIND_STREAM_MESSAGE_PINNED : Z := 40004%Z.
Definition KIND_STREAM_MESSAGE_BOOKMARKED : Z := 40005%Z.
Definition KIND_STREAM_MESSAGE_SCHEDULED : Z := 40006%Z.
Definition KIND_STREAM_REMINDER : Z := 40007%Z.
Definition KIND_STREAM_MESSAGE_DIFF : Z := 40008%Z.
Definition KIND_CANVAS : Z := 40100%Z.
Definition KIND_SYSTEM_MESSAGE : Z := 40099%Z.
Definition KIND_CHANNEL_SUMMARY : Z := 40901%Z.
Definition KIND_PRESENCE_SNAPSHOT : Z := 40902%Z.
Definition KIND_DM_OPEN : Z := 41010%Z.
Definition KIND_DM_ADD_MEMBER : Z := 41011%Z.
Definition KIND_DM_HIDE : Z := 41012%Z.
Definition KIND_DM_CREATED : Z := 41001%Z.
Definition KIND_JOB_REQUEST : Z := 43001%Z.
Definition KIND_JOB_ACCEPTED : Z := 43002%Z.
Definition KIND_JOB_PROGRESS : Z := 43003%Z.
Definition KIND_JOB_RESULT : Z := 43004%Z.
Definition KIND_JOB_CANCEL : Z := 43005%Z.
Definition KIND_JOB_ERROR : Z := 43006%Z.
Definition KIND_MEMBER_ADDED_NOTIFICATION : Z := 44100%Z.
Definition KIND_MEMBER_REMOVED_NOTIFICATION : Z := 44101%Z.
Definition KIND_AGENT_TURN_METRIC : Z := 44200%Z.
Definition KIND_FORUM_POST : Z := 45001%Z.
Definition KIND_FORUM_VOTE : Z := 45002%Z.
Definition KIND_FORUM_COMMENT : Z := 45003%Z.
Definition KIND_WORKFLOW_TRIGGER : Z := 46020%Z.
Definition KIND_APPROVAL_GRANT : Z := 46030%Z.
Definition KIND_APPROVAL_DENY : Z := 46031%Z.
Definition KIND_WORKFLOW_TRIGGERED : Z := 46001%Z.
Definition KIND_WORKFLOW_STEP_STARTED : Z := 46002%Z.
Definition KIND_WORKFLOW_STEP_COMPLETED : Z := 46003%Z.
Definition KIND_WORKFLOW_STEP_FAILED : Z := 46004%Z.
Definition KIND_WORKFLOW_COMPLETED : Z := 46005%Z.
Definition KIND_WORKFLOW_FAILED : Z := 46006%Z.
Definition KIND_WORKFLOW_CANCELLED : Z := 46007%Z.
Definition KIND_WORKFLOW_APPROVAL_REQUESTED : Z := 46010%Z.
Definition KIND_WORKFLOW_APPROVAL_GRANTED : Z := 46011%Z.
Definition KIND_WORKFLOW_APPROVAL_DENIED : Z := 46012%Z.
Definition KIND_AUDIT_ENTRY : Z := 48001%Z.
Definition KIND_HUDDLE_STARTED : Z := 48100%Z.
Definition KIND_HUDDLE_PARTICIPANT_JOINED : Z := 48101%Z.
Definition KIND_HUDDLE_PARTICIPANT_LEFT : Z := 48102%Z.
Definition KIND_HUDDLE_ENDED : Z := 48103%Z.
Definition KIND_HUDDLE_LIVENESS : Z := 48104%Z.
Definition KIND_HUDDLE_GUIDELINES : Z := 48106%Z.
Definition KIND_MEDIA_UPLOAD : Z := 49001%Z.
Definition KIND_GIT_REPO_ANNOUNCEMENT : Z := 30617%Z.
Definition KIND_GIT_REPO_STATE : Z := 30618%Z.
Definition KIND_GIT_PATCH : Z := 1617%Z.
Definition KIND_GIT_PULL_REQUEST : Z := 1618%Z.
Definition KIND_GIT_PR_UPDATE : Z := 1619%Z.
Definition KIND_GIT_ISSUE : Z := 1621%Z.
Definition KIND_GIT_STATUS_OPEN : Z := 1630%Z.
Definition KIND_GIT_STATUS_MERGED : Z := 1631%Z.
Definition KIND_GIT_STATUS_CLOSED : Z := 1632%Z.
Definition KIND_GIT_STATUS_DRAFT : Z := 1633%Z.
Definition KIND_PROJECT : Z := 30621%Z.

(** ** Sets of kinds *)

Definition AUTHOR_ONLY_KINDS : list Z :=
  [KIND_EVENT_REMINDER; KIND_PUSH_LEASE; KIND_DEVICE_SESSION; KIND_PRIVATE_MANAGED_AGENT].

Definition RESULT_GATED_KINDS : list Z :=
  [KIND_DM_VISIBILITY; KIND_AGENT_TURN_METRIC].

Definition P_GATED_KINDS : list Z :=
  [KIND_AGENT_OBSERVER_FRAME; KIND_MEMBER_ADDED_NOTIFICATION; KIND_MEMBER_REMOVED_NOTIFICATION;
   KIND_GIFT_WRAP; KIND_DM_VISIBILITY; KIND_AGENT_TURN_METRIC].

Definition SHARED_GATED_KINDS : list Z :=
  [KIND_PERSONA; KIND_TEAM_CATALOG].

Definition ALL_KINDS : list Z :=
  [KIND_PROFILE; KIND_TEXT_NOTE; KIND_CONTACT_LIST; KIND_MUTE_LIST; KIND_PIN_LIST;
   KIND_NIP65_RELAY_LIST_METADATA; KIND_BOOKMARK_LIST; KIND_EMOJI_LIST; KIND_FOLLOW_SET;
   KIND_BOOKMARK_SET; KIND_EMOJI_SET; KIND_CHANNEL_METADATA; KIND_DELETION; KIND_REACTION;
   KIND_GIFT_WRAP; KIND_FILE_METADATA; KIND_AGENT_PROFILE; KIND_AGENT_ENGRAM;
   KIND_EVENT_REMINDER; KIND_DEVICE_SESSION; KIND_PERSONA; KIND_TEAM; KIND_MANAGED_AGENT;
   KIND_TEAM_CATALOG; KIND_PRIVATE_MANAGED_AGENT; KIND_REPORT; KIND_PRODUCT_FEEDBACK;
   KIND_NIP29_PUT_USER; KIND_NIP29_REMOVE_USER; KIND_NIP29_EDIT_METADATA;
   KIND_NIP29_DELETE_EVENT; KIND_NIP29_CREATE_GROUP; KIND_NIP29_DELETE_GROUP;
   KIND_NIP29_CREATE_INVITE; KIND_NIP29_JOIN_REQUEST; KIND_NIP29_LEAVE_REQUEST;
   KIND_MODERATION_BAN; KIND_MODERATION_UNBAN; KIND_MODERATION_TIMEOUT;
   KIND_MODERATION_UNTIMEOUT; KIND_MODERATION_RESOLVE_REPORT; RELAY_ADMIN_ADD_MEMBER;
   RELAY_ADMIN_REMOVE_MEMBER; RELAY_ADMIN_CHANGE_ROLE; RELAY_ADMIN_SET_WORKSPACE_PROFILE;
   KIND_NIP43_MEMBERSHIP_LIST; KIND_NIP43_MEMBER_ADDED; KIND_NIP43_MEMBER_REMOVED;
   KIND_NIP43_LEAVE_REQUEST; KIND_IA_ARCHIVE_REQUEST; KIND_IA_UNARCHIVE_REQUEST;
   KIND_IA_ARCHIVED; KIND_IA_UNARCHIVED; KIND_IA_ARCHIVED_LIST; KIND_NIP29_GROUP_METADATA;
   KIND_NIP29_GROUP_ADMINS; KIND_NIP29_GROUP_MEMBERS; KIND_NIP29_GROUP_ROLES;
   KIND_THREAD_SUMMARY; KIND_WINDOW_BOUNDS; KIND_PRESENCE_UPDATE; KIND_TYPING_INDICATOR;
   KIND_DEVICE_STATUS; KIND_HUDDLE_REACTION; KIND_BLOSSOM_AUTH; KIND_PAIRING;
   KIND_AGENT_OBSERVER_FRAME; KIND_HTTP_AUTH; KIND_STREAM_MESSAGE; KIND_STREAM_MESSAGE_V2;
   KIND_STREAM_MESSAGE_EDIT; KIND_STREAM_MESSAGE_PINNED; KIND_STREAM_MESSAGE_BOOKMARKED;
   KIND_STREAM_MESSAGE_SCHEDULED; KIND_STREAM_REMINDER; KIND_STREAM_MESSAGE_DIFF; KIND_CANVAS;
   KIND_SYSTEM_MESSAGE; KIND_CHANNEL_SUMMARY; KIND_PRESENCE_SNAPSHOT; KIND_DM_VISIBILITY;
   KIND_DM_OPEN; KIND_DM_ADD_MEMBER; KIND_DM_HIDE; KIND_DM_CREATED; KIND_JOB_REQUEST;
   KIND_JOB_ACCEPTED; KIND_JOB_PROGRESS; KIND_JOB_RESULT; KIND_JOB_CANCEL; KIND_JOB_ERROR;
   KIND_MEMBER_ADDED_NOTIFICATION; KIND_MEMBER_REMOVED_NOTIFICATION; KIND_AGENT_TURN_METRIC;
   KIND_WORKFLOW_DEF; KIND_LONG_FORM; KIND_USER_STATUS; KIND_READ_STATE; KIND_FORUM_POST;
   KIND_FORUM_VOTE; KIND_FORUM_COMMENT; KIND_WORKFLOW_TRIGGER; KIND_APPROVAL_GRANT;
   KIND_APPROVAL_DENY; KIND_WORKFLOW_TRIGGERED; KIND_WORKFLOW_STEP_STARTED;
   KIND_WORKFLOW_STEP_COMPLETED; KIND_WORKFLOW_STEP_FAILED; KIND_WORKFLOW_COMPLETED;
   KIND_WORKFLOW_FAILED; KIND_WORKFLOW_CANCELLED; KIND_WORKFLOW_APPROVAL_REQUESTED;
   KIND_WORKFLOW_APPROVAL_GRANTED; KIND_WORKFLOW_APPROVAL_DENIED; KIND_AUDIT_ENTRY;
   KIND_HUDDLE_STARTED; KIND_HUDDLE_PARTICIPANT_JOINED; KIND_HUDDLE_PARTICIPANT_LEFT;
   KIND_HUDDLE_ENDED; KIND_HUDDLE_LIVENESS; KIND_HUDDLE_GUIDELINES; KIND_MEDIA_UPLOAD;
   KIND_GIT_REPO_ANNOUNCEMENT; KIND_GIT_REPO_STATE; KIND_GIT_PATCH; KIND_GIT_PULL_REQUEST;
   KIND_GIT_PR_UPDATE; KIND_GIT_ISSUE; KIND_GIT_STATUS_OPEN; KIND_GIT_STATUS_MERGED;
   KIND_GIT_STATUS_CLOSED; KIND_GIT_STATUS_DRAFT; KIND_PROJECT].

(** [matches!(kind, A | B | ...)]. *)
Definition one_of (k : Z) (l : list Z) : bool := existsb (Z.eqb k) l.

(** ** Predicates *)

Definition is_moderation_command_kind (k : Z) : bool :=
  one_of k
    [KIND_MODERATION_BAN; KIND_MODERATION_UNBAN; KIND_MODERATION_TIMEOUT;
     KIND_MODERATION_UNTIMEOUT; KIND_MODERATION_RESOLVE_REPORT].
Definition is_relay_admin_kind (k : Z) : bool :=
  one_of k
    [RELAY_ADMIN_ADD_MEMBER; RELAY_ADMIN_REMOVE_MEMBER; RELAY_ADMIN_CHANGE_ROLE;
     RELAY_ADMIN_SET_WORKSPACE_PROFILE].
Definition is_identity_archive_request_kind (k : Z) : bool :=
  one_of k
    [KIND_IA_ARCHIVE_REQUEST; KIND_IA_UNARCHIVE_REQUEST].
Definition is_command_kind (k : Z) : bool :=
  one_of k
    [KIND_WORKFLOW_DEF; KIND_DM_OPEN; KIND_DM_ADD_MEMBER; KIND_DM_HIDE;
     KIND_WORKFLOW_TRIGGER; KIND_APPROVAL_GRANT; KIND_APPROVAL_DENY].
Definition is_relay_only_kind (k : Z) : bool :=
  one_of k
    [KIND_NIP43_MEMBERSHIP_LIST; KIND_CHANNEL_SUMMARY; KIND_PRESENCE_SNAPSHOT;
     KIND_DM_VISIBILITY; KIND_THREAD_SUMMARY; KIND_WINDOW_BOUNDS].

Definition is_ephemeral (k : Z) : bool := ((EPHEMERAL_KIND_MIN <=? k) && (k <=? EPHEMERAL_KIND_MAX))%Z.
Definition is_replaceable (k : Z) : bool :=
  ((k =? 0) || (k =? 3) || (k =? KIND_CHANNEL_METADATA) || (10000 <=? k) && (k <=? 19999))%Z.
Definition is_parameterized_replaceable (k : Z) : bool :=
  ((PARAM_REPLACEABLE_KIND_MIN <=? k) && (k <=? PARAM_REPLACEABLE_KIND_MAX))%Z.
Definition is_workflow_execution_kind (k : Z) : bool :=
  ((KIND_WORKFLOW_TRIGGERED <=? k) && (k <=? KIND_WORKFLOW_APPROVAL_DENIED))%Z.
Definition is_shared_gated_kind (k : Z) : bool := one_of k SHARED_GATED_KINDS.

Section shared_gate.
Context {L : NostrLib}.

(** The loop of [event_is_shared]: [None] is the early [return false], the
    number is [count]. *)
Fixpoint shared_loop (count : nat) (ts : list Tag) : option nat :=
  match ts with
  | [] => Some count
  | t :: ts' =>
      let parts := as_slice t in
      match parts with
      | [p0; p1] =>
          if (p0 =? "shared")%string then
            if negb (p1 =? "true")%string then None else shared_loop (S count) ts'
          else shared_loop count ts'
      | p0 :: _ => if (p0 =? "shared")%string then None else shared_loop count ts'
      | [] => shared_loop count ts'
      end
  end.

Definition event_is_shared (ev : Event) : bool :=
  match shared_loop 0 (tags ev) with Some count => (count =? 1)%nat | None => false end.

(** The requester is given by the hex form of its key bytes. *)
Definition is_unshared_gated_event (ev : Event) (requester : string) : bool :=
  if negb (is_shared_gated_kind (kind ev)) then false
  else if (pubkey ev =? requester)%string then false
  else negb (event_is_shared ev).

(** ** Lemmas *)

Definition names_shared (t : Tag) : bool :=
  match as_slice t with p0 :: _ => (p0 =? "shared")%string | [] => false end.

Lemma shared_loop_spec n ts m :
  shared_loop n ts = Some m ↔
    Forall (λ t, as_slice t = ["shared"; "true"]) (List.filter names_shared ts) ∧
    m = n + length (List.filter names_shared ts).
Proof.
  revert n; induction ts as [|t ts IH]; intros n; simpl.
  { rewrite Nat.add_0_r. split; [by intros [= ->]|by intros [_ ->]]. }
  replace (names_shared t) with
    (match as_slice t with p0 :: _ => (p0 =? "shared")%string | [] => false end) by done.
  destruct (as_slice t) as [|p0 [|p1 [|p2 ps]]] eqn:E; simpl;
    [apply IH|..]; destruct (p0 =? "shared")%string eqn:E0; boolify; subst; try apply IH.
  - split; [done|]. intros [Hf _]. inversion Hf. congruence.
  - destruct (p1 =? "true")%string eqn:E1; boolify; subst; simpl.
    + rewrite IH. rewrite Forall_cons, E. split; intros [? ?]; split; try done; try tauto; lia.
    + split; [done|]. intros [Hf _]. inversion Hf. congruence.
  - split; [done|]. intros [Hf _]. inversion Hf. congruence.
Qed.

(** ** Properties *)

(** An event of a shared-gated kind is hidden from a requester other than its author unless
    it has exactly one shared tag and that tag is shared=true. *)
Theorem unshared_gate_spec ev requester :
  is_unshared_gated_event ev requester = false ↔
    kind ev ∉ SHARED_GATED_KINDS ∨ pubkey ev = requester ∨
    ∃ t, List.filter names_shared (tags ev) = [t] ∧ as_slice t = ["shared"; "true"].
Proof.
  unfold is_unshared_gated_event, is_shared_gated_kind, one_of.
  destruct (existsb (Z.eqb (kind ev)) SHARED_GATED_KINDS) eqn:Ek; simpl.
  2: { split; [|done]. intros _. left. intros Hin%list_elem_of_In.
       rewrite <- not_true_iff_false, existsb_exists in Ek. apply Ek. exists (kind ev). by rewrite Z.eqb_refl. }
  apply existsb_exists in Ek as (k & Hin%list_elem_of_In & <-%Z.eqb_eq).
  destruct (pubkey ev =? requester)%string eqn:Ep; boolify; [naive_solver|].
  rewrite negb_false_iff. unfold event_is_shared.
  trans (shared_loop 0 (tags ev) = Some 1).
  - destruct (shared_loop 0 (tags ev)) as [m|]; [|done]. rewrite Nat.eqb_eq. naive_solver.
  - rewrite shared_loop_spec. split.
    + intros [Hf Hlen]. right; right. destruct (List.filter _ _) as [|t [|t' ts]]; simplify_eq/=.
      exists t. by inversion Hf.
    + intros [?|[?|(t & -> & Ht)]]; [done..|]. split; [by repeat constructor|done].
Qed.

End shared_gate.

Lemma one_of_spec k l : one_of k l = true ↔ k ∈ l.
Proof.
  unfold one_of. rewrite existsb_exists, list_elem_of_In. split.
  - by intros (x & ? & ->%Z.eqb_eq).
  - intros ?. exists k. by rewrite Z.eqb_refl.
Qed.

(** A boolean check over a closed list, lifted to its members. *)
Lemma forallb_elem_of (P : Z → bool) l : forallb P l = true → ∀ k, k ∈ l → P k = true.
Proof. intros H k Hk%list_elem_of_In. by eapply forallb_forall in H. Qed.


(** The kind registry has 133 distinct 16-bit kinds and includes every gated kind except
    the push lease; result-gated kinds are p-gated, the replaceability ranges exclude each
    other, and command kinds are never relay-only or ephemeral. *)
Theorem kind_registry_sound :
  NoDup ALL_KINDS ∧ length ALL_KINDS = 133%nat ∧ (KIND_AUTH ∉ ALL_KINDS) ∧
  (KIND_PUSH_LEASE ∈ AUTHOR_ONLY_KINDS) ∧ (KIND_PUSH_LEASE ∉ ALL_KINDS) ∧
  (∀ k, k ∈ ALL_KINDS → in_width 16 k) ∧
  RESULT_GATED_KINDS ⊆ P_GATED_KINDS ∧
  (∀ k, k ∈ P_GATED_KINDS ++ AUTHOR_ONLY_KINDS ++ SHARED_GATED_KINDS → k ∈ ALL_KINDS ∨ k = KIND_PUSH_LEASE) ∧
  (∀ k, is_ephemeral k = true → is_replaceable k = false ∧ is_parameterized_replaceable k = false) ∧
  (∀ k, is_parameterized_replaceable k = true → is_replaceable k = false) ∧
  (∀ k, (is_command_kind k || is_relay_admin_kind k || is_moderation_command_kind k
        || is_identity_archive_request_kind k) = true → is_relay_only_kind k = false ∧ is_ephemeral k = false).
Proof.
  split_and!.
  - apply (bool_decide_unpack _). by vm_compute.
  - reflexivity.
  - apply (bool_decide_unpack _). by vm_compute.
  - apply (bool_decide_unpack _). by vm_compute.
  - apply (bool_decide_unpack _). by vm_compute.
  - intros k Hk.
    pose proof (forallb_elem_of (λ k, (0 <=? k)%Z && (k <? 2 ^ 16)%Z) ALL_KINDS eq_refl k Hk) as H. cbv beta in H.
    unfold in_width. boolify. lia.
  - intros k Hk. apply one_of_spec.
    exact (forallb_elem_of (λ k, one_of k P_GATED_KINDS) RESULT_GATED_KINDS eq_refl k Hk).
  - intros k Hk. rewrite <- one_of_spec.
    pose proof (forallb_elem_of (λ k, one_of k ALL_KINDS || (k =? KIND_PUSH_LEASE)%Z)
      (P_GATED_KINDS ++ AUTHOR_ONLY_KINDS ++ SHARED_GATED_KINDS) eq_refl k Hk) as H. cbv beta in H.
    boolify. destruct H; [by left|right; by boolify].
  - intros k. unfold is_ephemeral, is_replaceable, is_parameterized_replaceable,
      EPHEMERAL_KIND_MIN, EPHEMERAL_KIND_MAX, PARAM_REPLACEABLE_KIND_MIN, PARAM_REPLACEABLE_KIND_MAX,
      KIND_CHANNEL_METADATA. lia.
  - intros k. unfold is_replaceable, is_parameterized_replaceable,
      PARAM_REPLACEABLE_KIND_MIN, PARAM_REPLACEABLE_KIND_MAX, KIND_CHANNEL_METADATA. lia.
  - intros k H. set (P := λ k, negb (is_relay_only_kind k) && negb (is_ephemeral k)). cut (P k = true);
      [unfold P; intros [? ?]%andb_true_iff; by boolify|].
    rewrite !orb_true_iff in H. unfold is_command_kind, is_relay_admin_kind,
      is_moderation_command_kind, is_identity_archive_request_kind in H. rewrite !one_of_spec in H.
    destruct H as [[[H|H]|H]|H]; refine (forallb_elem_of P _ _ k H); reflexivity.
Qed.
