(* ===== verification/EventFilter.v ===== *)
(** * NIP-01 filter matching ([crates/maju-core/src/filter.rs])

    [filters_match]: filters are OR-ed, the fields of one filter are AND-ed,
    with the channel fallback for [#h]; and the result-level read gate
    [reader_authorized_for_event]. *)
From S2P Require Import Prelude Nostr Kinds.

Section filter.
Context {L : NostrLib}.

Definition reader_authorized_for_event (ev : Event) (reader_pubkey_hex : string) : bool :=
  let k := event_kind_u32 ev in
  if negb (k =? KIND_DM_VISIBILITY)%Z && negb (k =? KIND_AGENT_TURN_METRIC)%Z then true
  else
    existsb (λ t, bool_decide (tag_content t = Some reader_pubkey_hex))
      (List.filter (λ t, (tag_kind t =? "p")%string) (tags ev)).

Definition string_in (s : string) (l : list string) : bool := existsb (String.eqb s) l.

(** [has_match] of the tag loop. *)
Definition tag_has_match (ev : Event) (tag_key : string) (tag_values : list string) : bool :=
  existsb (λ filter_val,
    existsb (λ event_val, (event_val =? filter_val)%string)
      (omap tag_content (List.filter (λ t, (tag_kind t =? tag_key)%string) (tags ev))))
    tag_values.

(** One iteration of the tag loop; [false] is the [return false]. *)
Definition tag_filter_ok (ev : StoredEvent) (tag_key : string) (tag_values : list string) : bool :=
  let has_match := tag_has_match (event ev) tag_key tag_values in
  if negb has_match && (tag_key =? "h")%string then
    let event_has_h_tags := existsb (λ t, (tag_kind t =? "h")%string) (tags (event ev)) in
    if negb event_has_h_tags then
      match channel_id ev with
      | Some ch_id => existsb (λ v, (v =? uuid_to_string ch_id)%string) tag_values
      | None => false
      end
    else false
  else if negb has_match then false
  else true.

(** [opt.contains(x)] where an absent field accepts everything. *)
Definition field_ok {A} (o : option A) (test : A → bool) : bool :=
  match o with Some x => test x | None => true end.

Definition filter_match_one (f : Filter) (ev : StoredEvent) : bool :=
  let e := event ev in
  if negb (field_ok (kinds f) (one_of (kind e))) then false
  else if negb (field_ok (authors f) (string_in (pubkey e))) then false
  else if negb (field_ok (since f) (λ s, negb (created_at e <? s)%Z)) then false
  else if negb (field_ok (until f) (λ u, negb (u <? created_at e)%Z)) then false
  else if negb (field_ok (ids f) (existsb (λ i, starts_with i (id e)))) then false
  else forallb (λ kv, tag_filter_ok ev kv.1 kv.2) (map_to_list (generic_tags f)).

Definition filters_match (filters : list Filter) (ev : StoredEvent) : bool :=
  existsb (λ f, filter_match_one f ev) filters.

(** ** Specification *)

(** Some tag of the event has kind [k] and content [v]. *)
Definition carries (e : Event) (k v : string) : Prop :=
  ∃ t, t ∈ tags e ∧ tag_kind t = k ∧ tag_content t = Some v.

Definition has_h_tag (e : Event) : Prop := ∃ t, t ∈ tags e ∧ tag_kind t = "h".

(** What a [#k] constraint with values [vs] asks: a carried value, or, for [#h]
    only and only when the event has no [h] tag at all, the stored channel. *)
Definition tag_constraint (ev : StoredEvent) (k : string) (vs : list string) : Prop :=
  (∃ v, v ∈ vs ∧ carries (event ev) k v) ∨
  (k = "h" ∧ ¬ has_h_tag (event ev) ∧
   ∃ ch, channel_id ev = Some ch ∧ uuid_to_string ch ∈ vs).

Definition filter_accepts (f : Filter) (ev : StoredEvent) : Prop :=
  let e := event ev in
  (∀ ks, kinds f = Some ks → kind e ∈ ks) ∧
  (∀ ps, authors f = Some ps → pubkey e ∈ ps) ∧
  (∀ s, since f = Some s → (s ≤ created_at e)%Z) ∧
  (∀ u, until f = Some u → (created_at e ≤ u)%Z) ∧
  (∀ js, ids f = Some js → ∃ i, i ∈ js ∧ starts_with i (id e) = true) ∧
  (∀ k vs, generic_tags f !! k = Some vs → tag_constraint ev k vs).

(** ** Lemmas *)

Lemma existsb_elem_of {A} (P : A → bool) l : existsb P l = true ↔ ∃ x, x ∈ l ∧ P x = true.
Proof. rewrite existsb_exists. by setoid_rewrite <- list_elem_of_In. Qed.

Lemma string_in_spec s l : string_in s l = true ↔ s ∈ l.
Proof.
  unfold string_in. rewrite existsb_elem_of. setoid_rewrite String.eqb_eq. naive_solver.
Qed.

Lemma elem_of_List_filter {A} (P : A → bool) x l : x ∈ List.filter P l ↔ x ∈ l ∧ P x = true.
Proof. by rewrite !list_elem_of_In, filter_In. Qed.

Lemma tag_has_match_spec e k vs : tag_has_match e k vs = true ↔ ∃ v, v ∈ vs ∧ carries e k v.
Proof.
  unfold tag_has_match, carries. rewrite existsb_elem_of.
  apply exist_proper; intros v. apply and_iff_compat_l.
  rewrite existsb_elem_of. setoid_rewrite list_elem_of_omap. setoid_rewrite elem_of_List_filter.
  setoid_rewrite String.eqb_eq. naive_solver.
Qed.

Lemma has_h_tag_spec e : existsb (λ t, (tag_kind t =? "h")%string) (tags e) = true ↔ has_h_tag e.
Proof. rewrite existsb_elem_of. by setoid_rewrite String.eqb_eq. Qed.

Lemma tag_filter_ok_spec ev k vs : tag_filter_ok ev k vs = true ↔ tag_constraint ev k vs.
Proof.
  unfold tag_filter_ok, tag_constraint. rewrite <- tag_has_match_spec, <- has_h_tag_spec.
  destruct (tag_has_match (event ev) k vs); simpl; [naive_solver|].
  destruct (k =? "h")%string eqn:Ek; boolify; [|naive_solver].
  destruct (existsb _ (tags (event ev))); simpl; [naive_solver|].
  destruct (channel_id ev) as [ch|]; [|naive_solver].
  rewrite existsb_elem_of. setoid_rewrite String.eqb_eq. naive_solver.
Qed.

Lemma field_ok_spec {A} (o : option A) test :
  field_ok o test = true ↔ ∀ x, o = Some x → test x = true.
Proof. destruct o; naive_solver. Qed.

Lemma filter_match_one_spec f ev : filter_match_one f ev = true ↔ filter_accepts f ev.
Proof.
  unfold filter_match_one, filter_accepts.
  assert (Hif : ∀ b c : bool, (if negb b then false else c) = b && c) by (by intros [] []).
  rewrite !Hif, !andb_true_iff, !field_ok_spec, forallb_forall.
  setoid_rewrite one_of_spec. setoid_rewrite string_in_spec. setoid_rewrite negb_true_iff.
  setoid_rewrite Z.ltb_ge. setoid_rewrite existsb_elem_of.
  setoid_rewrite <- list_elem_of_In. setoid_rewrite tag_filter_ok_spec.
  do 5 apply and_iff_compat_l. split.
  - intros H k vs Hk. by apply (H (k, vs)), elem_of_map_to_list.
  - intros H [k vs] Hk. by apply H, elem_of_map_to_list.
Qed.

(** ** Properties *)

(** Filters_match holds exactly when some filter accepts the event under the declarative
    NIP-01 reading: every given field admits it, tag filters included. *)
Theorem filters_match_spec filters ev :
  filters_match filters ev = true ↔ ∃ f, f ∈ filters ∧ filter_accepts f ev.
Proof.
  unfold filters_match. rewrite existsb_elem_of. by setoid_rewrite filter_match_one_spec.
Qed.

(** An event of a result-gated kind is readable only by a reader named in one of its p
    tags; all other kinds are open. *)
Theorem reader_gate_spec ev reader :
  reader_authorized_for_event ev reader = true ↔
    kind ev ∉ RESULT_GATED_KINDS ∨ carries ev "p" reader.
Proof.
  unfold reader_authorized_for_event, event_kind_u32, carries.
  assert (Hk : kind ev ∈ RESULT_GATED_KINDS ↔ kind ev = KIND_DM_VISIBILITY ∨ kind ev = KIND_AGENT_TURN_METRIC).
  { unfold RESULT_GATED_KINDS. set_solver. }
  rewrite Hk. clear Hk.
  assert (Hex : existsb (λ t, bool_decide (tag_content t = Some reader))
      (List.filter (λ t, (tag_kind t =? "p")%string) (tags ev)) = true ↔
    ∃ t, t ∈ tags ev ∧ tag_kind t = "p" ∧ tag_content t = Some reader).
  { rewrite existsb_elem_of. setoid_rewrite elem_of_List_filter. setoid_rewrite bool_decide_eq_true.
    setoid_rewrite String.eqb_eq. naive_solver. }
  destruct (kind ev =? KIND_DM_VISIBILITY)%Z eqn:E1; boolify; simpl; [rewrite Hex; naive_solver|].
  destruct (kind ev =? KIND_AGENT_TURN_METRIC)%Z eqn:E2; boolify; simpl; [rewrite Hex; naive_solver|].
  naive_solver.
Qed.

End filter.
