(* ===== verification/Thread.v ===== *)
(** * Threads and session scopes

    NIP-10 marker parsing and resolution ([crates/maju-core/src/nip10.rs]), the
    ACP thread tags ([parse_thread_tags] of [crates/maju-acp/src/queue.rs]) and
    the session scope of an admitted event ([crates/maju-acp/src/scope.rs]).
    [SessionPolicy::append_session_model] (prompt text from files) is not
    modelled. *)
From S2P Require Import Prelude Nostr.

(** ** [nip10.rs] *)

Record ThreadMarkers := { root : option string; reply : option string }.

Definition resolve (m : ThreadMarkers) : option (string * string) :=
  match root m, reply m with
  | Some r, Some p => Some (r, p)
  | None, Some p => Some (p, p)
  | Some _, None | None, None => None
  end.

Definition is_event_id_hex (s : string) : bool :=
  (String.length s =? 64) && str_forall is_ascii_hexdigit s.

(** One iteration of the loop over tag parts. *)
Definition marker_step (m : ThreadMarkers) (parts : list string) : ThreadMarkers :=
  match parts with
  | p0 :: p1 :: _ :: p3 :: _ =>
      if (p0 =? "e")%string && is_event_id_hex p1 then
        if (p3 =? "root")%string then {| root := Some p1; reply := reply m |}
        else if (p3 =? "reply")%string then {| root := root m; reply := Some p1 |}
        else m
      else m
  | _ => m
  end.

Definition parse_thread_markers_from_parts (tags : list (list string)) : ThreadMarkers :=
  foldl marker_step {| root := None; reply := None |} tags.

(** ** [scope.rs] *)

Inductive SessionPolicy := PolicyChannel | PolicyThread.
#[export] Instance SessionPolicy_eq_dec : EqDecision SessionPolicy.
Proof. solve_decision. Defined.
Definition policy_str (p : SessionPolicy) : string :=
  match p with PolicyChannel => "channel" | PolicyThread => "thread" end.

Inductive SessionScope :=
  | Conversation (channel : Uuid)
  | Thread (channel : Uuid) (root_event : string).

#[export] Instance SessionScope_eq_dec : EqDecision SessionScope.
Proof. solve_decision. Defined.
#[export] Program Instance SessionScope_countable : Countable SessionScope :=
  inj_countable
    (λ s, match s with Conversation c => (c, None) | Thread c r => (c, Some r) end)
    (λ p, match p with (c, None) => Some (Conversation c) | (c, Some r) => Some (Thread c r) end) _.
Next Obligation. by intros []. Qed.

Definition scope_channel_id (s : SessionScope) : Uuid :=
  match s with Conversation c => c | Thread c _ => c end.

Definition scope_root_event_id (s : SessionScope) : option string :=
  match s with Conversation _ => None | Thread _ r => Some r end.

Definition is_thread (s : SessionScope) : bool :=
  match s with Thread _ _ => true | Conversation _ => false end.

Definition telemetry_label (s : SessionScope) : string :=
  match s with
  | Conversation _ => "conversation"
  | Thread _ r => "thread:" +:+ String.substring 0 8 r
  end.

Section thread.
Context {L : NostrLib}.

Definition parse_thread_markers (ts : list Tag) : ThreadMarkers :=
  parse_thread_markers_from_parts (as_slice <$> ts).

(** [ThreadTags] and [parse_thread_tags] of [queue.rs]. *)
Record ThreadTags := {
  root_event_id : option string;
  parent_event_id : option string;
  mentioned_pubkeys : list string
}.

Definition mention_of (t : Tag) : option string :=
  match as_slice t with
  | p0 :: p1 :: _ => if (p0 =? "p")%string then Some p1 else None
  | _ => None
  end.

Definition parse_thread_tags (ev : Event) : ThreadTags :=
  let '(r, p) :=
    match resolve (parse_thread_markers (tags ev)) with
    | Some (r, p) => (Some r, Some p)
    | None => (None, None)
    end in
  {| root_event_id := r; parent_event_id := p; mentioned_pubkeys := omap mention_of (tags ev) |}.

Definition derive (policy : SessionPolicy) (channel : Uuid) (is_dm : bool) (ev : Event) : SessionScope :=
  if is_dm || bool_decide (policy = PolicyChannel) then Conversation channel
  else
    let root_id := match root_event_id (parse_thread_tags ev) with
                   | Some r => r
                   | None => id ev
                   end in
    Thread channel (to_ascii_lowercase root_id).

(** ** Specification *)

(** The event id a tag contributes under marker [name]. *)
Definition marked (name : string) (parts : list string) : option string :=
  match parts with
  | p0 :: p1 :: _ :: p3 :: _ =>
      if (p0 =? "e")%string && is_event_id_hex p1 && (p3 =? name)%string then Some p1 else None
  | _ => None
  end.

(** The thread an event belongs to: the resolved root, or the event itself. *)
Definition thread_anchor (ev : Event) : string :=
  match resolve (parse_thread_markers (tags ev)) with Some (r, _) => r | None => id ev end.

(** ** Lemmas *)

Lemma marker_fold ts :
  root (parse_thread_markers_from_parts ts) = last (omap (marked "root") ts) ∧
  reply (parse_thread_markers_from_parts ts) = last (omap (marked "reply") ts).
Proof.
  unfold parse_thread_markers_from_parts.
  induction ts as [|parts ts IH] using rev_ind; [done|].
  rewrite foldl_app, !omap_app, !last_app; simpl. destruct IH as [<- <-].
  set (m := foldl _ _ _). unfold marker_step, marked.
  destruct parts as [|p0 [|p1 [|p2 [|p3 ps]]]]; simpl; try done.
  destruct ((p0 =? "e")%string && is_event_id_hex p1); simpl; [|done].
  destruct (p3 =? "root")%string eqn:E1; boolify; subst; simpl; [done|].
  by destruct (p3 =? "reply")%string.
Qed.

Lemma parse_thread_tags_root ev :
  root_event_id (parse_thread_tags ev) = fst <$> resolve (parse_thread_markers (tags ev)).
Proof. unfold parse_thread_tags. by destruct (resolve _) as [[]|]. Qed.

Lemma derive_thread channel ev :
  derive PolicyThread channel false ev = Thread channel (to_ascii_lowercase (thread_anchor ev)).
Proof.
  unfold derive, thread_anchor. rewrite parse_thread_tags_root. simpl.
  by destruct (resolve _) as [[]|].
Qed.

Lemma to_ascii_lowercase_char_idemp c :
  to_ascii_lowercase_char (to_ascii_lowercase_char c) = to_ascii_lowercase_char c.
Proof. by destruct c as [[] [] [] [] [] [] [] []]. Qed.

Lemma to_ascii_lowercase_idemp s : to_ascii_lowercase (to_ascii_lowercase s) = to_ascii_lowercase s.
Proof. induction s as [|a s IH]; simpl; [done|]. by rewrite to_ascii_lowercase_char_idemp, IH. Qed.

(** ** Properties *)

(** The thread reference of an event is given by its last valid reply marker with the last
    valid root marker as root, or the reply itself when there is none. *)
Theorem thread_markers_last_valid (ts : list Tag) :
  resolve (parse_thread_markers ts) =
    match last (omap (marked "reply") (as_slice <$> ts)) with
    | Some p => Some (default p (last (omap (marked "root") (as_slice <$> ts))), p)
    | None => None
    end.
Proof.
  unfold parse_thread_markers, resolve. destruct (marker_fold (as_slice <$> ts)) as [-> ->].
  by destruct (last (omap (marked "root") _)), (last (omap (marked "reply") _)).
Qed.

(** Session scopes stay in their channel, are thread scopes exactly under the thread policy
    outside direct messages, have lower-case roots, and two events share a thread scope exactly
    when their thread anchors agree. *)
Theorem session_scope_partition policy channel is_dm ev :
  scope_channel_id (derive policy channel is_dm ev) = channel ∧
  (is_thread (derive policy channel is_dm ev) = true ↔ policy = PolicyThread ∧ is_dm = false) ∧
  (∀ r, scope_root_event_id (derive policy channel is_dm ev) = Some r → to_ascii_lowercase r = r) ∧
  (∀ ev', derive PolicyThread channel false ev = derive PolicyThread channel false ev' ↔
     to_ascii_lowercase (thread_anchor ev) = to_ascii_lowercase (thread_anchor ev')).
Proof.
  split_and!.
  - unfold derive. by case_match.
  - unfold derive. destruct is_dm, policy; vm_compute; intuition congruence.
  - unfold derive. case_match; simpl; [done|]. intros r [= <-]. apply to_ascii_lowercase_idemp.
  - intros ev'. rewrite !derive_thread. split; [by intros [= ?]|by intros ->].
Qed.

End thread.
