(* ===== verification/EventQueue.v ===== *)
(** * The ACP event queue ([crates/maju-acp/src/queue.rs], [EventQueue])

    The whole queue state machine: one field per field of the Rust struct, one
    definition per method, in the order of the source.  [Instant]s and
    [Duration]s are integers (nanoseconds); a method that reads the clock takes
    [now], and [requeue] also takes the sub-second nanoseconds it uses as
    jitter entropy.  [HashMap] iteration goes through [HashOrder].  Logging is
    omitted. *)
From S2P Require Import Prelude Nostr Thread.

(** ** Constants *)

Definition MAX_PENDING_PER_SCOPE : nat := 500.
Definition MAX_PENDING_PER_CHANNEL : nat := 500.
Definition MAX_BATCH_EVENTS : nat := 50.
#[global] Arguments MAX_PENDING_PER_SCOPE : simpl never.
#[global] Arguments MAX_PENDING_PER_CHANNEL : simpl never.
#[global] Arguments MAX_BATCH_EVENTS : simpl never.
Definition MAX_RETRIES : Z := 10.
Definition BASE_RETRY_DELAY_SECS : Z := 5.
Definition MAX_RETRY_DELAY_SECS : Z := 300.
Definition IN_FLIGHT_DEADLINE_BUFFER_SECS : Z := 100.
Definition DEFAULT_IN_FLIGHT_DEADLINE_SECS : Z := 7300.
Definition NANOS_PER_SEC : Z := 1000000000.
Definition from_secs (secs : Z) : Z := (secs * NANOS_PER_SEC)%Z.

(** [crate::config::DedupMode]. *)
Inductive DedupMode := DedupDrop | DedupQueue.
#[export] Instance DedupMode_eq_dec : EqDecision DedupMode.
Proof. solve_decision. Defined.

Inductive CancelReason := Interrupt | Steer.
#[export] Instance CancelReason_eq_dec : EqDecision CancelReason.
Proof. solve_decision. Defined.

(** [IntoScope for Uuid]: a channel stands for its conversation scope. *)
Definition into_scope (channel : Uuid) : SessionScope := Conversation channel.

Section event_queue.
Context {L : NostrLib}.

(** ** Data *)

Record QueuedEvent := {
  qe_channel_id : Uuid;
  qe_scope : SessionScope;
  qe_event : Event;
  qe_received_at : Z;
  qe_prompt_tag : string
}.

Record BatchEvent := {
  be_event : Event;
  be_prompt_tag : string;
  be_received_at : Z
}.

Record FlushBatch := {
  fb_channel_id : Uuid;
  fb_scope : SessionScope;
  fb_events : list BatchEvent;
  fb_cancelled_events : list BatchEvent;
  fb_cancel_reason : option CancelReason
}.

Record EventQueue := {
  queues : gmap SessionScope (list QueuedEvent);
  in_flight_scopes : gset SessionScope;
  in_flight_deadlines : gmap SessionScope Z;
  in_flight_batch_sizes : gmap SessionScope nat;
  retry_after : gmap SessionScope Z;
  retry_counts : gmap SessionScope Z;
  dedup_mode : DedupMode;
  cancelled_batches : gmap SessionScope (list BatchEvent);
  cancel_reasons : gmap SessionScope CancelReason;
  withheld_native_steer : gmap SessionScope (list QueuedEvent);
  in_flight_deadline : Z
}.

(** Assignments to groups of fields ([self.field = ...]). *)
Definition set_queues (v : gmap SessionScope (list QueuedEvent)) (q : EventQueue) : EventQueue :=
  {| queues := v; in_flight_scopes := in_flight_scopes q; in_flight_deadlines := in_flight_deadlines q;
     in_flight_batch_sizes := in_flight_batch_sizes q; retry_after := retry_after q;
     retry_counts := retry_counts q; dedup_mode := dedup_mode q;
     cancelled_batches := cancelled_batches q; cancel_reasons := cancel_reasons q;
     withheld_native_steer := withheld_native_steer q; in_flight_deadline := in_flight_deadline q |}.
Definition set_in_flight (s : gset SessionScope) (d : gmap SessionScope Z) (n : gmap SessionScope nat)
  (q : EventQueue) : EventQueue :=
  {| queues := queues q; in_flight_scopes := s; in_flight_deadlines := d;
     in_flight_batch_sizes := n; retry_after := retry_after q;
     retry_counts := retry_counts q; dedup_mode := dedup_mode q;
     cancelled_batches := cancelled_batches q; cancel_reasons := cancel_reasons q;
     withheld_native_steer := withheld_native_steer q; in_flight_deadline := in_flight_deadline q |}.
Definition set_retry (a c : gmap SessionScope Z) (q : EventQueue) : EventQueue :=
  {| queues := queues q; in_flight_scopes := in_flight_scopes q; in_flight_deadlines := in_flight_deadlines q;
     in_flight_batch_sizes := in_flight_batch_sizes q; retry_after := a;
     retry_counts := c; dedup_mode := dedup_mode q;
     cancelled_batches := cancelled_batches q; cancel_reasons := cancel_reasons q;
     withheld_native_steer := withheld_native_steer q; in_flight_deadline := in_flight_deadline q |}.
Definition set_cancelled (b : gmap SessionScope (list BatchEvent)) (r : gmap SessionScope CancelReason)
  (q : EventQueue) : EventQueue :=
  {| queues := queues q; in_flight_scopes := in_flight_scopes q; in_flight_deadlines := in_flight_deadlines q;
     in_flight_batch_sizes := in_flight_batch_sizes q; retry_after := retry_after q;
     retry_counts := retry_counts q; dedup_mode := dedup_mode q;
     cancelled_batches := b; cancel_reasons := r;
     withheld_native_steer := withheld_native_steer q; in_flight_deadline := in_flight_deadline q |}.
Definition set_withheld (v : gmap SessionScope (list QueuedEvent)) (q : EventQueue) : EventQueue :=
  {| queues := queues q; in_flight_scopes := in_flight_scopes q; in_flight_deadlines := in_flight_deadlines q;
     in_flight_batch_sizes := in_flight_batch_sizes q; retry_after := retry_after q;
     retry_counts := retry_counts q; dedup_mode := dedup_mode q;
     cancelled_batches := cancelled_batches q; cancel_reasons := cancel_reasons q;
     withheld_native_steer := v; in_flight_deadline := in_flight_deadline q |}.
Definition set_deadline (d : Z) (q : EventQueue) : EventQueue :=
  {| queues := queues q; in_flight_scopes := in_flight_scopes q; in_flight_deadlines := in_flight_deadlines q;
     in_flight_batch_sizes := in_flight_batch_sizes q; retry_after := retry_after q;
     retry_counts := retry_counts q; dedup_mode := dedup_mode q;
     cancelled_batches := cancelled_batches q; cancel_reasons := cancel_reasons q;
     withheld_native_steer := withheld_native_steer q; in_flight_deadline := d |}.

(** ** Construction *)

(** [EventQueue::new]. *)
Definition queue_new (mode : DedupMode) : EventQueue :=
  {| queues := ∅; in_flight_scopes := ∅; in_flight_deadlines := ∅; in_flight_batch_sizes := ∅;
     retry_after := ∅; retry_counts := ∅; dedup_mode := mode; cancelled_batches := ∅;
     cancel_reasons := ∅; withheld_native_steer := ∅;
     in_flight_deadline := from_secs DEFAULT_IN_FLIGHT_DEADLINE_SECS |}.

(** [EventQueue::default]. *)
Definition queue_default : EventQueue := queue_new DedupDrop.

Definition with_in_flight_deadline (max_turn_duration_secs : Z) (q : EventQueue) : EventQueue :=
  set_deadline (from_secs (max_turn_duration_secs + IN_FLIGHT_DEADLINE_BUFFER_SECS)) q.

Definition extend_in_flight_deadline (now : Z) (scope : SessionScope) (max_turn_secs : Z) (q : EventQueue) :
  EventQueue :=
  match in_flight_deadlines q !! scope with
  | Some current =>
      let extended := (now + from_secs (max_turn_secs + IN_FLIGHT_DEADLINE_BUFFER_SECS))%Z in
      if (current <? extended)%Z
      then set_in_flight (in_flight_scopes q) (<[scope := extended]> (in_flight_deadlines q))
             (in_flight_batch_sizes q) q
      else q
  | None => q
  end.

(** ** The aggregate channel cap *)

Section with_order.
Context {HO : HashOrder}.

Definition in_channel (channel : Uuid) (s : SessionScope) : bool :=
  bool_decide (scope_channel_id s = channel).

(** [channel_event_total]. *)
Definition channel_event_total (channel : Uuid) (qs : gmap SessionScope (list QueuedEvent)) : nat :=
  sum_list_with (λ kv, length kv.2) (List.filter (λ kv, in_channel channel kv.1) (hash_iter qs)).

(** [q.front().unwrap().received_at] of a non-empty queue. *)
Definition head_received_at (l : list QueuedEvent) : Z :=
  match l with e :: _ => qe_received_at e | [] => 0%Z end.

Definition nonempty {A} (l : list A) : bool := match l with [] => false | _ => true end.

Definition victim_scope (channel : Uuid) (qs : gmap SessionScope (list QueuedEvent)) : option SessionScope :=
  fst <$> min_by_key (λ kv, head_received_at kv.2)
    (List.filter (λ kv, in_channel channel kv.1 && nonempty kv.2) (hash_iter qs)).

(** [q.pop_front(); if q.is_empty() { self.queues.remove(&scope) }]. *)
Definition pop_front_at (scope : SessionScope) (qs : gmap SessionScope (list QueuedEvent)) :
  gmap SessionScope (list QueuedEvent) :=
  match qs !! scope with Some l => put_list scope (tail l) qs | None => qs end.

(** The [while] loop; every iteration pops one event, so the channel's event
    total is enough fuel ([enforce_channel_cap_total]). *)
Fixpoint evict_loop (fuel : nat) (channel : Uuid) (qs : gmap SessionScope (list QueuedEvent)) :
  gmap SessionScope (list QueuedEvent) :=
  match fuel with
  | O => qs
  | S fuel' =>
      if MAX_PENDING_PER_CHANNEL <? channel_event_total channel qs then
        match victim_scope channel qs with
        | Some scope => evict_loop fuel' channel (pop_front_at scope qs)
        | None => qs
        end
      else qs
  end.

Definition enforce_channel_cap (channel : Uuid) (qs : gmap SessionScope (list QueuedEvent)) :
  gmap SessionScope (list QueuedEvent) :=
  evict_loop (channel_event_total channel qs) channel qs.

(** ** [push] *)

Definition push (ev : QueuedEvent) (q : EventQueue) : EventQueue * bool :=
  if bool_decide (dedup_mode q = DedupDrop) && bool_decide (qe_scope ev ∈ in_flight_scopes q) then (q, false)
  else
    let scope := qe_scope ev in
    let queue := get_list (queues q) scope in
    let queue := if MAX_PENDING_PER_SCOPE <=? length queue then tail queue else queue in
    let qs := <[scope := queue ++ [ev]]> (queues q) in
    (set_queues (enforce_channel_cap (qe_channel_id ev) qs) q, true).

(** ** In-flight expiry *)

(** [while queue.len() > MAX_PENDING_PER_SCOPE { queue.pop_back(); }]. *)
Definition trim_back (l : list QueuedEvent) : list QueuedEvent := take MAX_PENDING_PER_SCOPE l.

Definition recover_withheld_for_expired_scope (scope : SessionScope) (q : EventQueue) : EventQueue :=
  match withheld_native_steer q !! scope with
  | None => q
  | Some entries =>
      let queue := push_front_rev entries (get_list (queues q) scope) in
      let qs := <[scope := trim_back queue]> (queues q) in
      set_queues (enforce_channel_cap (scope_channel_id scope) qs)
        (set_withheld (delete scope (withheld_native_steer q)) q)
  end.

Definition expire_scope (q : EventQueue) (scope : SessionScope) : EventQueue :=
  recover_withheld_for_expired_scope scope
    (set_in_flight (in_flight_scopes q ∖ {[scope]}) (delete scope (in_flight_deadlines q))
       (delete scope (in_flight_batch_sizes q)) q).

Definition expired_scopes (now : Z) (q : EventQueue) : list SessionScope :=
  fst <$> List.filter (λ kv, (kv.2 <=? now)%Z) (hash_iter (in_flight_deadlines q)).

(** The expiry block shared by [flush_next] and [has_flushable_work]. *)
Definition expire_in_flight (now : Z) (q : EventQueue) : EventQueue :=
  foldl expire_scope q (expired_scopes now q).

(** ** [flush_next] *)

(** [self.retry_after.get(scope).is_none_or(|&t| t <= now)]. *)
Definition not_throttled (now : Z) (q : EventQueue) (scope : SessionScope) : bool :=
  match retry_after q !! scope with Some t => (t <=? now)%Z | None => true end.

Definition ready (now : Z) (q : EventQueue) (kv : SessionScope * list QueuedEvent) : bool :=
  nonempty kv.2 && negb (bool_decide (kv.1 ∈ in_flight_scopes q)) && not_throttled now q kv.1.

Definition to_batch_event (qe : QueuedEvent) : BatchEvent :=
  {| be_event := qe_event qe; be_prompt_tag := qe_prompt_tag qe; be_received_at := qe_received_at qe |}.

Definition be_created_at (be : BatchEvent) : Z := created_at (be_event be).

(** [insert] of the scope in the three in-flight tables. *)
Definition mark_in_flight (now : Z) (scope : SessionScope) (size : nat) (q : EventQueue) : EventQueue :=
  set_in_flight ({[scope]} ∪ in_flight_scopes q)
    (<[scope := (now + in_flight_deadline q)%Z]> (in_flight_deadlines q))
    (<[scope := size]> (in_flight_batch_sizes q)) q.

Definition cancelled_candidate (q : EventQueue) : option SessionScope :=
  List.find (λ scope, negb (bool_decide (scope ∈ in_flight_scopes q))) ((hash_iter (cancelled_batches q)).*1).

(** The fallback branch: re-dispatch a cancelled batch. *)
Definition flush_cancelled (now : Z) (scope : SessionScope) (q : EventQueue) : FlushBatch * EventQueue :=
  let cancelled := get_list (cancelled_batches q) scope in
  let reason := cancel_reasons q !! scope in
  let q := set_cancelled (delete scope (cancelled_batches q)) (delete scope (cancel_reasons q)) q in
  ({| fb_channel_id := scope_channel_id scope; fb_scope := scope; fb_events := cancelled;
      fb_cancelled_events := []; fb_cancel_reason := reason |},
   mark_in_flight now scope (length cancelled) q).

(** The main branch: drain the selected scope. *)
Definition flush_scope (now : Z) (scope : SessionScope) (q : EventQueue) : FlushBatch * EventQueue :=
  let queue := get_list (queues q) scope in
  let drain_count := Nat.min MAX_BATCH_EVENTS (length queue) in
  let events := sort_by_key be_created_at (to_batch_event <$> take drain_count queue) in
  let q := set_queues (put_list scope (drop drain_count queue) (queues q)) q in
  let q := mark_in_flight now scope (length events) q in
  let cancelled_events := get_list (cancelled_batches q) scope in
  let removed_reason := cancel_reasons q !! scope in
  let cancel_reason := match cancelled_events with [] => None | _ => removed_reason end in
  let q := set_cancelled (delete scope (cancelled_batches q)) (delete scope (cancel_reasons q)) q in
  ({| fb_channel_id := scope_channel_id scope; fb_scope := scope; fb_events := events;
      fb_cancelled_events := cancelled_events; fb_cancel_reason := cancel_reason |}, q).

Definition flush_next (now : Z) (q : EventQueue) : option FlushBatch * EventQueue :=
  let q := expire_in_flight now q in
  match fst <$> min_by_key (λ kv, head_received_at kv.2) (List.filter (ready now q) (hash_iter (queues q))) with
  | Some scope => let '(b, q) := flush_scope now scope q in (Some b, q)
  | None =>
      match cancelled_candidate q with
      | Some scope => let '(b, q) := flush_cancelled now scope q in (Some b, q)
      | None => (None, q)
      end
  end.

(** ** [mark_complete] *)

Definition mark_complete (now : Z) (scope : SessionScope) (q : EventQueue) : EventQueue :=
  let q := set_in_flight (in_flight_scopes q ∖ {[scope]}) (delete scope (in_flight_deadlines q))
             (delete scope (in_flight_batch_sizes q)) q in
  match retry_after q !! scope with
  | Some deadline =>
      if (now <? deadline)%Z then q
      else set_retry (delete scope (retry_after q)) (delete scope (retry_counts q)) q
  | None => set_retry (retry_after q) (delete scope (retry_counts q)) q
  end.

(** ** Requeueing *)

(** [BASE.saturating_mul(1u64 << (attempt - 1).min(6)).min(MAX)]. *)
Definition capped_secs (attempt : Z) : Z :=
  Z.min (saturating_mul 64 BASE_RETRY_DELAY_SECS (Z.shiftl 1 (Z.min (attempt - 1) 6))) MAX_RETRY_DELAY_SECS.

(** [Duration::from_secs_f64(capped_secs * (0.8 + nanos / u32::MAX * 0.4))] in
    nanoseconds, in exact rational arithmetic rounded to nearest. *)
Definition retry_delay (nanos capped : Z) : Z :=
  let num := (capped * NANOS_PER_SEC * (4 * (2 ^ 32 - 1) + 2 * nanos))%Z in
  let den := (5 * (2 ^ 32 - 1))%Z in
  ((2 * num + den) / (2 * den))%Z.

Definition to_queued_event (channel : Uuid) (scope : SessionScope) (be : BatchEvent) : QueuedEvent :=
  {| qe_channel_id := channel; qe_scope := scope; qe_event := be_event be;
     qe_received_at := be_received_at be; qe_prompt_tag := be_prompt_tag be |}.

(** Push the batch's events to the front in order and trim the partition. *)
Definition restore_front (b : FlushBatch) (qs : gmap SessionScope (list QueuedEvent)) :
  gmap SessionScope (list QueuedEvent) :=
  let restored := to_queued_event (fb_channel_id b) (fb_scope b) <$> fb_events b in
  <[fb_scope b := trim_back (push_front_rev restored (get_list qs (fb_scope b)))]> qs.

Definition requeue (now nanos : Z) (b : FlushBatch) (q : EventQueue) : option FlushBatch * EventQueue :=
  let scope := fb_scope b in
  let attempt := (default 0 (retry_counts q !! scope) + 1)%Z in
  if (MAX_RETRIES <? attempt)%Z then
    (Some b, set_retry (delete scope (retry_after q)) (delete scope (retry_counts q)) q)
  else
    let delay := retry_delay nanos (capped_secs attempt) in
    let qs := restore_front b (queues q) in
    (None, set_queues (enforce_channel_cap (fb_channel_id b) qs)
             (set_retry (<[scope := (now + delay)%Z]> (retry_after q))
                (<[scope := attempt]> (retry_counts q)) q)).

Definition requeue_preserve_timestamps (b : FlushBatch) (q : EventQueue) : EventQueue :=
  let scope := fb_scope b in
  let q :=
    match fb_cancelled_events b with
    | [] => q
    | _ =>
        let existing := get_list (cancelled_batches q) scope in
        let reasons :=
          match fb_cancel_reason b with
          | Some reason =>
              match cancel_reasons q !! scope with
              | Some _ => cancel_reasons q
              | None => <[scope := reason]> (cancel_reasons q)
              end
          | None => cancel_reasons q
          end in
        set_cancelled (<[scope := fb_cancelled_events b ++ existing]> (cancelled_batches q)) reasons q
    end in
  set_queues (enforce_channel_cap (fb_channel_id b) (restore_front b (queues q))) q.

Definition requeue_as_cancelled (b : FlushBatch) (reason : CancelReason) (q : EventQueue) : EventQueue :=
  let scope := fb_scope b in
  let entry := get_list (cancelled_batches q) scope ++ fb_cancelled_events b ++ fb_events b in
  set_cancelled (<[scope := entry]> (cancelled_batches q)) (<[scope := reason]> (cancel_reasons q)) q.

(** ** Queries *)

Definition has_flushable_work (now : Z) (q : EventQueue) : bool * EventQueue :=
  let q := expire_in_flight now q in
  (existsb (ready now q) (hash_iter (queues q))
   || existsb (λ scope, negb (bool_decide (scope ∈ in_flight_scopes q))) ((hash_iter (cancelled_batches q)).*1),
   q).

Definition idle_entry {A} (q : EventQueue) (kv : SessionScope * list A) : bool :=
  nonempty kv.2 && negb (bool_decide (kv.1 ∈ in_flight_scopes q)).

Definition has_undispatched_work (q : EventQueue) : bool :=
  let has_queued := existsb (idle_entry q) (hash_iter (queues q)) in
  let has_cancelled :=
    existsb (λ scope, negb (bool_decide (scope ∈ in_flight_scopes q))) ((hash_iter (cancelled_batches q)).*1) in
  let has_withheld := existsb (idle_entry q) (hash_iter (withheld_native_steer q)) in
  has_queued || has_cancelled || has_withheld.

Definition pending_channels (q : EventQueue) : nat := size (queues q).
Definition is_scope_in_flight (scope : SessionScope) (q : EventQueue) : bool :=
  bool_decide (scope ∈ in_flight_scopes q).
Definition has_in_flight (q : EventQueue) : bool := negb (bool_decide (in_flight_scopes q = ∅)).

(** ** [drain_channel] *)

Definition drop_channel {A} (channel : Uuid) (m : gmap SessionScope A) : gmap SessionScope A :=
  filter (λ kv, scope_channel_id kv.1 ≠ channel) m.

Definition drain_channel (channel : Uuid) (q : EventQueue) : list string * EventQueue :=
  let scopes := List.filter (in_channel channel) ((hash_iter (queues q)).*1) in
  let ids := scopes ≫= λ scope, (λ e, id (qe_event e)) <$> get_list (queues q) scope in
  let qs := foldl (λ m scope, delete scope m) (queues q) scopes in
  let q := set_queues qs q in
  let q := set_retry (drop_channel channel (retry_after q)) (drop_channel channel (retry_counts q)) q in
  let q := set_cancelled (drop_channel channel (cancelled_batches q))
             (drop_channel channel (cancel_reasons q)) q in
  (ids, set_withheld (drop_channel channel (withheld_native_steer q)) q).

(** ** Native steer withholding *)

Definition has_event_id (event_id : string) (qe : QueuedEvent) : bool :=
  (id (qe_event qe) =? event_id)%string.

Definition mark_native_steer_pending (scope : SessionScope) (event_id : string) (q : EventQueue) :
  bool * EventQueue :=
  match queues q !! scope with
  | None => (false, q)
  | Some l =>
      match position (has_event_id event_id) l ≫= λ pos, remove_at pos l with
      | None => (false, q)
      | Some (qe, rest) =>
          let w := <[scope := get_list (withheld_native_steer q) scope ++ [qe]]> (withheld_native_steer q) in
          (true, set_withheld w (set_queues (put_list scope rest (queues q)) q))
      end
  end.

Definition release_native_steer (scope : SessionScope) (event_id : string) (q : EventQueue) : EventQueue :=
  match withheld_native_steer q !! scope with
  | None => q
  | Some entries =>
      match position (has_event_id event_id) entries ≫= λ pos, remove_at pos entries with
      | None => q
      | Some (qe, rest) =>
          let q := set_withheld (put_list scope rest (withheld_native_steer q)) q in
          let qs := <[scope := trim_back (qe :: get_list (queues q) scope)]> (queues q) in
          set_queues (enforce_channel_cap (scope_channel_id scope) qs) q
      end
  end.

Definition remove_event_from (scope : SessionScope) (event_id : string)
  (m : gmap SessionScope (list QueuedEvent)) : gmap SessionScope (list QueuedEvent) :=
  match m !! scope with
  | Some l => put_list scope (List.filter (λ qe, negb (has_event_id event_id qe)) l) m
  | None => m
  end.

Definition remove_event (scope : SessionScope) (event_id : string) (q : EventQueue) : EventQueue :=
  let q := set_withheld (remove_event_from scope event_id (withheld_native_steer q)) q in
  set_queues (remove_event_from scope event_id (queues q)) q.

(** ** [compact_expired_state] *)

Definition compact_expired_state (now : Z) (q : EventQueue) : EventQueue :=
  let after := filter (λ kv, (now < kv.2)%Z) (retry_after q) in
  let keep (kv : SessionScope * Z) :=
    bool_decide (is_Some (after !! kv.1)) || nonempty (get_list (queues q) kv.1)
    || bool_decide (kv.1 ∈ in_flight_scopes q) in
  set_retry after (filter (λ kv, keep kv = true) (retry_counts q)) q.

End with_order.

(** ** The queue as a transition system

    A step is one method call.  The clock, the jitter entropy, the incoming
    events and the hash iteration order are arbitrary; events are coherent
    ([scope.channel_id() == channel_id], the [debug_assert] of [push]) and a
    batch given back is one [flush_next] can have produced. *)

Definition coherent_event (ev : QueuedEvent) : Prop :=
  scope_channel_id (qe_scope ev) = qe_channel_id ev.

Definition coherent_batch (b : FlushBatch) : Prop :=
  fb_channel_id b = scope_channel_id (fb_scope b) ∧ fb_events b ≠ [] ∧
  (fb_cancelled_events b ≠ [] → is_Some (fb_cancel_reason b)).

Inductive step : EventQueue → EventQueue → Prop :=
  | step_configure q secs : step q (with_in_flight_deadline secs q)
  | step_extend q now scope secs : step q (extend_in_flight_deadline now scope secs q)
  | step_push (HO : HashOrder) q ev : coherent_event ev → step q (push ev q).1
  | step_flush (HO : HashOrder) q now : step q (flush_next now q).2
  | step_complete q now scope : step q (mark_complete now scope q)
  | step_requeue (HO : HashOrder) q now nanos b :
      coherent_batch b → step q (requeue now nanos b q).2
  | step_requeue_preserve (HO : HashOrder) q b :
      coherent_batch b → step q (requeue_preserve_timestamps b q)
  | step_requeue_cancelled q b reason :
      coherent_batch b → step q (requeue_as_cancelled b reason q)
  | step_has_flushable (HO : HashOrder) q now : step q (has_flushable_work now q).2
  | step_drain (HO : HashOrder) q channel : step q (drain_channel channel q).2
  | step_withhold q scope event_id : step q (mark_native_steer_pending scope event_id q).2
  | step_release (HO : HashOrder) q scope event_id : step q (release_native_steer scope event_id q)
  | step_remove q scope event_id : step q (remove_event scope event_id q)
  | step_compact q now : step q (compact_expired_state now q).

Definition reachable (mode : DedupMode) (q : EventQueue) : Prop := rtc step (queue_new mode) q.

End event_queue.
