(* ===== verification/EventQueueFacts.v ===== *)
(** * Facts on the event queue

    The lemmas the properties of [EventQueue] share: channel totals as map
    sums, the eviction loop, the invariant [queue_wf] and its preservation by
    every method. *)
From S2P Require Import Prelude Nostr Thread EventQueue.

Section facts.
Context {L : NostrLib}.
Implicit Types (q : EventQueue) (s : SessionScope) (m : gmap SessionScope (list QueuedEvent)).

(** An event filed under the scope it was admitted to. *)
Definition homed s (e : QueuedEvent) : Prop :=
  qe_scope e = s ∧ qe_channel_id e = scope_channel_id s.

(** A table of pending events: no empty entry, every event at home. *)
Definition table_ok m : Prop :=
  ∀ s l, m !! s = Some l → l ≠ [] ∧ Forall (homed s) l.

(** The channel total as a sum over the table, free of the iteration order. *)
Definition chan_sum (c : Uuid) m : nat :=
  map_sum (λ s l, if in_channel c s then length l else 0) m.

Definition capped m : Prop := ∀ c, chan_sum c m ≤ MAX_PENDING_PER_CHANNEL.

Record queue_wf q : Prop := {
  wf_queues : table_ok (queues q);
  wf_capped : capped (queues q);
  wf_withheld : table_ok (withheld_native_steer q);
  wf_deadlines : dom (in_flight_deadlines q) = in_flight_scopes q;
  wf_sizes : dom (in_flight_batch_sizes q) = in_flight_scopes q;
  wf_cancelled : ∀ s l, cancelled_batches q !! s = Some l → l ≠ [];
  wf_reasons : dom (cancel_reasons q) = dom (cancelled_batches q);
  wf_retries : ∀ s n, retry_counts q !! s = Some n → (1 ≤ n ≤ MAX_RETRIES)%Z;
  wf_throttled : dom (retry_after q) ⊆ dom (retry_counts q)
}.

(** ** Tables *)

Lemma table_ok_put m s l : table_ok m → Forall (homed s) l → table_ok (put_list s l m).
Proof.
  intros Hm Hl s' l'. rewrite lookup_put_list. case_decide; subst; [|apply Hm].
  by destruct l; intros [= <-].
Qed.

Lemma table_ok_insert m s l : table_ok m → l ≠ [] → Forall (homed s) l → table_ok (<[s := l]> m).
Proof.
  intros Hm Hne Hl. replace (<[s := l]> m) with (put_list s l m) by (by destruct l).
  by apply table_ok_put.
Qed.

Lemma table_ok_delete m s : table_ok m → table_ok (delete s m).
Proof. intros Hm. by apply (table_ok_put m s []). Qed.

Lemma table_ok_get m s : table_ok m → Forall (homed s) (get_list m s).
Proof. intros Hm. unfold get_list. destruct (m !! s) eqn:E; [by eapply Hm|constructor]. Qed.

(** ** Channel totals *)

Lemma in_channel_true c s : in_channel c s = true ↔ scope_channel_id s = c.
Proof. apply bool_decide_eq_true. Qed.

Lemma sum_filter {A} (f : A → bool) (g : A → nat) l :
  sum_list_with g (List.filter f l) = sum_list_with (λ x, if f x then g x else 0) l.
Proof. induction l; simpl; [done|]. case_match; simpl; lia. Qed.

Lemma channel_event_total_sum {HO : HashOrder} c m : channel_event_total c m = chan_sum c m.
Proof.
  unfold channel_event_total, chan_sum, map_sum. rewrite sum_filter.
  by rewrite (hash_iter_perm m).
Qed.

Lemma chan_sum_split c m s :
  chan_sum c m = (if in_channel c s then length (get_list m s) else 0) + chan_sum c (delete s m).
Proof.
  unfold get_list. destruct (m !! s) as [l|] eqn:E; simpl.
  - unfold chan_sum. by rewrite (map_sum_delete _ m s l E).
  - rewrite delete_id by done. by destruct (in_channel c s).
Qed.

Lemma delete_put_list {K A} `{Countable K} (k : K) (l : list A) (m : gmap K (list A)) :
  delete k (put_list k l m) = delete k m.
Proof. destruct l; simpl; [by rewrite delete_delete_eq|by rewrite delete_insert_eq]. Qed.

Lemma chan_sum_put c m s l :
  chan_sum c (put_list s l m) = (if in_channel c s then length l else 0) + chan_sum c (delete s m).
Proof.
  rewrite (chan_sum_split c _ s), delete_put_list, get_put_list, decide_True by done. done.
Qed.

Lemma chan_sum_insert c m s l :
  chan_sum c (<[s := l]> m) = (if in_channel c s then length l else 0) + chan_sum c (delete s m).
Proof.
  rewrite (chan_sum_split c _ s), delete_insert_eq. f_equal. unfold get_list. by rewrite lookup_insert_eq.
Qed.

Lemma chan_sum_delete_le c m s : chan_sum c (delete s m) ≤ chan_sum c m.
Proof. rewrite (chan_sum_split c m s). lia. Qed.

Lemma capped_put m s l :
  capped m → length l ≤ length (get_list m s) → capped (put_list s l m).
Proof.
  intros Hm Hl c. specialize (Hm c). rewrite chan_sum_put, (chan_sum_split c m s) in *.
  destruct (in_channel c s); lia.
Qed.

Lemma capped_delete m s : capped m → capped (delete s m).
Proof. intros Hm. apply (capped_put m s []); [done|simpl; lia]. Qed.

Lemma capped_scope m s : capped m → length (get_list m s) ≤ MAX_PENDING_PER_CHANNEL.
Proof.
  intros Hm. specialize (Hm (scope_channel_id s)). rewrite (chan_sum_split _ m s) in Hm.
  rewrite (proj2 (in_channel_true _ s)) in Hm by done. lia.
Qed.

(** ** The eviction loop *)

Section evict.
Context {HO : HashOrder}.

Lemma nonempty_true {A} (l : list A) : nonempty l = true ↔ l ≠ [].
Proof. by destruct l. Qed.

(** A victim is a scope of the channel whose head is the oldest. *)
Lemma victim_scope_Some c m s :
  victim_scope c m = Some s →
  in_channel c s = true ∧ ∃ l, m !! s = Some l ∧ l ≠ [] ∧
  ∀ s' l', m !! s' = Some l' → l' ≠ [] → in_channel c s' = true →
           (head_received_at l ≤ head_received_at l')%Z.
Proof.
  unfold victim_scope. destruct (min_by_key _ _) as [[s0 l]|] eqn:E; [|done]. intros [= ->].
  apply min_by_key_Some in E as [Hin Hmin].
  apply list_elem_of_In, filter_In in Hin as [Hin [Hc Hne]%andb_true_iff]; simpl in *.
  split; [done|]. apply list_elem_of_In, hash_iter_elem in Hin. exists l.
  split; [done|]. split; [by apply nonempty_true|]. intros s' l' Hs' Hne' Hc'.
  apply (Hmin (s', l')). apply list_elem_of_In, filter_In. rewrite <- list_elem_of_In, hash_iter_elem.
  split; [done|]. simpl. rewrite Hc'. by apply nonempty_true.
Qed.

Lemma victim_scope_None c m : table_ok m → victim_scope c m = None → chan_sum c m = 0.
Proof.
  intros Hok. unfold victim_scope. destruct (min_by_key _ _) eqn:E; [done|]. intros _.
  apply min_by_key_None in E. unfold chan_sum. rewrite (map_sum_ext _ (λ _ _, 0)).
  - unfold map_sum. clear. induction (map_to_list m); simpl; lia.
  - intros s l Hs. destruct (in_channel c s) eqn:Hc; [|done].
    assert ((s, l) ∈ List.filter (λ kv, in_channel c kv.1 && nonempty kv.2) (hash_iter m)) as Hin.
    { apply list_elem_of_In, filter_In. rewrite <- list_elem_of_In, hash_iter_elem. split; [done|].
      simpl. rewrite Hc. apply nonempty_true. by eapply Hok. }
    rewrite E in Hin. by apply elem_of_nil in Hin.
Qed.

Lemma pop_front_at_eq m s l : m !! s = Some l → pop_front_at s m = put_list s (tail l) m.
Proof. unfold pop_front_at. by intros ->. Qed.

Lemma pop_front_at_ok m s : table_ok m → table_ok (pop_front_at s m).
Proof.
  intros Hm. unfold pop_front_at. destruct (m !! s) as [l|] eqn:E; [|done].
  apply table_ok_put; [done|]. apply Hm in E as [_ Hl]. destruct Hl; [constructor|done].
Qed.

Lemma pop_front_at_sum c m s l :
  in_channel c s = true → m !! s = Some l → l ≠ [] → S (chan_sum c (pop_front_at s m)) = chan_sum c m.
Proof.
  intros Hc Hs Hne. rewrite (pop_front_at_eq _ _ _ Hs), chan_sum_put, (chan_sum_split c m s), Hc.
  rewrite (get_list_lookup _ _ _ Hs). destruct l; [done|]. simpl. lia.
Qed.

Lemma evict_loop_ok fuel c m : table_ok m → table_ok (evict_loop fuel c m).
Proof.
  revert m; induction fuel as [|fuel IH]; intros m Hm; simpl; [done|].
  case_match; [|done]. destruct (victim_scope c m); [|done]. by apply IH, pop_front_at_ok.
Qed.

(** The fuel is enough: the loop ends with the channel at its cap or below. *)
Lemma evict_loop_sum fuel c m :
  table_ok m → chan_sum c m ≤ fuel + MAX_PENDING_PER_CHANNEL →
  chan_sum c (evict_loop fuel c m) = Nat.min (chan_sum c m) MAX_PENDING_PER_CHANNEL.
Proof.
  revert m; induction fuel as [|fuel IH]; intros m Hm Hf; simpl; [lia|].
  rewrite channel_event_total_sum. case_match; boolify; [|lia].
  destruct (victim_scope c m) as [s|] eqn:E.
  - apply victim_scope_Some in E as (Hc & l & Hs & Hne & _).
    pose proof (pop_front_at_sum c m s l Hc Hs Hne).
    rewrite IH; [lia|by apply pop_front_at_ok|lia].
  - apply victim_scope_None in E; [|done]. lia.
Qed.

Lemma evict_loop_other fuel c m s :
  in_channel c s = false → evict_loop fuel c m !! s = m !! s.
Proof.
  intros Hs. revert m; induction fuel as [|fuel IH]; intros m; simpl; [done|].
  case_match; [|done]. destruct (victim_scope c m) as [s'|] eqn:E; [|done].
  apply victim_scope_Some in E as (Hc & l & Hs' & _). rewrite IH, (pop_front_at_eq _ _ _ Hs').
  rewrite lookup_put_list. case_decide; congruence.
Qed.

Lemma evict_loop_suffix fuel c m s :
  get_list (evict_loop fuel c m) s `suffix_of` get_list m s.
Proof.
  revert m; induction fuel as [|fuel IH]; intros m; simpl; [done|].
  case_match; [|done]. destruct (victim_scope c m) as [s'|] eqn:E; [|done].
  apply victim_scope_Some in E as (Hc & l & Hs' & _). etrans; [apply IH|].
  rewrite (pop_front_at_eq _ _ _ Hs'), get_put_list. case_decide; [subst|done].
  rewrite (get_list_lookup _ _ _ Hs'). destruct l; [done|]. by apply suffix_cons_r.
Qed.

Lemma evict_loop_id fuel c m : chan_sum c m ≤ MAX_PENDING_PER_CHANNEL → evict_loop fuel c m = m.
Proof.
  intros Hm. destruct fuel; simpl; [done|]. rewrite channel_event_total_sum.
  case_match; [|done]. boolify. lia.
Qed.

Lemma enforce_ok c m : table_ok m → table_ok (enforce_channel_cap c m).
Proof. apply evict_loop_ok. Qed.

Lemma enforce_sum c m :
  table_ok m → chan_sum c (enforce_channel_cap c m) = Nat.min (chan_sum c m) MAX_PENDING_PER_CHANNEL.
Proof. intros Hm. apply evict_loop_sum; [done|]. rewrite channel_event_total_sum. lia. Qed.

Lemma enforce_other c m s :
  in_channel c s = false → enforce_channel_cap c m !! s = m !! s.
Proof. apply evict_loop_other. Qed.

Lemma enforce_id c m : chan_sum c m ≤ MAX_PENDING_PER_CHANNEL → enforce_channel_cap c m = m.
Proof. apply evict_loop_id. Qed.

Lemma enforce_suffix c m s : get_list (enforce_channel_cap c m) s `suffix_of` get_list m s.
Proof. apply evict_loop_suffix. Qed.

Lemma chan_sum_ext c m m' :
  (∀ s, in_channel c s = true → m !! s = m' !! s) → chan_sum c m = chan_sum c m'.
Proof.
  intros Hm. unfold chan_sum.
  cut (∀ m1 : gmap SessionScope (list QueuedEvent),
         map_sum (λ s l, if in_channel c s then length l else 0) m1 =
         map_sum (λ _ l, length l) (filter (λ kv, in_channel c kv.1 = true) m1)).
  { intros Hcut. rewrite !Hcut. f_equal. apply map_filter_strong_ext. intros s l; simpl.
    split; intros [Hc Hl]; (split; [done|]); [rewrite <- Hm by done|rewrite Hm by done]; done. }
  intros m1. induction m1 as [|k a m1 Hk IH] using map_ind; [done|].
  rewrite map_sum_insert, delete_id by done. destruct (in_channel c k) eqn:E.
  - rewrite map_filter_insert_True, map_sum_insert, delete_id by (simpl; rewrite ?map_lookup_filter_None; auto).
    lia.
  - rewrite map_filter_insert_False by (simpl; congruence). by rewrite delete_id.
Qed.

(** Any change confined to one channel is brought back under the cap. *)
Lemma enforce_capped c m :
  table_ok m → (∀ c', c' ≠ c → chan_sum c' m ≤ MAX_PENDING_PER_CHANNEL) →
  capped (enforce_channel_cap c m).
Proof.
  intros Hm Hother c'. destruct (decide (c' = c)) as [->|Hne].
  - rewrite enforce_sum by done. lia.
  - rewrite (chan_sum_ext c' _ m); [by apply Hother|]. intros s Hs. apply enforce_other.
    apply in_channel_true in Hs. destruct (in_channel c s) eqn:E; [|done].
    apply in_channel_true in E. congruence.
Qed.

(** The common shape of every insertion: replace one scope's queue, then
    enforce the cap of its channel. *)
Lemma insert_enforce m s l :
  table_ok m → capped m → l ≠ [] → Forall (homed s) l →
  table_ok (enforce_channel_cap (scope_channel_id s) (<[s := l]> m)) ∧
  capped (enforce_channel_cap (scope_channel_id s) (<[s := l]> m)).
Proof.
  intros Hm Hcap Hne Hl. assert (table_ok (<[s := l]> m)) by by apply table_ok_insert.
  split; [by apply enforce_ok|]. apply enforce_capped; [done|]. intros c' Hc'.
  rewrite chan_sum_insert. assert (in_channel c' s = false) as ->.
  { apply bool_decide_eq_false. congruence. }
  etrans; [apply chan_sum_delete_le|apply Hcap].
Qed.

End evict.

(** ** Every method preserves the invariant *)

Lemma queue_wf_new mode : queue_wf (queue_new mode).
Proof.
  split; simpl; try done.
  all: try (intros ???; set_solver).
  all: try (rewrite ?dom_empty_L; set_solver).
  intros c. unfold chan_sum, map_sum. rewrite map_to_list_empty. simpl. lia.
Qed.

(** Changing only the pending table, or only the withheld one. *)
Lemma wf_set_queues q m : queue_wf q → table_ok m → capped m → queue_wf (set_queues m q).
Proof. by intros [] ??; split. Qed.
Lemma wf_set_withheld q m : queue_wf q → table_ok m → queue_wf (set_withheld m q).
Proof. by intros [] ?; split. Qed.
Lemma wf_set_in_flight q fl d n :
  queue_wf q → dom d = fl → dom n = fl → queue_wf (set_in_flight fl d n q).
Proof. by intros [] ??; split. Qed.
Lemma wf_set_retry q a c :
  queue_wf q → (∀ s n, c !! s = Some n → (1 ≤ n ≤ MAX_RETRIES)%Z) → dom a ⊆ dom c →
  queue_wf (set_retry a c q).
Proof. by intros [] ??; split. Qed.
Lemma wf_set_cancelled q b r :
  queue_wf q → (∀ s l, b !! s = Some l → l ≠ []) → dom r = dom b → queue_wf (set_cancelled b r q).
Proof. by intros [] ??; split. Qed.

Lemma wf_insert_enforce {HO : HashOrder} q s l :
  queue_wf q → l ≠ [] → Forall (homed s) l →
  queue_wf (set_queues (enforce_channel_cap (scope_channel_id s) (<[s := l]> (queues q))) q).
Proof.
  intros Hq Hne Hl. destruct (insert_enforce (queues q) s l) as [??]; [by apply Hq..|done|done|].
  by apply wf_set_queues.
Qed.

Lemma wf_put_smaller q s l :
  queue_wf q → length l ≤ length (get_list (queues q) s) → Forall (homed s) l →
  queue_wf (set_queues (put_list s l (queues q)) q).
Proof.
  intros Hq Hlen Hl. apply wf_set_queues; [done| |]; [apply table_ok_put|apply capped_put]; try done;
    by apply Hq.
Qed.

Lemma wf_clear_in_flight q s :
  queue_wf q →
  queue_wf (set_in_flight (in_flight_scopes q ∖ {[s]}) (delete s (in_flight_deadlines q))
              (delete s (in_flight_batch_sizes q)) q).
Proof.
  intros Hq. apply wf_set_in_flight; [done| |]; rewrite dom_delete_L;
    [by rewrite wf_deadlines|by rewrite wf_sizes].
Qed.

Lemma wf_clear_retry q s :
  queue_wf q → queue_wf (set_retry (delete s (retry_after q)) (delete s (retry_counts q)) q).
Proof.
  intros Hq. apply wf_set_retry; [done| |].
  - intros s' n [_ Hs]%lookup_delete_Some. by eapply wf_retries.
  - rewrite !dom_delete_L. pose proof (wf_throttled _ Hq). set_solver.
Qed.

Lemma wf_clear_cancelled q s :
  queue_wf q →
  queue_wf (set_cancelled (delete s (cancelled_batches q)) (delete s (cancel_reasons q)) q).
Proof.
  intros Hq. apply wf_set_cancelled; [done| |].
  - intros s' l [_ Hs]%lookup_delete_Some. by eapply wf_cancelled.
  - by rewrite !dom_delete_L, wf_reasons.
Qed.

Lemma wf_with_deadline q secs : queue_wf q → queue_wf (with_in_flight_deadline secs q).
Proof. by intros []; split. Qed.

Lemma wf_extend now s secs q : queue_wf q → queue_wf (extend_in_flight_deadline now s secs q).
Proof.
  intros Hq. unfold extend_in_flight_deadline.
  destruct (in_flight_deadlines q !! s) as [d|] eqn:E; [|done]. case_match; [|done].
  apply wf_set_in_flight; [done| |by apply wf_sizes]. rewrite dom_insert_L, <- wf_deadlines by done.
  apply elem_of_dom_2 in E. set_solver.
Qed.

Lemma homed_self ev : coherent_event ev → homed (qe_scope ev) ev.
Proof. by intros Hev; split. Qed.

Lemma wf_push {HO : HashOrder} ev q : queue_wf q → coherent_event ev → queue_wf (push ev q).1.
Proof.
  intros Hq Hev. unfold push. case_match; [done|]. simpl. rewrite <- Hev. apply wf_insert_enforce; [done|by case_match; destruct (get_list _ _) as [|? []]|].
  pose proof (table_ok_get _ (qe_scope ev) (wf_queues _ Hq)) as Hl.
  apply Forall_app; split; [|by constructor; [apply homed_self|]].
  case_match; [|done]. by destruct Hl.
Qed.

Lemma Forall_trim s l : Forall (homed s) l → Forall (homed s) (trim_back l).
Proof. apply Forall_take. Qed.
Lemma trim_back_ne_nil l : l ≠ [] → trim_back l ≠ [].
Proof. by destruct l. Qed.

Lemma wf_recover {HO : HashOrder} s q : queue_wf q → queue_wf (recover_withheld_for_expired_scope s q).
Proof.
  intros Hq. unfold recover_withheld_for_expired_scope.
  destruct (withheld_native_steer q !! s) as [l|] eqn:E; [|done].
  destruct (wf_withheld _ Hq s l E) as [Hne Hl].
  assert (queue_wf (set_withheld (delete s (withheld_native_steer q)) q)) as Hq'
    by (apply wf_set_withheld; [done|by apply table_ok_delete, Hq]).
  refine (wf_insert_enforce _ s _ Hq' _ _); rewrite push_front_rev_app.
  - apply trim_back_ne_nil. by destruct l.
  - apply Forall_trim, Forall_app. split; [done|]. apply table_ok_get, Hq.
Qed.

Lemma wf_expire_scope {HO : HashOrder} q s : queue_wf q → queue_wf (expire_scope q s).
Proof. intros Hq. by apply wf_recover, wf_clear_in_flight. Qed.

Lemma wf_expire {HO : HashOrder} now q : queue_wf q → queue_wf (expire_in_flight now q).
Proof.
  unfold expire_in_flight. generalize (expired_scopes now q) as l.
  intros l; revert q; induction l as [|s l IH]; intros q Hq; simpl; [done|].
  by apply IH, wf_expire_scope.
Qed.

Lemma wf_mark_in_flight now s n q : queue_wf q → queue_wf (mark_in_flight now s n q).
Proof.
  intros Hq. apply wf_set_in_flight; [done| |]; rewrite dom_insert_L;
    [by rewrite wf_deadlines|by rewrite wf_sizes].
Qed.

Lemma wf_flush_scope now s q : queue_wf q → queue_wf (flush_scope now s q).2.
Proof.
  intros Hq. unfold flush_scope. cbv zeta. simpl snd.
  set (n := Nat.min MAX_BATCH_EVENTS (length (get_list (queues q) s))). set (k := length (sort_by_key _ _)).
  assert (queue_wf (set_queues (put_list s (drop n (get_list (queues q) s)) (queues q)) q)) as Hq'.
  { apply wf_put_smaller; [done| |]; [rewrite length_drop; lia|].
    apply Forall_drop, table_ok_get, Hq. }
  by apply (wf_mark_in_flight now s k), (wf_clear_cancelled _ s) in Hq'.
Qed.

Lemma wf_flush_cancelled now s q : queue_wf q → queue_wf (flush_cancelled now s q).2.
Proof. intros Hq. by apply wf_mark_in_flight, wf_clear_cancelled. Qed.

Lemma wf_flush {HO : HashOrder} now q : queue_wf q → queue_wf (flush_next now q).2.
Proof.
  intros Hq. unfold flush_next. apply (wf_expire now) in Hq. revert Hq.
  generalize (expire_in_flight now q) as q1. intros q1 Hq.
  destruct (fst <$> min_by_key _ _) as [s|].
  - pose proof (wf_flush_scope now s q1 Hq). by destruct (flush_scope now s q1).
  - destruct (cancelled_candidate q1) as [s|]; [|done]. by apply wf_flush_cancelled.
Qed.

Lemma wf_complete now s q : queue_wf q → queue_wf (mark_complete now s q).
Proof.
  intros Hq. unfold mark_complete. apply (wf_clear_in_flight _ s) in Hq. simpl in *.
  destruct (retry_after q !! s) as [d|] eqn:E.
  - case_match; [done|]. by apply (wf_clear_retry _ s) in Hq.
  - apply (wf_clear_retry _ s) in Hq. simpl in Hq. by rewrite (delete_id (retry_after q)) in Hq.
Qed.

Lemma restored_homed b :
  fb_channel_id b = scope_channel_id (fb_scope b) →
  Forall (homed (fb_scope b)) (to_queued_event (fb_channel_id b) (fb_scope b) <$> fb_events b).
Proof. intros Hb. apply Forall_fmap, Forall_true. by intros be; split. Qed.

Lemma wf_restore {HO : HashOrder} b q :
  queue_wf q → coherent_batch b →
  queue_wf (set_queues (enforce_channel_cap (fb_channel_id b) (restore_front b (queues q))) q).
Proof.
  intros Hq (Hc & Hne & _). unfold restore_front. rewrite push_front_rev_app.
  rewrite Hc at 1. apply wf_insert_enforce; [done| |].
  - apply trim_back_ne_nil. by destruct (fb_events b).
  - apply Forall_trim, Forall_app. split; [by apply restored_homed|]. apply table_ok_get, Hq.
Qed.

Lemma wf_requeue {HO : HashOrder} now nanos b q :
  queue_wf q → coherent_batch b → queue_wf (requeue now nanos b q).2.
Proof.
  intros Hq Hb. unfold requeue. set (attempt := (default 0%Z _ + 1)%Z).
  destruct (MAX_RETRIES <? attempt)%Z eqn:E; simpl; [by apply wf_clear_retry|]. boolify.
  set (d := (now + _)%Z).
  assert (queue_wf (set_retry (<[fb_scope b := d]> (retry_after q)) (<[fb_scope b := attempt]> (retry_counts q)) q))
    as Hq'; [|by apply (wf_restore b) in Hq'].
  apply wf_set_retry; [done| |].
  - intros s n [[<- <-]|[_ Hs]]%lookup_insert_Some; [|by eapply wf_retries].
    split; [|done]. unfold attempt. destruct (retry_counts q !! fb_scope b) as [n|] eqn:En; simpl; [|lia].
    apply wf_retries in En; [lia|done].
  - rewrite !dom_insert_L. pose proof (wf_throttled _ Hq). set_solver.
Qed.

Lemma wf_requeue_preserve {HO : HashOrder} b q :
  queue_wf q → coherent_batch b → queue_wf (requeue_preserve_timestamps b q).
Proof.
  intros Hq Hb. unfold requeue_preserve_timestamps.
  destruct (fb_cancelled_events b) as [|c cs] eqn:Ec; [by apply wf_restore|].
  set (r := match fb_cancel_reason b with Some _ => _ | None => _ end). set (l := (c :: cs) ++ _).
  assert (queue_wf (set_cancelled (<[fb_scope b := l]> (cancelled_batches q)) r q)) as Hq';
    [|by apply (wf_restore b) in Hq'].
  apply wf_set_cancelled; [done| |].
  - intros s l' [[<- <-]|[_ Hs]]%lookup_insert_Some; [done|]. by eapply wf_cancelled.
  - rewrite dom_insert_L. destruct Hb as (_ & _ & Hr). rewrite Ec in Hr.
    destruct (Hr ltac:(done)) as [rs Hrs]. subst r. rewrite Hrs.
    destruct (cancel_reasons q !! fb_scope b) eqn:E.
    + apply elem_of_dom_2 in E. rewrite wf_reasons in * by done. set_solver.
    + by rewrite dom_insert_L, wf_reasons.
Qed.

Lemma wf_requeue_cancelled b reason q :
  queue_wf q → coherent_batch b → queue_wf (requeue_as_cancelled b reason q).
Proof.
  intros Hq (_ & Hne & _). apply wf_set_cancelled; [done| |].
  - intros s l [[<- <-]|[_ Hs]]%lookup_insert_Some; [|by eapply wf_cancelled].
    intros [_ [_ ?]%app_eq_nil]%app_eq_nil. done.
  - by rewrite !dom_insert_L, wf_reasons.
Qed.

Lemma drop_channel_lookup {A} c (m : gmap SessionScope A) s x :
  drop_channel c m !! s = Some x ↔ m !! s = Some x ∧ scope_channel_id s ≠ c.
Proof. apply map_lookup_filter_Some. Qed.

Lemma dom_drop_channel {A} c (m : gmap SessionScope A) s :
  s ∈ dom (drop_channel c m) ↔ s ∈ dom m ∧ scope_channel_id s ≠ c.
Proof. rewrite !elem_of_dom. unfold is_Some. setoid_rewrite drop_channel_lookup. naive_solver. Qed.

(** Removing the listed scopes is filtering the channel out. *)
Lemma drain_queues {HO : HashOrder} c m :
  foldl (λ m s, delete s m) m (List.filter (in_channel c) ((hash_iter m).*1)) = drop_channel c m.
Proof.
  apply map_eq; intros s. set (l := List.filter _ _).
  assert (∀ (l : list SessionScope) m', foldl (λ m s, delete s m) m' l !! s =
            if decide (s ∈ l) then None else m' !! s) as Hfold.
  { clear. induction l as [|s' l IH]; intros m'; simpl; [done|]. rewrite IH.
    destruct (decide (s = s')) as [->|]; [|rewrite lookup_delete_ne by done]; repeat case_decide; set_solver || by rewrite ?lookup_delete_eq. }
  rewrite Hfold. assert (s ∈ l ↔ is_Some (m !! s) ∧ scope_channel_id s = c) as Hl.
  { subst l. rewrite list_elem_of_In, filter_In, <- list_elem_of_In, hash_iter_keys, in_channel_true. done. }
  apply option_eq; intros x. rewrite drop_channel_lookup. case_decide as Hs; rewrite Hl in Hs.
  - naive_solver.
  - unfold is_Some in Hs. naive_solver.
Qed.

Lemma table_ok_drop c m : table_ok m → table_ok (drop_channel c m).
Proof. intros Hm s l [Hs _]%drop_channel_lookup. by apply Hm. Qed.

Lemma chan_sum_drop_le c c' m : chan_sum c' (drop_channel c m) ≤ chan_sum c' m.
Proof.
  destruct (decide (c' = c)) as [->|Hne].
  - rewrite (chan_sum_ext c _ ∅); [unfold chan_sum, map_sum; rewrite map_to_list_empty; simpl; lia|].
    intros s Hs%in_channel_true. rewrite lookup_empty. apply map_lookup_filter_None. naive_solver.
  - rewrite (chan_sum_ext c' _ m); [done|]. intros s Hs%in_channel_true.
    apply option_eq; intros x. rewrite drop_channel_lookup. naive_solver.
Qed.

Lemma wf_drain {HO : HashOrder} c q : queue_wf q → queue_wf (drain_channel c q).2.
Proof.
  intros []. split; simpl; rewrite ?drain_queues; try done.
  - by apply table_ok_drop.
  - intros c'. etrans; [apply chan_sum_drop_le|auto].
  - by apply table_ok_drop.
  - intros s l [Hs _]%drop_channel_lookup; eauto.
  - apply set_eq; intros s. rewrite !dom_drop_channel. set_solver.
  - intros s n [Hs _]%drop_channel_lookup; eauto.
  - intros s. rewrite !dom_drop_channel. set_solver.
Qed.

Lemma remove_at_perm {A} n (l : list A) x r : remove_at n l = Some (x, r) → x :: r ≡ₚ l.
Proof.
  unfold remove_at. destruct (l !! n) as [y|] eqn:E; [|done]. intros [= <- <-].
  rewrite <- (take_drop_middle l n y E) at 3. apply Permutation_middle.
Qed.

Lemma wf_withhold s i q : queue_wf q → queue_wf (mark_native_steer_pending s i q).2.
Proof.
  intros Hq. unfold mark_native_steer_pending. destruct (queues q !! s) as [l|] eqn:E; [|done].
  destruct (position _ l ≫= _) as [[x r]|] eqn:Ep; [|done].
  apply bind_Some in Ep as (n & _ & Hp%remove_at_perm). simpl.
  destruct (wf_queues _ Hq s l E) as [_ Hl]. rewrite <- Hp in Hl. inversion Hl; subst.
  apply wf_set_withheld.
  - apply wf_put_smaller; [done| |done]. rewrite (get_list_lookup _ _ _ E), <- Hp. simpl; lia.
  - apply table_ok_insert; [by apply Hq|by destruct (get_list _ _)|]. apply Forall_app. split.
    + apply table_ok_get, Hq.
    + by constructor.
Qed.

Lemma wf_release {HO : HashOrder} s i q : queue_wf q → queue_wf (release_native_steer s i q).
Proof.
  intros Hq. unfold release_native_steer. destruct (withheld_native_steer q !! s) as [l|] eqn:E; [|done].
  destruct (position _ l ≫= _) as [[x r]|] eqn:Ep; [|done].
  apply bind_Some in Ep as (n & _ & Hp%remove_at_perm).
  destruct (wf_withheld _ Hq s l E) as [_ Hl]. rewrite <- Hp in Hl. inversion Hl; subst.
  refine (wf_insert_enforce _ s _ _ _ _); [|by apply trim_back_ne_nil|].
  - apply wf_set_withheld; [done|]. apply table_ok_put; [by apply Hq|done].
  - apply Forall_trim. constructor; [done|]. apply table_ok_get, Hq.
Qed.

Lemma remove_event_from_ok s i m : table_ok m → table_ok (remove_event_from s i m).
Proof.
  intros Hm. unfold remove_event_from. destruct (m !! s) as [l|] eqn:E; [|done].
  apply table_ok_put; [done|]. destruct (Hm s l E) as [_ Hl]. rewrite Forall_forall in *.
  intros x. rewrite list_elem_of_In, filter_In, <- list_elem_of_In. intros [? _]. auto.
Qed.

Lemma wf_remove s i q : queue_wf q → queue_wf (remove_event s i q).
Proof.
  intros Hq. unfold remove_event. apply wf_set_queues.
  - apply wf_set_withheld; [done|]. apply remove_event_from_ok, Hq.
  - apply remove_event_from_ok, Hq.
  - simpl. unfold remove_event_from. destruct (queues q !! s) as [l|] eqn:E; [|apply Hq].
    apply capped_put; [apply Hq|]. rewrite (get_list_lookup _ _ _ E). apply List.filter_length_le.
Qed.

Lemma wf_compact now q : queue_wf q → queue_wf (compact_expired_state now q).
Proof.
  intros Hq. apply wf_set_retry; [done| |].
  - intros s n [Hs _]%map_lookup_filter_Some. by eapply wf_retries.
  - intros s [d Hd]%elem_of_dom. apply elem_of_dom.
    pose proof Hd as [Hd' _]%map_lookup_filter_Some.
    assert (is_Some (retry_counts q !! s)) as [n Hn].
    { apply elem_of_dom, (wf_throttled _ Hq), elem_of_dom. by exists d. }
    exists n. apply map_lookup_filter_Some. split; [done|]. simpl. rewrite Hd.
    by rewrite bool_decide_true by by exists d.
Qed.

Lemma step_wf q q' : step q q' → queue_wf q → queue_wf q'.
Proof.
  destruct 1; intros; eauto using wf_with_deadline, wf_extend, wf_push, wf_flush, wf_complete,
    wf_requeue, wf_requeue_preserve, wf_requeue_cancelled, wf_drain, wf_withhold, wf_release, wf_remove,
    wf_compact.
  by apply wf_expire.
Qed.

Lemma reachable_wf mode q : reachable mode q → queue_wf q.
Proof.
  unfold reachable. intros H. assert (queue_wf (queue_new mode)) as Hn by apply queue_wf_new.
  revert Hn. induction H; eauto using step_wf.
Qed.

End facts.
