(* ===== verification/EventQueueProps.v ===== *)
(** * Properties of the event queue

    What [EventQueue] promises to the ACP harness: bounded, coherent tables in
    every reachable state, fair selection, no double dispatch, no lost events
    on the hold path, bounded retries, channel clean-up. *)
From S2P Require Import Prelude Nostr Thread EventQueue EventQueueFacts.

Section props.
Context {L : NostrLib}.
Implicit Types (q : EventQueue) (s : SessionScope) (m : gmap SessionScope (list QueuedEvent)).

(** ** Conservation *)

(** Everything the queue still owes the agent. *)
Definition pending_events q : list BatchEvent :=
  (to_batch_event <$> map_flat (queues q)) ++ (to_batch_event <$> map_flat (withheld_native_steer q)) ++
  map_flat (cancelled_batches q).

Definition batch_contents (b : FlushBatch) : list BatchEvent := fb_cancelled_events b ++ fb_events b.

(** The scope picked by the main branch of [flush_next]. *)
Definition selected {HO : HashOrder} (now : Z) q : option SessionScope :=
  fst <$> min_by_key (λ kv, head_received_at kv.2) (List.filter (ready now q) (hash_iter (queues q))).

Lemma flush_next_cases {HO : HashOrder} now q b q' :
  flush_next now q = (Some b, q') →
  let q1 := expire_in_flight now q in
  (∃ s, selected now q1 = Some s ∧ flush_scope now s q1 = (b, q')) ∨
  (∃ s, selected now q1 = None ∧ cancelled_candidate q1 = Some s ∧ flush_cancelled now s q1 = (b, q')).
Proof.
  unfold flush_next. fold (selected now (expire_in_flight now q)). cbv zeta.
  destruct (selected now (expire_in_flight now q)) as [s|].
  - destruct (flush_scope _ _ _) as [b' q1'] eqn:E. intros [= -> ->]. left. by exists s.
  - destruct (cancelled_candidate _) as [s|]; [|done].
    destruct (flush_cancelled _ _ _) as [b' q1'] eqn:E. intros [= -> ->]. right. by exists s.
Qed.

Lemma ready_true now q s l :
  ready now q (s, l) = true ↔ l ≠ [] ∧ (s ∉ in_flight_scopes q) ∧ not_throttled now q s = true.
Proof.
  unfold ready; simpl. rewrite !andb_true_iff, nonempty_true, negb_true_iff, bool_decide_eq_false. tauto.
Qed.

Lemma selected_Some {HO : HashOrder} now q s :
  selected now q = Some s →
  ∃ l, queues q !! s = Some l ∧ ready now q (s, l) = true ∧
  ∀ s' l', queues q !! s' = Some l' → ready now q (s', l') = true →
           (head_received_at l ≤ head_received_at l')%Z.
Proof.
  unfold selected. destruct (min_by_key _ _) as [[s0 l]|] eqn:E; [|done]. intros [= ->].
  apply min_by_key_Some in E as [Hin Hmin].
  apply list_elem_of_In, filter_In in Hin as [Hin Hr].
  apply list_elem_of_In, hash_iter_elem in Hin. exists l. split_and!; [done..|].
  intros s' l' Hs' Hr'. apply (Hmin (s', l')). apply list_elem_of_In, filter_In.
  by rewrite <- list_elem_of_In, hash_iter_elem.
Qed.

Lemma selected_None {HO : HashOrder} now q :
  selected now q = None ↔ existsb (ready now q) (hash_iter (queues q)) = false.
Proof.
  unfold selected. generalize (hash_iter (queues q)) as l.
  assert (∀ l, List.filter (ready now q) l = [] ↔ existsb (ready now q) l = false) as Hl.
  { induction l as [|kv l IH]; simpl; [done|]. by destruct (ready now q kv). }
  intros l. rewrite <- Hl, <- (min_by_key_None (λ kv, head_received_at kv.2)).
  by destruct (min_by_key _ _).
Qed.

Lemma flush_scope_conserves now s q b q' :
  flush_scope now s q = (b, q') → pending_events q ≡ₚ batch_contents b ++ pending_events q'.
Proof.
  unfold flush_scope, pending_events, batch_contents. intros [= <- <-]; simpl.
  set (l := get_list (queues q) s). set (n := Nat.min MAX_BATCH_EVENTS (length l)).
  rewrite sort_by_key_perm, map_flat_put, (map_flat_delete (queues q) s), !fmap_app.
  rewrite (map_flat_delete (cancelled_batches q) s).
  fold l. rewrite <- (take_drop n l) at 1. rewrite fmap_app. solve_Permutation.
Qed.

Lemma flush_cancelled_conserves now s q b q' :
  flush_cancelled now s q = (b, q') → pending_events q ≡ₚ batch_contents b ++ pending_events q'.
Proof.
  unfold flush_cancelled, pending_events, batch_contents. intros [= <- <-]; simpl.
  rewrite (map_flat_delete (cancelled_batches q) s). solve_Permutation.
Qed.

(** With room in the channel, events put back at the front all stay. *)
Lemma restore_room {HO : HashOrder} s l m :
  chan_sum (scope_channel_id s) m + length l ≤ MAX_PENDING_PER_CHANNEL →
  enforce_channel_cap (scope_channel_id s) (<[s := trim_back (l ++ get_list m s)]> m) =
    <[s := l ++ get_list m s]> m.
Proof.
  intros Hroom. assert (in_channel (scope_channel_id s) s = true) as Hin by by apply in_channel_true.
  rewrite (chan_sum_split _ _ s), Hin in Hroom.
  assert (MAX_PENDING_PER_CHANNEL = MAX_PENDING_PER_SCOPE) as Hcap by done.
  unfold trim_back. rewrite take_ge by (rewrite length_app; lia). apply enforce_id.
  rewrite chan_sum_insert, Hin, length_app. lia.
Qed.

Lemma map_flat_front s (l : list QueuedEvent) m :
  map_flat (<[s := l ++ get_list m s]> m) ≡ₚ l ++ map_flat m.
Proof. rewrite map_flat_insert, (map_flat_delete m s). solve_Permutation. Qed.

(** Restoring a batch in a channel with room for it loses nothing. *)
Lemma requeue_preserve_conserves {HO : HashOrder} b q :
  fb_channel_id b = scope_channel_id (fb_scope b) →
  chan_sum (fb_channel_id b) (queues q) + length (fb_events b) ≤ MAX_PENDING_PER_CHANNEL →
  pending_events (requeue_preserve_timestamps b q) ≡ₚ batch_contents b ++ pending_events q.
Proof.
  intros Hc Hroom. unfold requeue_preserve_timestamps.
  set (q1 := match fb_cancelled_events b with [] => q | _ => _ end).
  assert (queues q1 = queues q) as Hqs by (unfold q1; by destruct (fb_cancelled_events b)).
  assert (withheld_native_steer q1 = withheld_native_steer q) as Hws
    by (unfold q1; by destruct (fb_cancelled_events b)).
  assert (map_flat (cancelled_batches q1) ≡ₚ fb_cancelled_events b ++ map_flat (cancelled_batches q)) as Hcs.
  { unfold q1. destruct (fb_cancelled_events b); simpl; [done|].
    rewrite map_flat_insert, (map_flat_delete (cancelled_batches q) (fb_scope b)). solve_Permutation. }
  rewrite Hqs. unfold restore_front. rewrite push_front_rev_app, Hc.
  rewrite Hc in Hroom. rewrite restore_room by by rewrite length_fmap.
  unfold pending_events, batch_contents; simpl. rewrite Hws, Hcs, map_flat_front, fmap_app, <- list_fmap_compose.
  assert (to_batch_event ∘ to_queued_event (scope_channel_id (fb_scope b)) (fb_scope b) <$> fb_events b
          = fb_events b) as ->.
  { rewrite <- (list_fmap_id (fb_events b)) at 2. apply list_fmap_ext. by intros i [] _. }
  solve_Permutation.
Qed.

(** ** Supporting lemmas *)

Lemma be_nonempty (l : list QueuedEvent) n :
  0 < n → l ≠ [] → sort_by_key be_created_at (to_batch_event <$> take n l) ≠ [].
Proof.
  intros Hn Hl Hs. pose proof (sort_by_key_perm be_created_at (to_batch_event <$> take n l)) as Hp.
  rewrite Hs in Hp. apply Permutation_nil_l in Hp. destruct l; [done|]. destruct n; [lia|done].
Qed.

Lemma reason_staged q s : queue_wf q → get_list (cancelled_batches q) s ≠ [] → is_Some (cancel_reasons q !! s).
Proof.
  intros Hq Hl. apply elem_of_dom. rewrite wf_reasons by done. apply elem_of_dom.
  exists (get_list (cancelled_batches q) s). by apply get_list_ne_nil.
Qed.

Lemma cancelled_candidate_Some {HO : HashOrder} q s :
  cancelled_candidate q = Some s → (s ∉ in_flight_scopes q) ∧ is_Some (cancelled_batches q !! s).
Proof.
  unfold cancelled_candidate. intros [Hin Hs]%find_some.
  apply list_elem_of_In, hash_iter_keys in Hin. split; [|done].
  by apply negb_true_iff, bool_decide_eq_false in Hs.
Qed.

Lemma cancelled_candidate_None {HO : HashOrder} q :
  cancelled_candidate q = None ↔
  existsb (λ scope, negb (bool_decide (scope ∈ in_flight_scopes q))) (hash_iter (cancelled_batches q)).*1 = false.
Proof.
  unfold cancelled_candidate. generalize ((hash_iter (cancelled_batches q)).*1) as l.
  induction l as [|s l IH]; simpl; [done|]. by destruct (negb _).
Qed.

(** A batch of the main branch: the drained prefix, oldest first. *)
Lemma flush_scope_spec now s q b q' :
  queue_wf q → is_Some (queues q !! s) → flush_scope now s q = (b, q') →
  coherent_batch b ∧ fb_scope b = s ∧
  (∃ l, queues q !! s = Some l ∧ StronglySorted (key_le be_created_at) (fb_events b) ∧
     fb_events b ≡ₚ to_batch_event <$> take MAX_BATCH_EVENTS l ∧
     queues q' = put_list s (drop MAX_BATCH_EVENTS l) (queues q)) ∧
  fb_cancelled_events b = get_list (cancelled_batches q) s ∧
  (fb_cancelled_events b ≠ [] → fb_cancel_reason b = cancel_reasons q !! s).
Proof.
  intros Hq [l Hl]. unfold flush_scope. rewrite (get_list_lookup _ _ _ Hl). cbv zeta.
  assert (take (Nat.min MAX_BATCH_EVENTS (length l)) l = take MAX_BATCH_EVENTS l) as ->.
  { destruct (Nat.min_spec MAX_BATCH_EVENTS (length l)) as [[? ->]|[? ->]]; [done|]. by rewrite !take_ge by lia. }
  assert (drop (Nat.min MAX_BATCH_EVENTS (length l)) l = drop MAX_BATCH_EVENTS l) as ->.
  { destruct (Nat.min_spec MAX_BATCH_EVENTS (length l)) as [[? ->]|[? ->]]; [done|]. by rewrite !drop_ge by lia. }
  intros [= <- <-]. destruct (wf_queues _ Hq s l Hl) as [Hne _].
  unfold coherent_batch; simpl. split_and!; try done.
  - apply be_nonempty; [unfold MAX_BATCH_EVENTS; lia|done].
  - intros Hc. destruct (reason_staged q s Hq Hc) as [r Hr]. rewrite Hr.
    by destruct (get_list (cancelled_batches q) s).
  - exists l. split_and!; [done|apply sort_by_key_sorted|by rewrite sort_by_key_perm|done].
  - by destruct (get_list (cancelled_batches q) s).
Qed.

Lemma flush_cancelled_spec now s q b q' :
  queue_wf q → is_Some (cancelled_batches q !! s) → flush_cancelled now s q = (b, q') →
  coherent_batch b ∧ fb_scope b = s ∧ fb_events b = get_list (cancelled_batches q) s ∧
  fb_cancelled_events b = [] ∧ queues q' = queues q.
Proof.
  intros Hq [l Hl]. unfold flush_cancelled. intros [= <- <-].
  unfold coherent_batch; simpl. split_and!; try done.
  rewrite (get_list_lookup _ _ _ Hl). by eapply wf_cancelled.
Qed.

(** Both branches mark the scope in flight and consume its cancelled events. *)
Lemma flush_marks {HO : HashOrder} now q b q' :
  flush_next now q = (Some b, q') → let q1 := expire_in_flight now q in
  (fb_scope b ∉ in_flight_scopes q1) ∧ in_flight_scopes q' = {[fb_scope b]} ∪ in_flight_scopes q1 ∧
  in_flight_deadlines q' = <[fb_scope b := (now + in_flight_deadline q1)%Z]> (in_flight_deadlines q1) ∧
  in_flight_batch_sizes q' = <[fb_scope b := length (fb_events b)]> (in_flight_batch_sizes q1) ∧
  cancelled_batches q' = delete (fb_scope b) (cancelled_batches q1) ∧
  cancel_reasons q' = delete (fb_scope b) (cancel_reasons q1) ∧
  withheld_native_steer q' = withheld_native_steer q1.
Proof.
  intros [(s & Hs & Hf)|(s & Hs & Hc & Hf)]%flush_next_cases.
  - apply selected_Some in Hs as (l & _ & (_ & Hfl & _)%ready_true & _).
    unfold flush_scope in Hf. cbv zeta in Hf. by injection Hf as <- <-.
  - apply cancelled_candidate_Some in Hc as [Hfl _].
    unfold flush_cancelled in Hf. cbv zeta in Hf. by injection Hf as <- <-.
Qed.

Lemma flush_conserves {HO : HashOrder} now q b q' :
  flush_next now q = (Some b, q') →
  pending_events (expire_in_flight now q) ≡ₚ batch_contents b ++ pending_events q'.
Proof.
  intros [(s & _ & Hf)|(s & _ & _ & Hf)]%flush_next_cases;
    [by eapply flush_scope_conserves|by eapply flush_cancelled_conserves].
Qed.

(** Draining a prefix of a queue makes room for it. *)
Lemma drained_room q q' b l n :
  queue_wf q → fb_channel_id b = scope_channel_id (fb_scope b) → queues q !! fb_scope b = Some l →
  fb_events b ≡ₚ to_batch_event <$> take n l → queues q' = put_list (fb_scope b) (drop n l) (queues q) →
  chan_sum (fb_channel_id b) (queues q') + length (fb_events b) ≤ MAX_PENDING_PER_CHANNEL.
Proof.
  intros Hq Hc Hl Hp Hqs. apply Permutation_length in Hp. rewrite length_fmap, length_take in Hp.
  pose proof (wf_capped _ Hq (fb_channel_id b)) as Hcap.
  rewrite (chan_sum_split _ _ (fb_scope b)), (get_list_lookup _ _ _ Hl) in Hcap.
  rewrite Hqs, chan_sum_put. rewrite (proj2 (in_channel_true _ _)) in * by done.
  rewrite length_drop. lia.
Qed.

Lemma retry_count_range q s :
  queue_wf q → (0 ≤ default 0%Z (retry_counts q !! s) ≤ MAX_RETRIES)%Z.
Proof.
  intros Hq. destruct (retry_counts q !! s) eqn:E; simpl; [|unfold MAX_RETRIES; lia].
  apply wf_retries in E; [lia|done].
Qed.

Lemma small_cases (P : Z → Prop) (n : Z) :
  (0 ≤ n ≤ MAX_RETRIES)%Z → Forall P [0; 1; 2; 3; 4; 5; 6; 7; 8; 9; 10]%Z → P n.
Proof.
  intros Hn HP. rewrite Forall_forall in HP. apply HP. unfold MAX_RETRIES in Hn.
  rewrite list_elem_of_In. simpl. lia.
Qed.

Lemma capped_secs_backoff (n : Z) :
  (0 ≤ n ≤ MAX_RETRIES)%Z →
  capped_secs (n + 1) = Z.min (BASE_RETRY_DELAY_SECS * 2 ^ n) MAX_RETRY_DELAY_SECS.
Proof. intros Hn. pattern n. refine (small_cases _ n Hn _). by repeat constructor. Qed.

Lemma retry_delay_bounds (nanos n : Z) :
  (0 ≤ nanos < NANOS_PER_SEC)%Z → (0 ≤ n ≤ MAX_RETRIES)%Z →
  let backoff := Z.min (BASE_RETRY_DELAY_SECS * 2 ^ n) MAX_RETRY_DELAY_SECS in
  (8 * (backoff * NANOS_PER_SEC) ≤ 10 * retry_delay nanos backoff < 9 * (backoff * NANOS_PER_SEC))%Z.
Proof.
  intros Hnanos Hn. cbv zeta. pattern n. refine (small_cases _ n Hn _). clear n Hn.
  unfold NANOS_PER_SEC in *.
  repeat (apply List.Forall_cons; [|]); [..|apply List.Forall_nil]; cbv beta;
    (match goal with |- context [Z.min ?a ?b] =>
       let c := eval vm_compute in (Z.min a b) in change (Z.min a b) with c end);
    unfold retry_delay, NANOS_PER_SEC; cbv zeta; change (2 ^ 32 - 1)%Z with 4294967295%Z;
    Z.to_euclidean_division_equations; lia.
Qed.

(** *** Steers *)

Lemma position_Some {A} (f : A → bool) l n :
  position f l = Some n → ∃ x, l !! n = Some x ∧ f x = true.
Proof.
  revert n; induction l as [|y l IH]; intros n; simpl; [done|]. destruct (f y) eqn:E.
  - intros [= <-]. by exists y.
  - intros (k & Hk & ->)%fmap_Some. by apply IH in Hk.
Qed.

Lemma position_None {A} (f : A → bool) l : position f l = None → ∀ x, x ∈ l → f x = false.
Proof.
  induction l as [|y l IH]; simpl; [set_solver|]. destruct (f y) eqn:E; [done|].
  intros Hp%fmap_None x [->|Hx]%elem_of_cons; [done|auto].
Qed.

(** Taking out the first event with an id. *)
Lemma take_out_Some i (l : list QueuedEvent) x r :
  position (has_event_id i) l ≫= (λ pos, remove_at pos l) = Some (x, r) →
  id (qe_event x) = i ∧ x :: r ≡ₚ l.
Proof.
  intros (n & Hp & Hr)%bind_Some. split; [|by eapply remove_at_perm].
  apply position_Some in Hp as (y & Hy & Hi). unfold remove_at in Hr. rewrite Hy in Hr. injection Hr as -> _.
  unfold has_event_id in Hi. by boolify.
Qed.

Lemma take_out_None i (l : list QueuedEvent) :
  position (has_event_id i) l ≫= (λ pos, remove_at pos l) = None → ∀ x, x ∈ l → id (qe_event x) ≠ i.
Proof.
  intros [Hp|(n & Hp & Hr)]%bind_None x Hx.
  - eapply position_None in Hp; [|done]. unfold has_event_id in Hp. by boolify.
  - apply position_Some in Hp as (y & Hy & _). unfold remove_at in Hr. by rewrite Hy in Hr.
Qed.

Lemma withhold_Some s i q q' :
  mark_native_steer_pending s i q = (true, q') →
  ∃ x r, id (qe_event x) = i ∧ x :: r ≡ₚ get_list (queues q) s ∧
    queues q' = put_list s r (queues q) ∧
    withheld_native_steer q' = <[s := get_list (withheld_native_steer q) s ++ [x]]> (withheld_native_steer q) ∧
    cancelled_batches q' = cancelled_batches q.
Proof.
  unfold mark_native_steer_pending. destruct (queues q !! s) as [l|] eqn:E; [|done].
  destruct (position _ l ≫= _) as [[x r]|] eqn:Ep; [|done]. intros [= <-].
  apply take_out_Some in Ep as [Hi Hp]. exists x, r. by rewrite (get_list_lookup _ _ _ E).
Qed.

Lemma withhold_false s i q q' :
  mark_native_steer_pending s i q = (false, q') →
  q' = q ∧ ∀ x, x ∈ get_list (queues q) s → id (qe_event x) ≠ i.
Proof.
  unfold mark_native_steer_pending, get_list. destruct (queues q !! s) as [l|] eqn:E; simpl.
  - destruct (position _ l ≫= _) as [[x r]|] eqn:Ep; [done|]. intros [= <-].
    split; [done|]. by apply take_out_None.
  - intros [= <-]. split; [done|]. set_solver.
Qed.

Lemma release_Some s i q :
  (∃ x, x ∈ get_list (withheld_native_steer q) s ∧ id (qe_event x) = i) →
  chan_sum (scope_channel_id s) (queues q) < MAX_PENDING_PER_CHANNEL →
  ∀ HO : HashOrder, ∃ x r, id (qe_event x) = i ∧ x :: r ≡ₚ get_list (withheld_native_steer q) s ∧
    queues (release_native_steer s i q) = <[s := x :: get_list (queues q) s]> (queues q) ∧
    withheld_native_steer (release_native_steer s i q) = put_list s r (withheld_native_steer q) ∧
    cancelled_batches (release_native_steer s i q) = cancelled_batches q.
Proof.
  intros (y & Hy & Hi) Hroom HO. unfold release_native_steer, get_list in *.
  destruct (withheld_native_steer q !! s) as [l|] eqn:E; simpl in *; [|set_solver].
  destruct (position _ l ≫= _) as [[x r]|] eqn:Ep.
  - apply take_out_Some in Ep as [Hx Hp]. exists x, r. split_and!; try done.
    simpl. rewrite (restore_room s [x] (queues q)); [done|simpl; lia].
  - by eapply take_out_None in Ep.
Qed.

Lemma release_None {HO : HashOrder} s i q :
  (∀ x, x ∈ get_list (withheld_native_steer q) s → id (qe_event x) ≠ i) → release_native_steer s i q = q.
Proof.
  intros Hn. unfold release_native_steer, get_list in *.
  destruct (withheld_native_steer q !! s) as [l|] eqn:E; simpl in *; [|done].
  destruct (position _ l ≫= _) as [[x r]|] eqn:Ep; [|done].
  apply take_out_Some in Ep as [Hi Hp]. destruct (Hn x); [|done]. rewrite <- Hp. by left.
Qed.

Lemma remove_event_from_spec s i m :
  ∀ s', get_list (remove_event_from s i m) s' =
    if decide (s = s') then List.filter (λ qe, negb (has_event_id i qe)) (get_list m s') else get_list m s'.
Proof.
  intros s'. unfold remove_event_from. destruct (m !! s) as [l|] eqn:E.
  - rewrite get_put_list. case_decide; [subst|done]. by rewrite (get_list_lookup _ _ _ E).
  - case_decide; [subst|done]. unfold get_list. by rewrite E.
Qed.

Lemma withhold_conserves s i q q1 :
  mark_native_steer_pending s i q = (true, q1) → pending_events q1 ≡ₚ pending_events q.
Proof.
  intros (x & r & _ & Hp & Hqs & Hws & Hcs)%withhold_Some. unfold pending_events. rewrite Hqs, Hws, Hcs.
  rewrite map_flat_put, map_flat_insert, (map_flat_delete (queues q) s), <- Hp.
  rewrite (map_flat_delete (withheld_native_steer q) s), !fmap_app. simpl. solve_Permutation.
Qed.

(** Withholding leaves room for the release. *)
Lemma withhold_room s i q q1 :
  queue_wf q → mark_native_steer_pending s i q = (true, q1) →
  chan_sum (scope_channel_id s) (queues q1) < MAX_PENDING_PER_CHANNEL.
Proof.
  intros Hq (x & r & _ & Hp & Hqs & _)%withhold_Some.
  pose proof (wf_capped _ Hq (scope_channel_id s)) as Hcap. rewrite (chan_sum_split _ _ s), <- Hp in Hcap.
  rewrite Hqs, chan_sum_put. rewrite (proj2 (in_channel_true _ _)) in * by done. simpl in Hcap. lia.
Qed.

(** *** Draining *)

Lemma drop_channel_in {A} c (m : gmap SessionScope A) s :
  scope_channel_id s = c → drop_channel c m !! s = None.
Proof. intros Hs. apply map_lookup_filter_None. naive_solver. Qed.

Lemma drop_channel_out {A} c (m : gmap SessionScope A) s :
  scope_channel_id s ≠ c → drop_channel c m !! s = m !! s.
Proof. intros Hs. apply option_eq; intros x. rewrite drop_channel_lookup. tauto. Qed.

Lemma bind_get_list {B} (f : QueuedEvent → B) m l :
  (∀ kv, kv ∈ l → m !! kv.1 = Some kv.2) → l.*1 ≫= (λ s, f <$> get_list m s) = f <$> concat l.*2.
Proof.
  induction l as [|[s x] l IH]; intros Hl; csimpl; [done|].
  rewrite fmap_app, IH by (intros; apply Hl; by right). f_equal.
  by rewrite (get_list_lookup _ _ x) by (apply (Hl (s, x)); by left).
Qed.

Lemma drained_ids {HO : HashOrder} c m :
  (List.filter (in_channel c) (hash_iter m).*1 ≫= λ scope, (λ e, id (qe_event e)) <$> get_list m scope) ≡ₚ
  (λ e, id (qe_event e)) <$> map_flat (filter (λ kv, scope_channel_id kv.1 = c) m).
Proof.
  assert (∀ l : list (SessionScope * list QueuedEvent),
    List.filter (in_channel c) l.*1 = (List.filter (λ kv, in_channel c kv.1) l).*1) as Hf.
  { induction l as [|kv l IH]; csimpl; [done|]. destruct (in_channel c kv.1); csimpl; by rewrite IH. }
  rewrite Hf, bind_get_list.
  - unfold map_flat.
    assert (List.filter (λ kv, in_channel c kv.1) (hash_iter m) ≡ₚ
            map_to_list (filter (λ kv, scope_channel_id kv.1 = c) m)) as ->; [|done].
    apply NoDup_Permutation.
    + apply NoDup_ListNoDup, List.NoDup_filter, NoDup_ListNoDup. rewrite hash_iter_perm. apply NoDup_map_to_list.
    + apply NoDup_map_to_list.
    + intros [s l]. rewrite elem_of_map_to_list, map_lookup_filter_Some, list_elem_of_In, filter_In, <- list_elem_of_In.
      by rewrite hash_iter_elem, in_channel_true.
  - intros [s l] [Hkv _]%list_elem_of_In%filter_In. by rewrite <- hash_iter_elem, list_elem_of_In.
Qed.

(** *** Expiry *)

Definition expired (now : Z) q s : Prop := ∃ d, in_flight_deadlines q !! s = Some d ∧ (d ≤ now)%Z.

Lemma elem_expired_scopes {HO : HashOrder} now q s : s ∈ expired_scopes now q ↔ expired now q s.
Proof.
  unfold expired_scopes, expired. rewrite list_elem_of_fmap. split.
  - intros ([s' d] & -> & [Hd Hle]%list_elem_of_In%filter_In). simpl in *. boolify.
    exists d. by rewrite <- hash_iter_elem, list_elem_of_In.
  - intros (d & Hd & Hle). exists (s, d). split; [done|]. apply list_elem_of_In, filter_In.
    rewrite <- list_elem_of_In, hash_iter_elem. split; [done|]. simpl. by apply Z.leb_le.
Qed.

(** Room for everything withheld to return. *)
Definition steer_room q : Prop :=
  ∀ c, chan_sum c (queues q) + chan_sum c (withheld_native_steer q) ≤ MAX_PENDING_PER_CHANNEL.

Lemma expire_scope_fields {HO : HashOrder} q s :
  in_flight_scopes (expire_scope q s) = in_flight_scopes q ∖ {[s]} ∧
  withheld_native_steer (expire_scope q s) = delete s (withheld_native_steer q) ∧
  cancelled_batches (expire_scope q s) = cancelled_batches q ∧
  retry_after (expire_scope q s) = retry_after q.
Proof.
  unfold expire_scope, recover_withheld_for_expired_scope. simpl.
  destruct (withheld_native_steer q !! s) eqn:E; simpl; [done|]. by rewrite delete_id.
Qed.

Lemma expire_scope_room {HO : HashOrder} q s :
  steer_room q → steer_room (expire_scope q s) ∧ pending_events (expire_scope q s) ≡ₚ pending_events q.
Proof.
  intros Hroom. unfold expire_scope, recover_withheld_for_expired_scope, steer_room, pending_events. simpl.
  destruct (withheld_native_steer q !! s) as [l|] eqn:E; simpl; [|done].
  rewrite push_front_rev_app, restore_room.
  2:{ specialize (Hroom (scope_channel_id s)). rewrite (chan_sum_split _ (withheld_native_steer q) s) in Hroom.
      rewrite (proj2 (in_channel_true _ _)), (get_list_lookup _ _ _ E) in Hroom by done. lia. }
  split.
  - intros c. specialize (Hroom c). rewrite (chan_sum_split _ (withheld_native_steer q) s) in Hroom.
    rewrite (get_list_lookup _ _ _ E), (chan_sum_split _ (queues q) s) in Hroom.
    rewrite chan_sum_insert, length_app. destruct (in_channel c s); lia.
  - rewrite map_flat_front, (map_flat_delete (withheld_native_steer q) s), (get_list_lookup _ _ _ E), !fmap_app.
    solve_Permutation.
Qed.

Lemma expire_fold {HO : HashOrder} l q :
  let q1 := foldl expire_scope q l in
  (∀ s, s ∈ in_flight_scopes q1 ↔ s ∈ in_flight_scopes q ∧ s ∉ l) ∧
  (∀ s, withheld_native_steer q1 !! s = if decide (s ∈ l) then None else withheld_native_steer q !! s) ∧
  cancelled_batches q1 = cancelled_batches q ∧ retry_after q1 = retry_after q ∧
  (steer_room q → pending_events q1 ≡ₚ pending_events q).
Proof.
  revert q; induction l as [|s0 l IH]; intros q; cbv zeta; simpl.
  - split_and!; try done. set_solver.
  - destruct (IH (expire_scope q s0)) as (H1 & H2 & H3 & H4 & H5).
    destruct (expire_scope_fields q s0) as (E1 & E2 & E3 & E4). split_and!.
    + intros s. rewrite H1, E1. set_solver.
    + intros s. rewrite H2, E2. destruct (decide (s = s0)) as [->|].
      * rewrite lookup_delete_eq. by repeat case_decide; set_solver.
      * rewrite lookup_delete_ne by done. repeat case_decide; set_solver.
    + by rewrite H3.
    + by rewrite H4.
    + intros [Hroom Hp]%(expire_scope_room _ s0). by rewrite H5.
Qed.

(** ** Claims *)

(** C1: In every reachable state of the ACP event queue each scope queue is non-empty, holds
    only events of its own scope and at most 500 of them, each channel holds at most 500 over
    all its scopes, the in-flight set and its deadline and batch-size maps have the same keys,
    cancelled batches and their reasons have the same keys, retry counts lie between 1 and the
    maximum, and only retried scopes are throttled. *)
Theorem queue_invariant mode q :
  reachable mode q →
  (∀ s l, queues q !! s = Some l → l ≠ [] ∧ length l ≤ MAX_PENDING_PER_SCOPE ∧ Forall (homed s) l) ∧
  (∀ (HO : HashOrder) c, channel_event_total c (queues q) ≤ MAX_PENDING_PER_CHANNEL) ∧
  (∀ s l, withheld_native_steer q !! s = Some l → l ≠ [] ∧ Forall (homed s) l) ∧
  dom (in_flight_deadlines q) = in_flight_scopes q ∧ dom (in_flight_batch_sizes q) = in_flight_scopes q ∧
  dom (cancel_reasons q) = dom (cancelled_batches q) ∧
  (∀ s l, cancelled_batches q !! s = Some l → l ≠ []) ∧
  (∀ s n, retry_counts q !! s = Some n → (1 ≤ n ≤ MAX_RETRIES)%Z) ∧
  dom (retry_after q) ⊆ dom (retry_counts q).
Proof.
  intros Hq%reachable_wf. split_and!; [|intros HO c|..]; try apply Hq.
  - intros s l Hl. destruct (wf_queues _ Hq s l Hl). split_and!; [done| |done].
    pose proof (capped_scope _ s (wf_capped _ Hq)) as Hs. by rewrite (get_list_lookup _ _ _ Hl) in Hs.
  - rewrite channel_event_total_sum. apply Hq.
Qed.

(** C9: A flush of a reachable queue takes a scope that is not in flight and marks it in flight
    with its deadline; the scope is ready and its head event is the oldest among the ready
    scopes, the batch is its first 50 events sorted by creation time together with the cancelled
    batch it merges, and only when no scope is ready is a cancelled batch flushed alone. *)
Theorem flush_next_dispatch {HO : HashOrder} mode now q b q' :
  reachable mode q → flush_next now q = (Some b, q') →
  let q1 := expire_in_flight now q in let s := fb_scope b in
  coherent_batch b ∧ (s ∉ in_flight_scopes q1) ∧
  in_flight_scopes q' = {[s]} ∪ in_flight_scopes q1 ∧
  in_flight_deadlines q' !! s = Some (now + in_flight_deadline q1)%Z ∧
  in_flight_batch_sizes q' !! s = Some (length (fb_events b)) ∧
  cancelled_batches q' !! s = None ∧
  ((∃ l, queues q1 !! s = Some l ∧ ready now q1 (s, l) = true ∧
      (∀ s' l', queues q1 !! s' = Some l' → ready now q1 (s', l') = true →
         (head_received_at l ≤ head_received_at l')%Z) ∧
      StronglySorted (key_le be_created_at) (fb_events b) ∧
      fb_events b ≡ₚ to_batch_event <$> take MAX_BATCH_EVENTS l ∧
      queues q' = put_list s (drop MAX_BATCH_EVENTS l) (queues q1) ∧
      fb_cancelled_events b = get_list (cancelled_batches q1) s ∧
      (fb_cancelled_events b ≠ [] → fb_cancel_reason b = cancel_reasons q1 !! s)) ∨
   ((∀ s' l', queues q1 !! s' = Some l' → ready now q1 (s', l') = false) ∧
      cancelled_batches q1 !! s = Some (fb_events b) ∧ fb_cancelled_events b = [] ∧
      queues q' = queues q1)).
Proof.
  intros Hq%reachable_wf Hf q1 s.
  assert (queue_wf q1) as Hq1 by by apply wf_expire.
  destruct (flush_marks _ _ _ _ Hf) as (Hfl & Hin & Hd & Hn & Hc & _). fold q1 s in Hfl, Hin, Hd, Hn, Hc.
  rewrite Hd, Hn, Hc, lookup_delete_eq, !lookup_insert_eq.
  apply flush_next_cases in Hf as [(s' & Hs & Hf)|(s' & Hs & Hcc & Hf)]; fold q1 in Hs, Hf.
  - apply selected_Some in Hs as (l & Hl & Hr & Hmin).
    destruct (flush_scope_spec now s' q1 b q') as (Hb & <- & (l' & Hl' & ?) & ?); [done|by exists l|done|].
    split_and!; try done. left. exists l. simplify_eq. naive_solver.
  - fold q1 in Hcc. apply cancelled_candidate_Some in Hcc as [_ Hsome].
    destruct (flush_cancelled_spec now s' q1 b q') as (Hb & <- & Hev & Hce & Hqs); [done..|].
    split_and!; try done. right. split_and!; try done.
    + intros s1 l1 Hl1. apply selected_None in Hs.
      destruct (ready now q1 (s1, l1)) eqn:Hr; [|done].
      assert (existsb (ready now q1) (hash_iter (queues q1)) = true); [|congruence].
      apply existsb_exists. exists (s1, l1). by rewrite <- list_elem_of_In, hash_iter_elem.
    + rewrite Hev. destruct Hsome as [l Hl]. unfold s. by rewrite Hl, (get_list_lookup _ _ _ Hl).
Qed.

(** Has_flushable_work answers true exactly when flush_next at the same time would return a
    batch. *)
Theorem flushable_iff_flush {HO : HashOrder} now q :
  (has_flushable_work now q).1 = true ↔ is_Some (flush_next now q).1.
Proof.
  unfold has_flushable_work, flush_next. fold (selected now (expire_in_flight now q)). cbv zeta.
  generalize (expire_in_flight now q) as q1. intros q1. simpl fst at 1. rewrite orb_true_iff.
  destruct (selected now q1) as [s|] eqn:Hs.
  - destruct (flush_scope _ _ _). simpl. split; [done|]. intros _. left.
    apply not_false_iff_true. rewrite <- selected_None. congruence.
  - apply selected_None in Hs. rewrite Hs. destruct (cancelled_candidate q1) as [s|] eqn:Hc.
    + destruct (flush_cancelled _ _ _). split; [done|]. intros _. right.
      apply not_false_iff_true. rewrite <- cancelled_candidate_None. congruence.
    + apply cancelled_candidate_None in Hc. rewrite Hc. simpl. split; [intuition congruence|by intros []].
Qed.

(** Flushing a batch moves events without losing or duplicating any, and handing the batch
    back with requeue_preserve_timestamps restores exactly the events that were pending before
    the flush, unless a batch flushed from cancelled work does not fit under the channel cap. *)
Theorem hold_round_trip {HO : HashOrder} mode now q b q' :
  reachable mode q → flush_next now q = (Some b, q') →
  let q1 := expire_in_flight now q in
  pending_events q1 ≡ₚ batch_contents b ++ pending_events q' ∧
  (is_Some (selected now q1) ∨
   channel_event_total (fb_channel_id b) (queues q') + length (fb_events b) ≤ MAX_PENDING_PER_CHANNEL →
   pending_events (requeue_preserve_timestamps b q') ≡ₚ pending_events q1).
Proof.
  intros Hq%reachable_wf Hf q1. pose proof (wf_expire now _ Hq) as Hq1. fold q1 in Hq1.
  pose proof (flush_conserves _ _ _ _ Hf) as Hp. fold q1 in Hp. split; [done|]. intros Hroom. rewrite Hp.
  rewrite channel_event_total_sum in Hroom.
  assert (fb_channel_id b = scope_channel_id (fb_scope b) ∧
          chan_sum (fb_channel_id b) (queues q') + length (fb_events b) ≤ MAX_PENDING_PER_CHANNEL)
    as [Hc Hsum]; [|by apply requeue_preserve_conserves].
  apply flush_next_cases in Hf as [(s & Hs & Hf)|(s & Hs & Hcc & Hf)]; fold q1 in Hs, Hf.
  - apply selected_Some in Hs as (l & Hl & _).
    destruct (flush_scope_spec now s _ b q' Hq1 ltac:(by exists l) Hf)
      as ((Hc & _) & <- & (l' & Hl' & _ & Hpl & Hqs) & _).
    split; [done|]. simplify_eq. by eapply drained_room.
  - fold q1 in Hcc. apply cancelled_candidate_Some in Hcc as [_ Hsome].
    destruct (flush_cancelled_spec now s _ b q' Hq1 Hsome Hf) as ((Hc & _) & _).
    split; [done|]. destruct Hroom as [[? Hn]|?]; [congruence|done].
Qed.

(** A failed batch is retried with exponential backoff: its retry count increases by one up
    to the maximum, the delay is min(base * 2^n, cap) scaled by a factor in [0.8, 0.9), its
    events return to the front of its scope within the scope cap, and after the last retry the
    batch is handed back as a dead letter with its retry state cleared; the cancelled work
    merged into the batch is not restored. *)
Theorem requeue_retry_policy {HO : HashOrder} mode now nanos b q r q' :
  reachable mode q → (0 ≤ nanos < NANOS_PER_SEC)%Z → requeue now nanos b q = (r, q') →
  let s := fb_scope b in
  let n := default 0%Z (retry_counts q !! s) in
  let backoff := Z.min (BASE_RETRY_DELAY_SECS * 2 ^ n) MAX_RETRY_DELAY_SECS in
  (0 ≤ n ≤ MAX_RETRIES)%Z ∧
  (n = MAX_RETRIES → r = Some b ∧ queues q' = queues q ∧
     retry_counts q' !! s = None ∧ retry_after q' !! s = None) ∧
  (n < MAX_RETRIES → r = None ∧ retry_counts q' !! s = Some (n + 1) ∧
     (∃ t, retry_after q' !! s = Some t ∧
        8 * (backoff * NANOS_PER_SEC) ≤ 10 * (t - now) < 9 * (backoff * NANOS_PER_SEC)) ∧
     get_list (queues q') s `suffix_of`
       take MAX_PENDING_PER_SCOPE
         ((to_queued_event (fb_channel_id b) s <$> fb_events b) ++ get_list (queues q) s))%Z ∧
  cancelled_batches q' = cancelled_batches q ∧ cancel_reasons q' = cancel_reasons q.
Proof.
  intros Hq%reachable_wf Hnanos Hr s n backoff. pose proof (retry_count_range q s Hq) as Hn. fold n in Hn.
  unfold requeue in Hr. fold s in Hr. fold n in Hr. cbv zeta in Hr.
  destruct (MAX_RETRIES <? n + 1)%Z eqn:E; boolify; injection Hr as <- <-; simpl.
  - split; [done|]. split; [by rewrite !lookup_delete_eq|]. split; [unfold MAX_RETRIES in *; lia|done].
  - split; [done|]. split; [unfold MAX_RETRIES in *; lia|]. split; [|done].
    intros Hlt. rewrite !lookup_insert_eq. split_and!; try done.
    + eexists; split; [done|]. rewrite capped_secs_backoff by (unfold MAX_RETRIES in *; lia).
      pose proof (retry_delay_bounds nanos n Hnanos Hn) as Hd. fold backoff in Hd |- *.
      cbv zeta in Hd. rewrite Z.add_simpl_l. exact Hd.
    + etrans; [apply enforce_suffix|]. unfold restore_front. fold s. rewrite push_front_rev_app.
      unfold get_list at 1. by rewrite lookup_insert_eq.
Qed.

(** Draining a channel returns the ids of all its queued events and removes every queue,
    throttle, retry count, cancelled batch and withheld event of the scopes of that channel,
    leaving other channels and the in-flight bookkeeping as they were. *)
Theorem drain_channel_clears {HO : HashOrder} c q ids q' :
  drain_channel c q = (ids, q') →
  ids ≡ₚ (λ e, id (qe_event e)) <$> map_flat (filter (λ kv, scope_channel_id kv.1 = c) (queues q)) ∧
  (∀ s, scope_channel_id s = c →
     queues q' !! s = None ∧ retry_after q' !! s = None ∧ retry_counts q' !! s = None ∧
     cancelled_batches q' !! s = None ∧ cancel_reasons q' !! s = None ∧ withheld_native_steer q' !! s = None) ∧
  (∀ s, scope_channel_id s ≠ c →
     queues q' !! s = queues q !! s ∧ retry_after q' !! s = retry_after q !! s ∧
     retry_counts q' !! s = retry_counts q !! s ∧ cancelled_batches q' !! s = cancelled_batches q !! s ∧
     cancel_reasons q' !! s = cancel_reasons q !! s ∧
     withheld_native_steer q' !! s = withheld_native_steer q !! s) ∧
  in_flight_scopes q' = in_flight_scopes q ∧ in_flight_deadlines q' = in_flight_deadlines q ∧
  in_flight_batch_sizes q' = in_flight_batch_sizes q.
Proof.
  unfold drain_channel. rewrite drain_queues. intros [= <- <-]. simpl. split; [apply drained_ids|].
  split; [|split; [|done]].
  - intros s Hs. split_and!; by apply drop_channel_in.
  - intros s Hs. split_and!; by apply drop_channel_out.
Qed.

(** Marking an event as natively steered finds it exactly when it is queued in the scope
    and moves that event alone out of the queue; releasing it puts it back at the front,
    removing it leaves no copy queued or withheld, and no other pending event changes. *)
Theorem native_steer_withholding {HO : HashOrder} mode s i q found q1 :
  reachable mode q → mark_native_steer_pending s i q = (found, q1) →
  (found = true ↔ ∃ x, x ∈ get_list (queues q) s ∧ id (qe_event x) = i) ∧
  pending_events q1 ≡ₚ pending_events q ∧
  (found = true →
     length (get_list (queues q1) s) + 1 = length (get_list (queues q) s) ∧
     pending_events (release_native_steer s i q1) ≡ₚ pending_events q ∧
     (∃ x, head (get_list (queues (release_native_steer s i q1)) s) = Some x ∧ id (qe_event x) = i)) ∧
  (∀ x, x ∈ get_list (queues (remove_event s i q1)) s ++ get_list (withheld_native_steer (remove_event s i q1)) s →
     id (qe_event x) ≠ i).
Proof.
  intros Hq%reachable_wf Hm. split_and!.
  - destruct found; split; try done.
    + intros _. apply withhold_Some in Hm as (x & r & Hi & Hp & _). exists x. split; [|done]. rewrite <- Hp. by left.
    + intros (x & Hx & Hi). apply withhold_false in Hm as [_ Hn]. by apply Hn in Hx.
  - destruct found; [by eapply withhold_conserves|]. by apply withhold_false in Hm as [-> _].
  - intros ->. pose proof (withhold_conserves _ _ _ _ Hm) as Hcons.
    pose proof (withhold_room _ _ _ _ Hq Hm) as Hroom.
    apply withhold_Some in Hm as (x & r & Hi & Hp & Hqs & Hws & _). split.
    + rewrite <- Hp, Hqs, get_put_list, decide_True by done. simpl. lia.
    + destruct (release_Some s i q1) with (HO := HO) as (y & r' & Hy & Hp' & Hqs' & Hws' & Hcs'); [|done|].
      { exists x. split; [|done]. rewrite Hws. unfold get_list at 1. rewrite lookup_insert_eq. set_solver. }
      split.
      * rewrite <- Hcons. unfold pending_events. rewrite Hqs', Hws', Hcs'.
        change (y :: get_list (queues q1) s) with ([y] ++ get_list (queues q1) s).
        rewrite map_flat_front, map_flat_put, (map_flat_delete (withheld_native_steer q1) s), <- Hp'.
        rewrite !fmap_app. simpl. solve_Permutation.
      * exists y. rewrite Hqs'. unfold get_list at 1. by rewrite lookup_insert_eq.
  - intros x. unfold remove_event; simpl. rewrite !remove_event_from_spec, !decide_True by done.
    rewrite elem_of_app, !list_elem_of_In, !filter_In. unfold has_event_id.
    intros [[_ Hx]|[_ Hx]]; by boolify.
Qed.

(** Expiry releases exactly the in-flight scopes whose deadline has passed, returns the
    withheld events of those scopes to their queues, and loses none of them while the channel
    cap is respected. *)
Theorem in_flight_expiry {HO : HashOrder} mode now q :
  reachable mode q →
  let q1 := expire_in_flight now q in
  (∀ s, s ∈ in_flight_scopes q1 ↔ ∃ d, in_flight_deadlines q !! s = Some d ∧ (now < d)%Z) ∧
  (∀ s, withheld_native_steer q1 !! s =
     match in_flight_deadlines q !! s with
     | Some d => if (d <=? now)%Z then None else withheld_native_steer q !! s
     | None => withheld_native_steer q !! s
     end) ∧
  ((∀ c, channel_event_total c (queues q) + channel_event_total c (withheld_native_steer q)
         ≤ MAX_PENDING_PER_CHANNEL) → pending_events q1 ≡ₚ pending_events q).
Proof.
  intros Hq%reachable_wf q1. destruct (expire_fold (expired_scopes now q) q) as (H1 & H2 & _ & _ & H5).
  fold (expire_in_flight now q) in H1, H2, H5. fold q1 in H1, H2, H5. split_and!.
  - intros s. rewrite H1, elem_expired_scopes, <- (wf_deadlines _ Hq), elem_of_dom. unfold expired. split.
    + intros [[d Hd] Hn]. exists d. split; [done|]. apply Z.nle_gt. naive_solver.
    + intros (d & Hd & Hlt). split; [by exists d|]. intros (d' & ? & ?). simplify_eq. lia.
  - intros s. rewrite H2. case_decide as Hs; rewrite elem_expired_scopes in Hs; unfold expired in Hs.
    + destruct Hs as (d & -> & Hle). by apply Z.leb_le in Hle as ->.
    + destruct (in_flight_deadlines q !! s) as [d|]; [|done]. case_match; [|done]. boolify.
      destruct Hs. by exists d.
  - intros Hroom. apply H5. intros c. by rewrite <- !channel_event_total_sum.
Qed.

End props.

(** ** Witnesses: one conversation and one thread of channel 7 *)

Definition demo_event (i : string) (at_ : Z) : Event (L := slice_lib) :=
  {| id := i; pubkey := "pk"; created_at := at_; kind := 9; tags := []; content := "hello" |}.
Definition demo_queued (s : SessionScope) (i : string) (at_ : Z) : QueuedEvent (L := slice_lib) :=
  {| qe_channel_id := scope_channel_id s; qe_scope := s; qe_event := demo_event i at_;
     qe_received_at := at_; qe_prompt_tag := "@mention" |}.

Definition demo_q1 : EventQueue (L := slice_lib) :=
  (push (HO := canonical_order) (demo_queued (Conversation 7) "a" 20) (queue_new DedupQueue)).1.
Definition demo_q2 : EventQueue (L := slice_lib) :=
  (push (HO := canonical_order) (demo_queued (Thread 7 "r") "b" 10) demo_q1).1.
Definition demo_q3 : EventQueue (L := slice_lib) := (flush_next (HO := canonical_order) 30 demo_q2).2.

Lemma demo_reachable1 : reachable DedupQueue demo_q1.
Proof. apply rtc_once. exact (step_push canonical_order _ (demo_queued (Conversation 7) "a" 20) eq_refl). Qed.
Lemma demo_reachable2 : reachable DedupQueue demo_q2.
Proof. eapply rtc_r; [apply demo_reachable1|].
  exact (step_push canonical_order _ (demo_queued (Thread 7 "r") "b" 10) eq_refl).
Qed.
Lemma demo_reachable3 : reachable DedupQueue demo_q3.
Proof. eapply rtc_r; [apply demo_reachable2|]. exact (step_flush canonical_order _ 30). Qed.

Definition demo_batch : FlushBatch (L := slice_lib) :=
  {| fb_channel_id := 7; fb_scope := Thread 7 "r";
     fb_events := [to_batch_event (demo_queued (Thread 7 "r") "b" 10)];
     fb_cancelled_events := []; fb_cancel_reason := None |}.

Lemma demo_flush : flush_next (HO := canonical_order) 30 demo_q2 = (Some demo_batch, demo_q3).
Proof. vm_compute. reflexivity. Qed.

Example queue_invariant_witness :
  pending_channels demo_q2 = 2 ∧
  (∀ s l, queues demo_q2 !! s = Some l → l ≠ [] ∧ length l ≤ MAX_PENDING_PER_SCOPE ∧ Forall (homed s) l).
Proof.
  split; [vm_compute; reflexivity|].
  exact (proj1 (queue_invariant DedupQueue demo_q2 demo_reachable2)).
Defined.

Example flush_next_dispatch_witness :
  fb_scope demo_batch = Thread 7 "r" ∧ in_flight_scopes demo_q3 = {[Thread 7 "r"]} ∪ in_flight_scopes demo_q2.
Proof.
  destruct (flush_next_dispatch (HO := canonical_order) DedupQueue 30 demo_q2 demo_batch demo_q3
              demo_reachable2 demo_flush) as (_ & _ & H & _).
  split; [reflexivity|]. exact H.
Defined.

Example hold_round_trip_witness :
  pending_events (requeue_preserve_timestamps (HO := canonical_order) demo_batch demo_q3)
    ≡ₚ pending_events (expire_in_flight (HO := canonical_order) 30 demo_q2).
Proof.
  destruct (hold_round_trip (HO := canonical_order) DedupQueue 30 demo_q2 demo_batch demo_q3
              demo_reachable2 demo_flush) as [_ H].
  apply H. left. exists (Thread 7 "r"). vm_compute. reflexivity.
Defined.

Example requeue_retry_policy_witness :
  retry_counts (requeue (HO := canonical_order) 100 500000000 demo_batch demo_q3).2 !! Thread 7 "r" = Some 1%Z.
Proof.
  destruct (requeue (HO := canonical_order) 100 500000000 demo_batch demo_q3) as [r q'] eqn:E.
  destruct (requeue_retry_policy (HO := canonical_order) DedupQueue 100 500000000 demo_batch demo_q3 r q'
              demo_reachable3 ltac:(vm_compute; split; congruence) E) as (_ & _ & H & _).
  apply H. vm_compute. reflexivity.
Defined.

Example drain_channel_clears_witness :
  queues (drain_channel (HO := canonical_order) 7 demo_q2).2 !! Conversation 7 = None.
Proof.
  destruct (drain_channel (HO := canonical_order) 7 demo_q2) as [ids q'] eqn:E.
  destruct (drain_channel_clears (HO := canonical_order) 7 demo_q2 ids q' E) as (_ & H & _).
  exact (proj1 (H (Conversation 7) eq_refl)).
Defined.

Example native_steer_withholding_witness :
  ∃ q1, mark_native_steer_pending (Conversation 7) "a" demo_q2 = (true, q1) ∧
        pending_events (release_native_steer (HO := canonical_order) (Conversation 7) "a" q1)
          ≡ₚ pending_events demo_q2.
Proof.
  exists (mark_native_steer_pending (Conversation 7) "a" demo_q2).2.
  assert (mark_native_steer_pending (Conversation 7) "a" demo_q2 =
          (true, (mark_native_steer_pending (Conversation 7) "a" demo_q2).2)) as E by (vm_compute; reflexivity).
  split; [exact E|].
  destruct (native_steer_withholding (HO := canonical_order) DedupQueue _ _ _ _ _ demo_reachable2 E)
    as (_ & _ & H & _).
  exact (proj1 (proj2 (H eq_refl))).
Defined.

Example in_flight_expiry_witness :
  (Thread 7 "r" ∈ in_flight_scopes (expire_in_flight (HO := canonical_order) 40 demo_q3)) ∧
  (Thread 7 "r" ∉ in_flight_scopes (expire_in_flight (HO := canonical_order) (2 ^ 60) demo_q3)).
Proof.
  split.
  - apply (proj1 (in_flight_expiry (HO := canonical_order) DedupQueue 40 demo_q3 demo_reachable3)).
    exists (30 + 7300 * 1000000000)%Z. split; vm_compute; reflexivity.
  - intros (d & Hd & Hlt)%(proj1 (in_flight_expiry (HO := canonical_order) DedupQueue (2 ^ 60) demo_q3 demo_reachable3)).
    assert (in_flight_deadlines demo_q3 !! Thread 7 "r" = Some (30 + 7300 * 1000000000)%Z) as Hd'
      by (vm_compute; reflexivity).
    rewrite Hd' in Hd. injection Hd as <-. vm_compute in Hlt. discriminate.
Defined.
