(* ===== verification/SubRegistry.v ===== *)
(** * The subscription registry ([crates/maju-relay/src/subscription.rs])

    The relay's live subscriptions and the five indexes that route a stored
    event to them.  A [DashMap] is a finite map; iteration over one goes
    through [HashOrder].  The operations are modelled as they run one at a
    time, except that [fan_out_candidates] takes the registry its candidates
    are read from as an argument of its own, because a snapshot can be older
    than the table it is checked against.  Metrics are omitted. *)
From S2P Require Import Prelude Nostr Kinds EventFilter.

Abbreviation ConnId := Uuid (only parsing).
Abbreviation SubId := string (only parsing).
Abbreviation CommunityId := Uuid (only parsing).

(** ** Data *)

Inductive SubscriptionScope :=
  | Global
  | Channels (channels : list Uuid).
#[export] Instance SubscriptionScope_eq_dec : EqDecision SubscriptionScope.
Proof. solve_decision. Defined.

Definition matches_channel (scope : SubscriptionScope) (channel : option Uuid) : bool :=
  match scope, channel with
  | Global, None => true
  | Channels channels, Some ch => bool_decide (ch ∈ channels)
  | _, _ => false
  end.

Definition channel_ids (scope : SubscriptionScope) : list Uuid :=
  match scope with Global => [] | Channels channels => channels end.

Definition is_global (scope : SubscriptionScope) : bool :=
  match scope with Global => true | Channels _ => false end.

Record IndexKey := { ik_channel_id : Uuid; ik_kind : Z }.
#[export] Instance IndexKey_eq_dec : EqDecision IndexKey.
Proof. solve_decision. Defined.
#[export] Program Instance IndexKey_countable : Countable IndexKey :=
  inj_countable' (λ k, (ik_channel_id k, ik_kind k)) (λ p, {| ik_channel_id := p.1; ik_kind := p.2 |}) _.
Next Obligation. by intros []. Qed.

Record GlobalPKindIndexKey := { gpk_community_id : CommunityId; gpk_kind : Z; gpk_p : string }.
#[export] Instance GlobalPKindIndexKey_eq_dec : EqDecision GlobalPKindIndexKey.
Proof. solve_decision. Defined.
#[export] Program Instance GlobalPKindIndexKey_countable : Countable GlobalPKindIndexKey :=
  inj_countable' (λ k, (gpk_community_id k, gpk_kind k, gpk_p k))
    (λ p, {| gpk_community_id := p.1.1; gpk_kind := p.1.2; gpk_p := p.2 |}) _.
Next Obligation. by intros []. Qed.

Record RemovedSubscription := { rs_community_id : CommunityId; rs_scope : SubscriptionScope }.

Record ChannelSubscriptionUpdate := { csu_sub_id : SubId; csu_removed : bool }.

Definition Entry : Type := (ConnId * SubId)%type.

(** [entry(k).or_default().push(e)]. *)
Definition index_push {K} `{Countable K} (k : K) (e : Entry) (m : gmap K (list Entry)) : gmap K (list Entry) :=
  <[k := get_list m k ++ [e]]> m.

(** [retain] of the other entries, and removal of a list that became empty. *)
Definition index_retain {K} `{Countable K} (k : K) (e : Entry) (m : gmap K (list Entry)) : gmap K (list Entry) :=
  match m !! k with
  | Some entries => put_list k (List.filter (λ x, negb (bool_decide (x = e))) entries) m
  | None => m
  end.

Section registry.
Context {L : NostrLib}.

Definition SubEntry : Type := (list Filter * CommunityId * SubscriptionScope)%type.

Record SubscriptionRegistry := {
  subs : gmap ConnId (gmap SubId SubEntry);
  channel_kind_index : gmap (CommunityId * IndexKey) (list Entry);
  channel_wildcard_index : gmap (CommunityId * Uuid) (list Entry);
  global_kind_index : gmap (CommunityId * Z) (list Entry);
  global_p_kind_index : gmap GlobalPKindIndexKey (list Entry);
  global_wildcard_index : gmap CommunityId (list Entry)
}.

Definition registry_new : SubscriptionRegistry :=
  {| subs := ∅; channel_kind_index := ∅; channel_wildcard_index := ∅; global_kind_index := ∅;
     global_p_kind_index := ∅; global_wildcard_index := ∅ |}.

(** Updates of one field. *)
Definition on_subs f (r : SubscriptionRegistry) : SubscriptionRegistry :=
  {| subs := f (subs r); channel_kind_index := channel_kind_index r;
     channel_wildcard_index := channel_wildcard_index r; global_kind_index := global_kind_index r;
     global_p_kind_index := global_p_kind_index r; global_wildcard_index := global_wildcard_index r |}.
Definition on_channel_kind f (r : SubscriptionRegistry) : SubscriptionRegistry :=
  {| subs := subs r; channel_kind_index := f (channel_kind_index r);
     channel_wildcard_index := channel_wildcard_index r; global_kind_index := global_kind_index r;
     global_p_kind_index := global_p_kind_index r; global_wildcard_index := global_wildcard_index r |}.
Definition on_channel_wildcard f (r : SubscriptionRegistry) : SubscriptionRegistry :=
  {| subs := subs r; channel_kind_index := channel_kind_index r;
     channel_wildcard_index := f (channel_wildcard_index r); global_kind_index := global_kind_index r;
     global_p_kind_index := global_p_kind_index r; global_wildcard_index := global_wildcard_index r |}.
Definition on_global_kind f (r : SubscriptionRegistry) : SubscriptionRegistry :=
  {| subs := subs r; channel_kind_index := channel_kind_index r;
     channel_wildcard_index := channel_wildcard_index r; global_kind_index := f (global_kind_index r);
     global_p_kind_index := global_p_kind_index r; global_wildcard_index := global_wildcard_index r |}.
Definition on_global_p_kind f (r : SubscriptionRegistry) : SubscriptionRegistry :=
  {| subs := subs r; channel_kind_index := channel_kind_index r;
     channel_wildcard_index := channel_wildcard_index r; global_kind_index := global_kind_index r;
     global_p_kind_index := f (global_p_kind_index r); global_wildcard_index := global_wildcard_index r |}.
Definition on_global_wildcard f (r : SubscriptionRegistry) : SubscriptionRegistry :=
  {| subs := subs r; channel_kind_index := channel_kind_index r;
     channel_wildcard_index := channel_wildcard_index r; global_kind_index := global_kind_index r;
     global_p_kind_index := global_p_kind_index r; global_wildcard_index := f (global_wildcard_index r) |}.

(** ** Index keys of a subscription *)

(** [None] as soon as one filter has no [kinds]. *)
Fixpoint collect_kinds (acc : list Z) (filters : list Filter) : option (list Z) :=
  match filters with
  | [] => Some acc
  | f :: rest =>
      match kinds f with
      | Some filter_kinds => collect_kinds (foldl push_unseen acc filter_kinds) rest
      | None => None
      end
  end.
Definition extract_kinds_from_filters (filters : list Filter) : option (list Z) := collect_kinds [] filters.

(** The double loop over one filter's kinds and [#p] values. *)
Definition p_kind_keys (community : CommunityId) (ks : list Z) (ps : list string) : list GlobalPKindIndexKey :=
  ks ≫= λ k, (λ p, {| gpk_community_id := community; gpk_kind := k; gpk_p := p |}) <$> ps.

Fixpoint collect_p_keys (community : CommunityId) (acc : list GlobalPKindIndexKey) (filters : list Filter) :
  option (list GlobalPKindIndexKey) :=
  match filters with
  | [] => Some acc
  | f :: rest =>
      match kinds f with
      | None => None
      | Some [] => collect_p_keys community acc rest
      | Some ks =>
          match generic_tags f !! "p" with
          | None | Some [] => None
          | Some ps => collect_p_keys community (foldl push_unseen acc (p_kind_keys community ks ps)) rest
          end
      end
  end.
Definition extract_global_p_kind_index_keys (community : CommunityId) (filters : list Filter) :
  option (list GlobalPKindIndexKey) := collect_p_keys community [] filters.

Definition event_p_tag_values (ev : StoredEvent) : list string :=
  foldl push_unseen []
    (omap tag_content (List.filter (λ t, (tag_kind t =? "p")%string) (tags (event ev)))).

(** ** Registration and removal *)

(** The indexing part of [register_with_scope]. *)
Definition add_to_index (community : CommunityId) (conn_id : ConnId) (sub_id : SubId) (filters : list Filter)
  (scope : SubscriptionScope) (r : SubscriptionRegistry) : SubscriptionRegistry :=
  let e := (conn_id, sub_id) in
  match scope with
  | Channels chs =>
      foldl (λ r ch_id,
        match extract_kinds_from_filters filters with
        | None => on_channel_wildcard (index_push (community, ch_id) e) r
        | Some [] => r
        | Some ks =>
            foldl (λ r k,
              on_channel_kind (index_push (community, {| ik_channel_id := ch_id; ik_kind := k |}) e) r) r ks
        end) r chs
  | Global =>
      match extract_global_p_kind_index_keys community filters with
      | Some keys => foldl (λ r key, on_global_p_kind (index_push key e) r) r keys
      | None =>
          match extract_kinds_from_filters filters with
          | None => on_global_wildcard (index_push community e) r
          | Some [] => r
          | Some ks => foldl (λ r k, on_global_kind (index_push (community, k) e) r) r ks
          end
      end
  end.

Definition remove_from_index (conn_id : ConnId) (sub_id : SubId) (filters : list Filter)
  (community : CommunityId) (scope : SubscriptionScope) (r : SubscriptionRegistry) : SubscriptionRegistry :=
  let e := (conn_id, sub_id) in
  match scope with
  | Channels chs =>
      foldl (λ r ch_id,
        match extract_kinds_from_filters filters with
        | None => on_channel_wildcard (index_retain (community, ch_id) e) r
        | Some [] => r
        | Some ks =>
            foldl (λ r k,
              on_channel_kind (index_retain (community, {| ik_channel_id := ch_id; ik_kind := k |}) e) r) r ks
        end) r chs
  | Global =>
      match extract_global_p_kind_index_keys community filters with
      | Some keys => foldl (λ r key, on_global_p_kind (index_retain key e) r) r keys
      | None =>
          match extract_kinds_from_filters filters with
          | None => on_global_wildcard (index_retain community e) r
          | Some [] => r
          | Some ks => foldl (λ r k, on_global_kind (index_retain (community, k) e) r) r ks
          end
      end
  end.

(** [subs.get(&conn_id).and_then(|m| m.get(sub_id))]. *)
Definition sub_at (r : SubscriptionRegistry) (conn_id : ConnId) (sub_id : SubId) : option SubEntry :=
  subs r !! conn_id ≫= λ m, m !! sub_id.

(** [get_mut(&conn_id)] of an existing connection, then an update of its map. *)
Definition update_conn (conn_id : ConnId) (f : gmap SubId SubEntry → gmap SubId SubEntry)
  (r : SubscriptionRegistry) : SubscriptionRegistry := on_subs (alter f conn_id) r.

Definition remove_subscription (conn_id : ConnId) (sub_id : SubId) (r : SubscriptionRegistry) :
  option RemovedSubscription * SubscriptionRegistry :=
  match sub_at r conn_id sub_id with
  | None => (None, r)
  | Some (filters, community, scope) =>
      let r := update_conn conn_id (delete sub_id) r in
      (Some {| rs_community_id := community; rs_scope := scope |},
       remove_from_index conn_id sub_id filters community scope r)
  end.

Definition register_with_scope (community : CommunityId) (conn_id : ConnId) (sub_id : SubId)
  (filters : list Filter) (scope : SubscriptionScope) (r : SubscriptionRegistry) :
  option RemovedSubscription * SubscriptionRegistry :=
  let '(removed, r) := remove_subscription conn_id sub_id r in
  let r := on_subs (λ m, <[conn_id := <[sub_id := (filters, community, scope)]> (default ∅ (m !! conn_id))]> m) r in
  (removed, add_to_index community conn_id sub_id filters scope r).

Definition register_scoped (community : CommunityId) (conn_id : ConnId) (sub_id : SubId)
  (filters : list Filter) (channel : option Uuid) (r : SubscriptionRegistry) :=
  let scope := match channel with Some ch => Channels [ch] | None => Global end in
  register_with_scope community conn_id sub_id filters scope r.

Definition register_channels_scoped (community : CommunityId) (conn_id : ConnId) (sub_id : SubId)
  (filters : list Filter) (chs : list Uuid) (r : SubscriptionRegistry) :=
  register_with_scope community conn_id sub_id filters (Channels chs) r.

Section with_order.
Context {HO : HashOrder}.

Definition remove_entry (conn_id : ConnId) (r : SubscriptionRegistry) (kv : SubId * SubEntry) :
  SubscriptionRegistry :=
  let '(sub_id, (filters, community, scope)) := kv in
  remove_from_index conn_id sub_id filters community scope r.

Definition remove_connection (conn_id : ConnId) (r : SubscriptionRegistry) :
  list RemovedSubscription * SubscriptionRegistry :=
  match subs r !! conn_id with
  | None => ([], r)
  | Some conn_subs =>
      let entries := hash_iter conn_subs in
      ((λ kv, {| rs_community_id := kv.2.1.2; rs_scope := kv.2.2 |}) <$> entries,
       foldl (remove_entry conn_id) (on_subs (delete conn_id) r) entries)
  end.

(** The ids snapshotted before the loop. *)
Definition revoked_sub_ids (community : CommunityId) (conn_id : ConnId) (channel : Uuid)
  (r : SubscriptionRegistry) : list SubId :=
  match subs r !! conn_id with
  | None => []
  | Some conn_subs =>
      fst <$> List.filter (λ kv : SubId * SubEntry, bool_decide (kv.2.1.2 = community)
                              && bool_decide (channel ∈ channel_ids kv.2.2)) (hash_iter conn_subs)
  end.

(** One iteration of the loop ([break] and [continue] leave the state). *)
Definition revoke_one (community : CommunityId) (conn_id : ConnId) (channel : Uuid)
  (acc : list ChannelSubscriptionUpdate * SubscriptionRegistry) (sub_id : SubId) :
  list ChannelSubscriptionUpdate * SubscriptionRegistry :=
  let '(updates, r) := acc in
  match sub_at r conn_id sub_id with
  | Some (filters, c, Channels chs) =>
      let chs := List.filter (λ ch, negb (bool_decide (ch = channel))) chs in
      let removed := bool_decide (chs = []) in
      let r := update_conn conn_id (<[sub_id := (filters, c, Channels chs)]>) r in
      let r := remove_from_index conn_id sub_id filters community (Channels [channel]) r in
      let r := if removed then update_conn conn_id (delete sub_id) r else r in
      (updates ++ [{| csu_sub_id := sub_id; csu_removed := removed |}], r)
  | _ => acc
  end.

Definition remove_channel_subscriptions_scoped (community : CommunityId) (conn_id : ConnId) (channel : Uuid)
  (r : SubscriptionRegistry) : list ChannelSubscriptionUpdate * SubscriptionRegistry :=
  foldl (revoke_one community conn_id channel) ([], r) (revoked_sub_ids community conn_id channel r).

(** ** Queries *)

(** The [HashSet] of connections; the [Vec] returned lists it in any order. *)
Definition channel_subscriber_conns_scoped (community : CommunityId) (channel : Uuid)
  (r : SubscriptionRegistry) : gset ConnId :=
  let by_kind := List.filter (λ kv : (CommunityId * IndexKey) * list Entry,
                   bool_decide (kv.1.1 = community) && bool_decide (ik_channel_id kv.1.2 = channel))
                   (hash_iter (channel_kind_index r)) in
  list_to_set ((by_kind ≫= λ kv, kv.2.*1) ++ (get_list (channel_wildcard_index r) (community, channel)).*1).

Definition push_match (r : SubscriptionRegistry) (community : CommunityId) (ev : StoredEvent)
  (results : list Entry) (e : Entry) : list Entry :=
  match sub_at r e.1 e.2 with
  | Some (filters, sub_community, scope) =>
      if bool_decide (sub_community = community) && matches_channel scope (channel_id ev)
         && filters_match filters ev
      then push_unseen results e
      else results
  | None => results
  end.

(** The candidates [fan_out_scoped] reads from the indexes, in order. *)
Definition fan_out_candidates (community : CommunityId) (ev : StoredEvent) (r : SubscriptionRegistry) :
  list Entry :=
  let k := kind (event ev) in
  match channel_id ev with
  | Some ch =>
      get_list (channel_kind_index r) (community, {| ik_channel_id := ch; ik_kind := k |})
      ++ get_list (channel_wildcard_index r) (community, ch)
  | None =>
      (event_p_tag_values ev ≫= λ p,
         get_list (global_p_kind_index r) {| gpk_community_id := community; gpk_kind := k; gpk_p := p |})
      ++ get_list (global_kind_index r) (community, k)
      ++ get_list (global_wildcard_index r) community
  end.

Definition fan_out_scoped (community : CommunityId) (ev : StoredEvent) (r : SubscriptionRegistry) : list Entry :=
  foldl (push_match r community ev) [] (fan_out_candidates community ev r).

Definition get_filters (conn_id : ConnId) (sub_id : SubId) (r : SubscriptionRegistry) : option (list Filter) :=
  (λ e : SubEntry, e.1.1) <$> sub_at r conn_id sub_id.

Definition total_subscriptions (r : SubscriptionRegistry) : nat :=
  sum_list_with (λ kv, size kv.2) (hash_iter (subs r)).

Definition total_connections (r : SubscriptionRegistry) : nat := size (subs r).

(** [*counts.entry(community).or_default() += 1] over all subscriptions. *)
Definition per_community_subscriptions (r : SubscriptionRegistry) : gmap CommunityId nat :=
  foldl (λ counts (e : SubEntry), <[e.1.2 := S (default 0 (counts !! e.1.2))]> counts) ∅
    (hash_iter (subs r) ≫= λ kv, (hash_iter kv.2).*2).

End with_order.

(** ** The registry as a transition system *)

Inductive registry_step : SubscriptionRegistry → SubscriptionRegistry → Prop :=
  | rstep_register r community conn sub filters scope :
      registry_step r (register_with_scope community conn sub filters scope r).2
  | rstep_remove r conn sub : registry_step r (remove_subscription conn sub r).2
  | rstep_remove_connection (HO : HashOrder) r conn : registry_step r (remove_connection conn r).2
  | rstep_revoke (HO : HashOrder) r community conn channel :
      registry_step r (remove_channel_subscriptions_scoped community conn channel r).2.

Definition registry_reachable : SubscriptionRegistry → Prop := rtc registry_step registry_new.

End registry.
