(* ===== verification/SubRegistryProps.v ===== *)
(** * Properties of the subscription registry

    The five indexes are seen as one table of slots; the invariant says that a
    slot holds exactly the live subscriptions that route through it, and
    [fan_out_scoped] is proved equal to a scan of all subscriptions. *)
From S2P Require Import Prelude Nostr Kinds EventFilter SubRegistry.

Section props.
Context {L : NostrLib}.
Implicit Types (r : SubscriptionRegistry) (e : Entry).

(** ** Slots *)

Inductive slot :=
  | SChanKind (k : CommunityId * IndexKey)
  | SChanAny (k : CommunityId * Uuid)
  | SGlobKind (k : CommunityId * Z)
  | SGlobPKind (k : GlobalPKindIndexKey)
  | SGlobAny (k : CommunityId).
Local Instance slot_eq_dec : EqDecision slot.
Proof. solve_decision. Defined.

Definition slot_lookup r (s : slot) : option (list Entry) :=
  match s with
  | SChanKind k => channel_kind_index r !! k
  | SChanAny k => channel_wildcard_index r !! k
  | SGlobKind k => global_kind_index r !! k
  | SGlobPKind k => global_p_kind_index r !! k
  | SGlobAny k => global_wildcard_index r !! k
  end.
Definition entries r (s : slot) : list Entry := default [] (slot_lookup r s).

Definition slot_push (s : slot) e r : SubscriptionRegistry :=
  match s with
  | SChanKind k => on_channel_kind (index_push k e) r
  | SChanAny k => on_channel_wildcard (index_push k e) r
  | SGlobKind k => on_global_kind (index_push k e) r
  | SGlobPKind k => on_global_p_kind (index_push k e) r
  | SGlobAny k => on_global_wildcard (index_push k e) r
  end.
Definition slot_retain (s : slot) e r : SubscriptionRegistry :=
  match s with
  | SChanKind k => on_channel_kind (index_retain k e) r
  | SChanAny k => on_channel_wildcard (index_retain k e) r
  | SGlobKind k => on_global_kind (index_retain k e) r
  | SGlobPKind k => on_global_p_kind (index_retain k e) r
  | SGlobAny k => on_global_wildcard (index_retain k e) r
  end.

(** The slots a subscription is filed under. *)
Definition keys_of (community : CommunityId) (filters : list Filter) (scope : SubscriptionScope) : list slot :=
  match scope with
  | Channels chs =>
      chs ≫= λ ch,
        match extract_kinds_from_filters filters with
        | None => [SChanAny (community, ch)]
        | Some ks => (λ k, SChanKind (community, {| ik_channel_id := ch; ik_kind := k |})) <$> ks
        end
  | Global =>
      match extract_global_p_kind_index_keys community filters with
      | Some keys => SGlobPKind <$> keys
      | None =>
          match extract_kinds_from_filters filters with
          | None => [SGlobAny community]
          | Some ks => (λ k, SGlobKind (community, k)) <$> ks
          end
      end
  end.

Lemma foldl_map {A B C} (f : A → B → A) (g : C → B) l a : foldl f a (g <$> l) = foldl (λ a c, f a (g c)) a l.
Proof. revert a; induction l; intros a0; csimpl; auto. Qed.

Lemma foldl_bind {A B C} (f : A → B → A) (g : C → list B) l a :
  foldl f a (l ≫= g) = foldl (λ a c, foldl f a (g c)) a l.
Proof. revert a; induction l as [|c l IH]; intros a; csimpl; [done|]. by rewrite foldl_app. Qed.

Lemma foldl_ext {A B} (f g : A → B → A) l a : (∀ a b, f a b = g a b) → foldl f a l = foldl g a l.
Proof. intros Hfg. revert a; induction l; intros a0; simpl; [done|]. by rewrite Hfg. Qed.

Lemma add_to_index_slots community conn sub filters scope r :
  add_to_index community conn sub filters scope r =
  foldl (λ r s, slot_push s (conn, sub) r) r (keys_of community filters scope).
Proof.
  unfold add_to_index, keys_of. destruct scope as [|chs].
  - destruct (extract_global_p_kind_index_keys _ _); [by rewrite foldl_map|].
    destruct (extract_kinds_from_filters _) as [[]|]; rewrite ?foldl_map; done.
  - rewrite foldl_bind. apply foldl_ext. intros a ch.
    destruct (extract_kinds_from_filters _) as [[]|]; rewrite ?foldl_map; done.
Qed.

Lemma remove_from_index_slots conn sub filters community scope r :
  remove_from_index conn sub filters community scope r =
  foldl (λ r s, slot_retain s (conn, sub) r) r (keys_of community filters scope).
Proof.
  unfold remove_from_index, keys_of. destruct scope as [|chs].
  - destruct (extract_global_p_kind_index_keys _ _); [by rewrite foldl_map|].
    destruct (extract_kinds_from_filters _) as [[]|]; rewrite ?foldl_map; done.
  - rewrite foldl_bind. apply foldl_ext. intros a ch.
    destruct (extract_kinds_from_filters _) as [[]|]; rewrite ?foldl_map; done.
Qed.

Lemma lookup_index_push {K} `{Countable K} (k k' : K) e m :
  index_push k e m !! k' = if decide (k = k') then Some (get_list m k ++ [e]) else m !! k'.
Proof.
  unfold index_push. case_decide; subst; by rewrite ?lookup_insert_eq, ?lookup_insert_ne.
Qed.

Lemma lookup_index_retain {K} `{Countable K} (k k' : K) e m :
  index_retain k e m !! k' =
    if decide (k = k') then
      (match List.filter (λ x, negb (bool_decide (x = e))) (get_list m k) with [] => None | l => Some l end)
    else m !! k'.
Proof.
  unfold index_retain, get_list. destruct (m !! k) as [l|] eqn:E; simpl.
  - rewrite lookup_put_list. case_decide; [subst|done]. by destruct (List.filter _ _).
  - case_decide; [subst; by rewrite E|done].
Qed.

Lemma slot_lookup_push s e r s' :
  slot_lookup (slot_push s e r) s' =
    if decide (s = s') then Some (entries r s ++ [e]) else slot_lookup r s'.
Proof.
  unfold entries. destruct s, s'; simpl; rewrite ?lookup_index_push;
    repeat case_decide; simplify_eq; done.
Qed.

Lemma slot_lookup_retain s e r s' :
  slot_lookup (slot_retain s e r) s' =
    if decide (s = s') then
      (match List.filter (λ x, negb (bool_decide (x = e))) (entries r s) with [] => None | l => Some l end)
    else slot_lookup r s'.
Proof.
  unfold entries. destruct s, s'; simpl; rewrite ?lookup_index_retain;
    repeat case_decide; simplify_eq; done.
Qed.

Lemma elem_of_retained e x l : x ∈ List.filter (λ x, negb (bool_decide (x = e))) l ↔ x ∈ l ∧ x ≠ e.
Proof. by rewrite elem_of_List_filter, negb_true_iff, bool_decide_eq_false. Qed.

Lemma entries_push s e r s' x :
  x ∈ entries (slot_push s e r) s' ↔ x ∈ entries r s' ∨ (s = s' ∧ x = e).
Proof.
  unfold entries at 1. rewrite slot_lookup_push. case_decide; subst; simpl.
  - rewrite elem_of_app, list_elem_of_singleton. naive_solver.
  - unfold entries. naive_solver.
Qed.

Lemma entries_retain s e r s' x :
  x ∈ entries (slot_retain s e r) s' ↔ x ∈ entries r s' ∧ ¬ (s = s' ∧ x = e).
Proof.
  unfold entries at 1. rewrite slot_lookup_retain. case_decide; subst; simpl.
  - transitivity (x ∈ List.filter (λ x, negb (bool_decide (x = e))) (entries r s')); [by destruct (List.filter _ _)|].
    rewrite elem_of_retained. naive_solver.
  - unfold entries. naive_solver.
Qed.

Lemma entries_add ss e r s x :
  x ∈ entries (foldl (λ r s, slot_push s e r) r ss) s ↔ x ∈ entries r s ∨ (s ∈ ss ∧ x = e).
Proof.
  revert r; induction ss as [|s0 ss IH]; intros r; simpl; [set_solver|].
  rewrite IH, entries_push, elem_of_cons. naive_solver.
Qed.

Lemma entries_drop ss e r s x :
  x ∈ entries (foldl (λ r s, slot_retain s e r) r ss) s ↔ x ∈ entries r s ∧ ¬ (s ∈ ss ∧ x = e).
Proof.
  revert r; induction ss as [|s0 ss IH]; intros r; simpl; [set_solver|].
  rewrite IH, entries_retain, elem_of_cons. naive_solver.
Qed.

(** No slot keeps an empty list. *)
Definition no_empty_slot r : Prop := ∀ s, slot_lookup r s ≠ Some [].

Lemma no_empty_push s e r : no_empty_slot r → no_empty_slot (slot_push s e r).
Proof.
  intros Hr s'. rewrite slot_lookup_push. case_decide; [|apply Hr]. by destruct (entries r s).
Qed.
Lemma no_empty_retain s e r : no_empty_slot r → no_empty_slot (slot_retain s e r).
Proof.
  intros Hr s'. rewrite slot_lookup_retain. case_decide; [|apply Hr]. by destruct (List.filter _ _).
Qed.
Lemma no_empty_fold (f : slot → SubscriptionRegistry → SubscriptionRegistry) ss r :
  (∀ s r, no_empty_slot r → no_empty_slot (f s r)) → no_empty_slot r →
  no_empty_slot (foldl (λ r s, f s r) r ss).
Proof. intros Hf. revert r; induction ss; intros r Hr; simpl; auto. Qed.

Lemma subs_fold (f : slot → SubscriptionRegistry → SubscriptionRegistry) ss r :
  (∀ s r, subs (f s r) = subs r) → subs (foldl (λ r s, f s r) r ss) = subs r.
Proof. intros Hf. revert r; induction ss; intros r; simpl; [done|]. by rewrite IHss, Hf. Qed.

Lemma subs_push s e r : subs (slot_push s e r) = subs r.
Proof. by destruct s. Qed.
Lemma subs_retain s e r : subs (slot_retain s e r) = subs r.
Proof. by destruct s. Qed.

(** ** The effect of the index operations *)

Lemma remove_from_index_spec conn sub filters community scope r :
  let r' := remove_from_index conn sub filters community scope r in
  subs r' = subs r ∧ (no_empty_slot r → no_empty_slot r') ∧
  ∀ s x, x ∈ entries r' s ↔ x ∈ entries r s ∧ ¬ (s ∈ keys_of community filters scope ∧ x = (conn, sub)).
Proof.
  cbv zeta. rewrite remove_from_index_slots. split_and!.
  - apply (subs_fold (λ s r, slot_retain s (conn, sub) r)). intros; apply subs_retain.
  - intros Hr. apply (no_empty_fold (λ s r, slot_retain s (conn, sub) r)); [|done].
    intros; by apply no_empty_retain.
  - intros s x. apply entries_drop.
Qed.

Lemma add_to_index_spec conn sub filters community scope r :
  let r' := add_to_index community conn sub filters scope r in
  subs r' = subs r ∧ (no_empty_slot r → no_empty_slot r') ∧
  ∀ s x, x ∈ entries r' s ↔ x ∈ entries r s ∨ (s ∈ keys_of community filters scope ∧ x = (conn, sub)).
Proof.
  cbv zeta. rewrite add_to_index_slots. split_and!.
  - apply (subs_fold (λ s r, slot_push s (conn, sub) r)). intros; apply subs_push.
  - intros Hr. apply (no_empty_fold (λ s r, slot_push s (conn, sub) r)); [|done].
    intros; by apply no_empty_push.
  - intros s x. apply entries_add.
Qed.

Lemma sub_at_update conn f r conn' sub' :
  sub_at (update_conn conn f r) conn' sub' =
    if decide (conn = conn') then subs r !! conn' ≫= λ m, f m !! sub' else sub_at r conn' sub'.
Proof.
  unfold sub_at, update_conn; simpl. case_decide; subst.
  - rewrite lookup_alter_eq. by destruct (subs r !! conn').
  - by rewrite lookup_alter_ne.
Qed.

Lemma sub_at_delete conn sub r conn' sub' :
  sub_at (update_conn conn (delete sub) r) conn' sub' =
    if decide ((conn, sub) = (conn', sub')) then None else sub_at r conn' sub'.
Proof.
  rewrite sub_at_update. unfold sub_at. repeat case_decide; simplify_eq; try done.
  - destruct (subs r !! conn'); simpl; [by rewrite lookup_delete_eq|done].
  - destruct (subs r !! conn'); simpl; [|done]. rewrite lookup_delete_ne; congruence.
Qed.

Lemma entries_on_subs f r s : entries (on_subs f r) s = entries r s.
Proof. by destruct s. Qed.
Lemma no_empty_on_subs f r : no_empty_slot (on_subs f r) ↔ no_empty_slot r.
Proof. unfold no_empty_slot. split; intros H s; specialize (H s); by destruct s. Qed.

(** ** The invariant *)

Definition routed r (s : slot) e : Prop :=
  ∃ filters community scope, sub_at r e.1 e.2 = Some (filters, community, scope) ∧
    s ∈ keys_of community filters scope.

Record registry_ok r : Prop := {
  ok_exact : ∀ s e, e ∈ entries r s ↔ routed r s e;
  ok_no_empty : no_empty_slot r
}.

Lemma registry_ok_new : registry_ok registry_new.
Proof.
  split.
  - intros s e. unfold routed, sub_at. simpl. split; [|naive_solver].
    destruct s; unfold entries; simpl; set_solver.
  - intros s. by destruct s.
Qed.

(** [registry_ok] through a change of one subscription entry. *)
Lemma registry_ok_change r r' conn sub :
  registry_ok r → no_empty_slot r' →
  (∀ conn' sub', (conn', sub') ≠ (conn, sub) → sub_at r' conn' sub' = sub_at r conn' sub') →
  (∀ s e, e ≠ (conn, sub) → e ∈ entries r' s ↔ e ∈ entries r s) →
  (∀ s, (conn, sub) ∈ entries r' s ↔ routed r' s (conn, sub)) →
  registry_ok r'.
Proof.
  intros Hr Hne Hsub Hother Hself. split; [|done]. intros s e.
  destruct (decide (e = (conn, sub))) as [->|He]; [apply Hself|].
  rewrite Hother, ok_exact by done. unfold routed. destruct e as [c s']; simpl. by rewrite Hsub.
Qed.

Lemma registry_ok_remove conn sub r : registry_ok r → registry_ok (remove_subscription conn sub r).2.
Proof.
  intros Hr. unfold remove_subscription. destruct (sub_at r conn sub) as [[[fs c] sc]|] eqn:E; [|done]. simpl.
  set (r1 := update_conn conn (delete sub) r).
  destruct (remove_from_index_spec conn sub fs c sc r1) as (Hs & Hne & Hent).
  set (r' := remove_from_index _ _ _ _ _ _) in *.
  assert (∀ conn' sub', sub_at r' conn' sub' = sub_at r1 conn' sub') as Hat by (unfold sub_at; by rewrite Hs).
  apply (registry_ok_change r r' conn sub); [done| | | |].
  - apply Hne, no_empty_on_subs, Hr.
  - intros. rewrite Hat. unfold r1. rewrite sub_at_delete, decide_False by congruence. done.
  - intros s e He. rewrite Hent. unfold r1, update_conn. rewrite entries_on_subs. naive_solver.
  - intros s. rewrite Hent. unfold r1 at 1, update_conn. rewrite entries_on_subs, (ok_exact _ Hr). split.
    + intros [(? & ? & ? & Hf & Hin) Hn]; simpl in *. simplify_eq. naive_solver.
    + intros (? & ? & ? & Hf & Hin). simpl in *. rewrite Hat in Hf. unfold r1 in Hf.
      by rewrite sub_at_delete, decide_True in Hf.
Qed.

Lemma remove_subscription_at conn sub r conn' sub' :
  sub_at (remove_subscription conn sub r).2 conn' sub' =
    if decide ((conn, sub) = (conn', sub')) then None else sub_at r conn' sub'.
Proof.
  unfold remove_subscription. destruct (sub_at r conn sub) as [[[fs c] sc]|] eqn:E; simpl.
  - destruct (remove_from_index_spec conn sub fs c sc (update_conn conn (delete sub) r)) as (Hs & _).
    rewrite <- sub_at_delete. unfold sub_at. by rewrite Hs.
  - case_decide; naive_solver.
Qed.

Definition insert_sub (conn : ConnId) (sub : SubId) (entry : SubEntry) r : SubscriptionRegistry :=
  on_subs (λ m, <[conn := <[sub := entry]> (default ∅ (m !! conn))]> m) r.

Lemma sub_at_insert conn sub entry r conn' sub' :
  sub_at (insert_sub conn sub entry r) conn' sub' =
    if decide ((conn, sub) = (conn', sub')) then Some entry else sub_at r conn' sub'.
Proof.
  unfold sub_at, insert_sub; simpl. destruct (decide (conn = conn')) as [->|].
  - rewrite lookup_insert_eq; simpl. case_decide; simplify_eq; [by rewrite lookup_insert_eq|].
    rewrite lookup_insert_ne by congruence. by destruct (subs r !! conn').
  - rewrite lookup_insert_ne by done. rewrite decide_False by congruence. done.
Qed.

Lemma register_eq community conn sub filters scope r :
  (register_with_scope community conn sub filters scope r).2 =
  add_to_index community conn sub filters scope
    (insert_sub conn sub (filters, community, scope) (remove_subscription conn sub r).2).
Proof. unfold register_with_scope. by destruct (remove_subscription conn sub r). Qed.

Lemma register_at community conn sub filters scope r conn' sub' :
  sub_at (register_with_scope community conn sub filters scope r).2 conn' sub' =
    if decide ((conn, sub) = (conn', sub')) then Some (filters, community, scope) else sub_at r conn' sub'.
Proof.
  rewrite register_eq. set (r0 := insert_sub _ _ _ _).
  destruct (add_to_index_spec conn sub filters community scope r0) as (Hs & _).
  transitivity (sub_at r0 conn' sub'); [unfold sub_at; by rewrite Hs|].
  unfold r0. rewrite sub_at_insert, remove_subscription_at. by case_decide.
Qed.

Lemma registry_ok_register community conn sub filters scope r :
  registry_ok r → registry_ok (register_with_scope community conn sub filters scope r).2.
Proof.
  intros Hr. pose proof (registry_ok_remove conn sub r Hr) as Hr1.
  assert (sub_at (remove_subscription conn sub r).2 conn sub = None) as Hnone
    by (by rewrite remove_subscription_at, decide_True).
  assert (∀ conn' sub', sub_at (register_with_scope community conn sub filters scope r).2 conn' sub' =
            if decide ((conn, sub) = (conn', sub')) then Some (filters, community, scope)
            else sub_at (remove_subscription conn sub r).2 conn' sub') as Hat.
  { intros. rewrite register_at, remove_subscription_at. by case_decide. }
  rewrite register_eq in *. revert Hr1 Hnone Hat. generalize (remove_subscription conn sub r).2 as r1.
  intros r1 Hr1 Hnone Hat.
  destruct (add_to_index_spec conn sub filters community scope (insert_sub conn sub (filters, community, scope) r1))
    as (Hs & Hne & Hent).
  apply (registry_ok_change r1 _ conn sub); [done| | | |].
  - apply Hne, no_empty_on_subs, Hr1.
  - intros. rewrite Hat. by rewrite decide_False by congruence.
  - intros s e He. rewrite Hent. unfold insert_sub. rewrite entries_on_subs. naive_solver.
  - intros s. rewrite Hent. unfold insert_sub at 1. rewrite entries_on_subs, (ok_exact _ Hr1).
    unfold routed; simpl. rewrite Hat, Hnone, decide_True by done. naive_solver.
Qed.

Lemma remove_entries_spec conn l r :
  let r' := foldl (remove_entry conn) r l in
  subs r' = subs r ∧ (no_empty_slot r → no_empty_slot r') ∧
  ∀ s x, x ∈ entries r' s ↔ x ∈ entries r s ∧
    ¬ ∃ sub fs c sc, (sub, (fs, c, sc)) ∈ l ∧ s ∈ keys_of c fs sc ∧ x = (conn, sub).
Proof.
  cbv zeta. revert r; induction l as [|[sub [[fs c] sc]] l IH]; intros r; simpl.
  - split_and!; [done|done|]. set_solver.
  - destruct (remove_from_index_spec conn sub fs c sc r) as (Hs & Hne & Hent).
    destruct (IH (remove_from_index conn sub fs c sc r)) as (Hs' & Hne' & Hent').
    rewrite Hs', Hs. split_and!; [done|by auto|]. intros s x. rewrite Hent', Hent. split.
    + intros [[Hx Hn] Hall]. split; [done|]. intros (sub' & fs' & c' & sc' & Hin & Hk & ->).
      apply elem_of_cons in Hin as [[= -> -> -> ->]|Hin]; [by apply Hn|]. apply Hall. by exists sub', fs', c', sc'.
    + intros [Hx Hall]. split_and!; [done| |].
      * intros [Hk ->]. apply Hall. exists sub, fs, c, sc. split_and!; [by left|done|done].
      * intros (sub' & fs' & c' & sc' & Hin & Hk & ->). apply Hall. exists sub', fs', c', sc'.
        split_and!; [by right|done|done].
Qed.

Lemma remove_connection_at {HO : HashOrder} conn r conn' sub' :
  sub_at (remove_connection conn r).2 conn' sub' = if decide (conn = conn') then None else sub_at r conn' sub'.
Proof.
  unfold remove_connection. destruct (subs r !! conn) as [m|] eqn:E; simpl.
  - destruct (remove_entries_spec conn (hash_iter m) (on_subs (delete conn) r)) as (Hs & _).
    unfold sub_at. rewrite Hs. simpl. case_decide; subst; by rewrite ?lookup_delete_eq, ?lookup_delete_ne.
  - case_decide; [subst|done]. unfold sub_at. by rewrite E.
Qed.

Lemma registry_ok_remove_connection {HO : HashOrder} conn r :
  registry_ok r → registry_ok (remove_connection conn r).2.
Proof.
  intros Hr. pose proof (remove_connection_at conn r) as Hat. revert Hat.
  unfold remove_connection. destruct (subs r !! conn) as [m|] eqn:E; simpl; [|done]. intros Hat.
  destruct (remove_entries_spec conn (hash_iter m) (on_subs (delete conn) r)) as (_ & Hne & Hent).
  split; [|by apply Hne, no_empty_on_subs, Hr].
  intros s [c sub]. rewrite Hent, entries_on_subs, (ok_exact _ Hr). unfold routed; simpl.
  rewrite Hat. case_decide; [subst|naive_solver].
  split; [|naive_solver]. intros [(fs & com & sc & Hs & Hk) Hn]. destruct Hn. exists sub, fs, com, sc.
  split_and!; [|done|done]. rewrite hash_iter_elem. unfold sub_at in Hs. by rewrite E in Hs.
Qed.

(** ** Revoking a channel *)

Definition keep_other (channel : Uuid) (chs : list Uuid) : list Uuid :=
  List.filter (λ ch, negb (bool_decide (ch = channel))) chs.

Lemma elem_of_keep_other channel chs ch : ch ∈ keep_other channel chs ↔ ch ∈ chs ∧ ch ≠ channel.
Proof. unfold keep_other. by rewrite elem_of_List_filter, negb_true_iff, bool_decide_eq_false. Qed.

(** What revocation leaves of a subscription. *)
Definition revoke_entry (community channel : Uuid) (entry : SubEntry) : option SubEntry :=
  match entry with
  | (fs, c, Channels chs) =>
      if bool_decide (c = community) && bool_decide (channel ∈ chs) then
        if bool_decide (keep_other channel chs = []) then None else Some (fs, c, Channels (keep_other channel chs))
      else Some entry
  | _ => Some entry
  end.

Lemma keys_of_keep_other community fs channel chs s :
  s ∈ keys_of community fs (Channels (keep_other channel chs)) ↔
  s ∈ keys_of community fs (Channels chs) ∧ (s ∉ keys_of community fs (Channels [channel])).
Proof.
  unfold keys_of. rewrite !list_elem_of_bind. setoid_rewrite elem_of_keep_other.
  setoid_rewrite list_elem_of_singleton.
  assert (∀ ch ch', s ∈ match extract_kinds_from_filters fs with
            | None => [SChanAny (community, ch)]
            | Some ks => (λ k, SChanKind (community, {| ik_channel_id := ch; ik_kind := k |})) <$> ks end →
          s ∈ match extract_kinds_from_filters fs with
            | None => [SChanAny (community, ch')]
            | Some ks => (λ k, SChanKind (community, {| ik_channel_id := ch'; ik_kind := k |})) <$> ks end →
          ch = ch') as Hinj.
  { intros ch ch'. destruct (extract_kinds_from_filters fs) as [ks|].
    - rewrite !list_elem_of_fmap. naive_solver.
    - rewrite !list_elem_of_singleton. naive_solver. }
  split.
  - intros (ch & Hs & Hch & Hne). split; [by exists ch|]. intros (ch' & Hs' & ->). eauto.
  - intros [(ch & Hs & Hch) Hn]. exists ch. split_and!; [done|done|]. intros ->. by destruct Hn; exists channel.
Qed.

Lemma revoke_one_spec community conn channel updates r sub fs chs :
  registry_ok r → sub_at r conn sub = Some (fs, community, Channels chs) → channel ∈ chs →
  let '(updates', r') := revoke_one community conn channel (updates, r) sub in
  registry_ok r' ∧
  (∀ conn' sub', sub_at r' conn' sub' =
     if decide ((conn, sub) = (conn', sub')) then revoke_entry community channel (fs, community, Channels chs)
     else sub_at r conn' sub') ∧
  updates' = updates ++ [{| csu_sub_id := sub; csu_removed := bool_decide (keep_other channel chs = []) |}].
Proof.
  intros Hr Hsub Hch. unfold revoke_one. rewrite Hsub. cbv zeta. fold (keep_other channel chs).
  set (chs' := keep_other channel chs).
  set (r1 := update_conn conn _ r).
  destruct (remove_from_index_spec conn sub fs community (Channels [channel]) r1) as (Hs & Hne & Hent).
  set (r2 := remove_from_index _ _ _ _ _ r1) in *.
  set (r3 := if bool_decide (chs' = []) then _ else r2).
  assert (∀ s, entries r3 s = entries r2 s) as Hent3.
  { intros s. unfold r3. case_bool_decide; [|done]. unfold update_conn. by rewrite entries_on_subs. }
  assert (no_empty_slot r3) as Hne3.
  { unfold r3. case_bool_decide; [apply no_empty_on_subs|]; apply Hne, no_empty_on_subs, Hr. }
  assert (∀ conn' sub', sub_at r3 conn' sub' =
     if decide ((conn, sub) = (conn', sub')) then revoke_entry community channel (fs, community, Channels chs)
     else sub_at r conn' sub') as Hat.
  { intros conn' sub'.
    assert (sub_at r2 conn' sub' = if decide ((conn, sub) = (conn', sub')) then Some (fs, community, Channels chs')
                                   else sub_at r conn' sub') as Hat2.
    { transitivity (sub_at r1 conn' sub'); [unfold sub_at; by rewrite Hs|]. unfold r1. rewrite sub_at_update.
      unfold sub_at in *. repeat case_decide; simplify_eq; try done.
      - destruct (subs r !! conn'); simpl in *; [by rewrite lookup_insert_eq|done].
      - destruct (subs r !! conn'); simpl; [|done]. rewrite lookup_insert_ne; congruence. }
    unfold revoke_entry. fold chs'. rewrite !(bool_decide_true (_ = community)), (bool_decide_true (channel ∈ chs)) by done.
    simpl. unfold r3. case_bool_decide; [rewrite sub_at_delete|]; rewrite Hat2; by repeat case_decide. }
  split_and!; [|done|done].
  apply (registry_ok_change r r3 conn sub); [done|done| | |].
  - intros. by rewrite Hat, decide_False by congruence.
  - intros s e He. rewrite Hent3, Hent. unfold r1, update_conn. rewrite entries_on_subs. naive_solver.
  - intros s. rewrite Hent3, Hent. unfold r1 at 1, update_conn. rewrite entries_on_subs, (ok_exact _ Hr).
    unfold routed; simpl. rewrite Hsub, Hat, decide_True by done.
    unfold revoke_entry. fold chs'. rewrite !(bool_decide_true (_ = community)), (bool_decide_true (channel ∈ chs)) by done.
    simpl. pose proof (keys_of_keep_other community fs channel chs s) as Hkeys. fold chs' in Hkeys.
    case_bool_decide as Hnil.
    + rewrite Hnil in Hkeys. simpl in Hkeys. split; [|naive_solver].
      intros [(? & ? & ? & ? & Hk) Hn]. simplify_eq. exfalso. apply (elem_of_nil s), Hkeys. naive_solver.
    + split.
      * intros [(? & ? & ? & ? & Hk) Hn]. simplify_eq. eexists _, _, _. split; [done|]. apply Hkeys. naive_solver.
      * intros (? & ? & ? & ? & Hk). simplify_eq. apply Hkeys in Hk as [Hk Hn]. naive_solver.
Qed.

Lemma elem_of_revoked_sub_ids {HO : HashOrder} community conn channel r sub :
  sub ∈ revoked_sub_ids community conn channel r ↔
  ∃ fs chs, sub_at r conn sub = Some (fs, community, Channels chs) ∧ channel ∈ chs.
Proof.
  unfold revoked_sub_ids, sub_at. destruct (subs r !! conn) as [m|]; simpl; [|set_solver].
  rewrite list_elem_of_fmap. split.
  - intros ([sub' [[fs c] sc]] & -> & [Hin Hc]%elem_of_List_filter). apply hash_iter_elem in Hin. simpl in *.
    boolify. subst c. destruct sc as [|chs]; [set_solver|]. by exists fs, chs.
  - intros (fs & chs & Hm & Hch). exists (sub, (fs, community, Channels chs)). split; [done|].
    apply elem_of_List_filter. rewrite hash_iter_elem. split; [done|]. simpl.
    by rewrite !bool_decide_true.
Qed.

Lemma NoDup_revoked_sub_ids {HO : HashOrder} community conn channel r :
  NoDup (revoked_sub_ids community conn channel r).
Proof.
  unfold revoked_sub_ids. destruct (subs r !! conn) as [m|]; [|constructor].
  assert (∀ (f : SubId * SubEntry → bool) l, NoDup l.*1 → NoDup (List.filter f l).*1) as Hf.
  { intros f l. induction l as [|x l IH]; csimpl; [done|]. intros [Hx Hl]%NoDup_cons.
    destruct (f x); csimpl; [|auto]. apply NoDup_cons. split; [|auto].
    rewrite list_elem_of_fmap in Hx |- *. intros (y & Hy & [Hin _]%elem_of_List_filter). apply Hx. by exists y. }
  apply Hf. rewrite (hash_iter_perm m). apply NoDup_fst_map_to_list.
Qed.

(** The whole loop of a revocation. *)
Lemma revoke_fold community conn channel ids updates r :
  registry_ok r → NoDup ids →
  (∀ sub, sub ∈ ids → ∃ fs chs, sub_at r conn sub = Some (fs, community, Channels chs) ∧ channel ∈ chs) →
  let '(updates', r') := foldl (revoke_one community conn channel) (updates, r) ids in
  registry_ok r' ∧
  (∀ conn' sub', sub_at r' conn' sub' =
     if decide (conn = conn' ∧ sub' ∈ ids) then sub_at r conn' sub' ≫= revoke_entry community channel
     else sub_at r conn' sub') ∧
  updates' = updates ++ ((λ sub, {| csu_sub_id := sub;
    csu_removed := bool_decide (sub_at r conn sub ≫= revoke_entry community channel = None) |}) <$> ids).
Proof.
  revert updates r. induction ids as [|sub ids IH]; intros updates r Hr Hnd Hids.
  - simpl. split_and!; [done| |by rewrite app_nil_r]. intros. by rewrite decide_False by set_solver.
  - apply NoDup_cons in Hnd as [Hsub Hnd].
    destruct (Hids sub ltac:(by left)) as (fs & chs & Hat & Hch). cbn [foldl].
    pose proof (revoke_one_spec community conn channel updates r sub fs chs Hr Hat Hch) as Hone.
    destruct (revoke_one community conn channel (updates, r) sub) as [updates1 r1].
    destruct Hone as (Hr1 & Hat1 & ->).
    assert (∀ sub', sub' ∈ ids → sub_at r1 conn sub' = sub_at r conn sub') as Hsame.
    { intros sub' Hin. rewrite Hat1, decide_False by naive_solver. done. }
    specialize (IH (updates ++ [{| csu_sub_id := sub; csu_removed := bool_decide (keep_other channel chs = []) |}]) r1
                  Hr1 Hnd).
    destruct (foldl _ (_, r1) ids) as [updates' r']. destruct IH as (Hr' & Hat' & ->).
    { intros sub' Hin. rewrite Hsame by done. apply Hids. by right. }
    split_and!; [done| |].
    + intros conn' sub'. rewrite Hat'. case_decide as H1.
      * destruct H1 as [<- Hin]. rewrite Hsame, decide_True by set_solver. done.
      * rewrite Hat1. case_decide as H2; simplify_eq.
        -- rewrite decide_True by set_solver. by rewrite Hat.
        -- rewrite decide_False; [done|]. rewrite elem_of_cons. naive_solver.
    + rewrite <- app_assoc. f_equal. csimpl. f_equal.
      * f_equal. rewrite Hat. simpl. rewrite !(bool_decide_true (_ = community)), (bool_decide_true (channel ∈ chs)) by done.
        simpl. by repeat case_bool_decide.
      * apply list_fmap_ext. intros i sub' Hin%list_elem_of_lookup_2. by rewrite Hsame.
Qed.

Lemma remove_channel_spec {HO : HashOrder} community conn channel r :
  registry_ok r →
  let '(updates, r') := remove_channel_subscriptions_scoped community conn channel r in
  registry_ok r' ∧
  (∀ conn' sub', sub_at r' conn' sub' =
     if decide (conn = conn') then sub_at r conn' sub' ≫= revoke_entry community channel
     else sub_at r conn' sub') ∧
  updates = (λ sub, {| csu_sub_id := sub;
    csu_removed := bool_decide (sub_at r conn sub ≫= revoke_entry community channel = None) |}) <$>
      revoked_sub_ids community conn channel r.
Proof.
  intros Hr. unfold remove_channel_subscriptions_scoped.
  pose proof (revoke_fold community conn channel (revoked_sub_ids community conn channel r) [] r Hr
                (NoDup_revoked_sub_ids _ _ _ _) (λ sub, proj1 (elem_of_revoked_sub_ids _ _ _ _ _))) as Hf.
  destruct (foldl _ _ _) as [updates r']. destruct Hf as (Hr' & Hat & ->).
  split_and!; [done| |done]. intros conn' sub'. rewrite Hat.
  destruct (decide (conn = conn')) as [<-|]; [|by rewrite decide_False by naive_solver].
  case_decide as Hin; [done|].
  destruct (sub_at r conn sub') as [[[fs c] [|chs]]|] eqn:E; try done. simpl.
  case_bool_decide; simpl; [|done]. case_bool_decide; simpl; [|done]. subst.
  destruct Hin. split; [done|]. apply elem_of_revoked_sub_ids. by exists fs, chs.
Qed.

Lemma registry_step_ok r r' : registry_step r r' → registry_ok r → registry_ok r'.
Proof.
  destruct 1; intros Hr; eauto using registry_ok_register, registry_ok_remove, registry_ok_remove_connection.
  pose proof (remove_channel_spec community conn channel r Hr) as H.
  destruct (remove_channel_subscriptions_scoped _ _ _ _). by destruct H.
Qed.

Lemma registry_reachable_ok r : registry_reachable r → registry_ok r.
Proof.
  unfold registry_reachable. intros H. assert (registry_ok registry_new) as Hn by apply registry_ok_new.
  revert Hn. induction H; eauto using registry_step_ok.
Qed.

(** ** Fan-out *)

(** The reference: every subscription is looked at. *)
Definition subscribed r (community : CommunityId) (ev : StoredEvent) e : Prop :=
  ∃ filters scope, sub_at r e.1 e.2 = Some (filters, community, scope) ∧
    matches_channel scope (channel_id ev) = true ∧ filters_match filters ev = true.

Lemma push_match_elem r community ev acc e x :
  x ∈ push_match r community ev acc e ↔ x ∈ acc ∨ (x = e ∧ subscribed r community ev e).
Proof.
  unfold push_match, subscribed. destruct (sub_at r e.1 e.2) as [[[fs c] sc]|]; [|naive_solver].
  destruct (bool_decide (c = community) && matches_channel sc (channel_id ev) && filters_match fs ev) eqn:E.
  - rewrite elem_of_push_unseen. boolify. naive_solver.
  - split; [by left|]. intros [?|(-> & ? & ? & ? & Hm & Hf)]; [done|]. simplify_eq.
    by rewrite bool_decide_true, Hm, Hf in E.
Qed.

Lemma push_match_NoDup r community ev acc e : NoDup acc → NoDup (push_match r community ev acc e).
Proof.
  intros Hacc. unfold push_match. repeat case_match; auto using NoDup_push_unseen.
Qed.

Lemma push_matches_spec r community ev l acc :
  (NoDup acc → NoDup (foldl (push_match r community ev) acc l)) ∧
  ∀ x, x ∈ foldl (push_match r community ev) acc l ↔ x ∈ acc ∨ (x ∈ l ∧ subscribed r community ev x).
Proof.
  revert acc; induction l as [|e l IH]; intros acc; simpl.
  - split; [done|]. set_solver.
  - destruct (IH (push_match r community ev acc e)) as [Hnd Hin]. split.
    + intros. by apply Hnd, push_match_NoDup.
    + intros x. rewrite Hin, push_match_elem, elem_of_cons. naive_solver.
Qed.

Lemma collect_kinds_Some fs acc ks :
  collect_kinds acc fs = Some ks →
  (∀ k, k ∈ acc → k ∈ ks) ∧ ∀ f, f ∈ fs → ∃ kf, kinds f = Some kf ∧ ∀ k, k ∈ kf → k ∈ ks.
Proof.
  revert acc; induction fs as [|f fs IH]; intros acc; simpl; [naive_solver set_solver|].
  destruct (kinds f) as [kf|] eqn:E; [|done]. intros [Hacc Hfs]%IH. setoid_rewrite elem_of_push_all in Hacc.
  split; [auto|]. intros f' [->|Hin]%elem_of_cons; [|auto]. exists kf. auto.
Qed.

Lemma elem_of_p_kind_keys community ks ps key :
  key ∈ p_kind_keys community ks ps ↔
  gpk_community_id key = community ∧ gpk_kind key ∈ ks ∧ gpk_p key ∈ ps.
Proof.
  unfold p_kind_keys. rewrite list_elem_of_bind. setoid_rewrite list_elem_of_fmap.
  split; [naive_solver|]. intros (<- & Hk & Hp). exists (gpk_kind key). split; [|done].
  exists (gpk_p key). by destruct key.
Qed.

Lemma collect_p_keys_Some community fs acc keys :
  collect_p_keys community acc fs = Some keys →
  (∀ key, key ∈ acc → key ∈ keys) ∧
  ∀ f, f ∈ fs → ∃ kf, kinds f = Some kf ∧ ∀ k, k ∈ kf →
    ∃ ps, generic_tags f !! "p" = Some ps ∧
      ∀ p, p ∈ ps → {| gpk_community_id := community; gpk_kind := k; gpk_p := p |} ∈ keys.
Proof.
  revert acc; induction fs as [|f fs IH]; intros acc; cbn [collect_p_keys]; [naive_solver set_solver|].
  destruct (kinds f) as [kf|] eqn:Ek; [|done]. destruct kf as [|k0 kf].
  - intros [Hacc Hfs]%IH. split; [done|]. intros f' [->|Hin]%elem_of_cons; [|auto]. exists []. set_solver.
  - destruct (generic_tags f !! "p") as [ps|] eqn:Ep; [|done]. destruct ps as [|p0 ps]; [done|].
    intros [Hacc Hfs]%IH. setoid_rewrite elem_of_push_all in Hacc. setoid_rewrite elem_of_p_kind_keys in Hacc.
    split; [auto|]. intros f' [->|Hin]%elem_of_cons; [|auto]. exists (k0 :: kf). split; [done|]. intros k Hk.
    exists (p0 :: ps). split; [done|]. intros p Hp. apply Hacc. right. simpl. naive_solver.
Qed.

Lemma elem_of_event_p ev v : v ∈ event_p_tag_values ev ↔ carries (event ev) "p" v.
Proof.
  unfold event_p_tag_values, carries. rewrite elem_of_push_all, list_elem_of_omap.
  setoid_rewrite elem_of_List_filter. setoid_rewrite String.eqb_eq.
  rewrite elem_of_nil. naive_solver.
Qed.

(** A subscription that wants the event is among the candidates. *)
Lemma candidates_complete r community ev e :
  registry_ok r → subscribed r community ev e → e ∈ fan_out_candidates community ev r.
Proof.
  intros Hr (fs & sc & Hat & Hch & Hm).
  assert (∀ s, s ∈ keys_of community fs sc → e ∈ entries r s) as Hslot
    by (intros s Hs; apply (ok_exact _ Hr); by exists fs, community, sc).
  unfold filters_match in Hm. apply existsb_elem_of in Hm as (f & Hf & Hone).
  apply filter_match_one_spec in Hone as (Hkind & _ & _ & _ & _ & Htags).
  unfold fan_out_candidates. destruct sc as [|chs], (channel_id ev) as [ch|] eqn:Ec; try done; simpl in Hslot.
  - destruct (extract_global_p_kind_index_keys community fs) as [keys|] eqn:Ep.
    + apply collect_p_keys_Some in Ep as [_ Hkeys].
      destruct (Hkeys f Hf) as (kf & Hkf & Hk).
      destruct (Hk (kind (event ev)) (Hkind kf Hkf)) as (ps & Hps & Hin).
      destruct (Htags "p" ps Hps) as [(v & Hv & Hcar)|(? & _)]; [|done].
      apply elem_of_app; left. apply list_elem_of_bind. exists v. split; [|by apply elem_of_event_p].
      apply (Hslot (SGlobPKind _)), list_elem_of_fmap. eexists; split; [done|]. by apply Hin.
    + destruct (extract_kinds_from_filters fs) as [ks|] eqn:Ek.
      * apply collect_kinds_Some in Ek as [_ Hks]. destruct (Hks f Hf) as (kf & Hkf & Hin).
        apply elem_of_app; right. apply elem_of_app; left.
        apply (Hslot (SGlobKind (community, kind (event ev)))), list_elem_of_fmap. eauto.
      * apply elem_of_app; right. apply elem_of_app; right. apply (Hslot (SGlobAny community)). by left.
  - apply bool_decide_eq_true in Hch.
    destruct (extract_kinds_from_filters fs) as [ks|] eqn:Ek.
    + apply collect_kinds_Some in Ek as [_ Hks]. destruct (Hks f Hf) as (kf & Hkf & Hin).
      apply elem_of_app; left.
      apply (Hslot (SChanKind _)), list_elem_of_bind. exists ch. split; [|done].
      apply list_elem_of_fmap. exists (kind (event ev)). eauto.
    + apply elem_of_app; right. apply (Hslot (SChanAny _)), list_elem_of_bind. exists ch.
      split; [by left|done].
Qed.

Lemma channel_conns_spec {HO : HashOrder} community channel r conn :
  registry_ok r →
  conn ∈ channel_subscriber_conns_scoped community channel r ↔
  ∃ sub fs scope, sub_at r conn sub = Some (fs, community, scope) ∧ channel ∈ channel_ids scope ∧
    extract_kinds_from_filters fs ≠ Some [].
Proof.
  intros Hr. unfold channel_subscriber_conns_scoped.
  rewrite elem_of_list_to_set, elem_of_app, list_elem_of_bind.
  assert (∀ e s, e ∈ entries r s ↔ routed r s e) as Hex by (intros; apply ok_exact, Hr).
  split.
  - intros [((k & l) & Hin & [Hkl Hk]%elem_of_List_filter)|Hin].
    + apply list_elem_of_fmap in Hin as ([c sub] & -> & Hin). simpl in *. boolify.
      apply hash_iter_elem in Hkl. destruct k as [c' [ch k]]; cbn [fst snd ik_channel_id] in *; subst c' ch.
      assert ((c, sub) ∈ entries r (SChanKind (community, {| ik_channel_id := channel; ik_kind := k |}))) as He
        by (unfold entries; assert (slot_lookup r (SChanKind (community, {| ik_channel_id := channel; ik_kind := k |}))
              = Some l) as -> by exact Hkl; exact Hin).
      apply Hex in He as (fs & com & sc & Hat & Hkey). unfold keys_of in Hkey.
      destruct sc as [|chs].
      * repeat case_match; rewrite ?list_elem_of_fmap, ?list_elem_of_singleton in Hkey; naive_solver.
      * apply list_elem_of_bind in Hkey as (ch & Hkey & Hch).
        destruct (extract_kinds_from_filters fs) as [ks|] eqn:Eks; [|set_solver].
        apply list_elem_of_fmap in Hkey as (k' & [= -> -> ->] & Hk'). exists sub, fs, (Channels chs).
        split_and!; [done|done|]. rewrite Eks. intros [= ->]. set_solver.
    + apply list_elem_of_fmap in Hin as ([c sub] & -> & Hin).
      assert ((c, sub) ∈ entries r (SChanAny (community, channel))) as He by done.
      apply Hex in He as (fs & com & sc & Hat & Hkey). unfold keys_of in Hkey. destruct sc as [|chs].
      * repeat case_match; rewrite ?list_elem_of_fmap, ?list_elem_of_singleton in Hkey; naive_solver.
      * apply list_elem_of_bind in Hkey as (ch & Hkey & Hch).
        destruct (extract_kinds_from_filters fs) as [ks|] eqn:Eks.
        -- apply list_elem_of_fmap in Hkey. naive_solver.
        -- apply list_elem_of_singleton in Hkey as [= -> ->]. exists sub, fs, (Channels chs). by rewrite Eks.
  - intros (sub & fs & sc & Hat & Hch & Hne). destruct sc as [|chs]; [set_solver|]. simpl in Hch.
    destruct (extract_kinds_from_filters fs) as [ks|] eqn:Eks.
    + destruct ks as [|k ks]; [done|]. left.
      set (key := (community, {| ik_channel_id := channel; ik_kind := k |})).
      assert ((conn, sub) ∈ entries r (SChanKind key)) as He.
      { apply Hex. exists fs, community, (Channels chs). split; [done|]. apply list_elem_of_bind. exists channel.
        rewrite Eks. split; [by left|done]. }
      unfold entries, slot_lookup in He. destruct (channel_kind_index r !! key) as [l|] eqn:El; [|set_solver].
      exists (key, l). rewrite elem_of_List_filter, hash_iter_elem. simpl. split_and!; [|done|].
      * apply list_elem_of_fmap. by exists (conn, sub).
      * by rewrite !bool_decide_true.
    + right. apply list_elem_of_fmap. exists (conn, sub). split; [done|].
      change (get_list _ _) with (entries r (SChanAny (community, channel))). apply Hex.
      exists fs, community, (Channels chs). split; [done|]. apply list_elem_of_bind. exists channel.
      rewrite Eks. split; [by left|done].
Qed.

(** ** Claims *)

(** C3: In every reachable registry the indexed fan-out of an event delivers to exactly the
    subscriptions of the event community whose scope covers its channel and one of whose filters
    accepts it under the declarative NIP-01 reading, each once. *)
Theorem fan_out_exact r community ev :
  registry_reachable r →
  NoDup (fan_out_scoped community ev r) ∧
  ∀ conn sub, (conn, sub) ∈ fan_out_scoped community ev r ↔
    ∃ filters scope, sub_at r conn sub = Some (filters, community, scope) ∧
      matches_channel scope (channel_id ev) = true ∧ (∃ f, f ∈ filters ∧ filter_accepts f ev).
Proof.
  intros Hr%registry_reachable_ok. unfold fan_out_scoped.
  destruct (push_matches_spec r community ev (fan_out_candidates community ev r) []) as [Hnd Hin].
  split; [apply Hnd; constructor|]. intros conn sub. rewrite Hin.
  transitivity (subscribed r community ev (conn, sub)).
  - split; [intros [Hn|[_ H]]; [by apply elem_of_nil in Hn|done]|].
    intros H. right. split; [by apply candidates_complete|done].
  - unfold subscribed, filters_match. setoid_rewrite existsb_elem_of. by setoid_rewrite filter_match_one_spec.
Qed.

(** Candidates collected from an earlier registry and matched against a later one deliver
    only to subscriptions that at match time exist, belong to the community and cover the
    channel and the event: a race between index read and removal never leaks an event. *)
Theorem stale_candidates_never_leak r_old r community ev e :
  e ∈ foldl (push_match r community ev) [] (fan_out_candidates community ev r_old) →
  ∃ filters scope, sub_at r e.1 e.2 = Some (filters, community, scope) ∧
    matches_channel scope (channel_id ev) = true ∧ filters_match filters ev = true.
Proof.
  intros [Hn|[_ H]]%(proj2 (push_matches_spec r community ev _ [])); [by apply elem_of_nil in Hn|done].
Qed.

(** C27: In every reachable registry each index bucket lists exactly the live subscriptions that
    the key derivation routes to it, no empty bucket is kept, and the channel subscriber query
    returns exactly the connections subscribed to the channel by a filter that can match. *)
Theorem registry_indexes_exact r :
  registry_reachable r →
  (∀ s conn sub, (conn, sub) ∈ entries r s ↔
     ∃ filters community scope, sub_at r conn sub = Some (filters, community, scope) ∧
       s ∈ keys_of community filters scope) ∧
  (∀ s, slot_lookup r s ≠ Some []) ∧
  (∀ (HO : HashOrder) community channel conn,
     conn ∈ channel_subscriber_conns_scoped community channel r ↔
     ∃ sub filters scope, sub_at r conn sub = Some (filters, community, scope) ∧
       channel ∈ channel_ids scope ∧ extract_kinds_from_filters filters ≠ Some []).
Proof.
  intros Hr%registry_reachable_ok. split_and!; [|apply Hr|].
  - intros s conn sub. apply (ok_exact _ Hr).
  - intros. by apply channel_conns_spec.
Qed.

(** Registering an id again replaces the old subscription, and only that one. *)
Theorem registration_replaces community conn sub filters scope r removed r' :
  register_with_scope community conn sub filters scope r = (removed, r') →
  (removed = None ↔ sub_at r conn sub = None) ∧
  (∀ old c sc, sub_at r conn sub = Some (old, c, sc) →
     removed = Some {| rs_community_id := c; rs_scope := sc |}) ∧
  sub_at r' conn sub = Some (filters, community, scope) ∧
  (∀ conn' sub', (conn', sub') ≠ (conn, sub) → sub_at r' conn' sub' = sub_at r conn' sub').
Proof.
  intros Heq. pose proof (register_at community conn sub filters scope r) as Hat. rewrite Heq in Hat. simpl in Hat.
  assert (removed = (remove_subscription conn sub r).1) as ->
    by (unfold register_with_scope in Heq; by destruct (remove_subscription conn sub r); injection Heq).
  unfold remove_subscription. split_and!.
  - by destruct (sub_at r conn sub) as [[[] ]|].
  - by intros old c sc ->.
  - by rewrite Hat, decide_True.
  - intros conn' sub' Hne. by rewrite Hat, decide_False by congruence.
Qed.

(** Revoking a channel for a connection removes that channel from the connection
    subscriptions of that community only, drops those with no channel left and reports them so,
    leaves all others unchanged, and no event of the channel reaches the connection afterwards. *)
Theorem channel_revocation {HO : HashOrder} community conn channel r updates r' :
  registry_reachable r →
  remove_channel_subscriptions_scoped community conn channel r = (updates, r') →
  (∀ conn' sub', conn' ≠ conn → sub_at r' conn' sub' = sub_at r conn' sub') ∧
  (∀ sub, sub_at r' conn sub = sub_at r conn sub ≫= revoke_entry community channel) ∧
  (∀ sub gone, {| csu_sub_id := sub; csu_removed := gone |} ∈ updates ↔
     (∃ fs chs, sub_at r conn sub = Some (fs, community, Channels chs) ∧ channel ∈ chs) ∧
     (gone = true ↔ sub_at r' conn sub = None)) ∧
  (∀ ev sub, channel_id ev = Some channel → (conn, sub) ∉ fan_out_scoped community ev r').
Proof.
  intros Hr%registry_reachable_ok Heq. pose proof (remove_channel_spec community conn channel r Hr) as Hspec.
  rewrite Heq in Hspec. destruct Hspec as (Hr' & Hat & Hupd). split_and!.
  - intros conn' sub' Hne. by rewrite Hat, decide_False by congruence.
  - intros sub. by rewrite Hat, decide_True.
  - intros sub gone. rewrite Hat, decide_True, <- elem_of_revoked_sub_ids, Hupd, list_elem_of_fmap by done.
    split.
    + intros (sub' & [= -> ->] & Hin). split; [done|]. by rewrite bool_decide_eq_true.
    + intros [Hin Hg]. exists sub. split; [|done]. f_equal. destruct gone; symmetry.
      * by apply bool_decide_eq_true, Hg.
      * apply bool_decide_eq_false. by intros ?%Hg.
  - intros ev sub Hev [Hn|[_ Hs]]%(proj2 (push_matches_spec r' community ev _ [])); [by apply elem_of_nil in Hn|].
    destruct Hs as (fs & sc & Hsub & Hch & _). simpl in Hsub. rewrite Hat, decide_True in Hsub by done.
    rewrite Hev in Hch. destruct sc as [|chs]; [done|]. simpl in Hch. apply bool_decide_eq_true in Hch.
    destruct (sub_at r conn sub) as [[[fs0 c0] [|chs0]]|]; simpl in Hsub; [by simplify_eq| |by simplify_eq].
    destruct (bool_decide (c0 = community) && bool_decide (channel ∈ chs0)) eqn:E;
      [|simplify_eq; by rewrite !bool_decide_true in E].
    case_bool_decide; simplify_eq. apply elem_of_keep_other in Hch. naive_solver.
Qed.

(** A removed connection leaves no subscription and no index entry. *)
Theorem connection_removal {HO : HashOrder} conn r removed r' :
  registry_reachable r → remove_connection conn r = (removed, r') →
  (∀ sub, sub_at r' conn sub = None) ∧ (∀ s sub, (conn, sub) ∉ entries r' s) ∧
  (∀ conn' sub, conn' ≠ conn → sub_at r' conn' sub = sub_at r conn' sub) ∧
  (∀ c sc, {| rs_community_id := c; rs_scope := sc |} ∈ removed ↔
     ∃ sub fs, sub_at r conn sub = Some (fs, c, sc)).
Proof.
  intros Hr%registry_reachable_ok Heq.
  pose proof (remove_connection_at conn r) as Hat. rewrite Heq in Hat. simpl in Hat.
  pose proof (registry_ok_remove_connection conn r Hr) as Hr'. rewrite Heq in Hr'. simpl in Hr'. split_and!.
  - intros sub. by rewrite Hat, decide_True.
  - intros s sub (fs & c & sc & Hs & _)%(ok_exact _ Hr'). simpl in Hs. by rewrite Hat, decide_True in Hs.
  - intros conn' sub Hne. by rewrite Hat, decide_False by congruence.
  - intros c sc. unfold remove_connection in Heq. unfold sub_at.
    destruct (subs r !! conn) as [m|]; injection Heq as <- <-; simpl.
    + rewrite list_elem_of_fmap. split.
      * intros ([sub [[fs c'] sc']] & [= -> ->] & Hin%hash_iter_elem). by exists sub, fs.
      * intros (sub & fs & Hm). exists (sub, (fs, c, sc)). by rewrite hash_iter_elem.
    + rewrite elem_of_nil. naive_solver.
Qed.

End props.

(** ** Witnesses: connection 1 follows channels 7 and 8, connection 2 is global *)

Definition demo_filter : Nostr.Filter :=
  {| ids := None; authors := None; kinds := Some [9%Z]; since := None; until := None; generic_tags := ∅;
     search := None; limit := None |}.
Definition demo_stored : StoredEvent (L := slice_lib) :=
  {| event := {| id := "aa"; pubkey := "pk"; created_at := 5; kind := 9; tags := []; content := "" |};
     received_at := 6; channel_id := Some 7%N; verified := true |}.
Definition demo_registry : SubscriptionRegistry :=
  (register_with_scope 100 2 "g" [demo_filter] Global
    (register_with_scope 100 1 "s" [demo_filter] (Channels [7%N; 8%N]) registry_new).2).2.

Lemma demo_registry_reachable : registry_reachable demo_registry.
Proof.
  eapply rtc_l; [exact (rstep_register registry_new 100 1 "s" [demo_filter] (Channels [7%N; 8%N]))|].
  apply rtc_once. exact (rstep_register _ 100 2 "g" [demo_filter] Global).
Qed.

Example fan_out_exact_witness : (1%N, "s") ∈ fan_out_scoped 100 demo_stored demo_registry.
Proof.
  apply (proj2 (fan_out_exact demo_registry 100 demo_stored demo_registry_reachable)).
  exists [demo_filter], (Channels [7%N; 8%N]). split_and!; [reflexivity|reflexivity|].
  exists demo_filter. split; [by left|]. apply filter_match_one_spec. reflexivity.
Defined.

Example stale_candidates_never_leak_witness :
  ∃ e filters scope, e = (1%N, "s") ∧ sub_at demo_registry e.1 e.2 = Some (filters, 100%N, scope).
Proof.
  destruct (stale_candidates_never_leak demo_registry demo_registry 100 demo_stored (1%N, "s"))
    as (fs & sc & H & _); [vm_compute; by left|]. by exists (1%N, "s"), fs, sc.
Defined.

Example registry_indexes_exact_witness :
  fan_out_candidates 100 demo_stored demo_registry = [(1%N, "s")] ∧
  ∀ s, slot_lookup demo_registry s ≠ Some [].
Proof.
  split; [vm_compute; reflexivity|].
  exact (proj1 (proj2 (registry_indexes_exact demo_registry demo_registry_reachable))).
Defined.

Example registration_replaces_witness :
  ∃ removed r', register_with_scope 100 1 "s" [] Global demo_registry = (removed, r') ∧
    sub_at r' 1 "s" = Some ([], 100%N, Global).
Proof.
  destruct (register_with_scope 100 1 "s" [] Global demo_registry) as [removed r'] eqn:E.
  exists removed, r'. split; [reflexivity|].
  exact (proj1 (proj2 (proj2 (registration_replaces 100 1 "s" [] Global demo_registry removed r' E)))).
Defined.

Example channel_revocation_witness :
  ∃ updates r', remove_channel_subscriptions_scoped (HO := canonical_order) 100 1 7 demo_registry = (updates, r') ∧
    sub_at r' 1 "s" = Some ([demo_filter], 100%N, Channels [8%N]).
Proof.
  destruct (remove_channel_subscriptions_scoped (HO := canonical_order) 100 1 7 demo_registry) as [updates r'] eqn:E.
  exists updates, r'. split; [reflexivity|].
  destruct (channel_revocation (L := slice_lib) (HO := canonical_order) 100 1 7 demo_registry updates r' demo_registry_reachable E)
    as (_ & H & _). rewrite H. vm_compute. reflexivity.
Defined.

Example connection_removal_witness :
  sub_at (remove_connection (HO := canonical_order) 1 demo_registry).2 1 "s" = None.
Proof.
  destruct (remove_connection (HO := canonical_order) 1 demo_registry) as [removed r'] eqn:E.
  exact (proj1 (connection_removal (HO := canonical_order) 1 demo_registry removed r' demo_registry_reachable E) "s").
Defined.
