(* ===== verification/AudioRoom.v ===== *)
(** * Audio rooms ([crates/maju-relay/src/audio/room.rs])

    The peer registry of a huddle room, its admission guard (index allocator,
    reuse epochs, version pin, ended flag, roster revision), frame and control
    fan-out, and the manager of all rooms.  Admission, removal, [mark_ended],
    [clear_ended] and [roster_snapshot] run under the guard's mutex, so each is
    one atomic function of the room; a poisoned mutex is not modelled.  Frame
    and control fan-out walk the concurrent peer table without the mutex: the
    model is the walk over one table, with no admission or removal during it.  Arithmetic is that of a release build (wrapping).
    [Uuid::new_v4()] is an argument [peer_id].  The tokio channels are an
    interface, [ChannelLib]; [roster_log] is the sequence of the values sent on
    [roster_tx]. *)
From S2P Require Import Prelude.

Abbreviation Uuid := N (only parsing).
Abbreviation Bytes := (list Z) (only parsing).

(** What the code uses of [tokio::sync::mpsc]: [chan_new capacity],
    [try_send] ([None] is an error, the message is dropped) and a channel
    whose receiver has been dropped. *)
Class ChannelLib : Type := {
  Chan : Type → Type;
  chan_new : ∀ {M : Type}, nat → Chan M;
  chan_dead : ∀ {M : Type}, Chan M;
  try_send : ∀ {M : Type}, M → Chan M → option (Chan M)
}.

Section room.
Context {CL : ChannelLib}.

(** ** Data *)

Inductive PeerCtrl := Json (message : string) | Close.

Record AudioPeer := {
  pubkey : string;
  audio_tx : Chan Bytes;
  ctrl_tx : Chan PeerCtrl;
  peer_index : Z;
  epoch : Z;
  protocol_version : Z
}.

Definition AUDIO_CHANNEL_CAPACITY : nat := 8.
Definition CTRL_CHANNEL_CAPACITY : nat := 32.
Definition MAX_PEERS_PER_ROOM : nat := 25.

Record RosterPeer := { rp_pubkey : string; rp_peer_index : Z; rp_epoch : Z }.
Record RosterSnapshot := { rs_revision : Z; rs_peers : list RosterPeer }.
Record RosterDelta := { rd_revision : Z; rd_joined : option RosterPeer; rd_left : option RosterPeer }.

(** [PeerAdmission]: id, index, epoch, receivers (the room's channels), revision. *)
Record PeerAdmission := { pa_peer_id : Uuid; pa_peer_index : Z; pa_epoch : Z; pa_revision : Z }.

Inductive AdmissionError :=
  | Ended
  | Full
  | VersionMismatch (pinned requested : Z).

Record AdmissionGuard := {
  next_candidate : Z;
  active_indices : gset Z;
  index_epochs : gmap Z Z;
  ended : bool;
  pinned_version : option Z;
  roster_revision : Z
}.

Record Room := {
  community_id : Uuid;
  channel_id : Uuid;
  peers : gmap Uuid AudioPeer;
  guard : AdmissionGuard;
  roster_log : list RosterDelta
}.

(** ** The admission guard *)

Definition guard_new : AdmissionGuard :=
  {| next_candidate := 0; active_indices := ∅; index_epochs := ∅; ended := false;
     pinned_version := None; roster_revision := 0 |}.

Definition set_ended (b : bool) (g : AdmissionGuard) : AdmissionGuard :=
  {| next_candidate := next_candidate g; active_indices := active_indices g; index_epochs := index_epochs g;
     ended := b; pinned_version := pinned_version g; roster_revision := roster_revision g |}.
Definition set_allocation (next : Z) (active : gset Z) (epochs : gmap Z Z) (g : AdmissionGuard) : AdmissionGuard :=
  {| next_candidate := next; active_indices := active; index_epochs := epochs;
     ended := ended g; pinned_version := pinned_version g; roster_revision := roster_revision g |}.
Definition set_pin (v : option Z) (g : AdmissionGuard) : AdmissionGuard :=
  {| next_candidate := next_candidate g; active_indices := active_indices g; index_epochs := index_epochs g;
     ended := ended g; pinned_version := v; roster_revision := roster_revision g |}.
Definition bump_revision (g : AdmissionGuard) : AdmissionGuard :=
  {| next_candidate := next_candidate g; active_indices := active_indices g; index_epochs := index_epochs g;
     ended := ended g; pinned_version := pinned_version g;
     roster_revision := wrapping_add 64 (roster_revision g) 1 |}.

Definition next_epoch_for (idx : Z) (g : AdmissionGuard) : Z * AdmissionGuard :=
  let slot := default 0%Z (index_epochs g !! idx) in
  (slot, set_allocation (next_candidate g) (active_indices g)
           (<[idx := wrapping_add 8 slot 1]> (index_epochs g)) g).

(** [if idx == 254 { 0 } else { idx + 1 }] on [u8]. *)
Definition rotate (idx : Z) : Z := if (idx =? 254)%Z then 0%Z else wrapping_add 8 idx 1.

Fixpoint alloc_loop (rounds : nat) (g : AdmissionGuard) : option (Z * Z) * AdmissionGuard :=
  match rounds with
  | O => (None, g)
  | S rounds' =>
      let idx := next_candidate g in
      let g := set_allocation (rotate idx) (active_indices g) (index_epochs g) g in
      if bool_decide (idx ∈ active_indices g) then alloc_loop rounds' g
      else
        let g := set_allocation (next_candidate g) ({[idx]} ∪ active_indices g) (index_epochs g) g in
        let '(e, g) := next_epoch_for idx g in
        (Some (idx, e), g)
  end.

Definition ALLOC_ROUNDS : nat := 255.
Definition alloc (g : AdmissionGuard) : option (Z * Z) * AdmissionGuard := alloc_loop ALLOC_ROUNDS g.

(** ** The room *)

Definition room_new (community channel : Uuid) : Room :=
  {| community_id := community; channel_id := channel; peers := ∅; guard := guard_new; roster_log := [] |}.

Definition with_guard (g : AdmissionGuard) (r : Room) : Room :=
  {| community_id := community_id r; channel_id := channel_id r; peers := peers r; guard := g;
     roster_log := roster_log r |}.
Definition with_peers (ps : gmap Uuid AudioPeer) (r : Room) : Room :=
  {| community_id := community_id r; channel_id := channel_id r; peers := ps; guard := guard r;
     roster_log := roster_log r |}.

Definition is_empty (r : Room) : bool := bool_decide (peers r = ∅).

Definition mark_ended (r : Room) : bool * Room := (is_empty r, with_guard (set_ended true (guard r)) r).
Definition clear_ended (r : Room) : Room := with_guard (set_ended false (guard r)) r.

Definition roster_peer (p : AudioPeer) : RosterPeer :=
  {| rp_pubkey := pubkey p; rp_peer_index := peer_index p; rp_epoch := epoch p |}.

Definition new_peer (key : string) (index e version : Z) : AudioPeer :=
  {| pubkey := key; audio_tx := chan_new AUDIO_CHANNEL_CAPACITY; ctrl_tx := chan_new CTRL_CHANNEL_CAPACITY;
     peer_index := index; epoch := e; protocol_version := version |}.

(** Insert the peer, bump the revision and publish the join, under the lock. *)
Definition admit_peer (peer_id : Uuid) (p : AudioPeer) (g : AdmissionGuard) (r : Room) : Room :=
  let g := bump_revision g in
  {| community_id := community_id r; channel_id := channel_id r; peers := <[peer_id := p]> (peers r);
     guard := g;
     roster_log := roster_log r ++
       [{| rd_revision := roster_revision g; rd_joined := Some (roster_peer p); rd_left := None |}] |}.

(** [pinned_version.get_or_insert(v)]. *)
Definition pin (v : Z) (g : AdmissionGuard) : AdmissionGuard :=
  set_pin (Some (default v (pinned_version g))) g.

(** The mismatch with the pinned version, if any. *)
Definition version_conflict (requested : Z) (g : AdmissionGuard) : option AdmissionError :=
  match pinned_version g with
  | Some pinned => if (pinned =? requested)%Z then None else Some (VersionMismatch pinned requested)
  | None => None
  end.

Definition add_peer (peer_id : Uuid) (key : string) (requested : Z) (r : Room) :
  result AdmissionError PeerAdmission * Room :=
  let g := guard r in
  if ended g then (Err Ended, r)
  else if MAX_PEERS_PER_ROOM <=? size (peers r) then (Err Full, r)
  else
    match version_conflict requested g with
    | Some e => (Err e, r)
    | None =>
        match alloc g with
        | (None, g) => (Err Full, with_guard g r)
        | (Some (index, e), g) =>
            let r := admit_peer peer_id (new_peer key index e requested) (pin requested g) r in
            (Ok {| pa_peer_id := peer_id; pa_peer_index := index; pa_epoch := e;
                   pa_revision := roster_revision (guard r) |}, r)
        end
    end.

Definition add_peer_at_index (peer_id : Uuid) (key : string) (requested index : Z) (r : Room) :
  result AdmissionError PeerAdmission * Room :=
  let g := guard r in
  if ended g then (Err Ended, r)
  else if (MAX_PEERS_PER_ROOM <=? size (peers r)) || bool_decide (index ∈ active_indices g) then (Err Full, r)
  else
    match version_conflict requested g with
    | Some e => (Err e, r)
    | None =>
        let g := pin requested g in
        let g := set_allocation (next_candidate g) ({[index]} ∪ active_indices g) (index_epochs g) g in
        let '(e, g) := next_epoch_for index g in
        let g := set_allocation (rotate index) (active_indices g) (index_epochs g) g in
        let r := admit_peer peer_id (new_peer key index e requested) g r in
        (Ok {| pa_peer_id := peer_id; pa_peer_index := index; pa_epoch := e;
               pa_revision := roster_revision (guard r) |}, r)
    end.

(** The common part of the two removals: the peer leaves the table, its index
    is released and the revision moves. *)
Definition release (peer_id : Uuid) (p : AudioPeer) (r : Room) : RosterDelta * Room :=
  let g := guard r in
  let g := set_allocation (next_candidate g) (active_indices g ∖ {[peer_index p]}) (index_epochs g) g in
  let g := bump_revision g in
  ({| rd_revision := roster_revision g; rd_joined := None; rd_left := Some (roster_peer p) |},
   with_guard g (with_peers (delete peer_id (peers r)) r)).

(** [roster_tx.send(delta)]. *)
Definition publish (d : RosterDelta) (r : Room) : Room :=
  {| community_id := community_id r; channel_id := channel_id r; peers := peers r; guard := guard r;
     roster_log := roster_log r ++ [d] |}.

Definition remove_peer (peer_id : Uuid) (r : Room) : option RosterDelta * Room :=
  match peers r !! peer_id with
  | None => (None, r)
  | Some p => let '(d, r) := release peer_id p r in (Some d, publish d r)
  end.

Definition remove_peer_and_check_ended (peer_id : Uuid) (r : Room) : option (RosterDelta * bool) * Room :=
  match peers r !! peer_id with
  | None => (None, r)
  | Some p =>
      let '(d, r) := release peer_id p r in
      let should_end := negb (ended (guard r)) && is_empty r in
      let r := if should_end then with_guard (set_ended true (guard r)) r else r in
      (Some (d, should_end), publish d r)
  end.

(** ** Fan-out *)

Definition send_audio (frame : Bytes) (p : AudioPeer) : AudioPeer :=
  {| pubkey := pubkey p; audio_tx := default (audio_tx p) (try_send frame (audio_tx p)); ctrl_tx := ctrl_tx p;
     peer_index := peer_index p; epoch := epoch p; protocol_version := protocol_version p |}.

Definition send_ctrl (json : string) (p : AudioPeer) : AudioPeer :=
  {| pubkey := pubkey p; audio_tx := audio_tx p;
     ctrl_tx := default chan_dead (try_send (Json json) (ctrl_tx p));
     peer_index := peer_index p; epoch := epoch p; protocol_version := protocol_version p |}.

(** The routing prefix of a relayed frame. *)
Definition prefix_of (p : AudioPeer) : Bytes :=
  if (3 <=? protocol_version p)%Z then [peer_index p; epoch p] else [peer_index p].

Definition broadcast_frame (sender_id : Uuid) (frame : Bytes) (r : Room) : Room :=
  match peers r !! sender_id with
  | None => r
  | Some p =>
      let prefixed := prefix_of p ++ frame in
      with_peers (map_imap (λ id q, Some (if bool_decide (id = sender_id) then q else send_audio prefixed q)) (peers r)) r
  end.

Definition deliver_prefixed (author_index : Z) (prefixed : Bytes) (r : Room) : Room :=
  with_peers ((λ q, if (peer_index q =? author_index)%Z then q else send_audio prefixed q) <$> peers r) r.

Definition broadcast_control (json : string) (r : Room) : Room :=
  with_peers (send_ctrl json <$> peers r) r.

Section with_order.
Context {HO : HashOrder}.

Definition roster_snapshot (r : Room) : RosterSnapshot :=
  {| rs_revision := roster_revision (guard r);
     rs_peers := sort_by_key rp_peer_index (roster_peer ∘ snd <$> hash_iter (peers r)) |}.

Definition peer_pubkeys (r : Room) : list (string * Z) :=
  (λ kv, (pubkey kv.2, peer_index kv.2)) <$> hash_iter (peers r).

End with_order.

(** ** The room as a transition system

    Any handler may call any operation at any time; a fresh id never collides.
    [rstep_channels] is the receivers' side: the channels of a peer change and
    nothing else does. *)

Definition same_identity (p q : AudioPeer) : Prop :=
  pubkey p = pubkey q ∧ peer_index p = peer_index q ∧ epoch p = epoch q ∧
  protocol_version p = protocol_version q.

Inductive room_step : Room → Room → Prop :=
  | step_add_peer r peer_id key v :
      peers r !! peer_id = None → room_step r (add_peer peer_id key v r).2
  | step_add_at_index r peer_id key v index :
      peers r !! peer_id = None → (0 ≤ index < 2 ^ 8)%Z → room_step r (add_peer_at_index peer_id key v index r).2
  | step_remove_peer r peer_id : room_step r (remove_peer peer_id r).2
  | step_remove_and_check r peer_id : room_step r (remove_peer_and_check_ended peer_id r).2
  | step_mark_ended r : room_step r (mark_ended r).2
  | step_clear_ended r : room_step r (clear_ended r)
  | step_broadcast r sender frame : room_step r (broadcast_frame sender frame r)
  | step_deliver r author frame : room_step r (deliver_prefixed author frame r)
  | step_control r json : room_step r (broadcast_control json r)
  | step_channels r peer_id p q :
      peers r !! peer_id = Some p → same_identity p q → room_step r (with_peers (<[peer_id := q]> (peers r)) r).

Definition room_reachable (community channel : Uuid) : Room → Prop := rtc room_step (room_new community channel).

End room.

(** ** The room manager

    [rooms] holds [Arc<Room>]s, so a room outlives its entry: the manager maps
    keys to references into a heap of rooms. *)

Section manager.
Context {CL : ChannelLib}.

Record AudioRoomManager := {
  rooms : gmap (Uuid * Uuid) nat;
  heap : list Room
}.

Definition manager_new : AudioRoomManager := {| rooms := ∅; heap := [] |}.

Definition get_or_create (community channel : Uuid) (m : AudioRoomManager) : nat * AudioRoomManager :=
  match rooms m !! (community, channel) with
  | Some ref => (ref, m)
  | None =>
      let ref := length (heap m) in
      (ref, {| rooms := <[(community, channel) := ref]> (rooms m);
               heap := heap m ++ [room_new community channel] |})
  end.

Definition get (community channel : Uuid) (m : AudioRoomManager) : option nat := rooms m !! (community, channel).

Definition get_unambiguous_by_channel {HO : HashOrder} (channel : Uuid) (m : AudioRoomManager) : option nat :=
  match List.filter (λ kv, bool_decide (kv.1.2 = channel)) (hash_iter (rooms m)) with
  | [] => None
  | [kv] => Some kv.2
  | _ :: _ :: _ => None
  end.

Definition cleanup_if_empty (community channel : Uuid) (m : AudioRoomManager) : bool * AudioRoomManager :=
  match rooms m !! (community, channel) with
  | Some ref =>
      if (match heap m !! ref with Some r => is_empty r | None => false end)
      then (true, {| rooms := delete (community, channel) (rooms m); heap := heap m |})
      else (false, m)
  | None => (false, m)
  end.

(** An operation on a room through a reference, by whoever holds it. *)
Definition on_room (ref : nat) (r : Room) (m : AudioRoomManager) : AudioRoomManager :=
  {| rooms := rooms m; heap := <[ref := r]> (heap m) |}.

Inductive manager_step : AudioRoomManager → AudioRoomManager → Prop :=
  | mstep_create m community channel : manager_step m (get_or_create community channel m).2
  | mstep_cleanup m community channel : manager_step m (cleanup_if_empty community channel m).2
  | mstep_room m ref r r' : heap m !! ref = Some r → room_step r r' → manager_step m (on_room ref r' m).

Definition manager_reachable : AudioRoomManager → Prop := rtc manager_step manager_new.

End manager.
