(* ===== verification/AudioRoomProps.v ===== *)
(** * Properties of audio rooms

    The room invariant (cap, one occupant per routing index, version pin,
    revision and epoch counters tied to the published log), admission and its
    error precedence, roster replay, auto-end, frame fan-out and the isolation
    of rooms. *)
From S2P Require Import Prelude AudioRoom.

Section props.
Context {CL : ChannelLib}.
Implicit Types (r : Room) (g : AdmissionGuard).

(** ** Specification: the published log *)

(** A receiver's roster: occupants by index, updated delta by delta. *)
Definition apply_delta (m : gmap Z RosterPeer) (d : RosterDelta) : gmap Z RosterPeer :=
  let m := match rd_left d with Some p => delete (rp_peer_index p) m | None => m end in
  match rd_joined d with Some p => <[rp_peer_index p := p]> m | None => m end.

Definition replay (log : list RosterDelta) : gmap Z RosterPeer := foldl apply_delta ∅ log.

Definition joins_at (i : Z) (d : RosterDelta) : bool :=
  match rd_joined d with Some p => (rp_peer_index p =? i)%Z | None => false end.

(** How often index [i] was assigned. *)
Definition joins (i : Z) (log : list RosterDelta) : nat := length (List.filter (joins_at i) log).

(** The room's occupants by index. *)
Definition occupies r (i : Z) (rp : RosterPeer) : Prop :=
  ∃ id p, peers r !! id = Some p ∧ roster_peer p = rp ∧ peer_index p = i.

Record room_ok r : Prop := {
  ok_cap : size (peers r) ≤ MAX_PEERS_PER_ROOM;
  ok_active : ∀ i, i ∈ active_indices (guard r) ↔ ∃ id p, peers r !! id = Some p ∧ peer_index p = i;
  ok_unique : ∀ id id' p p', peers r !! id = Some p → peers r !! id' = Some p' →
    peer_index p = peer_index p' → id = id';
  ok_next : (0 ≤ next_candidate (guard r) < 255)%Z;
  ok_pin : ∀ id p, peers r !! id = Some p → pinned_version (guard r) = Some (protocol_version p);
  ok_revision : roster_revision (guard r) = wrap 64 (Z.of_nat (length (roster_log r)));
  ok_log : ∀ k d, roster_log r !! k = Some d → rd_revision d = wrap 64 (Z.of_nat (S k));
  ok_epochs : ∀ i, default 0%Z (index_epochs (guard r) !! i) = wrap 8 (Z.of_nat (joins i (roster_log r)));
  ok_join_epoch : ∀ k d p, roster_log r !! k = Some d → rd_joined d = Some p →
    rp_epoch p = wrap 8 (Z.of_nat (joins (rp_peer_index p) (take k (roster_log r))));
  ok_replay : ∀ i rp, replay (roster_log r) !! i = Some rp ↔ occupies r i rp
}.

Lemma joins_app i l1 l2 : joins i (l1 ++ l2) = joins i l1 + joins i l2.
Proof. unfold joins. by rewrite List.filter_app, length_app. Qed.

Lemma wrap_succ w (n : Z) : (0 ≤ w)%Z → wrapping_add w (wrap w n) 1 = wrap w (n + 1).
Proof. intros Hw. unfold wrapping_add, wrap. by rewrite Zplus_mod_idemp_l. Qed.

Lemma room_ok_new community channel : room_ok (room_new community channel).
Proof.
  split; simpl; try done.
  - rewrite map_size_empty. unfold MAX_PEERS_PER_ROOM. lia.
  - intros i. split; [set_solver|]. by intros (? & ? & Hp & _).
  - intros i rp. split; [done|]. by intros (? & ? & Hp & _).
Qed.

(** ** Steps that leave the roster alone *)

(** Same occupants, possibly other channels. *)
Definition same_peers (ps ps' : gmap Uuid AudioPeer) : Prop :=
  ∀ id, match ps !! id, ps' !! id with
        | Some p, Some q => same_identity p q
        | None, None => True
        | _, _ => False
        end.

Lemma same_peers_dom ps ps' : same_peers ps ps' → dom ps = dom ps'.
Proof.
  intros H. apply set_eq; intros id. specialize (H id). rewrite !elem_of_dom.
  destruct (ps !! id), (ps' !! id); unfold is_Some; naive_solver.
Qed.

Lemma same_peers_back ps ps' id q :
  same_peers ps ps' → ps' !! id = Some q → ∃ p, ps !! id = Some p ∧ same_identity p q.
Proof. intros H Hq. specialize (H id). rewrite Hq in H. destruct (ps !! id) as [p|]; [by exists p|done]. Qed.

Lemma same_peers_fwd ps ps' id p :
  same_peers ps ps' → ps !! id = Some p → ∃ q, ps' !! id = Some q ∧ same_identity p q.
Proof. intros H Hp. specialize (H id). rewrite Hp in H. destruct (ps' !! id) as [q|]; [by exists q|done]. Qed.

Lemma same_identity_roster p q : same_identity p q → roster_peer p = roster_peer q.
Proof. intros (H1 & H2 & H3 & H4). unfold roster_peer. by rewrite H1, H2, H3. Qed.

Lemma room_ok_peers r ps : room_ok r → same_peers (peers r) ps → room_ok (with_peers ps r).
Proof.
  intros [Hcap Hact Huniq Hnext Hpin Hrev Hlog Hep Hje Hrep] Hs. split; simpl; try done.
  - by rewrite <- size_dom, <- (same_peers_dom _ _ Hs), size_dom.
  - intros i. rewrite Hact. split; intros (id & p & Hp & Hi).
    + eapply same_peers_fwd in Hp as (q & Hq & _ & Hidx & _); [|done]. exists id, q. split; [done|congruence].
    + eapply same_peers_back in Hp as (q & Hq & _ & Hidx & _); [|done]. exists id, q. split; [done|congruence].
  - intros id id' p p' Hp Hp' Hi.
    eapply same_peers_back in Hp as (q & Hq & _ & Hidx & _); [|done].
    eapply same_peers_back in Hp' as (q' & Hq' & _ & Hidx' & _); [|done]. eapply Huniq; eauto; congruence.
  - intros id p Hp. eapply same_peers_back in Hp as (q & Hq & _ & _ & _ & Hv); [|done].
    rewrite (Hpin id q Hq). congruence.
  - intros i rp. rewrite Hrep. unfold occupies. simpl. split; intros (id & p & Hp & Hrp & Hi).
    + eapply same_peers_fwd in Hp as (q & Hq & Hid); [|done]. exists id, q.
      rewrite <- (same_identity_roster _ _ Hid). destruct Hid as (_ & ? & _). naive_solver congruence.
    + eapply same_peers_back in Hp as (q & Hq & Hid); [|done]. exists id, q.
      rewrite (same_identity_roster _ _ Hid). destruct Hid as (_ & ? & _). naive_solver congruence.
Qed.

Lemma same_identity_refl p : same_identity p p.
Proof. by split_and!. Qed.

Lemma same_peers_map ps (f : Uuid → AudioPeer → AudioPeer) :
  (∀ id p, same_identity p (f id p)) → same_peers ps (map_imap (λ id p, Some (f id p)) ps).
Proof. intros Hf id. rewrite map_lookup_imap. destruct (ps !! id); simpl; [apply Hf|done]. Qed.

Lemma same_peers_fmap ps (f : AudioPeer → AudioPeer) :
  (∀ p, same_identity p (f p)) → same_peers ps (f <$> ps).
Proof. intros Hf id. rewrite lookup_fmap. destruct (ps !! id); simpl; [apply Hf|done]. Qed.

Lemma room_ok_ended b r : room_ok r → room_ok (with_guard (set_ended b (guard r)) r).
Proof. by intros []; split. Qed.

(** ** Admission *)

Lemma rotate_range i : (0 ≤ i < 256)%Z → (0 ≤ rotate i < 255)%Z.
Proof.
  intros Hi. unfold rotate. case_match; boolify; [lia|]. unfold wrapping_add, wrap. change (2 ^ 8)%Z with 256%Z.
  destruct (decide (i = 255%Z)) as [->|]; [done|]. rewrite Z.mod_small by lia. lia.
Qed.

Lemma admit_ok r id p g :
  room_ok r → peers r !! id = None → size (peers r) < MAX_PEERS_PER_ROOM →
  peer_index p ∉ active_indices (guard r) →
  active_indices g = {[peer_index p]} ∪ active_indices (guard r) →
  epoch p = default 0%Z (index_epochs (guard r) !! peer_index p) →
  index_epochs g = <[peer_index p := wrapping_add 8 (epoch p) 1]> (index_epochs (guard r)) →
  (0 ≤ next_candidate g < 255)%Z → roster_revision g = roster_revision (guard r) →
  pinned_version g = Some (protocol_version p) →
  (∀ v, pinned_version (guard r) = Some v → v = protocol_version p) →
  room_ok (admit_peer id p g r).
Proof.
  intros [Hcap Hact Huniq Hnext Hpin Hrev Hlog Hep Hje Hrep] Hfresh Hsize Hfree Hg Hepoch Hepochs Hn Hgrev Hgpin Hsame.
  assert (∀ id' p', peers r !! id' = Some p' → peer_index p' ≠ peer_index p) as Hdiff
    by (intros id' p' Hp' Heq; apply Hfree, Hact; by exists id', p').
  split; simpl; try done.
  - rewrite map_size_insert_None by done. unfold MAX_PEERS_PER_ROOM in *. lia.
  - intros i. rewrite Hg, elem_of_union, elem_of_singleton, Hact. split.
    + intros [->|(id' & p' & Hp' & Hi)]; [exists id, p; by rewrite lookup_insert_eq|].
      exists id', p'. rewrite lookup_insert_ne by congruence. done.
    + intros (id' & p' & [[<- <-]|[_ Hp']]%lookup_insert_Some & Hi); [by left|right; eauto].
  - intros id1 id2 p1 p2 [[<- <-]|[_ Hp1]]%lookup_insert_Some [[<- <-]|[_ Hp2]]%lookup_insert_Some Hi; try done.
    + by apply Hdiff in Hp2.
    + by apply Hdiff in Hp1.
    + by eapply Huniq.
  - intros id' p' [[<- <-]|[_ Hp']]%lookup_insert_Some; [done|]. rewrite Hgpin. f_equal.
    symmetry. apply Hsame. by eapply Hpin.
  - rewrite Hgrev, Hrev, wrap_succ, length_app by lia. f_equal. simpl. lia.
  - intros k d [Hd|[Hk Hd]]%lookup_app_Some; [by apply Hlog|]. apply list_lookup_singleton_Some in Hd as [Hk0 <-].
    simpl. rewrite Hgrev, Hrev, wrap_succ by lia. f_equal. lia.
  - intros i. rewrite joins_app. unfold joins at 2, joins_at; simpl. rewrite Hepochs.
    destruct (peer_index p =? i)%Z eqn:Ei; boolify.
    + subst i. rewrite lookup_insert_eq. simpl. rewrite Hepoch, Hep, wrap_succ by lia. f_equal. lia.
    + rewrite lookup_insert_ne by done. rewrite Hep. f_equal. simpl. lia.
  - intros k d p' [Hd|[Hk Hd]]%lookup_app_Some Hj.
    + rewrite take_app_le by (apply lookup_lt_Some in Hd; lia). by eapply Hje.
    + apply list_lookup_singleton_Some in Hd as [Hk0 <-]. simpl in Hj. injection Hj as <-. simpl.
      replace k with (length (roster_log r)) by lia. by rewrite take_app_length, Hepoch, Hep.
  - intros i rp. unfold replay. rewrite foldl_app. simpl. unfold apply_delta at 1. simpl.
    fold (replay (roster_log r)). rewrite lookup_insert_Some, Hrep. unfold occupies. simpl. split.
    + intros [[<- <-]|[Hne (id' & p' & Hp' & Hrp & Hi)]]; [exists id, p; by rewrite lookup_insert_eq|].
      exists id', p'. rewrite lookup_insert_ne by congruence. done.
    + intros (id' & p' & [[<- <-]|[Hne Hp']]%lookup_insert_Some & Hrp & Hi); [by left|right].
      split; [|by exists id', p']. apply Hdiff in Hp'. congruence.
Qed.

(** What a successful allocation round returns. *)
Lemma alloc_loop_Some n g idx e g' :
  (0 ≤ next_candidate g < 255)%Z → alloc_loop n g = (Some (idx, e), g') →
  (0 ≤ idx < 255)%Z ∧ (idx ∉ active_indices g) ∧ active_indices g' = {[idx]} ∪ active_indices g ∧
  e = default 0%Z (index_epochs g !! idx) ∧ index_epochs g' = <[idx := wrapping_add 8 e 1]> (index_epochs g) ∧
  next_candidate g' = rotate idx ∧ roster_revision g' = roster_revision g ∧
  pinned_version g' = pinned_version g ∧ ended g' = ended g.
Proof.
  revert g; induction n as [|n IH]; intros g Hg; simpl; [done|]. case_bool_decide as Hin.
  - intros H. apply IH in H; [done|]. simpl. apply rotate_range. lia.
  - intros [= <- <- <-]. simpl. done.
Qed.

Lemma rotate_succ i : (0 ≤ i < 255)%Z → rotate i = ((i + 1) mod 255)%Z.
Proof.
  intros Hi. unfold rotate. destruct (i =? 254)%Z eqn:E; boolify; [by subst|].
  unfold wrapping_add, wrap. change (2 ^ 8)%Z with 256%Z. rewrite !Z.mod_small by lia. done.
Qed.

(** The rotation reaches the first free index. *)
Lemma alloc_loop_first n g k :
  (0 ≤ next_candidate g < 255)%Z → k < n →
  (∀ j, j < k → ((next_candidate g + Z.of_nat j) mod 255)%Z ∈ active_indices g) →
  ((next_candidate g + Z.of_nat k) mod 255)%Z ∉ active_indices g →
  ∃ e g', alloc_loop n g = (Some (((next_candidate g + Z.of_nat k) mod 255)%Z, e), g').
Proof.
  revert g k; induction n as [|n IH]; intros g k Hg Hk Hall Hfree; [lia|]. simpl.
  assert (next_candidate g = ((next_candidate g + Z.of_nat 0) mod 255)%Z) as H0
    by (rewrite Z.add_0_r, Z.mod_small; [done|lia]).
  destruct k as [|k].
  - rewrite <- H0 in Hfree |- *. rewrite bool_decide_false by done. eauto.
  - rewrite bool_decide_true by (rewrite H0; apply Hall; lia).
    assert (∀ j : nat, ((next_candidate g + Z.of_nat (S j)) mod 255 =
              (rotate (next_candidate g) + Z.of_nat j) mod 255)%Z) as Hshift.
    { intros j. rewrite rotate_succ, Zplus_mod_idemp_l by lia. f_equal. lia. }
    rewrite Hshift. apply (IH (set_allocation (rotate (next_candidate g)) (active_indices g) (index_epochs g) g)).
    + simpl. apply rotate_range. lia.
    + lia.
    + simpl. intros j Hj. rewrite <- Hshift. apply Hall. lia.
    + simpl. by rewrite <- Hshift.
Qed.

Lemma first_failure (P : nat → Prop) `{∀ k, Decision (P k)} n :
  (∃ k, k < n ∧ ¬ P k) → ∃ k, k < n ∧ ¬ P k ∧ ∀ j, j < k → P j.
Proof.
  assert ((∀ j, j < n → P j) ∨ ∃ k, k < n ∧ ¬ P k ∧ ∀ j, j < k → P j) as [Hall|Hex];
    [|naive_solver|done].
  induction n as [|n [IH|(k & ? & ?)]]; [left; lia| |right; exists k; split; [lia|done]].
  destruct (decide (P n)) as [Hn|Hn].
  - left. intros j Hj. destruct (decide (j = n)) as [->|]; [done|]. apply IH. lia.
  - right. exists n. split; [lia|done].
Qed.

Lemma size_list_to_set_le (l : list Z) : size (list_to_set (C := gset Z) l) ≤ length l.
Proof.
  induction l as [|x l IH]; simpl; [done|]. rewrite size_union_alt, size_singleton.
  pose proof (subseteq_size (list_to_set (C := gset Z) l ∖ {[x]}) (list_to_set l)) as Hsub.
  specialize (Hsub ltac:(set_solver)). lia.
Qed.

Lemma active_size r : room_ok r → size (active_indices (guard r)) ≤ MAX_PEERS_PER_ROOM.
Proof.
  intros Hr. etrans; [|apply (ok_cap _ Hr)].
  assert (active_indices (guard r) ⊆ list_to_set ((λ kv, peer_index kv.2) <$> map_to_list (peers r))) as Hsub.
  { intros i (id & p & Hp & <-)%(ok_active _ Hr). apply elem_of_list_to_set, list_elem_of_fmap.
    exists (id, p). by rewrite elem_of_map_to_list. }
  etrans; [apply subseteq_size, Hsub|]. etrans; [apply size_list_to_set_le|].
  by rewrite length_fmap, length_map_to_list.
Qed.

(** With the room under its cap some index is free, and the rotation finds the
    first one. *)
Lemma first_free r :
  room_ok r → ∃ k, k < ALLOC_ROUNDS ∧
    (((next_candidate (guard r) + Z.of_nat k) mod 255)%Z ∉ active_indices (guard r)) ∧
    ∀ j, j < k → ((next_candidate (guard r) + Z.of_nat j) mod 255)%Z ∈ active_indices (guard r).
Proof.
  intros Hr. apply (first_failure (λ k, ((next_candidate (guard r) + Z.of_nat k) mod 255)%Z ∈ active_indices (guard r))).
  set (n := next_candidate (guard r)). pose proof (ok_next _ Hr) as Hn. fold n in Hn.
  destruct (decide (Forall (λ i, i ∈ active_indices (guard r)) (seqZ 0 255))) as [Hall|Hnot].
  - exfalso. assert (size (list_to_set (C := gset Z) (seqZ 0 255)) ≤ size (active_indices (guard r))) as Hle.
    { apply subseteq_size. intros i Hi%elem_of_list_to_set. rewrite Forall_forall in Hall. auto. }
    rewrite size_list_to_set in Hle by apply NoDup_seqZ. rewrite length_seqZ in Hle.
    pose proof (active_size r Hr) as Hs. unfold MAX_PEERS_PER_ROOM in Hs. lia.
  - apply not_Forall_Exists, Exists_exists in Hnot as (i & Hi & Hfree); [|by intros; apply _].
    apply elem_of_seqZ in Hi. exists (Z.to_nat ((i - n) mod 255)).
    pose proof (Z.mod_pos_bound (i - n) 255). split; [unfold ALLOC_ROUNDS; lia|].
    rewrite Z2Nat.id, Zplus_mod_idemp_r by lia. replace (n + (i - n))%Z with i by lia.
    by rewrite Z.mod_small by lia.
Qed.

Lemma version_conflict_None v g :
  version_conflict v g = None ↔ ∀ w, pinned_version g = Some w → w = v.
Proof.
  unfold version_conflict. destruct (pinned_version g) as [w|]; [|naive_solver].
  destruct (w =? v)%Z eqn:E; boolify; naive_solver.
Qed.

Lemma room_ok_add r id key v : room_ok r → peers r !! id = None → room_ok (add_peer id key v r).2.
Proof.
  intros Hr Hid. unfold add_peer. destruct (ended (guard r)); [done|]. case_match eqn:Hfull; [done|]. boolify.
  destruct (version_conflict v (guard r)) eqn:Hv; [done|]. rewrite version_conflict_None in Hv.
  destruct (first_free r Hr) as (k & Hk & Hfree & Hpre).
  destruct (alloc_loop_first ALLOC_ROUNDS (guard r) k (ok_next _ Hr) Hk Hpre Hfree) as (e & g' & Halloc).
  unfold alloc. rewrite Halloc. simpl.
  apply alloc_loop_Some in Halloc as (Hidx & Hnin & Hact & He & Hep & Hnext & Hrev & Hpin & _); [|apply Hr].
  apply admit_ok; simpl; try done.
  - by rewrite Hnext; apply rotate_range; lia.
  - rewrite Hpin. destruct (pinned_version (guard r)) as [w|] eqn:Ew; simpl; [|done]. by rewrite (Hv w).
Qed.

Lemma room_ok_add_at r id key v i :
  room_ok r → peers r !! id = None → (0 ≤ i < 2 ^ 8)%Z → room_ok (add_peer_at_index id key v i r).2.
Proof.
  intros Hr Hid Hi. unfold add_peer_at_index. destruct (ended (guard r)); [done|]. case_match eqn:Hfull; [done|].
  boolify. destruct (version_conflict v (guard r)) eqn:Hv; [done|]. rewrite version_conflict_None in Hv. simpl.
  apply admit_ok; simpl; try done.
  - apply rotate_range. lia.
  - destruct (pinned_version (guard r)) as [w|] eqn:Ew; simpl; [|done]. by rewrite (Hv w).
Qed.

(** ** Removal *)

Lemma release_ok r id p :
  room_ok r → peers r !! id = Some p → let '(d, r') := release id p r in room_ok (publish d r').
Proof.
  intros [Hcap Hact Huniq Hnext Hpin Hrev Hlog Hep Hje Hrep] Hp. simpl.
  assert (∀ id' p', peers r !! id' = Some p' → id' ≠ id → peer_index p' ≠ peer_index p) as Hdiff
    by (intros id' p' Hp' Hne Heq; apply Hne; by eapply Huniq).
  split; simpl; try done.
  - rewrite map_size_delete, Hp. lia.
  - intros i. rewrite elem_of_difference, elem_of_singleton, Hact. split.
    + intros [(id' & p' & Hp' & Hi) Hne]. exists id', p'. rewrite lookup_delete_ne; [done|]. intros <-. congruence.
    + intros (id' & p' & [Hne Hp']%lookup_delete_Some & Hi). split; [eauto|]. subst i. by apply Hdiff in Hp'.
  - intros id1 id2 p1 p2 [_ Hp1]%lookup_delete_Some [_ Hp2]%lookup_delete_Some. by eapply Huniq.
  - intros id' p' [_ Hp']%lookup_delete_Some. by eapply Hpin.
  - rewrite Hrev, wrap_succ, length_app by lia. f_equal. simpl. lia.
  - intros k d [Hd|[Hk Hd]]%lookup_app_Some; [by apply Hlog|]. apply list_lookup_singleton_Some in Hd as [Hk0 <-].
    simpl. rewrite Hrev, wrap_succ by lia. f_equal. lia.
  - intros i. rewrite joins_app, Hep. f_equal. unfold joins at 3; simpl. lia.
  - intros k d p' [Hd|[Hk Hd]]%lookup_app_Some Hj.
    + rewrite take_app_le by (apply lookup_lt_Some in Hd; lia). by eapply Hje.
    + apply list_lookup_singleton_Some in Hd as [Hk0 <-]. done.
  - intros i rp. unfold replay. rewrite foldl_app. simpl. unfold apply_delta at 1. simpl.
    fold (replay (roster_log r)). rewrite lookup_delete_Some, Hrep. unfold occupies. simpl. split.
    + intros [Hne (id' & p' & Hp' & Hrp & Hi)]. exists id', p'. rewrite lookup_delete_ne; [done|].
      intros <-. congruence.
    + intros (id' & p' & [Hne Hp']%lookup_delete_Some & Hrp & Hi). split; [|by exists id', p'].
      subst i. apply not_eq_sym, Hdiff with id'; [done|congruence].
Qed.

Lemma room_ok_remove r id : room_ok r → room_ok (remove_peer id r).2.
Proof.
  intros Hr. unfold remove_peer. destruct (peers r !! id) as [p|] eqn:Hp; [|done].
  pose proof (release_ok r id p Hr Hp) as H. destruct (release id p r). done.
Qed.

Lemma room_ok_remove_check r id : room_ok r → room_ok (remove_peer_and_check_ended id r).2.
Proof.
  intros Hr. unfold remove_peer_and_check_ended. destruct (peers r !! id) as [p|] eqn:Hp; [|done].
  pose proof (release_ok r id p Hr Hp) as H. destruct (release id p r) as [d r']. simpl.
  destruct (negb _ && is_empty r'); [|done]. by apply (room_ok_ended true) in H.
Qed.

Lemma broadcast_same r sender frame : same_peers (peers r) (peers (broadcast_frame sender frame r)).
Proof.
  unfold broadcast_frame. destruct (peers r !! sender) as [p|]; simpl.
  - apply (same_peers_map _ (λ id q, if bool_decide (id = sender) then q else send_audio _ q)).
    intros id q. by case_bool_decide.
  - intros id. destruct (peers r !! id); [apply same_identity_refl|done].
Qed.

Lemma room_ok_step r r' : room_step r r' → room_ok r → room_ok r'.
Proof.
  destruct 1 as [| | | |r|r|r sender frame|r author frame|r json|r id p q Hp Hpq]; intros Hr;
    eauto using room_ok_add, room_ok_add_at, room_ok_remove, room_ok_remove_check.
  - by apply room_ok_ended.
  - by apply room_ok_ended.
  - pose proof (room_ok_peers r _ Hr (broadcast_same r sender frame)) as H.
    unfold broadcast_frame in *. by destruct (peers r !! sender).
  - apply room_ok_peers; [done|]. apply same_peers_fmap. intros q. by case_match.
  - apply room_ok_peers; [done|]. by apply same_peers_fmap.
  - apply room_ok_peers; [done|]. intros id'. destruct (decide (id = id')) as [<-|].
    + by rewrite Hp, lookup_insert_eq.
    + rewrite lookup_insert_ne by done. destruct (peers r !! id'); [apply same_identity_refl|done].
Qed.

Lemma room_reachable_ok community channel r : room_reachable community channel r → room_ok r.
Proof.
  unfold room_reachable. intros H. assert (room_ok (room_new community channel)) as Hn by apply room_ok_new.
  revert Hn. induction H; eauto using room_ok_step.
Qed.

(** The log only grows, and the room keeps its name. *)
Lemma room_step_log r r' :
  room_step r r' →
  (∃ ds, roster_log r' = roster_log r ++ ds) ∧ community_id r' = community_id r ∧ channel_id r' = channel_id r.
Proof.
  destruct 1 as [r id key v|r id key v i|r id|r id| | |r sender frame| | |];
    try (split; [exists []; by rewrite app_nil_r|done]).
  - unfold add_peer. repeat case_match; simpl; try (split; [exists []; by rewrite app_nil_r|done]); eauto.
  - unfold add_peer_at_index. repeat case_match; simpl; try (split; [exists []; by rewrite app_nil_r|done]); eauto.
  - unfold remove_peer. destruct (peers r !! id); simpl; [eauto|split; [exists []; by rewrite app_nil_r|done]].
  - unfold remove_peer_and_check_ended.
    destruct (peers r !! id); simpl; [|split; [exists []; by rewrite app_nil_r|done]].
    repeat case_match; simpl; eauto.
  - unfold broadcast_frame. destruct (peers r !! sender); (split; [exists []; by rewrite app_nil_r|done]).
Qed.

Lemma joins_take_lt i log k1 k2 d1 :
  k1 < k2 → log !! k1 = Some d1 → joins_at i d1 = true → joins i (take k1 log) < joins i (take k2 log).
Proof.
  intros Hlt Hd Hj. pose proof (lookup_lt_Some _ _ _ Hd) as Hlen.
  assert (take k2 log = take k1 log ++ d1 :: take (k2 - S k1) (drop (S k1) log)) as ->.
  { rewrite <- (take_drop_middle log k1 d1 Hd) at 1. rewrite take_app, take_take, length_take.
    rewrite !Nat.min_r, Nat.min_l by lia. destruct (k2 - k1) as [|n] eqn:E; [lia|]. simpl.
    by replace (k2 - S k1) with n by lia. }
  rewrite joins_app. unfold joins at 3. simpl. rewrite Hj. simpl. lia.
Qed.

Lemma apply_deltas_app ds1 ds2 : replay (ds1 ++ ds2) = foldl apply_delta (replay ds1) ds2.
Proof. apply foldl_app. Qed.

(** The snapshot as a receiver's roster. *)
Definition roster_map (s : RosterSnapshot) : gmap Z RosterPeer :=
  list_to_map ((λ p, (rp_peer_index p, p)) <$> rs_peers s).

Lemma snapshot_replay {HO : HashOrder} r : room_ok r → roster_map (roster_snapshot r) = replay (roster_log r).
Proof.
  intros Hr. apply map_eq; intros i. apply option_eq; intros rp. rewrite (ok_replay _ Hr).
  unfold roster_map, roster_snapshot; simpl.
  assert (∀ q, q ∈ sort_by_key rp_peer_index (roster_peer ∘ snd <$> hash_iter (peers r)) ↔
            ∃ id p, peers r !! id = Some p ∧ q = roster_peer p) as Hin.
  { intros q. rewrite (sort_by_key_perm rp_peer_index), list_elem_of_fmap. split.
    - intros ([id p] & -> & Hp%hash_iter_elem). by exists id, p.
    - intros (id & p & Hp & ->). exists (id, p). by rewrite hash_iter_elem. }
  rewrite <- elem_of_list_to_map.
  - rewrite list_elem_of_fmap. unfold occupies. setoid_rewrite Hin. split.
    + intros (q & [= -> ->] & id & p & Hp & ->). by exists id, p.
    + intros (id & p & Hp & <- & <-). exists (roster_peer p). split; [done|]. by exists id, p.
  - rewrite <- list_fmap_compose.
    assert (∀ l : list RosterPeer, (fst ∘ λ p, (rp_peer_index p, p)) <$> l = rp_peer_index <$> l) as -> by done.
    rewrite (sort_by_key_perm rp_peer_index), (hash_iter_perm (peers r)), <- list_fmap_compose.
    apply NoDup_fmap_2_strong; [|apply NoDup_map_to_list].
    intros [id p] [id' p'] Hp%elem_of_map_to_list Hp'%elem_of_map_to_list Heq. simpl in Heq.
    assert (id = id') as <- by by eapply (ok_unique _ Hr). congruence.
Qed.

Lemma rtc_room_log r r' :
  rtc room_step r r' →
  (∃ ds, roster_log r' = roster_log r ++ ds) ∧ community_id r' = community_id r ∧ channel_id r' = channel_id r.
Proof.
  induction 1 as [r|r r1 r2 Hstep _ ((ds & Hds) & Hc & Hch)].
  - split; [exists []; by rewrite app_nil_r|done].
  - apply room_step_log in Hstep as ((ds' & Hds') & Hc' & Hch').
    split; [exists (ds' ++ ds); by rewrite Hds, Hds', app_assoc|]. split; congruence.
Qed.

Lemma rtc_room_ok r r' : rtc room_step r r' → room_ok r → room_ok r'.
Proof. induction 1; eauto using room_ok_step. Qed.

(** ** Claims *)

(** C5: In every reachable audio room there are at most 25 peers, peers have distinct indices,
    the active index set is exactly the set of peer indices, all peers use the pinned protocol
    version, and the roster revision counts the published deltas modulo 2^64. *)
Theorem room_invariant community channel r :
  room_reachable community channel r →
  size (peers r) ≤ MAX_PEERS_PER_ROOM ∧
  (∀ id id' p p', peers r !! id = Some p → peers r !! id' = Some p' →
     peer_index p = peer_index p' → id = id') ∧
  (∀ i, i ∈ active_indices (guard r) ↔ ∃ id p, peers r !! id = Some p ∧ peer_index p = i) ∧
  (∀ id p, peers r !! id = Some p → pinned_version (guard r) = Some (protocol_version p)) ∧
  roster_revision (guard r) = wrap 64 (Z.of_nat (length (roster_log r))).
Proof. intros Hr%room_reachable_ok. split_and!; apply Hr. Qed.

(** Admission checks in the order ended, full, version conflict; an admitted peer gets the
    first free index from the rotating candidate and its next epoch, is inserted, pins the
    version, and allocation never fails below the participant cap. *)
Theorem admission_precedence community channel r id key v :
  room_reachable community channel r → peers r !! id = None →
  let '(res, r') := add_peer id key v r in
  if ended (guard r) then res = Err Ended ∧ r' = r
  else if MAX_PEERS_PER_ROOM <=? size (peers r) then res = Err Full ∧ r' = r
  else match version_conflict v (guard r) with
       | Some e => res = Err e ∧ r' = r
       | None =>
           ∃ k idx, idx = ((next_candidate (guard r) + Z.of_nat k) mod 255)%Z ∧
             (idx ∉ active_indices (guard r)) ∧
             (∀ j, j < k → ((next_candidate (guard r) + Z.of_nat j) mod 255)%Z ∈ active_indices (guard r)) ∧
             let e := default 0%Z (index_epochs (guard r) !! idx) in
             res = Ok {| pa_peer_id := id; pa_peer_index := idx; pa_epoch := e;
                         pa_revision := roster_revision (guard r') |} ∧
             peers r' = <[id := new_peer key idx e v]> (peers r) ∧
             pinned_version (guard r') = Some v
       end.
Proof.
  intros Hr%room_reachable_ok Hid. unfold add_peer. destruct (ended (guard r)); [done|].
  destruct (MAX_PEERS_PER_ROOM <=? size (peers r)); [done|].
  destruct (version_conflict v (guard r)) eqn:Hv; [done|]. rewrite version_conflict_None in Hv.
  destruct (first_free r Hr) as (k & Hk & Hfree & Hpre).
  destruct (alloc_loop_first ALLOC_ROUNDS (guard r) k (ok_next _ Hr) Hk Hpre Hfree) as (e & g' & Halloc).
  unfold alloc. rewrite Halloc. apply alloc_loop_Some in Halloc as (_ & _ & _ & He & _ & _ & _ & Hpin & _); [|apply Hr].
  exists k, ((next_candidate (guard r) + Z.of_nat k) mod 255)%Z. rewrite <- He.
  split_and!; try done. simpl. rewrite Hpin.
  destruct (pinned_version (guard r)) as [w|]; simpl; [|done]. by rewrite (Hv w).
Qed.

(** Removing a peer asks for the huddle to end exactly when it was the last peer of a room
    not yet ended; from then on no peer is admitted and no later removal asks again. *)
Theorem auto_end_spec r id d should_end r' :
  remove_peer_and_check_ended id r = (Some (d, should_end), r') →
  (should_end = true ↔ ended (guard r) = false ∧ dom (peers r) = {[id]}) ∧
  peers r' = delete id (peers r) ∧ ended (guard r') = ended (guard r) || should_end ∧
  (ended (guard r') = true →
    (∀ id' key v, add_peer id' key v r' = (Err Ended, r')) ∧
    (∀ id' key v i, add_peer_at_index id' key v i r' = (Err Ended, r')) ∧
    (∀ id' d' b r'', remove_peer_and_check_ended id' r' = (Some (d', b), r'') → b = false)).
Proof.
  unfold remove_peer_and_check_ended. destruct (peers r !! id) as [p|] eqn:Hp; [|done]. simpl.
  assert (is_empty (with_guard (bump_revision (set_allocation (next_candidate (guard r))
     (active_indices (guard r) ∖ {[peer_index p]}) (index_epochs (guard r)) (guard r)))
     (with_peers (delete id (peers r)) r)) = true ↔ dom (peers r) = {[id]}) as Hempty.
  { unfold is_empty; simpl. rewrite bool_decide_eq_true, <- (dom_empty_iff_L (delete id (peers r))), dom_delete_L.
    apply elem_of_dom_2 in Hp. split; [|intros ->; set_solver]. intros He. apply set_eq; intros i.
    destruct (decide (i = id)) as [->|]; set_solver. }
  intros [= <- <- <-]. rewrite andb_true_iff, negb_true_iff, Hempty. split; [done|].
  set (b := negb _ && _). split; [by destruct b|]. split.
  - unfold b. destruct (ended (guard r)) eqn:E; simpl; [done|]. by case_match.
  - intros He. split_and!.
    + intros. unfold add_peer. by rewrite He.
    + intros. unfold add_peer_at_index. by rewrite He.
    + intros id' d' b' r''. unfold remove_peer_and_check_ended. destruct (peers _ !! id'); [|done]. simpl.
      simpl in He. rewrite He. by intros [= _ <- _].
Qed.

(** C28: Two occupants of one peer index carry different epochs as long as the later one was
    admitted fewer than 256 admissions at that index after the earlier one (its successor being
    the first), so receivers can fence frames of a departed occupant. *)
Theorem epochs_tell_occupants_apart community channel r k1 k2 d1 d2 p1 p2 :
  room_reachable community channel r →
  roster_log r !! k1 = Some d1 → roster_log r !! k2 = Some d2 → k1 < k2 →
  rd_joined d1 = Some p1 → rd_joined d2 = Some p2 → rp_peer_index p1 = rp_peer_index p2 →
  joins (rp_peer_index p1) (take k2 (roster_log r)) - joins (rp_peer_index p1) (take k1 (roster_log r)) < 256 →
  rp_epoch p1 ≠ rp_epoch p2.
Proof.
  intros Hr%room_reachable_ok Hd1 Hd2 Hlt Hj1 Hj2 Hidx Hfew.
  rewrite (ok_join_epoch _ Hr k1 d1 p1), (ok_join_epoch _ Hr k2 d2 p2), <- Hidx by done.
  pose proof (joins_take_lt (rp_peer_index p1) (roster_log r) k1 k2 d1 Hlt Hd1) as Hgrow.
  unfold joins_at in Hgrow. rewrite Hj1, Z.eqb_refl in Hgrow. specialize (Hgrow eq_refl).
  unfold wrap. change (2 ^ 8)%Z with 256%Z. Z.to_euclidean_division_equations. lia.
Qed.

(** A mesh follower that starts from any roster snapshot and applies the published deltas
    in order obtains the current roster, with consecutive revision numbers modulo 2^64. *)
Theorem roster_resync {HO : HashOrder} community channel r0 r :
  room_reachable community channel r0 → rtc room_step r0 r →
  ∃ ds, roster_log r = roster_log r0 ++ ds ∧
    (∀ k d, ds !! k = Some d →
       rd_revision d = wrap 64 (rs_revision (roster_snapshot r0) + Z.of_nat (S k))) ∧
    foldl apply_delta (roster_map (roster_snapshot r0)) ds = roster_map (roster_snapshot r).
Proof.
  intros Hr0%room_reachable_ok Hrtc. pose proof (rtc_room_ok _ _ Hrtc Hr0) as Hr.
  destruct (rtc_room_log _ _ Hrtc) as ((ds & Hds) & _). exists ds. split_and!; [done| |].
  - intros k d Hd. rewrite (ok_log _ Hr (length (roster_log r0) + k) d).
    + simpl. rewrite (ok_revision _ Hr0). unfold wrap. rewrite Zplus_mod_idemp_l. f_equal. lia.
    + rewrite Hds, lookup_app_r by lia. by replace (length (roster_log r0) + k - length (roster_log r0)) with k by lia.
  - by rewrite !snapshot_replay, Hds, apply_deltas_app.
Qed.

(** A frame of a present sender goes to every other peer prefixed by the sender index, and
    from protocol 3 also its epoch; a frame of an unknown sender goes nowhere and no other room
    state changes. *)
Theorem frame_fan_out r sender frame :
  let r' := broadcast_frame sender frame r in
  guard r' = guard r ∧ roster_log r' = roster_log r ∧
  ∀ id, peers r' !! id =
    match peers r !! sender, peers r !! id with
    | Some p, Some q =>
        if decide (id = sender) then Some q
        else Some (send_audio ((if (3 <=? protocol_version p)%Z then [peer_index p; epoch p] else [peer_index p])
                               ++ frame) q)
    | None, o => o
    | Some _, None => None
    end.
Proof.
  unfold broadcast_frame. destruct (peers r !! sender) as [p|] eqn:Hp; simpl; [|done].
  split_and!; [done|done|]. intros id. rewrite map_lookup_imap. destruct (peers r !! id) as [q|]; simpl; [|done].
  unfold prefix_of. case_bool_decide; by case_decide.
Qed.

(** ** The manager *)

Record manager_ok (m : AudioRoomManager) : Prop := {
  mok_rooms : ∀ c ch ref, rooms m !! (c, ch) = Some ref →
    ∃ r, heap m !! ref = Some r ∧ community_id r = c ∧ channel_id r = ch;
  mok_heap : ∀ ref r, heap m !! ref = Some r → room_reachable (community_id r) (channel_id r) r
}.

Lemma manager_step_ok m m' : manager_step m m' → manager_ok m → manager_ok m'.
Proof.
  destruct 1 as [m c ch|m c ch|m ref r r' Href Hstep]; intros [Hrooms Hheap].
  - unfold get_or_create. destruct (rooms m !! (c, ch)) as [ref|] eqn:E; [done|]. split; simpl.
    + intros c' ch' ref [[[= <- <-] <-]|[_ Hr]]%lookup_insert_Some.
      * exists (room_new c ch). by rewrite lookup_app_r, Nat.sub_diag by lia.
      * destruct (Hrooms _ _ _ Hr) as (r & Hr' & ? & ?). exists r. split; [|done].
        by apply lookup_app_l_Some.
    + intros ref r [Hr|[_ Hr]]%lookup_app_Some; [by apply (Hheap ref)|].
      apply list_lookup_singleton_Some in Hr as [_ <-]. constructor.
  - unfold cleanup_if_empty. destruct (rooms m !! (c, ch)) as [ref|]; [|done].
    destruct (match heap m !! ref with Some r => is_empty r | None => false end); simpl; [|done].
    split; simpl; [|done]. intros c' ch' ref' [_ Hr]%lookup_delete_Some. by apply Hrooms.
  - destruct (room_step_log _ _ Hstep) as (_ & Hc & Hch). split; simpl.
    + intros c ch ref' Hr. destruct (Hrooms _ _ _ Hr) as (r0 & Hr0 & Hc0 & Hch0).
      destruct (decide (ref' = ref)) as [->|Hne].
      * simplify_eq. exists r'. split; [|by split; congruence]. apply list_lookup_insert_eq. by eapply lookup_lt_Some.
      * exists r0. by rewrite list_lookup_insert_ne.
    + intros ref' r0. destruct (decide (ref' = ref)) as [->|Hne].
      * rewrite list_lookup_insert_eq by (by eapply lookup_lt_Some). intros [= <-].
        rewrite Hc, Hch. eapply rtc_r; [by apply (Hheap ref)|done].
      * rewrite list_lookup_insert_ne by done. apply Hheap.
Qed.

Lemma manager_reachable_ok m : manager_reachable m → manager_ok m.
Proof.
  unfold manager_reachable. intros H.
  assert (manager_ok manager_new) as Hn by (split; simpl; [intros ??? Hr; by rewrite lookup_empty in Hr|done]).
  revert Hn. induction H; eauto using manager_step_ok.
Qed.

Lemma unambiguous_Some {HO : HashOrder} channel m ref :
  get_unambiguous_by_channel channel m = Some ref →
  ∃ c, rooms m !! (c, channel) = Some ref ∧
    ∀ c' ref', rooms m !! (c', channel) = Some ref' → c' = c.
Proof.
  unfold get_unambiguous_by_channel.
  destruct (List.filter _ _) as [|[[c ch] ref0] [|]] eqn:E; [done| |done]. simpl. intros [= ->].
  assert (∀ k v, (k, v) ∈ List.filter (λ kv : Uuid * Uuid * nat, bool_decide (kv.1.2 = channel)) (hash_iter (rooms m)) ↔
            rooms m !! k = Some v ∧ k.2 = channel) as Hin.
  { intros k v. rewrite list_elem_of_In, filter_In, <- list_elem_of_In, hash_iter_elem. simpl.
    by rewrite bool_decide_eq_true. }
  rewrite E in Hin. destruct (proj1 (Hin (c, ch) ref)) as [Hk Hch]; [by left|]. simpl in Hch. subst ch.
  exists c. split; [done|]. intros c' ref' Hk'.
  assert (((c', channel), ref') ∈ [((c, channel), ref)]) as H%list_elem_of_singleton by (apply Hin; done).
  congruence.
Qed.

(** The room manager keeps one room per community and channel, two keys never share a room,
    the lookup by channel alone answers only when one community has a room there, and cleanup
    removes exactly an empty room. *)
Theorem rooms_are_isolated {HO : HashOrder} m :
  manager_reachable m →
  (∀ c ch ref, get c ch m = Some ref →
     ∃ r, heap m !! ref = Some r ∧ room_reachable c ch r) ∧
  (∀ c ch c' ch' ref, get c ch m = Some ref → get c' ch' m = Some ref → c = c' ∧ ch = ch') ∧
  (∀ ch ref, get_unambiguous_by_channel ch m = Some ref →
     ∃ c, get c ch m = Some ref ∧ ∀ c', is_Some (get c' ch m) → c' = c) ∧
  (∀ c ch removed m', cleanup_if_empty c ch m = (removed, m') →
     heap m' = heap m ∧
     (removed = true → get c ch m' = None ∧ ∃ ref r, get c ch m = Some ref ∧ heap m !! ref = Some r ∧ peers r = ∅) ∧
     (∀ c' ch', (c', ch') ≠ (c, ch) → get c' ch' m' = get c' ch' m)).
Proof.
  intros [Hrooms Hheap]%manager_reachable_ok. unfold get. split_and!.
  - intros c ch ref (r & Hr & <- & <-)%Hrooms. exists r. split; [done|]. by apply (Hheap ref).
  - intros c ch c' ch' ref (r & Hr & <- & <-)%Hrooms (r' & Hr' & <- & <-)%Hrooms. by simplify_eq.
  - intros ch ref (c & Hc & Hall)%unambiguous_Some. exists c. split; [done|]. intros c' [ref' Hr]. by eapply Hall.
  - intros c ch removed m'. unfold cleanup_if_empty. destruct (rooms m !! (c, ch)) as [ref|] eqn:E.
    + destruct (heap m !! ref) as [r|] eqn:Er; [|by intros [= <- <-]].
      destruct (is_empty r) eqn:Ee; intros [= <- <-]; simpl; [|done]. split_and!; [done| |].
      * intros _. rewrite lookup_delete_eq. split; [done|]. exists ref, r. split_and!; [done..|].
        unfold is_empty in Ee. by boolify.
      * intros c' ch' Hne. by rewrite lookup_delete_ne by congruence.
    + by intros [= <- <-].
Qed.

End props.

(** ** Witnesses: bounded queues as channels, two peers admitted, one replaced *)

Definition bounded_channels : ChannelLib := {|
  Chan := λ M, (nat * list M)%type;
  chan_new := λ M n, (n, []);
  chan_dead := λ M, (0, []);
  try_send := λ M x ch, if (length ch.2 <? ch.1)%nat then Some (ch.1, ch.2 ++ [x]) else None
|}.

Definition demo_room1 : Room (CL := bounded_channels) := (add_peer 1 "alice" 3 (room_new 100 7)).2.
Definition demo_room2 : Room (CL := bounded_channels) := (add_peer_at_index 2 "bob" 3 5 demo_room1).2.
Definition demo_room3 : Room (CL := bounded_channels) := (remove_peer 2 demo_room2).2.
Definition demo_room4 : Room (CL := bounded_channels) := (add_peer_at_index 3 "carol" 3 5 demo_room3).2.

Lemma demo_steps14 : rtc room_step demo_room1 demo_room4.
Proof.
  eapply rtc_l; [refine (step_add_at_index demo_room1 2 "bob" 3 5 _ _); [vm_compute; reflexivity|lia]|].
  eapply rtc_l; [exact (step_remove_peer demo_room2 2)|].
  apply rtc_once. refine (step_add_at_index demo_room3 3 "carol" 3 5 _ _); [vm_compute; reflexivity|lia].
Qed.
Lemma demo_reach1 : room_reachable 100 7 demo_room1.
Proof. apply rtc_once. refine (step_add_peer _ 1 "alice" 3 _). vm_compute. reflexivity. Qed.
Lemma demo_reach4 : room_reachable 100 7 demo_room4.
Proof. unfold room_reachable. etrans; [apply demo_reach1|apply demo_steps14]. Qed.

Example room_invariant_witness :
  size (peers demo_room4) = 2 ∧ roster_revision (guard demo_room4) = 4%Z ∧
  size (peers demo_room4) ≤ MAX_PEERS_PER_ROOM.
Proof.
  split; [vm_compute; reflexivity|]. split; [vm_compute; reflexivity|].
  exact (proj1 (room_invariant 100 7 demo_room4 demo_reach4)).
Defined.

Example admission_precedence_witness :
  (add_peer 9 "old" 2 demo_room4).1 = Err (VersionMismatch 3 2).
Proof.
  pose proof (admission_precedence 100 7 demo_room4 9 "old" 2 demo_reach4 ltac:(vm_compute; reflexivity)) as H.
  destruct (add_peer 9 "old" 2 demo_room4) as [res r'].
  vm_compute in H. exact (proj1 H).
Defined.

Example auto_end_spec_witness :
  ∃ d r', remove_peer_and_check_ended 1 demo_room1 = (Some (d, true), r') ∧
    add_peer 8 "late" 3 r' = (Err Ended, r').
Proof.
  destruct (remove_peer_and_check_ended 1 demo_room1) as [[[d b]|] r'] eqn:E; [|vm_compute in E; discriminate].
  destruct (auto_end_spec demo_room1 1 d b r' E) as (Hb & _ & He & H).
  assert (b = true) as -> by (apply Hb; split; vm_compute; reflexivity).
  exists d, r'. split; [reflexivity|]. apply H. rewrite He. reflexivity.
Defined.

Example epochs_tell_occupants_apart_witness :
  ∃ d1 d2 p1 p2, roster_log demo_room4 !! 1 = Some d1 ∧ roster_log demo_room4 !! 3 = Some d2 ∧
    rd_joined d1 = Some p1 ∧ rd_joined d2 = Some p2 ∧ rp_peer_index p1 = rp_peer_index p2 ∧
    rp_epoch p1 ≠ rp_epoch p2.
Proof.
  do 4 eexists. split_and!; [vm_compute; reflexivity..|].
  eapply (epochs_tell_occupants_apart 100 7 demo_room4 1 3 _ _ _ _ demo_reach4);
    (vm_compute; first [reflexivity|lia]).
Defined.

Example roster_resync_witness :
  ∃ ds, roster_log demo_room4 = roster_log demo_room1 ++ ds ∧
    foldl apply_delta (roster_map (roster_snapshot (HO := canonical_order) demo_room1)) ds =
      roster_map (roster_snapshot (HO := canonical_order) demo_room4).
Proof.
  destruct (roster_resync (HO := canonical_order) 100 7 demo_room1 demo_room4 demo_reach1 demo_steps14)
    as (ds & H1 & _ & H2).
  exists ds. split; [exact H1|exact H2].
Defined.

Definition demo_manager : AudioRoomManager (CL := bounded_channels) :=
  (get_or_create 200 7 (get_or_create 100 7 manager_new).2).2.

Lemma demo_manager_reachable : manager_reachable demo_manager.
Proof.
  eapply rtc_l; [exact (mstep_create manager_new 100 7)|].
  apply rtc_once. exact (mstep_create _ 200 7).
Qed.

Example rooms_are_isolated_witness :
  get_unambiguous_by_channel (HO := canonical_order) 7 demo_manager = None ∧
  ∃ r, heap demo_manager !! 1 = Some r ∧ room_reachable 200 7 r.
Proof.
  split; [vm_compute; reflexivity|].
  apply (proj1 (rooms_are_isolated (HO := canonical_order) demo_manager demo_manager_reachable) 200%N 7%N 1).
  vm_compute. reflexivity.
Defined.
