(* ===== verification/AudioWire.v ===== *)
(** * The audio frame header ([crates/maju-relay/src/audio/wire.rs] and the
      desktop's [desktop/src-tauri/src/huddle/wire.rs])

    [as i8] is written out; the byte order is [Bytes].  The relay only parses the header; [encode] and
    [parse_relay_frame] are the client's half, in the desktop.  The two
    [FrameHeader::parse] have the same body, modelled once. *)
From S2P Require Import Prelude Bytes.

Definition V2_HEADER_LEN : nat := 8.
Definition FLAG_DTX : Z := 1.

Record FrameHeader := { seq : Z; ts_48k : Z; level_dbov : Z; flags : Z }.

Definition is_dtx (h : FrameHeader) : bool := negb (Z.land (flags h) FLAG_DTX =? 0)%Z.

Definition as_i8 (b : Z) : Z := if (b <? 128)%Z then b else (b - 256)%Z.

Definition parse_header (bytes : list Z) : option (FrameHeader * list Z) :=
  match bytes with
  | b0 :: b1 :: b2 :: b3 :: b4 :: b5 :: b6 :: b7 :: rest =>
      let raw_level := as_i8 b6 in
      Some ({| seq := from_be_bytes [b0; b1]; ts_48k := from_be_bytes [b2; b3; b4; b5];
               level_dbov := if (-127 <=? raw_level)%Z && (raw_level <=? 0)%Z then raw_level else (-127)%Z;
               flags := b7 |}, rest)
  | _ => None
  end.

(** ** The client's half *)

Definition encode (h : FrameHeader) : list Z :=
  [byte_at 1 (seq h); byte_at 0 (seq h); byte_at 3 (ts_48k h); byte_at 2 (ts_48k h); byte_at 1 (ts_48k h);
   byte_at 0 (ts_48k h); byte_at 0 (level_dbov h); flags h].

Definition parse_relay_frame (bytes : list Z) : option (Z * FrameHeader * list Z) :=
  match bytes with
  | [] => None
  | peer_index :: framed_audio =>
      '(header, opus_payload) ← parse_header framed_audio;
      match opus_payload with [] => None | _ => Some (peer_index, header, opus_payload) end
  end.

(** The ranges of the Rust types, and the range of a level. *)
Definition header_ok (h : FrameHeader) : Prop :=
  in_width 16 (seq h) ∧ in_width 32 (ts_48k h) ∧ (-127 ≤ level_dbov h ≤ 0)%Z ∧ in_width 8 (flags h).

Lemma parse_encode h payload : header_ok h → parse_header (encode h ++ payload) = Some (h, payload).
Proof.
  destruct h as [s t l f]. intros (Hs & Ht & Hl & Hf). unfold encode, in_width in *; simpl in *.
  change (2 ^ 16)%Z with 65536%Z in Hs. change (2 ^ 32)%Z with 4294967296%Z in Ht.
  rewrite !byte_at_div by lia. unfold from_be_bytes, as_i8; simpl.
  change (256 ^ 1)%Z with 256%Z. change (256 ^ 0)%Z with 1%Z. change (256 ^ 2)%Z with 65536%Z.
  change (256 ^ 3)%Z with 16777216%Z. rewrite !Z.div_1_r.
  assert (Hlev : (if (l mod 256 <? 128)%Z then l mod 256 else l mod 256 - 256)%Z = l)
    by (case_match; boolify; Z.to_euclidean_division_equations; lia).
  rewrite Hlev. assert (((-127 <=? l)%Z && (l <=? 0)%Z) = true) as -> by (apply andb_true_iff; lia).
  do 2 f_equal. f_equal; Z.to_euclidean_division_equations; lia.
Qed.

Lemma parse_short bytes : parse_header bytes = None ↔ length bytes < V2_HEADER_LEN.
Proof.
  unfold V2_HEADER_LEN.
  do 8 (destruct bytes as [|? bytes]; [simpl; split; [lia|done]|]). simpl. split; [done|lia].
Qed.

(** A frame header written by the client is read back unchanged by relay and client,
    exactly the frames shorter than 8 bytes are rejected, every accepted header has its level in
    -127..=0 and leaves the payload untouched, and a relayed frame parses exactly when its
    payload is non-empty. *)
Theorem frame_header_round_trip :
  (∀ h payload, header_ok h → parse_header (encode h ++ payload) = Some (h, payload)) ∧
  (∀ bytes, parse_header bytes = None ↔ length bytes < V2_HEADER_LEN) ∧
  (∀ bytes h rest, Forall (in_width 8) bytes → parse_header bytes = Some (h, rest) →
     header_ok h ∧ rest = drop V2_HEADER_LEN bytes) ∧
  (∀ index h payload, header_ok h →
     parse_relay_frame (index :: encode h ++ payload) =
       match payload with [] => None | _ => Some (index, h, payload) end) ∧
  (∀ bytes, is_Some (parse_relay_frame bytes) ↔ 1 + V2_HEADER_LEN < length bytes).
Proof.
  split_and!.
  - apply parse_encode.
  - apply parse_short.
  - intros bytes h rest Hb.
    do 8 (destruct bytes as [|? bytes]; [done|]). simpl. intros [= <- <-]. split; [|done].
    repeat match goal with H : Forall _ (_ :: _) |- _ => inversion H; clear H; subst end.
    unfold header_ok, in_width, from_be_bytes in *; simpl. split_and!; try lia; case_match; boolify; lia.
  - intros index h payload Hh. unfold parse_relay_frame. rewrite parse_encode by done. csimpl. by destruct payload.
  - intros [|b bytes]; [split; [by intros []|cbn [length]; lia]|]. unfold parse_relay_frame.
    destruct (parse_header bytes) as [[h p]|] eqn:E.
    + do 8 (destruct bytes as [|? bytes]; [done|]). injection E as <- <-. csimpl. unfold V2_HEADER_LEN.
      destruct bytes; simpl; split; try lia; try done; intros []; done.
    + apply parse_short in E. csimpl. split; [by intros []|lia].
Qed.
