(* ===== verification/Conformance.v ===== *)
(** * The tenant-isolation trace checker ([crates/maju-conformance])

    The trace schema ([src/lib.rs]), the per-step judgement
    ([src/transitions.rs], [check_step]) and the replay engine
    ([src/checker.rs], [check_trace]).  The text of an error's [detail] is
    replaced by the data it interpolates; serde and the tracer sinks are not
    modelled. *)
From S2P Require Import Prelude.

(** ** Schema *)

Definition SCHEMA_VERSION : Z := 1.

Abbreviation CommunityLabel := N (only parsing).
Abbreviation ChannelLabel := N (only parsing).
Abbreviation OpaqueId := string (only parsing).
Abbreviation HostLabel := string (only parsing).
Abbreviation ActorLabel := string (only parsing).

Inductive Verdict := Allow | Deny.
Inductive SanitizedReason := Restricted | Invalid | ServerError.

Record AbstractState := {
  resolved_community : CommunityLabel;
  bound_host : HostLabel;
  actor : ActorLabel
}.

Inductive TraceAction :=
  | WriteInsert (msg_id : OpaqueId) (channel : ChannelLabel) (claimed_community : option CommunityLabel)
  | WriteInsertGlobal (msg_id : OpaqueId) (claimed_community : option CommunityLabel)
  | WriteDuplicate (msg_id : OpaqueId) (channel : ChannelLabel) (claimed_community : option CommunityLabel)
  | SanitizedError (reason : SanitizedReason)
  | AuthCheck (channel : ChannelLabel) (claimed_community : option CommunityLabel) (verdict : Verdict)
  | ReadMessageRows (channel : option ChannelLabel) (row_communities : list CommunityLabel)
  | ReadByIdRows (channel : option ChannelLabel) (row_communities : list CommunityLabel)
  | ReadHostFeedRows (row_communities : list CommunityLabel)
  | ImplBug (bug : string).

Definition action_kind (a : TraceAction) : string :=
  match a with
  | WriteInsert _ _ _ => "write_insert"
  | WriteInsertGlobal _ _ => "write_insert_global"
  | WriteDuplicate _ _ _ => "write_duplicate"
  | SanitizedError _ => "sanitized_error"
  | AuthCheck _ _ _ => "auth_check"
  | ReadMessageRows _ _ => "read_message_rows"
  | ReadByIdRows _ _ => "read_by_id_rows"
  | ReadHostFeedRows _ => "read_host_feed_rows"
  | ImplBug _ => "impl_bug"
  end.

Definition is_critical (a : TraceAction) : bool := true.

Definition action_channel (a : TraceAction) : option ChannelLabel :=
  match a with
  | WriteInsert _ channel _ | WriteDuplicate _ channel _ | AuthCheck channel _ _ => Some channel
  | ReadMessageRows channel _ | ReadByIdRows channel _ => channel
  | WriteInsertGlobal _ _ | ReadHostFeedRows _ | SanitizedError _ | ImplBug _ => None
  end.

Record TraceStep := { schema_version : Z; action : TraceAction; state_after : AbstractState }.

Definition trace_step_new (a : TraceAction) (s : AbstractState) : TraceStep :=
  {| schema_version := SCHEMA_VERSION; action := a; state_after := s |}.

(** ** One step *)

Inductive Detail :=
  | SchemaVersion (found : Z)
  | CommunityChanged (bootstrap found : CommunityLabel)
  | HostChanged (bootstrap found : HostLabel)
  | ActorChanged (bootstrap found : ActorLabel)
  | AllowForeignClaim (claimed resolved : CommunityLabel)
  | ForeignRow (foreign resolved : CommunityLabel)
  | DropGuard (bug : string)
  | EmptyTrace
  | NeverEmitted (sorted : list string).

Inductive TransitionError :=
  | IllegalTransition (step_index : nat) (detail : Detail)
  | StateMismatch (step_index : nat) (detail : Detail)
  | NonInterference (step_index : nat) (detail : Detail)
  | CoverageBreach (detail : Detail).

Record ModelState := { m_resolved_community : CommunityLabel; m_bound_host : HostLabel; m_actor : ActorLabel }.

Definition bootstrap (first : AbstractState) : ModelState :=
  {| m_resolved_community := resolved_community first; m_bound_host := bound_host first; m_actor := actor first |}.

Definition check_row_labels (step_index : nat) (model : ModelState) (row_communities : list CommunityLabel) :
  result TransitionError unit :=
  match List.find (λ c, negb (c =? m_resolved_community model)%N) row_communities with
  | Some foreign => Err (NonInterference step_index (ForeignRow foreign (m_resolved_community model)))
  | None => Ok tt
  end.

Definition check_action (step_index : nat) (model : ModelState) (a : TraceAction) : result TransitionError unit :=
  match a with
  | WriteInsert _ _ _ | WriteInsertGlobal _ _ | WriteDuplicate _ _ _ => Ok tt
  | SanitizedError reason => match reason with Restricted | Invalid | ServerError => Ok tt end
  | AuthCheck _ claimed verdict =>
      match verdict, claimed with
      | Allow, Some c =>
          if (c =? m_resolved_community model)%N then Ok tt
          else Err (IllegalTransition step_index (AllowForeignClaim c (m_resolved_community model)))
      | _, _ => Ok tt
      end
  | ReadMessageRows _ rows | ReadByIdRows _ rows => check_row_labels step_index model rows
  | ReadHostFeedRows rows => check_row_labels step_index model rows
  | ImplBug bug => Err (CoverageBreach (DropGuard bug))
  end.

Definition check_step (step_index : nat) (model : ModelState) (step : TraceStep) : result TransitionError unit :=
  let s := state_after step in
  if negb (resolved_community s =? m_resolved_community model)%N then
    Err (StateMismatch step_index (CommunityChanged (m_resolved_community model) (resolved_community s)))
  else if negb (bound_host s =? m_bound_host model)%string then
    Err (StateMismatch step_index (HostChanged (m_bound_host model) (bound_host s)))
  else if negb (actor s =? m_actor model)%string then
    Err (StateMismatch step_index (ActorChanged (m_actor model) (actor s)))
  else check_action step_index model (action step).

(** ** A scenario *)

Record Scenario := { trace : list TraceStep; required_critical_actions : gset string }.

Definition unstructured (t : list TraceStep) : Scenario := {| trace := t; required_critical_actions := ∅ |}.
Definition require (k : string) (sc : Scenario) : Scenario :=
  {| trace := trace sc; required_critical_actions := {[k]} ∪ required_critical_actions sc |}.

(** The [for] loop with its early returns. *)
Fixpoint check_steps (i : nat) (model : ModelState) (steps : list TraceStep) : result TransitionError unit :=
  match steps with
  | [] => Ok tt
  | step :: rest =>
      if negb (schema_version step =? SCHEMA_VERSION)%Z then
        Err (IllegalTransition i (SchemaVersion (schema_version step)))
      else
        match check_step i model step with
        | Err e => Err e
        | Ok _ => check_steps (S i) model rest
        end
  end.

Definition check_trace (sc : Scenario) : result TransitionError unit :=
  match trace sc with
  | [] => Err (CoverageBreach EmptyTrace)
  | first :: _ =>
      if negb (schema_version first =? SCHEMA_VERSION)%Z then
        Err (IllegalTransition 0 (SchemaVersion (schema_version first)))
      else
        match check_steps 0 (bootstrap (state_after first)) (trace sc) with
        | Err e => Err e
        | Ok _ =>
            let seen := list_to_set ((λ step, action_kind (action step)) <$> trace sc) : gset string in
            let missing := elements (required_critical_actions sc ∖ seen) in
            match missing with
            | [] => Ok tt
            | _ => Err (CoverageBreach (NeverEmitted (sort_str missing)))
            end
        end
  end.

(** ** Specification: the invariants of the TLA+ model on one request *)

(** [Inv_NonInterference] and the guards of the actions, for a request whose
    resolved community is [c]. *)
Definition action_allowed (c : CommunityLabel) (a : TraceAction) : Prop :=
  match a with
  | AuthCheck _ (Some claimed) Allow => claimed = c
  | ReadMessageRows _ rows | ReadByIdRows _ rows | ReadHostFeedRows rows => Forall (eq c) rows
  | ImplBug _ => False
  | _ => True
  end.

Definition step_conforms (s : AbstractState) (step : TraceStep) : Prop :=
  schema_version step = SCHEMA_VERSION ∧ state_after step = s ∧ action_allowed (resolved_community s) (action step).

Definition conforms (sc : Scenario) : Prop :=
  ∃ s, head (state_after <$> trace sc) = Some s ∧ Forall (step_conforms s) (trace sc) ∧
    ∀ k, k ∈ required_critical_actions sc → ∃ step, step ∈ trace sc ∧ action_kind (action step) = k.

(** ** Lemmas *)

Lemma check_row_labels_ok i m rows : check_row_labels i m rows = Ok tt ↔ Forall (eq (m_resolved_community m)) rows.
Proof.
  unfold check_row_labels. induction rows as [|c rows IH]; simpl; [done|].
  destruct (c =? m_resolved_community m)%N eqn:E; simpl.
  - apply N.eqb_eq in E as ->. rewrite IH, Forall_cons. naive_solver.
  - apply N.eqb_neq in E. rewrite Forall_cons. naive_solver.
Qed.

Lemma check_action_ok i s a :
  check_action i (bootstrap s) a = Ok tt ↔ action_allowed (resolved_community s) a.
Proof.
  destruct a as [| | |[]|ch [c|] []|ch rows|ch rows|rows|bug]; simpl; rewrite ?check_row_labels_ok; try done.
  destruct (c =? resolved_community s)%N eqn:E; [apply N.eqb_eq in E|apply N.eqb_neq in E]; naive_solver.
Qed.

Lemma check_step_ok i s step :
  check_step i (bootstrap s) step = Ok tt ↔
  state_after step = s ∧ action_allowed (resolved_community s) (action step).
Proof.
  unfold check_step. destruct step as [v a [c h u]], s as [c' h' u']; simpl.
  destruct (c =? c')%N eqn:E1; simpl; [apply N.eqb_eq in E1 as ->|apply N.eqb_neq in E1; naive_solver].
  destruct (h =? h')%string eqn:E2; simpl; boolify; [subst|naive_solver].
  destruct (u =? u')%string eqn:E3; simpl; boolify; [subst|naive_solver].
  pose proof (check_action_ok i {| resolved_community := c'; bound_host := h'; actor := u' |} a) as H.
  simpl in H. rewrite <- H. naive_solver.
Qed.

Lemma check_steps_ok i s steps : check_steps i (bootstrap s) steps = Ok tt ↔ Forall (step_conforms s) steps.
Proof.
  revert i; induction steps as [|step steps IH]; intros i; simpl; [done|].
  rewrite Forall_cons. unfold step_conforms at 1. rewrite <- (check_step_ok i).
  destruct (schema_version step =? SCHEMA_VERSION)%Z eqn:E; boolify; simpl; [|naive_solver].
  destruct (check_step i (bootstrap s) step) as [[]|]; rewrite ?IH; naive_solver.
Qed.

(** The step an error blames: everything before it conforms, it does not. *)
Definition blames (s : AbstractState) (steps : list TraceStep) (i : nat) (step : TraceStep) : Prop :=
  steps !! i = Some step ∧ Forall (step_conforms s) (take i steps) ∧ ¬ step_conforms s step.

Definition explained (s : AbstractState) (steps : list TraceStep) (e : TransitionError) : Prop :=
  match e with
  | IllegalTransition i d =>
      ∃ step, blames s steps i step ∧
        ((schema_version step ≠ SCHEMA_VERSION ∧ d = SchemaVersion (schema_version step)) ∨
         ∃ ch c, action step = AuthCheck ch (Some c) Allow ∧ c ≠ resolved_community s ∧
           d = AllowForeignClaim c (resolved_community s))
  | StateMismatch i _ => ∃ step, blames s steps i step ∧ state_after step ≠ s
  | NonInterference i d =>
      ∃ step c, blames s steps i step ∧ state_after step = s ∧ c ≠ resolved_community s ∧
        d = ForeignRow c (resolved_community s) ∧
        (∃ rows, c ∈ rows ∧ (action step = ReadHostFeedRows rows ∨
           ∃ ch, action step = ReadMessageRows ch rows ∨ action step = ReadByIdRows ch rows))
  | CoverageBreach d => ∃ i step bug, blames s steps i step ∧ action step = ImplBug bug ∧ d = DropGuard bug
  end.

Lemma check_row_labels_err i m rows e :
  check_row_labels i m rows = Err e →
  ∃ c, c ∈ rows ∧ c ≠ m_resolved_community m ∧ e = NonInterference i (ForeignRow c (m_resolved_community m)).
Proof.
  unfold check_row_labels. destruct (List.find _ rows) as [c|] eqn:E; [|done]. intros [= <-].
  apply find_some in E as [Hin Hc]. exists c. apply negb_true_iff, N.eqb_neq in Hc.
  by rewrite list_elem_of_In.
Qed.

(** The blame of a single step at the end of a conforming prefix. *)
Lemma check_step_explained pre s step rest e :
  Forall (step_conforms s) pre → schema_version step = SCHEMA_VERSION →
  check_step (length pre) (bootstrap s) step = Err e → explained s (pre ++ step :: rest) e.
Proof.
  intros Hpre Hv He.
  assert (blames s (pre ++ step :: rest) (length pre) step) as Hblame.
  { split_and!; [by rewrite list_lookup_middle|by rewrite take_app_length|].
    intros (_ & Hs & Ha). assert (check_step (length pre) (bootstrap s) step = Ok tt) by (by apply check_step_ok).
    congruence. }
  unfold check_step in He. simpl in He.
  destruct (resolved_community (state_after step) =? resolved_community s)%N eqn:E1; simpl in He.
  2:{ injection He as <-. exists step. split; [done|]. intros <-. by rewrite N.eqb_refl in E1. }
  destruct (bound_host (state_after step) =? bound_host s)%string eqn:E2; simpl in He.
  2:{ injection He as <-. exists step. split; [done|]. intros <-. by rewrite String.eqb_refl in E2. }
  destruct (actor (state_after step) =? actor s)%string eqn:E3; simpl in He.
  2:{ injection He as <-. exists step. split; [done|]. intros <-. by rewrite String.eqb_refl in E3. }
  assert (state_after step = s) as Hs.
  { apply N.eqb_eq in E1. boolify. destruct (state_after step), s; simpl in *; congruence. }
  destruct (action step) as [| | |[]|ch [c|] []|ch rows|ch rows|rows|bug] eqn:Ea; simpl in He; try done;
    try (apply check_row_labels_err in He as (c & Hc & Hne & ->); simpl in *; exists step, c;
         split_and!; [done..|]; exists rows; eauto).
  - destruct (c =? resolved_community s)%N eqn:Ec; [done|]. injection He as <-. apply N.eqb_neq in Ec.
    exists step. split; [done|]. right. eauto.
  - injection He as <-. eexists _, step, bug. done.
Qed.

Lemma check_steps_explained pre s steps e :
  Forall (step_conforms s) pre → check_steps (length pre) (bootstrap s) steps = Err e →
  explained s (pre ++ steps) e.
Proof.
  revert pre; induction steps as [|step steps IH]; intros pre Hpre; simpl; [done|].
  destruct (schema_version step =? SCHEMA_VERSION)%Z eqn:E; boolify; simpl.
  - destruct (check_step (length pre) (bootstrap s) step) as [[]|e'] eqn:Estep.
    + intros Hrest. rewrite cons_middle, app_assoc. apply IH.
      * apply Forall_app. split; [done|]. apply Forall_singleton. split; [done|].
        by apply check_step_ok in Estep.
      * rewrite length_app; simpl. by rewrite Nat.add_1_r.
    + intros [= <-]. by eapply check_step_explained.
  - intros [= <-]. exists step. split; [|by left].
    split_and!; [by rewrite list_lookup_middle|by rewrite take_app_length|]. by intros [? _].
Qed.

(** ** Properties *)

(** C7: The trace checker accepts a scenario exactly when the trace is non-empty, every step has
    the schema version and the state of the first, every observation stays within the resolved
    community, and every required critical action occurs. *)
Theorem check_trace_conforms sc : check_trace sc = Ok tt ↔ conforms sc.
Proof.
  unfold check_trace, conforms. destruct (trace sc) as [|first rest] eqn:Et.
  - simpl. naive_solver.
  - rewrite <- Et. assert (head (state_after <$> trace sc) = Some (state_after first)) as Hh by by rewrite Et.
    assert (first ∈ trace sc) as Hfirst by (rewrite Et; by left).
    destruct (schema_version first =? SCHEMA_VERSION)%Z eqn:Ev; boolify; simpl.
    2:{ split; [done|]. intros (s & _ & Hall & _). rewrite Forall_forall in Hall.
        by destruct (Hall first Hfirst) as (? & _). }
    pose proof (check_steps_ok 0 (state_after first) (trace sc)) as Hsteps.
    destruct (check_steps 0 (bootstrap (state_after first)) (trace sc)) as [[]|e] eqn:Ec.
    2:{ split; [done|]. intros (s & Hs & Hall & _). rewrite Hh in Hs. injection Hs as <-. naive_solver. }
    assert ((∀ k, k ∈ required_critical_actions sc → ∃ step, step ∈ trace sc ∧ action_kind (action step) = k) ↔
            elements (required_critical_actions sc ∖ list_to_set ((λ step, action_kind (action step)) <$> trace sc)) = [])
      as Hmiss.
    { rewrite elements_empty_iff. set (seen := list_to_set _ : gset string).
      assert (∀ k, k ∈ seen ↔ ∃ step, step ∈ trace sc ∧ action_kind (action step) = k) as Hk.
      { intros k. unfold seen. rewrite elem_of_list_to_set, list_elem_of_fmap. naive_solver. }
      split.
      - intros H. apply set_equiv; intros k. rewrite elem_of_difference, Hk. set_solver.
      - intros H k Hin. apply Hk. destruct (decide (k ∈ seen)); [done|]. set_solver. }
    destruct (elements _) eqn:Eel; split; try done.
    + intros _. exists (state_after first). naive_solver.
    + intros (s' & _ & _ & Hk). by apply Hmiss in Hk.
Qed.

(** Every rejection names the first offending step and its actual cause, or lists exactly
    the required actions that never occurred. *)
Theorem check_trace_explains sc e :
  check_trace sc = Err e →
  (trace sc = [] ∧ e = CoverageBreach EmptyTrace) ∨
  ∃ s, head (state_after <$> trace sc) = Some s ∧
    (explained s (trace sc) e ∨
     Forall (step_conforms s) (trace sc) ∧
     ∃ missing, e = CoverageBreach (NeverEmitted (sort_str missing)) ∧
       (∀ k, k ∈ missing ↔ k ∈ required_critical_actions sc ∧
          ∀ step, step ∈ trace sc → action_kind (action step) ≠ k)).
Proof.
  unfold check_trace. destruct (trace sc) as [|first rest] eqn:Et; [intros [= <-]; by left|].
  rewrite <- Et. assert (head (state_after <$> trace sc) = Some (state_after first)) as Hh by by rewrite Et.
  intros He. right. exists (state_after first). split; [done|].
  destruct (schema_version first =? SCHEMA_VERSION)%Z eqn:Ev; boolify; simpl in He.
  2:{ injection He as <-. left. exists first. split; [|by left].
      split_and!; [by rewrite Et|by rewrite Et|]. by intros [? _]. }
  destruct (check_steps 0 (bootstrap (state_after first)) (trace sc)) as [[]|e'] eqn:Ec.
  2:{ injection He as <-. left. by apply (check_steps_explained []). }
  right. split; [by apply check_steps_ok in Ec|].
  destruct (elements _) as [|k ks] eqn:Eel; [done|]. injection He as <-.
  exists (k :: ks). split; [done|]. intros k'. rewrite <- Eel, elem_of_elements, elem_of_difference.
  rewrite elem_of_list_to_set, list_elem_of_fmap. naive_solver.
Qed.

(** ** Witnesses *)

Definition demo_state : AbstractState := {| resolved_community := 1; bound_host := "h"; actor := "a" |}.
Definition leaky : Scenario :=
  unstructured [trace_step_new (WriteInsert "m" 10 None) demo_state;
                trace_step_new (ReadMessageRows (Some 10%N) [1%N; 2%N]) demo_state].

Example check_trace_explains_witness :
  ∃ e, check_trace leaky = Err e ∧ e = NonInterference 1 (ForeignRow 2 1) ∧
    explained demo_state (trace leaky) e.
Proof.
  exists (NonInterference 1 (ForeignRow 2 1)). split; [reflexivity|]. split; [reflexivity|].
  destruct (check_trace_explains leaky (NonInterference 1 (ForeignRow 2 1)) eq_refl)
    as [[_ H]|(s & Hs & [H|(_ & m & H & _)])]; [discriminate| |discriminate].
  injection Hs as <-. exact H.
Defined.
