(* ===== verification/Network.v ===== *)
(** * The SSRF address predicate ([crates/maju-core/src/network.rs])

    An IPv4 address is its four octets, an IPv6 address its eight 16-bit
    segments, as [octets()] and [segments()] give them.  The methods of
    [std::net] that the predicate calls are written out.  The specification is
    the deny table of the module's comments, as CIDR blocks. *)
From Stdlib Require Import Btauto.
From S2P Require Import Prelude.

Record Ipv4Addr := { v4_octets : list Z }.
Record Ipv6Addr := { v6_segments : list Z }.
Inductive IpAddr := V4 (a : Ipv4Addr) | V6 (a : Ipv6Addr).

Definition ipv4_new (a b c d : Z) : Ipv4Addr := {| v4_octets := [a; b; c; d] |}.

(** Indexing [o[i]] of an address. *)
Definition oct (o : list Z) (i : nat) : Z := default 0%Z (o !! i).

(** ** [std::net] *)

Definition v4_is_loopback (o : list Z) : bool := (oct o 0 =? 127)%Z.
Definition v4_is_private (o : list Z) : bool :=
  ((oct o 0 =? 10) || ((oct o 0 =? 172) && (16 <=? oct o 1) && (oct o 1 <=? 31))
   || ((oct o 0 =? 192) && (oct o 1 =? 168)))%Z%bool.
Definition v4_is_link_local (o : list Z) : bool := ((oct o 0 =? 169) && (oct o 1 =? 254))%Z.
Definition v4_is_broadcast (o : list Z) : bool := bool_decide (o = [255; 255; 255; 255]%Z).

(** [u16::to_be_bytes]. *)
Definition seg_bytes (s : Z) : list Z := [Z.shiftr s 8; Z.land s 255].
Definition octets (v6 : Ipv6Addr) : list Z := v6_segments v6 ≫= seg_bytes.

(** [Ipv6Addr::to_ipv4]: IPv4-compatible and IPv4-mapped addresses. *)
Definition to_ipv4 (v6 : Ipv6Addr) : option Ipv4Addr :=
  match v6_segments v6 with
  | [s0; s1; s2; s3; s4; s5; ab; cd] =>
      if bool_decide ([s0; s1; s2; s3; s4] = [0; 0; 0; 0; 0]%Z) && ((s5 =? 0)%Z || (s5 =? 65535)%Z)
      then Some {| v4_octets := seg_bytes ab ++ seg_bytes cd |}
      else None
  | _ => None
  end.

Definition v6_is_loopback (s : list Z) : bool := bool_decide (s = [0; 0; 0; 0; 0; 0; 0; 1]%Z).
Definition v6_is_unspecified (s : list Z) : bool := bool_decide (s = [0; 0; 0; 0; 0; 0; 0; 0]%Z).

(** ** [network.rs] *)

Definition NAT64_WELL_KNOWN_PREFIX : list Z := [0; 100; 255; 155; 0; 0; 0; 0; 0; 0; 0; 0]%Z.
Definition IPV4_TRANSLATED_PREFIX : list Z := [0; 0; 0; 0; 0; 0; 0; 0; 255; 255; 0; 0]%Z.

Definition embedded_ipv4 (v6 : Ipv6Addr) (prefix : list Z) : option Ipv4Addr :=
  let o := octets v6 in
  if bool_decide (take 12 o = prefix) then Some (ipv4_new (oct o 12) (oct o 13) (oct o 14) (oct o 15)) else None.

(** The [V4] arm. *)
Definition not_global_v4 (a : Ipv4Addr) : bool :=
  let o := v4_octets a in
  (v4_is_loopback o || v4_is_private o || v4_is_link_local o
   || (oct o 0 =? 0)%Z
   || v4_is_broadcast o
   || ((oct o 0 =? 100) && (Z.land (oct o 1) 192 =? 64))%Z
   || ((oct o 0 =? 198) && (Z.land (oct o 1) 254 =? 18))%Z
   || (Z.land (oct o 0) 240 =? 224)%Z
   || (Z.land (oct o 0) 240 =? 240)%Z
   || ((oct o 0 =? 192) && (oct o 1 =? 0) && (oct o 2 =? 0) && negb (oct o 3 =? 9) && negb (oct o 3 =? 10))%Z
   || ((oct o 0 =? 192) && (oct o 1 =? 0) && (oct o 2 =? 2))%Z
   || ((oct o 0 =? 192) && (oct o 1 =? 88) && (oct o 2 =? 99))%Z
   || ((oct o 0 =? 198) && (oct o 1 =? 51) && (oct o 2 =? 100))%Z
   || ((oct o 0 =? 203) && (oct o 1 =? 0) && (oct o 2 =? 113))%Z)%bool.

(** The carve-outs of [2001::/23]. *)
Definition is_global_exception (s : list Z) : bool :=
  (((oct s 1 =? 1) && (oct s 2 =? 0) && (oct s 3 =? 0) && (oct s 4 =? 0) && (oct s 5 =? 0) && (oct s 6 =? 0)
    && ((1 <=? oct s 7) && (oct s 7 <=? 3)))
   || (oct s 1 =? 3)
   || ((oct s 1 =? 4) && (oct s 2 =? 274))
   || (Z.shiftr (oct s 1) 4 =? 2)
   || (Z.shiftr (oct s 1) 4 =? 3))%Z%bool.

(** The closing disjunction of the [V6] arm. *)
Definition v6_denied_tail (s : list Z) : bool :=
  ((Z.land (oct s 0) 65024 =? 64512)
   || (Z.land (oct s 0) 65472 =? 65152)
   || (Z.land (oct s 0) 65472 =? 65216)
   || (Z.land (oct s 0) 65280 =? 65280)
   || ((oct s 0 =? 100) && (oct s 1 =? 65435) && (oct s 2 =? 1))
   || ((oct s 0 =? 256) && (oct s 1 =? 0) && (oct s 2 =? 0) && (oct s 3 =? 0))
   || ((oct s 0 =? 256) && (oct s 1 =? 0) && (oct s 2 =? 0) && (oct s 3 =? 1))
   || ((oct s 0 =? 8193) && (oct s 1 =? 3512))
   || (oct s 0 =? 8194)
   || ((oct s 0 =? 16383) && (Z.shiftr (oct s 1) 12 =? 0))
   || (oct s 0 =? 24320))%Z%bool.

Definition is_not_global_unicast (ip : IpAddr) : bool :=
  match ip with
  | V4 a => not_global_v4 a
  | V6 v6 =>
      match to_ipv4 v6 with
      | Some v4 => not_global_v4 v4
      | None =>
          let s := v6_segments v6 in
          match embedded_ipv4 v6 NAT64_WELL_KNOWN_PREFIX with
          | Some v4 => not_global_v4 v4
          | None =>
              match embedded_ipv4 v6 IPV4_TRANSLATED_PREFIX with
              | Some v4 => not_global_v4 v4
              | None =>
                  if v6_is_loopback s || v6_is_unspecified s then true
                  else if (oct s 0 =? 8193)%Z && (Z.shiftr (oct s 1) 9 =? 0)%Z && negb (is_global_exception s)
                  then true
                  else v6_denied_tail s
              end
          end
      end
  end.

Definition is_private_ip (ip : IpAddr) : bool := is_not_global_unicast ip.

(** ** Specification: the deny table *)

(** The first [len] bits of [addr], [w] bits per element, are those of [base]. *)
Fixpoint in_block (w len : nat) (base addr : list Z) : bool :=
  match base, addr with
  | b :: base', a :: addr' =>
      if (w <=? len)%nat then (a =? b)%Z && in_block w (len - w) base' addr'
      else (Z.shiftr a (Z.of_nat (w - len)) =? Z.shiftr b (Z.of_nat (w - len)))%Z
  | _, _ => true
  end.

Definition block4 (base : list Z) (len : nat) (o : list Z) : bool := in_block 8 len base o.
Definition block6 (base : list Z) (len : nat) (s : list Z) : bool := in_block 16 len base s.

Definition cidr (base : list Z) (len : nat) : list Z * nat := (base, len).

Definition DENY_V4 : list (list Z * nat) :=
  [cidr [127]%Z 8; cidr [10]%Z 8; cidr [172; 16]%Z 12; cidr [192; 168]%Z 16; cidr [169; 254]%Z 16; cidr [0]%Z 8; cidr [255; 255; 255; 255]%Z 32;
   cidr [100; 64]%Z 10; cidr [198; 18]%Z 15; cidr [224]%Z 4; cidr [240]%Z 4; cidr [192; 0; 0]%Z 24; cidr [192; 0; 2]%Z 24; cidr [192; 88; 99]%Z 24;
   cidr [198; 51; 100]%Z 24; cidr [203; 0; 113]%Z 24].
Definition ALLOW_V4 : list (list Z * nat) := [cidr [192; 0; 0; 9]%Z 32; cidr [192; 0; 0; 10]%Z 32].

Definition denied_v4 (o : list Z) : bool :=
  existsb (λ b, block4 b.1 b.2 o) DENY_V4 && negb (existsb (λ b, block4 b.1 b.2 o) ALLOW_V4).

(** The envelopes whose last 32 bits are an IPv4 address. *)
Definition EMBEDDING : list (list Z) :=
  [[0; 0; 0; 0; 0; 0]; [0; 0; 0; 0; 0; 65535]; [100; 65435; 0; 0; 0; 0]; [0; 0; 0; 0; 65535; 0]]%Z.
Definition DENY_V6 : list (list Z * nat) :=
  [cidr [64512]%Z 7; cidr [65152]%Z 10; cidr [65216]%Z 10; cidr [65280]%Z 8; cidr [100; 65435; 1]%Z 48; cidr [256; 0; 0; 0]%Z 64;
   cidr [256; 0; 0; 1]%Z 64; cidr [8193; 3512]%Z 32; cidr [8194]%Z 16; cidr [16383; 0]%Z 20; cidr [24320]%Z 16].
Definition ALLOW_IETF_V6 : list (list Z * nat) :=
  [cidr [8193; 1; 0; 0; 0; 0; 0; 1]%Z 128; cidr [8193; 1; 0; 0; 0; 0; 0; 2]%Z 128; cidr [8193; 1; 0; 0; 0; 0; 0; 3]%Z 128;
   cidr [8193; 3]%Z 32; cidr [8193; 4; 274]%Z 48; cidr [8193; 32]%Z 28; cidr [8193; 48]%Z 28].

Definition denied_v6 (s : list Z) : bool :=
  if existsb (λ p, block6 p 96 s) EMBEDDING then denied_v4 (drop 6 s ≫= seg_bytes)
  else existsb (λ b, block6 b.1 b.2 s) DENY_V6
       || (block6 [8193; 0]%Z 23 s && negb (existsb (λ b, block6 b.1 b.2 s) ALLOW_IETF_V6)).

Definition denied (ip : IpAddr) : bool :=
  match ip with V4 a => denied_v4 (v4_octets a) | V6 a => denied_v6 (v6_segments a) end.

Definition valid_ip (ip : IpAddr) : Prop :=
  match ip with
  | V4 a => length (v4_octets a) = 4%nat ∧ Forall (in_width 8) (v4_octets a)
  | V6 a => length (v6_segments a) = 8%nat ∧ Forall (in_width 16) (v6_segments a)
  end.

(** ** Masks and shifts agree *)

(** Masking the bits from [k] up compares what is left after shifting. *)
Lemma mask_shift (w k c x : Z) :
  (0 ≤ k ≤ w)%Z → in_width w x →
  (Z.land x (Z.shiftl (Z.ones (w - k)) k) =? Z.shiftl c k)%Z = (Z.shiftr x k =? c)%Z.
Proof.
  intros Hk [Hx0 Hx].
  assert (Z.land x (Z.shiftl (Z.ones (w - k)) k) = Z.shiftl (Z.shiftr x k) k) as ->.
  { apply Z.bits_inj'. intros n Hn. rewrite Z.land_spec, !Z.shiftl_spec by lia.
    destruct (decide (n < k)%Z) as [Hlt|Hge].
    - rewrite !(Z.testbit_neg_r _ (n - k)) by lia. by rewrite andb_false_r.
    - rewrite Z.shiftr_spec by lia. replace (n - k + k)%Z with n by lia.
      rewrite Z.testbit_ones_nonneg by lia. destruct (n - k <? w - k)%Z eqn:E; boolify; [by rewrite andb_true_r|].
      rewrite andb_false_r. symmetry. destruct (decide (x = 0%Z)) as [->|]; [apply Z.bits_0|].
      apply Z.bits_above_log2; [lia|]. apply Z.log2_lt_pow2; [lia|]. eapply Z.lt_le_trans; [exact Hx|].
      apply Z.pow_le_mono_r; lia. }
  destruct (Z.shiftr x k =? c)%Z eqn:E; boolify; [subst; apply Z.eqb_refl|].
  apply Z.eqb_neq. intros Heq. apply E.
  rewrite !Z.shiftl_mul_pow2 in Heq by lia. apply Z.mul_reg_r in Heq; [done|]. apply Z.pow_nonzero; lia.
Qed.

Lemma range_16_31 x : ((16 <=? x) && (x <=? 31))%Z = (Z.shiftr x 4 =? 1)%Z.
Proof.
  rewrite Z.shiftr_div_pow2 by lia. change (2 ^ 4)%Z with 16%Z. apply eq_true_iff_eq.
  rewrite andb_true_iff, !Z.leb_le, Z.eqb_eq. Z.to_euclidean_division_equations. lia.
Qed.

(** The masks of the source as shifts. *)
Lemma mask8_192 x : in_width 8 x → (Z.land x 192 =? 64)%Z = (Z.shiftr x 6 =? 1)%Z.
Proof. intros Hx. apply (mask_shift 8 6 1 x); [lia|done]. Qed.
Lemma mask8_254 x : in_width 8 x → (Z.land x 254 =? 18)%Z = (Z.shiftr x 1 =? 9)%Z.
Proof. intros Hx. apply (mask_shift 8 1 9 x); [lia|done]. Qed.
Lemma mask8_224 x : in_width 8 x → (Z.land x 240 =? 224)%Z = (Z.shiftr x 4 =? 14)%Z.
Proof. intros Hx. apply (mask_shift 8 4 14 x); [lia|done]. Qed.
Lemma mask8_240 x : in_width 8 x → (Z.land x 240 =? 240)%Z = (Z.shiftr x 4 =? 15)%Z.
Proof. intros Hx. apply (mask_shift 8 4 15 x); [lia|done]. Qed.
Lemma mask16_fc00 x : in_width 16 x → (Z.land x 65024 =? 64512)%Z = (Z.shiftr x 9 =? 126)%Z.
Proof. intros Hx. apply (mask_shift 16 9 126 x); [lia|done]. Qed.
Lemma mask16_fe80 x : in_width 16 x → (Z.land x 65472 =? 65152)%Z = (Z.shiftr x 6 =? 1018)%Z.
Proof. intros Hx. apply (mask_shift 16 6 1018 x); [lia|done]. Qed.
Lemma mask16_fec0 x : in_width 16 x → (Z.land x 65472 =? 65216)%Z = (Z.shiftr x 6 =? 1019)%Z.
Proof. intros Hx. apply (mask_shift 16 6 1019 x); [lia|done]. Qed.
Lemma mask16_ff00 x : in_width 16 x → (Z.land x 65280 =? 65280)%Z = (Z.shiftr x 8 =? 255)%Z.
Proof. intros Hx. apply (mask_shift 16 8 255 x); [lia|done]. Qed.

(** Case analysis on an integer test, computing the branch where it holds. *)
Ltac on_value x v :=
  let E := fresh "E" in
  destruct (x =? v)%Z eqn:E; [apply Z.eqb_eq in E; subst x|].

(** Evaluate the table on an address given by its elements. *)
Ltac eval_table :=
  cbv -[Z.eqb Z.shiftr Z.leb Z.land];
  repeat match goal with
  | |- context [Z.shiftr (Zpos ?p) ?k] =>
      let v := eval vm_compute in (Z.shiftr (Zpos p) k) in change (Z.shiftr (Zpos p) k) with v
  | |- context [Z.shiftr Z0 ?k] =>
      let v := eval vm_compute in (Z.shiftr Z0 k) in change (Z.shiftr Z0 k) with v
  | |- context [Z.eqb (Zpos ?p) (Zpos ?q)] =>
      let v := eval vm_compute in (Z.eqb (Zpos p) (Zpos q)) in change (Z.eqb (Zpos p) (Zpos q)) with v
  | |- context [Z.eqb Z0 (Zpos ?q)] => change (Z.eqb Z0 (Zpos q)) with false
  | |- context [Z.eqb (Zpos ?q) Z0] => change (Z.eqb (Zpos q) Z0) with false
  | |- context [Z.eqb Z0 Z0] => change (Z.eqb Z0 Z0) with true
  end.

(** Evaluate, use the tests known to fail, and decide what is left. *)
Ltac by_table :=
  eval_table;
  repeat match goal with H : (_ =? _)%Z = false |- _ => rewrite H; clear H end;
  cbv -[Z.eqb Z.shiftr Z.leb Z.land]; btauto.

Lemma list_eqb4 (a b c d a' b' c' d' : Z) :
  bool_decide ([a; b; c; d] = [a'; b'; c'; d']) = ((a =? a') && (b =? b') && (c =? c') && (d =? d'))%Z.
Proof.
  apply eq_true_iff_eq. rewrite bool_decide_eq_true, !andb_true_iff, !Z.eqb_eq. naive_solver congruence.
Qed.

Lemma v4_table o : valid_ip (V4 {| v4_octets := o |}) → not_global_v4 {| v4_octets := o |} = denied_v4 o.
Proof.
  intros [Hlen Hw]. simpl in *. destruct o as [|a [|b [|c [|d [|]]]]]; try done.
  repeat match goal with H : Forall _ (_ :: _) |- _ => inversion H; clear H; subst end.
  unfold not_global_v4, v4_is_broadcast, v4_is_private. cbn [v4_octets].
  rewrite list_eqb4. change (oct [a; b; c; d] 0) with a. change (oct [a; b; c; d] 1) with b.
  rewrite mask8_192, mask8_254, mask8_224, mask8_240, <- andb_assoc, range_16_31 by done.
  on_value a 192%Z.
  - on_value b 0%Z; [on_value c 0%Z|]; by_table.
  - by_table.
Qed.

Lemma seg_bytes_width x : in_width 16 x → Forall (in_width 8) (seg_bytes x).
Proof.
  intros [Hx0 Hx]. unfold seg_bytes, in_width. change (2 ^ 16)%Z with 65536%Z in Hx.
  rewrite Z.shiftr_div_pow2 by lia. change 255%Z with (Z.ones 8). rewrite Z.land_ones by lia.
  change (2 ^ 8)%Z with 256%Z. repeat constructor; Z.to_euclidean_division_equations; lia.
Qed.

(** Comparing the two bytes of a segment compares the segment. *)
Lemma seg_bytes_eqb x h l :
  in_width 16 x → in_width 8 h → in_width 8 l →
  ((Z.shiftr x 8 =? h) && (Z.land x 255 =? l))%Z = (x =? h * 256 + l)%Z.
Proof.
  unfold in_width. intros Hx Hh Hl. change (2 ^ 16)%Z with 65536%Z in Hx. change (2 ^ 8)%Z with 256%Z in *.
  rewrite Z.shiftr_div_pow2 by lia. change 255%Z with (Z.ones 8). rewrite Z.land_ones by lia.
  change (2 ^ 8)%Z with 256%Z. apply eq_true_iff_eq. rewrite andb_true_iff, !Z.eqb_eq.
  Z.to_euclidean_division_equations. lia.
Qed.

Lemma bool_decide_cons (x y : Z) l k : bool_decide (x :: l = y :: k) = ((x =? y)%Z && bool_decide (l = k)).
Proof. apply eq_true_iff_eq. rewrite andb_true_iff, Z.eqb_eq, !bool_decide_eq_true. naive_solver congruence. Qed.

Section v6.
Context (s0 s1 s2 s3 s4 s5 s6 s7 : Z).
Let s := [s0; s1; s2; s3; s4; s5; s6; s7].
Let ip := {| v6_segments := s |}.
Context (Hs : Forall (in_width 16) s).

(** The last two segments as an IPv4 address. *)
Let tail4 : list Z := seg_bytes s6 ++ seg_bytes s7.

Lemma tail4_valid : valid_ip (V4 {| v4_octets := tail4 |}).
Proof.
  split; [done|]. simpl. unfold tail4.
  rewrite Forall_forall in Hs. apply Forall_app; split; apply seg_bytes_width, Hs; unfold s; set_solver.
Qed.

Lemma to_ipv4_eq :
  to_ipv4 ip = if block6 [0; 0; 0; 0; 0; 0]%Z 96 s || block6 [0; 0; 0; 0; 0; 65535]%Z 96 s
               then Some {| v4_octets := tail4 |} else None.
Proof.
  unfold to_ipv4, ip, s; cbn [v6_segments]. rewrite !bool_decide_cons.
  match goal with |- (if ?a then _ else _) = (if ?b then _ else _) => assert (a = b) as -> end; [|done].
  rewrite (bool_decide_true ([] = [])) by done. by_table.
Qed.

Lemma embedded_eq h0 l0 h1 l1 h2 l2 h3 l3 h4 l4 h5 l5 :
  Forall (in_width 8) [h0; l0; h1; l1; h2; l2; h3; l3; h4; l4; h5; l5] →
  embedded_ipv4 ip [h0; l0; h1; l1; h2; l2; h3; l3; h4; l4; h5; l5] =
    if block6 [h0 * 256 + l0; h1 * 256 + l1; h2 * 256 + l2; h3 * 256 + l3; h4 * 256 + l4; h5 * 256 + l5]%Z 96 s
    then Some {| v4_octets := tail4 |} else None.
Proof.
  intros Hp. pose proof Hs as Hs'. unfold s in Hs'.
  repeat match goal with H : Forall _ (_ :: _) |- _ => inversion H; clear H; subst end.
  unfold embedded_ipv4. cbv zeta.
  change (octets ip) with (seg_bytes s0 ++ seg_bytes s1 ++ seg_bytes s2 ++ seg_bytes s3 ++ seg_bytes s4 ++
                           seg_bytes s5 ++ seg_bytes s6 ++ seg_bytes s7).
  assert (bool_decide (take 12 (seg_bytes s0 ++ seg_bytes s1 ++ seg_bytes s2 ++ seg_bytes s3 ++ seg_bytes s4 ++
                           seg_bytes s5 ++ seg_bytes s6 ++ seg_bytes s7) =
                       [h0; l0; h1; l1; h2; l2; h3; l3; h4; l4; h5; l5]) =
          block6 [h0 * 256 + l0; h1 * 256 + l1; h2 * 256 + l2; h3 * 256 + l3; h4 * 256 + l4; h5 * 256 + l5]%Z 96 s)
    as ->; [|destruct (block6 _ 96 s); reflexivity].
  unfold seg_bytes at 1 2 3 4 5 6. simpl take. rewrite !bool_decide_cons, bool_decide_true by done.
  unfold block6, s. cbv -[Z.eqb Z.shiftr Z.land Z.mul Z.add].
  rewrite <- !seg_bytes_eqb by done. btauto.
Qed.

Lemma v6_denied_tail_table :
  v6_denied_tail s || ((oct s 0 =? 8193)%Z && (Z.shiftr (oct s 1) 9 =? 0)%Z && negb (is_global_exception s)) =
  existsb (λ b, block6 b.1 b.2 s) DENY_V6
  || (block6 [8193; 0]%Z 23 s && negb (existsb (λ b, block6 b.1 b.2 s) ALLOW_IETF_V6)).
Proof.
  unfold v6_denied_tail, is_global_exception. unfold s.
  change (oct [s0; s1; s2; s3; s4; s5; s6; s7] 0) with s0.
  rewrite mask16_fc00, mask16_fe80, mask16_fec0, mask16_ff00
    by (rewrite Forall_forall in Hs; apply Hs; unfold s; set_solver).
  change (oct [s0; s1; s2; s3; s4; s5; s6; s7] 7) with s7.
  assert (((1 <=? s7) && (s7 <=? 3))%Z = ((s7 =? 1) || (s7 =? 2) || (s7 =? 3))%Z) as ->.
  { apply eq_true_iff_eq. rewrite andb_true_iff, !orb_true_iff, !Z.leb_le, !Z.eqb_eq. lia. }
  on_value s0 8193%Z; by_table.
Qed.

(** [::1] and [::] are IPv4-compatible, so the later test never decides. *)
Lemma unspecified_embedded :
  v6_is_loopback s || v6_is_unspecified s = true → block6 [0; 0; 0; 0; 0; 0]%Z 96 s = true.
Proof.
  unfold v6_is_loopback, v6_is_unspecified. rewrite orb_true_iff, !bool_decide_eq_true.
  by intros [->| ->].
Qed.

Lemma v6_table : is_not_global_unicast (V6 ip) = denied_v6 s.
Proof.
  unfold is_not_global_unicast, denied_v6, EMBEDDING. rewrite to_ipv4_eq.
  unfold NAT64_WELL_KNOWN_PREFIX, IPV4_TRANSLATED_PREFIX.
  rewrite !embedded_eq by (repeat (apply List.Forall_cons || apply List.Forall_nil); unfold in_width; lia).
  pose proof unspecified_embedded as Hun. pose proof v6_denied_tail_table as Htail.
  pose proof (v4_table tail4 tail4_valid) as H4. change (drop 6 s ≫= seg_bytes) with (tail4 ++ []).
  rewrite app_nil_r. cbn [existsb]. change (v6_segments ip) with s.
  change (0 * 256 + 100)%Z with 100%Z. change (255 * 256 + 155)%Z with 65435%Z.
  change (0 * 256 + 0)%Z with 0%Z. change (255 * 256 + 255)%Z with 65535%Z.
  destruct (block6 [0; 0; 0; 0; 0; 0]%Z 96 s); [done|]. simpl orb at 1.
  destruct (block6 [0; 0; 0; 0; 0; 65535]%Z 96 s); [done|].
  destruct (block6 [100; 65435; 0; 0; 0; 0]%Z 96 s); [done|].
  destruct (block6 [0; 0; 0; 0; 65535; 0]%Z 96 s); [done|]. simpl orb at 4.
  destruct (v6_is_loopback s || v6_is_unspecified s); [by specialize (Hun eq_refl)|].
  cbn [orb]. rewrite <- Htail. case_match; [by rewrite orb_true_r|by rewrite orb_false_r].
Qed.

End v6.

(** C29: For every valid IPv4 or IPv6 address the SSRF predicate denies exactly the CIDR blocks
    of the documented table, embedded IPv4 addresses being judged by the IPv4 table. *)
Theorem ssrf_deny_table ip : valid_ip ip → is_not_global_unicast ip = denied ip.
Proof.
  destruct ip as [[o]|[s]].
  - apply v4_table.
  - intros [Hlen Hs]. cbn [v6_segments] in *.
    destruct s as [|s0 [|s1 [|s2 [|s3 [|s4 [|s5 [|s6 [|s7 [|]]]]]]]]]; try done. by apply v6_table.
Qed.

Example ssrf_deny_table_witness :
  is_not_global_unicast (V6 {| v6_segments := [100; 65435; 0; 0; 0; 0; 2560; 1]%Z |}) = true.
Proof.
  rewrite (ssrf_deny_table (V6 {| v6_segments := [100; 65435; 0; 0; 0; 0; 2560; 1]%Z |})); [reflexivity|].
  split; [reflexivity|]. simpl. repeat constructor; unfold in_width; lia.
Defined.
