(* ===== verification/RuleMatch.v ===== *)
(** * Subscription rules of the ACP harness ([crates/maju-acp/src/filter.rs])

    Ordered rules, first match wins, fail closed.  The expression engine
    ([evalexpr]) and the scheduling around it (semaphore, blocking thread,
    timeouts) are not part of the sources: their outcome is the function
    [run], an argument of [match_event], so every theorem holds for every
    engine and every timing.  The timeout counters are shared by the clones of
    a rule ([Arc<AtomicU32>]): a rule holds the address of its counter in a
    store.  [build_eval_context] (registration of the helper functions with
    the engine) is not modelled. *)
From S2P Require Import Prelude Nostr.

Section rules.
Context {L : NostrLib}.
(** [evalexpr::Node], a compiled expression. *)
Context {Node : Type}.

Inductive FilterError :=
  | ExpressionTooLong (len max : nat)
  | Timeout
  | EvalError (message : string).

Record FilterContext := {
  fc_content : string;
  fc_author : string;
  fc_kind : Z;
  fc_channel_id : string;
  fc_timestamp : Z
}.

Definition from_event (ev : Event) (channel : Uuid) : FilterContext :=
  {| fc_content := content ev; fc_author := pubkey ev; fc_kind := kind ev;
     fc_channel_id := uuid_to_string channel; fc_timestamp := created_at ev |}.

Inductive ChannelScope :=
  | ScopeAll (s : string)
  | ScopeList (ids : list string).

Definition scope_matches (scope : ChannelScope) (channel : Uuid) : bool :=
  match scope with
  | ScopeAll s => (s =? "all")%string
  | ScopeList ids => existsb (λ i, (i =? uuid_to_string channel)%string) ids
  end.

Record SubscriptionRule := {
  rule_name : string;
  rule_channels : ChannelScope;
  rule_kinds : list Z;
  require_mention : bool;
  rule_filter : option string;
  rule_prompt_tag : option string;
  compiled_filter : option Node;
  consecutive_timeouts : nat
}.

(** [SubscriptionRule::default]; [counter] is the address of the new counter. *)
Definition rule_default (counter : nat) : SubscriptionRule :=
  {| rule_name := ""; rule_channels := ScopeAll "all"; rule_kinds := []; require_mention := false;
     rule_filter := None; rule_prompt_tag := None; compiled_filter := None; consecutive_timeouts := counter |}.

(** [SubscriptionRule::clone]: the counter is shared. *)
Definition rule_clone (r : SubscriptionRule) : SubscriptionRule :=
  {| rule_name := rule_name r; rule_channels := rule_channels r; rule_kinds := rule_kinds r;
     require_mention := require_mention r; rule_filter := rule_filter r; rule_prompt_tag := rule_prompt_tag r;
     compiled_filter := compiled_filter r; consecutive_timeouts := consecutive_timeouts r |}.

Record MatchedRule := { rule_index : nat; prompt_tag : string }.

Definition MAX_EXPR_LEN : nat := 4096.
#[global] Arguments MAX_EXPR_LEN : simpl never.
Definition MAX_CONSECUTIVE_TIMEOUTS : Z := 5.

(** The atomic counters, by address. *)
#[local] Abbreviation Counters := (gmap nat Z) (only parsing).
Definition load (c : nat) (st : Counters) : Z := default 0%Z (st !! c).

Section engine.
(** The outcome of the evaluation on the blocking thread. *)
Variable run : string → option Node → FilterContext → result FilterError bool.

Definition evaluate_filter (expr : string) (ctx : FilterContext) (node : option Node) : result FilterError bool :=
  if MAX_EXPR_LEN <? String.length expr then Err (ExpressionTooLong (String.length expr) MAX_EXPR_LEN)
  else run expr node ctx.

Definition mentions (ev : Event) (agent : string) : bool :=
  existsb (λ t, bool_decide (as_slice t !! 0 = Some "p") && bool_decide (as_slice t !! 1 = Some agent)) (tags ev).

(** Checks 1 to 3 of a rule. *)
Definition static_ok (ev : Event) (channel : Uuid) (agent : string) (r : SubscriptionRule) : bool :=
  scope_matches (rule_channels r) channel
  && (match rule_kinds r with [] => true | ks => existsb (Z.eqb (kind ev)) ks end)
  && (negb (require_mention r) || mentions ev agent).

Definition winner (index : nat) (r : SubscriptionRule) : MatchedRule :=
  {| rule_index := index; prompt_tag := default (rule_name r) (rule_prompt_tag r) |}.

(** The loop over the rules, from [index] on. *)
Fixpoint match_rules (ev : Event) (channel : Uuid) (agent : string) (index : nat) (rs : list SubscriptionRule)
  (st : Counters) : option MatchedRule * Counters :=
  match rs with
  | [] => (None, st)
  | r :: rest =>
      if negb (static_ok ev channel agent r) then match_rules ev channel agent (S index) rest st
      else
        match rule_filter r with
        | None => (Some (winner index r), st)
        | Some expr =>
            let c := consecutive_timeouts r in
            if (MAX_CONSECUTIVE_TIMEOUTS <=? load c st)%Z then (None, st)
            else
              match evaluate_filter expr (from_event ev channel) (compiled_filter r) with
              | Ok true => (Some (winner index r), <[c := 0%Z]> st)
              | Ok false => match_rules ev channel agent (S index) rest (<[c := 0%Z]> st)
              | Err Timeout => (None, <[c := wrapping_add 32 (load c st) 1]> st)
              | Err _ => (None, st)
              end
        end
  end.

Definition match_event (ev : Event) (channel : Uuid) (rs : list SubscriptionRule) (agent : string)
  (st : Counters) : option MatchedRule * Counters := match_rules ev channel agent 0 rs st.

(** ** Specification *)

(** What one rule says about the event. *)
Inductive RuleVerdict := Skips | Wins | FailsClosed.

Definition disabled (st : Counters) (r : SubscriptionRule) : Prop :=
  (MAX_CONSECUTIVE_TIMEOUTS ≤ load (consecutive_timeouts r) st)%Z.

Inductive rule_says (ev : Event) (channel : Uuid) (agent : string) (st : Counters) (r : SubscriptionRule) :
  RuleVerdict → Prop :=
  | says_skip_static : static_ok ev channel agent r = false → rule_says ev channel agent st r Skips
  | says_skip_false expr :
      static_ok ev channel agent r = true → rule_filter r = Some expr → ¬ disabled st r →
      evaluate_filter expr (from_event ev channel) (compiled_filter r) = Ok false →
      rule_says ev channel agent st r Skips
  | says_win_plain : static_ok ev channel agent r = true → rule_filter r = None →
      rule_says ev channel agent st r Wins
  | says_win_filter expr :
      static_ok ev channel agent r = true → rule_filter r = Some expr → ¬ disabled st r →
      evaluate_filter expr (from_event ev channel) (compiled_filter r) = Ok true →
      rule_says ev channel agent st r Wins
  | says_closed_disabled expr :
      static_ok ev channel agent r = true → rule_filter r = Some expr → disabled st r →
      rule_says ev channel agent st r FailsClosed
  | says_closed_error expr e :
      static_ok ev channel agent r = true → rule_filter r = Some expr → ¬ disabled st r →
      evaluate_filter expr (from_event ev channel) (compiled_filter r) = Err e →
      rule_says ev channel agent st r FailsClosed.

(** Before the loop moves on, counters are only reset, and only enabled ones. *)
Definition only_reset (st st' : Counters) : Prop :=
  ∀ c, load c st' = load c st ∨ ((load c st < MAX_CONSECUTIVE_TIMEOUTS)%Z ∧ load c st' = 0%Z).

Lemma load_insert c c' v st : load c (<[c' := v]> st) = if decide (c' = c) then v else load c st.
Proof. unfold load. case_decide; [subst; by rewrite lookup_insert_eq|by rewrite lookup_insert_ne]. Qed.

Lemma only_reset_insert c st : (load c st < MAX_CONSECUTIVE_TIMEOUTS)%Z → only_reset st (<[c := 0%Z]> st).
Proof. intros Hc c'. rewrite load_insert. case_decide as Heq; [subst c'; by right|by left]. Qed.

Lemma only_reset_disabled st st' r : only_reset st st' → disabled st' r ↔ disabled st r.
Proof. unfold disabled, MAX_CONSECUTIVE_TIMEOUTS. intros H. destruct (H (consecutive_timeouts r)) as [->|[? ->]]; unfold MAX_CONSECUTIVE_TIMEOUTS in *; lia. Qed.

Lemma rule_says_reset ev channel agent st st' r v :
  only_reset st st' → rule_says ev channel agent st' r v → rule_says ev channel agent st r v.
Proof.
  intros Hst H. pose proof (only_reset_disabled _ _ r Hst) as Hd.
  destruct H; [by apply says_skip_static|eapply says_skip_false|by apply says_win_plain|eapply says_win_filter
    |eapply says_closed_disabled|eapply says_closed_error]; eauto; tauto.
Qed.

(** The loop stops at the first rule that does not skip. *)
Lemma match_rules_spec ev channel agent index rs st :
  let '(res, st') := match_rules ev channel agent index rs st in
  (Forall (λ r, rule_says ev channel agent st r Skips) rs ∧ res = None) ∨
  (∃ k r, rs !! k = Some r ∧ Forall (λ r, rule_says ev channel agent st r Skips) (take k rs) ∧
     ((rule_says ev channel agent st r Wins ∧ res = Some (winner (index + k) r)) ∨
      (rule_says ev channel agent st r FailsClosed ∧ res = None))).
Proof.
  revert index st; induction rs as [|r rs IH]; intros index st; cbn [match_rules]; [left; done|].
  assert (∀ st0, only_reset st st0 → rule_says ev channel agent st r Skips →
    let '(res, st') := match_rules ev channel agent (S index) rs st0 in
    (Forall (λ r, rule_says ev channel agent st r Skips) (r :: rs) ∧ res = None) ∨
    (∃ k r0, (r :: rs) !! k = Some r0 ∧ Forall (λ r, rule_says ev channel agent st r Skips) (take k (r :: rs)) ∧
       ((rule_says ev channel agent st r0 Wins ∧ res = Some (winner (index + k) r0)) ∨
        (rule_says ev channel agent st r0 FailsClosed ∧ res = None)))) as Hnext.
  { intros st0 Hst0 Hskip. specialize (IH (S index) st0). destruct (match_rules _ _ _ _ rs st0) as [res st'].
    assert (∀ l, Forall (λ r, rule_says ev channel agent st0 r Skips) l →
                 Forall (λ r, rule_says ev channel agent st r Skips) l) as Hall
      by (intros l Hl; eapply Forall_impl; [exact Hl|]; intros; by eapply rule_says_reset).
    destruct IH as [[Hr ->]|(k & r0 & Hk & Hpre & Hcase)]; [left; split; [constructor; auto|done]|].
    right. exists (S k), r0. split; [done|]. split; [simpl; constructor; auto|].
    rewrite Nat.add_succ_r, <- Nat.add_succ_l.
    destruct Hcase as [[Hw ->]|[Hc ->]]; [left|right]; (split; [by eapply rule_says_reset|done]). }
  destruct (static_ok ev channel agent r) eqn:Es; simpl.
  2:{ apply Hnext; [by left|]. by apply says_skip_static. }
  destruct (rule_filter r) as [expr|] eqn:Ef.
  2:{ right. exists 0, r. rewrite Nat.add_0_r. split_and!; [done|constructor|]. left. split; [by apply says_win_plain|done]. }
  destruct (MAX_CONSECUTIVE_TIMEOUTS <=? load (consecutive_timeouts r) st)%Z eqn:Ed; boolify.
  { right. exists 0, r. split_and!; [done|constructor|]. right. split; [by eapply says_closed_disabled|done]. }
  assert (¬ disabled st r) as Hnd by (unfold disabled; lia).
  destruct (evaluate_filter expr (from_event ev channel) (compiled_filter r)) as [[]|e] eqn:Ee.
  - right. exists 0, r. rewrite Nat.add_0_r. split_and!; [done|constructor|]. left. split; [by eapply says_win_filter|done].
  - apply Hnext; [by apply only_reset_insert|]. by eapply says_skip_false.
  - assert (rule_says ev channel agent st r FailsClosed) by by eapply says_closed_error.
    destruct e; right; exists 0, r; (split_and!; [done|constructor|by right]).
Qed.

(** The counters: a disabled rule stays disabled. *)
Lemma match_rules_disabled ev channel agent index rs st c :
  (MAX_CONSECUTIVE_TIMEOUTS ≤ load c st)%Z →
  (MAX_CONSECUTIVE_TIMEOUTS ≤ load c (match_rules ev channel agent index rs st).2)%Z.
Proof.
  revert index st; induction rs as [|r rs IH]; intros index st Hc; simpl; [done|].
  destruct (negb _); [by apply IH|]. destruct (rule_filter r) as [expr|]; [|done].
  destruct (MAX_CONSECUTIVE_TIMEOUTS <=? load (consecutive_timeouts r) st)%Z eqn:Ed; boolify; [done|].
  assert (∀ v, (MAX_CONSECUTIVE_TIMEOUTS ≤ load c (<[consecutive_timeouts r := v]> st))%Z) as Hins.
  { intros v. rewrite load_insert. case_decide; subst; [lia|done]. }
  destruct (evaluate_filter _ _ _) as [[]|[]]; simpl; auto.
Qed.

End engine.

(** ** Properties *)

(** Rule matching returns the first rule that wins: every earlier rule skips the event by
    its static conditions or a false filter, and a disabled rule or any evaluation error ends
    the search without a match, for every expression engine. *)
Theorem first_rule_wins run ev channel rs agent st :
  let '(res, st') := match_event run ev channel rs agent st in
  (Forall (λ r, rule_says run ev channel agent st r Skips) rs ∧ res = None) ∨
  (∃ k r, rs !! k = Some r ∧ Forall (λ r, rule_says run ev channel agent st r Skips) (take k rs) ∧
     ((rule_says run ev channel agent st r Wins ∧
        res = Some {| rule_index := k; prompt_tag := default (rule_name r) (rule_prompt_tag r) |}) ∨
      (rule_says run ev channel agent st r FailsClosed ∧ res = None))).
Proof.
  pose proof (match_rules_spec run ev channel agent 0 rs st) as H. unfold match_event, winner in *.
  by destruct (match_rules run ev channel agent 0 rs st).
Qed.

(** One call after another, each with its own engine outcome. *)
Fixpoint calls ev channel rs agent (runs : list (string → option Node → FilterContext → result FilterError bool)) st :
  list (option MatchedRule) * Counters :=
  match runs with
  | [] => ([], st)
  | run :: runs =>
      let '(o, st1) := match_event run ev channel rs agent st in
      let '(os, st2) := calls ev channel rs agent runs st1 in (o :: os, st2)
  end.

(** A timed out evaluation counts, up to the limit. *)
Lemma match_event_timeout run ev channel rest agent r expr st :
  rule_filter r = Some expr → String.length expr ≤ MAX_EXPR_LEN → static_ok ev channel agent r = true →
  run expr (compiled_filter r) (from_event ev channel) = Err Timeout →
  (0 ≤ load (consecutive_timeouts r) st ≤ MAX_CONSECUTIVE_TIMEOUTS)%Z →
  ∃ st', match_event run ev channel (r :: rest) agent st = (None, st') ∧
    load (consecutive_timeouts r) st' = Z.min (load (consecutive_timeouts r) st + 1) MAX_CONSECUTIVE_TIMEOUTS.
Proof.
  intros Hf Hlen Hs Hrun Hb. unfold match_event. cbn [match_rules]. rewrite Hs, Hf. simpl negb. cbv iota zeta.
  unfold MAX_CONSECUTIVE_TIMEOUTS in *. destruct (5 <=? load (consecutive_timeouts r) st)%Z eqn:E; boolify.
  - eexists; split; [done|]. lia.
  - unfold evaluate_filter. assert ((MAX_EXPR_LEN <? String.length expr) = false) as -> by (apply Nat.ltb_ge; lia).
    rewrite Hrun. eexists; split; [done|]. rewrite load_insert, decide_True by done.
    unfold wrapping_add, wrap. rewrite Z.mod_small by lia. lia.
Qed.

(** Each timed out evaluation of a rule counts once, up to five; from then on the rule is
    never evaluated again by any holder of the shared counter, an event it would apply to
    matches nothing, and no later call re-enables it. *)
Theorem timeouts_disable_rule ev channel rest agent r expr st runs :
  rule_filter r = Some expr → String.length expr ≤ MAX_EXPR_LEN →
  static_ok ev channel agent r = true → load (consecutive_timeouts r) st = 0%Z →
  Forall (λ run, run expr (compiled_filter r) (from_event ev channel) = Err Timeout) runs →
  let '(outs, st') := calls ev channel (r :: rest) agent runs st in
  Forall (eq None) outs ∧
  load (consecutive_timeouts r) st' = Z.min (Z.of_nat (length runs)) MAX_CONSECUTIVE_TIMEOUTS ∧
  (5 ≤ length runs → ∀ run ev' channel' rs' agent',
     (static_ok ev' channel' agent' r = true → (match_event run ev' channel' (r :: rs') agent' st').1 = None) ∧
     (MAX_CONSECUTIVE_TIMEOUTS ≤ load (consecutive_timeouts r) (match_event run ev' channel' rs' agent' st').2)%Z).
Proof.
  intros Hf Hlen Hs Hst Hruns.
  assert (∀ st0, (0 ≤ load (consecutive_timeouts r) st0 ≤ MAX_CONSECUTIVE_TIMEOUTS)%Z →
    let '(outs, st') := calls ev channel (r :: rest) agent runs st0 in Forall (eq None) outs ∧
    load (consecutive_timeouts r) st' =
      Z.min (load (consecutive_timeouts r) st0 + Z.of_nat (length runs)) MAX_CONSECUTIVE_TIMEOUTS) as Hind.
  { clear Hst. induction Hruns as [|run runs Hrun Hruns IH]; intros st0 Hb; simpl; [split; [done|lia]|].
    destruct (match_event_timeout run ev channel rest agent r expr st0 Hf Hlen Hs Hrun Hb) as (st1 & -> & Hst1).
    specialize (IH st1). destruct (calls _ _ _ _ runs st1) as [os st2].
    destruct IH as [Hos Hst2]; [unfold MAX_CONSECUTIVE_TIMEOUTS in *; lia|]. split; [by constructor|].
    rewrite Hst2, Hst1. lia. }
  specialize (Hind st). rewrite Hst, Z.add_0_l in Hind. pose proof (Hind ltac:(done)) as H; clear Hind.
  destruct (calls ev channel (r :: rest) agent runs st) as [outs st']. destruct H as [Houts Hload].
  split_and!; [done|done|]. intros Hn run ev' channel' rs' agent'.
  assert (MAX_CONSECUTIVE_TIMEOUTS ≤ load (consecutive_timeouts r) st')%Z as Hdis
    by (rewrite Hload; unfold MAX_CONSECUTIVE_TIMEOUTS; lia).
  split; [|by apply match_rules_disabled]. intros Hs'. unfold match_event. cbn [match_rules]. rewrite Hs', Hf. simpl.
  by apply Z.leb_le in Hdis as ->.
Qed.

End rules.

(** ** Witness: a rule whose engine always times out *)

Definition slow_rule : SubscriptionRule (Node := unit) :=
  {| rule_name := "slow"; rule_channels := ScopeAll "all"; rule_kinds := []; require_mention := false;
     rule_filter := Some "x"; rule_prompt_tag := None; compiled_filter := None; consecutive_timeouts := 0 |}.
Definition rule_event : Event (L := slice_lib) :=
  {| id := "a"; pubkey := "b"; created_at := 1; kind := 9; tags := []; content := "" |}.

Example timeouts_disable_rule_witness :
  (match_event (L := slice_lib) (λ _ _ _, Ok true) rule_event 7 [slow_rule] "me"
     (calls rule_event 7 [slow_rule] "me" (replicate 5 (λ _ _ _, Err Timeout)) ∅).2).1 = None.
Proof.
  pose proof (timeouts_disable_rule (L := slice_lib) rule_event 7 [] "me" slow_rule "x" ∅
                (replicate 5 (λ _ _ _, Err Timeout)) eq_refl ltac:(vm_compute; lia) eq_refl eq_refl
                ltac:(repeat constructor)) as H.
  destruct (calls rule_event 7 [slow_rule] "me" (replicate 5 (λ _ _ _, Err Timeout)) ∅) as [outs st'].
  destruct H as (_ & _ & H). simpl.
  exact (proj1 (H ltac:(simpl; lia) (λ _ _ _, Ok true) rule_event 7%N [] "me") eq_refl).
Defined.
