(* ===== verification/GitManifest.v ===== *)
(** * Git manifests ([crates/maju-relay/src/api/git/manifest.rs])

    The content-addressed snapshot of a repository's published state, its
    validation and its canonical bytes.  [refs] is a [BTreeMap], iterated in
    key order ([btree_keys]).  [serde_json] is not part of the sources: its
    encoder and decoder for [Manifest] are the class [SerdeLib], with the
    documented round trip of derived code as its law. *)
From S2P Require Import Prelude Nostr.

Definition MANIFEST_VERSION : Z := 1.
Definition MAX_MANIFEST_PACKS : nat := 128.
Definition PACK_COMPACTION_THRESHOLD : nat := MAX_MANIFEST_PACKS * 3 / 4.
Definition MAX_MANIFEST_REFS : nat := N.to_nat 10000.
#[global] Arguments MAX_MANIFEST_REFS : simpl never.
#[global] Arguments MAX_MANIFEST_PACKS : simpl never.

Record Manifest := {
  version : Z;
  head : string;
  refs : gmap string string;
  packs : list string;
  parent : option string
}.

Inductive ManifestError :=
  | Serde (message : string)
  | UnsupportedVersion (got expected : Z)
  | UnsafeRefName (name : string)
  | MalformedOid (refname oid : string)
  | EmptyHead
  | MalformedParent (p : string)
  | TooManyPacks (got max : nat)
  | TooManyRefs (got max : nat)
  | MalformedPackKey (key : string).

(** [serde_json::to_vec] and [serde_json::from_slice] at [Manifest]. *)
Class SerdeLib : Type := {
  to_vec : Manifest → result string string;
  from_slice : string → result string Manifest
}.

Class SerdeLaws (S : SerdeLib) : Prop := {
  serde_round_trip m b : to_vec m = Ok b → from_slice b = Ok m;
  to_vec_total m : is_ok (to_vec m) = true
}.

(** ** Predicates *)

Definition slash : ascii := "/"%char.

Definition is_refname_char (c : ascii) : bool :=
  is_ascii_alphanumeric c || Ascii.eqb c slash || Ascii.eqb c "_" || Ascii.eqb c "." || Ascii.eqb c "-".

Definition is_safe_refname (s : string) : bool :=
  if negb (starts_with "refs/" s) then false
  else if str_contains ".." s || str_contains "//" s || starts_with "/" s || ends_with_char slash s then false
  else str_forall is_refname_char s.

Definition is_hex_oid (s : string) : bool :=
  ((String.length s =? 40) || (String.length s =? 64)) && str_forall is_ascii_hexdigit s.

Definition is_lower_hexdigit (c : ascii) : bool := is_ascii_digit c || in_range 97 102 c.

Definition is_manifest_digest (s : string) : bool :=
  (String.length s =? 64) && str_forall is_lower_hexdigit s.

Definition is_pack_key (s : string) : bool :=
  match strip_prefix "packs/" s with Some d => is_manifest_digest d | None => false end.

Definition pointer_key {L : NostrLib} (community : Uuid) (owner repo : string) : string :=
  let repo := default repo (strip_suffix ".git" repo) in
  "repos/" +:+ uuid_to_string community +:+ "/" +:+ owner +:+ "/" +:+ repo +:+ "/pointer".

(** ** [Manifest] *)

(** The loop over [refs], at the names still to come. *)
Fixpoint validate_refs (m : gmap string string) (names : list string) : result ManifestError unit :=
  match names with
  | [] => Ok tt
  | refname :: names' =>
      let oid := default "" (m !! refname) in
      if negb (is_safe_refname refname) then Err (UnsafeRefName refname)
      else if negb (is_hex_oid oid) then Err (MalformedOid refname oid)
      else validate_refs m names'
  end.

Definition validate (m : Manifest) : result ManifestError unit :=
  if MAX_MANIFEST_PACKS <? length (packs m) then Err (TooManyPacks (length (packs m)) MAX_MANIFEST_PACKS)
  else if MAX_MANIFEST_REFS <? size (refs m) then Err (TooManyRefs (size (refs m)) MAX_MANIFEST_REFS)
  else if (head m =? "")%string then Err EmptyHead
  else if negb (is_safe_refname (head m)) then Err (UnsafeRefName (head m))
  else
    _ ← validate_refs (refs m) (btree_keys (refs m));
    match List.find (λ p, negb (is_pack_key p)) (packs m) with
    | Some p => Err (MalformedPackKey p)
    | None =>
        match parent m with
        | Some p => if negb (is_manifest_digest p) then Err (MalformedParent p) else Ok tt
        | None => Ok tt
        end
    end.

(** The clone with sorted packs that [canonical_bytes] serializes. *)
Definition normalize (m : Manifest) : Manifest :=
  {| version := version m; head := head m; refs := refs m; packs := dedup_str (sort_str (packs m));
     parent := parent m |}.

Section serde.
Context {SL : SerdeLib}.

Definition canonical_bytes (m : Manifest) : result ManifestError string :=
  map_err Serde (to_vec (normalize m)).

Definition from_bytes (bytes : string) : result ManifestError Manifest :=
  m ← map_err Serde (from_slice bytes);
  if negb (version m =? MANIFEST_VERSION)%Z then Err (UnsupportedVersion (version m) MANIFEST_VERSION) else Ok m.

End serde.

(** ** Specification *)

(** What a clone needs of a published manifest. *)
Record publishable (m : Manifest) : Prop := {
  pub_packs : length (packs m) ≤ MAX_MANIFEST_PACKS ∧ ∀ p, p ∈ packs m → is_pack_key p = true;
  pub_refs : size (refs m) ≤ MAX_MANIFEST_REFS ∧
    ∀ name oid, refs m !! name = Some oid → is_safe_refname name = true ∧ is_hex_oid oid = true;
  pub_head : is_safe_refname (head m) = true;
  pub_parent : ∀ p, parent m = Some p → is_manifest_digest p = true
}.

Lemma validate_refs_ok m names :
  validate_refs m names = Ok tt ↔
  ∀ name, name ∈ names → is_safe_refname name = true ∧ is_hex_oid (default "" (m !! name)) = true.
Proof.
  induction names as [|n names IH]; simpl; [set_solver|].
  destruct (is_safe_refname n) eqn:Es; simpl; [|split; [done|intros H; by destruct (H n ltac:(left)); congruence]].
  destruct (is_hex_oid _) eqn:Eo; simpl; [|split; [done|intros H; by destruct (H n ltac:(left)); congruence]].
  rewrite IH. setoid_rewrite elem_of_cons. naive_solver.
Qed.

Lemma find_negb_None (f : string → bool) l :
  List.find (λ p, negb (f p)) l = None ↔ ∀ p, p ∈ l → f p = true.
Proof.
  induction l as [|p l IH]; simpl; [set_solver|]. setoid_rewrite elem_of_cons.
  destruct (f p) eqn:E; simpl; [rewrite IH; naive_solver|]. split; [done|]. intros H. rewrite H in E by auto. done.
Qed.

Lemma unsafe_empty : is_safe_refname "" = false.
Proof. done. Qed.

Lemma validate_ok m : validate m = Ok tt ↔ publishable m.
Proof.
  unfold validate. destruct (MAX_MANIFEST_PACKS <? _) eqn:Ep; boolify.
  { split; [done|]. intros [[? _] _ _ _]. lia. }
  destruct (MAX_MANIFEST_REFS <? _) eqn:Er; boolify.
  { split; [done|]. intros [_ [? _] _ _]. lia. }
  destruct (head m =? "")%string eqn:Eh; boolify.
  { split; [done|]. intros [_ _ H _]. rewrite Eh in H. done. }
  destruct (is_safe_refname (head m)) eqn:Es; simpl; [|split; [done|by intros [_ _ ? _]; congruence]].
  destruct (validate_refs _ _) as [[]|e] eqn:Ev; csimpl.
  2:{ split; [done|]. intros [_ [_ H] _ _]. assert (validate_refs (refs m) (btree_keys (refs m)) = Ok tt); [|congruence].
      apply validate_refs_ok. intros name Hn. apply elem_of_btree_keys in Hn as [oid Ho]. rewrite Ho. by apply H. }
  rewrite validate_refs_ok in Ev.
  assert (∀ name oid, refs m !! name = Some oid → is_safe_refname name = true ∧ is_hex_oid oid = true) as Hrefs.
  { intros name oid Ho. specialize (Ev name). rewrite elem_of_btree_keys, Ho in Ev. by apply Ev. }
  destruct (List.find _ _) as [p|] eqn:Ef.
  { split; [done|]. intros [[_ H] _ _ _]. rewrite (proj2 (find_negb_None is_pack_key (packs m)) H) in Ef. done. }
  rewrite find_negb_None in Ef.
  destruct (parent m) as [p|] eqn:Epar; [destruct (is_manifest_digest p) eqn:Ed; simpl|].
  - split; [intros _; constructor; eauto; naive_solver|done].
  - split; [done|]. intros [_ _ _ H]. rewrite (H p) in Ed; done.
  - split; [intros _; constructor; eauto; naive_solver|done].
Qed.

(** ** Normal form *)

Lemma normalize_idemp m : normalize (normalize m) = normalize m.
Proof.
  unfold normalize. simpl. f_equal. rewrite (sort_str_id (dedup_str _)) by apply dedup_str_sorted, sort_str_sorted.
  apply dedup_str_idemp.
Qed.

Lemma elem_of_normalize_packs m p : p ∈ packs (normalize m) ↔ p ∈ packs m.
Proof. simpl. by rewrite elem_of_dedup_str, elem_of_sort_str. Qed.

Lemma length_dedup_str l : length (dedup_str l) ≤ length l.
Proof.
  induction l as [|u [|v l] IH]; [done|done|]. rewrite dedup_str_cons. destruct (u =? v)%string; simpl in *; lia.
Qed.

Lemma normalize_publishable m : publishable m → publishable (normalize m).
Proof.
  intros [[Hl Hp] Hr Hh Hpar]. constructor; try done. split.
  - cbn [packs normalize]. etrans; [apply length_dedup_str|]. by rewrite (sort_str_perm (packs m)).
  - intros p Hin. by apply Hp, elem_of_normalize_packs.
Qed.

(** ** Content addressing *)

Section content.
Context {SL : SerdeLib} {SLL : SerdeLaws SL}.

Lemma canonical_bytes_from_bytes m : version m = MANIFEST_VERSION →
  ∃ b, canonical_bytes m = Ok b ∧ from_bytes b = Ok (normalize m).
Proof.
  intros Hv. unfold canonical_bytes, from_bytes. pose proof (to_vec_total (normalize m)) as H.
  destruct (to_vec (normalize m)) as [b|] eqn:E; [|done]. exists b. split; [done|].
  apply serde_round_trip in E. rewrite E. csimpl. by rewrite Hv.
Qed.

(** C32: Two manifests of the current version have the same canonical bytes exactly when they
    agree on head, refs, parent and the set of packs; the bytes parse back to the normal form of
    the manifest, whose own canonical bytes they are. *)
Theorem canonical_bytes_identify m1 m2 :
  version m1 = MANIFEST_VERSION → version m2 = MANIFEST_VERSION →
  (canonical_bytes m1 = canonical_bytes m2 ↔
     head m1 = head m2 ∧ refs m1 = refs m2 ∧ parent m1 = parent m2 ∧ ∀ p, p ∈ packs m1 ↔ p ∈ packs m2) ∧
  ∃ b, canonical_bytes m1 = Ok b ∧ from_bytes b = Ok (normalize m1) ∧ canonical_bytes (normalize m1) = Ok b.
Proof.
  intros H1 H2. destruct (canonical_bytes_from_bytes m1 H1) as (b1 & Hb1 & Hf1).
  destruct (canonical_bytes_from_bytes m2 H2) as (b2 & Hb2 & Hf2). split.
  - split.
    + intros Heq. assert (Hn : normalize m1 = normalize m2) by (rewrite Hb1, Hb2 in Heq; congruence).
      split_and!; [by apply (f_equal head) in Hn|by apply (f_equal refs) in Hn|by apply (f_equal parent) in Hn|].
      intros p. by rewrite <- (elem_of_normalize_packs m1), <- (elem_of_normalize_packs m2), Hn.
    + intros (Hh & Hr & Hp & Hk). unfold canonical_bytes, normalize.
      by rewrite (sort_dedup_ext _ _ Hk), H1, H2, Hh, Hr, Hp.
  - exists b1. split_and!; [done|done|]. by rewrite <- Hb1; unfold canonical_bytes; rewrite normalize_idemp.
Qed.

End content.

(** ** Keys *)

Definition no_slash (s : string) : Prop := str_contains_char slash s = false.

Lemma pointer_key_join {L : NostrLib} community owner repo :
  pointer_key community owner repo =
  str_join slash ["repos"; uuid_to_string community; owner; default repo (strip_suffix ".git" repo); "pointer"].
Proof. done. Qed.

Definition is_repo_char (c : ascii) : bool :=
  is_ascii_alphanumeric c || Ascii.eqb c "." || Ascii.eqb c "_" || Ascii.eqb c "-".

(** [validate_repo_id] of [side_effects.rs], on the identifier of an announcement. *)
Definition validate_repo_id (repo_id : string) : bool :=
  negb (repo_id =? "")%string && (String.length repo_id <=? 64) && negb (starts_with "." repo_id)
  && negb (str_contains ".." repo_id) && str_forall is_repo_char repo_id.

(** [validate_repo_id] of [transport.rs], on the parameters of a request. *)
Definition transport_validate_repo_id (owner repo : string) : result string string :=
  if negb (String.length owner =? 64)
     || negb (str_forall (λ c, is_ascii_hexdigit c && negb (is_ascii_upper c)) owner)
  then Err "invalid owner"
  else
    let repo_name := default repo (strip_suffix ".git" repo) in
    if (repo_name =? "")%string || (64 <? String.length repo_name) || starts_with "." repo_name
       || str_contains ".." repo_name || negb (str_forall is_repo_char repo_name)
    then Err "invalid repo name"
    else Ok repo_name.

Lemma transport_validate_names owner repo name :
  transport_validate_repo_id owner repo = Ok name →
  name = default repo (strip_suffix ".git" repo) ∧ validate_repo_id name = true ∧ no_slash owner ∧ no_slash name.
Proof.
  unfold transport_validate_repo_id, validate_repo_id. intros H.
  destruct (negb (String.length owner =? 64) || _) eqn:Eo; [done|]. cbv zeta in H.
  set (n := default repo (strip_suffix ".git" repo)) in *.
  destruct (_ || negb (str_forall is_repo_char n)) eqn:En; [done|]. injection H as <-.
  apply orb_false_iff in Eo as [_ Ho%negb_false_iff].
  rewrite !orb_false_iff, negb_false_iff in En. destruct En as [[[[E0 E64] E1] E2] Hn].
  split_and!; [done| | |].
  - rewrite E0, E1, E2, Hn. apply Nat.ltb_ge, Nat.leb_le in E64. by rewrite E64.
  - by apply (str_forall_no_char _ slash) in Ho.
  - by apply (str_forall_no_char _ slash) in Hn.
Qed.

(** Two accepted repository requests use the same pointer exactly when they agree on
    community, owner and the repository name that the push policy is evaluated for. *)
Theorem repo_keys_are_private {L : NostrLib} {UL : UuidLaws L} c1 c2 o1 o2 r1 r2 n1 n2 :
  transport_validate_repo_id o1 r1 = Ok n1 → transport_validate_repo_id o2 r2 = Ok n2 →
  pointer_key c1 o1 r1 = pointer_key c2 o2 r2 ↔ c1 = c2 ∧ o1 = o2 ∧ n1 = n2.
Proof.
  intros (-> & _ & Ho1 & Hn1)%transport_validate_names (-> & _ & Ho2 & Hn2)%transport_validate_names.
  rewrite !pointer_key_join. split.
  - intros H%(f_equal (str_split slash)). rewrite !str_split_join in H; [|done|by repeat constructor; try (by apply uuid_no_char)..].
    injection H as Hu Ho Hn. by apply uuid_injective in Hu.
  - by intros (-> & -> & ->).
Qed.

(** An announced name may end in [.git]; it then seeds the pointer of the name
    without the suffix, under which no request to the announced name arrives. *)
Lemma dotgit_announcement_key {L : NostrLib} c o :
  validate_repo_id "app.git" = true ∧ pointer_key c o "app.git" = pointer_key c o "app" ∧
  (∀ name, transport_validate_repo_id o "app.git.git" = Ok name →
     name = "app.git" ∧
     pointer_key c o "app.git.git" = "repos/" +:+ uuid_to_string c +:+ "/" +:+ o +:+ "/app.git/pointer").
Proof.
  split_and!; [done|done|]. intros name (-> & _)%transport_validate_names. done.
Qed.

(** ** A concrete serializer *)

(** Encoders that prepend to a text, and their decoders. *)
Class Codec (A : Type) := {
  enc : A → string → string;
  dec : string → option (A * string);
  dec_enc a rest : dec (enc a rest) = Some (a, rest)
}.

(** A length in unary, then that many characters. *)
Fixpoint take_str (n : nat) (s : string) : option (string * string) :=
  match n, s with
  | O, _ => Some ("", s)
  | S n', String c s' => '(t, r) ← take_str n' s'; Some (String c t, r)
  | S _, EmptyString => None
  end.
Fixpoint enc_len (n : nat) (rest : string) : string :=
  match n with O => String "0" rest | S n' => String "1" (enc_len n' rest) end.
Fixpoint dec_len (s : string) : option (nat * string) :=
  match s with
  | EmptyString => None
  | String c s' => if Ascii.eqb c "1" then '(n, r) ← dec_len s'; Some (S n, r) else Some (O, s')
  end.

Lemma take_str_app a rest : take_str (String.length a) (a +:+ rest) = Some (a, rest).
Proof. induction a as [|c a IH]; [by destruct rest|]. simpl. by rewrite IH. Qed.

Lemma dec_enc_len n r : dec_len (enc_len n r) = Some (n, r).
Proof. induction n as [|n IH]; simpl; by rewrite ?IH. Qed.

#[export] Instance string_codec : Codec string.
Proof.
  refine {| enc s rest := enc_len (String.length s) (s +:+ rest);
            dec s := '(n, r) ← dec_len s; take_str n r |}.
  intros a rest. rewrite dec_enc_len. apply take_str_app.
Defined.

#[export] Instance pair_codec {A C} `{Codec A, Codec C} : Codec (A * C).
Proof.
  refine {| enc x rest := enc x.1 (enc x.2 rest);
            dec s := '(a, r) ← dec s; '(c, r') ← dec r; Some ((a, c), r') |}.
  intros [a c] rest. simpl. rewrite dec_enc. csimpl. by rewrite dec_enc.
Defined.

(** The elements one after the other, their number before them. *)
Fixpoint dec_many {A} `{Codec A} (n : nat) (s : string) : option (list A * string) :=
  match n with
  | O => Some ([], s)
  | S n' => '(a, r) ← dec s; '(l, r') ← dec_many n' r; Some (a :: l, r')
  end.

#[export] Instance list_codec {A} `{Codec A} : Codec (list A).
Proof.
  refine {| enc l rest := enc_len (length l) (foldr enc rest l); dec s := '(n, r) ← dec_len s; dec_many n r |}.
  intros l rest. rewrite dec_enc_len. csimpl. induction l as [|a l IH]; [done|]. simpl. rewrite dec_enc. csimpl.
  by rewrite IH.
Defined.

(** A codec through an injection. *)
Definition inj_codec {A C} `{Codec C} (to : A → C) (from : C → A) (Hft : ∀ a, from (to a) = a) : Codec A.
Proof.
  refine {| enc a rest := enc (to a) rest; dec s := '(c, r) ← dec s; Some (from c, r) |}.
  intros a rest. rewrite dec_enc. csimpl. by rewrite Hft.
Defined.

Definition Z_text (z : Z) : string :=
  match z with Z0 => "" | Zpos p => String "+" (print_pos p) | Zneg p => String "-" (print_pos p) end.
Definition text_Z (s : string) : Z :=
  match s with
  | EmptyString => Z0
  | String c s' => if Ascii.eqb c "+" then Zpos (parse_pos s') else Zneg (parse_pos s')
  end.

Lemma text_Z_text z : text_Z (Z_text z) = z.
Proof. destruct z as [|p|p]; simpl; by rewrite ?parse_print_pos. Qed.

#[export] Instance Z_codec : Codec Z := inj_codec Z_text text_Z text_Z_text.

#[export] Instance option_codec {A} `{Codec A} : Codec (option A) := inj_codec
  (λ o, match o with Some a => [a] | None => [] end) (@hd_error A)
  (λ o, match o with Some _ => eq_refl | None => eq_refl end).

#[export] Instance refs_codec : Codec (gmap string string) :=
  inj_codec map_to_list list_to_map list_to_map_to_list.

Definition manifest_fields (m : Manifest) : Z * (string * (gmap string string * (list string * option string))) :=
  (version m, (head m, (refs m, (packs m, parent m)))).
Definition of_manifest_fields (t : Z * (string * (gmap string string * (list string * option string)))) : Manifest :=
  match t with (v, (h, (r, (p, q)))) => {| version := v; head := h; refs := r; packs := p; parent := q |} end.

#[export] Instance mem_serde : SerdeLib := {|
  to_vec m := Ok (enc (manifest_fields m) "");
  from_slice b := match dec b with Some (t, _) => Ok (of_manifest_fields t) | None => Err "parse" end
|}.

#[export] Instance mem_serde_laws : SerdeLaws mem_serde.
Proof.
  constructor; [|done]. intros m b H.
  assert (b = enc (manifest_fields m) "") as -> by (unfold to_vec, mem_serde in H; congruence).
  unfold from_slice, mem_serde. rewrite dec_enc. by destruct m.
Qed.

Definition sample_manifest (packs : list string) : Manifest :=
  {| version := MANIFEST_VERSION; head := "refs/heads/main"; refs := ∅; packs := packs; parent := None |}.

Lemma canonical_bytes_identify_witness :
  canonical_bytes (sample_manifest ["b"; "a"; "b"]) = canonical_bytes (sample_manifest ["a"; "b"]).
Proof.
  apply (canonical_bytes_identify (sample_manifest ["b"; "a"; "b"]) (sample_manifest ["a"; "b"]));
    [reflexivity|reflexivity|].
  split; [reflexivity|]. split; [reflexivity|]. split; [reflexivity|]. intros p. cbn [packs sample_manifest].
  rewrite !elem_of_cons. tauto.
Defined.

Lemma repo_keys_are_private_witness :
  let o := "0123456789abcdef0123456789abcdef0123456789abcdef0123456789abcdef" in
  pointer_key (L := text_lib) 1%N o "app" ≠ pointer_key (L := text_lib) 2%N o "app.git".
Proof.
  intros o H. apply (repo_keys_are_private (L := text_lib) 1%N 2%N o o "app" "app.git" "app" "app") in H;
    [destruct H as [H _]; discriminate|reflexivity|reflexivity].
Defined.
