(* ===== verification/GitReport.v ===== *)
(** * The report of [git receive-pack] ([crates/maju-relay/src/api/git/transport.rs])

    The status of a push arrives as a stream of pkt-lines, with side-band
    framing a stream inside a stream.  [PktLineIter] as the list of the payloads
    it yields, and the scan for a rejected ref.  A text of a length field that
    is not UTF-8 is not a number either, so one failure covers both. *)
From S2P Require Import Prelude.

Abbreviation bytes := (list ascii) (only parsing).

(** [u8::starts_with] for a literal. *)
Definition bytes_of (s : string) : bytes := String.list_ascii_of_string s.
Fixpoint bytes_start (p s : bytes) : bool :=
  match p, s with
  | [], _ => true
  | a :: p', b :: s' => Ascii.eqb a b && bytes_start p' s'
  | _ :: _, [] => false
  end.

(** [char::to_digit(16)]. *)
Definition hex_value (c : ascii) : option N :=
  if is_ascii_digit c then Some (N_of_ascii c - 48)%N
  else if in_range 97 102 c then Some (N_of_ascii c - 87)%N
  else if in_range 65 70 c then Some (N_of_ascii c - 55)%N
  else None.

Definition push_digit (acc : option N) (c : ascii) : option N :=
  a ← acc; d ← hex_value c; Some (a * 16 + d)%N.

(** [usize::from_str_radix(_, 16)] on at most four characters. *)
Definition from_str_radix_16 (s : bytes) : option N :=
  match s with
  | [] => None
  | c :: s' =>
      if Ascii.eqb c "+" then match s' with [] => None | _ :: _ => foldl push_digit (Some 0%N) s' end
      else foldl push_digit (Some 0%N) s
  end.

(** The payloads from the position of the iterator on; [fuel] bounds the number
    of frames. *)
Fixpoint pkt_lines_fuel (fuel : nat) (rest : bytes) : list bytes :=
  match fuel with
  | O => []
  | S fuel' =>
      if length rest <? 4 then []
      else
        match from_str_radix_16 (take 4 rest) with
        | None => []
        | Some len =>
            let len := N.to_nat len in
            if len <? 4 then pkt_lines_fuel fuel' (drop 4 rest)
            else if length rest <? len then []
            else drop 4 (take len rest) :: pkt_lines_fuel fuel' (drop len rest)
        end
  end.

(** Every frame takes at least four bytes. *)
Definition pkt_lines (buf : bytes) : list bytes := pkt_lines_fuel (S (length buf)) buf.

Definition ng : bytes := bytes_of "ng ".

Definition band (n : N) : ascii := ascii_of_N n.

Definition payload_rejected (payload : bytes) : bool :=
  match payload with
  | c :: inner =>
      if Ascii.eqb c (band 1) then existsb (bytes_start ng) (pkt_lines inner)
      else if Ascii.eqb c (band 2) || Ascii.eqb c (band 3) then false
      else bytes_start ng payload
  | [] => false
  end.

Definition receive_pack_report_rejected (stdout : bytes) : bool := existsb payload_rejected (pkt_lines stdout).

(** ** The pkt-line format *)

Definition hex_nibble (n : N) : ascii := ascii_of_N (if (n <? 10)%N then 48 + n else 87 + n).
Definition hex4 (n : N) : bytes :=
  [hex_nibble (n / 4096 mod 16); hex_nibble (n / 256 mod 16); hex_nibble (n / 16 mod 16); hex_nibble (n mod 16)].

Definition pkt_line (payload : bytes) : bytes := hex4 (N.of_nat (4 + length payload)) ++ payload.

(** [framed s l]: [s] is a sequence of pkt-lines with the payloads [l], and of
    control packets. *)
Inductive framed : bytes → list bytes → Prop :=
  | framed_end : framed [] []
  | framed_line p s l : (N.of_nat (4 + length p) < 65536)%N → framed s l → framed (pkt_line p ++ s) (p :: l)
  | framed_control n s l : (n < 4)%N → framed s l → framed (hex4 n ++ s) l.

Lemma hex_value_nibble n : (n < 16)%N → hex_value (hex_nibble n) = Some n ∧ Ascii.eqb (hex_nibble n) "+" = false.
Proof.
  intros H. assert (Hin : n ∈ N_of_nat <$> seq 0 16).
  { apply list_elem_of_fmap. exists (N.to_nat n). rewrite elem_of_seq. lia. }
  clear H. revert n Hin. apply Forall_forall. vm_compute. by repeat constructor.
Qed.

Lemma from_str_radix_hex4 n : (n < 65536)%N → from_str_radix_16 (hex4 n) = Some n.
Proof.
  intros H. unfold from_str_radix_16, hex4.
  assert (Hd : ∀ k, (n / k mod 16 < 16)%N) by (intros; by apply N.mod_lt).
  destruct (hex_value_nibble _ (Hd 4096%N)) as [H1 ->], (hex_value_nibble _ (Hd 256%N)) as [H2 _],
    (hex_value_nibble _ (Hd 16%N)) as [H3 _].
  destruct (hex_value_nibble (n mod 16)) as [H4 _]; [by apply N.mod_lt|].
  unfold push_digit. simpl foldl. rewrite H1. csimpl. rewrite H2. csimpl. rewrite H3. csimpl. rewrite H4. csimpl. f_equal.
  clear -H. zify. Z.to_euclidean_division_equations. lia.
Qed.

Lemma length_hex4 n : length (hex4 n) = 4.
Proof. done. Qed.

(** ** The iterator reads the format back *)

Lemma quarter_drop k m n (buf : bytes) : 4 ≤ m → m ≤ length buf → length buf / 4 < S k → length buf / 4 < S n →
  length (drop m buf) / 4 < k ∧ length (drop m buf) / 4 < n.
Proof.
  intros Hm Hl Hk Hn. assert (H : length (drop m buf) / 4 < length buf / 4); [|lia].
  rewrite length_drop. assert (H1 : (length buf - m) / 4 ≤ (length buf - 4) / 4) by (apply Nat.Div0.div_le_mono; lia).
  replace (length buf / 4) with (S ((length buf - 4) / 4)); [lia|].
  replace (length buf) with (1 * 4 + (length buf - 4)) at 2 by lia. rewrite Nat.div_add_l; lia.
Qed.

Lemma pkt_lines_fuel_enough n buf : length buf / 4 < n → pkt_lines_fuel n buf = pkt_lines buf.
Proof.
  unfold pkt_lines. enough (H : ∀ k n buf, length buf / 4 < k → length buf / 4 < n → pkt_lines_fuel n buf = pkt_lines_fuel k buf).
  { intros Hn. apply H; [|done]. pose proof (Nat.Div0.div_le_upper_bound (length buf) 4 (length buf)). lia. }
  clear. induction k as [|k IH]; intros n buf Hk Hn; [lia|]. destruct n as [|n]; [lia|]. cbn [pkt_lines_fuel].
  destruct (length buf <? 4) eqn:E4; [done|]. apply Nat.ltb_ge in E4. destruct (from_str_radix_16 _) as [len|]; [|done]. cbv zeta.
  destruct (N.to_nat len <? 4) eqn:El.
  - destruct (quarter_drop k 4 n buf) as [H1 H2]; [lia..|]. by apply IH.
  - apply Nat.ltb_ge in El. destruct (length buf <? N.to_nat len) eqn:Eb; [done|]. apply Nat.ltb_ge in Eb. f_equal.
    destruct (quarter_drop k (N.to_nat len) n buf) as [H1 H2]; [lia..|]. by apply IH.
Qed.

(** One step of the iterator. *)
Lemma pkt_lines_step buf : pkt_lines buf =
  if length buf <? 4 then []
  else
    match from_str_radix_16 (take 4 buf) with
    | None => []
    | Some len =>
        if N.to_nat len <? 4 then pkt_lines (drop 4 buf)
        else if length buf <? N.to_nat len then []
        else drop 4 (take (N.to_nat len) buf) :: pkt_lines (drop (N.to_nat len) buf)
    end.
Proof.
  unfold pkt_lines at 1. cbn [pkt_lines_fuel].
  destruct (length buf <? 4) eqn:E4; [done|]. boolify. destruct (from_str_radix_16 _) as [len|]; [|done]. cbv zeta.
  assert (Hq : ∀ m, 4 ≤ m → m ≤ length buf → pkt_lines_fuel (length buf) (drop m buf) = pkt_lines (drop m buf)).
  { intros m H1 H2. apply pkt_lines_fuel_enough. apply Nat.Div0.div_lt_upper_bound. rewrite length_drop. lia. }
  destruct (N.to_nat len <? 4) eqn:El; boolify; [apply Hq; lia|].
  destruct (length buf <? N.to_nat len) eqn:Eb; [done|]. boolify. f_equal. apply Hq; lia.
Qed.

Lemma pkt_lines_line p s : (N.of_nat (4 + length p) < 65536)%N → pkt_lines (pkt_line p ++ s) = p :: pkt_lines s.
Proof.
  intros Hp. rewrite pkt_lines_step. unfold pkt_line. rewrite <- app_assoc.
  set (n := N.of_nat (4 + length p)). assert (Hn : (n < 65536)%N) by done.
  rewrite length_app, length_hex4. destruct (4 + _ <? 4) eqn:E; boolify; [lia|].
  rewrite (take_app_length' _ _ 4) by done. rewrite from_str_radix_hex4 by done.
  unfold n. rewrite Nat2N.id. fold n. destruct (4 + length p <? 4) eqn:E2; boolify; [lia|].
  rewrite length_app. destruct (4 + (length p + length s) <? 4 + length p) eqn:E3; boolify; [lia|]. f_equal.
  - rewrite take_app, length_hex4, take_ge by (rewrite length_hex4; lia).
    replace (4 + length p - 4) with (length p) by lia. rewrite take_app_length. by rewrite (drop_app_length' _ _ 4) by done.
  - rewrite drop_app, length_hex4, drop_ge by (rewrite length_hex4; lia).
    replace (4 + length p - 4) with (length p) by lia. by rewrite drop_app_length.
Qed.

Lemma pkt_lines_control n s : (n < 4)%N → pkt_lines (hex4 n ++ s) = pkt_lines s.
Proof.
  intros Hn. rewrite pkt_lines_step. rewrite length_app, length_hex4. destruct (4 + _ <? 4) eqn:E; boolify; [lia|].
  rewrite (take_app_length' _ _ 4) by done. rewrite from_str_radix_hex4 by lia.
  destruct (N.to_nat n <? 4) eqn:E2; boolify; [|lia]. by rewrite (drop_app_length' _ _ 4) by done.
Qed.

Lemma pkt_lines_framed s l : framed s l → pkt_lines s = l.
Proof.
  induction 1 as [|p s l Hp _ IH|n s l Hn _ IH]; [done| |].
  - rewrite pkt_lines_line by done. by rewrite IH.
  - by rewrite pkt_lines_control.
Qed.

(** ** The scan *)

(** A status line [ng], directly or inside a data frame. *)
Inductive rejects : bytes → Prop :=
  | rejects_line rest : rejects (ng ++ rest)
  | rejects_inner s l rest : framed s l → ng ++ rest ∈ l → rejects (band 1 :: s).

Lemma bytes_start_app p s : bytes_start p s = true ↔ ∃ r, s = p ++ r.
Proof.
  revert s; induction p as [|a p IH]; intros s; [split; [by exists s|done]|].
  destruct s as [|b s]; simpl; [split; [done|by intros [? ?]]|].
  rewrite andb_true_iff, Ascii.eqb_eq, IH. split; [intros [-> [r ->]]; by exists r|intros [r [= -> ->]]; by eauto].
Qed.

(** The payload is a well-formed report: bare, progress text, or a data frame
    that holds whole pkt-lines. *)
Definition whole (payload : bytes) : Prop := ∀ s, payload = band 1 :: s → ∃ l, framed s l.

Lemma payload_rejected_spec payload : whole payload → payload_rejected payload = true ↔ rejects payload.
Proof.
  intros Hw. unfold payload_rejected. destruct payload as [|c s]; [split; [done|by inversion 1]|].
  destruct (Ascii.eqb c (band 1)) eqn:E1.
  - apply Ascii.eqb_eq in E1 as ->. destruct (Hw s eq_refl) as [l Hl]. rewrite (pkt_lines_framed _ _ Hl).
    rewrite existsb_exists. split.
    + intros (x & Hx%list_elem_of_In & [r ->]%bytes_start_app). by econstructor.
    + intros H. inversion H as [r Hr|s' l' r Hf Hin]; subst.
      rewrite <- (pkt_lines_framed _ _ Hl), (pkt_lines_framed _ _ Hf). exists (ng ++ r).
      rewrite <- list_elem_of_In. split; [done|]. apply bytes_start_app. by exists r.
  - apply Ascii.eqb_neq in E1. destruct (Ascii.eqb c (band 2) || Ascii.eqb c (band 3)) eqn:E2.
    + split; [done|]. intros H. inversion H; subst; [|done]. done.
    + rewrite bytes_start_app. split; [intros [r ->]; constructor|]. intros H. inversion H; subst; [by eexists|done].
Qed.

Lemma report_rejected_spec stdout l :
  framed stdout l → Forall whole l →
  receive_pack_report_rejected stdout = true ↔ ∃ p, p ∈ l ∧ rejects p.
Proof.
  intros Hf Hw. unfold receive_pack_report_rejected. rewrite (pkt_lines_framed _ _ Hf), existsb_exists.
  rewrite Forall_forall in Hw. split.
  - intros (p & Hin%list_elem_of_In & Hp). exists p. split; [done|]. apply payload_rejected_spec; auto.
  - intros (p & Hin & Hp). exists p. split; [by apply list_elem_of_In|]. apply payload_rejected_spec; auto.
Qed.

(** C33: On any bytes the pkt-line iterator ends within one step per four bytes and one more. On
    a stream of well-formed pkt-lines it reads back the payloads, and if the data frames among
    them hold whole pkt-lines, the scan of a receive-pack report finds a rejection exactly when
    some line, bare or inside a data frame, starts with ng. (A line that straddles data frames
    is missed, straddling_report_missed.) *)
Theorem report_scan_exact stdout :
  (∀ n, length stdout / 4 < n → pkt_lines_fuel n stdout = pkt_lines stdout) ∧
  ∀ l, framed stdout l →
    pkt_lines stdout = l ∧
    (Forall whole l → receive_pack_report_rejected stdout = true ↔ ∃ p, p ∈ l ∧ rejects p).
Proof.
  split; [intros n; apply pkt_lines_fuel_enough|]. intros l Hf. split; [by apply pkt_lines_framed|]. by apply report_rejected_spec.
Qed.

(** The report of a declined push, as git sends it with side-band-64k. *)
Definition declined_line : bytes := bytes_of "ng refs/heads/main pre-receive hook declined".
Definition declined_inner : bytes := pkt_line (bytes_of "unpack ok") ++ pkt_line declined_line ++ hex4 0 ++ [].
Definition declined_report : bytes := pkt_line (band 1 :: declined_inner) ++ hex4 0 ++ [].

Lemma declined_inner_framed : framed declined_inner [bytes_of "unpack ok"; declined_line].
Proof. by repeat first [apply framed_line; [by vm_compute|] | apply framed_control; [done|] | apply framed_end]. Qed.

Lemma report_scan_exact_witness : receive_pack_report_rejected declined_report = true.
Proof.
  destruct (report_scan_exact declined_report) as [_ H]. destruct (H [band 1 :: declined_inner]) as [_ Hr]; [|apply Hr].
  - apply framed_line; [by vm_compute|]. apply framed_control; [done|constructor].
  - constructor; [|constructor]. intros s Hs. apply (f_equal (@List.tl ascii)) in Hs. cbn [List.tl] in Hs.
    rewrite <- Hs. eexists. exact declined_inner_framed.
  - eexists. split; [left|]. eapply (rejects_inner _ _ (bytes_of "refs/heads/main pre-receive hook declined")).
    + exact declined_inner_framed.
    + right. left.
Defined.

(** A status line that straddles two data frames is missed. *)
Example straddling_report_missed :
  receive_pack_report_rejected
    (pkt_line (band 1 :: bytes_of "000eunpack ok" ++ bytes_of "0031ng refs/hea") ++
     pkt_line (band 1 :: bytes_of "ds/main pre-receive hook declined") ++ hex4 0) = false.
Proof. vm_compute. reflexivity. Qed.
