(* ===== verification/ObjectStore.v ===== *)
(** * The git object store ([crates/maju-relay/src/api/git/store.rs])

    A handler that talks to the object store is a program ([Prog]): a value, or
    a request to the bucket and a continuation for its response.  Handlers of
    several relays interleave request by request.  The operations of
    [GitStore] are programs.

    The bucket (an S3 service reached through [rust-s3]) and SHA-256 are not
    part of the sources: they are the classes [S3Lib] and [DigestLib].  The laws
    [S3Laws] are the axioms A1 to A3 of [docs/git-on-object-storage.md] on one
    request, with transport failures before or after the effect, and the
    documented meaning of an ETag: it changes whenever the content does.
    The start-up conformance probe and the construction of the client are not
    modelled. *)
From S2P Require Import Prelude Channel GitManifest.

(** ** Requests and programs *)

Record ResponseData := {
  status_code : Z;
  etag_header : option string;
  content_length : option Z;
  body : string
}.

(** [s3::error::S3Error]; with the feature [fail-on-err] a response that is not
    2xx arrives as [HttpFailWithBody]. *)
Inductive S3Error :=
  | HttpFailWithBody (code : Z) (message : string)
  | S3Other (message : string).

Inductive Precond := IfNoneMatchStar | IfMatch (e : string).

Inductive S3Request :=
  | GetObject (key : string)
  | HeadObject (key : string)
  | PutObject (key bytes : string) (precond : Precond).

Definition S3Response : Type := result S3Error ResponseData.

Inductive Prog (A : Type) : Type :=
  | Ret (a : A)
  | Req (r : S3Request) (k : S3Response → Prog A).
Arguments Ret {A} a.
Arguments Req {A} r k.

Fixpoint prog_bind {A B} (f : A → Prog B) (p : Prog A) : Prog B :=
  match p with
  | Ret a => f a
  | Req r k => Req r (λ resp, prog_bind f (k resp))
  end.
#[export] Instance prog_ret : MRet Prog := @Ret.
#[export] Instance prog_mbind : MBind Prog := @prog_bind.

(** [p.await?]: go on with the value, or return the converted error. *)
Definition try_with {E F A B} (conv : E → F) (p : Prog (result E A)) (f : A → Prog (result F B)) :
  Prog (result F B) :=
  p ≫= λ r, match r with Ok a => f a | Err e => Ret (Err (conv e)) end.
Notation "'let?' x ':=' p 'or' conv 'in' q" := (try_with conv p (λ x, q))
  (at level 10, x pattern, p at level 100, conv at level 100, q at level 200) : maju_scope.

(** No conversion of the error. *)
Definition keep {E : Type} (e : E) : E := e.

(** A future dropped by its caller ([tokio::time::timeout], [tokio::select!])
    while its [n]-th request is in flight: that request may have its effect,
    its response is lost, and nothing after it is executed. *)
Fixpoint cutoff {A} (n : nat) (p : Prog A) {struct p} : Prog (option A) :=
  match p with
  | Ret a => Ret (Some a)
  | Req r k =>
      match n with
      | O => Ret None
      | S n' => Req r (λ resp, match n' with O => Ret None | S _ => cutoff n' (k resp) end)
      end
  end.
Definition maybe_cutoff {A} (n : option nat) (p : Prog A) : Prog (option A) :=
  match n with Some n => cutoff n p | None => p ≫= λ a, Ret (Some a) end.

(** ** The parts that are not in the sources *)

Class DigestLib : Type := {
  (** [hex::encode] of SHA-256 *)
  sha256_hex : string → string
}.
Class DigestLaws (D : DigestLib) : Prop := {
  sha256_hex_shape b : is_manifest_digest (sha256_hex b) = true
}.

(** [bucket_objects]: key to ETag and body.  [issued s k e b]: the service has
    given the ETag [e] to the content [b] of [k].  [serve s r resp s']: the
    service may answer [r] by [resp], going from [s] to [s'].
    [header_value_ok]: the text parses as an HTTP header value. *)
Class S3Lib : Type := {
  Bucket : Type;
  bucket_objects : Bucket → gmap string (string * string);
  issued : Bucket → string → string → string → Prop;
  serve : Bucket → S3Request → S3Response → Bucket → Prop;
  header_value_ok : string → bool
}.

Definition is_2xx (code : Z) : bool := ((200 <=? code) && (code <? 300))%Z.

(** The precondition of a conditional PUT on the current object. *)
Definition precond_holds (c : Precond) (current : option (string * string)) : Prop :=
  match c with
  | IfNoneMatchStar => current = None
  | IfMatch e => ∃ b, current = Some (e, b)
  end.

Definition is_412 (resp : S3Response) : Prop := ∃ m, resp = Err (HttpFailWithBody 412 m).
Definition is_404 (resp : S3Response) : Prop :=
  (∃ m, resp = Err (HttpFailWithBody 404 m)) ∨ (∃ d, resp = Ok d ∧ status_code d = 404%Z).

(** What a PUT did: nothing ([None]), or it installed its body under an ETag. *)
Inductive put_effect `{S3Lib} (s : Bucket) (key bytes : string) (c : Precond) (resp : S3Response) (s' : Bucket) :
  option string → Prop :=
  | put_nothing :
      bucket_objects s' = bucket_objects s → (∀ d, resp = Ok d → is_2xx (status_code d) = false) →
      (is_412 resp → ¬ precond_holds c (bucket_objects s !! key)) →
      put_effect s key bytes c resp s' None
  | put_done e :
      precond_holds c (bucket_objects s !! key) →
      bucket_objects s' = <[key := (e, bytes)]> (bucket_objects s) → ¬ is_412 resp →
      put_effect s key bytes c resp s' (Some e).

Class S3Laws (B : S3Lib) : Prop := {
  (** A2: a read observes the committed object and changes nothing *)
  serve_get s key resp s' : serve s (GetObject key) resp s' →
    bucket_objects s' = bucket_objects s ∧
    (∀ d, resp = Ok d → ∃ e, bucket_objects s !! key = Some (e, body d) ∧ (∀ h, etag_header d = Some h → h = e)) ∧
    (is_404 resp → bucket_objects s !! key = None);
  serve_head s key resp s' : serve s (HeadObject key) resp s' →
    bucket_objects s' = bucket_objects s ∧ (is_404 resp → bucket_objects s !! key = None);
  (** A1, A3: a conditional write is atomic and its outcome is the precondition's *)
  serve_put s key bytes c resp s' : serve s (PutObject key bytes c) resp s' →
    ∃ installed, put_effect s key bytes c resp s' installed;
  (** an ETag never names two contents of a key *)
  issued_current s key e b : bucket_objects s !! key = Some (e, b) → issued s key e b;
  issued_functional s key e b b' : issued s key e b → issued s key e b' → b = b';
  issued_stable s r resp s' key e b : serve s r resp s' → issued s key e b → issued s' key e b
}.

(** ** [GitStore] *)

Inductive StoreError :=
  | NotFound (key : string)
  | ObjectTooLarge (key : string) (size max : Z)
  | DigestMismatch (key expected actual : string)
  | Backend (e : S3Error)
  | Config (message : string)
  | Probe (phase : string) (round : nat) (key reason : string).

Inductive CasOutcome := Won (etag : string) | LostRace.

Section store.
Context {D : DigestLib} {B : S3Lib}.

Definition content_key (prefix bytes : string) : string := prefix +:+ "/" +:+ sha256_hex bytes.

Definition idx_key_for_pack_digest (pack_digest : string) : result StoreError string :=
  if negb (String.length pack_digest =? 64) || negb (str_forall is_ascii_hexdigit pack_digest)
  then Err (Backend (HttpFailWithBody 400 ("invalid pack digest for idx sidecar: " +:+ pack_digest)))
  else Ok ("idx/" +:+ pack_digest).

(** The response handling shared by [put_immutable] and [put_idx]. *)
Definition created (key : string) (resp : S3Response) : result StoreError string :=
  match resp with
  | Ok d => if is_2xx (status_code d) then Ok key
            else Err (Backend (HttpFailWithBody (status_code d) "unexpected status"))
  | Err (HttpFailWithBody 412 _) => Ok key
  | Err e => Err (Backend e)
  end.

Definition put_immutable (prefix bytes : string) : Prog (result StoreError string) :=
  let key := content_key prefix bytes in
  Req (PutObject key bytes IfNoneMatchStar) (λ resp, Ret (created key resp)).

Definition put_pack (bytes : string) : Prog (result StoreError string) := put_immutable "packs" bytes.
Definition put_manifest (bytes : string) : Prog (result StoreError string) := put_immutable "manifests" bytes.

Definition put_idx (pack_digest idx_bytes : string) : Prog (result StoreError string) :=
  match idx_key_for_pack_digest pack_digest with
  | Err e => Ret (Err e)
  | Ok key => Req (PutObject key idx_bytes IfNoneMatchStar) (λ resp, Ret (created key resp))
  end.

Definition store_get (key : string) : Prog (result StoreError string) :=
  Req (GetObject key) (λ resp, Ret
    match resp with
    | Ok d => Ok (body d)
    | Err (HttpFailWithBody 404 _) => Err (NotFound key)
    | Err e => Err (Backend e)
    end).

Definition check_digest (key expected bytes : string) : result StoreError string :=
  let actual := sha256_hex bytes in
  if (actual =? expected)%string then Ok bytes else Err (DigestMismatch key expected actual).

Definition get_verified (key expected : string) : Prog (result StoreError string) :=
  let? bytes := store_get key or keep in Ret (check_digest key expected bytes).

Definition str_size (s : string) : Z := Z.of_nat (String.length s).

(** The GET of [get_limited] with its second length check. *)
Definition read_within (key : string) (max_bytes : Z) : Prog (result StoreError string) :=
  let? bytes := store_get key or keep in
  Ret (if (max_bytes <? str_size bytes)%Z then Err (ObjectTooLarge key (str_size bytes) max_bytes) else Ok bytes).

Definition get_limited (key : string) (max_bytes : Z) : Prog (result StoreError string) :=
  Req (HeadObject key) (λ resp,
    match resp with
    | Err (HttpFailWithBody 404 _) => Ret (Err (NotFound key))
    | Err e => Ret (Err (Backend e))
    | Ok d =>
        if (status_code d =? 404)%Z then Ret (Err (NotFound key))
        else if negb (is_2xx (status_code d))
        then Ret (Err (Backend (HttpFailWithBody (status_code d) "unexpected status")))
        else
          match content_length d with
          | Some n =>
              let size := if (n <? 0)%Z then (2 ^ 64 - 1)%Z else n in
              if (max_bytes <? size)%Z then Ret (Err (ObjectTooLarge key size max_bytes))
              else read_within key max_bytes
          | None => read_within key max_bytes
          end
    end).

Definition get_verified_limited (key expected : string) (max_bytes : Z) : Prog (result StoreError string) :=
  let? bytes := get_limited key max_bytes or keep in Ret (check_digest key expected bytes).

Definition get_idx (pack_digest : string) (max_bytes : Z) : Prog (result StoreError (option string)) :=
  match idx_key_for_pack_digest pack_digest with
  | Err e => Ret (Err e)
  | Ok key =>
      r ← get_limited key max_bytes;
      Ret match r with
          | Ok bytes => Ok (Some bytes)
          | Err (NotFound _) => Ok None
          | Err e => Err e
          end
  end.

Definition get_pointer (key : string) : Prog (result StoreError (option (string * string))) :=
  Req (GetObject key) (λ resp, Ret
    match resp with
    | Ok d =>
        match etag_header d with
        | Some e => Ok (Some (e, body d))
        | None => Err (Backend (HttpFailWithBody 500 "GET pointer: response missing ETag"))
        end
    | Err (HttpFailWithBody 404 _) => Ok None
    | Err e => Err (Backend e)
    end).

Definition classify_cas (resp : S3Response) : result StoreError CasOutcome :=
  match resp with
  | Ok d =>
      if is_2xx (status_code d) then
        match etag_header d with
        | Some e => Ok (Won e)
        | None => Err (Backend (HttpFailWithBody (status_code d) "CAS succeeded but response missing ETag header"))
        end
      else Err (Backend (HttpFailWithBody (status_code d) "unexpected status"))
  | Err (HttpFailWithBody 412 _) => Ok LostRace
  | Err e => Err (Backend e)
  end.

Definition put_pointer (key bytes : string) (precond : Precond) : Prog (result StoreError CasOutcome) :=
  match precond with
  | IfMatch e =>
      if negb (header_value_ok e) then Ret (Err (Backend (HttpFailWithBody 400 ("invalid etag " +:+ e))))
      else Req (PutObject key bytes precond) (λ resp, Ret (classify_cas resp))
  | IfNoneMatchStar => Req (PutObject key bytes precond) (λ resp, Ret (classify_cas resp))
  end.

End store.
