(* ===== verification/GitPublish.v ===== *)
(** * Git publication ([cas_publish.rs], [hydrate.rs], [transport.rs] under
      [crates/maju-relay/src/api/git], and the repository announcement of
      [crates/maju-relay/src/handlers/side_effects.rs])

    All writers and the metadata reader of a repository's pointer, as programs
    over the object store: [receive_pack] (a push), [seed_manifest_pointer] and
    [ensure_manifest_pointer] (an announcement), [load_manifest_for_read].

    What the handlers take from git subprocesses, the scratch directory, the
    database lease and the clock is an input: a [Workspace] per publication and
    a [PushEnv] per request.  The inputs are functions of the loaded parent, so
    that they may depend on everything the real ones depend on.  Fetching the
    packs into the workspace ([materialize_manifest]) only reads; its outcome is
    an input.  Error texts are shortened; metrics and logs are left out. *)
From S2P Require Import Prelude Channel Nostr GitManifest GitReport ObjectStore.

(** ** Data *)

Inductive CasError :=
  | Conflict (winner_manifest : Manifest) (winner_manifest_key : string)
  | ManifestReadFailed (message : string)
  | ManifestInvalid (e : ManifestError)
  | CasBackend (e : StoreError)
  | PackCapture (message : string)
  | ResourceLimit (message : string).

Record PublishLimits := {
  parent_hydrated_bytes : Z;
  max_pack_bytes : Z;
  max_repo_bytes : Z
}.

Record CasSuccess := { manifest : Manifest; manifest_key : string }.

Record ParentState := {
  if_match : option string;
  parent_digest : option string;
  ps_parent : Manifest
}.

Definition fresh : ParentState :=
  {| if_match := None; parent_digest := None;
     ps_parent := {| version := MANIFEST_VERSION; head := ""; refs := ∅; packs := []; parent := None |} |}.

Definition from_loaded (etag digest : string) (m : Manifest) : ParentState :=
  {| if_match := Some etag; parent_digest := Some digest; ps_parent := m |}.

(** One file pair of [git pack-objects], as [stat] and the later read see it. *)
Record CompactedFile := {
  cf_bytes : string;
  cf_idx_size : Z;
  cf_read : result string string;
  cf_idx : result string string
}.

(** The [CasError]s of the steps that run git. *)
Inductive LocalError := LocalCapture (message : string) | LocalLimit (message : string).
Definition local_error (e : LocalError) : CasError :=
  match e with LocalCapture m => PackCapture m | LocalLimit m => ResourceLimit m end.

(** The outcomes of the git subprocesses and timeouts of one publication. *)
Record Workspace := {
  ws_snapshot : result LocalError (gmap string string * string);
  ws_permit : result LocalError unit;
  ws_compaction : result LocalError (list CompactedFile);
  ws_compaction_timeout : option nat;
  ws_delta : result LocalError string;
  ws_index_pack : result LocalError string
}.

(** ** Reading the pointer ([hydrate.rs]) *)

Inductive HydrateError :=
  | InvalidPointer
  | HydrateManifest (e : ManifestError)
  | HydrateStore (e : StoreError)
  | Hydrate (message : string)
  | HydrateResourceLimit (message : string).

Definition MAX_MANIFEST_BYTES : Z := 4 * 1024 * 1024.

(** [std::str::from_utf8(body)?.trim().to_string()]. *)
Definition utf8_trim (bytes : string) : option string :=
  (λ cs, utf8_encode (trim_end (trim_start_matches is_whitespace cs))) <$> utf8_decode bytes.

Definition is_digest_text (s : string) : bool := (String.length s =? 64) && str_forall is_ascii_hexdigit s.

Section publish.
Context {L : NostrLib} {D : DigestLib} {B : S3Lib} {SL : SerdeLib}.

Definition hydrate_get_verified_limited (key digest : string) (max_bytes : Z) : Prog (result HydrateError string) :=
  r ← get_verified_limited key digest max_bytes;
  Ret match r with
      | Ok bytes => Ok bytes
      | Err (ObjectTooLarge _ _ _) => Err (HydrateResourceLimit ("object " +:+ key))
      | Err e => Err (HydrateStore e)
      end.

Definition load_pointer (community : Uuid) (owner repo : string) :
  Prog (result HydrateError (option (string * string * Manifest))) :=
  let pkey := pointer_key community owner repo in
  let? p := get_pointer pkey or HydrateStore in
  match p with
  | None => Ret (Ok None)
  | Some (etag, pointer_bytes) =>
      match utf8_trim pointer_bytes with
      | None => Ret (Err InvalidPointer)
      | Some digest =>
          if negb (is_digest_text digest) then Ret (Err InvalidPointer)
          else
            let? bytes := hydrate_get_verified_limited ("manifests/" +:+ digest) digest MAX_MANIFEST_BYTES or keep in
            Ret (m ← map_err HydrateManifest (from_bytes bytes);
                 _ ← map_err HydrateManifest (validate m);
                 Ok (Some (etag, digest, m)))
      end
  end.

Definition load_manifest_for_read (community : Uuid) (owner repo : string) :
  Prog (result HydrateError (option Manifest)) :=
  let? p := load_pointer community owner repo or keep in
  Ret (Ok ((λ t : string * string * Manifest, t.2) <$> p)).

(** [materialize]: the outcome of building the workspace, the hydrated bytes. *)
Definition hydrate_for_write (community : Uuid) (owner repo : string)
  (materialize : option Manifest → result HydrateError Z) : Prog (result HydrateError (Z * ParentState)) :=
  let? p := load_pointer community owner repo or keep in
  Ret match p with
      | Some (etag, digest, m) => bytes ← materialize (Some m); Ok (bytes, from_loaded etag digest m)
      | None => bytes ← materialize None; Ok (bytes, fresh)
      end.

(** ** Publication ([cas_publish.rs]) *)

Definition resolve_published_head (rs : gmap string string) (observed_head parent_head : string) : string :=
  let is_published_branch name := starts_with "refs/heads/" name && bool_decide (is_Some (rs !! name)) in
  if is_published_branch observed_head then observed_head
  else if is_published_branch parent_head then parent_head
  else
    match List.find (λ preferred, bool_decide (is_Some (rs !! preferred))) ["refs/heads/main"; "refs/heads/master"] with
    | Some preferred => preferred
    | None =>
        match List.find (starts_with "refs/heads/") (btree_keys rs) with
        | Some branch => branch
        | None => if negb (observed_head =? "")%string then observed_head else parent_head
        end
    end.

Definition digest_from_pack_key (key : string) : result CasError string :=
  match strip_prefix "packs/" key with
  | Some digest =>
      if is_digest_text digest then Ok digest
      else Err (CasBackend (Backend (HttpFailWithBody 500 ("put_pack returned non-standard key: " +:+ key))))
  | None => Err (CasBackend (Backend (HttpFailWithBody 500 ("put_pack returned non-standard key: " +:+ key))))
  end.

Definition digest_from_manifest_key (key : string) : result CasError string :=
  match strip_prefix "manifests/" key with
  | Some digest => Ok digest
  | None => Err (CasBackend (Backend (HttpFailWithBody 500 ("put_manifest returned non-standard key: " +:+ key))))
  end.

(** Failures are logged by the caller and ignored. *)
Definition write_idx_sidecar (index_pack : result LocalError string) (pack_key : string) :
  Prog (result CasError unit) :=
  match digest_from_pack_key pack_key with
  | Err e => Ret (Err e)
  | Ok digest =>
      match index_pack with
      | Err e => Ret (Err (local_error e))
      | Ok idx_bytes => let? _ := put_idx digest idx_bytes or CasBackend in Ret (Ok tt)
      end
  end.

Definition capture_pack (out : result LocalError string) (refs_after : gmap string string) (max : Z) :
  result CasError (option string) :=
  if bool_decide (refs_after = ∅) then Ok None
  else
    bytes ← map_err local_error out;
    if (max <? str_size bytes)%Z then Err (ResourceLimit "pack-objects output")
    else if (str_size bytes =? 0)%Z then Ok None else Ok (Some bytes).

Definition should_compact (parent_pack_count threshold : nat) : bool := threshold <=? parent_pack_count.

Definition compacted_pack_set_is_usable (parent_pack_count compacted_pack_count : nat) : bool :=
  (compacted_pack_count <? parent_pack_count)
  || ((MAX_MANIFEST_PACKS <=? parent_pack_count) && (compacted_pack_count <=? MAX_MANIFEST_PACKS)).

Definition U64_MAX : Z := 2 ^ 64 - 1.

(** The loop over the pack files: the sizes within the limits, their total. *)
Fixpoint check_compacted (limits : PublishLimits) (total : Z) (files : list CompactedFile) : result CasError Z :=
  match files with
  | [] => Ok total
  | f :: files' =>
      let pack_bytes := str_size (cf_bytes f) in
      if (max_pack_bytes limits <? pack_bytes)%Z then Err (ResourceLimit "compacted pack")
      else if (U64_MAX <? total + pack_bytes)%Z then Err (ResourceLimit "compacted byte count overflowed u64")
      else if (max_repo_bytes limits <? total + pack_bytes)%Z then Err (ResourceLimit "compacted repo")
      else if (max_pack_bytes limits <? cf_idx_size f)%Z then Err (ResourceLimit "compacted idx")
      else check_compacted limits (total + pack_bytes) files'
  end.

Definition capture_compacted_packs (out : result LocalError (list CompactedFile)) (refs_after : gmap string string)
  (limits : PublishLimits) : result CasError (list CompactedFile * Z) :=
  if bool_decide (refs_after = ∅) then Ok ([], 0%Z)
  else
    files ← map_err local_error out;
    if MAX_MANIFEST_PACKS <? length files then Err (ResourceLimit "compaction produced too many packs")
    else total ← check_compacted limits 0 files; Ok (files, total).

Fixpoint upload_loop (files : list CompactedFile) (pack_keys : list string) : Prog (result CasError (list string)) :=
  match files with
  | [] => Ret (Ok pack_keys)
  | f :: files' =>
      match cf_read f with
      | Err e => Ret (Err (PackCapture e))
      | Ok pack_bytes =>
          if negb (str_size pack_bytes =? str_size (cf_bytes f))%Z
          then Ret (Err (PackCapture "compacted pack changed after size validation"))
          else
            let? pack_key := put_pack pack_bytes or CasBackend in
            match digest_from_pack_key pack_key with
            | Err e => Ret (Err e)
            | Ok pack_digest =>
                match cf_idx f with
                | Ok idx_bytes => _ ← put_idx pack_digest idx_bytes; upload_loop files' (pack_keys ++ [pack_key])
                | Err _ => upload_loop files' (pack_keys ++ [pack_key])
                end
            end
      end
  end.

Definition upload_compacted_packs (files : list CompactedFile) : Prog (result CasError (list string)) :=
  let? keys := upload_loop files [] or keep in Ret (Ok (dedup_str (sort_str keys))).

Definition prepare_compaction (ws : Workspace) (refs_after : gmap string string) (limits : PublishLimits)
  (packs_before : nat) : Prog (result CasError (list string)) :=
  match capture_compacted_packs (ws_compaction ws) refs_after limits with
  | Err e => Ret (Err e)
  | Ok (files, _) =>
      if negb (compacted_pack_set_is_usable packs_before (length files))
      then Ret (Err (ResourceLimit "compaction did not reduce pack count"))
      else upload_compacted_packs files
  end.

Definition compose_after (m : Manifest) (digest : option string) (hd : string) (rs : gmap string string)
  (new_pack_key : option string) : Manifest :=
  let ps :=
    match new_pack_key with
    | Some k => if existsb (String.eqb k) (packs m) then packs m else packs m ++ [k]
    | None => packs m
    end in
  {| version := MANIFEST_VERSION; head := hd; refs := rs; packs := dedup_str (sort_str ps); parent := digest |}.

Definition compose_compacted_after (digest : option string) (hd : string) (rs : gmap string string)
  (keys : list string) : Manifest :=
  {| version := MANIFEST_VERSION; head := hd; refs := rs; packs := dedup_str (sort_str keys); parent := digest |}.

(** The attempt to replace the pack set: the manifest, or the failure to report. *)
Definition try_compaction (ws : Workspace) (threshold : nat) (ps : ParentState) (hd : string)
  (refs_after : gmap string string) (limits : PublishLimits) : Prog (option Manifest * option CasError) :=
  let packs_before := length (packs (ps_parent ps)) in
  if should_compact packs_before threshold then
    match ws_permit ws with
    | Err e => Ret (None, Some (local_error e))
    | Ok _ =>
        r ← maybe_cutoff (ws_compaction_timeout ws) (prepare_compaction ws refs_after limits packs_before);
        Ret match r with
            | Some (Ok pack_keys) =>
                (Some (compose_compacted_after (parent_digest ps) hd refs_after pack_keys), None)
            | Some (Err e) => (None, Some e)
            | None => (None, Some (PackCapture "pack compaction operation timed out"))
            end
    end
  else Ret (None, None).

(** The delta-pack path. *)
Definition publish_delta (ws : Workspace) (ps : ParentState) (hd : string) (refs_after : gmap string string)
  (limits : PublishLimits) (compaction_failure : option CasError) : Prog (result CasError Manifest) :=
  let packs_before := length (packs (ps_parent ps)) in
  match capture_pack (ws_delta ws) refs_after (max_pack_bytes limits) with
  | Err e => Ret (Err e)
  | Ok None => Ret (Ok (compose_after (ps_parent ps) (parent_digest ps) hd refs_after None))
  | Ok (Some bytes) =>
      if MAX_MANIFEST_PACKS <=? packs_before then
        Ret (Err (default (ResourceLimit "too many packs and compaction failed") compaction_failure))
      else
        let total_bytes := (parent_hydrated_bytes limits + str_size bytes)%Z in
        if (U64_MAX <? total_bytes)%Z then Ret (Err (ResourceLimit "repo byte count overflowed u64"))
        else if (max_repo_bytes limits <? total_bytes)%Z then Ret (Err (ResourceLimit "repo would need too many bytes"))
        else
          let? pack_key := put_pack bytes or CasBackend in
          _ ← write_idx_sidecar (ws_index_pack ws) pack_key;
          Ret (Ok (compose_after (ps_parent ps) (parent_digest ps) hd refs_after (Some pack_key)))
  end.

Definition read_winner_after_conflict (pkey : string) : Prog (result CasError (Manifest * string)) :=
  let? p := get_pointer pkey or CasBackend in
  match p with
  | None => Ret (Err (ManifestReadFailed "pointer vanished after LostRace"))
  | Some (_, bytes) =>
      match utf8_trim bytes with
      | None => Ret (Err (ManifestReadFailed "winner pointer body not utf-8"))
      | Some digest =>
          if negb (is_digest_text digest)
          then Ret (Err (ManifestReadFailed "winner pointer body is not a digest"))
          else
            r ← get_verified ("manifests/" +:+ digest) digest;
            Ret match r with
                | Err (DigestMismatch _ _ _) => Err (ManifestReadFailed "winner manifest digest mismatch")
                | Err (NotFound _) => Err (ManifestReadFailed "winner pointer names missing manifest")
                | Err e => Err (CasBackend e)
                | Ok mb =>
                    match from_bytes mb with
                    | Err _ => Err (ManifestReadFailed "parse winner manifest")
                    | Ok winner => Ok (winner, "manifests/" +:+ digest)
                    end
                end
      end
  end.

(** Steps 6 and 7: write the manifest, swap the pointer. *)
Definition commit (pkey : string) (ps : ParentState) (m_after : Manifest) : Prog (result CasError CasSuccess) :=
  match validate m_after with
  | Err e => Ret (Err (ManifestInvalid e))
  | Ok _ =>
      match canonical_bytes m_after with
      | Err e => Ret (Err (ManifestInvalid e))
      | Ok manifest_bytes =>
          let? key := put_manifest manifest_bytes or CasBackend in
          match digest_from_manifest_key key with
          | Err e => Ret (Err e)
          | Ok manifest_digest =>
              let precond := match if_match ps with Some e => IfMatch e | None => IfNoneMatchStar end in
              let? outcome := put_pointer pkey manifest_digest precond or CasBackend in
              match outcome with
              | Won _ => Ret (Ok {| manifest := m_after; manifest_key := key |})
              | LostRace =>
                  let? w := read_winner_after_conflict pkey or keep in
                  Ret (Err (Conflict w.1 w.2))
              end
          end
      end
  end.

Definition cas_publish_inner (community : Uuid) (owner repo : string) (ws : Workspace) (ps : ParentState)
  (limits : PublishLimits) (threshold : nat) : Prog (result CasError CasSuccess) :=
  let pkey := pointer_key community owner repo in
  match ws_snapshot ws with
  | Err e => Ret (Err (local_error e))
  | Ok (refs_after, head_observed) =>
      let hd := resolve_published_head refs_after head_observed (head (ps_parent ps)) in
      c ← try_compaction ws threshold ps hd refs_after limits;
      let? m_after := (match c.1 with
                       | Some m => Ret (Ok m)
                       | None => publish_delta ws ps hd refs_after limits c.2
                       end) or keep in
      commit pkey ps m_after
  end.

Definition cas_publish (community : Uuid) (owner repo : string) (ws : Workspace) (ps : ParentState)
  (limits : PublishLimits) : Prog (result CasError CasSuccess) :=
  cas_publish_inner community owner repo ws ps limits PACK_COMPACTION_THRESHOLD.

(** ** The push handler ([transport.rs]) *)

Record PackOutput := { pack_stdout : list ascii; pack_ok : bool }.

(** The environment of one push.  [pe_permit]: the semaphore has a permit;
    [pe_receive]: the exit status and the output of [git receive-pack], or the
    status of the response to its failure; [pe_lease_lost]: the heartbeat fails
    while that request of the publication is in flight. *)
Record PushEnv := {
  pe_permit : bool;
  pe_materialize : option Manifest → result HydrateError Z;
  pe_install_hook : bool;
  pe_receive : ParentState → result Z (bool * list ascii);
  pe_workspace : ParentState → Workspace;
  pe_max_pack_bytes : Z;
  pe_max_repo_bytes : Z;
  pe_acquire : bool;
  pe_verify : bool;
  pe_protect_verify : bool;
  pe_lease_lost : option nat;
  pe_protect_reverify : bool;
  pe_event_stored : bool;
  pe_finish : bool
}.

(** The status of the response, with what the handler knew and announced. *)
Record PushOutcome := {
  po_status : Z;
  po_parent : option ParentState;
  po_pack : option PackOutput;
  po_success : option CasSuccess;
  po_announced : option Manifest
}.

Definition respond (status : Z) (ps : option ParentState) (pack : option PackOutput) (s : option CasSuccess)
  (announced : option Manifest) : PushOutcome :=
  {| po_status := status; po_parent := ps; po_pack := pack; po_success := s; po_announced := announced |}.

Definition hydrate_error_status (e : HydrateError) : Z :=
  match e with HydrateResourceLimit _ => 413 | _ => 500 end.

Definition cas_error_status (e : CasError) : Z :=
  match e with
  | Conflict _ _ => 409
  | ManifestInvalid _ => 400
  | ResourceLimit _ => 413
  | _ => 500
  end.

Definition manifest_changed (ps : ParentState) (s : CasSuccess) : bool :=
  match parent_digest ps, strip_prefix "manifests/" (manifest_key s) with
  | Some before, Some after => negb (before =? after)%string
  | _, _ => true
  end.

(** [ServingWriteGuard::protect]. *)
Definition protect {A} (env : PushEnv) (p : Prog A) : Prog (option A) :=
  if pe_protect_verify env then
    r ← maybe_cutoff (pe_lease_lost env) p; Ret (if pe_protect_reverify env then r else None)
  else Ret None.

Definition finalize_push (community : Uuid) (owner repo : string) (env : PushEnv) (hydrated : Z)
  (ps : ParentState) (pack : PackOutput) : Prog PushOutcome :=
  let known status s announced := respond status (Some ps) (Some pack) s announced in
  if negb (pack_ok pack) then Ret (known 200%Z None None)
  else if negb (pe_acquire env) then Ret (known 503%Z None None)
  else if negb (pe_verify env) then Ret (known 503%Z None None)
  else
    let limits := {| parent_hydrated_bytes := hydrated; max_pack_bytes := pe_max_pack_bytes env;
                     max_repo_bytes := pe_max_repo_bytes env |} in
    r ← protect env (cas_publish community owner repo (pe_workspace env ps) ps limits);
    Ret match r with
        | None => known 503%Z None None
        | Some (Err e) => known (cas_error_status e) None None
        | Some (Ok s) =>
            let announce := manifest_changed ps s && pe_event_stored env in
            let announced := if announce then Some (manifest s) else None in
            if negb (pe_finish env) then known 503%Z (Some s) announced
            else if manifest_changed ps s && negb (pe_event_stored env) then known 500%Z (Some s) announced
            else known 200%Z (Some s) announced
        end.

(** The end of [run_git_at] for [receive-pack]. *)
Definition pack_output (exit_ok : bool) (stdout : list ascii) : PackOutput :=
  {| pack_stdout := stdout; pack_ok := exit_ok && negb (receive_pack_report_rejected stdout) |}.

Definition receive_pack (community : Uuid) (owner repo : string) (env : PushEnv) : Prog PushOutcome :=
  match transport_validate_repo_id owner repo with
  | Err _ => Ret (respond 400%Z None None None None)
  | Ok _ =>
      if negb (pe_permit env) then Ret (respond 503%Z None None None None)
      else
        r ← hydrate_for_write community owner repo (pe_materialize env);
        match r with
        | Err e => Ret (respond (hydrate_error_status e) None None None None)
        | Ok (hydrated, ps) =>
            if negb (pe_install_hook env) then Ret (respond 500%Z (Some ps) None None None)
            else
              match pe_receive env ps with
              | Err status => Ret (respond status (Some ps) None None None)
              | Ok (exit_ok, stdout) =>
                  finalize_push community owner repo env hydrated ps (pack_output exit_ok stdout)
              end
        end
  end.

(** ** Announcement ([side_effects.rs]) *)

Definition DEFAULT_HEAD : string := "refs/heads/main".

Definition empty_manifest : Manifest :=
  {| version := MANIFEST_VERSION; head := DEFAULT_HEAD; refs := ∅; packs := []; parent := None |}.

Definition seed_manifest_pointer (community : Uuid) (owner repo : string) : Prog (result string unit) :=
  match validate empty_manifest with
  | Err _ => Ret (Err "empty manifest failed validation")
  | Ok _ =>
      match canonical_bytes empty_manifest with
      | Err _ => Ret (Err "empty manifest serialize")
      | Ok bytes =>
          let? key := put_manifest bytes or (λ _, "put_manifest") in
          match strip_prefix "manifests/" key with
          | None => Ret (Err "put_manifest returned non-standard key")
          | Some digest =>
              let pkey := pointer_key community owner repo in
              let? outcome := put_pointer pkey digest IfNoneMatchStar or (λ _, "put_pointer") in
              match outcome with
              | Won _ => Ret (Ok tt)
              | LostRace =>
                  let? p := get_pointer pkey or (λ _, "re-read pointer after LostRace") in
                  Ret match p with
                      | None => Err "pointer vanished after LostRace race"
                      | Some (_, b) =>
                          match utf8_trim b with
                          | None => Err "pointer body not utf-8"
                          | Some existing =>
                              if negb (existing =? digest)%string
                              then Err "already has a non-empty pointer; refusing to overwrite via announce"
                              else Ok tt
                          end
                      end
              end
          end
      end
  end.

Definition ensure_manifest_pointer (community : Uuid) (owner repo : string) : Prog (result string unit) :=
  let? existing := get_pointer (pointer_key community owner repo) or (λ _, "get_pointer") in
  match existing with
  | Some _ => Ret (Ok tt)
  | None => seed_manifest_pointer community owner repo
  end.

End publish.
