(* ===== verification/GitPublishWorld.v ===== *)
(** * The bucket under concurrent handlers

    A [World] is the bucket with the list of effective writes and of all bodies
    sent to it.  [world_ok] is the invariant that every handler preserves with
    each request; [wp p Q w] says that the program [p], run from [w] among
    handlers that preserve it, preserves it and ends in [Q].  The rules of [wp]
    for the operations of [GitStore] are at the end. *)
From S2P Require Import Prelude Channel Nostr GitManifest ObjectStore GitPublish.

Section world.
Context {L : NostrLib} {D : DigestLib} {B : S3Lib} {SL : SerdeLib}.
Context {DL : DigestLaws D} {BL : S3Laws B} {SLL : SerdeLaws SL}.

(** ** Worlds *)

Record World := {
  bucket : Bucket;
  (** key, ETag and body of the effective writes, in order *)
  written : list (string * (string * string));
  attempted : list string
}.

Inductive world_step (w : World) : S3Request → S3Response → World → Prop :=
  | world_get key resp b' :
      serve (bucket w) (GetObject key) resp b' →
      world_step w (GetObject key) resp {| bucket := b'; written := written w; attempted := attempted w |}
  | world_head key resp b' :
      serve (bucket w) (HeadObject key) resp b' →
      world_step w (HeadObject key) resp {| bucket := b'; written := written w; attempted := attempted w |}
  | world_put key bytes c resp b' installed :
      serve (bucket w) (PutObject key bytes c) resp b' →
      put_effect (bucket w) key bytes c resp b' installed →
      world_step w (PutObject key bytes c) resp
        {| bucket := b';
           written := match installed with Some e => written w ++ [(key, (e, bytes))] | None => written w end;
           attempted := bytes :: attempted w |}.

(** The recording loses no behaviour of the service. *)
Lemma world_step_exists w r resp b' :
  serve (bucket w) r resp b' → ∃ w', world_step w r resp w' ∧ bucket w' = b'.
Proof.
  intros H. destruct r as [key|key|key bytes c]; [eexists; split; [by constructor|done]..|].
  destruct (serve_put _ _ _ _ _ _ H) as [i Hi]. eexists; split; [by econstructor|done].
Qed.

(** The ETags and contents of a key, oldest first. *)
Definition entries (key : string) (w : World) : list (string * string) :=
  snd <$> List.filter (λ x, (x.1 =? key)%string) (written w).
Definition hist (key : string) (w : World) : list string := snd <$> entries key w.

(** SHA-256 has no collision among the bodies sent in the execution. *)
Definition collision_free (bodies : list string) : Prop :=
  ∀ b1 b2, b1 ∈ bodies → b2 ∈ bodies → sha256_hex b1 = sha256_hex b2 → b1 = b2.

Definition stored (key b : string) (w : World) : Prop := b ∈ hist key w.

Definition world_le (w w' : World) : Prop :=
  written w `prefix_of` written w' ∧ attempted w ⊆ attempted w' ∧
  ∀ k e b, issued (bucket w) k e b → issued (bucket w') k e b.

#[export] Instance world_le_preorder : PreOrder world_le.
Proof.
  split; [by intros w; split_and!|]. intros w1 w2 w3 (Hw & Ha & Hi) (Hw' & Ha' & Hi'). split_and!; [by etrans|set_solver|auto].
Qed.

Lemma world_step_le w r resp w' : world_step w r resp w' → world_le w w'.
Proof.
  intros H. inversion H; subst; (split_and!; simpl; [|set_solver|intros; by eapply issued_stable]); [done..|].
  destruct installed; [by apply prefix_app_r|done].
Qed.

Lemma entries_le key w w' : world_le w w' → entries key w `prefix_of` entries key w'.
Proof.
  intros ([l Hl] & _ & _). unfold entries. rewrite Hl, List.filter_app, fmap_app. by apply prefix_app_r.
Qed.

Lemma hist_le key w w' : world_le w w' → hist key w `prefix_of` hist key w'.
Proof. intros H. destruct (entries_le key _ _ H) as [l Hl]. exists (snd <$> l). unfold hist. by rewrite Hl, fmap_app. Qed.

Lemma hist_lookup_le key w w' i b : world_le w w' → hist key w !! i = Some b → hist key w' !! i = Some b.
Proof. intros H Hb. destruct (hist_le key _ _ H) as [l Hl]. rewrite Hl. by apply lookup_app_l_Some. Qed.

Lemma stored_le key b w w' : world_le w w' → stored key b w → stored key b w'.
Proof. intros H Hb. unfold stored in *. destruct (hist_le key _ _ H) as [l Hl]. rewrite Hl. set_solver. Qed.

Lemma entries_snoc key key' e b w l b' :
  entries key {| bucket := b'; written := written w ++ [(key', (e, b))]; attempted := l |} =
  entries key w ++ (if (key' =? key)%string then [(e, b)] else []).
Proof. unfold entries. simpl. rewrite List.filter_app, fmap_app. simpl. by destruct (key' =? key)%string. Qed.

(** ** The invariant *)

Definition is_pointer (key : string) : Prop := starts_with "repos/" key = true.

(** The manifest with digest [d] is stored, publishable, derived from [prev],
    and every pack it names is stored. *)
Record published (w : World) (prev : option string) (d : string) (m : Manifest) : Prop := {
  pub_stored : ∃ b, stored ("manifests/" +:+ d) b w ∧ from_bytes b = Ok m;
  pub_ok : publishable m;
  pub_prev : parent m = prev;
  pub_closed : ∀ p, p ∈ packs m → ∃ b, stored p b w
}.

Definition prev_of (ds : list string) (i : nat) : option string :=
  match i with O => None | S j => ds !! j end.

(** Every entry of the history is a manifest derived from the one before. *)
Definition chain (w : World) (ds : list string) : Prop :=
  ∀ i d, ds !! i = Some d → ∃ m, published w (prev_of ds i) d m.

Record world_ok (w : World) : Prop := {
  ok_current key : bucket_objects (bucket w) !! key = last (entries key w);
  ok_attempted key b : stored key b w → b ∈ attempted w;
  ok_content prefix d b : prefix = "packs/" ∨ prefix = "manifests/" → stored (prefix +:+ d) b w →
    sha256_hex b = d ∧ hist (prefix +:+ d) w = [b];
  ok_issued key e b : (e, b) ∈ entries key w → issued (bucket w) key e b;
  ok_chain key : is_pointer key → chain w (hist key w)
}.

Lemma published_le w w' prev d m : world_le w w' → published w prev d m → published w' prev d m.
Proof.
  intros H [(b & Hb & Hm) Hok Hp Hc]. constructor; [|done..|].
  - exists b. split; [by eapply stored_le|done].
  - intros p Hin. destruct (Hc p Hin) as [pb Hpb]. exists pb. by eapply stored_le.
Qed.

Lemma chain_le w w' ds : world_le w w' → chain w ds → chain w' ds.
Proof. intros H Hc i d Hi. destruct (Hc i d Hi) as [m Hm]. exists m. by eapply published_le. Qed.

Lemma prev_of_app ds l i : i ≤ length ds → prev_of (ds ++ l) i = prev_of ds i.
Proof. destruct i as [|i]; simpl; [done|]. intros H. by rewrite lookup_app_l by lia. Qed.

Lemma prev_of_last ds : prev_of ds (length ds) = last ds.
Proof. destruct ds as [|d ds]; [done|]. rewrite last_lookup. done. Qed.

Lemma chain_snoc w ds d m : chain w ds → published w (last ds) d m → chain w (ds ++ [d]).
Proof.
  intros Hc Hd i d' Hi. apply lookup_app_Some in Hi as [Hi|[Hle Hi]].
  - destruct (Hc i d' Hi) as [m' Hm']. exists m'. rewrite prev_of_app; [done|]. apply lookup_lt_Some in Hi. lia.
  - apply list_lookup_singleton_Some in Hi as [Hi <-]. assert (i = length ds) as -> by lia.
    exists m. by rewrite prev_of_app, prev_of_last by lia.
Qed.

Lemma published_unique w prev prev' d m m' :
  world_ok w → published w prev d m → published w prev' d m' → m = m' ∧ prev = prev'.
Proof.
  intros Hw [(b & Hb & Hm) _ Hp _] [(b' & Hb' & Hm') _ Hp' _].
  destruct (ok_content w Hw "manifests/" d b (or_intror eq_refl) Hb) as [_ Hh].
  unfold stored in Hb'. rewrite Hh in Hb'. assert (b' = b) as -> by set_solver.
  split; congruence.
Qed.

(** A published digest never comes back: no ABA on the pointer. *)
Lemma chain_NoDup w ds : world_ok w → chain w ds → NoDup ds.
Proof.
  intros Hw Hc. apply NoDup_alt. intros i. induction i as [i IH] using lt_wf_ind. intros j d Hi Hj.
  destruct (decide (i = j)) as [|Hne]; [done|].
  destruct (Hc i d Hi) as [m Hm], (Hc j d Hj) as [m' Hm'].
  destruct (published_unique _ _ _ _ _ _ Hw Hm Hm') as [_ Heq].
  destruct i as [|i], j as [|j]; simpl in Heq; [done| | |].
  - symmetry in Heq. apply lookup_ge_None in Heq. apply lookup_lt_Some in Hj. lia.
  - apply lookup_ge_None in Heq. apply lookup_lt_Some in Hi. lia.
  - assert (is_Some (ds !! i)) as [d' Hd'] by (apply lookup_lt_is_Some; apply lookup_lt_Some in Hi; lia).
    rewrite Hd' in Heq. f_equal. by apply (IH i ltac:(lia) j d').
Qed.

(** ** Preservation *)

Lemma world_ok_same w b' l :
  bucket_objects b' = bucket_objects (bucket w) → attempted w ⊆ l →
  (∀ k e b, issued (bucket w) k e b → issued b' k e b) → world_ok w →
  world_ok {| bucket := b'; written := written w; attempted := l |}.
Proof.
  intros Hb Hl His [Hc Ha Hk Hi Hp]. constructor; simpl.
  - intros key. rewrite Hb. apply Hc.
  - intros key b Hs. apply Hl. by apply (Ha key).
  - exact Hk.
  - intros key e b Hin. by apply His, Hi.
  - intros key Hkey i d Hd. destruct (Hp key Hkey i d Hd) as [m [Hst Hok Hpr Hcl]]. exists m. by constructor.
Qed.

Lemma entries_nil w key : world_ok w → bucket_objects (bucket w) !! key = None ↔ entries key w = [].
Proof. intros Hw. rewrite (ok_current w Hw key). apply last_None. Qed.

(** A PUT keeps the invariant if it creates content under its digest, or
    extends a pointer by a manifest derived from the current one. *)
Lemma world_ok_put w key bytes c resp w' :
  world_ok w → world_step w (PutObject key bytes c) resp w' →
  (∀ prefix d, prefix = "packs/" ∨ prefix = "manifests/" → key = prefix +:+ d →
     c = IfNoneMatchStar ∧ sha256_hex bytes = d) →
  (is_pointer key → precond_holds c (bucket_objects (bucket w) !! key) →
     ∃ m, published w (last (hist key w)) bytes m) →
  world_ok w'.
Proof.
  intros Hw Hstep Hcontent Hpointer. pose proof (world_step_le _ _ _ _ Hstep) as Hle.
  inversion Hstep as [| |? ? ? ? b' installed Hserve Heff]; subst.
  assert (His : ∀ k e b, issued (bucket w) k e b → issued b' k e b) by (intros; by eapply issued_stable).
  destruct Heff as [Hb _ _|e Hpre Hb _]; [apply world_ok_same; [done|set_solver|done|done]|].
  constructor; simpl.
  - intros k. rewrite Hb, entries_snoc. destruct (key =? k)%string eqn:Ek; boolify.
    + subst k. by rewrite lookup_insert_eq, last_snoc.
    + rewrite lookup_insert_ne by done. rewrite app_nil_r. apply (ok_current w Hw).
  - intros k b Hs. unfold stored, hist in Hs. rewrite entries_snoc, fmap_app in Hs.
    apply elem_of_app in Hs as [Hs|Hs]; [right; by apply (ok_attempted w Hw k)|].
    destruct (key =? k)%string; [|by apply elem_of_nil in Hs]. apply list_elem_of_singleton in Hs as ->. left.
  - intros prefix d b Hprefix Hs. unfold stored, hist in *. rewrite entries_snoc, fmap_app in Hs |- *.
    destruct (key =? prefix +:+ d)%string eqn:Ek; boolify.
    + destruct (Hcontent prefix d Hprefix Ek) as [-> Hd]. simpl in Hpre. subst key.
      apply entries_nil in Hpre; [|done]. rewrite Hpre in Hs |- *. simpl in *.
      apply list_elem_of_singleton in Hs as ->. done.
    + rewrite app_nil_r in Hs |- *. by apply (ok_content w Hw).
  - intros k e' b Hin. rewrite entries_snoc in Hin. apply elem_of_app in Hin as [Hin|Hin].
    + by apply His, (ok_issued w Hw).
    + destruct (key =? k)%string eqn:Ek; boolify; [|by apply elem_of_nil in Hin]. subst k.
      apply list_elem_of_singleton in Hin as [= -> ->]. apply issued_current. by rewrite Hb, lookup_insert_eq.
  - intros k Hk. unfold hist. rewrite entries_snoc, fmap_app. destruct (key =? k)%string eqn:Ek; boolify.
    + subst k. destruct (Hpointer Hk Hpre) as [m Hm]. simpl. eapply chain_snoc.
      * eapply chain_le; [exact Hle|]. by apply (ok_chain w Hw).
      * eapply published_le; [exact Hle|]. exact Hm.
    + simpl. rewrite app_nil_r. eapply chain_le; [exact Hle|]. by apply (ok_chain w Hw).
Qed.

Lemma world_ok_get w key resp w' : world_ok w → world_step w (GetObject key) resp w' → world_ok w'.
Proof.
  intros Hw Hs. inversion Hs; subst. apply world_ok_same; [|done|intros; by eapply issued_stable|done].
  by edestruct serve_get as (? & _); [eassumption|].
Qed.

Lemma world_ok_head w key resp w' : world_ok w → world_step w (HeadObject key) resp w' → world_ok w'.
Proof.
  intros Hw Hs. inversion Hs; subst. apply world_ok_same; [|done|intros; by eapply issued_stable|done].
  by edestruct serve_head as (? & _); [eassumption|].
Qed.

(** ** Programs among other handlers *)

Fixpoint wp {A} (p : Prog A) (Q : A → World → Prop) (w : World) : Prop :=
  match p with
  | Ret a => Q a w
  | Req r k => ∀ w1 resp w2,
      world_le w w1 → world_ok w1 → world_step w1 r resp w2 → collision_free (attempted w2) →
      world_ok w2 ∧ wp (k resp) Q w2
  end.

Lemma world_wp_mono {A} (p : Prog A) (Q Q' : A → World → Prop) w :
  wp p Q w → (∀ a w', world_le w w' → Q a w' → Q' a w') → wp p Q' w.
Proof.
  revert w; induction p as [a|r k IH]; simpl; intros w Hp HQ; [by apply HQ|].
  intros w1 resp w2 Hle Hok Hstep Hcf. destruct (Hp w1 resp w2 Hle Hok Hstep Hcf) as [Hok2 Hk]. split; [done|].
  eapply IH; [exact Hk|]. intros a w' Hle' Ha. apply HQ; [|done].
  etrans; [exact Hle|]. etrans; [by eapply world_step_le|done].
Qed.

(** What other handlers do does not matter. *)
Lemma wp_le {A} (p : Prog A) (Q : A → World → Prop) w w' :
  world_le w w' → (∀ a, Q a w → Q a w') → wp p Q w → wp p Q w'.
Proof.
  intros Hle HQ. destruct p as [a|r k]; simpl; [apply HQ|].
  intros Hp w1 resp w2 Hle'. apply Hp. by etrans.
Qed.

(** The world a program ends in is a good one. *)
Lemma wp_ok {A} (p : Prog A) (Q : A → World → Prop) w :
  world_ok w → wp p Q w → wp p (λ a w', world_ok w' ∧ Q a w') w.
Proof.
  revert w; induction p as [a|r k IH]; simpl; [done|]. intros w Hw Hp w1 resp w2 Hle Hok Hstep Hcf.
  destruct (Hp w1 resp w2 Hle Hok Hstep Hcf) as [Hok2 Hk]. split; [done|by apply IH].
Qed.

Lemma world_wp_bind {A C} (f : A → Prog C) (p : Prog A) (Q : C → World → Prop) w :
  wp p (λ a w', wp (f a) Q w') w → wp (p ≫= f) Q w.
Proof.
  revert w; induction p as [a|r k IH]; [done|]. intros w Hp. cbn.
  intros w1 resp w2 Hle Hok Hstep Hcf. destruct (Hp w1 resp w2 Hle Hok Hstep Hcf) as [Hok2 Hk]. split; [done|].
  by apply IH.
Qed.

Lemma wp_try {E F A C} (conv : E → F) (p : Prog (result E A)) (f : A → Prog (result F C)) Q w :
  wp p (λ r w', match r with Ok a => wp (f a) Q w' | Err e => Q (Err (conv e)) w' end) w →
  wp (try_with conv p f) Q w.
Proof. intros Hp. apply world_wp_bind. eapply world_wp_mono; [exact Hp|]. intros [a|e] w' _ H; exact H. Qed.

Lemma wp_cutoff {A} n (p : Prog A) (Q : A → World → Prop) w :
  wp p Q w → wp (cutoff n p) (λ o w', match o with Some a => Q a w' | None => True end) w.
Proof.
  revert n w; induction p as [a|r k IH]; intros n w Hp; [exact Hp|]. destruct n as [|n]; [exact I|]. cbn.
  intros w1 resp w2 Hle Hok Hstep Hcf. destruct (Hp w1 resp w2 Hle Hok Hstep Hcf) as [Hok2 Hk]. split; [done|].
  destruct n; [exact I|]. by apply IH.
Qed.

Lemma wp_maybe_cutoff {A} n (p : Prog A) (Q : A → World → Prop) w :
  wp p Q w → wp (maybe_cutoff n p) (λ o w', match o with Some a => Q a w' | None => True end) w.
Proof.
  intros Hp. destruct n as [n|]; [by apply wp_cutoff|]. apply world_wp_bind. by eapply world_wp_mono.
Qed.

(** ** Rules for requests *)

(** What the response of a GET says of the history of its key. *)
Definition get_spec (key : string) (resp : S3Response) (w : World) : Prop :=
  match resp with
  | Ok d => ∃ e, last (entries key w) = Some (e, body d) ∧ ∀ h, etag_header d = Some h → h = e
  | Err (HttpFailWithBody 404 _) => entries key w = []
  | Err _ => True
  end.

Lemma wp_get {A} key (k : S3Response → Prog A) Q w :
  (∀ resp w', world_le w w' → world_ok w' → get_spec key resp w' → wp (k resp) Q w') → wp (Req (GetObject key) k) Q w.
Proof.
  intros H w1 resp w2 Hle Hok Hstep _. pose proof (world_ok_get _ _ _ _ Hok Hstep) as Hok2. split; [done|].
  apply H; [etrans; [done|by eapply world_step_le]|done|].
  inversion Hstep as [? ? b' Hserve| |]; subst.
  destruct (serve_get _ _ _ _ Hserve) as (Hb & Hread & H404). unfold get_spec.
  destruct resp as [d|[code msg|msg]]; [| |done].
  - destruct (Hread d eq_refl) as (e & He & Hh). exists e. split; [|done].
    transitivity (last (entries key w1)); [done|]. by rewrite <- (ok_current _ Hok).
  - destruct (decide (code = 404%Z)) as [->|Hne]; [|by repeat (done || case_match)].
    apply (entries_nil w1); [done|]. apply H404. left. by eexists.
Qed.

Lemma wp_head {A} key (k : S3Response → Prog A) Q w :
  (∀ resp w', world_le w w' → world_ok w' → (is_404 resp → entries key w' = []) → wp (k resp) Q w') →
  wp (Req (HeadObject key) k) Q w.
Proof.
  intros H w1 resp w2 Hle Hok Hstep _. pose proof (world_ok_head _ _ _ _ Hok Hstep) as Hok2. split; [done|].
  apply H; [etrans; [done|by eapply world_step_le]|done|].
  inversion Hstep as [|? ? b' Hserve|]; subst. intros Hr.
  apply (entries_nil w1); [done|]. by apply (serve_head _ _ _ _ Hserve).
Qed.

Lemma created_key key resp key' : created key resp = Ok key' → key' = key.
Proof. unfold created. intros H. repeat case_match; congruence. Qed.

Lemma created_backend key resp e : created key resp = Err e → ∃ s, e = Backend s.
Proof. unfold created. intros H. repeat case_match; simplify_eq; by eexists. Qed.

Lemma wp_put_immutable prefix bytes w :
  prefix = "packs" ∨ prefix = "manifests" →
  wp (put_immutable prefix bytes)
     (λ r w', match r with
              | Ok key => key = content_key prefix bytes ∧ stored key bytes w'
              | Err e => ∃ s, e = Backend s
              end) w.
Proof.
  intros Hprefix w1 resp w2 Hle Hok Hstep Hcf.
  set (key := content_key prefix bytes) in *.
  assert (Hkey : ∃ p, (p = "packs/" ∨ p = "manifests/") ∧ key = p +:+ sha256_hex bytes).
  { unfold key. destruct Hprefix as [-> | ->]; [exists "packs/"|exists "manifests/"]; split; auto. }
  assert (Hok2 : world_ok w2).
  { eapply world_ok_put; [exact Hok|exact Hstep| |].
    - intros p d Hp Hd. split; [done|]. destruct Hkey as (p' & Hp' & Hk). rewrite Hk in Hd.
      destruct Hp as [-> | ->], Hp' as [-> | ->]; simpl in Hd; by simplify_eq.
    - intros Hptr. exfalso. unfold is_pointer, key in Hptr. by destruct Hprefix as [-> | ->]. }
  split; [done|]. simpl. destruct (created key resp) as [key'|e] eqn:Hr; [|by eapply created_backend].
  assert (Hcases : ∃ b, stored key b w2 ∧ b ∈ attempted w2 ∧ bytes ∈ attempted w2 ∧ key' = key).
  { assert (Hatt : bytes ∈ attempted w2) by (inversion Hstep; subst; simpl; left).
    assert (Hin : ∃ e b, last (entries key w2) = Some (e, b) ∧ key' = key).
    { inversion Hstep as [| |? ? ? ? b' installed Hserve Heff]; subst.
      destruct Heff as [Hb Hn2xx H412|e Hpre Hb Hno].
      - unfold created in Hr. destruct resp as [d|[code msg|msg]]; [by rewrite (Hn2xx d eq_refl) in Hr| |done].
        destruct (decide (code = 412%Z)) as [->|Hne]; [|by repeat case_match; simplify_eq].
        assert (Hk' : key' = key) by (simpl in Hr; congruence). destruct (bucket_objects (bucket w1) !! key) as [[e b]|] eqn:Eo.
        + exists e, b. split; [|done]. rewrite <- Eo. symmetry. apply (ok_current _ Hok).
        + exfalso. by apply H412; [eexists|].
      - exists e, bytes. split; [rewrite entries_snoc, String.eqb_refl; apply last_snoc|].
        by eapply created_key. }
    destruct Hin as (e & b & Hlast & Hk'). exists b.
    assert (Hst : stored key b w2).
    { unfold stored, hist. apply list_elem_of_fmap. exists (e, b). split; [done|]. by apply last_Some_elem_of in Hlast. }
    split_and!; [done|by apply (ok_attempted _ Hok2 key)|done|done]. }
  destruct Hcases as (b & Hst & Hb & Hatt & ->). split; [done|].
  destruct Hkey as (p & Hp & Hk). rewrite Hk in Hst |- *.
  destruct (ok_content _ Hok2 p _ _ Hp Hst) as [Hsha _].
  assert (b = bytes) as Heq by by apply Hcf. by rewrite <- Heq at 2.
Qed.

Lemma wp_put_idx digest bytes w : wp (put_idx digest bytes) (λ _ _, True) w.
Proof.
  unfold put_idx, idx_key_for_pack_digest. case_match; [|exact I].
  intros w1 resp w2 Hle Hok Hstep _. split; [|exact I].
  case_match; simplify_eq. eapply world_ok_put; [exact Hok|exact Hstep| |done].
  by intros p d [-> | ->] Hd.
Qed.

(** ** Digests as pointer bodies *)

Lemma lower_hexdigit_class c : is_lower_hexdigit c = true →
  is_ascii c = true ∧ is_ascii_hexdigit c = true ∧ is_whitespace (byte_val c) = false.
Proof. destruct c as [[] [] [] [] [] [] [] []]; done. Qed.

Lemma trim_start_none f l : Forall (λ c, f c = false) l → trim_start_matches f l = l.
Proof. by destruct 1 as [|c l Hc _]; simpl; [|rewrite Hc]. Qed.

Lemma digest_text d : is_manifest_digest d = true → utf8_trim d = Some d ∧ is_digest_text d = true.
Proof.
  unfold is_manifest_digest, is_digest_text. rewrite andb_true_iff. intros [-> Hd]. split.
  2:{ simpl. eapply str_forall_impl; [|exact Hd]. intros c Hc. by apply lower_hexdigit_class. }
  assert (Hascii : str_forall is_ascii d = true).
  { eapply str_forall_impl; [|exact Hd]. intros c Hc. by apply lower_hexdigit_class. }
  assert (Hws : Forall (λ c, is_whitespace c = false) (str_bytes d)).
  { clear Hascii. induction d as [|c d IH]; simpl in *; [constructor|].
    apply andb_true_iff in Hd as [Hc Hd]. constructor; [by apply lower_hexdigit_class|by apply IH]. }
  unfold utf8_trim. rewrite utf8_decode_ascii by done. csimpl. f_equal.
  rewrite (trim_start_none _ _ Hws). unfold trim_end.
  rewrite (trim_start_none _ (reverse _)) by (by rewrite Forall_reverse).
  rewrite reverse_involutive. by apply utf8_encode_ascii.
Qed.

Lemma published_digest w prev d m : world_ok w → published w prev d m → is_manifest_digest d = true.
Proof.
  intros Hw [(b & Hb & _) _ _ _].
  destruct (ok_content w Hw "manifests/" d b (or_intror eq_refl) Hb) as [<- _]. apply sha256_hex_shape.
Qed.

Lemma history_published w key j d :
  world_ok w → is_pointer key → hist key w !! j = Some d →
  ∃ m, published w (prev_of (hist key w) j) d m.
Proof. intros Hw Hk Hj. by apply (ok_chain w Hw key Hk). Qed.

(** ** Rules for the store operations *)

Lemma wp_store_get key w :
  wp (store_get key) (λ r w', world_le w w' ∧ world_ok w' ∧
    match r with
    | Ok b => last (hist key w') = Some b
    | Err (NotFound _) => hist key w' = []
    | Err (Backend _) => True
    | Err _ => False
    end) w.
Proof.
  apply wp_get. intros resp w' Hle Hok Hspec. split_and!; [done|done|]. unfold get_spec in Hspec.
  destruct resp as [d|[code msg|msg]]; [| |done].
  - destruct Hspec as (e & He & _). unfold hist. rewrite fmap_last, He. done.
  - repeat case_match; simplify_eq; try done. unfold hist. by rewrite Hspec.
Qed.

(** Reading a stored manifest: its bytes, or a backend failure. *)
Lemma wp_get_verified d b w :
  stored ("manifests/" +:+ d) b w →
  wp (get_verified ("manifests/" +:+ d) d)
     (λ r w', world_le w w' ∧ world_ok w' ∧ (r = Ok b ∨ ∃ s, r = Err (Backend s))) w.
Proof.
  intros Hst. apply wp_try. eapply world_wp_mono; [apply wp_store_get|]. cbn.
  intros r w1 _ (Hle & Hok & Hr).
  destruct (ok_content _ Hok "manifests/" d b (or_intror eq_refl) (stored_le _ _ _ _ Hle Hst)) as [Hsha Hhist].
  rewrite Hhist in Hr. destruct r as [b'|e].
  - injection Hr as <-. cbn. split_and!; [done|done|]. left. unfold check_digest. by rewrite Hsha, String.eqb_refl.
  - split_and!; [done|done|]. destruct e; try done. right. by eexists.
Qed.

(** What a bounded read says of the history of its key. *)
Definition read_outcome (key : string) (r : result StoreError string) (w : World) : Prop :=
  match r with
  | Ok b => last (hist key w) = Some b
  | Err (NotFound _) => hist key w = []
  | Err (Backend _) | Err (ObjectTooLarge _ _ _) => True
  | Err _ => False
  end.

Lemma wp_read_within key max w :
  wp (read_within key max) (λ r w', world_le w w' ∧ world_ok w' ∧
    read_outcome key r w') w.
Proof.
  apply wp_try. eapply world_wp_mono; [apply wp_store_get|]. intros [b|e] w1 _ (Hle & Hok & Hr); simpl.
  - destruct (max <? str_size b)%Z; by split_and!.
  - split_and!; [done|done|]. by destruct e.
Qed.

Lemma wp_get_limited key max w :
  wp (get_limited key max) (λ r w', world_le w w' ∧ world_ok w' ∧
    read_outcome key r w') w.
Proof.
  apply wp_head. intros resp w1 Hle Hok H404.
  assert (Hread : wp (read_within key max) (λ r w', world_le w w' ∧ world_ok w' ∧
    read_outcome key r w') w1).
  { eapply world_wp_mono; [apply wp_read_within|]. intros r w' _ (Hle' & H). split; [by etrans|done]. }
  assert (Hempty : is_404 resp → hist key w1 = []) by (intros H; unfold hist; by rewrite (H404 H)).
  destruct resp as [d|[code msg|msg]]; [| |by split_and!].
  - destruct (status_code d =? 404)%Z eqn:E4; boolify.
    { split_and!; [done|done|]. apply Hempty. right. by exists d. }
    destruct (negb (is_2xx (status_code d))); [by split_and!|].
    destruct (content_length d) as [n|]; [|done]. cbv zeta.
    destruct (max <? (if (n <? 0)%Z then 2 ^ 64 - 1 else n))%Z; [by split_and!|exact Hread].
  - destruct (decide (code = 404%Z)) as [->|Hne].
    + split_and!; [done|done|]. apply Hempty. left. by eexists.
    + repeat (case_match; try done; try by split_and!).
Qed.

Lemma wp_get_verified_limited d b max w :
  stored ("manifests/" +:+ d) b w →
  wp (get_verified_limited ("manifests/" +:+ d) d max)
     (λ r w', world_le w w' ∧ world_ok w' ∧
       (r = Ok b ∨ (∃ s, r = Err (Backend s)) ∨ ∃ k n m, r = Err (ObjectTooLarge k n m))) w.
Proof.
  intros Hst. apply wp_try. eapply world_wp_mono; [apply wp_get_limited|]. cbn.
  intros r w1 _ (Hle & Hok & Hr).
  destruct (ok_content _ Hok "manifests/" d b (or_intror eq_refl) (stored_le _ _ _ _ Hle Hst)) as [Hsha Hhist].
  unfold read_outcome in Hr. rewrite Hhist in Hr. destruct r as [b'|e].
  - injection Hr as <-. cbn. split_and!; [done|done|]. left. unfold check_digest. by rewrite Hsha, String.eqb_refl.
  - split_and!; [done|done|]. right. destruct e; try done; [right|left]; by repeat eexists.
Qed.

Lemma wp_get_pointer key w :
  wp (get_pointer key) (λ r w', world_le w w' ∧ world_ok w' ∧
    match r with
    | Ok (Some (e, b)) => last (entries key w') = Some (e, b)
    | Ok None => entries key w' = []
    | Err e => ∃ s, e = Backend s
    end) w.
Proof.
  apply wp_get. intros resp w' Hle Hok Hspec. split_and!; [done|done|]. unfold get_spec in Hspec.
  destruct resp as [d|[code msg|msg]]; [| |by eexists].
  - destruct Hspec as (e & He & Hh). destruct (etag_header d) as [h|]; [|by eexists]. by rewrite (Hh h).
  - repeat case_match; simplify_eq; try done; by eexists.
Qed.

(** A write of the pointer: the world [w1] in which it is decided. *)
Lemma wp_put_pointer key d c w :
  is_pointer key →
  (∀ w1, world_le w w1 → world_ok w1 → precond_holds c (last (entries key w1)) →
     ∃ m, published w1 (last (hist key w1)) d m) →
  wp (put_pointer key d c) (λ r w',
    match r with
    | Ok (Won _) => ∃ w1, world_le w w1 ∧ world_le w1 w' ∧ world_ok w1 ∧ world_ok w' ∧
        precond_holds c (last (entries key w1)) ∧ hist key w' = hist key w1 ++ [d]
    | Ok LostRace => ∃ w1, world_le w w1 ∧ world_le w1 w' ∧ world_ok w1 ∧ world_ok w' ∧
        ¬ precond_holds c (last (entries key w1))
    | Err e => ∃ s, e = Backend s
    end) w.
Proof.
  intros Hkey Hpub.
  assert (H : wp (Req (PutObject key d c) (λ resp, Ret (classify_cas resp))) (λ r w',
    match r with
    | Ok (Won _) => ∃ w1, world_le w w1 ∧ world_le w1 w' ∧ world_ok w1 ∧ world_ok w' ∧
        precond_holds c (last (entries key w1)) ∧ hist key w' = hist key w1 ++ [d]
    | Ok LostRace => ∃ w1, world_le w w1 ∧ world_le w1 w' ∧ world_ok w1 ∧ world_ok w' ∧
        ¬ precond_holds c (last (entries key w1))
    | Err e => ∃ s, e = Backend s
    end) w).
  { intros w1 resp w2 Hle Hok Hstep _. pose proof (world_step_le _ _ _ _ Hstep) as Hle12.
    assert (Hok2 : world_ok w2).
    { eapply world_ok_put; [exact Hok|exact Hstep| |].
      - intros prefix d' [-> | ->] ->; done.
      - intros _ Hpre. rewrite (ok_current _ Hok) in Hpre. by apply Hpub. }
    split; [done|]. simpl. inversion Hstep as [| |? ? ? ? b' installed Hserve Heff]; subst.
    unfold classify_cas. destruct resp as [rd|[code msg|msg]]; [| |by eexists].
    - destruct (is_2xx (status_code rd)) eqn:E2; [|by eexists]. destruct (etag_header rd); [|by eexists].
      destruct Heff as [_ Hn _|e Hpre Hb _]; [by rewrite (Hn rd eq_refl) in E2|].
      exists w1. split_and!; [done|done|done|done|by rewrite <- (ok_current _ Hok)|].
      unfold hist. rewrite entries_snoc, String.eqb_refl, fmap_app. done.
    - destruct (decide (code = 412%Z)) as [->|Hne]; [|repeat case_match; simplify_eq; by eexists].
      exists w1. split_and!; [done|done|done|done|]. rewrite <- (ok_current _ Hok).
      destruct Heff as [_ _ H412|e _ _ Hno]; [apply H412; by eexists|destruct Hno; by eexists]. }
  unfold put_pointer. destruct c as [|e]; [done|]. destruct (negb (header_value_ok e)); [by eexists|done].
Qed.

End world.
