(* ===== verification/GitPublishProps.v ===== *)
(** * Properties of git publication

    Every handler, from hydration to response, keeps the pointer's history a
    single line of publishable manifests; the outcome of a handler says what it
    did to that history.  Handlers run concurrently, any number of them, on any
    number of relays, and may be dropped at any request ([System]). *)
From S2P Require Import Prelude Channel Nostr GitManifest ObjectStore GitPublish GitPublishWorld.

Section props.
Context {L : NostrLib} {D : DigestLib} {B : S3Lib} {SL : SerdeLib}.
Context {DL : DigestLaws D} {BL : S3Laws B} {SLL : SerdeLaws SL}.

(** ** What a handler has seen *)

(** [ps] is the state of the pointer after its first [n] publications. *)
Definition seen (w : World) (key : string) (n : nat) (ps : ParentState) : Prop :=
  match n with
  | O => ps = fresh
  | S j => ∃ e d m, ps = from_loaded e d m ∧ entries key w !! j = Some (e, d) ∧
             published w (prev_of (hist key w) j) d m
  end.

Lemma lookup_entries_hist key w j e d : entries key w !! j = Some (e, d) → hist key w !! j = Some d.
Proof. intros H. unfold hist. by rewrite list_lookup_fmap, H. Qed.

Lemma prev_of_le key w w' j d :
  world_le w w' → hist key w !! j = Some d → prev_of (hist key w') j = prev_of (hist key w) j.
Proof.
  intros Hle Hj. destruct (hist_le key _ _ Hle) as [l Hl]. rewrite Hl. apply prev_of_app.
  apply lookup_lt_Some in Hj. lia.
Qed.

Lemma seen_le w w' key n ps : world_le w w' → seen w key n ps → seen w' key n ps.
Proof.
  intros Hle. destruct n as [|j]; [done|]. intros (e & d & m & -> & Hj & Hm). exists e, d, m.
  split_and!; [done| |].
  - destruct (entries_le key _ _ Hle) as [l Hl]. rewrite Hl. by apply lookup_app_l_Some.
  - rewrite (prev_of_le _ _ _ _ _ Hle (lookup_entries_hist _ _ _ _ _ Hj)). by eapply published_le.
Qed.

Lemma seen_digest w key n ps : seen w key n ps → parent_digest ps = prev_of (hist key w) n.
Proof.
  destruct n as [|j]; [by intros ->|]. intros (e & d & m & -> & Hj & _). simpl.
  by rewrite (lookup_entries_hist _ _ _ _ _ Hj).
Qed.

Lemma seen_packs w key n ps p : seen w key n ps → p ∈ packs (ps_parent ps) → ∃ b, stored p b w.
Proof.
  destruct n as [|j]; [intros ->; by intros ?%elem_of_nil|]. intros (e & d & m & -> & _ & Hm). apply (pub_closed _ _ _ _ Hm).
Qed.

Definition backend_failure (e : HydrateError) : Prop :=
  (∃ s, e = HydrateStore (Backend s)) ∨ ∃ s, e = HydrateResourceLimit s.

Lemma pointer_key_is_pointer community owner repo : is_pointer (pointer_key community owner repo).
Proof. done. Qed.

Definition load_post (key : string) (w : World) (r : result HydrateError (option (string * string * Manifest)))
  (w' : World) : Prop :=
  match r with
  | Ok None => hist key w = []
  | Ok (Some (e, d, m)) => ∃ j, length (hist key w) ≤ S j ∧ seen w' key (S j) (from_loaded e d m)
  | Err e => backend_failure e
  end.

Lemma last_entries_lookup key w e d :
  last (entries key w) = Some (e, d) → ∃ j, entries key w !! j = Some (e, d) ∧ length (entries key w) = S j.
Proof.
  rewrite last_lookup. intros H. exists (pred (length (entries key w))). split; [done|].
  apply lookup_lt_Some in H. lia.
Qed.

Lemma wp_load_pointer community owner repo w :
  wp (load_pointer community owner repo) (load_post (pointer_key community owner repo) w) w.
Proof.
  set (key := pointer_key community owner repo). apply wp_try.
  eapply world_wp_mono; [apply wp_get_pointer|]. intros [[[e d]|]|err] w1 _ (Hle & Hok & Hr).
  2:{ fold key in Hr. cbn. destruct (hist_le key _ _ Hle) as [l Hl]. unfold hist at 1 in Hl. rewrite Hr in Hl.
      symmetry in Hl. by apply app_nil in Hl as [Hl _]. }
  2:{ destruct Hr as [s ->]. left. by eexists. }
  destruct (last_entries_lookup _ _ _ _ Hr) as (j & Hj & Hlen).
  pose proof (lookup_entries_hist _ _ _ _ _ Hj) as Hd.
  destruct (history_published _ _ _ _ Hok (pointer_key_is_pointer _ _ _) Hd) as [m Hm].
  destruct (digest_text d (published_digest _ _ _ _ Hok Hm)) as [-> ->]. simpl negb. cbv iota.
  destruct (pub_stored _ _ _ _ Hm) as (b & Hb & Hparse).
  apply wp_try. apply world_wp_bind. eapply world_wp_mono; [by apply wp_get_verified_limited|].
  intros r w2 Hle12 (_ & Hok2 & [->|[[s ->]|(k & n & mx & ->)]]); cbn.
  - rewrite Hparse. cbn. rewrite (proj2 (validate_ok m) (pub_ok _ _ _ _ Hm)). cbn. exists j. split.
    + pose proof (prefix_length _ _ (hist_le key _ _ Hle)).
      assert (length (hist key w1) = S j) by (unfold hist; by rewrite length_fmap). lia.
    + apply (seen_le w1 w2 key (S j) _ Hle12). by exists e, d, m.
  - left. by eexists.
  - right. by eexists.
Qed.

(** ** Versions of a repository *)

(** The publication number [j] of the pointer is the manifest [m], stored under [k]. *)
Definition version_at (w : World) (key : string) (j : nat) (m : Manifest) (k : string) : Prop :=
  ∃ d, k = "manifests/" +:+ d ∧ hist key w !! j = Some d ∧ published w (prev_of (hist key w) j) d m.

Lemma version_at_le w w' key j m k : world_le w w' → version_at w key j m k → version_at w' key j m k.
Proof.
  intros Hle (d & -> & Hj & Hm). exists d. split_and!; [done|by eapply hist_lookup_le|].
  rewrite (prev_of_le _ _ _ _ _ Hle Hj). by eapply published_le.
Qed.

Lemma wp_read_winner key w :
  is_pointer key → hist key w ≠ [] →
  wp (read_winner_after_conflict key) (λ r w',
    match r with
    | Ok (m, k) => ∃ j, length (hist key w) ≤ S j ∧ version_at w' key j m k
    | Err e => ∃ s, e = CasBackend (Backend s)
    end) w.
Proof.
  intros Hkey Hne. apply wp_try. eapply world_wp_mono; [apply wp_get_pointer|].
  intros [[[e d]|]|err] w1 _ (Hle & Hok & Hr); [| |by destruct Hr as [s ->]; eexists].
  2:{ exfalso. apply Hne. destruct (hist_le key _ _ Hle) as [l Hl]. unfold hist at 1 in Hl. rewrite Hr in Hl.
      symmetry in Hl. by apply app_nil in Hl as [Hl _]. }
  destruct (last_entries_lookup _ _ _ _ Hr) as (j & Hj & Hlen).
  pose proof (lookup_entries_hist _ _ _ _ _ Hj) as Hd.
  destruct (history_published _ _ _ _ Hok Hkey Hd) as [m Hm].
  destruct (digest_text d (published_digest _ _ _ _ Hok Hm)) as [-> ->]. simpl negb. cbv iota.
  destruct (pub_stored _ _ _ _ Hm) as (b & Hb & Hparse).
  apply world_wp_bind. eapply world_wp_mono; [by apply wp_get_verified|].
  intros r w2 Hle12 (_ & Hok2 & [->|[s ->]]); cbn; [|by eexists].
  rewrite Hparse. exists j. split.
  - pose proof (prefix_length _ _ (hist_le key _ _ Hle)).
    assert (length (hist key w1) = S j) by (unfold hist; by rewrite length_fmap). lia.
  - apply (version_at_le w1 w2); [done|]. by exists d.
Qed.

(** ** Composing the next manifest *)

Definition packs_stored (w : World) (ps : list string) : Prop := ∀ p, p ∈ ps → ∃ b, stored p b w.

Lemma packs_stored_le w w' ps : world_le w w' → packs_stored w ps → packs_stored w' ps.
Proof. intros Hle H p Hp. destruct (H p Hp) as [b Hb]. exists b. by eapply stored_le. Qed.

(** What [commit] receives: the successor of [ps]. *)
Record candidate (w : World) (ps : ParentState) (m : Manifest) : Prop := {
  cand_version : version m = MANIFEST_VERSION;
  cand_parent : parent m = parent_digest ps;
  cand_normal : normalize m = m;
  cand_closed : packs_stored w (packs m)
}.

Lemma normal_packs l : dedup_str (sort_str (dedup_str (sort_str l))) = dedup_str (sort_str l).
Proof. rewrite (sort_str_id (dedup_str _)) by apply dedup_str_sorted, sort_str_sorted. apply dedup_str_idemp. Qed.

Lemma candidate_compacted w ps hd rs keys :
  packs_stored w keys → candidate w ps (compose_compacted_after (parent_digest ps) hd rs keys).
Proof.
  intros H. constructor; try done.
  - unfold normalize, compose_compacted_after. simpl. by rewrite normal_packs.
  - intros p Hp. simpl in Hp. rewrite elem_of_dedup_str, elem_of_sort_str in Hp. by apply H.
Qed.

Lemma elem_of_compose_after m d hd rs k p :
  p ∈ packs (compose_after m d hd rs k) ↔ p ∈ packs m ∨ k = Some p.
Proof.
  simpl. rewrite elem_of_dedup_str, elem_of_sort_str. destruct k as [k|]; [|naive_solver].
  destruct (existsb (String.eqb k) (packs m)) eqn:E; [|set_solver].
  apply existsb_exists in E as (k' & Hin & Hk%String.eqb_eq). subst k'. apply list_elem_of_In in Hin. naive_solver.
Qed.

Lemma candidate_after w ps hd rs k :
  packs_stored w (packs (ps_parent ps)) → (∀ p, k = Some p → ∃ b, stored p b w) →
  candidate w ps (compose_after (ps_parent ps) (parent_digest ps) hd rs k).
Proof.
  intros H Hk. constructor; try done.
  - unfold normalize, compose_after. simpl. by rewrite normal_packs.
  - intros p Hp. apply elem_of_compose_after in Hp as [Hp|Hp]; auto.
Qed.

(** [m] keeps the parent's packs, and publishes the refs and the HEAD of the workspace. *)
Definition extends (ps : ParentState) (hd : string) (rs : gmap string string) (m : Manifest) : Prop :=
  head m = hd ∧ refs m = rs ∧ packs (ps_parent ps) ⊆ packs m.

(** Failures before the commit point: nothing is published. *)
Definition publish_failure (e : CasError) : Prop :=
  match e with CasBackend (Backend _) | PackCapture _ | ResourceLimit _ => True | _ => False end.

Definition or_failure {A} (Q : A → World → Prop) (r : result CasError A) (w : World) : Prop :=
  match r with Ok a => Q a w | Err e => publish_failure e end.

Lemma local_failure e : publish_failure (local_error e).
Proof. by destruct e. Qed.

Lemma wp_put_pack bytes w :
  wp (put_pack bytes) (λ r w', match r with Ok key => stored key bytes w' | Err e => ∃ s, e = Backend s end) w.
Proof. eapply world_wp_mono; [apply wp_put_immutable; by left|]. intros [k|e] w' _ H; [apply H|done]. Qed.

Lemma wp_write_idx_sidecar ip k w : wp (write_idx_sidecar ip k) (λ _ _, True) w.
Proof.
  unfold write_idx_sidecar. destruct (digest_from_pack_key k) as [d|e]; [|exact I]. destruct ip as [b|e]; [|exact I].
  apply wp_try. eapply world_wp_mono; [apply wp_put_idx|]. by intros [?|?] ? _ _.
Qed.

Lemma capture_pack_failure out rs max e : capture_pack out rs max = Err e → publish_failure e.
Proof.
  unfold capture_pack. intros H. destruct out as [b|le]; csimpl in *; repeat case_match; simplify_eq; try done.
  apply local_failure.
Qed.

Lemma wp_publish_delta ws ps hd rs limits cf w :
  packs_stored w (packs (ps_parent ps)) → (∀ e, cf = Some e → publish_failure e) →
  wp (publish_delta ws ps hd rs limits cf) (or_failure (λ m w', candidate w' ps m ∧ extends ps hd rs m)) w.
Proof.
  intros Hps Hcf. unfold publish_delta.
  assert (Hext : ∀ k, extends ps hd rs (compose_after (ps_parent ps) (parent_digest ps) hd rs k)).
  { intros k. split_and!; [done|done|]. intros p Hp. apply elem_of_compose_after. by left. }
  destruct (capture_pack _ _ _) as [[bytes|]|e] eqn:Ec; [| |by eapply capture_pack_failure].
  2:{ split; [by apply candidate_after|done]. }
  destruct (MAX_MANIFEST_PACKS <=? _); [destruct cf as [e|]; [by apply Hcf|exact I]|]. cbv zeta.
  destruct (U64_MAX <? _)%Z; [exact I|]. destruct (max_repo_bytes limits <? _)%Z; [exact I|].
  apply wp_try. eapply world_wp_mono; [apply wp_put_pack|]. intros [k|e] w1 Hle Hk; [|by destruct Hk as [s ->]].
  apply world_wp_bind. eapply world_wp_mono; [apply wp_write_idx_sidecar|]. intros _ w2 Hle2 _. split; [|done].
  apply candidate_after; [by do 2 (eapply packs_stored_le; [eassumption|])|].
  intros p [= <-]. exists bytes. by eapply stored_le.
Qed.

Lemma wp_upload_loop files acc w :
  packs_stored w acc → wp (upload_loop files acc) (or_failure (λ keys w', packs_stored w' keys)) w.
Proof.
  revert acc w; induction files as [|f files IH]; intros acc w Hacc; simpl upload_loop; [done|].
  destruct (cf_read f) as [bytes|e]; [|exact I]. destruct (negb _); [exact I|].
  apply wp_try. eapply world_wp_mono; [apply wp_put_pack|]. intros [k|e] w1 Hle Hk; [|by destruct Hk as [s ->]].
  destruct (digest_from_pack_key k) as [d|e] eqn:Ed.
  2:{ unfold digest_from_pack_key in Ed. by repeat case_match; simplify_eq. }
  assert (Hacc1 : packs_stored w1 (acc ++ [k])).
  { intros p [Hp|Hp%list_elem_of_singleton]%elem_of_app; [by eapply packs_stored_le|]. subst p. by exists bytes. }
  destruct (cf_idx f) as [idx|e]; [|by apply IH].
  apply world_wp_bind. eapply world_wp_mono; [apply wp_put_idx|]. intros _ w2 Hle2 _. apply IH. by eapply packs_stored_le.
Qed.

Lemma check_compacted_failure limits total files e : check_compacted limits total files = Err e → publish_failure e.
Proof.
  revert total; induction files as [|f files IH]; intros total H; simpl in H; [done|].
  repeat (case_match; [by simplify_eq|]). by eapply IH.
Qed.

Lemma capture_compacted_failure out rs limits e : capture_compacted_packs out rs limits = Err e → publish_failure e.
Proof.
  unfold capture_compacted_packs. intros H. destruct (bool_decide _); [done|].
  destruct out as [files|le]; csimpl in *; [|simplify_eq; apply local_failure].
  destruct (MAX_MANIFEST_PACKS <? _); [by simplify_eq|].
  destruct (check_compacted limits 0 files) eqn:Ec; csimpl in *; simplify_eq. by eapply check_compacted_failure.
Qed.

Lemma wp_prepare_compaction ws rs limits n w :
  wp (prepare_compaction ws rs limits n) (or_failure (λ keys w', packs_stored w' keys)) w.
Proof.
  unfold prepare_compaction. destruct (capture_compacted_packs _ _ _) as [[files total]|e] eqn:Ec.
  2:{ by eapply capture_compacted_failure. }
  destruct (negb _); [exact I|]. apply wp_try.
  eapply world_wp_mono; [apply wp_upload_loop; by intros p Hp%elem_of_nil|].
  intros [keys|e] w' _ H; [|done]. intros p. rewrite elem_of_dedup_str, elem_of_sort_str. by apply H.
Qed.

Definition compaction_post (th : nat) (ps : ParentState) (hd : string) (rs : gmap string string)
  (c : option Manifest * option CasError) (w : World) : Prop :=
  (∀ m, c.1 = Some m → candidate w ps m ∧ head m = hd ∧ refs m = rs ∧ th ≤ length (packs (ps_parent ps))) ∧
  (∀ e, c.2 = Some e → publish_failure e).

Lemma wp_try_compaction ws th ps hd rs limits w :
  wp (try_compaction ws th ps hd rs limits) (compaction_post th ps hd rs) w.
Proof.
  unfold try_compaction, should_compact. destruct (th <=? _) eqn:E; boolify; [|done].
  destruct (ws_permit ws) as [u|e]; [|split; [done|]; intros ? [= <-]; apply local_failure]. apply world_wp_bind.
  eapply world_wp_mono; [apply wp_maybe_cutoff, wp_prepare_compaction|].
  intros [[keys|e]|] w' _ H; (split; [intros m Hm|intros e' He]); simplify_eq/=; [|done|done].
  split_and!; [|done|done|lia]. by apply candidate_compacted.
Qed.

(** ** The commit point *)

Definition precond_of (ps : ParentState) : Precond :=
  match if_match ps with Some e => IfMatch e | None => IfNoneMatchStar end.

(** The condition of the swap holds exactly while [ps] is the last publication. *)
Lemma precond_seen w key n ps :
  is_pointer key → world_ok w → seen w key n ps →
  precond_holds (precond_of ps) (last (entries key w)) ↔ length (hist key w) = n.
Proof.
  intros Hkey Hok Hseen. unfold hist. rewrite length_fmap. destruct n as [|j]; simpl in Hseen.
  - subst ps. simpl. rewrite last_None. destruct (entries key w); naive_solver.
  - destruct Hseen as (e & d & m & -> & Hj & _). simpl. split.
    + intros [b Hb]. destruct (last_entries_lookup _ _ _ _ Hb) as (i & Hi & Hlen). rewrite Hlen. f_equal.
      assert (b = d) as ->.
      { eapply issued_functional; eapply ok_issued; [done|by eapply list_elem_of_lookup_2|done|].
        by eapply list_elem_of_lookup_2. }
      eapply NoDup_lookup; [eapply (chain_NoDup w (hist key w)); [done|by apply ok_chain]| |];
        by eapply lookup_entries_hist.
    + intros Hlen. exists d. rewrite last_lookup, Hlen. done.
Qed.

(** What [commit] answers on the successor [m] of the publication [n]. *)
Definition commit_post (key : string) (n : nat) (m : Manifest) (r : result CasError CasSuccess) (w : World) : Prop :=
  match r with
  | Ok s => manifest s = m ∧ version_at w key n m (manifest_key s)
  | Err (Conflict wm wk) => ∃ j, n ≤ j ∧ version_at w key j wm wk
  | Err (ManifestInvalid _) => ¬ publishable m
  | Err (CasBackend (Backend _)) => True
  | Err _ => False
  end.

Lemma canonical_from_bytes m b :
  version m = MANIFEST_VERSION → normalize m = m → canonical_bytes m = Ok b → from_bytes b = Ok m.
Proof.
  unfold canonical_bytes, from_bytes. intros Hv Hn Hb. rewrite Hn in Hb.
  destruct (to_vec m) as [b'|] eqn:E; simplify_eq/=. apply serde_round_trip in E. rewrite E. csimpl.
  by rewrite Hv, Z.eqb_refl.
Qed.

Lemma validate_err m e : validate m = Err e → ¬ publishable m.
Proof. intros H Hp. apply validate_ok in Hp. congruence. Qed.

Lemma canonical_bytes_total m : ∃ b, canonical_bytes m = Ok b.
Proof.
  unfold canonical_bytes. pose proof (to_vec_total (normalize m)) as H. destruct (to_vec _); [by eexists|done].
Qed.

Lemma wp_put_manifest bytes w :
  wp (put_manifest bytes) (λ r w',
    match r with
    | Ok key => key = "manifests/" +:+ sha256_hex bytes ∧ stored key bytes w'
    | Err e => ∃ s, e = Backend s
    end) w.
Proof. eapply world_wp_mono; [apply wp_put_immutable; by right|]. by intros r w' _ H. Qed.

Lemma wp_commit w key n ps m :
  is_pointer key → seen w key n ps → candidate w ps m →
  wp (commit key ps m) (commit_post key n m) w.
Proof.
  intros Hkey Hseen Hm. unfold commit. destruct (validate m) as [[]|e] eqn:Ev; [|by eapply validate_err].
  apply validate_ok in Ev. destruct (canonical_bytes_total m) as [bytes Hbytes]. rewrite Hbytes.
  apply wp_try. eapply world_wp_mono; [apply wp_put_manifest|]. intros [k|e] w1 Hle1 Hk; [|by destruct Hk as [s ->]].
  destruct Hk as [-> Hstored]. unfold digest_from_manifest_key. rewrite strip_prefix_app. cbv zeta.
  set (d := sha256_hex bytes) in *.
  assert (Hpub : ∀ w2, world_le w1 w2 → published w2 (parent_digest ps) d m).
  { intros w2 Hle2. constructor; [|done|apply (cand_parent _ _ _ Hm)|].
    - exists bytes. split; [by eapply stored_le|].
      eapply canonical_from_bytes; [apply (cand_version _ _ _ Hm)|apply (cand_normal _ _ _ Hm)|done].
    - eapply packs_stored_le; [|apply (cand_closed _ _ _ Hm)]. by etrans. }
  assert (Hlast : ∀ w2, world_le w1 w2 → length (hist key w2) = n → parent_digest ps = last (hist key w2)).
  { intros w2 Hle2 Hn. rewrite (seen_digest w2 key n ps) by (eapply seen_le; [|done]; by etrans).
    rewrite <- Hn. apply prev_of_last. }
  apply wp_try. eapply world_wp_mono.
  { apply (wp_put_pointer key d (precond_of ps) w1 Hkey). intros w2 Hle2 Hok2 Hpre.
    apply (precond_seen w2 key n ps) in Hpre; [|done|done|eapply seen_le; [|done]; by etrans].
    exists m. rewrite <- Hlast by done. by apply Hpub. }
  intros [[etag|]|e] w3 Hle3 Hr; [| |by destruct Hr as [s ->]].
  - destruct Hr as (w2 & Hle12 & Hle23 & Hok2 & Hok3 & Hpre & Hhist).
    apply (precond_seen w2 key n ps) in Hpre; [|done|done|eapply seen_le; [|done]; by etrans].
    split; [done|]. exists d. split_and!; [done| |].
    + rewrite Hhist. apply list_lookup_middle. by rewrite Hpre.
    + rewrite Hhist, prev_of_app by lia. rewrite <- Hpre, prev_of_last, <- Hlast by done.
      apply Hpub. by etrans.
  - destruct Hr as (w2 & Hle12 & Hle23 & Hok2 & Hok3 & Hpre).
    rewrite (precond_seen w2 key n ps) in Hpre; [|done|done|eapply seen_le; [|done]; by etrans].
    assert (Hmore : n < length (hist key w3)).
    { pose proof (prefix_length _ _ (hist_le key _ _ Hle23)).
      assert (Hs2 : seen w2 key n ps) by (eapply seen_le; [|done]; by etrans).
      assert (n ≤ length (hist key w2)); [|lia].
      destruct n as [|j]; [lia|]. destruct Hs2 as (e & d' & m' & _ & Hj & _).
      apply lookup_entries_hist, lookup_lt_Some in Hj. lia. }
    apply wp_try. eapply world_wp_mono; [apply wp_read_winner; [done|by destruct (hist key w3); [simpl in *; lia|]]|].
    intros [[wm wk]|e] w4 _ H4; cbn; [|by destruct H4 as [s ->]].
    destruct H4 as (j & Hj & Hv). exists j. split; [lia|done].
Qed.

(** ** Publication *)

(** What [cas_publish] answers: a manifest with the workspace's refs, which
    keeps the packs of the parent unless the pack set was compacted. *)
Definition publish_post (key : string) (n th : nat) (ps : ParentState) (ws : Workspace)
  (r : result CasError CasSuccess) (w : World) : Prop :=
  match r with
  | Ok s =>
      version_at w key n (manifest s) (manifest_key s) ∧
      (∃ observed, ws_snapshot ws = Ok (refs (manifest s), observed) ∧
         head (manifest s) = resolve_published_head (refs (manifest s)) observed (head (ps_parent ps))) ∧
      (length (packs (ps_parent ps)) < th → packs (ps_parent ps) ⊆ packs (manifest s))
  | Err (Conflict wm wk) => ∃ j, n ≤ j ∧ version_at w key j wm wk
  | Err (CasBackend (Backend _)) | Err (ManifestInvalid _) | Err (PackCapture _) | Err (ResourceLimit _) => True
  | Err _ => False
  end.

Lemma seen_packs_stored w key n ps : seen w key n ps → packs_stored w (packs (ps_parent ps)).
Proof. intros H p. by apply (seen_packs _ _ _ _ _ H). Qed.

Lemma wp_cas_publish_inner w community owner repo ws n ps limits th :
  let key := pointer_key community owner repo in
  seen w key n ps →
  wp (cas_publish_inner community owner repo ws ps limits th) (publish_post key n th ps ws) w.
Proof.
  intros key Hseen. unfold cas_publish_inner. fold key.
  destruct (ws_snapshot ws) as [[rs observed]|e] eqn:Ews; [|by destruct e].
  cbv zeta. set (hd := resolve_published_head rs observed (head (ps_parent ps))).
  apply world_wp_bind. eapply world_wp_mono; [apply wp_try_compaction|]. intros [c cf] w1 Hle1 [Hc Hcf].
  assert (Hseen1 : seen w1 key n ps) by by eapply seen_le.
  assert (Hfin : ∀ m w2, world_le w1 w2 → candidate w2 ps m → head m = hd → refs m = rs →
    (length (packs (ps_parent ps)) < th → packs (ps_parent ps) ⊆ packs m) →
    wp (commit key ps m) (publish_post key n th ps ws) w2).
  { intros m w2 Hle2 Hm Hh Hr Hp.
    eapply world_wp_mono; [apply (wp_commit w2 key n ps m); [done|by eapply seen_le|done]|].
    intros [s|e] w3 _ H; [|by destruct e as [| | |[]| |]]. destruct H as [<- Hv]. split_and!; [done| |done].
    exists observed. by rewrite Hr, Hh, Ews. }
  apply wp_try. simpl fst. simpl snd. destruct c as [m|].
  - destruct (Hc m eq_refl) as (Hm & Hh & Hr & Hth). apply (Hfin m w1); [done..|lia].
  - eapply world_wp_mono; [apply wp_publish_delta; [by eapply seen_packs_stored|exact Hcf]|].
    intros [m|e] w2 Hle2 H; [|by destruct e as [| | |[]| |]].
    destruct H as (Hm & Hh & Hr & Hp). by apply Hfin.
Qed.

(** ** Reading *)

Definition hydrate_post (key : string) (w : World) (r : result HydrateError (Z * ParentState)) (w' : World) : Prop :=
  match r with
  | Ok (_, ps) => ∃ n, length (hist key w) ≤ n ∧ seen w' key n ps
  | Err _ => True
  end.

Lemma wp_hydrate_for_write community owner repo materialize w :
  wp (hydrate_for_write community owner repo materialize) (hydrate_post (pointer_key community owner repo) w) w.
Proof.
  apply wp_try. eapply world_wp_mono; [apply wp_load_pointer|]. intros [[[[e d] m]|]|err] w' _ H; [| |exact I]; simpl in H |- *.
  - destruct (materialize (Some m)); [|exact I]. destruct H as (j & Hj & Hs). by exists (S j).
  - destruct (materialize None); [|exact I]. exists 0. by rewrite H.
Qed.

(** What the metadata reader answers: a publication no older than the request. *)
Definition read_post (key : string) (w : World) (r : result HydrateError (option Manifest)) (w' : World) : Prop :=
  match r with
  | Ok None => hist key w = []
  | Ok (Some m) => ∃ j k, length (hist key w) ≤ S j ∧ version_at w' key j m k
  | Err e => backend_failure e
  end.

Lemma wp_load_manifest_for_read community owner repo w :
  wp (load_manifest_for_read community owner repo) (read_post (pointer_key community owner repo) w) w.
Proof.
  apply wp_try. eapply world_wp_mono; [apply wp_load_pointer|]. intros [[[[e d] m]|]|err] w' _ H; [|done|done].
  destruct H as (j & Hj & Hs). exists j, ("manifests/" +:+ d). split; [done|].
  destruct Hs as (e' & d' & m' & [= <- <- <-] & He & Hm). exists d. split_and!; [done| |done].
  by eapply lookup_entries_hist.
Qed.

(** ** Pushing *)

Record push_post (key : string) (w0 : World) (env : PushEnv) (o : PushOutcome) (w : World) : Prop := {
  post_success s : po_success o = Some s → ∃ ps n observed,
    po_parent o = Some ps ∧ length (hist key w0) ≤ n ∧ seen w key n ps ∧
    version_at w key n (manifest s) (manifest_key s) ∧
    ws_snapshot (pe_workspace env ps) = Ok (refs (manifest s), observed) ∧
    (length (packs (ps_parent ps)) < PACK_COMPACTION_THRESHOLD → packs (ps_parent ps) ⊆ packs (manifest s));
  post_accepted pack : po_pack o = Some pack → pack_ok pack = true → po_status o = 200%Z →
    ∃ s, po_success o = Some s ∧ po_announced o = Some (manifest s);
  post_announced m : po_announced o = Some m → ∃ s, po_success o = Some s ∧ m = manifest s;
  post_conflict pack : po_pack o = Some pack → po_status o = 409%Z → ∃ ps n,
    po_parent o = Some ps ∧ po_success o = None ∧ length (hist key w0) ≤ n ∧ seen w key n ps ∧
    n < length (hist key w)
}.

Lemma push_post_le key w0 env o w w' : world_le w w' → push_post key w0 env o w → push_post key w0 env o w'.
Proof.
  intros Hle [Hs Ha Hn Hc]. constructor; [|done|done|].
  - intros s Ho. destruct (Hs s Ho) as (ps & n & obs & ? & ? & ? & ? & ? & ?). exists ps, n, obs.
    split_and!; [done|done|by eapply seen_le|by eapply version_at_le|done|done].
  - intros pack Hp Ho. destruct (Hc pack Hp Ho) as (ps & n & ? & ? & ? & ? & ?). exists ps, n.
    split_and!; [done|done|done|by eapply seen_le|].
    pose proof (prefix_length _ _ (hist_le key _ _ Hle)). lia.
Qed.

(** The digest of a publication differs from its parent's: the announcement is never skipped. *)
Lemma manifest_always_changed w key n ps s :
  is_pointer key → world_ok w → seen w key n ps → version_at w key n (manifest s) (manifest_key s) →
  manifest_changed ps s = true.
Proof.
  intros Hkey Hok Hseen (d & Hk & Hd & _). unfold manifest_changed.
  rewrite (seen_digest _ _ _ _ Hseen), Hk, strip_prefix_app. destruct n as [|j]; [done|]. simpl.
  destruct (hist key w !! j) as [d0|] eqn:Hj; [|done].
  destruct (d0 =? d)%string eqn:E; [|done]. boolify. subst d0. exfalso.
  assert (j = S j); [|lia]. eapply NoDup_lookup; [|done|done].
  eapply (chain_NoDup w); [done|]. by apply ok_chain.
Qed.

Lemma push_post_quiet key w0 env o w :
  po_success o = None → po_announced o = None → (po_status o = 200%Z → ∀ pack, po_pack o = Some pack → pack_ok pack = false) →
  (po_status o = 409%Z → po_pack o = None) → push_post key w0 env o w.
Proof. intros Hs Ha H2 H4. constructor; [congruence| |congruence|]; intros pack Hp.
  - intros Hok Hst. rewrite (H2 Hst pack Hp) in Hok. done.
  - intros Hst. rewrite (H4 Hst) in Hp. done.
Qed.

Lemma wp_finalize_push w0 w community owner repo env hydrated n ps pack :
  let key := pointer_key community owner repo in
  world_ok w → length (hist key w0) ≤ n → seen w key n ps →
  wp (finalize_push community owner repo env hydrated ps pack) (push_post key w0 env) w.
Proof.
  intros key Hok Hn Hseen. unfold finalize_push. cbv zeta.
  assert (Hnone : ∀ w', push_post key w0 env (respond 503 (Some ps) (Some pack) None None) w') by (intros; apply push_post_quiet; done || congruence).
  destruct (pack_ok pack) eqn:Ep; simpl negb; cbv iota; [|by apply push_post_quiet; [..|intros _ p [= <-]|]].
  destruct (pe_acquire env); [|apply Hnone]. destruct (pe_verify env); [|apply Hnone]. cbn [negb].
  set (limits := Build_PublishLimits _ _ _). unfold protect.
  destruct (pe_protect_verify env); [|apply Hnone]. apply world_wp_bind, world_wp_bind.
  eapply world_wp_mono; [apply wp_ok; [exact Hok|]; apply wp_maybe_cutoff, (wp_cas_publish_inner w _ _ _ _ n), Hseen|].
  intros r w' Hle [Hok' H]. cbn.
  destruct (pe_protect_reverify env); [|apply Hnone]. destruct r as [[s|e]|]; [| |apply Hnone].
  - destruct H as (Hv & (obs & Hws & _) & Hpk).
    assert (Hseen' : seen w' key n ps) by by eapply seen_le.
    assert (manifest_changed ps s = true) as ->
      by by apply (manifest_always_changed w' key n).
    assert (Hgen : ∀ st ann, st ≠ 409%Z → (st = 200%Z → ann = Some (manifest s)) → ann = None ∨ ann = Some (manifest s) →
      push_post key w0 env (respond st (Some ps) (Some pack) (Some s) ann) w').
    { intros st ann H4 H2 Hann. constructor; [|by eauto| |done].
      - intros s' [= <-]. by exists ps, n, obs.
      - intros m Hm. exists s. split; [done|]. simpl in Hm. destruct Hann; congruence. }
    destruct (pe_event_stored env), (pe_finish env); cbn; apply Hgen; auto; done.
  - destruct e as [wm wk| | | | |]; try (by apply push_post_quiet). destruct H as (j & Hj & Hv).
    constructor; [done|by intros|done|]. intros pack' _ _. exists ps, n.
    split_and!; [done|done|done|by eapply seen_le|]. destruct Hv as (d & _ & Hd & _).
    apply lookup_lt_Some in Hd. eapply Nat.le_lt_trans; [exact Hj|exact Hd].
Qed.

Lemma wp_receive_pack w community owner repo env :
  let key := pointer_key community owner repo in
  world_ok w →
  wp (receive_pack community owner repo env) (push_post key w env) w.
Proof.
  intros key Hok. unfold receive_pack.
  destruct (transport_validate_repo_id owner repo) as [name|e]; [|by apply push_post_quiet].
  destruct (negb (pe_permit env)); [by apply push_post_quiet|].
  apply world_wp_bind. eapply world_wp_mono; [apply wp_ok; [exact Hok|]; apply wp_hydrate_for_write|].
  intros [[hydrated ps]|e] w' Hle [Hok' H]; [|by apply push_post_quiet].
  destruct H as (n & Hn & Hseen). destruct (pe_install_hook env); [|by apply push_post_quiet]. cbn.
  destruct (pe_receive env ps) as [[exit_ok out]|st]; [|by apply push_post_quiet].
  by apply (wp_finalize_push w w' community owner repo env hydrated n).
Qed.

(** ** Announcing *)

Lemma empty_manifest_publishable : publishable empty_manifest.
Proof. apply validate_ok. vm_compute. reflexivity. Qed.

Lemma published_empty w bytes :
  canonical_bytes empty_manifest = Ok bytes → stored ("manifests/" +:+ sha256_hex bytes) bytes w →
  published w None (sha256_hex bytes) empty_manifest.
Proof.
  intros Hb Hs. constructor; [|apply empty_manifest_publishable|done|by intros p Hp%elem_of_nil].
  exists bytes. split; [done|]. by apply canonical_from_bytes.
Qed.

(** Announcing succeeds only on a pointer whose first publication is the empty manifest. *)
Lemma wp_seed_manifest_pointer community owner repo w :
  let key := pointer_key community owner repo in
  wp (seed_manifest_pointer community owner repo)
     (λ r w', r = Ok tt → ∃ k, version_at w' key 0 empty_manifest k) w.
Proof.
  intros key. assert (Hkey : is_pointer key) by apply pointer_key_is_pointer.
  unfold seed_manifest_pointer. rewrite (proj2 (validate_ok _) empty_manifest_publishable).
  destruct (canonical_bytes_total empty_manifest) as [bytes Hbytes]. rewrite Hbytes.
  apply wp_try. eapply world_wp_mono; [apply wp_put_manifest|]. intros [k|e] w1 _ Hk; [|by intros ?].
  destruct Hk as [-> Hst]. rewrite strip_prefix_app. fold key. cbv zeta.
  pose proof (published_empty w1 bytes Hbytes Hst) as Hpub. set (d := sha256_hex bytes) in *.
  apply wp_try. eapply world_wp_mono.
  { apply (wp_put_pointer key d IfNoneMatchStar w1 Hkey). intros w2 Hle2 _ Hpre. exists empty_manifest.
    unfold hist. rewrite fmap_last. simpl in Hpre. rewrite Hpre. by eapply published_le. }
  intros [[etag|]|e] w3 Hle3 Hr; [| |by intros ?].
  - destruct Hr as (w2 & Hle12 & Hle23 & _ & _ & Hpre & Hhist). intros _. exists ("manifests/" +:+ d), d.
    simpl in Hpre. apply last_None in Hpre. unfold hist in Hhist at 2. rewrite Hpre in Hhist.
    split_and!; [done|by rewrite Hhist|]. simpl prev_of.
    eapply (published_le w1); [by etrans|done].
  - apply wp_try. eapply world_wp_mono; [apply wp_get_pointer|].
    intros [[[e b]|]|err] w4 Hle4 (_ & Hok4 & Hb); [|by intros ?..].
    destruct (last_entries_lookup _ _ _ _ Hb) as (j & Hj%lookup_entries_hist & _).
    destruct (history_published _ _ _ _ Hok4 Hkey Hj) as [m Hm].
    destruct (digest_text b (published_digest _ _ _ _ Hok4 Hm)) as [-> _].
    destruct (b =? d)%string eqn:E; boolify; [|by intros ?]. subst b. intros _.
    assert (Hpub4 : published w4 None d empty_manifest) by by do 2 (eapply published_le; [eassumption|]).
    destruct (published_unique _ _ _ _ _ _ Hok4 Hm Hpub4) as [-> Hprev].
    assert (j = 0) as ->.
    { destruct j as [|i]; [done|]. simpl in Hprev. apply lookup_ge_None in Hprev. apply lookup_lt_Some in Hj. lia. }
    exists ("manifests/" +:+ d), d. by split_and!.
Qed.

Lemma wp_ensure_manifest_pointer community owner repo w :
  let key := pointer_key community owner repo in
  wp (ensure_manifest_pointer community owner repo) (λ r w', r = Ok tt → hist key w' ≠ []) w.
Proof.
  intros key. apply wp_try. eapply world_wp_mono; [apply wp_get_pointer|]. fold key.
  intros [[[e d]|]|err] w1 _ (_ & _ & Hr); [| |by intros ?].
  - intros _. unfold hist. intros Hn%fmap_nil_inv. by rewrite Hn in Hr.
  - eapply world_wp_mono; [apply wp_seed_manifest_pointer|]. fold key. intros r w' _ H Hok.
    destruct (H Hok) as (k & d & _ & Hd & _). intros Hn. by rewrite Hn in Hd.
Qed.

End props.
