(* ===== verification/GitMemory.v ===== *)
(** * A concrete bucket

    An instance of the interfaces of [ObjectStore] and [GitManifest] on which
    the handlers can be evaluated: a bucket that is a finite map and always
    answers, whose ETag of an object is its body, and a digest that prints a
    rolling sum.  Manifests are printed by [mem_serde] of [GitManifest]. *)
From S2P Require Import Prelude Channel Nostr GitManifest ObjectStore.

(** ** The bucket *)

Definition mem_response (code : Z) (etag : option string) (len : option Z) (b : string) : S3Response :=
  Ok {| status_code := code; etag_header := etag; content_length := len; body := b |}.
Definition mem_missing : S3Response := Err (HttpFailWithBody 404 "").
Definition mem_precond_failed : S3Response := Err (HttpFailWithBody 412 "").

Definition mem_precond (c : Precond) (current : option (string * string)) : bool :=
  match c, current with
  | IfNoneMatchStar, None => true
  | IfMatch e, Some (e', _) => (e' =? e)%string
  | _, _ => false
  end.

(** [None] as ETag never occurs; the tag of an object is its body. *)
Definition mem_serve (s : gmap string string) (r : S3Request) : S3Response * gmap string string :=
  match r with
  | GetObject k => (match s !! k with Some b => mem_response 200 (Some b) None b | None => mem_missing end, s)
  | HeadObject k =>
      (match s !! k with Some b => mem_response 200 (Some b) (Some (str_size b)) "" | None => mem_missing end, s)
  | PutObject k b c =>
      if mem_precond c ((λ x, (x, x)) <$> s !! k) then (mem_response 200 (Some b) None "", <[k := b]> s)
      else (mem_precond_failed, s)
  end.

#[export] Instance mem_s3 : S3Lib := {|
  Bucket := gmap string string;
  bucket_objects s := (λ b, (b, b)) <$> s;
  issued _ _ e b := e = b;
  serve s r resp s' := mem_serve s r = (resp, s');
  header_value_ok _ := true
|}.

Lemma mem_precond_spec c cur : mem_precond c cur = true ↔ precond_holds c cur.
Proof.
  destruct c as [|e], cur as [[e' b]|]; simpl; [done|done| |].
  - rewrite String.eqb_eq. split; [intros ->; by exists b|by intros [? [= -> _]]].
  - split; [done|by intros [? [=]]].
Qed.

#[export] Instance mem_s3_laws : S3Laws mem_s3.
Proof.
  constructor.
  - intros s key resp s' H. cbn in s, s', H. unfold mem_missing, mem_response in H. injection H as <- <-. split_and!; [done| |].
    + intros d Hd. cbn. rewrite lookup_fmap. destruct (s !! key) as [b|]; [|done].
      injection Hd as <-. exists b. cbn. split; [done|]. by intros h [= <-].
    + intros H4. cbn. rewrite lookup_fmap. destruct (s !! key); [|done].
      destruct H4 as [[m [=]]|(d & [= <-] & ?)]. done.
  - intros s key resp s' H. cbn in s, s', H. unfold mem_missing, mem_response in H. injection H as <- <-. split; [done|].
    intros H4. cbn. rewrite lookup_fmap. destruct (s !! key); [|done].
    destruct H4 as [[m [=]]|(d & [= <-] & ?)]. done.
  - intros s key bytes c resp s' H. cbn in s, s', H. unfold mem_precond_failed, mem_response in H.
    destruct (mem_precond c _) eqn:E; injection H as <- <-.
    + exists (Some bytes). apply put_done; [|cbn; by rewrite fmap_insert|by intros [m [=]]].
      cbn. rewrite lookup_fmap. by apply mem_precond_spec.
    + exists None. apply put_nothing; [done|done|]. intros _ Hp. apply mem_precond_spec in Hp.
      cbn in Hp. rewrite lookup_fmap in Hp. congruence.
  - intros s key e b H. cbn in s, H |- *. rewrite lookup_fmap in H. destruct (s !! key); simplify_eq/=. done.
  - intros s key e b b'. cbn. congruence.
  - done.
Qed.

(** ** The digest *)

Definition hex_digit (n : N) : ascii := ascii_of_N (if (n <? 10)%N then 48 + n else 87 + n).

Fixpoint hex_digits (k : nat) (n : N) : string :=
  match k with
  | O => ""
  | S k' => String (hex_digit (n mod 16)) (hex_digits k' (n / 16))
  end.

(** A 16-bit rotation and addition per character. *)
Fixpoint rot_hash (b : string) (acc : N) : N :=
  match b with
  | EmptyString => acc
  | String c b' => rot_hash b' (N.land (N.shiftl acc 3 + N.shiftr acc 11 + N_of_ascii c) 65535)
  end.

#[export] Instance mem_digest : DigestLib := {| sha256_hex b := hex_digits 64 (rot_hash b 1) |}.

Lemma hex_digit_lower n : (n < 16)%N → is_lower_hexdigit (hex_digit n) = true.
Proof.
  intros H. assert (Hin : n ∈ N_of_nat <$> seq 0 16).
  { apply list_elem_of_fmap. exists (N.to_nat n). rewrite elem_of_seq. lia. }
  clear H. revert n Hin. apply Forall_forall. vm_compute. by repeat constructor.
Qed.

#[export] Instance mem_digest_laws : DigestLaws mem_digest.
Proof.
  constructor. intros b. cbn [sha256_hex mem_digest]. unfold is_manifest_digest.
  assert (H : ∀ k n, (String.length (hex_digits k n) =? k) && str_forall is_lower_hexdigit (hex_digits k n) = true).
  { induction k as [|k IH]; intros n; [done|]. cbn [hex_digits String.length str_forall].
    specialize (IH (n / 16)%N). apply andb_true_iff in IH as [Hl Hd].
    rewrite hex_digit_lower by (apply N.mod_lt; done). by rewrite Hd, andb_true_r. }
  apply H.
Qed.
