(* ===== verification/GitSystem.v ===== *)
(** * Concurrent git handlers

    The handlers of [GitPublish] running together on one bucket, any number of
    them, on any number of relays.  A step starts a handler or executes one
    request of one; a handler that is dropped, or whose relay dies, is one that
    takes no further step.  Everything holds of an execution in which SHA-256
    has no collision among the bodies that were sent. *)
From S2P Require Import Prelude Channel Nostr GitManifest GitReport ObjectStore GitPublish GitPublishWorld GitPublishProps GitMemory.

Section system.
Context {L : NostrLib} {D : DigestLib} {B : S3Lib} {SL : SerdeLib}.

(** ** The system *)

Inductive Job :=
  | PushJob (community : Uuid) (owner repo : string) (env : PushEnv)
  | SeedJob (community : Uuid) (owner repo : string)
  | EnsureJob (community : Uuid) (owner repo : string)
  | ReadJob (community : Uuid) (owner repo : string).

Inductive Outcome :=
  | PushDone (o : PushOutcome)
  | AnnounceDone (r : result string unit)
  | ReadDone (r : result HydrateError (option Manifest)).

Definition run (j : Job) : Prog Outcome :=
  match j with
  | PushJob c o r env => x ← receive_pack c o r env; Ret (PushDone x)
  | SeedJob c o r => x ← seed_manifest_pointer c o r; Ret (AnnounceDone x)
  | EnsureJob c o r => x ← ensure_manifest_pointer c o r; Ret (AnnounceDone x)
  | ReadJob c o r => x ← load_manifest_for_read c o r; Ret (ReadDone x)
  end.

(** [started]: the world at the start of the handler. *)
Record Task := { job : Job; started : World; code : Prog Outcome }.

Record System := { world : World; tasks : list Task }.

Inductive step (s : System) : System → Prop :=
  | step_spawn j :
      step s {| world := world s; tasks := tasks s ++ [{| job := j; started := world s; code := run j |}] |}
  | step_request i t r k resp w' :
      tasks s !! i = Some t → code t = Req r k → world_step (world s) r resp w' →
      step s {| world := w'; tasks := <[i := {| job := job t; started := started t; code := k resp |}]> (tasks s) |}.

(** An empty bucket, and no handler. *)
Definition initial (s : System) : Prop :=
  bucket_objects (bucket (world s)) = ∅ ∧ written (world s) = [] ∧ attempted (world s) = [] ∧ tasks s = [].

Definition reachable (s : System) : Prop := ∃ s0, initial s0 ∧ rtc step s0 s.

Definition no_collision (s : System) : Prop := collision_free (attempted (world s)).

(** A handler for [j], started in [w0], has returned [o]. *)
Definition returned (s : System) (j : Job) (w0 : World) (o : Outcome) : Prop :=
  {| job := j; started := w0; code := Ret o |} ∈ tasks s.

(** ** The invariant *)

Definition job_post (j : Job) (w0 : World) (o : Outcome) (w : World) : Prop :=
  match j, o with
  | PushJob c ow r env, PushDone x => push_post (pointer_key c ow r) w0 env x w
  | SeedJob c ow r, AnnounceDone x => x = Ok tt → ∃ k, version_at w (pointer_key c ow r) 0 empty_manifest k
  | EnsureJob c ow r, AnnounceDone x => x = Ok tt → hist (pointer_key c ow r) w ≠ []
  | ReadJob c ow r, ReadDone x => read_post (pointer_key c ow r) w0 x w
  | _, _ => False
  end.

Context {DL : DigestLaws D} {BL : S3Laws B} {SLL : SerdeLaws SL}.

Lemma job_post_le j w0 o w w' : world_le w w' → job_post j w0 o w → job_post j w0 o w'.
Proof.
  intros Hle. destruct j as [c ow r env|c ow r|c ow r|c ow r], o as [x|x|x]; simpl; try done.
  - by apply push_post_le.
  - intros H Hx. destruct (H Hx) as [k Hk]. exists k. by eapply version_at_le.
  - intros H Hx Hn. specialize (H Hx). destruct (hist_le (pointer_key c ow r) _ _ Hle) as [l Hl].
    rewrite Hn in Hl. symmetry in Hl. by apply app_nil in Hl as [? _].
  - destruct x as [[m|]|e]; simpl; [|done..]. intros (i & k & Hi & Hv). exists i, k. split; [done|].
    by eapply version_at_le.
Qed.

Lemma wp_run j w : world_ok w → wp (run j) (job_post j w) w.
Proof.
  intros Hok. destruct j as [c ow r env|c ow r|c ow r|c ow r]; apply world_wp_bind; eapply world_wp_mono.
  - by apply wp_receive_pack.
  - by intros.
  - apply wp_seed_manifest_pointer.
  - by intros.
  - apply wp_ensure_manifest_pointer.
  - by intros.
  - apply wp_load_manifest_for_read.
  - by intros.
Qed.

Record sys_ok (s : System) : Prop := {
  sys_world : world_ok (world s);
  sys_tasks t : t ∈ tasks s → world_le (started t) (world s) ∧ wp (code t) (job_post (job t) (started t)) (world s)
}.

Lemma step_world_le s s' : step s s' → world_le (world s) (world s').
Proof. intros H. destruct H; [done|]. by eapply world_step_le. Qed.

Lemma steps_world_le s s' : rtc step s s' → world_le (world s) (world s').
Proof. induction 1 as [s|s s1 s2 H _ IH]; [done|]. etrans; [by apply step_world_le|done]. Qed.

Lemma collision_free_subset l l' : l ⊆ l' → collision_free l' → collision_free l.
Proof. intros Hl H b1 b2 H1 H2. apply H; by apply Hl. Qed.

Lemma step_sys_ok s s' : step s s' → no_collision s' → sys_ok s → sys_ok s'.
Proof.
  intros Hstep Hcf [Hw Ht]. destruct Hstep as [j|i t r k resp w' Hi Hc Hws].
  - constructor; [done|]. simpl. intros t [Hin|Hin%list_elem_of_singleton]%elem_of_app; [by apply Ht|].
    subst t. simpl. split; [done|]. by apply wp_run.
  - assert (Hle : world_le (world s) w') by by eapply world_step_le.
    destruct (Ht t) as [Hs Hwp]; [by eapply list_elem_of_lookup_2|]. rewrite Hc in Hwp.
    destruct (Hwp (world s) resp w') as [Hok' Hk]; [done..|].
    constructor; [done|]. simpl. intros t' Hin. apply list_elem_of_lookup in Hin as [i' Hi'].
    apply list_lookup_insert_Some in Hi' as [(-> & <- & _)|[_ Hi']]; simpl; [split; [by etrans|done]|].
    destruct (Ht t') as [Hs' Hwp']; [by eapply list_elem_of_lookup_2|]. split; [by etrans|].
    eapply wp_le; [done| |done]. intros a. by apply job_post_le.
Qed.

Lemma initial_ok s : initial s → sys_ok s.
Proof.
  intros (Hb & Hw & Ha & Ht). constructor.
  - constructor; unfold stored, hist, entries; rewrite ?Hw; simpl.
    + intros key. by rewrite Hb, lookup_empty.
    + by intros key b Hin%elem_of_nil.
    + by intros p d b _ Hin%elem_of_nil.
    + by intros key e b Hin%elem_of_nil.
    + by intros key _ i d Hi.
  - intros t. rewrite Ht. by intros Hin%elem_of_nil.
Qed.

Lemma steps_sys_ok s s' : rtc step s s' → no_collision s' → sys_ok s → sys_ok s'.
Proof.
  induction 1 as [s|s s1 s2 H1 Hr IH]; intros Hcf Hok; [done|]. apply IH; [done|].
  eapply step_sys_ok; [done| |done]. eapply collision_free_subset; [|exact Hcf]. by apply steps_world_le.
Qed.

Lemma reachable_ok s : reachable s → no_collision s → sys_ok s.
Proof. intros (s0 & H0 & Hsteps) Hcf. eapply steps_sys_ok; [done|done|]. by apply initial_ok. Qed.

Lemma returned_post s j w0 o :
  reachable s → no_collision s → returned s j w0 o → world_le w0 (world s) ∧ job_post j w0 o (world s).
Proof. intros Hr Hcf Ho. destruct (reachable_ok s Hr Hcf) as [_ Ht]. by apply (Ht _ Ho). Qed.

(** ** The history of a pointer *)

(** C2: In every execution of any number of concurrent pushes, announcements and reads on an
    initially empty bucket without a SHA-256 collision, the history of a repository pointer only
    grows, never repeats a digest, its last entry is the current pointer, and each entry names a
    stored, publishable manifest whose parent is the entry before it and whose packs are all
    stored: no fork, no lost update, no dangling reference. *)
Theorem published_history_linear s s' key :
  reachable s → rtc step s s' → no_collision s' → is_pointer key →
  hist key (world s) `prefix_of` hist key (world s') ∧
  NoDup (hist key (world s')) ∧
  snd <$> bucket_objects (bucket (world s')) !! key = last (hist key (world s')) ∧
  ∀ i d, hist key (world s') !! i = Some d → ∃ m, published (world s') (prev_of (hist key (world s')) i) d m.
Proof.
  intros (s0 & H0 & Hs) Hs' Hcf Hkey.
  destruct (reachable_ok s') as [Hw _]; [exists s0; split; [done|by etrans]|done|].
  split_and!.
  - by apply hist_le, steps_world_le.
  - eapply chain_NoDup; [done|]. by apply ok_chain.
  - rewrite (ok_current _ Hw). unfold hist. by rewrite fmap_last.
  - by apply ok_chain.
Qed.

(** ** Pushes *)

(** C4: A push answered with 200 whose receive-pack succeeded has committed a manifest with
    exactly the refs of its workspace as the direct successor of the parent it was hydrated
    from; the manifest keeps the packs of the parent below the compaction threshold, is the one
    announced, and is still at its place in the history in every later state. *)
Theorem push_success_is_durable s s' community owner repo env w0 o pack :
  let key := pointer_key community owner repo in
  reachable s → rtc step s s' → no_collision s' →
  returned s (PushJob community owner repo env) w0 (PushDone o) →
  po_pack o = Some pack → pack_ok pack = true → po_status o = 200%Z →
  ∃ ps n m k observed,
    po_parent o = Some ps ∧ po_announced o = Some m ∧ ws_snapshot (pe_workspace env ps) = Ok (refs m, observed) ∧
    length (hist key w0) ≤ n ∧ seen (world s') key n ps ∧ version_at (world s') key n m k ∧
    (length (packs (ps_parent ps)) < PACK_COMPACTION_THRESHOLD → packs (ps_parent ps) ⊆ packs m).
Proof.
  intros key Hr Hs Hcf Ho Hpack Hok Hst. pose proof (steps_world_le _ _ Hs) as Hle.
  assert (Hcf0 : no_collision s) by (eapply collision_free_subset; [apply Hle|done]).
  destruct (returned_post s _ _ _ Hr Hcf0 Ho) as [_ Hp].
  destruct (post_accepted _ _ _ _ _ Hp pack Hpack Hok Hst) as (su & Hsu & Hann).
  destruct (post_success _ _ _ _ _ Hp su Hsu) as (ps & n & obs & ? & ? & ? & ? & ? & ?).
  exists ps, n, (manifest su), (manifest_key su), obs.
  split_and!; [done|done|done|done|by eapply seen_le|by eapply version_at_le|done].
Qed.

(** C31: A push answered with 409 has committed and announced nothing, and another manifest
    derived from the same parent had already been published when it was answered. *)
Theorem push_conflict_truthful s community owner repo env w0 o pack :
  let key := pointer_key community owner repo in
  reachable s → no_collision s → returned s (PushJob community owner repo env) w0 (PushDone o) →
  po_pack o = Some pack → po_status o = 409%Z →
  po_success o = None ∧ po_announced o = None ∧
  ∃ ps n d m, po_parent o = Some ps ∧ length (hist key w0) ≤ n ∧ seen (world s) key n ps ∧
    hist key (world s) !! n = Some d ∧ published (world s) (parent_digest ps) d m.
Proof.
  intros key Hr Hcf Ho Hpack Hst. destruct (returned_post s _ _ _ Hr Hcf Ho) as [_ Hp].
  destruct (post_conflict _ _ _ _ _ Hp pack Hpack Hst) as (ps & n & Hps & Hnone & Hn & Hseen & Hlen).
  split_and!; [done| |].
  - destruct (po_announced o) as [m|] eqn:E; [|done].
    destruct (post_announced _ _ _ _ _ Hp m E) as (su & Hsu & _). congruence.
  - apply lookup_lt_is_Some in Hlen as [d Hd].
    destruct (history_published _ _ _ _ (sys_world _ (reachable_ok _ Hr Hcf)) (pointer_key_is_pointer _ _ _) Hd) as [m Hm].
    exists ps, n, d, m. split_and!; [done..|]. by rewrite (seen_digest _ _ _ _ Hseen).
Qed.

(** ** Denied pushes *)

(** Every request the program can send is a read. *)
Fixpoint reads_only {A} (p : Prog A) : Prop :=
  match p with
  | Ret _ => True
  | Req (PutObject _ _ _) _ => False
  | Req _ k => ∀ resp, reads_only (k resp)
  end.

Lemma reads_only_bind {A C} (f : A → Prog C) (p : Prog A) :
  reads_only p → (∀ a, reads_only (f a)) → reads_only (p ≫= f).
Proof. intros Hp Hf. induction p as [a|r k IH]; [apply Hf|]. destruct r; [intros resp; by apply IH..|done]. Qed.

Lemma reads_only_try {E F A C} (conv : E → F) (p : Prog (result E A)) (f : A → Prog (result F C)) :
  reads_only p → (∀ a, reads_only (f a)) → reads_only (try_with conv p f).
Proof. intros Hp Hf. apply reads_only_bind; [done|]. by intros [a|e]. Qed.

Lemma load_pointer_reads community owner repo : reads_only (load_pointer community owner repo).
Proof.
  apply reads_only_try; [by intros resp|]. intros [[e b]|]; [|exact I].
  destruct (utf8_trim b) as [d|]; [|exact I]. destruct (negb _); [exact I|].
  apply reads_only_try; [|by intros]. apply reads_only_bind; [|by intros]. apply reads_only_try; [|by intros].
  intros resp. unfold read_within. repeat (case_match; try exact I); apply reads_only_try; try (by intros); by intros ?.
Qed.

(** C6: When receive-pack fails or its report contains a rejected ref, the push handler sends
    only reads to the object store, whatever the store answers. *)
Theorem denied_push_publishes_nothing community owner repo env :
  (∀ ps exit_ok out, pe_receive env ps = Ok (exit_ok, out) →
     exit_ok = false ∨ receive_pack_report_rejected out = true) →
  reads_only (receive_pack community owner repo env).
Proof.
  intros Hdenied. unfold receive_pack. destruct (transport_validate_repo_id owner repo); [|exact I].
  destruct (negb (pe_permit env)); [exact I|]. apply reads_only_bind.
  - apply reads_only_try; [apply load_pointer_reads|]. by intros [[[e d] m]|].
  - intros [[hydrated ps]|e]; [|exact I]. destruct (negb (pe_install_hook env)); [exact I|].
    destruct (pe_receive env ps) as [[exit_ok out]|st] eqn:E; [|exact I].
    unfold finalize_push, pack_output. cbn [pack_ok]. destruct (Hdenied _ _ _ E) as [-> | ->]; [done|].
    by rewrite andb_false_r.
Qed.

(** ** Reads *)

(** C8: A metadata read that overlaps any writers returns a publishable manifest whose packs are
    stored and that is at least as new as the request, or that the repository was unpublished
    when the request started; it fails only with a backend error or the size limit, never with a
    missing, mismatching or malformed object. *)
Theorem reads_never_see_corruption s community owner repo w0 r :
  let key := pointer_key community owner repo in
  reachable s → no_collision s → returned s (ReadJob community owner repo) w0 (ReadDone r) →
  match r with
  | Ok (Some m) => publishable m ∧ (∀ p, p ∈ packs m → ∃ b, stored p b (world s)) ∧
      ∃ j k, length (hist key w0) ≤ S j ∧ version_at (world s) key j m k
  | Ok None => hist key w0 = []
  | Err e => (∃ x, e = HydrateStore (Backend x)) ∨ ∃ x, e = HydrateResourceLimit x
  end.
Proof.
  intros key Hr Hcf Ho. destruct (returned_post s _ _ _ Hr Hcf Ho) as [_ Hp]. simpl in Hp.
  destruct r as [[m|]|e]; [|done|done]. destruct Hp as (j & k & Hj & Hv).
  destruct Hv as (d & Hk & Hd & Hm). split_and!; [apply Hm|apply Hm|]. exists j, k. split; [done|]. by exists d.
Qed.

(** ** Announcements *)

(** Seeding a repository succeeds only if the first publication of its pointer is the empty
    manifest, in this and in every later state, and ensuring the pointer succeeds only when a
    pointer exists; neither ever removes a publication. *)
Theorem announcement_never_overwrites s s' community owner repo w0 :
  let key := pointer_key community owner repo in
  reachable s → rtc step s s' → no_collision s' →
  (returned s (SeedJob community owner repo) w0 (AnnounceDone (Ok tt)) →
     ∃ k, version_at (world s') key 0 empty_manifest k) ∧
  (returned s (EnsureJob community owner repo) w0 (AnnounceDone (Ok tt)) →
     bucket_objects (bucket (world s')) !! key ≠ None ∧ hist key (world s) `prefix_of` hist key (world s')).
Proof.
  intros key Hr Hs Hcf. pose proof (steps_world_le _ _ Hs) as Hle.
  assert (Hcf0 : no_collision s) by (eapply collision_free_subset; [apply Hle|done]).
  split; intros Ho; destruct (returned_post s _ _ _ Hr Hcf0 Ho) as [_ Hp].
  - destruct (Hp eq_refl) as [k Hk]. exists k. by eapply version_at_le.
  - specialize (Hp eq_refl). fold key in Hp. pose proof (hist_le key _ _ Hle) as [l Hl].
    split; [|by exists l].
    destruct (reachable_ok s') as [Hw _]; [destruct Hr as (s0 & ? & ?); exists s0; split; [done|by etrans]|done|].
    rewrite (ok_current _ Hw). intros Hn%last_None. apply Hp.
    assert (H : hist key (world s') = []) by (unfold hist; by rewrite Hn).
    rewrite H in Hl. symmetry in Hl. by apply app_nil in Hl as [? _].
Qed.

End system.

(** ** An execution on a concrete bucket *)

(** [GitMemory]'s bucket, with the recording of [World]. *)
Definition mem_world_step (w : World) (r : S3Request) : S3Response * World :=
  let '(resp, b') := mem_serve (bucket w) r in
  (resp, {| bucket := b';
            written := match r with
                       | PutObject k b c =>
                           if mem_precond c (bucket_objects (bucket w) !! k) then written w ++ [(k, (b, b))] else written w
                       | _ => written w
                       end;
            attempted := match r with PutObject _ b _ => b :: attempted w | _ => attempted w end |}).

Lemma mem_world_step_ok w r resp w' : mem_world_step w r = (resp, w') → world_step w r resp w'.
Proof.
  destruct w as [s wr att]. unfold mem_world_step. cbn [bucket written attempted]. intros H.
  destruct r as [k|k|k b c]; [injection H as <- <-; by constructor..|].
  cbn in s, H. rewrite lookup_fmap in H. destruct (mem_precond c _) eqn:E; injection H as <- <-.
  - apply (world_put (B := mem_s3) {| bucket := (s : @Bucket mem_s3); written := wr; attempted := att |} k b c _ (<[k := b]> s) (Some b)); cbn; [by rewrite E|].
    apply put_done; cbn; [by rewrite lookup_fmap; apply mem_precond_spec|by rewrite fmap_insert|by intros [m [=]]].
  - apply (world_put (B := mem_s3) {| bucket := (s : @Bucket mem_s3); written := wr; attempted := att |} k b c _ s None); cbn; [by rewrite E|].
    apply put_nothing; [done|done|]. intros _ Hp. apply mem_precond_spec in Hp. cbn in Hp. rewrite lookup_fmap in Hp. congruence.
Qed.

Section schedule.
Context {L : NostrLib}.

Inductive action := Start (j : Job) | Advance (i n : nat).

(** One request of the handler [i], if it still has one. *)
Definition advance (s : System) (i : nat) : System :=
  match tasks s !! i with
  | Some t =>
      match code t with
      | Req r k =>
          let '(resp, w') := mem_world_step (world s) r in
          {| world := w'; tasks := <[i := {| job := job t; started := started t; code := k resp |}]> (tasks s) |}
      | Ret _ => s
      end
  | None => s
  end.

Definition perform (s : System) (a : action) : System :=
  match a with
  | Start j => {| world := world s; tasks := tasks s ++ [{| job := j; started := world s; code := run j |}] |}
  | Advance i n => Nat.iter n (λ s, advance s i) s
  end.

Definition empty_system : System :=
  {| world := {| bucket := (∅ : gmap string string); written := []; attempted := [] |}; tasks := [] |}.

Lemma advance_steps s i : rtc step s (advance s i).
Proof.
  unfold advance. destruct (tasks s !! i) as [t|] eqn:Ht; [|done]. destruct (code t) as [o|r k] eqn:Hc; [done|].
  destruct (mem_world_step (world s) r) as [resp w'] eqn:E. apply rtc_once. eapply step_request; [done..|].
  by apply mem_world_step_ok.
Qed.

Lemma perform_steps s a : rtc step s (perform s a).
Proof.
  destruct a as [j|i n]; [apply rtc_once; constructor|]. induction n as [|n IH]; [done|]. simpl.
  etrans; [exact IH|apply advance_steps].
Qed.

Lemma schedule_steps s acts : rtc step s (foldl perform s acts).
Proof.
  revert s; induction acts as [|a acts IH]; intros s; [done|]. simpl. etrans; [apply perform_steps|apply IH].
Qed.

Lemma schedule_reachable acts : reachable (foldl perform empty_system acts).
Proof. exists empty_system. split; [|apply schedule_steps]. by split_and!. Qed.

(** A schedule fixes the handlers; their outcomes are computed. *)
Definition started_jobs (acts : list action) : list Job :=
  omap (λ a, match a with Start j => Some j | Advance _ _ => None end) acts.

Lemma advance_jobs s i : job <$> tasks (advance s i) = job <$> tasks s.
Proof.
  unfold advance. destruct (tasks s !! i) as [t|] eqn:Ht; [|done]. destruct (code t) as [o|r k]; [done|].
  destruct (mem_world_step (world s) r) as [resp w']. cbn [tasks]. rewrite list_fmap_insert. cbn [job].
  apply list_insert_id. by rewrite list_lookup_fmap, Ht.
Qed.

Lemma schedule_jobs s acts : job <$> tasks (foldl perform s acts) = (job <$> tasks s) ++ started_jobs acts.
Proof.
  revert s; induction acts as [|a acts IH]; intros s; simpl; [by rewrite app_nil_r|]. rewrite IH.
  destruct a as [j|i n]; cbn [perform tasks].
  - by rewrite fmap_app, <- app_assoc.
  - f_equal. induction n as [|n IHn]; [done|]. rewrite Nat.iter_succ. by rewrite advance_jobs.
Qed.

Definition outcome_of (s : System) (i : nat) : option Outcome :=
  t ← tasks s !! i; match code t with Ret o => Some o | Req _ _ => None end.
Definition started_of (s : System) (i : nat) : World :=
  match tasks s !! i with Some t => started t | None => world s end.

Lemma returned_outcome s i j o :
  (job <$> tasks s) !! i = Some j → outcome_of s i = Some o → returned s j (started_of s i) o.
Proof.
  unfold outcome_of, started_of, returned. rewrite list_lookup_fmap. destruct (tasks s !! i) as [t|] eqn:Ht; [|done].
  intros [= <-] Ho. csimpl in Ho. destruct (code t) as [o'|] eqn:Hc; simplify_eq.
  apply list_elem_of_lookup. exists i. rewrite Ht. f_equal. destruct t; simpl in *. by subst.
Qed.

Definition push_of (s : System) (i : nat) : PushOutcome :=
  match outcome_of s i with Some (PushDone o) => o | _ => respond 0 None None None None end.
Definition read_of (s : System) (i : nat) : result HydrateError (option Manifest) :=
  match outcome_of s i with Some (ReadDone r) => r | _ => Ok None end.
Definition has_pushed (s : System) (i : nat) : bool :=
  match outcome_of s i with Some (PushDone _) => true | _ => false end.
Definition has_read (s : System) (i : nat) : bool :=
  match outcome_of s i with Some (ReadDone (Ok (Some _))) => true | _ => false end.
Definition has_announced (s : System) (i : nat) : bool :=
  match outcome_of s i with Some (AnnounceDone (Ok tt)) => true | _ => false end.

Lemma push_of_outcome s i : has_pushed s i = true → outcome_of s i = Some (PushDone (push_of s i)).
Proof. unfold has_pushed, push_of. by destruct (outcome_of s i) as [[]|]. Qed.
Lemma read_of_outcome s i : has_read s i = true → ∃ m, outcome_of s i = Some (ReadDone (Ok (Some m))).
Proof. unfold has_read. destruct (outcome_of s i) as [[| |[[]|]]|]; try done. intros _. by eexists. Qed.
Lemma announced_outcome s i : has_announced s i = true → outcome_of s i = Some (AnnounceDone (Ok tt)).
Proof. unfold has_announced. destruct (outcome_of s i) as [[|[[]|]|]|]; done. Qed.

End schedule.

Definition collision_freeb (l : list string) : bool :=
  forallb (λ b1, forallb (λ b2, negb (sha256_hex b1 =? sha256_hex b2)%string || (b1 =? b2)%string) l) l.

Lemma collision_freeb_ok l : collision_freeb l = true → collision_free l.
Proof.
  unfold collision_freeb. rewrite forallb_forall. intros H b1 b2 H1%list_elem_of_In H2%list_elem_of_In Heq.
  specialize (H b1 H1). rewrite forallb_forall in H. specialize (H b2 H2). rewrite Heq, String.eqb_refl in H.
  by apply String.eqb_eq in H.
Qed.

Definition demo_report : list ascii := pkt_line (bytes_of "unpack ok") ++ hex4 0.

(** Two pushes prepared on the same parent: the first commits, the second conflicts. *)
Definition demo_env (oid pack : string) : PushEnv :=
  {| pe_permit := true; pe_materialize := λ _, Ok 0%Z; pe_install_hook := true;
     pe_receive := λ _, Ok (true, demo_report);
     pe_workspace := λ _,
       {| ws_snapshot := Ok ({["refs/heads/main" := oid]}, "refs/heads/main"); ws_permit := Ok tt;
          ws_compaction := Err (LocalCapture "unused"); ws_compaction_timeout := None;
          ws_delta := Ok pack; ws_index_pack := Err (LocalCapture "no idx") |};
     pe_max_pack_bytes := 1000; pe_max_repo_bytes := 1000; pe_acquire := true; pe_verify := true;
     pe_protect_verify := true; pe_lease_lost := None; pe_protect_reverify := true;
     pe_event_stored := true; pe_finish := true |}.

Definition demo_owner : string := "0123456789abcdef0123456789abcdef0123456789abcdef0123456789abcdef".
Definition demo_env1 := demo_env "1111111111111111111111111111111111111111" "PACK one".
Definition demo_env2 := demo_env "2222222222222222222222222222222222222222" "PACK two".

#[local] Existing Instance slice_lib.

Definition demo_acts1 : list action :=
  [Start (SeedJob 7%N demo_owner "app"); Advance 0 4; Start (EnsureJob 7%N demo_owner "app"); Advance 1 4;
   Start (PushJob 7%N demo_owner "app" demo_env1); Start (PushJob 7%N demo_owner "app.git" demo_env2);
   Advance 2 3; Advance 3 3; Advance 2 5].
Definition demo_acts2 : list action :=
  [Advance 3 8; Start (ReadJob 7%N demo_owner "app"); Advance 4 3].

Definition demo_pushed : System := foldl perform empty_system demo_acts1.
Definition demo : System := foldl perform demo_pushed demo_acts2.

(** Conversion unfolds these before it computes. *)
#[local] Strategy expand [demo_pushed demo].

Definition demo_key : string := pointer_key 7%N demo_owner "app".

Lemma demo_pushed_demo : rtc step demo_pushed demo.
Proof. exact (schedule_steps demo_pushed demo_acts2). Qed.

Lemma demo_pushed_reachable : reachable demo_pushed.
Proof. exact (schedule_reachable demo_acts1). Qed.

Lemma demo_reachable : reachable demo.
Proof.
  destruct demo_pushed_reachable as (s0 & H0 & Hs). exists s0. split; [exact H0|].
  etrans; [exact Hs|exact demo_pushed_demo].
Qed.

Lemma demo_no_collision : no_collision demo.
Proof. apply collision_freeb_ok. vm_compute. reflexivity. Qed.

Lemma demo_pushed_jobs : job <$> tasks demo_pushed = started_jobs demo_acts1.
Proof. exact (schedule_jobs empty_system demo_acts1). Qed.

Lemma demo_jobs : job <$> tasks demo = started_jobs (demo_acts1 ++ demo_acts2).
Proof.
  unfold started_jobs. rewrite omap_app. fold (started_jobs demo_acts1). rewrite <- demo_pushed_jobs.
  exact (schedule_jobs demo_pushed demo_acts2).
Qed.

(** The statuses of the two pushes, the length of the history, and what is read at the end. *)
Definition read_ref (r : result HydrateError (option Manifest)) (name : string) : option string :=
  match r with Ok (Some m) => refs m !! name | _ => None end.
Example demo_results :
  (po_status (push_of demo 2) =? 200)%Z && (po_status (push_of demo 3) =? 409)%Z
  && (length (hist demo_key (world demo)) =? 2)
  && bool_decide (read_ref (read_of demo 4) "refs/heads/main" = Some "1111111111111111111111111111111111111111") = true.
Proof. vm_compute. reflexivity. Qed.

Lemma published_history_linear_witness :
  NoDup (hist demo_key (world demo)) ∧ length (hist demo_key (world demo)) = 2.
Proof.
  split; [|vm_compute; reflexivity].
  apply (published_history_linear demo_pushed demo demo_key);
    [apply demo_pushed_reachable|apply demo_pushed_demo|apply demo_no_collision|vm_compute; reflexivity].
Defined.

Lemma demo_push_returned :
  returned demo_pushed (PushJob 7%N demo_owner "app" demo_env1) (started_of demo_pushed 2) (PushDone (push_of demo_pushed 2)).
Proof.
  apply returned_outcome; [by rewrite demo_pushed_jobs|]. apply push_of_outcome. vm_compute. reflexivity.
Qed.

Definition demo_pack : PackOutput := {| pack_stdout := demo_report; pack_ok := true |}.
Definition pack_is_demo (s : System) (i : nat) : bool :=
  match po_pack (push_of s i) with
  | Some p => bool_decide (pack_stdout p = demo_report) && Bool.eqb (pack_ok p) true
  | None => false
  end.

Lemma pack_is_demo_ok s i : pack_is_demo s i = true → po_pack (push_of s i) = Some demo_pack.
Proof.
  unfold pack_is_demo. destruct (po_pack _) as [[out ok]|]; [|done]. simpl.
  intros [Hout%bool_decide_eq_true ->%Bool.eqb_prop]%andb_true_iff. by rewrite Hout.
Qed.

Lemma push_success_is_durable_witness :
  ∃ n m k, version_at (world demo) demo_key n m k ∧ po_announced (push_of demo_pushed 2) = Some m.
Proof.
  destruct (push_success_is_durable demo_pushed demo 7%N demo_owner "app" demo_env1 (started_of demo_pushed 2)
    (push_of demo_pushed 2) demo_pack) as (ps & n & m & k & obs & H).
  - apply demo_pushed_reachable.
  - apply demo_pushed_demo.
  - apply demo_no_collision.
  - apply demo_push_returned.
  - apply pack_is_demo_ok. vm_compute. reflexivity.
  - reflexivity.
  - vm_compute. reflexivity.
  - exists n, m, k. split; apply H.
Defined.

Lemma demo_conflict_returned :
  returned demo (PushJob 7%N demo_owner "app.git" demo_env2) (started_of demo 3) (PushDone (push_of demo 3)).
Proof.
  apply returned_outcome; [by rewrite demo_jobs|]. apply push_of_outcome. vm_compute. reflexivity.
Qed.

Lemma push_conflict_truthful_witness :
  po_success (push_of demo 3) = None ∧ po_announced (push_of demo 3) = None.
Proof.
  destruct (push_conflict_truthful demo 7%N demo_owner "app.git" demo_env2 (started_of demo 3) (push_of demo 3)
    demo_pack) as (H1 & H2 & _).
  - apply demo_reachable.
  - apply demo_no_collision.
  - apply demo_conflict_returned.
  - apply pack_is_demo_ok. vm_compute. reflexivity.
  - vm_compute. reflexivity.
  - split; [exact H1|exact H2].
Defined.

Lemma reads_never_see_corruption_witness :
  ∃ m, outcome_of demo 4 = Some (ReadDone (Ok (Some m))) ∧ publishable m.
Proof.
  destruct (read_of_outcome demo 4) as [m Hm]; [vm_compute; reflexivity|].
  exists m. split; [exact Hm|].
  apply (reads_never_see_corruption demo 7%N demo_owner "app" (started_of demo 4) (Ok (Some m)) demo_reachable
    demo_no_collision).
  apply returned_outcome; [rewrite demo_jobs; reflexivity|exact Hm].
Defined.

Lemma announcement_never_overwrites_witness :
  ∃ k, version_at (world demo) demo_key 0 empty_manifest k.
Proof.
  apply (announcement_never_overwrites demo demo 7%N demo_owner "app" (started_of demo 0)).
  - apply demo_reachable.
  - constructor.
  - apply demo_no_collision.
  - apply returned_outcome; [rewrite demo_jobs; reflexivity|]. apply announced_outcome. vm_compute. reflexivity.
Defined.

Definition denied_env : PushEnv :=
  {| pe_permit := true; pe_materialize := λ _, Ok 0%Z; pe_install_hook := true;
     pe_receive := λ _, Ok (true, declined_report); pe_workspace := pe_workspace demo_env1;
     pe_max_pack_bytes := 1000; pe_max_repo_bytes := 1000; pe_acquire := true; pe_verify := true;
     pe_protect_verify := true; pe_lease_lost := None; pe_protect_reverify := true;
     pe_event_stored := true; pe_finish := true |}.

Lemma denied_push_publishes_nothing_witness :
  reads_only (receive_pack (L := slice_lib) 7%N demo_owner "app" denied_env).
Proof.
  apply denied_push_publishes_nothing. intros ps ok out [= <- <-]. right. vm_compute. reflexivity.
Defined.
