(* ===== verification/MeshWire.v ===== *)
(** * Frames of the relay mesh ([crates/maju-relay-mesh/src/wire.rs],
      [peer.rs], [lib.rs])

    The frame types, the versioned encoding and the length-delimited framing of
    a QUIC stream.

    The serializer ([postcard]) and the runtime id's hex codec are not part of
    the sources: they are the classes [PostcardLib] and [RuntimeLib].  A QUIC
    stream delivers in order: the receiver reads the bytes that arrive and then
    the end of the stream, which is a clean finish or an error. *)
From S2P Require Import Prelude Nostr Bytes.

(** ** Runtimes and headers *)

(** [RuntimeId] with [to_hex], and [hex::decode] to 32 bytes. *)
Class RuntimeLib : Type := {
  RuntimeId : Type;
  runtime_eq :: EqDecision RuntimeId;
  to_hex : RuntimeId → string;
  from_hex : string → option RuntimeId
}.
Class RuntimeLaws (T : RuntimeLib) : Prop := {
  from_to_hex r : from_hex (to_hex r) = Some r;
  to_hex_text r : str_forall is_ascii_hexdigit (to_hex r) = true ∧ to_hex r ≠ ""
}.

Inductive Profile := ReliableStream | RealtimeMedia | HuddleControl.
#[export] Instance profile_eq : EqDecision Profile.
Proof. solve_decision. Defined.

Inductive GoodbyeReason := SessionEnded | Draining | GoodbyeStale.
#[export] Instance goodbye_reason_eq : EqDecision GoodbyeReason.
Proof. solve_decision. Defined.

Definition WIRE_VERSION : Z := 1.
Definition MAX_STREAM_FRAME : Z := 16 * 1024 * 1024.
#[global] Arguments MAX_STREAM_FRAME : simpl never.

Section frames.
Context {T : RuntimeLib}.

Record FencedHeader := {
  fh_session_id : Uuid;
  fh_generation : N;
  fh_owner_runtime_id : RuntimeId
}.
#[export] Instance fenced_header_eq : EqDecision FencedHeader.
Proof. solve_decision. Defined.

Inductive StreamRole := Control | Session (fenced : FencedHeader) (profile : Profile).

Record StreamHello := { sender : RuntimeId; role : StreamRole }.

Inductive MeshStreamFrame :=
  | Hello (h : StreamHello)
  | Data (fenced : FencedHeader) (payload : list Z)
  | Goodbye (fenced : FencedHeader) (reason : GoodbyeReason)
  | Gossip (payload : list Z).

Record MeshDatagram := { dg_fenced : FencedHeader; dg_seq : Z; dg_payload : list Z }.

Inductive MeshError :=
  | Encode
  | Decode
  | UnknownWireVersion (v : Z)
  | EmptyFrame
  | FrameTooLarge (size max : Z)
  | DatagramTooLarge (size max : Z)
  | PeerNotConnected (r : RuntimeId)
  | PeerDraining (r : RuntimeId)
  | StaleGeneration (session : Uuid) (frame known : N)
  | NoActiveLease (session : Uuid) (frame known : N) (frame_owner : RuntimeId)
  | OwnerMismatch (session : Uuid) (generation : N) (frame_owner current_owner : RuntimeId)
  | FutureGeneration (session : Uuid) (frame known : N)
  | Disabled
  | Transport (message : string)
  | MeshRedis.
End frames.

(** [postcard::to_extend] and [postcard::from_bytes]. *)
Class PostcardLib {T : RuntimeLib} : Type := {
  pc_encode : MeshStreamFrame → option (list Z);
  pc_decode : list Z → option MeshStreamFrame;
  pc_encode_datagram : MeshDatagram → option (list Z);
  pc_decode_datagram : list Z → option MeshDatagram
}.
#[global] Arguments PostcardLib T : clear implicits.

(** The values the Rust types have. *)
Definition fenced_ok {T : RuntimeLib} (h : FencedHeader) : Prop :=
  (fh_session_id h < 2 ^ 128)%N ∧ (fh_generation h < 2 ^ 64)%N.
Definition frame_ok {T : RuntimeLib} (f : MeshStreamFrame) : Prop :=
  match f with
  | Hello {| role := Session h _ |} => fenced_ok h
  | Hello _ => True
  | Data h p => fenced_ok h ∧ bytes_ok p
  | Goodbye h _ => fenced_ok h
  | Gossip p => bytes_ok p
  end.

(** Serialization to a vector cannot fail; the overhead of a [Data] frame is a
    tag, the header (at most 59 bytes) and a length (at most 10 bytes). *)
Definition POSTCARD_OVERHEAD : nat := 70.
Class PostcardLaws {T : RuntimeLib} (P : PostcardLib T) : Prop := {
  pc_round_trip f : frame_ok f → ∃ bs, pc_encode f = Some bs ∧ bytes_ok bs ∧ pc_decode bs = Some f;
  pc_data_size h p bs : pc_encode (Data h p) = Some bs → length bs ≤ length p + POSTCARD_OVERHEAD
}.

Section framing.
Context {T : RuntimeLib} {P : PostcardLib T}.

(** ** Encoding *)

Definition encode (f : MeshStreamFrame) : result MeshError (list Z) :=
  match pc_encode f with Some bs => Ok (WIRE_VERSION :: bs) | None => Err Encode end.

Definition versioned {A} (decode : list Z → option A) (bytes : list Z) : result MeshError A :=
  match bytes with
  | [] => Err EmptyFrame
  | v :: rest =>
      if (v =? WIRE_VERSION)%Z then match decode rest with Some f => Ok f | None => Err Decode end
      else Err (UnknownWireVersion v)
  end.
Definition decode : list Z → result MeshError MeshStreamFrame := versioned pc_decode.

Definition encode_datagram_checked (d : MeshDatagram) (max : Z) : result MeshError (list Z) :=
  match pc_encode_datagram d with
  | None => Err Encode
  | Some bs =>
      let bytes := WIRE_VERSION :: bs in
      if (max <? Z.of_nat (length bytes))%Z then Err (DatagramTooLarge (Z.of_nat (length bytes)) max) else Ok bytes
  end.
Definition decode_datagram : list Z → result MeshError MeshDatagram := versioned pc_decode_datagram.

(** ** The send half

    [allowed] is the number of bytes the connection still takes before it
    fails; [None] is a connection that does not fail.  A [write_all] that fails
    may have written a part. *)

Record SendHalf := { written : list Z; finished : bool; allowed : option nat }.

Definition write_all (bytes : list Z) (s : SendHalf) : result MeshError unit * SendHalf :=
  match allowed s with
  | None => (Ok tt, {| written := written s ++ bytes; finished := finished s; allowed := None |})
  | Some n =>
      if length bytes <=? n
      then (Ok tt, {| written := written s ++ bytes; finished := finished s; allowed := Some (n - length bytes) |})
      else (Err (Transport "write"),
            {| written := written s ++ take n bytes; finished := finished s; allowed := Some 0 |})
  end.

(** [u32::to_le_bytes]. *)
Definition to_le_bytes (n : Z) : list Z := [byte_at 0 n; byte_at 1 n; byte_at 2 n; byte_at 3 n].
Definition from_le_bytes (bs : list Z) : Z := from_be_bytes (reverse bs).

Definition send_frame (f : MeshStreamFrame) (s : SendHalf) : result MeshError unit * SendHalf :=
  match encode f with
  | Err e => (Err e, s)
  | Ok bytes =>
      let len := Z.of_nat (length bytes) in
      if (MAX_STREAM_FRAME <? len)%Z then (Err (FrameTooLarge len MAX_STREAM_FRAME), s)
      else
        match write_all (to_le_bytes len) s with
        | (Err e, s) => (Err e, s)
        | (Ok _, s) => write_all bytes s
        end
  end.

(** [closed]: the stream was already finished or reset. *)
Definition finish (s : SendHalf) : result MeshError unit * SendHalf :=
  if finished s then (Err (Transport "closed"), s)
  else (Ok tt, {| written := written s; finished := true; allowed := allowed s |}).

(** ** The receive half *)

Record RecvHalf := { incoming : list Z; clean_end : bool }.

Inductive ReadExactError := FinishedEarly (n : nat) | ReadError.

Definition read_exact (n : nat) (r : RecvHalf) : result ReadExactError (list Z) * RecvHalf :=
  if n <=? length (incoming r)
  then (Ok (take n (incoming r)), {| incoming := drop n (incoming r); clean_end := clean_end r |})
  else (Err (if clean_end r then FinishedEarly (length (incoming r)) else ReadError),
        {| incoming := []; clean_end := clean_end r |}).

Definition recv_frame (r : RecvHalf) : result MeshError (option MeshStreamFrame) * RecvHalf :=
  match read_exact 4 r with
  | (Err (FinishedEarly O), r) => (Ok None, r)
  | (Err _, r) => (Err (Transport "read"), r)
  | (Ok len, r) =>
      let len := from_le_bytes len in
      if (MAX_STREAM_FRAME <? len)%Z then (Err (FrameTooLarge len MAX_STREAM_FRAME), r)
      else
        match read_exact (Z.to_nat len) r with
        | (Err _, r) => (Err (Transport "read"), r)
        | (Ok bytes, r) => (f ← decode bytes; Ok (Some f), r)
        end
  end.

(** ** Lemmas *)

Lemma le_bytes_round_trip n : in_width 32 n → from_le_bytes (to_le_bytes n) = n.
Proof.
  unfold in_width, from_le_bytes, to_le_bytes. change (2 ^ 32)%Z with 4294967296%Z. intros Hn.
  rewrite !byte_at_div by lia. unfold from_be_bytes; simpl.
  change (256 ^ 1)%Z with 256%Z. change (256 ^ 0)%Z with 1%Z. change (256 ^ 2)%Z with 65536%Z.
  change (256 ^ 3)%Z with 16777216%Z. rewrite !Z.div_1_r. Z.to_euclidean_division_equations; lia.
Qed.

Lemma to_le_bytes_ok n : bytes_ok (to_le_bytes n).
Proof. unfold to_le_bytes. repeat constructor; apply byte_at_width; lia. Qed.

(** What a frame is on the wire. *)
Definition framed (bytes : list Z) : list Z := to_le_bytes (Z.of_nat (length bytes)) ++ bytes.

Definition fits (bytes : list Z) : Prop := (Z.of_nat (length bytes) ≤ MAX_STREAM_FRAME)%Z.

Lemma framed_length bytes : length (framed bytes) = 4 + length bytes.
Proof. unfold framed. by rewrite length_app. Qed.

Lemma take_app_exact {A} n (l k : list A) : n = length l → take n (l ++ k) = l.
Proof. intros ->. by rewrite take_app_length. Qed.
Lemma drop_app_exact {A} n (l k : list A) : n = length l → drop n (l ++ k) = k.
Proof. intros ->. by rewrite drop_app_length. Qed.

Lemma read_exact_app l k e : read_exact (length l) {| incoming := l ++ k; clean_end := e |} =
  (Ok l, {| incoming := k; clean_end := e |}).
Proof.
  unfold read_exact. cbn [incoming clean_end]. rewrite length_app.
  destruct (Nat.leb_spec (length l) (length l + length k)); [|lia].
  by rewrite take_app_exact, drop_app_exact.
Qed.

Lemma recv_framed bytes k e : fits bytes →
  recv_frame {| incoming := framed bytes ++ k; clean_end := e |} =
  (f ← decode bytes; Ok (Some f), {| incoming := k; clean_end := e |}).
Proof.
  intros Hf. unfold recv_frame, framed. rewrite <- app_assoc.
  rewrite (read_exact_app (to_le_bytes _)). unfold fits in Hf.
  assert (Hm : (MAX_STREAM_FRAME < 2 ^ 32)%Z) by (unfold MAX_STREAM_FRAME; lia).
  rewrite le_bytes_round_trip by (unfold in_width; lia).
  destruct (Z.ltb_spec MAX_STREAM_FRAME (Z.of_nat (length bytes))); [lia|].
  by rewrite Nat2Z.id, read_exact_app.
Qed.

(** A frame that is cut off is an error. *)
Lemma recv_cut bytes n : fits bytes → n < length (framed bytes) →
  ∃ r, recv_frame {| incoming := take n (framed bytes); clean_end := false |} = (Err (Transport "read"), r).
Proof.
  intros Hf Hn. rewrite framed_length in Hn. unfold recv_frame, framed.
  destruct (decide (n < 4)) as [H4|H4].
  - unfold read_exact at 1. cbn [incoming clean_end]. rewrite length_take, length_app. cbn [length to_le_bytes].
    destruct (Nat.leb_spec 4 (n `min` (4 + length bytes))); [lia|]. by eexists.
  - rewrite take_app_ge by (simpl; lia). rewrite (read_exact_app (to_le_bytes _)). unfold fits in Hf.
    assert (Hm : (MAX_STREAM_FRAME < 2 ^ 32)%Z) by (unfold MAX_STREAM_FRAME; lia).
    rewrite le_bytes_round_trip by (unfold in_width; lia).
    destruct (Z.ltb_spec MAX_STREAM_FRAME (Z.of_nat (length bytes))); [lia|].
    rewrite Nat2Z.id. unfold read_exact. cbn [incoming clean_end]. rewrite length_take. cbn [length to_le_bytes].
    destruct (Nat.leb_spec (length bytes) ((n - 4) `min` length bytes)); [lia|]. by eexists.
Qed.

Lemma decode_encode f bytes : PostcardLaws P → frame_ok f → encode f = Ok bytes → decode bytes = Ok f.
Proof.
  intros PL Hok He. unfold encode in He. destruct (pc_round_trip f Hok) as (bs & Hbs & _ & Hd).
  rewrite Hbs in He. injection He as <-. unfold decode, versioned. by rewrite Z.eqb_refl, Hd.
Qed.

Lemma write_all_effect bytes s :
  let '(res, s') := write_all bytes s in
  finished s' = finished s ∧
  match res with
  | Ok _ => written s' = written s ++ bytes ∧ allowed s' = (λ n, n - length bytes) <$> allowed s
  | Err _ => ∃ n, allowed s = Some n ∧ n < length bytes ∧ written s' = written s ++ take n bytes ∧ allowed s' = Some 0
  end.
Proof.
  unfold write_all. destruct (allowed s) as [n|]; [|done]. destruct (Nat.leb_spec (length bytes) n); [done|].
  split; [done|]. by exists n.
Qed.

(** A sender writes whole frames, up to the failure of the connection. *)
Lemma send_frame_effect f s :
  let '(res, s') := send_frame f s in
  finished s' = finished s ∧
  match res with
  | Ok _ => ∃ bytes, encode f = Ok bytes ∧ fits bytes ∧ written s' = written s ++ framed bytes ∧
      allowed s' = (λ n, n - length (framed bytes)) <$> allowed s
  | Err _ => written s' = written s ∧ allowed s' = allowed s ∨
      allowed s' = Some 0 ∧ ∃ bytes n, encode f = Ok bytes ∧ fits bytes ∧ n < length (framed bytes) ∧
        written s' = written s ++ take n (framed bytes)
  end.
Proof.
  unfold send_frame. destruct (encode f) as [bytes|e] eqn:He; [|by auto].
  destruct (Z.ltb_spec MAX_STREAM_FRAME (Z.of_nat (length bytes))) as [|Hf]; [by auto|].
  pose proof (write_all_effect (to_le_bytes (Z.of_nat (length bytes))) s) as H1.
  destruct (write_all (to_le_bytes _) s) as [[?|?] s1]; destruct H1 as [Hf1 H1].
  - destruct H1 as [Hw1 Ha1]. pose proof (write_all_effect bytes s1) as H2.
    destruct (write_all bytes s1) as [[?|?] s2]; destruct H2 as [Hf2 H2]; (split; [congruence|]).
    + destruct H2 as [Hw2 Ha2]. exists bytes. split_and!; [done|done|by rewrite Hw2, Hw1, <- app_assoc|].
      rewrite Ha2, Ha1, framed_length. destruct (allowed s); [|done]. simpl. f_equal. lia.
    + destruct H2 as (n & Hn & Hlt & Hw2 & Ha2). right. split; [done|]. exists bytes, (4 + n).
      split_and!; [done|done|rewrite framed_length; lia|]. rewrite Hw2, Hw1, <- app_assoc. done.
  - destruct H1 as (n & Hn & Hlt & Hw1 & Ha1). split; [done|]. right. split; [done|]. exists bytes, n.
    cbn [length to_le_bytes] in Hlt. split_and!; [done|done|rewrite framed_length; lia|].
    rewrite Hw1. f_equal. unfold framed. by rewrite take_app_le by (simpl; lia).
Qed.

End framing.
