(* ===== verification/Directory.v ===== *)
(** * The session directory ([crates/maju-relay/src/tunnel/directory.rs])

    Ownership leases of tunnel sessions, arbitrated by Redis, with a fencing
    generation.  The Lua scripts of the file are functions on the store.

    Redis and the number formatting of its Lua are not part of the sources:
    they are the class [RedisLib].  [RedisLaws] is the documented behaviour of the commands
    the scripts use; time only removes keys that have an expiry.  The community
    deletion lease and the connection are a [CallEnv]: a call can fail before
    its script runs, or lose its reply after it ran. *)
From S2P Require Import Prelude Nostr MeshWire.

(** ** The parts that are not in the sources *)

Class RedisLib : Type := {
  Redis : Type;
  redis_get : Redis → string → option string;
  (** the key has an expiry *)
  redis_volatile : Redis → string → bool;
  (** the new number, or an error reply *)
  redis_incr : Redis → string → option (N * Redis);
  redis_set_px : Redis → string → string → Z → Redis;
  redis_pexpire : Redis → string → Z → Redis;
  redis_del : Redis → string → Redis;
  (** time passes, keys expire *)
  redis_elapse : Redis → Redis → Prop;
  (** [tostring] of the number an [INCR] returned *)
  lua_tostring : N → string
}.

(** Lua prints a number exactly up to fourteen digits. *)
Definition LUA_EXACT : N := 10 ^ 14.
#[global] Arguments LUA_EXACT : simpl never.

Class RedisLaws (R : RedisLib) : Prop := {
  incr_fresh s k : redis_get s k = None → ∃ s', redis_incr s k = Some (1%N, s');
  incr_number s k n : redis_get s k = Some (pretty n) → (n < LUA_EXACT)%N → ∃ s', redis_incr s k = Some ((n + 1)%N, s');
  incr_get s k n s' k' : redis_incr s k = Some (n, s') →
    redis_get s' k' = if (k' =? k)%string then Some (pretty n) else redis_get s k';
  incr_volatile s k n s' k' : redis_incr s k = Some (n, s') → redis_volatile s' k' = redis_volatile s k';
  set_get s k v ttl k' : redis_get (redis_set_px s k v ttl) k' = if (k' =? k)%string then Some v else redis_get s k';
  set_volatile s k v ttl k' : k' ≠ k → redis_volatile (redis_set_px s k v ttl) k' = redis_volatile s k';
  pexpire_get s k ttl k' : (0 < ttl)%Z → redis_get (redis_pexpire s k ttl) k' = redis_get s k';
  pexpire_volatile s k ttl k' : k' ≠ k → redis_volatile (redis_pexpire s k ttl) k' = redis_volatile s k';
  del_get s k k' : redis_get (redis_del s k) k' = if (k' =? k)%string then None else redis_get s k';
  del_volatile s k k' : k' ≠ k → redis_volatile (redis_del s k) k' = redis_volatile s k';
  elapse_get s s' k : redis_elapse s s' →
    redis_get s' k = redis_get s k ∨ (redis_get s' k = None ∧ redis_volatile s k = true);
  elapse_volatile s s' k : redis_elapse s s' → redis_volatile s k = false → redis_volatile s' k = false;
  lua_tostring_exact n : (n ≤ LUA_EXACT)%N → lua_tostring n = pretty n
}.

(** ** Data *)

Definition as_wire_str (p : Profile) : string :=
  match p with
  | ReliableStream => "reliable-stream"
  | RealtimeMedia => "realtime-media"
  | HuddleControl => "huddle-control"
  end.

Definition profile_from_wire (s : string) : option Profile :=
  if (s =? "reliable-stream")%string then Some ReliableStream
  else if (s =? "realtime-media")%string then Some RealtimeMedia
  else if (s =? "huddle-control")%string then Some HuddleControl
  else None.

Definition bar : ascii := "|"%char.

Section directory.
Context {L : NostrLib} {T : RuntimeLib} {R : RedisLib}.

Record SessionLease := {
  community_id : Uuid;
  session_id : Uuid;
  owner_runtime_id : RuntimeId;
  generation : N;
  profile : Profile
}.

Definition fenced_header (l : SessionLease) : FencedHeader :=
  {| fh_session_id := session_id l; fh_generation := generation l; fh_owner_runtime_id := owner_runtime_id l |}.

Inductive AcquireResult := Acquired (l : SessionLease) | Exists (l : SessionLease).
Inductive RenewResult := Renewed (l : SessionLease) | Lost (current : option SessionLease) (known : option N).
Inductive ReleaseResult := Released (l : SessionLease) | NotOwner (current : option SessionLease) (known : option N).

Inductive DirectoryError :=
  | PoolError
  | RedisError
  | MalformedLease (value : string)
  | MalformedGeneration (value : string)
  | UnexpectedScriptStatus (status : string)
  | InvalidLeaseTtl
  | CommunityWriteFenced.

(** ** Keys and values *)

Definition session_base (community session : Uuid) : string :=
  "maju:" +:+ uuid_to_string community +:+ ":tunnel:" +:+ uuid_to_string session.
Definition lease_key (community session : Uuid) : string := session_base community session +:+ ":lease".
Definition generation_key (community session : Uuid) : string := session_base community session +:+ ":generation".

Definition parse_lease (community session : Uuid) (value : string) : result DirectoryError SessionLease :=
  let malformed := Err (MalformedLease value) in
  match str_split bar value with
  | [owner_hex; gen; prof] =>
      match parse_unsigned 64 gen with
      | None => malformed
      | Some g =>
          if (g =? 0)%N then malformed
          else
            match profile_from_wire prof with
            | None => malformed
            | Some p =>
                match from_hex owner_hex with
                | None => malformed
                | Some o =>
                    Ok {| community_id := community; session_id := session; owner_runtime_id := o; generation := g;
                          profile := p |}
                end
            end
      end
  | _ => malformed
  end.

Definition parse_optional_lease (community session : Uuid) (value : string) :
  result DirectoryError (option SessionLease) :=
  if (value =? "")%string then Ok None else l ← parse_lease community session value; Ok (Some l).

Definition parse_optional_generation (value : string) : result DirectoryError (option N) :=
  if (value =? "")%string then Ok None
  else
    match parse_unsigned 64 value with
    | None => Err (MalformedGeneration value)
    | Some g => if (g =? 0)%N then Err (MalformedGeneration value) else Ok (Some g)
    end.

(** [ms] is [ttl.as_millis()]. *)
Definition ttl_ms (ms : Z) : result DirectoryError Z :=
  if (ms <? 2 ^ 63)%Z && (0 <? ms)%Z then Ok ms else Err InvalidLeaseTtl.

(** ** The scripts *)

(** [string.match(s, '^([^|]+)|([^|]+)|([^|]+)$')]. *)
Definition lua_match3 (s : string) : option (string * string * string) :=
  match str_split bar s with
  | [a; b; c] => if (a =? "")%string || (b =? "")%string || (c =? "")%string then None else Some (a, b, c)
  | _ => None
  end.

Definition Reply : Type := string * string * string.

Definition acquire_script (lkey gkey owner prof : string) (ttl : Z) (s : Redis) : option (Reply * Redis) :=
  match redis_get s lkey with
  | Some current => Some (("exists", current, default "" (redis_get s gkey)), s)
  | None =>
      '(g, s1) ← redis_incr s gkey;
      let value := owner +:+ "|" +:+ lua_tostring g +:+ "|" +:+ prof in
      Some (("acquired", value, lua_tostring g), redis_set_px s1 lkey value ttl)
  end.

(** The common part of [RENEW_SCRIPT] and [RELEASE_SCRIPT]. *)
Definition owner_script (done : string) (act : Redis → Redis) (lkey gkey owner gen : string) (s : Redis) :
  option (Reply * Redis) :=
  match redis_get s lkey with
  | None => Some (("missing", "", default "" (redis_get s gkey)), s)
  | Some current =>
      match lua_match3 current with
      | Some (o, g, _) =>
          if (o =? owner)%string && (g =? gen)%string
          then Some ((done, current, default g (redis_get s gkey)), act s)
          else Some (("lost", current, default g (redis_get s gkey)), s)
      | None => Some (("lost", current, default "" (redis_get s gkey)), s)
      end
  end.

Definition renew_script (lkey gkey owner gen : string) (ttl : Z) : Redis → option (Reply * Redis) :=
  owner_script "renewed" (λ s, redis_pexpire s lkey ttl) lkey gkey owner gen.
Definition release_script (lkey gkey owner gen : string) : Redis → option (Reply * Redis) :=
  owner_script "released" (λ s, redis_del s lkey) lkey gkey owner gen.

Definition validate_script (lkey gkey : string) (s : Redis) : string * string :=
  (default "" (redis_get s lkey), default "" (redis_get s gkey)).

(** ** Calls *)

(** A failure while a script is under way; it may have been executed. *)
Inductive Fault := ConnectionLost (executed : bool) | LeaseLost (executed : bool).

(** [ce_fenced]: [begin_serving_write] refuses; [ce_finish]: the lease is
    released in good order. *)
Record CallEnv := {
  ce_fenced : bool;
  ce_pool : bool;
  ce_fault : option Fault;
  ce_finish : bool
}.

Definition invoke {A} (env : CallEnv) (script : Redis → option (A * Redis)) (s : Redis) :
  result DirectoryError A * Redis :=
  let after := match script s with Some (_, s') => s' | None => s end in
  match ce_fault env with
  | Some (ConnectionLost executed) => (Err RedisError, if executed then after else s)
  | Some (LeaseLost executed) => (Err CommunityWriteFenced, if executed then after else s)
  | None => match script s with Some (a, s') => (Ok a, s') | None => (Err RedisError, s) end
  end.

Definition acquire (lease_ttl : Z) (env : CallEnv) (community session : Uuid) (owner : RuntimeId) (prof : Profile)
  (s : Redis) : result DirectoryError AcquireResult * Redis :=
  if ce_fenced env then (Err CommunityWriteFenced, s)
  else
    match ttl_ms lease_ttl with
    | Err e => (Err e, s)
    | Ok ttl =>
        if negb (ce_pool env) then (Err PoolError, s)
        else
          let '(reply, s') :=
            invoke env (acquire_script (lease_key community session) (generation_key community session) (to_hex owner)
                          (as_wire_str prof) ttl) s in
          (r ← reply;
           let '(status, value, _) := r in
           lease ← parse_lease community session value;
           if negb (ce_finish env) then Err CommunityWriteFenced
           else if (status =? "acquired")%string then Ok (Acquired lease)
           else if (status =? "exists")%string then Ok (Exists lease)
           else Err (UnexpectedScriptStatus status), s')
    end.

Definition takeover := acquire.

(** The reply of [RENEW_SCRIPT] and [RELEASE_SCRIPT]: the lease the call acted
    on, or what was found instead.  [done] without a lease panics in the code
    ([expect]); a status [done] carries the value of the live lease. *)
Definition owner_reply (env : CallEnv) (done : string) (community session : Uuid) (r : Reply) :
  result DirectoryError (option SessionLease + (option SessionLease * option N)) :=
  let '(status, value, known) := r in
  current ← parse_optional_lease community session value;
  if negb (ce_finish env) then Err CommunityWriteFenced
  else if (status =? done)%string then Ok (inl current)
  else if (status =? "missing")%string || (status =? "lost")%string
  then k ← parse_optional_generation known; Ok (inr (current, k))
  else Err (UnexpectedScriptStatus status).

(** The outer [option] is the panic of [expect]. *)
Definition renew (lease_ttl : Z) (env : CallEnv) (l : SessionLease) (s : Redis) :
  option (result DirectoryError RenewResult) * Redis :=
  let c := community_id l in let i := session_id l in
  if ce_fenced env then (Some (Err CommunityWriteFenced), s)
  else
    match ttl_ms lease_ttl with
    | Err e => (Some (Err e), s)
    | Ok ttl =>
        if negb (ce_pool env) then (Some (Err PoolError), s)
        else
          let '(reply, s') :=
            invoke env (renew_script (lease_key c i) (generation_key c i) (to_hex (owner_runtime_id l))
                          (pretty (generation l)) ttl) s in
          (match r ← reply; owner_reply env "renewed" c i r with
           | Ok (inl (Some cur)) => Some (Ok (Renewed cur))
           | Ok (inl None) => None
           | Ok (inr (cur, k)) => Some (Ok (Lost cur k))
           | Err e => Some (Err e)
           end, s')
    end.

Definition release (env : CallEnv) (l : SessionLease) (s : Redis) :
  option (result DirectoryError ReleaseResult) * Redis :=
  let c := community_id l in let i := session_id l in
  if ce_fenced env then (Some (Err CommunityWriteFenced), s)
  else if negb (ce_pool env) then (Some (Err PoolError), s)
  else
    let '(reply, s') :=
      invoke env (release_script (lease_key c i) (generation_key c i) (to_hex (owner_runtime_id l))
                    (pretty (generation l))) s in
    (match r ← reply; owner_reply env "released" c i r with
     | Ok (inl (Some cur)) => Some (Ok (Released cur))
     | Ok (inl None) => None
     | Ok (inr (cur, k)) => Some (Ok (NotOwner cur k))
     | Err e => Some (Err e)
     end, s').

Definition lookup (community session : Uuid) (s : Redis) : result DirectoryError (option SessionLease) :=
  match redis_get s (lease_key community session) with
  | None => Ok None
  | Some v => l ← parse_lease community session v; Ok (Some l)
  end.

Definition known_generation (community session : Uuid) (s : Redis) : result DirectoryError (option N) :=
  match redis_get s (generation_key community session) with
  | None => Ok None
  | Some v => parse_optional_generation v
  end.

(** [pool] and [redis]: the checkout and the script succeed. *)
Definition validate_fenced_header (pool redis : bool) (community : Uuid) (h : FencedHeader) (s : Redis) :
  result MeshError unit :=
  if negb pool then Err (Transport "redis pool")
  else if negb redis then Err MeshRedis
  else
    let '(lease_value, known_value) :=
      validate_script (lease_key community (fh_session_id h)) (generation_key community (fh_session_id h)) s in
    known_from_counter ← map_err (λ _, Transport "malformed generation") (parse_optional_generation known_value);
    let known_from_counter := default 0%N known_from_counter in
    current ← map_err (λ _, Transport "malformed lease") (parse_optional_lease community (fh_session_id h) lease_value);
    let known := N.max (default known_from_counter (generation <$> current)) known_from_counter in
    if (0 <? known)%N && (fh_generation h <? known)%N then Err (StaleGeneration (fh_session_id h) (fh_generation h) known)
    else
      match current with
      | None => Err (NoActiveLease (fh_session_id h) (fh_generation h) known (fh_owner_runtime_id h))
      | Some cur =>
          if negb (fh_generation h =? generation cur)%N then Err (FutureGeneration (fh_session_id h) (fh_generation h) (generation cur))
          else if negb (bool_decide (fh_owner_runtime_id h = owner_runtime_id cur))
          then Err (OwnerMismatch (fh_session_id h) (fh_generation h) (fh_owner_runtime_id h) (owner_runtime_id cur))
          else Ok tt
      end.

End directory.
