(* ===== verification/DirectoryProps.v ===== *)
(** * Properties of the session directory

    Any number of runtimes call the directory in any order, with any argument,
    any call may fail or lose its reply, and leases expire.  [DirState] adds to
    the store the list of all leases ever written. *)
From S2P Require Import Prelude Nostr MeshWire Directory.

Section props.
Context {L : NostrLib} {T : RuntimeLib} {R : RedisLib}.
Context {UL : UuidLaws L} {TL : RuntimeLaws T} {RL : RedisLaws R}.

(** ** Values *)

Definition lease_value (l : SessionLease) : string :=
  to_hex (owner_runtime_id l) +:+ "|" +:+ pretty (generation l) +:+ "|" +:+ as_wire_str (profile l).

Lemma profile_wire p : profile_from_wire (as_wire_str p) = Some p.
Proof. by destruct p. Qed.

Lemma lease_value_split l :
  str_split bar (lease_value l) = [to_hex (owner_runtime_id l); pretty (generation l); as_wire_str (profile l)].
Proof.
  apply (str_split_join bar [to_hex (owner_runtime_id l); pretty (generation l); as_wire_str (profile l)]); [done|].
  repeat constructor.
  - eapply str_forall_no_char; [|apply to_hex_text]. done.
  - eapply str_forall_no_char; [|apply pretty_N_text]. done.
  - by destruct (profile l).
Qed.

Lemma parse_lease_value l :
  (0 < generation l < 2 ^ 64)%N → parse_lease (community_id l) (session_id l) (lease_value l) = Ok l.
Proof.
  intros Hg. unfold parse_lease. rewrite lease_value_split, parse_unsigned_pretty by lia.
  destruct (generation l =? 0)%N eqn:E; [apply N.eqb_eq in E; lia|]. rewrite profile_wire, from_to_hex. by destruct l.
Qed.

Lemma lease_value_nonempty l : lease_value l ≠ "".
Proof. unfold lease_value. intros H. destruct (to_hex_text (owner_runtime_id l)) as [_ Hne]. by destruct (to_hex (owner_runtime_id l)). Qed.

Lemma lua_match_value l :
  lua_match3 (lease_value l) = Some (to_hex (owner_runtime_id l), pretty (generation l), as_wire_str (profile l)).
Proof.
  unfold lua_match3. rewrite lease_value_split.
  destruct (to_hex (owner_runtime_id l) =? "")%string eqn:E1; [by apply String.eqb_eq, to_hex_text in E1|].
  destruct (pretty (generation l) =? "")%string eqn:E2; [by apply String.eqb_eq, pretty_N_nonempty in E2|].
  by destruct (profile l).
Qed.

Lemma to_hex_inj r r' : to_hex r = to_hex r' → r = r'.
Proof. intros H. apply (f_equal from_hex) in H. rewrite !from_to_hex in H. congruence. Qed.

(** ** Keys *)

Lemma session_key_inj c i c' i' suffix suffix' :
  str_contains_char ":" suffix = false → str_contains_char ":" suffix' = false →
  session_base c i +:+ String ":" suffix = session_base c' i' +:+ String ":" suffix' →
  c = c' ∧ i = i' ∧ suffix = suffix'.
Proof.
  intros Hs Hs' H.
  assert (Hj : ∀ c i x, session_base c i +:+ String ":" x = str_join ":" ["maju"; uuid_to_string c; "tunnel"; uuid_to_string i; x]).
  { intros c0 i0 x. unfold session_base. by rewrite !str_app_assoc. }
  rewrite !Hj in H. apply (f_equal (str_split ":")) in H.
  rewrite !str_split_join in H; [|done|by repeat constructor; try (by apply uuid_no_char)..].
  injection H as Hc Hi Hx. by apply uuid_injective in Hc, Hi.
Qed.

Lemma lease_key_inj c i c' i' : lease_key c i = lease_key c' i' → c = c' ∧ i = i'.
Proof. intros H. apply session_key_inj in H; naive_solver. Qed.

Lemma generation_key_inj c i c' i' : generation_key c i = generation_key c' i' → c = c' ∧ i = i'.
Proof. intros H. apply session_key_inj in H; naive_solver. Qed.

Lemma lease_key_not_generation c i c' i' : lease_key c i ≠ generation_key c' i'.
Proof. intros H. apply session_key_inj in H as (_ & _ & H); done. Qed.

(** ** What a call does to the store *)

Definition granted_lease (c i : Uuid) (o : RuntimeId) (g : N) (p : Profile) : SessionLease :=
  {| community_id := c; session_id := i; owner_runtime_id := o; generation := g; profile := p |}.

(** A lease is written: the generation is counted up, then the key is set. *)
Inductive grant (c i : Uuid) (o : RuntimeId) (p : Profile) (s s' : Redis) : Prop :=
  | grant_intro g s1 ttl :
      redis_get s (lease_key c i) = None → redis_incr s (generation_key c i) = Some (g, s1) →
      s' = redis_set_px s1 (lease_key c i) (to_hex o +:+ "|" +:+ lua_tostring g +:+ "|" +:+ as_wire_str p) ttl →
      grant c i o p s s'.

Lemma invoke_effect {A} env (script : Redis → option (A * Redis)) s res s' :
  invoke env script s = (res, s') →
  (s' = s ∨ ∃ a, script s = Some (a, s')) ∧ (∀ a, res = Ok a → ce_fault env = None ∧ script s = Some (a, s')).
Proof.
  unfold invoke. intros H. destruct (ce_fault env) as [[[]|[]]|], (script s) as [[a s'']|] eqn:E; simplify_eq; split;
    naive_solver.
Qed.

Lemma acquire_effect ttl env c i o p s res s' :
  acquire ttl env c i o p s = (res, s') → s' = s ∨ grant c i o p s s'.
Proof.
  unfold acquire. intros H. destruct (ce_fenced env); [simplify_eq; by left|].
  destruct (ttl_ms ttl) as [ms|e]; [|simplify_eq; by left]. destruct (negb (ce_pool env)); [simplify_eq; by left|].
  destruct (invoke env _ s) as [reply s2] eqn:Hi. simplify_eq.
  apply invoke_effect in Hi as [[->|[a Ha]] _]; [by left|]. unfold acquire_script in Ha.
  destruct (redis_get s (lease_key c i)) as [v|] eqn:Hg; [simplify_eq; by left|].
  destruct (redis_incr s (generation_key c i)) as [[g s1]|] eqn:Hn; csimpl in Ha; [|done]. simplify_eq.
  right. by econstructor.
Qed.

(** The live lease is the caller's. *)
Definition owner_matches (l : SessionLease) (s : Redis) : Prop :=
  ∃ v p, redis_get s (lease_key (community_id l) (session_id l)) = Some v ∧
    lua_match3 v = Some (to_hex (owner_runtime_id l), pretty (generation l), p).

Lemma owner_script_effect done_ act lkey gkey l s a s' :
  lkey = lease_key (community_id l) (session_id l) →
  owner_script done_ act lkey gkey (to_hex (owner_runtime_id l)) (pretty (generation l)) s = Some (a, s') →
  (s' = s ∧ (a.1.1 = "missing" ∧ redis_get s lkey = None ∨ a.1.1 = "lost" ∧ ¬ owner_matches l s)) ∨
  (s' = act s ∧ owner_matches l s ∧ a.1.1 = done_ ∧ redis_get s lkey = Some a.1.2).
Proof.
  intros -> H. unfold owner_script in H.
  destruct (redis_get s (lease_key _ _)) as [v|] eqn:Hg; [|simplify_eq; left; split; [done|by left]].
  destruct (lua_match3 v) as [[[o g] p]|] eqn:Hm.
  - destruct ((o =? to_hex (owner_runtime_id l))%string && (g =? pretty (generation l))%string) eqn:E; simplify_eq.
    + right. apply andb_true_iff in E as [->%String.eqb_eq ->%String.eqb_eq]. split_and!; [done|by exists v, p|done|done].
    + left. split; [done|]. right. split; [done|]. intros (v' & p' & Hv & Hm'). simplify_eq.
      by rewrite !String.eqb_refl in E.
  - simplify_eq. left. split; [done|]. right. split; [done|]. intros (v' & p' & Hv & Hm'). simplify_eq.
Qed.

Lemma renew_effect ttl env l s res s' :
  renew ttl env l s = (res, s') →
  s' = s ∨ ∃ ms, (0 < ms)%Z ∧ s' = redis_pexpire s (lease_key (community_id l) (session_id l)) ms.
Proof.
  unfold renew. intros H. destruct (ce_fenced env); [simplify_eq; by left|].
  destruct (ttl_ms ttl) as [ms|e] eqn:Ht; [|simplify_eq; by left]. destruct (negb (ce_pool env)); [simplify_eq; by left|].
  destruct (invoke env _ s) as [reply s2] eqn:Hi. simplify_eq.
  apply invoke_effect in Hi as [[->|[a Ha]] _]; [by left|].
  apply owner_script_effect in Ha as [[-> _]|[-> _]]; [by left| |done]. right. exists ms. split; [|done].
  unfold ttl_ms in Ht. destruct (_ && (0 <? ttl)%Z) eqn:E; simplify_eq. apply andb_true_iff in E as [_ E].
  by apply Z.ltb_lt in E.
Qed.

Lemma release_effect env l s res s' :
  release env l s = (res, s') →
  s' = s ∨ (owner_matches l s ∧ s' = redis_del s (lease_key (community_id l) (session_id l))).
Proof.
  unfold release. intros H. destruct (ce_fenced env); [simplify_eq; by left|].
  destruct (negb (ce_pool env)); [simplify_eq; by left|].
  destruct (invoke env _ s) as [reply s2] eqn:Hi. simplify_eq.
  apply invoke_effect in Hi as [[->|[a Ha]] _]; [by left|].
  apply owner_script_effect in Ha as [[-> _]|(-> & Hm & _)]; [by left| |done]. by right.
Qed.

(** ** The system *)

Record DirState := { store : Redis; leases : list SessionLease }.

Definition new_lease (c i : Uuid) (s s' : Redis) : list SessionLease :=
  match redis_get s (lease_key c i), redis_get s' (lease_key c i) with
  | None, Some v => match parse_lease c i v with Ok l => [l] | Err _ => [] end
  | _, _ => []
  end.

Inductive dir_step (d : DirState) : DirState → Prop :=
  | step_acquire ttl env c i o p res s' :
      acquire ttl env c i o p (store d) = (res, s') →
      dir_step d {| store := s'; leases := leases d ++ new_lease c i (store d) s' |}
  | step_renew ttl env l res s' :
      renew ttl env l (store d) = (res, s') → dir_step d {| store := s'; leases := leases d |}
  | step_release env l res s' :
      release env l (store d) = (res, s') → dir_step d {| store := s'; leases := leases d |}
  | step_elapse s' :
      redis_elapse (store d) s' → dir_step d {| store := s'; leases := leases d |}.

Definition dir_initial (d : DirState) : Prop :=
  leases d = [] ∧ ∀ k, redis_get (store d) k = None ∧ redis_volatile (store d) k = false.

Definition dir_reachable (d : DirState) : Prop := ∃ d0, dir_initial d0 ∧ rtc dir_step d0 d.

(** Fewer leases than Lua counts exactly. *)
Definition countable_leases (d : DirState) : Prop := (N.of_nat (length (leases d)) < LUA_EXACT)%N.

(** The leases of a session, oldest first. *)
Definition grants (c i : Uuid) (ls : list SessionLease) : list SessionLease :=
  List.filter (λ l, (community_id l =? c)%N && (session_id l =? i)%N) ls.

(** ** The invariant *)

Record session_ok (s : Redis) (ls : list SessionLease) (c i : Uuid) : Prop := {
  so_generation n l : ls !! n = Some l →
    generation l = N.of_nat (S n) ∧ community_id l = c ∧ session_id l = i;
  so_counter : redis_get s (generation_key c i) = match ls with [] => None | _ => Some (pretty (N.of_nat (length ls))) end;
  so_persistent : redis_volatile s (generation_key c i) = false;
  so_live : redis_get s (lease_key c i) = None ∨
    ∃ l, last ls = Some l ∧ redis_get s (lease_key c i) = Some (lease_value l)
}.

Definition dir_ok (d : DirState) : Prop := ∀ c i, session_ok (store d) (grants c i (leases d)) c i.

Lemma grants_app c i ls ls' : grants c i (ls ++ ls') = grants c i ls ++ grants c i ls'.
Proof. apply List.filter_app. Qed.

Lemma grants_length c i ls : length (grants c i ls) ≤ length ls.
Proof. apply List.filter_length_le. Qed.

(** A session whose keys are as before. *)
Lemma session_ok_frame s s' ls c i :
  redis_get s' (generation_key c i) = redis_get s (generation_key c i) →
  redis_volatile s' (generation_key c i) = false →
  (redis_get s' (lease_key c i) = redis_get s (lease_key c i) ∨ redis_get s' (lease_key c i) = None) →
  session_ok s ls c i → session_ok s' ls c i.
Proof.
  intros Hg Hv Hl [H1 H2 H3 H4]. constructor; [done|by rewrite Hg|done|].
  destruct Hl as [->|Hl]; [done|by left].
Qed.

Lemma pretty_len_lt n : (N.of_nat n < LUA_EXACT)%N → (N.of_nat n < 2 ^ 64)%N.
Proof. unfold LUA_EXACT. lia. Qed.

(** The generation a grant counts up to. *)
Lemma grant_number s ls c i g s1 :
  session_ok s ls c i → (N.of_nat (length ls) < LUA_EXACT)%N → redis_incr s (generation_key c i) = Some (g, s1) →
  g = N.of_nat (S (length ls)).
Proof.
  intros Hok Hlen Hi. pose proof (so_counter _ _ _ _ Hok) as Hc. destruct ls as [|l ls].
  - destruct (incr_fresh _ _ Hc) as [s2 H2]. rewrite Hi in H2. by simplify_eq.
  - destruct (incr_number _ _ _ Hc) as [s2 H2]; [done|]. rewrite Hi in H2. simplify_eq. simpl. lia.
Qed.

Lemma grant_lease s ls c i o p s' :
  session_ok s ls c i → (N.of_nat (length ls) < LUA_EXACT)%N → grant c i o p s s' →
  let l := granted_lease c i o (N.of_nat (S (length ls))) p in
  redis_get s' (lease_key c i) = Some (lease_value l) ∧ new_lease c i s s' = [l].
Proof.
  intros Hok Hlen Hg l. destruct Hg as [g s1 ttl Hnone Hi ->]. pose proof (grant_number _ _ _ _ _ _ Hok Hlen Hi) as ->.
  assert (Hget : redis_get (redis_set_px s1 (lease_key c i)
    (to_hex o +:+ "|" +:+ lua_tostring (N.of_nat (S (length ls))) +:+ "|" +:+ as_wire_str p) ttl) (lease_key c i) =
    Some (lease_value l)).
  { rewrite set_get, String.eqb_refl. rewrite lua_tostring_exact by lia. done. }
  split; [done|]. unfold new_lease. rewrite Hnone, Hget.
  assert (Hp : parse_lease c i (lease_value l) = Ok l).
  { apply (parse_lease_value l). simpl. unfold LUA_EXACT in Hlen. lia. }
  by rewrite Hp.
Qed.

Lemma session_ok_grant s ls c i o p s' :
  session_ok s ls c i → (N.of_nat (length ls) < LUA_EXACT)%N → grant c i o p s s' →
  session_ok s' (ls ++ new_lease c i s s') c i.
Proof.
  intros Hok Hlen Hg. destruct (grant_lease _ _ _ _ _ _ _ Hok Hlen Hg) as [Hget ->].
  destruct Hg as [g s1 ttl Hnone Hi ->]. pose proof (grant_number _ _ _ _ _ _ Hok Hlen Hi) as ->.
  destruct Hok as [H1 H2 H3 H4].
  assert (Hne : generation_key c i ≠ lease_key c i) by (intros H; by apply (lease_key_not_generation c i c i)).
  constructor.
  - intros n l [Hn|[Hn Hl]]%lookup_app_Some; [by apply H1|].
    apply list_lookup_singleton_Some in Hl as [Hn0 <-]. simpl. split_and!; [lia|done|done].
  - rewrite set_get. destruct (_ =? _)%string eqn:E; [by apply String.eqb_eq in E|].
    rewrite (incr_get _ _ _ _ _ Hi), String.eqb_refl, length_app. simpl. destruct ls; simpl; do 2 f_equal; lia.
  - rewrite set_volatile by done. by rewrite (incr_volatile _ _ _ _ _ Hi).
  - right. eexists. rewrite last_snoc. split; [done|exact Hget].
Qed.

Lemma grant_frame c i o p s s' c' i' ls :
  (c', i') ≠ (c, i) → grant c i o p s s' → session_ok s ls c' i' → session_ok s' ls c' i'.
Proof.
  intros Hne [g s1 ttl Hnone Hi ->] Hok.
  assert (Hk : generation_key c' i' ≠ lease_key c i) by (intros H; symmetry in H; by apply lease_key_not_generation in H).
  apply (session_ok_frame s); [| | |done].
  - rewrite set_get, (incr_get _ _ _ _ _ Hi).
    destruct (generation_key c' i' =? lease_key c i)%string eqn:E1; [by apply String.eqb_eq in E1|].
    destruct (generation_key c' i' =? generation_key c i)%string eqn:E2; [|done].
    apply String.eqb_eq, generation_key_inj in E2 as [-> ->]. done.
  - rewrite set_volatile by done. rewrite (incr_volatile _ _ _ _ _ Hi). apply (so_persistent _ _ _ _ Hok).
  - left. rewrite set_get, (incr_get _ _ _ _ _ Hi).
    destruct (lease_key c' i' =? lease_key c i)%string eqn:E1; [apply String.eqb_eq, lease_key_inj in E1 as [-> ->]; done|].
    destruct (lease_key c' i' =? generation_key c i)%string eqn:E2; [|done].
    by apply String.eqb_eq, lease_key_not_generation in E2.
Qed.

Lemma new_lease_session c i s s' l : l ∈ new_lease c i s s' → community_id l = c ∧ session_id l = i.
Proof.
  unfold new_lease. intros H. 
  destruct (redis_get s (lease_key c i)), (redis_get s' (lease_key c i)) as [v|]; try by apply elem_of_nil in H.
  destruct (parse_lease c i v) as [l'|e] eqn:E; [|by apply elem_of_nil in H]. apply list_elem_of_singleton in H as ->.
  unfold parse_lease in E. repeat case_match; by simplify_eq/=.
Qed.

Lemma new_lease_same c i s : new_lease c i s s = [].
Proof. unfold new_lease. by destruct (redis_get s (lease_key c i)). Qed.

Lemma grants_new c i c' i' s s' :
  grants c' i' (new_lease c i s s') = if bool_decide ((c', i') = (c, i)) then new_lease c i s s' else [].
Proof.
  pose proof (new_lease_session c i s s') as H. unfold grants.
  assert (Hlen : ∃ o, new_lease c i s s' = match o with Some l => [l] | None => [] end).
  { unfold new_lease. repeat case_match; try (by exists None). by eexists (Some _). }
  destruct Hlen as [o Ho]. rewrite Ho in H |- *. destruct o as [l|]; [|by case_bool_decide]. destruct (H l) as [<- <-]; [left|]. simpl.
  case_bool_decide as E; [injection E as -> ->; by rewrite !N.eqb_refl|].
  destruct ((community_id l =? c')%N && (session_id l =? i')%N) eqn:Eb; [|done].
  apply andb_true_iff in Eb as [E1%N.eqb_eq E2%N.eqb_eq]. congruence.
Qed.

Lemma dir_step_leases d d' : dir_step d d' → leases d `prefix_of` leases d'.
Proof. intros H. destruct H; [by apply prefix_app_r|done..]. Qed.

Lemma dir_steps_leases d d' : rtc dir_step d d' → leases d `prefix_of` leases d'.
Proof. induction 1 as [d|d d1 d2 H _ IH]; [done|]. etrans; [by apply dir_step_leases|done]. Qed.

Lemma countable_prefix d d' : leases d `prefix_of` leases d' → countable_leases d' → countable_leases d.
Proof. intros H%prefix_length. unfold countable_leases. lia. Qed.

Lemma dir_step_ok d d' : dir_step d d' → countable_leases d → dir_ok d → dir_ok d'.
Proof.
  intros Hstep Hcount Hok c' i'. specialize (Hok c' i') as Hs.
  destruct Hstep as [ttl env c i o p res s' H|ttl env l res s' H|env l res s' H|s' H]; cbn [store leases].
  - rewrite grants_app, grants_new. apply acquire_effect in H as [->|Hg].
    { rewrite new_lease_same. case_bool_decide; by rewrite app_nil_r. }
    case_bool_decide as E.
    + injection E as -> ->. eapply session_ok_grant; [done| |done].
      unfold countable_leases in Hcount. pose proof (grants_length c i (leases d)). lia.
    + rewrite app_nil_r. by eapply grant_frame.
  - apply renew_effect in H as [->|(ms & Hms & ->)]; [done|].
    assert (Hk : generation_key c' i' ≠ lease_key (community_id l) (session_id l))
      by (intros E; symmetry in E; by apply lease_key_not_generation in E).
    apply (session_ok_frame (store d)); [by rewrite pexpire_get| |left; by rewrite pexpire_get|done].
    rewrite pexpire_volatile by done. apply Hs.
  - apply release_effect in H as [->|[_ ->]]; [done|].
    assert (Hk : generation_key c' i' ≠ lease_key (community_id l) (session_id l))
      by (intros E; symmetry in E; by apply lease_key_not_generation in E).
    apply (session_ok_frame (store d)); [|rewrite del_volatile by done; apply Hs| |done].
    + rewrite del_get. by destruct (_ =? _)%string eqn:E; [apply String.eqb_eq in E|].
    + rewrite del_get. destruct (_ =? _)%string; [by right|by left].
  - destruct (elapse_get _ _ (generation_key c' i') H) as [Hg|[_ Hv]]; [|by rewrite (so_persistent _ _ _ _ Hs) in Hv].
    apply (session_ok_frame (store d)); [done| | |done].
    + eapply elapse_volatile; [done|]. apply Hs.
    + destruct (elapse_get _ _ (lease_key c' i') H) as [Hl|[Hl _]]; [by left|by right].
Qed.

Lemma dir_initial_ok d : dir_initial d → dir_ok d.
Proof.
  intros [Hl H] c i. rewrite Hl. constructor; [done|apply H|apply H|]. left. apply H.
Qed.

Lemma dir_steps_ok d d' : rtc dir_step d d' → countable_leases d' → dir_ok d → dir_ok d'.
Proof.
  induction 1 as [d|d d1 d2 H Hs IH]; [done|]. intros Hc Hok. apply IH; [done|]. eapply dir_step_ok; [done| |done].
  eapply countable_prefix; [|exact Hc]. etrans; [by apply dir_step_leases|by apply dir_steps_leases].
Qed.

Lemma dir_reachable_ok d : dir_reachable d → countable_leases d → dir_ok d.
Proof. intros (d0 & H0 & Hs) Hc. eapply dir_steps_ok; [done|done|]. by apply dir_initial_ok. Qed.

(** ** What the store says of a session *)

Lemma parse_generation_pretty n : (0 < n < 2 ^ 64)%N → parse_optional_generation (pretty n) = Ok (Some n).
Proof.
  intros Hn. unfold parse_optional_generation.
  destruct (pretty n =? "")%string eqn:E; [by apply String.eqb_eq, pretty_N_nonempty in E|].
  rewrite parse_unsigned_pretty by lia. destruct (n =? 0)%N eqn:E0; [apply N.eqb_eq in E0; lia|done].
Qed.

Definition all_grants (d : DirState) (c i : Uuid) : list SessionLease := grants c i (leases d).

Lemma elem_of_grants c i l ls : l ∈ grants c i ls ↔ l ∈ ls ∧ community_id l = c ∧ session_id l = i.
Proof.
  unfold grants. rewrite !list_elem_of_In, filter_In, andb_true_iff, !N.eqb_eq. done.
Qed.

Section facts.
Context (d : DirState) (Hok : dir_ok d) (Hcount : countable_leases d).

Lemma grants_small c i : (N.of_nat (length (all_grants d c i)) < LUA_EXACT)%N.
Proof. unfold countable_leases in Hcount. pose proof (grants_length c i (leases d)). unfold all_grants. lia. Qed.

Lemma grant_generation c i l :
  l ∈ all_grants d c i → (0 < generation l ≤ N.of_nat (length (all_grants d c i)))%N.
Proof.
  intros [n Hn]%list_elem_of_lookup. pose proof (lookup_lt_Some _ _ _ Hn).
  apply (so_generation _ _ _ _ (Hok c i)) in Hn as (-> & _). unfold all_grants in *. lia.
Qed.

(** A lease of the session is determined by its generation. *)
Lemma grant_determined c i l l' :
  l ∈ all_grants d c i → l' ∈ all_grants d c i → generation l = generation l' → l = l'.
Proof.
  intros [n Hn]%list_elem_of_lookup [n' Hn']%list_elem_of_lookup Hg.
  pose proof (proj1 (so_generation _ _ _ _ (Hok c i) _ _ Hn)) as H1.
  pose proof (proj1 (so_generation _ _ _ _ (Hok c i) _ _ Hn')) as H2.
  assert (n = n') as <- by lia. unfold all_grants in *. congruence.
Qed.

Lemma last_grant_generation c i l :
  last (all_grants d c i) = Some l → generation l = N.of_nat (length (all_grants d c i)).
Proof.
  rewrite last_lookup. intros Hl. pose proof (lookup_lt_Some _ _ _ Hl).
  apply (so_generation _ _ _ _ (Hok c i)) in Hl as (-> & _). unfold all_grants in *. lia.
Qed.

Lemma last_grant_elem c i l : last (all_grants d c i) = Some l → l ∈ all_grants d c i.
Proof. apply last_Some_elem_of. Qed.

Lemma parse_grant c i l : l ∈ all_grants d c i → parse_lease c i (lease_value l) = Ok l.
Proof.
  intros Hl. pose proof (grant_generation _ _ _ Hl). pose proof (grants_small c i) as Hs.
  apply elem_of_grants in Hl as (_ & <- & <-). apply parse_lease_value. unfold LUA_EXACT, all_grants in *. lia.
Qed.

(** The live lease is the last one granted, if any. *)
Lemma live_cases c i :
  (redis_get (store d) (lease_key c i) = None ∧ lookup c i (store d) = Ok None) ∨
  ∃ l, last (all_grants d c i) = Some l ∧ redis_get (store d) (lease_key c i) = Some (lease_value l) ∧
       lookup c i (store d) = Ok (Some l).
Proof.
  unfold lookup. destruct (so_live _ _ _ _ (Hok c i)) as [Hn|(l & Hl & Hv)].
  - left. by rewrite Hn.
  - right. exists l. rewrite Hv, (parse_grant c i) by by apply last_grant_elem. done.
Qed.

Lemma live_value c i l : l ∈ all_grants d c i →
  lookup c i (store d) = Ok (Some l) ↔ redis_get (store d) (lease_key c i) = Some (lease_value l).
Proof.
  intros Hl. destruct (live_cases c i) as [[Hn ->]|(l' & Hlast & Hv & ->)]; [by rewrite Hn|].
  rewrite Hv. split; [by intros [= ->]|]. intros [= E]. do 2 f_equal.
  pose proof (parse_grant c i _ (last_grant_elem _ _ _ Hlast)) as H1. pose proof (parse_grant c i _ Hl) as H2. congruence.
Qed.

Lemma counter_value c i :
  parse_optional_generation (default "" (redis_get (store d) (generation_key c i))) =
  Ok (match all_grants d c i with [] => None | _ => Some (N.of_nat (length (all_grants d c i))) end).
Proof.
  rewrite (so_counter _ _ _ _ (Hok c i)). pose proof (grants_small c i) as Hs. unfold all_grants in *.
  destruct (grants c i (leases d)) as [|l ls] eqn:E; [done|].
  apply parse_generation_pretty. unfold LUA_EXACT in Hs. simpl in *. lia.
Qed.

Lemma owner_matches_live l : l ∈ leases d →
  owner_matches l (store d) ↔ lookup (community_id l) (session_id l) (store d) = Ok (Some l).
Proof.
  intros Hl. assert (Hg : l ∈ all_grants d (community_id l) (session_id l)) by by apply elem_of_grants.
  rewrite live_value by done. split.
  - intros (v & p & Hv & Hm). destruct (live_cases (community_id l) (session_id l)) as [[Hn _]|(l' & Hlast & Hv' & _)];
      [congruence|]. rewrite Hv'. f_equal. rewrite Hv' in Hv. simplify_eq. rewrite lua_match_value in Hm.
    injection Hm as Ho Hgen _. apply pretty_N_inj in Hgen. f_equal.
    apply (grant_determined _ _ _ _ (last_grant_elem _ _ _ Hlast) Hg Hgen).
  - intros Hv. exists (lease_value l), (as_wire_str (profile l)). split; [done|]. apply lua_match_value.
Qed.

End facts.

(** ** Once gone, a lease stays gone *)

Lemma step_grant_cases d d' c i :
  dir_step d d' → dir_ok d → countable_leases d →
  (all_grants d' c i = all_grants d c i ∧
     (redis_get (store d') (lease_key c i) = redis_get (store d) (lease_key c i) ∨
      redis_get (store d') (lease_key c i) = None)) ∨
  ∃ l, all_grants d' c i = all_grants d c i ++ [l] ∧ generation l = N.of_nat (S (length (all_grants d c i))) ∧
    redis_get (store d') (lease_key c i) = Some (lease_value l).
Proof.
  intros Hstep Hok Hcount. unfold all_grants.
  destruct Hstep as [ttl env c' i' o p res s' H|ttl env l res s' H|env l res s' H|s' H]; cbn [store leases].
  - rewrite grants_app, grants_new. apply acquire_effect in H as [->|Hg].
    { left. rewrite new_lease_same. split; [case_bool_decide; by rewrite app_nil_r|by left]. }
    case_bool_decide as E.
    + injection E as -> ->. right. destruct (grant_lease _ _ _ _ _ _ _ (Hok c' i') (grants_small d Hcount c' i') Hg) as [Hv ->].
      eexists. split_and!; [done|done|exact Hv].
    + left. split; [by rewrite app_nil_r|]. left. destruct Hg as [g s1 ms Hnone Hi ->].
      rewrite set_get, (incr_get _ _ _ _ _ Hi).
      destruct (lease_key c i =? lease_key c' i')%string eqn:E1; [apply String.eqb_eq, lease_key_inj in E1 as [-> ->]; done|].
      destruct (lease_key c i =? generation_key c' i')%string eqn:E2; [|done].
      by apply String.eqb_eq, lease_key_not_generation in E2.
  - left. split; [done|]. left. apply renew_effect in H as [->|(ms & Hms & ->)]; [done|]. by apply pexpire_get.
  - left. split; [done|]. apply release_effect in H as [->|[_ ->]]; [by left|]. rewrite del_get.
    destruct (_ =? _)%string; [by right|by left].
  - left. split; [done|]. destruct (elapse_get _ _ (lease_key c i) H) as [?|[? _]]; [by left|by right].
Qed.

Lemma dead_stays_dead d d' l :
  rtc dir_step d d' → dir_ok d → countable_leases d' → l ∈ leases d →
  lookup (community_id l) (session_id l) (store d) ≠ Ok (Some l) →
  lookup (community_id l) (session_id l) (store d') ≠ Ok (Some l).
Proof.
  set (c := community_id l). set (i := session_id l).
  induction 1 as [d|d d1 d2 H Hs IH]; [done|]. intros Hok Hcount Hl Hdead.
  assert (Hc1 : countable_leases d1) by (eapply countable_prefix; [|exact Hcount]; by apply dir_steps_leases).
  assert (Hc : countable_leases d) by (eapply countable_prefix; [|exact Hc1]; by apply dir_step_leases).
  assert (Hok1 : dir_ok d1) by by eapply dir_step_ok.
  assert (Hl1 : l ∈ leases d1) by (destruct (dir_step_leases _ _ H) as [k ->]; set_solver).
  assert (Hg : l ∈ all_grants d c i) by by apply elem_of_grants.
  assert (Hg1 : l ∈ all_grants d1 c i) by by apply elem_of_grants.
  apply IH; [done|done|done|]. rewrite (live_value d1 Hok1 Hc1) by done.
  rewrite (live_value d Hok Hc) in Hdead by done.
  destruct (step_grant_cases d d1 c i H Hok Hc) as [[_ [->| ->]]|(l' & Hall & Hgen & ->)]; [done|done|].
  intros [= Heq].
  assert (l' = l) as ->.
  { assert (Hg' : l' ∈ all_grants d1 c i) by (rewrite Hall; set_solver).
    pose proof (parse_grant d1 Hok1 Hc1 c i _ Hg') as P1. pose proof (parse_grant d1 Hok1 Hc1 c i _ Hg1) as P2. congruence. }
  pose proof (grant_generation d Hok c i l Hg). lia.
Qed.

(** ** Properties *)

(** C10: In every execution of any number of runtimes with failing calls and expiring leases,
    the n-th lease of a session has generation n, at most the last one is live, and the counter
    tells the number of leases written. *)
Theorem lease_fencing d c i :
  dir_reachable d → countable_leases d →
  let granted := grants c i (leases d) in
  (∀ n l, granted !! n = Some l → generation l = N.of_nat (S n)) ∧
  (lookup c i (store d) = Ok None ∨ ∃ l, last granted = Some l ∧ lookup c i (store d) = Ok (Some l)) ∧
  known_generation c i (store d) = Ok (match granted with [] => None | _ => Some (N.of_nat (length granted)) end).
Proof.
  intros Hr Hc granted. pose proof (dir_reachable_ok d Hr Hc) as Hok. split_and!.
  - intros n l Hn. by apply (so_generation _ _ _ _ (Hok c i)) in Hn as (-> & _).
  - destruct (live_cases d Hok Hc c i) as [[_ Hl]|(l & Hlast & _ & Hl)]; [by left|right]. by exists l.
  - unfold known_generation. pose proof (counter_value d Hok Hc c i) as Hv.
    rewrite (so_counter _ _ _ _ (Hok c i)) in Hv |- *. unfold all_grants in Hv. fold granted in Hv |- *.
    by destruct granted.
Qed.

(** The fence, as a function of the lease and of the number of leases written. *)
Lemma fence_exact d c h :
  dir_reachable d → countable_leases d →
  let known := N.of_nat (length (grants c (fh_session_id h) (leases d))) in
  validate_fenced_header true true c h (store d) =
    if (fh_generation h <? known)%N then Err (StaleGeneration (fh_session_id h) (fh_generation h) known)
    else match lookup c (fh_session_id h) (store d) with
         | Ok (Some l) =>
             if negb (fh_generation h =? known)%N then Err (FutureGeneration (fh_session_id h) (fh_generation h) known)
             else if negb (bool_decide (fh_owner_runtime_id h = owner_runtime_id l))
             then Err (OwnerMismatch (fh_session_id h) (fh_generation h) (fh_owner_runtime_id h) (owner_runtime_id l))
             else Ok tt
         | _ => Err (NoActiveLease (fh_session_id h) (fh_generation h) known (fh_owner_runtime_id h))
         end.
Proof.
  intros Hr Hc known. pose proof (dir_reachable_ok d Hr Hc) as Hok. set (i := fh_session_id h) in *.
  unfold validate_fenced_header, validate_script. cbn [negb]. fold i. rewrite (counter_value d Hok Hc c i). csimpl.
  assert (Hk : default 0%N (match all_grants d c i with [] => None | _ => Some (N.of_nat (length (all_grants d c i))) end) = known).
  { unfold all_grants, known. by destruct (grants c i (leases d)). }
  rewrite Hk. destruct (live_cases d Hok Hc c i) as [[Hn ->]|(l & Hlast & Hv & ->)].
  - rewrite Hn. csimpl. rewrite N.max_id.
    assert (Hz : (0 <? known)%N && (fh_generation h <? known)%N = (fh_generation h <? known)%N).
    { destruct (N.ltb_spec (fh_generation h) known); [|by rewrite andb_false_r]. rewrite andb_true_r. apply N.ltb_lt. lia. }
    by rewrite Hz.
  - rewrite Hv. unfold default, parse_optional_lease, Datatypes.id.
    destruct (lease_value l =? "")%string eqn:E; [by apply String.eqb_eq, lease_value_nonempty in E|].
    rewrite (parse_grant d Hok Hc c i) by by apply last_grant_elem. csimpl.
    pose proof (last_grant_generation d Hok c i l Hlast) as Hg. unfold all_grants in Hg. fold known in Hg.
    rewrite Hg, N.max_id.
    assert (Hz : (0 <? known)%N && (fh_generation h <? known)%N = (fh_generation h <? known)%N).
    { destruct (N.ltb_spec (fh_generation h) known); [|by rewrite andb_false_r]. rewrite andb_true_r. apply N.ltb_lt. lia. }
    by rewrite Hz.
Qed.

(** C13: Once the lease of a runtime is no longer the live one, no frame with its header passes
    the fence in any later state. *)
Theorem stale_owner_stays_fenced d d' l pool redis :
  dir_reachable d → rtc dir_step d d' → countable_leases d' → l ∈ leases d →
  lookup (community_id l) (session_id l) (store d) ≠ Ok (Some l) →
  validate_fenced_header pool redis (community_id l) (fenced_header l) (store d') ≠ Ok tt.
Proof.
  intros Hr Hs Hc' Hl Hdead Hv.
  assert (Hc : countable_leases d) by (eapply countable_prefix; [|exact Hc']; by apply dir_steps_leases).
  pose proof (dir_reachable_ok d Hr Hc) as Hok. assert (Hok' : dir_ok d') by by eapply dir_steps_ok.
  assert (Hl' : l ∈ leases d') by (destruct (dir_steps_leases _ _ Hs) as [k ->]; set_solver).
  apply (dead_stays_dead d d' l Hs Hok Hc' Hl Hdead).
  destruct pool, redis; try done. rewrite fence_exact in Hv; [|by destruct Hr as (d0 & ? & ?); exists d0; split; [|by etrans]|done].
  simpl in Hv. destruct (_ <? _)%N; [done|].
  destruct (live_cases d' Hok' Hc' (community_id l) (session_id l)) as [[_ Hlook]|(l' & Hlast & _ & Hlook)];
    rewrite Hlook in Hv; [done|]. rewrite Hlook. do 2 f_equal.
  destruct (generation l =? _)%N eqn:E; [apply N.eqb_eq in E|done].
  apply (grant_determined d' Hok' (community_id l) (session_id l)); [by apply last_grant_elem|by apply elem_of_grants|].
  by rewrite (last_grant_generation d' Hok' _ _ _ Hlast).
Qed.

(** The failures that say nothing of the lease. *)
Definition call_failure (e : DirectoryError) : Prop :=
  e = PoolError ∨ e = RedisError ∨ e = CommunityWriteFenced ∨ e = InvalidLeaseTtl.

Lemma ttl_failure ms e : ttl_ms ms = Err e → call_failure e.
Proof. unfold ttl_ms. destruct (_ && _); [done|]. intros [= <-]. unfold call_failure. auto. Qed.

Lemma invoke_failure {A} env (script : Redis → option (A * Redis)) s e s' :
  invoke env script s = (Err e, s') → call_failure e.
Proof.
  unfold invoke, call_failure. intros H. destruct (ce_fault env) as [[[]|[]]|]; simplify_eq; auto.
  destruct (script s) as [[a s'']|]; simplify_eq; auto.
Qed.

(** An acquisition writes the next lease when there is none, and else returns
    the live one. *)
Lemma acquire_exclusive d ttl env c i o p res s' :
  dir_reachable d → countable_leases d → acquire ttl env c i o p (store d) = (res, s') →
  match res with
  | Ok (Acquired l) =>
      l = granted_lease c i o (N.of_nat (S (length (grants c i (leases d))))) p ∧
      lookup c i (store d) = Ok None ∧ lookup c i s' = Ok (Some l)
  | Ok (Exists l) => lookup c i (store d) = Ok (Some l) ∧ s' = store d
  | Err e => call_failure e
  end.
Proof.
  intros Hr Hc H. pose proof (dir_reachable_ok d Hr Hc) as Hok. unfold acquire in H.
  destruct (ce_fenced env); [simplify_eq; unfold call_failure; auto|].
  destruct (ttl_ms ttl) as [ms|e] eqn:Ht; [|simplify_eq; by eapply ttl_failure].
  destruct (negb (ce_pool env)); [simplify_eq; unfold call_failure; auto|].
  destruct (invoke env _ (store d)) as [reply s2] eqn:Hi. simplify_eq.
  destruct reply as [[[status value] kn]|e]; csimpl; [|by eapply invoke_failure].
  apply invoke_effect in Hi as [_ Hi]. destruct (Hi _ eq_refl) as [_ Ha]. clear Hi. unfold acquire_script in Ha.
  destruct (live_cases d Hok Hc c i) as [[Hn Hlook]|(l & Hlast & Hv & Hlook)]; rewrite ?Hn, ?Hv in Ha.
  - destruct (redis_incr _ _) as [[g s1]|] eqn:Hincr; csimpl in Ha; [|done]. injection Ha as <- <- <- <-.
    assert (Hg : grant c i o p (store d) (redis_set_px s1 (lease_key c i)
      (to_hex o +:+ "|" +:+ lua_tostring g +:+ "|" +:+ as_wire_str p) ms)) by by econstructor.
    destruct (grant_lease _ _ _ _ _ _ _ (Hok c i) (grants_small d Hc c i) Hg) as [Hget Hnew].
    set (l := granted_lease c i o _ p) in *.
    assert (Hp : parse_lease c i (lease_value l) = Ok l).
    { apply (parse_lease_value l). simpl. pose proof (grants_small d Hc c i). unfold LUA_EXACT, all_grants in *. lia. }
    rewrite set_get, String.eqb_refl in Hget. injection Hget as ->. rewrite Hp. csimpl.
    destruct (negb (ce_finish env)); [unfold call_failure; auto|]. cbn. split_and!; [done|done|].
    unfold lookup. rewrite set_get, String.eqb_refl. by rewrite Hp.
  - injection Ha as <- <- <- <-. rewrite (parse_grant d Hok Hc c i) by by apply last_grant_elem. csimpl.
    destruct (negb (ce_finish env)); [unfold call_failure; auto|]. by cbn.
Qed.

Lemma owner_reply_refused env done_ c i status value known cur k :
  status ≠ done_ → status = "missing" ∨ status = "lost" →
  parse_optional_lease c i value = Ok cur → parse_optional_generation known = Ok k →
  owner_reply env done_ c i (status, value, known) =
    if ce_finish env then Ok (inr (cur, k)) else Err CommunityWriteFenced.
Proof.
  intros Hd Hs Hc Hk. unfold owner_reply. rewrite Hc. simpl. destruct (ce_finish env); [|done]. simpl.
  destruct (status =? done_)%string eqn:E; [by apply String.eqb_eq in E|]. rewrite Hk.
  by destruct Hs as [-> | ->].
Qed.

Lemma owner_reply_granted env done_ c i value known cur :
  parse_optional_lease c i value = Ok cur →
  owner_reply env done_ c i (done_, value, known) = if ce_finish env then Ok (inl cur) else Err CommunityWriteFenced.
Proof. intros Hc. unfold owner_reply. rewrite Hc. simpl. destruct (ce_finish env); [|done]. simpl. by rewrite String.eqb_refl. Qed.

(** The reply of a script that checks the owner, read by the caller. *)
Lemma owner_reply_spec d env done_ act l reply s' :
  dir_ok d → countable_leases d → l ∈ leases d →
  done_ ≠ "missing" → done_ ≠ "lost" →
  let c := community_id l in let i := session_id l in
  owner_script done_ act (lease_key c i) (generation_key c i) (to_hex (owner_runtime_id l)) (pretty (generation l))
    (store d) = Some (reply, s') →
  match owner_reply env done_ c i reply with
  | Ok (inl cur) => cur = Some l ∧ lookup c i (store d) = Ok (Some l) ∧ s' = act (store d)
  | Ok (inr (cur, k)) => lookup c i (store d) = Ok cur ∧ cur ≠ Some l ∧ s' = store d ∧
      k = Some (N.of_nat (length (grants c i (leases d))))
  | Err e => call_failure e
  end.
Proof.
  intros Hok Hc Hl Hd1 Hd2 c i H.
  assert (Hne : all_grants d c i ≠ []).
  { intros E. assert (Hin : l ∈ all_grants d c i) by by apply elem_of_grants. rewrite E in Hin. by apply elem_of_nil in Hin. }
  pose proof (counter_value d Hok Hc c i) as Hk. pose proof (owner_matches_live d Hok Hc l Hl) as Hm.
  pose proof (so_counter _ _ _ _ (Hok c i)) as Hcnt. unfold all_grants in Hne, Hk.
  destruct (grants c i (leases d)) as [|l0 ls0] eqn:Eg; [done|]. rewrite <- Eg in *. rewrite Hcnt in Hk.
  fold c i in Hm. destruct reply as [[status value] kn].
  destruct (live_cases d Hok Hc c i) as [[Hn Hlook]|(cur & Hlast & Hv & Hlook)]; unfold owner_script in H.
  - rewrite Hn, Hcnt in H. injection H as <- <- <- <-.
    rewrite (owner_reply_refused _ _ _ _ _ _ _ None (Some (N.of_nat (length (grants c i (leases d)))))); auto.
    destruct (ce_finish env); [by split_and!|unfold call_failure; auto].
  - rewrite Hv, lua_match_value, Hcnt in H.
    assert (Hpar : parse_optional_lease c i (lease_value cur) = Ok (Some cur)).
    { unfold parse_optional_lease. destruct (lease_value cur =? "")%string eqn:E; [by apply String.eqb_eq, lease_value_nonempty in E|].
      by rewrite (parse_grant d Hok Hc c i) by by apply last_grant_elem. }
    destruct (_ && _) eqn:Eb; injection H as <- <- <- <-.
    + rewrite (owner_reply_granted _ _ _ _ _ _ (Some cur)) by done.
      destruct (ce_finish env); [|unfold call_failure; auto].
      assert (Hlive : owner_matches l (store d)).
      { apply andb_true_iff in Eb as [Eo%String.eqb_eq Eg'%String.eqb_eq].
        exists (lease_value cur), (as_wire_str (profile cur)). split; [done|]. by rewrite lua_match_value, Eo, Eg'. }
      apply Hm in Hlive. rewrite Hlook in Hlive. simplify_eq. done.
    + rewrite (owner_reply_refused _ _ _ _ _ _ _ (Some cur) (Some (N.of_nat (length (grants c i (leases d)))))); auto.
      destruct (ce_finish env); [|unfold call_failure; auto].
      split_and!; [done| |done|done]. intros [= ->]. by rewrite !String.eqb_refl in Eb.
Qed.

Lemma renew_truthful d ttl env l :
  dir_reachable d → countable_leases d → l ∈ leases d →
  let look := lookup (community_id l) (session_id l) in
  let known := Some (N.of_nat (length (grants (community_id l) (session_id l) (leases d)))) in
  let '(res, s') := renew ttl env l (store d) in
  match res with
  | Some (Ok (Renewed l')) => l' = l ∧ look (store d) = Ok (Some l) ∧ look s' = Ok (Some l)
  | Some (Ok (Lost cur k)) => look (store d) = Ok cur ∧ cur ≠ Some l ∧ s' = store d ∧ k = known
  | Some (Err e) => call_failure e
  | None => False
  end.
Proof.
  intros Hr Hc Hl look known. pose proof (dir_reachable_ok d Hr Hc) as Hok. unfold renew. destruct (ce_fenced env); [unfold call_failure; auto|].
  destruct (ttl_ms ttl) as [ms|e] eqn:Ht; [|by eapply ttl_failure].
  destruct (negb (ce_pool env)); [unfold call_failure; auto|].
  destruct (invoke env _ (store d)) as [reply s'] eqn:Hi.
  destruct reply as [reply|e]; csimpl; [|by eapply invoke_failure].
  apply invoke_effect in Hi as [_ Hi]. destruct (Hi _ eq_refl) as [_ Ha].
  pose proof (owner_reply_spec d env "renewed" _ l reply s' Hok Hc Hl ltac:(done) ltac:(done) Ha) as H.
  destruct (owner_reply _ _ _ _ reply) as [[cur|[cur k]]|e]; [|done|done].
  destruct H as (-> & Hlook & ->). split_and!; [done|done|]. unfold look, lookup in *. rewrite pexpire_get; [done|].
  unfold ttl_ms in Ht. destruct (_ && (0 <? ttl)%Z) eqn:E; simplify_eq. apply andb_true_iff in E as [_ E]. by apply Z.ltb_lt in E.
Qed.

Lemma release_truthful d env l :
  dir_reachable d → countable_leases d → l ∈ leases d →
  let look := lookup (community_id l) (session_id l) in
  let known := Some (N.of_nat (length (grants (community_id l) (session_id l) (leases d)))) in
  let '(res, s') := release env l (store d) in
  match res with
  | Some (Ok (Released l')) => l' = l ∧ look (store d) = Ok (Some l) ∧ look s' = Ok None
  | Some (Ok (NotOwner cur k)) => look (store d) = Ok cur ∧ cur ≠ Some l ∧ s' = store d ∧ k = known
  | Some (Err e) => call_failure e
  | None => False
  end.
Proof.
  intros Hr Hc Hl look known. pose proof (dir_reachable_ok d Hr Hc) as Hok. unfold release. destruct (ce_fenced env); [unfold call_failure; auto|].
  destruct (negb (ce_pool env)); [unfold call_failure; auto|].
  destruct (invoke env _ (store d)) as [reply s'] eqn:Hi.
  destruct reply as [reply|e]; csimpl; [|by eapply invoke_failure].
  apply invoke_effect in Hi as [_ Hi]. destruct (Hi _ eq_refl) as [_ Ha].
  pose proof (owner_reply_spec d env "released" _ l reply s' Hok Hc Hl ltac:(done) ltac:(done) Ha) as H.
  destruct (owner_reply _ _ _ _ reply) as [[cur|[cur k]]|e]; [|done|done].
  destruct H as (-> & Hlook & ->). split_and!; [done|done|]. unfold look, lookup. by rewrite del_get, String.eqb_refl.
Qed.

(** Renewing or releasing a lease succeeds only when it is the live one, and then keeps or
    removes it; else the answer names the live lease and the generation reached and nothing
    changes; a failed call says nothing, and the expect of the code never panics. *)
Theorem owner_calls_truthful d ttl env l :
  dir_reachable d → countable_leases d → l ∈ leases d →
  let look := lookup (community_id l) (session_id l) in
  let known := Some (N.of_nat (length (grants (community_id l) (session_id l) (leases d)))) in
  (let '(res, s') := renew ttl env l (store d) in
  match res with
  | Some (Ok (Renewed l')) => l' = l ∧ look (store d) = Ok (Some l) ∧ look s' = Ok (Some l)
  | Some (Ok (Lost cur k)) => look (store d) = Ok cur ∧ cur ≠ Some l ∧ s' = store d ∧ k = known
  | Some (Err e) => call_failure e
  | None => False
  end) ∧
  (let '(res, s') := release env l (store d) in
  match res with
  | Some (Ok (Released l')) => l' = l ∧ look (store d) = Ok (Some l) ∧ look s' = Ok None
  | Some (Ok (NotOwner cur k)) => look (store d) = Ok cur ∧ cur ≠ Some l ∧ s' = store d ∧ k = known
  | Some (Err e) => call_failure e
  | None => False
  end).
Proof. intros Hr Hc Hl look known. split; [by apply renew_truthful|by apply release_truthful]. Qed.

Lemma acquire_steps (d : DirState) ttl env c i o p ls :
  let s' := (acquire ttl env c i o p (store d)).2 in
  ls = leases d ++ new_lease c i (store d) s' → dir_step d {| store := s'; leases := ls |}.
Proof.
  intros s' ->. destruct (acquire ttl env c i o p (store d)) as [res s''] eqn:E. subst s'. simpl.
  by eapply step_acquire.
Qed.

End props.

(** ** A concrete store

    A key with its value and whether it has an expiry.  Time may remove any key
    that has one. *)

Definition mem_incr (s : gmap string (string * bool)) (k : string) : option (N * gmap string (string * bool)) :=
  match s !! k with
  | None => Some (1%N, <[k := ("1", false)]> s)
  | Some (v, e) =>
      n ← parse_unsigned 64 v; Some ((n + 1)%N, <[k := (pretty (n + 1)%N, e)]> s)
  end.

#[export] Instance mem_redis : RedisLib := {|
  Redis := gmap string (string * bool);
  redis_get s k := fst <$> s !! k;
  redis_volatile s k := match s !! k with Some (_, e) => e | None => false end;
  redis_incr := mem_incr;
  redis_set_px s k v _ := <[k := (v, true)]> s;
  redis_pexpire s k ttl :=
    if (ttl <=? 0)%Z then delete k s else match s !! k with Some (v, _) => <[k := (v, true)]> s | None => s end;
  redis_del s k := delete k s;
  redis_elapse s s' := ∀ k, s' !! k = s !! k ∨ (s' !! k = None ∧ ∃ v, s !! k = Some (v, true));
  lua_tostring n := pretty n
|}.

#[export] Instance mem_redis_laws : RedisLaws mem_redis.
Proof.
  constructor; cbn -[String.eqb].
  - intros s k H. unfold mem_incr. destruct (s !! k); [done|by eexists].
  - intros s k n H Hn. unfold mem_incr. destruct (s !! k) as [[v e]|]; [|done]. simpl in H. simplify_eq.
    rewrite parse_unsigned_pretty by (unfold LUA_EXACT in Hn; lia). by eexists.
  - intros s k n s' k' H. unfold mem_incr in H. destruct (s !! k) as [[v e]|] eqn:E.
    + destruct (parse_unsigned 64 v) as [m|]; simplify_eq/=.
      destruct (String.eqb_spec k' k) as [->|Hk]; [by rewrite lookup_insert_eq|by rewrite lookup_insert_ne].
    + simplify_eq. destruct (String.eqb_spec k' k) as [->|Hk]; [by rewrite lookup_insert_eq|by rewrite lookup_insert_ne].
  - intros s k n s' k' H. unfold mem_incr in H. destruct (s !! k) as [[v e]|] eqn:E.
    + destruct (parse_unsigned 64 v) as [m|]; simplify_eq/=.
      destruct (decide (k' = k)) as [->|Hk]; [by rewrite lookup_insert_eq, E|by rewrite lookup_insert_ne].
    + simplify_eq. destruct (decide (k' = k)) as [->|Hk]; [by rewrite lookup_insert_eq, E|by rewrite lookup_insert_ne].
  - intros s k v ttl k'. destruct (String.eqb_spec k' k) as [->|Hk]; [by rewrite lookup_insert_eq|by rewrite lookup_insert_ne].
  - intros s k v ttl k' Hk. by rewrite lookup_insert_ne.
  - intros s k ttl k' Ht. destruct (Z.leb_spec ttl 0); [lia|]. destruct (s !! k) as [[v e]|] eqn:E; [|done].
    destruct (decide (k' = k)) as [->|Hk]; [by rewrite lookup_insert_eq, E|by rewrite lookup_insert_ne].
  - intros s k ttl k' Hk. destruct (ttl <=? 0)%Z; [by rewrite lookup_delete_ne|].
    destruct (s !! k) as [[v e]|]; [by rewrite lookup_insert_ne|done].
  - intros s k k'. destruct (String.eqb_spec k' k) as [->|Hk]; [by rewrite lookup_delete_eq|by rewrite lookup_delete_ne].
  - intros s k k' Hk. by rewrite lookup_delete_ne.
  - intros s s' k H. destruct (H k) as [->|[-> (v & ->)]]; [by left|by right].
  - intros s s' k H. destruct (H k) as [->|[-> _]]; done.
  - done.
Qed.

(** Runtimes are numbers, printed in binary. *)
#[local] Instance mem_runtime : RuntimeLib := {|
  RuntimeId := N;
  to_hex r := String "0" (print_pos (N.succ_pos r));
  from_hex t := match t with String _ t' => Some (N.pred (Npos (parse_pos t'))) | EmptyString => None end
|}.

#[local] Instance mem_runtime_laws : RuntimeLaws mem_runtime.
Proof.
  constructor.
  - intros r. cbn. rewrite parse_print_pos. f_equal. lia.
  - intros r. cbn. generalize (N.succ_pos r). intros p. split; [|done].
    induction p as [p IH|p IH|]; simpl; [exact IH|exact IH|done].
Qed.

(** ** The witnesses *)

#[local] Existing Instance text_lib.
#[local] Existing Instance text_lib_uuids.

Definition demo_env : CallEnv := {| ce_fenced := false; ce_pool := true; ce_fault := None; ce_finish := true |}.
Definition demo_runtime (n : N) : RuntimeId := n.
Definition demo_lease (o g : N) : SessionLease := granted_lease 3%N 7%N (demo_runtime o) g ReliableStream.

Definition demo_start : DirState := {| store := ∅; leases := [] |}.

(** Runtime 11 takes the session and loses it to expiry; runtime 12 takes it
    over. *)
Definition demo_first : gmap string (string * bool) := (acquire 1000 demo_env 3%N 7%N (demo_runtime 11) ReliableStream ∅).2.
Definition demo_expired : gmap string (string * bool) := delete (lease_key 3%N 7%N) demo_first.
Definition demo_second : gmap string (string * bool) := (acquire 1000 demo_env 3%N 7%N (demo_runtime 12) ReliableStream demo_expired).2.

Definition demo_state1 : DirState := {| store := demo_first; leases := [demo_lease 11 1] |}.
Definition demo_state2 : DirState := {| store := demo_expired; leases := [demo_lease 11 1] |}.
Definition demo_state3 : DirState := {| store := demo_second; leases := [demo_lease 11 1; demo_lease 12 2] |}.

Lemma demo_initial : dir_initial demo_start.
Proof. by split. Qed.

Lemma demo_step1 : dir_step demo_start demo_state1.
Proof. apply (acquire_steps demo_start 1000 demo_env 3%N 7%N (demo_runtime 11) ReliableStream). vm_compute. reflexivity. Qed.
Lemma demo_step2 : dir_step demo_state1 demo_state2.
Proof.
  apply (step_elapse demo_state1). intros k.
  change (demo_expired !! k = demo_first !! k ∨ (demo_expired !! k = None ∧ ∃ v, demo_first !! k = Some (v, true))).
  unfold demo_expired.
  destruct (decide (k = lease_key 3%N 7%N)) as [->|Hk]; [right|left; by rewrite lookup_delete_ne].
  rewrite lookup_delete_eq. split; [done|]. eexists. vm_compute. reflexivity.
Qed.
Lemma demo_step3 : dir_step demo_state2 demo_state3.
Proof. apply (acquire_steps demo_state2 1000 demo_env 3%N 7%N (demo_runtime 12) ReliableStream). vm_compute. reflexivity. Qed.

Lemma dir_demo_reachable2 : dir_reachable demo_state2.
Proof. exists demo_start. split; [exact demo_initial|]. eapply rtc_l; [exact demo_step1|]. apply rtc_once, demo_step2. Qed.
Lemma dir_demo_reachable3 : dir_reachable demo_state3.
Proof.
  exists demo_start. split; [exact demo_initial|]. eapply rtc_l; [exact demo_step1|].
  eapply rtc_l; [exact demo_step2|]. apply rtc_once, demo_step3.
Qed.

Lemma demo_countable d : (N.of_nat (length (leases d)) <? LUA_EXACT)%N = true → countable_leases d.
Proof. apply N.ltb_lt. Qed.

Lemma lease_fencing_witness : dir_reachable demo_state3 ∧ known_generation 3%N 7%N (store demo_state3) = Ok (Some 2%N).
Proof.
  split; [exact dir_demo_reachable3|].
  destruct (lease_fencing demo_state3 3%N 7%N dir_demo_reachable3 (demo_countable demo_state3 eq_refl)) as (_ & _ & H).
  exact H.
Defined.

Lemma fence_exact_witness :
  validate_fenced_header true true 3%N (fenced_header (demo_lease 11 1)) (store demo_state3) = Err (StaleGeneration 7%N 1 2).
Proof.
  exact (fence_exact demo_state3 3%N (fenced_header (demo_lease 11 1)) dir_demo_reachable3 (demo_countable demo_state3 eq_refl)).
Defined.

Lemma demo_expired_lookup : lookup 3%N 7%N (store demo_state2) = Ok None.
Proof. vm_compute. reflexivity. Qed.

Lemma stale_owner_stays_fenced_witness :
  validate_fenced_header true true 3%N (fenced_header (demo_lease 11 1)) (store demo_state3) ≠ Ok tt.
Proof.
  apply (stale_owner_stays_fenced demo_state2 demo_state3 (demo_lease 11 1) true true dir_demo_reachable2
    (rtc_once _ _ demo_step3) (demo_countable demo_state3 eq_refl)).
  - simpl. by apply list_elem_of_here.
  - intros H. change (lookup 3%N 7%N (store demo_state2) = Ok (Some (demo_lease 11 1))) in H.
    rewrite demo_expired_lookup in H. discriminate H.
Defined.

Lemma acquire_exclusive_witness :
  ∃ l, (acquire 1000 demo_env 3%N 7%N (demo_runtime 12) ReliableStream (store demo_state2)).1 = Ok (Acquired l) ∧
    l = demo_lease 12 2.
Proof.
  pose proof (acquire_exclusive demo_state2 1000 demo_env 3%N 7%N (demo_runtime 12) ReliableStream _ _ dir_demo_reachable2
    (demo_countable demo_state2 eq_refl) (surjective_pairing _)) as H.
  assert (Hres : (acquire 1000 demo_env 3%N 7%N (demo_runtime 12) ReliableStream (store demo_state2)).1 =
    Ok (Acquired (demo_lease 12 2))) by (vm_compute; reflexivity).
  rewrite Hres in H. destruct H as [H _]. exists (demo_lease 12 2). split; [exact Hres|exact H].
Defined.

Lemma owner_calls_truthful_witness :
  (renew 1000 demo_env (demo_lease 11 1) (store demo_state3)).1 = Some (Ok (Lost (Some (demo_lease 12 2)) (Some 2%N))) ∧
  lookup 3%N 7%N (store demo_state3) = Ok (Some (demo_lease 12 2)).
Proof.
  destruct (owner_calls_truthful demo_state3 1000 demo_env (demo_lease 11 1) dir_demo_reachable3
    (demo_countable demo_state3 eq_refl)) as [H _]; [simpl; by apply list_elem_of_here|].
  assert (Hres : (renew 1000 demo_env (demo_lease 11 1) (store demo_state3)).1 =
    Some (Ok (Lost (Some (demo_lease 12 2)) (Some 2%N)))) by (vm_compute; reflexivity).
  split; [exact Hres|]. rewrite (surjective_pairing (renew _ _ _ _)), Hres in H. destruct H as [H _]. exact H.
Defined.
