(* ===== verification/Reliable.v ===== *)
(** * Reliable tunnel streams ([crates/maju-relay/src/tunnel/reliable.rs])

    Joining a session through the directory, the frames of a session inside the
    [Data] frames of the mesh, their validation at the receiver, and the
    renewal of an owned lease.  The consumer is the echo of
    [crates/maju-relay/src/mesh_boot.rs], the acceptance of a stream
    [stream_accept_loop] of [crates/maju-relay-mesh/src/runtime.rs].

    A stream is a pair of byte pipes ([MeshWire]); the directory is the store
    of [Directory], given at each call.  The choices of a [tokio::select!] are
    a list of events. *)
From S2P Require Import Prelude Nostr Bytes MeshWire Directory.

Definition MAX_RELIABLE_PAYLOAD_BYTES : N := 1024 * 1024.
#[global] Arguments MAX_RELIABLE_PAYLOAD_BYTES : simpl never.

(** [slice::chunks]. *)
Fixpoint chunks_fuel (fuel : nat) (n : N) (l : list Z) : list (list Z) :=
  match fuel, l with
  | S fuel', _ :: _ => take (N.to_nat n) l :: chunks_fuel fuel' n (drop (N.to_nat n) l)
  | _, _ => []
  end.
Definition chunks (n : N) (l : list Z) : list (list Z) := chunks_fuel (length l) n l.

Inductive Unexpected := UnexpectedGoodbye | UnexpectedHello | UnexpectedGossip.
Inductive Malformed := TooShort | UnknownVersion | BadGoodbyeLength | UnknownKind | UnknownReason.

(** ** The frames of a session *)

Inductive ReliableWireFrame :=
  | WireData (community : Uuid) (payload : list Z)
  | WireGoodbye (community : Uuid) (reason : GoodbyeReason).

Definition VERSION : Z := 1.
Definition DATA : Z := 1.
Definition GOODBYE : Z := 2.

Definition frame_community (f : ReliableWireFrame) : Uuid :=
  match f with WireData c _ | WireGoodbye c _ => c end.

Definition to_wire_byte (r : GoodbyeReason) : Z :=
  match r with SessionEnded => 1 | Draining => 2 | GoodbyeStale => 3 end.
Definition from_wire_byte (b : Z) : result Malformed GoodbyeReason :=
  if (b =? 1)%Z then Ok SessionEnded
  else if (b =? 2)%Z then Ok Draining
  else if (b =? 3)%Z then Ok GoodbyeStale
  else Err UnknownReason.

Definition wire_encode (f : ReliableWireFrame) : list Z :=
  match f with
  | WireData c payload => VERSION :: DATA :: uuid_bytes c ++ payload
  | WireGoodbye c reason => VERSION :: GOODBYE :: uuid_bytes c ++ [to_wire_byte reason]
  end.

Definition wire_decode (bytes : list Z) : result Malformed ReliableWireFrame :=
  if length bytes <? 18 then Err TooShort
  else
    match bytes with
    | version :: kind :: rest =>
        if negb (version =? VERSION)%Z then Err UnknownVersion
        else
          let community := uuid_from_bytes (take 16 rest) in
          if (kind =? DATA)%Z then Ok (WireData community (drop 16 rest))
          else if (kind =? GOODBYE)%Z then
            if negb (length bytes =? 19) then Err BadGoodbyeLength
            else reason ← from_wire_byte (nth 16 rest 0%Z); Ok (WireGoodbye community reason)
          else Err UnknownKind
    | _ => Err TooShort
    end.

Section reliable.
Context {L : NostrLib} {T : RuntimeLib} {P : PostcardLib T} {R : RedisLib}.

Inductive ReliableFrame := FrameData (payload : list Z) | FrameGoodbye (reason : GoodbyeReason).

Inductive ReliableStreamError :=
  | Directory (e : DirectoryError)
  | Mesh (e : MeshError)
  | ProfileMismatch (session : Uuid) (expected actual : Profile)
  | SenderMismatch (peer hello_sender : RuntimeId)
  | UnexpectedStreamRole
  | OwnerIsNotLocal (session : Uuid) (owner local : RuntimeId)
  | UnexpectedFrame (what : Unexpected)
  | FrameFenceMismatch (expected actual : FencedHeader)
  | CommunityMismatch (expected actual : Uuid)
  | MalformedReliableFrame (what : Malformed).

Record ReliableMeshStream := {
  rs_fenced : FencedHeader;
  rs_send : SendHalf;
  rs_recv : RecvHalf;
  rs_community : option Uuid
}.

(** A raw [MeshStream]. *)
Definition MeshStream : Type := SendHalf * RecvHalf.

Definition reliable_new (fenced : FencedHeader) (stream : MeshStream) : ReliableMeshStream :=
  {| rs_fenced := fenced; rs_send := stream.1; rs_recv := stream.2; rs_community := None |}.

Definition with_community (c : Uuid) (st : ReliableMeshStream) : ReliableMeshStream :=
  {| rs_fenced := rs_fenced st; rs_send := rs_send st; rs_recv := rs_recv st; rs_community := Some c |}.
Definition with_send (s : SendHalf) (st : ReliableMeshStream) : ReliableMeshStream :=
  {| rs_fenced := rs_fenced st; rs_send := s; rs_recv := rs_recv st; rs_community := rs_community st |}.
Definition with_recv (r : RecvHalf) (st : ReliableMeshStream) : ReliableMeshStream :=
  {| rs_fenced := rs_fenced st; rs_send := rs_send st; rs_recv := r; rs_community := rs_community st |}.

(** ** Sending *)

Definition ensure_outbound_community (c : Uuid) (st : ReliableMeshStream) :
  result ReliableStreamError unit * ReliableMeshStream :=
  match rs_community st with
  | Some expected => if negb (expected =? c)%N then (Err (CommunityMismatch expected c), st) else (Ok tt, st)
  | None => (Ok tt, with_community c st)
  end.

(** One [send_frame] of the mesh stream with a session frame. *)
Definition send_wire (f : ReliableWireFrame) (st : ReliableMeshStream) :
  result ReliableStreamError unit * ReliableMeshStream :=
  let '(res, s) := send_frame (Data (rs_fenced st) (wire_encode f)) (rs_send st) in
  (map_err Mesh res, with_send s st).

Fixpoint send_chunks (c : Uuid) (cs : list (list Z)) (st : ReliableMeshStream) :
  result ReliableStreamError unit * ReliableMeshStream :=
  match cs with
  | [] => (Ok tt, st)
  | chunk :: cs' =>
      match send_wire (WireData c chunk) st with
      | (Err e, st) => (Err e, st)
      | (Ok _, st) => send_chunks c cs' st
      end
  end.

Definition send_bytes (c : Uuid) (bytes : list Z) (st : ReliableMeshStream) :
  result ReliableStreamError unit * ReliableMeshStream :=
  match ensure_outbound_community c st with
  | (Err e, st) => (Err e, st)
  | (Ok _, st) => send_chunks c (chunks MAX_RELIABLE_PAYLOAD_BYTES bytes) st
  end.

Definition finish_stream (st : ReliableMeshStream) : result ReliableStreamError unit * ReliableMeshStream :=
  let '(res, s) := finish (rs_send st) in (map_err Mesh res, with_send s st).

Definition send_goodbye (c : Uuid) (reason : GoodbyeReason) (st : ReliableMeshStream) :
  result ReliableStreamError unit * ReliableMeshStream :=
  match ensure_outbound_community c st with
  | (Err e, st) => (Err e, st)
  | (Ok _, st) =>
      match send_wire (WireGoodbye c reason) st with
      | (Err e, st) => (Err e, st)
      | (Ok _, st) => finish_stream st
      end
  end.

(** ** Receiving

    [pool] and [redis]: the directory answers; [s]: its store at the time. *)

Definition validate_frame_fence (pool redis : bool) (s : Redis) (c : Uuid) (fenced : FencedHeader)
  (st : ReliableMeshStream) : result ReliableStreamError unit * ReliableMeshStream :=
  if negb (bool_decide (fenced = rs_fenced st)) then (Err (FrameFenceMismatch (rs_fenced st) fenced), st)
  else
    match rs_community st with
    | Some expected =>
        if negb (expected =? c)%N then (Err (CommunityMismatch expected c), st)
        else (map_err Mesh (validate_fenced_header pool redis c fenced s), st)
    | None =>
        match validate_fenced_header pool redis c fenced s with
        | Err e => (Err (Mesh e), st)
        | Ok _ => (Ok tt, with_community c st)
        end
    end.

Definition recv_validated (pool redis : bool) (s : Redis) (st : ReliableMeshStream) :
  result ReliableStreamError (option ReliableFrame) * ReliableMeshStream :=
  match recv_frame (rs_recv st) with
  | (Err e, r) => (Err (Mesh e), with_recv r st)
  | (Ok None, r) => (Ok None, with_recv r st)
  | (Ok (Some frame), r) =>
      let st := with_recv r st in
      match frame with
      | Data fenced payload =>
          match wire_decode payload with
          | Err m => (Err (MalformedReliableFrame m), st)
          | Ok frame =>
              match validate_frame_fence pool redis s (frame_community frame) fenced st with
              | (Err e, st) => (Err e, st)
              | (Ok _, st) =>
                  (Ok (Some (match frame with
                             | WireData _ payload => FrameData payload
                             | WireGoodbye _ reason => FrameGoodbye reason
                             end)), st)
              end
          end
      | Goodbye _ _ => (Err (UnexpectedFrame UnexpectedGoodbye), st)
      | Hello _ => (Err (UnexpectedFrame UnexpectedHello), st)
      | Gossip _ => (Err (UnexpectedFrame UnexpectedGossip), st)
      end
  end.

(** ** Joining and accepting *)

Inductive ReliableJoin :=
  | Owned (lease : SessionLease)
  | Forwarded (lease : SessionLease) (stream : ReliableMeshStream).

(** [MeshRuntime::open_session_stream]: [peers] gives the result of [open_bi]
    on the connection to a peer, [None] when there is none. *)
Definition open_session_stream (peers : RuntimeId → option (result MeshError MeshStream)) (to : RuntimeId)
  (hello : StreamHello) : result MeshError MeshStream :=
  match peers to with
  | None => Err (PeerNotConnected to)
  | Some (Err e) => Err e
  | Some (Ok (send, recv)) =>
      match send_frame (Hello hello) send with
      | (Err e, _) => Err e
      | (Ok _, send) => Ok (send, recv)
      end
  end.

Definition join (lease_ttl : Z) (env : CallEnv) (peers : RuntimeId → option (result MeshError MeshStream))
  (local : RuntimeId) (c session : Uuid) (s : Redis) : result ReliableStreamError ReliableJoin * Redis :=
  match acquire lease_ttl env c session local ReliableStream s with
  | (Err e, s) => (Err (Directory e), s)
  | (Ok (Acquired lease), s) => (Ok (Owned lease), s)
  | (Ok (Exists lease), s) =>
      (if negb (bool_decide (profile lease = ReliableStream))
       then Err (ProfileMismatch session ReliableStream (profile lease))
       else if bool_decide (owner_runtime_id lease = local) then Ok (Owned lease)
       else
         let fenced := fenced_header lease in
         let hello := {| sender := local; role := Session fenced ReliableStream |} in
         match open_session_stream peers (owner_runtime_id lease) hello with
         | Err e => Err (Mesh e)
         | Ok stream => Ok (Forwarded lease (reliable_new fenced stream))
         end, s)
  end.

(** The first frame of an inbound stream, by [stream_accept_loop]. *)
Inductive Accepted :=
  | AcceptDropped
  | AcceptControl (h : StreamHello) (stream : MeshStream)
  | AcceptSession (h : StreamHello) (stream : MeshStream).

Definition accept_stream (stream : MeshStream) : Accepted :=
  match recv_frame stream.2 with
  | (Ok (Some (Hello hello)), r) =>
      match role hello with
      | Control => AcceptControl hello (stream.1, r)
      | Session _ _ => AcceptSession hello (stream.1, r)
      end
  | _ => AcceptDropped
  end.

Record ReliableInbound := { in_fenced : FencedHeader; in_from : RuntimeId; in_stream : ReliableMeshStream }.

Definition accept_inbound (local from : RuntimeId) (hello : StreamHello) (stream : MeshStream) :
  result ReliableStreamError ReliableInbound :=
  if negb (bool_decide (sender hello = from)) then Err (SenderMismatch from (sender hello))
  else
    match role hello with
    | Control => Err UnexpectedStreamRole
    | Session fenced profile =>
        if negb (bool_decide (profile = ReliableStream))
        then Err (ProfileMismatch (fh_session_id fenced) ReliableStream profile)
        else if negb (bool_decide (fh_owner_runtime_id fenced = local))
        then Err (OwnerIsNotLocal (fh_session_id fenced) (fh_owner_runtime_id fenced) local)
        else Ok {| in_fenced := fenced; in_from := from; in_stream := reliable_new fenced stream |}
    end.

(** ** The echo consumer *)

(** A tick with the shutdown flag, or a frame with the directory at the time. *)
Inductive EchoEvent := DrainTick (shutting_down : bool) | FrameReady (pool redis : bool) (s : Redis).

Inductive EchoEnd :=
  | EchoRunning
  | EchoNoCommunity
  | EchoDrained
  | EchoSendFailed (e : ReliableStreamError)
  | EchoGoodbye (reason : GoodbyeReason)
  | EchoClosed
  | EchoRecvFailed (e : ReliableStreamError).

Fixpoint run_demo_echo (events : list EchoEvent) (st : ReliableMeshStream) : EchoEnd * ReliableMeshStream :=
  match events with
  | [] => (EchoRunning, st)
  | DrainTick shutting_down :: events' =>
      if shutting_down then
        (EchoDrained,
         match rs_community st with Some c => (send_goodbye c Draining st).2 | None => (finish_stream st).2 end)
      else run_demo_echo events' st
  | FrameReady pool redis s :: events' =>
      match recv_validated pool redis s st with
      | (Ok (Some (FrameData payload)), st) =>
          match rs_community st with
          | None => (EchoNoCommunity, st)
          | Some c =>
              match send_bytes c payload st with
              | (Err e, st) => (EchoSendFailed e, st)
              | (Ok _, st) => run_demo_echo events' st
              end
          end
      | (Ok (Some (FrameGoodbye reason)), st) => (EchoGoodbye reason, st)
      | (Ok None, st) => (EchoClosed, st)
      | (Err e, st) => (EchoRecvFailed e, st)
      end
  end.

(** ** Renewal of an owned lease *)

(** [select!] takes the cancellation or a tick; a tick carries the environment
    of its renewal and the store at the time. *)
Inductive RenewEvent := Cancelled | RenewTick (env : CallEnv) (s : Redis).

Inductive RenewerExit := Panicked | Exited (caller_cancelled lost : bool).

(** The loop: [None] while it runs. *)
Fixpoint renewer_loop (ttl : Z) (l : SessionLease) (events : list RenewEvent) : option RenewerExit :=
  match events with
  | [] => None
  | Cancelled :: _ => Some (Exited true false)
  | RenewTick env s :: events' =>
      match (renew ttl env l s).1 with
      | Some (Ok (Renewed _)) => renewer_loop ttl l events'
      | Some (Ok (Lost _ _)) => Some (Exited false true)
      | Some (Err _) => Some (Exited false true)
      | None => Some Panicked
      end
  end.

(** The whole task: the loop, then one release. *)
Definition lease_renewer (ttl : Z) (l : SessionLease) (events : list RenewEvent) (env : CallEnv) (s : Redis) :
  option RenewerExit :=
  match renewer_loop ttl l events with
  | Some (Exited caller_cancelled lost) =>
      Some (match (release env l s).1 with
            | Some (Ok (Released _)) => Exited caller_cancelled lost
            | Some (Ok (NotOwner _ _)) => Exited caller_cancelled true
            | Some (Err _) => Exited caller_cancelled (lost || negb caller_cancelled)
            | None => Panicked
            end)
  | r => r
  end.

End reliable.
