(* ===== verification/ReliableProps.v ===== *)
(** * Properties of the reliable tunnel streams

    The frame codec, the delivery of a session over a connection that can fail
    at any byte, the fence at the receiver for any incoming bytes, and the
    agreement of [join] with the acceptance at the owner. *)
From S2P Require Import Prelude Nostr Bytes MeshWire Directory DirectoryProps Reliable.

(** ** The session frames *)

Definition wire_ok (f : ReliableWireFrame) : Prop :=
  (frame_community f < 2 ^ 128)%N ∧ match f with WireData _ p => bytes_ok p | WireGoodbye _ _ => True end.

Lemma wire_byte_round_trip r : from_wire_byte (to_wire_byte r) = Ok r.
Proof. by destruct r. Qed.

Lemma wire_encode_ok f : wire_ok f → bytes_ok (wire_encode f).
Proof.
  assert (Hu : ∀ u, bytes_ok (uuid_bytes u)) by (intros u; rewrite uuid_be_bytes; apply be_bytes_ok).
  intros [_ Hp]. destruct f as [c p|c r]; cbn [wire_encode]; do 2 (constructor; [done|]); apply Forall_app; (split; [apply Hu|]); [done|].
  constructor; [by destruct r|constructor].
Qed.

Lemma wire_decode_encode f : wire_ok f → wire_decode (wire_encode f) = Ok f.
Proof.
  intros [Hc Hp]. unfold wire_decode. destruct f as [c p|c r]; cbn [frame_community] in Hc; cbn [wire_encode length];
    rewrite length_app, uuid_bytes_length.
  - destruct (Nat.ltb_spec (S (S (16 + length p))) 18); [lia|].
    rewrite take_app_exact, drop_app_exact by done. simpl. by rewrite uuid_round_trip.
  - destruct (Nat.ltb_spec (S (S (16 + length [to_wire_byte r]))) 18) as [H|H]; [simpl in H; lia|].
    rewrite take_app_exact by done. rewrite uuid_round_trip by done.
    rewrite app_nth2 by (rewrite uuid_bytes_length; lia). rewrite uuid_bytes_length. simpl. by rewrite wire_byte_round_trip.
Qed.

Lemma wire_encode_decode bytes f : bytes_ok bytes → wire_decode bytes = Ok f → wire_ok f ∧ wire_encode f = bytes.
Proof.
  intros Hb H. unfold wire_decode in H. destruct (Nat.ltb_spec (length bytes) 18); [done|].
  destruct bytes as [|v [|k rest]]; [done..|].
  apply Forall_cons in Hb as [_ Hb]. apply Forall_cons in Hb as [_ Hb]. cbn [length] in *.
  destruct (Z.eqb_spec v VERSION) as [->|]; [|done]. cbn [negb] in H.
  assert (H16 : length (take 16 rest) = 16) by (rewrite length_take; lia).
  destruct (uuid_from_round_trip (take 16 rest) (Forall_take _ _ _ Hb) H16) as [Hu Hlt].
  destruct (Z.eqb_spec k DATA) as [->|_].
  - injection H as <-. split; [split; [done|by apply Forall_drop]|]. cbn [wire_encode]. rewrite Hu. by rewrite take_drop.
  - destruct (Z.eqb_spec k GOODBYE) as [->|_]; [|done].
    destruct (Nat.eqb_spec (S (S (length rest))) 19) as [Hl|]; [|done]. cbn [negb] in H.
    destruct (from_wire_byte (nth 16 rest 0%Z)) as [r|e] eqn:Hr; csimpl in H; [|done]. injection H as <-.
    split; [done|]. cbn [wire_encode]. rewrite Hu. do 2 f_equal. rewrite <- (take_drop 16 rest) at 2. f_equal.
    destruct (drop 16 rest) as [|b [|]] eqn:Ed; apply (f_equal length) in Ed as Hlen; rewrite length_drop in Hlen; simpl in Hlen; try lia.
    rewrite <- (take_drop 16 rest), Ed, app_nth2, H16 in Hr by lia. simpl in Hr. f_equal.
    unfold from_wire_byte in Hr. repeat case_match; boolify; simplify_eq; done.
Qed.

(** Decoding a session frame is the inverse of encoding it, in both directions: the decoder
    accepts exactly the encodings of frames. *)
Theorem session_frame_codec :
  (∀ f, wire_ok f → bytes_ok (wire_encode f) ∧ wire_decode (wire_encode f) = Ok f) ∧
  (∀ bytes f, bytes_ok bytes → wire_decode bytes = Ok f → wire_ok f ∧ wire_encode f = bytes).
Proof. split; [intros f Hf; split; [by apply wire_encode_ok|by apply wire_decode_encode]|apply wire_encode_decode]. Qed.

(** ** Chunks *)

Lemma chunks_fuel_spec fuel n l : (0 < n)%N → length l ≤ fuel →
  concat (chunks_fuel fuel n l) = l ∧ Forall (λ c, c ≠ [] ∧ length c ≤ N.to_nat n) (chunks_fuel fuel n l).
Proof.
  intros Hn. revert l. induction fuel as [|fuel IH]; intros [|x l] Hl; simpl in *; [split; [done|constructor]|lia|split; [done|constructor]|].
  destruct (IH (drop (N.to_nat n) (x :: l))) as [Hc Hf]; [rewrite length_drop; simpl; lia|].
  split; [by rewrite Hc, take_drop|]. constructor; [|done]. split; [|rewrite length_take; lia].
  destruct (N.to_nat n) eqn:E; [lia|done].
Qed.

Lemma chunks_concat n l : (0 < n)%N → concat (chunks n l) = l.
Proof. intros Hn. by apply chunks_fuel_spec. Qed.
Lemma chunks_bound n l : (0 < n)%N → Forall (λ c, c ≠ [] ∧ length c ≤ N.to_nat n) (chunks n l).
Proof. intros Hn. by apply chunks_fuel_spec. Qed.

Section props.
Context {L : NostrLib} {T : RuntimeLib} {P : PostcardLib T} {R : RedisLib}.

(** ** A run of the receiver

    One call of [recv_validated] per directory state, up to the end. *)

Inductive RecvEnd := Waiting | Closed | Failed (e : ReliableStreamError).

Fixpoint recv_all (stores : list Redis) (st : ReliableMeshStream) : list ReliableFrame * RecvEnd * ReliableMeshStream :=
  match stores with
  | [] => ([], Waiting, st)
  | s :: stores' =>
      match recv_validated true true s st with
      | (Ok (Some f), st) => let '(fs, e, st) := recv_all stores' st in (f :: fs, e, st)
      | (Ok None, st) => ([], Closed, st)
      | (Err e, st) => ([], Failed e, st)
      end
  end.

(** A run of the sender: messages, then the goodbye. *)
Fixpoint send_all (c : Uuid) (msgs : list (list Z)) (reason : GoodbyeReason) (st : ReliableMeshStream) :
  result ReliableStreamError unit * ReliableMeshStream :=
  match msgs with
  | [] => send_goodbye c reason st
  | m :: msgs' =>
      match send_bytes c m st with
      | (Err e, st) => (Err e, st)
      | (Ok _, st) => send_all c msgs' reason st
      end
  end.

(** The application bytes of the delivered frames. *)
Definition delivered_bytes (fs : list ReliableFrame) : list Z :=
  fs ≫= λ f, match f with FrameData p => p | FrameGoodbye _ => [] end.

Definition delivered (w : ReliableWireFrame) : ReliableFrame :=
  match w with WireData _ p => FrameData p | WireGoodbye _ r => FrameGoodbye r end.

(** ** The fence at the receiver *)

Lemma validate_frame_fence_ok pool redis s c fenced st st' :
  validate_frame_fence pool redis s c fenced st = (Ok tt, st') →
  fenced = rs_fenced st ∧ (rs_community st = None ∨ rs_community st = Some c) ∧
  validate_fenced_header pool redis c (rs_fenced st) s = Ok tt ∧ st' = with_community c st.
Proof.
  unfold validate_frame_fence. destruct (bool_decide (fenced = rs_fenced st)) eqn:E; [|done].
  apply bool_decide_eq_true in E as ->. cbn [negb]. destruct (rs_community st) as [c'|] eqn:Hc.
  - destruct (N.eqb_spec c' c) as [->|]; [|done]. cbn [negb]. intros H.
    destruct (validate_fenced_header pool redis c _ s) as [[]|e]; [|done]. injection H as <-. split_and!; auto.
    destruct st; unfold with_community; simpl in *; congruence.
  - destruct (validate_fenced_header pool redis c _ s) as [[]|e]; [|done]. intros [= <-]. auto.
Qed.

Lemma recv_validated_frame pool redis s st f st' :
  recv_validated pool redis s st = (Ok (Some f), st') →
  ∃ fenced payload w r, recv_frame (rs_recv st) = (Ok (Some (Data fenced payload)), r) ∧ wire_decode payload = Ok w ∧
    f = delivered w ∧ fenced = rs_fenced st ∧ (rs_community st = None ∨ rs_community st = Some (frame_community w)) ∧
    validate_fenced_header pool redis (frame_community w) (rs_fenced st) s = Ok tt ∧
    st' = with_community (frame_community w) (with_recv r st).
Proof.
  unfold recv_validated. destruct (recv_frame (rs_recv st)) as [[[fr|]|e] r]; [|done..].
  destruct fr as [h|fenced payload|fenced reason|p]; try done.
  destruct (wire_decode payload) as [w|m] eqn:Hw; [|done].
  destruct (validate_frame_fence pool redis s (frame_community w) fenced (with_recv r st)) as [[[]|e] st2] eqn:Hv; [|done].
  apply validate_frame_fence_ok in Hv as (-> & Hc & Hok & ->). intros [= <- <-].
  exists (rs_fenced st), payload, w, r. split_and!; done.
Qed.

Lemma recv_all_fenced stores st fs e st' :
  recv_all stores st = (fs, e, st') →
  rs_fenced st' = rs_fenced st ∧ (∀ c, rs_community st = Some c → rs_community st' = Some c) ∧
  (fs ≠ [] → ∃ c, rs_community st' = Some c ∧
    ∀ n s, n < length fs → stores !! n = Some s → validate_fenced_header true true c (rs_fenced st) s = Ok tt).
Proof.
  revert st fs e st'. induction stores as [|s stores IH]; intros st fs e st' H; simpl in H.
  { simplify_eq. split_and!; done. }
  destruct (recv_validated true true s st) as [[[f|]|e1] st1] eqn:Hr.
  - destruct (recv_all stores st1) as [[fs1 e2] st2] eqn:Ha. simplify_eq.
    apply IH in Ha as (Hf & Hk & Hc). apply recv_validated_frame in Hr as (fenced & p & w & r & _ & _ & _ & -> & Hcw & Hv & ->).
    specialize (Hk _ eq_refl). split_and!; [by rewrite Hf|intros c Hcs; rewrite Hk; destruct Hcw; congruence|].
    intros _. exists (frame_community w). split; [done|]. intros [|n] s' Hn Hs; [by simplify_eq/=|].
    destruct (decide (fs1 = [])) as [->|Hne]; [simpl in Hn; lia|]. destruct (Hc Hne) as (c & Hc' & Hall).
    assert (c = frame_community w) as -> by congruence. apply (Hall n s'); [simpl in Hn; lia|done].
  - simplify_eq. unfold recv_validated in Hr. repeat case_match; simplify_eq/=; done.
  - simplify_eq. assert (Hsame : rs_fenced st' = rs_fenced st ∧ rs_community st' = rs_community st).
    { clear IH. unfold recv_validated in Hr. destruct (recv_frame (rs_recv st)) as [[[fr|]|e0] r]; [| |by simplify_eq].
      - destruct fr as [h|fenced payload|fenced reason|p]; simplify_eq; try done.
        destruct (wire_decode payload) as [w|m] eqn:Hw; simplify_eq; [|done].
        destruct (validate_frame_fence true true s (frame_community w) fenced (with_recv r st)) as [[[]|e2] st2] eqn:Hv; [done|].
        simplify_eq. unfold validate_frame_fence in Hv. repeat case_match; simplify_eq; done.
      - done. }
    destruct Hsame as [H1 H2]. split_and!; [done|congruence|done].
Qed.

(** ** Delivery *)

Context {PL : PostcardLaws P}.

(** A session frame on the wire. *)
Definition wire_of (h : FencedHeader) (w : ReliableWireFrame) : list Z :=
  match encode (Data h (wire_encode w)) with Ok bytes => framed bytes | Err _ => [] end.

Definition small (w : ReliableWireFrame) : Prop :=
  wire_ok w ∧ length (wire_encode w) ≤ N.to_nat MAX_RELIABLE_PAYLOAD_BYTES + 18.

Lemma encode_small h w : fenced_ok h → small w → ∃ bytes,
  encode (Data h (wire_encode w)) = Ok bytes ∧ fits bytes ∧ decode bytes = Ok (Data h (wire_encode w)) ∧ wire_of h w = framed bytes.
Proof.
  intros Hh [Hw Hs]. assert (Hok : frame_ok (Data h (wire_encode w))) by (split; [done|by apply wire_encode_ok]).
  destruct (pc_round_trip _ Hok) as (bs & Hbs & _ & _). pose proof (pc_data_size _ _ _ Hbs) as Hsz.
  assert (He : encode (Data h (wire_encode w)) = Ok (WIRE_VERSION :: bs)) by (unfold encode; by rewrite Hbs).
  exists (WIRE_VERSION :: bs). split_and!; [done| |by eapply decode_encode|by unfold wire_of; rewrite He].
  unfold fits, MAX_STREAM_FRAME. unfold MAX_RELIABLE_PAYLOAD_BYTES, POSTCARD_OVERHEAD in *. cbn [length]. lia.
Qed.

Lemma send_frame_reliable f s bytes :
  encode f = Ok bytes → fits bytes → allowed s = None → (send_frame f s).1 = Ok tt.
Proof.
  intros He Hf Ha. unfold send_frame. rewrite He.
  destruct (Z.ltb_spec MAX_STREAM_FRAME (Z.of_nat (length bytes))); [unfold fits in Hf; lia|].
  unfold write_all at 1. rewrite Ha. unfold write_all. cbn. done.
Qed.

(** What sending changes: the pipe; the rest of the stream stays. *)
Definition same_stream (st st' : ReliableMeshStream) : Prop :=
  rs_fenced st' = rs_fenced st ∧ rs_recv st' = rs_recv st ∧ rs_community st' = rs_community st ∧
  finished (rs_send st') = finished (rs_send st).

(** Frames are written whole and in order, up to the failure. *)
Definition wrote (h : FencedHeader) (ws : list ReliableWireFrame) (ok : bool) (s s' : SendHalf) : Prop :=
  if ok then written s' = written s ++ (ws ≫= wire_of h) ∧ (allowed s = None → allowed s' = None)
  else allowed s ≠ None ∧ ∃ ws1 w ws2 n, ws = ws1 ++ w :: ws2 ∧ n < length (wire_of h w) ∧
    written s' = written s ++ (ws1 ≫= wire_of h) ++ take n (wire_of h w).

Lemma send_wire_effect w st : fenced_ok (rs_fenced st) → small w →
  let '(res, st') := send_wire w st in
  same_stream st st' ∧ wrote (rs_fenced st) [w] (is_ok res) (rs_send st) (rs_send st').
Proof.
  intros Hh Hw. destruct (encode_small _ _ Hh Hw) as (bytes & He & Hf & _ & Hwo). unfold send_wire, wrote.
  pose proof (send_frame_effect (Data (rs_fenced st) (wire_encode w)) (rs_send st)) as H.
  pose proof (send_frame_reliable (Data (rs_fenced st) (wire_encode w)) (rs_send st) bytes He Hf) as Hr.
  destruct (send_frame _ (rs_send st)) as [[[]|e] s']; simpl in *; destruct H as [Hfin H]; (split; [by split_and!|]).
  - destruct H as (b & Hb & _ & Hwr & Ha). assert (b = bytes) as -> by congruence. rewrite app_nil_r, Hwo.
    split; [exact Hwr|]. intros E. by rewrite Ha, E.
  - split; [intros E; by specialize (Hr E)|]. exists [], w, []. assert (Hpos : 0 < length (wire_of (rs_fenced st) w)).
    { rewrite Hwo, framed_length. lia. }
    destruct H as [[Hwr _]|(_ & b & n & Hb & _ & Hn & Hwr)].
    + exists 0. simpl. by rewrite app_nil_r.
    + assert (b = bytes) as -> by congruence. exists n. rewrite Hwo. by split_and!.
Qed.

Fixpoint send_wires (ws : list ReliableWireFrame) (st : ReliableMeshStream) :
  result ReliableStreamError unit * ReliableMeshStream :=
  match ws with
  | [] => (Ok tt, st)
  | w :: ws' => match send_wire w st with (Err e, st) => (Err e, st) | (Ok _, st) => send_wires ws' st end
  end.

Lemma send_chunks_wires c cs st : send_chunks c cs st = send_wires (WireData c <$> cs) st.
Proof.
  revert st. induction cs as [|chunk cs IH]; intros st; simpl; [done|].
  destruct (send_wire _ st) as [[[]|e] st']; [apply IH|done].
Qed.

Lemma send_wires_app ws ws' st : send_wires (ws ++ ws') st =
  match send_wires ws st with (Err e, st) => (Err e, st) | (Ok _, st) => send_wires ws' st end.
Proof.
  revert st. induction ws as [|w ws IH]; intros st; simpl; [done|]. destruct (send_wire w st) as [[[]|e] st']; [apply IH|done].
Qed.

Lemma send_wires_effect ws st : fenced_ok (rs_fenced st) → Forall small ws →
  let '(res, st') := send_wires ws st in
  same_stream st st' ∧ wrote (rs_fenced st) ws (is_ok res) (rs_send st) (rs_send st').
Proof.
  intros Hh Hs. revert st Hh. induction Hs as [|w ws Hw Hs IH]; intros st Hh; cbn [send_wires].
  { split; [by split_and!|]. simpl. by rewrite app_nil_r. }
  pose proof (send_wire_effect w st Hh Hw) as H. destruct (send_wire w st) as [[[]|e] st1]; destruct H as [Hst H]; simpl in H.
  - destruct Hst as (Hf & Hr & Hc & Hfin). rewrite <- Hf in Hh. specialize (IH st1 Hh). destruct H as [Hwr Ha]. rewrite app_nil_r in Hwr.
    destruct (send_wires ws st1) as [res st2]. destruct IH as [(Hf2 & Hr2 & Hc2 & Hfin2) H2].
    split; [split_and!; congruence|]. rewrite Hf in H2. destruct res; simpl in *.
    + destruct H2 as [Hwr2 Ha2]. split; [by rewrite Hwr2, Hwr, app_assoc|auto].
    + destruct H2 as (Ha2 & ws1 & w' & ws2 & n & -> & Hn & Hwr2). split; [auto|]. exists (w :: ws1), w', ws2, n.
      split_and!; [done|done|]. rewrite Hwr2, Hwr. simpl. by rewrite <- !app_assoc.
  - split; [done|]. destruct H as (Ha & ws1 & w' & ws2 & n & Heq & Hn & Hwr). simpl. split; [done|].
    exists ws1, w', (ws2 ++ ws), n. split_and!; [|done|done]. by rewrite app_comm_cons, app_assoc, <- Heq.
Qed.

(** The session frames of a run of the sender. *)
Definition session_wires (c : Uuid) (msgs : list (list Z)) (reason : GoodbyeReason) : list ReliableWireFrame :=
  (msgs ≫= λ m, WireData c <$> chunks MAX_RELIABLE_PAYLOAD_BYTES m) ++ [WireGoodbye c reason].

Lemma send_all_wires c msgs reason st :
  rs_community st = Some c →
  send_all c msgs reason st =
    match send_wires (session_wires c msgs reason) st with (Err e, st) => (Err e, st) | (Ok _, st) => finish_stream st end.
Proof.
  revert st. induction msgs as [|m msgs IH]; intros st Hc; cbn [send_all].
  - unfold send_goodbye, ensure_outbound_community. rewrite Hc, N.eqb_refl. simpl. by destruct (send_wire _ st) as [[[]|e] st'].
  - unfold send_bytes, ensure_outbound_community. rewrite Hc, N.eqb_refl. cbn [negb]. rewrite send_chunks_wires.
    unfold session_wires. rewrite bind_cons, <- app_assoc, send_wires_app.
    destruct (send_wires (WireData c <$> _) st) as [[[]|e] st1] eqn:Hs; [|done]. apply IH.
    revert st Hc Hs. induction (WireData c <$> _) as [|w ws IHw]; intros st Hc Hs; simpl in Hs; [by simplify_eq|].
    unfold send_wire in Hs at 1. destruct (send_frame _ (rs_send st)) as [[[]|e] s']; [|done]. by apply (IHw (with_send s' st)).
Qed.

Definition community_free (c : Uuid) (st : ReliableMeshStream) : Prop :=
  rs_community st = None ∨ rs_community st = Some c.

Lemma send_all_latched c msgs reason st :
  community_free c st → send_all c msgs reason st = send_all c msgs reason (with_community c st).
Proof.
  intros [Hn|Hs].
  - destruct msgs as [|m msgs]; cbn [send_all]; [unfold send_goodbye|unfold send_bytes]; unfold ensure_outbound_community;
      rewrite Hn; cbn [rs_community with_community]; by rewrite N.eqb_refl.
  - f_equal. destruct st; unfold with_community; simpl in *; congruence.
Qed.

(** The receiver reads a whole frame of the session. *)
Lemma recv_wire h c w k e st s :
  fenced_ok h → small w → frame_community w = c → rs_fenced st = h → community_free c st →
  rs_recv st = {| incoming := wire_of h w ++ k; clean_end := e |} →
  validate_fenced_header true true c h s = Ok tt →
  recv_validated true true s st =
    (Ok (Some (delivered w)), with_community c (with_recv {| incoming := k; clean_end := e |} st)).
Proof.
  intros Hh Hw Hc Hf Hcf Hr Hv. destruct (encode_small h w Hh Hw) as (bytes & _ & Hfit & Hd & Hwo).
  unfold recv_validated. rewrite Hr, Hwo, recv_framed, Hd by done. csimpl. rewrite (wire_decode_encode w) by apply Hw.
  unfold validate_frame_fence. cbn [rs_fenced rs_community with_recv]. rewrite Hf, Hc.
  rewrite bool_decide_eq_true_2 by done. cbn [negb]. destruct Hcf as [Hn|Hs].
  - rewrite Hn, Hv. by destruct w.
  - rewrite Hs, N.eqb_refl. cbn [negb]. rewrite Hv. cbn [map_err]. destruct w; (do 2 f_equal; destruct st; simpl in *; by subst).
Qed.

(** A whole frame that the fence rejects ends the run. *)
Lemma recv_wire_fenced h c w k e st s err stores :
  fenced_ok h → small w → frame_community w = c → rs_fenced st = h → community_free c st →
  rs_recv st = {| incoming := wire_of h w ++ k; clean_end := e |} →
  validate_fenced_header true true c h s = Err err →
  ∃ st', recv_all (s :: stores) st = ([], Failed (Mesh err), st').
Proof.
  intros Hh Hw Hc Hf Hcf Hr Hv. destruct (encode_small h w Hh Hw) as (bytes & _ & Hfit & Hd & Hwo).
  cbn [recv_all]. unfold recv_validated. rewrite Hr, Hwo, recv_framed, Hd by done. csimpl.
  rewrite (wire_decode_encode w) by apply Hw.
  unfold validate_frame_fence. cbn [rs_fenced rs_community with_recv]. rewrite Hf, Hc.
  rewrite bool_decide_eq_true_2 by done. cbn [negb]. destruct Hcf as [Hn|Hs].
  - rewrite Hn, Hv. by eexists.
  - rewrite Hs, N.eqb_refl. cbn [negb]. rewrite Hv. cbn [map_err]. by eexists.
Qed.

(** The fence rejects a frame of the session at one of the directory states. *)
Definition fence_rejects (h : FencedHeader) (c : Uuid) (stores : list Redis) (err : MeshError) : Prop :=
  ∃ s, s ∈ stores ∧ validate_fenced_header true true c h s = Err err.

(** Whole frames are delivered in order up to a fence error; then the receiver waits or reads on. *)
Lemma recv_all_wires h c ws k e st stores :
  fenced_ok h → Forall small ws → Forall (λ w, frame_community w = c) ws → rs_fenced st = h → community_free c st →
  rs_recv st = {| incoming := (ws ≫= wire_of h) ++ k; clean_end := e |} →
  (∃ ws1 ws2 err st', ws = ws1 ++ ws2 ∧ fence_rejects h c stores err ∧
     recv_all stores st = (delivered <$> ws1, Failed (Mesh err), st')) ∨
  (length stores ≤ length ws ∧ ∃ st', recv_all stores st = (delivered <$> take (length stores) ws, Waiting, st')) ∨
  (length ws < length stores ∧ ∃ st1, rs_fenced st1 = h ∧ community_free c st1 ∧
     rs_recv st1 = {| incoming := k; clean_end := e |} ∧
     recv_all stores st = let '(fs, en, st2) := recv_all (drop (length ws) stores) st1 in ((delivered <$> ws) ++ fs, en, st2)).
Proof.
  intros Hh. revert st stores. induction ws as [|w ws IH]; intros st stores Hs Hc Hf Hcf Hr.
  - right. destruct stores as [|s stores]; [left; split; [done|]; by exists st|]. right. split; [simpl; lia|].
    exists st. split_and!; [done|done|done|]. cbn [length drop fmap list_fmap app]. by destruct (recv_all (s :: stores) st) as [[??]?].
  - destruct stores as [|s stores]; [right; left; split; [simpl; lia|]; by exists st|].
    apply Forall_cons in Hs as [Hw Hs]. apply Forall_cons in Hc as [Hcw Hc].
    rewrite bind_cons, <- app_assoc in Hr. destruct (validate_fenced_header true true c h s) as [[]|err] eqn:Hv1; cycle 1.
    { left. destruct (recv_wire_fenced h c w _ e st s err stores Hh Hw Hcw Hf Hcf Hr Hv1) as [st' Ha].
      exists [], (w :: ws), err, st'. split_and!; [done| |done]. exists s. split; [left|done]. }
    cbn [recv_all]. rewrite (recv_wire h c w _ e st s Hh Hw Hcw Hf Hcf Hr Hv1).
    set (st1 := with_community _ _).
    destruct (IH st1 stores) as [(ws1 & ws2 & err & st' & -> & (s' & Hin & He) & ->)|[[Hl (st' & ->)]|[Hl (st2 & Hf2 & Hc2 & Hr2 & ->)]]];
      [done|done|done|by right|done| | |].
    + left. exists (w :: ws1), ws2, err, st'. split_and!; [done| |done]. exists s'. split; [by right|done].
    + right; left. split; [simpl; lia|]. by exists st'.
    + right; right. split; [simpl; lia|]. exists st2. split_and!; [done|done|done|]. cbn [length drop].
      by destruct (recv_all (drop (length ws) stores) st2) as [[??]?].
Qed.

Lemma session_wires_small c msgs reason : (c < 2 ^ 128)%N → Forall bytes_ok msgs →
  Forall small (session_wires c msgs reason) ∧ Forall (λ w, frame_community w = c) (session_wires c msgs reason).
Proof.
  intros Hc Hm. unfold session_wires. split; apply Forall_app; split.
  - apply Forall_bind. eapply Forall_impl; [exact Hm|]. intros m Hb. apply Forall_fmap. apply Forall_forall. intros ch Hch.
    pose proof (chunks_bound MAX_RELIABLE_PAYLOAD_BYTES m ltac:(unfold MAX_RELIABLE_PAYLOAD_BYTES; lia)) as Hbd.
    rewrite Forall_forall in Hbd. destruct (Hbd _ Hch) as [_ Hlen]. split; [split; [done|]|].
    + simpl. rewrite <- (chunks_concat MAX_RELIABLE_PAYLOAD_BYTES m) in Hb by (unfold MAX_RELIABLE_PAYLOAD_BYTES; lia).
      unfold bytes_ok in *. rewrite Forall_forall in Hb |- *. intros b Hin. apply Hb. rewrite list_elem_of_In, in_concat. exists ch. by rewrite <- !list_elem_of_In.
    + cbn [wire_encode length]. rewrite length_app, uuid_bytes_length. lia.
  - constructor; [|constructor]. split; [by split|]. cbn [wire_encode length]. rewrite length_app, uuid_bytes_length. cbn [length]. unfold MAX_RELIABLE_PAYLOAD_BYTES. lia.
  - apply Forall_bind. eapply Forall_impl; [exact Hm|]. intros m _. apply Forall_fmap. by apply Forall_true.
  - by repeat constructor.
Qed.

Lemma delivered_bytes_app fs fs' : delivered_bytes (fs ++ fs') = delivered_bytes fs ++ delivered_bytes fs'.
Proof. apply bind_app. Qed.

Lemma delivered_chunks c cs : delivered_bytes (delivered <$> (WireData c <$> cs)) = concat cs.
Proof. induction cs as [|ch cs IH]; [done|]. unfold delivered_bytes in *. by rewrite !fmap_cons, bind_cons, IH. Qed.

Lemma session_wires_bytes c msgs reason :
  delivered_bytes (delivered <$> (msgs ≫= λ m, WireData c <$> chunks MAX_RELIABLE_PAYLOAD_BYTES m)) = concat msgs ∧
  delivered_bytes (delivered <$> session_wires c msgs reason) = concat msgs.
Proof.
  assert (H : delivered_bytes (delivered <$> (msgs ≫= λ m, WireData c <$> chunks MAX_RELIABLE_PAYLOAD_BYTES m)) = concat msgs).
  { induction msgs as [|m msgs IH]; [done|]. rewrite bind_cons, fmap_app, delivered_bytes_app, IH, delivered_chunks.
    simpl. f_equal. apply chunks_concat. unfold MAX_RELIABLE_PAYLOAD_BYTES. lia. }
  split; [done|]. unfold session_wires. rewrite fmap_app, delivered_bytes_app, H. simpl. apply app_nil_r.
Qed.

Lemma delivered_prefix c msgs reason ws ws' :
  session_wires c msgs reason = ws ++ ws' → delivered_bytes (delivered <$> ws) `prefix_of` concat msgs.
Proof.
  intros H. destruct (session_wires_bytes c msgs reason) as [_ Hb]. rewrite H, fmap_app, delivered_bytes_app in Hb.
  rewrite <- Hb. by apply prefix_app_r.
Qed.

(** The end of a stream that was cut at a byte. *)
Lemma recv_end_cut h w n st s stores :
  fenced_ok h → small w → n < length (wire_of h w) →
  rs_recv st = {| incoming := take n (wire_of h w); clean_end := false |} →
  (recv_all (s :: stores) st).1 = ([], Failed (Mesh (Transport "read"))).
Proof.
  intros Hh Hw Hn Hr. destruct (encode_small h w Hh Hw) as (bytes & _ & Hfit & _ & Hwo). rewrite Hwo in *.
  cbn [recv_all]. unfold recv_validated. rewrite Hr. by destruct (recv_cut bytes n Hfit Hn) as [r ->].
Qed.

Lemma recv_end_closed st s stores :
  rs_recv st = {| incoming := []; clean_end := true |} → (recv_all (s :: stores) st).1 = ([], Closed).
Proof.
  intros Hr. cbn [recv_all]. unfold recv_validated. rewrite Hr.
  assert (H : recv_frame {| incoming := []; clean_end := true |} = (Ok None, {| incoming := []; clean_end := true |})) by done.
  by rewrite H.
Qed.

Lemma send_all_effect c msgs reason st :
  fenced_ok (rs_fenced st) → (c < 2 ^ 128)%N → Forall bytes_ok msgs → community_free c st → finished (rs_send st) = false →
  let '(res, st') := send_all c msgs reason st in
  wrote (rs_fenced st) (session_wires c msgs reason) (is_ok res) (rs_send st) (rs_send st') ∧
  finished (rs_send st') = is_ok res.
Proof.
  intros Hh Hc Hm Hcf Hfin. rewrite send_all_latched, send_all_wires by done.
  destruct (session_wires_small c msgs reason Hc Hm) as [Hs _].
  pose proof (send_wires_effect (session_wires c msgs reason) (with_community c st) Hh Hs) as H.
  destruct (send_wires _ _) as [[[]|e] st1]; destruct H as [(_ & _ & _ & Hf1) H]; cbn [rs_send with_community rs_fenced] in *.
  - unfold finish_stream, finish. rewrite Hf1, Hfin. by split.
  - split; [done|]. by rewrite Hf1.
Qed.

(** C11: A reliable session over a connection that may fail at any byte, read back by a receiver
    that gets exactly the bytes the sender's writes put on it, while the directory answers every
    fence check: the receiver delivers a prefix of the bytes sent, in order. It sees a clean
    close only when the whole session was sent, with every byte delivered and the goodbye last.
    If it reads on to the end, it ends so when every send succeeded and with the transport error
    otherwise, or else with the error of the fence, where one of the directory states it was
    checked against rejects the header of the session (a lapsed or superseded lease). On a
    connection that does not fail every send succeeds, for messages of any size. *)
Theorem session_stream_delivery h c msgs reason sender receiver stores res sender' fs e st' :
  fenced_ok h → (c < 2 ^ 128)%N → Forall bytes_ok msgs →
  rs_fenced sender = h → rs_fenced receiver = h → community_free c sender → community_free c receiver →
  written (rs_send sender) = [] → finished (rs_send sender) = false →
  send_all c msgs reason sender = (res, sender') →
  rs_recv receiver = {| incoming := written (rs_send sender'); clean_end := finished (rs_send sender') |} →
  recv_all stores receiver = (fs, e, st') →
  delivered_bytes fs `prefix_of` concat msgs ∧
  (allowed (rs_send sender) = None → res = Ok tt) ∧
  (e = Closed → res = Ok tt ∧ ∃ ds, fs = ds ++ [FrameGoodbye reason] ∧ delivered_bytes ds = concat msgs) ∧
  (length (session_wires c msgs reason) < length stores →
     (e = if is_ok res then Closed else Failed (Mesh (Transport "read"))) ∨
     ∃ err, fence_rejects h c stores err ∧ e = Failed (Mesh err)).
Proof.
  intros Hh Hc Hm Hsf Hrf Hsc Hrc Hw0 Hfin Hsend Hrecv Hrun.
  destruct (session_wires_small c msgs reason Hc Hm) as [Hs Hcs].
  pose proof (send_all_effect c msgs reason sender) as H. rewrite Hsf, Hsend in H. specialize (H Hh Hc Hm Hsc Hfin).
  destruct H as [Hwrote Hfin']. rewrite Hfin' in Hrecv. clear Hfin Hfin' Hsend. unfold wrote in Hwrote.
  destruct res as [[]|er]; cbn [is_ok] in *.
  - destruct Hwrote as [Hwr _]. rewrite Hw0 in Hwr. rewrite Hwr in Hrecv. cbn [app] in Hrecv.
    rewrite <- (app_nil_r (_ ≫= wire_of h)) in Hrecv.
    destruct (recv_all_wires h c _ [] true receiver stores Hh Hs Hcs Hrf Hrc Hrecv)
      as [(ws1 & ws2 & err & s1 & Hws & Hrej & Ha)|[[Hl (s1 & Ha)]|[Hl (st1 & _ & _ & Hr1 & Ha)]]];
      rewrite Ha in Hrun; clear Ha.
    + simplify_eq. split_and!; [by eapply delivered_prefix|done|done|]. intros _. right. by exists err.
    + simplify_eq. split_and!; [|done|done|lia]. eapply delivered_prefix. by rewrite take_drop.
    + destruct (drop _ stores) as [|s ss] eqn:Ed.
      { apply (f_equal length) in Ed. rewrite length_drop in Ed. simpl in Ed. lia. }
      pose proof (recv_end_closed st1 s ss Hr1) as He. destruct (recv_all (s :: ss) st1) as [[fs1 e1] s1].
      simpl in He. simplify_eq.
      rewrite app_nil_r. split_and!; [|done| |by left].
      * by apply (delivered_prefix c msgs reason _ []); rewrite app_nil_r.
      * intros _. split; [done|]. unfold session_wires. rewrite fmap_app. eexists. split; [reflexivity|]. by apply (session_wires_bytes c msgs reason).
  - destruct Hwrote as (Ha0 & ws1 & w & ws2 & n & Hws & Hn & Hwr). rewrite Hw0 in Hwr. rewrite Hwr in Hrecv. cbn [app] in Hrecv.
    rewrite Hws in Hs, Hcs |- *. apply Forall_app in Hs as [Hs1 [Hw _]%Forall_cons]. apply Forall_app in Hcs as [Hcs1 _].
    destruct (recv_all_wires h c _ _ false receiver stores Hh Hs1 Hcs1 Hrf Hrc Hrecv)
      as [(ws3 & ws4 & err & s1 & Hws' & Hrej & Ha)|[[Hl (s1 & Ha)]|[Hl (st1 & _ & _ & Hr1 & Ha)]]];
      rewrite Ha in Hrun; clear Ha.
    + simplify_eq. split_and!; [|done|done|intros _; right; by exists err].
      eapply (delivered_prefix c msgs reason ws3 (ws4 ++ w :: ws2)). by rewrite app_assoc.
    + simplify_eq. rewrite length_app. split_and!; [|done|done|lia].
      eapply (delivered_prefix c msgs reason _ (drop (length stores) ws1 ++ w :: ws2)). by rewrite app_assoc, take_drop.
    + destruct (drop _ stores) as [|s ss] eqn:Ed.
      { apply (f_equal length) in Ed. rewrite length_drop in Ed. simpl in Ed. lia. }
      pose proof (recv_end_cut h w n st1 s ss Hh Hw Hn Hr1) as He. destruct (recv_all (s :: ss) st1) as [[fs1 e1] s1].
      simpl in He. simplify_eq. rewrite app_nil_r. split_and!; [by eapply delivered_prefix|done|done|by left].
Qed.

(** ** The directory *)

Context {UL : UuidLaws L} {TL : RuntimeLaws T} {RL : RedisLaws R}.

Definition good_state (d : DirState) : Prop := dir_reachable d ∧ countable_leases d.

(** The lease that admits a frame. *)
Lemma fence_lease d c h :
  good_state d → validate_fenced_header true true c h (store d) = Ok tt →
  ∃ l, lookup c (fh_session_id h) (store d) = Ok (Some l) ∧ fenced_header l = h.
Proof.
  intros [Hr Hc] Hv. rewrite fence_exact in Hv by done. destruct (_ <? _)%N; [done|].
  pose proof (dir_reachable_ok d Hr Hc) as Hok.
  destruct (live_cases d Hok Hc c (fh_session_id h)) as [[_ Hl]|(l & Hlast & _ & Hl)]; rewrite Hl in Hv; [done|].
  exists l. split; [done|]. pose proof (last_grant_generation d Hok _ _ _ Hlast) as Hg.
  pose proof (last_grant_elem _ _ _ _ Hlast) as (_ & _ & Hs)%elem_of_grants.
  destruct (N.eqb_spec (fh_generation h) (N.of_nat (length (grants c (fh_session_id h) (leases d))))) as [Hgen|]; [|done].
  destruct (decide (fh_owner_runtime_id h = owner_runtime_id l)) as [Ho|]; [|by rewrite bool_decide_eq_false_2 in Hv].
  unfold fenced_header, all_grants in *. rewrite Hg, <- Hgen, <- Ho, Hs. by destruct h.
Qed.

(** C12: Whatever bytes arrive, every frame the receiver delivers belongs to one community, the
    one it stays latched to, and at the time of its delivery the session had a live lease whose
    session, generation and owner are those of the stream. *)
Theorem delivery_fenced ds st fs e st' :
  Forall good_state ds → recv_all (store <$> ds) st = (fs, e, st') → fs ≠ [] →
  ∃ c, rs_community st' = Some c ∧ (rs_community st = None ∨ rs_community st = Some c) ∧
    ∀ n d, n < length fs → ds !! n = Some d →
      ∃ l, lookup c (fh_session_id (rs_fenced st)) (store d) = Ok (Some l) ∧ fenced_header l = rs_fenced st.
Proof.
  intros Hd Ha Hne. apply recv_all_fenced in Ha as (_ & Hk & Hc). destruct (Hc Hne) as (c & Hc' & Hall).
  exists c. split; [done|]. split.
  - destruct (rs_community st) as [c0|]; [right|by left]. rewrite <- Hc'. by rewrite (Hk c0 eq_refl).
  - intros n d Hn Hdn. apply fence_lease; [by eapply Forall_lookup_1|]. apply (Hall n); [done|].
    by rewrite list_lookup_fmap, Hdn.
Qed.

(** ** Joining *)

Lemma accept_hello hello bytes k e send :
  frame_ok (Hello hello) → encode (Hello hello) = Ok bytes → fits bytes → role hello ≠ Control →
  accept_stream (send, {| incoming := framed bytes ++ k; clean_end := e |}) =
    AcceptSession hello (send, {| incoming := k; clean_end := e |}).
Proof.
  intros Hok He Hf Hr. unfold accept_stream. cbn [snd]. rewrite recv_framed by done.
  rewrite (decode_encode (Hello hello) bytes PL Hok He). csimpl. by destruct (role hello).
Qed.

(** What the owner makes of a stream that another runtime opened for a lease. *)
Definition owner_accepts (l : SessionLease) (from : RuntimeId) (st : ReliableMeshStream) : Prop :=
  ∀ k e back, ∃ hello stream,
    accept_stream (back, {| incoming := written (rs_send st) ++ k; clean_end := e |}) = AcceptSession hello stream ∧
    accept_inbound (owner_runtime_id l) from hello stream =
      Ok {| in_fenced := fenced_header l; in_from := from; in_stream := reliable_new (fenced_header l) stream |} ∧
    stream = (back, {| incoming := k; clean_end := e |}) ∧
    ∀ r peer, r ≠ owner_runtime_id l ∨ peer ≠ from → is_ok (accept_inbound r peer hello stream) = false.

(** Joining a session makes the caller the owner of the live lease or opens a stream to the
    owner of the live lease, whose Hello that owner accepts with the header of the lease and
    that every other runtime, and the owner for every other peer, rejects. *)
Theorem join_reaches_owner d ttl env peers local c i res s' :
  good_state d → (i < 2 ^ 128)%N → (∀ r send recv, peers r = Some (Ok (send, recv)) → written send = []) →
  join ttl env peers local c i (store d) = (res, s') →
  match res with
  | Ok (Owned l) => owner_runtime_id l = local ∧ profile l = ReliableStream ∧ community_id l = c ∧ session_id l = i ∧
      lookup c i s' = Ok (Some l)
  | Ok (Forwarded l st) => owner_runtime_id l ≠ local ∧ profile l = ReliableStream ∧ lookup c i (store d) = Ok (Some l) ∧
      s' = store d ∧ rs_fenced st = fenced_header l ∧ owner_accepts l local st
  | Err (ProfileMismatch _ _ p) => ∃ l, lookup c i (store d) = Ok (Some l) ∧ profile l = p ∧ p ≠ ReliableStream
  | Err (Mesh _) => ∃ l, lookup c i (store d) = Ok (Some l) ∧ owner_runtime_id l ≠ local
  | Err (Directory e) => call_failure e
  | Err _ => False
  end.
Proof.
  intros [Hr Hcnt] Hi Hfresh H. unfold join in H.
  destruct (acquire ttl env c i local ReliableStream (store d)) as [[[l|l]|e] s1] eqn:Ha;
    apply (acquire_exclusive d ttl env c i local ReliableStream _ _ Hr Hcnt) in Ha;
    [injection H as <- <-|injection H as H <-; destruct Ha as [Hl ->]|injection H as <- <-; done].
  - destruct Ha as (-> & _ & Hl). by split_and!.
  - pose proof (dir_reachable_ok d Hr Hcnt) as Hok.
    assert (Hin : l ∈ all_grants d c i ∧ community_id l = c ∧ session_id l = i ∧ (generation l < 2 ^ 64)%N).
    { destruct (live_cases d Hok Hcnt c i) as [[_ Hn]|(l' & Hlast & _ & Hl')]; [congruence|]. assert (l' = l) as -> by congruence.
      pose proof (last_grant_elem _ _ _ _ Hlast) as Hg. pose proof (grants_small d Hcnt c i) as Hsm.
      pose proof (last_grant_generation d Hok _ _ _ Hlast) as Hgen. pose proof Hg as (_ & ? & ?)%elem_of_grants.
      split_and!; [done..|]. unfold LUA_EXACT, all_grants in *. lia. }
    destruct Hin as (_ & Hlc & Hli & Hgen).
    case_bool_decide as Hp; cbn [negb] in H; [|simplify_eq; by exists l].
    case_bool_decide as Ho; [simplify_eq; by split_and!|].
    unfold open_session_stream in H. destruct (peers (owner_runtime_id l)) as [[[send recv]|e]|] eqn:Hpe; [|simplify_eq; by exists l..].
    apply Hfresh in Hpe. set (hello := {| sender := local; role := Session (fenced_header l) ReliableStream |}) in *.
    pose proof (send_frame_effect (Hello hello) send) as Hs. destruct (send_frame (Hello hello) send) as [[[]|e] send']; [|simplify_eq; by exists l].
    simplify_eq. destruct Hs as [_ (bytes & He & Hf & Hw & _)]. rewrite Hpe in Hw. cbn [app] in Hw.
    split_and!; try done. intros k e back. exists hello. eexists. split.
    { cbn [rs_send reliable_new fst]. rewrite Hw. apply accept_hello; [|done..]. split; simpl; done. }
    split_and!; [|done|].
    + unfold accept_inbound. cbn [sender role hello]. rewrite !bool_decide_eq_true_2 by done. done.
    + intros r peer [Hne|Hne]; unfold accept_inbound; cbn [sender role hello].
      * destruct (bool_decide (local = peer)); [|done]. rewrite (bool_decide_eq_true_2 (ReliableStream = ReliableStream)) by done.
        by rewrite (bool_decide_eq_false_2 (fh_owner_runtime_id _ = r)) by (simpl; congruence).
      * by rewrite bool_decide_eq_false_2 by congruence.
Qed.

(** ** Renewal *)

Definition tick_state (l : SessionLease) (s : Redis) : Prop := ∃ d, good_state d ∧ l ∈ leases d ∧ store d = s.

Lemma renewer_loop_spec ttl l events :
  (∀ env s, RenewTick env s ∈ events → tick_state l s) →
  match renewer_loop ttl l events with
  | None => (Cancelled ∉ events) ∧ ∀ env s, RenewTick env s ∈ events → lookup (community_id l) (session_id l) s = Ok (Some l)
  | Some (Exited true lost) => lost = false ∧ Cancelled ∈ events
  | Some (Exited false lost) => lost = true
  | Some Panicked => False
  end.
Proof.
  induction events as [|[|env s] events IH]; intros Ht; cbn [renewer_loop].
  - split; [by apply not_elem_of_nil|]. by intros env s ?%elem_of_nil.
  - split; [done|]. apply list_elem_of_here.
  - destruct (Ht env s) as (d & [Hr Hc] & Hl & <-); [apply list_elem_of_here|].
    pose proof (renew_truthful d ttl env l Hr Hc Hl) as H. destruct (renew ttl env l (store d)) as [[[[l'|cur k]|e]|] s1]; cbn [fst]; [|done..].
    destruct H as (-> & Hlive & _). specialize (IH (λ env' s' H', Ht env' s' (list_elem_of_further _ _ _ H'))).
    destruct (renewer_loop ttl l events) as [[|[] lost]|]; [done|split; [apply IH|apply list_elem_of_further, IH]|done|].
    destruct IH as [Hn Hall]. split; [set_solver|]. intros env' s' [[= -> ->]|Hin]%elem_of_cons; [exact Hlive|by eapply Hall].
Qed.

(** The lease renewer runs only while every renewal found its lease live, never panics,
    ends without cancellation only with the loss signal, and reports no loss only when it
    released its own lease or the release call failed. *)
Theorem renewer_fails_loud d ttl l events env :
  good_state d → l ∈ leases d → (∀ env' s, RenewTick env' s ∈ events → tick_state l s) →
  match lease_renewer ttl l events env (store d) with
  | None => (Cancelled ∉ events) ∧ ∀ env' s, RenewTick env' s ∈ events → lookup (community_id l) (session_id l) s = Ok (Some l)
  | Some Panicked => False
  | Some (Exited caller_cancelled lost) =>
      (caller_cancelled = false → lost = true) ∧
      (lost = false → Cancelled ∈ events ∧
         ((release env l (store d)).1 = Some (Ok (Released l)) ∨ ∃ e, (release env l (store d)).1 = Some (Err e) ∧ call_failure e)) ∧
      (lookup (community_id l) (session_id l) (store d) ≠ Ok (Some l) →
         lost = true ∨ ∃ e, (release env l (store d)).1 = Some (Err e) ∧ call_failure e)
  end.
Proof.
  intros [Hr Hc] Hl Ht. pose proof (renewer_loop_spec ttl l events Ht) as Hloop. unfold lease_renewer.
  destruct (renewer_loop ttl l events) as [[|cancelled lost]|]; [done| |done].
  pose proof (release_truthful d env l Hr Hc Hl) as H. destruct (release env l (store d)) as [[[[l'|cur k]|e]|] s1]; cbn [fst]; [| | |done].
  - destruct H as (-> & Hlive & _). destruct cancelled; split_and!; naive_solver.
  - destruct cancelled; split_and!; auto; done.
  - destruct cancelled, lost; cbn [orb negb]; split_and!; try done; naive_solver.
Qed.

End props.

(** ** A concrete serializer

    Two runtimes, and frames printed with fixed-width headers. *)

#[local] Instance pair_runtime : RuntimeLib := {|
  RuntimeId := bool;
  to_hex b := if b then "1" else "0";
  from_hex s := if (s =? "1")%string then Some true else if (s =? "0")%string then Some false else None
|}.
#[local] Instance pair_runtime_laws : RuntimeLaws pair_runtime.
Proof. constructor; [by intros []|by intros []]. Qed.

Definition print_bool (b : bool) : Z := if b then 1 else 0.
Definition print_header (h : FencedHeader) : list Z :=
  be_bytes 16 (Z.of_N (fh_session_id h)) ++ be_bytes 8 (Z.of_N (fh_generation h)) ++ [print_bool (fh_owner_runtime_id h)].
Definition parse_header (bs : list Z) : FencedHeader * list Z :=
  ({| fh_session_id := Z.to_N (from_be_bytes (take 16 bs)); fh_generation := Z.to_N (from_be_bytes (take 8 (drop 16 bs)));
      fh_owner_runtime_id := (nth 24 bs 0%Z =? 1)%Z |}, drop 25 bs).

Definition print_profile (p : Profile) : Z := match p with ReliableStream => 0 | RealtimeMedia => 1 | HuddleControl => 2 end.
Definition parse_profile (z : Z) : Profile :=
  if (z =? 0)%Z then ReliableStream else if (z =? 1)%Z then RealtimeMedia else HuddleControl.

Definition print_frame (f : MeshStreamFrame) : list Z :=
  match f with
  | Hello {| sender := s; role := Control |} => [0; print_bool s; 0]%Z
  | Hello {| sender := s; role := Session h p |} => 0%Z :: print_bool s :: 1%Z :: print_profile p :: print_header h
  | Data h p => 1%Z :: print_header h ++ p
  | Goodbye h r => 2%Z :: print_header h ++ [to_wire_byte r]
  | Gossip p => 3%Z :: p
  end.
Definition parse_frame (bs : list Z) : option MeshStreamFrame :=
  match bs with
  | 0%Z :: s :: 0%Z :: [] => Some (Hello {| sender := (s =? 1)%Z; role := Control |})
  | 0%Z :: s :: 1%Z :: p :: rest => Some (Hello {| sender := (s =? 1)%Z; role := Session (parse_header rest).1 (parse_profile p) |})
  | 1%Z :: rest => let '(h, p) := parse_header rest in Some (Data h p)
  | 2%Z :: rest =>
      let '(h, p) := parse_header rest in
      match from_wire_byte (nth 0 p 0%Z) with Ok r => Some (Goodbye h r) | Err _ => None end
  | 3%Z :: p => Some (Gossip p)
  | _ => None
  end.

#[local] Instance fixed_postcard : PostcardLib pair_runtime := {|
  pc_encode f := Some (print_frame f);
  pc_decode := parse_frame;
  pc_encode_datagram _ := None;
  pc_decode_datagram _ := None
|}.

Lemma print_header_length h : length (print_header h) = 25.
Proof. unfold print_header. by rewrite !length_app, !be_bytes_length. Qed.

Lemma print_header_ok h : bytes_ok (print_header h).
Proof.
  unfold print_header. apply Forall_app. split; [apply be_bytes_ok|]. apply Forall_app. split; [apply be_bytes_ok|].
  constructor; [by destruct (fh_owner_runtime_id h)|constructor].
Qed.

Lemma parse_print_header h k : fenced_ok h → parse_header (print_header h ++ k) = (h, k).
Proof.
  intros [Hs Hg]. unfold parse_header. rewrite (drop_app_exact 25) by by rewrite print_header_length.
  unfold print_header. rewrite <- !app_assoc. rewrite (take_app_exact 16), (drop_app_exact 16) by by rewrite be_bytes_length.
  rewrite (take_app_exact 8) by by rewrite be_bytes_length.
  rewrite app_nth2, app_nth2 by (rewrite !be_bytes_length; lia). rewrite !be_bytes_length.
  rewrite !from_be_bytes_be by (change (256 ^ Z.of_nat 16)%Z with (Z.of_N (2 ^ 128)); change (256 ^ Z.of_nat 8)%Z with (Z.of_N (2 ^ 64)); lia).
  rewrite !N2Z.id. destruct h as [s g o]. by destruct o.
Qed.

#[local] Instance fixed_postcard_laws : PostcardLaws fixed_postcard.
Proof.
  constructor.
  - intros f Hf. exists (print_frame f). split; [done|]. pose proof print_header_ok as Hh. pose proof parse_print_header as Hp.
    destruct f as [[s [|h p]]|h p|h r|p]; cbn [print_frame frame_ok] in *.
    + split; [do 3 (constructor; [by destruct s|]); constructor|by destruct s].
    + split; [do 4 (constructor; [by destruct s, p|]); apply Hh|]. cbn [parse_frame pc_decode fixed_postcard].
      rewrite <- (app_nil_r (print_header h)), Hp by done. by destruct s, p.
    + destruct Hf as [Hf Hb]. split; [constructor; [done|]; apply Forall_app; split; [apply Hh|done]|]. cbn [parse_frame pc_decode fixed_postcard]. by rewrite Hp.
    + split; [constructor; [done|]; apply Forall_app; split; [apply Hh|]; constructor; [by destruct r|constructor]|].
      cbn [parse_frame pc_decode fixed_postcard]. rewrite Hp by done. by destruct r.
    + split; [by constructor|done].
  - intros h p bs H. assert (bs = 1%Z :: print_header h ++ p) as -> by (by injection H). cbn [length].
    rewrite length_app, print_header_length. unfold POSTCARD_OVERHEAD. lia.
Qed.

(** ** The witnesses *)

#[local] Existing Instance text_lib.
#[local] Existing Instance text_lib_uuids.

Definition runtime (b : bool) : RuntimeId := b.

(** Runtime [true] owns session 7 of community 3. *)
Definition tunnel_store : gmap string (string * bool) := (acquire 1000 demo_env 3%N 7%N (runtime true) ReliableStream ∅).2.
Definition tunnel_lease : SessionLease := granted_lease 3%N 7%N (runtime true) 1%N ReliableStream.
Definition tunnel_state : DirState := {| store := tunnel_store; leases := [tunnel_lease] |}.
Definition tunnel_header : FencedHeader := fenced_header tunnel_lease.

Lemma tunnel_good : good_state tunnel_state.
Proof.
  split; [|by apply N.ltb_lt]. exists {| store := ∅; leases := [] |}. split; [by split|]. apply rtc_once.
  apply (acquire_steps {| store := ∅; leases := [] |} 1000 demo_env 3%N 7%N (runtime true) ReliableStream). vm_compute. reflexivity.
Qed.

Definition open_pipe (n : option nat) : SendHalf := {| written := []; finished := false; allowed := n |}.
Definition no_input : RecvHalf := {| incoming := []; clean_end := true |}.
Definition demo_sender (n : option nat) : ReliableMeshStream := reliable_new tunnel_header (open_pipe n, no_input).
Definition demo_receiver (s : SendHalf) : ReliableMeshStream :=
  reliable_new tunnel_header (open_pipe None, {| incoming := written s; clean_end := finished s |}).

Lemma tunnel_fence : validate_fenced_header true true 3%N tunnel_header tunnel_store = Ok tt.
Proof. vm_compute. reflexivity. Qed.

(** The messages of a session, on a connection that fails after 70 bytes. *)
Definition demo_msgs : list (list Z) := [[1; 2]; []; [3]]%Z.
Definition demo_sent : result ReliableStreamError unit * ReliableMeshStream :=
  send_all 3%N demo_msgs SessionEnded (demo_sender (Some 70)).
Definition demo_stores : list Redis := replicate 5 tunnel_store.
Definition demo_received : list ReliableFrame * RecvEnd * ReliableMeshStream :=
  recv_all demo_stores (demo_receiver (rs_send demo_sent.2)).

Lemma demo_delivery : demo_received.1 = ([FrameData [1; 2]%Z], Failed (Mesh (Transport "read"))).
Proof. vm_compute. reflexivity. Qed.

Lemma session_stream_delivery_witness :
  delivered_bytes demo_received.1.1 `prefix_of` concat demo_msgs ∧ demo_received.1.2 = Failed (Mesh (Transport "read")).
Proof.
  assert (Hrun : recv_all demo_stores (demo_receiver (rs_send demo_sent.2)) =
    (demo_received.1.1, demo_received.1.2, demo_received.2)).
  { fold demo_received. by destruct demo_received as [[fs e] st]. }
  destruct (session_stream_delivery tunnel_header 3%N demo_msgs SessionEnded (demo_sender (Some 70))
    (demo_receiver (rs_send demo_sent.2)) demo_stores demo_sent.1 demo_sent.2 _ _ _
    ltac:(by split) ltac:(done) ltac:(repeat constructor; done) eq_refl eq_refl (or_introl eq_refl) (or_introl eq_refl)
    eq_refl eq_refl (surjective_pairing _) eq_refl Hrun)
    as (Hp & _ & _ & He).
  split; [exact Hp|]. destruct He as [He|(err & (s & Hs & Hv) & _)]; [apply Nat.ltb_lt; vm_compute; reflexivity|rewrite He; vm_compute; reflexivity|].
  unfold demo_stores in Hs. apply elem_of_replicate in Hs as [-> _]. by rewrite tunnel_fence in Hv.
Defined.

Lemma delivery_fenced_witness : ∃ l, lookup 3%N 7%N tunnel_store = Ok (Some l) ∧ fenced_header l = tunnel_header.
Proof.
  assert (Hrun : recv_all (store <$> replicate 5 tunnel_state) (demo_receiver (rs_send demo_sent.2)) =
    (demo_received.1.1, demo_received.1.2, demo_received.2)).
  { change (recv_all (store <$> replicate 5 tunnel_state) (demo_receiver (rs_send demo_sent.2))) with demo_received.
    by destruct demo_received as [[fs e] st]. }
  destruct (delivery_fenced (replicate 5 tunnel_state) _ _ _ _ ltac:(repeat (constructor; [exact tunnel_good|]); constructor) Hrun)
    as (c & Hc & _ & Hall).
  { by rewrite demo_delivery. }
  assert (Hc3 : c = 3%N).
  { assert (H3 : rs_community demo_received.2 = Some 3%N) by (vm_compute; reflexivity). congruence. }
  rewrite Hc3 in Hall. apply (Hall 0 tunnel_state); [rewrite demo_delivery; simpl; lia|done].
Defined.

(** Runtime [false] joins the session. *)
Definition demo_peers (r : RuntimeId) : option (result MeshError MeshStream) :=
  if bool_decide (r = runtime true) then Some (Ok (open_pipe None, no_input)) else None.

Lemma join_reaches_owner_witness :
  match (join 1000 demo_env demo_peers (runtime false) 3%N 7%N (store tunnel_state)).1 with
  | Ok (Forwarded l st) => owner_accepts l (runtime false) st
  | _ => False
  end.
Proof.
  pose proof (join_reaches_owner tunnel_state 1000 demo_env demo_peers (runtime false) 3%N 7%N _ _ tunnel_good ltac:(done)
    ltac:(intros r send recv H; unfold demo_peers in H; destruct (bool_decide _); [by injection H as <- _|discriminate H])
    (surjective_pairing _)) as H.
  assert (Hj : ∃ l st, (join 1000 demo_env demo_peers (runtime false) 3%N 7%N (store tunnel_state)).1 = Ok (Forwarded l st))
    by (do 2 eexists; vm_compute; reflexivity).
  destruct Hj as (l & st & Hj). rewrite Hj in H |- *. by destruct H as (_ & _ & _ & _ & _ & H).
Defined.

Lemma renewer_fails_loud_witness :
  lease_renewer 1000 tunnel_lease [RenewTick demo_env (store tunnel_state); Cancelled] demo_env (store tunnel_state) =
    Some (Exited true false) ∧
  (release demo_env tunnel_lease (store tunnel_state)).1 = Some (Ok (Released tunnel_lease)).
Proof.
  assert (He : lease_renewer 1000 tunnel_lease [RenewTick demo_env (store tunnel_state); Cancelled] demo_env (store tunnel_state) =
    Some (Exited true false)) by (vm_compute; reflexivity).
  split; [exact He|].
  pose proof (renewer_fails_loud tunnel_state 1000 tunnel_lease [RenewTick demo_env (store tunnel_state); Cancelled] demo_env
    tunnel_good (list_elem_of_here _ _)) as H. rewrite He in H.
  destruct H as (_ & H & _).
  - intros env' s Hin. exists tunnel_state. split; [exact tunnel_good|]. split; [apply list_elem_of_here|].
    apply elem_of_cons in Hin as [Hin|Hin]; [by injection Hin|]. apply elem_of_cons in Hin as [?|Hin]; [done|]. by apply elem_of_nil in Hin.
  - destruct (H eq_refl) as (_ & [Hrel|(e & Hrel & _)]); [exact Hrel|].
    assert (Hok : is_Some (match (release demo_env tunnel_lease (store tunnel_state)).1 with Some (Ok x) => Some x | _ => None end))
      by (vm_compute; eexists; reflexivity).
    rewrite Hrel in Hok. by destruct Hok.
Defined.

(** A cancelled renewer can still signal the loss. *)
Lemma cancelled_renewer_signals_loss :
  lease_renewer 1000 (granted_lease 3%N 7%N (runtime false) 1%N ReliableStream) [Cancelled] demo_env (store tunnel_state) =
    Some (Exited true true).
Proof. vm_compute. reflexivity. Qed.
