(* ===== verification/AuditLog.v ===== *)
(** * The audit log ([crates/maju-audit/src])

    A hash chain per community in the table [audit_log] of PostgreSQL.

    Not part of the sources, and parameters here: SHA-256 ([Sha256Lib]), the
    time type of [chrono] ([ChronoLib]), the printing of scalars and strings by
    [serde_json] ([JsonLib]) and what the columns TIMESTAMPTZ and JSONB return
    for a stored value ([ColumnLib]).  The table is the list of its committed
    rows with the primary key and the unique index of [schema/schema.sql]. *)
From S2P Require Import Prelude Nostr Bytes.

Class Sha256Lib : Type := { sha256 : list Z → list Z }.
Class ChronoLib : Type := {
  DateTime : Type;
  (** [trunc_subsecs(6)] *)
  trunc_micros : DateTime → DateTime;
  to_rfc3339 : DateTime → string
}.
(** [serde_json::to_string] of a scalar and of a string; [None] is an error. *)
Class JsonLib : Type := {
  JsonScalar : Type;
  scalar_text : JsonScalar → option string;
  string_text : string → option string
}.

(** ** JSON values

    An object is the list of its members in iteration order. *)
#[warnings="-register-all"]
Inductive Value {J : JsonLib} : Type :=
  | Scalar (s : JsonScalar)
  | Array (l : list Value)
  | Object (m : list (string * Value)).

Class ColumnLib {J : JsonLib} {C : ChronoLib} : Type := {
  stored_time : DateTime → DateTime;
  stored_json : Value → Value
}.
#[global] Arguments ColumnLib J C : clear implicits.

(** ** Actions *)

Inductive AuditAction :=
  | EventCreated | EventDeleted | ChannelCreated | ChannelUpdated | ChannelDeleted | MemberAdded | MemberRemoved
  | AuthSuccess | AuthFailure | RateLimitExceeded | MediaUploaded.
#[export] Instance audit_action_eq : EqDecision AuditAction.
Proof. solve_decision. Defined.

Definition as_str (a : AuditAction) : string :=
  match a with
  | EventCreated => "event_created"
  | EventDeleted => "event_deleted"
  | ChannelCreated => "channel_created"
  | ChannelUpdated => "channel_updated"
  | ChannelDeleted => "channel_deleted"
  | MemberAdded => "member_added"
  | MemberRemoved => "member_removed"
  | AuthSuccess => "auth_success"
  | AuthFailure => "auth_failure"
  | RateLimitExceeded => "rate_limit_exceeded"
  | MediaUploaded => "media_uploaded"
  end.

Definition ALL_ACTIONS : list AuditAction :=
  [EventCreated; EventDeleted; ChannelCreated; ChannelUpdated; ChannelDeleted; MemberAdded; MemberRemoved;
   AuthSuccess; AuthFailure; RateLimitExceeded; MediaUploaded].

Definition action_from_str (s : string) : option AuditAction :=
  List.find (λ a, (as_str a =? s)%string) ALL_ACTIONS.

Inductive AuditError :=
  | Database
  | ChainViolation (seq : Z)
  | HashMismatch (seq : Z)
  | UnknownAction
  | Serialization.

Definition GENESIS_HASH : list Z := replicate 32 0%Z.

Section audit.
Context {SH : Sha256Lib} {C : ChronoLib} {J : JsonLib} {D : ColumnLib J C}.

Record AuditEntry := {
  community_id : Uuid;
  seq : Z;
  hash : list Z;
  prev_hash : option (list Z);
  action : AuditAction;
  actor_pubkey : option (list Z);
  object_id : option string;
  detail : Value;
  created_at : DateTime
}.

Record NewAuditEntry := {
  new_community_id : Uuid;
  new_action : AuditAction;
  new_actor_pubkey : option (list Z);
  new_object_id : option string;
  new_detail : Value
}.

(** ** Hashing *)

Definition to_storage_precision (t : DateTime) : DateTime := trunc_micros t.

(** [serde_json::to_string(..)?]. *)
Definition or_serialization {A} (o : option A) : result AuditError A :=
  match o with Some a => Ok a | None => Err Serialization end.

(** [mapM] in the order of the list. *)
Definition collect {A B} (f : A → result AuditError B) : list A → result AuditError (list B) :=
  foldr (λ a rest, b ← f a; bs ← rest; Ok (b :: bs)) (Ok []).

(** The members of an object by key, a later member replacing an earlier one. *)
Definition btree_map {A} (m : list (string * A)) : gmap string A := list_to_map (reverse m).

Fixpoint canonical_json (v : Value) : result AuditError string :=
  match v with
  | Object m =>
      let sorted := btree_map (map (λ '(k, v), (k, canonical_json v)) m) in
      members ← collect (λ k,
        key ← or_serialization (string_text k);
        text ← default (Err Serialization) (sorted !! k);
        Ok (key +:+ ":" +:+ text)) (btree_keys sorted);
      Ok ("{" +:+ str_join "," members +:+ "}")
  | Array l =>
      items ← collect (λ r, r) (map canonical_json l);
      Ok ("[" +:+ str_join "," items +:+ "]")
  | Scalar s => or_serialization (scalar_text s)
  end.

(** An optional field: a presence tag, then its bytes. *)
Definition optional_bytes (o : option (list Z)) : list Z :=
  match o with Some bs => 1%Z :: bs | None => [0%Z] end.

(** The bytes fed to the hasher. *)
Definition hashed_bytes (e : AuditEntry) : result AuditError (list Z) :=
  text ← canonical_json (detail e);
  Ok (uuid_bytes (community_id e) ++ be_bytes 8 (seq e)
      ++ str_bytes (to_rfc3339 (to_storage_precision (created_at e))) ++ str_bytes (as_str (action e))
      ++ optional_bytes (actor_pubkey e) ++ optional_bytes (str_bytes <$> object_id e)
      ++ str_bytes text ++ default GENESIS_HASH (prev_hash e)).

Definition compute_hash (e : AuditEntry) : result AuditError (list Z) :=
  bytes ← hashed_bytes e; Ok (sha256 bytes).

(** ** The table *)

Record Row := {
  r_community : Uuid;
  r_seq : Z;
  r_hash : list Z;
  r_prev_hash : option (list Z);
  r_action : string;
  r_actor_pubkey : option (list Z);
  r_object_id : option string;
  r_detail : Value;
  r_created_at : DateTime
}.

(** Rows in the order of their commits. *)
Definition Table : Type := list Row.

(** The row an INSERT stores for an entry. *)
Definition stored_row (e : AuditEntry) : Row :=
  {| r_community := community_id e; r_seq := seq e; r_hash := hash e; r_prev_hash := prev_hash e;
     r_action := as_str (action e); r_actor_pubkey := actor_pubkey e; r_object_id := object_id e;
     r_detail := stored_json (detail e); r_created_at := stored_time (created_at e) |}.

Definition row_to_audit_entry (r : Row) : result AuditError AuditEntry :=
  match action_from_str (r_action r) with
  | None => Err UnknownAction
  | Some a =>
      Ok {| community_id := r_community r; seq := r_seq r; hash := r_hash r; prev_hash := r_prev_hash r; action := a;
            actor_pubkey := r_actor_pubkey r; object_id := r_object_id r; detail := r_detail r;
            created_at := r_created_at r |}
  end.

(** [WHERE community_id = c ORDER BY seq ASC]. *)
Definition chain (c : Uuid) (t : Table) : list Row :=
  sort_by_key r_seq (List.filter (λ r, (r_community r =? c)%N) t).

(** The primary key and the unique index on the hash. *)
Definition insert_conflict (t : Table) (r : Row) : bool :=
  existsb (λ r', (r_community r' =? r_community r)%N
    && ((r_seq r' =? r_seq r)%Z || bool_decide (r_hash r' = r_hash r))) t.

(** ** Appending *)

(** [ORDER BY seq DESC LIMIT 1], and the sequence number and hash to chain to. *)
Definition read_head (c : Uuid) (t : Table) : Z * option (list Z) :=
  match last (chain c t) with
  | Some r => (r_seq r, Some (r_hash r))
  | None => (0%Z, None)
  end.

Definition log_timestamp (now : DateTime) : DateTime := to_storage_precision now.

Definition build_entry (now : DateTime) (e : NewAuditEntry) (head : Z * option (list Z)) : result AuditError AuditEntry :=
  let entry := λ h,
    {| community_id := new_community_id e; seq := head.1 + 1; hash := h; prev_hash := head.2; action := new_action e;
       actor_pubkey := new_actor_pubkey e; object_id := new_object_id e; detail := new_detail e;
       created_at := log_timestamp now |} in
  h ← compute_hash (entry []); Ok (entry h).

(** [log_inner] without interference: the head, the insertion and the commit. *)
Definition log_inner (now : DateTime) (e : NewAuditEntry) (t : Table) : result AuditError AuditEntry * Table :=
  match build_entry now e (read_head (new_community_id e) t) with
  | Err err => (Err err, t)
  | Ok entry =>
      if insert_conflict t (stored_row entry) then (Err Database, t) else (Ok entry, t ++ [stored_row entry])
  end.

(** ** Reading *)

Fixpoint verify_rows (rows : list Row) (expected_prev : option (list Z)) : result AuditError bool :=
  match rows with
  | [] => Ok true
  | r :: rows' =>
      entry ← row_to_audit_entry r;
      if match expected_prev with Some x => negb (bool_decide (prev_hash entry = Some x)) | None => false end
      then Err (ChainViolation (seq entry))
      else
        computed ← compute_hash entry;
        if negb (bool_decide (computed = hash entry)) then Err (HashMismatch (seq entry))
        else verify_rows rows' (Some (hash entry))
  end.

(** [seq BETWEEN from_seq AND to_seq]. *)
Definition chain_segment (c : Uuid) (from to : Z) (t : Table) : list Row :=
  List.filter (λ r, (from <=? r_seq r) && (r_seq r <=? to))%Z (chain c t).

Definition verify_chain (c : Uuid) (from to : Z) (t : Table) : result AuditError bool :=
  match chain_segment c from to t with
  | [] => Ok false
  | rows => verify_rows rows None
  end.

(** [limit] is not negative; a negative one is an error of the database. *)
Definition get_entries (c : Uuid) (from limit : Z) (t : Table) : result AuditError (list AuditEntry) :=
  if (limit <? 0)%Z then Err Database
  else collect row_to_audit_entry (take (Z.to_nat limit) (List.filter (λ r, from <=? r_seq r)%Z (chain c t))).

End audit.

(** ** Concurrent calls of [log] *)

Section system.
Context {SH : Sha256Lib} {C : ChronoLib} {J : JsonLib} {D : ColumnLib J C}.

(** Where a call is: it waits for the advisory lock of its community, holds it,
    has read the head, has inserted its row in its open transaction, or has left
    the transaction.  A call that has left it may still hold the lock (a failed
    unlock, a dropped future); the relation lets the next call in all the same. *)
Inductive LogPhase :=
  | Waiting
  | HoldsLock
  | HeadRead (head : Z * option (list Z))
  | Inserted (e : AuditEntry)
  | Finished (res : result AuditError AuditEntry).

Record LogCall := { lc_entry : NewAuditEntry; lc_phase : LogPhase }.

Definition in_transaction (p : LogPhase) : bool :=
  match p with HoldsLock | HeadRead _ | Inserted _ => true | _ => false end.

Record LogSystem := { table : Table; calls : list LogCall }.

(** No call of the community is between the lock and the end of its transaction. *)
Definition lock_free (c : Uuid) (cs : list LogCall) : Prop :=
  ∀ k, k ∈ cs → new_community_id (lc_entry k) = c → in_transaction (lc_phase k) = false.

(** One step of one call: its new phase and the table.  A call can fail wherever
    it waits for the database; that rolls back, but a commit whose answer is
    lost has happened. *)
Inductive call_step (t : Table) (e : NewAuditEntry) : LogPhase → LogPhase → Table → Prop :=
  | step_lock : call_step t e Waiting HoldsLock t
  | step_head : call_step t e HoldsLock (HeadRead (read_head (new_community_id e) t)) t
  | step_hash_error now head err :
      build_entry now e head = Err err → call_step t e (HeadRead head) (Finished (Err err)) t
  | step_insert now head entry :
      build_entry now e head = Ok entry → insert_conflict t (stored_row entry) = false →
      call_step t e (HeadRead head) (Inserted entry) t
  | step_conflict now head entry :
      build_entry now e head = Ok entry → insert_conflict t (stored_row entry) = true →
      call_step t e (HeadRead head) (Finished (Err Database)) t
  | step_commit entry : call_step t e (Inserted entry) (Finished (Ok entry)) (t ++ [stored_row entry])
  | step_commit_lost entry : call_step t e (Inserted entry) (Finished (Err Database)) (t ++ [stored_row entry])
  | step_fail phase : (∀ res, phase ≠ Finished res) → call_step t e phase (Finished (Err Database)) t.

Inductive log_step (s : LogSystem) : LogSystem → Prop :=
  | log_step_new e : log_step s {| table := table s; calls := calls s ++ [{| lc_entry := e; lc_phase := Waiting |}] |}
  | log_step_call n k phase t :
      calls s !! n = Some k → call_step (table s) (lc_entry k) (lc_phase k) phase t →
      (lc_phase k = Waiting → phase = HoldsLock → lock_free (new_community_id (lc_entry k)) (calls s)) →
      log_step s {| table := t; calls := <[n := {| lc_entry := lc_entry k; lc_phase := phase |}]> (calls s) |}.

Definition log_initial : LogSystem := {| table := []; calls := [] |}.
Definition log_reachable (s : LogSystem) : Prop := rtc log_step log_initial s.

End system.
