(* ===== verification/AuditLogProps.v ===== *)
(** * Properties of the audit log

    Any number of calls of [log], for any communities, interleave step by step
    and fail anywhere; the tables of the tamper theorem are arbitrary. *)
From S2P Require Import Prelude Nostr Bytes AuditLog.

(** ** The parameters *)

Class Sha256Laws (S : Sha256Lib) : Prop := { sha256_length bs : length (sha256 bs) = 32 }.
Class ChronoLaws (C : ChronoLib) : Prop := { trunc_idemp t : trunc_micros (trunc_micros t) = trunc_micros t }.

(** Equal up to the order of the members of objects, whose keys are distinct. *)
#[warnings="-register-all"]
Inductive json_equiv {J : JsonLib} : Value → Value → Prop :=
  | equiv_scalar s : json_equiv (Scalar s) (Scalar s)
  | equiv_array l l' : Forall2 json_equiv l l' → json_equiv (Array l) (Array l')
  | equiv_object m m1 m' :
      NoDup m.*1 → m ≡ₚ m1 → Forall2 (λ x y, x.1 = y.1 ∧ json_equiv x.2 y.2) m1 m' →
      json_equiv (Object m) (Object m').

(** A value of the Rust type: no key twice. *)
Definition json_ok {J : JsonLib} (v : Value) : Prop := json_equiv v v.

(** TIMESTAMPTZ keeps microseconds, JSONB the value. *)
Class ColumnLaws {J : JsonLib} {C : ChronoLib} (D : ColumnLib J C) : Prop := {
  stored_time_micros t : stored_time (trunc_micros t) = trunc_micros t;
  stored_json_equiv v : json_ok v → json_equiv v (stored_json v)
}.

Section props.
Context {SH : Sha256Lib} {C : ChronoLib} {J : JsonLib} {D : ColumnLib J C}.
Context {SL : Sha256Laws SH} {CL : ChronoLaws C} {DL : ColumnLaws D}.

(** ** Canonical JSON *)

Lemma value_rect_nested (P : Value → Prop) :
  (∀ s, P (Scalar s)) → (∀ l, Forall P l → P (Array l)) → (∀ m, Forall (λ kv, P kv.2) m → P (Object m)) → ∀ v, P v.
Proof.
  intros Hs Ha Ho. fix IH 1. intros [s|l|m]; [apply Hs|apply Ha|apply Ho].
  - induction l as [|v l IHl]; constructor; [apply IH|exact IHl].
  - induction m as [|[k v] m IHm]; constructor; [apply IH|exact IHm].
Qed.

Lemma btree_map_perm {A} (m m' : list (string * A)) : NoDup m.*1 → m ≡ₚ m' → btree_map m = btree_map m'.
Proof.
  intros Hn Hp. unfold btree_map. apply list_to_map_proper; [by rewrite fmap_reverse, reverse_Permutation|].
  by rewrite !reverse_Permutation.
Qed.

(** The order of the members does not matter. *)
Lemma canonical_json_equiv v w : json_equiv v w → canonical_json v = canonical_json w.
Proof.
  revert w. induction v as [s|l IH|m IH] using value_rect_nested; intros w H; inversion H as [|? l' Hl|? m1 m' Hn Hp Hm]; subst.
  - done.
  - cbn [canonical_json]. assert (E : map canonical_json l = map canonical_json l').
    { clear H. induction Hl as [|x y l l' Hx Hl IHl]; [done|]. apply Forall_cons in IH as [IHx IH]. cbn [map].
      by rewrite (IHx y Hx), IHl. }
    by rewrite E.
  - cbn [canonical_json]. set (f := λ '(k, v), (k, canonical_json v)).
    assert (E : map f m1 = map f m').
    { rewrite Hp in IH. clear H Hp Hn. induction Hm as [|[k v] [k' v'] m1 m' [Hk Hv] Hm IHm]; [done|].
      apply Forall_cons in IH as [IHx IH]. simpl in *. by rewrite Hk, (IHx v' Hv), (IHm IH). }
    assert (Hkeys : (map f m).*1 = m.*1).
    { clear. induction m as [|[k v] m IHm]; [done|]. cbn [map]. rewrite !fmap_cons. by rewrite IHm. }
    assert (Hb : btree_map (map f m) = btree_map (map f m')).
    { rewrite <- E. apply btree_map_perm; [exact (eq_ind_r NoDup Hn Hkeys)|by apply Permutation_map]. }
    by rewrite Hb.
Qed.

(** ** Rows *)

Lemma action_round_trip a : action_from_str (as_str a) = Some a.
Proof. by destruct a. Qed.

Lemma compute_hash_ext e e' bs :
  compute_hash e = Ok bs → community_id e = community_id e' → seq e = seq e' → prev_hash e = prev_hash e' →
  action e = action e' → actor_pubkey e = actor_pubkey e' → object_id e = object_id e' →
  canonical_json (detail e) = canonical_json (detail e') →
  to_storage_precision (created_at e) = to_storage_precision (created_at e') → compute_hash e' = Ok bs.
Proof. unfold compute_hash, hashed_bytes. by intros H <- <- <- <- <- <- <- <-. Qed.

(** An entry and the row it becomes have the same hash. *)
Lemma stored_row_hash now e head entry :
  json_ok (new_detail e) → build_entry now e head = Ok entry →
  r_community (stored_row entry) = new_community_id e ∧ r_seq (stored_row entry) = (head.1 + 1)%Z ∧
  r_prev_hash (stored_row entry) = head.2 ∧
  ∃ e', row_to_audit_entry (stored_row entry) = Ok e' ∧ compute_hash e' = Ok (r_hash (stored_row entry)).
Proof.
  intros Hj H. unfold build_entry in H. destruct (compute_hash _) as [h|err] eqn:Hh; csimpl in H; [|done].
  injection H as <-. split_and!; [done|done|done|]. unfold row_to_audit_entry. cbn [stored_row r_action action].
  rewrite action_round_trip. eexists. split; [reflexivity|]. eapply (compute_hash_ext _ _ h Hh); try done; cbn.
  - by apply canonical_json_equiv, stored_json_equiv.
  - unfold log_timestamp, to_storage_precision. by rewrite stored_time_micros, !trunc_idemp.
Qed.

(** ** Chains *)

Definition row_ok (r : Row) : Prop := ∃ e, row_to_audit_entry r = Ok e ∧ compute_hash e = Ok (r_hash r).

(** Numbered from [n], each row linked to the hash before it. *)
Fixpoint chained (n : Z) (prev : option (list Z)) (rows : list Row) : Prop :=
  match rows with
  | [] => True
  | r :: rows' => r_seq r = n ∧ r_prev_hash r = prev ∧ row_ok r ∧ chained (n + 1) (Some (r_hash r)) rows'
  end.

Lemma chained_snoc n prev rows r :
  chained n prev rows → r_seq r = (n + Z.of_nat (length rows))%Z →
  r_prev_hash r = match last rows with Some l => Some (r_hash l) | None => prev end → row_ok r →
  chained n prev (rows ++ [r]).
Proof.
  revert n prev. induction rows as [|r0 rows IH]; intros n prev Hc Hs Hp Hok; simpl in *.
  { split_and!; [lia|done|done|done]. }
  destruct Hc as (H1 & H2 & H3 & H4). split_and!; [done|done|done|]. apply IH; [done|lia| |done].
  rewrite Hp. destruct rows as [|r1 rows]; [done|]. rewrite last_cons_cons. by destruct (last (r1 :: rows)) eqn:E; [|apply last_None in E].
Qed.

Lemma chained_seq n prev rows i r : chained n prev rows → rows !! i = Some r → r_seq r = (n + Z.of_nat i)%Z.
Proof.
  revert n prev i. induction rows as [|r0 rows IH]; intros n prev [|i] Hc Hi; simplify_eq/=; destruct Hc as (H1 & _ & _ & H4); [lia|].
  rewrite (IH _ _ _ H4 Hi). lia.
Qed.

Lemma chained_last n prev rows r : chained n prev rows → last rows = Some r → (r_seq r = n + Z.of_nat (length rows) - 1)%Z.
Proof.
  intros Hc Hl. rewrite last_lookup in Hl. pose proof (lookup_lt_Some _ _ _ Hl). rewrite (chained_seq _ _ _ _ _ Hc Hl). lia.
Qed.

Lemma chained_row_ok n prev rows r : chained n prev rows → r ∈ rows → row_ok r.
Proof.
  revert n prev. induction rows as [|r0 rows IH]; intros n prev Hc Hr; [by apply elem_of_nil in Hr|].
  destruct Hc as (_ & _ & H3 & H4). apply elem_of_cons in Hr as [->|Hr]; [done|by eapply IH].
Qed.

(** A range of a chain is a chain. *)
Lemma chained_above n prev rows from to :
  chained n prev rows → (to < n)%Z → List.filter (λ r, (from <=? r_seq r) && (r_seq r <=? to))%Z rows = [].
Proof.
  revert n prev. induction rows as [|r rows IH]; intros n prev Hc Hn; [done|]. destruct Hc as (H1 & _ & _ & H4). simpl.
  destruct (Z.leb_spec (r_seq r) to); [lia|]. rewrite andb_false_r. apply (IH _ _ H4). lia.
Qed.

Lemma chained_range n prev rows from to :
  chained n prev rows →
  ∃ n' prev', chained n' prev' (List.filter (λ r, (from <=? r_seq r) && (r_seq r <=? to))%Z rows) ∧
    ((from ≤ n)%Z → n' = n ∧ prev' = prev).
Proof.
  revert n prev. induction rows as [|r rows IH]; intros n prev Hc; [by exists n, prev|].
  pose proof Hc as (H1 & H2 & H3 & H4). cbn [List.filter]. destruct (IH _ _ H4) as (n' & prev' & Hc' & Hsame).
  destruct (Z.leb_spec from (r_seq r)) as [Hf|Hf]; [destruct (Z.leb_spec (r_seq r) to) as [Ht|Ht]|]; cbn [andb].
  - destruct Hsame as [-> ->]; [lia|]. exists n, prev. split; [by split_and!|done].
  - exists n, prev. split; [|done]. rewrite (chained_above _ _ _ from to H4) by lia. done.
  - exists n', prev'. split; [done|]. lia.
Qed.

Lemma verify_chained n prev rows exp :
  chained n prev rows → exp = None ∨ exp = prev → verify_rows rows exp = Ok true.
Proof.
  revert n prev exp. induction rows as [|r rows IH]; intros n prev exp Hc He; [done|].
  destruct Hc as (_ & Hp & (e & Hr & Hh) & Hc). cbn [verify_rows]. rewrite Hr. csimpl.
  assert (Hf : prev_hash e = prev ∧ hash e = r_hash r).
  { unfold row_to_audit_entry in Hr. destruct (action_from_str _); [|done]. by simplify_eq/=. }
  destruct Hf as [Hpe Hhe]. assert (Hx : match exp with Some x => negb (bool_decide (prev_hash e = Some x)) | None => false end = false).
  { destruct He as [->| ->]; [done|]. rewrite Hpe. destruct prev; [|done]. by rewrite bool_decide_eq_true_2. }
  rewrite Hx, Hh. csimpl. rewrite Hhe, bool_decide_eq_true_2 by done. cbn [negb]. apply (IH _ _ _ Hc). by right.
Qed.

(** ** The table *)

Lemma sort_by_key_snoc {A} (f : A → Z) l x :
  (∀ y, y ∈ l → (f y ≤ f x)%Z) → sort_by_key f (l ++ [x]) = sort_by_key f l ++ [x].
Proof.
  assert (Hins : ∀ y l, (f y ≤ f x)%Z → insert_by_key f y (l ++ [x]) = insert_by_key f y l ++ [x]).
  { intros y l' Hy. induction l' as [|z l' IH]; simpl; [destruct (Z.leb_spec (f y) (f x)); [done|lia]|].
    destruct (f y <=? f z)%Z; [done|]. by rewrite IH. }
  induction l as [|y l IH]; intros Hl; simpl; [done|]. rewrite IH by (intros z Hz; apply Hl; by right).
  apply Hins, Hl. by left.
Qed.

Lemma chain_community c t r : r ∈ chain c t ↔ r ∈ t ∧ r_community r = c.
Proof.
  unfold chain. rewrite sort_by_key_perm. rewrite !list_elem_of_In, filter_In, N.eqb_eq. done.
Qed.

Lemma chain_append c t r :
  r_community r = c → (∀ r', r' ∈ chain c t → (r_seq r' ≤ r_seq r)%Z) → chain c (t ++ [r]) = chain c t ++ [r].
Proof.
  intros Hc Hle. unfold chain in *. rewrite List.filter_app. simpl. rewrite Hc, N.eqb_refl. apply sort_by_key_snoc.
  intros y Hy. apply Hle. by rewrite sort_by_key_perm.
Qed.

Lemma chain_append_other c t r : r_community r ≠ c → chain c (t ++ [r]) = chain c t.
Proof.
  intros Hc. unfold chain. rewrite List.filter_app. simpl. apply N.eqb_neq in Hc. by rewrite Hc, app_nil_r.
Qed.

Definition table_ok (t : Table) : Prop := ∀ c, chained 1 None (chain c t).

(** Committing the entry built on the head of its chain. *)
Lemma table_ok_commit t now e entry :
  table_ok t → json_ok (new_detail e) → build_entry now e (read_head (new_community_id e) t) = Ok entry →
  table_ok (t ++ [stored_row entry]).
Proof.
  intros Hok Hj Hb c. destruct (stored_row_hash _ _ _ _ Hj Hb) as (Hc & Hs & Hp & Hrow).
  set (r := stored_row entry) in *. destruct (decide (r_community r = c)) as [E|E]; [|by rewrite chain_append_other].
  assert (Hhead : r_seq r = (1 + Z.of_nat (length (chain c t)))%Z ∧
    r_prev_hash r = match last (chain c t) with Some l => Some (r_hash l) | None => None end).
  { rewrite Hs, Hp. unfold read_head. replace (new_community_id e) with c by congruence.
    destruct (last (chain c t)) as [l|] eqn:El; cbn [fst snd]; [|apply last_None in El; by rewrite El].
    rewrite (chained_last _ _ _ _ (Hok c) El). split; [lia|done]. }
  destruct Hhead as [Hseq Hprev]. rewrite chain_append; [by apply chained_snoc|done|].
  intros r' [i Hi]%list_elem_of_lookup. pose proof (lookup_lt_Some _ _ _ Hi). rewrite (chained_seq _ _ _ _ _ (Hok c) Hi). lia.
Qed.

(** ** The system *)

(** What a call in its transaction relies on. *)
Definition call_ok (t : Table) (k : LogCall) : Prop :=
  match lc_phase k with
  | HeadRead head => head = read_head (new_community_id (lc_entry k)) t
  | Inserted e => ∃ now, build_entry now (lc_entry k) (read_head (new_community_id (lc_entry k)) t) = Ok e
  | Finished (Ok e) => stored_row e ∈ t ∧ ∃ now head, build_entry now (lc_entry k) head = Ok e
  | _ => True
  end.

Definition exclusive (cs : list LogCall) : Prop :=
  ∀ n m k k', cs !! n = Some k → cs !! m = Some k' → n ≠ m →
    new_community_id (lc_entry k) = new_community_id (lc_entry k') →
    in_transaction (lc_phase k) = true → in_transaction (lc_phase k') = false.

Definition details_ok (s : LogSystem) : Prop := ∀ k, k ∈ calls s → json_ok (new_detail (lc_entry k)).

Record system_ok (s : LogSystem) : Prop := {
  sys_table : table_ok (table s);
  sys_calls k : k ∈ calls s → call_ok (table s) k;
  sys_exclusive : exclusive (calls s)
}.

Lemma build_entry_community now e head entry : build_entry now e head = Ok entry → community_id entry = new_community_id e.
Proof. unfold build_entry. destruct (compute_hash _); csimpl; [|done]. by intros [= <-]. Qed.

Lemma read_head_other c t r : r_community r ≠ c → read_head c (t ++ [r]) = read_head c t.
Proof. intros Hc. unfold read_head. by rewrite chain_append_other. Qed.

(** Another call is not disturbed by a commit outside its community. *)
Lemma call_ok_commit t k r :
  call_ok t k → (in_transaction (lc_phase k) = true → r_community r ≠ new_community_id (lc_entry k)) → call_ok (t ++ [r]) k.
Proof.
  unfold call_ok. intros Hok Hne. destruct (lc_phase k) as [| |head|e|[e|err]]; try done.
  - by rewrite read_head_other by by apply Hne.
  - by rewrite read_head_other by by apply Hne.
  - destruct Hok as [Hin Hb]. split; [apply elem_of_app; by left|done].
Qed.

Lemma exclusive_update cs n k phase :
  exclusive cs → cs !! n = Some k →
  (in_transaction phase = true → in_transaction (lc_phase k) = true ∨ lock_free (new_community_id (lc_entry k)) cs) →
  exclusive (<[n := {| lc_entry := lc_entry k; lc_phase := phase |}]> cs).
Proof.
  intros Hex Hn Hin i j ki kj Hi Hj Hne Hc Ht.
  apply list_lookup_insert_Some in Hi as [(<- & <- & _)|[Hni Hi]]; apply list_lookup_insert_Some in Hj as [(<- & <- & _)|[Hnj Hj]];
    simpl in *; [done| | |by apply (Hex i j ki kj)].
  - destruct (Hin Ht) as [Hk|Hfree]; [by apply (Hex n j k kj)|]. apply Hfree; [by eapply list_elem_of_lookup_2|done].
  - destruct (in_transaction phase) eqn:E; [|done]. exfalso. destruct (Hin eq_refl) as [Hk|Hfree].
    + rewrite (Hex i n ki k Hi Hn Hne Hc Ht) in Hk. done.
    + rewrite (Hfree ki) in Ht; [done|by eapply list_elem_of_lookup_2|done].
Qed.

(** What a step of a call does. *)
Lemma call_step_cases t e phase phase' t' :
  call_step t e phase phase' t' →
  (in_transaction phase' = true → in_transaction phase = true ∨ (phase = Waiting ∧ phase' = HoldsLock)) ∧
  ((t' = t ∧ (call_ok t {| lc_entry := e; lc_phase := phase |} → call_ok t {| lc_entry := e; lc_phase := phase' |})) ∨
   ∃ entry, phase = Inserted entry ∧ t' = t ++ [stored_row entry] ∧ (phase' = Finished (Ok entry) ∨ phase' = Finished (Err Database))).
Proof.
  destruct 1 as [| |now head err Hb|now head entry Hb Hc|now head entry Hb Hc|entry|entry|phase Hp]; (split; [by auto|]).
  - left. by split.
  - left. by split.
  - left. by split.
  - left. split; [done|]. intros Hk. unfold call_ok in *. simpl in *. subst head. by exists now.
  - left. by split.
  - right. exists entry. auto.
  - right. exists entry. auto.
  - left. by split.
Qed.

Lemma step_system_ok s s' : log_step s s' → details_ok s → system_ok s → system_ok s'.
Proof.
  intros Hstep Hd [Ht Hc Hx]. destruct Hstep as [e|n k phase t' Hn Hstep Hlock].
  - constructor; [done| |].
    + intros k [Hk|Hk]%elem_of_app; [by apply Hc|]. apply list_elem_of_singleton in Hk as ->. done.
    + intros i j ki kj Hi Hj Hne Heq Hti. simpl in *. apply lookup_snoc_Some in Hi as [[_ Hi]|[_ <-]]; [|done].
      apply lookup_snoc_Some in Hj as [[_ Hj]|[_ <-]]; [|done]. by apply (Hx i j ki kj).
  - pose proof (list_elem_of_lookup_2 _ _ _ Hn) as Hin. destruct k as [e ph]. simpl in *.
    apply call_step_cases in Hstep as [Htrans Heff].
    assert (Hx' : exclusive (<[n := {| lc_entry := e; lc_phase := phase |}]> (calls s))).
    { apply (exclusive_update _ _ {| lc_entry := e; lc_phase := ph |}); [done|done|]. intros Hp. destruct (Htrans Hp) as [Hph|[-> ->]]; auto. }
    destruct Heff as [[-> Hown]|(entry & -> & -> & Hph)].
    + constructor; [done| |done]. intros k [i Hi]%list_elem_of_lookup.
      apply list_lookup_insert_Some in Hi as [(<- & <- & _)|[_ Hi]]; [by apply Hown, Hc|]. apply Hc. by eapply list_elem_of_lookup_2.
    + destruct (Hc _ Hin) as [now Hb]. simpl in Hb. constructor; [|intros k [i Hi]%list_elem_of_lookup|done]; simpl.
      * apply (table_ok_commit _ now e); [done|by apply (Hd _ Hin)|done].
      * apply list_lookup_insert_Some in Hi as [(<- & <- & _)|[Hni Hi]].
        -- unfold call_ok. destruct Hph as [->| ->]; simpl; [|done]. split; [apply elem_of_app; right; by apply list_elem_of_singleton|eauto].
        -- apply call_ok_commit; [apply Hc; by eapply list_elem_of_lookup_2|]. intros Hti Hcom.
           cbn [stored_row r_community] in Hcom. rewrite (build_entry_community _ _ _ _ Hb) in Hcom.
           rewrite (Hx n i _ _ Hn Hi Hni Hcom eq_refl) in Hti. done.
Qed.

Lemma log_step_details s s' : log_step s s' → details_ok s' → details_ok s.
Proof.
  intros [e|n k phase t' Hn Hstep _] Hd k0 Hk.
  - apply Hd. simpl. apply elem_of_app. by left.
  - apply list_elem_of_lookup in Hk as [i Hi]. destruct (decide (i = n)) as [->|Hne].
    + assert (k0 = k) as -> by congruence. apply (Hd {| lc_entry := lc_entry k; lc_phase := phase |}). simpl. apply (list_elem_of_lookup_2 _ n).
      apply list_lookup_insert_eq. by eapply lookup_lt_Some.
    + apply Hd. simpl. apply (list_elem_of_lookup_2 _ i). by rewrite list_lookup_insert_ne.
Qed.

Lemma reachable_system_ok s : log_reachable s → details_ok s → system_ok s.
Proof.
  intros H. refine (rtc_ind_r (λ s, details_ok s → system_ok s) log_initial _ _ s H).
  - intros Hd. constructor; [done| |by intros n m k k' Hk]. intros k Hk. by apply elem_of_nil in Hk.
  - intros s1 s2 _ Hstep IH Hd. pose proof (log_step_details _ _ Hstep Hd) as Hd1.
    apply (step_system_ok s1 s2 Hstep Hd1). by apply IH.
Qed.

Lemma chained_lookup n prev rows i r :
  chained n prev rows → rows !! i = Some r →
  r_seq r = (n + Z.of_nat i)%Z ∧ row_ok r ∧ r_prev_hash r = match i with O => prev | S j => r_hash <$> rows !! j end.
Proof.
  revert n prev i. induction rows as [|r0 rows IH]; intros n prev [|i] Hc Hi; simplify_eq/=; destruct Hc as (H1 & H2 & H3 & H4).
  - split_and!; [lia|done|done].
  - destruct (IH _ _ _ H4 Hi) as (Hs & Hok & Hp). split_and!; [lia|done|]. rewrite Hp. by destruct i.
Qed.

Lemma chained_from n prev rows from :
  chained n prev rows → List.filter (λ r, from <=? r_seq r)%Z rows = drop (Z.to_nat (from - n)) rows.
Proof.
  revert n prev. induction rows as [|r rows IH]; intros n prev Hc; [by rewrite drop_nil|].
  destruct Hc as (H1 & _ & _ & H4). cbn [List.filter]. rewrite (IH _ _ H4). destruct (Z.leb_spec from (r_seq r)) as [Hf|Hf].
  - replace (Z.to_nat (from - n)) with 0 by lia. replace (Z.to_nat (from - (n + 1))) with 0 by lia. done.
  - replace (Z.to_nat (from - n)) with (S (Z.to_nat (from - (n + 1)))) by lia. done.
Qed.

Lemma collect_rows rows : Forall row_ok rows →
  ∃ es, collect row_to_audit_entry rows = Ok es ∧ r_seq <$> rows = seq <$> es ∧ r_community <$> rows = community_id <$> es ∧
    Forall (λ e, compute_hash e = Ok (hash e)) es.
Proof.
  induction 1 as [|r rows (e & He & Hh) Hrows IH]; [by exists []|]. destruct IH as (es & Hes & Hs & Hc & Hf).
  exists (e :: es). unfold collect in *. cbn [foldr]. rewrite He, Hes. split; [done|].
  unfold row_to_audit_entry in He. destruct (action_from_str _); [|done]. injection He as <-. cbn. rewrite Hs, Hc. split_and!; [done..|].
  by constructor.
Qed.

(** ** Properties *)

(** C14: In every state reached by any number of concurrent log calls that fail anywhere, the
    rows of each community are numbered 1, 2, 3 without a gap, each names the hash of the row
    before it and carries the hash of its own fields, and an entry that log returned is in the
    chain of its community. *)
Theorem audit_chains_linear s c :
  log_reachable s → details_ok s →
  let rows := chain c (table s) in
  (∀ i r, rows !! i = Some r →
     r_seq r = Z.of_nat (S i) ∧ row_ok r ∧
     r_prev_hash r = match i with O => None | S j => r_hash <$> rows !! j end) ∧
  (∀ k e, k ∈ calls s → lc_phase k = Finished (Ok e) →
     stored_row e ∈ chain (new_community_id (lc_entry k)) (table s) ∧ action e = new_action (lc_entry k) ∧
     actor_pubkey e = new_actor_pubkey (lc_entry k) ∧ object_id e = new_object_id (lc_entry k) ∧ detail e = new_detail (lc_entry k)).
Proof.
  intros Hr Hd rows. destruct (reachable_system_ok s Hr Hd) as [Ht Hc _]. split.
  - intros i r Hi. destruct (chained_lookup _ _ _ _ _ (Ht c) Hi) as (Hs & Hok & Hp). split_and!; [lia|done|done].
  - intros k e Hk Hf. specialize (Hc k Hk). unfold call_ok in Hc. rewrite Hf in Hc. destruct Hc as (Hin & now & head & Hb).
    rewrite chain_community. pose proof (build_entry_community _ _ _ _ Hb) as Hcom.
    unfold build_entry in Hb. destruct (compute_hash _); csimpl in Hb; [|done]. by simplify_eq.
Qed.

(** Verification of any range of a community accepts what was logged and answers false
    exactly for an empty range, after the round trip of times and JSON through the database;
    reading entries returns the requested part of the chain. *)
Theorem logged_chains_verify s c from to limit :
  log_reachable s → details_ok s →
  verify_chain c from to (table s) = Ok (bool_decide (chain_segment c from to (table s) ≠ [])) ∧
  (0 ≤ limit → ∃ es, get_entries c from limit (table s) = Ok es ∧
     r_seq <$> take (Z.to_nat limit) (drop (Z.to_nat (from - 1)) (chain c (table s))) = seq <$> es ∧
     Forall (λ e, community_id e = c ∧ compute_hash e = Ok (hash e)) es)%Z.
Proof.
  intros Hr Hd. destruct (reachable_system_ok s Hr Hd) as [Ht _ _]. specialize (Ht c). split.
  - unfold verify_chain. destruct (chained_range _ _ _ from to Ht) as (n' & prev' & Hc & _). fold (chain_segment c from to (table s)) in Hc.
    destruct (chain_segment c from to (table s)) as [|r rows] eqn:E; [done|].
    rewrite bool_decide_eq_true_2 by done. apply (verify_chained n' prev'); [done|by left].
  - intros Hl. unfold get_entries. destruct (Z.ltb_spec limit 0); [lia|]. rewrite (chained_from _ _ _ from Ht).
    set (rows := take _ _). assert (Hrows : Forall (λ r, row_ok r ∧ r_community r = c) rows).
    { unfold rows. apply Forall_take, Forall_drop, Forall_forall. intros r Hin. split; [by eapply chained_row_ok|]. by apply chain_community in Hin as [_ ?]. }
    apply Forall_and in Hrows as [Hok Hcom]. destruct (collect_rows rows Hok) as (es & He & Hs & Hc & Hf).
    exists es. split_and!; [done|done|]. apply Forall_and. split; [|done].
    assert (H' : Forall (λ x, x = c) (r_community <$> rows)) by by apply Forall_fmap. rewrite Hc in H'. by apply Forall_fmap in H'.
Qed.

(** A collision of the hash. *)
Definition sha256_collision : Prop := ∃ bs bs', bs ≠ bs' ∧ sha256 bs = sha256 bs'.

(** The bytes a row vouches for. *)
Definition row_bytes (r : Row) : result AuditError (list Z) := e ← row_to_audit_entry r; hashed_bytes e.

Lemma verify_rows_spec rows exp :
  verify_rows rows exp = Ok true →
  (∀ i r, rows !! i = Some r → ∃ bs, row_bytes r = Ok bs ∧ r_hash r = sha256 bs) ∧
  (∀ i r r', rows !! i = Some r → rows !! S i = Some r' → r_prev_hash r' = Some (r_hash r)) ∧
  (∀ x r, exp = Some x → rows !! 0 = Some r → r_prev_hash r = Some x).
Proof.
  revert exp. induction rows as [|r rows IH]; intros exp H; [split_and!; done|]. cbn [verify_rows] in H.
  destruct (row_to_audit_entry r) as [e|err] eqn:He; csimpl in H; [|done].
  assert (Hfe : prev_hash e = r_prev_hash r ∧ hash e = r_hash r).
  { unfold row_to_audit_entry in He. destruct (action_from_str _); [|done]. by injection He as <-. }
  destruct Hfe as [Hpe Hhe]. destruct (match exp with Some x => _ | None => false end) eqn:Hx; [done|].
  unfold compute_hash in H. destruct (hashed_bytes e) as [bs|err] eqn:Hb; csimpl in H; [|done].
  case_bool_decide as Hs; cbn [negb] in H; [|done]. destruct (IH _ H) as (Hr & Hl & Hp). split_and!.
  - intros [|i] r' Hi; simplify_eq/=; [|by apply (Hr i)]. exists bs. unfold row_bytes. rewrite He. csimpl. split; [done|congruence].
  - intros [|i] r1 r2 H1 H2; simplify_eq/=; [rewrite <- Hhe; by apply (Hp _ r2)|by apply (Hl i)].
  - intros x r' -> [= <-]. apply negb_false_iff, bool_decide_eq_true in Hx. congruence.
Qed.

(** The hashed bytes of a row: community and number first, the previous hash last. *)
Lemma row_bytes_shape r bs : row_bytes r = Ok bs →
  ∃ middle, bs = uuid_bytes (r_community r) ++ be_bytes 8 (r_seq r) ++ middle ++ default GENESIS_HASH (r_prev_hash r).
Proof.
  unfold row_bytes, row_to_audit_entry. intros (e & He & H)%bind_ok. destruct (action_from_str _) as [a|]; [|done].
  assert (Hf : community_id e = r_community r ∧ seq e = r_seq r ∧ prev_hash e = r_prev_hash r) by by injection He as <-.
  destruct Hf as (<- & <- & <-). unfold hashed_bytes in H. apply bind_ok in H as (text & _ & H).
  assert (Hinj : ∀ x y : list Z, @Ok AuditError _ x = Ok y → x = y) by congruence. apply Hinj in H. rewrite <- H.
  exists (str_bytes (to_rfc3339 (to_storage_precision (created_at e))) ++ str_bytes (as_str (action e))
    ++ optional_bytes (actor_pubkey e) ++ optional_bytes (str_bytes <$> object_id e) ++ str_bytes text).
  by rewrite <- !app_assoc.
Qed.

(** The column is a BIGINT. *)
Definition bigint_rows (t : Table) : Prop := Forall (λ r, (- 2 ^ 63 ≤ r_seq r < 2 ^ 63)%Z) t.

Lemma be_bytes_signed x y : (- 2 ^ 63 ≤ x < 2 ^ 63)%Z → (- 2 ^ 63 ≤ y < 2 ^ 63)%Z → be_bytes 8 x = be_bytes 8 y → x = y.
Proof.
  intros Hx Hy H. apply (f_equal (foldl (λ acc b, (acc * 256 + b)%Z) 0%Z)) in H. rewrite !from_be_bytes_acc in H.
  change (256 ^ Z.of_nat 8)%Z with (2 ^ 64)%Z in H. change (2 ^ 63)%Z with 9223372036854775808%Z in *.
  change (2 ^ 64)%Z with 18446744073709551616%Z in *. Z.to_euclidean_division_equations. lia.
Qed.

Lemma in_segment c from to t (P : Row → Prop) i r :
  Forall P t → reverse (chain_segment c from to t) !! i = Some r → P r.
Proof.
  intros Hp Hi. apply list_elem_of_lookup_2 in Hi. rewrite elem_of_reverse in Hi. unfold chain_segment in Hi.
  rewrite list_elem_of_In, filter_In, <- list_elem_of_In in Hi. destruct Hi as [Hi _]. apply chain_community in Hi as [Hi _].
  rewrite Forall_forall in Hp. by apply Hp.
Qed.

(** Lists that agree from the front and end at the same number are equally long. *)
Lemma aligned_longer (rows rows' : list Row) :
  rows ≠ [] → (∀ i r r', rows !! i = Some r → rows' !! i = Some r' → r_seq r = r_seq r') → NoDup (r_seq <$> rows') →
  r_seq <$> last rows = r_seq <$> last rows' → length rows' ≤ length rows.
Proof.
  intros Hne Hal Hnd Hl. destruct (Nat.le_gt_cases (length rows') (length rows)) as [|Hlt]; [done|]. exfalso.
  rewrite !last_lookup in Hl. assert (Hpos : 0 < length rows) by (destruct rows; [done|simpl; lia]).
  destruct (lookup_lt_is_Some_2 rows (pred (length rows))) as [r Hr]; [lia|].
  destruct (lookup_lt_is_Some_2 rows' (pred (length rows))) as [x Hx]; [lia|].
  destruct (lookup_lt_is_Some_2 rows' (pred (length rows'))) as [y Hy]; [lia|].
  rewrite Hr, Hy in Hl. injection Hl as Hl. pose proof (Hal _ _ _ Hr Hx) as Hs.
  assert (E : pred (length rows) = pred (length rows')); [|lia].
  eapply (NoDup_lookup (r_seq <$> rows')); [done|by rewrite list_lookup_fmap, Hx|rewrite list_lookup_fmap, Hy; cbn; congruence].
Qed.

Lemma verified_nonempty c from to t : verify_chain c from to t = Ok true → reverse (chain_segment c from to t) ≠ [].
Proof. unfold verify_chain. destruct (chain_segment c from to t); [done|]. intros _ E%(f_equal length). by rewrite length_reverse in E. Qed.

(** C15: Let two tables both verify over a range of sequence numbers of a community and end in
    the same hash. Unless SHA-256 has a collision, they agree, counted from the end, on the
    number and on every hashed byte of every row that both have; so a changed row, and a row
    removed or inserted in the middle, is found. If the numbers in each range are distinct and
    the ranges begin with the same number, they also have equally many rows. Rows taken away
    from the beginning of the range, or put before it, are not found otherwise: the verification
    expects no previous hash of the first row. *)
Theorem tampering_detected c from to t t' :
  let rows := reverse (chain_segment c from to t) in let rows' := reverse (chain_segment c from to t') in
  bigint_rows t → bigint_rows t' →
  verify_chain c from to t = Ok true → verify_chain c from to t' = Ok true →
  r_hash <$> head rows = r_hash <$> head rows' →
  sha256_collision ∨
  (∀ i r r', rows !! i = Some r → rows' !! i = Some r' → row_bytes r = row_bytes r' ∧ r_seq r = r_seq r') ∧
  (NoDup (r_seq <$> rows) → NoDup (r_seq <$> rows') → r_seq <$> last rows = r_seq <$> last rows' → length rows = length rows').
Proof.
  intros rows rows' Hbig Hbig' Hv Hv' Hhead. pose proof (verified_nonempty _ _ _ _ Hv) as Hfull. pose proof (verified_nonempty _ _ _ _ Hv') as Hfull'.
  assert (Hspec : ∀ t rows, rows = reverse (chain_segment c from to t) → verify_chain c from to t = Ok true →
    (∀ i r, rows !! i = Some r → ∃ bs, row_bytes r = Ok bs ∧ r_hash r = sha256 bs) ∧
    (∀ i r r', rows !! i = Some r → rows !! S i = Some r' → r_prev_hash r = Some (r_hash r'))).
  { clear. intros t rows -> H. unfold verify_chain in H. destruct (chain_segment c from to t) as [|r0 rs] eqn:E; [done|].
    rewrite <- E in *. apply verify_rows_spec in H as (Hr & Hl & _). split.
    - intros i r Hi. apply list_elem_of_lookup_2 in Hi. rewrite elem_of_reverse in Hi. apply list_elem_of_lookup in Hi as [j Hj]. exact (Hr j r Hj).
    - intros i r r' Hi Hi'. apply reverse_lookup_Some in Hi as [Hi H1]. apply reverse_lookup_Some in Hi' as [Hi' H2].
      apply (Hl (length (chain_segment c from to t) - S (S i))); [done|]. rewrite <- Hi. f_equal. lia. }
  destruct (Hspec t rows eq_refl Hv) as [Hb Hl]. destruct (Hspec t' rows' eq_refl Hv') as [Hb' Hl']. clear Hspec Hv Hv'.
  assert (Hstep : ∀ i r r', rows !! i = Some r → rows' !! i = Some r' → r_hash r = r_hash r' →
    sha256_collision ∨ row_bytes r = row_bytes r').
  { intros i r r' Hi Hi' Hh. destruct (Hb i r Hi) as (bs & Hbs & Hs), (Hb' i r' Hi') as (bs' & Hbs' & Hs').
    destruct (decide (bs = bs')) as [->|Hne]; [right; congruence|]. left. exists bs, bs'. split; [done|congruence]. }
  assert (Hall : ∀ n, sha256_collision ∨ ∀ i r r', i < n → rows !! i = Some r → rows' !! i = Some r' →
    r_hash r = r_hash r' ∧ row_bytes r = row_bytes r').
  { induction n as [|n [Hcol|IH]]; [right; lia|by left|].
    destruct (rows !! n) as [r|] eqn:Hn, (rows' !! n) as [r'|] eqn:Hn'; 
      try (right; intros i r1 r1' Hi H1 H1'; destruct (decide (i = n)) as [->|]; [congruence|apply (IH i); [lia|done|done]]).
    assert (Hh : r_hash r = r_hash r').
    { destruct n as [|n]; [rewrite <- !head_lookup in *; rewrite Hn, Hn' in Hhead; by injection Hhead|].
      destruct (lookup_lt_is_Some_2 rows n) as [q Hq]; [apply lookup_lt_Some in Hn; lia|].
      destruct (lookup_lt_is_Some_2 rows' n) as [q' Hq']; [apply lookup_lt_Some in Hn'; lia|].
      destruct (IH n q q' ltac:(lia) Hq Hq') as [_ Hbytes].
      pose proof (Hl n q r Hq Hn) as Hp. pose proof (Hl' n q' r' Hq' Hn') as Hp'.
      destruct (Hb n q Hq) as (bs & Hbs & _). rewrite Hbs in Hbytes. symmetry in Hbytes.
      destruct (row_bytes_shape q bs Hbs) as [m Hm], (row_bytes_shape q' bs Hbytes) as [m' Hm']. rewrite Hp in Hm. rewrite Hp' in Hm'.
      rewrite Hm in Hm'. rewrite !app_assoc in Hm'. apply app_inj_2 in Hm' as [_ Heq]; [exact Heq|].
      destruct (Hb _ _ Hn) as (? & _ & Hr), (Hb' _ _ Hn') as (? & _ & Hr'). cbn [default]. unfold Datatypes.id. by rewrite Hr, Hr', !sha256_length. }
    destruct (Hstep n r r' Hn Hn' Hh) as [Hcol|Hbytes]; [by left|]. right. intros i r1 r1' Hi H1 H1'.
    destruct (decide (i = n)) as [->|]; [by simplify_eq|apply (IH i); [lia|done|done]]. }
  destruct (Hall (length rows)) as [Hcol|Hrows]; [by left|]. right.
  enough (Hag : ∀ i r r', rows !! i = Some r → rows' !! i = Some r' → row_bytes r = row_bytes r' ∧ r_seq r = r_seq r').
  { split; [exact Hag|]. intros Hd Hd' Hends. apply Nat.le_antisymm; eapply aligned_longer; try done.
    - intros i r r' H1 H2. symmetry. by apply (Hag i).
    - intros i r r' H1 H2. by apply (Hag i). }
  intros i r r' Hi Hi'.
  destruct (Hrows i r r' (lookup_lt_Some _ _ _ Hi) Hi Hi') as [_ Hbytes]. split; [done|].
  destruct (Hb i r Hi) as (bs & Hbs & _). rewrite Hbs in Hbytes. symmetry in Hbytes.
  destruct (row_bytes_shape r bs Hbs) as [m Hm], (row_bytes_shape r' bs Hbytes) as [m' Hm']. rewrite Hm in Hm'.
  apply app_inj_1 in Hm' as [_ Hm']; [|by rewrite !uuid_bytes_length]. apply app_inj_1 in Hm' as [Hs _]; [|by rewrite !be_bytes_length].
  apply be_bytes_signed; [exact (in_segment _ _ _ _ _ _ _ Hbig Hi)|exact (in_segment _ _ _ _ _ _ _ Hbig' Hi')|done].
Qed.

(** ** The sequential call is an execution of the system *)

Lemma phase_step s n k phase t :
  calls s !! n = Some k → call_step (table s) (lc_entry k) (lc_phase k) phase t →
  (lc_phase k = Waiting → phase = HoldsLock → lock_free (new_community_id (lc_entry k)) (calls s)) →
  ∀ s', s' = {| table := t; calls := <[n := {| lc_entry := lc_entry k; lc_phase := phase |}]> (calls s) |} → log_step s s'.
Proof. intros Hn Hs Hl s' ->. by eapply log_step_call. Qed.

Lemma log_inner_runs s now e res t' :
  lock_free (new_community_id e) (calls s) → log_inner now e (table s) = (res, t') →
  rtc log_step s {| table := t'; calls := calls s ++ [{| lc_entry := e; lc_phase := Finished res |}] |}.
Proof.
  intros Hfree H. set (at_ := λ t ph, {| table := t; calls := calls s ++ [{| lc_entry := e; lc_phase := ph |}] |}).
  set (head := read_head (new_community_id e) (table s)).
  assert (Hstep : ∀ t ph ph' t'', call_step t e ph ph' t'' → (ph = Waiting → lock_free (new_community_id e) (calls s)) →
    log_step (at_ t ph) (at_ t'' ph')).
  { intros t ph ph' t'' Hc Hl. apply (phase_step (at_ t ph) (length (calls s)) {| lc_entry := e; lc_phase := ph |} ph' t'').
    - simpl. by rewrite lookup_app_r, Nat.sub_diag by lia.
    - done.
    - simpl. intros -> _ k [Hk| ->%list_elem_of_singleton]%elem_of_app Heq; [by apply Hl|done].
    - unfold at_. simpl. f_equal. by rewrite insert_app_r_alt, Nat.sub_diag by lia. }
  eapply rtc_l; [apply (log_step_new _ e)|]. eapply rtc_l; [apply (Hstep _ Waiting HoldsLock); [constructor|done]|].
  eapply rtc_l; [apply (Hstep _ HoldsLock (HeadRead head)); [constructor|done]|].
  unfold log_inner in H. fold head in H. destruct (build_entry now e head) as [entry|err] eqn:Hb.
  - destruct (insert_conflict (table s) (stored_row entry)) eqn:Hc; injection H as <- <-.
    + apply rtc_once, Hstep; [by eapply step_conflict|done].
    + eapply rtc_l; [apply (Hstep _ _ (Inserted entry)); [by eapply step_insert|done]|]. apply rtc_once, Hstep; [constructor|done].
  - injection H as <- <-. apply rtc_once, Hstep; [by eapply step_hash_error|done].
Qed.

(** Two entries that differ in object and detail, with the same hash. *)
Lemma object_and_detail_run_together e s1 s2 :
  scalar_text s1 = Some "12" → scalar_text s2 = Some "2" →
  let e1 := {| community_id := community_id e; seq := seq e; hash := hash e; prev_hash := prev_hash e; action := action e;
    actor_pubkey := actor_pubkey e; object_id := Some "x"; detail := Scalar s1; created_at := created_at e |} in
  let e2 := {| community_id := community_id e; seq := seq e; hash := hash e; prev_hash := prev_hash e; action := action e;
    actor_pubkey := actor_pubkey e; object_id := Some "x1"; detail := Scalar s2; created_at := created_at e |} in
  compute_hash e1 = compute_hash e2 ∧ object_id e1 ≠ object_id e2.
Proof.
  intros H1 H2 e1 e2. split; [|done]. unfold compute_hash, hashed_bytes, e1, e2. cbn [detail canonical_json]. rewrite H1, H2. done.
Qed.

End props.

(** ** The witnesses *)

(** A digest that folds the bytes into one number; scalars are their text; times
    are nanoseconds. *)
#[local] Instance fold_sha : Sha256Lib := {| sha256 bs := be_bytes 32 (foldl (λ acc b, (acc * 31 + b + 1)%Z) 7%Z bs) |}.
#[local] Instance fold_sha_laws : Sha256Laws fold_sha.
Proof. constructor. intros bs. apply be_bytes_length. Qed.

#[local] Instance nano_time : ChronoLib := {| DateTime := Z; trunc_micros t := (t - t mod 1000)%Z; to_rfc3339 t := pretty t |}.
Lemma nano_trunc t : ((t - t mod 1000) - (t - t mod 1000) mod 1000 = t - t mod 1000)%Z.
Proof. Z.to_euclidean_division_equations. lia. Qed.
#[local] Instance nano_time_laws : ChronoLaws nano_time.
Proof. constructor. intros t. apply nano_trunc. Qed.

#[local] Instance text_json : JsonLib := {| JsonScalar := string; scalar_text s := Some s; string_text s := Some s |}.
#[local] Instance plain_columns : ColumnLib text_json nano_time :=
  {| stored_time t := (t - t mod 1000)%Z : @DateTime nano_time; stored_json v := v |}.
#[local] Instance plain_columns_laws : ColumnLaws plain_columns.
Proof. constructor; [intros t; apply nano_trunc|done]. Qed.

Definition demo_entry (object : string) : NewAuditEntry :=
  {| new_community_id := 3%N; new_action := ChannelCreated; new_actor_pubkey := Some [1; 2]%Z; new_object_id := Some object;
     new_detail := Object [("b", Scalar "1"); ("a", Array [Scalar "2"])] |}.

Definition moment (t : Z) : DateTime := t.
Definition demo_log1 : result AuditError AuditEntry * Table := log_inner (moment 1234567) (demo_entry "x") [].
Definition demo_log2 : result AuditError AuditEntry * Table := log_inner (moment 2345678) (demo_entry "y") demo_log1.2.

Definition demo_system : LogSystem :=
  {| table := demo_log2.2;
     calls := [{| lc_entry := demo_entry "x"; lc_phase := Finished demo_log1.1 |};
               {| lc_entry := demo_entry "y"; lc_phase := Finished demo_log2.1 |}] |}.

Lemma audit_demo_reachable : log_reachable demo_system.
Proof.
  unfold log_reachable. etrans.
  - apply (log_inner_runs log_initial (moment 1234567) (demo_entry "x") demo_log1.1 demo_log1.2); [by intros k ?%elem_of_nil|].
    apply surjective_pairing.
  - apply (log_inner_runs {| table := demo_log1.2; calls := [{| lc_entry := demo_entry "x"; lc_phase := Finished demo_log1.1 |}] |}
      (moment 2345678) (demo_entry "y") demo_log2.1 demo_log2.2); [|apply surjective_pairing].
    intros k ->%list_elem_of_singleton. done.
Qed.

Lemma demo_detail_ok object : json_ok (new_detail (demo_entry object)).
Proof.
  unfold json_ok. simpl. eapply equiv_object; [|reflexivity|].
  - simpl. repeat constructor; set_solver.
  - repeat constructor.
Qed.

Lemma demo_details_ok : details_ok demo_system.
Proof.
  intros k Hk. simpl in Hk. apply elem_of_cons in Hk as [->|Hk]; [apply demo_detail_ok|].
  apply elem_of_cons in Hk as [->|Hk]; [apply demo_detail_ok|by apply elem_of_nil in Hk].
Qed.

Lemma audit_chains_linear_witness :
  ∃ r r', chain 3%N (table demo_system) = [r; r'] ∧ r_prev_hash r' = Some (r_hash r) ∧ r_seq r' = 2%Z.
Proof.
  destruct (audit_chains_linear demo_system 3%N audit_demo_reachable demo_details_ok) as [H _].
  assert (Hc : ∃ r r', chain 3%N (table demo_system) = [r; r']) by (do 2 eexists; vm_compute; reflexivity).
  destruct Hc as (r & r' & Hc). exists r, r'. split; [exact Hc|]. rewrite Hc in H.
  destruct (H 1 r' eq_refl) as (Hs & _ & Hp). split; [exact Hp|exact Hs].
Defined.

Lemma logged_chains_verify_witness : verify_chain 3%N 1 2 (table demo_system) = Ok true.
Proof.
  destruct (logged_chains_verify demo_system 3%N 1 2 10 audit_demo_reachable demo_details_ok) as [H _].
  rewrite H. vm_compute. reflexivity.
Defined.

Lemma bigint_check t : forallb (λ r, (- 2 ^ 63 <=? r_seq r) && (r_seq r <? 2 ^ 63))%Z t = true → bigint_rows t.
Proof.
  intros H. apply Forall_forall. intros r Hr. rewrite forallb_forall in H. rewrite list_elem_of_In in Hr. specialize (H r Hr).
  apply andb_true_iff in H. lia.
Qed.

Lemma tampering_detected_witness :
  let rows := reverse (chain_segment 3%N 1 2 (table demo_system)) in
  sha256_collision ∨
  (∀ i r r', rows !! i = Some r → rows !! i = Some r' → row_bytes r = row_bytes r' ∧ r_seq r = r_seq r') ∧
  (NoDup (r_seq <$> rows) → NoDup (r_seq <$> rows) → r_seq <$> last rows = r_seq <$> last rows → length rows = length rows).
Proof.
  assert (Hv : verify_chain 3%N 1 2 (table demo_system) = Ok true) by (vm_compute; reflexivity).
  assert (Hb : bigint_rows (table demo_system)) by (apply bigint_check; vm_compute; reflexivity).
  exact (tampering_detected 3%N 1 2 (table demo_system) (table demo_system) Hb Hb Hv Hv eq_refl).
Defined.
