(* ===== verification/Membership.v ===== *)
(** * Channel membership ([crates/maju-db/src/store/channel_members.rs],
      [channel.rs], [dm.rs], and [crates/maju-relay/src/handlers/channel_authz.rs],
      [side_effects.rs])

    The tables [channels], [channel_members] and [users] with the columns that
    membership reads, the transactions that change membership, the pure
    authority decisions made before an event is stored, and the handlers of the
    kinds 9000, 9001, 9021 and 9022.

    A transaction is a program ([Tx]) of statements.  [add_member] and
    [remove_member] take an advisory lock on the channel with their first
    statement; other transactions run between the others (READ COMMITTED).  The
    deployment's [kick] takes no lock.  Rows hidden by [hide_dm], the purge of a
    whole community and the caches in front of the tables are not modelled; what
    a handler takes from a cache is an argument. *)
From S2P Require Import Prelude Nostr Channel.

Abbreviation Pubkey := (list Z) (only parsing).

Inductive DbError :=
  | Sqlx
  | ChannelNotFound (channel : Uuid)
  | MemberNotFound (channel : Uuid)
  | NotFound
  | AccessDenied (msg : string)
  | InvalidData (msg : string).
#[export] Instance DbError_eq_dec : EqDecision DbError.
Proof. solve_decision. Defined.

(** ** Tables *)

Record ChannelRow := {
  visibility : ChannelVisibility;
  created_by : Pubkey;
  archived_at : option Z;
  deleted_at : option Z;
  ttl_seconds : option Z
}.

Record MemberRow := {
  m_role : MemberRole;
  m_joined_at : Z;
  m_invited_by : option Pubkey;
  m_removed_at : option Z;
  m_removed_by : option Pubkey
}.

Record UserRow := { channel_add_policy : string; agent_owner_pubkey : option Pubkey }.

(** Primary keys [(community_id, id)], [(community_id, channel_id, pubkey)] and
    [(community_id, pubkey)]. *)
Record Tables := {
  channels : gmap (Uuid * Uuid) ChannelRow;
  channel_members : gmap (Uuid * Uuid * Pubkey) MemberRow;
  users : gmap (Uuid * Pubkey) UserRow
}.

Definition set_members (m : gmap (Uuid * Uuid * Pubkey) MemberRow) (t : Tables) : Tables :=
  {| channels := channels t; channel_members := m; users := users t |}.
Definition set_channels (m : gmap (Uuid * Uuid) ChannelRow) (t : Tables) : Tables :=
  {| channels := m; channel_members := channel_members t; users := users t |}.

Record MemberRecord := {
  r_channel_id : Uuid;
  r_pubkey : Pubkey;
  r_role : string;
  r_joined_at : Z;
  r_invited_by : option Pubkey;
  r_removed_at : option Z
}.

Definition row_to_member_record (ch : Uuid) (pk : Pubkey) (r : MemberRow) : MemberRecord :=
  {| r_channel_id := ch; r_pubkey := pk; r_role := role_as_str (m_role r); r_joined_at := m_joined_at r;
     r_invited_by := m_invited_by r; r_removed_at := m_removed_at r |}.

(** ** Reading *)

(** The rows with [removed_at IS NULL]. *)
Definition active_row (c ch : Uuid) (pk : Pubkey) (t : Tables) : option MemberRow :=
  match channel_members t !! (c, ch, pk) with
  | Some r => match m_removed_at r with None => Some r | Some _ => None end
  | None => None
  end.

Definition get_active_role (c ch : Uuid) (pk : Pubkey) (t : Tables) : option string :=
  (λ r, role_as_str (m_role r)) <$> active_row c ch pk t.

(** The row with [deleted_at IS NULL]. *)
Definition live_channel (c ch : Uuid) (t : Tables) : option ChannelRow :=
  match channels t !! (c, ch) with
  | Some r => match deleted_at r with None => Some r | Some _ => None end
  | None => None
  end.

Definition get_channel (c ch : Uuid) (t : Tables) : result DbError ChannelRow :=
  match live_channel c ch t with Some r => Ok r | None => Err (ChannelNotFound ch) end.

(** With the join on the live channel. *)
Definition get_member_role (c ch : Uuid) (pk : Pubkey) (t : Tables) : option string :=
  match live_channel c ch t with Some _ => get_active_role c ch pk t | None => None end.

Definition is_member (c ch : Uuid) (pk : Pubkey) (t : Tables) : bool :=
  match live_channel c ch t, active_row c ch pk t with Some _, Some _ => true | _, _ => false end.

(** The active members of the channel, in the order the table is read. *)
Definition active_members {HO : HashOrder} (c ch : Uuid) (t : Tables) : list (Pubkey * MemberRow) :=
  omap (λ '((c', ch', pk), r),
    if ((c' =? c) && (ch' =? ch))%N then match m_removed_at r with None => Some (pk, r) | Some _ => None end else None)
    (hash_iter (channel_members t)).

(** [ORDER BY joined_at ASC]; empty for a deleted channel. *)
Definition get_members {HO : HashOrder} (c ch : Uuid) (t : Tables) : list MemberRecord :=
  match live_channel c ch t with
  | Some _ => (λ '(pk, r), row_to_member_record ch pk r) <$> sort_by_key (λ x, m_joined_at x.2) (active_members c ch t)
  | None => []
  end.

(** [SELECT COUNT( * )] of the active owners. *)
Definition owner_count {HO : HashOrder} (c ch : Uuid) (t : Tables) : Z :=
  Z.of_nat (length (List.filter (λ x, bool_decide (m_role x.2 = Owner)) (active_members c ch t))).

Definition is_agent_owner (c : Uuid) (target actor : Pubkey) (t : Tables) : bool :=
  match users t !! (c, target) with
  | Some u => bool_decide (agent_owner_pubkey u = Some actor)
  | None => false
  end.

Definition get_agent_channel_policy (c : Uuid) (pk : Pubkey) (t : Tables) : option (string * option Pubkey) :=
  (λ u, (channel_add_policy u, agent_owner_pubkey u)) <$> users t !! (c, pk).

(** ** Transactions *)

(** A statement reads the tables as the transaction sees them and may change them. *)
Inductive Tx (A : Type) : Type :=
  | Done (r : result DbError A)
  | Stmt {B : Type} (run : Tables → B * Tables) (k : B → Tx A).
Arguments Done {A} r.
Arguments Stmt {A B} run k.

Fixpoint tx_bind {A B} (f : A → Tx B) (t : Tx A) : Tx B :=
  match t with
  | Done (Ok a) => f a
  | Done (Err e) => Done (Err e)
  | Stmt run k => Stmt run (λ b, tx_bind f (k b))
  end.
#[export] Instance tx_ret : MRet Tx := λ A a, Done (Ok a).
#[export] Instance tx_mbind : MBind Tx := λ A B f t, tx_bind f t.

Definition fail {A} (e : DbError) : Tx A := Done (Err e).
Definition query {A} (q : Tables → A) : Tx A := Stmt (λ t, (q t, t)) mret.
Definition ok_or {A} (o : option A) (e : DbError) : Tx A :=
  match o with Some a => mret a | None => fail e end.

(** Without interference; an error rolls back. *)
Fixpoint run_tx {A} (t : Tx A) (db : Tables) : result DbError A * Tables :=
  match t with
  | Done r => (r, db)
  | Stmt run k => run_tx (k (run db).1) (run db).2
  end.
Definition transact {A} (t : Tx A) (db : Tables) : result DbError A * Tables :=
  match run_tx t db with
  | (Ok a, db') => (Ok a, db')
  | (Err e, _) => (Err e, db)
  end.

(** [INSERT ... ON CONFLICT DO UPDATE SET removed_at = NULL, removed_by = NULL,
    role = EXCLUDED.role]; [now] is the default of [joined_at]. *)
Definition upsert_member (now : Z) (c ch : Uuid) (pk : Pubkey) (role : MemberRole) (invited_by : option Pubkey)
    (t : Tables) : Tables :=
  let row := match channel_members t !! (c, ch, pk) with
    | Some r => {| m_role := role; m_joined_at := m_joined_at r; m_invited_by := m_invited_by r;
                   m_removed_at := None; m_removed_by := None |}
    | None => {| m_role := role; m_joined_at := now; m_invited_by := invited_by;
                 m_removed_at := None; m_removed_by := None |}
    end in
  set_members (<[(c, ch, pk) := row]> (channel_members t)) t.

(** [UPDATE ... SET removed_at = NOW(), removed_by = $1 ... AND removed_at IS NULL]. *)
Definition soft_remove (now : Z) (c ch : Uuid) (pk actor : Pubkey) (t : Tables) : Tables :=
  match active_row c ch pk t with
  | Some r =>
      set_members (<[(c, ch, pk) :=
        {| m_role := m_role r; m_joined_at := m_joined_at r; m_invited_by := m_invited_by r;
           m_removed_at := Some now; m_removed_by := Some actor |}]> (channel_members t)) t
  | None => t
  end.

(** ** Adding a member *)

Definition pubkey_check (pk : Pubkey) : result DbError unit :=
  if (length pk =? 32)%nat then Ok tt else Err (InvalidData "pubkey must be 32 bytes").

Definition get_active_role_tx (c ch : Uuid) (pk : Pubkey) : Tx (option string) := query (get_active_role c ch pk).

(** The role of the optional inviter. *)
Definition inviter_role_tx (c ch : Uuid) (invited_by : option Pubkey) : Tx (option string) :=
  match invited_by with
  | Some inviter => get_active_role_tx c ch inviter
  | None => mret None
  end.

Definition parse_role_tx (s : string) : Tx MemberRole :=
  match role_from_str s with Ok r => mret r | Err _ => fail (InvalidData "invalid role in database") end.

(** The role that the visibility of the channel allows the inviter to give. *)
Definition effective_role_tx (channel : ChannelRow) (c ch : Uuid) (pk : Pubkey) (role : MemberRole)
    (invited_by : option Pubkey) : Tx MemberRole :=
  if (visibility_as_str (visibility channel) =? "private")%string then
    inviter ← ok_or invited_by (AccessDenied "private channel requires an invite");
    if bool_decide (inviter = pk) && bool_decide (inviter = created_by channel) then mret role
    else
      inviter_role_str ← get_active_role_tx c ch inviter;
      inviter_role_str ← ok_or inviter_role_str (AccessDenied "inviter is not an active member");
      inviter_role ← parse_role_tx inviter_role_str;
      if is_elevated role && negb (is_elevated inviter_role)
      then fail (AccessDenied "only owners/admins may grant elevated roles")
      else mret role
  else if is_elevated role then
    granter_role ← inviter_role_tx c ch invited_by;
    if match granter_role with Some r => ((r =? "owner") || (r =? "admin"))%string | None => false end
    then mret role
    else fail (AccessDenied "only owners/admins may grant elevated roles")
  else mret role.

(** The guard on changing the role of an active member. *)
Definition role_change_tx {HO : HashOrder} (c ch : Uuid) (pk : Pubkey) (effective : MemberRole)
    (invited_by : option Pubkey) : Tx unit :=
  current_role ← get_active_role_tx c ch pk;
  match current_role with
  | Some cur =>
      if (cur =? role_as_str effective)%string then mret tt
      else
        actor_role ← inviter_role_tx c ch invited_by;
        let actor := match actor_role with
          | Some s => match role_from_str s with Ok r => Some r | Err _ => None end
          | None => None
          end in
        if negb (match actor with Some r => is_elevated r | None => false end)
        then fail (AccessDenied "only owners/admins may change an active member's role")
        else if (cur =? "owner")%string && negb (bool_decide (effective = Owner)) then
          owners ← query (owner_count c ch);
          if (owners <=? 1)%Z then fail (AccessDenied "cannot demote the last owner — transfer ownership first")
          else mret tt
        else mret tt
  | None => mret tt
  end.

(** The transaction of [add_member]; its first statement, the lock, is the step
    that starts it. *)
Definition add_member_tx {HO : HashOrder} (now : Z) (c ch : Uuid) (pk : Pubkey) (role : MemberRole)
    (invited_by : option Pubkey) : Tx MemberRecord :=
  channel ← query (live_channel c ch);
  channel ← ok_or channel (ChannelNotFound ch);
  effective ← effective_role_tx channel c ch pk role invited_by;
  _ ← role_change_tx c ch pk effective invited_by;
  _ ← Stmt (λ t, (tt, upsert_member now c ch pk effective invited_by t)) mret;
  row ← query (λ t, channel_members t !! (c, ch, pk));
  row ← ok_or row Sqlx;
  mret (row_to_member_record ch pk row).

(** The part before the transaction and the transaction. *)
Definition add_member {HO : HashOrder} (now : Z) (c ch : Uuid) (pk : Pubkey) (role : MemberRole)
    (invited_by : option Pubkey) : result DbError (Tx MemberRecord) :=
  _ ← pubkey_check pk;
  Ok (add_member_tx now c ch pk role invited_by).

(** ** Removing a member *)

Definition actor_check_tx (c ch : Uuid) (actor : Pubkey) (actor_is_agent_owner : bool) : Tx unit :=
  actor_role_str ← get_active_role_tx c ch actor;
  actor_role_str ← ok_or actor_role_str (AccessDenied "actor is not an active member");
  actor_role ← parse_role_tx actor_role_str;
  if negb (is_elevated actor_role) && negb actor_is_agent_owner
  then fail (AccessDenied "only owners/admins or the agent's owner may remove other members")
  else mret tt.

(** The update, and [MemberNotFound] when it affects no row. *)
Definition remove_row_tx (now : Z) (c ch : Uuid) (pk actor : Pubkey) : Tx unit :=
  affected ← Stmt (λ t, (bool_decide (is_Some (active_row c ch pk t)), soft_remove now c ch pk actor t)) mret;
  if negb affected then fail (MemberNotFound ch) else mret tt.

Definition remove_member_tx {HO : HashOrder} (now : Z) (c ch : Uuid) (pk actor : Pubkey)
    (actor_is_agent_owner : bool) : Tx unit :=
  _ ← (if bool_decide (pk = actor) then mret tt else actor_check_tx c ch actor actor_is_agent_owner);
  target_role ← get_active_role_tx c ch pk;
  _ ← (if bool_decide (target_role = Some "owner")
       then
         owners ← query (owner_count c ch);
         if (owners <=? 1)%Z then fail (AccessDenied "cannot remove the last owner — transfer ownership first")
         else mret tt
       else mret tt);
  remove_row_tx now c ch pk actor.

(** The lookup that [remove_member] does before its transaction. *)
Definition agent_owner_lookup (c : Uuid) (pk actor : Pubkey) (t : Tables) : bool :=
  if bool_decide (pk = actor) then false else is_agent_owner c pk actor t.

(** ** Other writers *)

(** [create_channel_with_id] after its checks: one transaction, without effect on
    an existing channel. *)
Definition insert_channel (now : Z) (c ch : Uuid) (vis : ChannelVisibility) (creator : Pubkey) (ttl : option Z)
    (t : Tables) : bool * Tables :=
  match channels t !! (c, ch) with
  | Some _ => (false, t)
  | None =>
      (true, upsert_member now c ch creator Owner (Some creator)
        (set_channels (<[(c, ch) :=
          {| visibility := vis; created_by := creator; archived_at := None; deleted_at := None; ttl_seconds := ttl |}]>
          (channels t)) t))
  end.

Definition is_blank (name : list Z) : bool :=
  match trim_end (trim_start_matches is_whitespace name) with [] => true | _ => false end.

Definition create_channel_with_id (now : Z) (c ch : Uuid) (name : list Z) (vis : ChannelVisibility) (creator : Pubkey)
    (ttl : option Z) (t : Tables) : result DbError bool * Tables :=
  match pubkey_check creator with
  | Err e => (Err e, t)
  | Ok _ =>
      if (ch =? 0)%N then (Err (InvalidData "channel_id must not be nil (reserved for global fan-out)"), t)
      else if is_blank (canonical_channel_name name) then (Err (InvalidData "channel name is required"), t)
      else let '(created, t') := insert_channel now c ch vis creator ttl t in (Ok created, t')
  end.

(** The writes of [create_dm]: a private channel and its participants. *)
Definition insert_dm (now : Z) (c ch : Uuid) (participants : list Pubkey) (creator : Pubkey) (t : Tables) : Tables :=
  foldl (λ t pk, upsert_member now c ch pk Member (Some creator) t)
    (set_channels (<[(c, ch) :=
      {| visibility := Private; created_by := creator; archived_at := None; deleted_at := None; ttl_seconds := None |}]>
      (channels t)) t) participants.

(** [soft_delete_channel]. *)
Definition soft_delete_channel (now : Z) (c ch : Uuid) (t : Tables) : bool * Tables :=
  match live_channel c ch t with
  | Some r =>
      (true, set_channels (<[(c, ch) := {| visibility := visibility r; created_by := created_by r;
        archived_at := archived_at r; deleted_at := Some now; ttl_seconds := ttl_seconds r |}]> (channels t)) t)
  | None => (false, t)
  end.

(** [deploy_kick_member]: no authority check, no lock. *)
Inductive KickResult := Removed | AlreadyGone.
Definition deploy_kick_member (now : Z) (c ch : Uuid) (target actor : Pubkey) (t : Tables) : KickResult * Tables :=
  (match active_row c ch target t with Some _ => Removed | None => AlreadyGone end, soft_remove now c ch target actor t).

(** [set_agent_owner]: the first owner stays. *)
Definition set_agent_owner (c : Uuid) (agent owner : Pubkey) (t : Tables) : result DbError bool * Tables :=
  match users t !! (c, agent) with
  | None => (Err NotFound, t)
  | Some u =>
      match agent_owner_pubkey u with
      | Some _ => (Ok false, t)
      | None =>
          (Ok true, {| channels := channels t; channel_members := channel_members t;
            users := <[(c, agent) := {| channel_add_policy := channel_add_policy u;
                                        agent_owner_pubkey := Some owner |}]> (users t) |})
      end
  end.

(** ** Authority decisions ([channel_authz.rs]) *)

Inductive ChannelAuthzError :=
  | ActorNotAuthorized
  | ElevatedRoleGrantDenied
  | RoleChangeDenied
  | LastOwnerDemotion
  | NotActiveMember
  | LastOwnerRemoval
  | LastOwnerRemovalTransferFirst
  | PolicyOwnerOnlyNoOwner
  | PolicyOwnerOnlyDenied
  | PolicyNobody.

Definition is_owner_record (m : MemberRecord) : bool := (r_role m =? "owner")%string.
Definition member_of (members : list MemberRecord) (pk : Pubkey) : option MemberRecord :=
  List.find (λ m, bool_decide (r_pubkey m = pk)) members.

Definition is_sole_owner (members : list MemberRecord) (pk : Pubkey) : bool :=
  match List.filter is_owner_record members with
  | [first] => bool_decide (r_pubkey first = pk)
  | _ => false
  end.

Definition decide_self_departure (members : list MemberRecord) (actor : Pubkey) : result ChannelAuthzError unit :=
  if negb (existsb (λ m, bool_decide (r_pubkey m = actor)) members) then Err NotActiveMember
  else if is_sole_owner members actor then Err LastOwnerRemoval
  else Ok tt.

Inductive PutUserDecision := Allow | CheckAddPolicy.

Definition elevated_opt (r : option MemberRole) : bool := match r with Some r => is_elevated r | None => false end.

Definition decide_put_user (vis : string) (actor_role requested_role : option MemberRole) (members : list MemberRecord)
    (target actor : Pubkey) : result ChannelAuthzError PutUserDecision :=
  _ ← (if (vis =? "private")%string then
         match actor_role with
         | None => Err ActorNotAuthorized
         | Some _ =>
             if elevated_opt requested_role && negb (elevated_opt actor_role) then Err ElevatedRoleGrantDenied
             else Ok tt
         end
       else Ok tt);
  _ ← match member_of members target, requested_role with
      | Some existing, Some role =>
          if (r_role existing =? role_as_str role)%string then Ok tt
          else if negb (elevated_opt actor_role) then Err RoleChangeDenied
          else if is_owner_record existing && negb (bool_decide (role = Owner)) && is_sole_owner members target
          then Err LastOwnerDemotion
          else Ok tt
      | _, _ => Ok tt
      end;
  Ok (if bool_decide (target = actor) then Allow else CheckAddPolicy).

Definition decide_channel_add_policy (policy : string) (owner : option Pubkey) (actor : Pubkey) :
    result ChannelAuthzError unit :=
  if (policy =? "owner_only")%string then
    match owner with
    | None => Err PolicyOwnerOnlyNoOwner
    | Some o => if bool_decide (actor = o) then Ok tt else Err PolicyOwnerOnlyDenied
    end
  else if (policy =? "nobody")%string then Err PolicyNobody
  else Ok tt.

Inductive RemoveOtherDecision := AllowRemove | CheckAgentOwner | Deny.

Definition classify_remove_other (members : list MemberRecord) (actor : Pubkey) : RemoveOtherDecision :=
  match member_of members actor with
  | Some m => if ((r_role m =? "owner") || (r_role m =? "admin"))%string then AllowRemove else CheckAgentOwner
  | None => Deny
  end.

(** ** Handlers ([side_effects.rs]) *)

Inductive AdminError :=
  | NoChannel
  | ChannelArchived
  | InvalidRole (s : string)
  | Authz (e : ChannelAuthzError)
  | ChannelIsPrivate
  | Db (e : DbError).

(** The parsed [role] tag. *)
Definition requested_role (role_tag : option string) : result AdminError (option MemberRole) :=
  match role_tag with
  | Some s => match role_from_str s with Ok r => Ok (Some r) | Err _ => Err (InvalidRole s) end
  | None => Ok None
  end.

Section handlers.
Context {HO : HashOrder}.

(** The channel of an admin event: it exists and is not archived. *)
Definition admin_channel (c ch : Uuid) (t : Tables) : result AdminError ChannelRow :=
  match live_channel c ch t with
  | None => Err NoChannel
  | Some r => match archived_at r with Some _ => Err ChannelArchived | None => Ok r end
  end.

(** [validate_admin_event], kind 9000. *)
Definition validate_put_user (c ch : Uuid) (actor target : Pubkey) (role_tag : option string) (t : Tables) :
    result AdminError unit :=
  channel ← admin_channel c ch t;
  requested ← requested_role role_tag;
  let members := get_members c ch t in
  let actor_role := m ← member_of members actor; match role_from_str (r_role m) with Ok r => Some r | Err _ => None end in
  decision ← map_err Authz
    (decide_put_user (visibility_as_str (visibility channel)) actor_role requested members target actor);
  match decision with
  | Allow => Ok tt
  | CheckAddPolicy =>
      match get_agent_channel_policy c target t with
      | Some (policy, owner) => map_err Authz (decide_channel_add_policy policy owner actor)
      | None => Ok tt
      end
  end.

(** [validate_admin_event], kind 9001. *)
Definition validate_remove_user (c ch : Uuid) (actor target : Pubkey) (t : Tables) : result AdminError unit :=
  _ ← admin_channel c ch t;
  let members := get_members c ch t in
  if bool_decide (target = actor) then map_err Authz (decide_self_departure members actor)
  else
    match classify_remove_other members actor with
    | AllowRemove => Ok tt
    | CheckAgentOwner => if is_agent_owner c target actor t then Ok tt else Err (Authz ActorNotAuthorized)
    | Deny => Err (Authz ActorNotAuthorized)
    end.

(** The role that [handle_put_user] asks for: the tag's, or the one held. *)
Definition put_user_role (c ch : Uuid) (target : Pubkey) (requested : option MemberRole) (t : Tables) : MemberRole :=
  match requested with
  | Some r => r
  | None =>
      match member_of (get_members c ch t) target with
      | Some m => match role_from_str (r_role m) with Ok r => r | Err _ => Member end
      | None => Member
      end
  end.

Definition apply_add (now : Z) (c ch : Uuid) (pk : Pubkey) (role : MemberRole) (invited_by : option Pubkey) (t : Tables) :
    result AdminError MemberRecord * Tables :=
  match add_member now c ch pk role invited_by with
  | Err e => (Err (Db e), t)
  | Ok tx => let '(r, t') := transact tx t in (map_err Db r, t')
  end.

Definition apply_remove (now : Z) (c ch : Uuid) (pk actor : Pubkey) (t : Tables) : result AdminError unit * Tables :=
  let '(r, t') := transact (remove_member_tx now c ch pk actor (agent_owner_lookup c pk actor t)) t in (map_err Db r, t').

(** Kind 9000. *)
Definition handle_put_user (now : Z) (c ch : Uuid) (actor target : Pubkey) (role_tag : option string) (t : Tables) :
    result AdminError MemberRecord * Tables :=
  match requested_role role_tag with
  | Err e => (Err e, t)
  | Ok requested => apply_add now c ch target (put_user_role c ch target requested t) (Some actor) t
  end.

(** Kind 9001. *)
Definition handle_remove_user (now : Z) (c ch : Uuid) (actor target : Pubkey) (t : Tables) :
    result AdminError unit * Tables :=
  if bool_decide (target = actor) && is_sole_owner (get_members c ch t) actor
  then (Err (Authz LastOwnerRemovalTransferFirst), t)
  else apply_remove now c ch target actor t.

(** Kind 9021; [cached] is the answer of the membership cache. *)
Definition handle_join_request (now : Z) (c ch : Uuid) (actor : Pubkey) (cached : bool) (t : Tables) :
    result AdminError unit * Tables :=
  match live_channel c ch t with
  | None => (Err NoChannel, t)
  | Some r =>
      if negb (visibility_as_str (visibility r) =? "open")%string then (Err ChannelIsPrivate, t)
      else if cached then (Ok tt, t)
      else let '(res, t') := apply_add now c ch actor Member None t in (_ ← res; Ok tt, t')
  end.

(** Kind 9022. *)
Definition handle_leave_request (now : Z) (c ch : Uuid) (actor : Pubkey) (t : Tables) : result AdminError unit * Tables :=
  if is_sole_owner (get_members c ch t) actor then (Err (Authz LastOwnerRemovalTransferFirst), t)
  else apply_remove now c ch actor actor t.

End handlers.

(** ** Concurrent writers *)

Inductive MemberOp :=
  | AddMember (c ch : Uuid) (pk : Pubkey) (role : MemberRole) (invited_by : option Pubkey)
  | RemoveMember (c ch : Uuid) (pk actor : Pubkey).

Definition op_channel (op : MemberOp) : Uuid * Uuid :=
  match op with AddMember c ch _ _ _ | RemoveMember c ch _ _ => (c, ch) end.

(** A call waits for the lock (a removal with the answer of its lookup), is in
    its transaction, or has ended.  In the transaction it has made changes that
    others do not see yet; [since] is the number of kicks before it got the lock. *)
Inductive MemberPhase :=
  | WaitingLock (actor_is_agent_owner : bool)
  | InTx (since : nat) (changes : Tables → Tables) (rest : Tx unit)
  | Ended (res : result DbError unit).

Record MemberCall := { mc_op : MemberOp; mc_phase : MemberPhase }.

(** [kicks] and [ever_open] record the kicks of the deployment and the channels
    that have been open. *)
Record MemberSystem := {
  db : Tables;
  member_calls : list MemberCall;
  kicks : list (Uuid * Uuid * Pubkey);
  ever_open : gset (Uuid * Uuid)
}.

Definition call_tx {HO : HashOrder} (now : Z) (op : MemberOp) (flag : bool) : Tx unit :=
  match op with
  | AddMember c ch pk role inv => _ ← add_member_tx now c ch pk role inv; mret tt
  | RemoveMember c ch pk actor => remove_member_tx now c ch pk actor flag
  end.

(** What a call does before its transaction. *)
Definition start_call (op : MemberOp) (t : Tables) : MemberPhase :=
  match op with
  | AddMember _ _ pk _ _ => match pubkey_check pk with Ok _ => WaitingLock false | Err e => Ended (Err e) end
  | RemoveMember c _ pk actor => WaitingLock (agent_owner_lookup c pk actor t)
  end.

Definition holds_lock (p : MemberPhase) : bool := match p with InTx _ _ _ => true | _ => false end.
Definition channel_unlocked (k : Uuid * Uuid) (cs : list MemberCall) : Prop :=
  ∀ x, x ∈ cs → op_channel (mc_op x) = k → holds_lock (mc_phase x) = false.

(** One step of a call.  It can fail wherever it waits for the database; a
    commit whose answer is lost has happened. *)
Inductive member_call_step {HO : HashOrder} (t : Tables) (kicked : nat) (op : MemberOp) : MemberPhase → MemberPhase → Tables → Prop :=
  | mcs_lock now flag : member_call_step t kicked op (WaitingLock flag) (InTx kicked (λ t, t) (call_tx now op flag)) t
  | mcs_stmt B (run : Tables → B * Tables) k since changes :
      member_call_step t kicked op (InTx since changes (Stmt run k)) (InTx since (λ t, (run (changes t)).2) (k (run (changes t)).1)) t
  | mcs_commit since changes : member_call_step t kicked op (InTx since changes (Done (Ok tt))) (Ended (Ok tt)) (changes t)
  | mcs_commit_lost since changes : member_call_step t kicked op (InTx since changes (Done (Ok tt))) (Ended (Err Sqlx)) (changes t)
  | mcs_rollback since changes e : member_call_step t kicked op (InTx since changes (Done (Err e))) (Ended (Err e)) t
  | mcs_fail p : (∀ r, p ≠ Ended r) → member_call_step t kicked op p (Ended (Err Sqlx)) t.

Definition with_db (t : Tables) (s : MemberSystem) : MemberSystem :=
  {| db := t; member_calls := member_calls s; kicks := kicks s; ever_open := ever_open s |}.
Definition note_open (k : Uuid * Uuid) (vis : ChannelVisibility) (s : gset (Uuid * Uuid)) : gset (Uuid * Uuid) :=
  match vis with Open => {[k]} ∪ s | Private => s end.

(** Every caller has read the channel before it changes its members. *)
Inductive member_step {HO : HashOrder} (s : MemberSystem) : MemberSystem → Prop :=
  | ms_call op :
      is_Some (channels (db s) !! op_channel op) →
      member_step s {| db := db s; member_calls := member_calls s ++ [{| mc_op := op; mc_phase := start_call op (db s) |}];
                       kicks := kicks s; ever_open := ever_open s |}
  | ms_step n x phase t :
      member_calls s !! n = Some x → member_call_step (db s) (length (kicks s)) (mc_op x) (mc_phase x) phase t →
      (holds_lock (mc_phase x) = false → holds_lock phase = true → channel_unlocked (op_channel (mc_op x)) (member_calls s)) →
      member_step s {| db := t; member_calls := <[n := {| mc_op := mc_op x; mc_phase := phase |}]> (member_calls s);
                       kicks := kicks s; ever_open := ever_open s |}
  | ms_create now c ch name vis creator ttl :
      member_step s {| db := (create_channel_with_id now c ch name vis creator ttl (db s)).2; member_calls := member_calls s;
                       kicks := kicks s; ever_open := note_open (c, ch) vis (ever_open s) |}
  | ms_dm now c ch participants creator :
      channels (db s) !! (c, ch) = None →
      member_step s (with_db (insert_dm now c ch participants creator (db s)) s)
  | ms_delete now c ch : member_step s (with_db (soft_delete_channel now c ch (db s)).2 s)
  | ms_edit c ch row row' :
      channels (db s) !! (c, ch) = Some row → created_by row' = created_by row →
      member_step s {| db := set_channels (<[(c, ch) := row']> (channels (db s))) (db s); member_calls := member_calls s;
                       kicks := kicks s; ever_open := note_open (c, ch) (visibility row') (ever_open s) |}
  | ms_kick now c ch target actor :
      member_step s {| db := (deploy_kick_member now c ch target actor (db s)).2; member_calls := member_calls s;
                       kicks := kicks s ++ [(c, ch, target)]; ever_open := ever_open s |}
  | ms_user c pk policy :
      users (db s) !! (c, pk) = None →
      member_step s (with_db {| channels := channels (db s); channel_members := channel_members (db s);
        users := <[(c, pk) := {| channel_add_policy := policy; agent_owner_pubkey := None |}]> (users (db s)) |} s)
  | ms_policy c pk u policy :
      users (db s) !! (c, pk) = Some u →
      member_step s (with_db {| channels := channels (db s); channel_members := channel_members (db s);
        users := <[(c, pk) := {| channel_add_policy := policy; agent_owner_pubkey := agent_owner_pubkey u |}]> (users (db s)) |} s)
  | ms_agent_owner c agent owner : member_step s (with_db (set_agent_owner c agent owner (db s)).2 s).

Definition member_initial : MemberSystem :=
  {| db := {| channels := ∅; channel_members := ∅; users := ∅ |}; member_calls := []; kicks := []; ever_open := ∅ |}.
Definition member_reachable {HO : HashOrder} (s : MemberSystem) : Prop := rtc member_step member_initial s.
