(* ===== verification/MembershipProps.v ===== *)
(** * Properties of channel membership

    Any number of membership calls run concurrently with the other writers of
    the tables and may fail anywhere.  [wp] is the rule by which a transaction
    that holds the lock of its channel is verified against the other writers:
    [rely] is what they can do meanwhile. *)
From S2P Require Import Prelude Nostr Channel Membership.

(** The active role of a key. *)
Definition role_of (k : Uuid * Uuid) (pk : Pubkey) (t : Tables) : option MemberRole :=
  m_role <$> active_row k.1 k.2 pk t.

Lemma role_str_inj r r' : role_as_str r = role_as_str r' → r = r'.
Proof. by destruct r, r'. Qed.

Lemma active_role_of c ch pk t : get_active_role c ch pk t = role_as_str <$> role_of (c, ch) pk t.
Proof. unfold get_active_role, role_of. cbn [fst snd]. by destruct (active_row c ch pk t). Qed.

Lemma elevated_str r : ((role_as_str r =? "owner") || (role_as_str r =? "admin"))%string = is_elevated r.
Proof. by destruct r. Qed.

(** ** The active members of a channel *)

Section members.
Context {HO : HashOrder}.
Implicit Types (c ch : Uuid) (t : Tables).

Lemma active_members_elem c ch t pk r : (pk, r) ∈ active_members c ch t ↔ active_row c ch pk t = Some r.
Proof.
  unfold active_members, active_row. rewrite list_elem_of_omap. split.
  - intros ([[[c' ch'] pk'] r'] & Hin & H). rewrite hash_iter_perm, elem_of_map_to_list in Hin.
    destruct ((c' =? c) && (ch' =? ch))%N eqn:E; [|done]. boolify. apply N.eqb_eq in H0, H1. subst c' ch'.
    destruct (m_removed_at r') eqn:Er; simplify_eq. by rewrite Hin, Er.
  - intros H. destruct (channel_members t !! (c, ch, pk)) as [r'|] eqn:E; [|done].
    destruct (m_removed_at r') eqn:Er; simplify_eq. exists ((c, ch, pk), r).
    rewrite hash_iter_perm, elem_of_map_to_list. split; [done|]. by rewrite !N.eqb_refl, Er.
Qed.

Lemma active_members_nodup c ch t : NoDup (active_members c ch t).*1.
Proof.
  unfold active_members. assert (Hn : NoDup (hash_iter (channel_members t)).*1).
  { rewrite hash_iter_perm. apply NoDup_fst_map_to_list. }
  revert Hn. generalize (hash_iter (channel_members t)) as l. induction l as [|[[[c' ch'] pk] r] l IH]; intros Hn; [constructor|].
  rewrite fmap_cons in Hn. apply NoDup_cons in Hn as [Hx Hn]. specialize (IH Hn). cbn [omap list_omap].
  destruct ((c' =? c) && (ch' =? ch))%N eqn:E; [|done]. destruct (m_removed_at r); [done|]. rewrite fmap_cons.
  apply NoDup_cons. split; [|done]. intros Hin. apply Hx. boolify. apply N.eqb_eq in H, H0. subst c' ch'. cbn [fst] in *.
  apply list_elem_of_fmap in Hin as ([pk' r'] & -> & Hin). apply list_elem_of_omap in Hin as ([[[c' ch'] pk2] r2] & Hin & H).
  destruct ((c' =? c) && (ch' =? ch))%N eqn:E2; [|done]. boolify. apply N.eqb_eq in H0, H1. subst c' ch'.
  destruct (m_removed_at r2); simplify_eq. apply list_elem_of_fmap. by exists ((c, ch, pk'), r').
Qed.

Definition owners_of (c ch : Uuid) (t : Tables) : list (Pubkey * MemberRow) :=
  List.filter (λ x, bool_decide (m_role x.2 = Owner)) (active_members c ch t).

Lemma owners_elem c ch t pk : role_of (c, ch) pk t = Some Owner ↔ ∃ r, (pk, r) ∈ owners_of c ch t.
Proof.
  unfold owners_of, role_of. cbn [fst snd]. setoid_rewrite list_elem_of_In. setoid_rewrite filter_In.
  setoid_rewrite <- list_elem_of_In. setoid_rewrite active_members_elem. split.
  - intros H. destruct (active_row c ch pk t) as [r|]; simplify_eq/=. exists r. split; [done|]. apply bool_decide_eq_true. congruence.
  - intros (r & -> & H). apply bool_decide_eq_true in H. simpl in *. by rewrite H.
Qed.

Lemma owners_nodup c ch t : NoDup (owners_of c ch t).*1.
Proof.
  unfold owners_of. pose proof (active_members_nodup c ch t) as Hn. revert Hn.
  generalize (active_members c ch t) as l. induction l as [|x l IH]; intros Hn; [done|].
  rewrite fmap_cons in Hn. apply NoDup_cons in Hn as [Hx Hn]. simpl. destruct (bool_decide _); [|by apply IH].
  rewrite fmap_cons. apply NoDup_cons. split; [|by apply IH]. intros Hin. apply Hx.
  apply list_elem_of_fmap in Hin as (y & -> & Hy). apply list_elem_of_In, filter_In in Hy as [Hy _].
  apply list_elem_of_In in Hy. apply list_elem_of_fmap. by exists y.
Qed.

(** More than one owner: another one. *)
Lemma another_owner c ch t pk :
  (owner_count c ch t <=? 1)%Z = false → ∃ o, o ≠ pk ∧ role_of (c, ch) o t = Some Owner.
Proof.
  intros H. apply Z.leb_gt in H. unfold owner_count in H. fold (owners_of c ch t) in H.
  pose proof (owners_nodup c ch t) as Hn. destruct (owners_of c ch t) as [|[p1 r1] [|[p2 r2] l]] eqn:E; simpl in H; [lia|lia|].
  rewrite !fmap_cons in Hn. apply NoDup_cons in Hn as [Hn _]. cbn [fst] in Hn.
  assert (Hne : p1 ≠ p2) by (intros ->; apply Hn; rewrite elem_of_cons; by left).
  destruct (decide (p1 = pk)) as [->|]; [exists p2|exists p1]; (split; [congruence|]); apply owners_elem; rewrite E.
  - exists r2. rewrite !elem_of_cons. by right; left.
  - exists r1. rewrite !elem_of_cons. by left.
Qed.

Lemma sole_owner_count c ch t pk :
  role_of (c, ch) pk t = Some Owner → ((owner_count c ch t <=? 1)%Z = true ↔ ∀ o, role_of (c, ch) o t = Some Owner → o = pk).
Proof.
  intros Hpk. split.
  - intros H o Ho. apply Z.leb_le in H. unfold owner_count in H. fold (owners_of c ch t) in H.
    apply owners_elem in Hpk as (r & Hr), Ho as (r' & Hr'). destruct (owners_of c ch t) as [|x [|y l]]; simpl in H; [|
      |lia]; rewrite ?elem_of_nil, ?elem_of_cons, ?elem_of_nil in Hr, Hr'; [done|].
    destruct Hr as [Hr|[]], Hr' as [Hr'|[]]. congruence.
  - intros H. destruct (owner_count c ch t <=? 1)%Z eqn:E; [done|]. destruct (another_owner c ch t pk E) as (o & Ho & Hr).
    by apply H in Hr.
Qed.

(** ** The roster that the handlers read *)

Lemma get_members_perm c ch t row :
  live_channel c ch t = Some row →
  get_members c ch t ≡ₚ (λ x, row_to_member_record ch x.1 x.2) <$> active_members c ch t.
Proof.
  intros H. unfold get_members. rewrite H, sort_by_key_perm.
  rewrite (list_fmap_ext _ (λ x, row_to_member_record ch x.1 x.2) (active_members c ch t)); [done|]. by intros ? [pk r] _.
Qed.

Lemma find_unique {A} (f : A → bool) l x :
  x ∈ l → f x = true → (∀ y, y ∈ l → f y = true → y = x) → List.find f l = Some x.
Proof.
  intros Hx Hf Hu. destruct (List.find f l) as [y|] eqn:E.
  - apply find_some in E as [Hy Hfy]. f_equal. apply Hu; [by apply list_elem_of_In|done].
  - apply (find_none f l) with (x := x) in E; [congruence|by apply list_elem_of_In].
Qed.

Lemma member_of_get_members c ch t row pk :
  live_channel c ch t = Some row →
  member_of (get_members c ch t) pk = row_to_member_record ch pk <$> active_row c ch pk t.
Proof.
  intros H. pose proof (get_members_perm c ch t row H) as Hp. unfold member_of.
  assert (Hin : ∀ m, m ∈ get_members c ch t → r_pubkey m = pk →
    ∃ r, active_row c ch pk t = Some r ∧ m = row_to_member_record ch pk r).
  { intros m Hm Hpk. rewrite Hp in Hm. apply list_elem_of_fmap in Hm as ([pk' r] & -> & Hm). cbn in Hpk. subst pk'.
    apply active_members_elem in Hm. by exists r. }
  destruct (active_row c ch pk t) as [r|] eqn:E; simpl.
  - apply find_unique.
    + rewrite Hp. apply list_elem_of_fmap. exists (pk, r). split; [done|]. by apply active_members_elem.
    + by apply bool_decide_eq_true.
    + intros m Hm Hpk. apply bool_decide_eq_true in Hpk. destruct (Hin m Hm Hpk) as (r' & Hr & ->). by simplify_eq.
  - destruct (List.find _ _) as [m|] eqn:Em; [|done]. apply find_some in Em as [Hm Hpk]. apply bool_decide_eq_true in Hpk.
    apply list_elem_of_In in Hm. destruct (Hin m Hm Hpk) as (r' & Hr & _). done.
Qed.

End members.

(** ** What others can do to a locked channel *)

(** The channels that are open are noted. *)
Definition opens_noted (s : MemberSystem) : Prop :=
  ∀ k row, channels (db s) !! k = Some row → visibility row = Open → k ∈ ever_open s.

(** The member was kicked after the first [n] kicks. *)
Definition kicked_since (n : nat) (k : Uuid * Uuid) (pk : Pubkey) (s : MemberSystem) : Prop := (k, pk) ∈ drop n (kicks s).

Record rely (n : nat) (k : Uuid * Uuid) (s s' : MemberSystem) : Prop := {
  rely_roles pk : role_of k pk (db s') = role_of k pk (db s) ∨ (role_of k pk (db s') = None ∧ kicked_since n k pk s');
  rely_kicks : kicks s `prefix_of` kicks s';
  rely_creator row : channels (db s) !! k = Some row →
    ∃ row', channels (db s') !! k = Some row' ∧ created_by row' = created_by row;
  rely_open : ever_open s ⊆ ever_open s';
  rely_agent c target actor : is_agent_owner c target actor (db s) = true → is_agent_owner c target actor (db s') = true
}.

Lemma kicked_since_mono n k pk s s' : kicks s `prefix_of` kicks s' → kicked_since n k pk s → kicked_since n k pk s'.
Proof. intros [l E] H. unfold kicked_since in *. rewrite E, drop_app. apply elem_of_app. by left. Qed.

#[export] Instance rely_preorder n k : PreOrder (rely n k).
Proof.
  split.
  - intros s. split; eauto.
  - intros s1 s2 s3 [A1 A2 A3 A4 A5] [B1 B2 B3 B4 B5]. split; [|by etrans| |by etrans|by auto].
    + intros pk. destruct (B1 pk) as [->|[E Hk]]; [|by right]. destruct (A1 pk) as [->|[E Hk]]; [by left|right].
      split; [done|]. by apply (kicked_since_mono _ _ _ s2).
    + intros row H. destruct (A3 row H) as (row2 & H2 & E2). destruct (B3 row2 H2) as (row3 & H3 & E3).
      exists row3. split; [done|congruence].
Qed.

(** A member whose role satisfies [P], or was kicked after the first [n] kicks. *)
Definition holds (P : MemberRole → Prop) (n : nat) (k : Uuid * Uuid) (pk : Pubkey) (s : MemberSystem) : Prop :=
  (∃ r, role_of k pk (db s) = Some r ∧ P r) ∨ kicked_since n k pk s.
Abbreviation acts := (holds (λ _, True)).
Abbreviation acts_elevated := (holds (λ r, is_elevated r = true)).
Abbreviation owns := (holds (λ r, r = Owner)).

Definition creator_is (k : Uuid * Uuid) (pk : Pubkey) (s : MemberSystem) : Prop :=
  ∃ row, channels (db s) !! k = Some row ∧ created_by row = pk.

Lemma rely_holds P n k pk s s' : rely n k s s' → holds P n k pk s → holds P n k pk s'.
Proof.
  intros R [H|H]; [|right; by apply (kicked_since_mono _ _ _ s); [apply R|]].
  destruct (rely_roles _ _ _ _ R pk) as [E|[E Hk]]; [|by right]. left. by rewrite E.
Qed.
Lemma rely_creator_is n k pk s s' : rely n k s s' → creator_is k pk s → creator_is k pk s'.
Proof. intros R (row & H & <-). destruct (rely_creator _ _ _ _ R _ H) as (row' & H' & E). by exists row'. Qed.
Lemma rely_role_back n k pk s s' r : rely n k s s' → role_of k pk (db s') = Some r → role_of k pk (db s) = Some r.
Proof. intros R H. destruct (rely_roles _ _ _ _ R pk) as [E|[E _]]; congruence. Qed.

(** ** The rule for transactions *)

Fixpoint wp {A} (n : nat) (k : Uuid * Uuid) (Q : A → (Tables → Tables) → MemberSystem → Prop) (changes : Tables → Tables) (t : Tx A)
    (s : MemberSystem) : Prop :=
  ∀ s', rely n k s s' → opens_noted s' →
  match t with
  | Done (Ok a) => Q a changes s'
  | Done (Err _) => True
  | Stmt run f => wp n k Q (λ t, (run (changes t)).2) (f (run (changes (db s'))).1) s'
  end.

(** The postcondition is weakened, knowing what happened since. *)
Lemma db_wp_mono {A} n k (Q Q' : A → (Tables → Tables) → MemberSystem → Prop) changes t s :
  (∀ a ch s', rely n k s s' → opens_noted s' → Q a ch s' → Q' a ch s') → wp n k Q changes t s → wp n k Q' changes t s.
Proof.
  revert changes s. induction t as [[a|e]|B run f IH]; intros changes s HQ H s' R O; [|done|].
  - by apply HQ, (H s' R O).
  - apply IH; [|by apply (H s' R O)]. intros a ch s2 R2. apply HQ. by etrans.
Qed.

Section wp.
Context {A : Type} (n : nat) (k : Uuid * Uuid) (Q : A → (Tables → Tables) → MemberSystem → Prop).

Lemma wp_now changes t s : (∀ s', rely n k s s' → opens_noted s' → wp n k Q changes t s') → wp n k Q changes t s.
Proof. intros H. destruct t; intros s' R O; by apply (H s' R O s'). Qed.

Lemma wp_later changes t s s' : rely n k s s' → wp n k Q changes t s → wp n k Q changes t s'.
Proof. intros R H. destruct t; intros s2 R2 O2; exact (H s2 (transitivity R R2) O2). Qed.

Lemma wp_fail changes e s : wp n k Q changes (fail e) s.
Proof. by intros s' _ _. Qed.

Lemma wp_ret changes a s : (∀ s', rely n k s s' → opens_noted s' → Q a changes s') → wp n k Q changes (mret a) s.
Proof. intros H s' R O. by apply H. Qed.

Lemma db_wp_bind {B} changes (t : Tx B) (f : B → Tx A) s :
  wp n k (λ b ch s, wp n k Q ch (f b) s) changes t s → wp n k Q changes (t ≫= f) s.
Proof.
  revert changes s. induction t as [[b|e]|C run g IH]; intros changes s H.
  - apply wp_now. intros s' R O. by apply (H s' R O).
  - apply wp_fail.
  - intros s' R O. apply IH. by apply (H s' R O).
Qed.

Lemma wp_query {B} changes (q : Tables → B) (f : B → Tx A) s :
  (∀ s', rely n k s s' → opens_noted s' → wp n k Q changes (f (q (changes (db s')))) s') →
  wp n k Q changes (query q ≫= f) s.
Proof. intros H s' R O. by apply H. Qed.

Lemma wp_write changes (u : Tables → Tables) (f : unit → Tx A) s :
  wp n k Q (λ t, u (changes t)) (f tt) s → wp n k Q changes (Stmt (λ t, (tt, u t)) mret ≫= f) s.
Proof. intros H s' R O. cbn. by apply (wp_later _ _ s). Qed.

End wp.

(** ** What a committed call was allowed to do *)

(** The creator of a private channel invites itself. *)
Definition bootstrap (k : Uuid * Uuid) (pk : Pubkey) (inv : option Pubkey) (s : MemberSystem) : Prop :=
  inv = Some pk ∧ creator_is k pk s.

(** The role may be given by the inviter. *)
Record granted (n : nat) (k : Uuid * Uuid) (pk : Pubkey) (role : MemberRole) (inv : option Pubkey) (s : MemberSystem) : Prop := {
  granted_elevated : is_elevated role = true → (∃ i, inv = Some i ∧ acts_elevated n k i s) ∨ bootstrap k pk inv s;
  granted_private : k ∉ ever_open s → (∃ i, inv = Some i ∧ acts n k i s) ∨ bootstrap k pk inv s
}.

Definition other_owner (n : nat) (k : Uuid * Uuid) (pk : Pubkey) (s : MemberSystem) : Prop := ∃ o, o ≠ pk ∧ owns n k o s.

(** A role that is held may be changed. *)
Record changeable (n : nat) (k : Uuid * Uuid) (pk : Pubkey) (role : MemberRole) (inv : option Pubkey) (s : MemberSystem) : Prop := {
  changeable_actor r : role_of k pk (db s) = Some r → r ≠ role → ∃ i, inv = Some i ∧ acts_elevated n k i s;
  changeable_owner : role_of k pk (db s) = Some Owner → role ≠ Owner → other_owner n k pk s
}.

Record removable (n : nat) (k : Uuid * Uuid) (pk actor : Pubkey) (s : MemberSystem) : Prop := {
  removable_actor : pk ≠ actor →
    acts_elevated n k actor s ∨ (acts n k actor s ∧ is_agent_owner k.1 pk actor (db s) = true);
  removable_owner : role_of k pk (db s) = Some Owner → other_owner n k pk s
}.

Lemma rely_bootstrap n k pk inv s s' : rely n k s s' → bootstrap k pk inv s → bootstrap k pk inv s'.
Proof. intros R [E H]. split; [done|by eapply rely_creator_is]. Qed.

Lemma rely_granted n k pk role inv s s' : rely n k s s' → granted n k pk role inv s → granted n k pk role inv s'.
Proof.
  intros R [A B]. split.
  - intros He. destruct (A He) as [(i & E & H)|H]; [left; exists i; split; [done|by eapply rely_holds]|right; by eapply rely_bootstrap].
  - intros Ho. destruct B as [(i & E & H)|H]; [intros H; by apply Ho, (rely_open _ _ _ _ R)| |right; by eapply rely_bootstrap].
    left. exists i. split; [done|by eapply rely_holds].
Qed.

Lemma rely_other_owner n k pk s s' : rely n k s s' → other_owner n k pk s → other_owner n k pk s'.
Proof. intros R (o & Ho & H). exists o. split; [done|by eapply rely_holds]. Qed.

Lemma rely_changeable n k pk role inv s s' : rely n k s s' → changeable n k pk role inv s → changeable n k pk role inv s'.
Proof.
  intros R [A B]. split.
  - intros r Hr Hne. destruct (A r (rely_role_back _ _ _ _ _ _ R Hr) Hne) as (i & E & H). exists i. split; [done|by eapply rely_holds].
  - intros Hr Hne. eapply rely_other_owner, B; [done|by eapply rely_role_back|done].
Qed.

Section transactions.
Context {HO : HashOrder} (n : nat) (c ch : Uuid).

Lemma acts_of_role (P : MemberRole → Prop) pk s r : role_of (c, ch) pk (db s) = Some r → P r → holds P n (c, ch) pk s.
Proof. intros H Hp. left. by exists r. Qed.

(** The statements that read the role of the inviter. *)
Lemma inviter_role_wp {A} (Q : A → _ → _ → Prop) (f : option string → Tx A) inv s :
  (∀ s' i r, rely n (c, ch) s s' → opens_noted s' → inv = Some i → role_of (c, ch) i (db s') = Some r →
     wp n (c, ch) Q (λ t, t) (f (Some (role_as_str r))) s') →
  (∀ s', rely n (c, ch) s s' → opens_noted s' → wp n (c, ch) Q (λ t, t) (f None) s') →
  wp n (c, ch) Q (λ t, t) (inviter_role_tx c ch inv ≫= f) s.
Proof.
  intros H1 H2. destruct inv as [i|]; cbn [inviter_role_tx].
  - apply wp_query. intros s' R O. rewrite active_role_of. destruct (role_of (c, ch) i (db s')) as [r|] eqn:E; cbn [fmap option_fmap option_map].
    + by apply (H1 _ i).
    + by apply H2.
  - apply wp_now. intros s' R O. by apply H2.
Qed.

Lemma effective_role_wp pk role inv row s :
  channels (db s) !! (c, ch) = Some row → opens_noted s →
  wp n (c, ch) (λ r changes s', r = role ∧ changes = (λ t, t) ∧ granted n (c, ch) pk role inv s') (λ t, t)
    (effective_role_tx row c ch pk role inv) s.
Proof.
  intros Hrow Hopen. assert (Hc : ∀ s', rely n (c, ch) s s' → creator_is (c, ch) (created_by row) s').
  { intros s' R. eapply rely_creator_is; [done|by exists row]. }
  unfold effective_role_tx. destruct (visibility_as_str (visibility row) =? "private")%string eqn:Ev.
  - destruct inv as [i|]; [|apply wp_fail]. cbn [ok_or]. apply wp_now. intros s1 R1 O1. cbn.
    destruct (bool_decide (i = pk) && bool_decide (i = created_by row)) eqn:Eb.
    + boolify. subst i. subst pk. apply wp_ret. intros s2 R2 O2. split_and!; [done|done|]. split; intros _; right; (split; [done|]);
        apply Hc; by etrans.
    + apply wp_query. intros s2 R2 O2. rewrite active_role_of. destruct (role_of (c, ch) i (db s2)) as [r|] eqn:Er; [|apply wp_fail].
      cbn [fmap option_fmap option_map ok_or]. apply wp_now. intros s3 R3 O3. cbn. unfold parse_role_tx. rewrite role_from_as. cbn.
      destruct (is_elevated role && negb (is_elevated r)) eqn:Ee; [apply wp_fail|]. apply wp_ret. intros s4 R4 O4.
      assert (R : rely n (c, ch) s2 s4) by by etrans. split_and!; [done|done|]. split; [intros He|intros _]; left; exists i; (split; [done|]);
        apply (rely_holds _ _ _ _ _ _ R), (acts_of_role _ _ _ r); try done. rewrite He in Ee. by destruct (is_elevated r).
  - assert (Hv : (c, ch) ∈ ever_open s) by (apply (Hopen _ row); [done|by destruct (visibility row)]).
    assert (Hp : ∀ s', rely n (c, ch) s s' → (c, ch) ∉ ever_open s' → False).
    { intros s' R Hn. by apply Hn, (rely_open _ _ _ _ R). }
    destruct (is_elevated role) eqn:Ee.
    + apply inviter_role_wp; [|intros; apply wp_fail]. intros s1 i r R1 O1 -> Hr. cbn. rewrite elevated_str.
      destruct (is_elevated r) eqn:Er; [|apply wp_fail]. apply wp_ret. intros s2 R2 O2. split_and!; [done|done|]. split.
      * intros _. left. exists i. split; [done|]. apply (rely_holds _ _ _ _ _ _ R2), (acts_of_role _ _ _ r); done.
      * intros Hn. exfalso. eapply (Hp s2); [by etrans|done].
    + apply wp_ret. intros s1 R1 O1. split_and!; [done|done|]. split; [by rewrite Ee|]. intros Hn. exfalso. by eapply Hp.
Qed.

Lemma role_change_wp pk role inv s :
  wp n (c, ch) (λ _ changes s', changes = (λ t, t) ∧ changeable n (c, ch) pk role inv s') (λ t, t)
    (role_change_tx c ch pk role inv) s.
Proof.
  unfold role_change_tx. apply wp_query. intros s1 R1 O1. rewrite active_role_of.
  destruct (role_of (c, ch) pk (db s1)) as [r|] eqn:Er; cbn [fmap option_fmap option_map].
  2: { apply wp_ret. intros s2 R2 O2. split; [done|]. assert (H : ∀ r, role_of (c, ch) pk (db s2) ≠ Some r).
       { intros r H. apply (rely_role_back _ _ _ _ _ _ R2) in H. congruence. } by split; [intros r Hr|intros Hr]; apply H in Hr. }
  destruct (role_as_str r =? role_as_str role)%string eqn:Eq.
  - apply String.eqb_eq, role_str_inj in Eq. subst r. apply wp_ret. intros s2 R2 O2. split; [done|].
    split; [intros r Hr Hne|intros Hr Hne]; apply (rely_role_back _ _ _ _ _ _ R2) in Hr; congruence.
  - assert (Hne : r ≠ role) by (intros ->; by rewrite String.eqb_refl in Eq). clear Eq. apply inviter_role_wp; [|intros; apply wp_fail].
    intros s2 i ri R2 O2 -> Hi. cbn. rewrite role_from_as. destruct (is_elevated ri) eqn:Ei; [|apply wp_fail].
    assert (Ha : acts_elevated n (c, ch) i s2) by by apply (acts_of_role _ _ _ ri).
    destruct ((role_as_str r =? "owner")%string && negb (bool_decide (role = Owner))) eqn:Eo; cbn [negb].
    + apply wp_query. intros s3 R3 O3. destruct (owner_count c ch (db s3) <=? 1)%Z eqn:Ec; [apply wp_fail|].
      apply another_owner with (pk := pk) in Ec as (o & Ho & Hr). apply wp_ret. intros s4 R4 O4. split; [done|]. split.
      * intros r' _ _. exists i. split; [done|]. eapply rely_holds; [|done]. by etrans.
      * intros _ _. exists o. split; [done|]. apply (rely_holds _ _ _ _ _ _ R4), (acts_of_role _ _ _ Owner); done.
    + apply wp_ret. intros s3 R3 O3. split; [done|]. split.
      * intros r' _ _. exists i. split; [done|]. by eapply rely_holds.
      * intros Hr Hno. assert (Hr1 : role_of (c, ch) pk (db s1) = Some Owner).
        { eapply rely_role_back; [|done]. by etrans. } rewrite Er in Hr1. injection Hr1 as ->.
        rewrite bool_decide_eq_false_2 in Eo by done. done.
Qed.

Lemma add_member_wp now pk role inv s :
  wp n (c, ch) (λ _ changes s', (∀ t, changes t = upsert_member now c ch pk role inv t) ∧
      granted n (c, ch) pk role inv s' ∧ changeable n (c, ch) pk role inv s') (λ t, t)
    (add_member_tx now c ch pk role inv) s.
Proof.
  unfold add_member_tx. apply wp_query. intros s1 R1 O1. unfold live_channel.
  destruct (channels (db s1) !! (c, ch)) as [row|] eqn:Erow; [|apply wp_fail].
  destruct (deleted_at row); [apply wp_fail|]. cbn [ok_or]. apply db_wp_bind, wp_ret. intros s2 R2 O2. cbn beta.
  apply db_wp_bind, (wp_later _ _ _ _ _ s1); [done|]. eapply db_wp_mono; [|by apply effective_role_wp].
  cbn beta. intros r ch3 s3 R3 O3 (-> & -> & Hg). apply db_wp_bind. eapply db_wp_mono; [|apply role_change_wp]. cbn beta.
  intros [] ch4 s4 R4 O4 (-> & Hch). apply wp_write, wp_query. intros s5 R5 O5. cbn beta.
  destruct (channel_members _ !! _); [|apply wp_fail]. cbn [ok_or]. apply db_wp_bind, wp_ret. intros s6 R6 O6. cbn beta.
  apply wp_ret. intros s7 R7 O7. assert (R47 : rely n (c, ch) s4 s7) by (etrans; [done|by etrans]). split_and!; [done| |].
  - apply (rely_granted _ _ _ _ _ s3); [by etrans|done].
  - by apply (rely_changeable _ _ _ _ _ s4).
Qed.

Lemma remove_member_wp now pk actor flag s :
  (flag = true → is_agent_owner c pk actor (db s) = true) →
  wp n (c, ch) (λ _ changes s', (∀ t, changes t = soft_remove now c ch pk actor t) ∧ removable n (c, ch) pk actor s')
    (λ t, t) (remove_member_tx now c ch pk actor flag) s.
Proof.
  intros Hflag. unfold remove_member_tx. apply db_wp_bind.
  eapply (db_wp_mono _ _ (λ _ changes s', changes = (λ t, t) ∧ (pk ≠ actor → acts_elevated n (c, ch) actor s' ∨
    (acts n (c, ch) actor s' ∧ is_agent_owner c pk actor (db s') = true)))).
  2: { case_bool_decide as Epk; [by apply wp_ret|]. unfold actor_check_tx. apply wp_query. intros s1 R1 O1.
    rewrite active_role_of. destruct (role_of (c, ch) actor (db s1)) as [r|] eqn:Er; [|apply wp_fail].
    cbn [fmap option_fmap option_map ok_or]. apply db_wp_bind, wp_ret. intros s2 R2 O2. cbn beta. unfold parse_role_tx.
    rewrite role_from_as. apply db_wp_bind, wp_ret. intros s3 R3 O3. cbn beta.
    destruct (negb (is_elevated r) && negb flag) eqn:Ee; [apply wp_fail|]. apply wp_ret. intros s4 R4 O4. split; [done|]. intros _.
    assert (R : rely n (c, ch) s1 s4) by (etrans; [done|by etrans]).
    destruct (is_elevated r) eqn:Eel; [left|right]; [|split].
    - apply (rely_holds _ _ _ _ _ _ R), (acts_of_role _ _ _ r); done.
    - apply (rely_holds _ _ _ _ _ _ R), (acts_of_role _ _ _ r); done.
    - apply (rely_agent _ _ _ _ R), (rely_agent _ _ _ _ R1), Hflag. by destruct flag. }
  cbn beta. intros [] ch1 s1 R1 O1 (-> & Hact). apply wp_query. intros s2 R2 O2. cbn beta. apply db_wp_bind.
  eapply (db_wp_mono _ _ (λ _ changes s', changes = (λ t, t) ∧ (role_of (c, ch) pk (db s') = Some Owner → other_owner n (c, ch) pk s'))).
  2: { rewrite active_role_of. case_bool_decide as Eo.
    - apply wp_query. intros s3 R3 O3. destruct (owner_count c ch (db s3) <=? 1)%Z eqn:Ec; [apply wp_fail|].
      apply another_owner with (pk := pk) in Ec as (o & Ho & Hr). apply wp_ret. intros s4 R4 O4. split; [done|]. intros _.
      exists o. split; [done|]. apply (rely_holds _ _ _ _ _ _ R4), (acts_of_role _ _ _ Owner); done.
    - apply wp_ret. intros s3 R3 O3. split; [done|]. intros Hr. exfalso. apply Eo.
      by rewrite (rely_role_back _ _ _ _ _ _ R3 Hr). }
  cbn beta. intros [] ch3 s3 R3 O3 (-> & Hown). intros s4 R4 O4. cbn -[soft_remove].
  apply wp_now. intros s5 R5 O5. destruct (bool_decide _); [|apply wp_fail]. cbn [negb]. apply wp_ret. intros s6 R6 O6.
  assert (R : rely n (c, ch) s3 s6) by (etrans; [done|by etrans]). split; [done|]. split.
  - intros Hne. destruct (Hact Hne) as [H|[H Ha]]; [left|right; split];
      [by eapply (rely_holds _ _ _ _ s1); [etrans; [|done]; by etrans|].. | ].
    by apply (rely_agent _ _ _ _ R), (rely_agent _ _ _ _ R3), (rely_agent _ _ _ _ R2).
  - intros Hr. apply (rely_other_owner _ _ _ s3); [done|]. apply Hown. by eapply rely_role_back.
Qed.

End transactions.

(** ** The writers *)

Lemma role_of_upsert now c ch pk role inv t k pk' :
  role_of k pk' (upsert_member now c ch pk role inv t) =
  if bool_decide (k = (c, ch) ∧ pk' = pk) then Some role else role_of k pk' t.
Proof.
  unfold role_of, active_row, upsert_member. cbn [set_members channel_members]. destruct k as [c' ch']. cbn [fst snd].
  case_bool_decide as E.
  - destruct E as [[= -> ->] ->]. rewrite lookup_insert_eq. by destruct (channel_members t !! _).
  - rewrite lookup_insert_ne; [done|]. intros [= <- <- <-]. by apply E.
Qed.

Lemma role_of_soft_remove now c ch pk actor t k pk' :
  role_of k pk' (soft_remove now c ch pk actor t) = if bool_decide (k = (c, ch) ∧ pk' = pk) then None else role_of k pk' t.
Proof.
  unfold soft_remove. destruct (active_row c ch pk t) as [r|] eqn:E.
  - unfold role_of, active_row. cbn [set_members channel_members]. destruct k as [c' ch']. cbn [fst snd]. case_bool_decide as Ek.
    + destruct Ek as [[= -> ->] ->]. by rewrite lookup_insert_eq.
    + rewrite lookup_insert_ne; [done|]. intros [= <- <- <-]. by apply Ek.
  - case_bool_decide as Ek; [|done]. destruct Ek as [-> ->]. unfold role_of. cbn [fst snd]. by rewrite E.
Qed.

Lemma soft_remove_rest now c ch pk actor t :
  channels (soft_remove now c ch pk actor t) = channels t ∧ users (soft_remove now c ch pk actor t) = users t.
Proof. unfold soft_remove. by destruct (active_row c ch pk t). Qed.

Definition dm_channel (creator : Pubkey) : ChannelRow :=
  {| visibility := Private; created_by := creator; archived_at := None; deleted_at := None; ttl_seconds := None |}.

Lemma insert_dm_effect now c ch l creator t :
  channels (insert_dm now c ch l creator t) = <[(c, ch) := dm_channel creator]> (channels t) ∧
  users (insert_dm now c ch l creator t) = users t ∧
  ∀ k pk, k ≠ (c, ch) → role_of k pk (insert_dm now c ch l creator t) = role_of k pk t.
Proof.
  unfold insert_dm. fold (dm_channel creator). set (t0 := set_channels _ t).
  assert (H : ∀ t1, channels (foldl (λ t pk, upsert_member now c ch pk Member (Some creator) t) t1 l) = channels t1 ∧
    users (foldl (λ t pk, upsert_member now c ch pk Member (Some creator) t) t1 l) = users t1 ∧
    ∀ k pk, k ≠ (c, ch) → role_of k pk (foldl (λ t pk, upsert_member now c ch pk Member (Some creator) t) t1 l) = role_of k pk t1).
  { induction l as [|p l IH]; intros t1; [done|]. cbn [foldl]. destruct (IH (upsert_member now c ch p Member (Some creator) t1)) as (-> & -> & Hr).
    split_and!; [done|done|]. intros k pk Hk. rewrite Hr, role_of_upsert, bool_decide_eq_false_2; [done|by intros [? _]|done]. }
  destruct (H t0) as (-> & -> & Hr). split_and!; [done|done|]. intros k pk Hk. by rewrite Hr.
Qed.

Lemma create_channel_db now c ch name vis creator ttl t :
  (create_channel_with_id now c ch name vis creator ttl t).2 = t ∨
  (channels t !! (c, ch) = None ∧
   (create_channel_with_id now c ch name vis creator ttl t).2 = (insert_channel now c ch vis creator ttl t).2).
Proof.
  unfold create_channel_with_id, pubkey_check. destruct (length creator =? 32)%nat; [|by left].
  destruct (ch =? 0)%N; [by left|]. destruct (is_blank _); [by left|].
  destruct (insert_channel now c ch vis creator ttl t) as [b t'] eqn:E. unfold insert_channel in E.
  destruct (channels t !! (c, ch)); simplify_eq; [by left|by right].
Qed.

Lemma agent_owner_mono c agent owner t t' target actor c' :
  (set_agent_owner c agent owner t).2 = t' → is_agent_owner c' target actor t = true → is_agent_owner c' target actor t' = true.
Proof.
  intros <-. unfold set_agent_owner, is_agent_owner. destruct (users t !! (c, agent)) as [u|] eqn:E; [|done].
  destruct (agent_owner_pubkey u) eqn:Eo; [done|]. cbn. destruct (decide ((c, agent) = (c', target))) as [[= -> ->]|Hne].
  - rewrite E, lookup_insert_eq. intros H. apply bool_decide_eq_true in H. congruence.
  - by rewrite lookup_insert_ne.
Qed.

(** ** The invariant of the system *)

Definition commit_ok (n : nat) (op : MemberOp) (changes : Tables → Tables) (s : MemberSystem) : Prop :=
  match op with
  | AddMember c ch pk role inv =>
      (∃ now, ∀ t, changes t = upsert_member now c ch pk role inv t) ∧
      granted n (c, ch) pk role inv s ∧ changeable n (c, ch) pk role inv s
  | RemoveMember c ch pk actor =>
      (∃ now, ∀ t, changes t = soft_remove now c ch pk actor t) ∧ removable n (c, ch) pk actor s
  end.

Definition lookup_ok (op : MemberOp) (flag : bool) (s : MemberSystem) : Prop :=
  match op with
  | RemoveMember c ch pk actor => flag = true → is_agent_owner c pk actor (db s) = true
  | AddMember _ _ _ _ _ => True
  end.

Definition call_ok (s : MemberSystem) (x : MemberCall) : Prop :=
  match mc_phase x with
  | WaitingLock flag => lookup_ok (mc_op x) flag s
  | InTx n changes t =>
      (n ≤ length (kicks s))%nat ∧ wp n (op_channel (mc_op x)) (λ _ changes s, commit_ok n (mc_op x) changes s) changes t s
  | Ended _ => True
  end.

Record member_inv (s : MemberSystem) : Prop := {
  inv_open : opens_noted s;
  inv_key k pk : is_Some (role_of k pk (db s)) → is_Some (channels (db s) !! k);
  inv_channel x : x ∈ member_calls s → is_Some (channels (db s) !! op_channel (mc_op x));
  inv_calls x : x ∈ member_calls s → call_ok s x;
  inv_lock i j x y : member_calls s !! i = Some x → member_calls s !! j = Some y →
    holds_lock (mc_phase x) = true → holds_lock (mc_phase y) = true → op_channel (mc_op x) = op_channel (mc_op y) → i = j
}.

Section system.
Context {HO : HashOrder}.

Lemma call_tx_wp n now op flag s :
  lookup_ok op flag s → wp n (op_channel op) (λ _ changes s, commit_ok n op changes s) (λ t, t) (call_tx now op flag) s.
Proof.
  intros H. destruct op as [c ch pk role inv|c ch pk actor]; cbn [call_tx op_channel].
  - apply db_wp_bind. eapply db_wp_mono; [|apply (add_member_wp n c ch now pk role inv)]. cbn beta.
    intros _ ch1 s1 R1 O1 (Hc & Hg & Hch). apply wp_ret. intros s2 R2 O2. split; [by exists now|].
    split; [by eapply rely_granted|by eapply rely_changeable].
  - eapply db_wp_mono; [|by apply (remove_member_wp n c ch now pk actor flag)]. cbn beta.
    intros _ ch1 s1 R1 O1 (Hc & Hr). split; [by exists now|done].
Qed.

(** A call that can commit now. *)
Lemma commits_ok s x n changes :
  member_inv s → x ∈ member_calls s → mc_phase x = InTx n changes (Done (Ok tt)) → commit_ok n (mc_op x) changes s.
Proof.
  intros I Hx Hp. pose proof (inv_calls s I x Hx) as H. unfold call_ok in H. rewrite Hp in H. destruct H as [_ H].
  apply (H s); [done|apply I].
Qed.

(** Commits of one channel do not concern another. *)
Lemma commit_roles n op changes s t k :
  commit_ok n op changes s → k ≠ op_channel op →
  (∀ pk, role_of k pk (changes t) = role_of k pk t) ∧ channels (changes t) = channels t ∧ users (changes t) = users t.
Proof.
  intros H Hk. destruct op as [c ch pk role inv|c ch pk actor]; destruct H as [[now H] _]; rewrite H; cbn [op_channel] in Hk.
  - split; [|done]. intros pk'. rewrite role_of_upsert, bool_decide_eq_false_2; [done|by intros [? _]].
  - pose proof (soft_remove_rest now c ch pk actor t) as [-> ->]. split; [|done]. intros pk'.
    rewrite role_of_soft_remove, bool_decide_eq_false_2; [done|by intros [? _]].
Qed.

Lemma commit_rest n op changes s t :
  commit_ok n op changes s → channels (changes t) = channels t ∧ users (changes t) = users t.
Proof.
  destruct op as [c ch pk role inv|c ch pk actor]; intros [[now H] _]; rewrite H; [done|apply soft_remove_rest].
Qed.

Lemma call_step_db t m op p p' t' :
  member_call_step t m op p p' t' →
  t' = t ∨ ∃ n changes, p = InTx n changes (Done (Ok tt)) ∧ t' = changes t ∧ holds_lock p' = false.
Proof. destruct 1; try (by left); right; by eexists _, _. Qed.

Lemma call_step_end t m op p p' t' : member_call_step t m op p p' t' → holds_lock p = false → holds_lock p' = true →
  ∃ now flag, p = WaitingLock flag ∧ p' = InTx m (λ t, t) (call_tx now op flag) ∧ t' = t.
Proof. destruct 1; try done; intros _ _. by eexists _, _. Qed.

(** What a step does, for the proofs below. *)
Definition committing (s s' : MemberSystem) (k : Uuid * Uuid) : Prop :=
  ∃ i x n changes r, member_calls s !! i = Some x ∧ op_channel (mc_op x) = k ∧ mc_phase x = InTx n changes (Done (Ok tt)) ∧
    db s' = changes (db s) ∧ member_calls s' !! i = Some {| mc_op := mc_op x; mc_phase := Ended r |}.

Record step_facts (s s' : MemberSystem) : Prop := {
  sf_kicks : kicks s `prefix_of` kicks s';
  sf_open : ever_open s ⊆ ever_open s';
  sf_noted : opens_noted s';
  sf_creator k row : channels (db s) !! k = Some row → ∃ row', channels (db s') !! k = Some row' ∧ created_by row' = created_by row;
  sf_agent c target actor : is_agent_owner c target actor (db s) = true → is_agent_owner c target actor (db s') = true;
  sf_roles k pk : role_of k pk (db s') = role_of k pk (db s) ∨
    (role_of k pk (db s') = None ∧ kicks s' = kicks s ++ [(k, pk)]) ∨
    (channels (db s) !! k = None ∧ is_Some (channels (db s') !! k)) ∨ committing s s' k
}.

(** A step that only touches the calls and notes. *)
Lemma quiet_facts s s' :
  opens_noted s → db s' = db s → kicks s' = kicks s → ever_open s' = ever_open s → step_facts s s'.
Proof.
  destruct s, s'. cbn. intros O -> -> ->. split; unfold opens_noted; cbn; try done; [eauto|by left].
Qed.

Lemma call_facts s i x phase t :
  member_inv s → member_calls s !! i = Some x → member_call_step (db s) (length (kicks s)) (mc_op x) (mc_phase x) phase t →
  step_facts s {| db := t; member_calls := <[i := {| mc_op := mc_op x; mc_phase := phase |}]> (member_calls s);
                  kicks := kicks s; ever_open := ever_open s |}.
Proof.
  intros I Hx Hs. destruct (call_step_db _ _ _ _ _ _ Hs) as [->|(n & changes & Hp & -> & _)]; [by apply quiet_facts; [apply I|..]|].
  assert (C := commits_ok s x n changes I (list_elem_of_lookup_2 _ _ _ Hx) Hp).
  destruct (commit_rest n _ _ _ (db s) C) as [Ec Eu]. split; unfold opens_noted; cbn; try done.
  - intros k row. rewrite Ec. apply I.
  - rewrite Ec. eauto.
  - intros c target actor. unfold is_agent_owner. by rewrite Eu.
  - intros k pk. destruct (decide (k = op_channel (mc_op x))) as [->|Hne].
    + right. right. right. rewrite Hp in Hs. assert (He : ∃ r, phase = Ended r) by (inversion Hs; by eexists).
      destruct He as [r ->]. exists i, x, n, changes, r. split_and!; try done. cbn. apply list_lookup_insert_eq.
      by apply lookup_lt_Some in Hx.
    + left. by apply (commit_roles n _ _ s _ k C Hne).
Qed.

(** A step that changes the row of one channel. *)
Lemma channel_facts s k0 row' l eo :
  opens_noted s → (∀ row, channels (db s) !! k0 = Some row → created_by row' = created_by row) →
  (visibility row' = Open → k0 ∈ eo) → ever_open s ⊆ eo →
  step_facts s {| db := set_channels (<[k0 := row']> (channels (db s))) (db s); member_calls := l; kicks := kicks s; ever_open := eo |}.
Proof.
  intros O Hc Hv He. split; unfold opens_noted; cbn; try done.
  - intros k row. destruct (decide (k = k0)) as [->|Hne].
    + rewrite lookup_insert_eq. intros [= <-]. exact Hv.
    + rewrite lookup_insert_ne by done. intros H H'. apply He. by eapply O.
  - intros k row H. destruct (decide (k = k0)) as [->|Hne].
    + rewrite lookup_insert_eq. exists row'. split; [done|by apply Hc].
    + rewrite lookup_insert_ne by done. by exists row.
  - intros k pk. by left.
Qed.

(** A step that changes the rows of users and keeps the agents' owners. *)
Lemma user_facts s t :
  opens_noted s → channels t = channels (db s) → channel_members t = channel_members (db s) →
  (∀ c target actor, is_agent_owner c target actor (db s) = true → is_agent_owner c target actor t = true) →
  step_facts s (with_db t s).
Proof.
  intros O Ec Em Ha. split; unfold opens_noted; cbn; try done.
  - intros k row. rewrite Ec. apply O.
  - rewrite Ec. eauto.
  - intros k pk. left. unfold role_of, active_row. by rewrite Em.
Qed.

Lemma note_open_sub k vis s : s ⊆ note_open k vis s.
Proof. destruct vis; simpl; set_solver. Qed.

Lemma create_facts s now c ch name vis creator ttl :
  opens_noted s →
  step_facts s {| db := (create_channel_with_id now c ch name vis creator ttl (db s)).2; member_calls := member_calls s;
                  kicks := kicks s; ever_open := note_open (c, ch) vis (ever_open s) |}.
Proof.
  intros O. assert (O' : ∀ k row, channels (db s) !! k = Some row → visibility row = Open → k ∈ note_open (c, ch) vis (ever_open s)).
  { intros k row Hk Hv. eapply note_open_sub, O; done. }
  destruct (create_channel_db now c ch name vis creator ttl (db s)) as [E|[Hn E]]; rewrite E.
  - split; unfold opens_noted; cbn; try done; [apply note_open_sub|eauto|by left].
  - unfold insert_channel. rewrite Hn. cbn [snd]. split; unfold opens_noted; cbn; try done; [apply note_open_sub| | |].
    + intros k row. destruct (decide (k = (c, ch))) as [->|Hne]; [|rewrite lookup_insert_ne by done; apply O'].
      rewrite lookup_insert_eq. intros [= <-]. cbn. intros ->. cbn. set_solver.
    + intros k row H. rewrite lookup_insert_ne by congruence. by exists row.
    + intros k pk. rewrite role_of_upsert. destruct (decide (k = (c, ch))) as [->|Hne].
      { right. right. left. rewrite lookup_insert_eq. split; [done|by eexists]. }
      left. rewrite bool_decide_eq_false_2; [done|by intros [? _]].
Qed.

Lemma dm_facts s now c ch l creator :
  opens_noted s → channels (db s) !! (c, ch) = None → step_facts s (with_db (insert_dm now c ch l creator (db s)) s).
Proof.
  intros O Hn. destruct (insert_dm_effect now c ch l creator (db s)) as (Ec & Eu & Er). split; unfold opens_noted; cbn; try done.
  - intros k row. rewrite Ec. destruct (decide (k = (c, ch))) as [->|Hne]; [rewrite lookup_insert_eq; by intros [= <-]|].
    rewrite lookup_insert_ne by done. apply O.
  - intros k row Hk. rewrite Ec, lookup_insert_ne by congruence. by exists row.
  - intros c' target actor. unfold is_agent_owner. by rewrite Eu.
  - intros k pk. destruct (decide (k = (c, ch))) as [->|Hne]; [|left; by apply Er].
    right. right. left. rewrite Ec, lookup_insert_eq. split; [done|by eexists].
Qed.

Lemma kick_facts s now c ch target actor :
  opens_noted s →
  step_facts s {| db := (deploy_kick_member now c ch target actor (db s)).2; member_calls := member_calls s;
                  kicks := kicks s ++ [(c, ch, target)]; ever_open := ever_open s |}.
Proof.
  intros O. cbn. pose proof (soft_remove_rest now c ch target actor (db s)) as [Ec Eu]. split; unfold opens_noted; cbn; try done.
  - by apply prefix_app_r.
  - intros k row. rewrite Ec. apply O.
  - rewrite Ec. eauto.
  - intros c' tg ac. unfold is_agent_owner. by rewrite Eu.
  - intros k pk. rewrite role_of_soft_remove. case_bool_decide as Ek; [|by left]. destruct Ek as [-> ->]. by right; left.
Qed.

Lemma delete_facts s now c ch : opens_noted s → step_facts s (with_db (soft_delete_channel now c ch (db s)).2 s).
Proof.
  intros O. unfold soft_delete_channel, live_channel. destruct (channels (db s) !! (c, ch)) as [row|] eqn:E; [|by apply quiet_facts].
  destruct (deleted_at row); [by apply quiet_facts|]. apply (channel_facts s (c, ch)); try done; cbn.
  - intros row2 H. congruence.
  - by apply O.
Qed.

Lemma step_has_facts s s' : member_inv s → member_step s s' → step_facts s s'.
Proof.
  intros I Hs. pose proof (inv_open s I) as O. inversion Hs; subst; clear Hs.
  - by apply quiet_facts.
  - by apply call_facts.
  - by apply create_facts.
  - by apply dm_facts.
  - by apply delete_facts.
  - apply channel_facts; try done; [intros; congruence| |apply note_open_sub]. intros ->. cbn. set_solver.
  - by apply kick_facts.
  - apply user_facts; try done. intros c' tg ac. unfold is_agent_owner. cbn. destruct (decide ((c, pk) = (c', tg))) as [[= -> ->]|Hne].
    + by rewrite H.
    + by rewrite lookup_insert_ne.
  - apply user_facts; try done. intros c' tg ac. unfold is_agent_owner. cbn. destruct (decide ((c, pk) = (c', tg))) as [[= -> ->]|Hne].
    + by rewrite H, lookup_insert_eq.
    + by rewrite lookup_insert_ne.
  - apply user_facts; try done; [| |by intros; eapply agent_owner_mono]; unfold set_agent_owner;
      destruct (users (db s) !! (c, agent)) as [u|]; try done; by destruct (agent_owner_pubkey u).
Qed.

Lemma facts_rely s s' n k :
  step_facts s s' → is_Some (channels (db s) !! k) → (n ≤ length (kicks s))%nat → ¬ committing s s' k → rely n k s s'.
Proof.
  intros F Hk Hn Hc. split; try apply F. intros pk. destruct (sf_roles _ _ F k pk) as [H|[[H E]|[[H _]|H]]]; [by left| | |done].
  - right. split; [done|]. unfold kicked_since. rewrite E, drop_app_le by done. apply elem_of_app. right. apply list_elem_of_here.
  - rewrite H in Hk. by destruct Hk.
Qed.

Lemma facts_key s s' k pk :
  member_inv s → step_facts s s' → is_Some (role_of k pk (db s')) → is_Some (channels (db s') !! k).
Proof.
  intros I F H. assert (Hk : is_Some (channels (db s) !! k) → is_Some (channels (db s') !! k)).
  { intros [row Hr]. destruct (sf_creator _ _ F _ _ Hr) as (row' & -> & _). by eexists. }
  destruct (sf_roles _ _ F k pk) as [E|[[E _]|[[_ E]|(i & x & n & ch & r & Hx & <- & _)]]].
  - apply Hk, (inv_key s I _ pk). by rewrite <- E.
  - rewrite E in H. by destruct H.
  - done.
  - apply Hk, (inv_channel s I), (list_elem_of_lookup_2 _ _ _ Hx).
Qed.

(** A call that does not take part in the step. *)
Lemma bystander_ok s s' j y :
  member_inv s → step_facts s s' → member_calls s !! j = Some y → member_calls s' !! j = Some y → call_ok s' y.
Proof.
  intros I F Hy Hy'. pose proof (inv_calls s I y (list_elem_of_lookup_2 _ _ _ Hy)) as H. unfold call_ok in *.
  destruct (mc_phase y) as [flag|n changes t|r] eqn:Ep; [| |done].
  - destruct (mc_op y); [done|]. intros Hf. by apply (sf_agent _ _ F), H.
  - destruct H as [Hn H]. split; [pose proof (prefix_length _ _ (sf_kicks _ _ F)); lia|].
    eapply wp_later, H. apply facts_rely; [done| |done|].
    + apply (inv_channel s I), (list_elem_of_lookup_2 _ _ _ Hy).
    + intros (i & x & m & ch & r & Hx & Hk & Hp & _ & Hx'). assert (i = j) as ->.
      { eapply (inv_lock s I); [exact Hx|exact Hy| | |exact Hk]; by rewrite ?Hp, ?Ep. }
      rewrite Hx' in Hy'. injection Hy' as <-. by cbn in Ep.
Qed.

(** The call that takes the step. *)
Lemma stepping_ok s i x phase t :
  member_inv s → member_calls s !! i = Some x → member_call_step (db s) (length (kicks s)) (mc_op x) (mc_phase x) phase t →
  call_ok {| db := t; member_calls := <[i := {| mc_op := mc_op x; mc_phase := phase |}]> (member_calls s);
             kicks := kicks s; ever_open := ever_open s |} {| mc_op := mc_op x; mc_phase := phase |}.
Proof.
  intros I Hx Hs. pose proof (inv_calls s I x (list_elem_of_lookup_2 _ _ _ Hx)) as H.
  pose proof (call_facts s i x phase t I Hx Hs) as F. unfold call_ok in *. cbn [mc_phase mc_op].
  remember (mc_phase x) as p eqn:Ep. destruct Hs; try done.
  - split; [done|]. apply call_tx_wp. by destruct (mc_op x).
  - destruct H as [Hn H]. split; [done|]. specialize (H s (reflexivity s) (inv_open s I)).
    eapply wp_later, H. apply facts_rely; [done| |done|].
    + apply (inv_channel s I), (list_elem_of_lookup_2 _ _ _ Hx).
    + intros (j & y & m & ch & r & Hy & Hk & Hp & _ & Hy'). cbn in Hy'. assert (i = j) as <-.
      { eapply (inv_lock s I); [exact Hx|exact Hy| | |by symmetry]; by rewrite ?Hp, <- ?Ep. }
      rewrite list_lookup_insert_eq in Hy' by (by eapply lookup_lt_Some). by injection Hy'.
Qed.

Lemma same_calls_inv s s' :
  member_inv s → step_facts s s' → member_calls s' = member_calls s → member_inv s'.
Proof.
  intros I F E. split; rewrite ?E; [apply F|by intros k pk; apply (facts_key s s' k pk I F)| | |apply I].
  - intros x Hx. destruct (inv_channel s I x Hx) as [row Hr]. destruct (sf_creator _ _ F _ _ Hr) as (row' & -> & _). by eexists.
  - intros x Hx. pose proof Hx as Hx'. apply list_elem_of_lookup in Hx' as [j Hj]. eapply (bystander_ok s); try done. by rewrite E.
Qed.

Lemma new_call_inv s op :
  member_inv s → is_Some (channels (db s) !! op_channel op) →
  member_inv {| db := db s; member_calls := member_calls s ++ [{| mc_op := op; mc_phase := start_call op (db s) |}];
                kicks := kicks s; ever_open := ever_open s |}.
Proof.
  intros I Hop. assert (Hw : holds_lock (start_call op (db s)) = false).
  { destruct op; cbn; [|done]. by destruct (pubkey_check pk). }
  assert (Hnew : ∀ i x, (member_calls s ++ [{| mc_op := op; mc_phase := start_call op (db s) |}]) !! i = Some x →
    holds_lock (mc_phase x) = true → member_calls s !! i = Some x).
  { intros i x Hx Hh. apply lookup_app_Some in Hx as [Hx|[_ Hx]]; [done|]. apply list_lookup_singleton_Some in Hx as [_ <-].
    cbn in Hh. congruence. }
  split; cbn [db member_calls kicks ever_open].
  - apply I.
  - apply I.
  - intros x Hx. apply elem_of_app in Hx as [Hx|Hx]; [by apply (inv_channel s I)|]. apply list_elem_of_singleton in Hx as ->. done.
  - intros x Hx. apply elem_of_app in Hx as [Hx|Hx].
    + apply list_elem_of_lookup in Hx as [j Hj]. eapply (bystander_ok s); [done|by apply quiet_facts; [apply I|..]|done|].
      cbn. by apply lookup_app_l_Some.
    + apply list_elem_of_singleton in Hx as ->. unfold call_ok. cbn [mc_phase mc_op]. destruct op as [c ch pk role inv|c ch pk actor]; cbn.
      * by destruct (pubkey_check pk).
      * unfold agent_owner_lookup. by case_bool_decide.
  - intros i j x y Hx Hy Hhx Hhy. apply Hnew in Hx, Hy; [|done..]. by apply (inv_lock s I i j).
Qed.

Lemma call_step_inv s i x phase t :
  member_inv s → member_calls s !! i = Some x →
  member_call_step (db s) (length (kicks s)) (mc_op x) (mc_phase x) phase t →
  (holds_lock (mc_phase x) = false → holds_lock phase = true → channel_unlocked (op_channel (mc_op x)) (member_calls s)) →
  member_inv {| db := t; member_calls := <[i := {| mc_op := mc_op x; mc_phase := phase |}]> (member_calls s);
                kicks := kicks s; ever_open := ever_open s |}.
Proof.
  intros I Hx Hs Hlock. pose proof (call_facts s i x phase t I Hx Hs) as F. pose proof (lookup_lt_Some _ _ _ Hx) as Hlt.
  assert (Hold : ∀ j y, <[i := {| mc_op := mc_op x; mc_phase := phase |}]> (member_calls s) !! j = Some y →
    (j = i ∧ y = {| mc_op := mc_op x; mc_phase := phase |}) ∨ (j ≠ i ∧ member_calls s !! j = Some y)).
  { intros j y Hy. destruct (decide (j = i)) as [->|Hne]; [rewrite list_lookup_insert_eq in Hy by done; left; by simplify_eq|].
    rewrite list_lookup_insert_ne in Hy by done. by right. }
  (* a call other than [x] that holds the lock *)
  assert (Hkey : ∀ j y, j ≠ i → member_calls s !! j = Some y → holds_lock (mc_phase y) = true → holds_lock phase = true →
    op_channel (mc_op x) = op_channel (mc_op y) → False).
  { intros j y Hne Hy Hhy Hh Hk. destruct (holds_lock (mc_phase x)) eqn:Ehx.
    - apply Hne. by apply (inv_lock s I j i y x).
    - pose proof (Hlock eq_refl Hh y (list_elem_of_lookup_2 _ _ _ Hy) (eq_sym Hk)). congruence. }
  split; cbn [db member_calls kicks ever_open].
  - apply F.
  - intros k pk. by apply (facts_key s _ _ _ I F).
  - intros y Hy. apply list_elem_of_lookup in Hy as [j Hj].
    assert (Hc : is_Some (channels (db s) !! op_channel (mc_op y))).
    { apply Hold in Hj as [[-> ->]|[_ Hj]]; apply (inv_channel s I _ (list_elem_of_lookup_2 _ _ _ ltac:(eassumption))). }
    destruct Hc as [row Hr]. destruct (sf_creator _ _ F _ _ Hr) as (row' & E & _). cbn in E. rewrite E. by eexists.
  - intros y Hy. apply list_elem_of_lookup in Hy as [j Hj]. pose proof Hj as Hj'. apply Hold in Hj as [[-> ->]|[_ Hj]].
    + by apply stepping_ok.
    + by apply (bystander_ok s _ j).
  - intros j l y z Hy Hz Hhy Hhz Hk. apply Hold in Hy as [[-> ->]|[Hj Hy]], Hz as [[-> ->]|[Hl Hz]]; [done| | |].
    + exfalso. by eapply (Hkey l z).
    + exfalso. by eapply (Hkey j y).
    + by apply (inv_lock s I j l y z).
Qed.

Lemma member_step_inv s s' : member_inv s → member_step s s' → member_inv s'.
Proof.
  intros I Hs. pose proof (step_has_facts s s' I Hs) as F. inversion Hs; subst; clear Hs;
    [by apply new_call_inv|by apply call_step_inv|by apply (same_calls_inv s)..].
Qed.

Lemma reachable_inv s : member_reachable s → member_inv s.
Proof.
  intros H. refine (rtc_ind_r member_inv member_initial _ _ s H).
  - split; cbn; [intros k row; cbn; by rewrite lookup_empty| |intros x Hx; by apply elem_of_nil in Hx..|done].
    intros k pk. unfold role_of, active_row. cbn. rewrite lookup_empty. by intros [].
  - intros x y _ Hs I. by apply (member_step_inv x).
Qed.

(** ** Owners *)

Definition has_owner (k : Uuid * Uuid) (s : MemberSystem) : Prop := ∃ pk, role_of k pk (db s) = Some Owner.

Lemma other_owner_role n k pk s :
  (∀ pk, (k, pk) ∉ kicks s) → other_owner n k pk s → ∃ o, o ≠ pk ∧ role_of k o (db s) = Some Owner.
Proof.
  intros Hk (o & Ho & [(r & Hr & ->)|H]); [by exists o|]. exfalso. apply (Hk o). unfold kicked_since in H.
  rewrite <- (take_drop n (kicks s)). apply elem_of_app. by right.
Qed.

Lemma commit_keeps_owner s k n op changes :
  commit_ok n op changes s → op_channel op = k → (∀ pk, (k, pk) ∉ kicks s) → has_owner k s →
  ∃ pk, role_of k pk (changes (db s)) = Some Owner.
Proof.
  intros C <- Hk [pk Hpk]. destruct op as [c ch p role inv|c ch p actor]; destruct C as [[now C] A]; rewrite C; cbn [op_channel] in *.
  - destruct A as [_ A]. setoid_rewrite role_of_upsert. destruct (decide (pk = p)) as [->|Hne].
    + destruct (decide (role = Owner)) as [->|Hr]; [exists p; by rewrite bool_decide_eq_true_2|].
      destruct (other_owner_role n _ _ _ Hk (changeable_owner _ _ _ _ _ _ A Hpk Hr)) as (o & Ho & Hor).
      exists o. rewrite bool_decide_eq_false_2; [done|by intros [_ ?]].
    + exists pk. rewrite bool_decide_eq_false_2; [done|by intros [_ ?]].
  - setoid_rewrite role_of_soft_remove. destruct (decide (pk = p)) as [->|Hne].
    + destruct (other_owner_role n _ _ _ Hk (removable_owner _ _ _ _ _ A Hpk)) as (o & Ho & Hor).
      exists o. rewrite bool_decide_eq_false_2; [done|by intros [_ ?]].
    + exists pk. rewrite bool_decide_eq_false_2; [done|by intros [_ ?]].
Qed.

Lemma step_keeps_owner s s' k :
  member_inv s → member_step s s' → (∀ pk, (k, pk) ∉ kicks s') → has_owner k s → has_owner k s'.
Proof.
  intros I Hs Hk [pk Hpk]. pose proof (step_has_facts s s' I Hs) as F.
  assert (Hk0 : ∀ pk, (k, pk) ∉ kicks s).
  { intros p Hp. apply (Hk p). destruct (sf_kicks _ _ F) as [l ->]. apply elem_of_app. by left. }
  destruct (sf_roles _ _ F k pk) as [E|[[_ E]|[[E _]|(i & x & n & ch & r & Hx & Ek & Hp & Ed & _)]]].
  - exists pk. congruence.
  - exfalso. apply (Hk pk). rewrite E. apply elem_of_app. right. apply list_elem_of_here.
  - destruct (inv_key s I k pk) as [? H]; [by rewrite Hpk|congruence].
  - unfold has_owner. rewrite Ed. eapply commit_keeps_owner; [|exact Ek|exact Hk0|by exists pk].
    by eapply commits_ok, Hp; [|eapply list_elem_of_lookup_2].
Qed.

(** C18: From any reachable state on, whatever calls of add_member and remove_member run
    concurrently and fail anywhere, a channel that has an active owner keeps one, as long as the
    deployment never kicked a member of it: the check of the owner count and the write are one
    critical section of the membership lock. *)
Theorem channels_keep_an_owner (s s' : MemberSystem) (k : Uuid * Uuid) :
  member_reachable s → rtc member_step s s' → has_owner k s → (∀ pk, (k, pk) ∉ kicks s') → has_owner k s'.
Proof.
  intros Hr Hs Ho. apply reachable_inv in Hr. induction Hs as [s|s1 s2 s3 H12 H23 IH]; intros Hk; [done|].
  pose proof (member_step_inv _ _ Hr H12) as I2. apply IH; [done| |done].
  apply (step_keeps_owner s1); [done|done| |done]. intros pk Hp. apply (Hk pk). clear -H23 Hp I2 HO.
  induction H23 as [|s2 s3 s4 H23 _ IH]; [done|]. pose proof (step_has_facts _ _ I2 H23) as F.
  apply IH; [by eapply member_step_inv|]. destruct (sf_kicks _ _ F) as [l ->]. apply elem_of_app. by left.
Qed.

(** C24: A step of the reachable system changes the active role of a key only by creating the
    channel, by a kick, or by the commit of a call that was entitled to it. A grant of owner or
    admin has an inviter that is owner or admin at the commit (or was kicked during the
    transaction), or is the creator of the channel inviting itself. Into a channel that was
    never open a key is admitted only by an inviter that is an active member (or was kicked
    during the transaction), or as the creator of the channel inviting itself, also when the
    creator had been removed before (creator_returns). Changing the role of an active member
    needs an elevated inviter, and demoting an owner another owner; removing somebody else needs
    an elevated actor or the owner of the agent. *)
Theorem membership_changes_authorised (s s' : MemberSystem) (k : Uuid * Uuid) (pk : Pubkey) :
  member_reachable s → member_step s s' → role_of k pk (db s') ≠ role_of k pk (db s) →
  match role_of k pk (db s') with
  | Some role =>
      channels (db s) !! k = None ∨
      ∃ n inv changes, {| mc_op := AddMember k.1 k.2 pk role inv; mc_phase := InTx n changes (Done (Ok tt)) |} ∈ member_calls s ∧
        granted n k pk role inv s ∧ changeable n k pk role inv s
  | None =>
      kicks s' = kicks s ++ [(k, pk)] ∨
      ∃ n actor changes, {| mc_op := RemoveMember k.1 k.2 pk actor; mc_phase := InTx n changes (Done (Ok tt)) |} ∈ member_calls s ∧
        removable n k pk actor s
  end.
Proof.
  intros Hr Hs Hne. apply reachable_inv in Hr as I. pose proof (step_has_facts s s' I Hs) as F.
  destruct (sf_roles _ _ F k pk) as [E|[[-> E]|[[E _]|(i & [op p] & n & ch & r & Hx & <- & Hp & Ed & _)]]]; [done|by left| |].
  - destruct (role_of k pk (db s')) eqn:E'; [by left|]. destruct (role_of k pk (db s)) eqn:E0; [|done].
    destruct (inv_key s I k pk) as [? H]; [by rewrite E0|congruence].
  - apply list_elem_of_lookup_2 in Hx. cbn in Hp. subst p. pose proof (commits_ok s _ n ch I Hx eq_refl) as C.
    rewrite Ed in *. cbn [mc_op] in *. destruct op as [c chn p role inv|c chn p actor]; destruct C as [[now C] A]; rewrite C in *; cbn [op_channel fst snd] in *.
    + rewrite role_of_upsert in *. case_bool_decide as Ep; [|done]. destruct Ep as [_ ->]. right. exists n, inv, ch. by destruct A.
    + rewrite role_of_soft_remove in *. case_bool_decide as Ep; [|done]. destruct Ep as [_ ->]. right. by exists n, actor, ch.
Qed.

End system.

(** ** From validation to effect

    An event that passes validation is stored and acknowledged before its
    effect on the tables; what follows is the effect when nothing changes in
    between. *)

Section effects.
Context {HO : HashOrder}.
Implicit Types (t : Tables) (c ch : Uuid) (pk actor target : Pubkey).

Lemma run_tx_bind {A B} (f : A → Tx B) (x : Tx A) t :
  run_tx (x ≫= f) t = match run_tx x t with (Ok a, t') => run_tx (f a) t' | (Err e, t') => (Err e, t') end.
Proof. revert t. induction x as [[a|e]|C run g IH]; intros t; [done|done|]. exact (IH (run t).1 (run t).2). Qed.

Lemma run_query {A B} (q : Tables → A) (f : A → Tx B) t : run_tx (query q ≫= f) t = run_tx (f (q t)) t.
Proof. done. Qed.

Lemma run_inviter c ch inv t :
  run_tx (inviter_role_tx c ch inv) t = (Ok (i ← inv; role_as_str <$> role_of (c, ch) i t), t).
Proof. destruct inv as [i|]; [|done]. cbn. by rewrite active_role_of. Qed.

Lemma run_actor_check c ch actor flag t r :
  role_of (c, ch) actor t = Some r → is_elevated r || flag = true → run_tx (actor_check_tx c ch actor flag) t = (Ok tt, t).
Proof.
  intros Hr Hf. unfold actor_check_tx, get_active_role_tx. rewrite run_query, active_role_of, Hr. cbn [fmap option_fmap option_map ok_or].
  rewrite run_tx_bind. cbn. unfold parse_role_tx. rewrite role_from_as. cbn. by destruct (is_elevated r), flag.
Qed.

Lemma actor_role_read c ch t row pk :
  live_channel c ch t = Some row →
  (m ← member_of (get_members c ch t) pk; match role_from_str (r_role m) with Ok r => Some r | Err _ => None end) =
  role_of (c, ch) pk t.
Proof.
  intros H. rewrite (member_of_get_members c ch t row pk H). unfold role_of. cbn [fst snd].
  destruct (active_row c ch pk t) as [r|]; [|done]. cbn. by rewrite role_from_as.
Qed.

Lemma filter_perm {A} (f : A → bool) l l' : l ≡ₚ l' → List.filter f l ≡ₚ List.filter f l'.
Proof.
  induction 1 as [|x l l' _ IH|x y l|? ? ? _ IH1 _ IH2]; simpl; [done| | |by etrans].
  - destruct (f x); [by f_equiv|done].
  - destruct (f x), (f y); try done. apply Permutation_swap.
Qed.

Lemma sole_owner_read c ch t row pk :
  live_channel c ch t = Some row → role_of (c, ch) pk t = Some Owner →
  is_sole_owner (get_members c ch t) pk = (owner_count c ch t <=? 1)%Z.
Proof.
  intros H Hpk. pose proof (get_members_perm c ch t row H) as Hp.
  assert (Hf : List.filter is_owner_record (get_members c ch t) ≡ₚ (λ x, row_to_member_record ch x.1 x.2) <$> owners_of c ch t).
  { unfold owners_of. etrans; [exact (filter_perm _ _ _ Hp)|]. generalize (active_members c ch t) as l. clear. induction l as [|[p r] l IH]; [done|].
    rewrite fmap_cons. cbn [List.filter]. assert (E : is_owner_record (row_to_member_record ch p r) = bool_decide (m_role r = Owner)).
    { unfold is_owner_record. cbn. by destruct (m_role r). }
    cbn [fst snd]. rewrite E. case_bool_decide; [|done]. rewrite fmap_cons. by f_equiv. }
  unfold is_sole_owner, owner_count. fold (owners_of c ch t). pose proof (Permutation_length Hf) as Hl. rewrite length_fmap in Hl.
  apply owners_elem in Hpk as [r Hr].
  destruct (owners_of c ch t) as [|[p1 r1] [|x l]] eqn:Eo; [by apply elem_of_nil in Hr| |].
  - rewrite list_elem_of_singleton in Hr. simplify_eq. rewrite fmap_cons in Hf. cbn [fmap list_fmap] in Hf.
    apply Permutation_singleton_r in Hf. rewrite Hf. cbn. by rewrite bool_decide_eq_true_2.
  - destruct (List.filter is_owner_record _) as [|m1 [|m2 l']]; [done|done|]. cbn [length]. symmetry. apply Z.leb_gt. lia.
Qed.

Definition grant_refused : DbError := AccessDenied "only owners/admins may grant elevated roles".

Lemma run_effective_role row c ch target role actor t :
  (visibility row = Private → is_Some (role_of (c, ch) actor t)) →
  is_elevated role && negb (elevated_opt (role_of (c, ch) actor t)) = false →
  run_tx (effective_role_tx row c ch target role (Some actor)) t = (Ok role, t).
Proof.
  intros Hp He. unfold effective_role_tx. destruct (visibility row) eqn:Ev; cbn [visibility_as_str String.eqb Ascii.eqb Bool.eqb].
  - change (run_tx (if is_elevated role then granter_role ← inviter_role_tx c ch (Some actor);
      if match granter_role with Some r => ((r =? "owner") || (r =? "admin"))%string | None => false end then mret role
      else fail grant_refused else mret role) t = (Ok role, t)).
    destruct (is_elevated role); [|done]. rewrite run_tx_bind, run_inviter. cbn.
    destruct (role_of (c, ch) actor t) as [r|]; [|done]. cbn in *. rewrite elevated_str. by destruct (is_elevated r).
  - change (run_tx (if bool_decide (actor = target) && bool_decide (actor = created_by row) then mret role
      else inviter_role_str ← get_active_role_tx c ch actor;
        inviter_role_str ← ok_or inviter_role_str (AccessDenied "inviter is not an active member");
        inviter_role ← parse_role_tx inviter_role_str;
        if is_elevated role && negb (is_elevated inviter_role) then fail grant_refused else mret role) t = (Ok role, t)).
    destruct (bool_decide (actor = target) && _); [done|]. destruct (Hp eq_refl) as [r Hr]. rewrite Hr in He.
    unfold get_active_role_tx. rewrite run_query, active_role_of, Hr. cbn [fmap option_fmap option_map ok_or].
    rewrite run_tx_bind. cbn. unfold parse_role_tx. rewrite role_from_as. cbn in *. by rewrite He.
Qed.

Lemma run_effective_role_refused row c ch target role actor t :
  (visibility row = Private → is_Some (role_of (c, ch) actor t) ∧ actor ≠ target) →
  is_elevated role && negb (elevated_opt (role_of (c, ch) actor t)) = true →
  run_tx (effective_role_tx row c ch target role (Some actor)) t = (Err grant_refused, t).
Proof.
  intros Hp He. apply andb_true_iff in He as [He Hn]. unfold effective_role_tx.
  destruct (visibility row) eqn:Ev; cbn [visibility_as_str].
  - change (("open" =? "private")%string) with false. cbv iota. rewrite He, run_tx_bind, run_inviter. cbn.
    destruct (role_of (c, ch) actor t) as [r|]; [|done]. cbn in *. rewrite elevated_str. by destruct (is_elevated r).
  - change (("private" =? "private")%string) with true. cbv iota. destruct (Hp eq_refl) as [[r Hr] Hne].
    cbn [ok_or]. rewrite run_tx_bind. cbn [run_tx mret tx_ret]. rewrite (bool_decide_eq_false_2 (actor = target)) by done.
    cbn [andb]. unfold get_active_role_tx. rewrite run_query, active_role_of, Hr. cbn [fmap option_fmap option_map ok_or].
    rewrite run_tx_bind. cbn [run_tx mret tx_ret]. unfold parse_role_tx. rewrite role_from_as. rewrite Hr in Hn. cbn in *.
    by rewrite He, Hn.
Qed.

(** The guard passes when the role does not change, or an elevated actor changes
    it and an owner remains. *)
Lemma run_role_change c ch target role actor t :
  (∀ r, role_of (c, ch) target t = Some r → r ≠ role → elevated_opt (role_of (c, ch) actor t) = true ∧
     (r = Owner → (owner_count c ch t <=? 1)%Z = false)) →
  run_tx (role_change_tx c ch target role (Some actor)) t = (Ok tt, t).
Proof.
  intros H. unfold role_change_tx, get_active_role_tx. rewrite run_query, active_role_of.
  destruct (role_of (c, ch) target t) as [r|]; [|done]. cbn [fmap option_fmap option_map].
  destruct (role_as_str r =? role_as_str role)%string eqn:E; [done|].
  assert (Hne : r ≠ role) by (intros ->; by rewrite String.eqb_refl in E). destruct (H r eq_refl Hne) as [Ha Ho].
  rewrite run_tx_bind, run_inviter. cbn [mbind option_bind]. cbv beta iota zeta.
  destruct (role_of (c, ch) actor t) as [ra|]; [|done]. cbn in Ha. cbn [fmap option_fmap option_map]. rewrite role_from_as, Ha. cbn [negb]. destruct r; try done.
  rewrite bool_decide_eq_false_2 by congruence. change (run_tx (if (owner_count c ch t <=? 1)%Z then
    fail (AccessDenied "cannot demote the last owner — transfer ownership first") else mret tt) t = (Ok tt, t)). by rewrite (Ho eq_refl).
Qed.

Lemma run_add_member now c ch target role actor t row :
  live_channel c ch t = Some row →
  run_tx (effective_role_tx row c ch target role (Some actor)) t = (Ok role, t) →
  run_tx (role_change_tx c ch target role (Some actor)) t = (Ok tt, t) →
  ∃ r, m_role r = role ∧
  run_tx (add_member_tx now c ch target role (Some actor)) t =
    (Ok (row_to_member_record ch target r), upsert_member now c ch target role (Some actor) t).
Proof.
  intros Hl He Hc. unfold add_member_tx. rewrite run_query, Hl. cbn [ok_or]. rewrite run_tx_bind. cbn [run_tx mret tx_ret].
  rewrite run_tx_bind, He. rewrite run_tx_bind, Hc. cbn -[upsert_member]. unfold upsert_member at 1 3. cbn [channel_members set_members].
  rewrite lookup_insert_eq. cbn -[upsert_member]. eexists. split; [|reflexivity]. by destruct (channel_members t !! _).
Qed.

Lemma admin_channel_live c ch t row : admin_channel c ch t = Ok row → live_channel c ch t = Some row.
Proof. unfold admin_channel. destruct (live_channel c ch t) as [r|]; [|done]. destruct (archived_at r); congruence. Qed.

Lemma put_user_role_read c ch target requested t row :
  live_channel c ch t = Some row →
  put_user_role c ch target requested t = default (default Member (role_of (c, ch) target t)) requested.
Proof.
  intros Hl. destruct requested as [r|]; [done|]. cbn [put_user_role]. rewrite (member_of_get_members c ch t row target Hl).
  unfold role_of. cbn [fst snd]. destruct (active_row c ch target t); [|done]. cbn. by rewrite role_from_as.
Qed.

(** What the decision of kind 9000 has checked. *)
Lemma decide_put_user_allows c ch t row actor target requested d :
  live_channel c ch t = Some row →
  decide_put_user (visibility_as_str (visibility row)) (role_of (c, ch) actor t) requested (get_members c ch t) target actor = Ok d →
  (visibility row = Private → is_Some (role_of (c, ch) actor t) ∧
     elevated_opt requested && negb (elevated_opt (role_of (c, ch) actor t)) = false) ∧
  (∀ r role, requested = Some role → role_of (c, ch) target t = Some r → r ≠ role →
     elevated_opt (role_of (c, ch) actor t) = true ∧ (r = Owner → (owner_count c ch t <=? 1)%Z = false)).
Proof.
  intros Hl H. unfold decide_put_user in H. split.
  - intros Hv. rewrite Hv in H. change ((visibility_as_str Private =? "private")%string) with true in H. cbv iota in H.
    destruct (role_of (c, ch) actor t) as [ra|]; [|done]. split; [by eexists|]. by destruct (elevated_opt requested && _).
  - intros r role -> Hr Hne. match goal with H : (?x ≫= _) = _ |- _ => destruct x; [|done] end. cbn in H.
    rewrite (member_of_get_members c ch t row target Hl) in H. pose proof Hr as Hrole. unfold role_of in Hr. cbn [fst snd] in Hr.
    destruct (active_row c ch target t) as [x|]; simplify_eq/=. destruct (role_as_str (m_role x) =? role_as_str role)%string eqn:E.
    { apply String.eqb_eq, role_str_inj in E. done. }
    destruct (elevated_opt (role_of (c, ch) actor t)); [|done]. split; [done|]. intros Ho. cbn [negb] in H.
    rewrite <- (sole_owner_read c ch t row target Hl); [|by rewrite Hrole, Ho].
    assert (Hown : is_owner_record (row_to_member_record ch target x) = true) by (unfold is_owner_record; cbn; by rewrite Ho).
    rewrite Hown, (bool_decide_eq_false_2 (role = Owner)) in H by congruence. cbn in H. by destruct (is_sole_owner _ _).
Qed.

Lemma validate_put_user_checks c ch actor target tag requested t :
  requested_role tag = Ok requested → validate_put_user c ch actor target tag t = Ok tt →
  ∃ row d, live_channel c ch t = Some row ∧
    decide_put_user (visibility_as_str (visibility row)) (role_of (c, ch) actor t) requested (get_members c ch t) target actor = Ok d.
Proof.
  intros Hreq H. unfold validate_put_user in H. destruct (admin_channel c ch t) as [row|] eqn:Ea; [|done].
  apply admin_channel_live in Ea. rewrite Hreq in H. cbn -[get_members] in H.
  pose proof (actor_role_read c ch t row actor Ea) as Er. cbn -[get_members] in Er. rewrite Er in H. exists row.
  destruct (decide_put_user _ _ _ _ _ _) as [d|] eqn:Ed; [|done]. by exists d.
Qed.

(** When nothing changes between the validation of a kind 9000 event and its effect, a
    validated event adds the target with the requested role (or the role it holds, or member),
    except when that role is owner or admin and the actor is neither: then the event has been
    accepted, but its effect is refused and the tables stay as they are. *)
Theorem validated_put_user_effect now c ch actor target tag requested t :
  length target = 32%nat → requested_role tag = Ok requested → validate_put_user c ch actor target tag t = Ok tt →
  let role := put_user_role c ch target requested t in
  if is_elevated role && negb (elevated_opt (role_of (c, ch) actor t))
  then handle_put_user now c ch actor target tag t = (Err (Db grant_refused), t)
  else ∃ record, handle_put_user now c ch actor target tag t = (Ok record, upsert_member now c ch target role (Some actor) t) ∧
         r_role record = role_as_str role.
Proof.
  intros Hlen Hreq Hv role. destruct (validate_put_user_checks _ _ _ _ _ _ _ Hreq Hv) as (row & d & Hl & Hd).
  destruct (decide_put_user_allows _ _ _ _ _ _ _ _ Hl Hd) as [Hpriv Hchange].
  assert (Hrole : role = default (default Member (role_of (c, ch) target t)) requested) by by eapply put_user_role_read.
  unfold handle_put_user, apply_add, add_member, pubkey_check. rewrite Hreq, Hlen. cbn [Nat.eqb mbind result_bind]. fold role.
  destruct (is_elevated role && negb (elevated_opt (role_of (c, ch) actor t))) eqn:Ee.
  - unfold transact, add_member_tx. rewrite run_query, Hl. cbn [ok_or]. rewrite run_tx_bind. cbn [run_tx mret tx_ret].
    rewrite run_tx_bind, run_effective_role_refused; [done| |done]. intros Hp. destruct (Hpriv Hp) as [Ha Hb]. split; [done|].
    intros ->. rewrite Hrole in Ee. destruct requested as [r|]; cbn in Ee, Hb; [congruence|].
    destruct (role_of (c, ch) target t) as [r|]; [|done]. cbn in Ee. by destruct (is_elevated r).
  - destruct (run_add_member now c ch target role actor t row Hl) as (r & Hr & Hrun).
    + apply run_effective_role; [by intros Hp; apply Hpriv|done].
    + apply run_role_change. intros r Hr Hne. rewrite Hrole in Hne. destruct requested as [role'|]; cbn in Hne; [by apply (Hchange r role')|].
      by rewrite Hr in Hne.
    + unfold transact. rewrite Hrun. cbn [map_err]. exists (row_to_member_record ch target r). split; [done|]. cbn. by rewrite Hr.
Qed.

(** A removal that passed validation ends the target's membership, except for the
    last owner, who is refused. *)
Theorem validated_remove_user_effect now c ch actor target t :
  validate_remove_user c ch actor target t = Ok tt →
  handle_remove_user now c ch actor target t =
    match role_of (c, ch) target t with
    | None => (Err (Db (MemberNotFound ch)), t)
    | Some Owner =>
        if (owner_count c ch t <=? 1)%Z
        then (Err (Db (AccessDenied "cannot remove the last owner — transfer ownership first")), t)
        else (Ok tt, soft_remove now c ch target actor t)
    | Some _ => (Ok tt, soft_remove now c ch target actor t)
    end.
Proof.
  intros Hv. unfold validate_remove_user in Hv. destruct (admin_channel c ch t) as [row|] eqn:Ea; [|done].
  apply admin_channel_live in Ea. cbn -[get_members is_agent_owner] in Hv.
  (* the checks of the applier on the actor *)
  assert (Happly : apply_remove now c ch target actor t =
    let '(r, t') := transact (target_role ← get_active_role_tx c ch target;
      _ ← (if bool_decide (target_role = Some "owner") then owners ← query (owner_count c ch);
             if (owners <=? 1)%Z then fail (AccessDenied "cannot remove the last owner — transfer ownership first") else mret tt
           else mret tt);
      remove_row_tx now c ch target actor) t in (map_err Db r, t')).
  { unfold apply_remove, transact, remove_member_tx. rewrite run_tx_bind. case_bool_decide as Ep; [done|].
    unfold agent_owner_lookup. rewrite (bool_decide_eq_false_2 (target = actor)) in * by done.
    unfold classify_remove_other in Hv. rewrite (member_of_get_members c ch t row actor Ea) in Hv.
    destruct (active_row c ch actor t) as [x|] eqn:Ex; [|done]. cbn -[is_agent_owner] in Hv. rewrite elevated_str in Hv.
    rewrite (run_actor_check c ch actor _ t (m_role x)); [done|unfold role_of; cbn; by rewrite Ex|].
    destruct (is_elevated (m_role x)); [done|]. by destruct (is_agent_owner c target actor t). }
  assert (Hhandle : handle_remove_user now c ch actor target t = apply_remove now c ch target actor t).
  { unfold handle_remove_user. case_bool_decide as Ep; [|done]. subst actor. cbn [andb]. unfold decide_self_departure in Hv.
    destruct (negb (existsb _ _)); [done|]. by destruct (is_sole_owner (get_members c ch t) target). }
  rewrite Hhandle, Happly. unfold transact, get_active_role_tx. rewrite run_query, active_role_of. unfold role_of. cbn [fst snd].
  assert (Htail : run_tx (remove_row_tx now c ch target actor) t =
    (if bool_decide (is_Some (active_row c ch target t)) then Ok tt else Err (MemberNotFound ch), soft_remove now c ch target actor t)).
  { unfold remove_row_tx. cbn -[soft_remove bool_decide]. by repeat case_bool_decide. }
  destruct (active_row c ch target t) as [x|] eqn:Ex; cbn [fmap option_fmap option_map]; rewrite run_tx_bind.
  2: { rewrite bool_decide_eq_false_2 by done. cbn -[soft_remove remove_row_tx]. by rewrite Htail. }
  rewrite bool_decide_eq_true_2 in Htail by by eexists.
  destruct (m_role x); [|rewrite bool_decide_eq_false_2 by done; cbn -[soft_remove remove_row_tx]; by rewrite Htail..].
  rewrite bool_decide_eq_true_2 by done. cbn -[owner_count Z.leb soft_remove remove_row_tx].
  destruct (owner_count c ch t <=? 1)%Z; cbn -[soft_remove remove_row_tx]; [done|]. by rewrite Htail.
Qed.

End effects.

(** ** A call without contention

    Runs step by step to the effect of [transact]. *)

Section uncontended.
Context {HO : HashOrder}.

Definition with_call (s : MemberSystem) (t : Tables) (x : MemberCall) : MemberSystem :=
  {| db := t; member_calls := member_calls s ++ [x]; kicks := kicks s; ever_open := ever_open s |}.

Lemma last_step s t op phase phase' t' :
  member_call_step t (length (kicks s)) op phase phase' t' → 
  (holds_lock phase = false → holds_lock phase' = true → channel_unlocked (op_channel op) (member_calls s)) →
  member_step (with_call s t {| mc_op := op; mc_phase := phase |}) (with_call s t' {| mc_op := op; mc_phase := phase' |}).
Proof.
  intros Hs Hl. pose proof (ms_step (with_call s t {| mc_op := op; mc_phase := phase |}) (length (member_calls s))
    {| mc_op := op; mc_phase := phase |} phase' t') as H. cbn in H. rewrite insert_app_r_alt, Nat.sub_diag in H by lia. apply H.
  - rewrite lookup_app_r, Nat.sub_diag by lia. done.
  - done.
  - intros H1 H2 y Hy Hk. apply elem_of_app in Hy as [Hy|Hy]; [by apply (Hl H1 H2)|]. apply list_elem_of_singleton in Hy as ->. done.
Qed.

Lemma run_statements s op n (x : Tx unit) changes t :
  ∃ changes', rtc member_step (with_call s t {| mc_op := op; mc_phase := InTx n changes x |})
      (with_call s t {| mc_op := op; mc_phase := InTx n changes' (Done (run_tx x (changes t)).1) |}) ∧
    changes' t = (run_tx x (changes t)).2.
Proof.
  revert changes. induction x as [r|B run k IH]; intros changes; [by exists changes|].
  destruct (IH (run (changes t)).1 (λ t, (run (changes t)).2)) as (changes' & Hr & He). exists changes'. split; [|exact He].
  eapply rtc_l; [|exact Hr]. apply last_step; [constructor|done].
Qed.

(** The state before the commit or the rollback, and after it. *)
Lemma uncontended_call s now op flag :
  is_Some (channels (db s) !! op_channel op) → channel_unlocked (op_channel op) (member_calls s) →
  start_call op (db s) = WaitingLock flag →
  let '(r, t') := run_tx (call_tx now op flag) (db s) in
  ∃ changes, rtc member_step s (with_call s (db s) {| mc_op := op; mc_phase := InTx (length (kicks s)) changes (Done r) |}) ∧
    changes (db s) = t' ∧
    rtc member_step s (with_call s (match r with Ok _ => t' | Err _ => db s end) {| mc_op := op; mc_phase := Ended r |}).
Proof.
  intros Hc Hl Hf. destruct (run_tx (call_tx now op flag) (db s)) as [r t'] eqn:E.
  destruct (run_statements s op (length (kicks s)) (call_tx now op flag) (λ t, t) (db s)) as (changes & Hr & He).
  cbn in He. rewrite E in Hr, He. cbn [fst snd] in Hr, He.
  assert (H0 : rtc member_step s (with_call s (db s) {| mc_op := op; mc_phase := InTx (length (kicks s)) changes (Done r) |})).
  { eapply rtc_l; [apply (ms_call s op Hc)|]. rewrite Hf. eapply rtc_l, Hr. apply last_step; [constructor|done]. }
  exists changes. split_and!; [done|done|]. eapply rtc_r; [exact H0|]. destruct r as [[]|e]; [rewrite <- He; apply last_step; [apply mcs_commit|done]|apply last_step; [apply mcs_rollback|done]].
Qed.

End uncontended.

(** ** Examples *)

Definition demo_key (x : Z) : Pubkey := repeat x 32.
Abbreviation alice := (demo_key 1).
Abbreviation bob := (demo_key 2).
Abbreviation carol := (demo_key 3).
#[local] Existing Instance canonical_order.

(** A private channel of alice with two owners. *)
Definition demo_create (vis : ChannelVisibility) : MemberSystem :=
  {| db := (create_channel_with_id 100 1 7 [97%Z] vis alice None (db member_initial)).2; member_calls := [];
     kicks := []; ever_open := note_open (1, 7)%N vis ∅ |}.

Definition demo_add_bob : MemberOp := AddMember 1 7 bob Owner (Some alice).
Definition demo_two : MemberSystem :=
  with_call (demo_create Private) (run_tx (call_tx 101 demo_add_bob false) (db (demo_create Private))).2
    {| mc_op := demo_add_bob; mc_phase := Ended (Ok tt) |}.

Lemma demo_create_reachable vis : member_reachable (demo_create vis).
Proof. apply rtc_once. exact (ms_create member_initial 100 1 7 [97%Z] vis alice None). Qed.

Lemma demo_unlocked s k : Forall (λ x, holds_lock (mc_phase x) = false) (member_calls s) → channel_unlocked k (member_calls s).
Proof. intros H x Hx _. rewrite Forall_forall in H. by apply H. Qed.

Lemma demo_two_steps : rtc member_step (demo_create Private) demo_two.
Proof.
  pose proof (uncontended_call (demo_create Private) 101 demo_add_bob false ltac:(by eexists) ltac:(by apply demo_unlocked) eq_refl) as H.
  unfold demo_two. set (x := run_tx _ _) in *. assert (E : x.1 = Ok tt) by by vm_compute. destruct x as [r t']. cbn in E. subst r.
  destruct H as (changes & _ & _ & H). exact H.
Qed.

Lemma channels_keep_an_owner_witness :
  member_reachable (demo_create Private) ∧ has_owner (1, 7)%N (demo_create Private) ∧
  role_of (1, 7)%N bob (db demo_two) = Some Owner ∧ has_owner (1, 7)%N demo_two.
Proof.
  split; [apply demo_create_reachable|]. assert (H : has_owner (1, 7)%N (demo_create Private)) by (exists alice; by vm_compute).
  split; [exact H|]. split; [by vm_compute|].
  apply (channels_keep_an_owner (demo_create Private) demo_two (1, 7)%N); [apply demo_create_reachable|apply demo_two_steps|exact H|].
  intros pk Hp. by apply elem_of_nil in Hp.
Defined.

Lemma membership_changes_authorised_witness :
  ∃ s s', member_reachable s ∧ member_step s s' ∧ role_of (1, 7)%N bob (db s) = None ∧ role_of (1, 7)%N bob (db s') = Some Owner ∧
    ∃ n inv, granted n (1, 7)%N bob Owner inv s ∧ changeable n (1, 7)%N bob Owner inv s.
Proof.
  pose proof (uncontended_call (demo_create Private) 101 demo_add_bob false ltac:(by eexists) ltac:(by apply demo_unlocked) eq_refl) as H.
  set (x := run_tx _ _) in *. assert (E : x.1 = Ok tt) by by vm_compute.
  assert (Er : role_of (1, 7)%N bob x.2 = Some Owner) by by vm_compute. destruct x as [r t']. cbn in E. cbn [snd] in Er. subst r.
  destruct H as (changes & Hr & He & _). subst t'.
  assert (Hreach := transitivity (demo_create_reachable Private) Hr : rtc member_step member_initial _).
  assert (Hstep := last_step (demo_create Private) (db (demo_create Private)) demo_add_bob _ _ _
    (mcs_commit (db (demo_create Private)) 0 demo_add_bob 0 changes) (λ _ H, match Bool.diff_false_true H with end)).
  eexists _, _. split; [exact Hreach|]. split; [exact Hstep|]. split; [by vm_compute|]. split; [exact Er|].
  pose proof (membership_changes_authorised _ _ (1, 7)%N bob Hreach Hstep) as T. unfold with_call in T. cbn [db] in T. rewrite Er in T.
  destruct T as [T|(n & inv & ch & _ & Hg & Hc)]; [by vm_compute|by vm_compute in T|]. by exists n, inv.
Defined.

(** Carol, an ordinary member of an open channel, asks for a new admin: the event
    is valid, its effect is refused. *)
Definition demo_open : Tables :=
  (apply_add 101 1 7 carol Member None (db (demo_create Open))).2.

Lemma validated_put_user_effect_witness :
  validate_put_user 1 7 carol bob (Some "admin") demo_open = Ok tt ∧
  handle_put_user 102 1 7 carol bob (Some "admin") demo_open = (Err (Db grant_refused), demo_open) ∧
  ∃ record, handle_put_user 102 1 7 carol bob None demo_open =
      (Ok record, upsert_member 102 1 7 bob Member (Some carol) demo_open) ∧ r_role record = "member".
Proof.
  split; [by vm_compute|]. split.
  - assert (Hv : validate_put_user 1 7 carol bob (Some "admin") demo_open = Ok tt) by by vm_compute.
    pose proof (validated_put_user_effect 102 1 7 carol bob (Some "admin") (Some Admin) demo_open eq_refl eq_refl Hv) as T.
    cbv zeta in T. assert (E : is_elevated (put_user_role 1 7 bob (Some Admin) demo_open) &&
      negb (elevated_opt (role_of (1, 7)%N carol demo_open)) = true) by by vm_compute. rewrite E in T. exact T.
  - assert (Hv : validate_put_user 1 7 carol bob None demo_open = Ok tt) by by vm_compute.
    pose proof (validated_put_user_effect 102 1 7 carol bob None None demo_open eq_refl eq_refl Hv) as T.
    cbv zeta in T. assert (E : put_user_role 1 7 bob None demo_open = Member) by by vm_compute. rewrite E in T. exact T.
Defined.

Lemma validated_remove_user_effect_witness :
  validate_remove_user 1 7 alice carol demo_open = Ok tt ∧
  handle_remove_user 103 1 7 alice carol demo_open = (Ok tt, soft_remove 103 1 7 carol alice demo_open) ∧
  validate_remove_user 1 7 alice bob demo_open = Ok tt ∧
  handle_remove_user 103 1 7 alice bob demo_open = (Err (Db (MemberNotFound 7)), demo_open).
Proof.
  split; [by vm_compute|]. split.
  { assert (Hv : validate_remove_user 1 7 alice carol demo_open = Ok tt) by by vm_compute.
    pose proof (validated_remove_user_effect 103 1 7 alice carol demo_open Hv) as T.
    assert (E : role_of (1, 7)%N carol demo_open = Some Member) by by vm_compute. rewrite E in T. exact T. }
  split; [by vm_compute|].
  assert (Hv : validate_remove_user 1 7 alice bob demo_open = Ok tt) by by vm_compute.
  pose proof (validated_remove_user_effect 103 1 7 alice bob demo_open Hv) as T.
  assert (E : role_of (1, 7)%N bob demo_open = None) by by vm_compute. rewrite E in T. exact T.
Defined.

(** A creator that another owner removed comes back as owner: [add_member] takes
    any invitation of the creator by itself for the first one. *)
Example creator_returns :
  let removed := (apply_remove 103 1 7 alice bob (db demo_two)).2 in
  let back := apply_add 104 1 7 alice Owner (Some alice) removed in
  role_of (1, 7)%N alice removed = None ∧ err back.1 = None ∧ role_of (1, 7)%N alice back.2 = Some Owner.
Proof. by vm_compute. Qed.

(** An open channel does not force the role of a self-join: bob joins as bot. *)
Example open_join_keeps_role :
  role_of (1, 7)%N bob (apply_add 102 1 7 bob Bot None demo_open).2 = Some Bot.
Proof. by vm_compute. Qed.

(** Adding an owner again with the role it holds is refused to a member. *)
Example readding_owner_refused :
  validate_put_user 1 7 carol alice None demo_open = Ok tt ∧
  handle_put_user 102 1 7 carol alice None demo_open = (Err (Db grant_refused), demo_open).
Proof. by vm_compute. Qed.
