(* ===== verification/Program.v ===== *)
(** * Programs over a signature of requests

    A handler that waits for the database, a clock or another component is a
    program: a value, or a request with a continuation for every answer.  The
    signature says which requests there are and what they answer.  An
    environment gives the answers; since it may depend on everything that was
    asked before, a statement for all environments holds whatever the other
    handlers do in between.

    [wp] is the rule by which programs are verified: it runs along the program
    and asks of each request that it may be sent after what came before. *)
From S2P Require Import Prelude.

Record Signature := { request : Type; answer : request → Type }.

Section program.
Context {S : Signature}.

Inductive Program (A : Type) : Type :=
  | Return (a : A)
  | Ask (r : request S) (k : answer S r → Program A).
Arguments Return {A} _.
Arguments Ask {A} _ _.

Fixpoint program_bind {A B} (f : A → Program B) (p : Program A) : Program B :=
  match p with
  | Return a => f a
  | Ask r k => Ask r (λ x, program_bind f (k x))
  end.
#[export] Instance program_ret : MRet Program := @Return.
#[export] Instance program_mbind : MBind Program := @program_bind.

Definition call (r : request S) : Program (answer S r) := Ask r Return.

(** ** Runs *)

(** A request with its answer; histories are newest first. *)
Record Exchange := Answered { asked : request S; reply_to : answer S asked }.
Definition Trace := list Exchange.
Definition Answers := Trace → ∀ r : request S, answer S r.

Fixpoint run_program {A} (env : Answers) (p : Program A) (h : Trace) : A * Trace :=
  match p with
  | Return a => (a, h)
  | Ask r k => let x := env h r in run_program env (k x) (Answered r x :: h)
  end.

(** ** Verification *)

(** Every request of the trace was in order when it was sent. *)
Fixpoint in_order (ok : request S → Trace → Prop) (h : Trace) : Prop :=
  match h with
  | [] => True
  | x :: h => ok (asked x) h ∧ in_order ok h
  end.

Fixpoint wp {A} (ok : request S → Trace → Prop) (p : Program A) (Q : A → Trace → Prop) (h : Trace) : Prop :=
  match p with
  | Return a => Q a h
  | Ask r k => ok r h ∧ ∀ x, wp ok (k x) Q (Answered r x :: h)
  end.

Lemma wp_sound {A} ok (p : Program A) Q env h :
  in_order ok h → wp ok p Q h → let '(a, h') := run_program env p h in Q a h' ∧ in_order ok h'.
Proof.
  revert h. induction p as [a|r k IH]; intros h Ho Hw; cbn in *; [done|].
  destruct Hw as [Hr Hw]. apply IH; cbn; auto.
Qed.

Lemma wp_mono {A} ok (p : Program A) (Q Q' : A → Trace → Prop) h :
  (∀ a h', Q a h' → Q' a h') → wp ok p Q h → wp ok p Q' h.
Proof.
  intros HQ. revert h. induction p as [a|r k IH]; intros h; cbn; [apply HQ|].
  intros [Hr Hw]. split; [done|]. intros x. by apply IH.
Qed.

Lemma wp_bind {A B} ok (p : Program A) (f : A → Program B) Q h :
  wp ok p (λ a, wp ok (f a) Q) h → wp ok (p ≫= f) Q h.
Proof.
  revert h. induction p as [a|r k IH]; intros h; cbn; [done|].
  intros [Hr Hw]. split; [done|]. intros x. by apply IH.
Qed.

Lemma wp_return {A} ok (a : A) (Q : A → Trace → Prop) h : Q a h → wp ok (mret a) Q h.
Proof. done. Qed.

Lemma wp_call ok r (Q : answer S r → Trace → Prop) h :
  ok r h → (∀ x, Q x (Answered r x :: h)) → wp ok (call r) Q h.
Proof. done. Qed.

(** A program whose requests are always in order. *)
Fixpoint all_requests {A} (P : request S → Prop) (p : Program A) : Prop :=
  match p with
  | Return _ => True
  | Ask r k => P r ∧ ∀ x, all_requests P (k x)
  end.

(** What was true of the trace stays true while a program runs. *)
Lemma wp_frame {A} ok (p : Program A) (Q : A → Trace → Prop) (I : Trace → Prop) h :
  (∀ x h', I h' → I (x :: h')) → I h → wp ok p Q h → wp ok p (λ a h', Q a h' ∧ I h') h.
Proof.
  intros HI. revert h. induction p as [a|r k IH]; intros h Hh; cbn; [done|].
  intros [Hr Hw]. split; [done|]. intros x. apply IH; auto.
Qed.

Lemma wp_all_requests {A} ok (P : request S → Prop) (p : Program A) h :
  (∀ r h', P r → ok r h') → all_requests P p → wp ok p (λ _ _, True) h.
Proof.
  intros HP. revert h. induction p as [a|r k IH]; intros h; cbn; [done|].
  intros [Hr Hk]. split; [auto|]. intros x. by apply IH.
Qed.

Lemma all_requests_bind {A B} P (p : Program A) (f : A → Program B) :
  all_requests P p → (∀ a, all_requests P (f a)) → all_requests P (p ≫= f).
Proof.
  intros Hp Hf. induction p as [a|r k IH]; cbn in *; [auto|].
  destruct Hp as [Hr Hp]. split; [done|]. intros x. by apply IH.
Qed.

(** ** Runs in one environment *)

(** [Q] holds of where the run of a program leads. *)
Definition along (env : Answers) {A} (p : Program A) (Q : A → Trace → Prop) (h : Trace) : Prop :=
  let '(a, h') := run_program env p h in Q a h'.

Lemma along_return env {A} (a : A) (Q : A → Trace → Prop) h : Q a h → along env (mret a) Q h.
Proof. done. Qed.

Lemma along_call env {B} r (k : answer S r → Program B) Q h :
  along env (k (env h r)) Q (Answered r (env h r) :: h) → along env (call r ≫= k) Q h.
Proof. done. Qed.

Lemma run_bind env {A B} (p : Program A) (f : A → Program B) h :
  run_program env (p ≫= f) h = let '(a, h') := run_program env p h in run_program env (f a) h'.
Proof. revert h. induction p as [a|r k IH]; intros h; [done|]. cbn. apply IH. Qed.

Lemma along_bind env {A B} (p : Program A) (f : A → Program B) Q h :
  along env p (λ a, along env (f a) Q) h → along env (p ≫= f) Q h.
Proof. unfold along. rewrite run_bind. by destruct (run_program env p h). Qed.

Lemma along_mono env {A} (p : Program A) (Q Q' : A → Trace → Prop) h :
  (∀ a h', Q a h' → Q' a h') → along env p Q h → along env p Q' h.
Proof. unfold along. destruct (run_program env p h). auto. Qed.

Lemma along_and env {A} (p : Program A) (Q Q' : A → Trace → Prop) h :
  along env p Q h → along env p Q' h → along env p (λ a h', Q a h' ∧ Q' a h') h.
Proof. unfold along. by destruct (run_program env p h). Qed.

Lemma along_wp ok env {A} (p : Program A) Q h : in_order ok h → wp ok p Q h → along env p Q h.
Proof. intros Ho Hw. apply (wp_sound ok p Q env) in Hw; [|done]. unfold along. destruct (run_program env p h). apply Hw. Qed.

(** What grows with the trace holds where it held. *)
Lemma along_grows env {A} (p : Program A) (I : Trace → Prop) h :
  (∀ x h', I h' → I (x :: h')) → I h → along env p (λ _, I) h.
Proof. intros HI. revert h. induction p as [a|r k IH]; intros h Hh; [done|]. apply IH. auto. Qed.

End program.

Arguments Program : clear implicits.
Arguments Trace : clear implicits.
Arguments Exchange : clear implicits.
Arguments Answers : clear implicits.

(** ** Early returns *)

Section early.
Context {S : Signature} {E : Type}.

(** [?] on a [Result]. *)
Definition try_result {A B} (m : result E A) (k : A → Program S (result E B)) : Program S (result E B) :=
  match m with Ok a => k a | Err e => mret (Err e) end.

(** [ok_or(e)?]. *)
Definition try_option {A B} (m : option A) (e : E) (k : A → Program S (result E B)) : Program S (result E B) :=
  match m with Some a => k a | None => mret (Err e) end.

(** [if !b { return Err(e) }]. *)
Definition ensure {B} (b : bool) (e : E) (k : Program S (result E B)) : Program S (result E B) :=
  if b then k else mret (Err e).

(** The rest after a part that may fail; [conv] is its [map_err]. *)
Definition then_ {F A B} (conv : F → E) (p : Program S (result F A)) (k : A → Program S (result E B)) : Program S (result E B) :=
  p ≫= λ m, match m with Ok a => k a | Err e => mret (Err (conv e)) end.

Lemma wp_then {F A B} ok (conv : F → E) (p : Program S (result F A)) (k : A → Program S (result E B)) Q h :
  wp ok p (λ m h', match m with Ok a => wp ok (k a) Q h' | Err e => Q (Err (conv e)) h' end) h →
  wp ok (then_ conv p k) Q h.
Proof. intros Hp. apply wp_bind. eapply wp_mono; [|exact Hp]. intros [e|a] h' H; exact H. Qed.

End early.
