(* ===== verification/WorkflowTemplate.v ===== *)
(** * Workflow templates ([crates/maju-workflow/src/executor.rs], [error.rs])

    The trigger context of a run, JSON values as far as the executor looks at
    them, the substitution of [{{...}}] placeholders, and durations.

    Not part of the sources, and parameters here: the numbers and the printing
    of [serde_json] ([JsonNum], [JsonPrint]) and the key types of the [nostr]
    crate ([NpubLib]). *)
From S2P Require Import Prelude Channel.

(** ** JSON *)

Class JsonNum : Type := {
  JNumber : Type;
  JFloat : Type;
  number_text : JNumber → string;
  number_from : Z → JNumber;
  as_i64 : JNumber → option Z;
  as_f64 : JNumber → option JFloat
}.

(** An object is the list of its members in iteration order. *)
#[warnings="-register-all"]
Inductive JsonValue {N : JsonNum} : Type :=
  | JNull
  | JBool (b : bool)
  | JNum (n : JNumber)
  | JString (s : string)
  | JArray (l : list JsonValue)
  | JObject (m : list (string * JsonValue)).

(** [Display] of a value. *)
Class JsonPrint {N : JsonNum} : Type := { value_text : JsonValue → string }.
#[global] Arguments JsonPrint N : clear implicits.

(** [PublicKey::from_hex] and [to_bech32]. *)
Class NpubLib : Type := {
  PublicKey : Type;
  pubkey_from_hex : string → option PublicKey;
  to_bech32 : PublicKey → option string
}.

(** [Map::get]. *)
Definition map_get {A} (m : list (string * A)) (k : string) : option A :=
  snd <$> List.find (λ kv, (kv.1 =? k)%string) m.

(** ** Errors ([error.rs]) *)

Inductive WorkflowError :=
  | InvalidYaml
  | InvalidDefinition (msg : string)
  | ConditionError (msg : string)
  | TemplateError (msg : string)
  | StepTimeout (step_id : string) (timeout_secs : Z)
  | WebhookError (msg : string)
  | CapacityExceeded
  | Database
  | Unauthorized
  | NotImplemented (what : string).
#[export] Instance WorkflowError_eq_dec : EqDecision WorkflowError.
Proof. solve_decision. Defined.

Definition code (e : WorkflowError) : string :=
  match e with
  | InvalidYaml => "invalid_yaml"
  | InvalidDefinition _ => "invalid_definition"
  | ConditionError _ => "condition_evaluation_failed"
  | TemplateError _ => "template_resolution_failed"
  | StepTimeout _ _ => "step_timeout"
  | WebhookError _ => "webhook_failed"
  | CapacityExceeded => "capacity_exceeded"
  | Database => "database_error"
  | Unauthorized => "owner_unauthorized"
  | NotImplemented _ => "action_not_implemented"
  end.

(** ** Text *)

(** [str::trim]; a Rust string always decodes. *)
Definition trim (s : string) : string :=
  match utf8_decode s with
  | Some cs => utf8_encode (trim_end (trim_start_matches is_whitespace cs))
  | None => s
  end.

(** [chars().take(n).collect()]. *)
Definition take_chars (n : N) (s : string) : string :=
  match utf8_decode s with
  | Some cs => if (N.of_nat (length cs) <=? n)%N then s else utf8_encode (take (N.to_nat n) cs)
  | None => s
  end.

(** The text before the first occurrence of [p] and the text after it. *)
Fixpoint split_first (p s : string) : option (string * string) :=
  match strip_prefix p s with
  | Some rest => Some (EmptyString, rest)
  | None =>
      match s with
      | EmptyString => None
      | String a s' => '(x, y) ← split_first p s'; Some (String a x, y)
      end
  end.

(** [splitn(2, c)]: the text before the first [c], and after it. *)
Definition splitn2 (c : string) (s : string) : string * option string :=
  match split_first c s with Some (x, y) => (x, Some y) | None => (s, None) end.

Definition parse_u64 (s : string) : option Z := Z.of_N <$> parse_unsigned 64 s.

Section template.
Context {JN : JsonNum} {JP : JsonPrint JN} {NL : NpubLib}.

(** ** The trigger context *)

Record TriggerContext := {
  text : string;
  author : string;
  channel_id : string;
  timestamp : string;
  emoji : string;
  message_id : string;
  is_reply : bool;
  webhook_fields : gmap string string
}.

(** [TriggerContext::default]. *)
Definition default_context : TriggerContext :=
  {| text := ""; author := ""; channel_id := ""; timestamp := ""; emoji := ""; message_id := ""; is_reply := false;
     webhook_fields := ∅ |}.

Definition get_field (ctx : TriggerContext) (name : string) : option string :=
  if (name =? "text")%string then Some (text ctx)
  else if (name =? "author")%string then Some (author ctx)
  else if (name =? "channel_id")%string then Some (channel_id ctx)
  else if (name =? "timestamp")%string then Some (timestamp ctx)
  else if (name =? "emoji")%string then Some (emoji ctx)
  else if (name =? "message_id")%string then Some (message_id ctx)
  else webhook_fields ctx !! name.

Definition StepOutputs := gmap string JsonValue.

(** ** Variables *)

Definition json_to_string (v : JsonValue) : string :=
  match v with
  | JString s => s
  | JBool b => if b then "true" else "false"
  | JNum n => number_text n
  | JNull => ""
  | other => value_text other
  end.

Definition json_get_str (v : JsonValue) (key : string) : option string :=
  match v with
  | JObject m => json_to_string <$> map_get m key
  | _ => None
  end.

Definition resolve_variable (path : string) (ctx : TriggerContext) (outputs : StepOutputs) : option string :=
  match strip_prefix "trigger." path with
  | Some field => get_field ctx field
  | None =>
      rest ← strip_prefix "steps." path;
      let '(step_id, rest) := splitn2 "." rest in
      rest ← rest;
      let '(middle, field) := splitn2 "." rest in
      field ← field;
      if negb (middle =? "output")%string then None
      else output ← outputs !! step_id; json_get_str output field
  end.

(** ** Filters *)

Definition apply_filter (value filter : string) : result WorkflowError string :=
  let filter := trim filter in
  match (s ← strip_prefix "truncate(" filter; strip_suffix ")" s) with
  | Some inner =>
      match parse_u64 (trim inner) with
      | Some n => Ok (take_chars (Z.to_N n) value)
      | None => Err (TemplateError "truncate() requires a number")
      end
  | None =>
      if ((filter =? "npub") || (filter =? "truncate_pubkey"))%string then
        match pubkey_from_hex value with
        | Some pk => Ok (default value (to_bech32 pk))
        | None => Ok value
        end
      else Err (TemplateError "unknown filter")
  end.

(** ** Substitution *)

(** The text that replaces a placeholder with the (untrimmed) expression [raw]. *)
Definition placeholder_value (ctx : TriggerContext) (outputs : StepOutputs) (raw : string) : result WorkflowError string :=
  let expr := trim raw in
  let '(path, filter) := splitn2 "|" expr in
  match resolve_variable (trim path) ctx outputs, trim <$> filter with
  | Some v, Some f => apply_filter v f
  | Some v, None => Ok v
  | None, _ => Ok ("{{" +:+ expr +:+ "}}")
  end.

(** The loop on [remaining], with [out] written so far; every round consumes at
    least the opening braces. *)
Fixpoint resolve_loop (fuel : nat) (ctx : TriggerContext) (outputs : StepOutputs) (out remaining : string) :
    result WorkflowError string :=
  match fuel with
  | O => Ok (out +:+ remaining)
  | S fuel =>
      match split_first "{{" remaining with
      | None => Ok (out +:+ remaining)
      | Some (before, rest) =>
          let out := out +:+ before in
          match split_first "}}" rest with
          | None => Ok (out +:+ "{{" +:+ rest)
          | Some (raw, rest) =>
              value ← placeholder_value ctx outputs raw;
              resolve_loop fuel ctx outputs (out +:+ value) rest
          end
      end
  end.

Definition resolve_template (template : string) (ctx : TriggerContext) (outputs : StepOutputs) : result WorkflowError string :=
  if negb (str_contains "{{" template) then Ok template
  else resolve_loop (S (String.length template)) ctx outputs "" template.

(** ** Durations *)

Definition checked_mul_u64 (x y : Z) : option Z := if (x * y <? 2 ^ 64)%Z then Some (x * y)%Z else None.

(** A number with a unit. *)
Definition parse_with_unit (n : string) (unit_secs : Z) : result WorkflowError Z :=
  match parse_u64 (trim n) with
  | None => Err (InvalidDefinition "invalid duration")
  | Some v =>
      match checked_mul_u64 v unit_secs with
      | Some secs => Ok secs
      | None => Err (InvalidDefinition "duration overflow")
      end
  end.

Definition parse_duration_secs (duration : string) : result WorkflowError Z :=
  let duration := trim duration in
  match strip_suffix "h" duration with
  | Some n => parse_with_unit n 3600
  | None =>
      match strip_suffix "m" duration with
      | Some n => parse_with_unit n 60
      | None =>
          match strip_suffix "s" duration with
          | Some n => parse_with_unit n 1
          | None =>
              match parse_u64 duration with
              | Some v => Ok v
              | None => Err (InvalidDefinition "invalid duration")
              end
          end
      end
  end.

End template.

(** ** Splitting *)

Lemma str_length_app s t : String.length (s +:+ t) = (String.length s + String.length t)%nat.
Proof. induction s as [|a s IH]; [done|]. simpl. by rewrite IH. Qed.


(** The text has no doubled brace, also not with a brace after it. *)
Definition no_double (c : ascii) (s : string) : Prop :=
  str_contains (String c (String c "")) (s +:+ String c "") = false.

Lemma split_first_none p s : split_first p s = None ↔ str_contains p s = false.
Proof.
  induction s as [|a s IH]; cbn [split_first str_contains]; unfold starts_with.
  - destruct (strip_prefix p ""); [done|]. split; done.
  - destruct (strip_prefix p (String a s)); [done|]. cbn [orb]. rewrite <- IH. by destruct (split_first p s) as [[]|].
Qed.

Lemma strip_prefix_double c s : strip_prefix (String c (String c "")) s =
  match s with String a (String b r) => if Ascii.eqb c a then if Ascii.eqb c b then Some r else None else None | _ => None end.
Proof. destruct s as [|a [|b r]]; simpl; [done| |done]. by destruct (Ascii.eqb c a). Qed.

Lemma no_double_nil c : no_double c "".
Proof. unfold no_double, starts_with. simpl. unfold starts_with. simpl. by rewrite Ascii.eqb_refl. Qed.

Lemma no_double_cons c a s : no_double c (String a s) ↔ no_double c s ∧ strip_prefix (String c (String c "")) (String a (s +:+ String c "")) = None.
Proof.
  unfold no_double. change (String a s +:+ String c "") with (String a (s +:+ String c "")). cbn [str_contains]. unfold starts_with.
  destruct (strip_prefix _ (String a _)); cbn [orb]; split; try done; by intros [].
Qed.

Lemma split_first_double c a b : no_double c a → split_first (String c (String c "")) (a +:+ String c (String c b)) = Some (a, b).
Proof.
  induction a as [|x a IH]; intros H; [simpl; by rewrite Ascii.eqb_refl|].
  apply no_double_cons in H as [H Hp]. change (String x a +:+ String c (String c b)) with (String x (a +:+ String c (String c b))).
  cbn [split_first]. rewrite strip_prefix_double in Hp |- *. rewrite (IH H). destruct a as [|y a]; simpl in Hp |- *.
  - destruct (Ascii.eqb c x); [by rewrite Ascii.eqb_refl in Hp|done].
  - destruct (Ascii.eqb c x); [destruct (Ascii.eqb c y); [done|]|]; done.
Qed.

Lemma split_first_double_inv c s a b :
  split_first (String c (String c "")) s = Some (a, b) → s = a +:+ String c (String c b) ∧ no_double c a.
Proof.
  revert a. induction s as [|x s IH]; intros a; [done|]. cbn [split_first]. rewrite strip_prefix_double.
  assert (Htail : ∀ z, ('(u, v) ← z; Some (String x u, v)) = Some (a, b) → z = split_first (String c (String c "")) s →
    (∀ y s', s = String y s' → Ascii.eqb c x = true → Ascii.eqb c y = false) →
    String x s = a +:+ String c (String c b) ∧ no_double c a).
  { intros [[a' b']|] Hz Es Hy; [|done]. injection Hz as <- <-. destruct (IH a' (eq_sym Es)) as [Hs Hn]. split; [by rewrite Hs|].
    apply no_double_cons. split; [done|]. rewrite strip_prefix_double. destruct (a' +:+ String c "") as [|y r] eqn:E; [done|].
    destruct (Ascii.eqb c x) eqn:Ex; [|done]. destruct a' as [|y' a']; injection E as <- <-.
    - by rewrite (Hy c _ Hs eq_refl).
    - by rewrite (Hy y' _ Hs eq_refl). }
  destruct s as [|y s]; [by intros|]. destruct (Ascii.eqb c x) eqn:Ex; [destruct (Ascii.eqb c y) eqn:Ey|].
  - intros [= <- <-]. apply Ascii.eqb_eq in Ex, Ey. subst x y. split; [done|apply no_double_nil].
  - intros H. apply (Htail _ H eq_refl). by intros y' s' [= <- <-].
  - intros H. apply (Htail _ H eq_refl). congruence.
Qed.

(** ** The meaning of a template

    A template is a sequence of texts and placeholders, and a tail that is text
    or is opened and never closed. *)
Section meaning.
Context {JN : JsonNum} {JP : JsonPrint JN} {NL : NpubLib}.

Definition Piece : Type := string * string.

(** The text before a placeholder and the expression in it. *)
Definition piece_text (p : Piece) : string := p.1 +:+ "{{" +:+ p.2 +:+ "}}".
Definition template_text (ps : list Piece) (tail : string) : string := foldr (λ p s, piece_text p +:+ s) tail ps.

Definition piece_ok (p : Piece) : Prop := no_double "{" p.1 ∧ no_double "}" p.2.
Definition tail_ok (tail : string) : Prop :=
  match split_first "{{" tail with
  | None => True
  | Some (_, rest) => str_contains "}}" rest = false
  end.

(** Each placeholder is replaced by its value, once. *)
Fixpoint template_value (ctx : TriggerContext) (outputs : StepOutputs) (ps : list Piece) (tail : string) :
    result WorkflowError string :=
  match ps with
  | [] => Ok tail
  | (before, raw) :: ps =>
      value ← placeholder_value ctx outputs raw;
      rest ← template_value ctx outputs ps tail;
      Ok (before +:+ value +:+ rest)
  end.

Lemma template_text_cons before raw ps tail :
  template_text ((before, raw) :: ps) tail =
  before +:+ String "{" (String "{" (raw +:+ String "}" (String "}" (template_text ps tail)))).
Proof. cbn [template_text foldr]. unfold piece_text. cbn [fst snd]. by rewrite !str_app_assoc. Qed.

Lemma resolve_loop_value ctx outputs fuel out ps tail :
  Forall piece_ok ps → tail_ok tail → (length ps < fuel)%nat →
  resolve_loop fuel ctx outputs out (template_text ps tail) =
  (v ← template_value ctx outputs ps tail; Ok (out +:+ v)).
Proof.
  intros Hps Ht. revert fuel out. induction Hps as [|[before raw] ps [Hb Hr] Hps IH]; intros [|fuel] out Hf; try (simpl in Hf; lia).
  - cbn. unfold tail_ok in Ht. destruct (split_first "{{" tail) as [[a b]|] eqn:E; [|done].
    apply split_first_none in Ht. rewrite Ht. apply split_first_double_inv in E as [-> _]. f_equal. cbn. by rewrite str_app_assoc.
  - rewrite template_text_cons. cbn [resolve_loop template_value]. cbn [fst snd] in Hb, Hr.
    rewrite (split_first_double "{" before _ Hb), (split_first_double "}" raw _ Hr).
    destruct (placeholder_value ctx outputs raw) as [v|e]; [|done]. csimpl. rewrite IH by (simpl in Hf; lia).
    destruct (template_value ctx outputs ps tail) as [w|e]; [|done]. csimpl. by rewrite !str_app_assoc.
Qed.

Lemma length_template_text ps tail : (length ps ≤ String.length (template_text ps tail))%nat.
Proof.
  induction ps as [|p ps IH]; [simpl; lia|]. cbn [template_text foldr]. fold (template_text ps tail). unfold piece_text.
  rewrite !str_length_app. cbn [String.length length]. lia.
Qed.

(** Every template has that form. *)
Lemma template_parses t : ∃ ps tail, t = template_text ps tail ∧ Forall piece_ok ps ∧ tail_ok tail.
Proof.
  remember (String.length t) as n eqn:Hn. revert t Hn. induction (lt_wf n) as [n _ IH]. intros t ->.
  destruct (split_first "{{" t) as [[before rest]|] eqn:E.
  2: { exists [], t. split; [done|]. split; [constructor|]. unfold tail_ok. by rewrite E. }
  destruct (split_first "}}" rest) as [[raw rest']|] eqn:E2.
  2: { exists [], t. split; [done|]. split; [constructor|]. unfold tail_ok. rewrite E. by apply split_first_none. }
  apply split_first_double_inv in E as [-> Hb], E2 as [-> Hr].
  destruct (IH (String.length rest')) with (t := rest') as (ps & tail & -> & Hps & Ht); [|done|].
  { rewrite !str_length_app. simpl. rewrite !str_length_app. simpl. lia. }
  exists ((before, raw) :: ps), tail. split; [by rewrite template_text_cons|by split; [constructor|]].
Qed.

(** Template resolution does what a reader of the template expects: every template is a
    unique sequence of texts and closed placeholders followed by a tail, and resolving it
    replaces each placeholder once by its value and copies the rest, never looking for
    placeholders in the values it inserted. *)
Theorem template_semantics ctx outputs t :
  (∃ ps tail, t = template_text ps tail ∧ Forall piece_ok ps ∧ tail_ok tail) ∧
  ∀ ps tail, t = template_text ps tail → Forall piece_ok ps → tail_ok tail →
    resolve_template t ctx outputs = template_value ctx outputs ps tail.
Proof.
  split; [apply template_parses|]. intros ps tail -> Hps Ht. unfold resolve_template.
  destruct (str_contains "{{" (template_text ps tail)) eqn:E; cbn [negb].
  - rewrite resolve_loop_value; [|done|done|pose proof (length_template_text ps tail); lia].
    by destruct (template_value ctx outputs ps tail).
  - destruct ps as [|[before raw] ps]; [done|]. exfalso. apply split_first_none in E.
    rewrite template_text_cons in E. apply Forall_cons in Hps as [[Hb _] _]. by rewrite (split_first_double "{" before _ Hb) in E.
Qed.

End meaning.
