(* ===== verification/WorkflowDef.v ===== *)
(** * Workflow definitions ([crates/maju-workflow/src/schema.rs]) and the
    context of conditions ([executor.rs])

    The definition types, their validation, and the variables and functions an
    [if:] expression sees.  Not part of the sources, and parameters here: the
    cron schedules of the [cron] crate ([CronLib]), the derived [serde] code
    ([SerdeLib]) and the expression evaluator of [evalexpr] ([EvalLib]). *)
From S2P Require Import Prelude WorkflowTemplate.

(** ** Definitions *)

Inductive TriggerDef :=
  | MessagePosted (filter : option string)
  | ReactionAdded (emoji : option string) (filter : option string)
  | DiffPosted (filter : option string)
  | Schedule (cron : option string) (interval : option string)
  | Webhook.

Inductive ActionDef :=
  | SendMessage (text : string) (channel : option string) (reply_in_thread : bool)
  | SendDm (to text : string)
  | SetChannelTopic (topic : string)
  | AddReaction (emoji : string)
  | CallWebhook (url : string) (method : option string) (headers : option (gmap string string)) (body : option string)
  | RequestApproval (from message : string) (timeout : option string)
  | Delay (duration : string).

Record Step := {
  s_id : string;
  s_name : option string;
  if_expr : option string;
  timeout_secs : option Z;
  action : ActionDef
}.

Record WorkflowDef := {
  name : string;
  description : option string;
  trigger : TriggerDef;
  steps : list Step;
  enabled : bool
}.

#[export] Instance TriggerDef_eq_dec : EqDecision TriggerDef.
Proof. solve_decision. Defined.
#[export] Instance ActionDef_eq_dec : EqDecision ActionDef.
Proof. solve_decision. Defined.
#[export] Instance Step_eq_dec : EqDecision Step.
Proof. solve_decision. Defined.

(** [Schedule::from_str], and the first instant of [after(t)]; instants are
    nanoseconds since the Unix epoch. *)
Class CronLib : Type := {
  CronSchedule : Type;
  parse_cron : string → option CronSchedule;
  next_after : CronSchedule → Z → option Z
}.

(** [serde_yaml::from_str] and [serde_json::to_string] of a definition,
    [serde_json::from_value], [serde_json::from_str] to a value and
    [to_string] of one, and the conversions of a trigger context. *)
Class SerdeLib (N : JsonNum) : Type := {
  def_from_yaml : string → option WorkflowDef;
  def_to_json : WorkflowDef → option string;
  def_from_value : JsonValue → option WorkflowDef;
  value_from_str : string → option JsonValue;
  value_to_str : JsonValue → option string;
  ctx_to_value : TriggerContext → option JsonValue;
  ctx_from_value : JsonValue → option TriggerContext
}.

Definition is_call_webhook (a : ActionDef) : bool := match a with CallWebhook _ _ _ _ => true | _ => false end.

Definition requires_elevated_authority (d : WorkflowDef) : bool := existsb (λ s, is_call_webhook (action s)) (steps d).

(** ** Validation *)

Definition valid_step_id (id : string) : bool :=
  negb (id =? "")%string && (String.length id <=? 64)%nat &&
  str_forall (λ c, is_ascii_alphanumeric c || Ascii.eqb c "_") id.

(** The number of words of [split_whitespace]. *)
Fixpoint words (in_word : bool) (s : list Z) : nat :=
  match s with
  | [] => 0
  | c :: s => if Channel.is_whitespace c then words false s else if in_word then words true s else S (words true s)
  end.
Definition field_count (s : string) : nat := match utf8_decode s with Some cs => words false cs | None => 0 end.

Definition normalize_cron (expr : string) : string :=
  match field_count expr with
  | 5%nat => "0 " +:+ expr +:+ " *"
  | 6%nat => expr +:+ " *"
  | _ => expr
  end.

Definition trigger_has_message (t : TriggerDef) : bool :=
  match t with MessagePosted _ | ReactionAdded _ _ | DiffPosted _ => true | _ => false end.

Definition replies_in_thread (a : ActionDef) : bool := match a with SendMessage _ _ true => true | _ => false end.

Definition invalid {A} (msg : string) : result WorkflowError A := Err (InvalidDefinition msg).

Fixpoint validate_step_ids (seen_ids : gset string) (ss : list Step) : result WorkflowError unit :=
  match ss with
  | [] => Ok tt
  | s :: ss =>
      if (trim (s_id s) =? "")%string then invalid "step id must not be empty"
      else if negb (valid_step_id (s_id s)) then invalid "step id is invalid"
      else if bool_decide (s_id s ∈ seen_ids) then invalid "duplicate step id"
      else validate_step_ids ({[ s_id s ]} ∪ seen_ids) ss
  end.

Section validation.
Context {CL : CronLib}.

Definition validate_cron (expr : string) : result WorkflowError unit :=
  match parse_cron (normalize_cron expr) with
  | Some _ => Ok tt
  | None => invalid "invalid cron expression"
  end.

Definition validate_interval (dur : string) : result WorkflowError unit :=
  match parse_duration_secs dur with
  | Ok secs => if (secs <? 60)%Z then invalid "interval must be at least 60s" else Ok tt
  | Err _ => invalid "invalid interval"
  end.

Definition validate_schedule (t : TriggerDef) : result WorkflowError unit :=
  match t with
  | Schedule cron interval =>
      match cron, interval with
      | None, None => invalid "schedule trigger requires either 'cron' or 'interval'"
      | Some _, Some _ => invalid "schedule trigger cannot specify both 'cron' and 'interval'"
      | Some expr, None => validate_cron expr
      | None, Some dur => validate_interval dur
      end
  | _ => Ok tt
  end.

Definition validate (d : WorkflowDef) : result WorkflowError unit :=
  if (trim (name d) =? "")%string then invalid "name is required and must not be empty"
  else if bool_decide (steps d = []) then invalid "at least one step is required"
  else
    validate_step_ids ∅ (steps d);;
    (if negb (trigger_has_message (trigger d)) && existsb (λ s, replies_in_thread (action s)) (steps d)
     then invalid "reply_in_thread requires a message-based trigger" else Ok tt);;
    validate_schedule (trigger d).

(** The definition and its canonical JSON. *)
Definition parse_yaml {JN : JsonNum} {SL : SerdeLib JN} (yaml : string) : result WorkflowError (WorkflowDef * string) :=
  match def_from_yaml yaml with
  | None => Err InvalidYaml
  | Some d =>
      validate d;;
      match def_to_json d with
      | Some json => Ok (d, json)
      | None => invalid "canonical JSON"
      end
  end.

End validation.

(** ** Conditions *)

(** [evalexpr::Value]. *)
#[warnings="-register-all"]
Inductive EvalValue {N : JsonNum} : Type :=
  | EString (s : string)
  | EFloat (f : JFloat)
  | EInt (z : Z)
  | EBoolean (b : bool)
  | ETuple (l : list EvalValue)
  | EEmpty.

(** [HashMapContext] ([None] of a setter: its error), and
    [eval_boolean_with_context] ([None]: an evaluation error). *)
Class EvalLib (N : JsonNum) : Type := {
  EvalContext : Type;
  new_context : EvalContext;
  set_function : string → (EvalValue → option EvalValue) → EvalContext → option EvalContext;
  set_value : string → EvalValue → EvalContext → option EvalContext;
  get_value : string → EvalContext → option EvalValue;
  eval_boolean : string → EvalContext → option bool
}.

Definition as_fixed_len_tuple2 {N : JsonNum} (v : EvalValue) : option (EvalValue * EvalValue) :=
  match v with ETuple [x; y] => Some (x, y) | _ => None end.
Definition as_string {N : JsonNum} (v : EvalValue) : option string :=
  match v with EString s => Some s | _ => None end.

Section conditions.
Context {JN : JsonNum} {JP : JsonPrint JN} {EL : EvalLib JN} {HO : HashOrder}.

(** A function of two strings. *)
Definition string_predicate (f : string → string → bool) (args : EvalValue) : option EvalValue :=
  '(x, y) ← as_fixed_len_tuple2 args;
  x ← as_string x;
  y ← as_string y;
  Some (EBoolean (f x y)).

Definition str_len (arg : EvalValue) : option EvalValue := s ← as_string arg; Some (EInt (Z.of_nat (String.length s))).

Definition json_value_to_eval (v : JsonValue) : EvalValue :=
  match v with
  | JString s => EString s
  | JBool b => EBoolean b
  | JNum n =>
      match as_i64 n with
      | Some i => EInt i
      | None => match as_f64 n with Some f => EFloat f | None => EString (number_text n) end
      end
  | JNull => EEmpty
  | other => EString (value_text other)
  end.

Definition condition_error {A} (o : option A) : result WorkflowError A :=
  match o with Some a => Ok a | None => Err (ConditionError "context") end.

(** [ctx.set_value] over a list, in order. *)
Fixpoint set_values (vs : list (string * EvalValue)) (c : EvalContext) : result WorkflowError EvalContext :=
  match vs with
  | [] => Ok c
  | (k, v) :: vs => c ← condition_error (set_value k v c); set_values vs c
  end.

Definition register_functions (c : EvalContext) : result WorkflowError EvalContext :=
  c ← condition_error (set_function "str_contains" (string_predicate (λ haystack needle, str_contains needle haystack)) c);
  c ← condition_error (set_function "str_starts_with" (string_predicate (λ s prefix, starts_with prefix s)) c);
  c ← condition_error (set_function "str_ends_with" (string_predicate (λ s suffix, bool_decide (is_Some (strip_suffix suffix s)))) c);
  condition_error (set_function "str_len" str_len c).

Definition webhook_values (ctx : TriggerContext) : list (string * EvalValue) :=
  omap (λ kv : string * string,
    if starts_with "trigger_" kv.1 || starts_with "steps_" kv.1 then None
    else Some ("trigger_" +:+ kv.1, EString kv.2)) (hash_iter (webhook_fields ctx)).

Definition trigger_values (ctx : TriggerContext) : list (string * EvalValue) :=
  [("trigger_text", EString (text ctx)); ("trigger_author", EString (author ctx));
   ("trigger_channel_id", EString (channel_id ctx)); ("trigger_timestamp", EString (timestamp ctx));
   ("trigger_emoji", EString (emoji ctx)); ("trigger_message_id", EString (message_id ctx))].

Definition is_reply_value (ctx : TriggerContext) : string * EvalValue := ("trigger_is_reply", EBoolean (is_reply ctx)).

Definition output_var (step_id field : string) : string := "steps_" +:+ step_id +:+ "_output_" +:+ field.

Definition output_values (outputs : StepOutputs) : list (string * EvalValue) :=
  hash_iter outputs ≫= λ so,
    match so.2 with
    | JObject m => (λ fv : string * JsonValue, (output_var so.1 fv.1, json_value_to_eval fv.2)) <$> m
    | _ => []
    end.

Definition build_eval_context (ctx : TriggerContext) (outputs : StepOutputs) : result WorkflowError EvalContext :=
  c ← register_functions new_context;
  c ← set_values (webhook_values ctx) c;
  c ← set_values (trigger_values ctx) c;
  c ← set_values [is_reply_value ctx] c;
  set_values (output_values outputs) c.

End conditions.
