(* ===== verification/WorkflowDefProps.v ===== *)
(** * Properties of workflow definitions and conditions

    Validation accepts exactly the well-formed definitions, and the variables
    an [if:] expression reads have the values of the trigger and of the earlier
    steps, whatever a webhook body contains. *)
From S2P Require Import Prelude Channel WorkflowTemplate WorkflowDef.

(** ** Validation *)

Lemma utf8_encode_cons v l : utf8_encode (v :: l) = foldr (λ b s, String (byte_chr b) s) (utf8_encode l) (utf8_char v).
Proof.
  unfold utf8_encode. cbn [mbind list_bind]. generalize (utf8_char v) as x. intros x. induction x as [|b x IH]; [done|]. simpl. by rewrite IH.
Qed.

Lemma alphanumeric_not_blank c : is_ascii_alphanumeric c || Ascii.eqb c "_" = true →
  is_ascii c = true ∧ is_whitespace (byte_val c) = false.
Proof.
  destruct c as [[] [] [] [] [] [] [] []]; vm_compute; try done.
Qed.

Lemma trim_start_matches_no c l f : f c = false → trim_start_matches f (c :: l) = c :: l.
Proof. intros H. simpl. by rewrite H. Qed.

Lemma trim_end_nonempty c l : is_whitespace c = false → trim_end (c :: l) ≠ [].
Proof.
  intros Hc H. unfold trim_end in H. apply (f_equal reverse) in H. rewrite reverse_involutive, reverse_nil in H.
  assert (Hall : ∀ s, trim_start_matches is_whitespace s = [] → Forall (λ c, is_whitespace c = true) s).
  { induction s as [|x s IH]; [constructor|]. simpl. destruct (is_whitespace x) eqn:E; [|done]. intros ?. constructor; auto. }
  apply Hall in H. rewrite Forall_forall in H. specialize (H c). rewrite H in Hc; [done|].
  apply elem_of_reverse, list_elem_of_here.
Qed.

(** The one string that trims to nothing is blank, and no identifier is. *)
Lemma valid_step_id_trim i : valid_step_id i = true → (trim i =? "")%string = false.
Proof.
  unfold valid_step_id. rewrite !andb_true_iff, negb_true_iff. intros [[Hne _] Hall]. apply String.eqb_neq in Hne.
  destruct i as [|c i]; [done|]. assert (Ha : str_forall is_ascii (String c i) = true).
  { eapply str_forall_impl; [|exact Hall]. intros x Hx. apply (alphanumeric_not_blank x Hx). }
  simpl in Hall. apply andb_true_iff in Hall as [Hc _]. apply alphanumeric_not_blank in Hc as [_ Hw].
  unfold trim. rewrite (utf8_decode_ascii _ Ha). cbn [str_bytes]. rewrite trim_start_matches_no by done.
  pose proof (trim_end_nonempty _ (str_bytes i) Hw) as H. destruct (trim_end (byte_val c :: str_bytes i)) as [|v l] eqn:E; [done|].
  apply String.eqb_neq. rewrite utf8_encode_cons. unfold utf8_char. repeat case_match; done.
Qed.

Lemma validate_step_ids_ok seen ss :
  validate_step_ids seen ss = Ok tt ↔
  Forall (λ s, valid_step_id (s_id s) = true ∧ s_id s ∉ seen) ss ∧ NoDup (s_id <$> ss).
Proof.
  revert seen. induction ss as [|s ss IH]; intros seen; [by split; [repeat constructor|]|]. cbn [validate_step_ids fmap list_fmap].
  rewrite Forall_cons, NoDup_cons. destruct (valid_step_id (s_id s)) eqn:Ev.
  2: { split; [by destruct (trim _ =? _)%string|naive_solver]. }
  rewrite (valid_step_id_trim _ Ev). cbn [negb]. case_bool_decide as Hin; [naive_solver|]. rewrite IH. split.
  - intros [Hf Hnd]. split_and!; [done|done| | |done].
    + eapply Forall_impl; [exact Hf|]. set_solver.
    + rewrite list_elem_of_fmap. intros (s' & Hs & Hin'). rewrite Forall_forall in Hf. apply (Hf _) in Hin' as [_ H]. set_solver.
  - intros [[_ Hf] [Hni Hnd]]. split; [|done]. rewrite Forall_forall in *. intros s' Hs'. split; [by apply Hf|].
    rewrite not_elem_of_union, not_elem_of_singleton. split; [|by apply Hf]. intros E. apply Hni. rewrite <- E. by apply list_elem_of_fmap_2.
Qed.

Section validation.
Context {CL : CronLib}.

Definition schedule_ok (t : TriggerDef) : Prop :=
  match t with
  | Schedule (Some expr) None => is_Some (parse_cron (normalize_cron expr))
  | Schedule None (Some dur) => ∃ secs, parse_duration_secs dur = Ok secs ∧ (60 ≤ secs)%Z
  | Schedule _ _ => False
  | _ => True
  end.

(** What a stored definition satisfies. *)
Record well_formed (d : WorkflowDef) : Prop := {
  wf_name : trim (name d) ≠ "";
  wf_steps : steps d ≠ [];
  wf_ids : Forall (λ s, valid_step_id (s_id s) = true) (steps d);
  wf_distinct : NoDup (s_id <$> steps d);
  wf_reply : trigger_has_message (trigger d) = true ∨ Forall (λ s, replies_in_thread (action s) = false) (steps d);
  wf_schedule : schedule_ok (trigger d)
}.

Lemma validate_schedule_ok t : validate_schedule t = Ok tt ↔ schedule_ok t.
Proof.
  destruct t as [| | |[cron|] [dur|]|]; cbn; try done.
  - unfold validate_cron. destruct (parse_cron _); by split; [eauto|intros []].
  - unfold validate_interval. destruct (parse_duration_secs dur) as [secs|e]; [|naive_solver].
    destruct (Z.ltb_spec secs 60); split; try done; [intros (? & [= <-] & ?); lia|eauto with lia].
Qed.

Lemma existsb_false {A} (f : A → bool) l : existsb f l = false ↔ Forall (λ x, f x = false) l.
Proof. induction l as [|x l IH]; cbn; [by split|]. rewrite orb_false_iff, Forall_cons. naive_solver. Qed.

(** Validation accepts exactly the well-formed definitions: a name, at least one step,
    distinct identifiers of letters, digits and underscores, replies in a thread only under a
    trigger that has a message, and for schedules either a cron expression that parses or an
    interval of at least 60 seconds. *)
Theorem validate_exact d : validate d = Ok tt ↔ well_formed d.
Proof.
  unfold validate. destruct (trim (name d) =? "")%string eqn:En; [split; [done|]|].
  { apply String.eqb_eq in En. by intros []. }
  case_bool_decide as Es; [split; [done|by intros []]|]. apply String.eqb_neq in En.
  pose proof (validate_step_ids_ok ∅ (steps d)) as Hi. destruct (validate_step_ids ∅ (steps d)) as [[]|e]; csimpl.
  2: { split; [done|]. intros [_ _ Hf Hd _ _]. destruct Hi as [_ Hi]. rewrite Hi; [done|]. split; [|done].
    eapply Forall_impl; [exact Hf|]. set_solver. }
  destruct Hi as [Hi _]. specialize (Hi eq_refl) as [Hf Hd].
  pose proof (existsb_false (λ s, replies_in_thread (action s)) (steps d)) as Hr.
  pose proof (validate_schedule_ok (trigger d)) as Hs.
  destruct (negb (trigger_has_message (trigger d)) && existsb (λ s, replies_in_thread (action s)) (steps d)) eqn:E; csimpl.
  - apply andb_true_iff in E as [Em E]. apply negb_true_iff in Em. rewrite E in Hr. split; [done|]. intros [_ _ _ _ [|] _]; naive_solver.
  - rewrite Hs. split; [|by intros []]. intros Hsch. split; try done; [eapply Forall_impl; [exact Hf|naive_solver]|].
    apply andb_false_iff in E as [E|E]; [left; by apply negb_false_iff|right; by apply Hr].
Qed.

End validation.

(** ** The variables of a condition *)

(** The types of values, which [HashMapContext] keeps. *)
Inductive ValueType := TString | TFloat | TInt | TBoolean | TTuple | TEmpty.
Definition value_type {N : JsonNum} (v : EvalValue) : ValueType :=
  match v with
  | EString _ => TString | EFloat _ => TFloat | EInt _ => TInt | EBoolean _ => TBoolean | ETuple _ => TTuple | EEmpty => TEmpty
  end.

(** Documented behaviour of [HashMapContext]: a map whose variables keep the
    type of their first value. *)
Class EvalLaws {N : JsonNum} (EL : EvalLib N) : Prop := {
  get_new k : get_value k new_context = None;
  set_function_ok f g c : ∃ c', set_function f g c = Some c' ∧ ∀ k, get_value k c' = get_value k c;
  set_value_get k v c c' : set_value k v c = Some c' → ∀ k', get_value k' c' = if (k' =? k)%string then Some v else get_value k' c;
  set_value_total k v c : is_Some (set_value k v c) ↔ ∀ v0, get_value k c = Some v0 → value_type v0 = value_type v
}.

Section conditions.
Context {JN : JsonNum} {JP : JsonPrint JN} {EL : EvalLib JN} {LW : EvalLaws EL} {HO : HashOrder}.

(** The last value that a list assigns. *)
Definition assigned (vs : list (string * EvalValue)) (k : string) : option EvalValue :=
  foldl (λ o kv, if (k =? kv.1)%string then Some kv.2 else o) None vs.

Lemma assigned_snoc vs k' v k : assigned (vs ++ [(k', v)]) k = if (k =? k')%string then Some v else assigned vs k.
Proof. unfold assigned. by rewrite foldl_app. Qed.

Lemma assigned_none vs k : k ∉ vs.*1 → assigned vs k = None.
Proof.
  induction vs as [|[k' v] vs IH] using rev_ind; [done|]. rewrite fmap_app, not_elem_of_app. intros [Hn Hk]. rewrite assigned_snoc.
  destruct (String.eqb_spec k k') as [->|]; [|auto]. exfalso. apply Hk, list_elem_of_here.
Qed.

Lemma assigned_some vs k v : NoDup vs.*1 → (k, v) ∈ vs → assigned vs k = Some v.
Proof.
  induction vs as [|[k' v'] vs IH] using rev_ind; [by rewrite elem_of_nil|]. rewrite fmap_app, NoDup_app, elem_of_app, assigned_snoc.
  intros (Hnd & Hx & _) [Hin|Hin].
  - destruct (String.eqb_spec k k') as [->|]; [|auto]. exfalso. apply (Hx k'); [by apply (list_elem_of_fmap_2 fst) in Hin|apply list_elem_of_here].
  - apply list_elem_of_singleton in Hin as [= -> ->]. by rewrite String.eqb_refl.
Qed.

Lemma set_values_get vs c c' : set_values vs c = Ok c' →
  ∀ k, get_value k c' = match assigned vs k with Some v => Some v | None => get_value k c end.
Proof.
  revert c'. induction vs as [|[k' v] vs IH] using rev_ind; intros c' H k; [by injection H as <-|].
  assert (Happ : ∀ vs1 c, set_values (vs1 ++ [(k', v)]) c = (c ← set_values vs1 c; condition_error (set_value k' v c))).
  { induction vs1 as [|[k1 v1] vs1 IH1]; intros c1; simpl; [by destruct (condition_error _)|].
    destruct (condition_error (set_value k1 v1 c1)); [csimpl; apply IH1|done]. }
  rewrite Happ in H. destruct (set_values vs c) as [c1|e]; [|done]. csimpl in H. rewrite assigned_snoc.
  destruct (set_value k' v c1) as [c2|] eqn:E2; [|done]. injection H as ->. rewrite (set_value_get _ _ _ _ E2).
  destruct (k =? k')%string; [done|]. by apply IH.
Qed.

(** Assignments succeed when they and the context agree on the types. *)
Definition typed_by (ty : string → ValueType) (c : EvalContext) : Prop := ∀ k v, get_value k c = Some v → value_type v = ty k.

Lemma set_values_ok ty vs c : typed_by ty c → Forall (λ kv, value_type kv.2 = ty kv.1) vs →
  ∃ c', set_values vs c = Ok c' ∧ typed_by ty c'.
Proof.
  intros Hc Hvs. revert c Hc. induction Hvs as [|[k v] vs Hkv Hvs IH]; intros c Hc; [by exists c|]. cbn [set_values]. cbn in Hkv.
  assert (is_Some (set_value k v c)) as [c1 H1].
  { apply set_value_total. intros v0 H0. by rewrite (Hc _ _ H0). }
  rewrite H1. csimpl. apply IH. intros k' v'. rewrite (set_value_get _ _ _ _ H1). destruct (String.eqb_spec k' k) as [->|]; [by intros [= <-]|].
  apply Hc.
Qed.

Lemma register_functions_ok c : ∃ c', register_functions c = Ok c' ∧ ∀ k, get_value k c' = get_value k c.
Proof.
  unfold register_functions. edestruct (set_function_ok "str_contains") as (c1 & -> & H1). csimpl.
  edestruct (set_function_ok "str_starts_with") as (c2 & -> & H2). csimpl.
  edestruct (set_function_ok "str_ends_with") as (c3 & -> & H3). csimpl.
  edestruct (set_function_ok "str_len") as (c4 & -> & H4). exists c4. split; [done|]. intros k. by rewrite H4, H3, H2, H1.
Qed.

(** *** Names *)

Lemma trigger_steps_differ (s t : string) : "trigger_" +:+ s ≠ "steps_" +:+ t.
Proof. done. Qed.

Lemma output_name k v outputs : (k, v) ∈ output_values outputs → ∃ i f, k = output_var i f.
Proof.
  unfold output_values. rewrite list_elem_of_bind. intros ([i j] & Hin & _). cbn in Hin. destruct j; try by apply elem_of_nil in Hin.
  apply list_elem_of_fmap in Hin as ([f x] & [= -> ->] & _). eauto.
Qed.

(** A field whose name does not imitate the separator of [output_var]. *)
Definition plain_field (f : string) : Prop := str_contains "_output_" ("_" +:+ f) = false.

Lemma str_contains_app p u v : str_contains p (u +:+ (p +:+ v)) = true.
Proof.
  assert (H : starts_with p (p +:+ v) = true) by (unfold starts_with; by rewrite strip_prefix_app).
  assert (Hs : ∀ s, str_contains p s = starts_with p s || match s with EmptyString => false | String _ s' => str_contains p s' end).
  { by intros []. }
  induction u as [|a u IH]; rewrite Hs; [by change ("" +:+ (p +:+ v)) with (p +:+ v); rewrite H|].
  change (String a u +:+ (p +:+ v)) with (String a (u +:+ (p +:+ v))). cbv beta iota. rewrite IH. apply orb_true_r.
Qed.

Lemma separator_overlap f f' t : t ≠ "" → plain_field f → "_output_" +:+ f = t +:+ ("_output_" +:+ f') → False.
Proof.
  intros Ht Hf H. unfold plain_field in Hf. do 7 (destruct t as [|? t]; [try done; simpl in H; discriminate H|injection H as <- H]).
  cbn in H. change ("_" ++ f)%string with ("_" +:+ f) in H. rewrite H in Hf. 
  change (t ++ "_output_" ++ f')%string with (t +:+ ("_output_" +:+ f')) in Hf. by rewrite str_contains_app in Hf.
Qed.

Lemma app_common (s s' u u' : string) : s +:+ u = s' +:+ u' →
  (∃ t, s' = s +:+ t ∧ u = t +:+ u') ∨ (∃ t, s = s' +:+ t ∧ u' = t +:+ u).
Proof.
  revert s'. induction s as [|a s IH]; intros s' H; [left; by exists s'|]. destruct s' as [|a' s']; [right; by exists (String a s)|].
  injection H as <- H. apply IH in H as [(t & -> & ->)|(t & -> & ->)]; [left|right]; by exists t.
Qed.

Lemma str_app_nil (s : string) : s +:+ "" = s.
Proof. induction s as [|a s IH]; [done|]. change (String a (s +:+ "") = String a s). by rewrite IH. Qed.

Lemma output_var_inj i f i' f' : plain_field f → plain_field f' → output_var i f = output_var i' f' → i = i' ∧ f = f'.
Proof.
  intros Hf Hf' H.
  assert (i +:+ ("_output_" +:+ f) = i' +:+ ("_output_" +:+ f')) as [(t & -> & E)|(t & -> & E)]%app_common by by injection H.
  all: destruct t as [|a t]; [injection E as E; subst; by rewrite str_app_nil|exfalso].
  - by apply (separator_overlap f f' (String a t)).
  - by apply (separator_overlap f' f (String a t)).
Qed.

(** The outputs of steps: objects with distinct plain fields. *)
Definition plain_outputs (outputs : StepOutputs) : Prop :=
  ∀ i m, outputs !! i = Some (JObject m) → NoDup m.*1 ∧ Forall plain_field m.*1.

Lemma output_values_elem outputs k v : (k, v) ∈ output_values outputs ↔
  ∃ i m f x, outputs !! i = Some (JObject m) ∧ (f, x) ∈ m ∧ k = output_var i f ∧ v = json_value_to_eval x.
Proof.
  unfold output_values. rewrite list_elem_of_bind. split.
  - intros ([i j] & Hin & Hi). cbn in Hin. apply hash_iter_elem in Hi. destruct j as [| | | | |m]; try by apply elem_of_nil in Hin.
    apply list_elem_of_fmap in Hin as ([f x] & [= -> ->] & Hf). by exists i, m, f, x.
  - intros (i & m & f & x & Hi & Hf & -> & ->). exists (i, JObject m). split; [|by apply hash_iter_elem].
    cbn. apply list_elem_of_fmap. by exists (f, x).
Qed.

Lemma output_values_assigned outputs i m f x : plain_outputs outputs → outputs !! i = Some (JObject m) → (f, x) ∈ m →
  assigned (output_values outputs) (output_var i f) = Some (json_value_to_eval x).
Proof.
  intros Hp Hi Hf. assert (Hin : (output_var i f, json_value_to_eval x) ∈ output_values outputs).
  { apply output_values_elem. by exists i, m, f, x. }
  destruct (assigned (output_values outputs) (output_var i f)) as [v|] eqn:E.
  - assert (Hv : (output_var i f, v) ∈ output_values outputs).
    { revert E. generalize (output_values outputs) as vs. clear. intros vs. induction vs as [|[k v'] vs IH] using rev_ind; [done|].
      rewrite assigned_snoc, elem_of_app. destruct (String.eqb_spec (output_var i f) k) as [->|]; [|auto]. intros [= ->]. right. apply list_elem_of_here. }
    apply output_values_elem in Hv as (i' & m' & f' & x' & Hi' & Hf' & Hk & ->).
    destruct (Hp _ _ Hi) as [Hn Hpl], (Hp _ _ Hi') as [_ Hpl']. rewrite Forall_forall in Hpl, Hpl'.
    pose proof (Hpl f (list_elem_of_fmap_2 fst _ _ Hf)) as H1. pose proof (Hpl' f' (list_elem_of_fmap_2 fst _ _ Hf')) as H2.
    destruct (output_var_inj _ _ _ _ H1 H2 Hk) as [<- <-]. rewrite Hi in Hi'. injection Hi' as <-. do 2 f_equal.
    apply list_elem_of_lookup in Hf as [a Ha], Hf' as [b Hb]. 
    assert (a = b) as <- by (eapply (NoDup_lookup m.*1 a b f); [done|by rewrite list_lookup_fmap, Ha|by rewrite list_lookup_fmap, Hb]). congruence.
  - exfalso. revert E Hin. generalize (output_values outputs) as vs, (json_value_to_eval x) as v. clear. intros vs v.
    induction vs as [|[k v'] vs IH] using rev_ind; [intros _; by rewrite elem_of_nil|].
    rewrite assigned_snoc, elem_of_app, list_elem_of_singleton. destruct (String.eqb_spec (output_var i f) k) as [->|]; [done|]. naive_solver.
Qed.

(** The reply flag is the one variable of the trigger that is not a string. *)
Definition string_variables (k : string) : ValueType := if (k =? "trigger_is_reply")%string then TBoolean else TString.

Lemma webhook_value_name ctx k v : (k, v) ∈ webhook_values ctx → ∃ f s, k = "trigger_" +:+ f ∧ v = EString s ∧ webhook_fields ctx !! f = Some s.
Proof.
  unfold webhook_values. rewrite list_elem_of_omap. intros ([f s] & Hin & Hv). cbn in Hv. destruct (_ || _); [done|].
  injection Hv as <- <-. apply hash_iter_elem in Hin. by exists f, s.
Qed.

Lemma build_eval_context_get ctx outputs c : build_eval_context ctx outputs = Ok c → ∀ k,
  get_value k c =
    match assigned (output_values outputs) k with
    | Some v => Some v
    | None => match assigned (trigger_values ctx ++ [is_reply_value ctx]) k with
              | Some v => Some v
              | None => assigned (webhook_values ctx) k
              end
    end.
Proof.
  unfold build_eval_context. destruct (register_functions_ok new_context) as (c0 & -> & H0). cbn [mbind result_bind]. intros H k.
  apply bind_ok in H as (c1 & H1 & H). apply bind_ok in H as (c2 & H2 & H). apply bind_ok in H as (c3 & H3 & H).
  rewrite (set_values_get _ _ _ H), (set_values_get _ _ _ H3), (set_values_get _ _ _ H2), (set_values_get _ _ _ H1), H0, get_new.
  destruct (assigned (output_values outputs) k); [done|]. unfold is_reply_value. rewrite assigned_snoc.
  change [("trigger_is_reply", EBoolean (is_reply ctx))] with ([] ++ [("trigger_is_reply", EBoolean (is_reply ctx))]). rewrite assigned_snoc.
  destruct (k =? "trigger_is_reply")%string; [done|]. cbn [assigned foldl]. by destruct (assigned (trigger_values ctx) k), (assigned (webhook_values ctx) k).
Qed.

(** C35: The variables of a condition are not spoofable: in a context that was built, every
    trigger variable has the value of the trigger, whatever fields the body of a webhook had,
    and steps_ID_output_FIELD has the value of that field of the output of that step, because no
    two such names collide when fields do not imitate the separator. *)
Theorem conditions_read_the_trigger ctx outputs c :
  plain_outputs outputs →
  build_eval_context ctx outputs = Ok c →
  (∀ k v, (k, v) ∈ trigger_values ctx ++ [is_reply_value ctx] → get_value k c = Some v) ∧
  (∀ i m f x, outputs !! i = Some (JObject m) → (f, x) ∈ m → get_value (output_var i f) c = Some (json_value_to_eval x)).
Proof.
  intros Hp Hb. split.
  - intros k v Hin. rewrite (build_eval_context_get _ _ _ Hb).
    assert (Hk : ∃ f, k = "trigger_" +:+ f).
    { revert Hin. unfold trigger_values, is_reply_value. rewrite elem_of_app, !elem_of_cons, !elem_of_nil.
      intros [[H|[H|[H|[H|[H|[H|[]]]]]]]|[H|[]]]; injection H as -> ->; by eexists. }
    destruct Hk as [f Hk]. rewrite (assigned_none (output_values outputs)).
    + rewrite (assigned_some _ _ v); [done| |done]. vm_compute. repeat constructor; rewrite ?elem_of_cons, ?elem_of_nil; naive_solver.
    + rewrite list_elem_of_fmap. intros ([k' v'] & -> & Ho). apply output_name in Ho as (i & g & ->). unfold output_var in Hk. discriminate Hk.
  - intros i m f x Hi Hf. by rewrite (build_eval_context_get _ _ _ Hb), (output_values_assigned _ _ _ _ _ Hp Hi Hf).
Qed.

(** The types of the variables when no webhook field is called [is_reply]. *)
Definition variable_type (outputs : StepOutputs) (k : string) : ValueType :=
  match assigned (output_values outputs) k with Some v => value_type v | None => string_variables k end.

Lemma variable_type_trigger outputs f : variable_type outputs ("trigger_" +:+ f) = string_variables ("trigger_" +:+ f).
Proof.
  unfold variable_type. rewrite assigned_none; [done|]. rewrite list_elem_of_fmap. intros ([k v] & E & (i & g & ->)%output_name).
  unfold output_var in E. discriminate E.
Qed.

Lemma typed_new ty c : (∀ k, get_value k c = get_value k new_context) → typed_by ty c.
Proof. intros H k v. by rewrite H, get_new. Qed.

Lemma webhook_values_typed ctx : Forall (λ kv, value_type kv.2 = TString) (webhook_values ctx).
Proof. rewrite Forall_forall. intros [k v] (f & s & -> & -> & _)%webhook_value_name. done. Qed.

Lemma build_eval_context_ok ctx outputs : plain_outputs outputs → webhook_fields ctx !! "is_reply" = None →
  is_ok (build_eval_context ctx outputs) = true.
Proof.
  intros Hp Hr. unfold build_eval_context. destruct (register_functions_ok new_context) as (c0 & -> & H0). cbn [mbind result_bind].
  assert (Hw : Forall (λ kv, value_type kv.2 = variable_type outputs kv.1) (webhook_values ctx)).
  { rewrite Forall_forall. intros [k v] (f & s & -> & -> & Hf)%webhook_value_name. cbn [fst snd value_type]. rewrite variable_type_trigger.
    unfold string_variables. destruct (String.eqb_spec ("trigger_" +:+ f) "trigger_is_reply") as [E|]; [|done].
    injection E as E. change (f = "is_reply") in E. subst f. by rewrite Hr in Hf. }
  assert (Ht : Forall (λ kv, value_type kv.2 = variable_type outputs kv.1) (trigger_values ctx ++ [is_reply_value ctx])).
  { unfold trigger_values, is_reply_value. repeat (constructor; [cbn [fst snd]; match goal with |- _ = variable_type _ ?k =>
      let f := eval vm_compute in (default k (strip_prefix "trigger_" k)) in exact (eq_sym (variable_type_trigger outputs f)) end|]). constructor. }
  assert (Ho : Forall (λ kv, value_type kv.2 = variable_type outputs kv.1) (output_values outputs)).
  { rewrite Forall_forall. intros [k v] (i & m & f & x & Hi & Hf & -> & ->)%output_values_elem. cbn [fst snd].
    unfold variable_type. by rewrite (output_values_assigned _ _ _ _ _ Hp Hi Hf). }
  apply Forall_app in Ht as [Ht Hr'].
  destruct (set_values_ok _ _ c0 (typed_new _ _ H0) Hw) as (c1 & -> & T1). cbn [mbind result_bind].
  destruct (set_values_ok _ _ c1 T1 Ht) as (c2 & -> & T2). cbn [mbind result_bind].
  destruct (set_values_ok _ _ c2 T2 Hr') as (c3 & -> & T3). cbn [mbind result_bind].
  by destruct (set_values_ok _ _ c3 T3 Ho) as (c4 & -> & _).
Qed.

Lemma webhook_value_listed ctx f s : webhook_fields ctx !! f = Some s →
  starts_with "trigger_" f || starts_with "steps_" f = false → ("trigger_" +:+ f, EString s) ∈ webhook_values ctx.
Proof. intros Hf Hs. unfold webhook_values. rewrite list_elem_of_omap. exists (f, s). cbn [fst snd]. rewrite Hs. split; [by apply hash_iter_elem|done]. Qed.

Lemma assigned_listed vs k v : (k, v) ∈ vs → ∃ v', assigned vs k = Some v' ∧ (k, v') ∈ vs.
Proof.
  induction vs as [|[k' v'] vs IH] using rev_ind; [by rewrite elem_of_nil|]. rewrite assigned_snoc. destruct (String.eqb_spec k k') as [->|Hne].
  - intros _. exists v'. split; [done|]. apply elem_of_app. right. apply list_elem_of_here.
  - rewrite elem_of_app, list_elem_of_singleton. intros [Hin|[= ? ?]]; [|done]. destruct (IH Hin) as (v1 & H1 & H2). exists v1. split; [done|].
    apply elem_of_app. by left.
Qed.

Lemma build_eval_context_fails ctx outputs s : webhook_fields ctx !! "is_reply" = Some s → is_ok (build_eval_context ctx outputs) = false.
Proof.
  intros Hr. unfold build_eval_context. destruct (register_functions_ok new_context) as (c0 & -> & H0). cbn [mbind result_bind].
  pose proof (webhook_value_listed _ _ _ Hr eq_refl) as Hin. apply assigned_listed in Hin as (v & Hv & Hin).
  apply webhook_value_name in Hin as (f & s' & _ & -> & _).
  destruct (set_values (webhook_values ctx) c0) as [c1|] eqn:E1; [|done]. cbn [mbind result_bind].
  destruct (set_values (trigger_values ctx) c1) as [c2|] eqn:E2; [|done]. cbn [mbind result_bind].
  assert (Hg : get_value "trigger_is_reply" c2 = Some (EString s')).
  { rewrite (set_values_get _ _ _ E2), assigned_none, (set_values_get _ _ _ E1) by (unfold trigger_values; cbn [fmap list_fmap fst]; rewrite !not_elem_of_cons; by repeat split; try apply not_elem_of_nil).
    change ("trigger_" +:+ "is_reply") with "trigger_is_reply" in Hv. by rewrite Hv. }
  cbn [set_values is_reply_value]. destruct (set_value "trigger_is_reply" (EBoolean (is_reply ctx)) c2) as [c3|] eqn:E3; [|done].
  exfalso. apply mk_is_Some in E3. rewrite set_value_total in E3. specialize (E3 _ Hg). done.
Qed.

(** Webhook fields cannot replace the values of the trigger, but a field called
    [is_reply] makes every condition of the run an error. *)
Theorem context_built_exactly ctx outputs :
  plain_outputs outputs →
  is_ok (build_eval_context ctx outputs) = bool_decide (webhook_fields ctx !! "is_reply" = None).
Proof.
  intros Hp. case_bool_decide as H; [by apply build_eval_context_ok|].
  destruct (webhook_fields ctx !! "is_reply") as [s|] eqn:E; [by apply (build_eval_context_fails _ _ s)|done].
Qed.

End conditions.

(** ** Concrete instances

    Integer numbers, and contexts that are maps and evaluate the name of a
    boolean variable. *)
Definition sample_num : JsonNum := {|
  JNumber := Z; JFloat := unit; number_text := pretty; number_from := λ z, z; as_i64 := Some; as_f64 := λ _, None
|}.
Definition sample_print : JsonPrint sample_num := {| value_text := λ _, "json" |}.

Definition sample_value_type (v : @EvalValue sample_num) : ValueType := value_type v.
#[export] Instance ValueType_eq_dec : EqDecision ValueType.
Proof. solve_decision. Defined.

Definition sample_set (k : string) (v : @EvalValue sample_num) (c : gmap string (@EvalValue sample_num)) :
    option (gmap string (@EvalValue sample_num)) :=
  match c !! k with
  | Some v0 => if decide (sample_value_type v0 = sample_value_type v) then Some (<[k := v]> c) else None
  | None => Some (<[k := v]> c)
  end.

Definition sample_eval : EvalLib sample_num := {|
  EvalContext := gmap string (@EvalValue sample_num);
  new_context := ∅;
  set_function := λ _ _ c, Some c;
  set_value := sample_set;
  get_value := λ k c, c !! k;
  eval_boolean := λ e c, match c !! e with Some (EBoolean b) => Some b | _ => None end
|}.

Lemma sample_set_get k v (c c' : gmap string (@EvalValue sample_num)) : sample_set k v c = Some c' →
  ∀ k', c' !! k' = if (k' =? k)%string then Some v else c !! k'.
Proof.
  intros H k'. assert (c' = <[k := v]> c) as -> by (unfold sample_set in H; repeat case_match; by simplify_eq).
  destruct (String.eqb_spec k' k) as [->|]; [apply lookup_insert_eq|]. by apply lookup_insert_ne.
Qed.

Lemma sample_set_total k v (c : gmap string (@EvalValue sample_num)) :
  is_Some (sample_set k v c) ↔ ∀ v0, c !! k = Some v0 → sample_value_type v0 = sample_value_type v.
Proof.
  unfold sample_set. destruct (c !! k) as [v0|].
  - case_decide as Hd; split; [by intros _ v1 [= <-]|by eexists|by intros []|]. intros H. by destruct Hd, (H v0 eq_refl).
  - split; [done|by eexists].
Qed.

Lemma sample_eval_laws : EvalLaws sample_eval.
Proof. split; [intros k; apply (lookup_empty k)|by intros f g c; exists c|exact sample_set_get|exact sample_set_total]. Qed.

Definition sample_trigger : TriggerContext :=
  {| text := "P1"; author := "alice"; channel_id := "general"; timestamp := "7"; emoji := ""; message_id := "m"; is_reply := false;
     webhook_fields := {[ "text" := "spoofed" ]} |}.
Definition sample_outputs : gmap string (@JsonValue sample_num) := {[ "ask" := JObject [("sent", JBool true)] ]}.

Lemma sample_outputs_plain : plain_outputs (JN := sample_num) sample_outputs.
Proof. unfold sample_outputs. intros i m H. unfold StepOutputs in H. apply lookup_singleton_Some in H as [<- [= <-]]. split; [by repeat constructor; apply not_elem_of_nil|by repeat constructor]. Qed.

Lemma conditions_read_the_trigger_witness :
  ∃ c, build_eval_context (JP := sample_print) (EL := sample_eval) (HO := canonical_order) sample_trigger sample_outputs = Ok c ∧
    get_value "trigger_text" c = Some (EString "P1") ∧ get_value (output_var "ask" "sent") c = Some (EBoolean true).
Proof.
  assert (Hok : match build_eval_context (JP := sample_print) (EL := sample_eval) (HO := canonical_order) sample_trigger sample_outputs with
                | Ok _ => true | Err _ => false end = true) by (vm_compute; reflexivity).
  destruct (build_eval_context (JP := sample_print) (EL := sample_eval) (HO := canonical_order) sample_trigger sample_outputs) as [c|e] eqn:E.
  - pose proof (conditions_read_the_trigger (JP := sample_print) (LW := sample_eval_laws) (HO := canonical_order) sample_trigger sample_outputs c
      sample_outputs_plain E) as [H1 H2]. exists c. split; [done|]. split.
    + apply H1. unfold trigger_values. apply elem_of_app. left. apply list_elem_of_here.
    + apply (H2 "ask" [("sent", JBool true)] "sent" (JBool true)); [done|apply list_elem_of_here].
  - discriminate Hok.
Defined.

(** A webhook body that names [is_reply] leaves no condition to evaluate. *)
Example is_reply_field_breaks_conditions :
  build_eval_context (JP := sample_print) (EL := sample_eval) (HO := canonical_order)
    {| text := ""; author := ""; channel_id := ""; timestamp := ""; emoji := ""; message_id := ""; is_reply := false;
       webhook_fields := {[ "is_reply" := "true" ]} |} ∅ = Err (ConditionError "context").
Proof. vm_compute. reflexivity. Qed.
