(* ===== verification/WorkflowStore.v ===== *)
(** * The workflow tables ([crates/maju-db/src/store/workflow.rs])

    Definitions, runs, scheduled-fire claims and approvals, with the statements
    of the store as functions on the tables. Each function is one statement, so
    it is atomic. Times are microseconds of [NOW()], and ids drawn inside a
    function are arguments. The columns [granted_at] and [denied_at] of an
    approval are never read and left out. *)
From S2P Require Import Prelude Nostr Channel Membership WorkflowTemplate WorkflowDef.

(** ** Statuses *)

Inductive WorkflowStatus := Active | Disabled | Archived.
Inductive RunStatus := Pending | Running | WaitingApproval | Completed | Failed | Cancelled.
Inductive ApprovalStatus := ApprovalPending | Granted | Denied | Expired.
#[export] Instance WorkflowStatus_eq_dec : EqDecision WorkflowStatus.
Proof. solve_decision. Defined.
#[export] Instance RunStatus_eq_dec : EqDecision RunStatus.
Proof. solve_decision. Defined.
#[export] Instance ApprovalStatus_eq_dec : EqDecision ApprovalStatus.
Proof. solve_decision. Defined.

Definition workflow_status_str (s : WorkflowStatus) : string :=
  match s with Active => "active" | Disabled => "disabled" | Archived => "archived" end.
Definition workflow_status_from_str (s : string) : result DbError WorkflowStatus :=
  if (s =? "active")%string then Ok Active
  else if (s =? "disabled")%string then Ok Disabled
  else if (s =? "archived")%string then Ok Archived
  else Err (InvalidData "unknown workflow status").

Definition run_status_str (s : RunStatus) : string :=
  match s with
  | Pending => "pending" | Running => "running" | WaitingApproval => "waiting_approval"
  | Completed => "completed" | Failed => "failed" | Cancelled => "cancelled"
  end.
Definition run_status_from_str (s : string) : result DbError RunStatus :=
  if (s =? "pending")%string then Ok Pending
  else if (s =? "running")%string then Ok Running
  else if (s =? "waiting_approval")%string then Ok WaitingApproval
  else if (s =? "completed")%string then Ok Completed
  else if (s =? "failed")%string then Ok Failed
  else if (s =? "cancelled")%string then Ok Cancelled
  else Err (InvalidData "unknown run status").

Definition approval_status_str (s : ApprovalStatus) : string :=
  match s with ApprovalPending => "pending" | Granted => "granted" | Denied => "denied" | Expired => "expired" end.
Definition approval_status_from_str (s : string) : result DbError ApprovalStatus :=
  if (s =? "pending")%string then Ok ApprovalPending
  else if (s =? "granted")%string then Ok Granted
  else if (s =? "denied")%string then Ok Denied
  else if (s =? "expired")%string then Ok Expired
  else Err (InvalidData "unknown approval status").

Lemma workflow_status_round_trip s : workflow_status_from_str (workflow_status_str s) = Ok s.
Proof. by destruct s. Qed.
Lemma run_status_round_trip s : run_status_from_str (run_status_str s) = Ok s.
Proof. by destruct s. Qed.
Lemma approval_status_round_trip s : approval_status_from_str (approval_status_str s) = Ok s.
Proof. by destruct s. Qed.

Definition LIST_DEFAULT_LIMIT : Z := 100%Z.
Definition LIST_MAX_LIMIT : Z := 1000%Z.
Definition clamp (z lo hi : Z) : Z := Z.max lo (Z.min z hi).

(** [x as i32] of an index. *)
Definition as_i32 (n : nat) : Z := let z := wrap 32 (Z.of_nat n) in if (z <? 2 ^ 31)%Z then z else (z - 2 ^ 32)%Z.

(** [Sha256::digest]. *)
Class TokenDigest : Type := { token_digest : string → list Z }.

Definition hash_approval_token {TD : TokenDigest} (token : string) : list Z := token_digest token.

(** ** Rows *)

Section store.
Context {JN : JsonNum}.

Record WorkflowRecord := {
  w_id : Uuid;
  w_community : Uuid;
  w_name : string;
  owner_pubkey : Pubkey;
  w_channel : option Uuid;
  definition : JsonValue;
  definition_hash : list Z;
  w_status : WorkflowStatus;
  w_enabled : bool;
  w_created_at : Z;
  w_updated_at : Z
}.

Record WorkflowRunRecord := {
  run_id : Uuid;
  run_community : Uuid;
  workflow_id : Uuid;
  run_status : RunStatus;
  trigger_event_id : option string;
  current_step : Z;
  execution_trace : JsonValue;
  trigger_context : option JsonValue;
  started_at : option Z;
  completed_at : option Z;
  error_message : option string;
  error_code : option string;
  run_created_at : Z
}.

Record Fire := { claimed_at : Z; workflow_run_id : option Uuid }.

Record ScheduledWorkflowFireClaim := {
  c_community : Uuid;
  c_workflow : Uuid;
  c_scheduled_for : Z;
  c_claimed_at : Z
}.

Record ApprovalRecord := {
  a_token : list Z;
  a_workflow : Uuid;
  a_run : Uuid;
  a_step_id : string;
  a_step_index : Z;
  approver_spec : string;
  a_status : ApprovalStatus;
  approver_pubkey : option Pubkey;
  note : option string;
  expires_at : Z;
  a_created_at : Z
}.

Record WorkflowRunFailure := { failure_code : string; failure_message : string }.

(** Primary keys [(community_id, id)], [(community_id, id)], [(community_id,
    workflow_id, scheduled_for)] and [(community_id, token)]. *)
Record Store := {
  workflows : gmap (Uuid * Uuid) WorkflowRecord;
  workflow_runs : gmap (Uuid * Uuid) WorkflowRunRecord;
  fires : gmap (Uuid * Uuid * Z) Fire;
  approvals : gmap (Uuid * list Z) ApprovalRecord;
  archived_communities : gset Uuid;
  members : Tables
}.

Definition set_workflows (m : gmap (Uuid * Uuid) WorkflowRecord) (s : Store) : Store :=
  {| workflows := m; workflow_runs := workflow_runs s; fires := fires s; approvals := approvals s;
     archived_communities := archived_communities s; members := members s |}.
Definition set_runs (m : gmap (Uuid * Uuid) WorkflowRunRecord) (s : Store) : Store :=
  {| workflows := workflows s; workflow_runs := m; fires := fires s; approvals := approvals s;
     archived_communities := archived_communities s; members := members s |}.
Definition set_fires (m : gmap (Uuid * Uuid * Z) Fire) (s : Store) : Store :=
  {| workflows := workflows s; workflow_runs := workflow_runs s; fires := m; approvals := approvals s;
     archived_communities := archived_communities s; members := members s |}.
Definition set_approvals (m : gmap (Uuid * list Z) ApprovalRecord) (s : Store) : Store :=
  {| workflows := workflows s; workflow_runs := workflow_runs s; fires := fires s; approvals := m;
     archived_communities := archived_communities s; members := members s |}.

(** ** Definitions *)

(** An inserted row. *)
Definition new_workflow (now : Z) (c id : Uuid) (channel : option Uuid) (owner : Pubkey) (nm : string) (def : JsonValue)
    (hash : list Z) : WorkflowRecord :=
  {| w_id := id; w_community := c; w_name := nm; owner_pubkey := owner; w_channel := channel; definition := def;
     definition_hash := hash; w_status := Active; w_enabled := true; w_created_at := now; w_updated_at := now |}.

Definition create_workflow (now : Z) (c id : Uuid) (channel : option Uuid) (owner : Pubkey) (nm : string) (def : JsonValue)
    (hash : list Z) (s : Store) : result DbError Uuid * Store :=
  match workflows s !! (c, id) with
  | Some _ => (Err Sqlx, s)
  | None => (Ok id, set_workflows (<[(c, id) := new_workflow now c id channel owner nm def hash]> (workflows s)) s)
  end.

Definition redefine (now : option Z) (nm : string) (def : JsonValue) (hash : list Z) (w : WorkflowRecord) : WorkflowRecord :=
  {| w_id := w_id w; w_community := w_community w; w_name := nm; owner_pubkey := owner_pubkey w; w_channel := w_channel w;
     definition := def; definition_hash := hash; w_status := w_status w; w_enabled := w_enabled w;
     w_created_at := w_created_at w; w_updated_at := default (w_updated_at w) now |}.

Definition upsert_workflow (now : Z) (c id : Uuid) (channel : option Uuid) (owner : Pubkey) (nm : string) (def : JsonValue)
    (hash : list Z) (s : Store) : result DbError unit * Store :=
  match workflows s !! (c, id) with
  | None => (Ok tt, set_workflows (<[(c, id) := new_workflow now c id channel owner nm def hash]> (workflows s)) s)
  | Some w =>
      if bool_decide (owner_pubkey w = owner) && bool_decide (w_channel w = channel)
      then (Ok tt, set_workflows (<[(c, id) := redefine (Some now) nm def hash w]> (workflows s)) s)
      else (Err (AccessDenied "workflow belongs to a different owner or channel"), s)
  end.

Definition get_workflow (c id : Uuid) (s : Store) : result DbError WorkflowRecord :=
  match workflows s !! (c, id) with Some w => Ok w | None => Err NotFound end.

(** The rows that satisfy [p], in the given order. *)
Definition select_workflows {HO : HashOrder} (p : WorkflowRecord → bool) (key : WorkflowRecord → Z) (s : Store) :
    list WorkflowRecord := sort_by_key key (List.filter p (hash_iter (workflows s)).*2).

Definition in_channel (c ch : Uuid) (w : WorkflowRecord) : bool := (w_community w =? c)%N && bool_decide (w_channel w = Some ch).
Definition active_enabled (w : WorkflowRecord) : bool := bool_decide (w_status w = Active) && w_enabled w.

Definition list_channel_workflows {HO : HashOrder} (c ch : Uuid) (limit offset : option Z) (s : Store) : list WorkflowRecord :=
  let limit := clamp (default LIST_DEFAULT_LIMIT limit) 1 LIST_MAX_LIMIT in
  let offset := Z.max (default 0%Z offset) 0 in
  take (Z.to_nat limit) (drop (Z.to_nat offset) (select_workflows (in_channel c ch) (λ w, - w_created_at w)%Z s)).

Definition list_enabled_channel_workflows {HO : HashOrder} (c ch : Uuid) (s : Store) : list WorkflowRecord :=
  take (Z.to_nat LIST_MAX_LIMIT)
    (select_workflows (λ w, in_channel c ch w && active_enabled w) (λ w, - w_created_at w)%Z s).

(** [definition->'trigger'->>'on' = 'schedule']. *)
Definition json_get (v : JsonValue) (key : string) : option JsonValue :=
  match v with JObject m => map_get m key | _ => None end.
Definition as_str (v : JsonValue) : option string := match v with JString s => Some s | _ => None end.
Definition is_schedule_json (def : JsonValue) : bool :=
  bool_decide ((t ← json_get def "trigger"; on ← json_get t "on"; as_str on) = Some "schedule").

Definition list_all_enabled_workflows {HO : HashOrder} (s : Store) : list WorkflowRecord :=
  take (Z.to_nat LIST_MAX_LIMIT)
    (select_workflows (λ w, active_enabled w && is_schedule_json (definition w)
                            && bool_decide (w_community w ∉ archived_communities s)) w_created_at s).

Definition find_by_owner_and_name {HO : HashOrder} (c : Uuid) (owner : Pubkey) (nm : string) (s : Store) : option WorkflowRecord :=
  head (List.filter (λ w, (w_community w =? c)%N && bool_decide (owner_pubkey w = owner) && (w_name w =? nm)%string)
    (hash_iter (workflows s)).*2).

(** An [UPDATE] of one row by key. *)
Definition update_row (c id : Uuid) (f : WorkflowRecord → WorkflowRecord) (s : Store) : result DbError unit * Store :=
  match workflows s !! (c, id) with
  | Some w => (Ok tt, set_workflows (<[(c, id) := f w]> (workflows s)) s)
  | None => (Err NotFound, s)
  end.

Definition with_status (st : WorkflowStatus) (w : WorkflowRecord) : WorkflowRecord :=
  {| w_id := w_id w; w_community := w_community w; w_name := w_name w; owner_pubkey := owner_pubkey w; w_channel := w_channel w;
     definition := definition w; definition_hash := definition_hash w; w_status := st; w_enabled := w_enabled w;
     w_created_at := w_created_at w; w_updated_at := w_updated_at w |}.
Definition with_enabled (b : bool) (w : WorkflowRecord) : WorkflowRecord :=
  {| w_id := w_id w; w_community := w_community w; w_name := w_name w; owner_pubkey := owner_pubkey w; w_channel := w_channel w;
     definition := definition w; definition_hash := definition_hash w; w_status := w_status w; w_enabled := b;
     w_created_at := w_created_at w; w_updated_at := w_updated_at w |}.

Definition update_workflow (c id : Uuid) (nm : string) (def : JsonValue) (hash : list Z) : Store → result DbError unit * Store :=
  update_row c id (redefine None nm def hash).
Definition update_workflow_status (c id : Uuid) (st : WorkflowStatus) : Store → result DbError unit * Store :=
  update_row c id (with_status st).
Definition set_workflow_enabled (c id : Uuid) (b : bool) : Store → result DbError unit * Store :=
  update_row c id (with_enabled b).

Definition owned_in_channel (c ch : Uuid) (owner : Pubkey) (w : WorkflowRecord) : bool :=
  in_channel c ch w && bool_decide (owner_pubkey w = owner).

(** How many rows were enabled, and the tables after. *)
Definition disable_workflows_for_owner_in_channel (c ch : Uuid) (owner : Pubkey) (s : Store) : nat * Store :=
  (length (List.filter (λ kw, owned_in_channel c ch owner kw.2 && w_enabled kw.2) (map_to_list (workflows s))),
   set_workflows ((λ w, if owned_in_channel c ch owner w then with_enabled false w else w) <$> workflows s) s).

(** [ON DELETE CASCADE] to the runs, the claims and the approvals. *)
Definition cascade (c id : Uuid) (s : Store) : Store :=
  {| workflows := delete (c, id) (workflows s);
     workflow_runs := filter (λ kr, ¬ (kr.1.1 = c ∧ workflow_id kr.2 = id)) (workflow_runs s);
     fires := filter (λ kf, ¬ (kf.1.1 = (c, id))) (fires s);
     approvals := filter (λ ka, ¬ (ka.1.1 = c ∧ a_workflow ka.2 = id)) (approvals s);
     archived_communities := archived_communities s; members := members s |}.

Definition delete_workflow (c id : Uuid) (s : Store) : result DbError unit * Store :=
  match workflows s !! (c, id) with Some _ => (Ok tt, cascade c id s) | None => (Err NotFound, s) end.

Definition delete_workflow_for_owner (c id : Uuid) (owner : Pubkey) (s : Store) : result DbError (option Uuid) * Store :=
  match workflows s !! (c, id) with
  | Some w => if bool_decide (owner_pubkey w = owner) then (Ok (w_channel w), cascade c id s) else (Err NotFound, s)
  | None => (Err NotFound, s)
  end.

(** ** Scheduled fires *)

Definition claim_scheduled_workflow_fire (now : Z) (c id : Uuid) (scheduled_for : Z) (s : Store) :
    option ScheduledWorkflowFireClaim * Store :=
  match workflows s !! (c, id), fires s !! (c, id, scheduled_for) with
  | Some _, None =>
      (Some {| c_community := c; c_workflow := id; c_scheduled_for := scheduled_for; c_claimed_at := now |},
       set_fires (<[(c, id, scheduled_for) := {| claimed_at := now; workflow_run_id := None |}]> (fires s)) s)
  | _, _ => (None, s)
  end.

Definition latest_scheduled_workflow_fire (c id : Uuid) (s : Store) : option Z :=
  map_fold (λ k _ m, if bool_decide (k.1 = (c, id)) then Some (match m with Some m => Z.max m k.2 | None => k.2 end) else m)
    None (fires s).

Definition attach_scheduled_workflow_run (c id : Uuid) (scheduled_for : Z) (run : Uuid) (s : Store) : bool * Store :=
  match fires s !! (c, id, scheduled_for) with
  | Some f =>
      match workflow_run_id f with
      | None => (true, set_fires (<[(c, id, scheduled_for) := {| claimed_at := claimed_at f; workflow_run_id := Some run |}]> (fires s)) s)
      | Some _ => (false, s)
      end
  | None => (false, s)
  end.

(** [allowed]: the communities of [community_write_allowed]. *)
Definition prune_scheduled_workflow_fires_before (allowed : Uuid → bool) (older_than : Z) (s : Store) : Store :=
  set_fires (filter (λ kf, ¬ ((claimed_at kf.2 < older_than)%Z ∧ allowed kf.1.1.1 = true)) (fires s)) s.

(** ** Runs *)

Definition create_workflow_run (now : Z) (id c wf : Uuid) (event : option string) (ctx : option JsonValue) (s : Store) :
    result DbError Uuid * Store :=
  match workflows s !! (c, wf), workflow_runs s !! (c, id) with
  | Some _, None =>
      (Ok id, set_runs (<[(c, id) :=
        {| run_id := id; run_community := c; workflow_id := wf; run_status := Pending; trigger_event_id := event;
           current_step := 0; execution_trace := JArray []; trigger_context := ctx; started_at := None;
           completed_at := None; error_message := None; error_code := None; run_created_at := now |}]> (workflow_runs s)) s)
  | _, _ => (Err Sqlx, s)
  end.

Definition get_workflow_run (c id : Uuid) (s : Store) : result DbError WorkflowRunRecord :=
  match workflow_runs s !! (c, id) with Some r => Ok r | None => Err NotFound end.

(** [(created_at, id) < (before, before_id)]. *)
Definition before_cursor (before : option Z) (before_id : option Uuid) (r : WorkflowRunRecord) : bool :=
  match before, before_id with
  | Some b, Some i => (run_created_at r <? b)%Z || ((run_created_at r =? b)%Z && (run_id r <? i)%N)
  | _, _ => true
  end.

Definition list_workflow_runs_page {HO : HashOrder} (c wf : Uuid) (before : option Z) (before_id : option Uuid) (limit : Z)
    (s : Store) : list WorkflowRunRecord :=
  take (Z.to_nat (clamp limit 1 LIST_MAX_LIMIT))
    (sort_by_key (λ r, - run_created_at r)%Z (sort_by_key (λ r, - Z.of_N (run_id r))%Z
      (List.filter (λ r, (run_community r =? c)%N && (workflow_id r =? wf)%N && before_cursor before before_id r)
        (hash_iter (workflow_runs s)).*2))).

Definition list_workflow_runs {HO : HashOrder} (c wf : Uuid) (limit : Z) (s : Store) : list WorkflowRunRecord :=
  list_workflow_runs_page c wf None None limit s.

Definition is_terminal (st : RunStatus) : bool := match st with Completed | Failed | Cancelled => true | _ => false end.

Definition updated_run (now : Z) (st : RunStatus) (step : Z) (trace : JsonValue) (failure : option WorkflowRunFailure)
    (r : WorkflowRunRecord) : WorkflowRunRecord :=
  {| run_id := run_id r; run_community := run_community r; workflow_id := workflow_id r; run_status := st;
     trigger_event_id := trigger_event_id r; current_step := step; execution_trace := trace;
     trigger_context := trigger_context r;
     started_at := if bool_decide (st = Running) && bool_decide (started_at r = None) then Some now else started_at r;
     completed_at := if is_terminal st then Some now else completed_at r;
     error_message := failure_message <$> failure; error_code := failure_code <$> failure;
     run_created_at := run_created_at r |}.

Definition update_workflow_run (now : Z) (c id : Uuid) (st : RunStatus) (step : Z) (trace : JsonValue)
    (failure : option WorkflowRunFailure) (s : Store) : result DbError unit * Store :=
  match workflow_runs s !! (c, id) with
  | Some r => (Ok tt, set_runs (<[(c, id) := updated_run now st step trace failure r]> (workflow_runs s)) s)
  | None => (Err NotFound, s)
  end.

(** ** Approvals *)

Definition create_approval {TD : TokenDigest} (now : Z) (c : Uuid) (token : string) (wf run : Uuid) (step_id : string)
    (step_index : Z) (spec : string) (expires : Z) (s : Store) : result DbError unit * Store :=
  let token_hash := hash_approval_token token in
  match workflows s !! (c, wf), workflow_runs s !! (c, run), approvals s !! (c, token_hash) with
  | Some _, Some _, None =>
      (Ok tt, set_approvals (<[(c, token_hash) :=
        {| a_token := token_hash; a_workflow := wf; a_run := run; a_step_id := step_id; a_step_index := step_index;
           approver_spec := spec; a_status := ApprovalPending; approver_pubkey := None; note := None; expires_at := expires;
           a_created_at := now |}]> (approvals s)) s)
  | _, _, _ => (Err Sqlx, s)
  end.

Definition get_approval_by_stored_hash (c : Uuid) (token_hash : list Z) (s : Store) : result DbError ApprovalRecord :=
  match approvals s !! (c, token_hash) with Some a => Ok a | None => Err NotFound end.
Definition get_approval {TD : TokenDigest} (c : Uuid) (token : string) (s : Store) : result DbError ApprovalRecord :=
  get_approval_by_stored_hash c (hash_approval_token token) s.

Definition get_run_approvals {HO : HashOrder} (c wf run : Uuid) (s : Store) : list ApprovalRecord :=
  sort_by_key a_step_index (sort_by_key a_created_at
    (snd <$> List.filter (λ ka, (ka.1.1 =? c)%N && (a_run ka.2 =? run)%N && (a_workflow ka.2 =? wf)%N) (hash_iter (approvals s)))).

Definition decided (st : ApprovalStatus) (by_ : option Pubkey) (nt : option string) (a : ApprovalRecord) : ApprovalRecord :=
  {| a_token := a_token a; a_workflow := a_workflow a; a_run := a_run a; a_step_id := a_step_id a; a_step_index := a_step_index a;
     approver_spec := approver_spec a; a_status := st; approver_pubkey := by_; note := nt; expires_at := expires_at a;
     a_created_at := a_created_at a |}.

(** Only a pending approval is decided. *)
Definition update_approval_by_stored_hash (c : Uuid) (token_hash : list Z) (st : ApprovalStatus) (by_ : option Pubkey)
    (nt : option string) (s : Store) : bool * Store :=
  match approvals s !! (c, token_hash) with
  | Some a =>
      if bool_decide (a_status a = ApprovalPending)
      then (true, set_approvals (<[(c, token_hash) := decided st by_ nt a]> (approvals s)) s)
      else (false, s)
  | None => (false, s)
  end.
Definition update_approval {TD : TokenDigest} (c : Uuid) (token : string) (st : ApprovalStatus) (by_ : option Pubkey)
    (nt : option string) (s : Store) : bool * Store := update_approval_by_stored_hash c (hash_approval_token token) st by_ nt s.

End store.
