(* ===== verification/WorkflowRun.v ===== *)
(** * Execution of a workflow run ([crates/maju-workflow/src/executor.rs],
    [WorkflowEngine::finalize_run] of [lib.rs])

    The executor is asynchronous code that talks to the database, the community
    write fence ([maju_deletion]), the relay, web servers and timers. It is
    modelled as a program: a tree whose nodes are its requests, and sub-programs
    that [tokio::time::timeout] or the loss of the write lease may cut short
    while they wait. [run] executes a program against an environment, which
    answers the requests and cuts the sub-programs, and returns the history of
    requests and answers.

    Parameters: UUID parsing, [hex::encode] and the [url] and [reqwest] crates
    ([RunLib]). The diagnostic texts of errors are abbreviated, and the release
    that a dropped write lease spawns is not part of the program. *)
From S2P Require Import Prelude Nostr Network Membership WorkflowTemplate WorkflowDef WorkflowStore.

Class RunLib : Type := {
  parse_uuid : string → option Uuid;
  hex_encode : list Z → string;
  Url : Type;
  url_parse : string → option Url;
  host_str : Url → option string;
  port_or_known_default : Url → option Z;
  method_valid : string → bool
}.

Section program.
Context {JN : JsonNum} {EL : EvalLib JN}.

Abbreviation Lease := Uuid (only parsing).

(** ** Requests *)

Inductive ActionSinkError :=
  | InvalidInput (msg : string)
  | ChannelNotFound (channel : string)
  | ChannelArchived (channel : string)
  | EventBuild (msg : string)
  | SinkDatabase
  | EmptyContent.

(** A resolved address that [Client::resolve] pins to a host. *)
Record Pin := { pin_host : string; pin_ip : IpAddr; pin_port : Z }.

(** [ParameterizedReplacePrecondition] and [ParameterizedReplaceStatus]. *)
Inductive ReplacePrecondition := Unconditional | ExpectedRevision (event_id : list Z) | ExactReplayOnly.
Inductive ReplaceStatus := Inserted | Duplicate | Superseded | RevisionMissing | RevisionMismatch | ReplayOnlyMiss.

Inductive Req :=
  | EvalCondition (expr : string) (ctx : EvalContext)
  | TryAcquirePermit
  | AcquireWrite (community : Uuid) (operation : string)
  | VerifyWrite (lease : Lease)
  | FinishWrite (lease : Lease)
  | GetRun (community run : Uuid)
  | GetWorkflow (community workflow : Uuid)
  | UpdateRun (community run : Uuid) (st : RunStatus) (step : Z) (trace : JsonValue) (failure : option WorkflowRunFailure)
  | HasSink
  | SinkMessage (community : Uuid) (channel text authored author : string) (reply_to : option string)
  | EnvVar (var : string)
  | PostReaction (url : string) (headers : list (string * string)) (body : JsonValue)
  | ReadText
  | ResolveHost (host : string) (port : Z)
  | HttpSend (pin : Pin) (method url : string) (headers : list (string * string)) (body : option string)
  | NextChunk
  | Sleep (secs : Z)
  | NewUuid
  (* the engine *)
  | ReadClock
  | CacheGet (community channel : Uuid)
  | CachePut (community channel : Uuid) (ws : list WorkflowRecord)
  | CacheDrop (community channel : Uuid)
  | EnabledWorkflows (community channel : Uuid)
  | ScheduledWorkflows
  | MemberRoleOf (community channel : Uuid) (pk : Pubkey)
  | LatestFire (community workflow : Uuid)
  | ClaimFire (community workflow : Uuid) (scheduled_for : Z)
  | AttachRun (community workflow : Uuid) (scheduled_for : Z) (run : Uuid)
  | CreateRun (community workflow : Uuid) (event : option string) (ctx : option JsonValue)
  | SpawnRun (community run : Uuid) (d : WorkflowDef) (ctx : TriggerContext)
  | SpawnFromValue (community run : Uuid) (def_value : JsonValue) (ctx : TriggerContext)
  (* the relay's doors to it *)
  | HostCommunity (host : string)
  | IsMemberCached (community channel : Uuid) (pk : Pubkey)
  | FindWorkflow (community workflow : Uuid)
  | BeginTx
  | GuardTx (community : Uuid)
  | ReplaceEvent (community : Uuid) (event d_tag : string) (channel : option Uuid) (precondition : ReplacePrecondition)
  | InsertEvent (community : Uuid) (event : string) (channel : option Uuid)
  | CommitTx
  | ChannelForWrite (community channel : Uuid)
  | UpsertWorkflow (community workflow : Uuid) (channel : option Uuid) (owner : Pubkey) (nm def : string) (hash : list Z)
  | FindApproval (community : Uuid) (token_hash : list Z)
  | DecideApproval (community : Uuid) (token_hash : list Z) (st : ApprovalStatus) (by_ : Pubkey) (nt : option string)
  | SpawnResume (community run workflow : Uuid) (resume_index : Z)
  | SpawnCancel (community run : Uuid) (by_ : string).

Inductive EvalAnswer := EvalDone | EvalTimedOut | EvalPanicked.

(** An error whose text does not matter is [None]. *)
Definition Ans (r : Req) : Type :=
  match r with
  | EvalCondition _ _ => EvalAnswer
  | TryAcquirePermit | HasSink | VerifyWrite _ | FinishWrite _ => bool
  | AcquireWrite _ _ => option Lease
  | GetRun _ _ => option WorkflowRunRecord
  | GetWorkflow _ _ => option WorkflowRecord
  | UpdateRun _ _ _ _ _ _ => bool
  | SinkMessage _ _ _ _ _ _ => result ActionSinkError string
  | EnvVar _ => option string
  | PostReaction _ _ _ | HttpSend _ _ _ _ _ => option Z
  | ReadText => option string
  | ResolveHost _ _ => option (list IpAddr)
  | NextChunk => option (option string)
  | Sleep _ => unit
  | NewUuid => Uuid
  | ReadClock => Z
  | CacheGet _ _ | EnabledWorkflows _ _ | ScheduledWorkflows => option (list WorkflowRecord)
  | CachePut _ _ _ | CacheDrop _ _ | SpawnRun _ _ _ _ | SpawnFromValue _ _ _ _ | SpawnResume _ _ _ _ | SpawnCancel _ _ _ => unit
  | MemberRoleOf _ _ _ => option (option string)
  | LatestFire _ _ => option (option Z)
  | ClaimFire _ _ _ | IsMemberCached _ _ _ | InsertEvent _ _ _ | DecideApproval _ _ _ _ _ => option bool
  | AttachRun _ _ _ _ | BeginTx | GuardTx _ | CommitTx | ChannelForWrite _ _ => bool
  | CreateRun _ _ _ _ => option Uuid
  | HostCommunity _ => option (option Uuid)
  | FindWorkflow _ _ => option (option WorkflowRecord)
  | ReplaceEvent _ _ _ _ _ => option ReplaceStatus
  | UpsertWorkflow _ _ _ _ _ _ _ => result DbError unit
  | FindApproval _ _ => option ApprovalRecord
  end.

(** ** Programs *)

(** Who may cut a sub-program. *)
Inductive Cutter := StepTimer | LeaseLost.
#[export] Instance Cutter_eq_dec : EqDecision Cutter.
Proof. solve_decision. Defined.

(** [Within c p k]: [p] until it is done or [c] cuts it. *)
#[warnings="-register-all"]
Inductive Prog (A : Type) : Type :=
  | Ret (a : A)
  | Ask (r : Req) (k : Ans r → Prog A)
  | Within {B : Type} (c : Cutter) (p : Prog B) (k : option B → Prog A).
Arguments Ret {A} a.
Arguments Ask {A} r k.
Arguments Within {A B} c p k.

Fixpoint prog_bind {A B} (f : A → Prog B) (p : Prog A) : Prog B :=
  match p with
  | Ret a => f a
  | Ask r k => Ask r (λ a, prog_bind f (k a))
  | Within c p k => Within c p (λ o, prog_bind f (k o))
  end.
#[export] Instance prog_ret : MRet Prog := λ A a, Ret a.
#[export] Instance prog_mbind : MBind Prog := @prog_bind.

Definition ask (r : Req) : Prog (Ans r) := Ask r Ret.

(** ** Executions *)

(** The latest event first. *)
Inductive HistoryEvent :=
  | Sent (r : Req)
  | Got (r : Req) (a : Ans r)
  | CutBy (c : Cutter).
Abbreviation History := (list HistoryEvent) (only parsing).

(** What happens while the latest request waits: an answer, or a cut. *)
Record Environment := {
  answer : History → ∀ r : Req, Ans r;
  cut : History → option Cutter
}.

Inductive Outcome (A : Type) := Finished (a : A) | WasCut (c : Cutter).
Arguments Finished {A} a.
Arguments WasCut {A} c.

(** [cs]: who may cut the running sub-program; another cut does nothing. *)
Fixpoint run_in {A} (env : Environment) (cs : list Cutter) (p : Prog A) (h : History) : Outcome A * History :=
  match p with
  | Ret a => (Finished a, h)
  | Ask r k =>
      let h := Sent r :: h in
      match cut env h with
      | Some c => if bool_decide (c ∈ cs) then (WasCut c, CutBy c :: h) else
          let a := answer env h r in run_in env cs (k a) (Got r a :: h)
      | None => let a := answer env h r in run_in env cs (k a) (Got r a :: h)
      end
  | Within c p k =>
      match run_in env (c :: cs) p h with
      | (Finished b, h) => run_in env cs (k (Some b)) h
      | (WasCut c', h) => if bool_decide (c' = c) then run_in env cs (k None) h else (WasCut c', h)
      end
  end.

Definition run {A} (env : Environment) (p : Prog A) (h : History) : Outcome A * History := run_in env [] p h.

End program.

Arguments Ret {_ _ _} a.
Arguments Ask {_ _ _} r k.
Arguments Within {_ _ _ _} c p k.
Arguments Finished {_} a.
Arguments WasCut {_} c.

(** ** The executor *)

Section executor.
Context {JN : JsonNum} {JP : JsonPrint JN} {NL : NpubLib} {SL : SerdeLib JN} {EL : EvalLib JN} {HO : HashOrder}.
Context {L : NostrLib} {RL : RunLib}.

Definition webhook_error {A} (msg : string) : result WorkflowError A := Err (WebhookError msg).

(** Early return on an error. *)
Definition try_ {A B} (m : result WorkflowError A) (k : A → Prog (result WorkflowError B)) : Prog (result WorkflowError B) :=
  match m with Ok a => k a | Err e => mret (Err e) end.

Definition try_some {A B} (m : option A) (e : WorkflowError) (k : A → Prog (result WorkflowError B)) : Prog (result WorkflowError B) :=
  match m with Some a => k a | None => mret (Err e) end.

(** *** Conditions *)

Definition MAX_EXPR_LEN : nat := 4096.

Definition evaluate_condition (expr : string) (ctx : TriggerContext) (outputs : StepOutputs) : Prog (result WorkflowError bool) :=
  try_ (build_eval_context ctx outputs) (λ c,
  if (MAX_EXPR_LEN <? String.length expr)%nat then mret (Err (ConditionError "condition expression exceeds 4096 byte limit"))
  else
    done_ ← ask (EvalCondition expr c);
    match done_ with
    | EvalTimedOut => mret (Err (ConditionError "evaluation timed out"))
    | EvalPanicked => mret (Err (ConditionError "eval task panicked"))
    | EvalDone => mret (match eval_boolean expr c with Some b => Ok b | None => Err (ConditionError "evaluation") end)
    end).

(** *** Templates of a step *)

Definition resolve_opt (t : string → result WorkflowError string) (o : option string) : result WorkflowError (option string) :=
  match o with Some v => v ← t v; Ok (Some v) | None => Ok None end.

Fixpoint resolve_headers (t : string → result WorkflowError string) (kvs : list (string * string)) (out : gmap string string) :
    result WorkflowError (gmap string string) :=
  match kvs with
  | [] => Ok out
  | (k, v) :: kvs => v ← t v; resolve_headers t kvs (<[k := v]> out)
  end.

Definition resolve_step_templates (s : Step) (ctx : TriggerContext) (outputs : StepOutputs) : result WorkflowError ActionDef :=
  let t x := resolve_template x ctx outputs in
  match action s with
  | SendMessage text channel reply => text ← t text; channel ← resolve_opt t channel; Ok (SendMessage text channel reply)
  | SendDm to text => to ← t to; text ← t text; Ok (SendDm to text)
  | SetChannelTopic topic => topic ← t topic; Ok (SetChannelTopic topic)
  | AddReaction emoji => emoji ← t emoji; Ok (AddReaction emoji)
  | CallWebhook url method headers body =>
      headers ← (match headers with
                 | Some h => h ← resolve_headers t (hash_iter h) ∅; Ok (Some h)
                 | None => Ok None
                 end);
      url ← t url;
      body ← resolve_opt t body;
      Ok (CallWebhook url method headers body)
  | RequestApproval from message timeout => from ← t from; message ← t message; Ok (RequestApproval from message timeout)
  | Delay duration => Ok (Delay duration)
  end.

(** *** Messages *)

Definition nonempty (s : string) : bool := negb (s =? "")%string.

Definition resolve_send_message_channel (explicit_channel : option string) (trigger_channel : string)
    (workflow_channel : option Uuid) : result WorkflowError string :=
  let explicit := match trim <$> explicit_channel with Some v => if nonempty v then Some v else None | None => None end in
  let bad := InvalidDefinition "SendMessage: invalid channel override UUID" in
  match workflow_channel with
  | Some wc =>
      match explicit with
      | Some v =>
          match parse_uuid v with
          | None => Err bad
          | Some u => if (u =? wc)%N then Ok (uuid_to_string wc)
                      else Err (InvalidDefinition "SendMessage: channel override must match the workflow channel")
          end
      | None => Ok (uuid_to_string wc)
      end
  | None =>
      match explicit with
      | Some v => match parse_uuid v with Some u => Ok (uuid_to_string u) | None => Err bad end
      | None =>
          if (trim trigger_channel =? "")%string then Err (InvalidDefinition "SendMessage: no channel_id available")
          else Ok (trim trigger_channel)
      end
  end.

Inductive StepResult :=
  | StepCompleted (output : JsonValue)
  | StepSuspended (approval_token : string)
  | StepSkipped.

Abbreviation ActionM := (Prog (result WorkflowError StepResult)) (only parsing).

Definition send_message (s : Step) (text : string) (channel : option string) (reply_in_thread : bool) (c run : Uuid)
    (ctx : TriggerContext) : ActionM :=
  wf_run ← ask (GetRun c run);
  try_some wf_run (WebhookError "SendMessage: failed to load workflow run") (λ wf_run,
  workflow ← ask (GetWorkflow c (workflow_id wf_run));
  try_some workflow (WebhookError "SendMessage: failed to load workflow") (λ workflow,
  try_ (resolve_send_message_channel channel (channel_id ctx) (w_channel workflow)) (λ channel,
  let owner := hex_encode (owner_pubkey workflow) in
  if reply_in_thread && (message_id ctx =? "")%string
  then mret (Err (InvalidDefinition "SendMessage: reply_in_thread is set but the trigger has no message_id to reply to"))
  else
    let reply_to := if reply_in_thread then Some (message_id ctx) else None in
    match action s with
    | SendMessage authored _ _ =>
        ready ← ask HasSink;
        if negb ready then mret (Err (InvalidDefinition "action_sink not initialized"))
        else
          sent ← ask (SinkMessage c channel text authored owner reply_to);
          mret (match sent with
                | Ok event => Ok (StepCompleted (JObject [("event_id", JString event); ("sent", JBool true)]))
                | Err _ => webhook_error "action sink"
                end)
    | _ => mret (Err (InvalidDefinition "SendMessage: resolved action does not match its authored step"))
    end))).

(** *** Reactions *)

Definition is_success (status : Z) : bool := ((200 <=? status) && (status <? 300))%Z.

Definition add_reaction (message emoji : string) : Prog (result WorkflowError JsonValue) :=
  base ← ask (EnvVar "MAJU_RELAY_BASE_URL");
  let url := default "http://localhost:3000" base +:+ "/api/messages/" +:+ message +:+ "/reactions" in
  token ← ask (EnvVar "MAJU_API_TOKEN");
  auth ← (match token with
          | Some token => mret [("Authorization", "Bearer " +:+ token)]
          | None => pubkey ← ask (EnvVar "MAJU_RELAY_PUBKEY");
                    mret (match pubkey with Some pk => [("X-Pubkey", pk)] | None => [] end)
          end : Prog (list (string * string)));
  resp ← ask (PostReaction url (("Content-Type", "application/json") :: auth) (JObject [("emoji", JString emoji)]));
  try_some resp (WebhookError "AddReaction HTTP error") (λ status,
  txt ← ask ReadText;
  if negb (is_success status) then mret (webhook_error "AddReaction: relay returned an error")
  else
    let body_text := default "" txt in
    let body_json := default (JObject [("raw", JString body_text)]) (value_from_str body_text) in
    mret (Ok (JObject [("added", JBool true); ("response", body_json); ("status", JNum (number_from status))]))).

(** *** Webhooks *)

(** [String::from_utf8_lossy]: U+FFFD for each maximal invalid prefix. *)
Definition replacement : list Z := [239; 191; 189]%Z.
Definition within (lo hi b : Z) : bool := ((lo <=? b) && (b <=? hi))%Z.
(** The range of the second byte after a first byte of a three- or four-byte sequence. *)
Definition second_ok (a b : Z) : bool :=
  if (a =? 224)%Z then within 160 191 b else if (a =? 237)%Z then within 128 159 b
  else if (a =? 240)%Z then within 144 191 b else if (a =? 244)%Z then within 128 143 b else is_cont b.

Fixpoint lossy (fuel : nat) (s : list Z) : list Z :=
  match fuel, s with
  | O, _ | _, [] => []
  | S fuel, a :: s =>
      if (a <? 128)%Z then a :: lossy fuel s
      else if within 194 223 a then
        match s with
        | b :: s' => if is_cont b then a :: b :: lossy fuel s' else replacement ++ lossy fuel s
        | [] => replacement
        end
      else if within 224 239 a then
        match s with
        | b :: s' =>
            if second_ok a b then
              match s' with
              | c :: s'' => if is_cont c then a :: b :: c :: lossy fuel s'' else replacement ++ lossy fuel s'
              | [] => replacement
              end
            else replacement ++ lossy fuel s
        | [] => replacement
        end
      else if within 240 244 a then
        match s with
        | b :: s' =>
            if second_ok a b then
              match s' with
              | c :: s'' =>
                  if is_cont c then
                    match s'' with
                    | d :: s3 => if is_cont d then a :: b :: c :: d :: lossy fuel s3 else replacement ++ lossy fuel s''
                    | [] => replacement
                    end
                  else replacement ++ lossy fuel s'
              | [] => replacement
              end
            else replacement ++ lossy fuel s
        | [] => replacement
        end
      else replacement ++ lossy fuel s
  end.
Definition bytes_str (bs : list Z) : string := foldr (λ b s, String (byte_chr b) s) EmptyString bs.
Definition from_utf8_lossy (s : string) : string := let bs := str_bytes s in bytes_str (lossy (length bs) bs).

Definition check_ssrf (host : string) (port : Z) : Prog (result WorkflowError IpAddr) :=
  addrs ← ask (ResolveHost host port);
  mret (match addrs with
        | None => webhook_error "DNS resolution failed"
        | Some [] => webhook_error "DNS resolution returned no addresses"
        | Some (ip :: ips) =>
            if existsb is_private_ip (ip :: ips) then webhook_error "SSRF blocked: resolved to private/reserved address"
            else Ok ip
        end).

Definition WEBHOOK_MAX_RESPONSE_BYTES : Z := (1024 * 1024)%Z.

(** The loop on the chunks of the response. The timeout of the client makes
    waiting for a chunk an error after ten seconds; [max_chunks] have arrived
    by then. *)
Fixpoint read_body (max_chunks : nat) (body : string) : Prog (result WorkflowError string) :=
  match max_chunks with
  | O => mret (webhook_error "reading response body")
  | S max_chunks =>
      chunk ← ask NextChunk;
      match chunk with
      | None => mret (webhook_error "reading response body")
      | Some None => mret (Ok body)
      | Some (Some bytes) =>
          let body := body +:+ bytes in
          if (WEBHOOK_MAX_RESPONSE_BYTES <? Z.of_nat (String.length body))%Z
          then mret (webhook_error "response body exceeds 1048576 byte limit")
          else read_body max_chunks body
      end
  end.

(** A response; its headers and chunks are answers. *)
Definition read_response (max_chunks : nat) (status : Z) : Prog (result WorkflowError JsonValue) :=
  body ← read_body max_chunks "";
  mret (body ← body; Ok (JObject [("body", JString (from_utf8_lossy body)); ("status", JNum (number_from status))])).

Definition call_webhook (max_chunks : nat) (url method : string) (headers : option (gmap string string)) (body : option string) :
    Prog (result WorkflowError JsonValue) :=
  try_some (url_parse url) (WebhookError "invalid URL") (λ parsed_url,
  try_some (host_str parsed_url) (WebhookError "URL has no host") (λ host,
  let port := default 80%Z (port_or_known_default parsed_url) in
  safe_ip ← check_ssrf host port;
  try_ safe_ip (λ safe_ip,
  if negb (method_valid method) then mret (webhook_error "method")
  else
    let hdrs := match headers with Some h => hash_iter h | None => [] end in
    resp ← ask (HttpSend {| pin_host := host; pin_ip := safe_ip; pin_port := port |} method url hdrs body);
    try_some resp (WebhookError "request") (read_response max_chunks)))).

(** *** Actions *)

Definition MAX_DELAY_SECS : Z := 270%Z.

Definition completed {A} (f : A → JsonValue) (m : result WorkflowError A) : result WorkflowError StepResult :=
  match m with Ok a => Ok (StepCompleted (f a)) | Err e => Err e end.

(** The body of [serving_write.protect]; [s] is the authored step and [a] its
    action with the templates resolved. *)
Definition perform (max_chunks : nat) (s : Step) (a : ActionDef) (c run : Uuid) (ctx : TriggerContext) : ActionM :=
  match a with
  | SendMessage text channel reply => send_message s text channel reply c run ctx
  | SendDm _ _ => mret (Err (NotImplemented "SendDm"))
  | SetChannelTopic _ => mret (Err (NotImplemented "SetChannelTopic"))
  | AddReaction emoji =>
      if (message_id ctx =? "")%string then mret (Err (InvalidDefinition "AddReaction: no trigger.message_id available"))
      else out ← add_reaction (message_id ctx) emoji; mret (completed (λ v, v) out)
  | CallWebhook url method headers body =>
      out ← call_webhook max_chunks url (default "POST" method) headers body; mret (completed (λ v, v) out)
  | RequestApproval _ _ _ => token ← ask NewUuid; mret (Ok (StepSuspended (uuid_to_string token)))
  | Delay duration =>
      try_ (parse_duration_secs duration) (λ secs,
      if (MAX_DELAY_SECS <? secs)%Z then mret (Err (InvalidDefinition "delay exceeds maximum of 270 seconds"))
      else
        ask (Sleep secs);;
        mret (Ok (StepCompleted (JObject [("slept_secs", JNum (number_from secs))]))))
  end.

(** [ServingWriteGuard::protect]. *)
Definition protect {A} (lease : Uuid) (operation : Prog A) : Prog (option A) :=
  ok ← ask (VerifyWrite lease);
  if negb ok then mret None
  else
    Within LeaseLost operation (λ out,
      match out with
      | None => mret None
      | Some out => ok ← ask (VerifyWrite lease); mret (if (ok : bool) then Some out else None)
      end).

Definition dispatch_action (max_chunks : nat) (s : Step) (a : ActionDef) (c run : Uuid) (ctx : TriggerContext) : ActionM :=
  lease ← ask (AcquireWrite c "workflow_action");
  try_some lease (WebhookError "community write fence rejected workflow side effect") (λ lease,
  ok ← ask (VerifyWrite lease);
  if negb ok then mret (webhook_error "community write lease lost")
  else
    out ← protect lease (perform max_chunks s a c run ctx);
    try_some out (WebhookError "community write lease lost") (λ out,
    released ← ask (FinishWrite lease);
    mret (match out with
          | Ok value => if (released : bool) then Ok value else webhook_error "community write lease release failed"
          | Err e => Err e
          end))).

(** *** Runs *)

Record ExecutionResult := {
  approval_token : option string;
  x_step_index : nat;
  step_outputs : StepOutputs;
  x_trace : list JsonValue
}.

Record PartialProgress := { p_step_index : nat; p_trace : list JsonValue }.
Definition no_progress : PartialProgress := {| p_step_index := 0; p_trace := [] |}.

Abbreviation RunResult := (result (WorkflowError * PartialProgress) ExecutionResult) (only parsing).

Definition skipped_entry (s : Step) : JsonValue := JObject [("status", JString "skipped"); ("step_id", JString (s_id s))].
Definition completed_entry (s : Step) (output : JsonValue) : JsonValue :=
  JObject [("output", output); ("status", JString "completed"); ("step_id", JString (s_id s))].

Record WorkflowConfig := { max_concurrent : nat; default_timeout_secs : Z }.

(** Whether the step runs. *)
Definition step_condition (s : Step) (ctx : TriggerContext) (outputs : StepOutputs) : Prog (result WorkflowError bool) :=
  match if_expr s with
  | Some expr => evaluate_condition expr ctx outputs
  | None => mret (Ok true)
  end.

(** The loop of [execute_steps] at step [i]. *)
Fixpoint execute_from (cfg : WorkflowConfig) (max_chunks : nat) (c run : Uuid) (ctx : TriggerContext) (start i : nat) (ss : list Step)
    (outputs : StepOutputs) (trace : list JsonValue) : Prog RunResult :=
  match ss with
  | [] => mret (Ok {| approval_token := None; x_step_index := i; step_outputs := outputs; x_trace := trace |})
  | s :: ss =>
      let continue := execute_from cfg max_chunks c run ctx start (S i) ss in
      let fail (e : WorkflowError) : Prog RunResult := mret (Err (e, {| p_step_index := i; p_trace := trace |})) in
      if (i <? start)%nat then continue outputs trace
      else
        cond ← step_condition s ctx outputs;
        match cond with
        | Err e => fail e
        | Ok false => continue outputs (trace ++ [skipped_entry s])
        | Ok true =>
            match resolve_step_templates s ctx outputs with
            | Err e => fail e
            | Ok a =>
                let secs := default (default_timeout_secs cfg) (timeout_secs s) in
                Within StepTimer (dispatch_action max_chunks s a c run ctx) (λ out,
                  match out with
                  | None => fail (StepTimeout (s_id s) secs)
                  | Some (Err e) => fail e
                  | Some (Ok (StepCompleted output)) =>
                      continue (<[s_id s := output]> outputs) (trace ++ [completed_entry s output])
                  | Some (Ok (StepSuspended token)) =>
                      mret (Ok {| approval_token := Some token; x_step_index := i; step_outputs := outputs; x_trace := trace |})
                  | Some (Ok StepSkipped) => continue outputs (trace ++ [skipped_entry s])
                  end)
            end
        end
  end.

Definition execute_steps (cfg : WorkflowConfig) (max_chunks : nat) (c run : Uuid) (d : WorkflowDef) (ctx : TriggerContext)
    (start : nat) (initial : option StepOutputs) : Prog RunResult :=
  execute_from cfg max_chunks c run ctx start 0 (steps d) (default ∅ initial) [].

Definition execute_run (cfg : WorkflowConfig) (max_chunks : nat) (c run : Uuid) (d : WorkflowDef) (ctx : TriggerContext) : Prog RunResult :=
  permit ← ask TryAcquirePermit;
  if negb permit then mret (Err (CapacityExceeded, no_progress))
  else
    ok ← ask (UpdateRun c run Running 0 (JArray []) None);
    if negb ok then mret (Err (Database, no_progress))
    else execute_steps cfg max_chunks c run d ctx 0 None.

Definition execute_from_step (cfg : WorkflowConfig) (max_chunks : nat) (c run : Uuid) (d : WorkflowDef) (ctx : TriggerContext)
    (start : nat) (initial : option StepOutputs) : Prog RunResult :=
  permit ← ask TryAcquirePermit;
  if negb permit then mret (Err (CapacityExceeded, no_progress))
  else
    existing ← ask (GetRun c run);
    let existing_trace := match existing with Some r => execution_trace r | None => JArray [] end in
    ok ← ask (UpdateRun c run Running (as_i32 start) existing_trace None);
    if negb ok then mret (Err (Database, no_progress))
    else execute_steps cfg max_chunks c run d ctx start initial.

(** *** The end of a run *)

(** [Display] of an error. *)
Definition error_text (e : WorkflowError) : string :=
  match e with
  | InvalidYaml => "invalid YAML"
  | InvalidDefinition m => "invalid definition: " +:+ m
  | ConditionError m => "condition evaluation error: " +:+ m
  | TemplateError m => "template error: " +:+ m
  | StepTimeout i secs => "step '" +:+ i +:+ "' timed out after " +:+ pretty secs +:+ "s"
  | WebhookError m => "webhook error: " +:+ m
  | CapacityExceeded => "capacity exceeded"
  | Database => "database error"
  | Unauthorized => "unauthorized"
  | NotImplemented m => "action not implemented: " +:+ m
  end.

(** The status, step, trace and failure that [finalize_run] stores. *)
Definition final_update (res : RunResult) (existing_trace : option (list JsonValue)) :
    RunStatus * Z * JsonValue * option WorkflowRunFailure :=
  let prefix := default [] existing_trace in
  match res with
  | Ok x =>
      let trace := JArray (prefix ++ x_trace x) in
      match approval_token x with
      | Some _ =>
          (Failed, as_i32 (x_step_index x), trace,
           Some {| failure_code := "approval_not_supported"; failure_message := "approval gates not yet implemented" |})
      | None => (Completed, as_i32 (x_step_index x), trace, None)
      end
  | Err (e, progress) =>
      (Failed, as_i32 (p_step_index progress), JArray (prefix ++ p_trace progress),
       Some {| failure_code := code e; failure_message := error_text e |})
  end.

Definition finalize_run (c run : Uuid) (res : RunResult) (existing_trace : option (list JsonValue)) : Prog unit :=
  let '(st, step, trace, failure) := final_update res existing_trace in
  ask (UpdateRun c run st step trace failure);;
  mret tt.

(** The task that a fired trigger spawns. *)
Definition spawned_run (cfg : WorkflowConfig) (max_chunks : nat) (c run : Uuid) (d : WorkflowDef) (ctx : TriggerContext) : Prog unit :=
  res ← execute_run cfg max_chunks c run d ctx;
  finalize_run c run res None.

(** The task that a manual trigger and a webhook spawn. *)
Definition spawned_from_value (cfg : WorkflowConfig) (max_chunks : nat) (c run : Uuid) (def_value : JsonValue) (ctx : TriggerContext) : Prog unit :=
  match def_from_value def_value with
  | None =>
      ask (UpdateRun c run Failed 0 (JArray [])
        (Some {| failure_code := "invalid_definition"; failure_message := "definition parse error" |}));;
      mret tt
  | Some d =>
      res ← execute_from_step cfg max_chunks c run d ctx 0 None;
      finalize_run c run res None
  end.

End executor.
