(* ===== verification/WorkflowRunProps.v ===== *)
(** * Properties of workflow runs

    A weakest precondition for programs, sound for every environment, and what
    it shows of the executor: every side effect is the effect of a step whose
    condition held, with the templates resolved over the outputs of the steps
    before it, under a verified write lease of the community; the trace has one
    entry per finished step; and every run ends with a terminal status. *)
From S2P Require Import Prelude Nostr Network Membership WorkflowTemplate WorkflowDef WorkflowDefProps WorkflowStore WorkflowRun.

(** ** Weakest preconditions *)

Section wp.
Context {JN : JsonNum} {EL : EvalLib JN}.

(** Every answer, and every cut by one of [cs] while a request waits. *)
Fixpoint wp {A} (cs : list Cutter) (p : Prog A) (Q : A → list HistoryEvent → Prop) (X : Cutter → list HistoryEvent → Prop)
    (h : list HistoryEvent) : Prop :=
  match p with
  | Ret a => Q a h
  | Ask r k => (∀ c, c ∈ cs → X c (CutBy c :: Sent r :: h)) ∧ ∀ a, wp cs (k a) Q X (Got r a :: Sent r :: h)
  | Within c p k =>
      wp (c :: cs) p (λ b, wp cs (k (Some b)) Q X) (λ c' h, if bool_decide (c' = c) then wp cs (k None) Q X h else X c' h) h
  end.

Lemma prog_wp_mono {A} cs (p : Prog A) (Q Q' : A → list HistoryEvent → Prop) (X X' : Cutter → list HistoryEvent → Prop) h :
  (∀ a h, Q a h → Q' a h) → (∀ c h, c ∈ cs → X c h → X' c h) → wp cs p Q X h → wp cs p Q' X' h.
Proof.
  revert cs Q Q' X X' h. induction p as [A a|A r k IH|A B c p IHp k IH]; intros cs Q Q' X X' h HQ HX; cbn.
  - apply HQ.
  - intros [Hc Ha]. split; [intros c Hin; auto|]. intros a. by eapply IH.
  - apply IHp; [intros b h'; by apply IH|]. intros c' h' Hin. case_bool_decide as E; [by apply IH|]. apply HX.
    apply elem_of_cons in Hin as [->|]; done.
Qed.

Lemma prog_wp_bind {A B} cs (p : Prog A) (f : A → Prog B) Q X h :
  wp cs p (λ a, wp cs (f a) Q X) X h → wp cs (p ≫= f) Q X h.
Proof.
  unfold mbind, prog_mbind. revert B f cs Q X h. induction p as [A a|A r k IH|A C c p IHp k IH]; intros B f cs Q X h; cbn.
  - done.
  - intros [Hc Ha]. split; [done|]. intros a. by apply IH.
  - apply prog_wp_mono; [intros b h'; by apply IH|]. intros c' h' _. case_bool_decide; [by apply IH|done].
Qed.

Lemma wp_run_in {A} env cs (p : Prog A) Q X h : wp cs p Q X h →
  match run_in env cs p h with
  | (Finished a, h') => Q a h'
  | (WasCut c, h') => c ∈ cs ∧ X c h'
  end.
Proof.
  revert cs Q X h. induction p as [A a|A r k IH|A B c p IHp k IH]; intros cs Q X h; cbn; [done| |].
  - intros [Hc Ha]. destruct (cut env (Sent r :: h)) as [c|]; [case_bool_decide; [auto|]|]; by apply IH.
  - intros Hp. apply (IHp (c :: cs)) in Hp. destruct (run_in env (c :: cs) p h) as [[b|c'] h']; [by apply IH|].
    destruct Hp as [Hin Hp]. case_bool_decide as E; [by apply IH|]. by apply elem_of_cons in Hin as [->|].
Qed.

Lemma wp_true {A} cs (p : Prog A) (Q : A → list HistoryEvent → Prop) (X : Cutter → list HistoryEvent → Prop) h :
  (∀ a h, Q a h) → (∀ c h, X c h) → wp cs p Q X h.
Proof.
  revert cs Q X h. induction p as [A a|A r k IH|A B c p IHp k IH]; intros cs Q X h HQ HX; cbn; [done|split; auto|].
  apply IHp; [intros b h'; by apply IH|]. intros c' h'. case_bool_decide; [by apply IH|done].
Qed.

Lemma wp_and {A} cs (p : Prog A) (Q Q' : A → list HistoryEvent → Prop) (X X' : Cutter → list HistoryEvent → Prop) h :
  wp cs p Q X h → wp cs p Q' X' h → wp cs p (λ a h, Q a h ∧ Q' a h) (λ c h, X c h ∧ X' c h) h.
Proof.
  revert cs Q Q' X X' h. induction p as [A a|A r k IH|A B c p IHp k IH]; intros cs Q Q' X X' h; cbn; [done| |].
  - intros [H1 H2] [H3 H4]. split; auto.
  - intros H1 H2. eapply prog_wp_mono; [| |apply (IHp _ _ _ _ _ _ H1 H2)]; cbn; [intros b h' [? ?]; by apply IH|].
    intros c' h' _ [? ?]. case_bool_decide; [by apply IH|done].
Qed.

Lemma wp_cut {A} cs (p : Prog A) h : wp cs p (λ _ _, True) (λ c h', ∃ h0, h' = CutBy c :: h0) h.
Proof.
  revert cs h. induction p as [A a|A r k IH|A B c p IHp k IH]; intros cs h; cbn; [done| |].
  - split; [intros c Hc; by eexists|]. intros a. apply IH.
  - eapply prog_wp_mono; [| |apply IHp]; cbn; [intros b h' _; apply IH|]. intros c' h' _ [h0 ->]. case_bool_decide; [apply IH|by eexists].
Qed.

(** The history only grows. *)
Lemma prog_wp_later {A} cs (p : Prog A) h : wp cs p (λ _ h', h `suffix_of` h') (λ _ h', h `suffix_of` h') h.
Proof.
  revert cs h. induction p as [A a|A r k IH|A B c p IHp k IH]; intros cs h; cbn; [done| |].
  - split; [intros c Hc; by do 2 apply suffix_cons_r|]. intros a. eapply prog_wp_mono; [| |apply IH]; cbn; intros; (etrans; [|eassumption]); by do 2 apply suffix_cons_r.
  - eapply prog_wp_mono; [| |apply IHp]; cbn; [intros b h' Hs; eapply prog_wp_mono; [| |apply IH]; cbn; intros; by etrans|].
    intros c' h' _ Hs. case_bool_decide; [|done]. eapply prog_wp_mono; [| |apply IH]; cbn; intros; by etrans.
Qed.

(** At the top level nothing cuts. *)
Lemma prog_wp_run {A} env (p : Prog A) Q h : wp [] p Q (λ _ _, False) h → ∃ a h', run env p h = (Finished a, h') ∧ Q a h'.
Proof.
  intros H. apply (wp_run_in env) in H. unfold run. destruct (run_in env [] p h) as [[a|c] h']; [by exists a, h'|]. by destruct H.
Qed.

(** ** What a history says *)

(** Every request was sent after a history that satisfies [P]. *)
Fixpoint sent_ok (P : Req → list HistoryEvent → Prop) (h : list HistoryEvent) : Prop :=
  match h with
  | [] => True
  | Sent r :: h => P r h ∧ sent_ok P h
  | _ :: h => sent_ok P h
  end.

Lemma sent_ok_mono (P P' : Req → list HistoryEvent → Prop) h : (∀ r h, P r h → P' r h) → sent_ok P h → sent_ok P' h.
Proof. intros H. induction h as [|[] h IH]; cbn; naive_solver. Qed.

Lemma sent_ok_app P h1 r h2 : sent_ok P (h1 ++ Sent r :: h2) → P r h2.
Proof. induction h1 as [|[] h1 IH]; cbn; naive_solver. Qed.

(** The write lease that is held: community, lease, and whether it was verified. *)
Fixpoint fence (h : list HistoryEvent) : option (Uuid * Uuid * bool) :=
  match h with
  | [] => None
  | Got (AcquireWrite c _) l :: _ => match l with Some l => Some (c, l, false) | None => None end
  | Got (VerifyWrite l) ok :: h =>
      match fence h with
      | Some (c, l', _) => if (l =? l')%N && ok then Some (c, l', true) else None
      | None => None
      end
  | Sent (FinishWrite _) :: _ => None
  | CutBy _ :: _ => None
  | _ :: h => fence h
  end.

(** The latest condition that was evaluated. *)
Fixpoint last_condition (h : list HistoryEvent) : option (string * EvalContext) :=
  match h with
  | [] => None
  | Got (EvalCondition e c) EvalDone :: _ => Some (e, c)
  | _ :: h => last_condition h
  end.

End wp.

(** Continue with the next request or result of the program. *)
Ltac wp_step :=
  lazymatch goal with
  | |- wp _ (mbind _ _) _ _ _ => apply prog_wp_bind
  | |- wp _ (mret _) _ _ _ => cbn [wp mret prog_ret]
  | |- wp _ (Ret _) _ _ _ => cbn [wp]
  | |- wp _ (ask _) _ _ _ => cbn [wp ask]; split; [intros ? ?|intros ?]
  | |- wp _ (try_ ?m _) _ _ _ => unfold try_ at 1; let E := fresh "E" in destruct m eqn:E
  | |- wp _ (try_some ?m _ _) _ _ _ => unfold try_some at 1; let E := fresh "E" in destruct m eqn:E
  | |- wp _ (match ?m with _ => _ end) _ _ _ => let E := fresh "E" in destruct m eqn:E
  end.

(** ** Side effects *)

Section effects.
Context {JN : JsonNum} {JP : JsonPrint JN} {NL : NpubLib} {SL : SerdeLib JN} {EL : EvalLib JN} {HO : HashOrder}.
Context {L : NostrLib} {RL : RunLib}.

(** The request leaves the engine for another system, or changes the run. *)
Definition is_effect (r : Req) : bool :=
  match r with
  | SinkMessage _ _ _ _ _ _ | PostReaction _ _ _ | ResolveHost _ _ | HttpSend _ _ _ _ _ | Sleep _ | UpdateRun _ _ _ _ _ _ => true
  | _ => false
  end.

(** The workflow that the run belongs to was read, and it fixes where its
    messages go and for whom. *)
Definition message_confined (c run : Uuid) (ctx : TriggerContext) (override : option string) (channel author : string)
    (h : list HistoryEvent) : Prop :=
  ∃ r w, Got (GetRun c run) (Some r) ∈ h ∧ Got (GetWorkflow c (workflow_id r)) (Some w) ∈ h ∧
    author = hex_encode (owner_pubkey w) ∧
    resolve_send_message_channel override (channel_id ctx) (w_channel w) = Ok channel ∧
    (∀ ch, w_channel w = Some ch → channel = uuid_to_string ch).

(** The address of the connection was resolved for the host of the URL, and no
    address that was resolved is private. *)
Definition pinned_public (url : string) (pin : Pin) (h : list HistoryEvent) : Prop :=
  ∃ u ips, url_parse url = Some u ∧ host_str u = Some (pin_host pin) ∧ pin_port pin = default 80%Z (port_or_known_default u) ∧
    Got (ResolveHost (pin_host pin) (pin_port pin)) (Some ips) ∈ h ∧ head ips = Some (pin_ip pin) ∧
    Forall (λ ip, is_private_ip ip = false) ips.

(** The headers of a step with their templates resolved. *)
Definition resolved_headers (ctx : TriggerContext) (outputs : StepOutputs) (headers0 hs : option (gmap string string)) : Prop :=
  match headers0 with
  | Some kvs => ∃ out, resolve_headers (λ x, resolve_template x ctx outputs) (hash_iter kvs) ∅ = Ok out ∧ hs = Some out
  | None => hs = None
  end.

(** The effects that step [s] may have, with its templates resolved over [outputs]. *)
Definition step_effect (c run : Uuid) (ctx : TriggerContext) (s : Step) (outputs : StepOutputs) (h : list HistoryEvent) (r : Req) : Prop :=
  match r, action s with
  | SinkMessage c' channel text authored author reply_to, SendMessage text0 channel0 reply =>
      c' = c ∧ authored = text0 ∧ resolve_template text0 ctx outputs = Ok text ∧
      reply_to = (if reply then Some (message_id ctx) else None) ∧ (reply = true → message_id ctx ≠ "") ∧
      ∃ override, resolve_opt (λ x, resolve_template x ctx outputs) channel0 = Ok override ∧
        message_confined c run ctx override channel author h
  | PostReaction url _ body, AddReaction emoji0 =>
      message_id ctx ≠ "" ∧
      (∃ base, Got (EnvVar "MAJU_RELAY_BASE_URL") base ∈ h ∧
         url = default "http://localhost:3000" base +:+ "/api/messages/" +:+ message_id ctx +:+ "/reactions") ∧
      ∃ emoji, resolve_template emoji0 ctx outputs = Ok emoji ∧ body = JObject [("emoji", JString emoji)]
  | ResolveHost host port, CallWebhook url0 _ _ _ =>
      ∃ url u, resolve_template url0 ctx outputs = Ok url ∧ url_parse url = Some u ∧ host_str u = Some host
  | HttpSend pin method url headers body, CallWebhook url0 method0 headers0 body0 =>
      resolve_template url0 ctx outputs = Ok url ∧ method = default "POST" method0 ∧
      (∃ hs, resolved_headers ctx outputs headers0 hs ∧ headers = match hs with Some hs => hash_iter hs | None => [] end) ∧
      resolve_opt (λ x, resolve_template x ctx outputs) body0 = Ok body ∧ pinned_public url pin h
  | Sleep secs, Delay duration => parse_duration_secs duration = Ok secs ∧ (secs ≤ 270)%Z
  | _, _ => False
  end.

(** The community's write lease was verified, and the condition of the step
    held when it was evaluated. *)
Definition permitted (c : Uuid) (ctx : TriggerContext) (s : Step) (outputs : StepOutputs) (h : list HistoryEvent) : Prop :=
  (∃ l, fence h = Some (c, l, true)) ∧
  ∀ e, if_expr s = Some e → ∃ ec, last_condition h = Some (e, ec) ∧ build_eval_context ctx outputs = Ok ec ∧
    eval_boolean e ec = Some true.

(** The effect that is the point of a step: not the resolution of a host. *)
Definition is_act (r : Req) : bool := match r with ResolveHost _ _ | UpdateRun _ _ _ _ _ _ => false | _ => is_effect r end.
Fixpoint count_acts (h : list HistoryEvent) : nat :=
  match h with
  | [] => 0
  | Sent r :: h => if is_act r then S (count_acts h) else count_acts h
  | _ :: h => count_acts h
  end.

(** [n] acts came before the step. *)
Definition effect_ok (c run : Uuid) (ctx : TriggerContext) (s : Step) (outputs : StepOutputs) (n : nat) (r : Req)
    (h : list HistoryEvent) : Prop :=
  is_effect r = true →
  permitted c ctx s outputs h ∧ (is_act r = true → count_acts h = n) ∧ step_effect c run ctx s outputs h r.

(** The value of the condition of a step. *)
Definition condition_value (ctx : TriggerContext) (s : Step) (outputs : StepOutputs) (b : bool) : Prop :=
  match if_expr s with
  | None => b = true
  | Some e => ∃ ec, build_eval_context ctx outputs = Ok ec ∧ eval_boolean e ec = Some b
  end.

(** *** What the answers say of a step *)

(** [n] chunks of a response were read after [h0]. *)
Inductive chunks_read (h0 : list HistoryEvent) : nat → string → list HistoryEvent → Prop :=
  | no_chunks : chunks_read h0 0 "" h0
  | more_chunks n body bytes h : chunks_read h0 n body h →
      chunks_read h0 (S n) (body +:+ bytes) (Got NextChunk (Some (Some bytes)) :: Sent NextChunk :: h).

(** The step's act was sent after [h0], and the answers up to [h] make the output. *)
Inductive yields (s : Step) (h0 : list HistoryEvent) : JsonValue → list HistoryEvent → Prop :=
  | yields_message t ch0 reply c ch text authored author re event :
      action s = SendMessage t ch0 reply → let r := SinkMessage c ch text authored author re in
      yields s h0 (JObject [("event_id", JString event); ("sent", JBool true)]) (Got r (Ok event) :: Sent r :: h0)
  | yields_reaction e url headers body status txt :
      action s = AddReaction e → is_success status = true → let r := PostReaction url headers body in let t := default "" txt in
      yields s h0 (JObject [("added", JBool true); ("response", default (JObject [("raw", JString t)]) (value_from_str t)); ("status", JNum (number_from status))])
        (Got ReadText txt :: Sent ReadText :: Got r (Some status) :: Sent r :: h0)
  | yields_response u m hs b pin method url headers body status n answer h :
      action s = CallWebhook u m hs b → let r := HttpSend pin method url headers body in
      chunks_read (Got r (Some status) :: Sent r :: h0) n answer h →
      yields s h0 (JObject [("body", JString (from_utf8_lossy answer)); ("status", JNum (number_from status))])
        (Got NextChunk (Some None) :: Sent NextChunk :: h)
  | yields_delay d secs :
      action s = Delay d → parse_duration_secs d = Ok secs →
      yields s h0 (JObject [("slept_secs", JNum (number_from secs))]) (Got (Sleep secs) tt :: Sent (Sleep secs) :: h0).

(** Why the action of a step failed, by the latest answers. *)
Inductive action_fails (max_chunks : nat) (ctx : TriggerContext) (s : Step) (outputs : StepOutputs) : WorkflowError → list HistoryEvent → Prop :=
  | message_no_run t ch reply c r m h : action s = SendMessage t ch reply →
      action_fails max_chunks ctx s outputs (WebhookError m) (Got (GetRun c r) None :: h)
  | message_no_workflow t ch reply c w m h : action s = SendMessage t ch reply →
      action_fails max_chunks ctx s outputs (WebhookError m) (Got (GetWorkflow c w) None :: h)
  | message_bad_channel t ch reply override c wid w e h : action s = SendMessage t ch reply →
      resolve_opt (λ x, resolve_template x ctx outputs) ch = Ok override →
      resolve_send_message_channel override (channel_id ctx) (w_channel w) = Err e →
      action_fails max_chunks ctx s outputs e (Got (GetWorkflow c wid) (Some w) :: h)
  | message_no_thread t ch m h : action s = SendMessage t ch true → message_id ctx = "" →
      action_fails max_chunks ctx s outputs (InvalidDefinition m) h
  | message_no_sink t ch reply m h : action s = SendMessage t ch reply →
      action_fails max_chunks ctx s outputs (InvalidDefinition m) (Got HasSink false :: h)
  | message_refused t ch0 reply c ch text authored author re e m h : action s = SendMessage t ch0 reply →
      action_fails max_chunks ctx s outputs (WebhookError m) (Got (SinkMessage c ch text authored author re) (Err e) :: h)
  | dm_unsupported to t m h : action s = SendDm to t → action_fails max_chunks ctx s outputs (NotImplemented m) h
  | topic_unsupported t m h : action s = SetChannelTopic t → action_fails max_chunks ctx s outputs (NotImplemented m) h
  | reaction_no_message e m h : action s = AddReaction e → message_id ctx = "" →
      action_fails max_chunks ctx s outputs (InvalidDefinition m) h
  | reaction_no_response e url headers body m h : action s = AddReaction e →
      action_fails max_chunks ctx s outputs (WebhookError m) (Got (PostReaction url headers body) None :: h)
  | reaction_refused e url headers body status txt m h : action s = AddReaction e → is_success status = false →
      action_fails max_chunks ctx s outputs (WebhookError m)
        (Got ReadText txt :: Sent ReadText :: Got (PostReaction url headers body) (Some status) :: h)
  | webhook_bad_url u mt hs b url m h : action s = CallWebhook u mt hs b → resolve_template u ctx outputs = Ok url →
      (url_parse url ≫= host_str) = None → action_fails max_chunks ctx s outputs (WebhookError m) h
  | webhook_no_address u mt hs b host port ips m h : action s = CallWebhook u mt hs b → default [] ips = [] →
      action_fails max_chunks ctx s outputs (WebhookError m) (Got (ResolveHost host port) ips :: h)
  | webhook_private u mt hs b host port ips m h : action s = CallWebhook u mt hs b → existsb is_private_ip ips = true →
      action_fails max_chunks ctx s outputs (WebhookError m) (Got (ResolveHost host port) (Some ips) :: h)
  | webhook_bad_method u mt hs b m h : action s = CallWebhook u mt hs b → method_valid (default "POST" mt) = false →
      action_fails max_chunks ctx s outputs (WebhookError m) h
  | webhook_no_response u mt hs b pin method url headers body m h : action s = CallWebhook u mt hs b →
      action_fails max_chunks ctx s outputs (WebhookError m) (Got (HttpSend pin method url headers body) None :: h)
  | webhook_broken_body u mt hs b m h : action s = CallWebhook u mt hs b →
      action_fails max_chunks ctx s outputs (WebhookError m) (Got NextChunk None :: h)
  | webhook_slow_body u mt hs b h0 body m h : action s = CallWebhook u mt hs b → chunks_read h0 max_chunks body h →
      action_fails max_chunks ctx s outputs (WebhookError m) h
  | webhook_big_body u mt hs b h0 n body m h : action s = CallWebhook u mt hs b → chunks_read h0 n body h →
      (WEBHOOK_MAX_RESPONSE_BYTES < Z.of_nat (String.length body))%Z → action_fails max_chunks ctx s outputs (WebhookError m) h
  | delay_malformed d e h : action s = Delay d → parse_duration_secs d = Err e → action_fails max_chunks ctx s outputs e h
  | delay_too_long d secs m h : action s = Delay d → parse_duration_secs d = Ok secs → (270 < secs)%Z →
      action_fails max_chunks ctx s outputs (InvalidDefinition m) h.

(** Why a step failed. *)
Inductive step_fails (cfg : WorkflowConfig) (max_chunks : nat) (ctx : TriggerContext) (s : Step) (outputs : StepOutputs) :
    WorkflowError → list HistoryEvent → Prop :=
  | condition_no_context ex e h : if_expr s = Some ex → build_eval_context ctx outputs = Err e →
      step_fails cfg max_chunks ctx s outputs e h
  | condition_too_long ex m h : if_expr s = Some ex → (MAX_EXPR_LEN < String.length ex)%nat →
      step_fails cfg max_chunks ctx s outputs (ConditionError m) h
  | condition_no_value ex ec a m h : if_expr s = Some ex → build_eval_context ctx outputs = Ok ec →
      a ≠ EvalDone ∨ eval_boolean ex ec = None →
      step_fails cfg max_chunks ctx s outputs (ConditionError m) (Got (EvalCondition ex ec) a :: h)
  | template_unresolved e h : condition_value ctx s outputs true → resolve_step_templates s ctx outputs = Err e →
      step_fails cfg max_chunks ctx s outputs e h
  | timer_expired h :
      step_fails cfg max_chunks ctx s outputs (StepTimeout (s_id s) (default (default_timeout_secs cfg) (timeout_secs s)))
        (CutBy StepTimer :: h)
  | lease_refused c op m h : step_fails cfg max_chunks ctx s outputs (WebhookError m) (Got (AcquireWrite c op) None :: h)
  | lease_unverified l m h : step_fails cfg max_chunks ctx s outputs (WebhookError m) (Got (VerifyWrite l) false :: h)
  | lease_lost m h : step_fails cfg max_chunks ctx s outputs (WebhookError m) (CutBy LeaseLost :: h)
  | lease_unreleased l m h : step_fails cfg max_chunks ctx s outputs (WebhookError m) (Got (FinishWrite l) false :: h)
  | action_failed l ok e h : action_fails max_chunks ctx s outputs e h →
      step_fails cfg max_chunks ctx s outputs e (Got (FinishWrite l) ok :: Sent (FinishWrite l) :: Got (VerifyWrite l) true :: Sent (VerifyWrite l) :: h).

(** *** Each action *)

Section action.
Context (c run : Uuid) (ctx : TriggerContext) (s : Step) (outputs : StepOutputs) (n0 : nat)
  (P : Req → list HistoryEvent → Prop).
Hypothesis effect_P : ∀ r h, effect_ok c run ctx s outputs n0 r h → P r h.

Definition ready (h : list HistoryEvent) : Prop := permitted c ctx s outputs h ∧ count_acts h = n0.

Lemma ready_P r h : ready h → step_effect c run ctx s outputs h r → P r h.
Proof. intros [Hp Hn] He. by apply effect_P. Qed.

Lemma quiet_P r h : is_effect r = false → P r h.
Proof. intros E. apply effect_P. intros E'. by rewrite E in E'. Qed.

(** A program that keeps [P]. *)
Definition keeps {A} (cs : list Cutter) (p : Prog A) (h : list HistoryEvent) : Prop :=
  wp cs p (λ _ h', sent_ok P h') (λ _ h', sent_ok P h') h.

Ltac quiet := repeat match goal with |- _ ∧ _ => split | |- P _ _ => apply quiet_P; reflexivity | _ => done end.

Lemma resolve_bound o t ch channel : resolve_send_message_channel o t (Some ch) = Ok channel → channel = uuid_to_string ch.
Proof.
  unfold resolve_send_message_channel. destruct (match trim <$> o with Some v => _ | None => None end) as [v|]; [|naive_solver].
  destruct (parse_uuid v) as [u|]; [destruct (u =? ch)%N|]; naive_solver.
Qed.

Lemma send_message_keeps cs text channel reply override h :
  action s = SendMessage text channel reply →
  resolve_opt (λ x, resolve_template x ctx outputs) channel = Ok override →
  ready h → sent_ok P h → ∀ text', resolve_template text ctx outputs = Ok text' →
  keeps cs (send_message s text' override reply c run ctx) h.
Proof.
  intros Ha Ho Hp Hs text' Ht. unfold keeps, send_message. wp_step. wp_step; [cbn; quiet|].
  wp_step; [rename w into r; subst|wp_step; cbn; quiet]. wp_step. wp_step; [cbn; quiet|].
  wp_step; [subst|wp_step; cbn; quiet]. wp_step; [rename a into ch|wp_step; cbn; quiet].
  destruct (reply && (message_id ctx =? "")%string) eqn:Er; [wp_step; cbn; quiet|].
  rewrite Ha. wp_step. wp_step; [cbn; quiet|]. destruct a; cbn [negb]; [|wp_step; cbn; quiet]. wp_step.
  match goal with |- wp _ (ask ?r) _ _ ?h => assert (HP : P r h) end.
  { apply ready_P; [exact Hp|]. cbn. rewrite Ha. split_and!; try done.
    - intros ->. apply andb_false_iff in Er as [|Er]; [done|]. by apply String.eqb_neq in Er.
    - exists override. split; [done|]. exists r, w. split_and!; try done.
      + set_solver.
      + set_solver.
      + intros ch' Hch. match goal with H : resolve_send_message_channel _ _ _ = Ok _ |- _ => rewrite Hch in H; by apply resolve_bound in H end. }
  wp_step; [cbn; quiet|]. wp_step. cbn. quiet.
Qed.

Lemma add_reaction_keeps cs emoji emoji' h :
  action s = AddReaction emoji → resolve_template emoji ctx outputs = Ok emoji' → message_id ctx ≠ "" →
  ready h → sent_ok P h → keeps cs (add_reaction (message_id ctx) emoji') h.
Proof.
  intros Ha He Hm Hp Hs. unfold keeps, add_reaction.
  wp_step. wp_step; [cbn; quiet|]. wp_step. wp_step; [cbn; quiet|]. wp_step.
  match goal with base : Ans (EnvVar "MAJU_RELAY_BASE_URL") |- _ =>
    apply prog_wp_mono with (Q := λ auth h', sent_ok P h' ∧ ready h' ∧ Got (EnvVar "MAJU_RELAY_BASE_URL") base ∈ h') (X := λ _ h', sent_ok P h') end.
  2: done.
  { intros auth h' (Hs' & Hp' & Hb). wp_step.
    match goal with |- wp _ (ask ?r) _ _ ?h => assert (HP : P r h) end.
    { apply ready_P; [exact Hp'|]. cbn. rewrite Ha. split; [done|]. split; [eexists; split; [exact Hb|done]|]. by exists emoji'. }
    wp_step; [cbn; quiet|]. wp_step; [|wp_step; cbn; quiet]. wp_step. wp_step; [cbn; quiet|].
    destruct (is_success _); cbn [negb]; wp_step; cbn; quiet. }
  match goal with |- wp _ (match ?t with _ => _ end) _ _ _ => destruct t end.
  { wp_step. cbn. quiet. set_solver. }
  wp_step. wp_step; [cbn; quiet|]. wp_step. cbn. quiet. set_solver.
Qed.

Lemma read_body_keeps cs n body h : sent_ok P h → keeps cs (read_body n body) h.
Proof.
  unfold keeps. revert body h. induction n as [|n IH]; intros body h Hs; cbn [read_body]; [wp_step; cbn; quiet|].
  wp_step. wp_step; [cbn; quiet|]. match goal with a : Ans NextChunk |- _ => destruct a as [[bytes|]|] end; try (wp_step; cbn; quiet).
  apply IH. cbn. quiet.
Qed.

Lemma forallb_not_private ips : existsb is_private_ip ips = false → Forall (λ ip, is_private_ip ip = false) ips.
Proof. induction ips as [|ip ips IH]; cbn; [constructor|]. rewrite orb_false_iff. intros []. constructor; auto. Qed.

Lemma call_webhook_keeps cs n url method headers headers0 body body' url' h :
  action s = CallWebhook url method headers0 body → resolve_template url ctx outputs = Ok url' →
  resolved_headers ctx outputs headers0 headers →
  resolve_opt (λ x, resolve_template x ctx outputs) body = Ok body' →
  ready h → sent_ok P h → keeps cs (call_webhook n url' (default "POST" method) headers body') h.
Proof.
  intros Ha Hu Hd Hb Hp Hs. unfold keeps, call_webhook.
  wp_step; [|wp_step; cbn; quiet]. wp_step; [|wp_step; cbn; quiet]. wp_step. unfold check_ssrf. wp_step.
  match goal with |- wp _ (ask ?r) _ _ ?h => assert (HP : P r h) end.
  { apply ready_P; [exact Hp|]. cbn. rewrite Ha. by eexists _, _. }
  wp_step; [cbn; quiet|]. wp_step.
  match goal with |- wp _ (try_ ?m _) _ _ _ => destruct m as [ip|e] eqn:Em end; [|cbn; quiet]. cbn [try_].
  match type of Em with match ?a with _ => _ end = _ => destruct a as [[|ip' ips]|] eqn:Ea; try discriminate Em end.
  destruct (existsb is_private_ip (ip' :: ips)) eqn:Ex; [discriminate Em|]. injection Em as ->. subst.
  destruct (method_valid _); cbn [negb]; [|wp_step; cbn; quiet]. wp_step.
  match goal with |- wp _ (ask ?r) _ _ ?h => assert (HP' : P r h) end.
  { apply ready_P; [exact Hp|]. cbn. rewrite Ha. split_and!; try done; [by exists headers|].
    eexists _, (ip :: ips). cbn [pin_host pin_port pin_ip]. split_and!; try done; [set_solver|by apply forallb_not_private]. }
  wp_step; [cbn; quiet|]. wp_step; [|wp_step; cbn; quiet]. unfold read_response. wp_step.
  eapply prog_wp_mono; [| |apply read_body_keeps; cbn; quiet]; [|done]. intros b h' Hs'. wp_step. exact Hs'.
Qed.

Lemma delay_keeps cs duration h : action s = Delay duration → ready h → sent_ok P h → ∀ n, keeps cs (perform n s (Delay duration) c run ctx) h.
Proof.
  intros Ha Hp Hs n. unfold keeps, perform. wp_step; [|wp_step; cbn; quiet].
  destruct (Z.ltb_spec MAX_DELAY_SECS a) as [|Hle]; [wp_step; cbn; quiet|]. unfold MAX_DELAY_SECS in Hle. wp_step.
  match goal with |- wp _ (ask ?r) _ _ ?h => assert (HP : P r h) end.
  { apply ready_P; [exact Hp|]. cbn. rewrite Ha. split; [done|lia]. }
  wp_step; [cbn; quiet|]. wp_step. cbn. quiet.
Qed.

Lemma headers_resolved headers0 headers :
  match headers0 with
  | Some h => out ← resolve_headers (λ x, resolve_template x ctx outputs) (hash_iter h) ∅; Ok (Some out)
  | None => Ok None
  end = Ok headers → resolved_headers ctx outputs headers0 headers.
Proof. destruct headers0 as [kvs|]; cbn; [|by intros [= <-]]. intros (out & Ho & [= <-])%bind_ok. by exists out. Qed.

Lemma perform_keeps cs n a h :
  resolve_step_templates s ctx outputs = Ok a → ready h → sent_ok P h → keeps cs (perform n s a c run ctx) h.
Proof.
  unfold resolve_step_templates. intros Ha Hp Hs. destruct (action s) eqn:Es.
  - apply bind_ok in Ha as (text' & Ht & Ha). apply bind_ok in Ha as (ov & Ho & [= <-]). by eapply send_message_keeps.
  - apply bind_ok in Ha as (? & _ & Ha). apply bind_ok in Ha as (? & _ & [= <-]). unfold keeps. cbn. done.
  - apply bind_ok in Ha as (? & _ & [= <-]). unfold keeps. cbn. done.
  - apply bind_ok in Ha as (emoji' & He & [= <-]). unfold keeps, perform.
    destruct (message_id ctx =? "")%string eqn:Em; [done|]. apply String.eqb_neq in Em. wp_step.
    eapply prog_wp_mono; [| |by eapply add_reaction_keeps]; [|done]. intros b h' Hs'. wp_step. exact Hs'.
  - apply bind_ok in Ha as (hd & Hd%headers_resolved & Ha). apply bind_ok in Ha as (url' & Hu & Ha). apply bind_ok in Ha as (body' & Hb & [= <-]).
    unfold keeps, perform. wp_step. eapply prog_wp_mono; [| |by eapply call_webhook_keeps]; [|done]. intros b h' Hs'. wp_step. exact Hs'.
  - apply bind_ok in Ha as (? & _ & Ha). apply bind_ok in Ha as (? & _ & [= <-]). unfold keeps, perform. wp_step. wp_step; [cbn; quiet|]. wp_step. cbn. quiet.
  - injection Ha as <-. by apply delay_keeps.
Qed.

(** The condition holds before the lease is taken. *)
Definition condition_held (h : list HistoryEvent) : Prop :=
  ∀ e, if_expr s = Some e → ∃ ec, last_condition h = Some (e, ec) ∧ build_eval_context ctx outputs = Ok ec ∧ eval_boolean e ec = Some true.

Lemma dispatch_action_keeps cs n a h :
  resolve_step_templates s ctx outputs = Ok a → condition_held h → count_acts h = n0 → sent_ok P h → keeps cs (dispatch_action n s a c run ctx) h.
Proof.
  intros Ha Hc Hn Hs. unfold keeps, dispatch_action. wp_step. wp_step; [cbn; quiet|]. wp_step; [match goal with E : ?a = Some _ |- _ => subst a end|wp_step; cbn; quiet].
  wp_step. wp_step; [cbn; quiet|]. match goal with a : Ans (VerifyWrite _) |- _ => destruct a end; cbn [negb]; [|wp_step; cbn; quiet].
  wp_step. unfold protect. wp_step. wp_step; [cbn; quiet|].
  match goal with a : Ans (VerifyWrite _) |- _ => destruct a end; cbn [negb]; [|wp_step; cbn; quiet].
  cbn [wp]. eapply prog_wp_mono; [| |apply perform_keeps; [exact Ha| |cbn; quiet]].
  - intros out h' Hs'. wp_step. wp_step; [cbn; quiet|].
    match goal with a : Ans (VerifyWrite _) |- _ => destruct a end; cbn; [|quiet]. split; [intros; quiet|]. intros fin. destruct out; cbn; quiet.
  - intros c' h' _ Hs'. case_bool_decide; cbn; done.
  - split; [split; [|exact Hc]|exact Hn]. eexists. cbn. rewrite N.eqb_refl. cbn. by rewrite N.eqb_refl.
Qed.

End action.
(** *** What a step reports *)

Section told.
Context (cfg : WorkflowConfig) (max_chunks : nat) (c run : Uuid) (ctx : TriggerContext) (s : Step) (outputs : StepOutputs) (n0 : nat).

(** The result of the action agrees with the answers. *)
Definition performed (res : result WorkflowError StepResult) (h : list HistoryEvent) : Prop :=
  match res with
  | Ok (StepCompleted out) => ∃ h0, yields s h0 out h ∧ count_acts h0 = n0
  | Ok _ => True
  | Err e => action_fails max_chunks ctx s outputs e h
  end.

(** The result of the step agrees with the answers. *)
Definition told (res : result WorkflowError StepResult) (h : list HistoryEvent) : Prop :=
  match res with
  | Ok (StepCompleted out) => ∃ h0 h1, h1 `suffix_of` h ∧ yields s h0 out h1 ∧ count_acts h0 = n0
  | Ok _ => True
  | Err e => step_fails cfg max_chunks ctx s outputs e h
  end.

(** A program whose result agrees with the answers. *)
Definition reports (cs : list Cutter) (p : Prog (result WorkflowError StepResult)) (h : list HistoryEvent) : Prop :=
  wp cs p performed (λ _ _, True) h.

Ltac told := repeat first [wp_step | progress (cbn [negb]) | progress cbv zeta | done].

Lemma send_message_reports cs text text' channel override reply h :
  action s = SendMessage text channel reply → resolve_opt (λ x, resolve_template x ctx outputs) channel = Ok override →
  count_acts h = n0 → reports cs (send_message s text' override reply c run ctx) h.
Proof.
  intros Ha Ho Hn. unfold reports, send_message. rewrite Ha.
  told; subst; cbn [performed].
  all: try (by econstructor).
  all: try (match goal with E : _ && _ = true |- _ => apply andb_true_iff in E as [-> E]; apply String.eqb_eq in E; by eapply message_no_thread end).
  all: try (match goal with E : negb _ = true |- _ => apply negb_true_iff in E; subst; by econstructor end).
  match goal with a : Ans (SinkMessage _ _ _ _ _ _) |- _ => destruct a end; cbn; [eexists; split; [by econstructor|done]|by econstructor].
Qed.

Lemma add_reaction_reports cs emoji emoji' h :
  action s = AddReaction emoji → count_acts h = n0 →
  wp cs (add_reaction (message_id ctx) emoji') (λ out, performed (completed (λ v, v) out)) (λ _ _, True) h.
Proof.
  intros Ha Hn. unfold add_reaction. wp_step. wp_step; [done|]. wp_step. wp_step; [done|]. wp_step.
  eapply prog_wp_mono with (Q := λ _ h', count_acts h' = n0) (X := λ _ _, True); [|done|].
  - intros auth h' Hn'. told; subst; cbn [performed completed]; [by eapply reaction_refused; [|by apply negb_true_iff]| |by eapply reaction_no_response].
    eexists. split; [|done]. eapply yields_reaction; [done|]. by apply negb_false_iff.
  - told; done.
Qed.

Lemma read_body_reports cs url method headers0 body0 h0 n : 
  action s = CallWebhook url method headers0 body0 → ∀ k body h, chunks_read h0 k body h → (k + n = max_chunks)%nat →
  wp cs (read_body n body) (λ b h', match b with
    | Ok b => ∃ k h1, chunks_read h0 k b h1 ∧ h' = Got NextChunk (Some None) :: Sent NextChunk :: h1
    | Err e => action_fails max_chunks ctx s outputs e h' end) (λ _ _, True) h.
Proof.
  intros Ha. induction n as [|n IH]; intros k body h Hc Hk; cbn [read_body].
  - wp_step. rewrite Nat.add_0_r in Hk. subst. by eapply webhook_slow_body.
  - wp_step. wp_step; [done|]. wp_step.
    + wp_step. 2: { wp_step. subst. by eexists _, _. }
      subst. cbv zeta. apply (more_chunks _ _ _ s0) in Hc. destruct (Z.ltb_spec WEBHOOK_MAX_RESPONSE_BYTES (Z.of_nat (String.length (body +:+ s0)))).
      * wp_step. by eapply webhook_big_body.
      * eapply IH; [exact Hc|lia].
    + wp_step. subst. by eapply webhook_broken_body.
Qed.

Lemma call_webhook_reports cs url url' method headers0 headers body0 body h :
  action s = CallWebhook url method headers0 body0 → resolve_template url ctx outputs = Ok url' → count_acts h = n0 →
  wp cs (call_webhook max_chunks url' (default "POST" method) headers body) (λ out, performed (completed (λ v, v) out)) (λ _ _, True) h.
Proof.
  intros Ha Hu Hn. unfold call_webhook, check_ssrf.
  wp_step; [|cbn; eapply webhook_bad_url; [done|done|by rewrite E]].
  wp_step; [|cbn; eapply webhook_bad_url; [done|done|by rewrite E]]. wp_step. wp_step. wp_step; [done|]. wp_step.
  unfold try_. match goal with a : Ans (ResolveHost _ _) |- _ => destruct a as [[|ip ips]|] end; cbn [webhook_error].
  1,3: cbn; by eapply webhook_no_address.
  destruct (existsb is_private_ip (ip :: ips)) eqn:Ex; [cbn; by eapply webhook_private|].
  destruct (method_valid _) eqn:Em; cbn [negb]; [|cbn; by eapply webhook_bad_method].
  wp_step. wp_step; [done|]. wp_step; [|subst; cbn; by eapply webhook_no_response]. subst.
  unfold read_response. wp_step. eapply prog_wp_mono; [| |eapply (read_body_reports _ _ _ _ _ _ _ Ha 0); [constructor|done]]; [|done].
  intros b h' Hb. wp_step. destruct b as [b|e]; cbn; [|exact Hb]. destruct Hb as (k & h1 & Hc & ->).
  eexists. split; [by eapply yields_response|done].
Qed.

Lemma perform_reports cs a h :
  resolve_step_templates s ctx outputs = Ok a → count_acts h = n0 → reports cs (perform max_chunks s a c run ctx) h.
Proof.
  unfold resolve_step_templates. intros Ha Hn. destruct (action s) eqn:Es.
  - apply bind_ok in Ha as (text' & Ht & Ha). apply bind_ok in Ha as (ov & Ho & [= <-]). by eapply send_message_reports.
  - apply bind_ok in Ha as (? & _ & Ha). apply bind_ok in Ha as (? & _ & [= <-]). by eapply dm_unsupported.
  - apply bind_ok in Ha as (? & _ & [= <-]). by eapply topic_unsupported.
  - apply bind_ok in Ha as (emoji' & He & [= <-]). unfold reports, perform.
    destruct (message_id ctx =? "")%string eqn:Em; [apply String.eqb_eq in Em; by eapply reaction_no_message|]. wp_step.
    eapply prog_wp_mono; [| |by eapply add_reaction_reports]; [|done]. intros b h' Hb. wp_step. exact Hb.
  - apply bind_ok in Ha as (hd & _ & Ha). apply bind_ok in Ha as (url' & Hu & Ha). apply bind_ok in Ha as (body' & _ & [= <-]).
    unfold reports, perform. wp_step. eapply prog_wp_mono; [| |by eapply call_webhook_reports]; [|done]. intros b h' Hb. wp_step. exact Hb.
  - apply bind_ok in Ha as (? & _ & Ha). apply bind_ok in Ha as (? & _ & [= <-]). unfold reports, perform. told.
  - injection Ha as <-. unfold reports, perform. wp_step; [|cbn; by eapply delay_malformed].
    destruct (Z.ltb_spec MAX_DELAY_SECS a) as [Hlt|]; [cbn; by eapply delay_too_long|]. told.
    match goal with a : Ans (Sleep _) |- _ => destruct a end. eexists. split; [by econstructor|done].
Qed.

Lemma dispatch_reports cs a h :
  resolve_step_templates s ctx outputs = Ok a → count_acts h = n0 →
  wp cs (dispatch_action max_chunks s a c run ctx) told (λ _ _, True) h.
Proof.
  intros Ha Hn. unfold dispatch_action. wp_step. wp_step; [done|]. wp_step; [|subst; cbn; apply lease_refused].
  wp_step. wp_step; [done|]. match goal with a : Ans (VerifyWrite _) |- _ => destruct a end; cbn [negb]; [|cbn; apply lease_unverified].
  wp_step. unfold protect. wp_step. wp_step; [done|].
  match goal with a : Ans (VerifyWrite _) |- _ => destruct a end; cbn [negb]; [|cbn; apply lease_unverified].
  cbn [wp]. eapply prog_wp_mono; [| |eapply wp_and; [by eapply perform_reports|by apply wp_cut]].
  - intros out h' [Ho _]. wp_step. wp_step; [done|].
    match goal with a : Ans (VerifyWrite _) |- _ => destruct a end; cbn; [|apply lease_unverified].
    split; [done|]. intros fin. destruct out as [[out| |]|e]; cbn in Ho |- *.
    + destruct fin; cbn; [|apply lease_unreleased]. destruct Ho as (h0 & Hy & Hc). exists h0, h'. split; [|done].
      by do 4 apply suffix_cons_r.
    + destruct fin; cbn; [done|apply lease_unreleased].
    + destruct fin; cbn; [done|apply lease_unreleased].
    + by apply action_failed.
  - intros c' h' _ [_ [h0 ->]]. case_bool_decide as E1; [|done]. subst. cbn. apply lease_lost.
Qed.

End told.
(** An output is that of one act. *)
Lemma chunks_acts h0 n body h : chunks_read h0 n body h → count_acts h = count_acts h0.
Proof. induction 1 as [|n body bytes h _ IH]; [done|]. exact IH. Qed.

Lemma yields_acts s h0 out h : yields s h0 out h → count_acts h = S (count_acts h0).
Proof. destruct 1; try done. cbn. by erewrite chunks_acts by done. Qed.

Lemma suffix_acts h1 h : h1 `suffix_of` h → (count_acts h1 ≤ count_acts h)%nat.
Proof. intros [l ->]. induction l as [|[r|r a|x] l IH]; cbn; [lia| |done|done]. destruct (is_act r); lia. Qed.

(** *** The loop *)

Inductive StepOutcome := DidSkip | DidComplete (output : JsonValue).

Definition outcome_entry (so : Step * StepOutcome) : JsonValue :=
  match so.2 with DidSkip => skipped_entry so.1 | DidComplete out => completed_entry so.1 out end.

Definition outcome_output (m : StepOutputs) (so : Step * StepOutcome) : StepOutputs :=
  match so.2 with DidSkip => m | DidComplete out => <[s_id so.1 := out]> m end.

(** The outputs a step sees: those of the steps completed before it. *)
Definition outputs_after (initial : StepOutputs) (finished : list (Step * StepOutcome)) : StepOutputs :=
  foldl outcome_output initial finished.

(** The output of step [k] is what its act was answered; the [n]th act of the
    run is that of step [ks !! n]. *)
Definition output_answered (ks : list nat) (k : nat) (s : Step) (o : StepOutcome) (h : list HistoryEvent) : Prop :=
  match o with
  | DidSkip => True
  | DidComplete out => ∃ h0 h1, h1 `suffix_of` h ∧ yields s h0 out h1 ∧ ks !! count_acts h0 = Some k
  end.
Definition outputs_answered (finished : list (Step * StepOutcome)) (ks : list nat) (h : list HistoryEvent) : Prop :=
  ∀ k s o, finished !! k = Some (s, o) → output_answered ks k s o h.

Lemma output_answered_later ks k s o h h' : h `suffix_of` h' → output_answered ks k s o h → output_answered ks k s o h'.
Proof. destruct o as [|out]; [done|]. intros Hh (h0 & h1 & Hs & H). exists h0, h1. split; [by etrans|done]. Qed.

Lemma output_answered_index ks ks' k s o h : output_answered ks k s o h → output_answered (ks ++ ks') k s o h.
Proof. destruct o as [|out]; [done|]. intros (h0 & h1 & Hs & Hy & Hk). exists h0, h1. split_and!; try done. by apply lookup_app_l_Some. Qed.

Lemma output_answered_take ks n k s o h : (count_acts h ≤ n)%nat → output_answered ks k s o h → output_answered (take n ks) k s o h.
Proof.
  destruct o as [|out]; [done|]. intros Hn (h0 & h1 & Hs & Hy & Hk). exists h0, h1. split_and!; try done.
  pose proof (yields_acts _ _ _ _ Hy). pose proof (suffix_acts _ _ Hs). by rewrite lookup_take_lt by lia.
Qed.

Section loop.
Context (cfg : WorkflowConfig) (max_chunks : nat) (c run : Uuid) (ctx : TriggerContext).
(** The steps to run, and the outputs known before them. *)
Context (rest : list Step) (initial : StepOutputs).

(** The run is marked as running. *)
Definition start_update (r : Req) : Prop := ∃ step trace, r = UpdateRun c run Running step trace None.

(** The request starts the run or belongs to a step of it, which sees the
    outputs of the steps before; the [n]th act of the run is that of step
    [ks !! n]. *)
Definition effect_of_step (finished : list (Step * StepOutcome)) (ks : list nat) (r : Req) (h : list HistoryEvent) : Prop :=
  is_effect r = true → start_update r ∨ ∃ k s, rest !! k = Some s ∧ (k ≤ length finished)%nat ∧
    permitted c ctx s (outputs_after initial (take k finished)) h ∧
    step_effect c run ctx s (outputs_after initial (take k finished)) h r ∧
    (is_act r = true → ks !! count_acts h = Some k).

(** Strictly increasing below a bound. *)
Definition increasing_below (n : nat) (ks : list nat) : Prop := StronglySorted lt ks ∧ Forall (λ k, (k < n)%nat) ks.

Lemma increasing_snoc n ks : increasing_below n ks → increasing_below (S n) (ks ++ [n]).
Proof.
  intros [Hs Hf]. split.
  - induction Hs as [|k ks Hs IH Hk]; [repeat constructor|]. apply Forall_cons in Hf as [Hkn Hf]. simpl. constructor; [by apply IH|].
    apply Forall_app. split; [done|by repeat constructor].
  - apply Forall_app. split; [|by repeat constructor]. eapply Forall_impl; [exact Hf|]. intros k Hk. cbn in Hk. lia.
Qed.

Lemma increasing_weaken n m ks : (n ≤ m)%nat → increasing_below n ks → increasing_below m ks.
Proof. intros Hnm [Hs Hf]. split; [done|]. eapply Forall_impl; [exact Hf|]. intros k Hk. cbn in Hk. lia. Qed.

(** The acts of a history have indices of their step. *)
Lemma acts_bounded finished ks h : sent_ok (effect_of_step finished ks) h → (count_acts h ≤ length ks)%nat.
Proof.
  induction h as [|[r|r a|x] h IH]; cbn; [lia| |done|done]. intros [Hr Hh]. specialize (IH Hh). destruct (is_act r) eqn:Ea; [|done].
  destruct Hr as [(step & trace & ->)|(k & s & _ & _ & _ & _ & Hk)]; [by destruct r|done|]. specialize (Hk Ea). apply lookup_lt_Some in Hk. lia.
Qed.

Lemma effects_take finished ks n h : (count_acts h ≤ n)%nat →
  sent_ok (effect_of_step finished ks) h → sent_ok (effect_of_step finished (take n ks)) h.
Proof.
  induction h as [|[r|r a|x] h IH]; cbn; [done| |done|done]. intros Hle [Hr Hh]. split.
  - intros He. destruct (Hr He) as [Hu|(k' & s & Hs & Hlen & Hp & Hst & Hk)]; [by left|right]. exists k', s. split_and!; try done.
    intros Ha. specialize (Hk Ha). rewrite Ha in Hle. by rewrite lookup_take_lt by lia.
  - apply IH; [|done]. destruct (is_act r); lia.
Qed.

Lemma increasing_take n m ks : increasing_below n ks → increasing_below n (take m ks).
Proof.
  intros [Hs Hf]. split; [|by apply Forall_take]. revert m. induction Hs as [|k ks Hs IH Hk]; intros [|m]; cbn; constructor.
  - apply IH. by apply Forall_cons in Hf as [_ ?].
  - by apply Forall_take.
Qed.

Lemma effects_more finished o ks h : sent_ok (effect_of_step finished ks) h → sent_ok (effect_of_step (finished ++ [o]) ks) h.
Proof.
  apply sent_ok_mono. intros r h' H He. destruct (H He) as [Hu|(k & s & Hs & Hk & Hp & Hst & Ha)]; [by left|right]. exists k, s.
  rewrite length_app. rewrite take_app_le by done. split_and!; try done. lia.
Qed.

Lemma effects_new_index finished ks k h : sent_ok (effect_of_step finished ks) h → sent_ok (effect_of_step finished (ks ++ [k])) h.
Proof.
  apply sent_ok_mono. intros r h' H He. destruct (H He) as [Hu|(k' & s & Hs & Hk & Hp & Hst & Ha)]; [by left|right]. exists k', s. split_and!; try done.
  intros Hact. by apply lookup_app_l_Some, Ha.
Qed.

(** The steps that were skipped are those whose condition was false. *)
Definition justified (finished : list (Step * StepOutcome)) : Prop := ∀ k s o, finished !! k = Some (s, o) →
  condition_value ctx s (outputs_after initial (take k finished)) (match o with DidSkip => false | DidComplete _ => true end).

Lemma justified_snoc finished s o : justified finished →
  condition_value ctx s (outputs_after initial finished) (match o with DidSkip => false | DidComplete _ => true end) →
  justified (finished ++ [(s, o)]).
Proof.
  intros Hj Hc k s' o' Hk. apply lookup_app_Some in Hk as [Hk|[Hle Hk]].
  - pose proof (lookup_lt_Some _ _ _ Hk). rewrite take_app_le by lia. by apply Hj.
  - apply list_lookup_singleton_Some in Hk as [Hz [= <- <-]]. assert (k = length finished) as -> by lia. by rewrite take_app_length.
Qed.

(** What is known before step [length finished]. *)
Definition progress (finished : list (Step * StepOutcome)) (h : list HistoryEvent) : Prop :=
  (finished.*1 = take (length finished) rest ∧ justified finished) ∧
  ∃ ks, increasing_below (length finished) ks ∧ length ks = count_acts h ∧ sent_ok (effect_of_step finished ks) h ∧
    outputs_answered finished ks h.

(** What is known when the run stops at step [length finished]. *)
Definition acts_kept (finished : list (Step * StepOutcome)) (ks : list nat) (h : list HistoryEvent) : Prop :=
  increasing_below (S (length finished)) ks ∧ sent_ok (effect_of_step finished ks) h ∧ outputs_answered finished ks h.
Definition stopped (finished : list (Step * StepOutcome)) (h : list HistoryEvent) : Prop :=
  (finished.*1 = take (length finished) rest ∧ justified finished) ∧ ∃ ks, acts_kept finished ks h.

(** The same, when the step itself has outcome [o]. *)
Definition stopped_with (finished : list (Step * StepOutcome)) (s : Step) (o : StepOutcome) (h : list HistoryEvent) : Prop :=
  (finished.*1 = take (length finished) rest ∧ justified finished) ∧
  ∃ ks, acts_kept finished ks h ∧ output_answered ks (length finished) s o h.

Lemma progress_stopped finished h : progress finished h → stopped finished h.
Proof. intros [Hf (ks & Hk & _ & Hs)]. split; [done|]. exists ks. split; [|done]. eapply increasing_weaken; [|done]. lia. Qed.

Lemma progress_skipped finished s h : progress finished h → stopped_with finished s DidSkip h.
Proof. intros [Hf (ks & Hk)]%progress_stopped. split; [done|]. by exists ks. Qed.

Lemma stopped_progress finished s o h : rest !! length finished = Some s →
  condition_value ctx s (outputs_after initial finished) (match o with DidSkip => false | DidComplete _ => true end) →
  stopped_with finished s o h → progress (finished ++ [(s, o)]) h.
Proof.
  intros Hs Hc [[Hf Hj] (ks & (Hk & Hh & Ho) & Ho')]. split; [split; [|by apply justified_snoc]|].
  - rewrite fmap_app, length_app, Hf. cbn. rewrite Nat.add_1_r. symmetry. by apply take_S_r.
  - rewrite length_app. cbn. rewrite Nat.add_1_r. exists (take (count_acts h) ks). split_and!; [by apply increasing_take| | |].
    + rewrite length_take. pose proof (acts_bounded _ _ _ Hh). lia.
    + apply effects_more. by apply effects_take.
    + intros k s' o' Hk'. apply output_answered_take; [done|]. apply lookup_app_Some in Hk' as [Hk'|[Hle Hk']]; [by apply Ho|].
      apply list_lookup_singleton_Some in Hk' as [Hz [= <- <-]]. by assert (k = length finished) as -> by lia.
Qed.

Lemma outputs_answered_sent finished ks x h : outputs_answered finished ks h → outputs_answered finished ks (x :: h).
Proof. intros H k s o Hk. eapply output_answered_later; [by apply suffix_cons_r|by apply H]. Qed.

(** A request of no effect. *)
Lemma progress_event finished h x : (∀ r, x = Sent r → is_act r = false ∧ ∀ ks, effect_of_step finished ks r h) →
  progress finished h → progress finished (x :: h).
Proof.
  intros Hx [Hf (ks & Hk & Hl & Hh & Ho)]. split; [done|]. exists ks. destruct x as [r| |].
  - destruct (Hx r eq_refl) as [Ha He]. cbn [count_acts sent_ok]. rewrite Ha. split_and!; try done. by apply outputs_answered_sent.
  - split_and!; try done. by apply outputs_answered_sent.
  - split_and!; try done. by apply outputs_answered_sent.
Qed.

Lemma progress_quiet finished h r : is_effect r = false → progress finished h → progress finished (Sent r :: h).
Proof.
  intros Hr. apply progress_event. intros r' [= <-]. split; [by destruct r|]. intros ks He. by rewrite Hr in He.
Qed.

Lemma progress_got finished h r a : progress finished h → progress finished (Got r a :: h).
Proof. by apply progress_event. Qed.

Definition outcome_trace (finished : list (Step * StepOutcome)) : list JsonValue := outcome_entry <$> finished.

(** A run result agrees with the steps that finished; [start] of the steps of
    the definition come before [rest]. *)
Definition result_agrees (start : nat) (finished : list (Step * StepOutcome))
    (res : result (WorkflowError * PartialProgress) ExecutionResult) (h : list HistoryEvent) : Prop :=
  match res with
  | Ok x =>
      x_trace x = outcome_trace finished ∧ step_outputs x = outputs_after initial finished ∧
      x_step_index x = (start + length finished)%nat ∧
      match approval_token x with
      | None => length finished = length rest
      | Some _ => ∃ s f m t, rest !! length finished = Some s ∧ action s = RequestApproval f m t
      end
  | Err (e, progress) =>
      p_trace progress = outcome_trace finished ∧ p_step_index progress = (start + length finished)%nat ∧
      ∃ s, rest !! length finished = Some s ∧ step_fails cfg max_chunks ctx s (outputs_after initial finished) e h
  end.

(** *** Suspension *)

Definition only_suspends (p : bool) (res : result WorkflowError StepResult) : Prop :=
  match res with
  | Ok (StepCompleted _) => True
  | Ok (StepSuspended _) => p = true
  | Ok StepSkipped => False
  | Err _ => True
  end.

Definition is_request_approval (a : ActionDef) : bool := match a with RequestApproval _ _ _ => true | _ => false end.

(** Every request and result of the program, whatever the answers are. *)
Ltac anyhow := repeat lazymatch goal with
  | |- wp _ (try_ ?m _) _ _ _ => unfold try_ at 1; destruct m
  | |- wp _ (try_some ?m _ _) _ _ _ => unfold try_some at 1; destruct m
  | |- wp _ (mbind _ _) _ _ _ => apply prog_wp_bind
  | |- wp _ (mret _) _ _ _ => cbn [wp mret prog_ret]
  | |- wp _ (Ret _) _ _ _ => cbn [wp]
  | |- wp _ (ask _) _ _ _ => cbn [wp ask]; split
  | |- wp _ (let _ := _ in _) _ _ _ => cbv zeta
  | |- wp _ (match ?m with _ => _ end) _ _ _ => destruct m
  | |- ∀ _, _ => intros ?
  | |- True => exact I
  end.

Lemma completed_not_suspended p m : only_suspends p (completed (λ v, v) m).
Proof. by destruct m. Qed.

Lemma perform_suspends cs s a h :
  wp cs (perform max_chunks s a c run ctx) (λ res _, only_suspends (is_request_approval a) res) (λ _ _, True) h.
Proof.
  unfold perform. destruct a; cbn [is_request_approval].
  - unfold send_message. anyhow; by repeat case_match.
  - anyhow. done.
  - anyhow. done.
  - destruct (message_id ctx =? "")%string; [anyhow; done|]. apply prog_wp_bind, wp_true; [|done]. intros b h'. apply completed_not_suspended.
  - apply prog_wp_bind, wp_true; [|done]. intros b h'. apply completed_not_suspended.
  - anyhow. done.
  - anyhow; done.
Qed.

Lemma dispatch_suspends cs s a h :
  wp cs (dispatch_action max_chunks s a c run ctx) (λ res _, only_suspends (is_request_approval a) res) (λ _ _, True) h.
Proof.
  unfold dispatch_action, protect. anyhow; try done. cbn [wp]. eapply prog_wp_mono; [| |apply perform_suspends].
  - intros out h' Ho. cbn. split; [done|]. intros ok. destruct ok; cbn; [|done]. split; [done|]. intros fin. destruct out; [destruct fin|]; done.
  - intros c' h' _ _. case_bool_decide; [anyhow|]; done.
Qed.

Lemma suspends_request s a outputs : resolve_step_templates s ctx outputs = Ok a → is_request_approval a = true →
  ∃ f m t, action s = RequestApproval f m t.
Proof.
  unfold resolve_step_templates. destruct (action s); intros Ha E; try (by eauto); exfalso.
  all: repeat (apply bind_ok in Ha as (? & _ & Ha)); by simplify_eq.
Qed.

(** *** The run *)

Lemma condition_spec finished s outputs h : progress finished h →
  wp [] (step_condition s ctx outputs)
    (λ b h', progress finished h' ∧
       match b with
       | Ok v => (v = true → condition_held ctx s outputs h') ∧ condition_value ctx s outputs v
       | Err e => step_fails cfg max_chunks ctx s outputs e h'
       end)
    (λ _ _, False) h.
Proof.
  intros Hp. unfold step_condition. destruct (if_expr s) as [e|] eqn:Ee.
  2: { cbn. split_and!; [done|intros _ e He; by rewrite Ee in He|]. unfold condition_value. by rewrite Ee. }
  unfold evaluate_condition. wp_step; [|cbn; split; [done|by eapply condition_no_context]].
  destruct (Nat.ltb_spec MAX_EXPR_LEN (String.length e)); [cbn; split; [done|by eapply condition_too_long]|]. wp_step. cbn [wp ask].
  split; [by intros ? ?%elem_of_nil|]. intros done_.
  assert (Hp' : progress finished (Got (EvalCondition e a) done_ :: Sent (EvalCondition e a) :: h)) by by apply progress_got, progress_quiet.
  destruct done_; cbn [wp mret prog_ret]; (split; [exact Hp'|]); [|eapply condition_no_value; [done|done|by left]..].
  destruct (eval_boolean e a) as [v|] eqn:Ev; [|eapply condition_no_value; [done|done|by right]]. split.
  - intros ->  e' He'. rewrite Ee in He'. injection He' as <-. by exists a.
  - unfold condition_value. rewrite Ee. by exists a.
Qed.

Lemma dispatch_spec s a finished h : rest !! length finished = Some s →
  resolve_step_templates s ctx (outputs_after initial finished) = Ok a →
  progress finished h → condition_held ctx s (outputs_after initial finished) h →
  wp [StepTimer] (dispatch_action max_chunks s a c run ctx)
    (λ res h', (match res with
       | Ok (StepCompleted out) => stopped_with finished s (DidComplete out) h'
       | Ok _ => stopped finished h'
       | Err e => stopped finished h' ∧ step_fails cfg max_chunks ctx s (outputs_after initial finished) e h'
       end) ∧ only_suspends (is_request_approval a) res)
    (λ x h', stopped finished h' ∧ ∃ h0, h' = CutBy x :: h0) h.
Proof.
  intros Hs Ha [Hf (ks & Hk & Hl & Hh & Ho)] Hc.
  pose proof (dispatch_suspends [StepTimer] s a h) as Hsus.
  pose proof (dispatch_reports cfg max_chunks c run ctx s (outputs_after initial finished) (length ks) [StepTimer] a h Ha (eq_sym Hl)) as Hrep.
  pose proof (wp_cut [StepTimer] (dispatch_action max_chunks s a c run ctx) h) as Hcut.
  pose proof (prog_wp_later [StepTimer] (dispatch_action max_chunks s a c run ctx) h) as Hlater.
  assert (Hkeep : keeps (effect_of_step finished (ks ++ [length finished])) [StepTimer] (dispatch_action max_chunks s a c run ctx) h).
  { apply dispatch_action_keeps with (outputs := outputs_after initial finished) (n0 := length ks); try done; [|by apply effects_new_index].
    intros r h' He Heff. destruct (He Heff) as (Hp & Hn & Hst). right. exists (length finished), s.
    rewrite take_ge by lia. split_and!; try done. intros Hact. rewrite (Hn Hact). by rewrite lookup_app_r, Nat.sub_diag by lia. }
  pose proof (increasing_snoc _ _ Hk) as Hk'.
  assert (Hkept : ∀ h', h `suffix_of` h' → sent_ok (effect_of_step finished (ks ++ [length finished])) h' →
    acts_kept finished (ks ++ [length finished]) h').
  { intros h' Hsuf Hsent. split_and!; [done|done|]. intros k s' o' Hk1. eapply output_answered_later; [exact Hsuf|].
    by apply output_answered_index, Ho. }
  eapply prog_wp_mono; [| |exact (wp_and _ _ _ _ _ _ _ Hkeep (wp_and _ _ _ _ _ _ _ Hlater (wp_and _ _ _ _ _ _ _ Hsus (wp_and _ _ _ _ _ _ _ Hrep Hcut))))].
  - intros res h' (H1 & Hsuf & H2 & H3 & _). cbn in H1, H2. specialize (Hkept _ Hsuf H1). split; [|exact H2].
    destruct res as [[out|token|]|e]; [|by split; [|eexists]..|split; [|done]; by split; [|eexists]].
    split; [done|]. exists (ks ++ [length finished]). split; [done|]. destruct H3 as (h0 & h1 & Hh1 & Hy & Hn). exists h0, h1.
    split_and!; try done. by rewrite Hn, lookup_app_r, Nat.sub_diag by lia.
  - intros c' h' _ (H1 & Hsuf & _ & _ & Hx). cbn in H1. split; [|done]. split; [done|]. exists (ks ++ [length finished]). by apply Hkept.
Qed.

Lemma execute_from_spec ss finished start h : ss = drop (length finished) rest → progress finished h →
  wp [] (execute_from cfg max_chunks c run ctx start (start + length finished) ss (outputs_after initial finished) (outcome_trace finished))
    (λ res h', ∃ finished', stopped finished' h' ∧ result_agrees start finished' res h') (λ _ _, False) h.
Proof.
  revert finished h. induction ss as [|s ss IH]; intros finished h Hss Hp; cbn [execute_from].
  { cbn. exists finished. split; [by apply progress_stopped|]. split_and!; try done.
    destruct Hp as [[Hf _] _]. apply (f_equal length) in Hf, Hss. rewrite length_fmap, length_take in Hf. rewrite length_drop in Hss. cbn in Hss. lia. }
  assert (Hs : rest !! length finished = Some s).
  { rewrite <- (Nat.add_0_r (length finished)), <- lookup_drop, <- Hss. done. }
  assert (Hnext : ∀ o h', stopped_with finished s o h' →
    condition_value ctx s (outputs_after initial finished) (match o with DidSkip => false | DidComplete _ => true end) →
    wp [] (execute_from cfg max_chunks c run ctx start (S (start + length finished)) ss
             (outputs_after initial (finished ++ [(s, o)])) (outcome_trace (finished ++ [(s, o)])))
      (λ res h', ∃ finished', stopped finished' h' ∧ result_agrees start finished' res h') (λ _ _, False) h').
  { intros o h' Hst Hcv. replace (S (start + length finished)) with (start + length (finished ++ [(s, o)]))%nat by (rewrite length_app; cbn; lia).
    apply IH; [|by apply stopped_progress]. rewrite length_app, <- drop_drop, <- Hss. done. }
  assert (Hout : ∀ o, outputs_after initial (finished ++ [(s, o)]) = outcome_output (outputs_after initial finished) (s, o)) by by intros o; unfold outputs_after; rewrite foldl_app.
  assert (Htr : ∀ o, outcome_trace (finished ++ [(s, o)]) = outcome_trace finished ++ [outcome_entry (s, o)]) by by intros o; unfold outcome_trace; rewrite fmap_app.
  assert (Hfail : ∀ e h', stopped finished h' → step_fails cfg max_chunks ctx s (outputs_after initial finished) e h' →
    ∃ finished', stopped finished' h' ∧ result_agrees start finished' (Err (e, {| p_step_index := start + length finished; p_trace := outcome_trace finished |})) h').
  { intros e h' Hst He. exists finished. split; [done|]. split_and!; try done. by exists s. }
  destruct (Nat.ltb_spec (start + length finished) start) as [|_]; [lia|].
  apply prog_wp_bind. eapply prog_wp_mono; [| |by apply condition_spec]; [|done]. intros b h' (Hp' & Hb).
  destruct b as [[]|e]; [| |cbn; apply Hfail; [by apply progress_stopped|done]].
  2: { specialize (Hnext DidSkip _ (progress_skipped _ _ _ Hp') (proj2 Hb)). by rewrite Hout, Htr in Hnext. }
  destruct Hb as [Hb Hv]. specialize (Hb eq_refl).
  destruct (resolve_step_templates s ctx (outputs_after initial finished)) as [a|e] eqn:Ea.
  2: { cbn. apply Hfail; [by apply progress_stopped|by apply template_unresolved]. }
  cbn [wp]. eapply prog_wp_mono; [| |apply (dispatch_spec s a); done].
  - intros res h2 [Hst Hsus]. destruct res as [[out|token|]|e].
    + specialize (Hnext (DidComplete out) _ Hst Hv). by rewrite Hout, Htr in Hnext.
    + cbn. exists finished. split; [done|]. split_and!; try done. exists s.
      destruct (suspends_request _ _ _ Ea Hsus) as (f & m & t & E). by exists f, m, t.
    + by destruct Hsus.
    + cbn. destruct Hst. by apply Hfail.
  - intros c' h2 Hin [Hst [h0 ->]]. apply list_elem_of_singleton in Hin as ->. cbn. by apply Hfail, timer_expired.
Qed.

Lemma execute_from_skip ss start i outputs trace : (start - i ≤ length ss)%nat → (i ≤ start)%nat →
  execute_from cfg max_chunks c run ctx start i ss outputs trace =
  execute_from cfg max_chunks c run ctx start start (drop (start - i) ss) outputs trace.
Proof.
  revert i. induction ss as [|s ss IH]; intros i Hl Hi; cbn in Hl.
  - assert (i = start) as -> by lia. by rewrite drop_nil.
  - destruct (decide (i = start)) as [->|Hne]; [by rewrite Nat.sub_diag|]. cbn [execute_from].
    destruct (Nat.ltb_spec i start) as [_|]; [|lia]. rewrite IH by lia. replace (start - i)%nat with (S (start - S i)) by lia. done.
Qed.

Lemma progress_nil : progress [] [].
Proof. split; [done|]. exists []. split_and!; [by repeat constructor|done|done|done]. Qed.

Lemma progress_update finished h r : start_update r → progress finished h → progress finished (Sent r :: h).
Proof. intros Hr. apply progress_event. intros r' [= <-]. split; [by destruct Hr as (? & ? & ->)|]. intros ks _. by left. Qed.

End loop.

Section runs.
Context (cfg : WorkflowConfig) (max_chunks : nat) (c run : Uuid) (d : WorkflowDef) (ctx : TriggerContext).

(** A run that ended before its first step. *)
Definition never_started (e : WorkflowError) (h : list HistoryEvent) : Prop :=
  (e = CapacityExceeded ∧ ∃ h0, h = Got TryAcquirePermit false :: h0) ∨
  (e = Database ∧ ∃ step trace h0, h = Got (UpdateRun c run Running step trace None) false :: h0).

(** The result of an execution that begins at step [start]. *)
Definition run_result (start : nat) (initial : StepOutputs) (finished : list (Step * StepOutcome))
    (res : result (WorkflowError * PartialProgress) ExecutionResult) (h : list HistoryEvent) : Prop :=
  (finished = [] ∧ ∃ e, res = Err (e, no_progress) ∧ never_started e h) ∨
  result_agrees cfg max_chunks ctx (drop start (steps d)) initial start finished res h.

Definition all_effects (start : nat) (initial : StepOutputs) (finished : list (Step * StepOutcome)) (h : list HistoryEvent) : Prop :=
  stopped c run ctx (drop start (steps d)) initial finished h.

Lemma execute_steps_spec start initial h : (start ≤ length (steps d))%nat →
  progress c run ctx (drop start (steps d)) (default ∅ initial) [] h →
  wp [] (execute_steps cfg max_chunks c run d ctx start initial)
    (λ res h', ∃ finished, all_effects start (default ∅ initial) finished h' ∧
       result_agrees cfg max_chunks ctx (drop start (steps d)) (default ∅ initial) start finished res h') (λ _ _, False) h.
Proof.
  intros Hl Hp. unfold execute_steps. rewrite execute_from_skip by lia. rewrite Nat.sub_0_r.
  pose proof (execute_from_spec cfg max_chunks c run ctx (drop start (steps d)) (default ∅ initial) (drop start (steps d)) [] start h eq_refl Hp) as H.
  by rewrite Nat.add_0_r in H.
Qed.

Ltac no_cut := split; [by intros ? ?%elem_of_nil|].

Abbreviation RunProgress := (progress c run ctx (drop 0 (steps d)) ∅) (only parsing).

(** A run that does not start. *)
Lemma not_started start initial e h : progress c run ctx (drop start (steps d)) initial [] h → never_started e h →
  ∃ finished, all_effects start initial finished h ∧ run_result start initial finished (Err (e, no_progress)) h.
Proof. intros Hp He. exists []. split; [by apply progress_stopped|]. left. split; [done|]. by exists e. Qed.

Lemma permit_progress start initial permit :
  progress c run ctx (drop start (steps d)) initial [] (Got TryAcquirePermit permit :: [Sent TryAcquirePermit]).
Proof. apply progress_got, progress_quiet, progress_nil. done. Qed.

Lemma execute_run_spec :
  wp [] (execute_run cfg max_chunks c run d ctx)
    (λ res h', ∃ finished, all_effects 0 ∅ finished h' ∧ run_result 0 ∅ finished res h') (λ _ _, False) [].
Proof.
  unfold execute_run. apply prog_wp_bind. cbn [wp ask]. no_cut. intros permit. pose proof (permit_progress 0 ∅ permit) as H1.
  destruct permit; cbn [negb]; [|cbn; apply not_started; [exact H1|left; split; [done|by eexists]]].
  apply prog_wp_bind. cbn [wp ask]. no_cut. intros ok.
  match goal with |- wp _ _ _ _ (Got ?r ok :: _) => assert (H2 : RunProgress [] (Got r ok :: Sent r :: Got TryAcquirePermit true :: [Sent TryAcquirePermit])) end.
  { apply progress_got, progress_update; [by eexists _, _|exact H1]. }
  destruct ok; cbn [negb]; [|cbn; apply not_started; [exact H2|right; split; [done|by do 3 eexists]]].
  eapply prog_wp_mono; [| |apply execute_steps_spec; [lia|exact H2]]; [|done].
  intros res h' (finished & Ha & Hr). exists finished. split; [exact Ha|by right].
Qed.

Lemma execute_from_step_spec start initial : (start ≤ length (steps d))%nat →
  wp [] (execute_from_step cfg max_chunks c run d ctx start initial)
    (λ res h', ∃ finished, all_effects start (default ∅ initial) finished h' ∧ run_result start (default ∅ initial) finished res h')
    (λ _ _, False) [].
Proof.
  intros Hl. unfold execute_from_step. apply prog_wp_bind. cbn [wp ask]. no_cut. intros permit.
  pose proof (permit_progress start (default ∅ initial) permit) as H0.
  destruct permit; cbn [negb]; [|cbn; apply not_started; [exact H0|left; split; [done|by eexists]]].
  apply prog_wp_bind. cbn [wp ask]. no_cut. intros existing. cbv zeta.
  apply (progress_quiet _ _ _ _ _ _ _ (GetRun c run) eq_refl), (progress_got _ _ _ _ _ _ _ (GetRun c run) existing) in H0.
  apply prog_wp_bind. cbn [wp ask]. no_cut. intros ok.
  match goal with |- wp _ _ _ _ (Got ?r ok :: _ :: ?h) =>
    assert (H2 : progress c run ctx (drop start (steps d)) (default ∅ initial) [] (Got r ok :: Sent r :: h)) end.
  { apply progress_got, progress_update; [by eexists _, _|exact H0]. }
  destruct ok; cbn [negb]; [|cbn; apply not_started; [exact H2|right; split; [done|by do 3 eexists]]].
  eapply prog_wp_mono; [| |apply execute_steps_spec; [exact Hl|exact H2]]; [|done].
  intros res h' (finished & Ha & Hr). exists finished. split; [exact Ha|by right].
Qed.

(** The requests of a run before its last one. *)
Definition effects_permitted (h : list HistoryEvent) : Prop := ∃ ks finished,
  StronglySorted lt ks ∧ finished.*1 = take (length finished) (steps d) ∧ justified ctx ∅ finished ∧
  outputs_answered finished ks h ∧ sent_ok (effect_of_step c run ctx (steps d) ∅ finished ks) h.

(** C22: The task that a fired workflow spawns always finishes, whatever the database, the
    network, the timers and the write fence do, and its last request stores a terminal status.
    Before that, every request that leaves the engine, apart from the update that marks the run
    as running, belongs to one step of the definition. It is sent under the write lease of the
    run's community, verified since it was taken; the condition of the step was evaluated true
    on the outputs of the steps before it. Those outputs are what the relay or the web server
    answered to the one act of each completed step (the event id, the status and body, the
    seconds slept), and only steps whose condition is false are skipped. A message has the text
    of the step resolved over those outputs, goes to the channel and in the name of the owner of
    the run's workflow row; call_webhook's request has the URL, headers and body of the step so
    resolved and is pinned to an address resolved for its host, none of which is private;
    add_reaction posts the emoji so resolved to the relay's base URL from the environment, for
    the message of the trigger (no address check); a delay is at most 270 s. The acts are those
    of strictly increasing steps, so no step acts twice. *)
Theorem run_effects_are_permitted env :
  ∃ h st step trace failure ok, run_in env [] (spawned_run cfg max_chunks c run d ctx) [] =
      (Finished tt, Got (UpdateRun c run st step trace failure) ok :: Sent (UpdateRun c run st step trace failure) :: h) ∧
    is_terminal st = true ∧ effects_permitted h.
Proof.
  destruct (prog_wp_run env (spawned_run cfg max_chunks c run d ctx) (λ _ h', ∃ h st step trace failure (ok : bool),
      h' = Got (UpdateRun c run st step trace failure) ok :: Sent (UpdateRun c run st step trace failure) :: h ∧
      is_terminal st = true ∧ effects_permitted h) []) as ([] & h' & Hrun & h & st & step & trace & failure & ok & -> & H).
  - unfold spawned_run. apply prog_wp_bind. eapply prog_wp_mono; [| |apply execute_run_spec]; [|done].
    intros res h (finished & ([Hf Hj] & ks & ([Hs _] & Hh & Ho)) & Hr). unfold finalize_run.
    destruct (final_update res None) as [[[st step] trace] failure] eqn:Ef. cbn. no_cut. intros ok.
    exists h, st, step, trace, failure, ok. split_and!; [done| |by exists ks, finished].
    destruct res as [x|[e p]]; cbn in Ef; [destruct (approval_token x)|]; by simplify_eq.
  - by exists h, st, step, trace, failure, ok.
Qed.

(** The row of a finished run: its status and failure agree with how far the
    steps came, and with the answers in [h] that made the run stop there. *)
Definition final_row (finished : list (Step * StepOutcome)) (st : RunStatus) (step : Z) (trace : JsonValue)
    (failure : option WorkflowRunFailure) (h : list HistoryEvent) : Prop :=
  step = as_i32 (length finished) ∧ trace = JArray (outcome_trace finished) ∧
  match st with
  | Completed => length finished = length (steps d) ∧ failure = None
  | Failed =>
      (∃ e, failure = Some {| failure_code := code e; failure_message := error_text e |} ∧
         ((finished = [] ∧ never_started e h) ∨
          ∃ s, steps d !! length finished = Some s ∧ step_fails cfg max_chunks ctx s (outputs_after ∅ finished) e h)) ∨
      (∃ f, failure = Some f ∧ failure_code f = "approval_not_supported" ∧
         ∃ s from msg timeout, steps d !! length finished = Some s ∧ action s = RequestApproval from msg timeout)
  | _ => False
  end.

Lemma final_update_row finished res h : run_result 0 ∅ finished res h →
  let '(st, step, trace, failure) := final_update res None in final_row finished st step trace failure h.
Proof.
  unfold run_result. rewrite drop_0. intros [(-> & e & -> & He)|Hr].
  - unfold final_row. cbn. split_and!; [done|done|]. left. exists e. split; [done|by left].
  - unfold final_row, final_update. destruct res as [x|[e p]]; cbn in Hr.
    + destruct Hr as (Ht & _ & Hi & Ha). rewrite Ht, Hi. destruct (approval_token x); cbn; split_and!; try done.
      right. eexists. split_and!; [done|done|exact Ha].
    + destruct Hr as (Ht & Hi & Hl). rewrite Ht, Hi. split_and!; try done. left. exists e. split; [done|by right].
Qed.

(** C34: The row that ends a run tells how far it came: its trace has one entry per finished
    step in the order of the definition, skipped exactly when the condition of the step is false
    on the outputs of the steps before, completed with the output that the answers to its act
    make; and current_step is their number. Completed means all steps and no failure. Failed
    carries the code and text of the error for which the answers before it, read independently
    of the executor, give the reason at that step: a condition that cannot be evaluated, a
    template that does not resolve, the step timer, a write lease refused, unverified, lost or
    unreleased, or the failing answer or argument of the action; or, before the first step, no
    permit or a failed update; or approval_not_supported at a step that requests approval.
    Nothing else is stored. *)
Theorem run_ends_with_its_result env :
  ∃ finished st step trace failure ok h',
    run_in env [] (spawned_run cfg max_chunks c run d ctx) [] =
      (Finished tt, Got (UpdateRun c run st step trace failure) ok :: Sent (UpdateRun c run st step trace failure) :: h') ∧
    finished.*1 = take (length finished) (steps d) ∧ justified ctx ∅ finished ∧
    (∃ ks, StronglySorted lt ks ∧ outputs_answered finished ks h') ∧ final_row finished st step trace failure h'.
Proof.
  destruct (prog_wp_run env (spawned_run cfg max_chunks c run d ctx) (λ _ h, ∃ finished st step trace failure (ok : bool) h',
    h = Got (UpdateRun c run st step trace failure) ok :: Sent (UpdateRun c run st step trace failure) :: h' ∧
    finished.*1 = take (length finished) (steps d) ∧ justified ctx ∅ finished ∧
    (∃ ks, StronglySorted lt ks ∧ outputs_answered finished ks h') ∧ final_row finished st step trace failure h') [])
    as ([] & h & Hrun & finished & st & step & trace & failure & ok & h' & -> & H).
  - unfold spawned_run. apply prog_wp_bind. eapply prog_wp_mono; [| |apply execute_run_spec]; [|done].
    intros res h (finished & ([Hf Hj] & ks & ([Hks _] & _ & Ho)) & Hr). unfold finalize_run. apply final_update_row in Hr.
    destruct (final_update res None) as [[[st step] trace] failure]. cbn. no_cut. intros ok.
    exists finished, st, step, trace, failure, ok, h. rewrite drop_0 in Hf. split_and!; try done. by exists ks.
  - by exists finished, st, step, trace, failure, ok, h'.
Qed.

End runs.
End effects.

(** ** A run

    A conditional step that is skipped, a delay and a message, against a relay
    that answers everything. *)
Module SampleRun.

#[local] Existing Instance sample_num.
#[local] Existing Instance sample_print.
#[local] Existing Instance sample_eval.
#[local] Existing Instance canonical_order.
#[local] Existing Instance text_lib.

Definition no_keys : NpubLib := {| PublicKey := unit; pubkey_from_hex := λ _, None; to_bech32 := λ _, None |}.
#[local] Existing Instance no_keys.
Definition no_serde : SerdeLib sample_num := {|
  def_from_yaml := λ _, None; def_to_json := λ _, None; def_from_value := λ _, None; value_from_str := λ _, None;
  value_to_str := λ _, None; ctx_to_value := λ _, None; ctx_from_value := λ _, None
|}.
#[local] Existing Instance no_serde.
Definition plain_urls : RunLib := {|
  parse_uuid := λ s, Some (N.pred (Npos (parse_pos s))); hex_encode := λ _, "owner"; Url := string; url_parse := Some;
  host_str := Some; port_or_known_default := λ _, Some 443%Z; method_valid := λ _, true
|}.
#[local] Existing Instance plain_urls.

Definition sample_step (i : string) (cond : option string) (a : ActionDef) : Step :=
  {| s_id := i; s_name := None; if_expr := cond; timeout_secs := None; action := a |}.
Definition sample_def : WorkflowDef :=
  {| name := "sample"; description := None; trigger := MessagePosted None; enabled := true;
     steps := [sample_step "only_replies" (Some "trigger_is_reply") (AddReaction "eyes");
               sample_step "pause" None (Delay "5s");
               sample_step "tell" None (SendMessage "hi {{trigger.author}}, slept {{steps.pause.output.slept_secs}}" None true)] |}.
Definition sample_ctx : TriggerContext :=
  {| text := "P1"; author := "alice"; channel_id := "general"; timestamp := "7"; emoji := ""; message_id := "m"; is_reply := false;
     webhook_fields := ∅ |}.
Definition sample_row : WorkflowRecord := new_workflow 0 7 3 (Some 5%N) [] "sample" JNull [].
Definition sample_run_row : WorkflowRunRecord :=
  {| run_id := 9; run_community := 7; workflow_id := 3; run_status := Pending; trigger_event_id := None; current_step := 0;
     execution_trace := JArray []; trigger_context := None; started_at := None; completed_at := None; error_message := None;
     error_code := None; run_created_at := 0 |}.

Definition sample_answer (r : Req) : Ans r :=
  match r with
  | EvalCondition _ _ => EvalDone
  | TryAcquirePermit | HasSink | VerifyWrite _ | FinishWrite _ => true
  | AcquireWrite _ _ => Some 1%N
  | GetRun _ _ => Some sample_run_row
  | GetWorkflow _ _ => Some sample_row
  | UpdateRun _ _ _ _ _ _ => true
  | SinkMessage _ _ _ _ _ _ => Ok "event"
  | EnvVar _ => None
  | PostReaction _ _ _ | HttpSend _ _ _ _ _ => Some 200%Z
  | ReadText => Some ""
  | ResolveHost _ _ => Some [V4 (ipv4_new 93 184 216 34)]
  | NextChunk => Some None
  | Sleep _ => tt
  | NewUuid => 2%N
  | ReadClock => 0%Z
  | CacheGet _ _ | EnabledWorkflows _ _ | ScheduledWorkflows => None
  | CachePut _ _ _ | CacheDrop _ _ | SpawnRun _ _ _ _ | SpawnFromValue _ _ _ _ | SpawnResume _ _ _ _ | SpawnCancel _ _ _ => tt
  | MemberRoleOf _ _ _ | LatestFire _ _ => None
  | ClaimFire _ _ _ | IsMemberCached _ _ _ | InsertEvent _ _ _ | DecideApproval _ _ _ _ _ => None
  | AttachRun _ _ _ _ | BeginTx | GuardTx _ | CommitTx | ChannelForWrite _ _ => true
  | CreateRun _ _ _ _ => None
  | HostCommunity _ => None
  | FindWorkflow _ _ => None
  | ReplaceEvent _ _ _ _ _ => None
  | UpsertWorkflow _ _ _ _ _ _ _ => Ok tt
  | FindApproval _ _ => None
  end.
Definition sample_environment : Environment := {| answer := λ _, sample_answer; cut := λ _, None |}.

(** What was sent to the relay and to the database, the last request first. *)
Fixpoint sent (h : list HistoryEvent) : list Req :=
  match h with
  | [] => []
  | Sent (SinkMessage c ch txt au who re) :: h => SinkMessage c ch txt au who re :: sent h
  | Sent (UpdateRun c r st step trace f) :: h => UpdateRun c r st step trace f :: sent h
  | _ :: h => sent h
  end.

Definition sample_requests : list Req :=
  [UpdateRun 7%N 9%N Completed 3
     (JArray [JObject [("status", JString "skipped"); ("step_id", JString "only_replies")];
              JObject [("output", JObject [("slept_secs", JNum (5%Z : JNumber))]); ("status", JString "completed"); ("step_id", JString "pause")];
              JObject [("output", JObject [("event_id", JString "event"); ("sent", JBool true)]); ("status", JString "completed");
                       ("step_id", JString "tell")]]) None;
   SinkMessage 7%N "01" "hi alice, slept 5" "hi {{trigger.author}}, slept {{steps.pause.output.slept_secs}}" "owner" (Some "m");
   UpdateRun 7%N 9%N Running 0 (JArray []) None].

Example sample_run_completes : sent (snd (run sample_environment (spawned_run {| max_concurrent := 1; default_timeout_secs := 300 |} 4 7%N 9%N sample_def sample_ctx) [])) = sample_requests.
Proof. vm_cast_no_check (eq_refl sample_requests). Qed.

End SampleRun.
