(* ===== verification/Tenant.v ===== *)
(** * The tenant of a request ([crates/maju-core/src/tenant.rs],
    [crates/maju-relay/src/tenant.rs])

    A community is found from the host of the connection, and only from it.
    [relay_url_authority] parses a URL with the [url] crate and is left out. *)
From S2P Require Import Prelude Nostr Channel WorkflowTemplate.

Record TenantContext := { community : Uuid; host : string }.

Definition resolved (c : Uuid) (h : string) : TenantContext := {| community := c; host := h |}.

Definition strip_default_port (h : string) : string :=
  match strip_suffix ":443" h with
  | Some stripped => stripped
  | None => default h (strip_suffix ":80" h)
  end.

Definition normalize_host (h : string) : string :=
  let h := to_ascii_lowercase (trim h) in
  let h := strip_default_port h in
  default h (strip_suffix "." h).

Inductive BindError := UnmappedHost | LookupFailed.

(** [bind_community], over the answers of the resolver ([None]: the lookup
    failed; [Some None]: the host is not mapped). *)
Definition bind_answer (normalized : string) (answer : option (option Uuid)) : result BindError TenantContext :=
  match answer with
  | Some (Some c) => Ok (resolved c normalized)
  | Some None => Err UnmappedHost
  | None => Err LookupFailed
  end.

Definition bind_community (resolve_host : string → option (option Uuid)) (raw_host : string) : result BindError TenantContext :=
  let h := normalize_host raw_host in
  if (h =? "")%string then Err UnmappedHost else bind_answer h (resolve_host h).
