(* ===== verification/WorkflowEngine.v ===== *)
(** * The workflow engine ([crates/maju-workflow/src/lib.rs])

    Which events and which instants start a run: the authority gate, the
    matching of triggers, [on_event], and one tick of the scheduler. The map
    [last_fired] belongs to the scheduler's task and is passed through its
    ticks; the cache of enabled workflows is shared and reached by requests.
    Instants are nanoseconds since the Unix epoch, as [chrono] counts them; the
    database stores microseconds. *)
From S2P Require Import Prelude Kinds Nostr Thread Network Membership WorkflowTemplate WorkflowDef WorkflowStore WorkflowRun.

(** ** Authority *)

Definition owner_authority_allows (role : option string) (needs_elevated : bool) : bool :=
  match role with
  | None => false
  | Some r => if needs_elevated then ((r =? "owner") || (r =? "admin"))%string else true
  end.

(** ** Triggers *)

Definition trigger_matches_event (t : TriggerDef) (kind_u32 : Z) : bool :=
  match t with
  | MessagePosted _ => (kind_u32 =? KIND_STREAM_MESSAGE)%Z
  | ReactionAdded _ _ => (kind_u32 =? KIND_REACTION)%Z
  | DiffPosted _ => (kind_u32 =? KIND_STREAM_MESSAGE_DIFF)%Z
  | Schedule _ _ | Webhook => false
  end.

Definition trigger_filter (t : TriggerDef) : option string :=
  match t with
  | MessagePosted f | ReactionAdded _ f | DiffPosted f => f
  | Schedule _ _ | Webhook => None
  end.

(** ** Instants *)

Definition nanos_per_sec : Z := 1000000000%Z.
Definition timestamp_secs (t : Z) : Z := (t / nanos_per_sec)%Z.
(** Of the difference of two instants, truncated towards zero. *)
Definition num_seconds (d : Z) : Z := Z.quot d nanos_per_sec.
Definition to_micros (t : Z) : Z := (t / 1000)%Z.
Definition from_micros (t : Z) : Z := (t * 1000)%Z.

(** [DateTime::from_timestamp]: the whole seconds that [chrono] represents,
    between the years -262143 and 262142. *)
Definition MIN_TIMESTAMP : Z := (-8334601228800)%Z.
Definition MAX_TIMESTAMP : Z := 8210266876799%Z.
Definition from_timestamp (secs : Z) : option Z :=
  if ((MIN_TIMESTAMP <=? secs) && (secs <=? MAX_TIMESTAMP))%Z then Some (secs * nanos_per_sec)%Z else None.

(** [x as i64] of a [u64]. *)
Definition as_i64_wrap (x : Z) : Z := if (x <? 2 ^ 63)%Z then x else (x - 2 ^ 64)%Z.

(** [i64::div_euclid]. *)
Definition div_euclid (a b : Z) : Z :=
  let q := Z.quot a b in
  if (Z.rem a b <? 0)%Z then if (0 <? b)%Z then (q - 1)%Z else (q + 1)%Z else q.

Definition cron_fire_instant {CL : CronLib} (expr : string) (now window_secs : Z) : option Z :=
  match parse_cron (normalize_cron expr) with
  | Some sched =>
      let window_start := (now - window_secs * nanos_per_sec)%Z in
      t ← next_after sched window_start;
      if (t <=? now)%Z then Some t else None
  | None => None
  end.

Definition interval_fire_instant (dur : string) (now : Z) : option Z :=
  match parse_duration_secs dur with
  | Ok interval_secs =>
      if (0 <? interval_secs)%Z then
        let secs := as_i64_wrap interval_secs in
        from_timestamp (div_euclid (timestamp_secs now) secs * secs)%Z
      else None
  | Err _ => None
  end.

Definition interval_should_fire (dur : string) (last_fired : option Z) (now : Z) : bool :=
  match parse_duration_secs dur with
  | Ok interval_secs =>
      let last := default now last_fired in
      (interval_secs <=? Z.abs (num_seconds (now - last)))%Z
  | Err _ => false
  end.

Definition LastFired : Type := gmap (Uuid * Uuid) Z.

Definition interval_prefilter_should_fire (last_fired : LastFired) (c wf : Uuid) (dur : string) (last : option Z) (now : Z) :
    bool * LastFired :=
  if interval_should_fire dur last now then (true, last_fired)
  else
    (false, match last with None => <[(c, wf) := now]> last_fired | Some _ => last_fired end).

(** ** The trigger context of an event *)

Section context.
Context {L : NostrLib}.

Definition event_is_reply (e : Event) : bool := bool_decide (is_Some (reply (parse_thread_markers (tags e)))).

(** The target of a reaction that one tag names. *)
Definition reaction_target (t : Tag) : option string :=
  if (tag_kind t =? "e")%string then v ← tag_content t; if is_event_id_hex v then Some v else None else None.


Definition message_id_of (e : Event) : string :=
  if (event_kind_u32 e =? KIND_REACTION)%Z then default (id e) (find_map reaction_target (reverse (tags e))) else id e.

Definition build_trigger_context (s : StoredEvent) : TriggerContext :=
  let e := event s in
  {| text := content e;
     author := pubkey e;
     channel_id := default "" (uuid_to_string <$> Nostr.channel_id s);
     timestamp := pretty (created_at e);
     emoji := if (event_kind_u32 e =? KIND_REACTION)%Z then content e else "";
     message_id := message_id_of e;
     is_reply := event_is_reply e;
     webhook_fields := ∅ |}.

End context.

(** ** The engine *)

Section engine.
Context {JN : JsonNum} {JP : JsonPrint JN} {SL : SerdeLib JN} {CL : CronLib} {EL : EvalLib JN} {HO : HashOrder} {L : NostrLib}.

Definition check_owner_authority (c ch : Uuid) (owner : Pubkey) (d : WorkflowDef) : Prog (result WorkflowError unit) :=
  role ← ask (MemberRoleOf c ch owner);
  mret (match role with
        | None => Err Unauthorized
        | Some role => if owner_authority_allows role (requires_elevated_authority d) then Ok tt else Err Unauthorized
        end).

Definition should_fire_workflow (d : WorkflowDef) (ctx : TriggerContext) : Prog bool :=
  if match trigger d with ReactionAdded (Some expected) _ => negb (emoji ctx =? expected)%string | _ => false end
  then mret false
  else
    match trigger_filter (trigger d) with
    | Some expr => ok ← evaluate_condition expr ctx ∅; mret (match ok with Ok b => b | Err _ => false end)
    | None => mret true
    end.

(** *** Events *)

(** The body of the loop for one workflow. *)
Definition fire_for_event (c ch : Uuid) (kind_u32 : Z) (event_id : string) (ctx : TriggerContext) (ctx_json : JsonValue)
    (w : WorkflowRecord) : Prog unit :=
  match def_from_value (definition w) with
  | None => mret tt
  | Some d =>
      if negb (enabled d) || negb (trigger_matches_event (trigger d) kind_u32) then mret tt
      else
        fire ← should_fire_workflow d ctx;
        if negb fire then mret tt
        else
          auth ← check_owner_authority c ch (owner_pubkey w) d;
          match auth with
          | Err _ => mret tt
          | Ok _ =>
              run ← ask (CreateRun c (w_id w) (Some event_id) (Some ctx_json));
              match run with
              | None => mret tt
              | Some run => ask (SpawnRun c run d ctx)
              end
          end
  end.

Fixpoint for_each {A} (f : A → Prog unit) (l : list A) : Prog unit :=
  match l with
  | [] => mret tt
  | a :: l => f a;; for_each f l
  end.

(** [list_enabled_channel_workflows] behind the cache. *)
Definition enabled_workflows (c ch : Uuid) : Prog (option (list WorkflowRecord)) :=
  cached ← ask (CacheGet c ch);
  match cached with
  | Some ws => mret (Some ws)
  | None =>
      fresh ← ask (EnabledWorkflows c ch);
      match fresh with
      | None => mret None
      | Some ws => ask (CachePut c ch ws);; mret (Some ws)
      end
  end.

Definition on_event (c : Uuid) (s : StoredEvent) : Prog (result WorkflowError unit) :=
  match Nostr.channel_id s with
  | None => mret (Ok tt)
  | Some ch =>
      let kind_u32 := event_kind_u32 (event s) in
      if is_workflow_execution_kind kind_u32 then mret (Ok tt)
      else
        ws ← enabled_workflows c ch;
        match ws with
        | None => mret (Err Database)
        | Some [] => mret (Ok tt)
        | Some ws =>
            let ctx := build_trigger_context s in
            match ctx_to_value ctx with
            | None => mret (Ok tt)
            | Some ctx_json =>
                for_each (fire_for_event c ch kind_u32 (id (event s)) ctx ctx_json) ws;;
                mret (Ok tt)
            end
        end
  end.

(** *** The scheduler *)

Inductive TriggerType := CronTrigger | IntervalTrigger.
#[export] Instance TriggerType_eq_dec : EqDecision TriggerType.
Proof. solve_decision. Defined.

(** The anchor of an interval: in memory, else the latest claim. *)
Definition interval_anchor (c wf : Uuid) (fired : LastFired) : Prog (option Z) :=
  match fired !! (c, wf) with
  | Some t => mret (Some t)
  | None => latest ← ask (LatestFire c wf); mret (from_micros <$> default None latest)
  end.

(** The instant that the tick at [now] fires for, and the anchors after. *)
Definition scheduled_instant (now : Z) (c wf : Uuid) (t : TriggerDef) (fired : LastFired) :
    Prog (option (Z * TriggerType) * LastFired) :=
  match t with
  | Schedule (Some expr) None => mret ((λ i, (i, CronTrigger)) <$> cron_fire_instant expr now 60, fired)
  | Schedule None (Some dur) =>
      last ← interval_anchor c wf fired;
      let '(fire, fired) := interval_prefilter_should_fire fired c wf dur last now in
      mret (if (fire : bool) then (λ i, (i, IntervalTrigger)) <$> interval_fire_instant dur now else None, fired)
  | _ => mret (None, fired)
  end.

Definition mark_fired (ty : TriggerType) (c wf : Uuid) (now : Z) (fired : LastFired) : LastFired :=
  match ty with IntervalTrigger => <[(c, wf) := now]> fired | CronTrigger => fired end.

Definition schedule_context (ch : Uuid) (now : Z) : TriggerContext :=
  {| text := ""; author := ""; channel_id := uuid_to_string ch; timestamp := pretty (timestamp_secs now); emoji := "";
     message_id := ""; is_reply := false; webhook_fields := ∅ |}.

(** The claim, the run and its task. *)
Definition claim_and_run (now : Z) (c ch wf : Uuid) (d : WorkflowDef) (scheduled_for : Z) (ty : TriggerType) (fired : LastFired) :
    Prog LastFired :=
  claim ← ask (ClaimFire c wf (to_micros scheduled_for));
  match claim with
  | None => mret fired
  | Some false => mret (mark_fired ty c wf now fired)
  | Some true =>
      let ctx := schedule_context ch now in
      match ctx_to_value ctx with
      | None => mret fired
      | Some ctx_json =>
          run ← ask (CreateRun c wf None (Some ctx_json));
          match run with
          | None => mret fired
          | Some run =>
              ask (AttachRun c wf (to_micros scheduled_for) run);;
              ask (SpawnRun c run d ctx);;
              mret (mark_fired ty c wf now fired)
          end
      end
  end.

(** The body of the loop for one workflow. *)
Definition schedule_one (now : Z) (w : WorkflowRecord) (fired : LastFired) : Prog LastFired :=
  let c := w_community w in
  match def_from_value (definition w) with
  | None => mret fired
  | Some d =>
      if negb (enabled d) then mret fired
      else
        match w_channel w with
        | None => mret fired
        | Some ch =>
            '(instant, fired) ← scheduled_instant now c (w_id w) (trigger d) fired;
            match instant with
            | None => mret fired
            | Some (scheduled_for, ty) =>
                auth ← check_owner_authority c ch (owner_pubkey w) d;
                match auth with
                | Err _ => mret fired
                | Ok _ => claim_and_run now c ch (w_id w) d scheduled_for ty fired
                end
            end
        end
  end.

Fixpoint schedule_all (now : Z) (ws : list WorkflowRecord) (fired : LastFired) : Prog LastFired :=
  match ws with
  | [] => mret fired
  | w :: ws => fired ← schedule_one now w fired; schedule_all now ws fired
  end.

Definition active_ids (ws : list WorkflowRecord) : gset (Uuid * Uuid) := list_to_set ((λ w, (w_community w, w_id w)) <$> ws).

(** [last_fired.retain]. *)
Definition retain_active (ws : list WorkflowRecord) (fired : LastFired) : LastFired :=
  filter (λ kt, kt.1 ∈ active_ids ws) fired.

Definition TICK_SECS : Z := 60%Z.

(** One round of the loop of [WorkflowEngine::run]. *)
Definition tick (fired : LastFired) : Prog LastFired :=
  ask (Sleep TICK_SECS);;
  now ← ask ReadClock;
  ws ← ask ScheduledWorkflows;
  match ws with
  | None => mret fired
  | Some ws => fired ← schedule_all now ws fired; mret (retain_active ws fired)
  end.

(** The loop, for as many rounds as the process lives. *)
Fixpoint run_engine (rounds : nat) (fired : LastFired) : Prog LastFired :=
  match rounds with
  | O => mret fired
  | S rounds => fired ← tick fired; run_engine rounds fired
  end.

End engine.
