(* ===== verification/WorkflowDoors.v ===== *)
(** * The relay's doors to the workflow engine

    Command events ([crates/maju-relay/src/handlers/command_executor.rs]: the
    definition, the manual trigger and the decision of an approval), the webhook
    endpoint ([workflow_webhook] of [crates/maju-relay/src/api/bridge.rs]) with
    its secret ([webhook_secret.rs]), and what happens to the workflows of a
    member who leaves ([side_effects.rs]).

    The handlers of direct messages in the same file and the texts of internal
    errors are left out. *)
From S2P Require Import Prelude Kinds Nostr Thread Network Channel Membership WorkflowTemplate WorkflowDef WorkflowStore WorkflowRun.
From S2P Require Import Hex WorkflowEngine Tenant.

(** ** Secrets *)

Section secrets.
Context {JN : JsonNum}.

(** [Map::insert]; a [serde_json] map is ordered by key. *)
Fixpoint map_insert {A} (k : string) (v : A) (m : list (string * A)) : list (string * A) :=
  match m with
  | [] => [(k, v)]
  | (k', v') :: m =>
      if (k =? k')%string then (k, v) :: m
      else if String.ltb k k' then (k, v) :: (k', v') :: m
      else (k', v') :: map_insert k v m
  end.

Definition secret_key : string := "_webhook_secret".

Definition inject_secret (def : JsonValue) (secret : string) : JsonValue :=
  match def with
  | JObject m => JObject (map_insert secret_key (JString secret) m)
  | v => v
  end.

Definition extract_secret (def : JsonValue) : option string := v ← json_get def secret_key; as_str v.

Definition strip_secret (def : JsonValue) : JsonValue :=
  match def with
  | JObject m => JObject (List.filter (λ kv, negb (kv.1 =? secret_key)%string) m)
  | v => v
  end.

Definition verify_secret (provided stored : string) : bool :=
  if negb (String.length provided =? String.length stored)%nat then false
  else (foldl Z.lor 0 (zip_with Z.lxor (str_bytes provided) (str_bytes stored)) =? 0)%Z.

End secrets.

(** ** Command events *)

Inductive IngestError :=
  | Rejected (msg : string)
  | AuthFailed (msg : string)
  | Internal (msg : string).
#[export] Instance IngestError_eq_dec : EqDecision IngestError.
Proof. solve_decision. Defined.

Record IngestResult := { event_id : string; accepted : bool; message : string }.

Definition D_TAG_MAX_LEN : nat := 1024.

Section doors.
Context {JN : JsonNum} {JP : JsonPrint JN} {SL : SerdeLib JN} {CL : CronLib} {EL : EvalLib JN} {HO : HashOrder} {L : NostrLib}.
Context {NL : NpubLib} {RL : RunLib} {TD : TokenDigest} {HL : HexLib}.

Abbreviation Handler := (Prog (result IngestError IngestResult)) (only parsing).

(** Early return on an error. *)
Definition guard_ {A B} (m : result IngestError A) (k : A → Prog (result IngestError B)) : Prog (result IngestError B) :=
  match m with Ok a => k a | Err e => mret (Err e) end.
Definition guard_some {A B} (m : option A) (e : IngestError) (k : A → Prog (result IngestError B)) : Prog (result IngestError B) :=
  match m with Some a => k a | None => mret (Err e) end.
Definition require (b : bool) (e : IngestError) {B} (k : Prog (result IngestError B)) : Prog (result IngestError B) :=
  if b then k else mret (Err e).

(** *** Tags *)

Definition extract_tag (name : string) (e : Event) : option string :=
  find_map (λ t, if (tag_kind t =? name)%string then tag_content t else None) (tags e).
Definition extract_h_tag : Event → option string := extract_tag "h".
Definition extract_d_tag : Event → option string := extract_tag "d".
Definition extract_e_tag : Event → option string := extract_tag "e".

(** [ingest.rs]: the first [h] tag that is a UUID. *)
Definition extract_channel_id (e : Event) : option Uuid :=
  find_map (λ t, if (tag_kind t =? "h")%string then v ← tag_content t; parse_uuid v else None) (tags e).

(** [maju_db::event::extract_d_tag]. *)
Definition stored_d_tag (e : Event) : option string :=
  if negb (is_parameterized_replaceable (event_kind_u32 e)) then None
  else
    Some (default "" (find_map (λ t,
      match as_slice t with
      | k :: v :: _ => if (k =? "d")%string then Some v else None
      | _ => None
      end) (tags e))).

Definition compute_definition_hash (json : string) : list Z := token_digest json.

(** *** The event of a command *)

Definition parse_expected_workflow_revision (kind : Z) (expected : option string) : result IngestError (option (list Z)) :=
  if negb (kind =? KIND_WORKFLOW_DEF)%Z then Ok None
  else
    match expected with
    | None => Ok None
    | Some expected =>
        match hex_decode expected with
        | None => Err (Rejected "invalid: bad expected workflow revision")
        | Some i => if negb (length i =? 32)%nat then Err (Rejected "invalid: bad expected workflow revision") else Ok (Some i)
        end
    end.

Inductive PersistResult := PersistDuplicate | PersistInserted.

(** What [persist_command_event] makes of the outcome of a replacement. *)
Definition replace_outcome (kind : Z) (expected : result IngestError (option (list Z))) (st : ReplaceStatus) :
    result IngestError PersistResult :=
  match st with
  | Inserted => Ok PersistInserted
  | Duplicate => Ok PersistDuplicate
  | Superseded =>
      match expected with
      | Ok (Some _) => if (kind =? KIND_WORKFLOW_DEF)%Z
                       then Err (Rejected "conflict: workflow update was superseded; refresh and try again")
                       else Ok PersistDuplicate
      | _ => Ok PersistDuplicate
      end
  | RevisionMissing => Err (Rejected "conflict: workflow revision does not exist")
  | RevisionMismatch => Err (Rejected "conflict: workflow changed since it was loaded")
  | ReplayOnlyMiss =>
      match expected with
      | Err e => Err e
      | Ok _ => Err (Internal "error: replay-only replacement lacked a revision error")
      end
  end.

(** The transaction stays open after [PersistInserted]. *)
Definition persist_command_event (c : Uuid) (e : Event) (channel_override : option Uuid) : Prog (result IngestError PersistResult) :=
  let channel := match channel_override with Some ch => Some ch | None => extract_channel_id e end in
  begun ← ask BeginTx;
  require begun (Internal "error: begin transaction") (
  guarded ← ask (GuardTx c);
  require guarded (Rejected "restricted: community writes are fenced") (
  match stored_d_tag e with
  | Some d_tag =>
      if (D_TAG_MAX_LEN <? String.length d_tag)%nat then mret (Err (Rejected "invalid: d tag too long"))
      else
        let kind := event_kind_u32 e in
        let expected := parse_expected_workflow_revision kind (extract_tag "expected-revision" e) in
        let precondition :=
          match expected with
          | Err _ => ExactReplayOnly
          | Ok (Some rev) => ExpectedRevision rev
          | Ok None => Unconditional
          end in
        st ← ask (ReplaceEvent c (id e) d_tag channel precondition);
        guard_some st (Internal "error: replace parameterized event") (λ st, mret (replace_outcome kind expected st))
  | None =>
      inserted ← ask (InsertEvent c (id e) channel);
      guard_some inserted (Internal "error: insert event") (λ b, mret (Ok (if (b : bool) then PersistInserted else PersistDuplicate)))
  end)).

Definition accepted_result (e : Event) (msg : string) : IngestResult := {| event_id := id e; accepted := true; message := msg |}.
Definition duplicate_result (e : Event) : IngestResult := accepted_result e "duplicate: already processed".

(** The rest of a handler, once the event was inserted. *)
Definition once_persisted (c : Uuid) (e : Event) (channel_override : option Uuid) (k : Handler) : Handler :=
  p ← persist_command_event c e channel_override;
  guard_ p (λ p, match p with PersistDuplicate => mret (Ok (duplicate_result e)) | PersistInserted => k end).

(** The transaction is committed before the rest. *)
Definition committed (k : Handler) : Handler := ok ← ask CommitTx; require ok (Internal "error: commit transaction") k.

(** *** Definitions *)

Definition not_the_owner : IngestError := Rejected "forbidden: workflow belongs to a different owner or channel".

(** The caller may save a definition with this action. *)
Definition check_save_authority (c ch : Uuid) (caller : Pubkey) (d : WorkflowDef) : Prog (result IngestError unit) :=
  if negb (requires_elevated_authority d) then mret (Ok tt)
  else
    role ← ask (MemberRoleOf c ch caller);
    mret (match role with
          | None => Err (Internal "error: role check")
          | Some (Some r) =>
              if ((r =? "owner") || (r =? "admin"))%string then Ok tt
              else Err (Rejected "forbidden: workflows with call_webhook actions require the owner or admin role")
          | Some None => Err (Rejected "forbidden: workflows with call_webhook actions require the owner or admin role")
          end).

(** The row that an update replaces. *)
Definition find_existing (c wf ch : Uuid) (caller : Pubkey) : Prog (result IngestError (option WorkflowRecord)) :=
  found ← ask (FindWorkflow c wf);
  mret (match found with
        | None => Err (Internal "error: db get_workflow")
        | Some None => Ok None
        | Some (Some w) =>
            if negb (bool_decide (owner_pubkey w = caller)) || negb (bool_decide (w_channel w = Some ch)) then Err not_the_owner
            else Ok (Some w)
        end).

(** The stored definition, and the secret if it is new. *)
Definition with_secret (d : WorkflowDef) (def_json : JsonValue) (existing : option WorkflowRecord) : Prog (JsonValue * option string) :=
  match trigger d with
  | Webhook =>
      match (w ← existing; extract_secret (definition w)) with
      | Some secret => mret (inject_secret def_json secret, None)
      | None => u ← ask NewUuid; let secret := uuid_to_string u in mret (inject_secret def_json secret, Some secret)
      end
  | _ => mret (def_json, None)
  end.

Definition upsert_error (e : DbError) : IngestError :=
  match e with AccessDenied _ => not_the_owner | _ => Internal "error: db upsert_workflow" end.

Definition def_response (wf : Uuid) (secret : option string) : JsonValue :=
  JObject ((match secret with Some s => [("webhook_secret", JString s)] | None => [] end) ++ [("workflow_id", JString (uuid_to_string wf))]).

Definition handle_workflow_def (c : Uuid) (e : Event) (caller : Pubkey) : Handler :=
  guard_some (extract_h_tag e) (Rejected "invalid: missing h tag (channel_id)") (λ ch,
  guard_some (parse_uuid ch) (Rejected "invalid: bad channel_id format") (λ ch,
  guard_some (extract_d_tag e) (Rejected "invalid: missing d tag (workflow_id)") (λ wf,
  guard_some (parse_uuid wf) (Rejected "invalid: bad workflow_id format") (λ wf,
  is_member ← ask (IsMemberCached c ch caller);
  guard_some is_member (Internal "error: membership check") (λ is_member,
  require is_member (Rejected "forbidden: not a member of this channel") (
  match parse_yaml (content e) with
  | Err _ => mret (Err (Rejected "invalid: workflow YAML parse error"))
  | Ok (d, json_text) =>
      let nm := default (WorkflowDef.name d) (extract_tag "name" e) in
      allowed ← check_save_authority c ch caller d;
      guard_ allowed (λ _,
      guard_some (value_from_str json_text) (Internal "error: json parse of definition") (λ def_json,
      existing ← find_existing c wf ch caller;
      guard_ existing (λ existing,
      '(def_json, new_secret) ← with_secret d def_json existing;
      guard_some (value_to_str def_json) (Internal "error: json serialize") (λ final,
      once_persisted c e None (
      ok ← ask (ChannelForWrite c ch);
      require ok (Rejected "invalid: workflow channel not found") (
      saved ← ask (UpsertWorkflow c wf (Some ch) caller nm final (compute_definition_hash final));
      match saved with
      | Err err => mret (Err (upsert_error err))
      | Ok _ =>
          ask (CacheDrop c ch);;
          committed (mret (Ok (accepted_result e ("response:" +:+ value_text (def_response wf new_secret)))))
      end))))))
  end)))))).

(** *** Triggers *)

(** The members of a JSON object, as fields of the context. *)
Definition field_text (v : JsonValue) : string := match v with JString s => s | other => value_text other end.
Definition webhook_fields_of (v : option JsonValue) : gmap string string :=
  match v with
  | Some (JObject m) => foldl (λ acc kv, <[kv.1 := field_text kv.2]> acc) ∅ m
  | _ => ∅
  end.

Definition manual_context (ch : Uuid) (caller : Pubkey) (fields : gmap string string) : TriggerContext :=
  {| text := ""; author := hex_encode caller; channel_id := uuid_to_string ch; timestamp := ""; emoji := ""; message_id := "";
     is_reply := false; webhook_fields := fields |}.

Definition is_live (w : WorkflowRecord) : bool := w_enabled w && bool_decide (w_status w = Active).

Definition run_response (run : Uuid) : JsonValue := JObject [("run_id", JString (uuid_to_string run))].

Definition handle_workflow_trigger (c : Uuid) (e : Event) (caller : Pubkey) : Handler :=
  guard_some (match extract_d_tag e with Some d => Some d | None => extract_e_tag e end)
    (Rejected "invalid: missing workflow reference (d or e tag)") (λ wf,
  guard_some (parse_uuid wf) (Rejected "invalid: bad workflow_id format") (λ wf,
  workflow ← ask (GetWorkflow c wf);
  guard_some workflow (Rejected "invalid: workflow not found") (λ w,
  require (bool_decide (owner_pubkey w = caller)) (Rejected "forbidden: not authorized to trigger this workflow") (
  require (is_live w) (Rejected "forbidden: workflow is disabled or inactive") (
  guard_some (def_from_value (definition w)) (Internal "error: corrupt workflow definition") (λ d,
  guard_some (w_channel w) (Rejected "forbidden: workflow has no channel scope") (λ ch,
  auth ← check_owner_authority c ch (owner_pubkey w) d;
  match auth with
  | Err _ => mret (Err (Rejected "forbidden: not authorized to trigger this workflow"))
  | Ok _ =>
      once_persisted c e (Some ch) (
      let fields := if (content e =? "")%string then ∅ else webhook_fields_of (value_from_str (content e)) in
      let ctx := manual_context ch caller fields in
      run ← ask (CreateRun c wf (Some (id e)) (ctx_to_value ctx));
      guard_some run (Internal "error: db create_workflow_run") (λ run,
      committed (
        ask (SpawnFromValue c run (definition w) ctx);;
        mret (Ok (accepted_result e ("response:" +:+ value_text (run_response run)))))))
  end))))))).

(** *** Approvals *)

Definition check_approver_spec (spec requester_hex : string) : result IngestError unit :=
  let spec := trim spec in
  if ((spec =? "") || (spec =? "any"))%string then Ok tt
  else if is_event_id_hex spec then
    if (to_ascii_lowercase requester_hex =? to_ascii_lowercase spec)%string then Ok tt
    else Err (Rejected "forbidden: not the designated approver for this request")
  else Err (Rejected "forbidden: approver spec is not yet supported").

Definition decision_response (status : string) (run : Uuid) : JsonValue :=
  JObject [("run_id", JString (uuid_to_string run)); ("status", JString status)].

(** The common part of [handle_approval_grant] and [handle_approval_deny]. *)
Definition decide_approval (st : ApprovalStatus) (c : Uuid) (e : Event) (caller : Pubkey) (k : ApprovalRecord → Handler) : Handler :=
  guard_some (match extract_d_tag e with Some d => Some d | None => extract_e_tag e end)
    (Rejected "invalid: missing approval reference (d or e tag)") (λ token_hex,
  guard_some (hex_decode token_hex) (Rejected "invalid: bad approval token hash hex") (λ token_hash,
  approval ← ask (FindApproval c token_hash);
  guard_some approval (Rejected "invalid: approval not found") (λ a,
  require (bool_decide (a_status a = ApprovalPending)) (Rejected ("invalid: approval already " +:+ approval_status_str (a_status a))) (
  now ← ask ReadClock;
  require (now <=? from_micros (expires_at a))%Z (Rejected "invalid: approval token has expired") (
  guard_ (check_approver_spec (approver_spec a) (hex_encode caller)) (λ _,
  once_persisted c e None (
  let nt := if (content e =? "")%string then None else Some (content e) in
  updated ← ask (DecideApproval c token_hash st caller nt);
  guard_some updated (Internal "error: db update_approval") (λ updated,
  require updated (Rejected "invalid: approval already acted on (race)") (committed (k a)))))))))).

(** [i32 as usize + 1]. *)
Definition resume_index (step_index : Z) : Z := wrap 64 (wrap 64 step_index + 1).

Definition handle_approval_grant (c : Uuid) (e : Event) (caller : Pubkey) : Handler :=
  decide_approval Granted c e caller (λ a,
    ask (SpawnResume c (a_run a) (a_workflow a) (resume_index (a_step_index a)));;
    mret (Ok (accepted_result e ("response:" +:+ value_text (decision_response "granted" (a_run a)))))).

Definition handle_approval_deny (c : Uuid) (e : Event) (caller : Pubkey) : Handler :=
  decide_approval Denied c e caller (λ a,
    ask (SpawnCancel c (a_run a) (hex_encode caller));;
    mret (Ok (accepted_result e ("response:" +:+ value_text (decision_response "denied" (a_run a)))))).

(** The task that a denial spawns. *)
Definition cancel_after_denial (c run : Uuid) (by_ : string) : Prog unit :=
  r ← ask (GetRun c run);
  match r with
  | None => mret tt
  | Some r =>
      if negb (bool_decide (run_status r = WaitingApproval)) then mret tt
      else
        ask (UpdateRun c run Cancelled (current_step r) (execution_trace r)
          (Some {| failure_code := "approval_denied"; failure_message := "workflow cancelled: approval denied by " +:+ by_ |}));;
        mret tt
  end.

(** The outputs that a stored trace records. *)
Definition trace_output (outputs : StepOutputs) (entry : JsonValue) : StepOutputs :=
  match (v ← json_get entry "step_id"; as_str v), json_get entry "output" with
  | Some step_id, Some output => <[step_id := output]> outputs
  | _, _ => outputs
  end.
Definition as_array (v : JsonValue) : option (list JsonValue) := match v with JArray l => Some l | _ => None end.
Definition outputs_of_trace (trace : JsonValue) : StepOutputs := foldl trace_output ∅ (default [] (as_array trace)).

Definition resume_workflow_after_approval (cfg : WorkflowConfig) (max_chunks : nat) (c run wf : Uuid) (index : nat) : Prog unit :=
  r ← ask (GetRun c run);
  match r with
  | None => mret tt
  | Some r =>
      if negb (bool_decide (run_status r = WaitingApproval)) then mret tt
      else
        workflow ← ask (GetWorkflow c wf);
        match workflow with
        | None => mret tt
        | Some w =>
            match def_from_value (definition w) with
            | None =>
                ask (UpdateRun c run Failed (current_step r) (execution_trace r)
                  (Some {| failure_code := "invalid_definition"; failure_message := "definition parse error" |}));;
                mret tt
            | Some d =>
                let ctx := default default_context (v ← trigger_context r; ctx_from_value v) in
                res ← execute_from_step cfg max_chunks c run d ctx index (Some (outputs_of_trace (execution_trace r)));
                finalize_run c run res (as_array (execution_trace r))
            end
        end
  end.

(** ** The webhook endpoint *)

Abbreviation HttpError := (Z * string)%type (only parsing).
Abbreviation HttpHandler := (Prog (result (Z * string) JsonValue)) (only parsing).

Definition not_found : HttpError := (404%Z, "workflow not found").
Definition http_some {A B} (m : option A) (e : HttpError) (k : A → Prog (result HttpError B)) : Prog (result HttpError B) :=
  match m with Some a => k a | None => mret (Err e) end.

Definition bind_host (raw_host : string) : Prog (result BindError TenantContext) :=
  let h := normalize_host raw_host in
  if (h =? "")%string then mret (Err UnmappedHost)
  else answer ← ask (HostCommunity h); mret (bind_answer h answer).

(** [None]: an empty body; [Some None]: not JSON. *)
Definition parse_body (body : string) : result HttpError (option JsonValue) :=
  if (body =? "")%string then Ok None
  else match value_from_str body with Some v => Ok (Some v) | None => Err (400%Z, "invalid JSON body") end.

Definition webhook_context (w : WorkflowRecord) (fields : gmap string string) : TriggerContext :=
  {| text := ""; author := ""; channel_id := default "" (uuid_to_string <$> w_channel w); timestamp := ""; emoji := ""; message_id := "";
     is_reply := false; webhook_fields := fields |}.

Definition is_webhook (t : TriggerDef) : bool := match t with Webhook => true | _ => false end.

(** The caller knows the secret of the stored definition. *)
Definition check_secret (w : WorkflowRecord) (provided : string) : result HttpError unit :=
  match extract_secret (definition w) with
  | Some secret => if negb (verify_secret provided secret) then Err (401%Z, "authentication failed") else Ok tt
  | None => Err (401%Z, "webhook secret required but not configured")
  end.

Definition workflow_webhook (id_str : string) (host_header secret_header secret_query : option string) (body : string) : HttpHandler :=
  http_some (parse_uuid id_str) (400%Z, "invalid workflow UUID") (λ wf,
  tenant ← bind_host (default "" host_header);
  match tenant with
  | Err _ => mret (Err not_found)
  | Ok tenant =>
      let c := community tenant in
      workflow ← ask (GetWorkflow c wf);
      http_some workflow not_found (λ w,
      http_some (def_from_value (definition w)) (500%Z, "corrupt workflow definition") (λ d,
      if negb (is_webhook (trigger d)) then mret (Err (400%Z, "workflow does not have a webhook trigger"))
      else
        let provided := default "" (match secret_header with Some s => Some s | None => secret_query end) in
        match check_secret w provided with
        | Err err => mret (Err err)
        | Ok _ =>
            match parse_body body with
            | Err err => mret (Err err)
            | Ok v =>
                let ctx := webhook_context w (webhook_fields_of v) in
                if negb (is_live w) then mret (Err not_found)
                else
                  http_some (w_channel w) not_found (λ ch,
                  auth ← check_owner_authority c ch (owner_pubkey w) d;
                  match auth with
                  | Err _ => mret (Err not_found)
                  | Ok _ =>
                      run ← ask (CreateRun c wf None (ctx_to_value ctx));
                      http_some run (500%Z, "db error") (λ run,
                      ask (SpawnFromValue c run (definition w) ctx);;
                      mret (Ok (JObject [("run_id", JString (uuid_to_string run)); ("status", JString "pending");
                                         ("workflow_id", JString (uuid_to_string wf))])))
                  end)
            end
        end))
  end).

End doors.

(** ** Departed members *)

Section departure.
Context {JN : JsonNum}.

(** [disable_departed_member_workflows], when the statement succeeds: the tables
    after, and whether this pod drops its cached list of the channel. *)
Definition disable_departed_member_workflows (c ch : Uuid) (target : Pubkey) (s : Store) : bool * Store :=
  let '(n, s) := disable_workflows_for_owner_in_channel c ch target s in (negb (n =? 0)%nat, s).

End departure.
