(* ===== verification/WorkflowEngineProps.v ===== *)
(** * Properties of the workflow engine and of the doors to it

    Whatever the database, the clock and the other pods answer, a run starts
    only under the current authority of the owner of its workflow; the secret
    of a webhook; and the instants of the scheduler. *)
From S2P Require Import Prelude Kinds Nostr Thread Network Channel Membership WorkflowTemplate WorkflowDef WorkflowDefProps WorkflowStore.
From S2P Require Import Hex WorkflowRun WorkflowRunProps WorkflowEngine Tenant WorkflowDoors.

(** ** What starts a run *)

Section starts.
Context {JN : JsonNum} {JP : JsonPrint JN} {SL : SerdeLib JN} {CL : CronLib} {EL : EvalLib JN} {HO : HashOrder} {L : NostrLib}.
Context {NL : NpubLib} {RL : RunLib} {TD : TokenDigest} {HL : HexLib}.

(** Who may ask the engine for a run. *)
Inductive Door :=
  | EventDoor (c : Uuid) (s : StoredEvent)
  | SchedulerDoor (rounds : nat) (fired : LastFired)
  | ManualDoor (c : Uuid) (e : Event) (caller : Pubkey)
  | WebhookDoor (id_str : string) (host_header secret_header secret_query : option string) (body : string).

Definition door_program (door : Door) : Prog unit :=
  match door with
  | EventDoor c s => on_event c s;; mret tt
  | SchedulerDoor rounds fired => run_engine rounds fired;; mret tt
  | ManualDoor c e caller => handle_workflow_trigger c e caller;; mret tt
  | WebhookDoor i host sh sq body => workflow_webhook i host sh sq body;; mret tt
  end.

(** The latest role that was read since the last run. *)
Fixpoint fresh_role (h : list HistoryEvent) : option (Uuid * Uuid * Pubkey * option string) :=
  match h with
  | [] => None
  | Got (MemberRoleOf c ch pk) a :: _ => match a with Some role => Some (c, ch, pk, role) | None => None end
  | Sent (CreateRun _ _ _ _) :: _ => None
  | _ :: h => fresh_role h
  end.

(** The definition of [w] is [d], and its owner's role in [ch] allows it now. *)
Definition authorised (h : list HistoryEvent) (c ch : Uuid) (w : WorkflowRecord) (d : WorkflowDef) : Prop :=
  def_from_value (definition w) = Some d ∧
  ∃ role, fresh_role h = Some (c, ch, owner_pubkey w, role) ∧
    owner_authority_allows role (requires_elevated_authority d) = true.

(** The scheduled instant [t] is due at [now]. *)
Definition due (now : Z) (tr : TriggerDef) (t : Z) : Prop :=
  match tr with
  | Schedule (Some expr) None => cron_fire_instant expr now 60 = Some t
  | Schedule None (Some dur) => interval_fire_instant dur now = Some t ∧ ∃ last, interval_should_fire dur last now = true
  | _ => False
  end.

(** The event of a command was stored by this request. *)
Definition newly_stored (h : list HistoryEvent) (c : Uuid) (e : Event) : Prop :=
  (∃ ch, Got (InsertEvent c (id e) ch) (Some true) ∈ h) ∨
  (∃ d ch p, Got (ReplaceEvent c (id e) d ch p) (Some Inserted) ∈ h).

(** Why [door] starts a run of [w] in channel [ch] with context [ctx]. *)
Definition door_reason (door : Door) (h : list HistoryEvent) (c ch wf : Uuid) (w : WorkflowRecord) (d : WorkflowDef)
    (ev : option string) (ctx : TriggerContext) : Prop :=
  match door with
  | EventDoor c' s =>
      let k := event_kind_u32 (event s) in
      c = c' ∧ wf = w_id w ∧ Nostr.channel_id s = Some ch ∧
      (∃ ws, w ∈ ws ∧ (Got (EnabledWorkflows c ch) (Some ws) ∈ h ∨ Got (CacheGet c ch) (Some ws) ∈ h)) ∧
      enabled d = true ∧ is_workflow_execution_kind k = false ∧ trigger_matches_event (trigger d) k = true ∧
      (∀ em f, trigger d = ReactionAdded (Some em) f → emoji ctx = em) ∧
      (∀ f, trigger_filter (trigger d) = Some f →
         ∃ ec, build_eval_context ctx ∅ = Ok ec ∧ last_condition h = Some (f, ec) ∧ eval_boolean f ec = Some true) ∧
      ev = Some (id (event s)) ∧ ctx = build_trigger_context s
  | SchedulerDoor _ _ =>
      c = w_community w ∧ wf = w_id w ∧ w_channel w = Some ch ∧
      (∃ ws, w ∈ ws ∧ Got ScheduledWorkflows (Some ws) ∈ h) ∧ enabled d = true ∧ ev = None ∧
      ∃ now t, Got ReadClock now ∈ h ∧ due now (trigger d) t ∧ ctx = schedule_context ch now ∧
        head h = Some (Got (ClaimFire c wf (to_micros t)) (Some true))
  | ManualDoor c' e caller =>
      c = c' ∧ Got (GetWorkflow c wf) (Some w) ∈ h ∧ owner_pubkey w = caller ∧ is_live w = true ∧ w_channel w = Some ch ∧
      ev = Some (id e) ∧ newly_stored h c e ∧ ∃ fields, ctx = manual_context ch caller fields
  | WebhookDoor i host sh sq body =>
      parse_uuid i = Some wf ∧ Got (HostCommunity (normalize_host (default "" host))) (Some (Some c)) ∈ h ∧
      Got (GetWorkflow c wf) (Some w) ∈ h ∧ is_live w = true ∧ w_channel w = Some ch ∧ is_webhook (trigger d) = true ∧
      extract_secret (definition w) = Some (default "" (match sh with Some x => Some x | None => sq end)) ∧
      ev = None ∧ ∃ fields, ctx = webhook_context w fields
  end.

(** The run that was created and whose task is not yet spawned, and what came
    before it. *)
Fixpoint created (h : list HistoryEvent) : option (Uuid * Uuid * option JsonValue * Uuid * list HistoryEvent) :=
  match h with
  | [] => None
  | Got (CreateRun c wf _ ctx) a :: h => match a with Some run => Some (c, wf, ctx, run, tail h) | None => created h end
  | Sent (SpawnRun _ _ _ _) :: _ | Sent (SpawnFromValue _ _ _ _) :: _ => None
  | _ :: h => created h
  end.

(** When a request that starts a run may be sent. *)
Definition run_ok (door : Door) (r : Req) (h : list HistoryEvent) : Prop :=
  match r with
  | CreateRun c wf ev ctx_json => ∃ w d ch ctx, authorised h c ch w d ∧ ctx_json = ctx_to_value ctx ∧ door_reason door h c ch wf w d ev ctx
  | SpawnRun c run d ctx => ∃ wf ch w h', created h = Some (c, wf, ctx_to_value ctx, run, h') ∧ authorised h' c ch w d
  | SpawnFromValue c run v ctx =>
      ∃ wf ch w d h', created h = Some (c, wf, ctx_to_value ctx, run, h') ∧ authorised h' c ch w d ∧ v = definition w
  | _ => True
  end.

Lemma owner_authority_allows_spec role elevated : owner_authority_allows role elevated = true ↔
  ∃ r, role = Some r ∧ (elevated = true → r = "owner" ∨ r = "admin").
Proof.
  destruct role as [r|]; cbn; [|naive_solver]. destruct elevated; [rewrite orb_true_iff, !String.eqb_eq|]; naive_solver.
Qed.


(** [verify_secret] compares. *)
Lemma zip_lxor_zero (xs ys : list Z) acc : length xs = length ys → Forall (Z.le 0) xs → Forall (Z.le 0) ys → (0 ≤ acc)%Z →
  foldl Z.lor acc (zip_with Z.lxor xs ys) = 0%Z ↔ acc = 0%Z ∧ xs = ys.
Proof.
  revert ys acc. induction xs as [|x xs IH]; intros [|y ys] acc Hl Hx Hy Ha; try done; [cbn; naive_solver|]. cbn in Hl |- *.
  apply Forall_cons in Hx as [Hx Hxs]. apply Forall_cons in Hy as [Hy Hys].
  assert (Hlx : (0 ≤ Z.lxor x y)%Z) by (apply Z.lxor_nonneg; lia).
  rewrite IH; [|lia|done|done|by apply Z.lor_nonneg].
  rewrite Z.lor_eq_0_iff, Z.lxor_eq_0_iff. naive_solver.
Qed.

Lemma str_bytes_nonneg s : Forall (Z.le 0) (str_bytes s).
Proof. induction s as [|a s IH]; cbn; constructor; [unfold byte_val; lia|done]. Qed.

Lemma str_bytes_length s : length (str_bytes s) = String.length s.
Proof. induction s as [|a s IH]; cbn; [done|by rewrite IH]. Qed.

Lemma str_bytes_inj s t : str_bytes s = str_bytes t → s = t.
Proof.
  revert t. induction s as [|a s IH]; intros [|b t] H; try done. cbn in H. injection H as Hab Hst.
  rewrite <- (byte_chr_val a), <- (byte_chr_val b), Hab. f_equal. by apply IH.
Qed.

Lemma verify_secret_spec provided stored : verify_secret provided stored = true ↔ provided = stored.
Proof.
  unfold verify_secret. rewrite <- !str_bytes_length. destruct (Nat.eqb_spec (length (str_bytes provided)) (length (str_bytes stored))) as [E|E]; cbn [negb].
  - rewrite Z.eqb_eq, zip_lxor_zero by (try done; try apply str_bytes_nonneg). split; [intros [_ H]; by apply str_bytes_inj|by intros ->].
  - split; [done|]. by intros ->.
Qed.

(** *** Programs that leave the door's conditions alone *)

Section door.
Context (door : Door).
Abbreviation P := (run_ok door) (only parsing).

(** The request starts nothing. *)
Definition starts_run (r : Req) : bool :=
  match r with CreateRun _ _ _ _ | SpawnRun _ _ _ _ | SpawnFromValue _ _ _ _ => true | _ => false end.

Lemma run_ok_quiet r h : starts_run r = false → run_ok door r h.
Proof. by destruct r. Qed.

(** A program keeps the conditions, and returns a value that satisfies [Q]
    after a history that extends the one before. *)
Definition door_wp {A} (p : Prog A) (Q : A → list HistoryEvent → Prop) (h : list HistoryEvent) : Prop :=
  wp [] p (λ a h', sent_ok (run_ok door) h' ∧ h `suffix_of` h' ∧ Q a h') (λ _ _, False) h.

Lemma door_wp_ret {A} (a : A) (Q : A → list HistoryEvent → Prop) h : sent_ok (run_ok door) h → Q a h → door_wp (mret a) Q h.
Proof. intros Hs HQ. unfold door_wp. cbn. by split_and!. Qed.

Lemma door_wp_mono {A} (p : Prog A) (Q Q' : A → list HistoryEvent → Prop) h :
  (∀ a h', h `suffix_of` h' → Q a h' → Q' a h') → door_wp p Q h → door_wp p Q' h.
Proof. intros HQ. unfold door_wp. apply prog_wp_mono; [|done]. intros a h' (Hs & He & Ha). split_and!; [done|done|by apply HQ]. Qed.

Lemma door_wp_bind {A B} (p : Prog A) (f : A → Prog B) (Q : B → list HistoryEvent → Prop) h :
  door_wp p (λ a, door_wp (f a) Q) h → door_wp (p ≫= f) Q h.
Proof.
  unfold door_wp at 1 3. intros H. apply prog_wp_bind. eapply prog_wp_mono; [| |exact H]; [|done].
  cbn. intros a h' (_ & He & Ha). unfold door_wp in Ha. eapply prog_wp_mono; [| |exact Ha]; [|done].
  cbn. intros b h'' (Hs & He' & Hb). split_and!; [done|by etrans|done].
Qed.

Lemma door_wp_ask (r : Req) (Q : Ans r → list HistoryEvent → Prop) h :
  sent_ok (run_ok door) h → run_ok door r h → (∀ a, sent_ok (run_ok door) (Got r a :: Sent r :: h) → Q a (Got r a :: Sent r :: h)) →
  door_wp (ask r) Q h.
Proof.
  intros Hs Hr HQ. unfold door_wp, ask. cbn [wp]. split; [by intros c ?%elem_of_nil|]. intros a.
  assert (Hs' : sent_ok (run_ok door) (Got r a :: Sent r :: h)) by done. split; [done|]. split; [by apply suffix_cons_r, suffix_cons_r|by apply HQ].
Qed.

Lemma door_wp_sent {A} (p : Prog A) (Q : A → list HistoryEvent → Prop) h :
  door_wp p Q h → door_wp p (λ a h', sent_ok (run_ok door) h' ∧ h `suffix_of` h' ∧ Q a h') h.
Proof. unfold door_wp. apply prog_wp_mono; naive_solver. Qed.

Lemma got_suffix (x : HistoryEvent) (h h' : list HistoryEvent) : h `suffix_of` h' → x ∈ h → x ∈ h'.
Proof. intros [l ->] Hx. apply elem_of_app. by right. Qed.


(** *** Events *)

Definition condition_held (ctx : TriggerContext) (f : string) (h : list HistoryEvent) : Prop :=
  ∃ ec, build_eval_context ctx ∅ = Ok ec ∧ last_condition h = Some (f, ec) ∧ eval_boolean f ec = Some true.

Lemma evaluate_condition_door expr ctx h : sent_ok P h →
  door_wp (evaluate_condition expr ctx ∅) (λ res h', res = Ok true → condition_held ctx expr h') h.
Proof.
  intros Hs. unfold evaluate_condition, try_. destruct (build_eval_context ctx ∅) as [ec|e] eqn:E; [|by apply door_wp_ret].
  destruct (_ <? _)%nat; [by apply door_wp_ret|]. apply door_wp_bind, door_wp_ask; [done|done|].
  intros [| |] Hs'; apply door_wp_ret; try done. intros Hb. exists ec. split_and!; [done|done|].
  destruct (eval_boolean expr ec); naive_solver.
Qed.

Definition trigger_held (d : WorkflowDef) (ctx : TriggerContext) (h : list HistoryEvent) : Prop :=
  (∀ em f, trigger d = ReactionAdded (Some em) f → emoji ctx = em) ∧
  (∀ f, trigger_filter (trigger d) = Some f → condition_held ctx f h).

Lemma should_fire_door d ctx h : sent_ok P h →
  door_wp (should_fire_workflow d ctx) (λ b h', b = true → trigger_held d ctx h') h.
Proof.
  intros Hs. unfold should_fire_workflow.
  destruct (match trigger d with ReactionAdded (Some em) _ => negb (emoji ctx =? em)%string | _ => false end) eqn:Em;
    [by apply door_wp_ret|].
  assert (He : ∀ em f, trigger d = ReactionAdded (Some em) f → emoji ctx = em).
  { intros em f Ht. rewrite Ht in Em. by apply negb_false_iff, String.eqb_eq in Em. }
  destruct (trigger_filter (trigger d)) as [f|] eqn:Ef.
  - apply door_wp_bind. eapply door_wp_mono; [|by apply door_wp_sent, evaluate_condition_door].
    intros res h' _ (Hs' & _ & Hres). apply door_wp_ret; [done|]. intros Hb. split; [done|]. intros f' Hf'.
    assert (f' = f) as -> by congruence. apply Hres. by destruct res as [[]|].
  - apply door_wp_ret; [done|]. intros _. split; [done|]. intros f' Hf'. congruence.
Qed.

(** The lookup of the role, and what follows it when it allows. *)
Lemma check_owner_door c ch w d h : sent_ok P h →
  door_wp (check_owner_authority c ch (owner_pubkey w) d)
    (λ res h', ∃ a : option (option string), h' = Got (MemberRoleOf c ch (owner_pubkey w)) a :: Sent (MemberRoleOf c ch (owner_pubkey w)) :: h ∧
       (res = Ok tt → def_from_value (definition w) = Some d → authorised h' c ch w d)) h.
Proof.
  intros Hs. unfold check_owner_authority. apply door_wp_bind, door_wp_ask; [done|done|]. intros a Hs'.
  apply door_wp_ret; [done|]. exists a. split; [done|]. intros Ha Hd. split; [done|]. cbn. destruct a as [role|]; [|done].
  exists role. split; [done|]. by destruct (owner_authority_allows role _).
Qed.

Lemma fire_for_event_door c s ch w ctx_json ws h : door = EventDoor c s → sent_ok P h →
  Nostr.channel_id s = Some ch → is_workflow_execution_kind (event_kind_u32 (event s)) = false →
  ctx_to_value (build_trigger_context s) = Some ctx_json →
  w ∈ ws → Got (EnabledWorkflows c ch) (Some ws) ∈ h ∨ Got (CacheGet c ch) (Some ws) ∈ h →
  door_wp (fire_for_event c ch (event_kind_u32 (event s)) (id (event s)) (build_trigger_context s) ctx_json w) (λ _ _, True) h.
Proof.
  intros Hdoor Hs Hch Hk Hj Hw Hl. unfold fire_for_event.
  destruct (def_from_value (definition w)) as [d|] eqn:Hd; [|by apply door_wp_ret].
  destruct (negb (enabled d) || negb (trigger_matches_event _ _)) eqn:Eg; [by apply door_wp_ret|].
  apply orb_false_iff in Eg as [He%negb_false_iff Ht%negb_false_iff].
  apply door_wp_bind. eapply door_wp_mono; [|by apply door_wp_sent, should_fire_door].
  intros fire h1 Hex1 (Hs1 & _ & Hf). destruct fire; cbn [negb]; [|by apply door_wp_ret]. destruct (Hf eq_refl) as [Hem Hfl].
  apply door_wp_bind. eapply door_wp_mono; [|by apply door_wp_sent, check_owner_door].
  intros auth h2 Hex2 (Hs2 & _ & a & -> & Hauth). destruct auth as [[]|e]; [|by apply door_wp_ret].
  specialize (Hauth eq_refl Hd). apply door_wp_bind, door_wp_ask; [done| |].
  - exists w, d, ch, (build_trigger_context s). split_and!; [done|done|]. rewrite Hdoor. cbn. split_and!; try done.
    exists ws. split; [done|]. destruct Hl as [Hl|Hl]; [left|right]; by do 2 apply list_elem_of_further; eapply got_suffix.
  - intros run Hs3.
    destruct run as [run|]; [|by apply door_wp_ret].
    apply door_wp_ask; [exact Hs3| |done]. eexists _, ch, w, _. split; [cbn; by rewrite Hj|exact Hauth].
Qed.


Lemma for_each_door {A} (f : A → Prog unit) (l : list A) h : sent_ok P h →
  (∀ a h', a ∈ l → h `suffix_of` h' → sent_ok P h' → door_wp (f a) (λ _ _, True) h') →
  door_wp (for_each f l) (λ _ _, True) h.
Proof.
  revert h. induction l as [|a l IH]; intros h Hs Hf; cbn [for_each]; [by apply door_wp_ret|].
  apply door_wp_bind. eapply door_wp_mono; [|apply door_wp_sent, Hf; [apply list_elem_of_here|done|done]].
  intros [] h' Hex (Hs' & _). apply IH; [done|]. intros b h'' Hb Hex' Hs''. apply Hf; [by apply list_elem_of_further|by etrans|done].
Qed.

Lemma enabled_workflows_door c ch h : sent_ok P h →
  door_wp (enabled_workflows c ch) (λ res h', ∀ ws, res = Some ws →
    Got (EnabledWorkflows c ch) (Some ws) ∈ h' ∨ Got (CacheGet c ch) (Some ws) ∈ h') h.
Proof.
  intros Hs. unfold enabled_workflows. apply door_wp_bind, door_wp_ask; [done|done|]. intros [ws|] Hs1.
  - apply door_wp_ret; [done|]. intros ws' [= <-]. right. apply list_elem_of_here.
  - apply door_wp_bind, door_wp_ask; [done|done|]. intros [ws|] Hs2; [|by apply door_wp_ret].
    apply door_wp_bind, door_wp_ask; [done|done|]. intros [] Hs3. apply door_wp_ret; [done|]. intros ws' [= <-]. left.
    do 2 apply list_elem_of_further. apply list_elem_of_here.
Qed.

Lemma on_event_door c s h : door = EventDoor c s → sent_ok P h → door_wp (on_event c s) (λ _ _, True) h.
Proof.
  intros Hdoor Hs. unfold on_event. destruct (Nostr.channel_id s) as [ch|] eqn:Hch; [|by apply door_wp_ret].
  cbv zeta. destruct (is_workflow_execution_kind _) eqn:Hk; [by apply door_wp_ret|].
  apply door_wp_bind. eapply door_wp_mono; [|by apply door_wp_sent, enabled_workflows_door].
  intros [ws|] h1 Hex (Hs1 & _ & Hws); [|by apply door_wp_ret]. specialize (Hws ws eq_refl).
  destruct ws as [|w0 ws0]; [by apply door_wp_ret|]. set (ws := w0 :: ws0) in *. clearbody ws.
  destruct (ctx_to_value (build_trigger_context s)) as [ctx_json|] eqn:Hj; [|by apply door_wp_ret].
  apply door_wp_bind. eapply door_wp_mono; [|apply door_wp_sent, for_each_door; [exact Hs1|]].
  - intros [] h2 _ (Hs2 & _). by apply door_wp_ret.
  - intros w h2 Hw Hex2 Hs2. eapply fire_for_event_door; try done. destruct Hws as [Hl|Hl]; [left|right]; by eapply got_suffix.
Qed.

(** *** The scheduler *)

Lemma interval_prefilter_fire fired c wf dur last now fired' :
  interval_prefilter_should_fire fired c wf dur last now = (true, fired') → interval_should_fire dur last now = true ∧ fired' = fired.
Proof. unfold interval_prefilter_should_fire. destruct (interval_should_fire dur last now); naive_solver. Qed.

Lemma scheduled_instant_door now c wf tr fired h : sent_ok P h →
  door_wp (scheduled_instant now c wf tr fired) (λ res h', ∀ t ty, res.1 = Some (t, ty) → due now tr t) h.
Proof.
  intros Hs. unfold scheduled_instant. destruct tr as [f|em f|f|[expr|] [dur|]|]; try (by apply door_wp_ret).
  - apply door_wp_ret; [done|]. intros t ty. cbn. by intros (i & Hi & [= -> ->])%fmap_Some.
  - apply door_wp_bind. unfold interval_anchor.
    assert (Hrest : ∀ last h', sent_ok P h' → door_wp
      (let '(fire, fired) := interval_prefilter_should_fire fired c wf dur last now in
       mret (if (fire : bool) then (λ i, (i, IntervalTrigger)) <$> interval_fire_instant dur now else None, fired))
      (λ res h', ∀ t ty, res.1 = Some (t, ty) → due now (Schedule None (Some dur)) t) h').
    { intros last h' Hs'. destruct (interval_prefilter_should_fire fired c wf dur last now) as [fire fired'] eqn:Ef.
      apply door_wp_ret; [done|]. intros t ty. cbn. destruct fire; [|done]. apply interval_prefilter_fire in Ef as [Ef _].
      intros (i & Hi & [= -> ->])%fmap_Some. split; [done|by exists last]. }
    destruct (fired !! (c, wf)) as [t|]; [by apply door_wp_ret; [|apply Hrest]|].
    apply door_wp_bind, door_wp_ask; [done|done|]. intros a Hs'. apply door_wp_ret; [done|]. by apply Hrest.
Qed.

Lemma claim_and_run_door rounds fired0 now ws w ch d t ty fired h : door = SchedulerDoor rounds fired0 → sent_ok P h →
  authorised h (w_community w) ch w d → w_channel w = Some ch → enabled d = true → due now (trigger d) t →
  Got ReadClock now ∈ h → w ∈ ws → Got ScheduledWorkflows (Some ws) ∈ h →
  door_wp (claim_and_run now (w_community w) ch (w_id w) d t ty fired) (λ _ _, True) h.
Proof.
  intros Hdoor Hs Ha Hch He Hdue Hn Hw Hl. unfold claim_and_run. apply door_wp_bind, door_wp_ask; [done|done|].
  intros [[]|] Hs1; [|by apply door_wp_ret..]. cbv zeta.
  destruct (ctx_to_value (schedule_context ch now)) as [ctx_json|] eqn:Hj; [|by apply door_wp_ret].
  apply door_wp_bind, door_wp_ask; [done| |].
  - exists w, d, ch, (schedule_context ch now). split_and!; [exact Ha|done|]. rewrite Hdoor. cbn. split_and!; try done.
    + exists ws. split; [done|]. by do 2 apply list_elem_of_further.
    + exists now, t. split_and!; try done. by do 2 apply list_elem_of_further.
  - intros [run|] Hs2; [|by apply door_wp_ret]. apply door_wp_bind, door_wp_ask; [done|done|]. intros attached Hs3.
    apply door_wp_bind, door_wp_ask; [done| |intros [] Hs4; by apply door_wp_ret].
    eexists _, ch, w, _. split; [cbn; by rewrite Hj|exact Ha].
Qed.

Lemma schedule_one_door rounds fired0 now ws w fired h : door = SchedulerDoor rounds fired0 → sent_ok P h →
  Got ReadClock now ∈ h → w ∈ ws → Got ScheduledWorkflows (Some ws) ∈ h →
  door_wp (schedule_one now w fired) (λ _ _, True) h.
Proof.
  intros Hdoor Hs Hn Hw Hl. unfold schedule_one. cbv zeta.
  destruct (def_from_value (definition w)) as [d|] eqn:Hd; [|by apply door_wp_ret].
  destruct (enabled d) eqn:He; cbn [negb]; [|by apply door_wp_ret].
  destruct (w_channel w) as [ch|] eqn:Hch; [|by apply door_wp_ret].
  apply door_wp_bind. eapply door_wp_mono; [|by apply door_wp_sent, scheduled_instant_door].
  intros [instant fired1] h1 Hex1 (Hs1 & _ & Hdue). destruct instant as [[t ty]|]; [|by apply door_wp_ret].
  specialize (Hdue t ty eq_refl). apply door_wp_bind. eapply door_wp_mono; [|by apply door_wp_sent, check_owner_door].
  intros auth h2 Hex2 (Hs2 & _ & a & -> & Hauth). destruct auth as [[]|e]; [|by apply door_wp_ret].
  eapply claim_and_run_door; try done.
  - by apply Hauth.
  - do 2 apply list_elem_of_further. by eapply got_suffix.
  - do 2 apply list_elem_of_further. by eapply got_suffix.
Qed.

Lemma schedule_all_door rounds fired0 now ws0 ws fired h : door = SchedulerDoor rounds fired0 → sent_ok P h →
  Got ReadClock now ∈ h → ws ⊆ ws0 → Got ScheduledWorkflows (Some ws0) ∈ h →
  door_wp (schedule_all now ws fired) (λ _ _, True) h.
Proof.
  intros Hdoor. revert fired h. induction ws as [|w ws IH]; intros fired h Hs Hn Hw Hl; cbn [schedule_all]; [by apply door_wp_ret|].
  apply door_wp_bind. eapply door_wp_mono; [|eapply door_wp_sent, schedule_one_door; try done; set_solver].
  intros fired1 h1 Hex (Hs1 & _). apply IH; [done|by eapply got_suffix|set_solver|by eapply got_suffix].
Qed.

Lemma tick_door rounds fired0 fired h : door = SchedulerDoor rounds fired0 → sent_ok P h → door_wp (tick fired) (λ _ _, True) h.
Proof.
  intros Hdoor Hs. unfold tick. apply door_wp_bind, door_wp_ask; [done|done|]. intros [] Hs1.
  apply door_wp_bind, door_wp_ask; [done|done|]. intros now Hs2.
  apply door_wp_bind, door_wp_ask; [done|done|]. intros [ws|] Hs3; [|by apply door_wp_ret].
  apply door_wp_bind. eapply door_wp_mono; [|eapply door_wp_sent, (schedule_all_door _ _ now ws ws); try done].
  - intros fired1 h1 _ (Hs4 & _). by apply door_wp_ret.
  - do 2 apply list_elem_of_further. apply list_elem_of_here.
  - apply list_elem_of_here.
Qed.

Lemma run_engine_door rounds0 fired0 rounds fired h : door = SchedulerDoor rounds0 fired0 → sent_ok P h →
  door_wp (run_engine rounds fired) (λ _ _, True) h.
Proof.
  intros Hdoor. revert fired h. induction rounds as [|rounds IH]; intros fired h Hs; cbn [run_engine]; [by apply door_wp_ret|].
  apply door_wp_bind. eapply door_wp_mono; [|by eapply door_wp_sent, tick_door]. intros fired1 h1 _ (Hs1 & _). by apply IH.
Qed.


(** *** Command events *)

Lemma persist_door c e ov h : sent_ok P h →
  door_wp (persist_command_event c e ov)
    (λ res h', fresh_role h' = fresh_role h ∧ (res = Ok PersistInserted → newly_stored h' c e)) h.
Proof.
  intros Hs. unfold persist_command_event, require, guard_some.
  apply door_wp_bind, door_wp_ask; [done|done|]. intros begun Hs1. destruct begun; [|by apply door_wp_ret].
  apply door_wp_bind, door_wp_ask; [done|done|]. intros guarded Hs2. destruct guarded; [|by apply door_wp_ret].
  destruct (stored_d_tag e) as [d_tag|].
  - destruct (_ <? _)%nat; [by apply door_wp_ret|].
    apply door_wp_bind, door_wp_ask; [done|done|]. intros [st|] Hs3; [|by apply door_wp_ret].
    apply door_wp_ret; [done|]. split; [done|]. intros Hok. right. eexists _, _, _.
    assert (st = Inserted) as ->; [|apply list_elem_of_here].
    destruct st; cbn in Hok; try done; destruct (parse_expected_workflow_revision _ _) as [[|]|]; try done; by destruct (_ =? _)%Z.
  - apply door_wp_bind, door_wp_ask; [done|done|]. intros [b|] Hs3; [|by apply door_wp_ret].
    apply door_wp_ret; [done|]. split; [done|]. destruct b; [|done]. intros _. left. eexists. apply list_elem_of_here.
Qed.

Lemma once_persisted_door c e ov (k : Prog (result IngestError IngestResult)) h : sent_ok P h →
  (∀ h', h `suffix_of` h' → sent_ok P h' → newly_stored h' c e → fresh_role h' = fresh_role h → door_wp k (λ _ _, True) h') →
  door_wp (once_persisted c e ov k) (λ _ _, True) h.
Proof.
  intros Hs Hk. unfold once_persisted. apply door_wp_bind. eapply door_wp_mono; [|by apply door_wp_sent, persist_door].
  intros res h' Hex (Hs' & _ & Hf & Hn). destruct res as [[]|err]; cbn [guard_]; [by apply door_wp_ret|by apply Hk; [| |apply Hn|]|by apply door_wp_ret].
Qed.

Lemma newly_stored_suffix h h' c e : h `suffix_of` h' → newly_stored h c e → newly_stored h' c e.
Proof. intros Hex [(ch & Hi)|(d & ch & p & Hi)]; [left; exists ch|right; exists d, ch, p]; by eapply got_suffix. Qed.

Lemma handle_workflow_trigger_door c e caller h : door = ManualDoor c e caller → sent_ok P h →
  door_wp (handle_workflow_trigger c e caller) (λ _ _, True) h.
Proof.
  intros Hdoor Hs. unfold handle_workflow_trigger, guard_some, require.
  destruct (match extract_d_tag e with Some d => Some d | None => extract_e_tag e end) as [wf|]; [|by apply door_wp_ret].
  destruct (parse_uuid wf) as [wf'|]; [|by apply door_wp_ret].
  apply door_wp_bind, door_wp_ask; [done|done|]. intros [w|] Hs1; [|by apply door_wp_ret].
  case_bool_decide as Ho; [|by apply door_wp_ret]. destruct (is_live w) eqn:Hlive; [|by apply door_wp_ret].
  destruct (def_from_value (definition w)) as [d|] eqn:Hd; [|by apply door_wp_ret].
  destruct (w_channel w) as [ch|] eqn:Hch; [|by apply door_wp_ret].
  apply door_wp_bind. eapply door_wp_mono; [|by apply door_wp_sent, check_owner_door].
  intros auth h2 Hex2 (Hs2 & _ & a & Heq & Hauth). destruct auth as [[]|err]; [|by apply door_wp_ret].
  specialize (Hauth eq_refl Hd). assert (Hw : Got (GetWorkflow c wf') (Some w) ∈ h2).
  { eapply got_suffix; [exact Hex2|]. apply list_elem_of_here. }
  clear Heq Hex2. apply once_persisted_door; [done|]. intros h3 Hex3 Hs3 Hnew Hf. cbv zeta.
  assert (Hauth3 : authorised h3 c ch w d). { destruct Hauth as (? & role & Hr & ?). split; [done|]. exists role. by rewrite Hf. }
  apply door_wp_bind, door_wp_ask; [done| |].
  - eexists w, d, ch, _. split; [exact Hauth3|]. split; [done|]. rewrite Hdoor. cbn. split_and!; try done; [by eapply got_suffix|by eexists].
  - intros [run|] Hs4; [|by apply door_wp_ret]. unfold committed, require.
    apply door_wp_bind, door_wp_ask; [done|done|]. intros ok Hs5. destruct ok; [|by apply door_wp_ret].
    apply door_wp_bind, door_wp_ask; [done| |intros [] Hs6; by apply door_wp_ret].
    eexists _, ch, w, d, _. split_and!; [done|exact Hauth3|done].
Qed.

(** *** The webhook *)

Lemma bind_host_door raw h : sent_ok P h →
  door_wp (bind_host raw) (λ res h', ∀ t, res = Ok t → Got (HostCommunity (normalize_host raw)) (Some (Some (community t))) ∈ h') h.
Proof.
  intros Hs. unfold bind_host. cbv zeta. destruct (_ =? "")%string; [by apply door_wp_ret|].
  apply door_wp_bind, door_wp_ask; [done|done|]. intros a Hs1. apply door_wp_ret; [done|]. intros t Ht.
  destruct a as [[c|]|]; cbn in Ht; simplify_eq. apply list_elem_of_here.
Qed.

Lemma workflow_webhook_door i host sh sq body h : door = WebhookDoor i host sh sq body → sent_ok P h →
  door_wp (workflow_webhook i host sh sq body) (λ _ _, True) h.
Proof.
  intros Hdoor Hs. unfold workflow_webhook, http_some.
  destruct (parse_uuid i) as [wf|] eqn:Hi; [|by apply door_wp_ret].
  apply door_wp_bind. eapply door_wp_mono; [|by apply door_wp_sent, bind_host_door].
  intros tenant h1 Hex1 (Hs1 & _ & Ht). destruct tenant as [tenant|err]; [|by apply door_wp_ret]. specialize (Ht tenant eq_refl). cbv zeta.
  apply door_wp_bind, door_wp_ask; [done|done|]. intros [w|] Hs2; [|by apply door_wp_ret].
  destruct (def_from_value (definition w)) as [d|] eqn:Hd; [|by apply door_wp_ret].
  destruct (is_webhook (trigger d)) eqn:Hwh; cbn [negb]; [|by apply door_wp_ret].
  set (provided := default "" (match sh with Some x => Some x | None => sq end)).
  destruct (check_secret w provided) as [[]|err] eqn:Hsec; [|by apply door_wp_ret].
  destruct (parse_body body) as [v|err]; [|by apply door_wp_ret].
  destruct (is_live w) eqn:Hlive; cbn [negb]; [|by apply door_wp_ret].
  destruct (w_channel w) as [ch|] eqn:Hch; [|by apply door_wp_ret].
  apply door_wp_bind. eapply door_wp_mono; [|by apply door_wp_sent, check_owner_door].
  intros auth h2 Hex2 (Hs3 & _ & a & Heq & Hauth). destruct auth as [[]|err]; [|by apply door_wp_ret].
  specialize (Hauth eq_refl Hd).
  assert (Hw : Got (GetWorkflow (community tenant) wf) (Some w) ∈ h2).
  { eapply got_suffix; [exact Hex2|]. apply list_elem_of_here. }
  assert (Hc : Got (HostCommunity (normalize_host (default "" host))) (Some (Some (community tenant))) ∈ h2).
  { eapply got_suffix; [exact Hex2|]. do 2 apply list_elem_of_further. exact Ht. }
  clear Heq Hex2. apply door_wp_bind, door_wp_ask; [done| |].
  - eexists w, d, ch, _. split; [exact Hauth|]. split; [done|]. rewrite Hdoor. cbn. split_and!; try done; [|by eexists].
    unfold check_secret in Hsec. destruct (extract_secret (definition w)) as [secret|]; [|done]. f_equal.
    destruct (verify_secret provided secret) eqn:Hv; [|done]. by apply verify_secret_spec in Hv.
  - intros [run|] Hs4; [|by apply door_wp_ret].
    apply door_wp_bind, door_wp_ask; [done| |intros [] Hs5; by apply door_wp_ret].
    eexists _, ch, w, d, _. split_and!; [done|exact Hauth|done].
Qed.

End door.

(** C19: A run starts only with authority that is current. Whatever the database, the clock and
    the other pods answer, each door to the engine (a stored event, the scheduler, a manual
    trigger, a webhook) finishes, and a run is created only after the role of the workflow's
    owner in its channel was read, since the last run, and allows the definition: a member, and
    an owner or admin if a step calls a webhook. Moreover the door has its reason: an event of
    the channel whose kind, emoji and filter match an enabled workflow; an instant that is due
    and whose claim this tick has just won; a trigger by the owner, newly stored, of a live
    workflow; a request with the stored secret for a live webhook of the host's community. The
    task that is spawned is that of the run just created, under the definition that was checked
    and with the context that was stored. *)
Theorem runs_start_with_current_authority env door :
  ∃ h, run env (door_program door) [] = (Finished tt, h) ∧ sent_ok (run_ok door) h.
Proof.
  destruct (prog_wp_run env (door_program door) (λ _ h, sent_ok (run_ok door) h) []) as ([] & h & Hr & Hs); [|by exists h].
  assert (Hp : ∀ A (p : Prog A), door_wp door p (λ _ _, True) [] → wp [] (p ≫= λ _, mret tt) (λ _ h, sent_ok (run_ok door) h) (λ _ _, False) []).
  { intros A p Hp. apply prog_wp_bind. eapply prog_wp_mono; [| |exact Hp]; [|done]. cbn. by intros a h (? & _). }
  destruct door as [c s|rounds fired|c e caller|i host sh sq body]; apply Hp.
  - by apply on_event_door.
  - by eapply run_engine_door.
  - by apply handle_workflow_trigger_door.
  - by apply workflow_webhook_door.
Qed.

End starts.

(** ** A request to a webhook *)

Module SampleDoor.
Import SampleRun.

#[local] Existing Instance sample_num.
#[local] Existing Instance sample_print.
#[local] Existing Instance sample_eval.
#[local] Existing Instance canonical_order.
#[local] Existing Instance text_lib.
#[local] Existing Instance no_keys.
#[local] Existing Instance plain_urls.

(** Its author has set [enabled: false]. *)
Definition paused_def : WorkflowDef :=
  {| name := "paused"; description := None; trigger := Webhook; enabled := false; steps := [sample_step "pause" None (Delay "5s")] |}.
Definition paused_serde : SerdeLib sample_num := {|
  def_from_yaml := λ _, None; def_to_json := λ _, None; def_from_value := λ _, Some paused_def; value_from_str := λ _, Some (JObject []);
  value_to_str := λ _, None; ctx_to_value := λ _, Some JNull; ctx_from_value := λ _, None
|}.
#[local] Existing Instance paused_serde.
Definition paused_row : WorkflowRecord := new_workflow 0 7 3 (Some 5%N) [1%Z] "paused" (JObject [("_webhook_secret", JString "s3cret")]) [].

Definition door_environment (role : option string) : Environment := {|
  answer := λ h r, match r as q return Ans q with
                   | HostCommunity h => Some (Some 7%N) : Ans (HostCommunity h)
                   | GetWorkflow c wf => Some paused_row : Ans (GetWorkflow c wf)
                   | MemberRoleOf c ch pk => Some role : Ans (MemberRoleOf c ch pk)
                   | CreateRun c wf ev ctx => Some 9%N : Ans (CreateRun c wf ev ctx)
                   | q => sample_answer q
                   end;
  cut := λ _, None
|}.

(** The status, and how many tasks were spawned. *)
Definition webhook_outcome (role : option string) (secret : string) : Z * nat :=
  let '(res, h) := run (door_environment role) (workflow_webhook "11" (Some "Relay.example:443") (Some secret) None "") [] in
  (match res with Finished (Ok _) => 202%Z | Finished (Err e) => e.1 | WasCut _ => 0%Z end,
   length (List.filter (λ x, match x with Sent (SpawnFromValue _ _ _ _) => true | _ => false end) h)).

Example webhook_needs_secret_and_member :
  webhook_outcome (Some "member") "s3cret" = (202%Z, 1%nat) ∧ webhook_outcome (Some "member") "guess" = (401%Z, 0%nat) ∧
  webhook_outcome None "s3cret" = (404%Z, 0%nat).
Proof. vm_compute. split_and!; reflexivity. Qed.

End SampleDoor.
