(* ===== verification/WorkflowCluster.v ===== *)
(** * Replicas of the scheduler on one database

    Every pod of the relay runs the loop of [WorkflowEngine::run]. Here the
    loops of any number of pods are interleaved request by request on the tables
    of [WorkflowStore]: a statement takes effect atomically, its reply may be
    lost, a pod may restart at any point, and the other users of the tables may
    do anything that adds no claim. Each claimed instant starts at most one run. *)
From S2P Require Import Prelude Kinds Nostr Network Channel Membership WorkflowTemplate WorkflowDef WorkflowDefProps WorkflowStore.
From S2P Require Import Hex WorkflowRun WorkflowRunProps WorkflowEngine Tenant WorkflowDoors WorkflowEngineProps.

Section cluster.
Context {JN : JsonNum} {JP : JsonPrint JN} {SL : SerdeLib JN} {CL : CronLib} {EL : EvalLib JN} {HO : HashOrder} {L : NostrLib}.
Context {NL : NpubLib} {RL : RunLib} {TD : TokenDigest} {HL : HexLib}.

Abbreviation Instant := (Uuid * Uuid * Z)%type (only parsing).

(** A pod: what is left of its loop, and its requests and answers so far. *)
Record Replica := { loop : Prog LastFired; log : list HistoryEvent }.

Record Cluster := {
  store : Store;
  replicas : list Replica;
  (** The claims that were deleted: pruned, or with their workflow. *)
  forgotten : gset Instant
}.

(** The statement behind a request of the scheduler; [now] and [fresh] are the
    database's clock and a new id. *)
Definition execute (now : Z) (fresh : Uuid) (r : Req) (s : Store) : option (Ans r * Store) :=
  match r with
  | ScheduledWorkflows => Some (Some (list_all_enabled_workflows s), s)
  | MemberRoleOf c ch pk => Some (Some (get_member_role c ch pk (members s)), s)
  | LatestFire c wf => Some (Some (latest_scheduled_workflow_fire c wf s), s)
  | ClaimFire c wf t =>
      let '(claim, s) := claim_scheduled_workflow_fire now c wf t s in Some (Some (bool_decide (is_Some claim)), s)
  | CreateRun c wf ev ctx =>
      let '(res, s) := create_workflow_run now fresh c wf ev ctx s in
      Some (match res with Ok i => Some i | Err _ => None end, s)
  | AttachRun c wf t i => let '(ok, s) := attach_scheduled_workflow_run c wf t i s in Some (ok, s)
  | _ => None
  end.

(** What the engine sees when the database does not answer. *)
Definition no_answer (r : Req) : option (Ans r) :=
  match r with
  | ScheduledWorkflows => Some None
  | MemberRoleOf _ _ _ => Some None
  | LatestFire _ _ => Some None
  | ClaimFire _ _ _ => Some None
  | CreateRun _ _ _ _ => Some None
  | AttachRun _ _ _ _ => Some false
  | _ => None
  end.

Inductive answered (s : Store) (r : Req) : Ans r → Store → Prop :=
  | answered_ok now fresh a s' : execute now fresh r s = Some (a, s') → answered s r a s'
  | answered_lost now fresh a s' a' : execute now fresh r s = Some (a, s') → no_answer r = Some a' → answered s r a' s'
  | answered_down a' : no_answer r = Some a' → answered s r a' s
  | answered_elsewhere a : no_answer r = None → answered s r a s.

Definition deleted_claims (s s' : Store) : gset Instant := dom (fires s) ∖ dom (fires s').

Inductive cluster_step (S : Cluster) : Cluster → Prop :=
  | step_request i r k h a s' :
      replicas S !! i = Some {| loop := Ask r k; log := h |} → answered (store S) r a s' →
      cluster_step S {| store := s'; replicas := <[i := {| loop := k a; log := Got r a :: Sent r :: h |}]> (replicas S);
                        forgotten := forgotten S |}
  | step_restart i p rounds :
      replicas S !! i = Some p →
      cluster_step S {| store := store S; replicas := <[i := {| loop := run_engine rounds ∅; log := log p |}]> (replicas S);
                        forgotten := forgotten S |}
  | step_join rounds :
      cluster_step S {| store := store S; replicas := {| loop := run_engine rounds ∅; log := [] |} :: replicas S;
                        forgotten := forgotten S |}
  | step_others s' :
      dom (fires s') ⊆ dom (fires (store S)) →
      cluster_step S {| store := s'; replicas := replicas S; forgotten := forgotten S ∪ deleted_claims (store S) s' |}.

(** From any tables, without pods. *)
Definition cluster_start (s : Store) : Cluster := {| store := s; replicas := []; forgotten := ∅ |}.
Definition cluster_reachable (S : Cluster) : Prop := ∃ s, rtc cluster_step (cluster_start s) S.

(** ** Claims and runs of a log *)

Fixpoint claims_won (h : list HistoryEvent) : list Instant :=
  match h with
  | [] => []
  | Got (ClaimFire c wf t) a :: h => match a with Some true => (c, wf, t) :: claims_won h | _ => claims_won h end
  | _ :: h => claims_won h
  end.

(** The claim that a request follows at once. *)
Definition claim_before (h : list HistoryEvent) : option Instant :=
  match h with
  | Got (ClaimFire c wf t) a :: _ => match a with Some true => Some (c, wf, t) | _ => None end
  | _ => None
  end.

(** The instants for which runs were created. *)
Fixpoint instants_run (h : list HistoryEvent) : list Instant :=
  match h with
  | [] => []
  | Sent (CreateRun _ _ _ _) :: h => match claim_before h with Some k => k :: instants_run h | None => instants_run h end
  | _ :: h => instants_run h
  end.

Fixpoint runs_created (h : list HistoryEvent) : nat :=
  match h with
  | [] => 0
  | Sent (CreateRun _ _ _ _) :: h => S (runs_created h)
  | _ :: h => runs_created h
  end.

Definition all_instants_run (S : Cluster) : list Instant := replicas S ≫= λ p, instants_run (log p).
Definition all_claims_won (S : Cluster) : list Instant := replicas S ≫= λ p, claims_won (log p).

(** A claim is used for one run only: it is directly before it. *)
Lemma instants_run_claims_won h : instants_run h `sublist_of` claims_won h.
Proof.
  assert (H : ∀ h, instants_run h `sublist_of` claims_won h ∧
    ∀ k, claim_before h = Some k → k :: instants_run h `sublist_of` claims_won h).
  { clear h. intros h. induction h as [|x h [IH1 IH2]]; [by split|]. destruct x as [r|r a|c]; cbn [instants_run claims_won claim_before].
    - split; [|done]. destruct r; try done. destruct (claim_before h) as [k|] eqn:E; [by apply IH2|done].
    - destruct r; try done. destruct a as [[]|]; cbn; (split; [try done; by constructor|]); try done. intros k [= <-]. by constructor.
    - done. }
  apply H.
Qed.

Abbreviation door := (SchedulerDoor 0 ∅) (only parsing).

(** Every run of a log has its claim. *)
Lemma instants_run_length h : sent_ok (run_ok door) h → length (instants_run h) = runs_created h.
Proof.
  induction h as [|[r|r a|c] h IH]; cbn [sent_ok instants_run runs_created]; [done| |exact IH|exact IH].
  intros [Hr Hs]. destruct r; try by apply IH. destruct Hr as (w & d & ch & cx & _ & _ & Hreason). cbn in Hreason.
  destruct Hreason as (_ & _ & _ & _ & _ & _ & now & t & _ & _ & _ & Hh). destruct h as [|x h]; [done|]. cbn in Hh. injection Hh as ->.
  cbn [claim_before length]. f_equal. by apply IH.
Qed.

(** ** The invariant *)

Definition replica_ok (p : Replica) : Prop :=
  sent_ok (run_ok door) (log p) ∧ wp [] (loop p) (λ _ h, sent_ok (run_ok door) h) (λ _ _, False) (log p).

Definition live_claims (S : Cluster) : list Instant := filter (λ k, k ∉ forgotten S) (all_claims_won S).

Definition cluster_inv (S : Cluster) : Prop :=
  (∀ p, p ∈ replicas S → replica_ok p) ∧
  (∀ k, k ∈ all_claims_won S → k ∈ dom (fires (store S)) ∪ forgotten S) ∧
  NoDup (live_claims S).

(** Every kind of request has an answer. *)
Lemma answer_inhabited (r : Req) : ∃ a : Ans r, True.
Proof.
  destruct r; cbn; try (by exists None); try (by exists true); try (by exists tt); try (by exists 0%N); try (by exists 0%Z); try (by exists EvalDone).
  - by exists (Ok "").
  - by exists (Ok tt).
Qed.

Lemma wp_sent_now {A} (P : Req → list HistoryEvent → Prop) cs (p : Prog A) Q (X : Cutter → list HistoryEvent → Prop) h :
  (∀ a h, Q a h → sent_ok P h) → (∀ c h, X c h → sent_ok P h) → wp cs p Q X h → sent_ok P h.
Proof.
  revert cs Q X h. induction p as [A a|A r k IH|A B c p IHp k IH]; intros cs Q X h HQ HX; cbn.
  - apply HQ.
  - intros [_ Ha]. destruct (answer_inhabited r) as [a _]. destruct (IH a cs Q X _ HQ HX (Ha a)) as [_ Hs]. exact Hs.
  - apply IHp; [intros b h'; by apply IH|]. intros c' h'. case_bool_decide; [by apply IH|apply HX].
Qed.

Lemma run_engine_ok rounds h : sent_ok (run_ok door) h → replica_ok {| loop := run_engine rounds ∅; log := h |}.
Proof.
  intros Hs. split; [exact Hs|]. cbn. eapply prog_wp_mono; [| |by eapply (run_engine_door door)]; [|done]. cbn. by intros a h' (? & _).
Qed.

Lemma replica_step r k h a : replica_ok {| loop := Ask r k; log := h |} → replica_ok {| loop := k a; log := Got r a :: Sent r :: h |}.
Proof.
  intros [Hs [_ Ha]]. cbn in *. specialize (Ha a). split; [|exact Ha]. cbn.
  eapply wp_sent_now in Ha; [exact Ha|done|done].
Qed.

(** What one answer does to the claims. *)
Lemma answered_fires s r a s' : answered s r a s' →
  dom (fires s) ⊆ dom (fires s') ∧
  ∀ k, claim_before [Got r a] = Some k → (k ∉ dom (fires s)) ∧ k ∈ dom (fires s').
Proof.
  assert (Hexec : ∀ now fresh a s', execute now fresh r s = Some (a, s') → dom (fires s) ⊆ dom (fires s') ∧
    ∀ k, claim_before [Got r a] = Some k → (k ∉ dom (fires s)) ∧ k ∈ dom (fires s')).
  { clear a s'. intros now fresh a s' He. destruct r; cbn in He; try done; try (by injection He as <- <-; cbn).
    - unfold claim_scheduled_workflow_fire in He. destruct (workflows s !! (community, workflow)) as [w|]; [|by injection He as <- <-].
      destruct (fires s !! (community, workflow, scheduled_for)) as [f|] eqn:Ef; [by injection He as <- <-|].
      injection He as <- <-. cbn. split; [rewrite dom_insert_L; set_solver|]. intros k [= <-]. split; [by apply not_elem_of_dom|].
      rewrite dom_insert_L. set_solver.
    - unfold attach_scheduled_workflow_run in He. destruct (fires s !! (community, workflow, scheduled_for)) as [f|] eqn:Ef; [|by injection He as <- <-].
      destruct (workflow_run_id f); injection He as <- <-; [done|]. cbn. split; [|done]. rewrite dom_insert_L. set_solver.
    - unfold create_workflow_run in He. destruct (workflows s !! (community, workflow)); [|by injection He as <- <-].
      destruct (workflow_runs s !! (community, fresh)); by injection He as <- <-. }
  destruct 1 as [now fresh a s' He|now fresh a s' a' He Hn|a' Hn|a Hn].
  - by eapply Hexec.
  - apply Hexec in He as [Hd _]. split; [done|]. intros k. destruct r; cbn in Hn; try done. by injection Hn as <-.
  - split; [done|]. intros k. destruct r; cbn in Hn; try done. by injection Hn as <-.
  - split; [done|]. intros k. by destruct r.
Qed.

Lemma claims_won_answer r a h : claims_won (Got r a :: Sent r :: h) =
  match claim_before [Got r a] with Some k => k :: claims_won h | None => claims_won h end.
Proof. destruct r; try done. by destruct a as [[]|]. Qed.

(** The contributions of the other elements of a list. *)
Lemma bind_insert_perm {A B} (f : A → list B) (l : list A) i p : l !! i = Some p →
  ∃ rest, l ≫= f ≡ₚ f p ++ rest ∧ ∀ p', <[i := p']> l ≫= f ≡ₚ f p' ++ rest.
Proof.
  intros Hi. exists ((take i l ≫= f) ++ (drop (S i) l ≫= f)). split.
  - rewrite <- (take_drop_middle l i p Hi) at 1. rewrite bind_app, bind_cons. solve_Permutation.
  - intros p'. rewrite insert_take_drop by (by eapply lookup_lt_Some). rewrite bind_app, bind_cons. solve_Permutation.
Qed.

(** An element that is not new to the list of its kind stays out of it. *)
Lemma inv_request S i r k h a s' : replicas S !! i = Some {| loop := Ask r k; log := h |} → answered (store S) r a s' → cluster_inv S →
  cluster_inv {| store := s'; replicas := <[i := {| loop := k a; log := Got r a :: Sent r :: h |}]> (replicas S); forgotten := forgotten S |}.
Proof.
  intros Hi Ha (Hrep & Hdom & Hnd). destruct (answered_fires _ _ _ _ Ha) as [Hsub Hwon].
  destruct (bind_insert_perm (λ p, claims_won (log p)) _ _ _ Hi) as (rest & Hold & Hnew).
  specialize (Hnew {| loop := k a; log := Got r a :: Sent r :: h |}). cbn beta in Hold, Hnew. cbn [log] in Hold, Hnew. rewrite claims_won_answer in Hnew.
  assert (Hk : ∀ q, q ∈ all_claims_won S → q ∈ dom (fires s') ∪ forgotten S).
  { intros q Hq. apply Hdom in Hq. set_solver. }
  split_and!; cbn [replicas store forgotten].
  - intros p Hp. apply list_elem_of_lookup in Hp as [j Hj]. destruct (decide (j = i)) as [->|Hne].
    + rewrite list_lookup_insert_eq in Hj by (by eapply lookup_lt_Some). injection Hj as <-. eapply replica_step, Hrep, list_elem_of_lookup_2, Hi.
    + rewrite list_lookup_insert_ne in Hj by done. by eapply Hrep, list_elem_of_lookup_2.
  - intros q Hq. unfold all_claims_won in Hq. cbn [replicas] in Hq. rewrite Hnew in Hq.
    destruct (claim_before [Got r a]) as [q'|] eqn:E.
    + apply elem_of_cons in Hq as [->|Hq]; [destruct (Hwon q' eq_refl); set_solver|]. apply Hk. unfold all_claims_won. by rewrite Hold.
    + apply Hk. unfold all_claims_won. by rewrite Hold.
  - unfold live_claims, all_claims_won in *. cbn [replicas forgotten]. rewrite Hold in Hnd. rewrite Hnew.
    destruct (claim_before [Got r a]) as [q|] eqn:E; [|exact Hnd]. cbn [app]. rewrite filter_cons. case_decide as Hf; [|exact Hnd].
    constructor; [|exact Hnd]. rewrite <- Hold. intros [_ Hq]%list_elem_of_filter. destruct (Hwon q eq_refl) as [Hnot _].
    apply Hdom in Hq. set_solver.
Qed.

Lemma inv_restart S i p rounds : replicas S !! i = Some p → cluster_inv S →
  cluster_inv {| store := store S; replicas := <[i := {| loop := run_engine rounds ∅; log := log p |}]> (replicas S); forgotten := forgotten S |}.
Proof.
  intros Hi (Hrep & Hdom & Hnd).
  destruct (bind_insert_perm (λ p, claims_won (log p)) _ _ _ Hi) as (rest & Hold & Hnew).
  specialize (Hnew {| loop := run_engine rounds ∅; log := log p |}). cbn [log] in Hnew. rewrite <- Hold in Hnew.
  split_and!; cbn [replicas store forgotten].
  - intros q Hq. apply list_elem_of_lookup in Hq as [j Hj]. destruct (decide (j = i)) as [->|Hne].
    + rewrite list_lookup_insert_eq in Hj by (by eapply lookup_lt_Some). injection Hj as <-.
      eapply run_engine_ok, Hrep, list_elem_of_lookup_2, Hi.
    + rewrite list_lookup_insert_ne in Hj by done. by eapply Hrep, list_elem_of_lookup_2.
  - intros q Hq. unfold all_claims_won in Hq. cbn [replicas] in Hq. rewrite Hnew in Hq. by apply Hdom.
  - unfold live_claims, all_claims_won in *. cbn [replicas forgotten]. by rewrite Hnew.
Qed.

Lemma cluster_inv_step S S' : cluster_step S S' → cluster_inv S → cluster_inv S'.
Proof.
  destruct 1 as [i r k h a s' Hi Ha|i p rounds Hi|rounds|s' Hd].
  - by apply inv_request.
  - by apply inv_restart.
  - intros (Hrep & Hdom & Hnd). split_and!; cbn [replicas store forgotten]; [|exact Hdom|exact Hnd].
    intros p [->|Hp]%elem_of_cons; [by apply run_engine_ok|by apply Hrep].
  - intros (Hrep & Hdom & Hnd). split_and!; cbn [replicas store forgotten]; [exact Hrep| |].
    + intros k Hk. apply Hdom in Hk. unfold deleted_claims. destruct (decide (k ∈ dom (fires s'))); set_solver.
    + unfold live_claims, all_claims_won in *. cbn [replicas forgotten]. eapply sublist_NoDup; [exact Hnd|].
      set (l := replicas S ≫= _). clearbody l. clear. induction l as [|k l IH]; [done|]. rewrite !filter_cons.
      repeat case_decide; [by constructor|set_solver|by constructor|done].
Qed.

Lemma cluster_inv_reachable S : cluster_reachable S → cluster_inv S.
Proof.
  intros [s Hs]. remember (cluster_start s) as S0 eqn:E. assert (H0 : cluster_inv S0).
  { subst S0. split_and!; cbn; [by intros p ?%elem_of_nil|by intros k ?%elem_of_nil|]. unfold live_claims, all_claims_won. cbn. constructor. }
  clear E. induction Hs as [|S1 S2 S3 Hstep _ IH]; [done|]. apply IH. by eapply cluster_inv_step.
Qed.

Lemma sublist_bind {A B} (f g : A → list B) (l : list A) : (∀ x, f x `sublist_of` g x) → l ≫= f `sublist_of` l ≫= g.
Proof. intros H. induction l as [|x l IH]; [done|]. rewrite !bind_cons. by apply sublist_app. Qed.

Lemma filter_sublist {A} (Q : A → Prop) `{∀ x, Decision (Q x)} (l k : list A) : l `sublist_of` k → filter Q l `sublist_of` filter Q k.
Proof. induction 1; rewrite ?filter_cons; repeat case_decide; try done; by constructor. Qed.

(** C20: However many pods run the scheduler, whatever they read from their clocks, and
    whichever of their replies are lost and of them restart, an instant of a workflow starts at
    most one run, unless its claim is deleted: over the logs of all pods, every creation of a
    run directly follows the claim of its instant, won by that pod under the current authority
    of the owner, no instant occurs twice among those whose claim was not deleted, and the
    claims of these are still in the table. *)
Theorem scheduled_fires_at_most_once S : cluster_reachable S →
  NoDup (filter (λ k, k ∉ forgotten S) (all_instants_run S)) ∧
  (∀ p, p ∈ replicas S → sent_ok (run_ok door) (log p) ∧ length (instants_run (log p)) = runs_created (log p)) ∧
  ∀ k, k ∈ all_instants_run S → k ∈ forgotten S ∨ is_Some (fires (store S) !! k).
Proof.
  intros HS%cluster_inv_reachable. destruct HS as (Hrep & Hdom & Hnd).
  assert (Hsub : all_instants_run S `sublist_of` all_claims_won S) by (apply sublist_bind; intros p; apply instants_run_claims_won).
  split_and!.
  - eapply sublist_NoDup; [exact Hnd|apply filter_sublist, Hsub].
  - intros p Hp. destruct (Hrep p Hp) as [Hs _]. split; [done|]. by apply instants_run_length.
  - intros k Hk. rewrite <- elem_of_dom. assert (Hk' : k ∈ all_claims_won S) by (by eapply elem_of_sublist || by eapply sublist_elem_of).
    apply Hdom in Hk'. set_solver.
Qed.

End cluster.

(** ** Two pods

    Both list the workflow and check its owner before either claims the instant. *)
Module SampleCluster.
Import SampleRun.

#[local] Existing Instance sample_num.
#[local] Existing Instance sample_print.
#[local] Existing Instance sample_eval.
#[local] Existing Instance canonical_order.
#[local] Existing Instance text_lib.
#[local] Existing Instance no_keys.
#[local] Existing Instance plain_urls.

Definition noon : Z := 43200000000000%Z.
(** One schedule, that fires once. *)
Definition once_at_noon : CronLib := {|
  CronSchedule := unit; parse_cron := λ _, Some tt; next_after := λ _ t, if (t <? noon)%Z then Some noon else None
|}.
#[local] Existing Instance once_at_noon.

Definition daily : WorkflowDef :=
  {| name := "daily"; description := None; trigger := Schedule (Some "0 12 * * *") None; enabled := true;
     steps := [sample_step "pause" None (Delay "5s")] |}.
Definition daily_json : JsonValue := JObject [("trigger", JObject [("on", JString "schedule")])].
Definition daily_serde : SerdeLib sample_num := {|
  def_from_yaml := λ _, None; def_to_json := λ _, None; def_from_value := λ _, Some daily; value_from_str := λ _, None;
  value_to_str := λ _, None; ctx_to_value := λ _, Some JNull; ctx_from_value := λ _, None
|}.
#[local] Existing Instance daily_serde.
Definition no_digest : TokenDigest := {| token_digest := λ _, [] |}.
#[local] Existing Instance no_digest.
Definition no_hex : HexLib := {| hex_decode := λ _, None |}.
#[local] Existing Instance no_hex.

Definition sample_channel : ChannelRow :=
  {| visibility := Open; created_by := [1%Z]; archived_at := None; deleted_at := None; ttl_seconds := None |}.
Definition owner_row : MemberRow :=
  {| m_role := Member; m_joined_at := 0; m_invited_by := None; m_removed_at := None; m_removed_by := None |}.
Definition sample_store : Store :=
  {| workflows := {[ (7%N, 3%N) := new_workflow 0 7 3 (Some 5%N) [1%Z] "daily" daily_json [] ]};
     workflow_runs := ∅; fires := ∅; approvals := ∅; archived_communities := ∅;
     members := {| channels := {[ (7%N, 5%N) := sample_channel ]}; channel_members := {[ (7%N, 5%N, [1%Z]) := owner_row ]}; users := ∅ |} |}.

(** The clocks of the pods are a second apart. *)
Definition reply (pod : nat) (fresh : Uuid) (r : Req) (s : Store) : Ans r * Store :=
  match execute 0 fresh r s with
  | Some (a, s') => (a, s')
  | None =>
      (match r as q return Ans q with
       | ReadClock => (noon + Z.of_nat pod * nanos_per_sec)%Z : Ans ReadClock
       | q => sample_answer q
       end, s)
  end.

(** Pod [i] gets the answer to its next request. *)
Definition drive_one (S : Cluster) (i : nat) : Cluster :=
  match replicas S !! i with
  | Some {| loop := Ask r k; log := h |} =>
      let '(a, s') := reply i (N.of_nat (length h)) r (store S) in
      {| store := s'; replicas := <[i := {| loop := k a; log := Got r a :: Sent r :: h |}]> (replicas S); forgotten := forgotten S |}
  | _ => S
  end.
Definition drive (picks : list nat) (S : Cluster) : Cluster := foldl drive_one S picks.

Lemma execute_or_no_answer now fresh r s : execute now fresh r s = None → no_answer r = None.
Proof.
  destruct r; try done; cbn.
  - by destruct (claim_scheduled_workflow_fire _ _ _ _ _).
  - by destruct (attach_scheduled_workflow_run _ _ _ _ _).
  - by destruct (create_workflow_run _ _ _ _ _ _ _).
Qed.

Lemma reply_answered pod fresh r s : answered s r (fst (reply pod fresh r s)) (snd (reply pod fresh r s)).
Proof.
  unfold reply. destruct (execute 0 fresh r s) as [[a s']|] eqn:E; [by eapply answered_ok|].
  apply answered_elsewhere. by eapply execute_or_no_answer.
Qed.

Lemma drive_reachable picks S : cluster_reachable S → cluster_reachable (drive picks S).
Proof.
  revert S. induction picks as [|i picks IH]; intros S HS; [done|]. apply IH. destruct HS as [s Hs]. exists s. etrans; [exact Hs|].
  unfold drive_one. destruct (replicas S !! i) as [[[a|r k|B c p k] h]|] eqn:E; try done.
  pose proof (reply_answered i (N.of_nat (length h)) r (store S)) as Ha. destruct (reply i (N.of_nat (length h)) r (store S)) as [a s'].
  apply rtc_once. by apply step_request.
Qed.

Definition new_pod : Replica := {| loop := run_engine 1 ∅; log := [] |}.
Definition one_pod : Cluster := {| store := sample_store; replicas := [new_pod]; forgotten := ∅ |}.
Definition two_pods : Cluster := {| store := sample_store; replicas := [new_pod; new_pod]; forgotten := ∅ |}.

Lemma two_pods_reachable : cluster_reachable two_pods.
Proof.
  exists sample_store. apply (rtc_l _ _ one_pod); [exact (step_join (cluster_start sample_store) 1)|]. apply rtc_once. exact (step_join one_pod 1).
Qed.

(** Four requests of each pod, by turns, and then the rest of each. *)
Definition turns : list nat := [0; 1; 0; 1; 0; 1; 0; 1; 1; 0; 1; 0; 1; 0; 1; 0]%nat.
Definition after_noon : Cluster := drive turns two_pods.

Lemma scheduled_fires_at_most_once_witness :
  ∃ S, cluster_reachable S ∧ length (replicas S) = 2%nat ∧ forgotten S = ∅ ∧ all_instants_run S = [(7%N, 3%N, to_micros noon)] ∧
    NoDup (filter (λ k, k ∉ forgotten S) (all_instants_run S)).
Proof.
  exists after_noon. assert (Hr : cluster_reachable after_noon) by apply drive_reachable, two_pods_reachable.
  pose proof (scheduled_fires_at_most_once after_noon Hr) as (Hnd & _).
  split; [exact Hr|]. split; [vm_compute; reflexivity|]. split; [vm_compute; reflexivity|]. split; [vm_compute; reflexivity|exact Hnd].
Defined.

(** The other pod tried. *)
Example both_pods_claim :
  (λ p, length (List.filter (λ x, match x with Sent (ClaimFire _ _ _) => true | _ => false end) (log p))) <$> replicas after_noon = [1%nat; 1%nat].
Proof. vm_compute. reflexivity. Qed.

End SampleCluster.
