(* ===== verification/WorkflowSchedule.v ===== *)
(** * When the scheduler fires

    The instants that a tick fires for, and how often a pod that ticks tries to
    claim the instants of an interval. *)
From S2P Require Import Prelude Kinds Nostr Network Channel Membership WorkflowTemplate WorkflowDef WorkflowDefProps WorkflowStore.
From S2P Require Import WorkflowRun WorkflowRunProps WorkflowEngine WorkflowCluster.

(** Documented behaviour of [cron::Schedule]: [after(t).next()] is the first
    scheduled instant later than [t]. *)
Class CronLaws (CL : CronLib) : Type := {
  fires_at : CronSchedule → Z → Prop;
  next_after_first s t u : next_after s t = Some u ↔
    fires_at s u ∧ (t < u)%Z ∧ ∀ v, fires_at s v → (t < v)%Z → (u ≤ v)%Z
}.

(** ** Instants *)

Lemma cron_fire_instant_spec {CL : CronLib} {CW : CronLaws CL} expr sched now window t :
  parse_cron (normalize_cron expr) = Some sched →
  cron_fire_instant expr now window = Some t ↔
    fires_at sched t ∧ (now - window * nanos_per_sec < t ≤ now)%Z ∧
    ∀ v, fires_at sched v → (now - window * nanos_per_sec < v)%Z → (t ≤ v)%Z.
Proof.
  intros Hp. unfold cron_fire_instant. rewrite Hp. cbv zeta. split.
  - destruct (next_after sched _) as [u|] eqn:E; [|done]. cbn. destruct (u <=? now)%Z eqn:El; [|done]. intros [= <-].
    apply Z.leb_le in El. apply next_after_first in E as (Hf & Hlt & Hmin). by split_and!.
  - intros (Hf & [Hlt Hle] & Hmin). assert (next_after sched (now - window * nanos_per_sec) = Some t) as -> by (by apply next_after_first).
    cbn. by apply Z.leb_le in Hle as ->.
Qed.

(** The whole hours, say: an instant is found by exactly the ticks of the next
    minute. *)
Lemma cron_found_within_a_minute {CL : CronLib} {CW : CronLaws CL} expr sched u now :
  parse_cron (normalize_cron expr) = Some sched → fires_at sched u →
  (∀ v, fires_at sched v → v = u ∨ (v + 60 * nanos_per_sec ≤ u)%Z ∨ (u + 60 * nanos_per_sec ≤ v)%Z) →
  cron_fire_instant expr now 60 = Some u ↔ (u ≤ now < u + 60 * nanos_per_sec)%Z.
Proof.
  intros Hp Hu Hiso. rewrite (cron_fire_instant_spec _ _ _ _ _ Hp). split; [intros (_ & H & _); lia|].
  intros H. split_and!; [done|lia|lia|]. intros v Hv Hlt. destruct (Hiso v Hv) as [->|[Hb|Ha]]; lia.
Qed.

Lemma div_euclid_pos a b : (0 < b)%Z → div_euclid a b = (a / b)%Z.
Proof.
  intros Hb. unfold div_euclid. pose proof (Z.quot_rem' a b) as Hqr. pose proof (Z.rem_bound_abs a b ltac:(lia)) as Hr.
  destruct (Z.ltb_spec (Z.rem a b) 0) as [H|H].
  - assert ((0 <? b)%Z = true) as -> by by apply Z.ltb_lt. apply (Z.div_unique a b (Z.quot a b - 1) (Z.rem a b + b)); lia.
  - apply (Z.div_unique a b (Z.quot a b) (Z.rem a b)); lia.
Qed.

(** The start of the interval of [secs] seconds that contains [now]. *)
Definition bucket_start (secs now : Z) : Z := (timestamp_secs now / secs * secs * nanos_per_sec)%Z.

(** The clock is between 1970 and the end of [chrono]'s range. *)
Definition clock_ok (now : Z) : Prop := (0 ≤ timestamp_secs now ≤ MAX_TIMESTAMP)%Z.

Lemma interval_fire_instant_bucket dur secs now : parse_duration_secs dur = Ok secs → (0 < secs < 2 ^ 63)%Z → clock_ok now →
  interval_fire_instant dur now = Some (bucket_start secs now).
Proof.
  intros Hd Hs Hc. unfold interval_fire_instant, clock_ok in *. rewrite Hd. assert ((0 <? secs)%Z = true) as -> by (apply Z.ltb_lt; lia).
  cbv zeta. unfold as_i64_wrap. assert ((secs <? 2 ^ 63)%Z = true) as -> by (apply Z.ltb_lt; lia). rewrite div_euclid_pos by lia.
  unfold from_timestamp, bucket_start.
  pose proof (Z.mul_div_le (timestamp_secs now) secs ltac:(lia)) as Hle. pose proof (Z.div_pos (timestamp_secs now) secs ltac:(lia) ltac:(lia)) as Hpos.
  assert ((MIN_TIMESTAMP <=? timestamp_secs now / secs * secs)%Z = true) as -> by (apply Z.leb_le; unfold MIN_TIMESTAMP; nia).
  by assert ((timestamp_secs now / secs * secs <=? MAX_TIMESTAMP)%Z = true) as -> by (apply Z.leb_le; lia).
Qed.

(** The bucket contains the instant, and after an interval it is another one. *)
Lemma bucket_start_bounds secs now : (0 < secs)%Z → (bucket_start secs now ≤ now < bucket_start secs now + secs * nanos_per_sec)%Z.
Proof.
  intros Hs. unfold bucket_start, timestamp_secs, nanos_per_sec.
  pose proof (Z.div_mod now 1000000000 ltac:(lia)) as H1. pose proof (Z.mod_pos_bound now 1000000000 ltac:(lia)) as H2.
  pose proof (Z.div_mod (now / 1000000000) secs ltac:(lia)) as H3. pose proof (Z.mod_pos_bound (now / 1000000000) secs ltac:(lia)) as H4. nia.
Qed.

Lemma bucket_start_next secs t1 t2 : (0 < secs)%Z → (t1 + secs * nanos_per_sec ≤ t2)%Z → (bucket_start secs t1 < bucket_start secs t2)%Z.
Proof.
  intros Hs Hle. pose proof (bucket_start_bounds secs t1 Hs) as H1. pose proof (bucket_start_bounds secs t2 Hs) as H2.
  unfold bucket_start, nanos_per_sec in *. nia.
Qed.

Lemma to_micros_bucket secs t : to_micros (bucket_start secs t) = (timestamp_secs t / secs * secs * 1000000)%Z.
Proof.
  unfold to_micros, bucket_start, nanos_per_sec. replace (timestamp_secs t / secs * secs * 1000000000)%Z with (timestamp_secs t / secs * secs * 1000000 * 1000)%Z by lia.
  by rewrite Z.div_mul.
Qed.

(** ** The ticks that try *)

(** At which of the readings of the clock a pod tries, with the anchor it has. *)
Fixpoint attempts (secs : Z) (anchor : option Z) (nows : list Z) : list Z :=
  match nows with
  | [] => []
  | now :: nows =>
      match anchor with
      | None => attempts secs (Some now) nows
      | Some a =>
          if (a + secs * nanos_per_sec <=? now)%Z then now :: attempts secs (Some now) nows
          else attempts secs (Some a) nows
      end
  end.

Lemma interval_should_fire_elapsed dur secs a now : parse_duration_secs dur = Ok secs → (a ≤ now)%Z →
  interval_should_fire dur (Some a) now = (a + secs * nanos_per_sec <=? now)%Z.
Proof.
  intros Hd Hle. unfold interval_should_fire, num_seconds, nanos_per_sec. rewrite Hd. cbv zeta. change (default now (Some a)) with a.
  rewrite Z.quot_div_nonneg by lia. rewrite Z.abs_eq by (apply Z.div_pos; lia).
  apply eq_true_iff_eq. rewrite !Z.leb_le. pose proof (Z.div_mod (now - a) 1000000000 ltac:(lia)). pose proof (Z.mod_pos_bound (now - a) 1000000000 ltac:(lia)).
  split; nia.
Qed.

Lemma interval_should_fire_cold dur secs now : parse_duration_secs dur = Ok secs → (0 < secs)%Z → interval_should_fire dur None now = false.
Proof.
  intros Hd Hs. unfold interval_should_fire, num_seconds. rewrite Hd. cbv zeta. change (default now None) with now.
  rewrite Z.sub_diag. apply Z.leb_gt. change (Z.abs (Z.quot 0 nanos_per_sec)) with 0%Z. lia.
Qed.

(** Attempts are an interval apart, and each is one of the readings. *)
Lemma attempts_spaced secs a nows : (0 ≤ secs)%Z → Sorted Z.le (a :: nows) →
  StronglySorted (λ x y, (x + secs * nanos_per_sec ≤ y)%Z) (a :: attempts secs (Some a) nows).
Proof.
  intros Hs. revert a. induction nows as [|now nows IH]; intros a Hsort; cbn [attempts]; [repeat constructor|].
  apply Sorted_inv in Hsort as [Hsort Hhd]. apply HdRel_inv in Hhd.
  destruct (Z.leb_spec (a + secs * nanos_per_sec) now) as [Hle|Hgt].
  - specialize (IH now Hsort). constructor; [exact IH|]. apply StronglySorted_inv in IH as [_ Hall]. constructor; [done|].
    eapply Forall_impl; [exact Hall|]. intros x Hx. cbn in Hx. unfold nanos_per_sec in *. nia.
  - apply IH. apply Sorted_inv in Hsort as [Hsort Hhd2]. constructor; [done|]. destruct nows as [|n nows]; [done|].
    apply HdRel_inv in Hhd2. constructor. lia.
Qed.

(** Consecutive readings are at most [gap] apart, and the clock does not go back. *)
Fixpoint paced (gap : Z) (prev : Z) (nows : list Z) : Prop :=
  match nows with [] => True | now :: nows => (prev ≤ now ≤ prev + gap)%Z ∧ paced gap now nows end.

Lemma attempts_keep_coming secs gap a prev nows t now : (0 < secs)%Z → (0 ≤ gap)%Z → paced gap prev nows →
  (a ≤ prev < a + secs * nanos_per_sec)%Z → (a ≤ t)%Z → now ∈ nows → (t + secs * nanos_per_sec + gap ≤ now)%Z →
  ∃ x, x ∈ attempts secs (Some a) nows ∧ (t < x ≤ t + secs * nanos_per_sec + gap)%Z.
Proof.
  intros Hs Hg. revert a prev. induction nows as [|n nows IH]; intros a prev Hp Ha Ht Hin Hlate; [by apply elem_of_nil in Hin|].
  destruct Hp as [Hn Hp]. cbn [attempts]. destruct (Z.leb_spec (a + secs * nanos_per_sec) n) as [Hle|Hgt].
  - destruct (decide (t < n)%Z) as [Htn|Htn]; [exists n; split; [apply list_elem_of_here|lia]|].
    destruct (IH n n) as (x & Hx & Hb); try done; try (unfold nanos_per_sec in *; lia).
    + apply elem_of_cons in Hin as [->|Hin]; [unfold nanos_per_sec in *; lia|done].
    + exists x. split; [by apply list_elem_of_further|done].
  - apply (IH a n); try done; try lia. apply elem_of_cons in Hin as [->|Hin]; [lia|done].
Qed.

(** ** The loop of one pod *)

Section run.
Context {JN : JsonNum} {EL : EvalLib JN}.

Lemma run_in_bind {A B} env cs (p : Prog A) (f : A → Prog B) h :
  run_in env cs (p ≫= f) h =
  match run_in env cs p h with
  | (Finished a, h') => run_in env cs (f a) h'
  | (WasCut c, h') => (WasCut c, h')
  end.
Proof.
  unfold mbind, prog_mbind. revert B f cs h. induction p as [A a|A r k IH|A C c p IHp k IH]; intros B f cs h; cbn [prog_bind run_in].
  - done.
  - destruct (cut env (Sent r :: h)) as [c|]; [case_bool_decide; [done|]|]; apply IH.
  - destruct (run_in env (c :: cs) p h) as [[b|c'] h']; [apply IH|]. case_bool_decide; [apply IH|done].
Qed.

Lemma run_in_ask_bind {B} env r (f : Ans r → Prog B) h : cut env (Sent r :: h) = None →
  run_in env [] (ask r ≫= f) h = run_in env [] (f (answer env (Sent r :: h) r)) (Got r (answer env (Sent r :: h) r) :: Sent r :: h).
Proof. intros Hc. unfold mbind, prog_mbind, ask. cbn [prog_bind run_in]. by rewrite Hc. Qed.

(** How often the clock was read. *)
Fixpoint readings (h : list HistoryEvent) : nat :=
  match h with
  | [] => 0
  | Got ReadClock _ :: h => S (readings h)
  | _ :: h => readings h
  end.

(** The instants that were claimed for a workflow, the latest first. *)
Fixpoint claims_sent (k : Uuid * Uuid) (h : list HistoryEvent) : list Z :=
  match h with
  | [] => []
  | Sent (ClaimFire c wf t) :: h => if bool_decide ((c, wf) = k) then t :: claims_sent k h else claims_sent k h
  | _ :: h => claims_sent k h
  end.

End run.

(** The next request of the program is answered. *)
Ltac run_ask Hc :=
  match goal with
  | |- context [run_in ?env [] (@mbind ?M ?I ?X ?Y ?f (ask ?r)) ?h] =>
      let E := fresh "E" in
      assert (E : run_in env [] (@mbind M I X Y f (ask r)) h =
        run_in env [] (f (answer env (Sent r :: h) r)) (Got r (answer env (Sent r :: h) r) :: Sent r :: h))
        by exact (run_in_ask_bind env r f h (Hc (Sent r :: h)));
      rewrite E; clear E; cbv beta iota
  end.

Section pod.
Context {JN : JsonNum} {JP : JsonPrint JN} {SL : SerdeLib JN} {CL : CronLib} {EL : EvalLib JN} {HO : HashOrder} {L : NostrLib}.
Context {NL : NpubLib} {RL : RunLib}.

Definition key_of (w : WorkflowRecord) : Uuid * Uuid := (w_community w, w_id w).

(** *** The other workflows of a tick *)

Section other.
Context (k : Uuid * Uuid) (fired0 : LastFired) (h0 : list HistoryEvent).

(** Nothing that concerns [k] happened since. *)
Definition untouched (fired : LastFired) (h : list HistoryEvent) : Prop :=
  fired !! k = fired0 !! k ∧ claims_sent k h = claims_sent k h0 ∧ readings h = readings h0.

Ltac other := cbn [wp ask]; split; [by intros ? ?%elem_of_nil|]; let a := fresh "a" in intros a.

Lemma claim_and_run_other now c ch wf d t ty fired h : (c, wf) ≠ k → untouched fired h →
  wp [] (claim_and_run now c ch wf d t ty fired) untouched (λ _ _, False) h.
Proof.
  intros Hk (Hf & Hc & Hr). unfold claim_and_run.
  assert (Hmark : ∀ ty, mark_fired ty c wf now fired !! k = fired0 !! k).
  { intros []; cbn; [done|]. etrans; [by apply (lookup_insert_ne fired)|done]. }
  assert (Hb : bool_decide ((c, wf) = k) = false) by (by apply bool_decide_eq_false).
  apply prog_wp_bind. other. destruct a as [[]|]; cbn [wp mret prog_ret].
  - cbv zeta. destruct (ctx_to_value _) as [ctx|]; cbn [wp mret prog_ret].
    + apply prog_wp_bind. other. destruct a as [run|].
      * apply prog_wp_bind. other. apply prog_wp_bind. other. cbn [wp mret prog_ret]. split_and!; cbn; rewrite ?Hb; auto.
      * cbn. split_and!; cbn; rewrite ?Hb; auto.
    + split_and!; cbn; rewrite ?Hb; auto.
  - split_and!; cbn; rewrite ?Hb; auto.
  - split_and!; cbn; rewrite ?Hb; auto.
Qed.

Lemma scheduled_instant_other now c wf tr fired h : (c, wf) ≠ k → untouched fired h →
  wp [] (scheduled_instant now c wf tr fired) (λ res h', untouched res.2 h') (λ _ _, False) h.
Proof.
  intros Hk Hu. unfold scheduled_instant. destruct tr as [f|em f|f|[expr|] [dur|]|]; cbn [wp mret prog_ret]; try exact Hu.
  apply prog_wp_bind. unfold interval_anchor.
  assert (Hrest : ∀ last h', untouched fired h' → wp [] (let '(fire, fired) := interval_prefilter_should_fire fired c wf dur last now in
       mret (if (fire : bool) then (λ i, (i, IntervalTrigger)) <$> interval_fire_instant dur now else None, fired))
      (λ res h', untouched res.2 h') (λ _ _, False) h').
  { intros last h' (Hf & Hc & Hr). unfold interval_prefilter_should_fire. destruct (interval_should_fire dur last now); cbn; [done|].
    destruct last; cbn; split_and!; try done. etrans; [by apply (lookup_insert_ne fired)|done]. }
  destruct (fired !! (c, wf)) as [t|]; [cbn [wp mret prog_ret]; by apply Hrest|].
  apply prog_wp_bind. other. cbn [wp mret prog_ret]. by apply Hrest.
Qed.

Lemma schedule_one_other now w fired h : key_of w ≠ k → untouched fired h →
  wp [] (schedule_one now w fired) untouched (λ _ _, False) h.
Proof.
  intros Hk Hu. unfold schedule_one. cbv zeta. destruct (def_from_value (definition w)) as [d|]; [|exact Hu].
  destruct (negb (enabled d)); [exact Hu|]. destruct (w_channel w) as [ch|]; [|exact Hu].
  apply prog_wp_bind. eapply prog_wp_mono; [| |by apply (scheduled_instant_other now (w_community w) (w_id w) (trigger d) fired)]; [|done].
  intros [[[t ty]|] fired1] h1 Hu1; [|exact Hu1]. apply prog_wp_bind. unfold check_owner_authority. apply prog_wp_bind. other.
  cbn [wp mret prog_ret]. assert (Hu2 : untouched fired1 (Got (MemberRoleOf (w_community w) ch (owner_pubkey w)) a
    :: Sent (MemberRoleOf (w_community w) ch (owner_pubkey w)) :: h1)) by exact Hu1.
  destruct a as [role|]; [|exact Hu2]. destruct (owner_authority_allows _ _); [|exact Hu2]. by apply claim_and_run_other.
Qed.

Lemma schedule_all_other now ws fired h : k ∉ key_of <$> ws → untouched fired h →
  wp [] (schedule_all now ws fired) untouched (λ _ _, False) h.
Proof.
  revert fired h. induction ws as [|w ws IH]; intros fired h Hk Hu; cbn [schedule_all]; [exact Hu|].
  rewrite fmap_cons in Hk. apply not_elem_of_cons in Hk as [Hk Hks].
  apply prog_wp_bind. eapply prog_wp_mono; [| |by apply (schedule_one_other now w fired)]; [|done]. intros fired1 h1. by apply IH.
Qed.

End other.

(** *** The workflow itself *)

(** The database answers, the owner stays, and the workflow stays listed; who
    wins a claim is open. *)
Record cooperative (env : Environment) (w : WorkflowRecord) (clock : nat → Z) : Prop := {
  no_cut h : cut env h = None;
  clock_read h : answer env h ReadClock = clock (readings h);
  listed h : ∃ ws, answer env h ScheduledWorkflows = Some ws ∧ w ∈ ws ∧ NoDup (key_of <$> ws);
  owner_stays h ch : answer env h (MemberRoleOf (w_community w) ch (owner_pubkey w)) = Some (Some "owner");
  never_fired h : answer env h (LatestFire (w_community w) (w_id w)) = Some None;
  claim_answered h t : ∃ b, answer env h (ClaimFire (w_community w) (w_id w) t) = Some b;
  run_inserted h ev ctx : ∃ r, answer env h (CreateRun (w_community w) (w_id w) ev ctx) = Some r
}.

Section one_workflow.
Context (env : Environment) (w : WorkflowRecord) (clock : nat → Z) (d : WorkflowDef) (ch : Uuid) (dur : string) (secs : Z).
Hypothesis (Henv : cooperative env w clock) (Hdef : def_from_value (definition w) = Some d) (Hen : enabled d = true)
  (Hch : w_channel w = Some ch) (Htr : trigger d = Schedule None (Some dur)) (Hdur : parse_duration_secs dur = Ok secs)
  (Hsecs : (0 < secs < 2 ^ 63)%Z) (Hctx : ∀ ch now, is_Some (ctx_to_value (schedule_context ch now))).

(** What a tick at [now] does for the workflow. *)
Definition tick_outcome (now : Z) (fired fired' : LastFired) (h h' : list HistoryEvent) : Prop :=
  match fired !! key_of w with
  | Some a =>
      if (a + secs * nanos_per_sec <=? now)%Z
      then fired' !! key_of w = Some now ∧ claims_sent (key_of w) h' = to_micros (bucket_start secs now) :: claims_sent (key_of w) h
      else fired' !! key_of w = Some a ∧ claims_sent (key_of w) h' = claims_sent (key_of w) h
  | None => fired' !! key_of w = Some now ∧ claims_sent (key_of w) h' = claims_sent (key_of w) h
  end.

Lemma lookup_marked (fired : LastFired) (c wf : Uuid) (t : Z) : (<[(c, wf) := t]> fired : LastFired) !! (c, wf) = Some t.
Proof. apply (lookup_insert_eq fired). Qed.

Lemma claim_and_run_run now t fired h :
  ∃ fired' h', run_in env [] (claim_and_run now (w_community w) ch (w_id w) d t IntervalTrigger fired) h = (Finished fired', h') ∧
    fired' !! key_of w = Some now ∧ claims_sent (key_of w) h' = to_micros t :: claims_sent (key_of w) h ∧ readings h' = readings h.
Proof.
  unfold claim_and_run. run_ask (no_cut _ _ _ Henv).
  destruct (claim_answered _ _ _ Henv (Sent (ClaimFire (w_community w) (w_id w) (to_micros t)) :: h) (to_micros t)) as [b Hb]. rewrite Hb.
  assert (Hk : bool_decide ((w_community w, w_id w) = key_of w) = true) by (by apply bool_decide_eq_true).
  destruct b; [|].
  - cbv beta iota zeta. destruct (Hctx ch now) as [ctx_json Hj]. rewrite Hj. run_ask (no_cut _ _ _ Henv).
    match goal with |- context [answer env ?h1 (CreateRun _ _ ?ev ?cj)] => destruct (run_inserted _ _ _ Henv h1 ev cj) as [r Hr] end. rewrite Hr.
    run_ask (no_cut _ _ _ Henv). run_ask (no_cut _ _ _ Henv).
    eexists _, _. split; [reflexivity|]. split; [apply lookup_marked|]. cbn. by rewrite Hk.
  - eexists _, _. split; [reflexivity|]. split; [apply lookup_marked|]. cbn. by rewrite Hk.
Qed.

Lemma schedule_one_run now fired h : clock_ok now → (∀ a, fired !! key_of w = Some a → (a ≤ now)%Z) →
  ∃ fired' h', run_in env [] (schedule_one now w fired) h = (Finished fired', h') ∧
    tick_outcome now fired fired' h h' ∧ readings h' = readings h.
Proof.
  intros Hnow Ha. unfold schedule_one, tick_outcome. cbv zeta. rewrite Hdef, Hen, Hch. cbn [negb]. rewrite run_in_bind.
  unfold scheduled_instant. rewrite Htr, run_in_bind. unfold interval_anchor. fold (key_of w).
  destruct (fired !! key_of w) as [a|] eqn:Ek.
  - cbn [run_in mret prog_ret]. unfold interval_prefilter_should_fire.
    rewrite (interval_should_fire_elapsed dur secs a now Hdur) by (by apply Ha).
    destruct (a + secs * nanos_per_sec <=? now)%Z eqn:El.
    + cbn [run_in mret prog_ret]. rewrite (interval_fire_instant_bucket dur secs now Hdur Hsecs Hnow). cbn [fmap option_fmap option_map].
      rewrite run_in_bind. unfold check_owner_authority. run_ask (no_cut _ _ _ Henv). rewrite (owner_stays _ _ _ Henv).
      assert (owner_authority_allows (Some "owner") (requires_elevated_authority d) = true) as Hall by (by destruct (requires_elevated_authority d)).
      cbn [run_in mret prog_ret]. rewrite Hall.
      destruct (claim_and_run_run now (bucket_start secs now) fired
        (Got (MemberRoleOf (w_community w) ch (owner_pubkey w)) (Some (Some "owner")) :: Sent (MemberRoleOf (w_community w) ch (owner_pubkey w)) :: h))
        as (fired' & h' & Hrun & Hf & Hc & Hr). exists fired', h'. by split_and!.
    + cbn [run_in mret prog_ret]. eexists _, _. by split_and!.
  - run_ask (no_cut _ _ _ Henv). rewrite (never_fired _ _ _ Henv). cbn [run_in mret prog_ret].
    change (from_micros <$> default None (Some None)) with (@None Z).
    unfold interval_prefilter_should_fire. rewrite (interval_should_fire_cold dur secs now Hdur) by lia.
    cbn [run_in mret prog_ret]. eexists _, _. split; [reflexivity|]. split; [|done]. split; [apply lookup_marked|done].
Qed.

Lemma schedule_all_app now ws1 ws2 fired h :
  run_in env [] (schedule_all now (ws1 ++ ws2) fired) h =
  match run_in env [] (schedule_all now ws1 fired) h with
  | (Finished fired', h') => run_in env [] (schedule_all now ws2 fired') h'
  | (WasCut c, h') => (WasCut c, h')
  end.
Proof.
  revert fired h. induction ws1 as [|x ws1 IH]; intros fired h; [done|]. cbn [app schedule_all]. rewrite !run_in_bind.
  destruct (run_in env [] (schedule_one now x fired) h) as [[fired1|c] h1]; [apply IH|done].
Qed.

Lemma schedule_all_run now ws fired h : clock_ok now → (∀ a, fired !! key_of w = Some a → (a ≤ now)%Z) →
  w ∈ ws → NoDup (key_of <$> ws) →
  ∃ fired' h', run_in env [] (schedule_all now ws fired) h = (Finished fired', h') ∧
    tick_outcome now fired fired' h h' ∧ readings h' = readings h.
Proof.
  intros Hnow Ha (ws1 & ws2 & ->)%list_elem_of_split Hnd. rewrite fmap_app, fmap_cons in Hnd.
  apply NoDup_app in Hnd as (_ & Hd1 & [Hd2 _]%NoDup_cons). rewrite schedule_all_app.
  assert (H1 : key_of w ∉ key_of <$> ws1) by (intros Hin; apply (Hd1 _ Hin), list_elem_of_here).
  destruct (prog_wp_run env (schedule_all now ws1 fired) (untouched (key_of w) fired h) h) as (fired1 & h1 & Hr1 & Hf1 & Hc1 & Hn1).
  { by apply schedule_all_other. }
  unfold run in Hr1. rewrite Hr1. cbn [schedule_all]. rewrite run_in_bind.
  destruct (schedule_one_run now fired1 h1 Hnow) as (fired2 & h2 & Hr2 & Ho2 & Hn2); [by rewrite Hf1|]. rewrite Hr2.
  destruct (prog_wp_run env (schedule_all now ws2 fired2) (untouched (key_of w) fired2 h2) h2) as (fired3 & h3 & Hr3 & Hf3 & Hc3 & Hn3).
  { by apply schedule_all_other. }
  unfold run in Hr3. rewrite Hr3. exists fired3, h3. split; [done|]. split; [|congruence].
  unfold tick_outcome in *. rewrite Hf1, Hc1 in Ho2. rewrite Hf3, Hc3. exact Ho2.
Qed.

Lemma retain_active_lookup ws fired : w ∈ ws → retain_active ws fired !! key_of w = fired !! key_of w.
Proof.
  intros Hw. unfold retain_active, LastFired in *. apply option_eq. intros t. rewrite map_lookup_filter_Some. split; [by intros []|]. intros H. split; [done|].
  unfold active_ids. apply elem_of_list_to_set, list_elem_of_fmap. by exists w.
Qed.

Lemma tick_run fired h : clock_ok (clock (readings h)) → (∀ a, fired !! key_of w = Some a → (a ≤ clock (readings h))%Z) →
  ∃ fired' h', run_in env [] (tick fired) h = (Finished fired', h') ∧
    tick_outcome (clock (readings h)) fired fired' h h' ∧ readings h' = S (readings h).
Proof.
  intros Hnow Ha. unfold tick. run_ask (no_cut _ _ _ Henv). run_ask (no_cut _ _ _ Henv). rewrite (clock_read _ _ _ Henv).
  cbn [readings]. set (now := clock (readings h)) in *. run_ask (no_cut _ _ _ Henv).
  match goal with |- context [answer env ?h1 ScheduledWorkflows] => destruct (listed _ _ _ Henv h1) as (ws & Hws & Hw & Hnd) end.
  rewrite Hws. rewrite run_in_bind.
  match goal with |- context [run_in env [] (schedule_all now ws fired) ?h1] =>
    destruct (schedule_all_run now ws fired h1 Hnow Ha Hw Hnd) as (fired1 & h2 & Hr & Ho & Hn) end.
  rewrite Hr. exists (retain_active ws fired1), h2. split; [done|]. split; [|by rewrite Hn].
  unfold tick_outcome in *. by rewrite retain_active_lookup.
Qed.

Lemma run_engine_run n fired h :
  (∀ j, (readings h ≤ j < readings h + n)%nat → clock_ok (clock j) ∧ ((S j < readings h + n)%nat → (clock j ≤ clock (S j))%Z)) →
  (n ≠ 0%nat → ∀ a, fired !! key_of w = Some a → (a ≤ clock (readings h))%Z) →
  ∃ fired' h', run_in env [] (run_engine n fired) h = (Finished fired', h') ∧
    claims_sent (key_of w) h' =
      reverse ((λ t, to_micros (bucket_start secs t)) <$> attempts secs (fired !! key_of w) (clock <$> seq (readings h) n)) ++
      claims_sent (key_of w) h.
Proof.
  revert fired h. induction n as [|n IH]; intros fired h Hclock Ha; cbn [run_engine].
  { eexists _, _. split; [reflexivity|]. cbn. by destruct (fired !! key_of w). }
  rewrite run_in_bind. destruct (Hclock (readings h) ltac:(lia)) as [Hnow Hle].
  destruct (tick_run fired h Hnow (Ha ltac:(done))) as (fired1 & h1 & Hr & Ho & Hn). rewrite Hr.
  assert (Hf1 : ∃ a, fired1 !! key_of w = Some a ∧ (a ≤ clock (readings h))%Z).
  { unfold tick_outcome in Ho. destruct (fired !! key_of w) as [a|]; [destruct (_ <=? _)%Z|]; destruct Ho as [-> _]; eexists; split; try done; by apply Ha. }
  destruct Hf1 as (a1 & Hf1 & Hle1).
  destruct (IH fired1 h1) as (fired' & h' & Hr' & Hc').
  { intros j Hj. rewrite Hn in Hj |- *. destruct (Hclock j ltac:(lia)) as [Hj1 Hj2]. split; [exact Hj1|]. intros Hj3. apply Hj2. lia. }
  { rewrite Hn. intros Hn0 a Hfa. assert (a = a1) as -> by congruence. specialize (Hle ltac:(lia)). lia. }
  exists fired', h'. split; [exact Hr'|]. rewrite Hc', Hn. cbn [seq]. rewrite fmap_cons. cbn [attempts]. unfold tick_outcome in Ho.
  destruct (fired !! key_of w) as [a|].
  - destruct (_ <=? _)%Z; destruct Ho as [Hf Hc]; rewrite Hf, Hc; [|done]. rewrite fmap_cons, reverse_cons, <- app_assoc. done.
  - destruct Ho as [Hf Hc]. by rewrite Hf, Hc.
Qed.

End one_workflow.
End pod.

(** *** Every interval *)

Lemma paced_seq gap clock i n : (∀ j, (i ≤ j < i + n)%nat → (clock j ≤ clock (S j) ≤ clock j + gap)%Z) →
  paced gap (clock i) (clock <$> seq (S i) n).
Proof.
  revert i. induction n as [|n IH]; intros i Hc; cbn [seq]; [done|]. rewrite fmap_cons. split; [apply Hc; lia|].
  apply IH. intros j Hj. apply Hc. lia.
Qed.

Lemma paced_sorted gap prev nows : paced gap prev nows → Sorted Z.le (prev :: nows).
Proof.
  revert prev. induction nows as [|n nows IH]; intros prev; [by repeat constructor|]. intros [Hn Hp]. constructor; [by apply IH|]. constructor. lia.
Qed.

Lemma bucket_micros_lt secs x y : (0 < secs)%Z → (x + secs * nanos_per_sec ≤ y)%Z →
  (to_micros (bucket_start secs x) < to_micros (bucket_start secs y))%Z.
Proof.
  intros Hs Hle. pose proof (bucket_start_next secs x y Hs Hle) as H. rewrite !to_micros_bucket. unfold bucket_start, nanos_per_sec in H. nia.
Qed.

Lemma spaced_instants_nodup secs l : (0 < secs)%Z → StronglySorted (λ x y, (x + secs * nanos_per_sec ≤ y)%Z) l →
  NoDup ((λ t, to_micros (bucket_start secs t)) <$> l).
Proof.
  intros Hs. induction 1 as [|x l Hl IH Hx]; [constructor|]. rewrite fmap_cons. constructor; [|exact IH].
  intros (y & Heq & Hy)%list_elem_of_fmap. rewrite Forall_forall in Hx. specialize (Hx y Hy). cbn in Hx.
  pose proof (bucket_micros_lt secs x y Hs Hx). lia.
Qed.

Section liveness.
Context {JN : JsonNum} {JP : JsonPrint JN} {SL : SerdeLib JN} {CL : CronLib} {EL : EvalLib JN} {HO : HashOrder} {L : NostrLib}.
Context {NL : NpubLib} {RL : RunLib}.

(** C36: An interval workflow keeps firing while everything cooperates: every listing shows the
    workflow, its owner stays, no fire is on record, every claim is answered (won or lost), the
    trigger context can be serialised and every run insert succeeds; its definition parses and
    is enabled, it has a channel; its interval is between 1 and 2^63 - 1 s, and the pod, which
    starts without an anchor, reads a clock in the range of chrono that never goes back, with
    readings at most a gap apart. Then from the first tick on, in every stretch of an interval
    and a gap there is a tick that claims an instant for the workflow; claims are at least an
    interval apart; each is for the start of the interval that contains the tick, which every
    pod computes alike; and all are for different instants, so that the pod never loses one to a
    claim of its own. (After a failed run insert the code claims again at the next tick, which
    this does not cover.) *)
Theorem interval_workflows_keep_firing env w clock d ch dur secs gap n :
  cooperative env w clock → def_from_value (definition w) = Some d → enabled d = true → w_channel w = Some ch →
  trigger d = Schedule None (Some dur) → parse_duration_secs dur = Ok secs → (0 < secs < 2 ^ 63)%Z →
  (∀ ch now, is_Some (ctx_to_value (schedule_context ch now))) →
  (∀ j, (j ≤ n)%nat → clock_ok (clock j)) → (0 ≤ gap)%Z →
  (∀ j, (j < n)%nat → (clock j ≤ clock (S j) ≤ clock j + gap)%Z) →
  ∃ fired h tries, run env (run_engine (S n) ∅) [] = (Finished fired, h) ∧
    claims_sent (key_of w) h = reverse ((λ t, to_micros (bucket_start secs t)) <$> tries) ∧
    StronglySorted (λ x y, (x + secs * nanos_per_sec ≤ y)%Z) (clock 0%nat :: tries) ∧
    NoDup (claims_sent (key_of w) h) ∧
    ∀ t, (clock 0%nat ≤ t)%Z → (t + secs * nanos_per_sec + gap ≤ clock n)%Z →
      ∃ x, x ∈ tries ∧ (t < x ≤ t + secs * nanos_per_sec + gap)%Z.
Proof.
  intros Henv Hdef Hen Hch Htr Hdur Hsecs Hctx Hok Hg Hclock.
  destruct (run_engine_run env w clock d ch dur secs Henv Hdef Hen Hch Htr Hdur Hsecs Hctx (S n) ∅ []) as (fired & h & Hr & Hc).
  { cbn [readings]. intros j Hj. split; [apply Hok; lia|]. intros Hj'. apply Hclock. lia. }
  { intros _ a Ha. by apply lookup_empty_Some in Ha. }
  assert (Hp : paced gap (clock 0%nat) (clock <$> seq 1 n)) by (apply paced_seq; intros j Hj; apply Hclock; lia).
  exists fired, h, (attempts secs (Some (clock 0%nat)) (clock <$> seq 1 n)).
  assert (Hc' : claims_sent (key_of w) h = reverse ((λ t, to_micros (bucket_start secs t)) <$> attempts secs (Some (clock 0%nat)) (clock <$> seq 1 n))).
  { rewrite Hc. cbn [claims_sent readings]. rewrite app_nil_r. cbn [seq]. rewrite fmap_cons. unfold LastFired. rewrite lookup_empty. done. }
  pose proof (attempts_spaced secs (clock 0%nat) (clock <$> seq 1 n) ltac:(lia) (paced_sorted _ _ _ Hp)) as Hsp.
  split_and!; [exact Hr|exact Hc'|exact Hsp| |].
  - rewrite Hc'. apply StronglySorted_inv in Hsp as [Hsp _].
    pose proof (spaced_instants_nodup secs _ ltac:(lia) Hsp) as Hnd. by rewrite reverse_Permutation.
  - intros t Ht Hlate. eapply (attempts_keep_coming secs gap (clock 0%nat) (clock 0%nat) _ t (clock n)); try done; try (unfold nanos_per_sec in *; lia).
    apply list_elem_of_fmap. exists n. split; [done|]. apply elem_of_seq. destruct n as [|n]; [unfold nanos_per_sec in *; lia|lia].
Qed.

End liveness.

(** ** Examples *)

Module SampleSchedule.
Import SampleRun SampleCluster.

#[local] Existing Instance sample_num.
#[local] Existing Instance sample_print.
#[local] Existing Instance sample_eval.
#[local] Existing Instance canonical_order.
#[local] Existing Instance text_lib.
#[local] Existing Instance no_keys.
#[local] Existing Instance plain_urls.
#[local] Existing Instance once_at_noon.

Definition every_5m : WorkflowDef :=
  {| name := "beat"; description := None; trigger := Schedule None (Some "5m"); enabled := true;
     steps := [sample_step "pause" None (Delay "5s")] |}.
Definition beat_serde : SerdeLib sample_num := {|
  def_from_yaml := λ _, None; def_to_json := λ _, None; def_from_value := λ _, Some every_5m; value_from_str := λ _, None;
  value_to_str := λ _, None; ctx_to_value := λ _, Some JNull; ctx_from_value := λ _, None
|}.
#[local] Existing Instance beat_serde.

Definition beat_row : WorkflowRecord := new_workflow 0 7 3 (Some 5%N) [1%Z] "beat" daily_json [].

(** Ticks that take a minute and a second. *)
Definition slow_clock (j : nat) : Z := (noon + 61 * Z.of_nat j * nanos_per_sec)%Z.
Definition slow_environment : Environment := {|
  answer := λ h r, match r as q return Ans q with
                   | ReadClock => slow_clock (readings h) : Ans ReadClock
                   | ScheduledWorkflows => Some [beat_row] : Ans ScheduledWorkflows
                   | MemberRoleOf c ch pk => Some (Some "owner") : Ans (MemberRoleOf c ch pk)
                   | LatestFire c wf => Some None : Ans (LatestFire c wf)
                   | ClaimFire c wf t => Some true : Ans (ClaimFire c wf t)
                   | CreateRun c wf ev ctx => Some 4%N : Ans (CreateRun c wf ev ctx)
                   | q => sample_answer q
                   end;
  cut := λ _, None
|}.

Lemma slow_cooperative : cooperative slow_environment beat_row slow_clock.
Proof.
  split; try done.
  - intros h. exists [beat_row]. split; [done|]. split; [apply list_elem_of_here|apply NoDup_singleton].
  - intros h t. by exists true.
  - intros h ev ctx. by exists 4%N.
Qed.

Lemma slow_clock_ok j : (j ≤ 19)%nat → clock_ok (slow_clock j) ∧ (slow_clock j ≤ slow_clock (S j) ≤ slow_clock j + 61 * nanos_per_sec)%Z.
Proof.
  intros Hj. unfold clock_ok, slow_clock, timestamp_secs, noon, nanos_per_sec, MAX_TIMESTAMP. split; [|lia].
  split; [apply Z.div_pos; lia|]. apply Z.div_le_upper_bound; lia.
Qed.

Lemma interval_workflows_keep_firing_witness :
  parse_duration_secs "5m" = Ok 300%Z ∧ ∃ fired h x, run slow_environment (run_engine 20 ∅) [] = (Finished fired, h) ∧
    NoDup (claims_sent (key_of beat_row) h) ∧ (noon < x ≤ noon + 300 * nanos_per_sec + 61 * nanos_per_sec)%Z.
Proof.
  assert (Hdur : parse_duration_secs "5m" = Ok 300%Z) by (vm_compute; reflexivity).
  split; [exact Hdur|].
  assert (Hctx : ∀ ch now, is_Some (ctx_to_value (schedule_context ch now))) by (intros ch now; by exists JNull).
  destruct (interval_workflows_keep_firing (SL := beat_serde) slow_environment beat_row slow_clock every_5m 5%N "5m" 300 (61 * nanos_per_sec) 19
    slow_cooperative eq_refl eq_refl eq_refl eq_refl Hdur ltac:(lia) Hctx
    (λ j Hj, proj1 (slow_clock_ok j Hj)) ltac:(unfold nanos_per_sec; lia) (λ j Hj, proj2 (slow_clock_ok j (Nat.lt_le_incl _ _ Hj))))
    as (fired & h & tries & Hr & Hc & Hs & Hnd & Hlive).
  destruct (Hlive (slow_clock 0)) as (x & Hx & Hb); [lia|vm_compute; discriminate|].
  exists fired, h, x. split; [exact Hr|]. split; [exact Hnd|]. exact Hb.
Defined.

(** A tick sleeps a minute and then works, so that two ticks are more than a
    minute apart; an instant just after the first is found by neither. *)
Example instant_between_ticks_is_missed :
  cron_fire_instant "0 12 * * *" (noon - 500000000) 60 = None ∧ cron_fire_instant "0 12 * * *" (noon + 60500000000) 60 = None.
Proof. vm_compute. split; reflexivity. Qed.

(** An hourly workflow that fires at 10:59:30, for 10:00, is due again at
    11:00:30 if the pod restarts in between and reads the claim. *)
Definition half_to_eleven : Z := (39570 * nanos_per_sec)%Z.
Example restart_fires_again :
  (fired_for ← interval_fire_instant "1h" half_to_eleven;
   Some (interval_should_fire "1h" (Some (from_micros (to_micros fired_for))) (half_to_eleven + 60 * nanos_per_sec),
         bool_decide (interval_fire_instant "1h" (half_to_eleven + 60 * nanos_per_sec) = Some fired_for))) = Some (true, false).
Proof. vm_compute. reflexivity. Qed.

(** When the anchor cannot be read, the tick seeds it, and the next tick does
    not ask again. *)
Example unread_anchor_is_seeded c wf :
  interval_prefilter_should_fire ∅ c wf "1h" None noon = (false, {[ (c, wf) := noon ]}).
Proof. unfold interval_prefilter_should_fire. vm_compute (interval_should_fire _ _ _). done. Qed.

End SampleSchedule.
