(* ===== verification/IngestPolicy.v ===== *)
(** * Admission policy of the ingest pipeline

    The pure part of [crates/maju-relay/src/handlers/ingest.rs]: who may submit
    which kind, and which channel an event belongs to; with the scopes of
    [crates/maju-auth/src/scope.rs].

    Public keys and event ids are lower-case hex strings, as in [Nostr]; a byte
    string that was decoded from hex is represented in the same way, so
    [hex_bytes] is [hex::decode] followed by that representation. *)
From S2P Require Import Prelude Nostr Kinds.

(** [hex::decode]; its laws are what the crate documents. *)
Class HexDecode : Type := { hex_bytes : string → option string }.
Class HexLaws (H : HexDecode) : Prop := {
  hex_bytes_spec s : hex_bytes s =
    if Nat.even (String.length s) && str_forall is_ascii_hexdigit s then Some (to_ascii_lowercase s) else None
}.

(** [str::parse::<Uuid>]. *)
Class UuidParse : Type := { uuid_parse : string → option Uuid }.

(** ** Scopes *)

Inductive Scope :=
  | MessagesRead | MessagesWrite | ChannelsRead | ChannelsWrite | AdminChannels | UsersRead | UsersWrite | AdminUsers
  | JobsRead | JobsWrite | SubscriptionsRead | SubscriptionsWrite | FilesRead | FilesWrite | ReposRead | ReposWrite
  | Unknown (s : string).
#[export] Instance Scope_eq_dec : EqDecision Scope.
Proof. solve_decision. Defined.

Definition all_known : list Scope :=
  [MessagesRead; MessagesWrite; ChannelsRead; ChannelsWrite; AdminChannels; UsersRead; UsersWrite; AdminUsers;
   JobsRead; JobsWrite; SubscriptionsRead; SubscriptionsWrite; FilesRead; FilesWrite; ReposRead; ReposWrite].

Definition all_non_admin : list Scope :=
  [MessagesRead; MessagesWrite; ChannelsRead; ChannelsWrite; UsersRead; UsersWrite;
   JobsRead; JobsWrite; SubscriptionsRead; SubscriptionsWrite; FilesRead; FilesWrite; ReposRead; ReposWrite].

Definition scope_str (s : Scope) : string :=
  match s with
  | MessagesRead => "messages:read" | MessagesWrite => "messages:write"
  | ChannelsRead => "channels:read" | ChannelsWrite => "channels:write"
  | AdminChannels => "admin:channels"
  | UsersRead => "users:read" | UsersWrite => "users:write"
  | AdminUsers => "admin:users"
  | JobsRead => "jobs:read" | JobsWrite => "jobs:write"
  | SubscriptionsRead => "subscriptions:read" | SubscriptionsWrite => "subscriptions:write"
  | FilesRead => "files:read" | FilesWrite => "files:write"
  | ReposRead => "repos:read" | ReposWrite => "repos:write"
  | Unknown s => s
  end.

Definition scope_from_str (s : string) : Scope :=
  if (s =? "messages:read")%string then MessagesRead
  else if (s =? "messages:write")%string then MessagesWrite
  else if (s =? "channels:read")%string then ChannelsRead
  else if (s =? "channels:write")%string then ChannelsWrite
  else if (s =? "admin:channels")%string then AdminChannels
  else if (s =? "users:read")%string then UsersRead
  else if (s =? "users:write")%string then UsersWrite
  else if (s =? "admin:users")%string then AdminUsers
  else if (s =? "jobs:read")%string then JobsRead
  else if (s =? "jobs:write")%string then JobsWrite
  else if (s =? "subscriptions:read")%string then SubscriptionsRead
  else if (s =? "subscriptions:write")%string then SubscriptionsWrite
  else if (s =? "files:read")%string then FilesRead
  else if (s =? "files:write")%string then FilesWrite
  else if (s =? "repos:read")%string then ReposRead
  else if (s =? "repos:write")%string then ReposWrite
  else Unknown s.

Definition parse_scopes (raw : list string) : list Scope := map scope_from_str raw.

(** ** Who submits *)

Inductive HttpAuthMethod := Nip98 | DevPubkey.

Inductive IngestAuth :=
  | Nip42 (pubkey : string) (scopes : list Scope) (channel_ids : option (list Uuid)) (conn_id : Uuid)
  | Http (pubkey : string) (scopes : list Scope) (auth_method : HttpAuthMethod).

Definition auth_pubkey (a : IngestAuth) : string := match a with Nip42 pk _ _ _ | Http pk _ _ => pk end.
Definition auth_scopes (a : IngestAuth) : list Scope := match a with Nip42 _ s _ _ | Http _ s _ => s end.
Definition auth_conn_id (a : IngestAuth) : option Uuid := match a with Nip42 _ _ _ c => Some c | Http _ _ _ => None end.
Definition auth_channel_ids (a : IngestAuth) : option (list Uuid) :=
  match a with Nip42 _ _ (Some ids) _ => Some ids | _ => None end.
Definition is_http (a : IngestAuth) : bool := match a with Http _ _ _ => true | _ => false end.

Section policy.
Context {L : NostrLib}.

Definition has_tag (name : string) (e : Event) : bool := existsb (λ t, tag_kind t =? name)%string (tags e).

(** The kinds of an arm are tried in the order of the [match]. *)
Definition required_scope_for_kind (k : Z) (e : Event) : result string Scope :=
  if (k =? KIND_PROFILE)%Z then Ok UsersWrite
  else if one_of k [KIND_TEXT_NOTE; KIND_LONG_FORM] then Ok MessagesWrite
  else if one_of k
    [KIND_CONTACT_LIST; KIND_READ_STATE; KIND_USER_STATUS; KIND_AGENT_ENGRAM; KIND_EVENT_REMINDER; KIND_DEVICE_SESSION;
     KIND_PERSONA; KIND_TEAM; KIND_MANAGED_AGENT; KIND_PRIVATE_MANAGED_AGENT; KIND_TEAM_CATALOG; KIND_PUSH_LEASE]
  then Ok UsersWrite
  else if (k =? KIND_AGENT_TURN_METRIC)%Z then Ok MessagesWrite
  else if one_of k [KIND_REPORT; KIND_PRODUCT_FEEDBACK] then Ok MessagesWrite
  else if is_moderation_command_kind k then Ok MessagesWrite
  else if one_of k
    [KIND_MUTE_LIST; KIND_PIN_LIST; KIND_NIP65_RELAY_LIST_METADATA; KIND_BOOKMARK_LIST; KIND_FOLLOW_SET; KIND_BOOKMARK_SET;
     KIND_EMOJI_SET; KIND_EMOJI_LIST; KIND_AGENT_PROFILE]
  then Ok UsersWrite
  else if one_of k
    [KIND_DELETION; KIND_REACTION; KIND_GIFT_WRAP; KIND_STREAM_MESSAGE; KIND_STREAM_MESSAGE_V2; KIND_NIP29_DELETE_EVENT;
     KIND_STREAM_MESSAGE_EDIT; KIND_STREAM_MESSAGE_PINNED; KIND_STREAM_MESSAGE_BOOKMARKED; KIND_STREAM_MESSAGE_SCHEDULED;
     KIND_STREAM_REMINDER; KIND_STREAM_MESSAGE_DIFF; KIND_FORUM_POST; KIND_FORUM_VOTE; KIND_FORUM_COMMENT]
  then Ok MessagesWrite
  else if one_of k [KIND_NIP29_PUT_USER; KIND_NIP29_REMOVE_USER; KIND_NIP29_DELETE_GROUP] then Ok AdminChannels
  else if one_of k
    [RELAY_ADMIN_ADD_MEMBER; RELAY_ADMIN_REMOVE_MEMBER; RELAY_ADMIN_CHANGE_ROLE; RELAY_ADMIN_SET_WORKSPACE_PROFILE]
  then Ok AdminUsers
  else if one_of k [KIND_IA_ARCHIVE_REQUEST; KIND_IA_UNARCHIVE_REQUEST] then Ok UsersWrite
  else if (k =? KIND_NIP29_EDIT_METADATA)%Z then Ok (if has_tag "archived" e then AdminChannels else ChannelsWrite)
  else if one_of k [KIND_NIP29_CREATE_GROUP; KIND_CANVAS] then Ok ChannelsWrite
  else if one_of k [KIND_NIP29_JOIN_REQUEST; KIND_NIP29_LEAVE_REQUEST; KIND_NIP43_LEAVE_REQUEST] then Ok ChannelsRead
  else if one_of k
    [KIND_HUDDLE_STARTED; KIND_HUDDLE_PARTICIPANT_JOINED; KIND_HUDDLE_PARTICIPANT_LEFT; KIND_HUDDLE_ENDED; KIND_HUDDLE_GUIDELINES]
  then Ok ChannelsWrite
  else if one_of k [KIND_GIT_REPO_ANNOUNCEMENT; KIND_GIT_REPO_STATE] then Ok ReposWrite
  else if (k =? KIND_PROJECT)%Z then Ok ReposWrite
  else if one_of k
    [KIND_GIT_PATCH; KIND_GIT_PULL_REQUEST; KIND_GIT_PR_UPDATE; KIND_GIT_ISSUE; KIND_GIT_STATUS_OPEN; KIND_GIT_STATUS_MERGED;
     KIND_GIT_STATUS_CLOSED; KIND_GIT_STATUS_DRAFT]
  then Ok MessagesWrite
  else if one_of k [KIND_DM_OPEN; KIND_DM_ADD_MEMBER; KIND_DM_HIDE] then Ok MessagesWrite
  else if one_of k [KIND_WORKFLOW_DEF; KIND_WORKFLOW_TRIGGER] then Ok MessagesWrite
  else if one_of k [KIND_APPROVAL_GRANT; KIND_APPROVAL_DENY] then Ok MessagesWrite
  else Err "restricted: unknown event kind".

(** ** Channels *)

Definition is_global_only_kind (k : Z) : bool :=
  one_of k
    [KIND_PROFILE; KIND_TEXT_NOTE; KIND_CONTACT_LIST; KIND_LONG_FORM; KIND_USER_STATUS; KIND_READ_STATE; KIND_MUTE_LIST;
     KIND_PIN_LIST; KIND_NIP65_RELAY_LIST_METADATA; KIND_BOOKMARK_LIST; KIND_FOLLOW_SET; KIND_BOOKMARK_SET; KIND_EMOJI_SET;
     KIND_EMOJI_LIST; KIND_AGENT_ENGRAM; KIND_EVENT_REMINDER; KIND_DEVICE_SESSION; KIND_AGENT_PROFILE; KIND_PERSONA; KIND_TEAM;
     KIND_MANAGED_AGENT; KIND_PRIVATE_MANAGED_AGENT; KIND_TEAM_CATALOG; KIND_GIT_REPO_ANNOUNCEMENT; KIND_GIT_REPO_STATE;
     KIND_GIT_PATCH; KIND_GIT_PULL_REQUEST; KIND_GIT_PR_UPDATE; KIND_GIT_ISSUE; KIND_GIT_STATUS_OPEN; KIND_GIT_STATUS_MERGED;
     KIND_GIT_STATUS_CLOSED; KIND_GIT_STATUS_DRAFT; KIND_PROJECT; KIND_MODERATION_BAN; KIND_MODERATION_UNBAN;
     KIND_MODERATION_TIMEOUT; KIND_MODERATION_UNTIMEOUT; KIND_MODERATION_RESOLVE_REPORT; RELAY_ADMIN_ADD_MEMBER;
     RELAY_ADMIN_REMOVE_MEMBER; RELAY_ADMIN_CHANGE_ROLE; RELAY_ADMIN_SET_WORKSPACE_PROFILE; KIND_NIP43_LEAVE_REQUEST;
     KIND_IA_ARCHIVE_REQUEST; KIND_IA_UNARCHIVE_REQUEST; KIND_AGENT_TURN_METRIC; KIND_PUSH_LEASE].

Definition requires_h_channel_scope (k : Z) : bool :=
  one_of k
    [KIND_STREAM_MESSAGE; KIND_STREAM_MESSAGE_V2; KIND_STREAM_MESSAGE_EDIT; KIND_STREAM_MESSAGE_PINNED;
     KIND_STREAM_MESSAGE_BOOKMARKED; KIND_STREAM_MESSAGE_SCHEDULED; KIND_STREAM_REMINDER; KIND_STREAM_MESSAGE_DIFF; KIND_CANVAS;
     KIND_FORUM_POST; KIND_FORUM_VOTE; KIND_FORUM_COMMENT; KIND_NIP29_PUT_USER; KIND_NIP29_REMOVE_USER; KIND_NIP29_EDIT_METADATA;
     KIND_NIP29_DELETE_EVENT; KIND_NIP29_DELETE_GROUP; KIND_NIP29_LEAVE_REQUEST; KIND_HUDDLE_STARTED;
     KIND_HUDDLE_PARTICIPANT_JOINED; KIND_HUDDLE_PARTICIPANT_LEFT; KIND_HUDDLE_ENDED; KIND_HUDDLE_GUIDELINES].

Definition check_token_channel_access (a : IngestAuth) (ch : Uuid) : result string unit :=
  match auth_channel_ids a with
  | Some allowed =>
      if bool_decide (ch ∈ allowed) then Ok tt else Err "restricted: token does not have access to this channel"
  | None => Ok tt
  end.

(** ** Tags *)

(** The content of the first tag of kind [name] that has one. *)
Definition first_content (name : string) (e : Event) : option string :=
  find_map (λ t, if (tag_kind t =? name)%string then tag_content t else None) (tags e).

Definition extract_channel_id {U : UuidParse} (e : Event) : option Uuid :=
  find_map (λ t, if (tag_kind t =? "h")%string then v ← tag_content t; uuid_parse v else None) (tags e).

Definition is_hex64 (v : string) : bool := (String.length v =? 64)%nat && str_forall is_ascii_hexdigit v.

(** An [e] tag that names an event. *)
Definition e_target (t : Tag) : option string :=
  if (tag_kind t =? "e")%string then v ← tag_content t; if is_hex64 v then Some v else None else None.

Definition first_e_target (e : Event) : option string := find_map e_target (tags e).
Definition last_e_target (e : Event) : option string := find_map e_target (reverse (tags e)).

Definition count_tags (name : string) (e : Event) : nat :=
  length (List.filter (λ t, tag_kind t =? name)%string (tags e)).
Definition count_e_tags (e : Event) : nat := count_tags "e" e.

(** The value of a tag that names 32 bytes. *)
Definition key_of_hex {H : HexDecode} (v : string) : option string :=
  b ← hex_bytes v; if (String.length b =? 64)%nat then Some b else None.

(** In [effective_message_author] the first [actor] tag with a content counts,
    whatever it holds; of the [p] tags the first that is a key. *)
Definition effective_message_author {H : HexDecode} (e : Event) (relay : string) : string :=
  if (pubkey e =? relay)%string then
    match (v ← first_content "actor" e; key_of_hex v) with
    | Some k => k
    | None =>
        default (pubkey e)
          (find_map (λ t, if (tag_kind t =? "p")%string then v ← tag_content t; key_of_hex v else None) (tags e))
    end
  else pubkey e.

(** ** Time *)

(** [as i64]. *)
Definition as_i64 (z : Z) : Z := (wrap 64 (z + 2 ^ 63) - 2 ^ 63)%Z.

Definition MAX_TIMESTAMP_DRIFT_SECS : Z := 900.
Definition MAX_EVENT_CONTENT_BYTES : Z := 256 * 1024.

(** [(event_ts - now).abs() > max], with the wrap-around of a release build. *)
Definition clock_drift (created now : Z) : Z := as_i64 (as_i64 created - now).
Definition i64_abs (z : Z) : Z := as_i64 (Z.abs z).
Definition drifted (max created now : Z) : bool := (max <? i64_abs (clock_drift created now))%Z.

(** [str::parse] at a signed type of [w] + 1 bits. *)
Definition parse_signed (w : N) (s : string) : option Z :=
  match s with
  | String c r =>
      if Ascii.eqb c "-" then
        if (r =? "")%string then None
        else v ← dec_value 0 r; if (v <=? 2 ^ w)%N then Some (- Z.of_N v)%Z else None
      else v ← parse_unsigned w s; Some (Z.of_N v)
  | EmptyString => None
  end.

(** [resolve_ttl] of [handlers/mod.rs]. *)
Definition resolve_ttl (e : Event) (override : option Z) : option Z :=
  let from_tag := find_map (λ t, if (tag_kind t =? "ttl")%string then v ← tag_content t; parse_signed 31 v else None) (tags e) in
  match from_tag, override with
  | Some _, Some o => Some o
  | t, _ => t
  end.

End policy.

(** ** Lemmas *)

Lemma find_map_Some {A B} (f : A → option B) l b : find_map f l = Some b → ∃ a, a ∈ l ∧ f a = Some b.
Proof.
  unfold find_map. intros H. assert (Hin : b ∈ omap f l) by (destruct (omap f l); [done|injection H as ->; left]).
  apply list_elem_of_omap in Hin. exact Hin.
Qed.

Lemma find_map_None {A B} (f : A → option B) l : find_map f l = None ↔ Forall (λ a, f a = None) l.
Proof.
  unfold find_map. induction l as [|a l IH]; [split; [constructor|done]|]. rewrite Forall_cons, <- IH. cbn.
  destruct (f a); naive_solver.
Qed.

Lemma as_i64_small z : (- 2 ^ 63 ≤ z < 2 ^ 63)%Z → as_i64 z = z.
Proof. intros H. unfold as_i64, wrap. rewrite Z.mod_small by lia. lia. Qed.

Lemma as_i64_large z : (2 ^ 63 ≤ z < 2 ^ 64 + 2 ^ 63)%Z → as_i64 z = (z - 2 ^ 64)%Z.
Proof.
  intros H. unfold as_i64, wrap. replace (z + 2 ^ 63)%Z with ((z - 2 ^ 63) + 1 * 2 ^ 64)%Z by lia.
  rewrite Z.mod_add, Z.mod_small by lia. lia.
Qed.

Lemma as_i64_below z : (- 2 ^ 64 - 2 ^ 63 ≤ z < - 2 ^ 63)%Z → as_i64 z = (z + 2 ^ 64)%Z.
Proof.
  intros H. unfold as_i64, wrap. replace (z + 2 ^ 63)%Z with ((z + 2 ^ 64 + 2 ^ 63) + (-1) * 2 ^ 64)%Z by lia.
  rewrite Z.mod_add, Z.mod_small by lia. lia.
Qed.

(** The drift check admits the times around the clock, and by wrap-around one
    more: the negation of the least integer is itself. *)
Lemma drifted_spec max created now : (0 ≤ max < now)%Z → (0 ≤ created < 2 ^ 64)%Z → (now < 2 ^ 62)%Z →
  drifted max created now = false ↔ (Z.abs (created - now) ≤ max)%Z ∨ created = (now + 2 ^ 63)%Z.
Proof.
  intros Hm Hc Hn. unfold drifted, i64_abs, clock_drift. rewrite Z.ltb_ge.
  destruct (decide (created < 2 ^ 63)%Z) as [Hs|Hs].
  - rewrite (as_i64_small created), (as_i64_small (created - now)), as_i64_small by lia. lia.
  - rewrite (as_i64_large created) by lia. destruct (decide (created - 2 ^ 64 - now < - 2 ^ 63)%Z) as [Hb|Hb].
    + rewrite (as_i64_below (created - 2 ^ 64 - now)) by lia. rewrite as_i64_small by lia. lia.
    + rewrite (as_i64_small (created - 2 ^ 64 - now)) by lia. destruct (decide (created = now + 2 ^ 63)%Z) as [->|Hne].
      * rewrite as_i64_large by lia. lia.
      * rewrite as_i64_small by lia. lia.
Qed.

(** A scope string is not changed by reading it. *)
Lemma scope_round_trip s : scope_str (scope_from_str s) = s.
Proof.
  unfold scope_from_str. repeat (match goal with |- context [if (?a =? ?b)%string then _ else _] => destruct (String.eqb_spec a b) end; [by subst|]).
  done.
Qed.

(** A kind that is always global never asks for a channel. *)
Lemma global_kinds_need_no_channel k : is_global_only_kind k = true → requires_h_channel_scope k = false.
Proof.
  intros H%one_of_spec. apply negb_true_iff.
  refine (forallb_elem_of (λ k, negb (requires_h_channel_scope k)) _ _ k H). reflexivity.
Qed.
