(* ===== verification/Envelopes.v ===== *)
(** * Envelopes of single kinds ([crates/maju-relay/src/handlers/ingest.rs])

    The checks that an event of a kind must pass before it may replace an
    older one: diffs, engrams, personas, team catalogues, projects, turn
    metrics, reminders and custom emoji.  The relay cannot read the encrypted
    contents; it checks the public tags and the outer form of a ciphertext.

    A rejection carries the text of the code without the numbers and values
    that [format!] inserts. *)
From S2P Require Import Prelude Nostr Kinds Channel WorkflowTemplate IngestPolicy.

(** ** Text *)

(** The characters of a string; a Rust string always decodes. *)
Definition chars (s : string) : list Z := default [] (utf8_decode s).
Definition char_count (s : string) : nat := length (chars s).

(** [char::is_control]: the category [Cc]. *)
Definition is_control (c : Z) : bool := ((0 <=? c) && (c <=? 31) || (127 <=? c) && (c <=? 159))%Z.

Definition is_lower_hex (c : ascii) : bool := is_ascii_hexdigit c && negb (is_ascii_upper c).
Definition is_lower_hex64 (s : string) : bool := (String.length s =? 64)%nat && str_forall is_lower_hex s.

(** ** NIP-44 ciphertexts *)

(** [b'A'..=b'Z' | b'a'..=b'z' | b'0'..=b'9' | b'+' | b'/'], with its value. *)
Definition b64_val (c : Z) : option Z :=
  (if (65 <=? c) && (c <=? 90) then Some (c - 65)
   else if (97 <=? c) && (c <=? 122) then Some (c - 97 + 26)
   else if (48 <=? c) && (c <=? 57) then Some (c - 48 + 52)
   else if c =? 43 then Some 62
   else if c =? 47 then Some 63
   else None)%Z.
Definition is_b64 (c : Z) : bool := bool_decide (is_Some (b64_val c)).

(** The loop over the bytes: the number of paddings, or a rejection. *)
Fixpoint b64_loop (len i : Z) (pad_count : Z) (bytes : list Z) : option Z :=
  match bytes with
  | [] => Some pad_count
  | b :: bytes =>
      if is_b64 b then
        if (0 <? pad_count)%Z then None else b64_loop len (i + 1) pad_count bytes
      else if (b =? 61)%Z then
        if (i <? len - 2)%Z then None
        else if (2 <? pad_count + 1)%Z then None
        else b64_loop len (i + 1) (pad_count + 1) bytes
      else None
  end.

Definition validate_engram_nip44_content (content : string) : result string unit :=
  if (content =? "")%string then Err "agent-engram content must not be empty (NIP-44 ciphertext)"
  else
    let bytes := str_bytes content in
    let len := Z.of_nat (length bytes) in
    if negb (len mod 4 =? 0)%Z then Err "agent-engram content is not valid base64 (length)"
    else
      match b64_loop len 0 0 bytes with
      | None => Err "agent-engram content is not valid base64"
      | Some pad_count =>
          if (len / 4 * 3 - pad_count <? 99)%Z then Err "agent-engram content too short for NIP-44 v2"
          else
            match (b0 ← bytes !! 0%nat; b64_val b0), (b1 ← bytes !! 1%nat; b64_val b1) with
            | Some v0, Some v1 =>
                if negb (Z.lor (wrap 8 (Z.shiftl v0 2)) (Z.shiftr v1 4) =? 2)%Z
                then Err "agent-engram content is not NIP-44 v2 (expected 0x02 version prefix)"
                else Ok tt
            | _, _ => Err "agent-engram content is not valid base64"
            end
      end.

(** ** Reminders *)

Definition MAX_NOT_BEFORE : Z := 9007199254740991.

Definition validate_not_before (v : string) : result string Z :=
  if (v =? "")%string || negb (str_forall is_ascii_digit v) then Err "malformed not_before"
  else if (1 <? String.length v)%nat && starts_with "0" v then Err "malformed not_before"
  else
    match parse_unsigned 64 v with
    | None => Err "malformed not_before"
    | Some n => if (MAX_NOT_BEFORE <? Z.of_N n)%Z then Err "malformed not_before" else Ok (Z.of_N n)
    end.

Section envelopes.
Context {L : NostrLib}.

(** The tags with at least two parts, as name and value. *)
Definition named_values (e : Event) : list (string * string) :=
  omap (λ t, match as_slice t with k :: v :: _ => Some (k, v) | _ => None end) (tags e).
Definition values_of (name : string) (e : Event) : list string :=
  (List.filter (λ kv, kv.1 =? name)%string (named_values e)).*2.

(** *** Reminders: the state of the loop *)

Record ReminderTags := { not_before : option Z; expiration : option string; d_count : Z; d_empty : bool }.

Definition reminder_step (st : ReminderTags) (kv : string * string) : result string ReminderTags :=
  if (kv.1 =? "not_before")%string then
    match not_before st with
    | Some _ => Err "malformed not_before"
    | None =>
        match validate_not_before kv.2 with
        | Err e => Err e
        | Ok n => Ok {| not_before := Some n; expiration := expiration st; d_count := d_count st; d_empty := d_empty st |}
        end
    end
  else if (kv.1 =? "expiration")%string then
    Ok {| not_before := not_before st; expiration := Some kv.2; d_count := d_count st; d_empty := d_empty st |}
  else if (kv.1 =? "d")%string then
    Ok {| not_before := not_before st; expiration := expiration st; d_count := Z.min 255 (d_count st + 1);
          d_empty := d_empty st || (kv.2 =? "")%string |}
  else Ok st.

Fixpoint reminder_loop (st : ReminderTags) (l : list (string * string)) : result string ReminderTags :=
  match l with
  | [] => Ok st
  | kv :: l => match reminder_step st kv with Err e => Err e | Ok st => reminder_loop st l end
  end.

(** [max_delta] is the environment's [SPROUT_MAX_NOT_BEFORE_DELTA], if it
    parses; [now] is the clock. *)
Definition validate_event_reminder (max_delta : option Z) (now : Z) (e : Event) : result string unit :=
  match reminder_loop {| not_before := None; expiration := None; d_count := 0; d_empty := false |} (named_values e) with
  | Err err => Err err
  | Ok st =>
      if (d_count st =? 0)%Z then Err "missing d tag"
      else if (1 <? d_count st)%Z then Err "duplicate d tag"
      else if d_empty st then Err "empty d tag"
      else
        match not_before st with
        | None => Ok tt
        | Some nb =>
            if (wrapping_add 64 now (default 31536000 max_delta) <? nb)%Z then Err "not_before too far in future"
            else
              match (x ← expiration st; parse_unsigned 64 x) with
              | Some ex => if (Z.of_N ex <=? nb)%Z then Err "expiration before not_before" else Ok tt
              | None => Ok tt
              end
        end
  end.

(** *** Diffs *)

Definition is_sha (s : string) : bool := (7 <=? String.length s)%nat && str_forall is_ascii_hexdigit s.

(** The loop over the tags: whether a repository and a commit were seen. *)
Definition diff_step (seen : bool * bool) (parts : list string) : result string (bool * bool) :=
  match parts with
  | name :: v :: rest =>
      if (name =? "repo")%string then
        if negb (starts_with "http://" v) && negb (starts_with "https://" v) then Err "repo URL must be http or https"
        else Ok (true, seen.2)
      else if (name =? "commit")%string then
        if negb (is_sha v) then Err "commit SHA must be at least 7 hex characters" else Ok (seen.1, true)
      else if (name =? "parent-commit")%string then
        if negb (is_sha v) then Err "parent-commit SHA must be at least 7 hex characters" else Ok seen
      else if (name =? "branch")%string then
        match rest with
        | w :: _ => if (v =? "")%string || (w =? "")%string then Err "branch tag requires both source and target" else Ok seen
        | [] => Err "branch tag requires both source and target"
        end
      else if (name =? "pr")%string then
        match parse_unsigned 32 v with
        | Some n => if (n =? 0)%N then Err "pr number must be a positive integer" else Ok seen
        | None => Err "pr number must be a positive integer"
        end
      else Ok seen
  | _ => Ok seen
  end.

Fixpoint diff_loop (seen : bool * bool) (l : list (list string)) : result string (bool * bool) :=
  match l with
  | [] => Ok seen
  | parts :: l => match diff_step seen parts with Err e => Err e | Ok seen => diff_loop seen l end
  end.

Definition validate_diff_event (e : Event) : result string unit :=
  if (61440 <? Z.of_nat (String.length (content e)))%Z then Err "diff content exceeds 60KB limit"
  else
    match diff_loop (false, false) (map as_slice (tags e)) with
    | Err err => Err err
    | Ok (has_repo, has_commit) =>
        if negb has_repo then Err "diff event requires a repo tag"
        else if negb has_commit then Err "diff event requires a commit tag"
        else Ok tt
    end.

(** *** Engrams and turn metrics *)

Definition validate_engram_envelope (e : Event) : result string unit :=
  match values_of "d" e with
  | [d] =>
      match values_of "p" e with
      | [p] =>
          if negb (is_lower_hex64 d) then Err "agent-engram `d` tag must be 64 lowercase hex chars"
          else if negb (is_lower_hex64 p) then Err "agent-engram `p` tag must be 64 lowercase hex chars (pubkey)"
          else validate_engram_nip44_content (content e)
      | _ => Err "agent-engram event must have exactly one `p` tag"
      end
  | _ => Err "agent-engram event must have exactly one `d` tag"
  end.

(** The texts of the ciphertext check name the other kind. *)
Definition validate_agent_turn_metric_envelope (e : Event) : result string unit :=
  if negb (bool_decide (values_of "h" e = [])) then Err "agent-turn-metric event must not have an `h` tag"
  else
    match values_of "p" e with
    | [p] =>
        if negb (is_lower_hex64 p) then Err "agent-turn-metric `p` tag must be 64 lowercase hex chars"
        else
          match values_of "agent" e with
          | [agent] =>
              if negb (is_lower_hex64 agent) then Err "agent-turn-metric `agent` tag must be 64 lowercase hex chars"
              else if negb (agent =? pubkey e)%string then Err "agent-turn-metric `agent` tag must equal event pubkey"
              else map_err (λ _, "agent-turn-metric content is not a NIP-44 ciphertext") (validate_engram_nip44_content (content e))
          | _ => Err "agent-turn-metric event must have exactly one `agent` tag"
          end
    | _ => Err "agent-turn-metric event must have exactly one `p` tag"
    end.

(** *** Shared definitions *)

(** The loop of [validate_shared_tag]: the number of [shared] tags. *)
Fixpoint shared_count (n : nat) (l : list (list string)) : option nat :=
  match l with
  | [] => Some n
  | parts :: l =>
      match parts with
      | p0 :: rest =>
          if (p0 =? "shared")%string then
            match rest with
            | [v] => if negb (v =? "true")%string then None else shared_count (S n) l
            | _ => None
            end
          else shared_count n l
      | [] => shared_count n l
      end
  end.

Definition validate_shared_tag (label : string) (e : Event) : result string unit :=
  match shared_count 0 (map as_slice (tags e)) with
  | None => Err (label +:+ " `shared` tag must be exactly shared, true")
  | Some n => if (1 <? n)%nat then Err (label +:+ " must have at most one `shared` tag") else Ok tt
  end.

(** The values of the tags of a name, valueless ones included. *)
Definition tag_values (name : string) (e : Event) : list (option string) :=
  omap (λ t, match as_slice t with k :: rest => if (k =? name)%string then Some (head rest) else None | [] => None end) (tags e).

Definition single_bounded_d_tag (label : string) (e : Event) : result string string :=
  match tag_values "d" e with
  | [v] =>
      let d := default "" v in
      if (d =? "")%string then Err (label +:+ " `d` tag must not be empty")
      else if (64 <? char_count d)%nat then Err (label +:+ " `d` tag too long")
      else if existsb (λ c, is_control c || is_whitespace c) (chars d)
        then Err (label +:+ " `d` tag must not contain control characters or whitespace")
      else Ok d
  | _ => Err (label +:+ " must have exactly one `d` tag")
  end.

Definition is_slug_char (c : ascii) : bool :=
  is_ascii_lower c || is_ascii_digit c || Ascii.eqb c "_" || Ascii.eqb c "-".

Definition validate_persona_envelope (e : Event) : result string unit :=
  match validate_shared_tag "persona event" e with
  | Err err => Err err
  | Ok _ =>
      match single_bounded_d_tag "persona event" e with
      | Err err => Err err
      | Ok EmptyString => Ok tt
      | Ok (String c rest) =>
          if negb (is_ascii_lower c) && negb (is_ascii_digit c)
          then Err "persona event `d` tag must start with a lowercase letter or digit"
          else if negb (str_forall is_slug_char rest) then Err "persona event `d` tag must match [a-z0-9_-] after the first character"
          else Ok tt
      end
  end.

Definition validate_team_catalog_envelope (e : Event) : result string unit :=
  match validate_shared_tag "team-catalog event" e with
  | Err err => Err err
  | Ok _ => match single_bounded_d_tag "team-catalog event" e with Err err => Err err | Ok _ => Ok tt end
  end.

(** *** Projects *)

Definition PROJECT_MEMBER_CAP : nat := 64.
Definition PROJECT_NAME_MAX_LEN : nat := 256.
Definition PROJECT_DESCRIPTION_MAX_LEN : nat := 2048.
Definition PROJECT_METADATA_TAG_MAX_LEN : nat := 256.
Definition PROJECT_SINGLETON_METADATA_TAGS : list string := ["name"; "description"; "maju-channel"; "maju-visibility"].
Definition PROJECT_MEMBER_KIND_SEGMENT : string := "30617".

Record ProjectRejection := { rule : string; rejection_message : string }.

(** [splitn(3, ':')], when there are three segments. *)
Definition split3 (s : string) : option (string * string * string) :=
  '(a, rest) ← split_first ":" s;
  '(b, c) ← split_first ":" rest;
  Some (a, b, c).

Definition malformed : ProjectRejection :=
  {| rule := "member-coordinate-malformed"; rejection_message := "project event member `a` tag must be a repository coordinate" |}.

Definition parse_project_member_coordinate (coordinate : string) : result ProjectRejection unit :=
  match split3 coordinate with
  | None => Err malformed
  | Some (k, owner, repo_d) =>
      if negb (k =? PROJECT_MEMBER_KIND_SEGMENT)%string then Err malformed
      else if negb (is_lower_hex64 owner) then Err malformed
      else if (repo_d =? "")%string then Err malformed
      else Ok tt
  end.

(** The first part of a tag, and the second or the empty string. *)
Definition project_tag (t : Tag) : option (string * string) :=
  match as_slice t with k :: rest => Some (k, default "" (head rest)) | [] => None end.
Definition project_values (name : string) (e : Event) : list string :=
  (List.filter (λ kv, kv.1 =? name)%string (omap project_tag (tags e))).*2.

Definition bad_arity (t : Tag) : bool :=
  match as_slice t with
  | k :: rest => (k =? "a")%string && negb ((1 <=? length rest) && (length rest <=? 2))%nat
  | [] => false
  end.

Fixpoint check_members (seen : gset string) (l : list string) : result ProjectRejection unit :=
  match l with
  | [] => Ok tt
  | m :: l =>
      match parse_project_member_coordinate m with
      | Err e => Err e
      | Ok _ =>
          if decide (m ∈ seen)
          then Err {| rule := "member-duplicate"; rejection_message := "project event has duplicate member coordinate" |}
          else check_members ({[m]} ∪ seen) l
      end
  end.

(** The effective value of a metadata tag is the last one. *)
Definition too_long (name : string) (max : nat) (e : Event) : bool :=
  match last (project_values name e) with Some v => (max <? String.length v)%nat | None => false end.

Definition metadata_length (name : string) : ProjectRejection :=
  {| rule := "metadata-length"; rejection_message := "project event `" +:+ name +:+ "` tag too long" |}.

Definition validate_project_envelope (e : Event) : result ProjectRejection unit :=
  match project_values "d" e with
  | [d] =>
      if (d =? "")%string then Err {| rule := "d-empty"; rejection_message := "project event `d` tag must not be empty" |}
      else
        let members := project_values "a" e in
        if (PROJECT_MEMBER_CAP <? length members)%nat
        then Err {| rule := "member-cap"; rejection_message := "project event must have at most 64 member `a` tags" |}
        else if existsb bad_arity (tags e)
        then Err {| rule := "member-tag-arity"; rejection_message := "project event member `a` tag must have exactly 2 or 3 elements" |}
        else
          match check_members ∅ members with
          | Err err => Err err
          | Ok _ =>
              if existsb (λ k, 1 <? length (project_values k e))%nat PROJECT_SINGLETON_METADATA_TAGS
              then Err {| rule := "metadata-cardinality"; rejection_message := "project event must have at most one metadata tag of a name" |}
              else if too_long "name" PROJECT_NAME_MAX_LEN e then Err (metadata_length "name")
              else if too_long "description" PROJECT_DESCRIPTION_MAX_LEN e then Err (metadata_length "description")
              else if too_long "maju-channel" PROJECT_METADATA_TAG_MAX_LEN e then Err (metadata_length "maju-channel")
              else if too_long "maju-visibility" PROJECT_METADATA_TAG_MAX_LEN e then Err (metadata_length "maju-visibility")
              else Ok tt
          end
  | _ => Err {| rule := "d-cardinality"; rejection_message := "project event must have exactly one `d` tag" |}
  end.

(** *** Custom emoji *)

Definition MAX_CUSTOM_EMOJI_SHORTCODE_LEN : nat := 64.
Definition MAX_CUSTOM_EMOJI_REACTION_LEN : nat := MAX_CUSTOM_EMOJI_SHORTCODE_LEN + 2.

(** [trim_matches(':')]. *)
Definition trim_matches (c : Z) (s : list Z) : list Z :=
  reverse (trim_start_matches (Z.eqb c) (reverse (trim_start_matches (Z.eqb c) s))).

Definition normalize_custom_emoji_shortcode (shortcode : string) : result string string :=
  let trimmed := utf8_encode (trim_matches 58 (chars (trim shortcode))) in
  if (trimmed =? "")%string then Err "emoji shortcode must not be empty"
  else if (MAX_CUSTOM_EMOJI_SHORTCODE_LEN <? String.length trimmed)%nat then Err "emoji shortcode exceeds 64 bytes"
  else if negb (str_forall (λ c, is_ascii_alphanumeric c || Ascii.eqb c "-" || Ascii.eqb c "_") trimmed)
    then Err "emoji shortcode may only contain ASCII letters, digits, hyphens, and underscores"
  else Ok (to_ascii_lowercase trimmed).

Definition emoji_tag_ok (t : Tag) : result string unit :=
  match as_slice t with
  | k :: rest =>
      if negb (k =? "emoji")%string then Ok tt
      else
        match rest with
        | shortcode :: _ => match normalize_custom_emoji_shortcode shortcode with Err e => Err ("invalid: " +:+ e) | Ok _ => Ok tt end
        | [] => Err "invalid: emoji tag must include a shortcode"
        end
  | [] => Ok tt
  end.

Fixpoint first_error {A} (f : A → result string unit) (l : list A) : result string unit :=
  match l with
  | [] => Ok tt
  | x :: l => match f x with Err e => Err e | Ok _ => first_error f l end
  end.

Definition validate_custom_emoji_tags (e : Event) : result string unit := first_error emoji_tag_ok (tags e).

Definition names_emoji (shortcode : string) (t : Tag) : bool :=
  match as_slice t with
  | k :: v :: _ => (k =? "emoji")%string && (v =? shortcode)%string
  | _ => false
  end.

Definition validate_reaction_emoji (e : Event) (emoji : string) : result string unit :=
  let n := char_count emoji in
  if (n <=? 64)%nat then Ok tt
  else
    match (v ← strip_prefix ":" emoji; strip_suffix ":" v) with
    | None => Err "invalid: reaction emoji exceeds 64 characters"
    | Some shortcode =>
        match normalize_custom_emoji_shortcode shortcode with
        | Err err => Err ("invalid: " +:+ err)
        | Ok normalized =>
            if negb (shortcode =? normalized)%string
            then Err "invalid: long custom emoji reaction shortcode must be canonical lowercase"
            else if negb (existsb (names_emoji shortcode) (tags e)) || (MAX_CUSTOM_EMOJI_REACTION_LEN <? n)%nat
            then Err "invalid: reaction emoji exceeds 64 characters"
            else Ok tt
        end
    end.

End envelopes.
