(* ===== verification/EnvelopesProps.v ===== *)
(** * Properties of the envelopes

    The ciphertext check agrees with a decoder of base64, a reminder's time is
    read back exactly in its canonical form, and the project check accepts the
    well-formed projects. *)
From S2P Require Import Prelude Nostr Kinds Channel WorkflowTemplate IngestPolicy Envelopes.

(** ** Base64 *)

(** Reference decoder: groups of four characters, padding in the last one. *)
Fixpoint b64_decode (l : list Z) : option (list Z) :=
  match l with
  | [] => Some []
  | a :: b :: c :: d :: rest =>
      va ← b64_val a; vb ← b64_val b;
      if (d =? 61)%Z then
        match rest with
        | [] =>
            if (c =? 61)%Z then Some [va * 4 + vb / 16]%Z
            else vc ← b64_val c; Some [va * 4 + vb / 16; vb mod 16 * 16 + vc / 4]%Z
        | _ => None
        end
      else
        vc ← b64_val c; vd ← b64_val d; r ← b64_decode rest;
        Some ((va * 4 + vb / 16)%Z :: (vb mod 16 * 16 + vc / 4)%Z :: (vc mod 4 * 64 + vd)%Z :: r)
  | _ => None
  end.

Lemma b64_val_bound c v : b64_val c = Some v → (0 ≤ v < 64)%Z.
Proof. unfold b64_val. repeat case_match; intros [= <-]; lia. Qed.

Lemma b64_val_pad : b64_val 61 = None.
Proof. done. Qed.

Lemma is_b64_Some c v : b64_val c = Some v → is_b64 c = true.
Proof. intros H. unfold is_b64. apply bool_decide_eq_true. by exists v. Qed.
Lemma is_b64_None c : b64_val c = None → is_b64 c = false.
Proof. intros H. unfold is_b64. rewrite H. apply bool_decide_eq_false. by intros []. Qed.

Lemma first_byte_eq v0 v1 : (0 ≤ v0 < 64 → 0 ≤ v1 < 64 → Z.lor (wrap 8 (Z.shiftl v0 2)) (Z.shiftr v1 4) = v0 * 4 + v1 / 16)%Z.
Proof.
  intros H0 H1.
  set (P := λ a b, (Z.lor (wrap 8 (Z.shiftl a 2)) (Z.shiftr b 4) =? a * 4 + b / 16)%Z).
  assert (forallb (λ a, forallb (P (Z.of_nat a)) (map Z.of_nat (seq 0 64))) (seq 0 64) = true) as H by by vm_compute.
  rewrite forallb_forall in H. specialize (H (Z.to_nat v0) ltac:(apply in_seq; lia)).
  rewrite forallb_forall, Z2Nat.id in H by lia. specialize (H v1).
  apply Z.eqb_eq, H. apply in_map_iff. exists (Z.to_nat v1). rewrite Z2Nat.id by lia. split; [done|]. apply in_seq. lia.
Qed.

(** One character outside the last two of the text. *)
Lemma b64_loop_inner len i b l : (i < len - 2)%Z →
  b64_loop len i 0 (b :: l) = if is_b64 b then b64_loop len (i + 1) 0 l else None.
Proof.
  intros Hi. cbn [b64_loop]. destruct (is_b64 b); [done|]. destruct (b =? 61)%Z; [|done].
  by rewrite (proj2 (Z.ltb_lt _ _)) by lia.
Qed.

(** Texts whose length is a multiple of four. *)
Inductive quads : list Z → Prop :=
  | quads_nil : quads []
  | quads_cons a b c d l : quads l → quads (a :: b :: c :: d :: l).

Lemma quads_length l : quads l ↔ (length l mod 4 = 0)%nat.
Proof.
  split.
  - induction 1 as [|a b c d l _ IH]; [done|]. cbn [length]. replace (S (S (S (S (length l))))) with (length l + 1 * 4) by lia.
    by rewrite Nat.Div0.mod_add.
  - intros Hm. remember (length l / 4) as n eqn:En. assert (Hlen : length l = 4 * n).
    { pose proof (Nat.div_mod_eq (length l) 4). lia. }
    clear Hm En. revert l Hlen. induction n as [|n IH]; intros l Hlen.
    + destruct l; [constructor|]. cbn in Hlen. lia.
    + destruct l as [|a [|b [|c [|d l]]]]; cbn in Hlen; try lia. constructor. apply IH. lia.
Qed.

Lemma b64_loop_decode len l : quads l → (Z.of_nat (length l) ≤ len)%Z →
  b64_loop len (len - Z.of_nat (length l)) 0 l =
    bs ← b64_decode l; Some (Z.of_nat (length l) / 4 * 3 - Z.of_nat (length bs))%Z.
Proof.
  induction 1 as [|a b c d l Hq IH]; intros Hl; [done|]. cbn [length] in Hl |- *.
  rewrite !b64_loop_inner by lia. cbn [b64_decode].
  destruct (b64_val a) as [va|] eqn:Ea; [rewrite (is_b64_Some _ _ Ea)|by rewrite (is_b64_None _ Ea)]. cbn [mbind option_bind].
  destruct (b64_val b) as [vb|] eqn:Eb; [rewrite (is_b64_Some _ _ Eb)|by rewrite (is_b64_None _ Eb)]. cbn [mbind option_bind].
  destruct l as [|x l].
  - cbn [length]. replace (len - Z.of_nat 4 + 1 + 1)%Z with (len - 2)%Z by lia. cbn [b64_loop].
    rewrite (proj2 (Z.ltb_ge (len - 2) (len - 2))) by lia. rewrite (proj2 (Z.ltb_ge (len - 2 + 1) (len - 2))) by lia.
    destruct (Z.eqb_spec d 61) as [->|Hd].
    + destruct (Z.eqb_spec c 61) as [->|Hc]; [done|].
      destruct (b64_val c) as [vc|] eqn:Ec; [rewrite (is_b64_Some _ _ Ec)|rewrite (is_b64_None _ Ec)]; cbn; [done|].
      by destruct (c =? 61)%Z eqn:E; [apply Z.eqb_eq in E|].
    + destruct (b64_val c) as [vc|] eqn:Ec; [rewrite (is_b64_Some _ _ Ec)|rewrite (is_b64_None _ Ec)]; cbn.
      * destruct (b64_val d) as [vd|] eqn:Ed; [rewrite (is_b64_Some _ _ Ed)|rewrite (is_b64_None _ Ed)]; by cbn.
      * destruct (c =? 61)%Z; [|done]. by destruct (is_b64 d).
  - assert (Hx : (3 < Z.of_nat (length (x :: l)))%Z) by (inversion Hq; cbn [length]; lia).
    rewrite b64_loop_inner by lia.
    replace (len - Z.of_nat (S (S (S (S (length (x :: l)))))) + 1 + 1 + 1)%Z with (len - Z.of_nat (length (x :: l)) - 1)%Z by lia.
    rewrite b64_loop_inner by lia.
    replace (len - Z.of_nat (length (x :: l)) - 1 + 1)%Z with (len - Z.of_nat (length (x :: l)))%Z by lia.
    rewrite IH by lia.
    assert (Hlen : ∀ n, (Z.of_nat (S (S (S (S n)))) / 4 = Z.of_nat n / 4 + 1)%Z).
    { intros n. replace (Z.of_nat (S (S (S (S n))))) with (Z.of_nat n + 1 * 4)%Z by lia. by apply Z.div_add. }
    destruct (Z.eqb_spec d 61) as [->|Hd].
    + destruct (is_b64 c); [|done]. by rewrite (is_b64_None 61 b64_val_pad).
    + destruct (b64_val c) as [vc|] eqn:Ec; [rewrite (is_b64_Some _ _ Ec)|by rewrite (is_b64_None _ Ec)]. cbn [mbind option_bind].
      destruct (b64_val d) as [vd|] eqn:Ed; [rewrite (is_b64_Some _ _ Ed)|by rewrite (is_b64_None _ Ed)]. cbn [mbind option_bind].
      destruct (b64_decode (x :: l)) as [r|]; [|done]. cbn [mbind option_bind length]. f_equal. rewrite Hlen. cbn [length]. lia.
Qed.

Lemma b64_decode_quads l bs : b64_decode l = Some bs → quads l.
Proof.
  remember (length l) as n eqn:En. revert l bs En. induction (lt_wf n) as [n _ IH]; intros l bs En H.
  destruct l as [|a [|b [|c [|d l]]]]; [constructor|done..|]. constructor. cbn [b64_decode] in H.
  destruct (b64_val a) as [va|]; [|done]. destruct (b64_val b) as [vb|]; [|done]. cbn [mbind option_bind] in H.
  destruct (d =? 61)%Z; [destruct l; [constructor|done]|].
  destruct (b64_val c) as [vc|]; [|done]. destruct (b64_val d) as [vd|]; [|done]. cbn [mbind option_bind] in H.
  destruct (b64_decode l) as [r|] eqn:Er; [|done]. eapply (IH (length l)); [cbn in En; lia|done|exact Er].
Qed.

Lemma b64_decode_head a b l bs : b64_decode (a :: b :: l) = Some bs →
  ∃ va vb, b64_val a = Some va ∧ b64_val b = Some vb ∧ head bs = Some (va * 4 + vb / 16)%Z.
Proof.
  destruct l as [|c [|d l]]; [done..|]. cbn [b64_decode].
  destruct (b64_val a) as [va|]; [|done]. destruct (b64_val b) as [vb|]; [|done]. cbn [mbind option_bind]. intros H.
  exists va, vb. split; [done|]. split; [done|].
  destruct (d =? 61)%Z; [destruct l; [destruct (c =? 61)%Z; [by injection H as <-|]|done]|];
    destruct (b64_val c) as [vc|]; try done; cbn in H; [by injection H as <-|].
  destruct (b64_val d) as [vd|]; [|done]. cbn in H. destruct (b64_decode l); [|done]. by injection H as <-.
Qed.

(** The ciphertext check accepts exactly the texts that are base64 of at least
    99 bytes of which the first is the version 2. *)
Theorem nip44_content_exact content :
  validate_engram_nip44_content content = Ok tt ↔
    ∃ bs, b64_decode (str_bytes content) = Some bs ∧ 99 ≤ length bs ∧ head bs = Some 2%Z.
Proof.
  unfold validate_engram_nip44_content. destruct (String.eqb_spec content "") as [->|Hne].
  { split; [done|]. intros (bs & [= <-] & Hl & _). cbn in Hl. lia. }
  set (l := str_bytes content). destruct (Z.eqb_spec (Z.of_nat (length l) mod 4) 0) as [Hm|Hm]; cbn [negb].
  2: { split; [done|]. intros (bs & Hd%b64_decode_quads & _). apply quads_length in Hd. exfalso. apply Hm.
       change 4%Z with (Z.of_nat 4). by rewrite <- Nat2Z.inj_mod, Hd. }
  assert (Hq : quads l).
  { apply quads_length, Nat2Z.inj. by rewrite Nat2Z.inj_mod. }
  pose proof (b64_loop_decode (Z.of_nat (length l)) l Hq ltac:(lia)) as Hloop. rewrite Z.sub_diag in Hloop. rewrite Hloop.
  destruct (b64_decode l) as [bs|] eqn:Ed; cbn [mbind option_bind]; [|naive_solver].
  replace (_ / 4 * 3 - _)%Z with (Z.of_nat (length bs)) by lia.
  destruct (Z.ltb_spec (Z.of_nat (length bs)) 99) as [Hs|Hs].
  { split; [done|]. intros (? & [= <-] & Hl & _). lia. }
  destruct l as [|a [|b l']]; [by injection Ed as <-; cbn in Hs; lia|done|].
  destruct (b64_decode_head _ _ _ _ Ed) as (va & vb & Ha & Hb & Hh).
  cbn [lookup list_lookup mbind option_bind]. rewrite Ha, Hb.
  rewrite first_byte_eq by (by eapply b64_val_bound).
  destruct (Z.eqb_spec (va * 4 + vb / 16) 2) as [Hv|Hv]; cbn [negb].
  - split; [|done]. intros _. exists bs. split; [done|]. split; [lia|by rewrite Hh, Hv].
  - split; [done|]. intros (? & [= <-] & _ & Hh'). congruence.
Qed.

(** ** Times of reminders *)

Lemma digit_chars c : is_ascii_digit c = true → pretty_N_char (N_of_ascii c - 48) = c ∧ (N_of_ascii c - 48 < 10)%N.
Proof. intros H. destruct c as [[] [] [] [] [] [] [] []]; first [discriminate H|by vm_compute]. Qed.

Lemma pretty_N_go_dec acc v n : (0 < acc)%N → dec_value acc v = Some n → pretty_N_go n "" = pretty_N_go acc v.
Proof.
  revert acc. induction v as [|c v IH]; intros acc Ha; cbn [dec_value]; [by intros [= ->]|].
  destruct (is_ascii_digit c) eqn:Ec; [|done]. destruct (digit_chars c Ec) as [Hc Hd]. intros H.
  rewrite (IH (acc * 10 + (N_of_ascii c - 48))%N ltac:(lia) H), pretty_N_go_step by lia.
  rewrite N.div_add_l, (N.div_small _ _ Hd), N.add_0_r by done.
  by rewrite N.add_comm, N.Div0.mod_add, N.mod_small, Hc.
Qed.

Lemma dec_value_canonical v n : v ≠ "" → starts_with "0" v = false → dec_value 0 v = Some n → v = pretty n.
Proof.
  destruct v as [|c v]; [done|]. intros _ H0. cbn [dec_value]. destruct (is_ascii_digit c) eqn:Ec; [|done].
  destruct (digit_chars c Ec) as [Hc Hd]. rewrite N.mul_0_l, N.add_0_l. set (d := (N_of_ascii c - 48)%N) in *.
  assert (Hpos : (0 < d)%N).
  { destruct (N.eq_0_gt_0_cases d) as [Ed|]; [|done]. rewrite Ed in Hc. rewrite <- Hc in H0. by cbv in H0. }
  intros H. pose proof (pretty_N_go_dec _ _ _ Hpos H) as Hgo. rewrite (pretty_N_go_step d) in Hgo by exact Hpos.
  rewrite (N.div_small _ _ Hd), pretty_N_go_0, (N.mod_small _ _ Hd), Hc in Hgo.
  unfold pretty, pretty_N. destruct (decide (n = 0)%N) as [->|]; [|done]. by rewrite pretty_N_go_0 in Hgo.
Qed.

Lemma dec_value_digits acc v n : dec_value acc v = Some n → str_forall is_ascii_digit v = true.
Proof.
  revert acc. induction v as [|c v IH]; intros acc; cbn; [done|]. destruct (is_ascii_digit c); [|done]. apply IH.
Qed.

Lemma parse_unsigned_digits w v n : v ≠ "" → str_forall is_ascii_digit v = true →
  parse_unsigned w v = Some n ↔ dec_value 0 v = Some n ∧ (n < 2 ^ w)%N.
Proof.
  intros Hne Hd. unfold parse_unsigned. destruct v as [|c v]; [done|].
  assert (Ascii.eqb c "+" = false) as ->.
  { cbn in Hd. apply andb_true_iff in Hd as [Hc _]. by destruct (Ascii.eqb c "+") eqn:E; [apply Ascii.eqb_eq in E as ->|]. }
  cbn [String.eqb]. destruct (dec_value 0 (String c v)) as [m|]; csimpl; [|naive_solver].
  destruct (N.ltb_spec m (2 ^ w)); naive_solver lia.
Qed.

Lemma pretty_N_go_no_zero n s : (n ≠ 0)%N → starts_with "0" (pretty_N_go n s) = false.
Proof.
  revert s. induction (N.lt_wf_0 n) as [n _ IH]; intros s Hn. rewrite pretty_N_go_step by lia.
  destruct (decide (n / 10 = 0)%N) as [E|E]; [|apply IH; [apply N.div_lt; lia|done]].
  rewrite E, pretty_N_go_0. assert (Hs : (n < 10)%N) by (apply N.div_small_iff; [done|exact E]).
  rewrite N.mod_small by done. clear E IH. assert (Hin : n ∈ N_of_nat <$> seq 1 9).
  { apply list_elem_of_fmap. exists (N.to_nat n). rewrite elem_of_seq. lia. }
  clear Hn Hs. cbn in Hin. repeat (apply elem_of_cons in Hin as [->|Hin]; [done|]). by apply elem_of_nil in Hin.
Qed.

Lemma pretty_no_zero n : (n ≠ 0)%N → starts_with "0" (pretty n) = false.
Proof. intros Hn. unfold pretty, pretty_N. rewrite decide_False by done. by apply pretty_N_go_no_zero. Qed.

(** A not_before value is accepted exactly when it is the decimal text of an integer that a
    JSON number holds exactly, and it is read as that integer: no sign, no leading zero, no
    blank, nothing above 2^53 - 1. *)
Theorem not_before_exact v n :
  validate_not_before v = Ok n ↔ (0 ≤ n ≤ 2 ^ 53 - 1)%Z ∧ v = pretty (Z.to_N n).
Proof.
  unfold validate_not_before, MAX_NOT_BEFORE. split.
  - destruct (String.eqb_spec v "") as [|Hne]; [done|]. destruct (str_forall is_ascii_digit v) eqn:Hd; [|done]. cbn [orb negb].
    destruct ((1 <? String.length v)%nat && starts_with "0" v) eqn:Hz; [done|].
    destruct (parse_unsigned 64 v) as [m|] eqn:Hp; [|done]. apply parse_unsigned_digits in Hp as [Hv _]; [|done..].
    destruct (Z.ltb_spec 9007199254740991 (Z.of_N m)) as [|Hm]; [done|]. intros [= <-]. split; [lia|]. rewrite N2Z.id.
    destruct (starts_with "0" v) eqn:H0; [|by apply dec_value_canonical].
    rewrite andb_true_r in Hz. apply Nat.ltb_ge in Hz. unfold starts_with in H0.
    destruct (strip_prefix "0" v) as [r|] eqn:Er; [|done]. apply strip_prefix_Some in Er as ->.
    destruct r as [|x r]; [by injection Hv as <-|].
    change (String.length ("0" +:+ String x r)) with (S (S (String.length r))) in Hz. lia.
  - intros [Hn ->]. set (m := Z.to_N n). assert (Hm : (m < 2 ^ 64)%N) by (unfold m; lia).
    rewrite (proj2 (String.eqb_neq _ _) (pretty_N_nonempty m)). rewrite (pretty_N_text m). cbn [orb negb].
    destruct (decide (n = 0)%Z) as [->|Hn0]; [done|]. assert (Hm0 : (m ≠ 0)%N) by (unfold m; lia).
    rewrite (pretty_no_zero m Hm0), andb_false_r, parse_unsigned_pretty by done.
    assert (Hmn : Z.of_N m = n) by (unfold m; lia). rewrite Hmn. destruct (Z.ltb_spec 9007199254740991 n); [lia|done].
Qed.

(** ** Projects *)

Lemma split_first_char c s a b :
  split_first (String c "") s = Some (a, b) ↔ s = a +:+ String c b ∧ str_contains_char c a = false.
Proof.
  revert a. induction s as [|x s IH]; intros a; cbn [split_first strip_prefix].
  { split; [done|]. intros [H _]. by destruct a. }
  destruct (ascii_dec c x) as [->|Hx].
  - rewrite Ascii.eqb_refl. split; [by intros [= <- <-]|].
    intros [Hs Ha]. destruct a as [|y a].
    + injection (Hs : String x s = String x b) as ->. done.
    + injection (Hs : String x s = String y (a +:+ String x b)) as <- _. cbn in Ha. by rewrite Ascii.eqb_refl in Ha.
  - rewrite (proj2 (Ascii.eqb_neq c x) Hx). split.
    + destruct (split_first (String c "") s) as [[u w]|] eqn:E; [|done]. intros [= <- <-].
      destruct (proj1 (IH u) eq_refl) as [-> Hu]. split; [done|].
      change (str_contains_char c (String x u)) with (Ascii.eqb x c || str_contains_char c u).
      by rewrite (proj2 (Ascii.eqb_neq x c)) by congruence.
    + intros [Hs Ha]. destruct a as [|y a]; [by injection (Hs : String x s = String c b)|].
      injection (Hs : String x s = String y (a +:+ String c b)) as <- Hs'. cbn in Ha. apply orb_false_iff in Ha as [_ Ha].
      by rewrite (proj2 (IH a) (conj Hs' Ha)).
Qed.

(** A canonical repository coordinate. *)
Definition coordinate (m : string) : Prop :=
  ∃ owner d, m = "30617:" +:+ owner +:+ String ":" d ∧ is_lower_hex64 owner = true ∧ d ≠ "".

Lemma is_lower_hex64_no_colon s : is_lower_hex64 s = true → str_contains_char ":" s = false.
Proof.
  intros [_ H]%andb_true_iff. by apply (str_forall_no_char is_lower_hex).
Qed.

Lemma split3_spec m k owner d :
  split3 m = Some (k, owner, d) ↔
    m = k +:+ String ":" (owner +:+ String ":" d) ∧ str_contains_char ":" k = false ∧ str_contains_char ":" owner = false.
Proof.
  unfold split3. split.
  - destruct (split_first ":" m) as [[a rest]|] eqn:E1; [|done]. cbn [mbind option_bind].
    destruct (split_first ":" rest) as [[b c]|] eqn:E2; [|done]. intros [= -> -> ->].
    apply split_first_char in E1 as [-> ?], E2 as [-> ?]. done.
  - intros (-> & Hk & Ho). rewrite (proj2 (split_first_char ":" _ k (owner +:+ String ":" d)) (conj eq_refl Hk)).
    cbn [mbind option_bind]. by rewrite (proj2 (split_first_char ":" _ owner d) (conj eq_refl Ho)).
Qed.

Lemma parse_coordinate_ok m : parse_project_member_coordinate m = Ok tt ↔ coordinate m.
Proof.
  unfold parse_project_member_coordinate. split.
  - destruct (split3 m) as [[[k owner] d]|] eqn:E; [|done]. apply split3_spec in E as (-> & _ & _).
    destruct (String.eqb_spec k PROJECT_MEMBER_KIND_SEGMENT) as [->|]; [|done]. destruct (is_lower_hex64 owner) eqn:Eo; [|done].
    destruct (String.eqb_spec d "") as [|Hd]; [done|]. intros _. by exists owner, d.
  - intros (owner & d & -> & Ho & Hd).
    assert (split3 ("30617:" +:+ owner +:+ String ":" d) = Some ("30617", owner, d)) as ->.
    { apply split3_spec. split; [done|]. split; [done|]. by apply is_lower_hex64_no_colon. }
    cbn [String.eqb]. rewrite Ho. cbn. by rewrite (proj2 (String.eqb_neq d "") Hd).
Qed.

Lemma check_members_ok seen l : check_members seen l = Ok tt ↔ Forall coordinate l ∧ NoDup l ∧ ∀ m, m ∈ l → m ∉ seen.
Proof.
  revert seen. induction l as [|m l IH]; intros seen; cbn [check_members].
  { split; [|done]. intros _. split_and!; [constructor|constructor|]. by intros m ?%elem_of_nil. }
  rewrite Forall_cons, NoDup_cons, <- (parse_coordinate_ok m).
  destruct (parse_project_member_coordinate m) as [[]|e]; [|by split; [|intros [[? _] _]]]. case_decide as Hs.
  - split; [done|]. intros (_ & _ & Hn). exfalso. by eapply Hn; [left|].
  - rewrite IH. setoid_rewrite elem_of_cons. set_solver.
Qed.

(** What NIP-MP asks of a project. *)
Section projects.
Context {L : NostrLib}.

Definition metadata_limits : list (string * nat) :=
  [("name", PROJECT_NAME_MAX_LEN); ("description", PROJECT_DESCRIPTION_MAX_LEN);
   ("maju-channel", PROJECT_METADATA_TAG_MAX_LEN); ("maju-visibility", PROJECT_METADATA_TAG_MAX_LEN)].

Record project_ok (e : Event) : Prop := {
  po_address : ∃ d, project_values "d" e = [d] ∧ d ≠ "";
  po_cap : length (project_values "a" e) ≤ 64;
  po_arity : ∀ t rest, t ∈ tags e → as_slice t = "a" :: rest → 1 ≤ length rest ≤ 2;
  po_coordinates : Forall coordinate (project_values "a" e);
  po_distinct : NoDup (project_values "a" e);
  po_metadata : ∀ name max, (name, max) ∈ metadata_limits →
    length (project_values name e) ≤ 1 ∧ Forall (λ v, String.length v ≤ max) (project_values name e)
}.

Lemma bad_arity_spec (e : Event) : existsb bad_arity (tags e) = false ↔
  ∀ t rest, t ∈ tags e → as_slice t = "a" :: rest → 1 ≤ length rest ≤ 2.
Proof.
  rewrite <- not_true_iff_false, existsb_exists. split.
  - intros Hn t rest Ht Hs. destruct (decide (1 ≤ length rest ≤ 2)) as [|Hb]; [done|]. exfalso. apply Hn.
    exists t. split; [by apply list_elem_of_In|]. unfold bad_arity. rewrite Hs. cbn -[Nat.leb].
    apply negb_true_iff, andb_false_iff. rewrite !Nat.leb_gt. lia.
  - intros H (t & Ht%list_elem_of_In & Hb). unfold bad_arity in Hb. destruct (as_slice t) as [|k rest] eqn:Es; [done|].
    apply andb_true_iff in Hb as [->%String.eqb_eq Hb%negb_true_iff%andb_false_iff]. rewrite !Nat.leb_gt in Hb.
    specialize (H t rest Ht Es). lia.
Qed.

Lemma too_long_spec name max (e : Event) : length (project_values name e) ≤ 1 →
  too_long name max e = false ↔ Forall (λ v, String.length v ≤ max) (project_values name e).
Proof.
  unfold too_long. destruct (project_values name e) as [|v [|w l]]; cbn; intros Hl; [split; [constructor|done]| |lia].
  rewrite Nat.ltb_ge, Forall_singleton. done.
Qed.

Lemma metadata_counts (e : Event) :
  existsb (λ k, 1 <? length (project_values k e))%nat PROJECT_SINGLETON_METADATA_TAGS = false ↔
    ∀ name max, (name, max) ∈ metadata_limits → length (project_values name e) ≤ 1.
Proof.
  cbn [existsb PROJECT_SINGLETON_METADATA_TAGS]. rewrite !orb_false_iff, !Nat.ltb_ge. unfold metadata_limits. split.
  - intros (? & ? & ? & ? & _) name max. rewrite !elem_of_cons, elem_of_nil. naive_solver.
  - intros H. split_and!; try done; (eapply H; rewrite !elem_of_cons; naive_solver).
Qed.

(** The project check accepts exactly the well-formed projects: one address, at
    most 64 distinct canonical coordinates, and bounded metadata. *)
Theorem project_envelope_exact (e : Event) : validate_project_envelope e = Ok tt ↔ project_ok e.
Proof.
  unfold validate_project_envelope. split.
  - destruct (project_values "d" e) as [|d [|]] eqn:Ed; try done. destruct (String.eqb_spec d "") as [|Hd]; [done|].
    destruct (Nat.ltb_spec PROJECT_MEMBER_CAP (length (project_values "a" e))) as [|Hcap]; [done|].
    destruct (existsb bad_arity _) eqn:Ea; [done|]. destruct (check_members _ _) as [[]|] eqn:Em; [|done].
    destruct (existsb _ PROJECT_SINGLETON_METADATA_TAGS) eqn:Ec; [done|]. repeat (case_match; [done|]). intros _.
    apply check_members_ok in Em as (Hco & Hnd & _). pose proof (proj1 (metadata_counts e) Ec) as Hc. split; try done.
    + by exists d.
    + by apply bad_arity_spec.
    + intros name max Hin. split; [by eapply Hc|]. apply too_long_spec; [by eapply Hc|].
      unfold metadata_limits in Hin. rewrite !elem_of_cons, elem_of_nil in Hin. naive_solver.
  - intros [(d & -> & Hd) Hcap Har Hco Hnd Hmeta]. rewrite (proj2 (String.eqb_neq d "") Hd).
    rewrite (proj2 (Nat.ltb_ge PROJECT_MEMBER_CAP _)) by done. rewrite (proj2 (bad_arity_spec e) Har).
    rewrite (proj2 (check_members_ok ∅ _)) by set_solver.
    rewrite (proj2 (metadata_counts e)) by (intros name max Hin; by apply (Hmeta name max)).
    assert (Hl : ∀ name max, (name, max) ∈ metadata_limits → too_long name max e = false).
    { intros name max Hin. destruct (Hmeta name max Hin). by apply too_long_spec. }
    rewrite !Hl; [done|..]; unfold metadata_limits; set_solver.
Qed.

End projects.

(** ** Evaluation *)

Fixpoint repeat_char (c : ascii) (n : nat) : string := match n with O => "" | S n => String c (repeat_char c n) end.

(** A ciphertext of 99 bytes. *)
Definition sample_ciphertext : string := "Ag" +:+ repeat_char "A" 130.
Definition sample_key : string := repeat_char "a" 64.

Definition sample_engram (ts : list (list string)) : @Event slice_lib :=
  {| id := sample_key; pubkey := sample_key; created_at := 0; kind := KIND_AGENT_ENGRAM; tags := (ts : list (@Tag slice_lib)); content := sample_ciphertext |}.

(** Engrams: a valueless [d] tag beside the address is not counted. *)
Example engram_valueless_d_ignored :
  validate_engram_envelope (sample_engram [["d"]; ["d"; sample_key]; ["p"; sample_key]]) = Ok tt.
Proof. by vm_compute. Qed.
Example persona_valueless_d_counted :
  is_ok (validate_persona_envelope (sample_engram [["d"]; ["d"; "reviewer"]])) = false ∧
  validate_persona_envelope (sample_engram [["d"; "reviewer"]]) = Ok tt.
Proof. by vm_compute. Qed.
Example project_of_two :
  validate_project_envelope (sample_engram [["d"; "p"]; ["a"; "30617:" +:+ sample_key +:+ ":x:y"]; ["a"; "30617:" +:+ sample_key +:+ ":z"; "wss://r"]; ["name"; "P"]]) = Ok tt.
Proof. by vm_compute. Qed.
Example reminder_window :
  validate_event_reminder None 1000 (sample_engram [["d"; "r"]; ["not_before"; "2000"]; ["expiration"; "2000"]]) = Err "expiration before not_before" ∧
  validate_event_reminder None 1000 (sample_engram [["d"; "r"]; ["not_before"; "2000"]; ["expiration"; "2001"]]) = Ok tt.
Proof. by vm_compute. Qed.
