(* ===== verification/IngestRequests.v ===== *)
(** * What the ingest pipeline asks of the rest of the relay

    The signature of the programs of [ModerationDoors], [IngestThread] and
    [Ingest]: one request per call to the database, the clock, a cache or a
    component that is modelled elsewhere or not at all.  [None] (or an error
    value) is a failed call; a call that failed may have had its effect.

    Components behind a request: the command handlers of [WorkflowDoors] and
    the direct-message handlers ([RunCommand]); the NIP-29 validation of
    [Membership] and its side effects ([ValidateAdminEvent],
    [HandleSideEffects]); identity archives, deletions, push leases, product
    feedback, and the media references of link previews and [imeta] tags. *)
From S2P Require Import Prelude Nostr Kinds Channel WorkflowTemplate WorkflowDef WorkflowDoors Program IngestPolicy Envelopes.

(** ** Rows *)

(** The columns of [ChannelRecord] that are read. *)
Record ChannelRecord := {
  ch_visibility : string;
  ch_type : string;
  ch_created_by : string;
  ch_ttl_seconds : option Z;
  ch_archived_at : option Z
}.

(** [ThreadMetadataRecord]. *)
Record ThreadMetadataRecord := { tm_root_event_id : option string; tm_depth : Z }.

(** [ThreadMetadataOwned]; times are seconds. *)
Record ThreadMetadataOwned := {
  event_id : string;
  event_created_at : Z;
  tm_channel_id : Uuid;
  parent_event_id : string;
  parent_event_created_at : Z;
  root_event_id : string;
  root_event_created_at : Z;
  depth : Z;
  broadcast : bool
}.

(** [RestrictionState]; times are nanoseconds. *)
Record RestrictionState := { banned : bool; muted_until : option Z }.

(** [RelayMember]: the role. *)
Record RelayMember := { role : string }.

Inductive RemoveResult := Removed | IsOwner | NotFound | RoleMismatch.

Inductive ReportTarget := TargetEvent (id : string) | TargetPubkey (pk : string) | TargetBlob (sha256 : string).

Record NewReport := {
  report_event_id : string;
  reporter_pubkey : string;
  target : ReportTarget;
  report_channel_id : option Uuid;
  report_type : string;
  note : option string
}.

(** [ReportRecord]: the columns that the resolution reads. *)
Record ReportRecord := {
  rr_id : Uuid;
  rr_reporter_pubkey : string;
  rr_target : ReportTarget;
  rr_channel_id : option Uuid
}.

(** [resolve_report_decision_only]: the fields of its call. *)
Record ReportDecision := {
  dec_report : Uuid;
  dec_status : string;
  dec_audit_action : string;
  dec_actor : string;
  dec_target_pubkey : option string;
  dec_target_event : option string;
  dec_channel : option Uuid;
  dec_reason : option string;
  dec_reporter : string
}.
Inductive ResolutionError := NotOpen | OtherResolution.

Inductive DbLookupError := ChannelNotFound | OtherDbError.
Inductive InsertError := AuthEventRejected | OtherInsertError.

(** The variants of [AcceptLeaseOutcome]. *)
Inductive AcceptLeaseOutcome :=
  | Accepted | StaleEvent | StaleGeneration | EndpointAlreadyLeased | LeaseQuotaExceeded | SourceEventCollision | ConstraintViolation.
Inductive AcceptError := Validation (msg : string) | InternalAccept (msg : string).

Section requests.
Context {L : NostrLib}.

Inductive ReactionEventInsertOutcome :=
  | TargetMissing
  | DuplicateReaction
  | InsertedReaction (stored_event : StoredEvent) (was_inserted : bool).

Inductive Req :=
  (* admission *)
  | IsServingActive (c : Uuid)
  | VerifyEvent (e : Event)
  | UtcNow
  | ModerationRestrictionState (c : Uuid) (pk : string)
  (* components *)
  | RunCommand (c : Uuid) (e : Event) (a : IngestAuth)
  | HandleProductFeedback (c : Uuid) (e : Event)
  | ValidateAdminEvent (c : Uuid) (k : Z) (e : Event)
  | HandleIdentityArchive (c : Uuid) (e : Event)
  | ValidateStandardDeletion (c : Uuid) (e : Event)
  | ValidateDeviceSession (e : Event)
  | AcceptPushLease (c : Uuid) (e : Event) (now : Z)
  | ValidateLinkPreviews (e : Event)
  | ValidateImeta (e : Event)
  | VerifyImetaBlobs (e : Event)
  (* reads *)
  | GetEventById (c : Uuid) (i : string)
  | GetThreadMetadata (c : Uuid) (i : string)
  | IsMemberCached (c ch : Uuid) (pk : string)
  | GetChannel (c ch : Uuid)
  | ChannelVisibilityCached (c ch : Uuid)
  | HuddleStartedLinkExists (c parent backing : Uuid) (creator : string)
  | IsAgentOwner (c : Uuid) (agent owner : string)
  (* reports and moderation *)
  | GetReportTargetEvent (c : Uuid) (i : string)
  | GetSidecar (c : Uuid) (sha256 : string)
  | InsertModerationReport (c : Uuid) (r : NewReport)
  | GetRelayMember (c : Uuid) (pk : string)
  | BanCommunityMember (c : Uuid) (target actor : string) (reason : option string) (expires_at : option Z)
  | UnbanCommunityMember (c : Uuid) (target actor : string)
  | TimeoutCommunityMember (c : Uuid) (target actor : string) (until : Z) (reason : option string)
  | UntimeoutCommunityMember (c : Uuid) (target actor : string)
  | InsertModerationAction (c : Uuid) (actor action : string) (target : option string) (reason : option string)
  | DisconnectPubkey (c : Uuid) (target : string)
  | SendModerationNotice (c : Uuid) (target kind : string)
  | GetModerationReportByEvent (c : Uuid) (i : string)
  | ResolveReportDecision (c : Uuid) (d : ReportDecision)
  (* the roster *)
  | HasAdminOrOwner (c : Uuid)
  | SetCommunityIcon (c : Uuid) (icon : option string)
  | AddRelayMember (c : Uuid) (pk r : string) (added_by : option string)
  | RemoveRelayMember (c : Uuid) (pk : string)
  | RemoveRelayMemberIfRole (c : Uuid) (pk expected : string)
  | UpdateRelayMemberRole (c : Uuid) (pk r : string)
  | PublishMemberAdded (c : Uuid) (pk : string)
  | PublishMemberRemoved (c : Uuid) (pk : string)
  | PublishMembershipList (c : Uuid)
  (* writes *)
  | CreateChannelWithId (c ch : Uuid) (nm ty vis : string) (about : option string) (creator : string) (ttl : option Z)
  | SoftDeleteChannel (c ch : Uuid)
  | InvalidateChannelDeleted (c : Uuid)
  | InsertReactionEvent (c : Uuid) (e : Event) (ch : option Uuid) (meta : option ThreadMetadataOwned) (tgt actor emoji : string)
  | ReplaceAddressableEvent (c : Uuid) (e : Event) (ch : option Uuid)
  | ReplaceParameterizedEvent (c : Uuid) (e : Event) (d_tag : string) (ch : option Uuid)
  | InsertEventWithThreadMetadata (c : Uuid) (e : Event) (ch : option Uuid) (meta : option ThreadMetadataOwned)
  (* after the write *)
  | HandleSideEffects (c : Uuid) (k : Z) (e : Event)
  | EmitLiveThreadSummary (c ch : Uuid) (root : string)
  | DispatchPersistentEvent (c : Uuid) (stored : StoredEvent) (k : Z) (vis : option string).

(** [VerifyEvent]: [None] is a panic of the blocking task.  [UtcNow] is in
    nanoseconds. *)
Definition Ans (r : Req) : Type :=
  match r with
  | IsServingActive _ => option bool
  | VerifyEvent _ => option (result string unit)
  | UtcNow => Z
  | ModerationRestrictionState _ _ => option RestrictionState
  | RunCommand _ _ _ => result IngestError IngestResult
  | HandleProductFeedback _ _ | ValidateAdminEvent _ _ _ | HandleIdentityArchive _ _ | ValidateStandardDeletion _ _
  | ValidateDeviceSession _ | ValidateLinkPreviews _ | ValidateImeta _ | VerifyImetaBlobs _ => result string unit
  | AcceptPushLease _ _ _ => result AcceptError AcceptLeaseOutcome
  | GetEventById _ _ => option (option StoredEvent)
  | GetThreadMetadata _ _ => option (option ThreadMetadataRecord)
  | IsMemberCached _ _ _ => option bool
  | GetChannel _ _ => result DbLookupError ChannelRecord
  | ChannelVisibilityCached _ _ => option string
  | HuddleStartedLinkExists _ _ _ _ => option bool
  | IsAgentOwner _ _ _ => option bool
  | GetReportTargetEvent _ _ => option (option StoredEvent)
  | GetSidecar _ _ => bool
  | InsertModerationReport _ _ => bool
  | GetRelayMember _ _ => option (option RelayMember)
  | BanCommunityMember _ _ _ _ _ => bool
  | UnbanCommunityMember _ _ _ => option bool
  | TimeoutCommunityMember _ _ _ _ _ => bool
  | UntimeoutCommunityMember _ _ _ => option bool
  | InsertModerationAction _ _ _ _ _ => option Uuid
  | DisconnectPubkey _ _ => unit
  | SendModerationNotice _ _ _ => bool
  | GetModerationReportByEvent _ _ => option (option ReportRecord)
  | ResolveReportDecision _ _ => result ResolutionError unit
  | HasAdminOrOwner _ => option bool
  | SetCommunityIcon _ _ => bool
  | AddRelayMember _ _ _ _ => option bool
  | RemoveRelayMember _ _ | RemoveRelayMemberIfRole _ _ _ => option RemoveResult
  | UpdateRelayMemberRole _ _ _ => option bool
  | PublishMemberAdded _ _ | PublishMemberRemoved _ _ | PublishMembershipList _ => bool
  | CreateChannelWithId _ _ _ _ _ _ _ _ => option bool
  | SoftDeleteChannel _ _ => bool
  | InvalidateChannelDeleted _ => unit
  | InsertReactionEvent _ _ _ _ _ _ _ => option ReactionEventInsertOutcome
  | ReplaceAddressableEvent _ _ _ | ReplaceParameterizedEvent _ _ _ _ => option (StoredEvent * bool)
  | InsertEventWithThreadMetadata _ _ _ _ => result InsertError (StoredEvent * bool)
  | HandleSideEffects _ _ _ => bool
  | EmitLiveThreadSummary _ _ _ => unit
  | DispatchPersistentEvent _ _ _ _ => unit
  end.

Definition ingest_sig : Signature := {| request := Req; answer := Ans |}.

(** The answers to requests that do not matter to who asks. *)
Definition ask (r : Req) : Program ingest_sig (Ans r) := call (S := ingest_sig) r.

End requests.

(** The configuration that is read. *)
Record RelayConfig := {
  relay_pubkey : string;
  ephemeral_ttl_override : option Z;
  require_relay_membership : bool;
  max_not_before_delta : option Z
}.

(** [DateTime::timestamp] of a time in nanoseconds. *)
Definition seconds (t : Z) : Z := (t / 1000000000)%Z.

(** [DateTime::from_timestamp(secs as i64, 0)]: the range of [chrono]. *)
Class TimeRange : Type := { in_time_range : Z → bool }.
Definition from_timestamp {T : TimeRange} (created_at : Z) : option Z :=
  let s := as_i64 created_at in if in_time_range s then Some s else None.
