(* ===== verification/ModerationDoors.v ===== *)
(** * Roster and moderation commands

    Events that are executed and not stored
    ([crates/maju-relay/src/handlers]): the relay-admin kinds 9030 to 9033
    ([relay_admin.rs]), the moderation kinds 9040 to 9044
    ([moderation_commands.rs]) with their authorization ([moderation_authz.rs]),
    and reports ([report.rs]).

    The texts of notices and of internal errors are shortened. *)
From S2P Require Import Prelude Nostr Kinds Channel WorkflowTemplate WorkflowDoors Program IngestPolicy Envelopes IngestRequests.

(** [str::parse::<i64>]. *)
Definition parse_i64 : string → option Z := parse_signed 63.

(** [SystemTime::now()] since the epoch, in seconds. *)
Definition unix_seconds (t : Z) : Z := Z.max 0 (seconds t).

Section doors.
Context {L : NostrLib} {H : HexDecode} {T : TimeRange}.

Abbreviation Handler E := (Program ingest_sig (result E unit)) (only parsing).

(** ** Tags *)

(** The value of a tag of name [name]. *)
Definition slice_value (name : string) (t : Tag) : option string :=
  match as_slice t with k :: v :: _ => if (k =? name)%string then Some v else None | _ => None end.
Definition is_named (name : string) (t : Tag) : bool :=
  match as_slice t with k :: _ => (k =? name)%string | [] => false end.

(** [extract_p_tag_hex], [extract_p_tag_bytes], [extract_report_tag]: the first
    tag of the name whose value has 64 hex digits. *)
Definition first_hex64 (name : string) (e : Event) : option string :=
  find_map (λ t, v ← slice_value name t; if is_hex64 v then Some v else None) (tags e).
Definition extract_p_tag_hex : Event → option string := first_hex64 "p".
Definition extract_p_tag_bytes (e : Event) : option string := v ← first_hex64 "p" e; hex_bytes v.
Definition extract_report_tag (e : Event) : option string := v ← first_hex64 "report" e; hex_bytes v.

(** The value of the first tag of the name, if that one has a value. *)
Definition extract_tag_value (e : Event) (name : string) : option string :=
  match List.filter (is_named name) (tags e) with t :: _ => as_slice t !! 1%nat | [] => None end.

(** ** Relay administration *)

Inductive RelayAdminError := Banned | RejectedAdmin (msg : string) | InternalAdmin (msg : string).

Definition MAX_WORKSPACE_ICON_URL_LEN : Z := 2048.
Definition MAX_WORKSPACE_ICON_DATA_URL_LEN : Z := 98304.

Definition validate_workspace_icon (icon : string) : result string unit :=
  if (icon =? "")%string then Ok tt
  else if existsb (λ c, is_control c || is_whitespace c) (chars icon) then Err "icon contains invalid characters"
  else if starts_with "data:image/" icon then
    if (MAX_WORKSPACE_ICON_DATA_URL_LEN <? Z.of_nat (String.length icon))%Z then Err "icon data URL too long" else Ok tt
  else if negb (starts_with "https://" icon) && negb (starts_with "http://" icon)
    then Err "icon must be an http(s) URL or data:image/* URL"
  else if (MAX_WORKSPACE_ICON_URL_LEN <? Z.of_nat (String.length icon))%Z then Err "icon URL too long"
  else Ok tt.

Definition is_steward (r : string) : bool := (r =? "admin")%string || (r =? "owner")%string.

Definition may_set_workspace_profile (sender_role : string) (membership_enforced community_has_steward : bool) : bool :=
  if negb membership_enforced && negb community_has_steward then true else is_steward sender_role.

Definition admits_relay_admin_command (r : RestrictionState) : result RelayAdminError unit :=
  if banned r then Err Banned else Ok tt.

Definition set_workspace_profile (cfg : RelayConfig) (c : Uuid) (e : Event) (sender_role : string) : Handler string :=
  has_steward ← (if require_relay_membership cfg then mret (Some true) else ask (HasAdminOrOwner c));
  try_option has_steward "database error" (λ has_steward,
  ensure (may_set_workspace_profile sender_role (require_relay_membership cfg) has_steward)
    "actor not authorized: must be admin or owner" (
  let icon := default "" (extract_tag_value e "icon") in
  try_result (validate_workspace_icon icon) (λ _,
  ok ← ask (SetCommunityIcon c (if (icon =? "")%string then None else Some icon));
  ensure ok "failed to store workspace icon" (mret (Ok tt))))).

Definition add_member_command (c : Uuid) (e : Event) (sender_role target : string) : Handler string :=
  ensure (is_steward sender_role) "actor not authorized: must be admin or owner" (
  let r := default "member" (extract_tag_value e "role") in
  ensure (negb (r =? "owner")%string) "invalid role: use kind:9032 to promote to owner" (
  ensure (negb ((r =? "admin")%string && negb (sender_role =? "owner")%string))
    "actor not authorized: only owner can grant admin role" (
  ensure ((r =? "admin")%string || (r =? "member")%string) "invalid role" (
  inserted ← ask (AddRelayMember c target r (Some (pubkey e)));
  try_option inserted "database error" (λ inserted,
  if (inserted : bool) then
    ask (PublishMemberAdded c target);; ask (PublishMembershipList c);; mret (Ok tt)
  else mret (Ok tt)))))).

Definition remove_member_command (c : Uuid) (e : Event) (sender_role target : string) : Handler string :=
  ensure (is_steward sender_role) "actor not authorized: must be admin or owner" (
  ensure (negb (target =? pubkey e)%string) "cannot remove yourself" (
  removed ← (if (sender_role =? "admin")%string then ask (RemoveRelayMemberIfRole c target "member")
             else ask (RemoveRelayMember c target));
  try_option removed "database error" (λ removed,
  match removed with
  | IsOwner => mret (Err "cannot remove the relay owner")
  | NotFound => mret (Err "member not found")
  | RoleMismatch => mret (Err "actor not authorized: admins can only remove members")
  | Removed => ask (PublishMemberRemoved c target);; ask (PublishMembershipList c);; mret (Ok tt)
  end))).

Definition change_role_command (c : Uuid) (e : Event) (sender_role target : string) : Handler string :=
  ensure (sender_role =? "owner")%string "actor not authorized: must be owner" (
  ensure (negb (target =? pubkey e)%string) "cannot change your own role" (
  try_option (extract_tag_value e "role") "missing role tag" (λ new_role,
  ensure (negb (new_role =? "owner")%string) "cannot set role to owner" (
  ensure ((new_role =? "admin")%string || (new_role =? "member")%string) "invalid role" (
  updated ← ask (UpdateRelayMemberRole c target new_role);
  try_option updated "database error" (λ updated,
  if negb updated then
    existing ← ask (GetRelayMember c target);
    try_option existing "database error" (λ existing,
      mret (Err (match existing with Some _ => "cannot change the relay owner's role" | None => "member not found" end)))
  else ask (PublishMembershipList c);; mret (Ok tt))))))).

Definition execute_relay_admin_command (cfg : RelayConfig) (c : Uuid) (e : Event) : Handler string :=
  now ← ask UtcNow;
  ensure (negb (drifted 120 (created_at e) (unix_seconds now))) "event timestamp out of range" (
  sender ← ask (GetRelayMember c (pubkey e));
  try_option sender "database error" (λ sender,
  let sender_role := match sender with Some m => role m | None => "" end in
  let k := event_kind_u32 e in
  if (k =? RELAY_ADMIN_SET_WORKSPACE_PROFILE)%Z then set_workspace_profile cfg c e sender_role
  else
    try_option (extract_p_tag_hex e) "missing or invalid p tag" (λ p,
    let tgt := to_ascii_lowercase p in
    if (k =? RELAY_ADMIN_ADD_MEMBER)%Z then add_member_command c e sender_role tgt
    else if (k =? RELAY_ADMIN_REMOVE_MEMBER)%Z then remove_member_command c e sender_role tgt
    else if (k =? RELAY_ADMIN_CHANGE_ROLE)%Z then change_role_command c e sender_role tgt
    else mret (Err "unexpected relay admin kind")))).

Definition handle_relay_admin_event (cfg : RelayConfig) (c : Uuid) (e : Event) : Handler RelayAdminError :=
  restriction ← ask (ModerationRestrictionState c (pubkey e));
  try_option restriction (InternalAdmin "internal error checking restriction state") (λ restriction,
  try_result (admits_relay_admin_command restriction) (λ _,
  then_ RejectedAdmin (execute_relay_admin_command cfg c e) (λ _, mret (Ok tt)))).

(** ** Moderation *)

Inductive ModerationAction :=
  | DeleteMessage | Kick | Ban | Unban | Timeout | Untimeout | ResolveReport | ViewQueue.
#[local] Instance ModerationAction_eq_dec : EqDecision ModerationAction.
Proof. solve_decision. Defined.

Inductive ModerationTarget := OnEvent (i : string) | OnPubkey (pk : string) | OnNothing.
Inductive ModerationAuthority := CommunityOwner | CommunityAdmin | ChannelRole.

Definition is_channel_local (a : ModerationAction) : bool := match a with DeleteMessage | Kick => true | _ => false end.
Definition is_restriction (a : ModerationAction) : bool := match a with Ban | Timeout => true | _ => false end.
Definition is_steward_opt (r : option string) : bool := match r with Some r => is_steward r | None => false end.

Definition decide_authority (actor_role target_role channel_role : option string) (a : ModerationAction) :
    result string ModerationAuthority :=
  if bool_decide (actor_role = Some "owner") then Ok CommunityOwner
  else if bool_decide (actor_role = Some "admin") then
    if is_restriction a && is_steward_opt target_role
    then Err "an admin cannot ban or time out a community owner or fellow admin"
    else Ok CommunityAdmin
  else if is_channel_local a && is_steward_opt channel_role then Ok ChannelRole
  else Err "moderator access required".

(** The role of the target is read only for the guard rail of admins. *)
Definition target_role_of (c : Uuid) (actor_role : option string) (tgt : ModerationTarget) (a : ModerationAction) :
    Program ingest_sig (option (option string)) :=
  if bool_decide (actor_role = Some "admin") && is_restriction a then
    match tgt with
    | OnPubkey pk => ask (GetRelayMember c pk) ≫= λ m : option (option RelayMember), mret (option_map (option_map role) m)
    | _ => mret (Some None)
    end
  else mret (Some None).

(** The commands of this file act on no channel, so the channel's role is not
    read ([channel_id] is [None]). *)
Definition authorize_moderation_action (c : Uuid) (actor : string) (tgt : ModerationTarget) (a : ModerationAction) :
    Program ingest_sig (result string ModerationAuthority) :=
  actor_member ← ask (GetRelayMember c actor);
  try_option actor_member "database error" (λ actor_member,
  let actor_role := role <$> actor_member in
  target_role ← target_role_of c actor_role tgt a;
  try_option target_role "database error" (λ target_role,
  mret (decide_authority actor_role target_role None a))).

Definition invalid_text (m : string) : string := "invalid: " +:+ m.
Definition error_text (m : string) : string := "error: " +:+ m.
Definition authz_denial (m : string) : string := "restricted: " +:+ m.

Definition MAX_COMMAND_SKEW_SECS : Z := 120.

Definition extract_expiration (e : Event) : result string (option Z) :=
  match extract_tag_value e "expiration" with
  | None => Ok None
  | Some raw =>
      match parse_i64 raw with
      | None => Err (invalid_text "invalid expiration tag")
      | Some secs => if in_time_range secs then Ok (Some secs) else Err (invalid_text "expiration out of range")
      end
  end.

Definition insert_audit (c : Uuid) (actor action : string) (tgt reason : option string) : Program ingest_sig (result string Uuid) :=
  row ← ask (InsertModerationAction c actor action tgt reason);
  try_option row (error_text "failed to write audit row") (λ row, mret (Ok row)).

Definition with_target (e : Event) (k : string → Handler string) : Handler string :=
  try_option (extract_p_tag_bytes e) (invalid_text "missing or invalid p tag") k.

Definition authorized (c : Uuid) (actor : string) (tgt : ModerationTarget) (a : ModerationAction) (k : Handler string) : Handler string :=
  then_ authz_denial (authorize_moderation_action c actor tgt a) (λ _, k).

Definition handle_ban (c : Uuid) (e : Event) (actor : string) : Handler string :=
  with_target e (λ tgt,
  try_result (extract_expiration e) (λ expires_at,
  let reason := extract_tag_value e "reason" in
  authorized c actor (OnPubkey tgt) Ban (
  ok ← ask (BanCommunityMember c tgt actor reason expires_at);
  ensure ok (error_text "database error") (
  then_ (λ m, m) (insert_audit c actor "ban" (Some tgt) reason) (λ _,
  ask (DisconnectPubkey c tgt);;
  ask (SendModerationNotice c tgt "ban");;
  mret (Ok tt)))))).

Definition handle_unban (c : Uuid) (e : Event) (actor : string) : Handler string :=
  with_target e (λ tgt,
  authorized c actor (OnPubkey tgt) Unban (
  lifted ← ask (UnbanCommunityMember c tgt actor);
  try_option lifted (error_text "database error") (λ lifted,
  ensure lifted (invalid_text "member is not banned") (
  then_ (λ m, m) (insert_audit c actor "unban" (Some tgt) None) (λ _, mret (Ok tt)))))).

Definition handle_timeout (c : Uuid) (e : Event) (actor : string) : Handler string :=
  with_target e (λ tgt,
  try_result (extract_expiration e) (λ until,
  try_option until (invalid_text "timeout requires an expiration tag") (λ until,
  let reason := extract_tag_value e "reason" in
  authorized c actor (OnPubkey tgt) Timeout (
  ok ← ask (TimeoutCommunityMember c tgt actor until reason);
  ensure ok (error_text "database error") (
  then_ (λ m, m) (insert_audit c actor "timeout" (Some tgt) reason) (λ _,
  ask (SendModerationNotice c tgt "timeout");;
  mret (Ok tt))))))).

Definition handle_untimeout (c : Uuid) (e : Event) (actor : string) : Handler string :=
  with_target e (λ tgt,
  authorized c actor (OnPubkey tgt) Untimeout (
  cleared ← ask (UntimeoutCommunityMember c tgt actor);
  try_option cleared (error_text "database error") (λ cleared,
  ensure cleared (invalid_text "member is not timed out") (
  then_ (λ m, m) (insert_audit c actor "untimeout" (Some tgt) None) (λ _, mret (Ok tt)))))).

Definition enforcement_audit_action (action : string) : string :=
  if (action =? "delete")%string then "resolve:delete"
  else if (action =? "kick")%string then "resolve:kick"
  else if (action =? "ban")%string then "resolve:ban"
  else if (action =? "timeout")%string then "resolve:timeout"
  else if (action =? "dismiss")%string then "dismiss_report"
  else if (action =? "escalate")%string then "escalate"
  else "resolve:delete".

Definition RESOLVE_ACTIONS : list string := ["delete"; "kick"; "ban"; "timeout"; "dismiss"; "escalate"].

Definition handle_resolve (c : Uuid) (e : Event) (actor : string) : Handler string :=
  try_option (extract_report_tag e) (invalid_text "missing or invalid report tag (expect 64-hex event id)") (λ report_id,
  try_option (extract_tag_value e "status") (invalid_text "missing status tag") (λ status,
  try_option (extract_tag_value e "action") (invalid_text "missing action tag") (λ action,
  let reason := extract_tag_value e "reason" in
  ensure ((status =? "resolved") || (status =? "dismissed"))%string (invalid_text "invalid status") (
  ensure (existsb (String.eqb action) RESOLVE_ACTIONS) (invalid_text "invalid action") (
  ensure (Bool.eqb (action =? "dismiss")%string (status =? "dismissed")%string)
    (invalid_text "action `dismiss` pairs only with status `dismissed`") (
  authorized c actor (OnEvent report_id) ResolveReport (
  report ← ask (GetModerationReportByEvent c report_id);
  try_option report (error_text "database error") (λ report,
  try_option report (invalid_text "report not found in this community") (λ r,
  resolved ← ask (ResolveReportDecision c {|
    dec_report := rr_id r; dec_status := status; dec_audit_action := enforcement_audit_action action; dec_actor := actor;
    dec_target_pubkey := match rr_target r with TargetPubkey p => Some p | _ => None end;
    dec_target_event := match rr_target r with TargetEvent i => Some i | _ => None end;
    dec_channel := rr_channel_id r; dec_reason := reason; dec_reporter := rr_reporter_pubkey r |});
  mret (match resolved with
        | Ok _ => Ok tt
        | Err NotOpen => Err (invalid_text "report is not open (already resolved or dismissed)")
        | Err OtherResolution => Err (error_text "resolution failed")
        end)))))))))).

Definition ensure_actor_not_banned (r : RestrictionState) : result string unit :=
  if banned r then Err "blocked: you are banned from this community" else Ok tt.

Definition handle_moderation_command (c : Uuid) (e : Event) : Handler string :=
  let k := event_kind_u32 e in
  let actor := pubkey e in
  restriction ← ask (ModerationRestrictionState c actor);
  try_option restriction (error_text "database error checking restriction state") (λ restriction,
  try_result (ensure_actor_not_banned restriction) (λ _,
  now ← ask UtcNow;
  ensure (negb (drifted MAX_COMMAND_SKEW_SECS (created_at e) (unix_seconds now))) (invalid_text "event timestamp out of range") (
  if (k =? KIND_MODERATION_BAN)%Z then handle_ban c e actor
  else if (k =? KIND_MODERATION_UNBAN)%Z then handle_unban c e actor
  else if (k =? KIND_MODERATION_TIMEOUT)%Z then handle_timeout c e actor
  else if (k =? KIND_MODERATION_UNTIMEOUT)%Z then handle_untimeout c e actor
  else if (k =? KIND_MODERATION_RESOLVE_REPORT)%Z then handle_resolve c e actor
  else mret (Err (invalid_text "unexpected moderation command kind"))))).

(** ** Reports *)

Definition REPORT_TYPES : list string := ["illegal"; "nudity"; "malware"; "spam"; "impersonation"; "profanity"; "other"].

Record ReportTag := { rt_value : string; rt_type : option string }.

Definition collect_report_tags (e : Event) (name : string) : list ReportTag :=
  omap (λ t, match as_slice t with
             | k :: v :: rest => if (k =? name)%string then Some {| rt_value := v; rt_type := head rest |} else None
             | _ => None
             end) (tags e).

Definition parse_report_type (v : option string) : result string string :=
  match v with
  | None => Err "invalid: report target tag missing report type"
  | Some v => if existsb (String.eqb v) REPORT_TYPES then Ok v else Err "invalid: unsupported report type"
  end.

Definition decode_32_byte_hex (v : string) : result string string :=
  if negb (is_hex64 v) then Err "invalid: malformed hex"
  else match hex_bytes v with
       | Some b => if negb (String.length b =? 64)%nat then Err "invalid: malformed hex" else Ok b
       | None => Err "invalid: malformed hex"
       end.

Definition parse_report (e : Event) : result string (ReportTarget * string) :=
  match collect_report_tags e "p" with
  | [] => Err "invalid: report must include a p tag"
  | [p] =>
      reported ← decode_32_byte_hex (rt_value p);
      match collect_report_tags e "e", collect_report_tags e "x" with
      | _ :: _, _ :: _ => Err "invalid: report must target only one of e or x"
      | _ :: _ :: _, _ => Err "invalid: report must include at most one e tag"
      | _, _ :: _ :: _ => Err "invalid: report must include at most one x tag"
      | [t], _ => ty ← parse_report_type (rt_type t); i ← decode_32_byte_hex (rt_value t); Ok (TargetEvent i, ty)
      | _, [t] => ty ← parse_report_type (rt_type t); i ← decode_32_byte_hex (rt_value t); Ok (TargetBlob i, ty)
      | [], [] => ty ← parse_report_type (rt_type p); Ok (TargetPubkey reported, ty)
      end
  | _ => Err "invalid: report must include exactly one p tag"
  end.

Definition report_note (e : Event) : option string := if (content e =? "")%string then None else Some (content e).

Definition resolve_report_target (c : Uuid) (t : ReportTarget) : Program ingest_sig (result string (option Uuid)) :=
  match t with
  | TargetEvent i =>
      stored ← ask (GetReportTargetEvent c i);
      try_option stored "error: database error resolving report target" (λ stored,
      try_option stored "invalid: report target event not found" (λ s, mret (Ok (Nostr.channel_id s))))
  | TargetBlob sha =>
      found ← ask (GetSidecar c sha);
      ensure found "invalid: report target blob not found" (mret (Ok None))
  | TargetPubkey _ => mret (Ok None)
  end.

Definition handle_report_event (c : Uuid) (e : Event) : Handler string :=
  try_result (parse_report e) (λ '(tgt, ty),
  then_ (λ m, m) (resolve_report_target c tgt) (λ ch,
  ok ← ask (InsertModerationReport c {|
    report_event_id := Nostr.id e; reporter_pubkey := pubkey e; target := tgt; report_channel_id := ch;
    report_type := ty; note := report_note e |});
  ensure ok "error: database error inserting report" (mret (Ok tt)))).

End doors.
