(* ===== verification/IngestThread.v ===== *)
(** * Thread ancestry of a reply ([crates/maju-relay/src/handlers/ingest.rs])

    Where a reply hangs: for events that clients sign
    ([resolve_nip10_thread_meta]) and for replies that the relay builds for a
    workflow ([resolve_relay_reply_thread_meta]).  The two reads of the parent
    are joined futures; any pair of answers is possible, so their order in the
    program does not matter.  Times are seconds. *)
From S2P Require Import Prelude Nostr Kinds Thread Channel WorkflowTemplate WorkflowDoors Program IngestPolicy IngestRequests.

Section thread.
Context {L : NostrLib} {H : HexDecode} {T : TimeRange}.

Abbreviation Step A := (Program ingest_sig (result string A)) (only parsing).

(** [DateTime::from_timestamp(..).unwrap_or_else(Utc::now)]. *)
Definition timestamp_or_now (created : Z) : Program ingest_sig Z :=
  match from_timestamp created with
  | Some s => mret s
  | None => t ← ask UtcNow; mret (seconds t)
  end.

(** The time of an event that is looked up, if there is one. *)
Definition created_at_of (c : Uuid) (i : string) (fallback : Z) : Program ingest_sig Z :=
  found ← ask (GetEventById c i);
  mret (match found with
        | Some (Some s) => default fallback (from_timestamp (created_at (event s)))
        | _ => fallback
        end).

(** [i32] addition of one in a release build. *)
Definition i32_succ (d : Z) : Z := if (d =? 2 ^ 31 - 1)%Z then (- 2 ^ 31)%Z else (d + 1)%Z.

Definition MAX_THREAD_DEPTH : Z := 100.

Definition derive_ancestry_from_parent_tags (c : Uuid) (parent : Event) (parent_bytes : string) (parent_created : Z) :
    Program ingest_sig (string * Z * Z) :=
  let parent_root :=
    default parent_bytes ('(r, _) ← Thread.resolve (parse_thread_markers (tags parent)); key_of_hex r) in
  if (parent_root =? parent_bytes)%string then mret (parent_root, parent_created, 1%Z)
  else
    root_created ← created_at_of c parent_root parent_created;
    mret (parent_root, root_created, 2%Z).

(** The parent, which must be in the channel of the reply, with what the read of
    its row gave. *)
Definition load_parent (c ch : Uuid) (parent_bytes : string) : Step (StoredEvent * option (option ThreadMetadataRecord)) :=
  parent_event ← ask (GetEventById c parent_bytes);
  parent_meta ← ask (GetThreadMetadata c parent_bytes);
  try_option parent_event "db error looking up parent" (λ parent_event,
  try_option parent_event "reply parent not found" (λ parent_event,
  match Nostr.channel_id parent_event with
  | Some parent_ch =>
      if negb (parent_ch =? ch)%N then mret (Err "parent event belongs to a different channel")
      else mret (Ok (parent_event, parent_meta))
  | None => mret (Err "parent event has no channel association")
  end)).

Definition is_broadcast (e : Event) : bool :=
  existsb (λ t, match as_slice t with k :: v :: _ => (k =? "broadcast")%string && (v =? "1")%string | _ => false end) (tags e).

(** The root, its time and the depth of a reply whose tags name [client_root]. *)
Definition client_ancestry (c : Uuid) (client_root parent_bytes : string) (parent_created : Z) (parent : StoredEvent)
    (meta : option ThreadMetadataRecord) : Step (string * Z * Z) :=
  match meta with
  | Some m =>
      let effective_root := default parent_bytes (tm_root_event_id m) in
      ensure (client_root =? effective_root)%string "root tag does not match thread ancestry" (
      root_ts ← created_at_of c effective_root parent_created;
      let d := i32_succ (tm_depth m) in
      ensure (d <=? MAX_THREAD_DEPTH)%Z "thread depth limit exceeded" (mret (Ok (effective_root, root_ts, d))))
  | None =>
      '(parent_root, root_created, d) ← derive_ancestry_from_parent_tags c (event parent) parent_bytes parent_created;
      ensure (client_root =? parent_root)%string "root tag does not match thread ancestry" (mret (Ok (parent_root, root_created, d)))
  end.

Definition resolve_nip10_thread_meta (c : Uuid) (e : Event) (ch : Uuid) : Step (option ThreadMetadataOwned) :=
  match Thread.resolve (parse_thread_markers (tags e)) with
  | None => mret (Ok None)
  | Some (root_hex, parent_hex) =>
      try_option (hex_bytes parent_hex) "invalid parent event ID hex" (λ parent_bytes,
      then_ (λ m, m) (load_parent c ch parent_bytes) (λ '(parent, meta),
      parent_created ← timestamp_or_now (created_at (event parent));
      try_option (hex_bytes root_hex) "invalid root event ID hex" (λ client_root,
      try_option meta "db error looking up thread metadata" (λ meta,
      then_ (λ m, m) (client_ancestry c client_root parent_bytes parent_created parent meta) (λ '(final_root, root_created, d),
      own_created ← timestamp_or_now (created_at e);
      mret (Ok (Some {|
        event_id := Nostr.id e; event_created_at := own_created; tm_channel_id := ch;
        parent_event_id := parent_bytes; parent_event_created_at := parent_created;
        root_event_id := final_root; root_event_created_at := root_created;
        depth := d; broadcast := is_broadcast e |})))))))
  end.

(** ** Replies of the relay *)

Record ReplyAncestry := {
  ra_parent_event_id : string;
  ra_parent_event_created_at : Z;
  ra_root_event_id : string;
  ra_root_event_created_at : Z;
  ra_depth : Z
}.

Definition into_thread_meta (a : ReplyAncestry) (reply_event_id : string) (reply_created_at : Z) (ch : Uuid) : ThreadMetadataOwned :=
  {| event_id := reply_event_id; event_created_at := reply_created_at; tm_channel_id := ch;
     parent_event_id := ra_parent_event_id a; parent_event_created_at := ra_parent_event_created_at a;
     root_event_id := ra_root_event_id a; root_event_created_at := ra_root_event_created_at a;
     depth := ra_depth a; broadcast := false |}.

Definition relay_ancestry (c : Uuid) (parent_bytes : string) (parent_created : Z) (parent : StoredEvent)
    (meta : option ThreadMetadataRecord) : Program ingest_sig (string * Z * Z) :=
  match meta with
  | Some m =>
      let effective_root := default parent_bytes (tm_root_event_id m) in
      root_ts ← (if (effective_root =? parent_bytes)%string then mret parent_created
                 else created_at_of c effective_root parent_created);
      mret (effective_root, root_ts, i32_succ (tm_depth m))
  | None => derive_ancestry_from_parent_tags c (event parent) parent_bytes parent_created
  end.

Definition resolve_relay_reply_thread_meta (c : Uuid) (parent_hex : string) (ch : Uuid) : Step ReplyAncestry :=
  try_option (hex_bytes parent_hex) "invalid parent event ID hex" (λ parent_bytes,
  then_ (λ m, m) (load_parent c ch parent_bytes) (λ '(parent, meta),
  parent_created ← timestamp_or_now (created_at (event parent));
  try_option meta "db error looking up thread metadata" (λ meta,
  '(root, root_created, d) ← relay_ancestry c parent_bytes parent_created parent meta;
  ensure (d <=? MAX_THREAD_DEPTH)%Z "thread depth limit exceeded" (
  mret (Ok {| ra_parent_event_id := parent_bytes; ra_parent_event_created_at := parent_created;
              ra_root_event_id := root; ra_root_event_created_at := root_created; ra_depth := d |}))))).

End thread.
