(* ===== verification/Ingest.v ===== *)
(** * The ingest pipeline ([crates/maju-relay/src/handlers/ingest.rs])

    [ingest_event_inner], the one room behind the WebSocket and the HTTP door,
    as a program over [ingest_sig]: admission, the routing of commands, the
    restriction gate, the channel of the event, the checks of its kind, the
    write, and what follows it.  [ingest_event] adds metrics and trace records
    to it and is left out, like the trace records of the pipeline itself.

    The texts of rejections are those of the code, without the values that
    [format!] inserts. *)
From S2P Require Import Prelude Nostr Kinds Channel WorkflowTemplate WorkflowDef WorkflowStore WorkflowDoors Program IngestPolicy Envelopes.
From S2P Require Import IngestRequests ModerationDoors IngestThread.

Section ingest.
Context {L : NostrLib} {H : HexDecode} {T : TimeRange} {U : UuidParse} {JN : JsonNum} {SL : SerdeLib JN}.

Abbreviation Stage A := (Program ingest_sig (result IngestError A)) (only parsing).
Abbreviation Handler := (Program ingest_sig (result IngestError IngestResult)) (only parsing).

Definition invalid_ (m : string) : IngestError := Rejected ("invalid: " +:+ m).

Definition accepted_with (e : Event) (m : string) : IngestResult :=
  {| WorkflowDoors.event_id := Nostr.id e; accepted := true; message := m |}.
Definition refused_with (e : Event) (m : string) : IngestResult :=
  {| WorkflowDoors.event_id := Nostr.id e; accepted := false; message := m |}.

(** ** Admission *)

Definition map_serving_fence_state (active : option bool) : result IngestError unit :=
  match active with
  | Some true => Ok tt
  | Some false => Err (Rejected "restricted: community writes are fenced")
  | None => Err (Internal "error: checking community write fence")
  end.

(** The refusals that look only at the kind. *)
Definition check_kind (k : Z) (a : IngestAuth) : result IngestError unit :=
  if (k =? KIND_AUTH)%Z then Err (Rejected "invalid: AUTH events cannot be submitted")
  else if (k =? KIND_MEMBER_ADDED_NOTIFICATION)%Z || (k =? KIND_MEMBER_REMOVED_NOTIFICATION)%Z
    then Err (Rejected "invalid: membership notifications are relay-signed only")
  else if is_http a && ((k =? KIND_GIFT_WRAP)%Z || (k =? KIND_PRESENCE_UPDATE)%Z)
    then Err (Rejected "invalid: kind is only accepted via WebSocket")
  else if is_relay_only_kind k then Err (Rejected "restricted: relay-only kind")
  else Ok tt.

(** Who signed, and with which scope. *)
Definition check_author (e : Event) (a : IngestAuth) : result IngestError unit :=
  let k := event_kind_u32 e in
  if negb (pubkey e =? auth_pubkey a)%string && negb (k =? KIND_GIFT_WRAP)%Z
    then Err (AuthFailed "invalid: event pubkey does not match authenticated identity")
  else
    match required_scope_for_kind k e with
    | Err msg => Err (Rejected msg)
    | Ok required =>
        if is_relay_admin_kind k && bool_decide (is_Some (auth_channel_ids a))
          then Err (AuthFailed "restricted: relay admin commands require a global token, not a channel-scoped token")
        else if (k =? KIND_NIP43_LEAVE_REQUEST)%Z && bool_decide (is_Some (auth_channel_ids a))
          then Err (AuthFailed "restricted: leave requests require a global token")
        else if negb (bool_decide (required ∈ auth_scopes a)) then Err (AuthFailed "restricted: insufficient scope")
        else Ok tt
    end.

(** The gates before the routing; the result is the second of the check. *)
Definition admission (c : Uuid) (e : Event) (a : IngestAuth) : Stage Z :=
  active ← ask (IsServingActive c);
  try_result (map_serving_fence_state active) (λ _,
  try_result (check_kind (event_kind_u32 e) a) (λ _,
  verified ← ask (VerifyEvent e);
  try_option verified (Internal "error: internal verification error") (λ verified,
  try_result (map_err invalid_ verified) (λ _,
  t ← ask UtcNow;
  let now := seconds t in
  ensure (negb (drifted MAX_TIMESTAMP_DRIFT_SECS (created_at e) now)) (invalid_ "event timestamp too far from server time") (
  ensure (negb (MAX_EVENT_CONTENT_BYTES <? Z.of_nat (String.length (content e)))%Z) (invalid_ "content exceeds maximum size") (
  try_result (check_author e a) (λ _, mret (Ok now)))))))).

(** ** Restrictions *)

Definition restriction_gate (c : Uuid) (k : Z) (a : IngestAuth) : Stage unit :=
  if is_moderation_command_kind k || is_relay_admin_kind k then mret (Ok tt)
  else
    state ← ask (ModerationRestrictionState c (auth_pubkey a));
    try_option state (Internal "error: internal error checking restriction state") (λ r,
    if banned r then mret (Err (AuthFailed "blocked: you are banned from this community"))
    else
      match muted_until r with
      | Some until =>
          now ← ask UtcNow;
          ensure (negb (now <? until)%Z) (AuthFailed "restricted: you are timed out") (mret (Ok tt))
      | None => mret (Ok tt)
      end).

(** ** The channel *)

Definition derive_reaction_channel (c : Uuid) (e : Event) : Stage (option Uuid) :=
  let no_target := invalid_ "reaction must reference a target event via e tag" in
  try_option (last_e_target e) no_target (λ hex,
  try_option (key_of_hex hex) no_target (λ i,
  found ← ask (GetEventById c i);
  try_option found (Internal "error: internal error looking up reaction target") (λ found,
  try_option found (invalid_ "reaction target event not found") (λ s, mret (Ok (Nostr.channel_id s)))))).

Definition derive_deletion_channel (c : Uuid) (e : Event) : Stage (option Uuid) :=
  match first_e_target e with
  | None => mret (Ok None)
  | Some hex =>
      try_option (hex_bytes hex) (invalid_ "malformed deletion target id") (λ i,
      found ← ask (GetEventById c i);
      try_option found (Internal "error: looking up deletion target") (λ found,
      mret (Ok (s ← found; Nostr.channel_id s))))
  end.

Definition derived_channel (c : Uuid) (e : Event) : Stage (option Uuid) :=
  let k := event_kind_u32 e in
  if (k =? KIND_REACTION)%Z then derive_reaction_channel c e
  else if (k =? KIND_GIFT_WRAP)%Z then mret (Ok None)
  else if (k =? KIND_DELETION)%Z then derive_deletion_channel c e
  else mret (Ok (extract_channel_id e)).

(** The token may write where the event goes. *)
Definition check_token (a : IngestAuth) (ch : option Uuid) : result IngestError unit :=
  match ch with
  | Some ch => map_err AuthFailed (check_token_channel_access a ch)
  | None =>
      if bool_decide (is_Some (auth_channel_ids a))
      then Err (AuthFailed "restricted: channel-scoped tokens cannot publish global events")
      else Ok tt
  end.

Definition event_channel (c : Uuid) (e : Event) (a : IngestAuth) : Stage (option Uuid) :=
  then_ (λ m, m) (derived_channel c e) (λ derived,
  let ch := if is_global_only_kind (event_kind_u32 e) then None else derived in
  ensure (negb (requires_h_channel_scope (event_kind_u32 e) && bool_decide (ch = None)))
    (invalid_ "channel-scoped events must include an h tag") (
  try_result (check_token a ch) (λ _, mret (Ok ch)))).

(** The row of the channel, if it can be read. *)
Definition channel_row (c : Uuid) (ch : option Uuid) : Program ingest_sig (option ChannelRecord) :=
  match ch with
  | Some ch => found ← ask (GetChannel c ch); mret (match found with Ok r => Some r | Err _ => None end)
  | None => mret None
  end.

Definition threaded_visibility (c : Uuid) (ch : option Uuid) (row : option ChannelRecord) : Program ingest_sig (option string) :=
  match ch, row with
  | Some ch, Some _ => ask (ChannelVisibilityCached c ch)
  | _, _ => mret None
  end.

Definition is_open (r : ChannelRecord) : bool := (ch_visibility r =? "open")%string.

Definition check_channel_membership (c ch : Uuid) (pk : string) (row : option ChannelRecord) : Program ingest_sig (result string unit) :=
  member ← ask (IsMemberCached c ch pk);
  try_option member "error: database error" (λ member : bool,
  if member then mret (Ok tt)
  else
    open ← (match row with
            | Some r => mret (is_open r)
            | None => found ← ask (GetChannel c ch); mret (match found with Ok r => is_open r | Err _ => false end)
            end);
    ensure open "restricted: not a channel member" (mret (Ok tt))).

Definition skips_membership (k : Z) : bool :=
  one_of k [KIND_NIP29_JOIN_REQUEST; KIND_NIP29_CREATE_GROUP; KIND_STREAM_MESSAGE_EDIT; KIND_NIP29_EDIT_METADATA;
            KIND_NIP29_DELETE_EVENT; KIND_NIP29_DELETE_GROUP].

Definition membership_gate (c : Uuid) (k : Z) (ch : option Uuid) (a : IngestAuth) (row : option ChannelRecord) : Stage unit :=
  match ch with
  | None => mret (Ok tt)
  | Some ch =>
      if skips_membership k then mret (Ok tt)
      else then_ Rejected (check_channel_membership c ch (auth_pubkey a) row) (λ _, mret (Ok tt))
  end.

(** ** Leaving the relay *)

Definition handle_leave (cfg : RelayConfig) (c : Uuid) (e : Event) : Handler :=
  ensure (require_relay_membership cfg) (invalid_ "relay membership is not enabled") (
  t ← ask UtcNow;
  ensure (negb (drifted 120 (created_at e) (unix_seconds t))) (invalid_ "leave request timestamp out of range") (
  ensure (existsb (is_named "-") (tags e)) (invalid_ "leave request must include NIP-70 protected event tag") (
  removed ← ask (RemoveRelayMember c (pubkey e));
  try_option removed (Internal "database error") (λ removed,
  match removed with
  | Removed =>
      ask (PublishMemberRemoved c (pubkey e));; ask (PublishMembershipList c);;
      mret (Ok (accepted_with e "info: you have left this relay"))
  | NotFound => mret (Err (invalid_ "you are not a relay member"))
  | IsOwner => mret (Err (invalid_ "relay owner cannot leave"))
  | RoleMismatch => mret (Err (Internal "unexpected RoleMismatch from remove_relay_member"))
  end)))).

(** ** Checks of single kinds *)

Definition huddle_backing_channel_id (e : Event) : result IngestError Uuid :=
  match value_from_str (content e) with
  | None => Err (invalid_ "Huddle event content must be a JSON object")
  | Some v =>
      match (f ← json_get v "ephemeral_channel_id"; as_str f) with
      | None => Err (invalid_ "Huddle event must name an ephemeral_channel_id")
      | Some s => match uuid_parse s with Some u => Ok u | None => Err (invalid_ "Huddle ephemeral_channel_id must be a UUID") end
      end
  end.

Definition map_huddle_backing_channel_error (e : DbLookupError) : IngestError :=
  match e with
  | ChannelNotFound => invalid_ "Huddle backing channel not found"
  | OtherDbError => Internal "error: loading Huddle backing channel"
  end.

Definition expected_huddle_backing_ttl (override : option Z) : Z := default 3600%Z override.

Definition validate_huddle_lifecycle_event (cfg : RelayConfig) (c : Uuid) (e : Event) (k : Z) : Stage unit :=
  if negb (k =? KIND_HUDDLE_STARTED)%Z && negb (k =? KIND_HUDDLE_ENDED)%Z then mret (Ok tt)
  else
    try_result (huddle_backing_channel_id e) (λ backing_id,
    found ← ask (GetChannel c backing_id);
    try_result (map_err map_huddle_backing_channel_error found) (λ backing,
    let created_backing := (ch_created_by backing =? pubkey e)%string in
    if (k =? KIND_HUDDLE_STARTED)%Z then
      ensure (created_backing && (ch_type backing =? "stream")%string && (ch_visibility backing =? "private")%string &&
              bool_decide (ch_ttl_seconds backing = Some (expected_huddle_backing_ttl (ephemeral_ttl_override cfg))) &&
              bool_decide (ch_archived_at backing = None))
        (invalid_ "Huddle start must reference the signer's active private ephemeral stream") (mret (Ok tt))
    else
      ensure (created_backing || (pubkey e =? relay_pubkey cfg)%string) (invalid_ "only the Huddle creator or relay may end it") (
      try_option (extract_channel_id e) (invalid_ "Huddle end must name its parent channel") (λ parent,
      linked ← ask (HuddleStartedLinkExists c parent backing_id (ch_created_by backing));
      try_option linked (Internal "error: checking Huddle start linkage") (λ linked,
      ensure linked (invalid_ "Huddle end does not match a creator-signed start in this channel") (mret (Ok tt))))))).

(** The channel of a target agrees with the [h] tag of the event. *)
Definition same_channel (e : Event) (target : StoredEvent) : result string unit :=
  match extract_channel_id e, Nostr.channel_id target with
  | Some ch, Some ch' => if negb (ch =? ch')%N then Err "target event belongs to a different channel" else Ok tt
  | Some _, None => Err "target event has no channel"
  | None, _ => Ok tt
  end.

(** The event that the first good [e] tag names. *)
Definition load_target (c : Uuid) (e : Event) (missing not_found : string) : Program ingest_sig (result string StoredEvent) :=
  try_option (first_e_target e) missing (λ hex,
  try_option (hex_bytes hex) "invalid target event ID" (λ i,
  found ← ask (GetEventById c i);
  try_option found "db error" (λ found, try_option found not_found (λ s, mret (Ok s))))).

Definition validate_edit_ownership (cfg : RelayConfig) (c : Uuid) (e : Event) : Program ingest_sig (result string unit) :=
  then_ (λ m, m) (load_target c e "missing e tag for edit target" "edit target event not found") (λ target,
  try_result (same_channel e target) (λ _,
  let author := effective_message_author (event target) (relay_pubkey cfg) in
  let actor := pubkey e in
  if (author =? actor)%string then
    match Nostr.channel_id target with
    | None => mret (Ok tt)
    | Some ch =>
        member ← ask (IsMemberCached c ch actor);
        try_option member "db error checking membership" (λ member : bool,
        if member then mret (Ok tt)
        else
          found ← ask (GetChannel c ch);
          ensure (match found with Ok r => is_open r | Err _ => false end) "restricted: not a channel member" (mret (Ok tt)))
    end
  else
    owner ← ask (IsAgentOwner c author actor);
    try_option owner "db error checking agent ownership" (λ owner,
    ensure owner "must be event author to edit" (mret (Ok tt))))).

Definition validate_forum_vote_target (c : Uuid) (e : Event) : Program ingest_sig (result string unit) :=
  then_ (λ m, m) (load_target c e "missing e tag for vote target" "vote target event not found") (λ target,
  let k := event_kind_u32 (event target) in
  ensure ((k =? KIND_FORUM_POST) || (k =? KIND_FORUM_COMMENT))%Z "vote target must be a forum post or comment" (
  mret (same_channel e target))).

Definition check_metric_owner (c : Uuid) (e : Event) : Stage unit :=
  match find_map (slice_value "p") (tags e) with
  | None => mret (Err (Internal "panic: p tag present"))
  | Some hex =>
      match hex_bytes hex with
      | None => mret (Err (Internal "panic: hex validated"))
      | Some owner_key =>
          owner ← ask (IsAgentOwner c (pubkey e) owner_key);
          try_option owner (Internal "error: db error checking agent-turn-metric ownership") (λ owner,
          ensure owner (AuthFailed "restricted: agent-turn-metric `p` tag must be the registered owner of this agent") (mret (Ok tt)))
      end
  end.

Definition is_admin_kind (k : Z) : bool := ((9000 <=? k) && (k <=? 9022))%Z.

Definition is_unarchive (e : Event) : bool :=
  (event_kind_u32 e =? KIND_NIP29_EDIT_METADATA)%Z &&
  existsb (λ t, match as_slice t with k :: v :: _ => (k =? "archived")%string && (v =? "false")%string | _ => false end) (tags e).

Definition is_archived (row : option ChannelRecord) : bool :=
  match row with Some r => bool_decide (is_Some (ch_archived_at r)) | None => false end.

(** A check that applies to some kinds. *)
Definition when (b : bool) (p : Stage unit) : Stage unit := if b then p else mret (Ok tt).
Definition pure_check (m : result string unit) : Stage unit := mret (map_err invalid_ m).
Definition component_check (p : Program ingest_sig (result string unit)) : Stage unit := m ← p; mret (map_err invalid_ m).

Fixpoint in_turn (l : list (Stage unit)) : Stage unit :=
  match l with
  | [] => mret (Ok tt)
  | p :: l => then_ (λ m, m) p (λ _, in_turn l)
  end.

(** The checks between the membership gate and the creation of a channel. *)
Definition kind_checks (cfg : RelayConfig) (c : Uuid) (e : Event) (ch : option Uuid) (row : option ChannelRecord) : list (Stage unit) :=
  let k := event_kind_u32 e in
  [ validate_huddle_lifecycle_event cfg c e k;
    when (is_admin_kind k) (component_check (ask (ValidateAdminEvent c k e)));
    when (is_identity_archive_request_kind k) (component_check (ask (HandleIdentityArchive c e)));
    when (k =? KIND_DELETION)%Z (component_check (ask (ValidateStandardDeletion c e)));
    when (bool_decide (is_Some ch)) (pure_check (if negb (is_unarchive e) && is_archived row then Err "channel is archived" else Ok tt));
    when ((k =? KIND_NIP29_DELETE_EVENT) || (k =? KIND_DELETION))%Z
      (pure_check (if (count_e_tags e + count_tags "a" e =? 1)%nat then Ok tt
                   else Err "deletion events must reference exactly one target via e or a tag"));
    when (k =? KIND_STREAM_MESSAGE_EDIT)%Z (component_check (validate_edit_ownership cfg c e));
    when (k =? KIND_FORUM_VOTE)%Z (component_check (validate_forum_vote_target c e));
    when (k =? KIND_STREAM_MESSAGE_DIFF)%Z (pure_check (validate_diff_event e));
    when (k =? KIND_AGENT_ENGRAM)%Z (pure_check (validate_engram_envelope e));
    when (k =? KIND_AGENT_TURN_METRIC)%Z (pure_check (validate_agent_turn_metric_envelope e));
    when (k =? KIND_AGENT_TURN_METRIC)%Z (check_metric_owner c e);
    when (k =? KIND_EVENT_REMINDER)%Z
      (t ← ask UtcNow; pure_check (validate_event_reminder (max_not_before_delta cfg) (unix_seconds t) e));
    when (k =? KIND_DEVICE_SESSION)%Z (component_check (ask (ValidateDeviceSession e)));
    when (k =? KIND_PERSONA)%Z (pure_check (validate_persona_envelope e));
    when (k =? KIND_TEAM_CATALOG)%Z (pure_check (validate_team_catalog_envelope e));
    when (k =? KIND_PROJECT)%Z (pure_check (map_err rejection_message (validate_project_envelope e))) ].

(** ** Creating and joining channels *)

(** [None]: go on without a new channel; [Some None]: the channel exists. *)
Definition create_group (cfg : RelayConfig) (c : Uuid) (e : Event) (ch : option Uuid) (k : option Uuid → Handler) : Handler :=
  if negb (event_kind_u32 e =? KIND_NIP29_CREATE_GROUP)%Z then k None
  else
    let create_name := first_content "name" e in
    let canonical := match create_name with Some n => canonical_channel_name (chars n) | None => [] end in
    ensure (negb (bool_decide (trim_end (trim_start_matches is_whitespace canonical) = [])))
      (invalid_ "channel name is required") (
    try_result (map_err (λ _, Rejected "invalid visibility") (visibility_from_str (default "open" (first_content "visibility" e)))) (λ vis,
    try_result (map_err (λ _, Rejected "invalid channel_type") (channel_type_from_str (default "stream" (first_content "channel_type" e)))) (λ ty,
    match ch with
    | None => k None
    | Some new_id =>
        created ← ask (CreateChannelWithId c new_id (utf8_encode canonical) (channel_type_as_str ty) (visibility_as_str vis)
                         (first_content "about" e) (pubkey e) (resolve_ttl e (ephemeral_ttl_override cfg)));
        try_option created (Internal "error: create channel") (λ created : bool,
        if created then k (Some new_id) else mret (Ok (refused_with e "duplicate: channel already exists")))
    end))).

Definition check_join (e : Event) (ch : option Uuid) (row : option ChannelRecord) : result IngestError unit :=
  if negb (event_kind_u32 e =? KIND_NIP29_JOIN_REQUEST)%Z then Ok tt
  else
    match ch with
    | None => Err (invalid_ "join request must include an h tag")
    | Some _ =>
        match row with
        | Some r => if (ch_visibility r =? "private")%string then Err (Rejected "restricted: channel is private") else Ok tt
        | None => Err (invalid_ "channel not found")
        end
    end.

(** ** Push leases *)

Definition map_push_accept_error (e : AcceptError) : IngestError :=
  match e with Validation m => invalid_ m | InternalAccept m => Internal m end.

Definition lease_outcome (o : AcceptLeaseOutcome) : result IngestError unit :=
  match o with
  | Accepted => Ok tt
  | StaleEvent => Err (invalid_ "stale replacement")
  | StaleGeneration => Err (invalid_ "stale generation")
  | EndpointAlreadyLeased => Err (invalid_ "endpoint already leased")
  | LeaseQuotaExceeded => Err (invalid_ "lease quota exceeded")
  | SourceEventCollision => Err (invalid_ "source event collision")
  | ConstraintViolation => Err (invalid_ "lease constraint violation")
  end.

Definition accept_push_lease (c : Uuid) (e : Event) (now : Z) : Handler :=
  outcome ← ask (AcceptPushLease c e now);
  try_result (map_err map_push_accept_error outcome) (λ outcome,
  try_result (lease_outcome outcome) (λ _, mret (Ok (accepted_with e "")))).

(** ** The write *)

(** The checks of media and content that come last. *)
Definition content_checks (c : Uuid) (e : Event) : list (Stage unit) :=
  let k := event_kind_u32 e in
  [ when (k =? KIND_STREAM_MESSAGE)%Z (component_check (ask (ValidateLinkPreviews e)));
    when (has_tag "imeta" e) (component_check (ask (ValidateImeta e)));
    when (has_tag "imeta" e) (component_check (ask (VerifyImetaBlobs e))) ].

Definition thread_meta (c : Uuid) (e : Event) (ch : option Uuid) : Stage (option ThreadMetadataOwned) :=
  if requires_h_channel_scope (event_kind_u32 e) then
    match ch with
    | Some ch => then_ invalid_ (resolve_nip10_thread_meta c e ch) (λ m, mret (Ok m))
    | None => mret (Ok None)
    end
  else mret (Ok None).

Definition check_content (e : Event) : result IngestError unit :=
  let k := event_kind_u32 e in
  if (k =? KIND_PROFILE)%Z && bool_decide (value_from_str (content e) = None)
    then Err (invalid_ "kind:0 content must be valid JSON")
  else if (k =? KIND_EMOJI_SET)%Z || (k =? KIND_EMOJI_LIST)%Z then map_err Rejected (validate_custom_emoji_tags e)
  else Ok tt.

Definition store_reaction (cfg : RelayConfig) (c : Uuid) (e : Event) (ch : option Uuid) (meta : option ThreadMetadataOwned)
    (vis : option string) : Handler :=
  try_option (last_e_target e) (invalid_ "reaction must reference a target event via e tag") (λ hex,
  try_option (hex_bytes hex) (invalid_ "malformed reaction target id") (λ target_id,
  let actor := effective_message_author e (relay_pubkey cfg) in
  let emoji := if (content e =? "")%string then "+" else content e in
  try_result (map_err Rejected (validate_reaction_emoji e emoji)) (λ _,
  outcome ← ask (InsertReactionEvent c e ch meta target_id actor emoji);
  try_option outcome (Internal "error: insert reaction") (λ outcome,
  match outcome with
  | TargetMissing => mret (Err (invalid_ "reaction target event not found"))
  | DuplicateReaction => mret (Ok (refused_with e "duplicate: reaction already exists"))
  | InsertedReaction stored _ =>
      ask (DispatchPersistentEvent c stored (event_kind_u32 e) vis);;
      mret (Ok (accepted_with e ""))
  end)))).

Definition is_side_effect_kind (k : Z) : bool :=
  (k =? 0)%Z || (k =? 5)%Z || is_admin_kind k || (k =? KIND_GIT_REPO_ANNOUNCEMENT)%Z || (k =? KIND_AGENT_PROFILE)%Z
  || ((41001 <=? k) && (k <=? 41003))%Z || (k =? 40099)%Z.

(** [pre_created] is soft-deleted again when the insertion fails. *)
Definition insert_or_compensate (c : Uuid) (e : Event) (ch : option Uuid) (meta : option ThreadMetadataOwned) (pre_created : option Uuid) :
    Stage (StoredEvent * bool) :=
  inserted ← ask (InsertEventWithThreadMetadata c e ch meta);
  match inserted with
  | Ok r => mret (Ok r)
  | Err err =>
      match pre_created with
      | Some new_id => ask (SoftDeleteChannel c new_id);; ask (InvalidateChannelDeleted c)
      | None => mret tt
      end;;
      mret (Err (match err with
                 | AuthEventRejected => invalid_ "AUTH events cannot be stored"
                 | OtherInsertError => Internal "error: database error"
                 end))
  end.

(** [stored_d_tag] is [maju_db::event::extract_d_tag]. *)
Definition store_event (c : Uuid) (e : Event) (ch : option Uuid) (meta : option ThreadMetadataOwned) (pre_created : option Uuid) :
    Stage (StoredEvent * bool) :=
  let k := event_kind_u32 e in
  if is_replaceable k then
    r ← ask (ReplaceAddressableEvent c e ch);
    try_option r (Internal "error: replace addressable event") (λ r, mret (Ok r))
  else if is_parameterized_replaceable k then
    let d_tag := default "" (stored_d_tag e) in
    ensure (negb (1024 <? Z.of_nat (String.length d_tag))%Z) (invalid_ "d tag too long") (
    r ← ask (ReplaceParameterizedEvent c e d_tag ch);
    try_option r (Internal "error: replace parameterized event") (λ r, mret (Ok r)))
  else insert_or_compensate c e ch meta pre_created.

(** What follows a write: nothing for a duplicate. *)
Definition after_store (c : Uuid) (e : Event) (meta : option ThreadMetadataOwned) (vis : option string) (stored : StoredEvent)
    (was_inserted : bool) : Handler :=
  if negb was_inserted then mret (Ok (accepted_with e "duplicate:"))
  else
    (if is_side_effect_kind (event_kind_u32 e) then ask (HandleSideEffects c (event_kind_u32 e) e) ≫= λ _, mret tt else mret tt);;
    match meta with
    | Some m => ask (EmitLiveThreadSummary c (tm_channel_id m) (root_event_id m))
    | None => mret tt
    end;;
    ask (DispatchPersistentEvent c stored (event_kind_u32 e) vis);;
    mret (Ok (accepted_with e "")).

(** The part after the creation of a channel. *)
Definition write_event (cfg : RelayConfig) (c : Uuid) (e : Event) (now : Z) (ch : option Uuid) (row : option ChannelRecord)
    (vis : option string) (pre_created : option Uuid) : Handler :=
  try_result (check_join e ch row) (λ _,
  if (event_kind_u32 e =? KIND_PUSH_LEASE)%Z then accept_push_lease c e now
  else
    then_ (λ m, m) (in_turn (content_checks c e)) (λ _,
    then_ (λ m, m) (thread_meta c e ch) (λ meta,
    try_result (check_content e) (λ _,
    if (event_kind_u32 e =? KIND_REACTION)%Z then store_reaction cfg c e ch meta vis
    else
      then_ (λ m, m) (store_event c e ch meta pre_created) (λ '(stored, was_inserted),
      after_store c e meta vis stored was_inserted))))).

(** ** The pipeline *)

Definition map_relay_admin_error (e : RelayAdminError) : IngestError :=
  match e with
  | Banned => AuthFailed "blocked: you are banned from this community"
  | RejectedAdmin reason => invalid_ reason
  | InternalAdmin reason => Internal ("error: " +:+ reason)
  end.

(** A handler that stores nothing. *)
Definition executed {E} (conv : E → IngestError) (e : Event) (p : Program ingest_sig (result E unit)) : Handler :=
  then_ conv p (λ _, mret (Ok (accepted_with e ""))).

Definition place_event (cfg : RelayConfig) (c : Uuid) (e : Event) (a : IngestAuth) (now : Z) : Handler :=
  let k := event_kind_u32 e in
  then_ (λ m, m) (event_channel c e a) (λ ch,
  row ← channel_row c ch;
  vis ← threaded_visibility c ch row;
  then_ (λ m, m) (membership_gate c k ch a row) (λ _,
  if is_relay_admin_kind k then executed map_relay_admin_error e (handle_relay_admin_event cfg c e)
  else if (k =? KIND_NIP43_LEAVE_REQUEST)%Z then handle_leave cfg c e
  else
    then_ (λ m, m) (in_turn (kind_checks cfg c e ch row)) (λ _,
    create_group cfg c e ch (λ pre_created, write_event cfg c e now ch row vis pre_created)))).

Definition ingest_event_inner (cfg : RelayConfig) (c : Uuid) (e : Event) (a : IngestAuth) : Handler :=
  let k := event_kind_u32 e in
  then_ (λ m, m) (admission c e a) (λ now,
  if is_command_kind k then ask (RunCommand c e a)
  else if (k =? KIND_PRODUCT_FEEDBACK)%Z then executed Rejected e (ask (HandleProductFeedback c e))
  else if (k =? KIND_REPORT)%Z then executed Rejected e (handle_report_event c e)
  else if is_moderation_command_kind k then executed Rejected e (handle_moderation_command c e)
  else
    then_ (λ m, m) (restriction_gate c k a) (λ _, place_event cfg c e a now)).

End ingest.
