(* ===== verification/IngestStages.v ===== *)
(** * Stages of the ingest pipeline

    The requests that write an event or send it to subscribers, the stages that
    make none of them, and the rules by which a program is verified stage by
    stage. *)
From S2P Require Import Prelude Nostr Kinds Channel WorkflowTemplate WorkflowDef WorkflowStore WorkflowDoors Program IngestPolicy Envelopes.
From S2P Require Import Thread IngestRequests ModerationDoors IngestThread Ingest.

Section props.
Context {L : NostrLib} {H : HexDecode} {T : TimeRange} {U : UuidParse} {JN : JsonNum} {SL : SerdeLib JN}.

Abbreviation Run := (Trace ingest_sig) (only parsing).
Abbreviation Prog := (Program ingest_sig) (only parsing).

(** ** Writes *)

(** The requests that write an event: community, event, channel, thread row. *)
Definition stores (r : Req) : option (Uuid * Event * option Uuid * option ThreadMetadataOwned) :=
  match r with
  | InsertReactionEvent c e ch meta _ _ _ => Some (c, e, ch, meta)
  | ReplaceAddressableEvent c e ch => Some (c, e, ch, None)
  | ReplaceParameterizedEvent c e _ ch => Some (c, e, ch, None)
  | InsertEventWithThreadMetadata c e ch meta => Some (c, e, ch, meta)
  | AcceptPushLease c e _ => Some (c, e, None, None)
  | _ => None
  end.

Definition got (h : Run) (r : Req) (x : Ans r) : Prop := (Answered (S := ingest_sig) r x : Exchange ingest_sig) ∈ h.

Definition writes (x : Exchange ingest_sig) : option (Uuid * Event * option Uuid * option ThreadMetadataOwned) := stores (asked x).

(** The event that a request sends to the subscribers. *)
Definition dispatches (r : Req) : option StoredEvent :=
  match r with DispatchPersistentEvent _ s _ _ => Some s | _ => None end.

Definition calm (r : Req) : bool := match stores r, dispatches r with None, None => true | _, _ => false end.

Lemma calm_stores r : calm r = true → stores r = None.
Proof. unfold calm. by destruct (stores r). Qed.

Definition calm_at (x : Exchange ingest_sig) : bool := calm (asked x).

(** [h'] continues [h] without a write or a dispatch. *)
Definition extends (h h' : Run) : Prop := ∃ l, h' = l ++ h ∧ Forall calm_at l.

Lemma extends_refl h : extends h h.
Proof. exists []. split; [done|constructor]. Qed.
Lemma extends_trans h1 h2 h3 : extends h1 h2 → extends h2 h3 → extends h1 h3.
Proof.
  intros (l1 & -> & H1) (l2 & -> & H2). exists (l2 ++ l1). split; [by rewrite (assoc_L (++))|]. by apply Forall_app.
Qed.
Lemma extends_cons h h' r x : calm r = true → extends h h' → extends h ((Answered (S := ingest_sig) r x : Exchange ingest_sig) :: h').
Proof.
  intros Hr (l & -> & Hl). exists ((Answered (S := ingest_sig) r x : Exchange ingest_sig) :: l). split; [done|]. constructor; [|done]. unfold calm_at. cbn. by rewrite Hr.
Qed.
Lemma got_extends h h' r x : extends h h' → got h r x → got h' r x.
Proof. intros (l & -> & _) Hg. apply elem_of_app. by right. Qed.

Definition unwritten (h : Run) : Prop := Forall (λ x, writes x = None) h.
Lemma unwritten_extends h h' : extends h h' → unwritten h → unwritten h'.
Proof.
  intros (l & -> & Hl) Hh. apply Forall_app. split; [|done]. eapply Forall_impl; [exact Hl|]. intros x Hx. by apply calm_stores, Is_true_true.
Qed.

(** ** Stages *)

Definition quiet {A} (p : Prog A) : Prop := all_requests (S := ingest_sig) (λ r, calm r = true) p.

Lemma quiet_ret {A} (a : A) : quiet (mret a).
Proof. done. Qed.
Lemma quiet_ask r : calm r = true → quiet (ask r).
Proof. intros Hr. split; [exact Hr|done]. Qed.
Lemma quiet_bind {A B} (p : Prog A) (f : A → Prog B) : quiet p → (∀ a, quiet (f a)) → quiet (p ≫= f).
Proof. apply all_requests_bind. Qed.
Lemma quiet_then {E F A B} (conv : F → E) (p : Prog (result F A)) (k : A → Prog (result E B)) :
  quiet p → (∀ a, quiet (k a)) → quiet (then_ conv p k).
Proof. intros Hp Hk. apply quiet_bind; [done|]. intros [a|e]; [apply Hk|done]. Qed.
Lemma quiet_try_result {E A B} (m : result E A) (k : A → Prog (result E B)) : (∀ a, quiet (k a)) → quiet (try_result m k).
Proof. intros Hk. destruct m; [apply Hk|done]. Qed.
Lemma quiet_try_option {E A B} (m : option A) (e : E) (k : A → Prog (result E B)) : (∀ a, quiet (k a)) → quiet (try_option m e k).
Proof. intros Hk. destruct m; [apply Hk|done]. Qed.
Lemma quiet_ensure {E B} b (e : E) (k : Prog (result E B)) : quiet k → quiet (ensure b e k).
Proof. intros Hk. by destruct b. Qed.

Section stage.
Context (ok : Req → Run → Prop) (Hok : ∀ r h, calm r = true → ok r h).

(** A quiet stage: what it ends with, in a trace that goes on without a write. *)
Lemma stage_post {A} (p : Prog A) (Post : A → Run → Prop) (Q : A → Run → Prop) h :
  quiet p → wp (S := ingest_sig) (λ _ _, True) p Post h →
  (∀ a h', extends h h' → Post a h' → Q a h') → wp (S := ingest_sig) ok p Q h.
Proof.
  revert h. induction p as [a|r k IH]; intros h Hq Hp HQ; cbn in *; [by apply HQ; [apply extends_refl|]|].
  destruct Hq as [Hr Hq], Hp as [_ Hp]. split; [by apply Hok|]. intros x. apply (IH x); [apply Hq|apply Hp|].
  intros a h' He Ha. apply HQ; [|done]. eapply extends_trans; [|exact He].
  apply extends_cons; [done|apply extends_refl].
Qed.

Lemma wp_trivial {A} (p : Prog A) h : wp (S := ingest_sig) (λ _ _, True) p (λ _ _, True) h.
Proof. revert h. induction p as [a|r k IH]; intros h; cbn; [done|]. split; [done|]. intros x. apply IH. Qed.

Lemma stage_quiet {A} (p : Prog A) (Q : A → Run → Prop) h :
  quiet p → (∀ a h', extends h h' → Q a h') → wp (S := ingest_sig) ok p Q h.
Proof. intros Hq HQ. eapply stage_post; [done|apply wp_trivial|]. naive_solver. Qed.

Lemma stage_then {E F A B} (conv : F → E) (p : Prog (result F A)) (k : A → Prog (result E B))
    (Post : result F A → Run → Prop) (Q : result E B → Run → Prop) h :
  quiet p → wp (S := ingest_sig) (λ _ _, True) p Post h →
  (∀ a h', extends h h' → Post (Ok a) h' → wp (S := ingest_sig) ok (k a) Q h') →
  (∀ e h', extends h h' → Q (Err (conv e)) h') →
  wp (S := ingest_sig) ok (then_ conv p k) Q h.
Proof.
  intros Hq Hp Hk He. apply wp_then. eapply stage_post; [done|exact Hp|]. intros [a|e] h' Hx Ha; [by apply Hk|by apply He].
Qed.

End stage.
End props.


Ltac quiet_step :=
  first
    [ apply quiet_ret
    | apply quiet_ask; reflexivity
    | apply quiet_then
    | apply quiet_try_result
    | apply quiet_try_option
    | apply quiet_ensure
    | match goal with
      | |- quiet (match ?x with _ => _ end) => destruct x
      | |- quiet (if ?x then _ else _) => destruct x
      | |- quiet (let _ := _ in _) => cbv zeta
      end
    | apply quiet_bind
    | intros ?; cbv beta ].
Ltac solve_quiet := repeat quiet_step.

Section props2.
Context {L : NostrLib} {H : HexDecode} {T : TimeRange} {U : UuidParse} {JN : JsonNum} {SL : SerdeLib JN}.

Lemma quiet_admission c e a : quiet (admission c e a).
Proof. unfold admission. solve_quiet. Qed.
Lemma quiet_restriction c k a : quiet (restriction_gate c k a).
Proof. unfold restriction_gate. solve_quiet. Qed.
Lemma quiet_channel c e a : quiet (event_channel c e a).
Proof. unfold event_channel, derived_channel, derive_reaction_channel, derive_deletion_channel. solve_quiet. Qed.
Lemma quiet_row c ch : quiet (channel_row c ch).
Proof. unfold channel_row. solve_quiet. Qed.
Lemma quiet_visibility c ch row : quiet (threaded_visibility c ch row).
Proof. unfold threaded_visibility. solve_quiet. Qed.
Lemma quiet_membership c k ch a row : quiet (membership_gate c k ch a row).
Proof. unfold membership_gate, check_channel_membership. solve_quiet. Qed.
Lemma quiet_relay_admin cfg c e : quiet (handle_relay_admin_event cfg c e).
Proof.
  unfold handle_relay_admin_event, execute_relay_admin_command, set_workspace_profile, add_member_command, remove_member_command,
    change_role_command. solve_quiet.
Qed.
Lemma quiet_leave cfg c e : quiet (handle_leave cfg c e).
Proof. unfold handle_leave. solve_quiet. Qed.
Lemma quiet_moderation c e : quiet (handle_moderation_command c e).
Proof.
  unfold handle_moderation_command, handle_ban, handle_unban, handle_timeout, handle_untimeout, handle_resolve, with_target,
    authorized, insert_audit, authorize_moderation_action, target_role_of. solve_quiet.
Qed.
Lemma quiet_report c e : quiet (handle_report_event c e).
Proof. unfold handle_report_event, resolve_report_target. solve_quiet. Qed.
Lemma quiet_timestamp created : quiet (timestamp_or_now created).
Proof. unfold timestamp_or_now. solve_quiet. Qed.
Lemma quiet_ancestry c root parent created s meta : quiet (client_ancestry c root parent created s meta).
Proof. unfold client_ancestry, derive_ancestry_from_parent_tags, created_at_of. solve_quiet. Qed.
Lemma quiet_thread c e ch : quiet (thread_meta c e ch).
Proof.
  unfold thread_meta, resolve_nip10_thread_meta, load_parent. solve_quiet.
  all: first [apply quiet_timestamp | apply quiet_ancestry | solve_quiet; apply quiet_timestamp].
Qed.

Lemma quiet_in_turn l : Forall quiet l → quiet (in_turn l).
Proof. induction 1 as [|p l Hp Hl IH]; [done|]. cbn [in_turn]. apply quiet_then; [done|]. by intros. Qed.

Lemma kind_checks_quiet cfg c e ch row : Forall quiet (kind_checks cfg c e ch row).
Proof.
  unfold kind_checks, when, pure_check, component_check, validate_huddle_lifecycle_event,
    validate_edit_ownership, validate_forum_vote_target, load_target, check_metric_owner.
  repeat (apply Forall_cons; split; [solve_quiet|]). apply Forall_nil. done.
Qed.
Lemma quiet_kind_checks cfg c e ch row : quiet (in_turn (kind_checks cfg c e ch row)).
Proof. apply quiet_in_turn, kind_checks_quiet. Qed.
Lemma quiet_content_checks c e : quiet (in_turn (content_checks c e)).
Proof.
  apply quiet_in_turn. unfold content_checks, when, component_check.
  repeat (apply Forall_cons; split; [solve_quiet|]). apply Forall_nil. done.
Qed.

End props2.

(** ** Running along a stage *)

Section running.
Context {L : NostrLib}.

Abbreviation Run := (Trace ingest_sig) (only parsing).

Lemma wp_ask (ok : Req → Run → Prop) r (Q : Ans r → Run → Prop) h :
  ok r h → (∀ x, Q x ((Answered (S := ingest_sig) r x : Exchange ingest_sig) :: h)) → wp (S := ingest_sig) ok (ask r) Q h.
Proof. intros Hr HQ. split; [exact Hr|exact HQ]. Qed.

Lemma wp_ask_any r (Q : Ans r → Run → Prop) h :
  (∀ x, Q x ((Answered (S := ingest_sig) r x : Exchange ingest_sig) :: h)) → wp (S := ingest_sig) (λ _ _, True) (ask r) Q h.
Proof. by apply wp_ask. Qed.

(** What stays true while a stage runs. *)
Definition stable (P : Run → Prop) : Prop := ∀ h h', extends h h' → P h → P h'.

Lemma stable_got r x : stable (λ h, got h r x).
Proof. intros h h'. apply got_extends. Qed.
Lemma stable_const (P : Prop) : stable (λ _, P).
Proof. by intros h h' _. Qed.
Lemma stable_and (P Q : Run → Prop) : stable P → stable Q → stable (λ h, P h ∧ Q h).
Proof. intros HP HQ h h' He [??]. eauto. Qed.
Lemma stable_or (P Q : Run → Prop) : stable P → stable Q → stable (λ h, P h ∨ Q h).
Proof. intros HP HQ h h' He [?|?]; eauto. Qed.
Lemma stable_ex {X} (P : X → Run → Prop) : (∀ x, stable (P x)) → stable (λ h, ∃ x, P x h).
Proof. intros HP h h' He [x Hx]. exists x. by eapply HP. Qed.
Lemma stable_all {X} (P : X → Run → Prop) : (∀ x, stable (P x)) → stable (λ h, ∀ x, P x h).
Proof. intros HP h h' He Hx x. by eapply HP. Qed.
Lemma stable_impl (A : Prop) (P : Run → Prop) : stable P → stable (λ h, A → P h).
Proof. intros HP h h' He Ha a'. eauto. Qed.
Lemma stable_if (b : bool) (P Q : Run → Prop) : stable P → stable Q → stable (λ h, if b then P h else Q h).
Proof. by destruct b. Qed.
Lemma stable_forall (l : list (Run → Prop)) : Forall stable l → stable (λ h, Forall (λ P, P h) l).
Proof.
  intros Hl h h' He HF. rewrite Forall_forall in HF, Hl |- *. intros P HP. by eapply Hl; [| |apply HF].
Qed.

End running.

(** Runs along a stage; failures claim nothing. *)
Ltac stage_step :=
  match goal with
  | |- wp _ (mret _) _ _ => apply wp_return
  | |- wp _ (_ ≫= _) _ _ => apply wp_bind
  | |- wp _ (then_ _ _ _) _ _ => apply wp_then
  | |- wp _ (ask ?r) _ _ => apply (wp_ask_any r); let x := fresh "x" in intros x; cbn in x
  | |- wp _ (try_result ?m _) _ _ => destruct m eqn:?; cbn [try_result]
  | |- wp _ (try_option ?m _ _) _ _ => destruct m eqn:?; cbn [try_option]
  | |- wp _ (ensure ?b _ _) _ _ => destruct b eqn:?; cbn [ensure]
  | |- wp _ (match ?m with _ => _ end) _ _ => destruct m eqn:?
  | |- wp _ (let _ := _ in _) _ _ => cbv zeta
  | |- ∀ y, Err _ = Ok y → _ => intros ? [=]
  | |- Err _ = Ok _ → _ => intros [=]
  | |- match Err _ with _ => _ end => cbv beta iota
  | |- match Ok _ with _ => _ end => cbv beta iota
  end.
Ltac run_stage := repeat stage_step.
Ltac solve_extends := repeat (apply extends_cons; [reflexivity|]); apply extends_refl.
Ltac in_trace := unfold got; repeat first [apply list_elem_of_here | apply list_elem_of_further]; fail.

Ltac solve_stable :=
  repeat first
    [ apply stable_const | apply stable_got | apply stable_and | apply stable_or | apply stable_if
    | apply stable_impl | apply stable_ex; intros ? | apply stable_all; intros ? ].
