(* ===== verification/IngestProps.v ===== *)
(** * Properties of the ingest pipeline

    Whatever the database, the caches, the clock and the other components
    answer: an event is written at most once and only after every gate
    ([stored_events_passed_every_gate]), and the answer tells what was stored
    and sent ([answer_tells_what_was_stored]). *)
From S2P Require Import Prelude Nostr Kinds Channel WorkflowTemplate WorkflowDef WorkflowStore WorkflowDoors Program IngestPolicy Envelopes.
From S2P Require Import Thread IngestRequests ModerationDoors IngestThread Ingest.
From S2P Require Import IngestStages.

(** ** The gates *)

Section gates.
Context {L : NostrLib} {H : HexDecode} {T : TimeRange} {U : UuidParse} {JN : JsonNum} {SL : SerdeLib JN}.
Context (cfg : RelayConfig) (c : Uuid) (e : Event) (a : IngestAuth).

Abbreviation Run := (Trace ingest_sig) (only parsing).
Abbreviation k := (event_kind_u32 e) (only parsing).

(** Admitted at second [now]. *)
Record admitted (now : Z) (h : Run) : Prop := {
  ad_serving : got h (IsServingActive c) (Some true);
  ad_kind : (k ∉ [KIND_AUTH; KIND_MEMBER_ADDED_NOTIFICATION; KIND_MEMBER_REMOVED_NOTIFICATION]) ∧ is_relay_only_kind k = false;
  ad_transport : is_http a = true → k ≠ KIND_GIFT_WRAP ∧ k ≠ KIND_PRESENCE_UPDATE;
  ad_verified : got h (VerifyEvent e) (Some (Ok tt));
  ad_fresh : ∃ t, got h UtcNow t ∧ now = seconds t ∧ drifted MAX_TIMESTAMP_DRIFT_SECS (created_at e) now = false;
  ad_size : (Z.of_nat (String.length (content e)) ≤ 262144)%Z;
  ad_author : pubkey e = auth_pubkey a ∨ k = KIND_GIFT_WRAP;
  ad_scope : ∃ s, required_scope_for_kind k e = Ok s ∧ s ∈ auth_scopes a
}.

(** Neither banned nor timed out. *)
Definition unrestricted (h : Run) : Prop :=
  ∃ r, got h (ModerationRestrictionState c (auth_pubkey a)) (Some r) ∧ banned r = false ∧
    ∀ until, muted_until r = Some until → ∃ now, got h UtcNow now ∧ (until ≤ now)%Z.

(** The channel of the event, from its own tags or from the event it targets. *)
Definition channel_rule (ch : option Uuid) (h : Run) : Prop :=
  if is_global_only_kind k then ch = None
  else if (k =? KIND_REACTION)%Z then
    ∃ hex i s, last_e_target e = Some hex ∧ key_of_hex hex = Some i ∧ got h (GetEventById c i) (Some (Some s)) ∧ ch = Nostr.channel_id s
  else if (k =? KIND_GIFT_WRAP)%Z then ch = None
  else if (k =? KIND_DELETION)%Z then
    match first_e_target e with
    | None => ch = None
    | Some hex => ∃ i found, hex_bytes hex = Some i ∧ got h (GetEventById c i) (Some found) ∧ ch = (s ← found; Nostr.channel_id s)
    end
  else ch = extract_channel_id e.

Definition token_rule (ch : option Uuid) : Prop := ∀ ids, auth_channel_ids a = Some ids → ∃ ch0, ch = Some ch0 ∧ ch0 ∈ ids.

Definition may_read (ch : Uuid) (pk : string) (h : Run) : Prop :=
  got h (IsMemberCached c ch pk) (Some true) ∨ ∃ row, got h (GetChannel c ch) (Ok row) ∧ ch_visibility row = "open".

Definition member_rule (ch : option Uuid) (h : Run) : Prop :=
  ∀ ch0, ch = Some ch0 → skips_membership k = false → may_read ch0 (auth_pubkey a) h.

(** The row that was read. *)
Definition row_rule (ch : option Uuid) (row : option ChannelRecord) (h : Run) : Prop :=
  ∀ ch0, ch = Some ch0 → ∃ x, got h (GetChannel c ch0) x ∧ row = match x with Ok r => Some r | Err _ => None end.

Definition if_kind (b : bool) (P : Run → Prop) (h : Run) : Prop := b = true → P h.

(** The event that an edit or a vote targets. *)
Definition targets (s : StoredEvent) (h : Run) : Prop :=
  ∃ hex i, first_e_target e = Some hex ∧ hex_bytes hex = Some i ∧ got h (GetEventById c i) (Some (Some s)) ∧ same_channel e s = Ok tt.

Definition edit_rule (h : Run) : Prop :=
  ∃ s, targets s h ∧
    let author := effective_message_author (event s) (relay_pubkey cfg) in
    (author = pubkey e ∧ ∀ ch, Nostr.channel_id s = Some ch → may_read ch (pubkey e) h) ∨
    (author ≠ pubkey e ∧ got h (IsAgentOwner c author (pubkey e)) (Some true)).

Definition huddle_rule (h : Run) : Prop :=
  ∃ backing r, huddle_backing_channel_id e = Ok backing ∧ got h (GetChannel c backing) (Ok r) ∧
    if (k =? KIND_HUDDLE_STARTED)%Z then
      ch_created_by r = pubkey e ∧ ch_type r = "stream" ∧ ch_visibility r = "private" ∧
      ch_ttl_seconds r = Some (expected_huddle_backing_ttl (ephemeral_ttl_override cfg)) ∧ ch_archived_at r = None
    else
      (ch_created_by r = pubkey e ∨ pubkey e = relay_pubkey cfg) ∧
      ∃ parent, extract_channel_id e = Some parent ∧ got h (HuddleStartedLinkExists c parent backing (ch_created_by r)) (Some true).

(** What each check of [kind_checks] leaves behind, in its order. *)
Definition kind_rules (ch : option Uuid) (row : option ChannelRecord) : list (Run → Prop) :=
  [ if_kind ((k =? KIND_HUDDLE_STARTED) || (k =? KIND_HUDDLE_ENDED))%Z huddle_rule;
    if_kind (is_admin_kind k) (λ h, got h (ValidateAdminEvent c k e) (Ok tt));
    if_kind (is_identity_archive_request_kind k) (λ h, got h (HandleIdentityArchive c e) (Ok tt));
    if_kind (k =? KIND_DELETION)%Z (λ h, got h (ValidateStandardDeletion c e) (Ok tt));
    if_kind (bool_decide (is_Some ch)) (λ _, is_unarchive e = true ∨ is_archived row = false);
    if_kind ((k =? KIND_NIP29_DELETE_EVENT) || (k =? KIND_DELETION))%Z (λ _, count_e_tags e + count_tags "a" e = 1);
    if_kind (k =? KIND_STREAM_MESSAGE_EDIT)%Z edit_rule;
    if_kind (k =? KIND_FORUM_VOTE)%Z
      (λ h, ∃ s, targets s h ∧ (event_kind_u32 (event s) = KIND_FORUM_POST ∨ event_kind_u32 (event s) = KIND_FORUM_COMMENT));
    if_kind (k =? KIND_STREAM_MESSAGE_DIFF)%Z (λ _, validate_diff_event e = Ok tt);
    if_kind (k =? KIND_AGENT_ENGRAM)%Z (λ _, validate_engram_envelope e = Ok tt);
    if_kind (k =? KIND_AGENT_TURN_METRIC)%Z (λ _, validate_agent_turn_metric_envelope e = Ok tt);
    if_kind (k =? KIND_AGENT_TURN_METRIC)%Z (λ h, ∃ hex owner, find_map (slice_value "p") (tags e) = Some hex ∧
      hex_bytes hex = Some owner ∧ got h (IsAgentOwner c (pubkey e) owner) (Some true));
    if_kind (k =? KIND_EVENT_REMINDER)%Z
      (λ h, ∃ t, got h UtcNow t ∧ validate_event_reminder (max_not_before_delta cfg) (unix_seconds t) e = Ok tt);
    if_kind (k =? KIND_DEVICE_SESSION)%Z (λ h, got h (ValidateDeviceSession e) (Ok tt));
    if_kind (k =? KIND_PERSONA)%Z (λ _, validate_persona_envelope e = Ok tt);
    if_kind (k =? KIND_TEAM_CATALOG)%Z (λ _, validate_team_catalog_envelope e = Ok tt);
    if_kind (k =? KIND_PROJECT)%Z (λ _, validate_project_envelope e = Ok tt) ].

(** The thread row is the one that the tags of the event name: a parent that was
    read in the same channel, the named root, a bounded depth. *)
Definition meta_rule (ch : option Uuid) (meta : option ThreadMetadataOwned) (h : Run) : Prop :=
  ∀ m, meta = Some m →
    event_id m = Nostr.id e ∧ ch = Some (tm_channel_id m) ∧ (depth m ≤ MAX_THREAD_DEPTH)%Z ∧
    ∃ root_hex parent_hex s,
      Thread.resolve (parse_thread_markers (tags e)) = Some (root_hex, parent_hex) ∧
      hex_bytes root_hex = Some (root_event_id m) ∧ hex_bytes parent_hex = Some (parent_event_id m) ∧
      got h (GetEventById c (parent_event_id m)) (Some (Some s)) ∧ Nostr.channel_id s = Some (tm_channel_id m).

(** Everything that holds when the event is written. *)
Record passed_gates (ch : option Uuid) (meta : option ThreadMetadataOwned) (h : Run) : Prop := {
  pg_admitted : ∃ now, admitted now h;
  pg_kind : is_command_kind k = false ∧ k ≠ KIND_PRODUCT_FEEDBACK ∧ k ≠ KIND_REPORT ∧ is_moderation_command_kind k = false ∧
            is_relay_admin_kind k = false ∧ k ≠ KIND_NIP43_LEAVE_REQUEST;
  pg_unrestricted : unrestricted h;
  pg_channel : channel_rule ch h;
  pg_scoped : requires_h_channel_scope k = true → is_Some ch;
  pg_token : token_rule ch;
  pg_member : member_rule ch h;
  pg_rules : ∃ row, row_rule ch row h ∧ Forall (λ P, P h) (kind_rules ch row);
  pg_meta : meta_rule ch meta h
}.

(** A write is in order: it is this event, nothing was written before, and all
    gates were passed. *)
Definition write_ok (r : Req) (h : Run) : Prop :=
  match stores r with
  | None => True
  | Some (c', e', ch, meta) => c' = c ∧ e' = e ∧ unwritten h ∧ passed_gates ch meta h
  end.

Lemma write_ok_none r h : stores r = None → write_ok r h.
Proof. intros Hr. unfold write_ok. by rewrite Hr. Qed.
Lemma write_ok_quiet r h : calm r = true → write_ok r h.
Proof. intros Hr. by apply write_ok_none, calm_stores. Qed.

(** *** Single stages *)

Abbreviation wpt := (wp (S := ingest_sig) (λ _ _, True)) (only parsing).

Lemma map_err_ok {E F A} (f : E → F) (m : result E A) x : map_err f m = Ok x → m = Ok x.
Proof. destruct m; [by intros [= ->]|discriminate]. Qed.

Lemma check_kind_ok x : check_kind k a = Ok x →
  ((k ∉ [KIND_AUTH; KIND_MEMBER_ADDED_NOTIFICATION; KIND_MEMBER_REMOVED_NOTIFICATION]) ∧ is_relay_only_kind k = false) ∧
  (is_http a = true → k ≠ KIND_GIFT_WRAP ∧ k ≠ KIND_PRESENCE_UPDATE).
Proof.
  unfold check_kind. intros Hc.
  destruct (Z.eqb_spec k KIND_AUTH) as [|Hauth]; [done|].
  destruct (Z.eqb_spec k KIND_MEMBER_ADDED_NOTIFICATION) as [|Hadd]; [done|].
  destruct (Z.eqb_spec k KIND_MEMBER_REMOVED_NOTIFICATION) as [|Hrem]; [done|]. cbn [orb] in Hc.
  assert (Hrelay : is_relay_only_kind k = false).
  { destruct (_ && _) in Hc; [done|]. by destruct (is_relay_only_kind k). }
  split; [split; [by rewrite !not_elem_of_cons, elem_of_nil; naive_solver|done]|].
  intros Hh. rewrite Hh in Hc. cbn [andb] in Hc.
  by destruct (Z.eqb_spec k KIND_GIFT_WRAP), (Z.eqb_spec k KIND_PRESENCE_UPDATE).
Qed.

Lemma check_author_ok x : check_author e a = Ok x →
  (pubkey e = auth_pubkey a ∨ k = KIND_GIFT_WRAP) ∧ ∃ s, required_scope_for_kind k e = Ok s ∧ s ∈ auth_scopes a.
Proof.
  unfold check_author. intros Hc.
  assert (Hp : pubkey e = auth_pubkey a ∨ k = KIND_GIFT_WRAP).
  { destruct (String.eqb_spec (pubkey e) (auth_pubkey a)); [by left|].
    destruct (Z.eqb_spec k KIND_GIFT_WRAP); [by right|]. done. }
  split; [done|]. clear Hp. destruct (_ && _); [done|]. destruct (required_scope_for_kind k e) as [s|] eqn:Es; [|done].
  do 2 (destruct (_ && _); [done|]). destruct (bool_decide _) eqn:Eb; [|done]. apply bool_decide_eq_true in Eb. by exists s.
Qed.

Lemma admission_post h : wpt (admission c e a) (λ m h', ∀ now, m = Ok now → admitted now h') h.
Proof.
  unfold admission. run_stage. intros now [= <-].
  match goal with H : map_serving_fence_state ?x = _ |- _ => destruct x as [[]|]; [|discriminate..] end.
  match goal with H : map_err _ _ = _ |- _ => apply map_err_ok in H end. simplify_eq.
  match goal with H : check_kind _ _ = _ |- _ => apply check_kind_ok in H as [??] end.
  match goal with H : check_author _ _ = _ |- _ => apply check_author_ok in H as [??] end.
  repeat match goal with u : () |- _ => destruct u end.
  split; [in_trace|done|done|in_trace|eexists; split_and!; [in_trace|done|]| |done|done].
  - by apply negb_true_iff.
  - match goal with H : negb (_ <? _)%Z = true |- _ => apply negb_true_iff, Z.ltb_ge in H; exact H end.
Qed.

Lemma restriction_post h :
  is_moderation_command_kind k = false → is_relay_admin_kind k = false →
  wpt (restriction_gate c k a) (λ m h', ∀ x, m = Ok x → unrestricted h') h.
Proof.
  intros Hm Ha. unfold restriction_gate. rewrite Hm, Ha. cbn [orb].
  run_stage; intros ? _; (eexists; split; [subst; in_trace|split; [done|]]); intros t Hu; simplify_eq.
  eexists. split; [in_trace|]. by apply Z.ltb_ge, negb_true_iff.
Qed.

Lemma token_rule_ok ch x : check_token a ch = Ok x → token_rule ch.
Proof.
  unfold check_token, token_rule, check_token_channel_access. intros Hc ids Hids. rewrite Hids in Hc.
  destruct ch as [ch|]; cbn in Hc.
  - destruct (bool_decide_reflect (ch ∈ ids)); [by exists ch|done].
  - done.
Qed.

Lemma derived_channel_post h :
  is_global_only_kind k = false → wpt (derived_channel c e) (λ m h', ∀ ch, m = Ok ch → channel_rule ch h') h.
Proof.
  intros Hg. unfold derived_channel, derive_reaction_channel, derive_deletion_channel, channel_rule. rewrite Hg. cbv zeta.
  run_stage; intros ? [= <-]; subst; try done.
  - eexists _, _, _. split_and!; [done|done|in_trace|done].
  - eexists _, _. split_and!; [done|in_trace|done].
Qed.

(** The channel that was derived counts for the kinds that have one. *)
Lemma wp_with_kind h :
  wpt (derived_channel c e) (λ m h', ∀ ch, m = Ok ch → channel_rule (if is_global_only_kind k then None else ch) h') h.
Proof.
  destruct (is_global_only_kind k) eqn:Eg; [|by apply derived_channel_post].
  eapply wp_mono; [|apply wp_trivial]. intros m h' _ ch _. unfold channel_rule. by rewrite Eg.
Qed.

Lemma channel_post h :
  wpt (event_channel c e a) (λ m h', ∀ ch, m = Ok ch →
    channel_rule ch h' ∧ (requires_h_channel_scope k = true → is_Some ch) ∧ token_rule ch) h.
Proof.
  unfold event_channel. apply wp_then. eapply wp_mono; [|apply (wp_with_kind h)].
  intros [derived|er] h'; [|by intros _ ? [=]]. intros Hd. specialize (Hd _ eq_refl).
  revert Hd. generalize (if is_global_only_kind k then None else derived). intros ch Hd.
  run_stage. intros ? [= <-]. split; [done|]. split; [|by eapply token_rule_ok].
  intros Hr. match goal with H : negb _ = true |- _ => rewrite Hr in H; by destruct ch end.
Qed.

Lemma may_read_stable ch pk : stable (may_read ch pk).
Proof. unfold may_read. solve_stable. Qed.

Lemma row_post ch h : wpt (channel_row c ch) (λ row h', row_rule ch row h') h.
Proof.
  unfold channel_row. run_stage; intros ch0 [= <-]. eexists. split; [in_trace|done].
Qed.

(** A channel that was read with an open row. *)
Lemma membership_post ch row h :
  row_rule ch row h → wpt (membership_gate c k ch a row) (λ m h', ∀ x, m = Ok x → member_rule ch h') h.
Proof.
  intros Hrow. unfold membership_gate, check_channel_membership, member_rule.
  destruct ch as [ch|]; [|by run_stage]. destruct (skips_membership k); [by run_stage|].
  destruct (Hrow _ eq_refl) as (found & Hf & Hr).
  run_stage; intros ? _ ch0 [= <-] _; subst; unfold may_read.
  - left. in_trace.
  - right. destruct found as [r|]; [|done]. simplify_eq. exists r. split; [by apply list_elem_of_further|]. by apply String.eqb_eq.
  - right. match goal with x : result DbLookupError _ |- _ => destruct x as [r|]; [|done] end.
    exists r. split; [in_trace|]. by apply String.eqb_eq.
Qed.

(** *** The checks of kinds *)

Lemma target_post missing not_found h :
  wpt (load_target c e missing not_found) (λ m h', ∀ s, m = Ok s → same_channel e s = Ok tt → targets s h') h.
Proof.
  unfold load_target, targets. run_stage; intros ? [= <-] ?; subst. eexists _, _. split_and!; [done|done|in_trace|done].
Qed.

Lemma targets_stable s : stable (targets s).
Proof. unfold targets. solve_stable. Qed.

Lemma edit_post h : wpt (validate_edit_ownership cfg c e) (λ m h', m = Ok tt → edit_rule h') h.
Proof.
  unfold validate_edit_ownership. apply wp_then. eapply wp_mono; [|apply target_post].
  intros [s|er] h'; [|by intros _ [=]]. intros Ht. specialize (Ht _ eq_refl). unfold edit_rule.
  run_stage; intros _; subst;
    (exists s; split; [eapply targets_stable; [|apply Ht; repeat f_equal; by destruct a0]; solve_extends|]).
  - left. split; [by apply String.eqb_eq|]. intros ch Hch. simplify_eq. left. in_trace.
  - left. split; [by apply String.eqb_eq|]. intros ch Hch. simplify_eq. right.
    match goal with x : result DbLookupError _ |- _ => destruct x as [r|]; [|done] end.
    exists r. split; [in_trace|]. by apply String.eqb_eq.
  - left. split; [by apply String.eqb_eq|]. naive_solver.
  - right. split; [by apply String.eqb_neq|in_trace].
Qed.

Lemma vote_post h : wpt (validate_forum_vote_target c e) (λ m h', m = Ok tt →
  ∃ s, targets s h' ∧ (event_kind_u32 (event s) = KIND_FORUM_POST ∨ event_kind_u32 (event s) = KIND_FORUM_COMMENT)) h.
Proof.
  unfold validate_forum_vote_target. apply wp_then. eapply wp_mono; [|apply target_post].
  intros [s|er] h'; [|by intros _ [=]]. intros Ht. specialize (Ht _ eq_refl). run_stage. intros Hs. exists s. split; [by apply Ht|].
  match goal with H : _ || _ = true |- _ => apply orb_true_iff in H as [?|?]; [left|right]; by apply Z.eqb_eq end.
Qed.

Lemma huddle_post h :
  wpt (validate_huddle_lifecycle_event cfg c e k)
    (λ m h', m = Ok tt → if_kind ((k =? KIND_HUDDLE_STARTED) || (k =? KIND_HUDDLE_ENDED))%Z huddle_rule h') h.
Proof.
  unfold validate_huddle_lifecycle_event. rewrite <-negb_orb. destruct (_ || _)%bool eqn:Ek; cbn [negb]; [|by run_stage].
  unfold if_kind, huddle_rule. run_stage; intros _ _; match goal with H : map_err _ _ = _ |- _ => apply map_err_ok in H end; subst;
    (eexists _, _; split; [done|split; [in_trace|]]).
  - repeat match goal with H : _ && _ = true |- _ => apply andb_true_iff in H as [??] end.
    split_and!; first [by apply String.eqb_eq|by eapply bool_decide_eq_true].
  - split; [|eexists; split; [done|in_trace]].
    match goal with H : _ || _ = true |- _ => apply orb_true_iff in H as [?|?]; [left|right]; by apply String.eqb_eq end.
Qed.

Lemma metric_owner_post h :
  wpt (check_metric_owner c e) (λ m h', m = Ok tt → ∃ hex owner, find_map (slice_value "p") (tags e) = Some hex ∧
    hex_bytes hex = Some owner ∧ got h' (IsAgentOwner c (pubkey e) owner) (Some true)) h.
Proof. unfold check_metric_owner. run_stage; intros _; subst. eexists _, _. split_and!; [done|done|in_trace]. Qed.

Lemma when_post b p (P : Run → Prop) h :
  wpt p (λ m h', m = Ok tt → P h') h → wpt (when b p) (λ m h', m = Ok tt → if_kind b P h') h.
Proof.
  intros Hp. unfold when, if_kind. destruct b; [|by apply wp_return].
  eapply wp_mono; [|exact Hp]. cbn. auto.
Qed.

Lemma pure_post (m : result string unit) (P : Run → Prop) h :
  (m = Ok tt → P h) → wpt (pure_check m) (λ x h', x = Ok tt → P h') h.
Proof. intros HP. apply wp_return. intros Hm. by apply map_err_ok, HP in Hm. Qed.

Lemma component_post (p : Program ingest_sig (result string unit)) (P : Run → Prop) h :
  wpt p (λ m h', m = Ok tt → P h') h → wpt (component_check p) (λ x h', x = Ok tt → P h') h.
Proof.
  intros Hp. apply wp_bind. eapply wp_mono; [|exact Hp]. intros m h' HP. apply wp_return. intros Hm. by apply map_err_ok, HP in Hm.
Qed.

(** Checks made in turn leave all they establish behind. *)
Lemma in_turn_post l rules h :
  Forall quiet l → Forall stable rules → Forall2 (λ p P, ∀ h, wpt p (λ m h', m = Ok tt → P h') h) l rules →
  wpt (in_turn l) (λ m h', m = Ok tt → Forall (λ P, P h') rules) h.
Proof.
  intros Hq Hs HF. revert h Hq Hs. induction HF as [|p P l rules Hp HF IH]; intros h Hq Hs; [by apply wp_return|].
  apply Forall_cons in Hq as [Hqp Hq], Hs as [HsP Hs]. cbn [in_turn].
  eapply stage_then; [done|done|apply Hp| |done]. intros [] h' _ HP. specialize (HP eq_refl).
  eapply stage_post; [done|by apply quiet_in_turn|by apply IH|]. intros m h'' He HF' Hm.
  constructor; [by eapply HsP|by apply HF'].
Qed.

Lemma kind_rules_stable ch row : Forall stable (kind_rules ch row).
Proof.
  unfold kind_rules, if_kind, edit_rule, huddle_rule, targets, may_read. cbv zeta.
  repeat (apply Forall_cons; split; [solve_stable|]). by apply Forall_nil.
Qed.

Lemma kind_checks_post ch row h :
  wpt (in_turn (kind_checks cfg c e ch row)) (λ m h', m = Ok tt → Forall (λ P, P h') (kind_rules ch row)) h.
Proof.
  apply in_turn_post; [apply kind_checks_quiet|apply kind_rules_stable|]. unfold kind_checks, kind_rules. cbv zeta.
  repeat first
    [ apply Forall2_nil_2
    | apply Forall2_cons; split;
      [intros h0; first
        [ apply huddle_post
        | apply when_post; first
          [ apply metric_owner_post
          | apply component_post; first [apply edit_post|apply vote_post|run_stage; intros ->; in_trace]
          | apply pure_post; intros ?; done ]
        | idtac ]|] ].
  - apply when_post, pure_post. destruct (is_unarchive e); [by left|]. destruct (is_archived row); [done|by right].
  - apply when_post, pure_post. by destruct (Nat.eqb_spec (count_e_tags e + count_tags "a" e) 1).
  - apply when_post. run_stage. intros Hm%map_err_ok. eexists. split; [in_trace|done].
  - apply when_post, pure_post. apply map_err_ok.
Qed.

(** *** The thread row *)

Lemma load_parent_post ch parent h :
  wpt (load_parent c ch parent) (λ m h', ∀ s meta, m = Ok (s, meta) →
    got h' (GetEventById c parent) (Some (Some s)) ∧ Nostr.channel_id s = Some ch) h.
Proof.
  unfold load_parent. run_stage; intros ?? [= <- <-]; subst. split; [in_trace|].
  match goal with H : negb (_ =? _)%N = false |- _ => apply negb_false_iff, N.eqb_eq in H; by subst end.
Qed.

Lemma client_ancestry_post root parent created s meta h :
  wpt (client_ancestry c root parent created s meta)
    (λ m h', ∀ r t d, m = Ok (r, t, d) → r = root ∧ (d ≤ MAX_THREAD_DEPTH)%Z) h.
Proof.
  unfold client_ancestry, derive_ancestry_from_parent_tags, created_at_of. run_stage; intros ??? [= <- <- <-].
  all: split; [by symmetry; apply String.eqb_eq|]; first [by apply Z.leb_le|unfold MAX_THREAD_DEPTH; lia].
Qed.

Lemma thread_post ch h : wpt (thread_meta c e ch) (λ m h', ∀ meta, m = Ok meta → meta_rule ch meta h') h.
Proof.
  unfold thread_meta. destruct (requires_h_channel_scope k); [|apply wp_return; by intros ? [= <-] ?].
  destruct ch as [ch|]; [|apply wp_return; by intros ? [= <-] ?].
  apply wp_then. unfold resolve_nip10_thread_meta.
  destruct (Thread.resolve _) as [[root_hex parent_hex]|] eqn:Er; [|by run_stage; intros ? [= <-] ?].
  stage_step; [|by run_stage]. rename s into parent. cbn [try_option]. apply wp_then.
  eapply wp_mono; [|apply load_parent_post]. intros [[s row]|er] h1; [|by intros _; run_stage].
  intros Hp. destruct (Hp _ _ eq_refl) as [Hg Hch]. clear Hp.
  apply wp_bind. eapply stage_quiet; [done|apply quiet_timestamp|]. intros created h2 He2. stage_step; [|by run_stage].
  stage_step; [|by run_stage]. apply wp_then.
  eapply stage_post; [done|apply quiet_ancestry|apply client_ancestry_post|].
  intros [[[r t] d]|er] h3 He3 Ha; [|by run_stage]. destruct (Ha _ _ _ eq_refl) as [-> Hd]. apply wp_bind.
  eapply stage_quiet; [done|apply quiet_timestamp|]. intros own h4 He4. apply wp_return. apply wp_return.
  intros ? [= <-] m [= <-]. cbn. split_and!; [done..|]. exists root_hex, parent_hex, s. split_and!; [done..| |done].
  do 3 (eapply got_extends; [eassumption|]). done.
Qed.

(** *** The whole pipeline *)

Lemma admitted_stable now : stable (admitted now).
Proof. intros h h' He []. split; try done; try (by eapply got_extends). destruct ad_fresh0 as (t & Ht & ?). exists t. eauto using got_extends. Qed.
Lemma unrestricted_stable : stable unrestricted.
Proof. unfold unrestricted. solve_stable. Qed.
Lemma channel_rule_stable ch : stable (channel_rule ch).
Proof. unfold channel_rule. solve_stable. destruct (first_e_target e); solve_stable. Qed.
Lemma member_rule_stable ch : stable (member_rule ch).
Proof. unfold member_rule, may_read. solve_stable. Qed.
Lemma row_rule_stable ch row : stable (row_rule ch row).
Proof. unfold row_rule. solve_stable. Qed.
Lemma meta_rule_stable ch meta : stable (meta_rule ch meta).
Proof. unfold meta_rule. solve_stable. Qed.

Lemma passed_gates_stable ch meta : stable (passed_gates ch meta).
Proof.
  intros h h' He [[now Hn] Hk Hu Hc Hs Ht Hm (row & Hr & HF) Hmeta]. split; try done.
  - exists now. by eapply admitted_stable.
  - by eapply unrestricted_stable.
  - by eapply channel_rule_stable.
  - by eapply member_rule_stable.
  - exists row. split; [by eapply row_rule_stable|]. eapply stable_forall; [apply kind_rules_stable|done|done].
  - by eapply meta_rule_stable.
Qed.

Lemma passed_gates_meta ch meta h : passed_gates ch None h → meta_rule ch meta h → passed_gates ch meta h.
Proof. intros [] Hm. by split. Qed.

Abbreviation wpw p := (wp (S := ingest_sig) write_ok p (λ _ _, True)) (only parsing).

Lemma tail_quiet {A} (p : Program ingest_sig A) h : quiet p → wpw p h.
Proof. intros Hq. by apply (stage_quiet write_ok write_ok_quiet). Qed.

Lemma then_quiet {A B} (conv : IngestError → IngestError) (p : Program ingest_sig (result IngestError A))
    (f : A → Program ingest_sig (result IngestError B)) (Post : result IngestError A → Run → Prop) h :
  quiet p → wpt p Post h → (∀ x h', extends h h' → Post (Ok x) h' → wpw (f x) h') → wpw (then_ conv p f) h.
Proof. intros Hq Hp Hf. eapply stage_then; [apply write_ok_quiet|exact Hq|exact Hp|exact Hf|done]. Qed.

Lemma push_lease_global : is_global_only_kind KIND_PUSH_LEASE = true.
Proof. reflexivity. Qed.

(** A write, and then nothing more of this kind. *)
Lemma write_then {A} r (f : Ans r → Program ingest_sig A) ch meta h :
  stores r = Some (c, e, ch, meta) → unwritten h → passed_gates ch meta h → (∀ x h', wpw (f x) h') → wpw (ask r ≫= f) h.
Proof.
  intros Hr Hu Hp Hf. apply wp_bind. split; [|intros x; cbn].
  - unfold write_ok. by rewrite Hr.
  - apply Hf.
Qed.

Ltac run_tail :=
  repeat first
    [ done
    | match goal with
      | |- wp _ (_ ≫= _) _ _ => apply wp_bind
      | |- wp _ (ask ?r) _ _ => apply (wp_ask _ r); [first [exact I|by apply write_ok_none]|intros ?]
      | |- wp _ (mret _) _ _ => apply wp_return
      | |- wp _ (match ?x with _ => _ end) _ _ => destruct x
      | |- wp _ (try_result ?x _) _ _ => destruct x; cbn [try_result]
      | |- wp _ (try_option ?x _ _) _ _ => destruct x; cbn [try_option]
      end
    | progress cbn beta ].

Lemma store_reaction_ok ch meta vis h :
  unwritten h → passed_gates ch meta h → wpw (store_reaction cfg c e ch meta vis) h.
Proof.
  intros Hu Hp. unfold store_reaction. destruct (last_e_target e) as [hex|]; [cbn [try_option]|done].
  destruct (hex_bytes hex) as [i|]; [cbn [try_option]|done]. cbv zeta.
  destruct (map_err _ _) as [[]|]; [cbn [try_result]|done].
  eapply write_then; [done|done|done|]. intros x h'. run_tail.
Qed.

Lemma after_store_ok meta vis s b h : wpw (after_store c e meta vis s b) h.
Proof. unfold after_store. run_tail. Qed.

Lemma store_rest_ok ch meta pre vis h :
  unwritten h → passed_gates ch None h → passed_gates ch meta h →
  wpw (then_ (λ m, m) (store_event c e ch meta pre) (λ '(stored, was_inserted), after_store c e meta vis stored was_inserted)) h.
Proof.
  intros Hu Hp0 Hp. apply wp_then. eapply wp_mono with (Q := λ _ _, True).
  { intros [[s b]|er] h' _; [apply after_store_ok|done]. }
  unfold store_event. destruct (is_replaceable k); [|destruct (is_parameterized_replaceable k)].
  - eapply write_then; [done|done|done|]. intros x h'. run_tail.
  - cbv zeta. destruct (_ <? _)%Z; [done|]. cbn [negb ensure]. eapply write_then; [done|done|done|]. intros x h'. run_tail.
  - unfold insert_or_compensate. eapply write_then; [done|done|done|]. intros x h'. run_tail.
Qed.

Lemma write_event_ok now ch row vis pre h :
  unwritten h → passed_gates ch None h → wpw (write_event cfg c e now ch row vis pre) h.
Proof.
  intros Hu Hp. unfold write_event. destruct (check_join e ch row) as [[]|er]; [cbn [try_result]|done].
  destruct (Z.eqb_spec k KIND_PUSH_LEASE) as [Hk|Hk].
  { assert (ch = None) as ->. { pose proof (pg_channel _ _ _ Hp) as Hc. unfold channel_rule in Hc. by rewrite Hk in Hc. }
    unfold accept_push_lease. eapply write_then; [done|done|done|]. intros x h'. run_tail. }
  eapply then_quiet; [apply quiet_content_checks|apply wp_trivial|]. intros _ h1 He1 _.
  eapply then_quiet; [apply quiet_thread|apply thread_post|]. intros meta h2 He2 Hm. specialize (Hm _ eq_refl).
  assert (Hp2 : passed_gates ch meta h2).
  { apply passed_gates_meta; [|done]. eapply passed_gates_stable; [|exact Hp]. by eapply extends_trans. }
  assert (Hp2' : passed_gates ch None h2) by (eapply passed_gates_stable; [|exact Hp]; by eapply extends_trans).
  assert (Hu2 : unwritten h2) by (eapply unwritten_extends; [|exact Hu]; by eapply extends_trans).
  clear Hu Hp He1 He2 Hm h h1. destruct (check_content e) as [[]|er]; [cbn [try_result]|done].
  destruct (k =? KIND_REACTION)%Z; [by apply store_reaction_ok|by apply store_rest_ok].
Qed.

Lemma create_group_ok ch (f : option Uuid → Program ingest_sig (result IngestError IngestResult)) h :
  (∀ pre h', extends h h' → wpw (f pre) h') → wpw (create_group cfg c e ch f) h.
Proof.
  intros Hf. unfold create_group. destruct (negb _); [apply Hf, extends_refl|]. cbv zeta.
  destruct (bool_decide _); [done|]. cbn [negb ensure].
  destruct (map_err _ (visibility_from_str _)) as [vis|]; [cbn [try_result]|done].
  destruct (map_err _ (channel_type_from_str _)) as [ty|]; [cbn [try_result]|done].
  destruct ch as [ch|]; [|apply Hf, extends_refl].
  apply wp_bind. split; [by apply write_ok_quiet|]. intros [[]|]; [|done..]. apply Hf. solve_extends.
Qed.

Lemma place_event_ok now h :
  unwritten h → admitted now h → (is_relay_admin_kind k = false → unrestricted h) →
  is_command_kind k = false → k ≠ KIND_PRODUCT_FEEDBACK → k ≠ KIND_REPORT → is_moderation_command_kind k = false →
  wpw (place_event cfg c e a now) h.
Proof.
  intros Hu Ha Hr Hk1 Hk2 Hk3 Hk4. unfold place_event.
  eapply then_quiet; [apply quiet_channel|apply channel_post|]. intros ch h1 He1 Hc.
  destruct (Hc _ eq_refl) as (Hch & Hsc & Htok). clear Hc.
  apply wp_bind. eapply stage_post; [apply write_ok_quiet|apply quiet_row|apply row_post|]. intros row h2 He2 Hrow.
  apply wp_bind. eapply stage_quiet; [apply write_ok_quiet|apply quiet_visibility|]. intros vis h3 He3.
  eapply then_quiet; [apply quiet_membership|apply membership_post; by eapply row_rule_stable|]. intros [] h4 He4 Hmem.
  destruct (is_relay_admin_kind k) eqn:Hk5; [apply tail_quiet; unfold executed; apply quiet_then; [apply quiet_relay_admin|done]|].
  destruct (Z.eqb_spec k KIND_NIP43_LEAVE_REQUEST) as [|Hk6]; [apply tail_quiet, quiet_leave|].
  eapply then_quiet; [apply quiet_kind_checks|apply kind_checks_post|]. intros [] h5 He5 Hrules.
  apply create_group_ok. intros pre h6 He6.
  assert (E35 : extends h2 h6) by eauto using extends_trans.
  assert (E15 : extends h1 h6) by eauto using extends_trans.
  assert (E05 : extends h h6) by eauto using extends_trans.
  apply write_event_ok; [eapply unwritten_extends; [exact E05|exact Hu]|]. split; try done.
  - exists now. eapply admitted_stable; [exact E05|exact Ha].
  - eapply unrestricted_stable; [exact E05|by apply Hr].
  - eapply channel_rule_stable; [exact E15|exact Hch].
  - eapply member_rule_stable; [eapply extends_trans; [exact He5|exact He6]|by eapply Hmem].
  - exists row. split; [eapply row_rule_stable; [exact E35|exact Hrow]|]. eapply stable_forall; [apply kind_rules_stable|exact He6|by apply Hrules].
Qed.

Lemma ingest_ok : wpw (ingest_event_inner cfg c e a) [].
Proof.
  unfold ingest_event_inner. eapply then_quiet; [apply quiet_admission|apply admission_post|]. intros now h1 He1 Ha.
  specialize (Ha _ eq_refl).
  assert (Hu1 : unwritten h1) by (eapply unwritten_extends; [exact He1|by constructor]).
  destruct (is_command_kind k) eqn:Hk1; [apply tail_quiet, quiet_ask; reflexivity|].
  destruct (Z.eqb_spec k KIND_PRODUCT_FEEDBACK) as [|Hk2]; [apply tail_quiet; unfold executed; solve_quiet|].
  destruct (Z.eqb_spec k KIND_REPORT) as [|Hk3]; [apply tail_quiet; unfold executed; apply quiet_then; [apply quiet_report|done]|].
  destruct (is_moderation_command_kind k) eqn:Hk4;
    [apply tail_quiet; unfold executed; apply quiet_then; [apply quiet_moderation|done]|].
  eapply then_quiet with (Post := λ m h', is_relay_admin_kind k = false → ∀ x, m = Ok x → unrestricted h');
    [apply quiet_restriction| |].
  - destruct (is_relay_admin_kind k) eqn:Hk5; [eapply wp_mono; [|apply wp_trivial]; done|].
    eapply wp_mono; [|by apply restriction_post]. auto.
  - intros x h2 He2 Hr. apply place_event_ok; try done; [by eapply unwritten_extends|by eapply admitted_stable|naive_solver].
Qed.

(** C16: Whatever the database, the caches, the clock and the other components answer, a request
    that writes an event writes the event that was submitted, to the community it was submitted
    to, it is the first write, and all gates were passed before. The community is served; the
    kind may be submitted over this transport; the signature was verified; the drift check of
    the code took the time (within 15 minutes of the clock, or, by wrap-around, 2^63 seconds
    after it); the session holds the scope of the kind and is neither banned nor timed out; the
    author is the session, except for gift wraps. The channel is the one that the tags name, for
    a reaction or a deletion that of the event it targets, none for global kinds and gift wraps;
    a token restricted to channels covers it; the session is a member of it or it is open,
    except for join requests, group creations, message edits, metadata edits and the two NIP-29
    deletions, which have checks of their own. Every check of the kind succeeded, and a thread
    row is the one the tags name, under a parent that was read in the same channel, at a depth
    of at most 100. *)
Theorem stored_events_passed_every_gate (env : Answers ingest_sig) :
  let '(_, h) := run_program env (ingest_event_inner cfg c e a) [] in in_order (S := ingest_sig) write_ok h.
Proof.
  pose proof (wp_sound (S := ingest_sig) write_ok (ingest_event_inner cfg c e a) (λ _ _, True) env [] I ingest_ok) as Hs.
  destruct (run_program _ _ _) as [res h]. apply Hs.
Qed.

(** ** The answer *)

(** The event that an exchange stored anew. *)
Definition fresh (x : Exchange ingest_sig) : option StoredEvent :=
  match x with Answered r y =>
  match r return Ans r → option StoredEvent with
  | InsertReactionEvent _ _ _ _ _ _ _ => λ y, match y with Some (InsertedReaction s true) => Some s | _ => None end
  | ReplaceAddressableEvent _ _ _ => λ y, match y with Some (s, true) => Some s | _ => None end
  | ReplaceParameterizedEvent _ _ _ _ => λ y, match y with Some (s, true) => Some s | _ => None end
  | InsertEventWithThreadMetadata _ _ _ _ => λ y, match y with Ok (s, true) => Some s | _ => None end
  | _ => λ _, None
  end y end.
(** The event of a reaction that was already stored, while its reaction row was written: the reaction
    had been removed and is active again. *)
Definition revive (x : Exchange ingest_sig) : option StoredEvent :=
  match x with Answered r y =>
  match r return Ans r → option StoredEvent with
  | InsertReactionEvent _ _ _ _ _ _ _ => λ y, match y with Some (InsertedReaction s false) => Some s | _ => None end
  | _ => λ _, None
  end y end.
Definition dispatch (x : Exchange ingest_sig) : option StoredEvent := dispatches (asked x).

Definition inserted (h : Run) : list StoredEvent := omap fresh h.
Definition revived (h : Run) : list StoredEvent := omap revive h.
Definition dispatched (h : Run) : list StoredEvent := omap dispatch h.

(** The kinds that are executed by a handler of their own. *)
Definition executed_kind : bool :=
  is_command_kind k || is_moderation_command_kind k || is_relay_admin_kind k ||
  one_of k [KIND_PRODUCT_FEEDBACK; KIND_REPORT; KIND_NIP43_LEAVE_REQUEST; KIND_PUSH_LEASE].

Definition settled (res : result IngestError IngestResult) (h : Run) : Prop :=
  dispatched h = inserted h ++ revived h ∧
  match inserted h, revived h with
  | [], [] => executed_kind = true ∨ res ≠ Ok (accepted_with e "")
  | [_], [] => executed_kind = false ∧ res = Ok (accepted_with e "")
  | [], [_] => k = KIND_REACTION ∧ executed_kind = false ∧ res = Ok (accepted_with e "")
  | _, _ => False
  end.

Definition blank (h : Run) : Prop := inserted h = [] ∧ revived h = [] ∧ dispatched h = [].

Lemma calm_fresh x : calm_at x → fresh x = None ∧ revive x = None ∧ dispatch x = None.
Proof. destruct x as [r y]. unfold calm_at, calm, dispatch. by destruct r. Qed.

Lemma blank_extends h h' : extends h h' → blank h → blank h'.
Proof.
  intros (l & -> & Hl) (Hi & Hv & Hd). unfold blank, inserted, revived, dispatched in *. rewrite !omap_app, Hi, Hv, Hd, !app_nil_r.
  induction Hl as [|x l Hx Hl (IH1 & IH2 & IH3)]; [done|]. apply calm_fresh in Hx as (Hx1 & Hx2 & Hx3). cbn. by rewrite Hx1, Hx2, Hx3.
Qed.

Lemma settled_other res h : blank h → executed_kind = true ∨ res ≠ Ok (accepted_with e "") → settled res h.
Proof. intros (Hi & Hv & Hd) Hr. unfold settled. rewrite Hi, Hv, Hd. done. Qed.

Lemma settled_err er h : blank h → settled (Err er) h.
Proof. intros Hb. apply settled_other; [done|by right]. Qed.

Lemma settled_then {A} (conv : IngestError → IngestError) (p : Program ingest_sig (result IngestError A))
    (f : A → Program ingest_sig (result IngestError IngestResult)) h :
  blank h → quiet p → (∀ x h', blank h' → wpt (f x) settled h') → wpt (then_ conv p f) settled h.
Proof.
  intros Hb Hq Hf. eapply stage_then; [done|exact Hq|apply wp_trivial| |].
  - intros x h' He _. apply Hf. by eapply blank_extends.
  - intros er h' He. apply settled_err. by eapply blank_extends.
Qed.

Lemma settled_bind {A} (p : Program ingest_sig A) (f : A → Program ingest_sig (result IngestError IngestResult)) h :
  blank h → quiet p → (∀ x h', blank h' → wpt (f x) settled h') → wpt (p ≫= f) settled h.
Proof.
  intros Hb Hq Hf. apply wp_bind. eapply stage_quiet; [done|exact Hq|]. intros x h' He. apply Hf. by eapply blank_extends.
Qed.

(** A handler of its own. *)
Lemma settled_executed (p : Program ingest_sig (result IngestError IngestResult)) h :
  blank h → quiet p → executed_kind = true → wpt p settled h.
Proof.
  intros Hb Hq Hx. eapply stage_quiet; [done|exact Hq|]. intros res h' He. apply settled_other; [by eapply blank_extends|by left].
Qed.

Lemma after_store_settled meta vis s (b : bool) h :
  inserted h = (if b then [s] else []) → revived h = [] → dispatched h = [] → executed_kind = false → wpt (after_store c e meta vis s b) settled h.
Proof.
  intros Hi Hv Hd Hx. unfold after_store. destruct b; cbn [negb].
  2: { apply wp_return, settled_other; [done|by right]. }
  run_tail; unfold settled, inserted, revived, dispatched in *; cbn; by rewrite Hi, Hv, Hd.
Qed.

Lemma store_settled ch meta pre vis h :
  blank h → executed_kind = false →
  wpt (then_ (λ m, m) (store_event c e ch meta pre) (λ '(stored, was_inserted), after_store c e meta vis stored was_inserted)) settled h.
Proof.
  intros (Hi & Hv & Hd) Hx. apply wp_then. unfold store_event, insert_or_compensate. cbv zeta.
  assert (Hstored : ∀ s (b : bool) h', inserted h' = (if b then [s] else []) → revived h' = [] → dispatched h' = [] →
    wpt (after_store c e meta vis s b) settled h') by (intros; by apply after_store_settled).
  run_stage;
    first
      [ apply Hstored; unfold inserted, revived, dispatched in *; cbn; rewrite ?Hi, ?Hv, ?Hd; by destruct b
      | apply settled_err; unfold blank, inserted, revived, dispatched in *; cbn; by rewrite ?Hi, ?Hv, ?Hd ].
Qed.

Lemma reaction_settled ch meta vis h :
  blank h → k = KIND_REACTION → executed_kind = false → wpt (store_reaction cfg c e ch meta vis) settled h.
Proof.
  intros Hb Hk Hx. pose proof Hb as (Hi & Hv & Hd). unfold store_reaction. cbv zeta.
  run_stage;
    first
      [ by apply settled_err
      | match goal with b : bool |- _ => destruct b end;
        unfold settled, inserted, revived, dispatched in *; cbn; rewrite ?Hi, ?Hv, ?Hd; by split_and!
      | unfold settled, inserted, revived, dispatched in *; cbn; rewrite ?Hi, ?Hv, ?Hd; split; [done|]; first [done|by right] ].
Qed.

Lemma write_event_settled now ch row vis pre h :
  blank h → is_command_kind k = false → k ≠ KIND_PRODUCT_FEEDBACK → k ≠ KIND_REPORT → is_moderation_command_kind k = false →
  is_relay_admin_kind k = false → k ≠ KIND_NIP43_LEAVE_REQUEST →
  wpt (write_event cfg c e now ch row vis pre) settled h.
Proof.
  intros Hb Hk1 Hk2 Hk3 Hk4 Hk5 Hk6. unfold write_event.
  destruct (check_join e ch row) as [[]|er]; [cbn [try_result]|by apply settled_err].
  destruct (Z.eqb_spec k KIND_PUSH_LEASE) as [Hk7|Hk7].
  { pose proof Hb as (Hi & Hv & Hd).
    assert (Hx : executed_kind = true) by (unfold executed_kind; rewrite Hk7; reflexivity).
    unfold accept_push_lease. run_stage; apply settled_other; try (by left);
      unfold blank, inserted, revived, dispatched in *; cbn; by rewrite ?Hi, ?Hv, ?Hd. }
  assert (Hx : executed_kind = false).
  { unfold executed_kind, one_of. rewrite Hk1, Hk4, Hk5. cbn [orb existsb].
    by rewrite (proj2 (Z.eqb_neq _ _) Hk2), (proj2 (Z.eqb_neq _ _) Hk3), (proj2 (Z.eqb_neq _ _) Hk6), (proj2 (Z.eqb_neq _ _) Hk7). }
  apply settled_then; [done|apply quiet_content_checks|]. intros _ h1 Hb1.
  apply settled_then; [done|apply quiet_thread|]. intros meta h2 Hb2.
  destruct (check_content e) as [[]|er]; [cbn [try_result]|by apply settled_err].
  destruct (Z.eqb_spec k KIND_REACTION) as [Hk8|_]; [by apply reaction_settled|by apply store_settled].
Qed.

Lemma create_group_settled ch (f : option Uuid → Program ingest_sig (result IngestError IngestResult)) h :
  blank h → (∀ pre h', blank h' → wpt (f pre) settled h') → wpt (create_group cfg c e ch f) settled h.
Proof.
  intros Hb Hf. unfold create_group. destruct (negb _); [by apply Hf|]. cbv zeta. destruct ch as [ch|]; cbn beta iota.
  - run_stage; first [by apply Hf|by apply settled_err|apply settled_other; [exact Hb|by right]].
  - run_stage; first [by apply Hf|by apply settled_err].
Qed.

Lemma place_event_settled now h :
  blank h → is_command_kind k = false → k ≠ KIND_PRODUCT_FEEDBACK → k ≠ KIND_REPORT → is_moderation_command_kind k = false →
  wpt (place_event cfg c e a now) settled h.
Proof.
  intros Hb Hk1 Hk2 Hk3 Hk4. unfold place_event.
  apply settled_then; [done|apply quiet_channel|]. intros ch h1 Hb1.
  apply settled_bind; [done|apply quiet_row|]. intros row h2 Hb2.
  apply settled_bind; [done|apply quiet_visibility|]. intros vis h3 Hb3.
  apply settled_then; [done|apply quiet_membership|]. intros _ h4 Hb4.
  destruct (is_relay_admin_kind k) eqn:Hk5.
  { apply settled_executed; [done|apply quiet_then; [apply quiet_relay_admin|done]|].
    unfold executed_kind. by rewrite Hk5, !orb_true_r. }
  destruct (Z.eqb_spec k KIND_NIP43_LEAVE_REQUEST) as [Hk6|Hk6].
  { apply settled_executed; [done|apply quiet_leave|]. unfold executed_kind. by rewrite Hk6. }
  apply settled_then; [done|apply quiet_kind_checks|]. intros _ h5 Hb5.
  apply create_group_settled; [done|]. intros pre h6 Hb6. by apply write_event_settled.
Qed.

Lemma ingest_settled : wpt (ingest_event_inner cfg c e a) settled [].
Proof.
  unfold ingest_event_inner. apply settled_then; [done|apply quiet_admission|]. intros now h1 Hb1.
  destruct (is_command_kind k) eqn:Hk1.
  { apply settled_executed; [done|by apply quiet_ask|]. unfold executed_kind. by rewrite Hk1. }
  destruct (Z.eqb_spec k KIND_PRODUCT_FEEDBACK) as [Hk2|Hk2].
  { apply settled_executed; [done|unfold executed; solve_quiet|]. unfold executed_kind. by rewrite Hk2. }
  destruct (Z.eqb_spec k KIND_REPORT) as [Hk3|Hk3].
  { apply settled_executed; [done|apply quiet_then; [apply quiet_report|done]|]. unfold executed_kind. by rewrite Hk3. }
  destruct (is_moderation_command_kind k) eqn:Hk4.
  { apply settled_executed; [done|apply quiet_then; [apply quiet_moderation|done]|]. unfold executed_kind. by rewrite Hk4, orb_true_r. }
  apply settled_then; [done|apply quiet_restriction|]. intros _ h2 Hb2. by apply place_event_settled.
Qed.

(** C23: The answer tells what the pipeline stored, whatever the other components answer. An
    event that was stored anew was dispatched to the subscribers exactly once and is answered as
    accepted with an empty message. The same happens to a reaction whose event was stored before
    and only its removed reaction row was made active again (was_inserted = false). In every
    other case nothing is dispatched, so duplicates, losers of a replacement and rejected or
    failed events reach nobody, and that answer is given only for the kinds that a handler of
    their own executes (commands, moderation and relay administration, feedback, reports, leave
    requests, push leases), whose own effects are not part of this. *)
Theorem answer_tells_what_was_stored (env : Answers ingest_sig) :
  let '(res, h) := run_program env (ingest_event_inner cfg c e a) [] in settled res h.
Proof.
  pose proof (wp_sound (S := ingest_sig) (λ _ _, True) (ingest_event_inner cfg c e a) settled env [] I ingest_settled) as Hs.
  destruct (run_program _ _ _) as [res h]. apply Hs.
Qed.

End gates.

(** ** Evaluation *)
Module SampleIngest.

#[local] Existing Instance slice_lib.
Definition sample_hex : HexDecode := {| hex_bytes := λ s,
  if Nat.even (String.length s) && str_forall is_ascii_hexdigit s then Some (to_ascii_lowercase s) else None |}.
Definition sample_time : TimeRange := {| in_time_range := λ _, true |}.
Definition sample_uuid : UuidParse := {| uuid_parse := λ s, if (s =? "seven")%string then Some 7%N else None |}.
Definition no_num : JsonNum :=
  {| JNumber := Z; JFloat := Z; number_text := λ _, ""; number_from := λ z, z; WorkflowTemplate.as_i64 := λ z, Some z; as_f64 := λ z, Some z |}.
#[local] Existing Instances sample_hex sample_time sample_uuid no_num.
Definition no_serde : SerdeLib no_num := {|
  def_from_yaml := λ _, None; def_to_json := λ _, None; def_from_value := λ _, None; value_from_str := λ _, None;
  value_to_str := λ _, None; ctx_to_value := λ _, None; ctx_from_value := λ _, None
|}.
#[local] Existing Instance no_serde.

Definition hex64 (c : ascii) : string := foldr String "" (repeat c 64).
Definition author : string := hex64 "a".
Definition root : Event :=
  {| Nostr.id := hex64 "1"; pubkey := author; created_at := 999; kind := KIND_STREAM_MESSAGE; tags := ([["h"; "seven"]] : list (@Tag slice_lib)); content := "hello" |}.
Definition reply : Event :=
  {| Nostr.id := hex64 "2"; pubkey := author; created_at := 1000; kind := KIND_STREAM_MESSAGE;
     tags := ([["h"; "seven"]; ["e"; hex64 "1"; ""; "root"]; ["e"; hex64 "1"; ""; "reply"]] : list (@Tag slice_lib)); content := "hi" |}.
Definition stored (e : Event) : StoredEvent := {| event := e; received_at := 0; Nostr.channel_id := Some 7%N; verified := true |}.
Definition relay : RelayConfig :=
  {| relay_pubkey := hex64 "f"; ephemeral_ttl_override := None; require_relay_membership := false; max_not_before_delta := None |}.
Definition session : IngestAuth := Nip42 author all_non_admin None 0%N.

(** A relay with the root message in an open channel, asked at second 1000. *)
Definition answers (muted : option Z) (depth : Z) (_ : Trace ingest_sig) (r : Req) : Ans r :=
  match r return Ans r with
  | IsServingActive _ => Some true
  | VerifyEvent _ => Some (Ok tt)
  | UtcNow => 1000000000000%Z
  | ModerationRestrictionState _ _ => Some {| banned := false; muted_until := muted |}
  | GetEventById _ _ => Some (Some (stored root))
  | GetThreadMetadata _ _ => Some (Some {| tm_root_event_id := None; tm_depth := depth |})
  | IsMemberCached _ _ _ => Some false
  | GetChannel _ _ => Ok {| ch_visibility := "open"; ch_type := "stream"; ch_created_by := author; ch_ttl_seconds := None; ch_archived_at := None |}
  | ChannelVisibilityCached _ _ => Some "open"
  | InsertEventWithThreadMetadata _ e _ _ => Ok (stored e, true)
  | RunCommand _ _ _ => Err (Internal "")
  | HandleProductFeedback _ _ | ValidateAdminEvent _ _ _ | HandleIdentityArchive _ _ | ValidateStandardDeletion _ _
  | ValidateDeviceSession _ | ValidateLinkPreviews _ | ValidateImeta _ | VerifyImetaBlobs _ => Ok tt
  | AcceptPushLease _ _ _ => Ok Accepted
  | HuddleStartedLinkExists _ _ _ _ | IsAgentOwner _ _ _ => None
  | GetReportTargetEvent _ _ | GetRelayMember _ _ | GetModerationReportByEvent _ _ => None
  | GetSidecar _ _ | InsertModerationReport _ _ | BanCommunityMember _ _ _ _ _ | TimeoutCommunityMember _ _ _ _ _ => false
  | UnbanCommunityMember _ _ _ | UntimeoutCommunityMember _ _ _ | InsertModerationAction _ _ _ _ _ => None
  | DisconnectPubkey _ _ | InvalidateChannelDeleted _ | EmitLiveThreadSummary _ _ _ | DispatchPersistentEvent _ _ _ _ => tt
  | SendModerationNotice _ _ _ | SetCommunityIcon _ _ | SoftDeleteChannel _ _ | HandleSideEffects _ _ _
  | PublishMemberAdded _ _ | PublishMemberRemoved _ _ | PublishMembershipList _ => true
  | ResolveReportDecision _ _ => Ok tt
  | HasAdminOrOwner _ | AddRelayMember _ _ _ _ | UpdateRelayMemberRole _ _ _ | CreateChannelWithId _ _ _ _ _ _ _ _ => None
  | RemoveRelayMember _ _ | RemoveRelayMemberIfRole _ _ _ => None
  | InsertReactionEvent _ e _ _ _ _ _ => Some (InsertedReaction (stored e) false)
  | ReplaceAddressableEvent _ _ _ | ReplaceParameterizedEvent _ _ _ _ => None
  end.

Definition submit (muted : option Z) (depth : Z) : result IngestError IngestResult * list StoredEvent :=
  let '(res, h) := run_program (S := ingest_sig) (answers muted depth) (ingest_event_inner relay 1%N reply session) [] in
  (res, dispatched h).

Example reply_is_stored : submit None 99 = (Ok (accepted_with reply ""), [stored reply]).
Proof. by vm_compute. Qed.

(** A removed reaction whose event comes again: its row is active again, the event was already stored. *)
Definition reaction : Event :=
  {| Nostr.id := hex64 "3"; pubkey := author; created_at := 1000; kind := KIND_REACTION;
     tags := ([["e"; hex64 "1"]] : list (@Tag slice_lib)); content := "+" |}.
Example revived_reaction_is_dispatched :
  let '(res, h) := run_program (S := ingest_sig) (answers None 99) (ingest_event_inner relay 1%N reaction session) [] in
  res = Ok (accepted_with reaction "") ∧ inserted h = [] ∧ dispatched h = [stored reaction].
Proof. by vm_compute. Qed.
Example timed_out : submit (Some 1000000000001%Z) 99 = (Err (AuthFailed "restricted: you are timed out"), []).
Proof. by vm_compute. Qed.
Example too_deep : submit None 100 = (Err (Rejected "invalid: thread depth limit exceeded"), []).
Proof. by vm_compute. Qed.

End SampleIngest.
