(* ===== verification/ThreadStore.v ===== *)
(** * The thread tables ([crates/maju-db/src/store/thread.rs], [store/event.rs])

    Events with their thread rows: insertion of an event together with its row,
    the counters of replies, soft deletion, and the two paged reads.  A database
    is the two tables; a statement touches the rows of one community only, by
    its first condition.  A transaction is a function that gives the next
    database, or an error and then no change.  It may also fail for reasons that
    are not modelled (a lost connection, a foreign key, the write fence), again
    without a change.

    Ids are lower-case hex, so that [bytea] order is the order of strings; times
    are whole seconds, as events carry them. *)
From stdpp Require Import sorting.
From S2P Require Import Prelude Nostr Kinds Bytes WorkflowTemplate WorkflowDef WorkflowStore IngestPolicy IngestRequests.

(** ** Tables *)

(** The primary keys: community, creation time, event id. *)
Abbreviation RowKey := (Uuid * Z * string)%type (only parsing).
Definition k_community (k : RowKey) : Uuid := k.1.1.
Definition k_created_at (k : RowKey) : Z := k.1.2.
Definition k_id (k : RowKey) : string := k.2.

Record ThreadRow := {
  tr_channel_id : Uuid;
  tr_parent_event_id : option string;
  tr_parent_event_created_at : option Z;
  tr_root_event_id : option string;
  tr_root_event_created_at : option Z;
  tr_depth : Z;
  reply_count : Z;
  descendant_count : Z;
  last_reply_at : option Z;
  tr_broadcast : bool
}.

(** [ThreadMetadataParams]. *)
Record ThreadMetadataParams := {
  pm_event_id : string;
  pm_event_created_at : Z;
  pm_channel_id : Uuid;
  pm_parent_event_id : option string;
  pm_parent_event_created_at : option Z;
  pm_root_event_id : option string;
  pm_root_event_created_at : option Z;
  pm_depth : Z;
  pm_broadcast : bool
}.

Definition as_params (m : ThreadMetadataOwned) : ThreadMetadataParams := {|
  pm_event_id := event_id m; pm_event_created_at := event_created_at m; pm_channel_id := tm_channel_id m;
  pm_parent_event_id := Some (parent_event_id m); pm_parent_event_created_at := Some (parent_event_created_at m);
  pm_root_event_id := Some (root_event_id m); pm_root_event_created_at := Some (root_event_created_at m);
  pm_depth := depth m; pm_broadcast := broadcast m |}.

Inductive DbError := AuthRejected | EphemeralRejected | InvalidTimestamp | OutOfRange | InvalidData.

(** ** Thread rows *)

Abbreviation Rows := (gmap RowKey ThreadRow) (only parsing).

(** [WHERE community_id = c AND event_id = i]. *)
Definition names (c : Uuid) (i : string) (k : RowKey) : bool := (k_community k =? c)%N && (k_id k =? i)%string.
Definition update_rows (c : Uuid) (i : string) (f : ThreadRow → ThreadRow) (m : Rows) : Rows :=
  map_imap (λ k r, Some (if names c i k then f r else r)) m.

(** [ON CONFLICT DO NOTHING]. *)
Definition insert_new (k : RowKey) (r : ThreadRow) (m : Rows) : Rows :=
  match m !! k with Some _ => m | None => <[k := r]> m end.

Definition stub_row (ch : Uuid) : ThreadRow := {|
  tr_channel_id := ch; tr_parent_event_id := None; tr_parent_event_created_at := None; tr_root_event_id := None;
  tr_root_event_created_at := None; tr_depth := 0; reply_count := 0; descendant_count := 0; last_reply_at := None;
  tr_broadcast := false |}.

Definition new_row (p : ThreadMetadataParams) : ThreadRow := {|
  tr_channel_id := pm_channel_id p; tr_parent_event_id := pm_parent_event_id p;
  tr_parent_event_created_at := pm_parent_event_created_at p; tr_root_event_id := pm_root_event_id p;
  tr_root_event_created_at := pm_root_event_created_at p; tr_depth := pm_depth p; reply_count := 0; descendant_count := 0;
  last_reply_at := None; tr_broadcast := pm_broadcast p |}.

Definition with_replies (n : Z) (at_ : option Z) (r : ThreadRow) : ThreadRow := {|
  tr_channel_id := tr_channel_id r; tr_parent_event_id := tr_parent_event_id r;
  tr_parent_event_created_at := tr_parent_event_created_at r; tr_root_event_id := tr_root_event_id r;
  tr_root_event_created_at := tr_root_event_created_at r; tr_depth := tr_depth r; reply_count := n;
  descendant_count := descendant_count r; last_reply_at := at_; tr_broadcast := tr_broadcast r |}.
Definition with_descendants (n : Z) (r : ThreadRow) : ThreadRow := {|
  tr_channel_id := tr_channel_id r; tr_parent_event_id := tr_parent_event_id r;
  tr_parent_event_created_at := tr_parent_event_created_at r; tr_root_event_id := tr_root_event_id r;
  tr_root_event_created_at := tr_root_event_created_at r; tr_depth := tr_depth r; reply_count := reply_count r;
  descendant_count := n; last_reply_at := last_reply_at r; tr_broadcast := tr_broadcast r |}.

(** An [INT] column cannot hold more; the statement then fails. *)
Definition can_count (c : Uuid) (i : string) (f : ThreadRow → Z) (m : Rows) : bool :=
  bool_decide (map_Forall (λ k r, names c i k = true → (f r < 2 ^ 31 - 1)%Z) m).

Definition bump_replies (tx_now : Z) (c : Uuid) (i : string) (m : Rows) : option Rows :=
  if can_count c i reply_count m
  then Some (update_rows c i (λ r, with_replies (reply_count r + 1) (Some tx_now) r) m) else None.
Definition bump_descendants (c : Uuid) (i : string) (m : Rows) : option Rows :=
  if can_count c i descendant_count m
  then Some (update_rows c i (λ r, with_descendants (descendant_count r + 1) r) m) else None.

(** The row of a new event, stubs for the parent and the root, and the
    counters; the same statements in [insert_thread_metadata] and in
    [insert_event_with_thread_metadata_tx]. *)
Definition insert_thread_rows (tx_now : Z) (c : Uuid) (p : ThreadMetadataParams) (m : Rows) : option Rows :=
  let k := (c, pm_event_created_at p, pm_event_id p) in
  match m !! k with
  | Some _ => Some m
  | None =>
      let m := <[k := new_row p]> m in
      match pm_parent_event_id p with
      | None => Some m
      | Some pid =>
          let m := insert_new (c, default (pm_event_created_at p) (pm_parent_event_created_at p), pid) (stub_row (pm_channel_id p)) m in
          let m :=
            match pm_root_event_id p with
            | Some rid =>
                if (rid =? pid)%string then m
                else insert_new (c, default (pm_event_created_at p) (pm_root_event_created_at p), rid) (stub_row (pm_channel_id p)) m
            | None => m
            end in
          m ← bump_replies tx_now c pid m;
          match pm_root_event_id p with Some rid => bump_descendants c rid m | None => Some m end
      end
  end.

(** [GREATEST(n - 1, 0)]. *)
Definition drop_reply (r : ThreadRow) : ThreadRow := with_replies (Z.max (reply_count r - 1) 0) (last_reply_at r) r.
Definition drop_descendant (r : ThreadRow) : ThreadRow := with_descendants (Z.max (descendant_count r - 1) 0) r.

Section store.
Context {L : NostrLib} {T : TimeRange}.

Record EventRow := { er_event : Event; er_received_at : Z; er_channel_id : option Uuid; er_deleted : bool }.
Record ThreadDb := { events : gmap RowKey EventRow; thread_metadata : gmap RowKey ThreadRow }.

(** ** Writes *)

Definition insert_thread_metadata (tx_now : Z) (c : Uuid) (p : ThreadMetadataParams) (db : ThreadDb) : result DbError ThreadDb :=
  match insert_thread_rows tx_now c p (thread_metadata db) with
  | Some m => Ok {| events := events db; thread_metadata := m |}
  | None => Err OutOfRange
  end.

(** [now] is the clock of the relay, [tx_now] that of the transaction. *)
Definition insert_event_with_thread_metadata (now tx_now : Z) (c : Uuid) (e : Event) (ch : option Uuid)
    (meta : option ThreadMetadataParams) (db : ThreadDb) : result DbError (StoredEvent * bool * ThreadDb) :=
  if (event_kind_u32 e =? KIND_AUTH)%Z then Err AuthRejected
  else if is_ephemeral (event_kind_u32 e) then Err EphemeralRejected
  else
    match from_timestamp (created_at e) with
    | None => Err InvalidTimestamp
    | Some created =>
        let k := (c, created, Nostr.id e) in
        let stored := with_received_at e now ch true in
        match events db !! k with
        | Some _ => Ok (stored, false, db)
        | None =>
            let es := <[k := {| er_event := e; er_received_at := now; er_channel_id := ch; er_deleted := false |}]> (events db) in
            match meta with
            | None => Ok (stored, true, {| events := es; thread_metadata := thread_metadata db |})
            | Some p =>
                match insert_thread_rows tx_now c p (thread_metadata db) with
                | Some m => Ok (stored, true, {| events := es; thread_metadata := m |})
                | None => Err OutOfRange
                end
            end
        end
    end.

Definition increment_reply_count (tx_now : Z) (c : Uuid) (parent : string) (root : option string) (db : ThreadDb) : result DbError ThreadDb :=
  match bump_replies tx_now c parent (thread_metadata db) with
  | None => Err OutOfRange
  | Some m =>
      match root with
      | None => Ok {| events := events db; thread_metadata := m |}
      | Some rid =>
          match bump_descendants c rid m with
          | Some m => Ok {| events := events db; thread_metadata := m |}
          | None => Err OutOfRange
          end
      end
  end.

Definition decrement_reply_count (c : Uuid) (parent : string) (root : option string) (db : ThreadDb) : ThreadDb :=
  let m := update_rows c parent drop_reply (thread_metadata db) in
  {| events := events db;
     thread_metadata := match root with Some rid => update_rows c rid drop_descendant m | None => m end |}.

Definition delete_row (r : EventRow) : EventRow :=
  {| er_event := er_event r; er_received_at := er_received_at r; er_channel_id := er_channel_id r; er_deleted := true |}.

(** Whether the event was deleted by this call, and the next database. *)
Definition soft_delete_event_and_update_thread (c : Uuid) (i : string) (parent root : option string) (db : ThreadDb) : bool * ThreadDb :=
  let live := λ (k : RowKey) (r : EventRow), names c i k && negb (er_deleted r) in
  let deleted := negb (bool_decide (map_Forall (λ k r, live k r = false) (events db))) in
  let es := map_imap (λ k r, Some (if live k r then delete_row r else r)) (events db) in
  let m :=
    match deleted, parent with
    | true, Some pid =>
        let m := update_rows c pid drop_reply (thread_metadata db) in
        match root with Some rid => update_rows c rid drop_descendant m | None => m end
    | _, _ => thread_metadata db
    end in
  (deleted, {| events := es; thread_metadata := m |}).

(** ** Reads of one row *)

(** [LIMIT 1] without an order: any of the rows. *)
Definition rows_of (c : Uuid) (i : string) (db : ThreadDb) : list ThreadRow :=
  (filter (λ kr, names c i kr.1 = true) (map_to_list (thread_metadata db))).*2.

(** [get_thread_metadata_by_event]: the answers that the table allows. *)
Definition may_answer_row (c : Uuid) (i : string) (db : ThreadDb) (a : option ThreadRow) : Prop :=
  match a with Some r => r ∈ rows_of c i db | None => rows_of c i db = [] end.

Definition record_of (r : ThreadRow) : ThreadMetadataRecord := {| tm_root_event_id := tr_root_event_id r; tm_depth := tr_depth r |}.

(** ** Reads by page *)

(** [serde_json::from_value] of the columns of a row, which fails for a row that
    is no longer an event. *)
Class RowDecode : Type := { event_from_row : Event → option Event }.
Context {D : RowDecode}.

Definition row_to_stored_event (r : EventRow) : result DbError (option StoredEvent) :=
  let k := kind (er_event r) in
  if ((0 <=? k) && (k <? 65536))%Z
  then Ok (e ← event_from_row (er_event r); Some (with_received_at e (er_received_at r) (er_channel_id r) true))
  else Err InvalidData.

Fixpoint collect {A B} (f : A → result DbError (option B)) (l : list A) : result DbError (list B) :=
  match l with
  | [] => Ok []
  | a :: l =>
      match f a with
      | Err e => Err e
      | Ok b => match collect f l with Err e => Err e | Ok bs => Ok (match b with Some b => b :: bs | None => bs end) end
      end
  end.

(** *** A window of a channel *)

(** [ORDER BY created_at DESC, id ASC]. *)
Definition window_before (a b : RowKey * EventRow) : Prop :=
  (k_created_at b.1 < k_created_at a.1)%Z ∨ (k_created_at a.1 = k_created_at b.1 ∧ str_le (k_id a.1) (k_id b.1)).
#[export] Instance window_before_dec a b : Decision (window_before a b).
Proof. unfold window_before, str_le. apply _. Defined.

Definition top_level (k : RowKey) (db : ThreadDb) : bool :=
  match thread_metadata db !! k with
  | None => true
  | Some r => (tr_depth r =? 0)%Z || ((tr_depth r =? 1)%Z && tr_broadcast r)
  end.

Definition of_kinds (kinds : option (list Z)) (e : Event) : bool :=
  match kinds with Some (x :: l) => bool_decide (event_kind_u32 e ∈ x :: l) | _ => true end.

Definition after_window_cursor (cursor : option (Z * string)) (k : RowKey) : bool :=
  match cursor with
  | None => true
  | Some (t, i) => (k_created_at k <? t)%Z || ((k_created_at k =? t)%Z && negb (String.leb (k_id k) i))
  end.

Definition in_window (c ch : Uuid) (kinds : option (list Z)) (db : ThreadDb) (kr : RowKey * EventRow) : bool :=
  (k_community kr.1 =? c)%N && bool_decide (er_channel_id kr.2 = Some ch) && negb (er_deleted kr.2) && top_level kr.1 db &&
  of_kinds kinds (er_event kr.2).

Definition window_query (c ch : Uuid) (cursor : option (Z * string)) (kinds : option (list Z)) (db : ThreadDb) : list (RowKey * EventRow) :=
  merge_sort window_before
    (filter (λ kr, in_window c ch kinds db kr && after_window_cursor cursor kr.1 = true) (map_to_list (events db))).

(** [ThreadSummary] without its participants: replies, descendants, time. *)
Definition summary_of (k : RowKey) (db : ThreadDb) : option (Z * Z * option Z) :=
  r ← thread_metadata db !! k; if (0 <? reply_count r)%Z then Some (reply_count r, descendant_count r, last_reply_at r) else None.

Record ChannelWindow := {
  cw_rows : list (StoredEvent * option (Z * Z * option Z));
  has_more : bool;
  next_cursor : option (Z * string)
}.

Definition window_row (db : ThreadDb) (kr : RowKey * EventRow) : result DbError (option (StoredEvent * option (Z * Z * option Z))) :=
  match row_to_stored_event kr.2 with
  | Err e => Err e
  | Ok s => Ok (s ← s; Some (s, summary_of kr.1 db))
  end.

(** One row more than asked for tells whether there are more. *)
Definition get_channel_window (c ch : Uuid) (limit : N) (cursor : option (Z * string)) (kinds : option (list Z)) (db : ThreadDb) :
    result DbError ChannelWindow :=
  let db_rows := take (N.to_nat limit + 1) (window_query c ch cursor kinds db) in
  let more := (N.to_nat limit <? length db_rows)%nat in
  let db_rows := take (N.to_nat limit) db_rows in
  let next := if more then kr ← last db_rows; Some (k_created_at kr.1, k_id kr.1) else None in
  match collect (window_row db) db_rows with
  | Err e => Err e
  | Ok rows => Ok {| cw_rows := rows; has_more := more; next_cursor := next |}
  end.

(** *** The replies of a thread *)

Definition hex_digit (n : Z) : ascii := if (n <? 10)%Z then ascii_of_N (Z.to_N (48 + n)) else ascii_of_N (Z.to_N (87 + n)).
Fixpoint bytes_hex (bs : list Z) : string :=
  match bs with [] => "" | b :: bs => String (hex_digit (b / 16)) (String (hex_digit (b mod 16)) (bytes_hex bs)) end.
Definition digit_value (x : ascii) : Z :=
  let n := Z.of_N (N_of_ascii x) in if (n <? 58)%Z then (n - 48)%Z else (n - 87)%Z.
Fixpoint hex_to_bytes (s : string) : list Z :=
  match s with String a (String b s) => (digit_value a * 16 + digit_value b)%Z :: hex_to_bytes s | _ => [] end.

(** Eight bytes of seconds, then the id; eight bytes alone compare times only. *)
Definition thread_cursor_key (cursor : option (list Z)) : option (Z * option string) :=
  match cursor with
  | Some bytes =>
      if (8 <=? length bytes)%nat then
        let secs := IngestPolicy.as_i64 (from_be_bytes (take 8 bytes)) in
        if in_time_range secs
        then Some (secs, if (8 <? length bytes)%nat then Some (bytes_hex (drop 8 bytes)) else None)
        else None
      else None
  | None => None
  end.

Definition after_thread_cursor (key : option (Z * option string)) (k : RowKey) : bool :=
  match key with
  | None => true
  | Some (t, Some i) => (t <? k_created_at k)%Z || ((k_created_at k =? t)%Z && negb (String.leb (k_id k) i))
  | Some (t, None) => (t <? k_created_at k)%Z
  end.

(** [as i32]. *)
Definition as_i32 (z : Z) : Z := (wrap 32 (z + 2 ^ 31) - 2 ^ 31)%Z.

(** [ORDER BY event_created_at ASC, event_id ASC]. *)
Definition reply_before (a b : RowKey * (ThreadRow * EventRow)) : Prop :=
  (k_created_at a.1 < k_created_at b.1)%Z ∨ (k_created_at a.1 = k_created_at b.1 ∧ str_le (k_id a.1) (k_id b.1)).
#[export] Instance reply_before_dec a b : Decision (reply_before a b).
Proof. unfold reply_before, str_le. apply _. Defined.

(** The join of the two tables on their keys. *)
Definition joined (db : ThreadDb) : list (RowKey * (ThreadRow * EventRow)) :=
  map_to_list (map_zip (thread_metadata db) (events db)).

Definition is_reply_of (c : Uuid) (root : string) (depth_limit : option N) (kr : RowKey * (ThreadRow * EventRow)) : bool :=
  (k_community kr.1 =? c)%N && bool_decide (tr_root_event_id kr.2.1 = Some root) && negb (er_deleted kr.2.2) &&
  match depth_limit with Some dl => (tr_depth kr.2.1 <=? as_i32 (Z.of_N dl))%Z | None => true end.

Definition replies_query (c : Uuid) (root : string) (depth_limit : option N) (key : option (Z * option string)) (db : ThreadDb) :
    list (RowKey * (ThreadRow * EventRow)) :=
  merge_sort reply_before (filter (λ kr, is_reply_of c root depth_limit kr && after_thread_cursor key kr.1 = true) (joined db)).

(** [ThreadReply]: the row with the event that was read. *)
Definition thread_reply (kr : RowKey * (ThreadRow * EventRow)) : result DbError (option (RowKey * ThreadRow * StoredEvent)) :=
  match row_to_stored_event kr.2.2 with
  | Err e => Err e
  | Ok s => Ok (s ← s; Some (kr.1, kr.2.1, s))
  end.

(** A negative [LIMIT] is an error. *)
Definition get_thread_replies (c : Uuid) (root : string) (depth_limit : option N) (limit : N) (cursor : option (list Z)) (db : ThreadDb) :
    result DbError (list (RowKey * ThreadRow * StoredEvent)) :=
  let n := as_i32 (Z.of_N limit) in
  if (n <? 0)%Z then Err InvalidData
  else collect thread_reply (take (Z.to_nat n) (replies_query c root depth_limit (thread_cursor_key cursor) db)).

(** ** The bridge *)

Context {JN : JsonNum} {H : HexDecode}.

Definition json_get_or (v : JsonValue) (a b : string) : option JsonValue :=
  match json_get v a with Some x => Some x | None => json_get v b end.
Definition json_i64 (v : JsonValue) : option Z := match v with JNum n => WorkflowTemplate.as_i64 n | _ => None end.

(** [extract_thread_cursor] of [api/bridge.rs]. *)
Definition extract_thread_cursor (raw : JsonValue) : option (list Z) :=
  secs ← (v ← json_get_or raw "thread_cursor" "threadCursor"; json_i64 v);
  let bytes := be_bytes 8 secs in
  Some (match (v ← json_get_or raw "thread_cursor_id" "threadCursorId"; as_str v) with
        | Some id_hex => match hex_bytes id_hex with Some i => bytes ++ hex_to_bytes i | None => bytes end
        | None => bytes
        end).

Definition BRIDGE_WINDOW_MAX_LIMIT : N := 200.
Definition BRIDGE_WINDOW_DEFAULT_LIMIT : N := 50.

(** [(l as u32).min(MAX)], never zero. *)
Definition window_limit (limit : option N) : N :=
  N.max 1 (match limit with Some l => N.min (l mod 2 ^ 32) BRIDGE_WINDOW_MAX_LIMIT | None => BRIDGE_WINDOW_DEFAULT_LIMIT end).

End store.
