(* ===== verification/ThreadPages.v ===== *)
(** * Paging through channels and threads

    The keyset pages of [ThreadStore]: following the cursor that each window
    returns shows every row of the channel exactly once and in order
    ([channel_pages_cover]). *)
From stdpp Require Import sorting.
From S2P Require Import Prelude Nostr Kinds Bytes WorkflowTemplate WorkflowDef WorkflowStore IngestPolicy IngestRequests ThreadStore.

(** ** Keysets *)

Section keyset.
Context {A : Type} (R : relation A) `{∀ x y, Decision (R x y)} `{!Transitive R} `{!Total R}.

Lemma filter_id (P : A → Prop) `{∀ x, Decision (P x)} (l : list A) : Forall P l → filter P l = l.
Proof. induction 1 as [|x l Hx Hl IH]; [done|]. by rewrite filter_cons_True, IH. Qed.
Lemma filter_nil (P : A → Prop) `{∀ x, Decision (P x)} (l : list A) : Forall (λ x, ¬ P x) l → filter P l = [].
Proof. induction 1 as [|x l Hx Hl IH]; [done|]. by rewrite filter_cons_False. Qed.

Lemma filter_ext (P Q : A → Prop) `{∀ x, Decision (P x)} `{∀ x, Decision (Q x)} (l : list A) :
  (∀ x, x ∈ l → P x ↔ Q x) → filter P l = filter Q l.
Proof.
  induction l as [|x l IH]; intros HPQ; [done|].
  destruct (decide (P x)) as [HP|HP]; pose proof (HPQ x ltac:(left)) as Hx.
  - rewrite !filter_cons_True by tauto. f_equal. apply IH. intros y Hy. apply HPQ. by right.
  - rewrite !filter_cons_False by tauto. apply IH. intros y Hy. apply HPQ. by right.
Qed.

(** The rest of a sorted list after the last element of a page. *)
Lemma filter_after_page (l : list A) n x :
  StronglySorted R l → NoDup l → (∀ x y, x ∈ l → y ∈ l → R x y → R y x → x = y) →
  last (take n l) = Some x → filter (λ y, ¬ R y x) l = drop n l.
Proof.
  intros Hs Hn Ha Hx. apply last_Some in Hx as (l1 & Hl1).
  assert (Hl : l = (l1 ++ [x]) ++ drop n l) by (rewrite <- Hl1; by rewrite take_drop).
  revert Hl. generalize (drop n l). intros l2 ->. clear Hl1.
  apply StronglySorted_app in Hs as (Hcross & Hs & _). apply StronglySorted_app in Hs as (Hbefore & _ & _).
  rewrite filter_app, filter_nil, filter_id; [done|..]; apply Forall_forall.
  - intros y Hy Hyx. apply NoDup_app in Hn as (_ & Hn & _). apply (Hn x); [set_solver|].
    rewrite <- (Ha y x) by (set_solver || by apply Hcross; set_solver). done.
  - intros y [Hy| ->%list_elem_of_singleton]%elem_of_app Hn'; apply Hn'.
    + apply Hbefore; set_solver.
    + by destruct (total R x x).
Qed.

Lemma elem_of_merge_sort x l : x ∈ merge_sort R l ↔ x ∈ l.
Proof. by rewrite (merge_sort_Permutation R l). Qed.

Lemma sorted_filter (P : A → Prop) `{∀ x, Decision (P x)} (l : list A) : StronglySorted R l → StronglySorted R (filter P l).
Proof.
  induction 1 as [|x l Hl IH Hx]; [constructor|]. destruct (decide (P x)); [|by rewrite filter_cons_False].
  rewrite filter_cons_True by done. constructor; [done|]. apply Forall_forall. intros y [_ Hy]%list_elem_of_filter.
  by eapply Forall_forall in Hx.
Qed.

(** Sorting what a filter keeps is filtering what was sorted. *)
Lemma merge_sort_filter (P : A → Prop) `{∀ x, Decision (P x)} (l : list A) :
  (∀ x y, x ∈ l → y ∈ l → R x y → R y x → x = y) → merge_sort R (filter P l) = filter P (merge_sort R l).
Proof.
  intros Ha. apply (StronglySorted_unique_strong R).
  - intros x y. rewrite list_elem_of_filter, !elem_of_merge_sort, list_elem_of_filter. naive_solver.
  - apply StronglySorted_merge_sort; apply _.
  - apply sorted_filter. apply StronglySorted_merge_sort; apply _.
  - rewrite (merge_sort_Permutation R (filter P l)). by rewrite (merge_sort_Permutation R l).
Qed.

(** So the page after an element of the sorted list is its rest. *)
Lemma page_after (Q : A → Prop) `{∀ x, Decision (Q x)} (l : list A) n x :
  NoDup l → (∀ x y, x ∈ l → y ∈ l → R x y → R y x → x = y) → (∀ y, y ∈ l → Q y ↔ ¬ R y x) →
  last (take n (merge_sort R l)) = Some x → merge_sort R (filter Q l) = drop n (merge_sort R l).
Proof.
  intros Hn Ha HQ Hx. rewrite merge_sort_filter by done. rewrite (filter_ext Q (λ y, ¬ R y x) (merge_sort R l)).
  - apply filter_after_page; [apply StronglySorted_merge_sort; apply _| | |done].
    + by rewrite (merge_sort_Permutation R l).
    + intros y z. rewrite !elem_of_merge_sort. apply Ha.
  - intros y Hy. rewrite elem_of_merge_sort in Hy. exact (HQ y Hy).
Qed.

End keyset.

(** ** Windows of a channel *)

Section windows.
Context {L : NostrLib} {T : TimeRange} {D : RowDecode}.

#[export] Instance window_before_trans : Transitive window_before.
Proof.
  intros x y z [H1|[E1 H1]] [H2|[E2 H2]]; unfold window_before; [left; lia|left; lia|left; lia|right].
  split; [lia|]. by eapply str_le_trans.
Qed.
#[export] Instance window_before_total : Total window_before.
Proof.
  intros x y. unfold window_before. destruct (Z.lt_total (k_created_at x.1) (k_created_at y.1)) as [Hl|[He|Hl]]; [by right; left| |by left; left].
  destruct (str_le_total (k_id x.1) (k_id y.1)); [left; right|right; right]; split; done || lia.
Qed.

Context (c ch : Uuid) (kinds : option (list Z)) (db : ThreadDb).

Definition channel_rows : list (RowKey * EventRow) := filter (λ kr, in_window c ch kinds db kr = true) (map_to_list (events db)).

Lemma channel_rows_spec k r : (k, r) ∈ channel_rows ↔ in_window c ch kinds db (k, r) = true ∧ events db !! k = Some r.
Proof. unfold channel_rows. by rewrite list_elem_of_filter, elem_of_map_to_list. Qed.

Lemma channel_rows_antisym x y : x ∈ channel_rows → y ∈ channel_rows → window_before x y → window_before y x → x = y.
Proof.
  destruct x as [[[c1 t1] i1] r1], y as [[[c2 t2] i2] r2]. rewrite !channel_rows_spec.
  unfold in_window, window_before, k_community, k_created_at, k_id. cbn. rewrite !andb_true_iff, !N.eqb_eq.
  intros [((((-> & _) & _) & _) & _) H1] [((((-> & _) & _) & _) & _) H2] Hxy Hyx.
  assert (t1 = t2) as -> by lia. assert (i1 = i2) as -> by (apply str_le_antisym; naive_solver lia). congruence.
Qed.

Lemma window_query_rows cursor :
  window_query c ch cursor kinds db = merge_sort window_before (filter (λ kr, after_window_cursor cursor kr.1 = true) channel_rows).
Proof.
  unfold window_query, channel_rows. f_equal. rewrite list_filter_filter. apply list_filter_iff. intros kr.
  rewrite andb_true_iff. tauto.
Qed.

Lemma after_window_spec (x y : RowKey * EventRow) :
  after_window_cursor (Some (k_created_at x.1, k_id x.1)) y.1 = true ↔ ¬ window_before y x.
Proof.
  unfold after_window_cursor, window_before, str_le. rewrite orb_true_iff, andb_true_iff, Z.ltb_lt, Z.eqb_eq, negb_true_iff.
  rewrite <- not_true_iff_false. destruct (Z.lt_total (k_created_at x.1) (k_created_at y.1)) as [Hl|[He|Hl]]; [lia| |lia].
  split; [intros [?|[_ Hn]] [?|[_ ?]]; lia || done|]. intros Hn. right. split; [done|]. intros Hle. apply Hn. right. by split.
Qed.

(** The rows after a row come after everything the cursor excluded. *)
Lemma after_window_mono cursor (x y : RowKey * EventRow) :
  after_window_cursor cursor x.1 = true → after_window_cursor (Some (k_created_at x.1, k_id x.1)) y.1 = true →
  after_window_cursor cursor y.1 = true.
Proof.
  destruct cursor as [[t i]|]; [|done]. unfold after_window_cursor.
  rewrite !orb_true_iff, !andb_true_iff, !Z.ltb_lt, !Z.eqb_eq, !negb_true_iff. intros [Hx|[Ex Hx]] [Hy|[Ey Hy]]; [lia..|].
  right. split; [lia|]. apply not_true_iff_false. intros Hle. apply not_true_iff_false in Hx, Hy. apply Hx.
  destruct (str_le_total (k_id x.1) (k_id y.1)) as [H|H]; [|by destruct Hy]. by eapply str_le_trans.
Qed.

(** The window at the last row of a page is the rest of the window. *)
Lemma window_next cursor n x :
  last (take n (window_query c ch cursor kinds db)) = Some x →
  window_query c ch (Some (k_created_at x.1, k_id x.1)) kinds db = drop n (window_query c ch cursor kinds db).
Proof.
  intros Hx. rewrite !window_query_rows in *. set (l := filter (λ kr, after_window_cursor cursor kr.1 = true) channel_rows) in *.
  assert (Hl : ∀ y, y ∈ l ↔ after_window_cursor cursor y.1 = true ∧ y ∈ channel_rows) by (intros y; unfold l; by rewrite list_elem_of_filter).
  rewrite <- (page_after window_before (λ kr, after_window_cursor (Some (k_created_at x.1, k_id x.1)) kr.1 = true) l n x).
  - apply (f_equal (merge_sort window_before)). unfold l. symmetry. apply list_filter_filter_l. intros y Hy. eapply after_window_mono; [|exact Hy].
    apply Hl. rewrite <- (elem_of_merge_sort window_before). apply (subseteq_take n).
    apply last_Some in Hx as (l' & ->). set_solver.
  - unfold l, channel_rows. apply NoDup_filter, NoDup_filter, NoDup_map_to_list.
  - intros y z [_ Hy]%Hl [_ Hz]%Hl. by apply channel_rows_antisym.
  - intros y _. apply after_window_spec.
  - done.
Qed.

(** ** Reading a whole channel *)

(** What a row shows, if it can be read as an event. *)
Definition shown (kr : RowKey * EventRow) : option (StoredEvent * option (Z * Z * option Z)) :=
  e ← event_from_row (er_event kr.2);
  Some (with_received_at e (er_received_at kr.2) (er_channel_id kr.2) true, summary_of kr.1 db).

(** Follow the cursors from [cursor] on; [None] if a window fails or the fuel ends. *)
Fixpoint read_windows (fuel : nat) (limit : N) (cursor : option (Z * string)) : option (list (StoredEvent * option (Z * Z * option Z))) :=
  match fuel with
  | O => None
  | S fuel =>
      match get_channel_window c ch limit cursor kinds db with
      | Err _ => None
      | Ok w =>
          match next_cursor w with
          | None => if has_more w then None else Some (cw_rows w)
          | Some next => rest ← read_windows fuel limit (Some next); Some (cw_rows w ++ rest)
          end
      end
  end.

Definition readable : Prop := map_Forall (λ _ r, (0 ≤ kind (er_event r) < 65536)%Z) (events db).

Lemma collected_rows l : readable → (∀ kr, kr ∈ l → kr ∈ channel_rows) → collect (window_row db) l = Ok (omap shown l).
Proof.
  intros Hr. induction l as [|[k r] l IH]; intros Hl; [done|]. cbn [collect]. rewrite IH by (intros; apply Hl; by right).
  pose proof (Hl (k, r) ltac:(left)) as Hk. apply channel_rows_spec in Hk as [_ Hk]. apply Hr in Hk as [Hk1 Hk2].
  unfold window_row, row_to_stored_event. cbn [snd fst]. rewrite (proj2 (Z.leb_le _ _) Hk1), (proj2 (Z.ltb_lt _ _) Hk2).
  cbn. unfold shown. cbn. by destruct (event_from_row (er_event r)).
Qed.

Lemma window_rows cursor kr : kr ∈ window_query c ch cursor kinds db → kr ∈ channel_rows.
Proof. rewrite window_query_rows, elem_of_merge_sort, list_elem_of_filter. tauto. Qed.

Lemma read_windows_rest fuel limit cursor :
  readable → (1 ≤ limit)%N → length (window_query c ch cursor kinds db) < fuel →
  read_windows fuel limit cursor = Some (omap shown (window_query c ch cursor kinds db)).
Proof.
  intros Hr Hlim. revert cursor. induction fuel as [|fuel IH]; intros cursor Hf; [lia|]. cbn [read_windows].
  set (q := window_query c ch cursor kinds db) in *. unfold get_channel_window. fold q. set (n := N.to_nat limit).
  rewrite take_take, Nat.min_l by lia.
  rewrite (collected_rows (take n q)) by (done || intros kr Hkr; by apply (window_rows cursor), (subseteq_take n)).
  cbn [next_cursor has_more cw_rows]. rewrite length_take.
  destruct (Nat.ltb_spec n (Nat.min (n + 1) (length q))) as [Hmore|Hend].
  - destruct (last (take n q)) as [kr|] eqn:Elast.
    2: { apply last_None in Elast. apply (f_equal length) in Elast. rewrite length_take in Elast. cbn in Elast. lia. }
    cbn. rewrite IH.
    + rewrite (window_next cursor n kr Elast). fold q. cbn. f_equal. by rewrite <- omap_app, take_drop.
    + rewrite (window_next cursor n kr Elast). fold q. rewrite length_drop. lia.
  - by rewrite take_ge by lia.
Qed.

End windows.

(** C25: The channel windows show a channel whole, for a limit of at least 1 and rows whose kind
    fits 16 bits (a kind that does not fails the whole window with InvalidData). Following from
    the head of the channel the cursor that each window returns, until a window says that there
    are no more, lists every live top-level event of the channel of the wanted kinds exactly
    once, newest first and within a second by id, however many events share a second. Rows whose
    event no longer decodes are left out and do not stop the paging. *)
Theorem channel_pages_cover {L : NostrLib} {T : TimeRange} {D : RowDecode} c ch kinds db limit :
  readable db → (1 ≤ limit)%N →
  ∃ feed, StronglySorted window_before feed ∧ NoDup feed ∧
    (∀ k r, (k, r) ∈ feed ↔ in_window c ch kinds db (k, r) = true ∧ events db !! k = Some r) ∧
    read_windows c ch kinds db (S (length feed)) limit None = Some (omap (shown db) feed).
Proof.
  intros Hr Hl. exists (window_query c ch None kinds db). rewrite window_query_rows. split_and!.
  - apply StronglySorted_merge_sort; apply _.
  - rewrite (merge_sort_Permutation window_before _). apply NoDup_filter, NoDup_filter, NoDup_map_to_list.
  - intros k r. rewrite elem_of_merge_sort, list_elem_of_filter, channel_rows_spec. naive_solver.
  - rewrite <- window_query_rows. apply read_windows_rest; [done|done|lia].
Qed.

(** ** Evaluation *)
Module SamplePages.

#[local] Existing Instance slice_lib.
Definition any_time : TimeRange := {| in_time_range := λ _, true |}.
(** One row no longer decodes. *)
Definition decode : RowDecode := {| event_from_row := λ e, if (Nostr.id e =? "b")%string then None else Some e |}.
#[local] Existing Instances any_time decode.

Definition post (i : string) (at_ : Z) : RowKey * EventRow :=
  ((1%N, at_, i),
   {| er_event := {| Nostr.id := i; pubkey := "k"; created_at := at_; kind := KIND_STREAM_MESSAGE; tags := ([] : list (@Tag slice_lib)); content := "" |};
      er_received_at := 0; er_channel_id := Some 7%N; er_deleted := false |}).
(** A reply, which is not at top level, and three posts of one second. *)
Definition reply_row : ThreadRow :=
  {| tr_channel_id := 7; tr_parent_event_id := Some "a"; tr_parent_event_created_at := Some 5%Z; tr_root_event_id := Some "a";
     tr_root_event_created_at := Some 5%Z; tr_depth := 1; reply_count := 0; descendant_count := 0; last_reply_at := None; tr_broadcast := false |}.
Definition sample_db : ThreadDb :=
  {| events := list_to_map [post "a" 5; post "b" 5; post "c" 5; post "d" 4; post "r" 6];
     thread_metadata := {[ (1%N, 6%Z, "r") := reply_row ]} |}.

Definition ids (l : option (list (StoredEvent * option (Z * Z * option Z)))) : option (list string) :=
  match l with Some rows => Some (map (λ s, Nostr.id (event s.1)) rows) | None => None end.

Example pages_of_one : ids (read_windows 1 7 None sample_db 5 1 None) = Some ["a"; "c"; "d"].
Proof. by vm_compute. Qed.
Example pages_of_two : ids (read_windows 1 7 None sample_db 5 2 None) = Some ["a"; "c"; "d"].
Proof. by vm_compute. Qed.
(** A window of no rows says that there are more, without a cursor. *)
Example empty_window :
  get_channel_window 1 7 0 None None sample_db = Ok {| cw_rows := []; has_more := true; next_cursor := None |}.
Proof. by vm_compute. Qed.

Lemma channel_pages_cover_witness :
  readable sample_db ∧ (1 ≤ 2)%N ∧
  ∃ feed, StronglySorted window_before feed ∧ NoDup feed ∧
    (∀ k r, (k, r) ∈ feed ↔ in_window 1 7 None sample_db (k, r) = true ∧ events sample_db !! k = Some r) ∧
    read_windows 1 7 None sample_db (S (length feed)) 2 None = Some (omap (shown sample_db) feed).
Proof.
  assert (Hr : readable sample_db) by (unfold readable; apply (bool_decide_unpack _); vm_compute; exact I).
  split; [exact Hr|]. split; [lia|]. apply (channel_pages_cover 1 7 None sample_db 2 Hr). lia.
Defined.

End SamplePages.
