(* ===== verification/ThreadCounts.v ===== *)
(** * Thread rows over time

    All replicas insert events with the thread row that [thread_meta] or
    [resolve_relay_reply_thread_meta] found for them, and delete events with the
    parent and root of their row, in any order and on reads that may be old.
    The rows stay within bounds ([thread_rows_bounded]).  The counters count
    exactly the live replies ([thread_counters_exact]) as long as the time of
    every root is known and a deletion does not read its event's row before that
    row is written; one that does leaves a count too high
    ([stale_deletion_leaves_count]). *)
From S2P Require Import Prelude Nostr Kinds Thread WorkflowTemplate WorkflowDef WorkflowStore WorkflowDoors Program IngestPolicy Envelopes.
From S2P Require Import IngestRequests ModerationDoors IngestThread Ingest IngestStages IngestProps ThreadStore.

Section threads.
Context {L : NostrLib} {H : HexDecode} {T : TimeRange}.
(** The creation time that an id commits to: an id is a digest of its event. *)
Context (stamp : string → Z).

(** ** Steps *)

Definition has_event (c : Uuid) (i : string) (e : Event) (ch : option Uuid) (db : ThreadDb) : Prop :=
  ∃ k r, events db !! k = Some r ∧ names c i k = true ∧ er_event r = e ∧ er_channel_id r = ch.

(** What was read is in the tables; nothing is asked of a read that found or
    gave nothing.  An old read stays sound, since rows keep what it shows. *)
Definition sound_answer (db : ThreadDb) (x : Exchange ingest_sig) : Prop :=
  match x with
  | Answered r y =>
      match r return Ans r → Prop with
      | GetEventById c i => λ y, ∀ s, y = Some (Some s) → has_event c i (event s) (Nostr.channel_id s) db
      | GetThreadMetadata c i => λ y, ∀ m, y = Some (Some m) → ∃ r, r ∈ rows_of c i db ∧ m = record_of r
      | _ => λ _, True
      end y
  end.

(** What a deletion takes as parent and root: those of a row of the event, or
    none when its read, which may be old, found no row or one without a parent. *)
Definition may_refs (c : Uuid) (i : string) (db : ThreadDb) (parent root : option string) : Prop :=
  (∃ r, r ∈ rows_of c i db ∧ tr_parent_event_id r = parent ∧ tr_root_event_id r = root) ∨ (parent = None ∧ root = None).

(** The read was not older than the thread row of the event. *)
Definition current_refs (c : Uuid) (i : string) (db : ThreadDb) (parent root : option string) : Prop :=
  (∃ r, r ∈ rows_of c i db ∧ tr_parent_event_id r = parent ∧ tr_root_event_id r = root) ∨
  (parent = None ∧ root = None ∧ ∀ r, r ∈ rows_of c i db → tr_parent_event_id r = None).

(** The time of the root is the one its id commits to. *)
Definition root_known (m : ThreadMetadataOwned) : Prop := from_timestamp (stamp (root_event_id m)) = Some (root_event_created_at m).

Inductive thread_step (exact : bool) (db : ThreadDb) : ThreadDb → Prop :=
  | StepEvent c e ch meta answers h now tx_now stored inserted db' :
      stamp (Nostr.id e) = created_at e →
      run_program answers (thread_meta c e ch) [] = (Ok meta, h) → Forall (sound_answer db) h →
      (exact = true → ∀ m, meta = Some m → root_known m) →
      insert_event_with_thread_metadata now tx_now c e ch (as_params <$> meta) db = Ok (stored, inserted, db') →
      thread_step exact db db'
  | StepRelayReply c e ch parent_hex a created answers h now tx_now stored inserted db' :
      stamp (Nostr.id e) = created_at e →
      run_program answers (resolve_relay_reply_thread_meta c parent_hex ch) [] = (Ok a, h) → Forall (sound_answer db) h →
      from_timestamp (created_at e) = Some created →
      (exact = true → root_known (into_thread_meta a (Nostr.id e) created ch)) →
      insert_event_with_thread_metadata now tx_now c e (Some ch) (Some (as_params (into_thread_meta a (Nostr.id e) created ch))) db
        = Ok (stored, inserted, db') →
      thread_step exact db db'
  | StepDelete c i parent root deleted db' :
      may_refs c i db parent root → (exact = true → current_refs c i db parent root) →
      soft_delete_event_and_update_thread c i parent root db = (deleted, db') →
      thread_step exact db db'.

Definition empty_db : ThreadDb := {| events := ∅; thread_metadata := ∅ |}.

(** ** What the ancestry gives *)

Abbreviation Run := (Trace ingest_sig) (only parsing).
Abbreviation wpt := (wp (S := ingest_sig) (λ _ _, True)) (only parsing).

(** Reads of a run. *)
Definition read_event (h : Run) (c : Uuid) (i : string) (s : StoredEvent) : Prop := got h (GetEventById c i) (Some (Some s)).

(** A reply that was placed under a row of the parent, or from its tags. *)
Definition placed (c : Uuid) (parent root : string) (d : Z) (h : Run) : Prop :=
  (∃ m, got h (GetThreadMetadata c parent) (Some (Some m)) ∧ root = default parent (tm_root_event_id m) ∧ d = i32_succ (tm_depth m) ∧
    (d ≤ MAX_THREAD_DEPTH)%Z) ∨
  (d = 1%Z ∧ root = parent) ∨ (d = 2%Z ∧ root ≠ parent).

Definition good_meta (c : Uuid) (e : Event) (ch : Uuid) (m : ThreadMetadataOwned) (h : Run) : Prop :=
  event_id m = Nostr.id e ∧ tm_channel_id m = ch ∧
  placed c (parent_event_id m) (root_event_id m) (depth m) h ∧
  (∃ s, read_event h c (parent_event_id m) s ∧ Nostr.channel_id s = Some ch ∧
    ∀ t, from_timestamp (created_at (event s)) = Some t → parent_event_created_at m = t) ∧
  (∀ t, from_timestamp (created_at e) = Some t → event_created_at m = t).

Lemma placed_stable c parent root d : stable (placed c parent root d).
Proof. unfold placed. solve_stable. Qed.

Lemma timestamp_post created h :
  wpt (timestamp_or_now created) (λ t _, ∀ t', from_timestamp created = Some t' → t = t') h.
Proof. unfold timestamp_or_now. run_stage; by intros ? [= <-]. Qed.

Lemma parent_post c ch parent h :
  wpt (load_parent c ch parent) (λ m h', ∀ s row, m = Ok (s, row) →
    read_event h' c parent s ∧ Nostr.channel_id s = Some ch ∧ got h' (GetThreadMetadata c parent) row) h.
Proof.
  unfold load_parent, read_event. run_stage; intros ?? [= <- <-]; subst. split; [in_trace|].
  match goal with H : negb (_ =? _)%N = false |- _ => apply negb_false_iff, N.eqb_eq in H; subst end. split; [done|in_trace].
Qed.

(** The ancestry from the tags of the parent. *)
Lemma derived_post c s parent created h :
  wpt (derive_ancestry_from_parent_tags c s parent created) (λ '(r, _, d) h', placed c parent r d h') h.
Proof.
  unfold derive_ancestry_from_parent_tags, created_at_of, placed. set (r := default parent _). cbv zeta.
  destruct (String.eqb_spec r parent) as [He|He]; run_stage; [right; by left|right; by right].
Qed.

Lemma client_placed c root parent created s meta h :
  got h (GetThreadMetadata c parent) (Some meta) →
  wpt (client_ancestry c root parent created s meta) (λ m h', ∀ r t d, m = Ok (r, t, d) → placed c parent r d h') h.
Proof.
  intros Hg. unfold client_ancestry. destruct meta as [m|].
  - unfold created_at_of. run_stage; intros ??? [=]; subst; left; exists m. split_and!; [|done|done|by apply Z.leb_le].
    by apply list_elem_of_further.
  - apply wp_bind. eapply wp_mono; [|apply derived_post]. intros [[r t] d] h' Hp. run_stage; by intros ??? [= <- <- <-].
Qed.

Lemma relay_placed c parent created s meta h :
  got h (GetThreadMetadata c parent) (Some meta) →
  wpt (relay_ancestry c parent created s meta) (λ '(r, _, d) h', (d ≤ MAX_THREAD_DEPTH)%Z → placed c parent r d h') h.
Proof.
  intros Hg. unfold relay_ancestry. destruct meta as [m|].
  - unfold created_at_of. run_stage; intros Hd; left; exists m; split_and!; try done. by apply list_elem_of_further.
  - eapply wp_mono; [|apply derived_post]. by intros [[r t] d] h' Hp _.
Qed.

Lemma thread_meta_post c e ch h :
  wpt (thread_meta c e ch) (λ m h', ∀ meta, m = Ok (Some meta) → ch = Some (tm_channel_id meta) ∧ good_meta c e (tm_channel_id meta) meta h') h.
Proof.
  unfold thread_meta. destruct (requires_h_channel_scope _); [|by run_stage; intros ? [=]].
  destruct ch as [ch|]; [|by run_stage; intros ? [=]]. apply wp_then. unfold resolve_nip10_thread_meta.
  destruct (Thread.resolve _) as [[root_hex parent_hex]|] eqn:Er; [|by run_stage; intros ? [=]].
  stage_step; [|by run_stage]. rename s into parent. apply wp_then.
  eapply wp_mono; [|apply parent_post]. intros [[s row]|er] h1; [|by intros _; run_stage].
  intros Hp. destruct (Hp _ _ eq_refl) as (Hev & Hch & Hrow). clear Hp.
  apply wp_bind. eapply stage_post; [done|apply quiet_timestamp|apply timestamp_post|]. intros created h2 He2 Hcreated.
  stage_step; [|by run_stage]. destruct row as [meta|]; cbn [try_option]; [|by run_stage]. apply wp_then.
  eapply stage_post; [done|apply quiet_ancestry|apply client_placed; by eapply got_extends|].
  intros [[[r t] d]|er] h3 He3 Ha; [|by run_stage]. specialize (Ha _ _ _ eq_refl). apply wp_bind.
  eapply stage_post; [done|apply quiet_timestamp|apply timestamp_post|]. intros own h4 He4 Hown. apply wp_return, wp_return.
  intros ? [= <-]. cbn. split; [done|]. unfold good_meta. cbn. split_and!; try done.
  - by eapply placed_stable.
  - exists s. split_and!; [|done|done]. do 3 (eapply got_extends; [eassumption|]). done.
Qed.

Lemma relay_reply_post c parent_hex ch h :
  wpt (resolve_relay_reply_thread_meta c parent_hex ch)
    (λ m h', ∀ a e created, m = Ok a → from_timestamp (created_at e) = Some created →
      good_meta c e ch (into_thread_meta a (Nostr.id e) created ch) h') h.
Proof.
  unfold resolve_relay_reply_thread_meta. stage_step; [|run_stage; by intros ??? [=]]. rename s into parent. apply wp_then.
  eapply wp_mono; [|apply parent_post]. intros [[s row]|er] h1; [|intros _; run_stage; by intros ??? [=]].
  intros Hp. destruct (Hp _ _ eq_refl) as (Hev & Hch & Hrow). clear Hp.
  apply wp_bind. eapply stage_post; [done|apply quiet_timestamp|apply timestamp_post|]. intros created h2 He2 Hcreated.
  destruct row as [meta|]; cbn [try_option]; [|run_stage; by intros ??? [=]]. apply wp_bind.
  eapply stage_post; [done| |apply relay_placed; by eapply got_extends|].
  { unfold relay_ancestry, derive_ancestry_from_parent_tags, created_at_of. solve_quiet. }
  intros [[r t] d] h3 He3 Ha. run_stage; [|by intros ??? [=]]. intros a e own [= <-] Hown. unfold good_meta. cbn. split_and!; try done.
  - apply Ha. by apply Z.leb_le.
  - exists s. split_and!; [|done|done]. do 2 (eapply got_extends; [eassumption|]). done.
  - by intros t' [= <-]%(eq_trans (eq_sym Hown)).
Qed.

(** ** Rows under the statements *)

(** What no counter changes. *)
Definition shape (r : ThreadRow) :=
  (tr_channel_id r, tr_parent_event_id r, tr_parent_event_created_at r, tr_root_event_id r, tr_root_event_created_at r, tr_depth r, tr_broadcast r).

Lemma lookup_update_rows c i f m k : update_rows c i f m !! k = (λ r, if names c i k then f r else r) <$> m !! k.
Proof. unfold update_rows. rewrite map_lookup_imap. by destruct (m !! k). Qed.

Lemma lookup_insert_new k r m k' : insert_new k r m !! k' = if decide (k = k') then Some (default r (m !! k)) else m !! k'.
Proof.
  unfold insert_new. destruct (m !! k) eqn:E; case_decide; subst; cbn; try done; [by rewrite lookup_insert_eq|by rewrite lookup_insert_ne].
Qed.

Lemma insert_new_None k r m : m !! k = None → insert_new k r m = <[k := r]> m.
Proof. intros Hk. unfold insert_new. by rewrite Hk. Qed.

Lemma insert_new_Some key r m k r' : insert_new key r m !! k = Some r' → m !! k = Some r' ∨ (m !! k = None ∧ k = key ∧ r' = r).
Proof. rewrite lookup_insert_new. case_decide as Ek; [subst|by left]. destruct (m !! k) as [r0|]; cbn; [by left|]. intros [= <-]. by right. Qed.

Lemma insert_new_is_Some key r m k : is_Some (m !! k) → is_Some (insert_new key r m !! k).
Proof. intros [r0 Hk]. rewrite lookup_insert_new. case_decide; [by eexists|by rewrite Hk]. Qed.
Lemma insert_new_key key r m : is_Some (insert_new key r m !! key).
Proof. rewrite lookup_insert_new, decide_True by done. by eexists. Qed.

(** The rows after some statements: those before with other counters, and new
    ones that satisfy [P]. *)
Definition grows (P : RowKey → ThreadRow → Prop) (m m' : gmap RowKey ThreadRow) : Prop :=
  (∀ k r, m !! k = Some r → ∃ r', m' !! k = Some r' ∧ shape r' = shape r) ∧
  (∀ k r', m' !! k = Some r' → (∃ r, m !! k = Some r ∧ shape r' = shape r) ∨ (m !! k = None ∧ ∃ r, P k r ∧ shape r' = shape r)).

Lemma grows_refl P m : grows P m m.
Proof. split; eauto. Qed.

Lemma grows_trans P m1 m2 m3 : grows P m1 m2 → grows P m2 m3 → grows P m1 m3.
Proof.
  intros [H1 H1'] [H2 H2']. split.
  - intros k r (r2 & Hr2 & E2)%H1. apply H2 in Hr2 as (r3 & Hr3 & E3). exists r3. split; [done|congruence].
  - intros k r3 [(r2 & Hr2 & E2)|(Hn & r & Hp & E)]%H2'.
    + apply H1' in Hr2 as [(r1 & ? & ?)|(? & r1 & ? & ?)]; [left|right; split; [done|]]; exists r1; (split; [done|congruence]).
    + right. split; [|by exists r]. destruct (m1 !! k) eqn:E1; [|done]. apply H1 in E1 as (? & ? & ?). congruence.
Qed.

Lemma grows_update P c i f m : (∀ r, shape (f r) = shape r) → grows P m (update_rows c i f m).
Proof.
  intros Hf. split; intros k r; rewrite lookup_update_rows.
  - intros ->. cbn. eexists. split; [done|]. by destruct (names c i k).
  - destruct (m !! k) as [r0|]; [|done]. intros [= <-]. left. exists r0. split; [done|]. by destruct (names c i k).
Qed.

Lemma grows_insert_new (P : RowKey → ThreadRow → Prop) k r m : P k r → grows P m (insert_new k r m).
Proof.
  intros Hp. split; intros k' r'; rewrite lookup_insert_new; case_decide as Ek; subst.
  - intros ->. cbn. eauto.
  - eauto.
  - intros [= <-]. destruct (m !! k') as [r0|]; cbn; [left|right]; eauto.
  - eauto.
Qed.

Lemma grows_bump P c i m m' tx_now : bump_replies tx_now c i m = Some m' → grows P m m'.
Proof. unfold bump_replies. destruct (can_count _ _ _ _); [|done]. intros [= <-]. by apply grows_update. Qed.
Lemma grows_bump_descendants P c i m m' : bump_descendants c i m = Some m' → grows P m m'.
Proof. unfold bump_descendants. destruct (can_count _ _ _ _); [|done]. intros [= <-]. by apply grows_update. Qed.

Definition is_stub (r : ThreadRow) : Prop := tr_parent_event_id r = None ∧ tr_root_event_id r = None ∧ tr_depth r = 0%Z.

(** A new row, or stubs. *)
Definition inserts (c : Uuid) (p : ThreadMetadataParams) (k : RowKey) (r : ThreadRow) : Prop :=
  (k = (c, pm_event_created_at p, pm_event_id p) ∧ r = new_row p) ∨ is_stub r.

Lemma insert_thread_rows_grows tx_now c p m m' :
  insert_thread_rows tx_now c p m = Some m' → grows (inserts c p) m m'.
Proof.
  unfold insert_thread_rows. set (k := (c, pm_event_created_at p, pm_event_id p)).
  destruct (m !! k) eqn:Ek; [intros [= <-]; apply grows_refl|].
  assert (Hnew : grows (inserts c p) m (<[k := new_row p]> m)).
  { rewrite <- (insert_new_None _ _ _ Ek). apply grows_insert_new. by left. }
  destruct (pm_parent_event_id p) as [pid|]; [|by intros [= <-]]. cbv zeta.
  set (m1 := insert_new _ _ (<[k := new_row p]> m)).
  assert (H1 : grows (inserts c p) m m1) by (eapply grows_trans; [exact Hnew|]; apply grows_insert_new; by right).
  destruct (pm_root_event_id p) as [rid|].
  - match goal with |- context [bump_replies tx_now c pid ?m] => set (m2 := m) end.
    assert (H2 : grows (inserts c p) m m2).
    { unfold m2. destruct (rid =? pid)%string; [done|]. eapply grows_trans; [exact H1|]. apply grows_insert_new. by right. }
    destruct (bump_replies tx_now c pid m2) as [m3|] eqn:E3; [cbn|done]. intros E4.
    eapply grows_trans; [exact H2|]. eapply grows_trans; [by eapply grows_bump|by eapply grows_bump_descendants].
  - destruct (bump_replies tx_now c pid m1) as [m3|] eqn:E3; [cbn|done]. intros [= <-].
    eapply grows_trans; [exact H1|by eapply grows_bump].
Qed.

(** ** The tables only grow *)

Definition same_event (r r' : EventRow) : Prop := er_event r' = er_event r ∧ er_channel_id r' = er_channel_id r.

Definition db_le (db db' : ThreadDb) : Prop :=
  (∀ k r, events db !! k = Some r → ∃ r', events db' !! k = Some r' ∧ same_event r r') ∧
  (∀ k r, thread_metadata db !! k = Some r → ∃ r', thread_metadata db' !! k = Some r' ∧ shape r' = shape r).

Lemma insert_event_spec now tx_now c e ch meta db stored ins db' :
  insert_event_with_thread_metadata now tx_now c e ch meta db = Ok (stored, ins, db') →
  ∃ t, from_timestamp (created_at e) = Some t ∧
    ((∃ r, events db !! (c, t, Nostr.id e) = Some r ∧ db' = db) ∨
     (events db !! (c, t, Nostr.id e) = None ∧
      events db' = <[(c, t, Nostr.id e) := {| er_event := e; er_received_at := now; er_channel_id := ch; er_deleted := false |}]> (events db) ∧
      match meta with
      | None => thread_metadata db' = thread_metadata db
      | Some p => insert_thread_rows tx_now c p (thread_metadata db) = Some (thread_metadata db')
      end)).
Proof.
  unfold insert_event_with_thread_metadata. destruct (_ =? _)%Z; [done|]. destruct (is_ephemeral _); [done|].
  destruct (from_timestamp (created_at e)) as [t|]; [|done]. intros Hi. exists t. split; [done|].
  destruct (events db !! (c, t, Nostr.id e)) as [r|] eqn:Ek; [left; exists r; naive_solver|right]. split; [done|].
  destruct meta as [p|]; [|by injection Hi as <- <- <-].
  destruct (insert_thread_rows _ _ _ _) as [m|]; [|done]. by injection Hi as <- <- <-.
Qed.

Lemma insert_event_le now tx_now c e ch meta db stored ins db' :
  insert_event_with_thread_metadata now tx_now c e ch meta db = Ok (stored, ins, db') → db_le db db'.
Proof.
  intros (t & _ & [(r & _ & ->)|(Hn & He & Hm)])%insert_event_spec; [split; [intros k r0 ?; exists r0; by split_and!|eauto]|]. split.
  - intros k r Hk. exists r. split; [|done]. rewrite He, lookup_insert_ne; [done|]. intros <-. by rewrite Hn in Hk.
  - destruct meta as [p|]; [|rewrite Hm; eauto]. by apply insert_thread_rows_grows in Hm as [Hm _].
Qed.

Lemma delete_events c i parent root db b db' k :
  soft_delete_event_and_update_thread c i parent root db = (b, db') →
  events db' !! k = (λ r, if names c i k && negb (er_deleted r) then delete_row r else r) <$> events db !! k.
Proof. intros [= <- <-]. cbn. rewrite map_lookup_imap. by destruct (events db !! k). Qed.

Lemma delete_rows_grow P c i parent root db b db' :
  soft_delete_event_and_update_thread c i parent root db = (b, db') → grows P (thread_metadata db) (thread_metadata db').
Proof.
  intros [= <- <-]. cbn. destruct (negb _); [|apply grows_refl]. destruct parent as [pid|]; [|apply grows_refl].
  destruct root as [rid|]; [eapply grows_trans|]; by apply grows_update.
Qed.

Lemma delete_le c i parent root db b db' :
  soft_delete_event_and_update_thread c i parent root db = (b, db') → db_le db db'.
Proof.
  intros Hd. split; [|by eapply (delete_rows_grow (λ _ _, True)) in Hd as [? _]].
  intros k r Hk. rewrite (delete_events _ _ _ _ _ _ _ k Hd), Hk. cbn. eexists. split; [done|]. by destruct (_ && _).
Qed.

Lemma step_le exact db db' : thread_step exact db db' → db_le db db'.
Proof. intros []; eauto using insert_event_le, delete_le. Qed.

Lemma has_event_le c i e ch db db' : db_le db db' → has_event c i e ch db → has_event c i e ch db'.
Proof.
  intros [He _] (k & r & Hk & Hn & <- & <-). apply He in Hk as (r' & Hk & E1 & E2). by exists k, r'.
Qed.

Lemma elem_of_rows_of c i db r : r ∈ rows_of c i db ↔ ∃ k, names c i k = true ∧ thread_metadata db !! k = Some r.
Proof.
  unfold rows_of. rewrite list_elem_of_fmap. split.
  - intros ([k r'] & -> & [Hn Hk%elem_of_map_to_list]%list_elem_of_filter). by exists k.
  - intros (k & Hn & Hk). exists (k, r). split; [done|]. by rewrite list_elem_of_filter, elem_of_map_to_list.
Qed.

(** Reads that were sound stay sound, however old they are. *)
Lemma reads_stay_sound db db' x : db_le db db' → sound_answer db x → sound_answer db' x.
Proof.
  intros Hle. destruct x as [r y]. destruct r; try done; cbn.
  - intros Hs s Hy. eapply has_event_le; [done|by apply Hs].
  - intros Hs m Hy. destruct (Hs m Hy) as (r & (k & Hn & Hk)%elem_of_rows_of & ->).
    apply Hle in Hk as (r' & Hk & Hsh). exists r'. split; [apply elem_of_rows_of; by exists k|].
    unfold shape in Hsh. unfold record_of. congruence.
Qed.

(** ** Bounds *)

(** A stub, or the row of a reply: its own event and its parent are in the
    channel of the row, the depth is bounded, and at depth one the parent is
    the root. *)
Definition row_placed (db : ThreadDb) (k : RowKey) (r : ThreadRow) : Prop :=
  is_stub r ∨
  ∃ p q, tr_parent_event_id r = Some p ∧ tr_root_event_id r = Some q ∧ (1 ≤ tr_depth r ≤ 100)%Z ∧ (tr_depth r = 1%Z → q = p) ∧
    (∃ er, events db !! k = Some er ∧ er_channel_id er = Some (tr_channel_id r)) ∧
    (∃ e, has_event (k_community k) p e (Some (tr_channel_id r)) db).

Definition rows_placed (db : ThreadDb) : Prop := ∀ k r, thread_metadata db !! k = Some r → row_placed db k r.

Lemma row_placed_shape db db' k r r' : db_le db db' → shape r' = shape r → row_placed db k r → row_placed db' k r'.
Proof.
  unfold shape, row_placed, is_stub. intros Hle [= -> -> _ -> _ -> _].
  intros [Hs|(p & q & Hp & Hq & Hd & H1 & (er & Hk & Hch) & e & He)]; [by left|right]. exists p, q. split_and!; try done; try lia.
  - apply Hle in Hk as (er' & Hk & _ & E). exists er'. split; [done|congruence].
  - exists e. by eapply has_event_le.
Qed.

Lemma placed_bounds c p q d h db :
  rows_placed db → Forall (sound_answer db) h → placed c p q d h → (1 ≤ d ≤ 100)%Z ∧ (d = 1%Z → q = p).
Proof.
  intros Hinv Hs [(m & Hg & -> & -> & Hd)|[[-> ->]|[-> Hne]]]; [|by split; [lia|]|by split; [lia|intros ?; lia]].
  rewrite Forall_forall in Hs. apply Hs in Hg. destruct (Hg m eq_refl) as (r & (k & Hn & Hk)%elem_of_rows_of & ->).
  unfold MAX_THREAD_DEPTH in Hd. cbn in Hd |- *.
  destruct (Hinv k r Hk) as [(_ & -> & ->)|(p' & q' & _ & -> & Hb & _)]; [done|].
  unfold i32_succ in *. destruct (Z.eqb_spec (tr_depth r) (2 ^ 31 - 1)); (split; [lia|intros ?; lia]).
Qed.

Lemma insert_placed now tx_now c e ch m h db stored ins db' :
  rows_placed db → Forall (sound_answer db) h → good_meta c e ch m h →
  insert_event_with_thread_metadata now tx_now c e (Some ch) (Some (as_params m)) db = Ok (stored, ins, db') → rows_placed db'.
Proof.
  intros Hinv Hs (Hid & Hch & Hp & (s & Hread & Hsch & _) & Hat) Hi. pose proof (insert_event_le _ _ _ _ _ _ _ _ _ _ Hi) as Hle.
  apply insert_event_spec in Hi as (t & Ht & [(r & _ & ->)|(Hn & He & Hm)]); [done|].
  apply insert_thread_rows_grows in Hm as [_ Hm]. specialize (Hat t Ht). destruct (placed_bounds _ _ _ _ _ _ Hinv Hs Hp) as [Hb H1].
  intros k r [(r0 & Hk & Hsh)|(_ & r0 & [[-> ->]|Hst] & Hsh)]%Hm.
  - eapply row_placed_shape; [done|done|by apply Hinv].
  - unfold as_params, pm_event_created_at, pm_event_id in Hsh |- *. rewrite Hid, Hat.
    unfold shape in Hsh. cbn in Hsh. injection Hsh as Ech Epar _ Eroot _ Edep _. right.
    exists (parent_event_id m), (root_event_id m). rewrite Edep, Ech. split_and!; try done; try lia.
    + eexists. split; [rewrite He; by rewrite lookup_insert_eq|]. cbn. by rewrite Hch.
    + exists (event s). eapply has_event_le; [done|]. rewrite Forall_forall in Hs. apply Hs in Hread. specialize (Hread s eq_refl).
      cbn. by rewrite Hch, <- Hsch.
  - left. destruct Hst as (E1 & E2 & E3). unfold shape in Hsh. split_and!; congruence.
Qed.

Lemma run_post {A} (p : Program ingest_sig A) (Post : A → Run → Prop) answers a h :
  wpt p Post [] → run_program answers p [] = (a, h) → Post a h.
Proof.
  intros Hw Hr. pose proof (wp_sound (S := ingest_sig) (λ _ _, True) p Post answers [] I Hw) as Hs. rewrite Hr in Hs. apply Hs.
Qed.

Lemma step_placed exact db db' : thread_step exact db db' → rows_placed db → rows_placed db'.
Proof.
  intros [c e ch meta answers h now tx_now stored ins db1 _ Hrun Hs _ Hi|c e ch ph a created answers h now tx_now stored ins db1 _ Hrun Hs Ht _ Hi
         |c i parent root b db1 _ _ Hd] Hinv.
  - pose proof (run_post _ _ _ _ _ (thread_meta_post c e ch []) Hrun) as Hmeta. destruct meta as [m|].
    + destruct (Hmeta m eq_refl) as [-> Hg]. by eapply insert_placed.
    + pose proof (insert_event_le _ _ _ _ _ _ _ _ _ _ Hi) as Hle.
      apply insert_event_spec in Hi as (t & _ & [(r & _ & ->)|(_ & _ & Hm)]); [done|].
      intros k r. rewrite Hm. intros Hk. eapply row_placed_shape; [done|done|by apply Hinv].
  - pose proof (run_post _ _ _ _ _ (relay_reply_post c ph ch []) Hrun) as Hmeta.
    eapply insert_placed; [done|exact Hs|by apply Hmeta|exact Hi].
  - pose proof (delete_le _ _ _ _ _ _ _ Hd) as Hle. apply (delete_rows_grow (λ _ _, False)) in Hd as [_ Hd].
    intros k r [(r0 & Hk & Hsh)|(_ & ? & [] & _)]%Hd. eapply row_placed_shape; [done|done|by apply Hinv].
Qed.

End threads.

(** C26: The rows of a thread stay within bounds. However replicas interleave replies of clients
    and of workflows with deletions, and however old their reads are or whichever of them fail:
    every row of a reply has a parent and a root, the event and its parent are in the channel of
    the row, the depth is between 1 and 100, and at depth 1 the root is the parent; every other
    row is a stub of depth 0. So no chain of replies gets a depth beyond the limit, and the
    depth never wraps around. *)
Theorem thread_rows_bounded {L : NostrLib} {H : HexDecode} {T : TimeRange} stamp db :
  rtc (thread_step stamp false) empty_db db → rows_placed db.
Proof.
  intros Hr. cut (∀ db0, rtc (thread_step stamp false) db0 db → rows_placed db0 → rows_placed db).
  { intros Hc. by apply (Hc empty_db). }
  clear Hr. induction 1 as [|db0 db1 db2 Hstep _ IH]; [done|]. intros H0. by eapply IH, step_placed.
Qed.

(** ** Counters *)

Section counters.
Context {L : NostrLib} {H : HexDecode} {T : TimeRange}.
Context (stamp : string → Z).

(** The two ways in which a row refers to another event, each with its counter. *)
Inductive link := ToParent | ToRoot.
Definition target (l : link) (r : ThreadRow) : option string :=
  match l with ToParent => tr_parent_event_id r | ToRoot => tr_root_event_id r end.
Definition counter (l : link) (r : ThreadRow) : Z :=
  match l with ToParent => reply_count r | ToRoot => descendant_count r end.

Definition live (db : ThreadDb) (k : RowKey) : bool :=
  match events db !! k with Some er => negb (er_deleted er) | None => false end.

(** The rows of live events of community [c] that refer to [i]. *)
Definition replies_to (l : link) (c : Uuid) (i : string) (db : ThreadDb) : gset RowKey :=
  dom (filter (λ kr, (k_community kr.1 =? c)%N && bool_decide (target l kr.2 = Some i) && live db kr.1 = true) (thread_metadata db)).

Lemma elem_of_replies_to l c i db k :
  k ∈ replies_to l c i db ↔ k_community k = c ∧ live db k = true ∧ ∃ r, thread_metadata db !! k = Some r ∧ target l r = Some i.
Proof.
  unfold replies_to. rewrite elem_of_dom. unfold is_Some. setoid_rewrite map_lookup_filter_Some. cbn.
  setoid_rewrite andb_true_iff. setoid_rewrite andb_true_iff. setoid_rewrite N.eqb_eq. setoid_rewrite bool_decide_eq_true. naive_solver.
Qed.

Record exact_inv (db : ThreadDb) : Prop := {
  ei_events k r : events db !! k = Some r → stamp (k_id k) = created_at (er_event r) ∧ from_timestamp (stamp (k_id k)) = Some (k_created_at k);
  ei_rows k r : thread_metadata db !! k = Some r → from_timestamp (stamp (k_id k)) = Some (k_created_at k);
  ei_linked l k r i : thread_metadata db !! k = Some r → target l r = Some i →
    ∃ k', is_Some (thread_metadata db !! k') ∧ names (k_community k) i k' = true;
  ei_counts l k r : thread_metadata db !! k = Some r → counter l r = Z.of_nat (size (replies_to l (k_community k) (k_id k) db))
}.

Lemma names_spec c i k : names c i k = true ↔ k_community k = c ∧ k_id k = i.
Proof. unfold names. by rewrite andb_true_iff, N.eqb_eq, String.eqb_eq. Qed.

Lemma key_eq k k' : k_community k = k_community k' → k_id k = k_id k' →
  from_timestamp (stamp (k_id k)) = Some (k_created_at k) → from_timestamp (stamp (k_id k')) = Some (k_created_at k') → k = k'.
Proof.
  destruct k as [[c t] i], k' as [[c' t'] i']. unfold k_community, k_id, k_created_at. cbn. intros -> -> -> [= ->]. done.
Qed.

(** Without a row nothing refers to an event. *)
Lemma no_row_no_replies l db k :
  exact_inv db → from_timestamp (stamp (k_id k)) = Some (k_created_at k) → thread_metadata db !! k = None →
  replies_to l (k_community k) (k_id k) db = ∅.
Proof.
  intros Hinv Ht Hn. apply set_eq. intros k'. rewrite elem_of_replies_to. split; [|set_solver].
  intros (Hc & _ & r & Hk' & Hl). destruct (ei_linked _ Hinv _ _ _ _ Hk' Hl) as (kp & [rp Hp] & [Hcp Hip]%names_spec).
  assert (kp = k) as -> by (apply key_eq; [congruence|done|by eapply ei_rows|done]). congruence.
Qed.

(** *** Insertion *)

Definition b2z (b : bool) : Z := if b then 1%Z else 0%Z.

Lemma bump_replies_counts tx_now c i m m' k r' :
  bump_replies tx_now c i m = Some m' → m' !! k = Some r' →
  ∃ r, m !! k = Some r ∧ shape r' = shape r ∧ reply_count r' = (reply_count r + b2z (names c i k))%Z ∧ descendant_count r' = descendant_count r.
Proof.
  unfold bump_replies. destruct (can_count _ _ _ _); [|done]. intros [= <-]. rewrite lookup_update_rows.
  destruct (m !! k) as [r|]; [|done]. cbn. intros [= <-]. exists r. unfold b2z. destruct (names c i k); cbn; split_and!; done || lia.
Qed.
Lemma bump_descendants_counts c i m m' k r' :
  bump_descendants c i m = Some m' → m' !! k = Some r' →
  ∃ r, m !! k = Some r ∧ shape r' = shape r ∧ reply_count r' = reply_count r ∧ descendant_count r' = (descendant_count r + b2z (names c i k))%Z.
Proof.
  unfold bump_descendants. destruct (can_count _ _ _ _); [|done]. intros [= <-]. rewrite lookup_update_rows.
  destruct (m !! k) as [r|]; [|done]. cbn. intros [= <-]. exists r. unfold b2z. destruct (names c i k); cbn; split_and!; done || lia.
Qed.

(** The three keys that a new reply needs. *)
Definition own_key (c : Uuid) (m : ThreadMetadataOwned) : RowKey := (c, event_created_at m, event_id m).
Definition parent_key (c : Uuid) (m : ThreadMetadataOwned) : RowKey := (c, parent_event_created_at m, parent_event_id m).
Definition root_key (c : Uuid) (m : ThreadMetadataOwned) : RowKey := (c, root_event_created_at m, root_event_id m).

Definition fresh_row (r : ThreadRow) : Prop := reply_count r = 0%Z ∧ descendant_count r = 0%Z.

(** A row after the insertion of a reply: one that was there, the new one or a
    stub, with the counters of the parent and the root one higher. *)
Lemma insert_reply_rows tx_now c meta m m' k r' :
  insert_thread_rows tx_now c (as_params meta) m = Some m' → m !! own_key c meta = None → m' !! k = Some r' →
  ∃ r, (m !! k = Some r ∨
        (m !! k = None ∧ fresh_row r ∧
         ((k = own_key c meta ∧ r = new_row (as_params meta)) ∨
          (k ≠ own_key c meta ∧ (k = parent_key c meta ∨ k = root_key c meta) ∧ is_stub r)))) ∧
    shape r' = shape r ∧
    reply_count r' = (reply_count r + b2z (names c (parent_event_id meta) k))%Z ∧
    descendant_count r' = (descendant_count r + b2z (names c (root_event_id meta) k))%Z.
Proof.
  unfold insert_thread_rows. intros Hi Hn. change (c, pm_event_created_at (as_params meta), pm_event_id (as_params meta)) with (own_key c meta) in Hi.
  rewrite Hn in Hi. cbn [as_params pm_parent_event_id pm_parent_event_created_at pm_root_event_id pm_root_event_created_at default] in Hi.
  cbv zeta in Hi. unfold Datatypes.id in Hi. fold (parent_key c meta) (root_key c meta) in Hi.
  destruct (bump_replies tx_now c (parent_event_id meta) _) as [m3|] eqn:E3; [cbn in Hi|done]. intros Hk.
  destruct (bump_descendants_counts _ _ _ _ _ _ Hi Hk) as (r3 & Hk3 & S3 & C3 & D3).
  destruct (bump_replies_counts _ _ _ _ _ _ _ E3 Hk3) as (r2 & Hk2 & S2 & C2 & D2).
  exists r2. split; [|split_and!; [congruence|lia|lia]]. clear E3 Hi Hk Hk3 S3 C3 D3 S2 C2 D2.
  assert (Hnew : ∀ r, <[own_key c meta := new_row (as_params meta)]> m !! k = Some r →
    m !! k = Some r ∨ (m !! k = None ∧ k = own_key c meta ∧ r = new_row (as_params meta))).
  { intros r. destruct (decide (own_key c meta = k)) as [<-|Hne]; [|rewrite lookup_insert_ne by done; by left].
    rewrite lookup_insert_eq. intros [= <-]. by right. }
  assert (Hp : ∀ r, insert_new (parent_key c meta) (stub_row (pm_channel_id (as_params meta))) (<[own_key c meta := new_row (as_params meta)]> m) !! k = Some r →
    m !! k = Some r ∨ (m !! k = None ∧ fresh_row r ∧ ((k = own_key c meta ∧ r = new_row (as_params meta)) ∨ (k ≠ own_key c meta ∧ k = parent_key c meta ∧ is_stub r)))).
  { intros r [Hk|(Hk & -> & ->)]%insert_new_Some; [apply Hnew in Hk as [Hk|(Hk & -> & ->)]; [by left|right; split; [done|split; [done|by left]]]|].
    destruct (decide (own_key c meta = parent_key c meta)) as [E|Hne]; [by rewrite E, lookup_insert_eq in Hk|].
    rewrite lookup_insert_ne in Hk by done. right. split; [done|]. split; [done|]. right. by split. }
  destruct (root_event_id meta =? parent_event_id meta)%string; [naive_solver|].
  apply insert_new_Some in Hk2 as [Hk|(Hk & -> & ->)]; [apply Hp in Hk; naive_solver|].
  rewrite lookup_insert_new in Hk. case_decide; [done|].
  destruct (decide (own_key c meta = root_key c meta)) as [E|Hne]; [by rewrite E, lookup_insert_eq in Hk|].
  rewrite lookup_insert_ne in Hk by done. right. split; [done|]. split; [done|]. right. split; [done|]. split; [by right|done].
Qed.

(** All three are there afterwards. *)
Lemma insert_reply_keys tx_now c meta m m' :
  insert_thread_rows tx_now c (as_params meta) m = Some m' → m !! own_key c meta = None →
  is_Some (m' !! own_key c meta) ∧ (∃ k, is_Some (m' !! k) ∧ names c (parent_event_id meta) k = true) ∧
  (∃ k, is_Some (m' !! k) ∧ names c (root_event_id meta) k = true).
Proof.
  unfold insert_thread_rows. intros Hi Hn. change (c, pm_event_created_at (as_params meta), pm_event_id (as_params meta)) with (own_key c meta) in Hi.
  rewrite Hn in Hi. cbn [as_params pm_parent_event_id pm_parent_event_created_at pm_root_event_id pm_root_event_created_at default] in Hi.
  cbv zeta in Hi. unfold Datatypes.id in Hi. fold (parent_key c meta) (root_key c meta) in Hi.
  destruct (bump_replies tx_now c (parent_event_id meta) _) as [m3|] eqn:E3; [cbn in Hi|done].
  assert (Hle : ∀ k m2, bump_replies tx_now c (parent_event_id meta) m2 = Some m3 → is_Some (m2 !! k) → is_Some (m' !! k)).
  { intros k m2 E [r Hk]. apply (grows_bump (λ _ _, True)) in E as [E _]. apply E in Hk as (r3 & Hk & _).
    apply (grows_bump_descendants (λ _ _, True)) in Hi as [Hi _]. apply Hi in Hk as (r4 & Hk & _). by eexists. }
  specialize (λ k, Hle k _ E3).
  assert (Hnames : ∀ t i, names c i (c, t, i) = true) by (intros; by apply names_spec).
  split_and!.
  - apply Hle. destruct (_ =? _)%string; repeat apply insert_new_is_Some; rewrite lookup_insert_eq; by eexists.
  - exists (parent_key c meta). split; [|apply Hnames]. apply Hle.
    destruct (_ =? _)%string; [|apply insert_new_is_Some]; apply insert_new_key.
  - destruct (String.eqb_spec (root_event_id meta) (parent_event_id meta)) as [->|Hne].
    + exists (parent_key c meta). split; [|apply Hnames]. apply Hle, insert_new_key.
    + exists (root_key c meta). split; [|apply Hnames]. apply Hle, insert_new_key.
Qed.

Definition referred (l : link) (m : ThreadMetadataOwned) : string :=
  match l with ToParent => parent_event_id m | ToRoot => root_event_id m end.

Lemma target_shape l r r' : shape r' = shape r → target l r' = target l r.
Proof. unfold shape. intros Hs. destruct l; cbn; congruence. Qed.

Lemma target_stub l r : is_stub r → target l r = None.
Proof. intros (H1 & H2 & _). by destruct l. Qed.

(** The insertion of a reply whose row is new. *)
Section insertion.
Context (tx_now : Z) (c : Uuid) (meta : ThreadMetadataOwned) (db db' : ThreadDb) (er : EventRow).
Context (Hrows : insert_thread_rows tx_now c (as_params meta) (thread_metadata db) = Some (thread_metadata db')).
Context (Hn : thread_metadata db !! own_key c meta = None).
Context (He : events db' = <[own_key c meta := er]> (events db)) (Her : er_deleted er = false).

Lemma live_insert k : live db' k = bool_decide (k = own_key c meta) || live db k.
Proof.
  unfold live. rewrite He. destruct (decide (k = own_key c meta)) as [->|Hne].
  - rewrite lookup_insert_eq, Her, bool_decide_true by done. done.
  - by rewrite lookup_insert_ne, bool_decide_false by done.
Qed.

Lemma replies_insert l c' i :
  replies_to l c' i db' = (if decide (c' = c ∧ i = referred l meta) then {[own_key c meta]} else ∅) ∪ replies_to l c' i db.
Proof.
  apply set_eq. intros k. rewrite elem_of_union, !elem_of_replies_to, live_insert. split.
  - intros (Hc & Hl & r' & Hk & Ht). destruct (insert_reply_rows _ _ _ _ _ _ _ Hrows Hn Hk) as (r & Hr & Hs & _).
    rewrite (target_shape l r r' Hs) in Ht. destruct Hr as [Hr|(Hr & _ & [[-> ->]|(_ & _ & Hst)])].
    + right. split_and!; [done| |by exists r]. apply orb_true_iff in Hl as [->%bool_decide_eq_true|Hl]; [congruence|done].
    + left. rewrite decide_True; [set_solver|]. subst. destruct l; cbn in *; split; done || congruence.
    + by rewrite (target_stub l r Hst) in Ht.
  - intros [Hk|(Hc & Hl & r & Hk & Ht)].
    + case_decide as Hd; [|set_solver]. apply elem_of_singleton in Hk as ->. destruct Hd as [-> ->].
      split; [done|]. split; [by rewrite bool_decide_true|].
      destruct (insert_reply_keys _ _ _ _ _ Hrows Hn) as ([r' Hk] & _). exists r'. split; [done|].
      destruct (insert_reply_rows _ _ _ _ _ _ _ Hrows Hn Hk) as (r & [Hr|(_ & _ & [[_ ->]|[Hne _]])] & Hs & _); [congruence| |done].
      rewrite (target_shape l _ _ Hs). by destruct l.
    + split; [done|]. split; [by rewrite Hl, orb_true_r|]. apply insert_thread_rows_grows in Hrows as [Hg _].
      apply Hg in Hk as (r' & Hk & Hs). exists r'. split; [done|]. by rewrite (target_shape l r r' Hs).
Qed.

Lemma counter_insert l k r' : thread_metadata db' !! k = Some r' →
  ∃ r, (thread_metadata db !! k = Some r ∨ (thread_metadata db !! k = None ∧ counter l r = 0%Z)) ∧
    counter l r' = (counter l r + b2z (names c (referred l meta) k))%Z.
Proof.
  intros Hk. destruct (insert_reply_rows _ _ _ _ _ _ _ Hrows Hn Hk) as (r & Hr & _ & Hc1 & Hc2). exists r. split.
  - destruct Hr as [Hr|(Hr & [H1 H2] & _)]; [by left|right]. split; [done|]. by destruct l.
  - by destruct l.
Qed.

Lemma exact_insertion :
  exact_inv db → (∀ k r, events db' !! k = Some r → stamp (k_id k) = created_at (er_event r) ∧ from_timestamp (stamp (k_id k)) = Some (k_created_at k)) →
  (∀ k, k ∈ [own_key c meta; parent_key c meta; root_key c meta] → from_timestamp (stamp (k_id k)) = Some (k_created_at k)) →
  exact_inv db'.
Proof.
  intros Hinv Hev Hkeys.
  assert (Hrk : ∀ k r, thread_metadata db' !! k = Some r → from_timestamp (stamp (k_id k)) = Some (k_created_at k)).
  { intros k r' Hk. destruct (insert_reply_rows _ _ _ _ _ _ _ Hrows Hn Hk) as (r & [Hr|(_ & _ & [[-> _]|(_ & [->| ->] & _)])] & _);
      [by eapply ei_rows|apply Hkeys; set_solver..]. }
  split; [done|done| |].
  - intros l k r' i Hk Ht. destruct (insert_reply_rows _ _ _ _ _ _ _ Hrows Hn Hk) as (r & Hr & Hs & _).
    rewrite (target_shape l r r' Hs) in Ht. destruct Hr as [Hr|(_ & _ & [[-> ->]|(_ & _ & Hst)])].
    + destruct (ei_linked _ Hinv _ _ _ _ Hr Ht) as (kp & [rp Hp] & Hnames). exists kp. split; [|done].
      apply insert_thread_rows_grows in Hrows as [Hg _]. apply Hg in Hp as (rp' & Hp & _). by eexists.
    + destruct (insert_reply_keys _ _ _ _ _ Hrows Hn) as (_ & Hpar & Hroot). destruct l; injection Ht as <-; assumption.
    + by rewrite (target_stub l r Hst) in Ht.
  - intros l k r' Hk. destruct (counter_insert l k r' Hk) as (r & Hr & ->). rewrite replies_insert.
    assert (Hc : counter l r = Z.of_nat (size (replies_to l (k_community k) (k_id k) db))).
    { destruct Hr as [Hr|[Hr ->]]; [by apply ei_counts|]. rewrite no_row_no_replies by eauto. by rewrite size_empty. }
    rewrite Hc. case_decide as Hd.
    + destruct Hd as [Hd1 Hd2]. rewrite (proj2 (names_spec _ _ _) (conj Hd1 Hd2)). rewrite size_union, size_singleton; [cbn; lia|].
      apply disjoint_singleton_l. rewrite elem_of_replies_to. intros (_ & _ & ? & Hown & _). congruence.
    + rewrite (not_true_is_false (names c (referred l meta) k)) by (rewrite names_spec; tauto). rewrite union_empty_l_L. cbn. lia.
Qed.

End insertion.

(** *** Other steps *)

Lemma replies_same l c i db db' :
  thread_metadata db' = thread_metadata db →
  (∀ k r, thread_metadata db !! k = Some r → is_Some (target l r) → live db' k = live db k) →
  replies_to l c i db' = replies_to l c i db.
Proof.
  intros Hm Hl. apply set_eq. intros k. rewrite !elem_of_replies_to, Hm. split; intros (Hc & Hlv & r & Hk & Ht);
    (split; [done|split; [|by exists r]]); [rewrite <- (Hl k r)|rewrite (Hl k r)]; done || by rewrite Ht.
Qed.

(** An event without a new row. *)
Lemma exact_plain k er db db' :
  exact_inv db → rows_placed db → events db !! k = None → events db' = <[k := er]> (events db) → thread_metadata db' = thread_metadata db →
  (∀ k r, events db' !! k = Some r → stamp (k_id k) = created_at (er_event r) ∧ from_timestamp (stamp (k_id k)) = Some (k_created_at k)) →
  exact_inv db'.
Proof.
  intros Hinv Hp Hn He Hm Hev. split; [done|intros k0 r; rewrite Hm; by apply ei_rows|intros l k0 r i; rewrite Hm; by apply ei_linked|].
  intros l k0 r. rewrite Hm. intros Hk. rewrite (replies_same l _ _ db db'); [by apply ei_counts|done|].
  intros k1 r1 Hk1 [j Hj]. unfold live. rewrite He. destruct (decide (k = k1)) as [<-|Hne]; [|by rewrite lookup_insert_ne].
  exfalso. destruct (Hp _ _ Hk1) as [Hst|(p & q & _ & _ & _ & _ & (er0 & Her & _) & _)]; [by rewrite (target_stub l _ Hst) in Hj|congruence].
Qed.

(** What a deletion takes is what the row of the event says. *)
Lemma refs_of_row c i db parent root k r :
  exact_inv db → rows_placed db → current_refs c i db parent root → names c i k = true → thread_metadata db !! k = Some r →
  parent = tr_parent_event_id r ∧ root = tr_root_event_id r.
Proof.
  intros Hinv Hp Hrefs Hnk Hk.
  assert (Huniq : ∀ r', r' ∈ rows_of c i db → r' = r).
  { intros r' (k' & Hnk' & Hk')%elem_of_rows_of. apply names_spec in Hnk as [??], Hnk' as [??].
    assert (k' = k) as -> by (apply key_eq; [congruence|congruence|by eapply ei_rows|by eapply ei_rows]). congruence. }
  destruct Hrefs as [(r' & Hr' & <- & <-)|(-> & -> & Hnone)]; [by rewrite (Huniq r' Hr')|].
  assert (Hin : r ∈ rows_of c i db) by (apply elem_of_rows_of; by exists k). specialize (Hnone r Hin).
  destruct (Hp _ _ Hk) as [(H1 & H2 & _)|(p & q & Hpar & _)]; [done|congruence].
Qed.

Definition drop_counter (l : link) (n : Z) (b : bool) : Z := if b then Z.max (n - 1) 0 else n.

Definition named (c : Uuid) (o : option string) (k : RowKey) : bool := match o with Some i => names c i k | None => false end.

(** The counters after a deletion with both references, or with none. *)
Lemma delete_counters c i parent root db b db' l k r' :
  soft_delete_event_and_update_thread c i parent root db = (b, db') → (parent = None ↔ root = None) →
  thread_metadata db' !! k = Some r' →
  ∃ r, thread_metadata db !! k = Some r ∧ shape r' = shape r ∧
    counter l r' = drop_counter l (counter l r) (b && named c (match l with ToParent => parent | ToRoot => root end) k).
Proof.
  unfold soft_delete_event_and_update_thread. cbv zeta. intros [= Hb <-] Hpr. rewrite Hb. cbn [thread_metadata].
  destruct b; [|intros Hk; exists r'; split_and!; try done; by destruct l].
  destruct parent as [p|], root as [q|]; cbn [named andb]; [|naive_solver..|].
  - rewrite !lookup_update_rows. destruct (thread_metadata db !! k) as [r|]; [|done]. cbn. intros [= <-]. exists r. split; [done|].
    destruct l; cbn; destruct (names c p k), (names c q k); by split.
  - intros Hk. exists r'. split_and!; try done. by destruct l.
Qed.

Definition ref_of (l : link) (parent root : option string) : option string := match l with ToParent => parent | ToRoot => root end.

Lemma live_delete c i parent root db b db' k :
  soft_delete_event_and_update_thread c i parent root db = (b, db') → live db' k = live db k && negb (names c i k).
Proof.
  intros Hd. unfold live. rewrite (delete_events _ _ _ _ _ _ _ k Hd). destruct (events db !! k) as [r|]; [cbn|done].
  destruct (names c i k), (er_deleted r) eqn:E; cbn; by rewrite ?E.
Qed.

Lemma delete_found c i parent root db b db' :
  soft_delete_event_and_update_thread c i parent root db = (b, db') → b = true ↔ ∃ k, names c i k = true ∧ live db k = true.
Proof.
  unfold soft_delete_event_and_update_thread. cbv zeta. intros [= <- _]. rewrite negb_true_iff, bool_decide_eq_false.
  unfold live. split.
  - intros Hn. apply map_not_Forall in Hn as (k & r & Hk & Hn); [|apply _]. apply not_false_iff_true, andb_true_iff in Hn as [Hn Hd].
    exists k. by rewrite Hk.
  - intros (k & Hn & Hl) Hall. destruct (events db !! k) as [r|] eqn:Hk; [|done]. specialize (Hall k r Hk). cbn in Hall.
    by rewrite Hn, Hl in Hall.
Qed.

(** A deletion takes its own event out of the replies of its parent and root. *)
Lemma replies_delete l c i parent root db b db' c' j :
  exact_inv db → rows_placed db → current_refs c i db parent root → soft_delete_event_and_update_thread c i parent root db = (b, db') →
  size (replies_to l c' j db) = size (replies_to l c' j db') +
    (if b && (c' =? c)%N && bool_decide (ref_of l parent root = Some j) then 1 else 0).
Proof.
  intros Hinv Hp Hrefs Hd.
  assert (Hmem : ∀ k, k ∈ replies_to l c' j db' ↔ k ∈ replies_to l c' j db ∧ names c i k = false).
  { intros k. rewrite !elem_of_replies_to, (live_delete _ _ _ _ _ _ _ k Hd), andb_true_iff, negb_true_iff. split.
    - intros (Hc & [Hl Hn] & r' & Hk & Ht). split_and!; try done. apply (delete_rows_grow (λ _ _, False)) in Hd as [_ Hd].
      apply Hd in Hk as [(r & Hk & Hs)|(_ & ? & [] & _)]. exists r. split; [done|]. by rewrite <- (target_shape l r r' Hs).
    - intros [(Hc & Hl & r & Hk & Ht) Hn]. split_and!; try done. apply delete_le in Hd as [_ Hle].
      apply Hle in Hk as (r' & Hk & Hs). exists r'. split; [done|]. by rewrite (target_shape l r r' Hs). }
  destruct b; cbn [andb].
  - destruct (proj1 (delete_found _ _ _ _ _ _ _ Hd) eq_refl) as (ki & Hni & Hli).
    assert (Hki : ∀ k, k ∈ replies_to l c' j db → names c i k = true → k = ki).
    { intros k (_ & _ & r & Hk & _)%elem_of_replies_to Hn. apply names_spec in Hn as [??], Hni as [??]. unfold live in Hli.
      destruct (events db !! ki) eqn:Ei; [|done]. apply key_eq; [congruence|congruence|by eapply ei_rows|by eapply ei_events]. }
    assert (Hin : ki ∈ replies_to l c' j db ↔ c' = c ∧ ref_of l parent root = Some j).
    { rewrite elem_of_replies_to. pose proof (proj1 (names_spec _ _ _) Hni) as [Hci Hii]. split.
      - intros (Hc & _ & r & Hk & Ht). split; [congruence|].
        destruct (refs_of_row c i db parent root ki r Hinv Hp Hrefs Hni Hk) as [-> ->]. by destruct l.
      - intros [-> Hr]. split; [done|]. split; [done|]. destruct Hrefs as [(r & (k0 & Hn0 & Hk0)%elem_of_rows_of & E1 & E2)|(-> & -> & _)].
        + assert (k0 = ki) as ->.
          { apply names_spec in Hn0 as [??]. unfold live in Hli. destruct (events db !! ki) eqn:Ei; [|done].
            apply key_eq; [congruence|congruence|by eapply ei_rows|by eapply ei_events]. }
          exists r. split; [done|]. destruct l; cbn in *; congruence.
        + by destruct l. }
    destruct (decide (c' = c ∧ ref_of l parent root = Some j)) as [Hd1|Hd1].
    + replace (replies_to l c' j db) with ({[ki]} ∪ replies_to l c' j db').
      * rewrite size_union, size_singleton; [|apply disjoint_singleton_l; rewrite Hmem; intros [_ ?]; congruence].
        destruct Hd1 as [-> ->]. rewrite N.eqb_refl, bool_decide_true by done. cbn. lia.
      * apply set_eq. intros k. rewrite elem_of_union, elem_of_singleton, Hmem. split; [intros [->|[? _]]; [by apply Hin|done]|].
        intros Hk. destruct (names c i k) eqn:En; [left; by apply Hki|by right].
    + replace (replies_to l c' j db') with (replies_to l c' j db).
      * destruct (N.eqb_spec c' c) as [->|Hne]; [|cbn; lia]. rewrite bool_decide_false by tauto. cbn. lia.
      * apply set_eq. intros k. rewrite Hmem. split; [|tauto]. intros Hk. split; [done|]. apply not_true_is_false. intros En.
        apply Hd1, Hin. by rewrite <- (Hki k Hk En).
  - replace (replies_to l c' j db') with (replies_to l c' j db); [lia|]. apply set_eq. intros k. rewrite Hmem. split; [|tauto].
    intros Hk. split; [done|]. apply not_true_is_false. intros En. apply elem_of_replies_to in Hk as (_ & Hl & _).
    pose proof (proj2 (delete_found _ _ _ _ _ _ _ Hd) (ex_intro _ k (conj En Hl))) as Hf. discriminate Hf.
Qed.

Lemma exact_delete c i parent root db b db' :
  exact_inv db → rows_placed db → current_refs c i db parent root →
  soft_delete_event_and_update_thread c i parent root db = (b, db') → exact_inv db'.
Proof.
  intros Hinv Hp Hrefs Hd.
  assert (Hpr : parent = None ↔ root = None).
  { destruct Hrefs as [(r & (k & _ & Hk)%elem_of_rows_of & <- & <-)|(-> & -> & _)]; [|done].
    destruct (Hp _ _ Hk) as [(-> & -> & _)|(p & q & -> & -> & _)]; [done|split; discriminate]. }
  assert (Hrows : ∀ l k r', thread_metadata db' !! k = Some r' → ∃ r, thread_metadata db !! k = Some r ∧ shape r' = shape r ∧
    counter l r' = drop_counter l (counter l r) (b && named c (match l with ToParent => parent | ToRoot => root end) k))
    by (intros; by eapply delete_counters).
  split.
  - intros k r'. rewrite (delete_events _ _ _ _ _ _ _ k Hd). destruct (events db !! k) as [r|] eqn:Ek; [cbn|done]. intros [= <-].
    apply (ei_events _ Hinv) in Ek. by destruct (_ && _).
  - intros k r' Hk. destruct (Hrows ToParent k r' Hk) as (r & Hk0 & _). by eapply ei_rows.
  - intros l k r' j Hk Ht. destruct (Hrows l k r' Hk) as (r & Hk0 & Hs & _). rewrite (target_shape l r r' Hs) in Ht.
    destruct (ei_linked _ Hinv _ _ _ _ Hk0 Ht) as (kp & [rp Hkp] & Hn). exists kp. split; [|done].
    apply delete_le in Hd as [_ Hle]. apply Hle in Hkp as (rp' & Hkp & _). by eexists.
  - intros l k r' Hk. destruct (Hrows l k r' Hk) as (r & Hk0 & _ & ->). rewrite (ei_counts _ Hinv l k r Hk0).
    pose proof (replies_delete l c i parent root db b db' (k_community k) (k_id k) Hinv Hp Hrefs Hd) as Hsize.
    fold (ref_of l parent root).
    assert (Hnamed : b && named c (ref_of l parent root) k =
      b && (k_community k =? c)%N && bool_decide (ref_of l parent root = Some (k_id k))).
    { destruct b; [cbn|done]. destruct (ref_of l parent root) as [j|]; cbn; [|by rewrite andb_false_r].
      unfold names. destruct (k_community k =? c)%N; [cbn|done]. destruct (String.eqb_spec (k_id k) j) as [->|Hne];
        [by rewrite bool_decide_true|]. rewrite bool_decide_false; [done|congruence]. }
    rewrite Hnamed. destruct (b && _ && _); cbn [drop_counter]; lia.
Qed.

Lemma insert_exact now tx_now c e ch m h db stored ins db' :
  exact_inv db → rows_placed db → Forall (sound_answer db) h → stamp (Nostr.id e) = created_at e → good_meta c e ch m h → root_known stamp m →
  insert_event_with_thread_metadata now tx_now c e (Some ch) (Some (as_params m)) db = Ok (stored, ins, db') → exact_inv db'.
Proof.
  intros Hinv Hp Hs Hstamp (Hid & Hch & _ & (s & Hread & _ & Hpat) & Hat) Hroot Hi.
  apply insert_event_spec in Hi as (t & Ht & [(r & _ & ->)|(Hn & He & Hm)]); [done|]. specialize (Hat t Ht).
  assert (Hown : (c, t, Nostr.id e) = own_key c m) by (unfold own_key; by rewrite Hid, Hat). rewrite Hown in *.
  assert (Htime : from_timestamp (stamp (k_id (own_key c m))) = Some (k_created_at (own_key c m))).
  { unfold own_key, k_id, k_created_at. cbn. by rewrite Hid, Hstamp, Hat. }
  assert (Hev : ∀ k r, events db' !! k = Some r → stamp (k_id k) = created_at (er_event r) ∧ from_timestamp (stamp (k_id k)) = Some (k_created_at k)).
  { intros k r. rewrite He. destruct (decide (own_key c m = k)) as [<-|Hne].
    - rewrite lookup_insert_eq. intros [= <-]. split; [|done]. unfold own_key, k_id. cbn. by rewrite Hid.
    - rewrite lookup_insert_ne by done. by apply ei_events. }
  destruct (thread_metadata db !! own_key c m) as [r0|] eqn:Er.
  - apply (exact_plain (own_key c m) _ db db' Hinv Hp Hn He); [|done]. unfold insert_thread_rows in Hm.
    change (c, pm_event_created_at (as_params m), pm_event_id (as_params m)) with (own_key c m) in Hm. rewrite Er in Hm. by injection Hm as <-.
  - eapply (exact_insertion tx_now c m db db' _ Hm Er He); [done|done|done|]. intros k Hk.
    rewrite !elem_of_cons, elem_of_nil in Hk. destruct Hk as [->|[->|[->|[]]]]; [done| |exact Hroot].
    rewrite Forall_forall in Hs. apply Hs in Hread. destruct (Hread s eq_refl) as (kp & rp & Hkp & [_ Hip]%names_spec & Erp & _).
    destruct (ei_events _ Hinv _ _ Hkp) as [E1 E2]. unfold parent_key, k_id, k_created_at. cbn. rewrite <- Hip, E2. f_equal.
    symmetry. apply Hpat. rewrite <- Erp, <- E1. exact E2.
Qed.

Lemma step_exact db db' : thread_step stamp true db db' → rows_placed db → exact_inv db → exact_inv db'.
Proof.
  intros [c e ch meta answers h now tx_now stored ins db1 Hstamp Hrun Hs Hroot Hi
         |c e ch ph a created answers h now tx_now stored ins db1 Hstamp Hrun Hs Ht Hroot Hi|c i parent root b db1 _ Hrefs Hd] Hp Hinv.
  - pose proof (run_post _ _ _ _ _ (thread_meta_post c e ch []) Hrun) as Hmeta. destruct meta as [m|].
    + destruct (Hmeta m eq_refl) as [-> Hg]. eapply insert_exact; [done|done|exact Hs|done|done|by apply Hroot|exact Hi].
    + apply insert_event_spec in Hi as (t & Ht & [(r & _ & ->)|(Hn & He & Hm)]); [done|].
      apply (exact_plain _ _ db db1 Hinv Hp Hn He Hm). intros k r. rewrite He.
      destruct (decide ((c, t, Nostr.id e) = k)) as [<-|Hne]; [|rewrite lookup_insert_ne by done; by apply ei_events].
      rewrite lookup_insert_eq. intros [= <-]. unfold k_id, k_created_at. cbn. by rewrite Hstamp.
  - pose proof (run_post _ _ _ _ _ (relay_reply_post c ph ch []) Hrun) as Hmeta.
    eapply insert_exact; [done|done|exact Hs|done|by apply Hmeta|by apply Hroot|exact Hi].
  - eapply exact_delete; [done|done|by apply Hrefs|exact Hd].
Qed.

Lemma exact_empty : exact_inv empty_db.
Proof. by split. Qed.

End counters.

(** C21: The counters of a thread are exact under two provisos: the time of each root is known
    to whoever inserts a reply to it, and a deletion does not read the thread row of its event
    before that row is written (else a counter stays too high, stale_deletion_leaves_count).
    Then replies and deletions in any order, on reads that may otherwise be old, leave every row
    with the number of live events whose row names its event as their parent, and with the
    number of those whose row names it as their root: nothing is counted twice when an event is
    submitted or deleted again, and the floor at zero is never needed. *)
Theorem thread_counters_exact {L : NostrLib} {H : HexDecode} {T : TimeRange} stamp db :
  rtc (thread_step stamp true) empty_db db →
  ∀ k r, thread_metadata db !! k = Some r →
    reply_count r = Z.of_nat (size (replies_to ToParent (k_community k) (k_id k) db)) ∧
    descendant_count r = Z.of_nat (size (replies_to ToRoot (k_community k) (k_id k) db)).
Proof.
  intros Hr. cut (exact_inv stamp db).
  { intros Hinv k r Hk. split; [exact (ei_counts _ _ Hinv ToParent k r Hk)|exact (ei_counts _ _ Hinv ToRoot k r Hk)]. }
  cut (∀ db0, rtc (thread_step stamp true) db0 db → rows_placed db0 → exact_inv stamp db0 → exact_inv stamp db).
  { intros Hc. apply (Hc empty_db Hr); [done|apply exact_empty]. }
  clear Hr. induction 1 as [|db0 db1 db2 Hstep _ IH]; [done|]. intros Hp Hi. apply IH; [by eapply step_placed|by eapply step_exact].
Qed.


(** ** Evaluation *)
Module SampleThreads.
Import SampleIngest.

#[local] Existing Instances slice_lib sample_hex sample_time.

Definition stamp_of (i : string) : Z := if (i =? Nostr.id root)%string then 999%Z else 1000%Z.
(** The root is found, without a row. *)
Definition reads (h : Trace ingest_sig) (r : Req) : Ans r :=
  match r return Ans r with
  | GetEventById c i => Some (if (c =? 1)%N then if (i =? Nostr.id root)%string then Some (stored root) else None else None)
  | GetThreadMetadata _ _ => Some None
  | r => answers None 0 h r
  end.

Definition next (x : result DbError (StoredEvent * bool * ThreadDb)) : ThreadDb := match x with Ok (_, _, db) => db | Err _ => empty_db end.
Definition meta_of (x : result IngestError (option ThreadMetadataOwned)) : option ThreadMetadataOwned := match x with Ok m => m | Err _ => None end.

Definition read_thread := run_program reads (thread_meta 1 reply (Some 7%N)) [].
Definition reply_meta : option ThreadMetadataOwned := match read_thread.1 with Ok m => m | Err _ => None end.
Definition db1 : ThreadDb := next (insert_event_with_thread_metadata 0 0 1 root (Some 7%N) None empty_db).
Definition db2 : ThreadDb := next (insert_event_with_thread_metadata 0 0 1 reply (Some 7%N) (as_params <$> reply_meta) db1).

Example root_counts_its_reply :
  (thread_metadata db2 !! (1%N, 999%Z, Nostr.id root)) ≫= (λ r, Some (reply_count r, descendant_count r)) = Some (1%Z, 1%Z).
Proof. vm_compute. reflexivity. Qed.

Definition event_row : EventRow := {| er_event := root; er_received_at := 0; er_channel_id := Some 7%N; er_deleted := false |}.

Lemma root_row : events db1 !! (1%N, 999%Z, Nostr.id root) = Some event_row.
Proof. vm_compute. reflexivity. Qed.
Lemma root_inserted : insert_event_with_thread_metadata 0 0 1 root (Some 7%N) None empty_db = Ok (stored root, true, db1).
Proof. vm_cast_no_check (eq_refl (Ok (E := DbError) (stored root, true, db1))). Qed.
Lemma reply_read : run_program reads (thread_meta 1 reply (Some 7%N)) [] = (Ok reply_meta, read_thread.2).
Proof. vm_cast_no_check (eq_refl ((Ok (E := IngestError) reply_meta, read_thread.2))). Qed.
Lemma reply_inserted :
  insert_event_with_thread_metadata 0 0 1 reply (Some 7%N) (as_params <$> reply_meta) db1 = Ok (stored reply, true, db2).
Proof. vm_cast_no_check (eq_refl (Ok (E := DbError) (stored reply, true, db2))). Qed.
Lemma reply_root_known : match reply_meta with Some m => from_timestamp (stamp_of (root_event_id m)) = Some (root_event_created_at m) | None => True end.
Proof. vm_compute. reflexivity. Qed.

Lemma run_reads {A} (p : Program ingest_sig A) h : Forall (sound_answer db1) h → Forall (sound_answer db1) (run_program reads p h).2.
Proof.
  revert h. induction p as [a|r k IH]; intros h Hh; cbn [run_program]; [exact Hh|]. apply IH. constructor; [|exact Hh].
  destruct r; try exact I; cbn [reads sound_answer]; [|by intros ? [=]]. intros s.
  destruct (_ =? 1)%N eqn:Ec; [|by intros [=]]. destruct (String.eqb_spec i (Nostr.id root)) as [->|]; [|by intros [=]].
  intros [= <-]. apply N.eqb_eq in Ec as ->. exists (1%N, 999%Z, Nostr.id root), event_row. split; [exact root_row|]. vm_compute. repeat split.
Qed.

Lemma sample_run b : rtc (thread_step stamp_of b) empty_db db2.
Proof.
  eapply rtc_l; [|eapply rtc_l; [|apply rtc_refl]].
  - eapply (StepEvent stamp_of b empty_db 1 root (Some 7%N) None reads [] 0 0); [vm_compute; reflexivity|vm_compute; reflexivity|constructor|by intros _ ? [=]|exact root_inserted].
  - eapply (StepEvent stamp_of b db1 1 reply (Some 7%N) reply_meta reads read_thread.2 0 0);
      [vm_compute; reflexivity|exact reply_read|by apply run_reads| |exact reply_inserted].
    intros _ m Hm. pose proof reply_root_known as Hr. rewrite Hm in Hr. exact Hr.
Qed.

Definition root_key : RowKey := (1%N, 999%Z, Nostr.id root).
Definition db3 : ThreadDb := (soft_delete_event_and_update_thread 1 (Nostr.id reply) None None db2).2.
Lemma deleted_count : (thread_metadata db3 !! root_key) ≫= (λ r, Some (reply_count r)) = Some 1%Z.
Proof. vm_compute. reflexivity. Qed.
Lemma deleted_replies : size (replies_to ToParent (k_community root_key) (k_id root_key) db3) = 0.
Proof. vm_compute. reflexivity. Qed.
Lemma deletion_ran : soft_delete_event_and_update_thread 1 (Nostr.id reply) None None db2 = (true, db3).
Proof. vm_cast_no_check (eq_refl (true, db3)). Qed.

(** A deletion that read before the row of its reply was written takes no
    reply out of the counters. *)
Theorem stale_deletion_leaves_count :
  ∃ db3 k r, thread_step stamp_of false db2 db3 ∧ thread_metadata db3 !! k = Some r ∧ reply_count r = 1%Z ∧
    size (replies_to ToParent (k_community k) (k_id k) db3) = 0.
Proof.
  assert (Hr : ∃ r, thread_metadata db3 !! root_key = Some r ∧ reply_count r = 1%Z).
  { pose proof deleted_count as H. destruct (thread_metadata db3 !! root_key) as [r|]; [|discriminate H].
    exists r. split; [reflexivity|]. by injection H. }
  destruct Hr as (r & Hr & Hc). exists db3, root_key, r. split; [|split; [exact Hr|split; [exact Hc|exact deleted_replies]]].
  refine (StepDelete stamp_of false db2 1 (Nostr.id reply) None None true db3 (or_intror (conj eq_refl eq_refl)) _ deletion_ran).
  intros H. discriminate H.
Qed.

Lemma thread_rows_bounded_witness : rtc (thread_step stamp_of false) empty_db db2 ∧ rows_placed db2.
Proof. split; [apply sample_run|]. apply (thread_rows_bounded stamp_of db2). apply sample_run. Defined.

Lemma thread_counters_exact_witness :
  rtc (thread_step stamp_of true) empty_db db2 ∧
  ∀ k r, thread_metadata db2 !! k = Some r →
    reply_count r = Z.of_nat (size (replies_to ToParent (k_community k) (k_id k) db2)) ∧
    descendant_count r = Z.of_nat (size (replies_to ToRoot (k_community k) (k_id k) db2)).
Proof. split; [apply sample_run|]. apply (thread_counters_exact stamp_of db2). apply sample_run. Defined.

End SampleThreads.
