(* ===== verification/PairingWire.v ===== *)
(** * What two pairing devices exchange

    [maju-core/src/pairing]: the messages of [types.rs], the key derivation of
    [crypto.rs] and the QR code of [qr.rs].  HKDF, percent encoding, URL parsing
    and the parsing of public keys are interfaces to the crates the sources use. *)
From S2P Require Import Prelude Bytes Hex.

(** ** Messages *)

Inductive PayloadType := Nsec | Bunker | Connect | Custom.
Inductive AbortReason := ReasonSasMismatch | UserDenied | Timeout | ProtocolError | ReasonUnknown.
Inductive PairingMessage :=
  | Offer (session_id : string) (version : N)
  | SasConfirm (transcript_hash : string)
  | Payload (payload_type : PayloadType) (payload : string)
  | Complete (success : bool)
  | Abort_ (reason : AbortReason).

Inductive PairingError :=
  | InvalidQr (why : string)
  | InvalidSessionId
  | SasMismatch
  | TranscriptMismatch
  | UnexpectedMessage (expected got : string)
  | SessionExpired
  | Nip44Error
  | JsonError
  | InvalidPubkey (why : string)
  | SigningError.

(** [nostr::util::hkdf]. *)
Class HkdfLib : Type := {
  extract : list Z → list Z → list Z;
  expand : list Z → list Z → nat → list Z
}.
Class HkdfLaws (K : HkdfLib) : Prop := {
  expand_length prk info n : length (expand prk info n) = n;
  expand_ok prk info n : bytes_ok (expand prk info n)
}.

(** ** Derivations ([crypto.rs]) *)

Definition INFO_SESSION_ID : list Z := str_bytes "nostr-pair-session-id".
Definition INFO_SAS : list Z := str_bytes "nostr-pair-sas-v1".
Definition INFO_TRANSCRIPT : list Z := str_bytes "nostr-pair-transcript-v1".

Section derivations.
Context {K : HkdfLib}.

Definition hkdf32 (salt ikm info : list Z) : list Z := take 32 (expand (extract salt ikm) info 32).

Definition derive_session_id (session_secret : list Z) : list Z := hkdf32 [] session_secret INFO_SESSION_ID.

Definition derive_sas (ecdh_shared session_secret : list Z) : Z * list Z :=
  let sas_input := hkdf32 session_secret ecdh_shared INFO_SAS in
  (from_be_bytes (take 4 sas_input) mod 1000000, sas_input)%Z.

Definition derive_transcript_hash (session_id source_pubkey target_pubkey sas_input session_secret : list Z) : list Z :=
  hkdf32 session_secret (session_id ++ source_pubkey ++ target_pubkey ++ sas_input) INFO_TRANSCRIPT.

End derivations.

Fixpoint zeros (n : nat) : string := match n with O => "" | S n => String "0" (zeros n) end.

(** [{code:06}]. *)
Definition format_sas (code : Z) : string :=
  let s := pretty (Z.to_N code) in zeros (6 - String.length s) +:+ s.

Definition ct_eq (a b : list Z) : bool := bool_decide (a = b).

(** A 32-byte array from hex: [hex::decode(..).ok().and_then(|b| b.try_into().ok())]. *)
Definition hex32 {HL : HexLib} (s : string) : option (list Z) :=
  b ← hex_decode s; if (length b =? 32)%nat then Some b else None.

(** ** The QR code ([qr.rs]) *)

Record QrPayload := {
  source_pubkey : string;
  qr_session_secret : list Z;
  relays : list string;
  qr_version : N
}.

(** [PublicKey::from_hex] on 64 lower-case digits (a key is its hex text),
    [utf8_percent_encode] with [NON_ALPHANUMERIC], [percent_decode_str] with
    [decode_utf8_lossy], and the scheme and the presence of a host that
    [Url::parse] finds. *)
Class QrLib : Type := {
  pubkey_valid : string → bool;
  url_encode : string → string;
  url_decode : string → string;
  parse_url : string → option (string * bool)
}.
(** Everything but ASCII letters and digits becomes [%XX]. *)
Class QrLaws (Q : QrLib) : Prop := {
  url_round_trip s : url_decode (url_encode s) = s;
  url_encode_text s : str_forall (λ c, is_ascii_alphanumeric c || Ascii.eqb c "%") (url_encode s) = true
}.

(** [split_once(c)]. *)
Fixpoint split_once (c : ascii) (s : string) : option (string * string) :=
  match s with
  | EmptyString => None
  | String a s => if Ascii.eqb a c then Some ("", s) else '(x, y) ← split_once c s; Some (String a x, y)
  end.

Section qr.
Context {HL : HexLib} {HE : HexEncode} {Q : QrLib}.

Definition encode_qr (p : QrPayload) : string :=
  "nostrpair://" +:+ source_pubkey p +:+ "?secret=" +:+ encode_hex (qr_session_secret p) +:+
  foldr (λ r s, "&relay=" +:+ url_encode r +:+ s) "" (relays p) +:+ "&v=1".

Definition is_lowercase_hex (c : ascii) : bool := is_ascii_digit c || in_range 97 102 c.

(** What the loop over the query collects; a later value replaces an earlier. *)
Record QueryParams := { q_secret : option string; q_relays : list string; q_version : option N }.

Definition query_step (q : QueryParams) (pair : string) : QueryParams :=
  match split_once "=" pair with
  | None => q
  | Some (key, value) =>
      if (key =? "secret")%string then {| q_secret := Some value; q_relays := q_relays q; q_version := q_version q |}
      else if (key =? "relay")%string
      then {| q_secret := q_secret q; q_relays := q_relays q ++ [url_decode value]; q_version := q_version q |}
      else if (key =? "v")%string
      then {| q_secret := q_secret q; q_relays := q_relays q; q_version := parse_unsigned 32 value |}
      else q
  end.

Definition parse_query (query : string) : QueryParams :=
  foldl query_step {| q_secret := None; q_relays := []; q_version := None |} (str_split "&" query).

Definition relay_ok (r : string) : bool :=
  match parse_url r with
  | Some (scheme, has_host) => ((scheme =? "wss")%string || (scheme =? "ws")%string) && has_host
  | None => false
  end.

Definition hex64_text (s : string) : bool := (String.length s =? 64)%nat && str_forall is_lowercase_hex s.

Definition decode_qr (uri : string) : result PairingError QrPayload :=
  if (2048 <? String.length uri)%nat then Err (InvalidQr "URI exceeds 2048-character limit")
  else
    match strip_prefix "nostrpair://" uri with
    | None => Err (InvalidQr "URI must start with nostrpair://")
    | Some rest =>
        match split_once "?" rest with
        | None => Err (InvalidQr "missing query string (expected ?secret=…&relay=…)")
        | Some (pubkey_hex, query) =>
            if negb (hex64_text pubkey_hex) then Err (InvalidQr "pubkey must be 64 lowercase hex chars")
            else if negb (pubkey_valid pubkey_hex) then Err (InvalidQr "invalid pubkey")
            else
              let q := parse_query query in
              let version := default 1%N (q_version q) in
              if negb (version =? 1)%N then Err (InvalidQr "unsupported protocol version")
              else
                match q_secret q with
                | None => Err (InvalidQr "missing 'secret' query parameter")
                | Some secret_str =>
                    if negb (hex64_text secret_str) then Err (InvalidQr "secret must be 64 lowercase hex chars")
                    else
                      match hex_decode secret_str with
                      | None => Err (InvalidQr "invalid secret hex")
                      | Some session_secret =>
                          if negb (length session_secret =? 32)%nat then Err (InvalidQr "secret must be exactly 32 bytes")
                          else if bool_decide (session_secret = replicate 32 0%Z) then Err (InvalidQr "session_secret must not be all zeros")
                          else if bool_decide (q_relays q = []) then Err (InvalidQr "at least one 'relay' query parameter is required")
                          else if negb (forallb relay_ok (q_relays q)) then Err (InvalidQr "invalid relay URL")
                          else Ok {| source_pubkey := pubkey_hex; qr_session_secret := session_secret;
                                     relays := q_relays q; qr_version := version |}
                      end
                end
        end
    end.

(** ** The round trip *)

(** A payload whose code fits and that the source can have made. *)
Definition qr_ok (p : QrPayload) : Prop :=
  hex64_text (source_pubkey p) = true ∧ pubkey_valid (source_pubkey p) = true ∧
  length (qr_session_secret p) = 32 ∧ qr_session_secret p ≠ replicate 32 0%Z ∧
  relays p ≠ [] ∧ Forall (λ r, relay_ok r = true) (relays p) ∧ qr_version p = 1%N.

(** The scanning device accepts only payloads that are in order. *)
Theorem decoded_qr_in_order uri p : decode_qr uri = Ok p → qr_ok p ∧ String.length uri ≤ 2048.
Proof.
  unfold decode_qr. destruct (Nat.ltb_spec 2048 (String.length uri)) as [|Hl]; [done|].
  destruct (strip_prefix _ _) as [rest|]; [|done]. destruct (split_once _ _) as [[pk query]|]; [|done].
  destruct (hex64_text pk) eqn:Ek; [|done]. destruct (pubkey_valid pk) eqn:Ev; [|done]. cbn [negb].
  destruct (N.eqb_spec (default 1%N (q_version (parse_query query))) 1%N) as [Hv|]; [|done]. cbn [negb].
  destruct (q_secret _) as [s|]; [|done]. destruct (hex64_text s); [|done]. cbn [negb].
  destruct (hex_decode s) as [b|]; [|done]. destruct (Nat.eqb_spec (length b) 32) as [Hb|]; [|done]. cbn [negb].
  case_bool_decide as Hz; [done|]. case_bool_decide as Hr; [done|]. destruct (forallb _ _) eqn:Hf; [|done]. intros [= <-].
  split; [|done]. unfold qr_ok. cbn. rewrite Hv. split_and!; try done.
  apply Forall_forall. intros r Hin. rewrite forallb_forall in Hf. by apply Hf, list_elem_of_In.
Qed.

Lemma split_once_app c s t : str_contains_char c s = false → split_once c (s +:+ String c t) = Some (s, t).
Proof.
  induction s as [|a s IH]; simpl; [by rewrite Ascii.eqb_refl|]. intros [-> Hs]%orb_false_iff. by rewrite IH.
Qed.

Lemma hex64_no_char c s : is_lowercase_hex c = false → hex64_text s = true → str_contains_char c s = false.
Proof. intros Hc [_ Hs]%andb_true_iff. by apply (str_forall_no_char is_lowercase_hex). Qed.

Context {HL_ : HexTextLaws HL HE} {QL : QrLaws Q}.

Lemma encoded_no_char c s : is_ascii_alphanumeric c || Ascii.eqb c "%" = false → str_contains_char c (url_encode s) = false.
Proof.
  intros Hc. by apply (str_forall_no_char (λ c, is_ascii_alphanumeric c || Ascii.eqb c "%")); [|apply url_encode_text].
Qed.

(** The query is its pairs, joined. *)
Definition query_pairs (p : QrPayload) : list string :=
  ("secret=" +:+ encode_hex (qr_session_secret p)) :: ((λ r, "relay=" +:+ url_encode r) <$> relays p) ++ ["v=1"].

Lemma query_text p :
  "secret=" +:+ encode_hex (qr_session_secret p) +:+ foldr (λ r s, "&relay=" +:+ url_encode r +:+ s) "" (relays p) +:+ "&v=1"
  = str_join "&" (query_pairs p).
Proof.
  unfold query_pairs. rewrite str_join_cons by (by destruct (relays p)). rewrite <- str_app_assoc. f_equal.
  induction (relays p) as [|r l IH]; [done|]. cbn [foldr fmap list_fmap app]. rewrite str_join_cons by (by destruct l).
  rewrite <- IH. cbn. by rewrite !str_app_assoc.
Qed.

Lemma contains_char_app c s t : str_contains_char c (s +:+ t) = str_contains_char c s || str_contains_char c t.
Proof. induction s as [|a s IH]; simpl; [done|]. by rewrite IH, orb_assoc. Qed.

Lemma pairs_no_sep p : Forall (λ w, str_contains_char "&" w = false) (query_pairs p).
Proof.
  unfold query_pairs. apply Forall_cons. split.
  - rewrite contains_char_app. by apply (str_forall_no_char is_lower_hex_digit); [|apply encode_hex_text].
  - apply Forall_app. split; [|by repeat constructor]. apply Forall_fmap, Forall_forall. intros r _. cbn [compose].
    rewrite contains_char_app. by apply encoded_no_char.
Qed.

Lemma split_key kw k x : kw = k +:+ "=" → str_contains_char "=" k = false → split_once "=" (kw +:+ x) = Some (k, x).
Proof. intros -> Hk. rewrite str_app_assoc. by apply split_once_app. Qed.
Lemma relay_step q r :
  query_step q ("relay=" +:+ url_encode r) = {| q_secret := q_secret q; q_relays := q_relays q ++ [r]; q_version := q_version q |}.
Proof. unfold query_step. rewrite (split_key "relay=" "relay"), url_round_trip by done. done. Qed.
Lemma secret_step q x :
  query_step q ("secret=" +:+ x) = {| q_secret := Some x; q_relays := q_relays q; q_version := q_version q |}.
Proof. unfold query_step. by rewrite (split_key "secret=" "secret") by done. Qed.

Lemma parse_relays l q :
  foldl query_step q ((λ r, "relay=" +:+ url_encode r) <$> l) =
  {| q_secret := q_secret q; q_relays := q_relays q ++ l; q_version := q_version q |}.
Proof.
  revert q. induction l as [|r l IH]; intros q; [by destruct q; rewrite app_nil_r|].
  cbn [fmap list_fmap foldl]. rewrite relay_step, IH. cbn. by rewrite <- app_assoc.
Qed.

Lemma parse_query_pairs p :
  parse_query (str_join "&" (query_pairs p)) =
  {| q_secret := Some (encode_hex (qr_session_secret p)); q_relays := relays p; q_version := Some 1%N |}.
Proof.
  unfold parse_query. rewrite str_split_join by (done || apply pairs_no_sep). unfold query_pairs. cbn [foldl].
  by rewrite secret_step, foldl_app, parse_relays.
Qed.

(** The QR code carries a payload whole: what the source shows is what the
    scanning device reads, if it fits into the limit. *)
Theorem qr_round_trip p :
  qr_ok p → bytes_ok (qr_session_secret p) → String.length (encode_qr p) ≤ 2048 → decode_qr (encode_qr p) = Ok p.
Proof.
  intros (Hk & Hv & Hs & Hz & Hr & Hf & Hn) Hb Hl. unfold decode_qr. destruct (Nat.ltb_spec 2048 (String.length (encode_qr p))); [lia|].
  unfold encode_qr. rewrite strip_prefix_app. cbv beta iota.
  assert (∀ x, split_once "?" (source_pubkey p +:+ "?secret=" +:+ x) = Some (source_pubkey p, "secret=" +:+ x)) as ->.
  { intros x. by apply (split_once_app "?" (source_pubkey p) ("secret=" +:+ x)), hex64_no_char. }
  rewrite query_text, parse_query_pairs, Hk, Hv. cbn.
  assert (hex64_text (encode_hex (qr_session_secret p)) = true) as ->.
  { unfold hex64_text. rewrite encode_hex_length, Hs, Nat.eqb_refl. apply encode_hex_text. }
  rewrite hex_decode_encode by done. rewrite Hs. cbn. rewrite bool_decide_false by done. rewrite bool_decide_false by done.
  assert (forallb relay_ok (relays p) = true) as ->.
  { apply forallb_forall. intros r Hin. rewrite Forall_forall in Hf. by apply Hf, list_elem_of_In. }
  destruct p. cbn in *. by rewrite Hn.
Qed.

End qr.

(** ** Evaluation *)
Module SampleQr.

#[local] Existing Instances plain_hex plain_hex_encode.
Definition plain_urls : QrLib :=
  {| pubkey_valid := λ _, true; url_encode := λ s, s; url_decode := λ s, s; parse_url := λ r, if starts_with "wss://" r then Some ("wss", true) else None |}.
#[local] Existing Instance plain_urls.

Definition hex_key : string := nibbles_text (replicate 32 171%Z).
Definition sample_qr (v : string) : string := "nostrpair://" +:+ hex_key +:+ "?secret=" +:+ hex_key +:+ "&relay=wss://r&v=" +:+ v.

Example version_two : decode_qr (sample_qr "2") = Err (InvalidQr "unsupported protocol version").
Proof. by vm_compute. Qed.
(** A version that does not fit into 32 bits, or is no number, counts as 1. *)
Example version_too_big : decode_qr (sample_qr "4294967298") = decode_qr (sample_qr "1") ∧ is_ok (decode_qr (sample_qr "1")) = true.
Proof. by vm_compute. Qed.

End SampleQr.
