(* ===== verification/PairingSession.v ===== *)
(** * The pairing session

    [maju-core/src/pairing/session.rs]: one side of a pairing as a state machine.
    A method with [&mut self] is an operation of the monad [Op], which keeps the
    state when it fails, as the code does.  The signature scheme, ECDH, NIP-44
    and the JSON of messages are the interface [PairingCrypto]; the clock, the
    nonces and the generated keys are arguments.  Zeroizing memory is left out. *)
From S2P Require Import Prelude Bytes Hex Kinds Nostr PairingWire.

Inductive Role := Source | Target.
Inductive SessionState := Waiting | Confirming | AwaitingConfirmation | Transferring | PayloadExchanged | Completed | Aborted.
#[export] Instance Role_eq_dec : EqDecision Role.
Proof. solve_decision. Defined.
#[export] Instance SessionState_eq_dec : EqDecision SessionState.
Proof. solve_decision. Defined.

(** Nanoseconds. *)
Definition DEFAULT_TIMEOUT : Z := 120 * 10 ^ 9.
Definition PAIRING_KIND : Z := (KIND_PAIRING mod 2 ^ 16)%Z.

(** [nostr::Keys]: a secret key, with the public key that belongs to it. *)
Class KeyLib : Type := { Keys : Type; public_key : Keys → string }.

(** [PublicKey::to_bytes], [generate_shared_key], [nip44::encrypt] with its
    nonce, [nip44::decrypt], [serde_json] on messages, [Tag::public_key],
    [EventBuilder::sign_with_keys] and [Event::verify]. *)
Class PairingCrypto {L : NostrLib} {KL : KeyLib} : Type := {
  key_bytes : string → list Z;
  generate_shared_key : Keys → string → option (list Z);
  nip44_encrypt : Keys → string → string → N → option string;
  nip44_decrypt : Keys → string → string → option string;
  message_to_json : PairingMessage → option string;
  message_from_json : string → option PairingMessage;
  public_key_tag : string → Tag;
  sign_with_keys : Keys → Z → list Tag → string → Z → option Event;
  verify : Event → bool
}.
#[global] Arguments PairingCrypto L KL : clear implicits.

(** What an event takes from the clock and the random source. *)
Record Fresh := { wall : Z; random : Z; nonce : N }.

Section session.
Context {L : NostrLib} {KL : KeyLib} {PC : PairingCrypto L KL} {HK : HkdfLib} {HL : HexLib} {HE : HexEncode} {QL : QrLib}.

Record PairingSession := {
  role : Role;
  state : SessionState;
  keys : Keys;
  session_secret : list Z;
  relay_urls : list string;
  peer_pubkey : option string;
  session_id : list Z;
  sas_code : option Z;
  sas_input : option (list Z);
  processed_ids : gset string;
  started_at : Z;
  timeout : Z
}.

(** ** The monad of an operation *)

Definition Op (A : Type) : Type := PairingSession → result PairingError A * PairingSession.
#[export] Instance op_ret : MRet Op := λ _ a s, (Ok a, s).
#[export] Instance op_bind : MBind Op := λ _ _ f m s,
  match m s with (Ok a, s) => f a s | (Err e, s) => (Err e, s) end.
Definition fail {A} (e : PairingError) : Op A := λ s, (Err e, s).
Definition get : Op PairingSession := λ s, (Ok s, s).
Definition put (f : PairingSession → PairingSession) : Op unit := λ s, (Ok tt, f s).
Definition ok_or {A} (o : option A) (e : PairingError) : Op A := match o with Some a => mret a | None => fail e end.
Definition ensure (b : bool) (e : PairingError) : Op unit := if b then mret tt else fail e.

Definition set_state (st : SessionState) (s : PairingSession) : PairingSession := {|
  role := role s; state := st; keys := keys s; session_secret := session_secret s; relay_urls := relay_urls s;
  peer_pubkey := peer_pubkey s; session_id := session_id s; sas_code := sas_code s; sas_input := sas_input s;
  processed_ids := processed_ids s; started_at := started_at s; timeout := timeout s |}.
Definition set_peer (peer : string) (s : PairingSession) : PairingSession := {|
  role := role s; state := state s; keys := keys s; session_secret := session_secret s; relay_urls := relay_urls s;
  peer_pubkey := Some peer; session_id := session_id s; sas_code := sas_code s; sas_input := sas_input s;
  processed_ids := processed_ids s; started_at := started_at s; timeout := timeout s |}.
Definition set_sas (code : Z) (input : list Z) (s : PairingSession) : PairingSession := {|
  role := role s; state := state s; keys := keys s; session_secret := session_secret s; relay_urls := relay_urls s;
  peer_pubkey := peer_pubkey s; session_id := session_id s; sas_code := Some code; sas_input := Some input;
  processed_ids := processed_ids s; started_at := started_at s; timeout := timeout s |}.
Definition record_event (e : Event) (s : PairingSession) : PairingSession := {|
  role := role s; state := state s; keys := keys s; session_secret := session_secret s; relay_urls := relay_urls s;
  peer_pubkey := peer_pubkey s; session_id := session_id s; sas_code := sas_code s; sas_input := sas_input s;
  processed_ids := {[ Nostr.id e ]} ∪ processed_ids s; started_at := started_at s; timeout := timeout s |}.

(** ** Checks *)

Definition state_name (st : SessionState) : string :=
  match st with
  | Waiting => "Waiting" | Confirming => "Confirming" | AwaitingConfirmation => "AwaitingConfirmation"
  | Transferring => "Transferring" | PayloadExchanged => "PayloadExchanged" | Completed => "Completed" | Aborted => "Aborted"
  end.
Definition role_name (r : Role) : string := match r with Source => "Source" | Target => "Target" end.
Definition message_name (m : PairingMessage) : string :=
  match m with
  | Offer _ _ => "offer" | SasConfirm _ => "sas-confirm" | Payload _ _ => "payload" | Complete _ => "complete" | Abort_ _ => "abort"
  end.
Definition unexpected (expected : string) (got : PairingMessage) : PairingError := UnexpectedMessage expected (message_name got).

Definition is_expired (now : Z) (s : PairingSession) : bool := (timeout s <? now - started_at s)%Z.
Definition check_expired (now : Z) : Op unit := s ← get; ensure (negb (is_expired now s)) SessionExpired.
Definition expect_state (expected : SessionState) : Op unit :=
  s ← get; ensure (bool_decide (state s = expected)) (UnexpectedMessage ("state " +:+ state_name expected) ("state " +:+ state_name (state s))).
Definition expect_role (expected : Role) : Op unit :=
  s ← get; ensure (bool_decide (role s = expected)) (UnexpectedMessage ("role " +:+ role_name expected) ("role " +:+ role_name (role s))).

Definition tagged_for (pk : string) (e : Event) : bool :=
  existsb (λ t, bool_decide (as_slice t !! 0%nat = Some "p") && bool_decide (as_slice t !! 1%nat = Some pk)) (tags e).

Definition validate_event_basics (e : Event) : Op unit :=
  s ← get;
  ensure (verify e) (InvalidPubkey "event verification failed");;
  ensure (bool_decide (Nostr.id e ∉ processed_ids s)) (UnexpectedMessage "new event" "duplicate event id");;
  ensure (kind e =? PAIRING_KIND)%Z (UnexpectedMessage "kind 24134" ("kind " +:+ pretty (kind e)));;
  ensure (tagged_for (public_key (keys s)) e) (InvalidPubkey "event p-tag does not match our ephemeral pubkey").

Definition validate_event_from_peer (e : Event) : Op unit :=
  validate_event_basics e;;
  s ← get;
  match peer_pubkey s with
  | Some expected => ensure (pubkey e =? expected)%string (InvalidPubkey ("event from " +:+ pubkey e +:+ " but expected " +:+ expected))
  | None => mret tt
  end.

(** ** Building and reading events *)

Definition build_event (f : Fresh) (message : PairingMessage) : Op Event :=
  s ← get;
  peer ← ok_or (peer_pubkey s) (InvalidPubkey "no peer pubkey set");
  plaintext ← ok_or (message_to_json message) JsonError;
  encrypted ← ok_or (nip44_encrypt (keys s) peer plaintext (nonce f)) Nip44Error;
  let ts := Z.max 0 (wall f - random f mod 31)%Z in
  ok_or (sign_with_keys (keys s) PAIRING_KIND [public_key_tag peer] encrypted ts) SigningError.

Definition decrypt_message (e : Event) : Op PairingMessage :=
  s ← get;
  let content_len := N.of_nat (String.length (content e)) in
  ensure ((132 <=? content_len) && (content_len <=? 87472))%N (UnexpectedMessage "NIP-44 content (132–87472 chars)" (pretty content_len +:+ " chars"));;
  decrypted ← ok_or (nip44_decrypt (keys s) (pubkey e) (content e)) Nip44Error;
  let decrypted_len := N.of_nat (String.length decrypted) in
  ensure (decrypted_len <=? 65535)%N (UnexpectedMessage "plaintext ≤ 65535 bytes" (pretty decrypted_len +:+ " bytes"));;
  ok_or (message_from_json decrypted) JsonError.

(** ** The source *)

(** The session and the QR payload, for generated keys and secret. *)
Definition new_source (now : Z) (ks : Keys) (secret : list Z) (relay_url : string) : PairingSession * QrPayload :=
  ({| role := Source; state := Waiting; keys := ks; session_secret := secret; relay_urls := [relay_url]; peer_pubkey := None;
      session_id := derive_session_id secret; sas_code := None; sas_input := None; processed_ids := ∅; started_at := now;
      timeout := DEFAULT_TIMEOUT |},
   {| source_pubkey := public_key ks; qr_session_secret := secret; relays := [relay_url]; qr_version := 1 |}).

Definition handle_offer (now : Z) (e : Event) : Op string :=
  check_expired now;; expect_state Waiting;; expect_role Source;; validate_event_basics e;;
  msg ← decrypt_message e;
  match msg with
  | Offer session_id_hex version =>
      ensure (version =? 1)%N (UnexpectedMessage "version 1" ("version " +:+ pretty version));;
      s ← get;
      ensure (match hex32 session_id_hex with Some i => ct_eq i (session_id s) | None => false end) InvalidSessionId;;
      let peer := pubkey e in
      put (set_peer peer);;
      ecdh ← ok_or (generate_shared_key (keys s) peer) SigningError;
      let '(code, input) := derive_sas ecdh (session_secret s) in
      put (set_sas code input);;
      put (set_state Confirming);;
      put (record_event e);;
      mret (format_sas code)
  | other => fail (unexpected "offer" other)
  end.

Definition confirm_sas (now : Z) (f : Fresh) : Op Event :=
  check_expired now;; expect_state Confirming;; expect_role Source;;
  s ← get;
  input ← ok_or (sas_input s) SasMismatch;
  peer ← ok_or (peer_pubkey s) (InvalidPubkey "no peer");
  let transcript_hash :=
    derive_transcript_hash (session_id s) (key_bytes (public_key (keys s))) (key_bytes peer) input (session_secret s) in
  event ← build_event f (SasConfirm (encode_hex transcript_hash));
  put (set_state Transferring);;
  mret event.

Definition receive_payload (e : Event) : Op (PayloadType * string) :=
  msg ← decrypt_message e;
  match msg with
  | Payload payload_type payload => put (set_state PayloadExchanged);; put (record_event e);; mret (payload_type, payload)
  | other => fail (unexpected "payload" other)
  end.

Definition handle_return_payload (now : Z) (e : Event) : Op (PayloadType * string) :=
  check_expired now;; expect_state Transferring;; expect_role Source;; validate_event_from_peer e;; receive_payload e.

Definition send_source_complete (now : Z) (f : Fresh) (success : bool) : Op Event :=
  check_expired now;; expect_state PayloadExchanged;; expect_role Source;;
  event ← build_event f (Complete success);
  put (set_state (if success then Completed else Aborted));;
  mret event.

Definition send_payload (now : Z) (f : Fresh) (payload_type : PayloadType) (payload : string) : Op Event :=
  check_expired now;; expect_state Transferring;; expect_role Source;;
  event ← build_event f (Payload payload_type payload);
  put (set_state PayloadExchanged);;
  mret event.

Definition handle_complete (now : Z) (e : Event) : Op unit :=
  check_expired now;; expect_state PayloadExchanged;; expect_role Source;; validate_event_from_peer e;;
  msg ← decrypt_message e;
  match msg with
  | Complete true => put (set_state Completed);; put (record_event e)
  | Complete false => put (set_state Aborted);; fail (UnexpectedMessage "complete(success=true)" "complete(success=false)")
  | other => fail (unexpected "complete" other)
  end.

(** ** The target *)

Definition new_target (now : Z) (ks : Keys) (f : Fresh) (qr : QrPayload) : result PairingError (PairingSession * Event) :=
  match generate_shared_key ks (source_pubkey qr) with
  | None => Err SigningError
  | Some ecdh =>
      let session_id := derive_session_id (qr_session_secret qr) in
      let '(code, input) := derive_sas ecdh (qr_session_secret qr) in
      let s := {| role := Target; state := Waiting; keys := ks; session_secret := qr_session_secret qr; relay_urls := relays qr;
                  peer_pubkey := Some (source_pubkey qr); session_id := session_id; sas_code := Some code; sas_input := Some input;
                  processed_ids := ∅; started_at := now; timeout := DEFAULT_TIMEOUT |} in
      match build_event f (Offer (encode_hex session_id) 1) s with
      | (Err e, _) => Err e
      | (Ok event, s) => Ok (set_state Confirming s, event)
      end
  end.

Definition handle_sas_confirm (now : Z) (e : Event) : Op string :=
  check_expired now;; expect_state Confirming;; expect_role Target;; validate_event_from_peer e;;
  msg ← decrypt_message e;
  match msg with
  | SasConfirm received_hash =>
      s ← get;
      input ← ok_or (sas_input s) SasMismatch;
      peer ← ok_or (peer_pubkey s) (InvalidPubkey "no peer");
      let expected_hash :=
        derive_transcript_hash (session_id s) (key_bytes peer) (key_bytes (public_key (keys s))) input (session_secret s) in
      if match hex32 received_hash with Some rb => ct_eq rb expected_hash | None => false end then
        put (set_state AwaitingConfirmation);;
        put (record_event e);;
        code ← ok_or (sas_code s) SasMismatch;
        mret (format_sas code)
      else put (set_state Aborted);; fail TranscriptMismatch
  | other => fail (unexpected "sas-confirm" other)
  end.

Definition confirm_target_sas (now : Z) : Op unit :=
  check_expired now;; expect_state AwaitingConfirmation;; expect_role Target;; put (set_state Transferring).

Definition handle_payload (now : Z) (e : Event) : Op (PayloadType * string) :=
  check_expired now;; expect_state Transferring;; expect_role Target;; validate_event_from_peer e;; receive_payload e.

Definition send_complete (now : Z) (f : Fresh) : Op Event :=
  check_expired now;; expect_state PayloadExchanged;; expect_role Target;;
  event ← build_event f (Complete true);
  put (set_state Completed);;
  mret event.

(** ** Either side *)

Definition is_terminal (st : SessionState) : bool := match st with Completed | Aborted => true | _ => false end.
Definition not_terminal : Op unit :=
  s ← get; ensure (negb (is_terminal (state s))) (UnexpectedMessage "non-terminal state" ("state " +:+ state_name (state s))).

Definition abort_ (f : Fresh) (reason : AbortReason) : Op (option Event) :=
  not_terminal;;
  s ← get;
  match peer_pubkey s with
  | None => put (set_state Aborted);; mret None
  | Some _ => event ← build_event f (Abort_ reason); put (set_state Aborted);; mret (Some event)
  end.

Definition handle_abort (e : Event) : Op AbortReason :=
  not_terminal;;
  s ← get;
  match peer_pubkey s with
  | None => fail (InvalidPubkey "cannot accept abort before peer is known")
  | Some _ =>
      validate_event_from_peer e;;
      msg ← decrypt_message e;
      match msg with
      | Abort_ reason => put (set_state Aborted);; put (record_event e);; mret reason
      | other => fail (unexpected "abort" other)
      end
  end.

Definition displayed_code (s : PairingSession) : option string := format_sas <$> sas_code s.

Definition sign_event (s : PairingSession) (k : Z) (ts : list Tag) (c : string) (at_ : Z) : result PairingError Event :=
  match sign_with_keys (keys s) k ts c at_ with Some e => Ok e | None => Err SigningError end.

Definition qr_uri (s : PairingSession) : option string :=
  match role s with
  | Target => None
  | Source => Some (encode_qr {| source_pubkey := public_key (keys s); qr_session_secret := session_secret s;
                                 relays := relay_urls s; qr_version := 1 |})
  end.

End session.
