(* ===== verification/PairingProps.v ===== *)
(** * Properties of pairing

    One session follows the protocol automaton whatever it is given
    ([session_follows_protocol]).  Two sessions on a network that may drop,
    repeat, reorder and inject events exchange the payload with each other and
    only with each other ([pairing_agreement]). *)
From S2P Require Import Prelude Bytes Hex Kinds Nostr PairingWire PairingSession.

Section one_session.
Context {L : NostrLib} {KL : KeyLib} {PC : PairingCrypto L KL} {HK : HkdfLib} {HL : HexLib} {HE : HexEncode}.

#[local] Arguments derive_sas : simpl never.
#[local] Arguments derive_transcript_hash : simpl never.

(** ** Calls *)

Inductive Call :=
  | HandleOffer (e : Event)
  | ConfirmSas (f : Fresh)
  | HandleReturnPayload (e : Event)
  | SendSourceComplete (f : Fresh) (success : bool)
  | SendPayload (f : Fresh) (t : PayloadType) (p : string)
  | HandleComplete (e : Event)
  | HandleSasConfirm (e : Event)
  | ConfirmTargetSas
  | HandlePayload (e : Event)
  | SendComplete (f : Fresh)
  | CallAbort (f : Fresh) (r : AbortReason)
  | HandleAbort (e : Event).

Inductive Output :=
  | OCode (code : string)
  | OEvent (e : Event)
  | OPayload (t : PayloadType) (p : string)
  | ODone
  | OReason (r : AbortReason).

Definition run_call (now : Z) (c : Call) : Op Output :=
  match c with
  | HandleOffer e => code ← handle_offer now e; mret (OCode code)
  | ConfirmSas f => e ← confirm_sas now f; mret (OEvent e)
  | HandleReturnPayload e => x ← handle_return_payload now e; mret (OPayload x.1 x.2)
  | SendSourceComplete f b => e ← send_source_complete now f b; mret (OEvent e)
  | SendPayload f t p => e ← send_payload now f t p; mret (OEvent e)
  | HandleComplete e => handle_complete now e;; mret ODone
  | HandleSasConfirm e => code ← handle_sas_confirm now e; mret (OCode code)
  | ConfirmTargetSas => confirm_target_sas now;; mret ODone
  | HandlePayload e => x ← handle_payload now e; mret (OPayload x.1 x.2)
  | SendComplete f => e ← send_complete now f; mret (OEvent e)
  | CallAbort f r => e ← abort_ f r; mret (match e with Some e => OEvent e | None => ODone end)
  | HandleAbort e => r ← handle_abort e; mret (OReason r)
  end.

(** The protocol: who may do what in which state, and where it leads. *)
Definition next_state (r : Role) (st : SessionState) (c : Call) : option SessionState :=
  match c, r, st with
  | HandleOffer _, Source, Waiting => Some Confirming
  | ConfirmSas _, Source, Confirming => Some Transferring
  | HandleReturnPayload _, Source, Transferring | SendPayload _ _ _, Source, Transferring => Some PayloadExchanged
  | SendSourceComplete _ b, Source, PayloadExchanged => Some (if b then Completed else Aborted)
  | HandleComplete _, Source, PayloadExchanged => Some Completed
  | HandleSasConfirm _, Target, Confirming => Some AwaitingConfirmation
  | ConfirmTargetSas, Target, AwaitingConfirmation => Some Transferring
  | HandlePayload _, Target, Transferring => Some PayloadExchanged
  | SendComplete _, Target, PayloadExchanged => Some Completed
  | CallAbort _ _, _, st | HandleAbort _, _, st => if is_terminal st then None else Some Aborted
  | _, _, _ => None
  end.

Definition received (c : Call) : option Event :=
  match c with
  | HandleOffer e | HandleReturnPayload e | HandleComplete e | HandleSasConfirm e | HandlePayload e | HandleAbort e => Some e
  | _ => None
  end.
Definition is_abort (c : Call) : bool := match c with CallAbort _ _ | HandleAbort _ => true | _ => false end.

(** What stays for the life of a session. *)
Definition same_session (s s' : PairingSession) : Prop :=
  role s' = role s ∧ keys s' = keys s ∧ session_secret s' = session_secret s ∧ session_id s' = session_id s ∧
  started_at s' = started_at s ∧ timeout s' = timeout s.

(** ** What a call reads and builds *)

Definition reads (s : PairingSession) (e : Event) (m : PairingMessage) : Prop :=
  ∃ text, nip44_decrypt (keys s) (pubkey e) (content e) = Some text ∧ message_from_json text = Some m.

Definition built (s : PairingSession) (m : PairingMessage) (e : Event) : Prop :=
  ∃ peer text n c at_, peer_pubkey s = Some peer ∧ message_to_json m = Some text ∧ nip44_encrypt (keys s) peer text n = Some c ∧
    sign_with_keys (keys s) PAIRING_KIND [public_key_tag peer] c at_ = Some e.

(** An event of the protocol, for this session, not seen before. *)
Definition fresh_for (s : PairingSession) (e : Event) : Prop :=
  verify e = true ∧ (Nostr.id e ∉ processed_ids s) ∧ kind e = PAIRING_KIND ∧ tagged_for (public_key (keys s)) e = true.
Definition from_peer (s : PairingSession) (e : Event) : Prop := ∀ p, peer_pubkey s = Some p → pubkey e = p.

(** What the answer to each call means. *)
Definition call_effect (s : PairingSession) (c : Call) (o : Output) (s' : PairingSession) : Prop :=
  match c with
  | HandleOffer e =>
      ∃ i v ecdh, reads s e (Offer i v) ∧ v = 1%N ∧ hex32 i = Some (session_id s) ∧
        generate_shared_key (keys s) (pubkey e) = Some ecdh ∧ peer_pubkey s' = Some (pubkey e) ∧
        sas_code s' = Some (derive_sas ecdh (session_secret s)).1 ∧ sas_input s' = Some (derive_sas ecdh (session_secret s)).2 ∧
        o = OCode (format_sas (derive_sas ecdh (session_secret s)).1)
  | ConfirmSas _ =>
      ∃ input peer e, sas_input s = Some input ∧ peer_pubkey s = Some peer ∧ o = OEvent e ∧
        built s (SasConfirm (encode_hex (derive_transcript_hash (session_id s) (key_bytes (public_key (keys s))) (key_bytes peer) input
          (session_secret s)))) e
  | SendSourceComplete _ b => ∃ e, o = OEvent e ∧ built s (Complete b) e
  | SendPayload _ t p => ∃ e, o = OEvent e ∧ built s (Payload t p) e
  | HandleComplete e => o = ODone ∧ reads s e (Complete true)
  | HandleSasConfirm e =>
      ∃ h input peer code, reads s e (SasConfirm h) ∧ sas_input s = Some input ∧ peer_pubkey s = Some peer ∧ sas_code s = Some code ∧
        hex32 h = Some (derive_transcript_hash (session_id s) (key_bytes peer) (key_bytes (public_key (keys s))) input (session_secret s)) ∧
        o = OCode (format_sas code)
  | ConfirmTargetSas => o = ODone
  | HandleReturnPayload e | HandlePayload e => ∃ t p, o = OPayload t p ∧ reads s e (Payload t p)
  | SendComplete _ => ∃ e, o = OEvent e ∧ built s (Complete true) e
  | CallAbort _ r => (o = ODone ∧ peer_pubkey s = None) ∨ ∃ e, o = OEvent e ∧ built s (Abort_ r) e
  | HandleAbort e => ∃ r, o = OReason r ∧ reads s e (Abort_ r)
  end.

Definition call_ok (now : Z) (s : PairingSession) (c : Call) (o : Output) (s' : PairingSession) : Prop :=
  next_state (role s) (state s) c = Some (state s') ∧ (is_abort c = false → is_expired now s = false) ∧
  processed_ids s' = match received c with Some e => {[ Nostr.id e ]} ∪ processed_ids s | None => processed_ids s end ∧
  (∀ e, received c = Some e → fresh_for s e ∧ (match c with HandleOffer _ => True | _ => from_peer s e end)) ∧
  (match c with HandleOffer _ => True
   | _ => peer_pubkey s' = peer_pubkey s ∧ sas_code s' = sas_code s ∧ sas_input s' = sas_input s end) ∧
  call_effect s c o s'.

(** A call that fails changes nothing, except that a wrong transcript and a
    failure reported by the target end the session, and that an offer whose key
    has no shared secret leaves its key behind. *)
Definition call_failed (s : PairingSession) (c : Call) (e : PairingError) (s' : PairingSession) : Prop :=
  s' = s ∨
  (s' = set_state Aborted s ∧ match c with
    | HandleSasConfirm _ => e = TranscriptMismatch ∧ state s = Confirming
    | HandleComplete ev => reads s ev (Complete false) ∧ state s = PayloadExchanged
    | _ => False end) ∨
  (∃ ev, c = HandleOffer ev ∧ state s = Waiting ∧ generate_shared_key (keys s) (pubkey ev) = None ∧ s' = set_peer (pubkey ev) s).

(** A code is known as soon as the bytes it was derived from are. *)
Definition sas_wf (s : PairingSession) : Prop := is_Some (sas_input s) → is_Some (sas_code s).

(** ** Rules for operations *)

Definition outcome {A} (m : Op A) (s : PairingSession) (Q : result PairingError A → PairingSession → Prop) : Prop := Q (m s).1 (m s).2.

Lemma outcome_bind {A B} (m : Op A) (f : A → Op B) s Q :
  outcome m s (λ r s', match r with Ok a => outcome (f a) s' Q | Err e => Q (Err e) s' end) → outcome (m ≫= f) s Q.
Proof. unfold outcome, mbind, op_bind. destruct (m s) as [[a|e] s']; done. Qed.
Lemma outcome_mono {A} (m : Op A) s (Q Q' : result PairingError A → PairingSession → Prop) :
  (∀ r s', Q r s' → Q' r s') → outcome m s Q → outcome m s Q'.
Proof. unfold outcome. auto. Qed.
Lemma outcome_ensure b e s (Q : result PairingError unit → PairingSession → Prop) :
  (b = true → Q (Ok tt) s) → (b = false → Q (Err e) s) → outcome (ensure b e) s Q.
Proof. destruct b; intros H1 H2; [by apply H1|by apply H2]. Qed.
Lemma outcome_ok_or {A} (o : option A) e s (Q : result PairingError A → PairingSession → Prop) :
  (∀ a, o = Some a → Q (Ok a) s) → (o = None → Q (Err e) s) → outcome (ok_or o e) s Q.
Proof. destruct o; intros H1 H2; [by apply H1|by apply H2]. Qed.

Lemma outcome_checks now st r s (Q : result PairingError unit → PairingSession → Prop) :
  (is_expired now s = false → state s = st → role s = r → Q (Ok tt) s) → (∀ e, Q (Err e) s) →
  outcome (check_expired now;; expect_state st;; expect_role r) s Q.
Proof.
  intros HQ HE'. unfold outcome, check_expired, expect_state, expect_role, mbind, op_bind, get. cbn.
  destruct (is_expired now s) eqn:He; cbn; [done|]. case_bool_decide; cbn; [|done]. case_bool_decide; cbn; [|done]. auto.
Qed.

Lemma outcome_basics e s (Q : result PairingError unit → PairingSession → Prop) :
  (fresh_for s e → Q (Ok tt) s) → (∀ er, Q (Err er) s) → outcome (validate_event_basics e) s Q.
Proof.
  intros HQ HE'. unfold validate_event_basics. apply outcome_bind. cbn.
  apply outcome_bind, outcome_ensure; [intros Hv|done]. apply outcome_bind, outcome_ensure; [intros Hp%bool_decide_eq_true|done].
  apply outcome_bind, outcome_ensure; [intros Hk%Z.eqb_eq|done]. apply outcome_ensure; [|done]. intros Ht. by apply HQ.
Qed.

Lemma outcome_from_peer e s (Q : result PairingError unit → PairingSession → Prop) :
  (fresh_for s e → from_peer s e → Q (Ok tt) s) → (∀ er, Q (Err er) s) → outcome (validate_event_from_peer e) s Q.
Proof.
  intros HQ HE'. unfold validate_event_from_peer. apply outcome_bind, outcome_basics; [|done]. intros Hf.
  apply outcome_bind. cbn. destruct (peer_pubkey s) as [p|] eqn:Ep.
  - apply outcome_ensure; [|done]. intros Hq%String.eqb_eq. apply HQ; [done|]. intros q. rewrite Ep. by intros [= <-].
  - apply HQ; [done|]. intros q. by rewrite Ep.
Qed.

Lemma outcome_decrypt e s (Q : result PairingError PairingMessage → PairingSession → Prop) :
  (∀ m, reads s e m → Q (Ok m) s) → (∀ er, Q (Err er) s) → outcome (decrypt_message e) s Q.
Proof.
  intros HQ HE'. unfold decrypt_message. apply outcome_bind. cbn. apply outcome_bind, outcome_ensure; [intros _|done].
  apply outcome_bind, outcome_ok_or; [intros text Ht|done]. apply outcome_bind, outcome_ensure; [intros _|done].
  apply outcome_ok_or; [|done]. intros m Hm. apply HQ. by exists text.
Qed.

Lemma outcome_build f m s (Q : result PairingError Event → PairingSession → Prop) :
  (∀ e, built s m e → Q (Ok e) s) → (∀ er, Q (Err er) s) → outcome (build_event f m) s Q.
Proof.
  intros HQ HE'. unfold build_event. apply outcome_bind. cbn. apply outcome_bind, outcome_ok_or; [intros peer Hp|done].
  apply outcome_bind, outcome_ok_or; [intros text Ht|done]. apply outcome_bind, outcome_ok_or; [intros c Hc|done].
  apply outcome_ok_or; [|done]. intros e He. apply HQ. unfold built. by eauto 10.
Qed.

Definition call_spec (now : Z) (s : PairingSession) (c : Call) (r : result PairingError Output) (s' : PairingSession) : Prop :=
  same_session s s' ∧ match r with Ok o => call_ok now s c o s' | Err e => call_failed s c e s' end.

Lemma spec_unchanged now s c e : call_spec now s c (Err e) s.
Proof. split; [by repeat split|by left]. Qed.

(** A call whose last step is to answer. *)
Lemma outcome_answer {A} (m : Op A) (f : A → Output) now s c :
  outcome m s (λ r s', call_spec now s c (match r with Ok a => Ok (f a) | Err e => Err e end) s') →
  outcome (a ← m; mret (f a)) s (call_spec now s c).
Proof. intros H. apply outcome_bind. eapply outcome_mono; [|exact H]. by intros [a|e] s'. Qed.

(** The guards that every call of the protocol starts with. *)
Lemma outcome_guarded {A} now st r s c (k : Op A) (f : A → Output) :
  (is_expired now s = false → state s = st → role s = r →
    outcome k s (λ r s', call_spec now s c (match r with Ok a => Ok (f a) | Err e => Err e end) s')) →
  outcome (a ← (check_expired now;; expect_state st;; expect_role r;; k); mret (f a)) s (call_spec now s c).
Proof.
  intros H. apply outcome_answer.
  assert (Hb : ∀ Q, outcome ((check_expired now;; expect_state st;; expect_role r);; k) s Q →
    outcome (check_expired now;; expect_state st;; expect_role r;; k) s Q).
  { intros Q. unfold outcome, mbind, op_bind. destruct (check_expired now s) as [[[]|] s1]; [|done].
    destruct (expect_state st s1) as [[[]|] s2]; [|done]. by destruct (expect_role r s2) as [[[]|] s3]. }
  apply Hb, outcome_bind, outcome_checks; [exact H|]. intros e. apply spec_unchanged.
Qed.

Ltac unchanged := intros; apply spec_unchanged.
Ltac answered Hr Hs :=
  split; [by repeat split|]; unfold call_ok; cbn; rewrite Hr, Hs; split_and!; try done; try (by intros ? [= <-]).

Lemma handle_offer_spec now e s : outcome (run_call now (HandleOffer e)) s (call_spec now s (HandleOffer e)).
Proof.
  apply outcome_guarded. intros Hx Hs Hr. apply outcome_bind, outcome_basics; [intros Hf|unchanged].
  apply outcome_bind, outcome_decrypt; [intros m Hm|unchanged]. destruct m as [i v| | | |]; try apply spec_unchanged.
  apply outcome_bind, outcome_ensure; [intros Hv%N.eqb_eq|unchanged]. apply outcome_bind. cbn.
  apply outcome_bind, outcome_ensure; [intros Hi|unchanged]. destruct (hex32 i) as [b|] eqn:Eb; [|done].
  unfold ct_eq in Hi. apply bool_decide_eq_true in Hi as ->. apply outcome_bind. cbn.
  apply outcome_bind, outcome_ok_or; [intros ecdh He|intros He].
  2: { split; [by repeat split|]. right. right. by exists e. }
  destruct (derive_sas ecdh (session_secret s)) as [code input] eqn:Es. cbn. answered Hr Hs. exists i, v, ecdh. by rewrite Es.
Qed.

Lemma sending_spec now st r s c f m st' (g : Event → Output) :
  (is_expired now s = false → state s = st → role s = r → ∀ e, built s m e → call_spec now s c (Ok (g e)) (set_state st' s)) →
  outcome (a ← (check_expired now;; expect_state st;; expect_role r;; (e ← build_event f m; put (set_state st');; mret e)); mret (g a)) s (call_spec now s c).
Proof.
  intros H. apply outcome_guarded. intros Hx Hs Hr. apply outcome_bind, outcome_build; [|unchanged]. intros e Hb. by apply H.
Qed.

Lemma confirm_sas_spec now f s : outcome (run_call now (ConfirmSas f)) s (call_spec now s (ConfirmSas f)).
Proof.
  apply outcome_guarded. intros Hx Hs Hr. apply outcome_bind. cbn. apply outcome_bind, outcome_ok_or; [intros input Hi|unchanged].
  apply outcome_bind, outcome_ok_or; [intros peer Hp|unchanged]. apply outcome_bind, outcome_build; [|unchanged]. intros e Hb. cbn.
  answered Hr Hs. by exists input, peer, e.
Qed.

Lemma receive_spec now st r s c e :
  (is_expired now s = false → state s = st → role s = r → fresh_for s e → from_peer s e → ∀ t p, reads s e (Payload t p) →
    call_spec now s c (Ok (OPayload t p)) (record_event e (set_state PayloadExchanged s))) →
  outcome (x ← (check_expired now;; expect_state st;; expect_role r;; validate_event_from_peer e;; receive_payload e); mret (OPayload x.1 x.2))
    s (call_spec now s c).
Proof.
  intros H. apply (outcome_guarded now st r s c _ (λ x, OPayload x.1 x.2)). intros Hx Hs Hr.
  apply outcome_bind, outcome_from_peer; [intros Hf Hp|unchanged]. apply outcome_bind, outcome_decrypt; [intros m Hm|unchanged].
  destruct m as [| |t p| |]; try apply spec_unchanged. by apply H.
Qed.

Lemma handle_complete_spec now e s : outcome (run_call now (HandleComplete e)) s (call_spec now s (HandleComplete e)).
Proof.
  apply (outcome_guarded now PayloadExchanged Source s (HandleComplete e) _ (λ _, ODone)). intros Hx Hs Hr.
  apply outcome_bind, outcome_from_peer; [intros Hf Hp|unchanged]. apply outcome_bind, outcome_decrypt; [intros m Hm|unchanged].
  destruct m as [| | |[]|]; try apply spec_unchanged; cbn.
  - answered Hr Hs.
  - split; [by repeat split|]. right. by left.
Qed.

Lemma handle_sas_confirm_spec now e s : sas_wf s → outcome (run_call now (HandleSasConfirm e)) s (call_spec now s (HandleSasConfirm e)).
Proof.
  intros Hwf. apply outcome_guarded. intros Hx Hs Hr. apply outcome_bind, outcome_from_peer; [intros Hf Hp|unchanged].
  apply outcome_bind, outcome_decrypt; [intros m Hm|unchanged]. destruct m as [|h| | |]; try apply spec_unchanged.
  apply outcome_bind. cbn. apply outcome_bind, outcome_ok_or; [intros input Hi|unchanged].
  apply outcome_bind, outcome_ok_or; [intros peer Hpe|unchanged]. destruct (hex32 h) as [b|] eqn:Eb.
  - unfold ct_eq. case_bool_decide as Hb.
    + cbn. destruct (sas_code s) as [code|] eqn:Ec; cbn.
      * answered Hr Hs.
        exists h, input, peer, code. by subst b.
      * destruct Hwf as [? Hc]; [by eexists|]. by rewrite Ec in Hc.
    + cbn. split; [by repeat split|]. right. by left.
  - cbn. split; [by repeat split|]. right. by left.
Qed.

Lemma handle_abort_spec now e s : outcome (run_call now (HandleAbort e)) s (call_spec now s (HandleAbort e)).
Proof.
  apply outcome_answer. unfold handle_abort, not_terminal. apply outcome_bind, outcome_bind. cbn.
  apply outcome_ensure; [intros Ht|unchanged]. apply outcome_bind. cbn. destruct (peer_pubkey s) as [p|] eqn:Ep; [|apply spec_unchanged].
  apply outcome_bind, outcome_from_peer; [intros Hf Hp|unchanged]. apply outcome_bind, outcome_decrypt; [intros m Hm|unchanged].
  destruct m as [| | | |r]; try apply spec_unchanged. cbn. split; [by repeat split|]. unfold call_ok. cbn.
  apply negb_true_iff in Ht. rewrite Ht. split_and!; try done; [by intros ? [= <-]|]. by exists r.
Qed.

Lemma abort_spec now f r s : outcome (run_call now (CallAbort f r)) s (call_spec now s (CallAbort f r)).
Proof.
  apply (outcome_answer (abort_ f r) (λ e, match e with Some e => OEvent e | None => ODone end)). unfold abort_, not_terminal.
  apply outcome_bind, outcome_bind. cbn. apply outcome_ensure; [intros Ht%negb_true_iff|unchanged]. apply outcome_bind. cbn.
  destruct (peer_pubkey s) as [p|] eqn:Ep.
  - apply outcome_bind, outcome_build; [intros e Hb|unchanged]. cbn. split; [by repeat split|]. unfold call_ok. cbn. rewrite Ht.
    split_and!; try done. right. by exists e.
  - cbn. split; [by repeat split|]. unfold call_ok. cbn. rewrite Ht. split_and!; try done. by left.
Qed.

Lemma run_call_spec now c s : sas_wf s → outcome (run_call now c) s (call_spec now s c).
Proof.
  intros Hwf. destruct c.
  - apply handle_offer_spec.
  - apply confirm_sas_spec.
  - apply receive_spec. intros Hx Hs Hr Hf Hp t p Hm. answered Hr Hs. by exists t, p.
  - apply sending_spec. intros Hx Hs Hr e Hb. answered Hr Hs. by exists e.
  - apply sending_spec. intros Hx Hs Hr e Hb. answered Hr Hs. by exists e.
  - apply handle_complete_spec.
  - by apply handle_sas_confirm_spec.
  - apply (outcome_guarded now AwaitingConfirmation Target s ConfirmTargetSas _ (λ _, ODone)). intros Hx Hs Hr. cbn.
    split; [by repeat split|]. unfold call_ok. cbn. by rewrite Hr, Hs.
  - apply receive_spec. intros Hx Hs Hr Hf Hp t p Hm. answered Hr Hs. by exists t, p.
  - apply sending_spec. intros Hx Hs Hr e Hb. answered Hr Hs. by exists e.
  - apply abort_spec.
  - apply handle_abort_spec.
Qed.

(** ** Sessions *)

Inductive session_reachable : PairingSession → Prop :=
  | ReachSource now ks secret url : session_reachable (new_source now ks secret url).1
  | ReachTarget now ks f qr s e : new_target now ks f qr = Ok (s, e) → session_reachable s
  | ReachCall now c s : session_reachable s → session_reachable (run_call now c s).2.

(** The target of a scanned code, and its offer. *)
Lemma new_target_spec now ks f qr s e : new_target now ks f qr = Ok (s, e) →
  ∃ ecdh, generate_shared_key ks (source_pubkey qr) = Some ecdh ∧
    role s = Target ∧ state s = Confirming ∧ keys s = ks ∧ session_secret s = qr_session_secret qr ∧
    peer_pubkey s = Some (source_pubkey qr) ∧ session_id s = derive_session_id (qr_session_secret qr) ∧
    sas_code s = Some (derive_sas ecdh (qr_session_secret qr)).1 ∧ sas_input s = Some (derive_sas ecdh (qr_session_secret qr)).2 ∧
    built s (Offer (encode_hex (session_id s)) 1) e.
Proof.
  unfold new_target. destruct (generate_shared_key _ _) as [ecdh|]; [|done]. destruct (derive_sas ecdh _) as [code input] eqn:Es.
  match goal with |- context [build_event f ?m ?s0] => pose proof (outcome_build f m s0 (λ r s', s' = s0 ∧ ∀ e, r = Ok e → built s0 m e)) as Hb;
    destruct (build_event f m s0) as [[ev|er] s'] eqn:Eb end; [|done].
  unfold outcome in Hb. rewrite Eb in Hb. cbn in Hb. destruct Hb as [-> Hbuilt]; [|done|].
  { intros ev' Hev. split; [done|]. by intros ? [= <-]. }
  intros [= <- <-]. exists ecdh. rewrite Es. cbn. split_and!; try done. apply (Hbuilt ev eq_refl).
Qed.

Lemma call_sas_wf now c s r s' : call_spec now s c r s' → sas_wf s → sas_wf s'.
Proof.
  intros [_ Hr] Hwf. unfold sas_wf in *. destruct r as [o|e].
  - destruct Hr as (_ & _ & _ & _ & Hk & He). destruct c; try (destruct Hk as (_ & -> & ->); exact Hwf).
    destruct He as (? & ? & ? & _ & _ & _ & _ & _ & -> & _). by eexists.
  - destruct Hr as [->|[[-> _]|(ev & _ & _ & _ & ->)]]; exact Hwf.
Qed.

Lemma reachable_sas_wf s : session_reachable s → sas_wf s.
Proof.
  induction 1 as [|now ks f qr s e Hn|now c s _ IH]; [by intros [? [=]]| |].
  - apply new_target_spec in Hn as (? & _ & _ & _ & _ & _ & _ & _ & Hc & _). intros _. rewrite Hc. by eexists.
  - pose proof (run_call_spec now c s IH) as Hs. by eapply call_sas_wf.
Qed.

End one_session.

(** C37: A session follows the protocol, whatever it is called with and whatever events it is
    given. A call succeeds only in its state, for its role and before the timeout (aborting is
    always possible before the end), leads to the next state, and means what it says: an event
    that was accepted is verified, of the pairing kind, addressed to this session, from its peer
    and was not accepted before, and carries the message that the call expects; an event that
    was built carries the message of the call to the peer. A call that fails leaves the session
    as it was, except that a wrong transcript and a failure reported by the target abort it, and
    that an offer whose key has no shared secret leaves its key behind. *)
Theorem session_follows_protocol {L : NostrLib} {KL : KeyLib} {PC : PairingCrypto L KL} {HK : HkdfLib} {HL : HexLib} {HE : HexEncode} s now c :
  session_reachable s →
  let '(r, s') := run_call now c s in
  same_session s s' ∧ match r with Ok o => call_ok now s c o s' | Err e => call_failed s c e s' end.
Proof.
  intros Hr. pose proof (run_call_spec now c s (reachable_sas_wf s Hr)) as Hs. unfold outcome in Hs. by destruct (run_call now c s).
Qed.

(** ** Two devices *)

(** Documented behaviour of the cryptography and of [serde_json]: both sides of
    ECDH get the same secret, decryption inverts encryption, messages survive
    JSON, a signed event carries what was signed and the signer's key, and a [p]
    tag names its key. *)
Class PairingLaws {L : NostrLib} {KL : KeyLib} (PC : PairingCrypto L KL) : Prop := {
  shared_key_symmetric a b : generate_shared_key a (public_key b) = generate_shared_key b (public_key a);
  nip44_round_trip a b m n c : nip44_encrypt a (public_key b) m n = Some c → nip44_decrypt b (public_key a) c = Some m;
  json_round_trip m text : message_to_json m = Some text → message_from_json text = Some m;
  signed_fields ks k ts c at_ e : sign_with_keys ks k ts c at_ = Some e →
    pubkey e = public_key ks ∧ kind e = k ∧ tags e = ts ∧ content e = c;
  public_key_tag_parts pk : as_slice (public_key_tag pk) = ["p"; pk]
}.

Section two_sessions.
Context {L : NostrLib} {KL : KeyLib} {PC : PairingCrypto L KL} {HK : HkdfLib} {HL : HexLib} {HE : HexEncode}.
Context {PL : PairingLaws PC}.
(** The keys that the two devices generate, and the code that the source shows. *)
Context (sk tk : Keys) (secret : list Z) (url : string) (start : Z).

Definition first_source : PairingSession := (new_source start sk secret url).1.
Definition shown_qr : QrPayload := (new_source start sk secret url).2.

Record World := {
  source : PairingSession;
  target : option PairingSession;
  (** every event that the two sessions built *)
  published : list Event;
  (** every call that succeeded *)
  calls : list (Role * Call * Output)
}.

Definition first_world : World := {| source := first_source; target := None; published := []; calls := [] |}.

(** Nobody else can sign with the keys of the two devices; both sign events of
    the pairing kind only as part of the session.  All other events are the
    adversary's to make, and all may be delivered in any order, or not. *)
Definition authentic (w : World) (e : Event) : Prop :=
  verify e = true → pubkey e ∈ [public_key sk; public_key tk] → kind e = PAIRING_KIND → e ∈ published w.

Definition deliverable (w : World) (c : Call) : Prop := match received c with Some e => authentic w e | None => True end.

(** A user confirms on the source only if the target shows the same code. *)
Definition user_compared (w : World) (c : Call) : Prop :=
  match c with
  | ConfirmSas _ => ∃ t, target w = Some t ∧ displayed_code (source w) = displayed_code t
  | _ => True
  end.

Definition events_of (o : Output) : list Event := match o with OEvent e => [e] | _ => [] end.
Definition logged (r : Role) (c : Call) (res : result PairingError Output) (w : World) : list (Role * Call * Output) :=
  match res with Ok o => (r, c, o) :: calls w | Err _ => calls w end.
Definition built_by (res : result PairingError Output) : list Event := match res with Ok o => events_of o | Err _ => [] end.

Inductive world_step (w : World) : World → Prop :=
  | StepScan now f t e :
      target w = None → new_target now tk f shown_qr = Ok (t, e) →
      world_step w {| source := source w; target := Some t; published := e :: published w; calls := calls w |}
  | StepSource now c res s' :
      deliverable w c → user_compared w c → run_call now c (source w) = (res, s') →
      world_step w {| source := s'; target := target w; published := built_by res ++ published w; calls := logged Source c res w |}
  | StepTarget now t c res t' :
      target w = Some t → deliverable w c → run_call now c t = (res, t') →
      world_step w {| source := source w; target := Some t'; published := built_by res ++ published w; calls := logged Target c res w |}
  (** the mobile target can return a payload of its own *)
  | StepReturn f t ty p e :
      target w = Some t → state t = Transferring → (build_event f (Payload ty p) t).1 = Ok e →
      world_step w {| source := source w; target := target w; published := e :: published w;
                      calls := (Target, SendPayload f ty p, OEvent e) :: calls w |}.

(** Two keys for which the source would show the code of the target. *)
Definition code_for (pk : string) : option string :=
  ecdh ← generate_shared_key sk pk; Some (format_sas (derive_sas ecdh secret).1).
Definition code_collision (pk : string) : Prop := pk ≠ public_key tk ∧ is_Some (code_for pk) ∧ code_for pk = code_for (public_key tk).

(** ** What holds in every world *)

(** A message with its purpose in the log. *)
Definition purpose (w : World) (r : Role) (m : PairingMessage) (e : Event) : Prop :=
  match m with
  | Offer _ _ => r = Target
  | SasConfirm _ => ∃ f, (r, ConfirmSas f, OEvent e) ∈ calls w
  | Payload t p => ∃ f, (r, SendPayload f t p, OEvent e) ∈ calls w
  | Complete _ | Abort_ _ => True
  end.

Definition carries (s : PairingSession) (w : World) (e : Event) : Prop := ∃ m, built s m e ∧ purpose w (role s) m e.
Definition from_target (w : World) (e : Event) : Prop := ∃ t, target w = Some t ∧ carries t w e.

Definition coded : list SessionState := [Confirming; Transferring; PayloadExchanged; Completed].
Definition approved_states : list SessionState := [Transferring; PayloadExchanged; Completed].

Record source_inv (w : World) : Prop := {
  si_role : role (source w) = Source;
  si_keys : keys (source w) = sk;
  si_secret : session_secret (source w) = secret;
  si_wf : sas_wf (source w);
  (** the code is that of the peer *)
  si_code : state (source w) ∈ coded →
    ∃ peer, peer_pubkey (source w) = Some peer ∧ displayed_code (source w) = code_for peer ∧ is_Some (code_for peer);
  si_approved : state (source w) ∈ approved_states → ∃ f e, (Source, ConfirmSas f, OEvent e) ∈ calls w;
  si_compared f o : (Source, ConfirmSas f, o) ∈ calls w →
    state (source w) ≠ Waiting ∧ ∃ peer, peer_pubkey (source w) = Some peer ∧ (peer = public_key tk ∨ code_collision peer);
  si_sent c o : (Source, c, o) ∈ calls w → (∀ e, c ≠ HandleOffer e) → is_abort c = false → ∃ f e, (Source, ConfirmSas f, OEvent e) ∈ calls w
}.

Record target_inv (w : World) (t : PairingSession) : Prop := {
  ti_role : role t = Target;
  ti_keys : keys t = tk;
  ti_wf : sas_wf t;
  ti_peer : peer_pubkey t = Some (public_key sk);
  ti_code : displayed_code t = code_for (public_key tk) ∧ is_Some (displayed_code t);
  ti_started : state t ≠ Waiting;
  ti_approved : state t ∈ approved_states → (Target, ConfirmTargetSas, ODone) ∈ calls w
}.

Definition published_inv (w : World) : Prop :=
  ∀ e, e ∈ published w → (carries (source w) w e ∧ state (source w) ≠ Waiting) ∨ from_target w e.

(** ** Single steps *)

Lemma next_not_waiting r st c st' : next_state r st c = Some st' → st' ≠ Waiting.
Proof. by destruct c, r, st; cbn; try done; intros [= <-]; repeat case_match. Qed.

(** After the first offer the peer stays. *)
Lemma spec_keeps_peer now s c res s' : call_spec now s c res s' → state s ≠ Waiting →
  state s' ≠ Waiting ∧ peer_pubkey s' = peer_pubkey s ∧ sas_code s' = sas_code s.
Proof.
  intros [_ H] Hs. destruct res as [o|er].
  - destruct H as (Hn & _ & _ & _ & Hk & _). split; [by eapply next_not_waiting|].
    destruct c; try (by destruct Hk as (-> & -> & _)). by destruct (role s), (state s).
  - destruct H as [->|[[-> _]|(ev & _ & Hw & _)]]; done.
Qed.

Lemma built_ext s s' m e : peer_pubkey s' = peer_pubkey s → keys s' = keys s → built s m e → built s' m e.
Proof. intros Hp Hk. unfold built. by rewrite Hp, Hk. Qed.

(** Where a new event comes from. *)
Lemma effect_event s c e s' : call_effect s c (OEvent e) s' →
  (∀ e', c ≠ HandleOffer e') ∧ ∃ m, built s m e ∧ ∀ w' r, (r, c, OEvent e) ∈ calls w' → purpose w' r m e.
Proof.
  intros H. split; [intros e' ->; by destruct H as (? & ? & ? & _ & _ & _ & _ & _ & _ & _ & [=])|].
  destruct c as [|f| |f b|f t p| | | | |f|f r|]; cbn in H;
    try (by repeat (match goal with H : ∃ _, _ |- _ => destruct H | H : _ ∧ _ |- _ => destruct H end)).
  - destruct H as (input & peer & e' & _ & _ & [= <-] & Hb). eexists. split; [exact Hb|]. intros w' r Hin. by exists f.
  - destruct H as (e' & [= <-] & Hb). by eexists.
  - destruct H as (e' & [= <-] & Hb). eexists. split; [exact Hb|]. intros w' r Hin. by exists f.
  - destruct H as (e' & [= <-] & Hb). by eexists.
  - destruct H as [[? _]|(e' & [= <-] & Hb)]; [done|]. by eexists.
Qed.

Lemma new_event now s c res s' w w' e : call_spec now s c res s' → calls w' = logged (role s) c res w → e ∈ built_by res →
  state s' ≠ Waiting ∧ carries s' w' e.
Proof.
  intros [Hsame H] Hl He. destruct res as [o|er]; [|by apply elem_of_nil in He].
  destruct H as (Hn & _ & _ & _ & Hk & Hc). cbn in He. destruct o; cbn in He; try by apply elem_of_nil in He.
  apply list_elem_of_singleton in He as <-. split; [by eapply next_not_waiting|]. apply effect_event in Hc as (Hno & m & Hb & Hp).
  exists m. destruct Hsame as (-> & Hkeys & _). split.
  - apply (built_ext s); [|done..]. destruct c; try (by destruct Hk). exfalso. by eapply Hno.
  - apply Hp. rewrite Hl. left.
Qed.

Lemma logged_grows r c res w x : x ∈ calls w → x ∈ logged r c res w.
Proof. destruct res; [by right|done]. Qed.

Lemma purpose_grows w w' r m e : (∀ x, x ∈ calls w → x ∈ calls w') → purpose w r m e → purpose w' r m e.
Proof. intros Hg. destruct m; cbn; try done; intros [f Hf]; exists f; auto. Qed.

Lemma carries_grows s s' w w' e :
  (∀ x, x ∈ calls w → x ∈ calls w') → role s' = role s → keys s' = keys s → peer_pubkey s' = peer_pubkey s → carries s w e → carries s' w' e.
Proof.
  intros Hg Hr Hk Hp (m & Hb & Hu). exists m. split; [by apply (built_ext s)|]. rewrite Hr. by apply (purpose_grows w).
Qed.

Ltac in_states := rewrite ?elem_of_cons, ?elem_of_nil; naive_solver.

Lemma next_state_source st st' c : next_state Source st c = Some st' → (∀ e, c ≠ HandleOffer e) →
  (st' ∈ coded → st ∈ coded) ∧ (st' ∈ approved_states → st ∈ approved_states ∨ ∃ f, c = ConfirmSas f).
Proof.
  unfold coded, approved_states. intros Hn Hno. destruct c, st; cbn in Hn; try done;
    try (exfalso; by eapply Hno); injection Hn as <-; try destruct success; in_states.
Qed.

Lemma next_state_target st st' c : next_state Target st c = Some st' →
  st' ∈ approved_states → st ∈ approved_states ∨ c = ConfirmTargetSas.
Proof. unfold approved_states. intros Hn. destruct c, st; cbn in Hn; try done; injection Hn as <-; in_states. Qed.

Lemma aborted_coded : (Aborted ∉ coded) ∧ (Aborted ∉ approved_states).
Proof. unfold coded, approved_states. in_states. Qed.

(** What a call on the source keeps. *)
Lemma compared_kept now c w res s' f o : source_inv w → call_spec now (source w) c res s' → (Source, ConfirmSas f, o) ∈ calls w →
  state s' ≠ Waiting ∧ ∃ peer, peer_pubkey s' = Some peer ∧ (peer = public_key tk ∨ code_collision peer).
Proof.
  intros Hi Hs Hin. apply (si_compared _ Hi) in Hin as (Hw & peer & Hp & Ho). destruct (spec_keeps_peer _ _ _ _ _ Hs Hw) as (? & Hp' & _).
  split; [done|]. exists peer. by rewrite Hp'.
Qed.

Lemma source_failed now c w er s' w' :
  source_inv w → call_spec now (source w) c (Err er) s' → source w' = s' → calls w' = calls w → source_inv w'.
Proof.
  intros Hi Hs <- Hl. pose proof (call_sas_wf _ _ _ _ _ Hs (si_wf _ Hi)) as Hwf.
  pose proof (λ f o, compared_kept _ _ _ _ _ f o Hi Hs) as Hold. destruct Hs as [(Hr & Hk & Hse & _) H].
  assert (Hcase : state (source w') = Aborted ∨ state (source w') = Waiting ∨
    (state (source w') = state (source w) ∧ peer_pubkey (source w') = peer_pubkey (source w) ∧ sas_code (source w') = sas_code (source w))).
  { destruct H as [->|[[-> _]|(ev & _ & Hw & _ & ->)]]; [by do 2 right|by left|right; by left]. }
  split; rewrite ?Hr, ?Hk, ?Hse, ?Hl; try apply Hi; try done.
  - intros Hst. destruct Hcase as [E|[E|(E & Ep & Ec)]]; rewrite E in Hst; [by destruct aborted_coded|unfold coded in Hst; set_solver|].
    destruct (si_code _ Hi Hst) as (peer & Hp & Hd & Hsome). exists peer. unfold displayed_code in *. by rewrite Ep, Ec.
  - intros Hst. destruct Hcase as [E|[E|(E & Ep & Ec)]]; rewrite E in Hst; [by destruct aborted_coded|unfold approved_states in Hst; set_solver|].
    by apply (si_approved _ Hi).
Qed.

(** The first offer that is accepted fixes the peer and the code. *)
Lemma source_offered now e w o w' :
  source_inv w → call_spec now (source w) (HandleOffer e) (Ok o) (source w') → calls w' = (Source, HandleOffer e, o) :: calls w → source_inv w'.
Proof.
  intros Hi Hs Hl. pose proof (call_sas_wf _ _ _ _ _ Hs (si_wf _ Hi)) as Hwf. destruct Hs as [(Hr & Hk & Hse & _) H].
  destruct H as (Hn & _ & _ & _ & _ & (i & v & ecdh & _ & _ & _ & He & Hp & Hc & _ & _)).
  rewrite (si_role _ Hi) in Hn. destruct (state (source w)) eqn:Es; try done. injection Hn as Hst. symmetry in Hst.
  rewrite (si_keys _ Hi) in *. rewrite (si_secret _ Hi) in *.
  assert (Hcode : code_for (pubkey e) = Some (format_sas (derive_sas ecdh secret).1)) by (unfold code_for; by rewrite He).
  split; rewrite ?Hr, ?Hk, ?Hse, ?Hl, ?Hst; try apply Hi; try done.
  - intros _. exists (pubkey e). unfold displayed_code. rewrite Hc, Hcode. by split_and!; try eexists.
  - intros Hst'. unfold approved_states in Hst'. set_solver.
  - intros f o' [[=]|Hin]%elem_of_cons. by destruct (si_compared _ Hi _ _ Hin) as [Hw _].
  - intros c o' [[= -> ->]|Hin]%elem_of_cons Hno Ha; [by destruct (Hno e)|].
    destruct (si_sent _ Hi c o' Hin Hno Ha) as (f & e' & Hf). exists f, e'. by right.
Qed.

Lemma source_called now c w o w' :
  source_inv w → (∀ t, target w = Some t → target_inv w t) → user_compared w c → (∀ e, c ≠ HandleOffer e) →
  call_spec now (source w) c (Ok o) (source w') → calls w' = (Source, c, o) :: calls w → source_inv w'.
Proof.
  intros Hi Ht Hu Hno Hs Hl. pose proof (call_sas_wf _ _ _ _ _ Hs (si_wf _ Hi)) as Hwf.
  pose proof (λ f o, compared_kept _ _ _ _ _ f o Hi Hs) as Hold. destruct Hs as [(Hr & Hk & Hse & _) H].
  destruct H as (Hn & _ & _ & _ & Hkp & Hc). rewrite (si_role _ Hi) in Hn.
  assert (Hp : peer_pubkey (source w') = peer_pubkey (source w) ∧ sas_code (source w') = sas_code (source w)).
  { destruct c; try (destruct Hkp as (-> & -> & _); done). exfalso. by eapply Hno. }
  destruct Hp as [Hp Hsas]. clear Hkp. destruct (next_state_source _ _ _ Hn Hno) as [Hcd Hap].
  assert (Hok : state (source w') ∈ approved_states → ∃ f e, (Source, ConfirmSas f, OEvent e) ∈ calls w').
  { rewrite Hl. intros [Hst|[f ->]]%Hap.
    - destruct (si_approved _ Hi Hst) as (f & e & Hin). exists f, e. by right.
    - destruct Hc as (_ & _ & e & _ & _ & -> & _). exists f, e. left. }
  split; rewrite ?Hr, ?Hk, ?Hse; try apply Hi; try done.
  - intros Hst%Hcd. unfold displayed_code. rewrite Hp, Hsas. by apply (si_code _ Hi).
  - rewrite Hl. intros f o' [[= <- <-]|Hin]%elem_of_cons; [|by eapply Hold]. split; [by eapply next_not_waiting|].
    destruct Hu as (t & Et & Hd). destruct (ti_code _ _ (Ht t Et)) as [Hdt Hsome].
    assert (Hst : state (source w) ∈ coded) by (destruct (state (source w)); try done; unfold coded; set_solver).
    destruct (si_code _ Hi Hst) as (peer & Hpe & Hds & Hsp). exists peer. rewrite Hp. split; [done|].
    destruct (decide (peer = public_key tk)) as [|Hne]; [by left|right]. split; [done|]. split; [done|]. congruence.
  - rewrite Hl. intros c' o' [[= -> ->]|Hin]%elem_of_cons Hno' Ha.
    + rewrite <- Hl. assert (Hst : state (source w') ∈ approved_states ∨ state (source w) ∈ approved_states).
      { unfold approved_states. destruct c, (state (source w)); cbn in Hn; try done; injection Hn as <-; set_solver. }
      destruct Hst as [Hst|Hst]; [by apply Hok|]. destruct (si_approved _ Hi Hst) as (f & e & Hin). exists f, e. rewrite Hl. by right.
    + destruct (si_sent _ Hi c' o' Hin Hno' Ha) as (f & e' & Hf). exists f, e'. by right.
Qed.

Lemma source_call now c w res s' w' :
  source_inv w → (∀ t, target w = Some t → target_inv w t) → user_compared w c →
  call_spec now (source w) c res s' → source w' = s' → calls w' = logged Source c res w → source_inv w'.
Proof.
  intros Hi Ht Hu Hs <- Hl. destruct res as [o|er]; [|by eapply source_failed]. cbn in Hl.
  destruct c; [by eapply source_offered|..]; by eapply source_called.
Qed.
Lemma source_grows w w' :
  source w' = source w → (∀ x, x ∈ calls w → x ∈ calls w') → (∀ c o, (Source, c, o) ∈ calls w' → (Source, c, o) ∈ calls w) →
  source_inv w → source_inv w'.
Proof.
  intros Hs Hg Hb Hi. split; rewrite ?Hs; try apply Hi.
  - intros Hst. destruct (si_approved _ Hi Hst) as (f & e & Hin). exists f, e. auto.
  - intros f o Hin. by apply (si_compared _ Hi f o), Hb.
  - intros c o Hin Hno Ha. destruct (si_sent _ Hi c o (Hb _ _ Hin) Hno Ha) as (f & e & Hf). exists f, e. auto.
Qed.

Lemma target_grows w w' t : (∀ x, x ∈ calls w → x ∈ calls w') → target_inv w t → target_inv w' t.
Proof. intros Hg Hi. split; try apply Hi. intros Hst. by apply Hg, (ti_approved _ _ Hi). Qed.

Lemma target_scanned now f t e w : new_target now tk f shown_qr = Ok (t, e) → target_inv w t ∧ ∃ m, built t m e ∧ m = Offer (encode_hex (session_id t)) 1.
Proof.
  intros Hn. apply new_target_spec in Hn as (ecdh & He & Hr & Hst & Hk & Hse & Hp & _ & Hc & _ & Hb). cbn in *. split; [|by eexists].
  assert (Hsome : displayed_code t = Some (format_sas (derive_sas ecdh secret).1)) by (unfold displayed_code; by rewrite Hc).
  split; try done.
  - intros _. rewrite Hc. by eexists.
  - split; [|by eexists]. rewrite Hsome. unfold code_for. rewrite shared_key_symmetric. by rewrite He.
  - by rewrite Hst.
  - rewrite Hst. intros Hin. unfold approved_states in Hin. set_solver.
Qed.

Lemma target_called now t c w res t' w' : target_inv w t → call_spec now t c res t' → calls w' = logged Target c res w → target_inv w' t'.
Proof.
  intros Hi Hs Hl. pose proof (call_sas_wf _ _ _ _ _ Hs (ti_wf _ _ Hi)) as Hwf.
  destruct (spec_keeps_peer _ _ _ _ _ Hs (ti_started _ _ Hi)) as (Hst & Hp & Hc). destruct Hs as [(Hr & Hk & _) H].
  split; rewrite ?Hr, ?Hk, ?Hp; try apply Hi; try done.
  - unfold displayed_code. rewrite Hc. apply Hi.
  - intros Hap. rewrite Hl. destruct res as [o|er]; cbn.
    + destruct H as (Hn & _ & _ & _ & _ & He). rewrite (ti_role _ _ Hi) in Hn.
      destruct (next_state_target _ _ _ Hn Hap) as [Ho| ->]; [right; by apply (ti_approved _ _ Hi)|]. cbn in He. subst o. left.
    + destruct H as [->|[[-> _]|(ev & _ & Hw & _)]]; [by apply (ti_approved _ _ Hi)|by destruct aborted_coded|by destruct (ti_started _ _ Hi)].
Qed.
(** ** What was read is what was built *)

Lemma read_built a b m m' e :
  built a m e → reads b e m' → peer_pubkey a = Some (public_key (keys b)) → m' = m.
Proof.
  intros (peer & text & n & c & at_ & Hp & Hj & He & Hs) (text' & Hd & Hj') Hpe. rewrite Hp in Hpe. injection Hpe as ->.
  apply signed_fields in Hs as (Hpk & _ & _ & Hc). rewrite Hpk, Hc in Hd. apply nip44_round_trip in He. rewrite He in Hd.
  injection Hd as <-. rewrite (json_round_trip m text Hj) in Hj'. by injection Hj' as <-.
Qed.

Lemma built_fields a m e : built a m e →
  pubkey e = public_key (keys a) ∧ kind e = PAIRING_KIND ∧ ∀ pk, tagged_for pk e = true → peer_pubkey a = Some pk.
Proof.
  intros (peer & text & n & c & at_ & Hp & _ & _ & Hs). apply signed_fields in Hs as (Hpk & Hk & Ht & _). split_and!; [done|done|].
  intros pk. unfold tagged_for. rewrite Ht. cbn. rewrite orb_false_r, public_key_tag_parts. cbn.
  rewrite Hp. rewrite bool_decide_true by done. cbn. intros Hb%bool_decide_eq_true. congruence.
Qed.

(** ** All of it *)

Definition is_transfer (x : Role * Call * Output) : bool :=
  match x with
  | (Source, SendPayload _ _ _, _) | (Source, HandleReturnPayload _, _) => true
  | _ => false
  end.
Definition transfers (w : World) : nat := length (filter (λ x, is_transfer x = true) (calls w)).
Definition early (st : SessionState) : bool := match st with Waiting | Confirming | Transferring => true | _ => false end.

Definition delivered (w : World) (e : Event) (t : PayloadType) (p : string) : Prop :=
  (∃ f, (Source, SendPayload f t p, OEvent e) ∈ calls w) ∧ peer_pubkey (source w) = Some (public_key tk) ∧
  (Target, ConfirmTargetSas, ODone) ∈ calls w.
Definition returned (w : World) (e : Event) (t : PayloadType) (p : string) : Prop :=
  peer_pubkey (source w) = Some (pubkey e) ∧
  (code_collision (pubkey e) ∨ (pubkey e = public_key tk ∧ ∃ f, (Target, SendPayload f t p, OEvent e) ∈ calls w)).
Definition sent (w : World) (t : PayloadType) (p : string) (o : Output) : Prop :=
  ∃ e, o = OEvent e ∧ built (source w) (Payload t p) e.

Record world_inv (w : World) : Prop := {
  wi_source : source_inv w;
  wi_target t : target w = Some t → target_inv w t;
  wi_published : published_inv w;
  wi_delivered e t p : (Target, HandlePayload e, OPayload t p) ∈ calls w → delivered w e t p;
  wi_returned e t p : (Source, HandleReturnPayload e, OPayload t p) ∈ calls w → returned w e t p;
  wi_sent f t p o : (Source, SendPayload f t p, o) ∈ calls w → sent w t p o;
  wi_once : transfers w ≤ 1 ∧ (early (state (source w)) = true → transfers w = 0)
}.

Lemma source_started w c o : source_inv w → (Source, c, o) ∈ calls w → (∀ e, c ≠ HandleOffer e) → is_abort c = false →
  state (source w) ≠ Waiting ∧ ∃ peer, peer_pubkey (source w) = Some peer ∧ (peer = public_key tk ∨ code_collision peer).
Proof. intros Hi Hin Hno Ha. destruct (si_sent _ Hi _ _ Hin Hno Ha) as (f & e & Hf). by eapply si_compared. Qed.

(** What the log says stays true when the world goes on. *)
Lemma log_grows w w' :
  source_inv w → (∀ x, x ∈ calls w → x ∈ calls w') → keys (source w') = keys (source w) →
  (state (source w) ≠ Waiting → peer_pubkey (source w') = peer_pubkey (source w)) →
  (∀ e t p, (Source, HandleReturnPayload e, OPayload t p) ∈ calls w → returned w e t p → returned w' e t p) ∧
  (∀ e t p, delivered w e t p → delivered w' e t p) ∧
  (∀ f t p o, (Source, SendPayload f t p, o) ∈ calls w → sent w t p o → sent w' t p o).
Proof.
  intros Hi Hg Hk Hp. split_and!.
  - intros e t p Hin [H1 H2]. destruct (source_started _ _ _ Hi Hin) as [Hw _]; [done..|]. split; [by rewrite Hp|].
    destruct H2 as [H2|(H2 & f & Hf)]; [by left|right]. split; [done|]. exists f. auto.
  - intros e t p ((f & Hf) & Hpe & Ht). destruct (source_started _ _ _ Hi Hf) as [Hw _]; [done..|]. split; [by exists f; auto|].
    split; [by rewrite Hp|auto].
  - intros f t p o Hin (e & -> & Hb). destruct (source_started _ _ _ Hi Hin) as [Hw _]; [done..|]. exists e. split; [done|].
    apply (built_ext (source w)); auto.
Qed.
Lemma transfers_cons w x l : calls w = x :: l →
  transfers w = (if is_transfer x then 1 else 0) + length (filter (λ x, is_transfer x = true) l).
Proof. unfold transfers. intros ->. rewrite filter_cons. case_decide as Hx; rewrite ?Hx; [done|]. by destruct (is_transfer x). Qed.

Lemma transfers_same w w' x : is_transfer x = false → calls w' = x :: calls w → transfers w' = transfers w.
Proof. intros Hx Hl. rewrite (transfers_cons w' x (calls w) Hl), Hx. done. Qed.

Lemma once_called now c w res w' : source_inv w → call_spec now (source w) c res (source w') → calls w' = logged Source c res w →
  transfers w ≤ 1 ∧ (early (state (source w)) = true → transfers w = 0) →
  transfers w' ≤ 1 ∧ (early (state (source w')) = true → transfers w' = 0).
Proof.
  intros Hi [_ Hs] Hl [Ho He]. destruct res as [o|er]; cbn in Hl.
  - destruct Hs as (Hn & _). rewrite (si_role _ Hi) in Hn. destruct (is_transfer (Source, c, o)) eqn:Ht.
    + rewrite (transfers_cons w' _ _ Hl), Ht. fold (transfers w). destruct c; try done;
        (destruct (state (source w)); try done; injection Hn as <-; rewrite He by done; cbn; split; [lia|done]).
    + rewrite (transfers_same w w' _ Ht Hl). split; [done|]. intros Hea. apply He.
      destruct c, (state (source w)); try done; injection Hn as E; rewrite <- E in Hea; try done. by destruct success.
  - assert (transfers w' = transfers w) as -> by (unfold transfers; by rewrite Hl). split; [done|].
    destruct Hs as [->|[[-> _]|(ev & _ & _ & _ & ->)]]; [done|done|exact He].
Qed.

Hypothesis distinct : public_key sk ≠ public_key tk.

(** The other side's key on an event that a side accepts. *)
Lemma from_source w t e : world_inv w → target w = Some t → authentic w e → fresh_for t e → pubkey e = public_key sk →
  carries (source w) w e ∧ state (source w) ≠ Waiting.
Proof.
  intros Hi Ht Ha (Hv & _ & Hk & _) Hpk. destruct (wi_published _ Hi e) as [|(t' & Et & m & Hb & _)]; [|done|].
  - apply Ha; [done|rewrite Hpk; left|done].
  - apply built_fields in Hb as (Hpk' & _). destruct (wi_target _ Hi t' Et) as [_ Hkt _ _ _ _ _]. rewrite Hkt in Hpk'. congruence.
Qed.

Lemma from_target_key w e : world_inv w → authentic w e → fresh_for (source w) e → pubkey e = public_key tk → from_target w e.
Proof.
  intros Hi Ha (Hv & _ & Hk & _) Hpk. destruct (wi_published _ Hi e) as [[(m & Hb & _) _]|]; [|exfalso|done].
  - apply Ha; [done|rewrite Hpk; right; left|done].
  - apply built_fields in Hb as (Hpk' & _). rewrite (si_keys _ (wi_source _ Hi)) in Hpk'. congruence.
Qed.

(** A payload that the target accepts is the one that the source sent to it. *)
Lemma payload_delivered now w t e ty p t' : world_inv w → target w = Some t → authentic w e →
  call_spec now t (HandlePayload e) (Ok (OPayload ty p)) t' → delivered w e ty p.
Proof.
  intros Hi Et Ha [_ (Hn & _ & _ & Hacc & _ & (ty' & p' & [= <- <-] & Hm))]. destruct (wi_target _ Hi t Et) as [Hr Hk _ Hp _ _ Hap].
  destruct (Hacc e eq_refl) as [Hf Hpe]. specialize (Hpe _ Hp). destruct (from_source _ _ _ Hi Et Ha Hf Hpe) as [(m & Hb & Hu) Hw].
  destruct (built_fields _ _ _ Hb) as (_ & _ & Htag). destruct Hf as (_ & _ & _ & Ht). rewrite Hk in Ht. apply Htag in Ht.
  assert (m = Payload ty p) as -> by (symmetry; eapply (read_built (source w) t); [done|done|by rewrite Hk]).
  cbn in Hu. rewrite (si_role _ (wi_source _ Hi)) in Hu. split; [done|]. split; [done|].
  apply Hap. rewrite Hr in Hn. destruct (state t); try done. unfold approved_states. left.
Qed.

(** A payload that comes back is the one that the target returned, unless the
    users confirmed colliding codes. *)
Lemma payload_returned now w e ty p s' : world_inv w → authentic w e →
  call_spec now (source w) (HandleReturnPayload e) (Ok (OPayload ty p)) s' → returned w e ty p.
Proof.
  intros Hi Ha [_ (Hn & _ & _ & Hacc & _ & (ty' & p' & [= <- <-] & Hm))]. pose proof (wi_source _ Hi) as Hsi.
  rewrite (si_role _ Hsi) in Hn.
  assert (Hap : state (source w) ∈ approved_states) by (destruct (state (source w)); try done; unfold approved_states; left).
  destruct (si_approved _ Hsi Hap) as (f & e' & Hin). apply (si_compared _ Hsi) in Hin as (Hw & peer & Hp & Hcase).
  destruct (Hacc e eq_refl) as [Hf Hpe]. specialize (Hpe _ Hp). unfold returned. rewrite Hpe, Hp. split; [done|].
  destruct Hcase as [->|Hc]; [right|by left]. split; [done|].
  destruct (from_target_key _ _ Hi Ha Hf Hpe) as (t & Et & m & Hb & Hu). destruct (wi_target _ Hi t Et) as [Hr Hk _ Hpt _ _ _].
  assert (m = Payload ty p) as ->.
  { symmetry. eapply (read_built t (source w)); [done|done|]. by rewrite (si_keys _ Hsi). }
  cbn in Hu. by rewrite Hr in Hu.
Qed.

Lemma payload_sent now w f ty p o s' : call_spec now (source w) (SendPayload f ty p) (Ok o) s' → ∃ e, o = OEvent e ∧ built s' (Payload ty p) e.
Proof.
  intros [(_ & Hk & _) (_ & _ & _ & _ & (Hp & _) & (e & -> & Hb))]. exists e. split; [done|]. by apply (built_ext (source w)).
Qed.
(** ** Steps *)

Lemma elem_of_logged r c res w r' c' o : (r', c', o) ∈ logged r c res w →
  (r', c', o) ∈ calls w ∨ (r' = r ∧ c' = c ∧ res = Ok o).
Proof. destruct res as [o'|er]; cbn; [|by left]. intros [[= -> -> ->]|Hin]%elem_of_cons; [by right|by left]. Qed.

Lemma inv_first : world_inv first_world.
Proof.
  split; cbn; try done.
  - split; cbn; try done.
    + by intros [? [=]].
    + intros Hst. unfold coded in Hst. set_solver.
    + intros Hst. unfold approved_states in Hst. set_solver.
    + intros f o Hin. by apply elem_of_nil in Hin.
    + intros c o Hin. by apply elem_of_nil in Hin.
  - intros e Hin. by apply elem_of_nil in Hin.
  - intros e t p Hin. by apply elem_of_nil in Hin.
  - intros e t p Hin. by apply elem_of_nil in Hin.
  - intros f t p o Hin. by apply elem_of_nil in Hin.
  - unfold transfers. cbn. lia.
Qed.

(** A step of the target side, or of its user: the source stays. *)
Lemma inv_target_side w w' :
  world_inv w → source w' = source w → (∀ x, x ∈ calls w → x ∈ calls w') → (∀ c o, (Source, c, o) ∈ calls w' → (Source, c, o) ∈ calls w) →
  (∀ t, target w' = Some t → target_inv w' t) → (∀ t, target w = Some t → ∃ t', target w' = Some t' ∧ role t' = role t ∧ keys t' = keys t ∧
    peer_pubkey t' = peer_pubkey t) →
  (∀ e, e ∈ published w' → e ∈ published w ∨ from_target w' e) →
  (∀ e t p, (Target, HandlePayload e, OPayload t p) ∈ calls w' → (Target, HandlePayload e, OPayload t p) ∈ calls w ∨ delivered w e t p) →
  transfers w' = transfers w → world_inv w'.
Proof.
  intros Hi Hs Hg Hb Ht Hk Hpub Hd Htr. pose proof (wi_source _ Hi) as Hsi.
  destruct (log_grows w w' Hsi Hg ltac:(by rewrite Hs) ltac:(by rewrite Hs)) as (Hret & Hdel & Hsent).
  split; [by apply (source_grows w)|done|..].
  - intros e [Hin|Hft]%Hpub; [|by right]. destruct (wi_published _ Hi e Hin) as [[Hc Hw]|(t & Et & Hc)].
    + left. rewrite Hs. split; [|done]. by apply (carries_grows (source w) _ w).
    + right. destruct (Hk t Et) as (t' & Et' & Hr & Hkt & Hp). exists t'. split; [done|]. by apply (carries_grows t _ w).
  - intros e t p [Hin|Hin]%Hd; apply Hdel; [by apply (wi_delivered _ Hi)|done].
  - intros e t p Hin%Hb. apply Hret; [done|]. by apply (wi_returned _ Hi).
  - intros f t p o Hin%Hb. eapply Hsent; [done|]. by eapply (wi_sent _ Hi).
  - rewrite Hs, Htr. apply Hi.
Qed.

Lemma inv_scan now f t e w :
  target w = None → new_target now tk f shown_qr = Ok (t, e) → world_inv w →
  world_inv {| source := source w; target := Some t; published := e :: published w; calls := calls w |}.
Proof.
  intros Hnone Hn Hi. apply (inv_target_side w); cbn; try done.
  - intros t' [= <-]. eapply target_grows; [|by apply (target_scanned now f t e w)]. done.
  - by rewrite Hnone.
  - intros e' [->|Hin]%elem_of_cons; [right|by left]. destruct (target_scanned now f t e w Hn) as [Hti (m & Hm & ->)].
    exists t. split; [done|]. exists (Offer (encode_hex (session_id t)) 1). split; [done|]. apply Hti.
  - intros e' ty p Hin. by left.
Qed.

Lemma inv_source_call now c w res s' w' :
  deliverable w c → user_compared w c → call_spec now (source w) c res s' →
  w' = {| source := s'; target := target w; published := built_by res ++ published w; calls := logged Source c res w |} →
  world_inv w → world_inv w'.
Proof.
  intros Hd Hu Hs -> Hi. pose proof (wi_source _ Hi) as Hsi. set (w' := {| source := s' |}).
  assert (Hg : ∀ x, x ∈ calls w → x ∈ calls w') by (intros x; apply logged_grows).
  assert (Hsi' : source_inv w') by (eapply (source_call now c w res s'); [done|apply (wi_target _ Hi)|done|done|done|done]).
  pose proof (spec_keeps_peer _ _ _ _ _ Hs) as Hkeep. destruct (proj1 Hs) as (Hrole & Hkeys & _).
  destruct (log_grows w w' Hsi Hg Hkeys) as (Hret & Hdel & Hsent); [by intros Hw; apply Hkeep in Hw as (_ & Hp & _)|].
  split; [done|..].
  - intros t Et. eapply target_grows; [exact Hg|]. by apply (wi_target _ Hi).
  - intros e [Hin|Hin]%elem_of_app.
    + left. assert (Hl : calls w' = logged (role (source w)) c res w) by (by rewrite (si_role _ Hsi)).
      destruct (new_event _ _ _ _ _ _ _ _ Hs Hl Hin) as [Hw Hc]. done.
    + destruct (wi_published _ Hi e Hin) as [[Hc Hw]|(t & Et & Hc)]; [left|right].
      * destruct (Hkeep Hw) as (Hw' & Hp & _). split; [|done]. by apply (carries_grows (source w) _ w).
      * exists t. split; [done|]. by apply (carries_grows t _ w).
  - intros e t p [Hin|([=] & _)]%elem_of_logged. by apply Hdel, (wi_delivered _ Hi).
  - intros e t p [Hin|(_ & <- & ->)]%elem_of_logged; [by apply Hret, (wi_returned _ Hi)|].
    destruct (payload_returned _ _ _ _ _ _ Hi Hd Hs) as [H1 H2]. destruct Hs as [_ (_ & _ & _ & _ & (Hp & _) & _)].
    split; [cbn; by rewrite Hp|]. destruct H2 as [H2|(H2 & f & Hf)]; [by left|right]. split; [done|]. exists f. auto.
  - intros f t p o [Hin|(_ & <- & ->)]%elem_of_logged; [eapply Hsent; [done|]; by eapply (wi_sent _ Hi)|]. by eapply payload_sent.
  - eapply (once_called now c w res); [done|done|done|apply Hi].
Qed.

Lemma inv_target_call now t c w res t' w' :
  target w = Some t → deliverable w c → call_spec now t c res t' →
  w' = {| source := source w; target := Some t'; published := built_by res ++ published w; calls := logged Target c res w |} →
  world_inv w → world_inv w'.
Proof.
  intros Et Hd Hs -> Hi. pose proof (wi_target _ Hi t Et) as Hti. set (w' := {| source := source w |}).
  assert (Hti' : target_inv w' t') by (by eapply (target_called now t c w)).
  destruct (spec_keeps_peer _ _ _ _ _ Hs (ti_started _ _ Hti)) as (_ & Hp & _). destruct (proj1 Hs) as (Hrole & Hkeys & _).
  apply (inv_target_side w); try done.
  - intros x. apply logged_grows.
  - by intros c' o [Hin|([=] & _)]%elem_of_logged.
  - by intros ? [= <-].
  - intros t0. rewrite Et. intros [= <-]. by exists t'.
  - intros e [Hin|Hin]%elem_of_app; [right|by left]. exists t'. split; [done|].
    eapply (new_event now t c res); [done| |done]. by rewrite (ti_role _ _ Hti).
  - intros e ty p [Hin|(_ & <- & ->)]%elem_of_logged; [by left|right]. by eapply payload_delivered.
  - destruct res as [o|er]; [|done]. by apply (transfers_same w w' (Target, c, o)).
Qed.

Lemma inv_return f t ty p e w :
  target w = Some t → (build_event f (Payload ty p) t).1 = Ok e → world_inv w →
  world_inv {| source := source w; target := target w; published := e :: published w; calls := (Target, SendPayload f ty p, OEvent e) :: calls w |}.
Proof.
  intros Et Hb Hi. pose proof (wi_target _ Hi t Et) as Hti. apply (inv_target_side w); cbn; try done.
  - intros x. by right.
  - by intros c o [[=]|Hin]%elem_of_cons.
  - intros t'. rewrite Et. intros [= <-]. eapply target_grows; [|done]. intros x. by right.
  - intros t' Et'. by exists t'.
  - intros e' [->|Hin]%elem_of_cons; [right|by left]. exists t. split; [done|]. exists (Payload ty p). split.
    + pose proof (outcome_build f (Payload ty p) t (λ r _, ∀ e, r = Ok e → built t (Payload ty p) e)) as Ho. apply Ho; [|done|done].
      by intros e0 Hb0 ? [= <-].
    + exists f. rewrite (ti_role _ _ Hti). left.
  - intros e' ty' p' [[=]|Hin]%elem_of_cons. by left.
Qed.

Lemma step_inv w w' : world_step w w' → world_inv w → world_inv w'.
Proof.
  intros Hstep Hi. destruct Hstep as [now f t e Hnone Hn|now c res s' Hd Hu Hrun|now t c res t' Et Hd Hrun|f t ty p e Et Hst Hb].
  - by eapply inv_scan.
  - pose proof (run_call_spec now c (source w) (si_wf _ (wi_source _ Hi))) as Hs. unfold outcome in Hs. rewrite Hrun in Hs.
    by eapply inv_source_call.
  - pose proof (run_call_spec now c t (ti_wf _ _ (wi_target _ Hi t Et))) as Hs. unfold outcome in Hs. rewrite Hrun in Hs.
    by eapply inv_target_call.
  - by eapply inv_return.
Qed.

Lemma world_invariant w : rtc world_step first_world w → world_inv w.
Proof.
  intros Hr. cut (∀ w0, rtc world_step w0 w → world_inv w0 → world_inv w); [intros Hc; eapply Hc; [done|apply inv_first]|].
  clear Hr. induction 1 as [|w0 w1 w2 Hstep _ IH]; [done|]. intros H0. by eapply IH, step_inv.
Qed.

End two_sessions.

(** C17: Two devices pair with each other and with nobody else. A source shows its code to a
    target; the network may drop, repeat, delay and reorder events and inject any event that is
    not signed by one of the two; both sessions are called in any order at any time, and the
    user confirms on the source only when both devices show the same number. Then whatever
    happened so far: a payload that the target accepted is one that the source sent, to this
    target, after both users approved; the source sends its payload only to the target, and
    takes a payload back only from the target and only as it was returned, unless an adversary's
    key makes the source show the target's number; and there is at most one transfer. *)
Theorem pairing_agreement {L : NostrLib} {KL : KeyLib} {PC : PairingCrypto L KL} {HK : HkdfLib} {HL : HexLib} {HE : HexEncode}
    {PL : PairingLaws PC} sk tk secret url start w :
  public_key sk ≠ public_key tk → rtc (world_step sk tk secret url start) (first_world sk secret url start) w →
  (∀ e t p, (Target, HandlePayload e, OPayload t p) ∈ calls w →
    (∃ f, (Source, SendPayload f t p, OEvent e) ∈ calls w) ∧ peer_pubkey (source w) = Some (public_key tk) ∧
    (∃ f e', (Source, ConfirmSas f, OEvent e') ∈ calls w) ∧ (Target, ConfirmTargetSas, ODone) ∈ calls w) ∧
  (∀ f t p o, (Source, SendPayload f t p, o) ∈ calls w →
    ∃ e peer, o = OEvent e ∧ built (source w) (Payload t p) e ∧ peer_pubkey (source w) = Some peer ∧
      (peer = public_key tk ∨ code_collision sk tk secret peer)) ∧
  (∀ e t p, (Source, HandleReturnPayload e, OPayload t p) ∈ calls w →
    code_collision sk tk secret (pubkey e) ∨ (pubkey e = public_key tk ∧ ∃ f, (Target, SendPayload f t p, OEvent e) ∈ calls w)) ∧
  transfers w ≤ 1.
Proof.
  intros Hne Hr. pose proof (world_invariant sk tk secret url start Hne w Hr) as Hi. pose proof (wi_source _ _ _ _ Hi) as Hsi. split_and!.
  - intros e t p Hin. destruct (wi_delivered _ _ _ _ Hi e t p Hin) as ((f & Hf) & Hp & Ht). split_and!; [by exists f|done| |done].
    by eapply (si_sent _ _ _ _ Hsi).
  - intros f t p o Hin. destruct (wi_sent _ _ _ _ Hi f t p o Hin) as (e & -> & Hb).
    destruct (source_started _ _ _ _ _ _ Hsi Hin) as (_ & peer & Hp & Hc); [done..|]. by exists e, peer.
  - intros e t p Hin. by apply (wi_returned _ _ _ _ Hi e t p).
  - apply (wi_once _ _ _ _ Hi).
Qed.

(** ** Evaluation *)
Module SamplePairing.

#[local] Existing Instances slice_lib plain_hex plain_hex_encode.

Definition sample_keys : KeyLib := {| Keys := N; public_key := λ k, "key" +:+ pretty k |}.
#[local] Existing Instance sample_keys.
Definition key_number (pk : string) : option N := d ← strip_prefix "key" pk; dec_value 0 d.

Definition json_of (m : PairingMessage) : string :=
  match m with
  | Offer i v => String "O" (pretty v +:+ String ":" i)
  | SasConfirm h => String "S" h
  | Payload t p => String "P" (String (match t with Nsec => "n" | Bunker => "b" | Connect => "c" | Custom => "u" end) p)
  | Complete b => String "C" (if b then "1" else "0")
  | Abort_ r => String "A" (match r with ReasonSasMismatch => "s" | UserDenied => "u" | Timeout => "t" | ProtocolError => "p" | ReasonUnknown => "x" end)
  end.
Definition of_json (s : string) : option PairingMessage :=
  match s with
  | String "O" s => '(v, i) ← split_once ":" s; v ← dec_value 0 v; Some (Offer i v)
  | String "S" h => Some (SasConfirm h)
  | String "P" (String "n" p) => Some (Payload Nsec p)
  | String "P" (String "b" p) => Some (Payload Bunker p)
  | String "P" (String "c" p) => Some (Payload Connect p)
  | String "P" (String "u" p) => Some (Payload Custom p)
  | String "C" s => Some (Complete (s =? "1")%string)
  | String "A" s =>
      Some (Abort_ (if (s =? "s")%string then ReasonSasMismatch else if (s =? "u")%string then UserDenied
        else if (s =? "t")%string then Timeout else if (s =? "p")%string then ProtocolError else ReasonUnknown))
  | _ => None
  end.

(** Ciphertexts are padded plaintexts; the adversary of the theorem cannot sign. *)
Definition sample_crypto : PairingCrypto slice_lib sample_keys := {|
  key_bytes := str_bytes;
  generate_shared_key := λ k pk, n ← key_number pk; Some [Z.of_N ((k : @Keys sample_keys) + n)%N];
  nip44_encrypt := λ _ _ m _, Some (zeros 132 +:+ m);
  nip44_decrypt := λ _ _ c, strip_prefix (zeros 132) c;
  message_to_json := λ m, Some (json_of m);
  message_from_json := of_json;
  public_key_tag := λ pk, ["p"; pk] : @Tag slice_lib;
  sign_with_keys := λ k kd ts c at_,
    Some {| Nostr.id := public_key k +:+ c; pubkey := public_key k; created_at := at_; kind := kd; tags := ts; content := c |};
  verify := λ _, true
|}.
#[local] Existing Instance sample_crypto.

Lemma key_number_of k : key_number (public_key k) = Some k.
Proof. unfold key_number, public_key, sample_keys. rewrite strip_prefix_app. apply dec_value_pretty. Qed.

#[local] Instance sample_laws : PairingLaws sample_crypto.
Proof.
  split; cbn [generate_shared_key nip44_encrypt nip44_decrypt message_to_json message_from_json sign_with_keys public_key_tag as_slice sample_crypto].
  - intros a b. rewrite !key_number_of. cbn. by rewrite N.add_comm.
  - intros a b m n c [= <-]. apply strip_prefix_app.
  - intros m text [= <-]. destruct m as [i v|h|[] p|[]|[]]; try done. cbn [json_of of_json].
    rewrite split_once_app; [cbn; by rewrite dec_value_pretty|].
    apply (str_forall_no_char is_ascii_digit); [done|apply pretty_N_text].
  - intros ks k ts c at_ e [= <-]. done.
  - done.
Qed.

Definition sample_hkdf : HkdfLib := {| extract := λ salt ikm, ikm ++ salt; expand := λ prk _ n, take n (prk ++ replicate n 0%Z) |}.
#[local] Existing Instance sample_hkdf.

Definition secret : list Z := replicate 32 7%Z.
Definition fresh : Fresh := {| wall := 1000; random := 5; nonce := 0 |}.
Definition source_keys : @Keys sample_keys := 1%N.
Definition target_keys : @Keys sample_keys := 2%N.
Definition start_world : World := first_world source_keys secret "wss://relay.test" 0.

Definition on_source (c : Call) (w : World) : World :=
  let '(res, s) := run_call 1 c (source w) in
  {| source := s; target := target w; published := built_by res ++ published w; calls := logged Source c res w |}.
Definition on_target (c : Call) (w : World) : World :=
  match target w with
  | None => w
  | Some t => let '(res, t) := run_call 1 c t in
      {| source := source w; target := Some t; published := built_by res ++ published w; calls := logged Target c res w |}
  end.
Definition no_event : Event := {| Nostr.id := ""; pubkey := ""; created_at := 0; kind := 0; tags := []; content := "" |}.
Definition last_event (w : World) : Event := default no_event (head (published w)).

Definition w1 : World :=
  match new_target 1 target_keys fresh (shown_qr source_keys secret "wss://relay.test" 0) with
  | Ok (t, e) => {| source := source start_world; target := Some t; published := [e]; calls := [] |}
  | Err _ => start_world
  end.
Definition w2 : World := on_source (HandleOffer (last_event w1)) w1.
Definition w3 : World := on_source (ConfirmSas fresh) w2.
Definition w4 : World := on_target (HandleSasConfirm (last_event w3)) w3.
Definition w5 : World := on_target ConfirmTargetSas w4.
Definition w6 : World := on_source (SendPayload fresh Nsec "nsec1secret") w5.
Definition w7 : World := on_target (HandlePayload (last_event w6)) w6.
Definition w8 : World := on_target (SendComplete fresh) w7.
Definition w9 : World := on_source (HandleComplete (last_event w8)) w8.

Example transferred : head (calls w7) = Some (Target, HandlePayload (last_event w6), OPayload Nsec "nsec1secret").
Proof. by vm_compute. Qed.
Example both_completed : (state (source w9), state <$> target w9) = (Completed, Some Completed).
Proof. by vm_compute. Qed.
(** The same payload event is not taken twice. *)
Example not_twice : calls (on_target (HandlePayload (last_event w6)) w7) = calls w7.
Proof. by vm_compute. Qed.

Abbreviation step_ := (world_step source_keys target_keys secret "wss://relay.test" 0) (only parsing).

Lemma source_step c w :
  deliverable source_keys target_keys w c → user_compared w c → step_ w (on_source c w).
Proof.
  intros Hd Hu. unfold on_source. destruct (run_call 1 c (source w)) as [res s] eqn:E. by eapply StepSource.
Qed.
Lemma target_step c w : is_Some (target w) → deliverable source_keys target_keys w c → step_ w (on_target c w).
Proof.
  intros [t Et] Hd. unfold on_target. rewrite Et. destruct (run_call 1 c t) as [res t'] eqn:E. by eapply StepTarget.
Qed.
Lemma last_published w : is_Some (head (published w)) → authentic source_keys target_keys w (last_event w).
Proof. intros [e He] _ _ _. unfold last_event. destruct (published w); [done|]. left. Qed.

Lemma scan_step : step_ start_world w1.
Proof.
  apply (StepScan _ _ _ _ _ start_world 1 fresh (default (source start_world) (target w1)) (last_event w1)); [done|]. by vm_compute.
Qed.

Lemma sample_steps : rtc step_ start_world w7.
Proof.
  apply (rtc_l _ _ w1); [exact scan_step|]. apply (rtc_l _ _ w2).
  { apply source_step; [|exact I]. apply last_published. by vm_compute; eexists. }
  apply (rtc_l _ _ w3).
  { apply source_step; [exact I|]. exists (default (source w2) (target w2)). by vm_compute. }
  apply (rtc_l _ _ w4).
  { apply target_step; [by vm_compute; eexists|]. apply last_published. by vm_compute; eexists. }
  apply (rtc_l _ _ w5); [by apply target_step; [vm_compute; eexists|exact I]|].
  apply (rtc_l _ _ w6); [by apply source_step; exact I|]. apply rtc_once.
  apply target_step; [by vm_compute; eexists|]. apply last_published. by vm_compute; eexists.
Qed.

Lemma pairing_agreement_witness :
  rtc step_ start_world w7 ∧ (Target, HandlePayload (last_event w6), OPayload Nsec "nsec1secret") ∈ calls w7 ∧
  (∃ f, (Source, SendPayload f Nsec "nsec1secret", OEvent (last_event w6)) ∈ calls w7).
Proof.
  assert (Hin : (Target, HandlePayload (last_event w6), OPayload Nsec "nsec1secret") ∈ calls w7).
  { pose proof transferred as Hh. destruct (calls w7) as [|x l]; [done|]. injection Hh as ->. left. }
  split; [exact sample_steps|]. split; [exact Hin|].
  apply (proj1 (pairing_agreement source_keys target_keys secret "wss://relay.test" 0 w7 ltac:(done) sample_steps) _ _ _ Hin).
Defined.

Lemma session_follows_protocol_witness :
  session_reachable (source start_world) ∧
  same_session (source start_world) (run_call 1 (HandleOffer (last_event w1)) (source start_world)).2.
Proof.
  split; [apply ReachSource|].
  pose proof (session_follows_protocol (source start_world) 1 (HandleOffer (last_event w1)) (ReachSource _ _ _ _)) as Hs.
  destruct (run_call 1 (HandleOffer (last_event w1)) (source start_world)). apply Hs.
Defined.

End SamplePairing.
