(* ===== verification/ReadQuery.v ===== *)
(** * Queries for stored events ([crates/maju-db/src/store/event.rs], [crates/maju-relay/src/handlers/req.rs])

    What a subscription and a count read: the columns and the index of mentions
    that a row is found by, the statements that [EventQuery] becomes, and how a
    filter of a client is translated into such a query.  The filter of the
    client is evaluated again on every row of a page, so a query only has to
    keep what matches; a count relies on the statement alone where
    [filter_fully_pushable] says that it may.

    The tables are those of [ThreadStore] with the index [event_mentions]; the
    column [d_tag] holds [extract_d_tag] of the event, which is what both
    [INSERT] statements bind. *)
From stdpp Require Import sorting.
From S2P Require Import Prelude Nostr Kinds EventFilter WorkflowTemplate WorkflowStore IngestPolicy IngestRequests ThreadStore.

(** ** Rows *)

(** Mentions are keyed by community, public key and event. *)
Abbreviation MentionKey := (Uuid * string * string)%type (only parsing).

Section columns.
Context {L : NostrLib} {T : TimeRange}.

Record ReadDb := { rows : gmap RowKey EventRow; event_mentions : gset MentionKey }.

(** The second part of a tag whose first part is [name]. *)
Definition tag_value (name : string) (t : Tag) : option string :=
  match as_slice t with k :: v :: _ => if (k =? name)%string then Some v else None | _ => None end.

Definition extract_d_tag (e : Event) : option string :=
  if is_parameterized_replaceable (event_kind_u32 e) then Some (default "" (find_map (tag_value "d") (tags e))) else None.

(** The keys that [insert_mentions] indexes an event under. *)
Definition mention_keys (e : Event) : list string :=
  to_ascii_lowercase <$> List.filter is_hex64 (omap (tag_value "p") (tags e)).

(** The conflicting rows are left alone, so inserting is a union. *)
Definition insert_mentions (c : Uuid) (e : Event) (db : ReadDb) : result DbError ReadDb :=
  match omap (tag_value "p") (tags e) with
  | [] => Ok db
  | _ =>
      match from_timestamp (created_at e) with
      | None => Err InvalidTimestamp
      | Some _ =>
          let keys := list_to_set ((λ pk, (c, pk, Nostr.id e)) <$> mention_keys e) in
          Ok {| rows := rows db; event_mentions := keys ∪ event_mentions db |}
      end
  end.

Definition insert_event (now : Z) (c : Uuid) (e : Event) (ch : option Uuid) (db : ReadDb) : result DbError (StoredEvent * bool * ReadDb) :=
  if (event_kind_u32 e =? KIND_AUTH)%Z then Err AuthRejected
  else if is_ephemeral (event_kind_u32 e) then Err EphemeralRejected
  else
    match from_timestamp (created_at e) with
    | None => Err InvalidTimestamp
    | Some created =>
        let k := (c, created, Nostr.id e) in
        let stored := with_received_at e now ch true in
        match rows db !! k with
        | Some _ => Ok (stored, false, db)
        | None =>
            let row := {| er_event := e; er_received_at := now; er_channel_id := ch; er_deleted := false |} in
            Ok (stored, true, {| rows := <[k := row]> (rows db); event_mentions := event_mentions db |})
        end
    end.

End columns.

(** ** Queries *)

Definition DEFAULT_MAX_PAGE_LIMIT : Z := 1000.

(** [EventQuery]; ids and keys are lower-case hex, times are seconds. *)
Record EventQuery := {
  q_community_id : Uuid;
  q_channel_id : option Uuid;
  q_kinds : option (list Z);
  q_pubkey : option string;
  q_since : option Z;
  q_until : option Z;
  q_limit : option Z;
  q_offset : option Z;
  q_p_tag_hex : option string;
  q_d_tag : option string;
  q_d_tags : option (list string);
  q_before_id : option string;
  q_global_only : bool;
  q_authors : option (list string);
  q_ids : option (list string);
  q_e_tags : option (list string);
  q_custom_tag : option (string * string);
  q_channel_ids : option (list Uuid);
  q_channel_ids_include_global : bool;
  q_max_limit : option Z;
  q_shared_gated_reader : option string
}.

Definition for_community (c : Uuid) : EventQuery := {|
  q_community_id := c; q_channel_id := None; q_kinds := None; q_pubkey := None; q_since := None; q_until := None;
  q_limit := None; q_offset := None; q_p_tag_hex := None; q_d_tag := None; q_d_tags := None; q_before_id := None;
  q_global_only := false; q_authors := None; q_ids := None; q_e_tags := None; q_custom_tag := None;
  q_channel_ids := None; q_channel_ids_include_global := true; q_max_limit := None; q_shared_gated_reader := None |}.

(** Assignments to single fields. *)
Definition set_before_id (b : option string) (q : EventQuery) : EventQuery := {|
  q_community_id := q_community_id q; q_channel_id := q_channel_id q; q_kinds := q_kinds q; q_pubkey := q_pubkey q;
  q_since := q_since q; q_until := q_until q; q_limit := q_limit q; q_offset := q_offset q;
  q_p_tag_hex := q_p_tag_hex q; q_d_tag := q_d_tag q; q_d_tags := q_d_tags q; q_before_id := b;
  q_global_only := q_global_only q; q_authors := q_authors q; q_ids := q_ids q; q_e_tags := q_e_tags q;
  q_custom_tag := q_custom_tag q; q_channel_ids := q_channel_ids q;
  q_channel_ids_include_global := q_channel_ids_include_global q; q_max_limit := q_max_limit q;
  q_shared_gated_reader := q_shared_gated_reader q |}.
Definition set_channel_scope (chs : option (list Uuid)) (global : bool) (q : EventQuery) : EventQuery := {|
  q_community_id := q_community_id q; q_channel_id := q_channel_id q; q_kinds := q_kinds q; q_pubkey := q_pubkey q;
  q_since := q_since q; q_until := q_until q; q_limit := q_limit q; q_offset := q_offset q;
  q_p_tag_hex := q_p_tag_hex q; q_d_tag := q_d_tag q; q_d_tags := q_d_tags q; q_before_id := q_before_id q;
  q_global_only := q_global_only q; q_authors := q_authors q; q_ids := q_ids q; q_e_tags := q_e_tags q;
  q_custom_tag := q_custom_tag q; q_channel_ids := chs; q_channel_ids_include_global := global;
  q_max_limit := q_max_limit q; q_shared_gated_reader := q_shared_gated_reader q |}.
Definition set_limits (lim max : option Z) (q : EventQuery) : EventQuery := {|
  q_community_id := q_community_id q; q_channel_id := q_channel_id q; q_kinds := q_kinds q; q_pubkey := q_pubkey q;
  q_since := q_since q; q_until := q_until q; q_limit := lim; q_offset := q_offset q;
  q_p_tag_hex := q_p_tag_hex q; q_d_tag := q_d_tag q; q_d_tags := q_d_tags q; q_before_id := q_before_id q;
  q_global_only := q_global_only q; q_authors := q_authors q; q_ids := q_ids q; q_e_tags := q_e_tags q;
  q_custom_tag := q_custom_tag q; q_channel_ids := q_channel_ids q;
  q_channel_ids_include_global := q_channel_ids_include_global q; q_max_limit := max;
  q_shared_gated_reader := q_shared_gated_reader q |}.
Definition set_shared_gated_reader (r : option string) (q : EventQuery) : EventQuery := {|
  q_community_id := q_community_id q; q_channel_id := q_channel_id q; q_kinds := q_kinds q; q_pubkey := q_pubkey q;
  q_since := q_since q; q_until := q_until q; q_limit := q_limit q; q_offset := q_offset q;
  q_p_tag_hex := q_p_tag_hex q; q_d_tag := q_d_tag q; q_d_tags := q_d_tags q; q_before_id := q_before_id q;
  q_global_only := q_global_only q; q_authors := q_authors q; q_ids := q_ids q; q_e_tags := q_e_tags q;
  q_custom_tag := q_custom_tag q; q_channel_ids := q_channel_ids q;
  q_channel_ids_include_global := q_channel_ids_include_global q; q_max_limit := q_max_limit q;
  q_shared_gated_reader := r |}.

Section statements.
Context {L : NostrLib} {T : TimeRange} {D : RowDecode}.

(** *** The conditions of the statements *)

(** [tags @> '[[name, value]]']: containment of JSON arrays disregards order and
    position, so some tag has both among its parts. *)
Definition tags_contain (name value : string) (e : Event) : bool :=
  existsb (λ t, string_in name (as_slice t) && string_in value (as_slice t)) (tags e).

(** [None] is an absent condition, and so is an empty list. *)
Definition in_list {A} (test : A → bool) (l : option (list A)) : bool :=
  match l with Some (x :: l) => existsb test (x :: l) | _ => true end.

Definition channel_condition (q : EventQuery) (ch : option Uuid) : bool :=
  match q_channel_id q with
  | Some c => bool_decide (ch = Some c)
  | None => if q_global_only q then bool_decide (ch = None) else true
  end &&
  match q_channel_ids q with
  | None => true
  | Some [] => if q_channel_ids_include_global q then bool_decide (ch = None) else false
  | Some chs =>
      (q_channel_ids_include_global q && bool_decide (ch = None)) ||
      match ch with Some c => bool_decide (c ∈ chs) | None => false end
  end.

Definition mention_condition (q : EventQuery) (db : ReadDb) (k : RowKey) : bool :=
  field_ok (q_p_tag_hex q) (λ p, bool_decide ((q_community_id q, to_ascii_lowercase p, k_id k) ∈ event_mentions db)).

Definition d_tag_condition (q : EventQuery) (e : Event) : bool :=
  match q_d_tag q with
  | Some d => bool_decide (extract_d_tag e = Some d)
  | None => in_list (λ d, bool_decide (extract_d_tag e = Some d)) (q_d_tags q)
  end.

(** The conditions that both statements have, up to the window of time. *)
Definition common_conditions (q : EventQuery) (db : ReadDb) (k : RowKey) (r : EventRow) : bool :=
  let e := er_event r in
  (k_community k =? q_community_id q)%N && negb (er_deleted r) && mention_condition q db k &&
  channel_condition q (er_channel_id r) &&
  in_list (Z.eqb (event_kind_u32 e)) (q_kinds q) &&
  field_ok (q_pubkey q) (String.eqb (pubkey e)) &&
  in_list (String.eqb (pubkey e)) (q_authors q) &&
  in_list (String.eqb (k_id k)) (q_ids q) &&
  in_list (λ x, tags_contain "e" x e) (q_e_tags q) &&
  field_ok (q_since q) (λ s, s <=? k_created_at k)%Z &&
  d_tag_condition q e.

Definition until_condition (u : Z) (before : option string) (k : RowKey) : bool :=
  match before with
  | Some b => (k_created_at k <? u)%Z || ((k_created_at k =? u)%Z && negb (String.leb (k_id k) b))
  | None => (k_created_at k <=? u)%Z
  end.

Definition shared_gate_condition (q : EventQuery) (e : Event) : bool :=
  field_ok (q_shared_gated_reader q) (λ reader,
    negb (one_of (event_kind_u32 e) SHARED_GATED_KINDS) || (pubkey e =? reader)%string || tags_contain "shared" "true" e).

Definition query_where (q : EventQuery) (db : ReadDb) (k : RowKey) (r : EventRow) : bool :=
  common_conditions q db k r &&
  field_ok (q_custom_tag q) (λ nv, tags_contain nv.1 nv.2 (er_event r)) &&
  field_ok (q_until q) (λ u, until_condition u (q_before_id q) k) &&
  shared_gate_condition q (er_event r).

Definition count_where (q : EventQuery) (db : ReadDb) (k : RowKey) (r : EventRow) : bool :=
  common_conditions q db k r && field_ok (q_until q) (λ u, until_condition u None k).

(** *** The statements *)

Definition is_empty_list {A} (l : option (list A)) : bool := match l with Some [] => true | _ => false end.
Definition matches_nothing (q : EventQuery) : bool :=
  is_empty_list (q_kinds q) || is_empty_list (q_authors q) || is_empty_list (q_ids q) || is_empty_list (q_e_tags q).

(** [ORDER BY created_at DESC, id ASC]. *)
Definition selected (q : EventQuery) (db : ReadDb) : list (RowKey * EventRow) :=
  merge_sort window_before (filter (λ kr, query_where q db kr.1 kr.2 = true) (map_to_list (rows db))).

Definition page_limit (q : EventQuery) : Z := Z.min (default 100%Z (q_limit q)) (default DEFAULT_MAX_PAGE_LIMIT (q_max_limit q)).

(** A negative [LIMIT] or [OFFSET] is refused by the database. *)
Definition query_events_on (q : EventQuery) (db : ReadDb) : result DbError (list StoredEvent) :=
  if bool_decide (is_Some (q_before_id q)) && bool_decide (q_until q = None) then Err InvalidData
  else if q_global_only q && bool_decide (is_Some (q_channel_id q)) then Err InvalidData
  else if matches_nothing q then Ok []
  else
    let offset_val := default 0%Z (q_offset q) in
    if (page_limit q <? 0)%Z || (offset_val <? 0)%Z then Err OutOfRange
    else collect row_to_stored_event (take (Z.to_nat (page_limit q)) (drop (Z.to_nat offset_val) (selected q db))).*2.

Definition count_events_on (q : EventQuery) (db : ReadDb) : result DbError Z :=
  if matches_nothing q then Ok 0%Z
  else Ok (Z.of_nat (length (filter (λ kr, count_where q db kr.1 kr.2 = true) (map_to_list (rows db))))).

End statements.
