(* ===== verification/ReadFilter.v ===== *)
(** * Filters of subscriptions and counts ([crates/maju-relay/src/handlers/req.rs])

    The pure part of the read handlers: which channels a request names, the
    query that a filter becomes, the gates on kinds whose events are not for
    everybody, and the visibility of one event to its reader.  The handlers
    themselves are [ReadDoors]. *)
From S2P Require Import Prelude Nostr Kinds EventFilter IngestPolicy IngestRequests ThreadStore ReadQuery.

Definition MAX_SUBSCRIPTIONS : nat := 1024.
Definition MAX_EXPLICIT_CHANNEL_VALUES : nat := 128.
Definition FILTER_QUERY_CONCURRENCY : nat := 4.
Definition SEARCH_PAGE_SIZE : N := 100.
(** [div_ceil]. *)
Definition MAX_SEARCH_PAGES : N := ((Z.to_N DEFAULT_MAX_PAGE_LIMIT + SEARCH_PAGE_SIZE - 1) / SEARCH_PAGE_SIZE)%N.
Definition COUNT_FALLBACK_CANDIDATE_LIMIT : Z := 5000.

Section filters.
Context {L : NostrLib} {T : TimeRange} {U : UuidParse}.

(** ** Channels that a request names *)

(** The [#x] values of a filter. *)
Definition tag_filter (x : string) (f : Filter) : option (list string) := generic_tags f !! x.

(** One value is a channel; more than one cannot be. *)
Definition single_channel (vs : list string) : option Uuid := match vs with [v] => uuid_parse v | _ => None end.

Definition extract_channel_id_from_filter (f : Filter) : option Uuid := vs ← tag_filter "h" f; single_channel vs.

Definition extract_channel_ids_from_filters (fs : list Filter) : option (list Uuid) :=
  (fix go (out : list Uuid) (fs : list Filter) : option (list Uuid) :=
     match fs with
     | [] => Some out
     | f :: fs => vs ← tag_filter "h" f; go (foldl push_unseen out (omap uuid_parse vs)) fs
     end) [] fs.

Definition explicit_values (fs : list Filter) : nat := sum_list_with (λ f, length (default [] (tag_filter "h" f))) fs.

(** [Err] is a request with too many channels; a sum of lengths cannot overflow. *)
Definition extract_channel_ids_from_filters_limited (fs : list Filter) : result unit (option (list Uuid)) :=
  if (MAX_EXPLICIT_CHANNEL_VALUES <? explicit_values fs)%nat then Err tt else Ok (extract_channel_ids_from_filters fs).

(** The inner loop of [extract_channel_id_from_filters]; [None] is its early
    return, the boolean is [filter_has_channel]. *)
Fixpoint scan_channel_values (found : option Uuid) (has : bool) (vs : list string) : option (option Uuid * bool) :=
  match vs with
  | [] => Some (found, has)
  | v :: vs =>
      match uuid_parse v with
      | None => scan_channel_values found has vs
      | Some c =>
          match found with
          | Some existing => if (existing =? c)%N then scan_channel_values (Some c) true vs else None
          | None => scan_channel_values (Some c) true vs
          end
      end
  end.
Fixpoint scan_filters (found : option Uuid) (fs : list Filter) : option Uuid :=
  match fs with
  | [] => found
  | f :: fs =>
      match scan_channel_values found false (default [] (tag_filter "h" f)) with
      | Some (found, true) => scan_filters found fs
      | _ => None
      end
  end.
Definition extract_channel_id_from_filters (fs : list Filter) : option Uuid := scan_filters None fs.

(** [filters_are_nip43_membership_only] and [filters_are_huddle_liveness_only]. *)
Definition kinds_all_are (k : Z) (f : Filter) : bool :=
  match kinds f with Some (x :: ks) => forallb (Z.eqb k) (x :: ks) | _ => false end.
Definition filters_are_nip43_membership_only (fs : list Filter) : bool :=
  negb (bool_decide (fs = [])) && forallb (kinds_all_are KIND_NIP43_MEMBERSHIP_LIST) fs.
Definition filters_are_huddle_liveness_only (fs : list Filter) : bool :=
  negb (bool_decide (fs = [])) &&
  forallb (λ f, match kinds f with Some [k] => (k =? KIND_HUDDLE_LIVENESS)%Z | _ => false end) fs.

Definition huddle_liveness_session_ids (fs : list Filter) : list Uuid :=
  take MAX_EXPLICIT_CHANNEL_VALUES
    (foldl push_unseen [] (omap uuid_parse (concat ((λ f, default [] (tag_filter "d" f)) <$> fs)))).

(** The channels after the call; [accessible] is extended in place. *)
Definition resolve_request_local_access (accessible : list Uuid) (ch : Uuid) (token_allows : bool) (db_is_member : option bool) :
    bool * list Uuid :=
  if negb token_allows then (false, accessible)
  else if bool_decide (ch ∈ accessible) then (true, accessible)
  else match db_is_member with Some true => (true, accessible ++ [ch]) | _ => (false, accessible) end.

(** ** The query of a filter *)

(** [l as i64], [s.as_secs() as i64] and [l as u32]. *)
Definition limit_i64 (l : N) : Z := as_i64 (Z.of_N l).
Definition as_u32 (n : N) : N := (n mod 2 ^ 32)%N.

Definition nip33_only (ks : option (list Z)) : bool :=
  match ks with Some (k :: l) => forallb is_parameterized_replaceable (k :: l) | _ => false end.

Definition non_empty {A} (l : option (list A)) : option (list A) := match l with Some [] => None | _ => l end.
Definition sole {A} (l : option (list A)) : option A := match l with Some [x] => Some x | _ => None end.
Definition several {A} (l : option (list A)) : option (list A) := match l with Some (_ :: _ :: _) => l | _ => None end.

Definition filter_to_query_params (f : Filter) (channel : option Uuid) (c : Uuid) : EventQuery :=
  let pushed_d := if nip33_only (kinds f) then tag_filter "d" f else None in {|
  q_community_id := c;
  q_channel_id := channel;
  q_kinds := kinds f;
  q_pubkey := sole (authors f);
  q_since := since f ≫= from_timestamp;
  q_until := until f ≫= from_timestamp;
  q_limit := Some (from_option (λ l, Z.min (limit_i64 l) DEFAULT_MAX_PAGE_LIMIT) DEFAULT_MAX_PAGE_LIMIT (limit f));
  q_offset := None;
  q_p_tag_hex := sole (tag_filter "p" f);
  q_d_tag := sole pushed_d;
  q_d_tags := several pushed_d;
  q_before_id := None;
  q_global_only := false;
  q_authors := several (authors f);
  q_ids := non_empty (ids f);
  q_e_tags := non_empty (tag_filter "e" f);
  q_custom_tag := None;
  q_channel_ids := None;
  q_channel_ids_include_global := true;
  q_max_limit := None;
  q_shared_gated_reader := None |}.

Definition build_event_query_from_filter (f : Filter) (c : Uuid) : EventQuery :=
  filter_to_query_params f (extract_channel_id_from_filter f) c.

Definition apply_channel_scope_to_query (q : EventQuery) (f : Filter) (channel : option Uuid) (accessible : list Uuid) : EventQuery :=
  match channel with
  | Some _ => q
  | None =>
      match tag_filter "h" f with
      | Some vs => set_channel_scope (Some (filter (λ c, c ∈ accessible) (omap uuid_parse vs))) false q
      | None => set_channel_scope (Some accessible) (q_channel_ids_include_global q) q
      end
  end.

(** ** Kinds that are not for everybody *)

Definition can_match (gated : list Z) (f : Filter) : bool :=
  match kinds f with None => true | Some ks => existsb (λ k, one_of k gated) ks end.

Definition filter_can_match_author_only_kinds : Filter → bool := can_match AUTHOR_ONLY_KINDS.
Definition filter_can_match_shared_gated_kinds : Filter → bool := can_match SHARED_GATED_KINDS.
Definition filter_can_match_result_gated_kinds : Filter → bool := can_match RESULT_GATED_KINDS.

(** The [#p] values are there and all name the reader. *)
Definition p_names_reader (f : Filter) (reader : string) : bool :=
  match tag_filter "p" f with Some (v :: vs) => forallb (String.eqb reader) (v :: vs) | _ => false end.
Definition authors_are_reader (f : Filter) (reader : string) : bool :=
  match authors f with
  | Some (a :: l) => forallb (λ a, to_ascii_lowercase a =? to_ascii_lowercase reader)%string (a :: l)
  | _ => false
  end.
Definition names_ids (f : Filter) : bool := match ids f with Some (_ :: _) => true | _ => false end.

Definition result_gated_count_safe_for_pushdown : Filter → string → bool := p_names_reader.

Definition p_gated_filter_ok (reader : string) (f : Filter) : bool :=
  if negb (can_match P_GATED_KINDS f) then true
  else
    let explicitly_no_ids_exemption :=
      match kinds f with
      | None => false
      | Some ks => existsb (λ k, (k =? KIND_DM_VISIBILITY) || (k =? KIND_AGENT_TURN_METRIC))%Z ks
      end in
    if negb explicitly_no_ids_exemption && names_ids f then true else p_names_reader f reader.
Definition p_gated_filters_authorized (fs : list Filter) (reader : string) : bool := forallb (p_gated_filter_ok reader) fs.

Definition engram_filter_ok (reader : string) (f : Filter) : bool :=
  if names_ids f then true
  else if negb (match kinds f with None => true | Some ks => existsb (Z.eqb KIND_AGENT_ENGRAM) ks end) then true
  else if authors_are_reader f reader then true
  else p_names_reader f reader.
Definition engram_filters_authorized (fs : list Filter) (reader : string) : bool := forallb (engram_filter_ok reader) fs.

Definition author_only_filter_ok (reader : string) (f : Filter) : bool :=
  let targets_only_author_only :=
    match kinds f with Some (k :: ks) => forallb (λ k, one_of k AUTHOR_ONLY_KINDS) (k :: ks) | _ => false end in
  if negb targets_only_author_only then true else authors_are_reader f reader.
Definition author_only_filters_authorized (fs : list Filter) (reader : string) : bool := forallb (author_only_filter_ok reader) fs.

(** ** One event and its reader *)

Definition is_author_only_event (e : Event) (requester : string) : bool :=
  one_of (event_kind_u32 e) AUTHOR_ONLY_KINDS && negb (pubkey e =? requester)%string.

Definition event_visible_to_reader (e : Event) (requester : string) : bool :=
  if is_author_only_event e requester then false
  else if is_unshared_gated_event e requester then false
  else if negb (reader_authorized_for_event e requester) then false
  else true.

(** ** Counting *)

Definition apply_count_fallback_limit (q : EventQuery) : EventQuery :=
  let fetch_limit := (COUNT_FALLBACK_CANDIDATE_LIMIT + 1)%Z in set_limits (Some fetch_limit) (Some fetch_limit) q.
Definition count_fallback_exceeded (candidates : nat) : bool := (COUNT_FALLBACK_CANDIDATE_LIMIT <? Z.of_nat candidates)%Z.

(** One round of the loop of [filter_fully_pushable]. *)
Definition tag_pushable (is_nip33_only : bool) (key : string) (values : list string) : bool :=
  if (key =? "h")%string then true
  else if (key =? "p")%string then (length values <=? 1)%nat
  else if (key =? "d")%string then bool_decide (values = []) || is_nip33_only
  else if (key =? "e")%string then true
  else bool_decide (values = []).
Definition filter_fully_pushable (f : Filter) : bool :=
  forallb (λ kv, tag_pushable (nip33_only (kinds f)) kv.1 kv.2) (map_to_list (generic_tags f)) &&
  match search f with Some _ => false | None => true end.

(** ** Searching *)

(** [ChannelScope] of [crates/maju-search/src/query.rs]. *)
Inductive ChannelScope :=
  | Any
  | ChannelLessOnly
  | InChannels (chs : list Uuid)
  | ChannelsOrChannelLess (chs : list Uuid).

Definition build_search_channel_scope_filter (accessible : list Uuid) (include_global : bool) : option ChannelScope :=
  match accessible with
  | [] => if include_global then Some ChannelLessOnly else None
  | _ => Some (if include_global then ChannelsOrChannelLess accessible else InChannels accessible)
  end.

(** [SearchQuery], in the mode [FullText]. *)
Record SearchQuery := {
  s_community : Uuid;
  s_q : string;
  s_channel_scope : ChannelScope;
  s_kinds : option (list Z);
  s_authors : option (list string);
  s_since : option Z;
  s_until : option Z;
  s_page : N;
  s_per_page : N
}.

End filters.
