(* ===== verification/ReadDoors.v ===== *)
(** * Subscriptions and counts ([crates/maju-relay/src/handlers/req.rs], [count.rs])

    [handle_req] and [handle_count] as programs over the requests they make of
    the connection, the registry of subscriptions, the database, the search and
    the directory of sessions.

    The queries of the filters of one [REQ] are independent reads, of which the
    code keeps a few in flight; their answers are taken in the order of the
    filters.  Here each query is asked for when its answer is taken; as an
    answer may be anything, this includes the answer of an earlier moment.
    The texts of database errors are shortened. *)
From S2P Require Import Prelude Nostr Kinds EventFilter SubRegistry MeshWire Program IngestPolicy IngestRequests ThreadStore ReadQuery ReadFilter.

Section doors.
Context {L : NostrLib} {T : TimeRange} {U : UuidParse}.

(** ** Requests *)

(** The fields of [AuthContext] that are read. *)
Record AuthContext := { ctx_pubkey : string; ctx_scopes : list Scope; ctx_channel_ids : option (list Uuid) }.
Inductive AuthState := Pending (challenge : string) | Authenticated (ctx : AuthContext) | Failed.

(** [RelayMessage], before it is printed. *)
Inductive RelayMessage :=
  | Notice (msg : string)
  | Closed (sub msg : string)
  | EventMsg (sub : string) (e : Event)
  | Eose (sub : string)
  | CountMsg (sub : string) (n : Z).

Inductive EventTopic := TopicChannel (ch : Uuid) | TopicGlobal.

(** The connection and the configuration of the relay. *)
Record ConnectionState := { cn_conn_id : Uuid; cn_community : Uuid; cn_mesh : bool; cn_huddle_generation : N }.

(** What building the liveness event of a huddle gives. *)
Inductive LivenessEvent := TagsInvalid | SigningFailed | Signed (e : Event).

Inductive ReadReq :=
  (* the connection *)
  | ReadAuthState
  | SubscriptionIds
  | InsertSubscription (sub : string) (fs : list Filter)
  | Send (m : RelayMessage)
  (* access *)
  | GetAccessibleChannelIdsCached (c : Uuid) (pk : string)
  | ConfirmMember (c ch : Uuid) (pk : string)
  (* the registry and its topics *)
  | RegisterChannelsScoped (c conn : Uuid) (sub : string) (fs : list Filter) (chs : list Uuid)
  | RegisterGlobal (c conn : Uuid) (sub : string) (fs : list Filter)
  | RetainTopic (t : EventTopic)
  | ReleaseTopic (t : EventTopic)
  (* events *)
  | QueryEventsRouted (q : EventQuery)
  | QueryEventsRoutedBounded (q : EventQuery)
  | CountEventsRouted (q : EventQuery)
  | SearchEvents (q : SearchQuery)
  | GetEventsByIdsRouted (c : Uuid) (ids : list string)
  (* huddles *)
  | HuddleStartedLinks (c : Uuid) (parents sessions : list Uuid)
  | DirectoryLookup (c session : Uuid)
  | AudioRoomInUse (c session : Uuid)
  | BuildLiveness (session parent : Uuid) (generation : N).

(** [None] and [Err] are failed calls.  A search answers the ids of its hits;
    a link is a session with its parent channel. *)
Definition ReadAns (r : ReadReq) : Type :=
  match r with
  | ReadAuthState => AuthState
  | SubscriptionIds => list string
  | InsertSubscription _ _ | RetainTopic _ | ReleaseTopic _ => unit
  | Send _ => bool
  | GetAccessibleChannelIdsCached _ _ => option (list Uuid)
  | ConfirmMember _ _ _ => option bool
  | RegisterChannelsScoped _ _ _ _ _ | RegisterGlobal _ _ _ _ => option RemovedSubscription
  | QueryEventsRouted _ | QueryEventsRoutedBounded _ => result DbError (list StoredEvent)
  | CountEventsRouted _ => result DbError Z
  | SearchEvents _ => option (list string)
  | GetEventsByIdsRouted _ _ => option (list StoredEvent)
  | HuddleStartedLinks _ _ _ => option (list (Uuid * Uuid))
  | DirectoryLookup _ _ => option (option (Profile * N))
  | AudioRoomInUse _ _ => bool
  | BuildLiveness _ _ _ => LivenessEvent
  end.

Definition read_sig : Signature := {| request := ReadReq; answer := ReadAns |}.
Definition req (r : ReadReq) : Program read_sig (ReadAns r) := call (S := read_sig) r.
Abbreviation Prog := (Program read_sig) (only parsing).

Definition send (m : RelayMessage) : Prog bool := req (Send m).
Definition audio_room_in_use (c session : Uuid) : Prog bool := req (AudioRoomInUse c session).

(** The last message of a handler. *)
Definition finish (m : RelayMessage) : Prog unit := send m ≫= λ _, mret tt.

(** ** Access *)

Definition token_allows (token : option (list Uuid)) (ch : Uuid) : bool :=
  match token with None => true | Some allowed => bool_decide (ch ∈ allowed) end.

(** [accessible_channels.retain(..)]. *)
Definition narrow (token : option (list Uuid)) (accessible : list Uuid) : list Uuid :=
  match token with None => accessible | Some allowed => filter (λ ch, ch ∈ allowed) accessible end.

(** The confirmation of the requested channels; [None] is a failed lookup. *)
Fixpoint confirm_channels (c : Uuid) (pk : string) (token : option (list Uuid)) (requested accessible : list Uuid) :
    Prog (option (list Uuid)) :=
  match requested with
  | [] => mret (Some accessible)
  | ch :: requested =>
      let allows := token_allows token ch in
      if negb allows || bool_decide (ch ∈ accessible)
      then confirm_channels c pk token requested (resolve_request_local_access accessible ch allows None).2
      else
        m ← req (ConfirmMember c ch pk);
        match m with
        | Some member => confirm_channels c pk token requested (resolve_request_local_access accessible ch allows (Some member)).2
        | None => mret None
        end
  end.

(** ** Historical events *)

(** What a row of a page must satisfy before it is sent. *)
Definition accepted (f : Filter) (accessible : list Uuid) (pk : string) (s : StoredEvent) : bool :=
  filters_match [f] s &&
  match channel_id s with Some ch => bool_decide (ch ∈ accessible) | None => true end &&
  event_visible_to_reader (event s) pk.

(** Sends the rows of a page; the ids sent so far, or [None] when the
    connection takes no more. *)
Fixpoint deliver (sub : string) (f : Filter) (accessible : list Uuid) (pk : string) (page : list StoredEvent) (seen : list string) :
    Prog (option (list string)) :=
  match page with
  | [] => mret (Some seen)
  | s :: page =>
      if negb (accepted f accessible pk s) || bool_decide (Nostr.id (event s) ∈ seen)
      then deliver sub f accessible pk page seen
      else
        sent ← send (EventMsg sub (event s));
        match sent with true => deliver sub f accessible pk page (Nostr.id (event s) :: seen) | false => mret None end
  end.

(** The query of the filter at [idx] ("Phase 1"). *)
Definition historical_query (c : Uuid) (pk : string) (accessible : list Uuid) (channel : option Uuid)
    (before_ids : list (option string)) (idx : nat) (f : Filter) : EventQuery :=
  let per_filter_channel :=
    match extract_channel_id_from_filter f with Some ch => Some ch | None => channel end in
  let params := filter_to_query_params f per_filter_channel c in
  let params := set_before_id (mjoin (before_ids !! idx)) params in
  let params := apply_channel_scope_to_query params f per_filter_channel accessible in
  if filter_can_match_shared_gated_kinds f then set_shared_gated_reader (Some pk) params else params.

(** "Phase 2" and "Phase 3". *)
Fixpoint deliver_history (sub : string) (accessible : list Uuid) (pk : string) (work : list (Filter * EventQuery)) (seen : list string) :
    Prog unit :=
  match work with
  | [] => finish (Eose sub)
  | (f, q) :: work =>
      page ← req (QueryEventsRouted q);
      match page with
      | Err _ => finish (Eose sub)
      | Ok page =>
          seen ← deliver sub f accessible pk page seen;
          match seen with
          | Some seen => deliver_history sub accessible pk work seen
          | None => mret tt
          end
      end
  end.

(** ** Search *)

(** One page of hits, in the order of the hits; [None] when the connection
    takes no more. *)
Fixpoint deliver_hits (sub : string) (f : Filter) (accessible : list Uuid) (pk : string) (limit : N)
    (found : list StoredEvent) (hits : list string) (emitted : N) (seen : list string) : Prog (option (N * list string)) :=
  match hits with
  | [] => mret (Some (emitted, seen))
  | i :: hits =>
      if (limit <=? emitted)%N then mret (Some (emitted, seen))
      else
        (* the last of equal ids is the one in the map *)
        match last (List.filter (λ s, Nostr.id (event s) =? i)%string found) with
        | None => deliver_hits sub f accessible pk limit found hits emitted seen
        | Some s =>
            if negb (accepted f accessible pk s) || bool_decide (Nostr.id (event s) ∈ seen)
            then deliver_hits sub f accessible pk limit found hits emitted seen
            else
              sent ← send (EventMsg sub (event s));
              match sent with true => deliver_hits sub f accessible pk limit found hits (emitted + 1) (Nostr.id (event s) :: seen) | false => mret None end
        end
  end.

(** The pages of one filter; [pages] is how many are left. *)
Fixpoint search_pages (sub : string) (c : Uuid) (f : Filter) (accessible : list Uuid) (pk : string) (limit : N)
    (query : N → SearchQuery) (pages : nat) (page : N) (emitted : N) (seen : list string) : Prog (option (list string)) :=
  match pages with
  | O => mret (Some seen)
  | S pages =>
      if (limit <=? emitted)%N then mret (Some seen)
      else
        hits ← req (SearchEvents (query page));
        match hits with
        | None => mret (Some seen)
        | Some [] => mret (Some seen)
        | Some hits =>
            let exhausted := (N.of_nat (length hits) <? SEARCH_PAGE_SIZE)%N in
            found ← req (GetEventsByIdsRouted c hits);
            match found with
            | None => mret (Some seen)
            | Some found =>
                r ← deliver_hits sub f accessible pk limit found hits emitted seen;
                match r with
                | None => mret None
                | Some (emitted, seen) =>
                    if exhausted then mret (Some seen)
                    else search_pages sub c f accessible pk limit query pages (page + 1) emitted seen
                end
            end
        end
  end.

(** The scope of one filter; [None] skips it. *)
Definition search_scope (all : ChannelScope) (accessible : list Uuid) (f : Filter) : option ChannelScope :=
  match tag_filter "h" f with
  | Some (v :: vs) =>
      match filter (λ ch, ch ∈ accessible) (omap uuid_parse (v :: vs)) with
      | [] => None
      | valid => Some (InChannels valid)
      end
  | _ => Some all
  end.

Definition search_limit (f : Filter) : N :=
  let max := Z.to_N DEFAULT_MAX_PAGE_LIMIT in from_option (λ l, N.min (as_u32 l) max) max (limit f).

Definition search_query (c : Uuid) (text : string) (scope : ChannelScope) (f : Filter) (page : N) : SearchQuery := {|
  s_community := c; s_q := text; s_channel_scope := scope; s_kinds := non_empty (kinds f); s_authors := non_empty (authors f);
  s_since := as_i64 <$> since f; s_until := as_i64 <$> until f; s_page := page; s_per_page := SEARCH_PAGE_SIZE |}.

Fixpoint search_filters (sub : string) (c : Uuid) (all : ChannelScope) (accessible : list Uuid) (pk : string)
    (fs : list Filter) (seen : list string) : Prog unit :=
  match fs with
  | [] => finish (Eose sub)
  | f :: fs =>
      match search f, search_scope all accessible f with
      | Some text, Some scope =>
          if (text =? "")%string || (search_limit f =? 0)%N then search_filters sub c all accessible pk fs seen
          else
            r ← search_pages sub c f accessible pk (search_limit f) (search_query c text scope f) (N.to_nat MAX_SEARCH_PAGES) 1 0 seen;
            match r with
            | Some seen => search_filters sub c all accessible pk fs seen
            | None => mret tt
            end
      | _, _ => search_filters sub c all accessible pk fs seen
      end
  end.

Definition handle_search_req (sub : string) (fs : list Filter) (accessible : list Uuid) (include_global : bool) (c : Uuid) (pk : string) :
    Prog unit :=
  match build_search_channel_scope_filter accessible include_global with
  | None => finish (Eose sub)
  | Some all => search_filters sub c all accessible pk fs []
  end.

(** ** Huddle liveness *)

Fixpoint deliver_liveness (sub : string) (conn : ConnectionState) (links : list (Uuid * Uuid)) : Prog unit :=
  match links with
  | [] => finish (Eose sub)
  | (session, parent) :: links =>
      let announce (generation : N) : Prog unit :=
        e ← req (BuildLiveness session parent generation);
        match e with
        | TagsInvalid => deliver_liveness sub conn links
        | SigningFailed => finish (Closed sub "error: signing failed")
        | Signed e =>
            sent ← send (EventMsg sub e);
            match sent with true => deliver_liveness sub conn links | false => mret tt end
        end in
      if cn_mesh conn then
        lease ← req (DirectoryLookup (cn_community conn) session);
        match lease with
        | None => finish (Closed sub "error: liveness unavailable")
        | Some (Some (HuddleControl, generation)) => announce generation
        | Some _ => deliver_liveness sub conn links
        end
      else
        used ← audio_room_in_use (cn_community conn) session;
        match used with true => announce (cn_huddle_generation conn) | false => deliver_liveness sub conn links end
  end.

Definition handle_huddle_liveness_req (sub : string) (fs : list Filter) (parents : list Uuid) (conn : ConnectionState) : Prog unit :=
  match parents with
  | [] => finish (Closed sub "restricted: huddle liveness requires an authorized #h channel")
  | _ =>
      links ← req (HuddleStartedLinks (cn_community conn) parents (huddle_liveness_session_ids fs));
      match links with
      | None => finish (Closed sub "error: database error")
      | Some links => deliver_liveness sub conn links
      end
  end.

(** ** REQ *)

Fixpoint each_topic (f : EventTopic → ReadReq) (chs : list Uuid) : Prog unit :=
  match chs with
  | [] => mret tt
  | ch :: chs => req (f (TopicChannel ch)) ≫= λ _, each_topic f chs
  end.

Definition release_subscription_topics (scope : SubscriptionScope) : Prog unit :=
  if is_global scope then req (ReleaseTopic TopicGlobal) ≫= λ _, mret tt
  else each_topic ReleaseTopic (SubRegistry.channel_ids scope).

(** The gates on a request that is not about one channel, and on a count;
    [p_gated] is the text of the first refusal. *)
Definition global_gate (p_gated : string) (fs : list Filter) (pk : string) : option string :=
  if negb (p_gated_filters_authorized fs pk) then Some p_gated
  else if negb (engram_filters_authorized fs pk) then Some "restricted: agent-engram reads require authors=[self] or #p=[self]"
  else if negb (author_only_filters_authorized fs pk) then Some "restricted: author-only kinds require authors=[self]"
  else None.

(** From the registration to the end. *)
Definition subscribe (sub : string) (fs : list Filter) (before_ids : list (option string)) (conn : ConnectionState) (pk : string)
    (channel : option Uuid) (authorized : option (list Uuid)) (accessible : list Uuid) : Prog unit :=
  _ ← req (InsertSubscription sub fs);
  replaced ←
    match authorized with
    | Some chs => req (RegisterChannelsScoped (cn_community conn) (cn_conn_id conn) sub fs chs)
    | None => req (RegisterGlobal (cn_community conn) (cn_conn_id conn) sub fs)
    end;
  _ ← match replaced with Some r => release_subscription_topics (rs_scope r) | None => mret tt end;
  _ ← match authorized with
      | Some chs => each_topic RetainTopic chs
      | None => req (RetainTopic TopicGlobal) ≫= λ _, mret tt
      end;
  deliver_history sub accessible pk
    (imap (λ idx f, (f, historical_query (cn_community conn) pk accessible channel before_ids idx f)) fs) [].

(** Once the channels of the reader are known. *)
Definition serve (sub : string) (fs : list Filter) (before_ids : list (option string)) (conn : ConnectionState) (ctx : AuthContext)
    (requested : option (list Uuid)) (accessible : list Uuid) : Prog unit :=
  let pk := ctx_pubkey ctx in
  let channel := extract_channel_id_from_filters fs in
  let authorized := (λ chs, filter (λ ch, ch ∈ accessible) chs) <$> requested in
  if bool_decide (authorized = Some []) then finish (Closed sub "restricted: not a channel member")
  else if filters_are_huddle_liveness_only fs then handle_huddle_liveness_req sub fs (default [] authorized) conn
  else
    match (if bool_decide (channel = None)
           then global_gate "restricted: p-gated events require #p matching your pubkey" fs pk else None) with
    | Some msg => finish (Closed sub msg)
    | None =>
        if existsb (λ f, bool_decide (is_Some (search f))) fs then
          if existsb (λ f, bool_decide (search f = None)) fs
          then finish (Closed sub "error: mixed search and non-search filters not supported")
          else handle_search_req sub fs accessible (bool_decide (ctx_channel_ids ctx = None)) (cn_community conn) pk
        else subscribe sub fs before_ids conn pk channel authorized accessible
    end.

Definition handle_req (sub : string) (fs : list Filter) (before_ids : list (option string)) (conn : ConnectionState) : Prog unit :=
  auth ← req ReadAuthState;
  match auth with
  | Authenticated ctx =>
      if negb (bool_decide (ctx_scopes ctx = [])) && negb (bool_decide (MessagesRead ∈ ctx_scopes ctx)) then
        _ ← req (Send (Notice "restricted: insufficient scope"));
        finish (Closed sub "restricted: insufficient scope")
      else
        subs ← req SubscriptionIds;
        if negb (bool_decide (sub ∈ subs)) && (MAX_SUBSCRIPTIONS <=? length subs)%nat
        then finish (Closed sub "error: too many subscriptions")
        else
          match extract_channel_ids_from_filters_limited fs with
          | Err _ => finish (Closed sub "restricted: too many explicit channels")
          | Ok requested =>
              known ←
                (if filters_are_nip43_membership_only fs then mret (Some [])
                 else req (GetAccessibleChannelIdsCached (cn_community conn) (ctx_pubkey ctx)));
              match known with
              | None => finish (Closed sub "error: database error")
              | Some known =>
                  confirmed ←
                    confirm_channels (cn_community conn) (ctx_pubkey ctx) (ctx_channel_ids ctx) (default [] requested)
                      (narrow (ctx_channel_ids ctx) known);
                  match confirmed with
                  | None => finish (Closed sub "error: database error")
                  | Some accessible => serve sub fs before_ids conn ctx requested accessible
                  end
              end
          end
  | _ =>
      _ ← req (Send (Notice "auth-required: authenticate before subscribing"));
      finish (Closed sub "auth-required: not authenticated")
  end.
(** ** COUNT *)

(** Whether the statement alone gives the count ([author_is_self] and the three
    [needs_.._filtering]). *)
Definition fast_count (f : Filter) (pk : string) : bool :=
  filter_fully_pushable f &&
  (negb (filter_can_match_author_only_kinds f) || authors_are_reader f pk) &&
  negb (filter_can_match_result_gated_kinds f && negb (result_gated_count_safe_for_pushdown f pk)) &&
  negb (filter_can_match_shared_gated_kinds f).

(** The query of a filter that names channels, of which [authorized] remain. *)
Definition channel_count_query (c : Uuid) (pk : string) (accessible requested authorized : list Uuid) (f : Filter) : EventQuery :=
  let ch_id := if (length requested =? 1)%nat then head authorized else None in
  let query := apply_channel_scope_to_query (build_event_query_from_filter f c) f ch_id accessible in
  if filter_can_match_shared_gated_kinds f then set_shared_gated_reader (Some pk) query else query.

(** The query of a filter that names none. *)
Definition global_count_query (c : Uuid) (pk : string) (accessible : list Uuid) (f : Filter) : EventQuery :=
  let query := build_event_query_from_filter f c in
  let query := set_channel_scope (Some accessible) (q_channel_ids_include_global query) query in
  if filter_can_match_shared_gated_kinds f then set_shared_gated_reader (Some pk) query else query.

(** What the fallback counts of the candidates. *)
Definition counted (f : Filter) (pk : string) (s : StoredEvent) : bool :=
  filters_match [f] s && event_visible_to_reader (event s) pk.

(** The count of one query; [None] when the request was closed. *)
Definition count_one (sub : string) (f : Filter) (pk : string) (fast_query query : EventQuery) : Prog (option Z) :=
  if fast_count f pk then
    n ← req (CountEventsRouted fast_query);
    match n with
    | Ok n => mret (Some n)
    | Err _ => finish (Closed sub "error: database error") ≫= λ _, mret None
    end
  else
    candidates ← req (QueryEventsRoutedBounded (apply_count_fallback_limit query));
    match candidates with
    | Err _ => finish (Closed sub "error: database error") ≫= λ _, mret None
    | Ok candidates =>
        if count_fallback_exceeded (length candidates)
        then finish (Closed sub "restricted: count filter requires narrower constraints") ≫= λ _, mret None
        else mret (Some (Z.of_nat (length (List.filter (counted f pk) candidates))))
    end.

(** The loop over the filters; the channels that are confirmed for one filter
    stay known for the next. *)
Fixpoint count_filters (sub : string) (conn : ConnectionState) (ctx : AuthContext) (fs : list Filter) (accessible : list Uuid) (total : Z) :
    Prog unit :=
  let c := cn_community conn in let pk := ctx_pubkey ctx in
  match fs with
  | [] => finish (CountMsg sub total)
  | f :: fs =>
      match extract_channel_ids_from_filters [f] with
      | Some requested =>
          confirmed ← confirm_channels c pk (ctx_channel_ids ctx) requested accessible;
          match confirmed with
          | None => finish (Closed sub "error: database error")
          | Some accessible =>
              let authorized := filter (λ ch, ch ∈ accessible) requested in
              match authorized with
              | [] => count_filters sub conn ctx fs accessible total
              | _ =>
                  let query := channel_count_query c pk accessible requested authorized f in
                  n ← count_one sub f pk query query;
                  match n with
                  | Some n => count_filters sub conn ctx fs accessible (total + n)
                  | None => mret tt
                  end
              end
          end
      | None =>
          let query := global_count_query c pk accessible f in
          n ← count_one sub f pk (set_limits None (q_max_limit query) query) query;
          match n with
          | Some n => count_filters sub conn ctx fs accessible (total + n)
          | None => mret tt
          end
      end
  end.

Definition handle_count (sub : string) (fs : list Filter) (conn : ConnectionState) : Prog unit :=
  auth ← req ReadAuthState;
  match auth with
  | Authenticated ctx =>
      match global_gate "restricted: p-gated kinds require #p tag matching your pubkey" fs (ctx_pubkey ctx) with
      | Some msg => finish (Closed sub msg)
      | None =>
          match extract_channel_ids_from_filters_limited fs with
          | Err _ => finish (Closed sub "restricted: too many explicit channels")
          | Ok _ =>
              known ← req (GetAccessibleChannelIdsCached (cn_community conn) (ctx_pubkey ctx));
              match known with
              | None => finish (Closed sub "error: database error")
              | Some known => count_filters sub conn ctx fs (narrow (ctx_channel_ids ctx) known) 0
              end
          end
      end
  | _ => finish (Closed sub "auth-required: not authenticated")
  end.

End doors.
