(* ===== verification/ReadProps.v ===== *)
(** * What a subscription may read

    [handle_req] against everything the database, the caches, the search and
    the connection may answer. *)
From S2P Require Import Prelude Nostr Kinds EventFilter SubRegistry MeshWire Program IngestPolicy IngestRequests ThreadStore ReadQuery ReadFilter ReadDoors.

(** ** Visibility and gates *)

Section visibility.
Context {L : NostrLib}.

(** What [event_visible_to_reader] grants. *)
Definition may_see (e : Event) (pk : string) : Prop :=
  (kind e ∈ AUTHOR_ONLY_KINDS → pubkey e = pk) ∧
  (kind e ∈ SHARED_GATED_KINDS →
     pubkey e = pk ∨ ∃ t, List.filter names_shared (tags e) = [t] ∧ as_slice t = ["shared"; "true"]) ∧
  (kind e ∈ RESULT_GATED_KINDS → carries e "p" pk).

Lemma event_visible_spec e pk : event_visible_to_reader e pk = true ↔ may_see e pk.
Proof.
  unfold event_visible_to_reader, may_see, is_author_only_event, event_kind_u32.
  assert (Hu := unshared_gate_spec e pk). assert (Hr := reader_gate_spec e pk).
  destruct (one_of (kind e) AUTHOR_ONLY_KINDS) eqn:Ea; [apply one_of_spec in Ea|apply not_true_iff_false in Ea; rewrite one_of_spec in Ea];
    destruct (pubkey e =? pk)%string eqn:Ep; boolify; simpl;
    destruct (decide (kind e ∈ SHARED_GATED_KINDS)), (decide (kind e ∈ RESULT_GATED_KINDS));
    destruct (is_unshared_gated_event e pk), (reader_authorized_for_event e pk); simpl; naive_solver.
Qed.

(** A filter whose [#p] values all name the reader accepts only what carries the reader. *)
Lemma p_names_reader_carries f pk ev : p_names_reader f pk = true → filter_accepts f ev → carries (event ev) "p" pk.
Proof.
  unfold p_names_reader, tag_filter. intros Hp (_ & _ & _ & _ & _ & Ht).
  destruct (generic_tags f !! "p") as [[|v vs]|] eqn:Ef; try done.
  destruct (Ht _ _ Ef) as [(w & Hw & Hc)|[[=] _]].
  rewrite forallb_forall in Hp. apply list_elem_of_In in Hw. apply Hp, String.eqb_eq in Hw. by subst.
Qed.

Lemma authors_are_reader_pubkey f pk ev :
  authors_are_reader f pk = true → filter_accepts f ev → to_ascii_lowercase (pubkey (event ev)) = to_ascii_lowercase pk.
Proof.
  unfold authors_are_reader. intros Ha (_ & Hp & _). destruct (authors f) as [[|a l]|]; try done.
  specialize (Hp _ eq_refl). rewrite forallb_forall in Ha. apply list_elem_of_In in Hp. by apply Ha, String.eqb_eq in Hp.
Qed.

Lemma can_match_kind gated f ev : filter_accepts f ev → kind (event ev) ∈ gated → can_match gated f = true.
Proof.
  intros (Hk & _) Hg. unfold can_match. destruct (kinds f) as [ks|]; [|done].
  apply existsb_elem_of. exists (kind (event ev)). split; [by apply Hk|]. by apply one_of_spec.
Qed.

(** The filter names the event by a prefix of its id. *)
Definition named_by (f : Filter) (e : Event) : Prop := ∃ js i, ids f = Some js ∧ i ∈ js ∧ starts_with i (id e) = true.

Lemma names_ids_named f ev : names_ids f = true → filter_accepts f ev → named_by f (event ev).
Proof.
  unfold names_ids, named_by. intros Hn (_ & _ & _ & _ & Hi & _). destruct (ids f) as [[|i l]|] eqn:Ef; try done.
  destruct (Hi _ eq_refl) as (j & Hj & Hs). eauto.
Qed.

(** What the gates on a request ask of an event that one of its filters accepts. *)
Definition gated_for (fs : list Filter) (pk : string) (e : Event) : Prop :=
  (kind e ∈ P_GATED_KINDS → carries e "p" pk ∨ ∃ f, f ∈ fs ∧ named_by f e) ∧
  (kind e = KIND_AGENT_ENGRAM →
     to_ascii_lowercase (pubkey e) = to_ascii_lowercase pk ∨ carries e "p" pk ∨ ∃ f, f ∈ fs ∧ named_by f e).

Lemma p_gated_filter_sound (fs : list Filter) pk f ev :
  f ∈ fs → p_gated_filter_ok pk f = true → filter_accepts f ev →
  kind (event ev) ∈ P_GATED_KINDS → carries (event ev) "p" pk ∨ ∃ f, f ∈ fs ∧ named_by f (event ev).
Proof.
  unfold p_gated_filter_ok. intros Hf Hp Ha Hk. rewrite (can_match_kind P_GATED_KINDS f ev) in Hp by done. cbn [negb] in Hp.
  destruct (negb _ && names_ids f) eqn:En.
  - apply andb_true_iff in En as [_ En]. right. exists f. eauto using names_ids_named.
  - left. by eapply p_names_reader_carries.
Qed.

Lemma engram_filter_sound (fs : list Filter) pk f ev :
  f ∈ fs → engram_filter_ok pk f = true → filter_accepts f ev → kind (event ev) = KIND_AGENT_ENGRAM →
  to_ascii_lowercase (pubkey (event ev)) = to_ascii_lowercase pk ∨ carries (event ev) "p" pk ∨ ∃ f, f ∈ fs ∧ named_by f (event ev).
Proof.
  unfold engram_filter_ok. intros Hf He Ha Hk. destruct (names_ids f) eqn:En.
  { right; right. exists f. eauto using names_ids_named. }
  destruct (match kinds f with None => true | Some ks => existsb (Z.eqb KIND_AGENT_ENGRAM) ks end) eqn:Em; cbn [negb] in He.
  - destruct (authors_are_reader f pk) eqn:Ea; [left; by eapply authors_are_reader_pubkey|].
    right; left. by eapply p_names_reader_carries.
  - exfalso. pose proof (proj1 Ha) as Hks. destruct (kinds f) as [ks|]; [|done].
    apply not_true_iff_false in Em. apply Em. apply existsb_elem_of. exists (kind (event ev)).
    split; [by apply Hks|]. rewrite Hk. apply Z.eqb_refl.
Qed.

Lemma global_gate_sound msg (fs : list Filter) pk f ev :
  global_gate msg fs pk = None → f ∈ fs → filter_accepts f ev → gated_for fs pk (event ev).
Proof.
  unfold global_gate, p_gated_filters_authorized, engram_filters_authorized. intros Hg Hf Ha.
  destruct (forallb (p_gated_filter_ok pk) fs) eqn:Ep; [|done]. destruct (forallb (engram_filter_ok pk) fs) eqn:Ee; [|done].
  rewrite forallb_forall in Ep, Ee. pose proof Hf as Hin. apply list_elem_of_In in Hin.
  split; intros Hk; [eapply p_gated_filter_sound|eapply engram_filter_sound]; eauto.
Qed.

(** The filter names kinds, all of which only their author may read. *)
Definition targets_author_only (f : Filter) : Prop :=
  ∃ k ks, kinds f = Some (k :: ks) ∧ ∀ k', k' ∈ k :: ks → k' ∈ AUTHOR_ONLY_KINDS.

Lemma author_only_gate_sound msg (fs : list Filter) pk f ev :
  global_gate msg fs pk = None → f ∈ fs → filter_accepts f ev → targets_author_only f →
  to_ascii_lowercase (pubkey (event ev)) = to_ascii_lowercase pk.
Proof.
  unfold global_gate, author_only_filters_authorized. intros Hg Hf Ha (k & ks & Hk & Hall).
  destruct (p_gated_filters_authorized fs pk), (engram_filters_authorized fs pk); try done. cbn [negb] in Hg.
  destruct (forallb (author_only_filter_ok pk) fs) eqn:Ea; [|done]. rewrite forallb_forall in Ea.
  apply list_elem_of_In, Ea in Hf. unfold author_only_filter_ok in Hf. rewrite Hk in Hf.
  assert (Hone : forallb (λ k, one_of k AUTHOR_ONLY_KINDS) (k :: ks) = true).
  { apply forallb_forall. intros k' Hk'%list_elem_of_In. apply one_of_spec. auto. }
  rewrite Hone in Hf. cbn [negb] in Hf. by eapply authors_are_reader_pubkey.
Qed.

End visibility.

(** ** What a subscription may ask for and send *)

Section subscription.
Context {L : NostrLib} {T : TimeRange} {U : UuidParse}.
Context (sub : string) (fs : list Filter) (conn : ConnectionState).
Abbreviation Run := (Trace read_sig) (only parsing).

Definition did (r : ReadReq) (x : ReadAns r) (h : Run) : Prop := Answered (S := read_sig) r x ∈ h.

(** Who reads: the state of the connection when the request was taken up. *)
Definition reader (ctx : AuthContext) (h : Run) : Prop :=
  did ReadAuthState (Authenticated ctx) h ∧ (ctx_scopes ctx = [] ∨ MessagesRead ∈ ctx_scopes ctx).

(** The channel is open to the reader: the token covers it, and the reader's
    channels hold it or the database confirmed the membership. *)
Definition may_read_channel (ctx : AuthContext) (ch : Uuid) (h : Run) : Prop :=
  (∀ allowed, ctx_channel_ids ctx = Some allowed → ch ∈ allowed) ∧
  ((∃ known, did (GetAccessibleChannelIdsCached (cn_community conn) (ctx_pubkey ctx)) (Some known) h ∧ ch ∈ known) ∨
   did (ConfirmMember (cn_community conn) ch (ctx_pubkey ctx)) (Some true) h).

(** The row was read from the reader's community. *)
Definition was_read (s : StoredEvent) (h : Run) : Prop :=
  (∃ q page, did (QueryEventsRouted q) (Ok page) h ∧ q_community_id q = cn_community conn ∧ s ∈ page) ∨
  (∃ hits found, did (GetEventsByIdsRouted (cn_community conn) hits) (Some found) h ∧ s ∈ found).

Definition readable (ctx : AuthContext) (s : StoredEvent) (h : Run) : Prop :=
  was_read s h ∧ (∃ f, f ∈ fs ∧ filter_accepts f s) ∧
  (∀ ch, channel_id s = Some ch → may_read_channel ctx ch h) ∧
  may_see (event s) (ctx_pubkey ctx) ∧
  (extract_channel_id_from_filters fs = None → gated_for fs (ctx_pubkey ctx) (event s)).

(** A liveness announcement of a huddle in an open channel. *)
Definition announces (ctx : AuthContext) (e : Event) (h : Run) : Prop :=
  ∃ session parent generation parents sessions links,
    did (BuildLiveness session parent generation) (Signed e) h ∧
    did (HuddleStartedLinks (cn_community conn) parents sessions) (Some links) h ∧ (session, parent) ∈ links ∧
    ∀ ch, ch ∈ parents → may_read_channel ctx ch h.

Definition asked_for (r : ReadReq) (h : Run) : Prop := r ∈ asked (S := read_sig) <$> h.
Definition sent (i : string) (h : Run) : Prop := ∃ s e, asked_for (Send (EventMsg s e)) h ∧ Nostr.id e = i.
Definition is_end (r : ReadReq) : bool := match r with Send (Eose _) | Send (Closed _ _) => true | _ => false end.
Definition ended (h : Run) : Prop := ∃ r, asked_for r h ∧ is_end r = true.
Definition dropped (h : Run) : Prop := ∃ m, did (Send m) false h.

(** Where the request is not about one channel, the gates on private kinds hold
    for whatever its filters accept. *)
Definition private_gates (ctx : AuthContext) : Prop :=
  extract_channel_id_from_filters fs = None → ∀ f s, f ∈ fs → filter_accepts f s →
    gated_for fs (ctx_pubkey ctx) (event s) ∧
    (targets_author_only f → to_ascii_lowercase (pubkey (event s)) = to_ascii_lowercase (ctx_pubkey ctx)).

(** The memberships that were looked up. *)
Definition is_confirm (r : ReadReq) : bool := match r with ConfirmMember _ _ _ => true | _ => false end.
Definition confirms (h : Run) : nat := length (List.filter is_confirm (asked (S := read_sig) <$> h)).

(** What may be asked after a history. *)
Definition subscription_ok (r : ReadReq) (h : Run) : Prop :=
  match r with
  | Send (EventMsg s e) =>
      s = sub ∧ ¬ ended h ∧ ∃ ctx, reader ctx h ∧
        ((∃ st, readable ctx st h ∧ event st = e ∧ ¬ sent (Nostr.id e) h) ∨ announces ctx e h)
  | Send (Eose s) | Send (Closed s _) => s = sub ∧ ¬ ended h
  | Send (Notice _) => ¬ ended h
  | Send (CountMsg _ _) => False
  | InsertSubscription s fs' =>
      s = sub ∧ fs' = fs ∧ (∃ ctx, reader ctx h ∧ private_gates ctx) ∧ ∃ subs, did SubscriptionIds subs h ∧ (sub ∈ subs ∨ (length subs < MAX_SUBSCRIPTIONS)%nat)
  | RegisterChannelsScoped c cid s fs' chs =>
      c = cn_community conn ∧ cid = cn_conn_id conn ∧ s = sub ∧ fs' = fs ∧ chs ≠ [] ∧
      ∃ ctx requested, reader ctx h ∧ private_gates ctx ∧ extract_channel_ids_from_filters fs = Some requested ∧
        ∀ ch, ch ∈ chs → ch ∈ requested ∧ may_read_channel ctx ch h
  | RegisterGlobal c cid s fs' =>
      c = cn_community conn ∧ cid = cn_conn_id conn ∧ s = sub ∧ fs' = fs ∧ (∃ f, f ∈ fs ∧ tag_filter "h" f = None) ∧
      ∃ ctx, reader ctx h ∧ private_gates ctx
  | QueryEventsRouted q => q_community_id q = cn_community conn
  | SearchEvents q => s_community q = cn_community conn
  | ConfirmMember c ch pk =>
      c = cn_community conn ∧ (∃ ctx, reader ctx h ∧ pk = ctx_pubkey ctx) ∧ (confirms h < MAX_EXPLICIT_CHANNEL_VALUES)%nat
  | QueryEventsRoutedBounded _ | CountEventsRouted _ => False
  | _ => True
  end.

Abbreviation wps := (wp (S := read_sig) subscription_ok) (only parsing).

(** *** Histories *)

Lemma did_here r x h : did r x (Answered (S := read_sig) r x :: h).
Proof. left. Qed.
Lemma did_more r x y h : did r x h → did r x (y :: h).
Proof. intros. by right. Qed.

Lemma reader_more ctx y h : reader ctx h → reader ctx (y :: h).
Proof. intros [? ?]. split; [by apply did_more|done]. Qed.
Lemma may_read_more ctx ch y h : may_read_channel ctx ch h → may_read_channel ctx ch (y :: h).
Proof.
  intros [Ht [(known & Hk & Hc)|Hm]]; (split; [done|]).
  - left. exists known. split; [by apply did_more|done].
  - right. by apply did_more.
Qed.
Lemma was_read_more s y h : was_read s h → was_read s (y :: h).
Proof.
  intros [(q & page & Hd & Hq & Hs)|(hits & found & Hd & Hs)]; [left; exists q, page|right; exists hits, found];
    (split; [by apply did_more|done]).
Qed.

(** A message that tells nothing and does not end the request. *)
Definition quiet (r : ReadReq) : bool := match r with Send (Notice _) => true | Send _ => false | _ => true end.

Lemma ended_more r x h : is_end r = false → ended (Answered (S := read_sig) r x :: h) → ended h.
Proof. intros Hr (r' & [->|Hd]%elem_of_cons & He); [cbn in *; congruence|]. by exists r'. Qed.
Lemma sent_more r x h i : quiet r = true → sent i (Answered (S := read_sig) r x :: h) → sent i h.
Proof. intros Hr (s & e & [Hd|Hd]%elem_of_cons & He); [cbn in Hd; by subst r|]. by exists s, e. Qed.
Lemma quiet_goes_on r : quiet r = true → is_end r = false.
Proof. by destruct r as [| | |[]| | | | | | | | | | | | | | |]. Qed.

(** The handler serves a reader with these channels and has sent these events. *)
Record serving (ctx : AuthContext) (accessible : list Uuid) (seen : list string) (h : Run) : Prop := {
  sv_reader : reader ctx h;
  sv_channels : ∀ ch, ch ∈ accessible → may_read_channel ctx ch h;
  sv_seen : ∀ i, sent i h → i ∈ seen;
  sv_open : ¬ ended h
}.

Lemma serving_more ctx accessible seen r x h :
  quiet r = true → serving ctx accessible seen h → serving ctx accessible seen (Answered (S := read_sig) r x :: h).
Proof.
  intros Hr [H1 H2 H3 H4]. split.
  - by apply reader_more.
  - intros ch Hc. apply may_read_more. auto.
  - intros i Hi. apply H3. by eapply sent_more.
  - intros He. apply H4. eapply ended_more; [|exact He]. by apply quiet_goes_on.
Qed.

Lemma serving_sent ctx accessible seen e x h :
  serving ctx accessible seen h →
  serving ctx accessible (Nostr.id e :: seen) (Answered (S := read_sig) (Send (EventMsg sub e)) x :: h).
Proof.
  intros [H1 H2 H3 H4]. split.
  - by apply reader_more.
  - intros ch Hc. apply may_read_more. auto.
  - intros i (s & e' & [Hd|Hd]%elem_of_cons & <-); [cbn in Hd; simplify_eq; left|]. right. apply H3. by exists s, e'.
  - intros He. apply H4. by eapply ended_more; [|exact He].
Qed.

(** What is left of a request: it was ended, or its connection is gone. *)
Definition over (h : Run) : Prop := ended h ∨ dropped h.

Lemma wp_finish m h :
  (m = Eose sub ∨ ∃ msg, m = Closed sub msg) → ¬ ended h → wps (finish m) (λ _, over) h.
Proof.
  intros Hm Hh. cbn. assert (is_end (Send m) = true) as He by (destruct Hm as [->|[? ->]]; done).
  split; [destruct Hm as [->|[? ->]]; done|]. intros x. left. exists (Send m). split; [left|done].
Qed.

Lemma accepted_readable ctx accessible seen f s h :
  serving ctx accessible seen h → f ∈ fs → was_read s h → accepted f accessible (ctx_pubkey ctx) s = true →
  (extract_channel_id_from_filters fs = None → ∃ msg, global_gate msg fs (ctx_pubkey ctx) = None) →
  readable ctx s h.
Proof.
  intros [_ Hch _ _] Hf Hs Ha Hg. unfold accepted in Ha. rewrite !andb_true_iff in Ha. destruct Ha as [[Hm Hc] Hv].
  assert (filter_accepts f s) as Hacc.
  { apply filters_match_spec in Hm as (f' & Hf' & Ha). apply list_elem_of_singleton in Hf'. congruence. }
  split; [done|]. split; [by exists f|]. split; [|split; [by apply event_visible_spec|]].
  - intros ch Hcid. rewrite Hcid in Hc. apply bool_decide_eq_true in Hc. auto.
  - intros Hn. destruct (Hg Hn) as (msg & Hgate). by eapply global_gate_sound.
Qed.


(** *** The loops *)

Lemma wp_req {B} r (k : ReadAns r → Program read_sig B) Q h :
  subscription_ok r h → (∀ x, wps (k x) Q (Answered (S := read_sig) r x :: h)) → wps (req r ≫= k) Q h.
Proof. by split. Qed.

Lemma resolve_elem accessible ch token m c' :
  c' ∈ (resolve_request_local_access accessible ch token m).2 →
  c' ∈ accessible ∨ (c' = ch ∧ token = true ∧ m = Some true).
Proof.
  unfold resolve_request_local_access. destruct token; simpl; [|by left]. case_bool_decide; [by left|].
  destruct m as [[]|]; simpl; [|by left..]. rewrite elem_of_app, list_elem_of_singleton. naive_solver.
Qed.

Lemma token_allows_spec token ch : token_allows token ch = true ↔ ∀ allowed, token = Some allowed → ch ∈ allowed.
Proof. destruct token; simpl; [rewrite bool_decide_eq_true|]; naive_solver. Qed.

Lemma wp_req1 r (Q : ReadAns r → Run → Prop) h :
  subscription_ok r h → (∀ x, Q x (Answered (S := read_sig) r x :: h)) → wps (req r) Q h.
Proof. by split. Qed.

Lemma wp_confirm ctx requested accessible seen h :
  serving ctx accessible seen h → (confirms h + length requested ≤ MAX_EXPLICIT_CHANNEL_VALUES)%nat →
  wps (confirm_channels (cn_community conn) (ctx_pubkey ctx) (ctx_channel_ids ctx) requested accessible)
    (λ r h', match r with Some acc => serving ctx acc seen h' | None => ¬ ended h' end) h.
Proof.
  revert accessible h. induction requested as [|ch requested IH]; intros accessible h Hs Hc; cbn [confirm_channels]; [done|].
  cbn [length] in Hc. destruct (negb _ || _) eqn:E.
  - apply IH; [|lia]. destruct Hs as [H1 H2 H3 H4]. split; [done| |done..].
    intros c' [Hin|(_ & _ & [=])]%resolve_elem. auto.
  - boolify. apply (wp_req (ConfirmMember _ _ _)); [by split; [|split; [exists ctx; split; [apply (sv_reader _ _ _ _ Hs)|]|lia]]|].
    intros m. assert (confirms (Answered (S := read_sig) (ConfirmMember (cn_community conn) ch (ctx_pubkey ctx)) m :: h) = S (confirms h)) as Hn by done. apply (serving_more _ _ _ (ConfirmMember (cn_community conn) ch (ctx_pubkey ctx)) m) in Hs; [|done].
    destruct m as [m|]; [|apply wp_return, (sv_open _ _ _ _ Hs)]. apply IH; [|rewrite Hn; lia].
    pose proof Hs as [H1 H2 H3 H4]. split; [done| |done..].
    intros c' [Hin|(-> & Ht & [= ->])]%resolve_elem; [auto|]. split; [by apply token_allows_spec|].
    right. apply did_here.
Qed.

Definition gates_passed (ctx : AuthContext) : Prop :=
  extract_channel_id_from_filters fs = None → ∃ msg, global_gate msg fs (ctx_pubkey ctx) = None.

Lemma gates_private ctx : gates_passed ctx → private_gates ctx.
Proof.
  intros Hg Hn f s Hf Ha. destruct (Hg Hn) as [msg Hm]. split; [by eapply global_gate_sound|].
  intros Ht. by eapply author_only_gate_sound.
Qed.

Definition still_serving (ctx : AuthContext) (accessible : list Uuid) (r : option (list string)) (h : Run) : Prop :=
  match r with Some seen => serving ctx accessible seen h | None => over h end.

(** A row is sent, or the connection turns out to be gone. *)
Lemma wp_send_row {B} ctx accessible seen f s (go stop : Program read_sig B) Q h :
  gates_passed ctx → f ∈ fs → serving ctx accessible seen h → was_read s h →
  negb (accepted f accessible (ctx_pubkey ctx) s) || bool_decide (Nostr.id (event s) ∈ seen) = false →
  (∀ h', serving ctx accessible (Nostr.id (event s) :: seen) h' → (∀ t, was_read t h → was_read t h') → wps go Q h') →
  (∀ h', over h' → wps stop Q h') →
  wps (send (EventMsg sub (event s)) ≫= λ sent, match sent with true => go | false => stop end) Q h.
Proof.
  intros Hg Hf Hs Hr Ha Hgo Hstop. boolify. apply (wp_req (Send _)).
  - split; [done|]. split; [by eapply sv_open|]. exists ctx. split; [by eapply sv_reader|]. left. exists s. split_and!; [|done|].
    + by eapply accepted_readable.
    + intros Hi. by eapply H0, sv_seen.
  - intros [].
    + apply Hgo; [by apply serving_sent|]. intros t. apply was_read_more.
    + apply Hstop. right. exists (EventMsg sub (event s)). apply did_here.
Qed.

Lemma wp_deliver ctx accessible f page seen h :
  gates_passed ctx → f ∈ fs → serving ctx accessible seen h → (∀ s, s ∈ page → was_read s h) →
  wps (deliver sub f accessible (ctx_pubkey ctx) page seen) (still_serving ctx accessible) h.
Proof.
  intros Hg Hf. revert seen h. induction page as [|s page IH]; intros seen h Hs Hp; cbn [deliver]; [done|].
  destruct (negb _ || _) eqn:E; [apply IH; [done|]; intros; apply Hp; by right|].
  eapply wp_send_row; try done; [apply Hp; left|].
  intros h' Hs' Hm. apply IH; [done|]. intros t Ht. apply Hm, Hp. by right.
Qed.

Lemma wp_history ctx accessible work seen h :
  gates_passed ctx → Forall (λ w, w.1 ∈ fs ∧ q_community_id w.2 = cn_community conn) work → serving ctx accessible seen h →
  wps (deliver_history sub accessible (ctx_pubkey ctx) work seen) (λ _, over) h.
Proof.
  intros Hg Hw. revert seen h. induction Hw as [|[f q] work [Hf Hq] Hw IH]; intros seen h Hs; cbn [deliver_history].
  { apply wp_finish; [by left|by eapply sv_open]. }
  apply (wp_req (QueryEventsRouted q)); [done|]. intros page. apply (serving_more _ _ _ (QueryEventsRouted q) page) in Hs; [|done].
  destruct page as [page|e]; [|apply wp_finish; [by left|by eapply sv_open]].
  apply wp_bind. eapply wp_mono; [|apply (wp_deliver ctx accessible f page seen); try done].
  - intros [seen'|] h' Hr; [by apply IH|done].
  - intros s Hs'. left. exists q, page. split_and!; [apply did_here|done..].
Qed.

(** Searching. *)
Lemma wp_hits ctx accessible f lim found hits emitted seen h :
  gates_passed ctx → f ∈ fs → serving ctx accessible seen h → (∀ s, s ∈ found → was_read s h) →
  wps (deliver_hits sub f accessible (ctx_pubkey ctx) lim found hits emitted seen)
    (λ r, still_serving ctx accessible (snd <$> r)) h.
Proof.
  intros Hg Hf. revert emitted seen h. induction hits as [|i hits IH]; intros emitted seen h Hs Hp; cbn [deliver_hits]; [done|].
  destruct (lim <=? emitted)%N; [done|]. destruct (last _) as [s|] eqn:Hl; [|by apply IH].
  assert (s ∈ found) as Hin.
  { apply last_Some in Hl as (l & Hl). apply (elem_of_List_filter (λ s, Nostr.id (event s) =? i)%string s found).
    rewrite Hl, elem_of_app, list_elem_of_singleton. by right. }
  destruct (negb _ || _) eqn:E; [by apply IH|]. eapply wp_send_row; try done; [by apply Hp|].
  intros h' Hs' Hm. apply IH; [done|]. intros t Ht. by apply Hm, Hp.
Qed.

Lemma wp_pages ctx accessible f lim query pages page emitted seen h :
  gates_passed ctx → f ∈ fs → (∀ n, s_community (query n) = cn_community conn) → serving ctx accessible seen h →
  wps (search_pages sub (cn_community conn) f accessible (ctx_pubkey ctx) lim query pages page emitted seen)
    (still_serving ctx accessible) h.
Proof.
  intros Hg Hf Hq. revert page emitted seen h. induction pages as [|pages IH]; intros page emitted seen h Hs; cbn [search_pages]; [done|].
  destruct (lim <=? emitted)%N; [done|]. apply (wp_req (SearchEvents _)); [apply Hq|]. intros hits.
  apply (serving_more _ _ _ (SearchEvents (query page)) hits) in Hs; [|done].
  destruct hits as [[|i hits]|]; [done| |done]. set (hits' := i :: hits).
  apply (wp_req (GetEventsByIdsRouted _ _)); [done|]. intros found.
  apply (serving_more _ _ _ (GetEventsByIdsRouted (cn_community conn) hits') found) in Hs; [|done].
  destruct found as [found|]; [|done]. apply wp_bind.
  eapply wp_mono; [|apply (wp_hits ctx accessible f lim found hits' emitted seen); try done].
  - intros [[emitted' seen']|] h' Hr; [|done]. destruct (N.of_nat _ <? _)%N; [done|]. by apply IH.
  - intros s Hs'. right. exists hits', found. split; [apply did_here|done].
Qed.

Lemma wp_search ctx accessible all gs seen h :
  gates_passed ctx → (∀ f, f ∈ gs → f ∈ fs) → serving ctx accessible seen h →
  wps (search_filters sub (cn_community conn) all accessible (ctx_pubkey ctx) gs seen) (λ _, over) h.
Proof.
  intros Hg. revert seen h. induction gs as [|f gs IH]; intros seen h Hf Hs; cbn [search_filters].
  { apply wp_finish; [by left|by eapply sv_open]. }
  assert (∀ g, g ∈ gs → g ∈ fs) as Hf' by (intros; apply Hf; by right).
  destruct (search f) as [text|]; [|by apply IH]. destruct (search_scope all accessible f) as [scope|]; [|by apply IH].
  destruct (_ || _); [by apply IH|]. apply wp_bind.
  eapply wp_mono; [|apply (wp_pages ctx accessible f); try done; apply Hf; left].
  intros [seen'|] h' Hr; [by apply IH|done].
Qed.

(** Huddles. *)
Definition links_known (ctx : AuthContext) (links : list (Uuid * Uuid)) (h : Run) : Prop :=
  ∃ parents sessions all, did (HuddleStartedLinks (cn_community conn) parents sessions) (Some all) h ∧
    (∀ l, l ∈ links → l ∈ all) ∧ ∀ ch, ch ∈ parents → may_read_channel ctx ch h.

Lemma links_more ctx links y h : links_known ctx links h → links_known ctx links (y :: h).
Proof.
  intros (parents & sessions & all & Hd & Hl & Hp). exists parents, sessions, all. split; [by apply did_more|].
  split; [done|]. intros ch Hch. apply may_read_more. auto.
Qed.
Lemma links_less ctx l links h : links_known ctx (l :: links) h → links_known ctx links h.
Proof.
  intros (parents & sessions & all & Hd & Hl & Hp). exists parents, sessions, all. split; [done|].
  split; [|done]. intros l' Hl'. apply Hl. by right.
Qed.

Lemma wp_liveness ctx accessible links seen h :
  serving ctx accessible seen h → links_known ctx links h → wps (deliver_liveness sub conn links) (λ _, over) h.
Proof.
  revert seen h. induction links as [|[session parent] links IH]; intros seen h Hs Hl; cbn [deliver_liveness].
  { apply wp_finish; [by left|by eapply sv_open]. }
  assert (∀ g h', serving ctx accessible seen h' → links_known ctx ((session, parent) :: links) h' →
    wps (e ← req (BuildLiveness session parent g);
         match e with
         | TagsInvalid => deliver_liveness sub conn links
         | SigningFailed => finish (Closed sub "error: signing failed")
         | Signed e =>
             sent ← send (EventMsg sub e);
             match sent with true => deliver_liveness sub conn links | false => mret tt end
         end) (λ _, over) h') as Ha.
  { clear h Hs Hl. intros g h Hs Hl. apply (wp_req (BuildLiveness _ _ _)); [done|]. intros e.
    apply (serving_more _ _ _ (BuildLiveness session parent g) e) in Hs; [|done].
    pose proof (links_more ctx _ (Answered (S := read_sig) (BuildLiveness session parent g) e) h Hl) as Hl'.
    destruct e as [| |e].
    - eapply IH; [exact Hs|by eapply links_less].
    - apply wp_finish; [right; by eexists|by eapply sv_open].
    - apply (wp_req (Send _)).
      + split; [done|]. split; [by eapply sv_open|]. exists ctx. split; [by eapply sv_reader|]. right.
        destruct Hl' as (parents & sessions & all & Hd & Hall & Hp).
        exists session, parent, g, parents, sessions, all. split; [apply did_here|]. split; [done|]. split; [apply Hall; left|done].
      + intros [].
        * eapply IH; [by apply serving_sent|]. apply links_more. by eapply links_less.
        * right. exists (EventMsg sub e). apply did_here. }
  destruct (cn_mesh conn).
  - apply (wp_req (DirectoryLookup _ _)); [done|]. intros lease.
    apply (serving_more _ _ _ (DirectoryLookup (cn_community conn) session) lease) in Hs; [|done].
    apply (links_more _ _ (Answered (S := read_sig) (DirectoryLookup (cn_community conn) session) lease)) in Hl.
    destruct lease as [[[[] g]|]|]; [| |by apply Ha| |]; try (eapply IH; [exact Hs|by eapply links_less]).
    apply wp_finish; [right; by eexists|by eapply sv_open].
  - apply (wp_req (AudioRoomInUse _ _)); [done|]. intros used.
    apply (serving_more _ _ _ (AudioRoomInUse (cn_community conn) session) used) in Hs; [|done].
    apply (links_more _ _ (Answered (S := read_sig) (AudioRoomInUse (cn_community conn) session) used)) in Hl.
    destruct used; [by apply Ha|]. eapply IH; [exact Hs|by eapply links_less].
Qed.

Lemma wp_huddles ctx accessible parents seen h :
  serving ctx accessible seen h → (∀ ch, ch ∈ parents → ch ∈ accessible) →
  wps (handle_huddle_liveness_req sub fs parents conn) (λ _, over) h.
Proof.
  intros Hs Hp. unfold handle_huddle_liveness_req. destruct parents as [|ch parents].
  { apply wp_finish; [right; by eexists|by eapply sv_open]. }
  apply (wp_req (HuddleStartedLinks _ _ _)); [done|]. intros links.
  apply (serving_more _ _ _ (HuddleStartedLinks (cn_community conn) (ch :: parents) (huddle_liveness_session_ids fs)) links) in Hs; [|done].
  destruct links as [links|]; [|apply wp_finish; [right; by eexists|by eapply sv_open]].
  eapply wp_liveness; [exact Hs|]. eexists _, _, links. split; [apply did_here|]. split; [done|].
  intros c Hc. apply (sv_channels _ _ _ _ Hs). auto.
Qed.

(** *** The subscription *)

Lemma wp_each_topic ctx accessible seen f chs h :
  (∀ t, quiet (f t) = true) → (∀ t h', subscription_ok (f t) h') → serving ctx accessible seen h →
  wps (each_topic f chs) (λ _, serving ctx accessible seen) h.
Proof.
  intros Hq Ho. revert h. induction chs as [|ch chs IH]; intros h Hs; cbn [each_topic]; [done|].
  apply wp_req; [apply Ho|]. intros x. apply IH. by apply serving_more.
Qed.

Lemma wp_release ctx accessible seen scope h :
  serving ctx accessible seen h → wps (release_subscription_topics scope) (λ _, serving ctx accessible seen) h.
Proof.
  intros Hs. unfold release_subscription_topics. destruct (is_global scope); [|by apply wp_each_topic].
  apply (wp_req (ReleaseTopic _)); [done|]. intros x. by apply (serving_more _ _ _ (ReleaseTopic TopicGlobal) x).
Qed.

Lemma params_community f ch c : q_community_id (filter_to_query_params f ch c) = c.
Proof. done. Qed.
Lemma scoped_community q f ch acc : q_community_id (apply_channel_scope_to_query q f ch acc) = q_community_id q.
Proof. unfold apply_channel_scope_to_query. destruct ch; [done|]. by destruct (tag_filter "h" f). Qed.
Lemma historical_community c pk acc ch bs i f : q_community_id (historical_query c pk acc ch bs i f) = c.
Proof. unfold historical_query. destruct (filter_can_match_shared_gated_kinds f); cbn; by rewrite scoped_community. Qed.

Definition room (h : Run) : Prop := ∃ subs, did SubscriptionIds subs h ∧ (sub ∈ subs ∨ (length subs < MAX_SUBSCRIPTIONS)%nat).

Lemma wp_subscribe before_ids ctx channel authorized accessible h :
  gates_passed ctx → serving ctx accessible [] h → room h →
  match authorized with
  | Some chs => chs ≠ [] ∧ ∃ requested, extract_channel_ids_from_filters fs = Some requested ∧
      ∀ ch, ch ∈ chs → ch ∈ requested ∧ ch ∈ accessible
  | None => ∃ f, f ∈ fs ∧ tag_filter "h" f = None
  end →
  wps (subscribe sub fs before_ids conn (ctx_pubkey ctx) channel authorized accessible) (λ _, over) h.
Proof.
  intros Hg Hs Hroom Ha. unfold subscribe. apply (wp_req (InsertSubscription _ _)).
  { split; [done|]. split; [done|]. split; [exists ctx; split; [by eapply sv_reader|by apply gates_private]|done]. }
  intros u. apply (serving_more _ _ _ (InsertSubscription sub fs) u) in Hs; [|done]. clear Hroom.
  set (h1 := _ :: h) in *. clearbody h1. apply wp_bind. eapply (wp_mono _ _ (λ _ h', serving ctx accessible [] h')).
  { intros replaced h2 Hs2. apply wp_bind. eapply (wp_mono _ _ (λ _ h', serving ctx accessible [] h')).
    - intros _ h3 Hs3. apply wp_bind. eapply (wp_mono _ _ (λ _ h', serving ctx accessible [] h')).
      + intros _ h4 Hs4. eapply wp_history; [done| |done]. apply Forall_forall. intros w.
        rewrite elem_of_lookup_imap. intros (i & f & -> & Hi). split; [by eapply list_elem_of_lookup_2|apply historical_community].
      + destruct authorized as [chs|]; [by apply wp_each_topic|].
        apply (wp_req (RetainTopic _)); [done|]. intros x. by apply (serving_more _ _ _ (RetainTopic TopicGlobal) x).
    - destruct replaced as [r|]; [by apply wp_release|done]. }
  destruct authorized as [chs|].
  - apply (wp_req1 (RegisterChannelsScoped _ _ _ _ _)); [|intros r; by apply (serving_more _ _ _ (RegisterChannelsScoped _ _ _ _ _) r)].
    destruct Ha as (Hne & requested & Hreq & Hin). do 5 (split; [done|]). exists ctx, requested. split; [by eapply sv_reader|].
    split; [by apply gates_private|]. split; [done|]. intros ch Hch. destruct (Hin ch Hch). split; [done|by apply (sv_channels _ _ _ _ Hs)].
  - apply (wp_req1 (RegisterGlobal _ _ _ _)); [|intros r; by apply (serving_more _ _ _ (RegisterGlobal _ _ _ _) r)].
    do 5 (split; [done|]). exists ctx. split; [by eapply sv_reader|by apply gates_private].
Qed.

Lemma extract_None gs : extract_channel_ids_from_filters gs = None → ∃ f, f ∈ gs ∧ tag_filter "h" f = None.
Proof.
  unfold extract_channel_ids_from_filters. generalize (@nil Uuid). induction gs as [|f gs IH]; intros out; [done|].
  destruct (tag_filter "h" f) as [vs|] eqn:E; simpl; [|intros _; exists f; split; [left|done]].
  intros Hn. destruct (IH _ Hn) as (f' & Hf & Ht). exists f'. split; [by right|done].
Qed.

Lemma wp_serve before_ids ctx requested accessible h :
  serving ctx accessible [] h → room h → extract_channel_ids_from_filters fs = requested →
  wps (serve sub fs before_ids conn ctx requested accessible) (λ _, over) h.
Proof.
  intros Hs Hroom Hreq. assert (∀ msg, wps (finish (Closed sub msg)) (λ _, over) h) as Hclose.
  { intros msg. apply wp_finish; [right; by eexists|by eapply sv_open]. }
  unfold serve. case_bool_decide as He; [done|]. destruct (filters_are_huddle_liveness_only fs).
  { eapply wp_huddles; [done|]. destruct requested as [chs|]; simpl; [|set_solver]. intros ch [? _]%list_elem_of_filter. done. }
  destruct (if bool_decide (extract_channel_id_from_filters fs = None) then _ else _) as [msg|] eqn:Eg; [done|].
  assert (gates_passed ctx) as Hg. { intros Hn. rewrite bool_decide_eq_true_2 in Eg by done. by eexists. }
  destruct (existsb _ fs); [destruct (existsb _ fs); [done|]|].
  - unfold handle_search_req. destruct (build_search_channel_scope_filter _ _) as [all|].
    + by apply wp_search.
    + apply wp_finish; [by left|by eapply sv_open].
  - apply wp_subscribe; [done..|]. destruct requested as [chs|]; simpl in *; [|by apply extract_None].
    split; [congruence|]. exists chs. split; [done|]. intros ch [??]%list_elem_of_filter. done.
Qed.

Lemma pushed_length (l : list Uuid) out : (length (foldl push_unseen out l) ≤ length out + length l)%nat.
Proof.
  revert out. induction l as [|x l IH]; intros out; simpl; [lia|]. rewrite IH. unfold push_unseen.
  case_decide; [lia|]. rewrite length_app. simpl. lia.
Qed.
Lemma omap_length {A B} (f : A → option B) l : (length (omap f l) ≤ length l)%nat.
Proof. induction l as [|x l IH]; cbn; [lia|]. destruct (f x); cbn; [by apply le_n_S|by apply le_S]. Qed.

Lemma extract_length gs chs : extract_channel_ids_from_filters gs = Some chs → (length chs ≤ explicit_values gs)%nat.
Proof.
  unfold extract_channel_ids_from_filters, explicit_values.
  cut (∀ out, (fix go (out : list Uuid) (fs : list Filter) := match fs with
     | [] => Some out
     | f :: fs => vs ← tag_filter "h" f; go (foldl push_unseen out (omap uuid_parse vs)) fs
     end) out gs = Some chs → (length chs ≤ length out + sum_list_with (λ f, length (default [] (tag_filter "h" f))) gs)%nat).
  { intros H He. by apply H in He. }
  induction gs as [|f gs IH]; intros out; [intros [= ->]; simpl; lia|].
  destruct (tag_filter "h" f) as [vs|] eqn:E; cbn [mbind option_bind]; [|done]. intros Hc. apply IH in Hc. etrans; [exact Hc|].
  pose proof (pushed_length (omap uuid_parse vs) out). pose proof (omap_length uuid_parse vs).
  change (sum_list_with ?g (f :: gs)) with (g f + sum_list_with g gs)%nat. cbv beta. rewrite E. cbn [default from_option]. change (Datatypes.id vs) with vs. lia.
Qed.

Lemma limited_values requested :
  extract_channel_ids_from_filters_limited fs = Ok requested →
  extract_channel_ids_from_filters fs = requested ∧ (length (default [] requested) ≤ MAX_EXPLICIT_CHANNEL_VALUES)%nat.
Proof.
  unfold extract_channel_ids_from_filters_limited. destruct (_ <? _)%nat eqn:E; [done|]. boolify. intros [= Hr]. split; [done|].
  destruct requested as [chs|]; simpl; [|lia]. pose proof (extract_length _ _ Hr). lia.
Qed.

Lemma narrow_elem token l ch : ch ∈ narrow token l ↔ ch ∈ l ∧ ∀ allowed, token = Some allowed → ch ∈ allowed.
Proof. destruct token; simpl; [rewrite list_elem_of_filter|]; naive_solver. Qed.

Lemma narrow_nil token : narrow token [] = [].
Proof. by destruct token. Qed.

Lemma wp_known ctx requested before_ids known h :
  (∀ seen, serving ctx known seen h) → room h → (confirms h = 0)%nat → extract_channel_ids_from_filters_limited fs = Ok requested →
  wps (confirmed ← confirm_channels (cn_community conn) (ctx_pubkey ctx) (ctx_channel_ids ctx) (default [] requested) known;
       match confirmed with
       | None => finish (Closed sub "error: database error")
       | Some accessible => serve sub fs before_ids conn ctx requested accessible
       end) (λ _, over) h.
Proof.
  intros Hs Hroom Hc Hr. apply limited_values in Hr as [Hr Hl]. apply wp_bind.
  eapply wp_mono; [|apply (wp_frame _ _ (λ r h', match r with Some acc => serving ctx acc [] h' | None => ¬ ended h' end) room)].
  - intros [acc|] h' [Hs' Hroom']; [by apply wp_serve|]. apply wp_finish; [right; by eexists|done].
  - intros y h' (subs & Hd & Hi). exists subs. split; [by apply did_more|done].
  - done.
  - apply wp_confirm; [done|]. rewrite Hc. done.
Qed.

Lemma wp_handle_req before_ids : wps (handle_req sub fs before_ids conn) (λ _, over) [].
Proof.
  assert (∀ h, asked (S := read_sig) <$> h = [] ∨ (∀ r, asked_for r h → is_end r = false) → ¬ ended h) as Hopen.
  { intros h [Hh|Hh] (r & Hr & He); [unfold asked_for in Hr; rewrite Hh in Hr; set_solver|]. apply Hh in Hr. congruence. }
  unfold handle_req. apply (wp_req ReadAuthState); [done|]. intros auth.
  assert (∀ msg msg', wps (_ ← req (Send (Notice msg)); finish (Closed sub msg')) (λ _, over) [Answered (S := read_sig) ReadAuthState auth]) as Hrefuse.
  { intros msg msg'. apply (wp_req (Send _)).
    - apply Hopen. right. intros r Hr. apply list_elem_of_singleton in Hr. by subst.
    - intros x. apply wp_finish; [right; by eexists|]. apply Hopen. right. intros r [->|[->|Hr%not_elem_of_nil]%elem_of_cons]%elem_of_cons; done. }
  destruct auth as [challenge|ctx|]; [apply Hrefuse| |apply Hrefuse].
  destruct (negb _ && negb _) eqn:Escope; [apply Hrefuse|].
  apply (wp_req SubscriptionIds); [done|]. intros subs. cbn in subs. cbv beta. set (h := [_; _]).
  assert (reader ctx h) as Hreader.
  { split; [right; left|]. apply andb_false_iff in Escope. rewrite !negb_false_iff, !bool_decide_eq_true in Escope. done. }
  assert (∀ seen, serving ctx [] seen h) as Hs.
  { intros seen. split; [done|set_solver| |].
    - intros i (s & e & Hr & _). by apply elem_of_cons in Hr as [Hr|[Hr|Hr%not_elem_of_nil]%elem_of_cons].
    - apply Hopen. right. intros r [->|[->|Hr%not_elem_of_nil]%elem_of_cons]%elem_of_cons; done. }
  assert (∀ msg, wps (finish (Closed sub msg)) (λ _, over) h) as Hclose.
  { intros msg. apply wp_finish; [right; by eexists|]. by eapply (sv_open _ _ []), Hs. }
  destruct (negb (bool_decide (sub ∈ subs)) && (MAX_SUBSCRIPTIONS <=? length subs)%nat) eqn:Eroom; [apply Hclose|].
  assert (room h) as Hroom.
  { exists subs. split; [left|]. apply andb_false_iff in Eroom. rewrite negb_false_iff, bool_decide_eq_true, Nat.leb_gt in Eroom. done. }
  destruct (extract_channel_ids_from_filters_limited fs) as [requested|] eqn:Er; [|apply Hclose].
  destruct (filters_are_nip43_membership_only fs).
  - apply wp_bind, wp_return. rewrite narrow_nil. by apply wp_known.
  - apply (wp_req (GetAccessibleChannelIdsCached _ _)); [done|]. intros known.
    set (y := Answered (S := read_sig) (GetAccessibleChannelIdsCached (cn_community conn) (ctx_pubkey ctx)) known).
    assert (∀ seen, serving ctx [] seen (y :: h)) as Hs' by (intros seen; by apply serving_more).
    destruct known as [known|].
    + apply wp_known; [| |done|done].
      * intros seen. destruct (Hs' seen) as [H1 _ H3 H4]. split; [done| |done..]. intros ch [Hc Ht]%narrow_elem.
        split; [done|]. left. exists known. split; [apply did_here|done].
      * destruct Hroom as (subs' & Hd & Hi). exists subs'. split; [by apply did_more|done].
    + apply wp_finish; [right; by eexists|]. by eapply (sv_open _ _ []), Hs'.
Qed.

End subscription.

(** ** Properties *)

(** C38: Whatever the caches, the database, the search and the connection answer to a REQ, an
    event is sent only to an authenticated reader whose token may read, in the reader's
    subscription, and it is one of two. Either it was read from the reader's community and not
    sent before, some filter accepts it, its channel is covered by the token and is one of the
    reader's or confirmed by the database, the reader may see an event of its kind, and where
    the request is not about one channel the gates on private kinds hold for it (they let
    through what a filter names by its id). Or it is a liveness announcement of a huddle, built
    by the relay for a session that is linked to channels open to the reader (not read, not
    filtered, possibly repeated). A live subscription is registered only for such a reader,
    below the limit, for named channels that are open to it or globally when some filter names
    none, and, where the request is not about one channel, only when the gates on private kinds
    hold for whatever its filters accept. At most 128 memberships are looked up; every query
    stays in the community. The request ends with EOSE or CLOSED, after which nothing is sent,
    unless the connection takes no more. *)
Theorem requests_read_only_what_is_allowed {L : NostrLib} {T : TimeRange} {U : UuidParse} sub fs before_ids conn env :
  let '(_, h) := run_program env (handle_req sub fs before_ids conn) [] in
  over h ∧ in_order (S := read_sig) (subscription_ok sub fs conn) h.
Proof. apply wp_sound; [done|]. apply wp_handle_req. Qed.
