(* ===== verification/ReadHistory.v ===== *)
(** * A subscription is answered with all that it may read

    The historical part of [handle_req] when the queries are answered by one
    database. *)
From stdpp Require Import sorting.
From S2P Require Import Prelude Nostr Kinds EventFilter SubRegistry Program IngestPolicy IngestRequests ThreadStore ThreadPages.
From S2P Require Import ReadQuery ReadFilter ReadDoors ReadProps ReadPushdown.

Section history.
Context {L : NostrLib} {NT : NostrTagLaws L} {T : TimeRange} {D : RowDecode} {U : UuidParse}.
Abbreviation Run := (Trace read_sig) (only parsing).
Abbreviation wpt := (wp (S := read_sig) (λ _ _, True)) (only parsing).

(** ** Pages *)

(** The rows of the community are intact. *)
Definition rows_ok (c : Uuid) (db : ReadDb) : Prop := ∀ k r, rows db !! k = Some r → k_community k = c → row_ok k r.

Lemma selected_spec q db k r : (k, r) ∈ selected q db ↔ rows db !! k = Some r ∧ query_where q db k r = true.
Proof. unfold selected. rewrite elem_of_merge_sort, list_elem_of_filter, elem_of_map_to_list. naive_solver. Qed.

Lemma selected_community q db k r : (k, r) ∈ selected q db → rows db !! k = Some r ∧ k_community k = q_community_id q.
Proof.
  rewrite selected_spec. intros [Hk Hw]. split; [done|]. unfold query_where in Hw. rewrite !andb_true_iff, common_conditions_split in Hw.
  by destruct Hw as [[[[[Hc _] _] _] _] _].
Qed.

Lemma selected_NoDup q db : NoDup (selected q db).
Proof. unfold selected. rewrite merge_sort_Permutation. apply NoDup_filter, NoDup_map_to_list. Qed.

Lemma selected_sorted q db : StronglySorted window_before (selected q db).
Proof. apply StronglySorted_merge_sort; apply _. Qed.

Lemma collect_row_events (l : list (RowKey * EventRow)) :
  Forall (λ kr, row_ok kr.1 kr.2) l → collect row_to_stored_event l.*2 = Ok (row_event ∘ snd <$> l).
Proof. induction 1 as [|[k r] l Hr _ IH]; [done|]. cbn. by rewrite (row_ok_decoded k r Hr), IH. Qed.

(** An element with fewer than [n] others before it is on the first page. *)
Lemma on_page {A B} (R : relation A) `{∀ x y, Decision (R x y)} (key : A → B) `{EqDecision B} (l : list A) n x :
  StronglySorted R l → NoDup l → x ∈ l → (∀ y, y ∈ l → key y = key x → y = x) →
  (length (filter (λ y, R y x ∧ key y ≠ key x) l) < n)%nat → x ∈ take n l.
Proof.
  intros Hs Hn Hx Hkey Hlen. apply list_elem_of_split in Hx as (l1 & l2 & ->).
  apply StronglySorted_app in Hs as (Hbefore & _ & _). apply NoDup_app in Hn as (_ & Hn & _).
  rewrite filter_app, length_app, (filter_id _ l1) in Hlen.
  - rewrite take_app_ge by lia. destruct (n - length l1)%nat as [|m] eqn:E; [lia|]. set_solver.
  - apply Forall_forall. intros y Hy. split; [apply Hbefore; [done|left]|]. intros Heq.
    apply Hkey in Heq as ->; [|set_solver]. apply (Hn x Hy). left.
Qed.

Definition candidates_before (q : EventQuery) (db : ReadDb) (kr : RowKey * EventRow) : nat :=
  length (filter (λ x, window_before x kr ∧ x.1 ≠ kr.1) (selected q db)).

Definition full_page (c : Uuid) (db : ReadDb) (q : EventQuery) : Prop :=
  query_events_on q db = Ok (row_event ∘ snd <$> take (Z.to_nat (page_limit q)) (selected q db)).

Lemma filter_page c pk acc ch bs i f db :
  rows_ok c db → mjoin (bs !! i) = None → (∀ l, limit f = Some l → (Z.of_N l < 2 ^ 63)%Z) → matches_nothing (historical_query c pk acc ch bs i f) = false →
  full_page c db (historical_query c pk acc ch bs i f).
Proof.
  intros Hrows Hb Hl Hm. unfold full_page. set (q := historical_query c pk acc ch bs i f) in *.
  assert (q_community_id q = c) as Hc by apply historical_community.
  assert (q_global_only q = false ∧ q_offset q = None ∧ (0 ≤ page_limit q)%Z) as (Hg & Ho & Hp).
  { assert ((0 ≤ from_option (λ l, Z.min (limit_i64 l) DEFAULT_MAX_PAGE_LIMIT) DEFAULT_MAX_PAGE_LIMIT (limit f))%Z) as Hlim.
    { destruct (limit f) as [l|]; cbn [from_option]; [|done]. specialize (Hl _ eq_refl). unfold limit_i64. rewrite as_i64_in_range by lia.
      unfold DEFAULT_MAX_PAGE_LIMIT. lia. }
    subst q. unfold page_limit, historical_query, apply_channel_scope_to_query.
    destruct (filter_can_match_shared_gated_kinds f); destruct (extract_channel_id_from_filter f), ch, (tag_filter "h" f);
      cbn; (split; [done|split; [done|]]); unfold DEFAULT_MAX_PAGE_LIMIT in *; lia. }
  assert (q_before_id q = None) as Hbefore by (subst q; by rewrite historical_before).
  unfold query_events_on. rewrite Hbefore, Hg, Hm, Ho. cbn [default from_option andb].
  rewrite bool_decide_eq_false_2 by (by intros [? [=]]). cbn [andb].
  destruct (Z.ltb_spec (page_limit q) 0); [lia|]. cbn [orb]. rewrite drop_0.
  apply collect_row_events, Forall_forall. intros [k r] Hin. apply list_elem_of_lookup in Hin as [j Hj].
  apply lookup_take_Some in Hj as [Hj%list_elem_of_lookup_2 _]. apply selected_community in Hj as [Hk Hcom]. apply Hrows; [done|]. cbn. congruence.
Qed.

Lemma nothing_historical c pk acc ch bs i f :
  matches_nothing (historical_query c pk acc ch bs i f) = is_empty_list (kinds f).
Proof.
  unfold matches_nothing, historical_query, apply_channel_scope_to_query.
  destruct (filter_can_match_shared_gated_kinds f); destruct (extract_channel_id_from_filter f), ch, (tag_filter "h" f); cbn;
    destruct (authors f) as [[|? [|]]|], (ids f) as [[|]|], (tag_filter "e" f) as [[|]|]; cbn; by rewrite ?orb_false_r.
Qed.

(** What a filter finds, whatever it matches. *)
Lemma filter_answer c pk acc ch bs i f db :
  rows_ok c db → mjoin (bs !! i) = None → (∀ l, limit f = Some l → (Z.of_N l < 2 ^ 63)%Z) →
  let q := historical_query c pk acc ch bs i f in
  ∃ page, query_events_on q db = Ok page ∧
    ∀ kr, kr ∈ take (Z.to_nat (page_limit q)) (selected q db) → kinds f ≠ Some [] → row_event kr.2 ∈ page.
Proof.
  intros Hrows Hb Hl q. destruct (matches_nothing q) eqn:Hm.
  - exists []. split; [|intros ? _ Hk]; subst q.
    + unfold query_events_on. rewrite historical_before, Hb, Hm. cbn. rewrite andb_false_r || idtac.
      unfold historical_query, apply_channel_scope_to_query.
      destruct (filter_can_match_shared_gated_kinds f); destruct (extract_channel_id_from_filter f), ch, (tag_filter "h" f); done.
    + rewrite nothing_historical in Hm. by destruct (kinds f) as [[|]|].
  - eexists. split; [by apply filter_page|]. intros kr Hkr _. apply list_elem_of_fmap. by exists kr.
Qed.

(** ** Runs *)

Context (env : Answers read_sig) (db : ReadDb).
Context (Henv : ∀ h q, env h (QueryEventsRouted q) = query_events_on q db).
Context (sub : string) (conn : ConnectionState) (ctx : AuthContext).
Abbreviation pk := (ctx_pubkey ctx) (only parsing).

Definition closed (h : Run) : Prop := ∃ s m, asked_for (Send (Closed s m)) h.

Lemma along_req {B} r (k : ReadAns r → Program read_sig B) Q h :
  along env (k (env h r)) Q (Answered (S := read_sig) r (env h r) :: h) → along env (req r ≫= k) Q h.
Proof. done. Qed.

Lemma sent_mono i y h : sent i h → sent i (y :: h).
Proof. intros (s & e & Ha & He). exists s, e. split; [by right|done]. Qed.

Lemma along_sent {A} (p : Program read_sig A) Q h :
  along env p Q h → along env p (λ a h', Q a h' ∧ ∀ i, sent i h → sent i h') h.
Proof.
  intros Hp. apply along_and; [done|]. apply (along_grows env p (λ h', ∀ i, sent i h → sent i h')); [|done].
  intros x h' Hh i Hi. by apply sent_mono, Hh.
Qed.

Lemma deliver_all f acc page seen h :
  (∀ i, i ∈ seen → sent i h) →
  along env (deliver sub f acc pk page seen)
    (λ r h', match r with
             | Some seen' => (∀ i, i ∈ seen' → sent i h') ∧ ∀ s, s ∈ page → accepted f acc pk s = true → sent (Nostr.id (event s)) h'
             | None => dropped h'
             end) h.
Proof.
  revert seen h. induction page as [|s page IH]; intros seen h Hs; cbn [deliver].
  { apply along_return. split; [done|set_solver]. }
  destruct (negb _ || _) eqn:E.
  - eapply along_mono; [|apply along_sent, IH, Hs]. intros [seen'|] h' [Hr Hm]; [|done]. destruct Hr as [H1 H2].
    split; [done|]. intros t [->|Ht]%elem_of_cons Hacc; [|auto]. rewrite Hacc in E. cbn in E. boolify. auto.
  - apply (along_req (Send _)). destruct (env h (Send (EventMsg sub (event s)))) eqn:Es.
    + assert (∀ i, i ∈ Nostr.id (event s) :: seen → sent i (Answered (S := read_sig) (Send (EventMsg sub (event s))) true :: h)) as Hs'.
      { intros i [->|Hi]%elem_of_cons; [exists sub, (event s); split; [left|done]|]. by apply sent_mono, Hs. }
      eapply along_mono; [|apply along_sent, IH, Hs']. intros [seen'|] h' [Hr Hm]; [|done]. destruct Hr as [H1 H2].
      split; [done|]. intros t [->|Ht]%elem_of_cons Hacc; [|auto]. apply Hm, Hs'. left.
    + apply along_return. exists (EventMsg sub (event s)). left.
Qed.

Lemma history_all acc work seen h :
  Forall (λ w, ∃ page, query_events_on w.2 db = Ok page) work → (∀ i, i ∈ seen → sent i h) →
  along env (deliver_history sub acc pk work seen)
    (λ _ h', dropped h' ∨ ∀ f q page s, (f, q) ∈ work → query_events_on q db = Ok page → s ∈ page →
       accepted f acc pk s = true → sent (Nostr.id (event s)) h') h.
Proof.
  intros Hw. revert seen h. induction Hw as [|[f q] work [page Hq] Hw IH]; intros seen h Hs; cbn [deliver_history].
  { apply (along_req (Send _)), along_return. right. set_solver. }
  apply (along_req (QueryEventsRouted q)). rewrite Henv. cbn in Hq. rewrite Hq. apply along_bind.
  eapply along_mono; [|apply (deliver_all f acc page seen); intros i Hi; by apply sent_mono, Hs].
  intros [seen'|] h1 Hr; [|by left]. destruct Hr as [H1 H2].
  eapply along_mono; [|apply along_sent, IH, H1]. intros _ h2 [[Hd|Hall] Hm]; [by left|right].
  intros f' q' page' s [[= -> ->]|Hin]%elem_of_cons Hq' Hs' Hacc; [|eauto]. apply Hm, H2; [congruence|done].
Qed.

(** *** What is known of the channels *)

Definition knows (acc : list Uuid) (h : Run) : Prop := ∀ ch, may_read_channel conn ctx ch h → ch ∈ acc.

Definition is_access (r : ReadReq) : bool :=
  match r with GetAccessibleChannelIdsCached _ _ | ConfirmMember _ _ _ => true | _ => false end.

Lemma knows_more acc r x h : is_access r = false → knows acc h → knows acc (Answered (S := read_sig) r x :: h).
Proof.
  intros Hr Hk ch [Ht Hm]. apply Hk. split; [done|].
  destruct Hm as [(known & [Hd|Hd]%elem_of_cons & Hc)|[Hd|Hd]%elem_of_cons].
  - apply (f_equal (asked (S := read_sig))) in Hd. cbn in Hd. by subst r.
  - left. by exists known.
  - apply (f_equal (asked (S := read_sig))) in Hd. cbn in Hd. by subst r.
  - by right.
Qed.

(** Who was confirmed by one exchange. *)
Definition confirmation (x : Exchange read_sig) : option Uuid :=
  match x with
  | Answered (ConfirmMember _ ch _) m => match m with Some true => Some ch | _ => None end
  | _ => None
  end.

Lemma knows_confirmed acc ch m h :
  knows acc h →
  knows (resolve_request_local_access acc ch (token_allows (ctx_channel_ids ctx) ch) (Some m)).2
    (Answered (S := read_sig) (ConfirmMember (cn_community conn) ch pk) (Some m) :: h).
Proof.
  intros Hk c [Ht Hm]. assert (∀ c, c ∈ acc → c ∈ (resolve_request_local_access acc ch (token_allows (ctx_channel_ids ctx) ch) (Some m)).2) as Hsub.
  { intros c' Hc. unfold resolve_request_local_access. destruct (negb _); [done|]. case_bool_decide; [done|]. destruct m; [set_solver|done]. }
  destruct Hm as [(known & [Hd|Hd]%elem_of_cons & Hc)|[Hd|Hd]%elem_of_cons].
  - by apply (f_equal (asked (S := read_sig))) in Hd.
  - apply Hsub, Hk. split; [done|]. left. by exists known.
  - apply (f_equal confirmation) in Hd. cbn in Hd. destruct m; [|done]. injection Hd as ->.
    unfold resolve_request_local_access. apply token_allows_spec in Ht. rewrite Ht. cbn. case_bool_decide; [done|]. set_solver.
  - apply Hsub, Hk. split; [done|]. by right.
Qed.

Lemma confirm_knows requested acc h :
  knows acc h →
  along env (confirm_channels (cn_community conn) pk (ctx_channel_ids ctx) requested acc)
    (λ r h', match r with Some acc' => knows acc' h' | None => True end) h.
Proof.
  revert acc h. induction requested as [|ch requested IH]; intros acc h Hk; cbn [confirm_channels]; [done|].
  destruct (negb _ || _) eqn:E.
  - apply IH. unfold resolve_request_local_access. destruct (negb _); [done|]. by case_bool_decide.
  - apply (along_req (ConfirmMember _ _ _)). destruct (env h _) as [m|]; [|done]. by apply IH, knows_confirmed.
Qed.

Lemma all_each_topic f chs : (∀ t, is_access (f t) = false) → all_requests (S := read_sig) (λ r, is_access r = false) (each_topic f chs).
Proof. intros Hf. induction chs as [|ch chs IH]; [done|]. split; [apply Hf|]. intros x. exact IH. Qed.
Lemma all_deliver f acc page seen : all_requests (S := read_sig) (λ r, is_access r = false) (deliver sub f acc pk page seen).
Proof.
  revert seen. induction page as [|s page IH]; intros seen; cbn [deliver]; [done|]. destruct (_ || _); [apply IH|].
  split; [done|]. intros []; [apply IH|done].
Qed.
Lemma all_history acc work seen : all_requests (S := read_sig) (λ r, is_access r = false) (deliver_history sub acc pk work seen).
Proof.
  revert seen. induction work as [|[f q] work IH]; intros seen; cbn [deliver_history]; [done|].
  split; [done|]. intros [page|e]; [|done]. apply all_requests_bind; [apply all_deliver|]. intros [seen'|]; [apply IH|done].
Qed.
Lemma all_subscribe fs bs channel authorized acc :
  all_requests (S := read_sig) (λ r, is_access r = false) (subscribe sub fs bs conn pk channel authorized acc).
Proof.
  split; [done|]. intros u. apply all_requests_bind; [by destruct authorized|]. intros replaced. apply all_requests_bind.
  - destruct replaced as [r|]; [|done]. unfold release_subscription_topics. destruct (is_global _); [done|by apply all_each_topic].
  - intros _. apply all_requests_bind; [|intros _; apply all_history]. destruct authorized; [by apply all_each_topic|done].
Qed.

Lemma along_knows {A} (p : Program read_sig A) acc h :
  all_requests (S := read_sig) (λ r, is_access r = false) p → knows acc h → along env p (λ _, knows acc) h.
Proof.
  revert h. induction p as [a|r k IH]; intros h Hp Hk; [done|]. destruct Hp as [Hr Hp]. apply IH; [apply Hp|]. by apply knows_more.
Qed.

(** ** The whole request *)

Context (fs : list Filter) (bs : list (option string)).

(** What the subscription owes to a filter: every live row of the community
    that the filter accepts and the reader may see, unless the rest of the page
    is full of newer rows that the query keeps. *)
Definition owed (acc : list Uuid) (i : nat) (f : Filter) (k : RowKey) (r : EventRow) : Prop :=
  let c := cn_community conn in
  let q := historical_query c pk acc (extract_channel_id_from_filters fs) bs i f in
  rows db !! k = Some r ∧ live_row c k r ∧ findable db k r ∧ filter_accepts f (row_event r) ∧
  (∀ ch, er_channel_id r = Some ch → ch ∈ acc) ∧ may_see (er_event r) pk ∧
  (Z.of_nat (candidates_before q db (k, r)) < page_limit q)%Z.

Definition plain_filter (i : nat) (f : Filter) : Prop :=
  filter_ok f ∧ search f = None ∧ mjoin (bs !! i) = None ∧ (∀ l, limit f = Some l → (Z.of_N l < 2 ^ 63)%Z).

Lemma owed_on_page acc i f k r :
  uuid_round_trip → rows_ok (cn_community conn) db → fs !! i = Some f → plain_filter i f → owed acc i f k r →
  let q := historical_query (cn_community conn) pk acc (extract_channel_id_from_filters fs) bs i f in
  (k, r) ∈ take (Z.to_nat (page_limit q)) (selected q db).
Proof.
  intros Hu Hrows Hi (Hf & _ & Hb & _) (Hk & Hlive & Hfind & Ha & Hacc & Hsee & Hlen) q.
  apply (on_page window_before fst); [apply selected_sorted|apply selected_NoDup| | |].
  - apply selected_spec. split; [done|]. apply where_keeps; try done; [|by eapply list_elem_of_lookup_2].
    apply Hrows; [done|apply Hlive].
  - intros [k' r'] Hin Hkey. cbn in Hkey. subst k'. apply selected_spec in Hin as [Hr' _]. congruence.
  - unfold candidates_before in Hlen. fold q in Hlen. cbn [fst] in *. lia.
Qed.

Lemma accepted_intro acc f r :
  filter_accepts f (row_event r) → (∀ ch, er_channel_id r = Some ch → ch ∈ acc) → may_see (er_event r) pk →
  accepted f acc pk (row_event r) = true.
Proof.
  intros Ha Hacc Hsee. unfold accepted. rewrite !andb_true_iff. split; [split|by apply event_visible_spec].
  - apply filters_match_spec. exists f. split; [by apply list_elem_of_singleton|done].
  - cbn. destruct (er_channel_id r) as [ch|]; [|done]. apply bool_decide_eq_true. auto.
Qed.

Lemma subscribe_all channel authorized acc h :
  uuid_round_trip → rows_ok (cn_community conn) db → (∀ i f, fs !! i = Some f → plain_filter i f) → channel = extract_channel_id_from_filters fs →
  along env (subscribe sub fs bs conn pk channel authorized acc)
    (λ _ h', dropped h' ∨ ∀ i f k r, fs !! i = Some f → owed acc i f k r → sent (Nostr.id (er_event r)) h') h.
Proof.
  intros Hu Hrows Hplain ->. unfold subscribe. apply (along_req (InsertSubscription _ _)), along_bind.
  eapply along_mono; [|apply (along_grows _ _ (λ _, True)); done]. intros replaced h1 _. apply along_bind.
  eapply along_mono; [|apply (along_grows _ _ (λ _, True)); done]. intros _ h2 _. apply along_bind.
  eapply along_mono; [|apply (along_grows _ _ (λ _, True)); done]. intros _ h3 _.
  assert (∀ i f, fs !! i = Some f → ∃ page,
    query_events_on (historical_query (cn_community conn) pk acc (extract_channel_id_from_filters fs) bs i f) db = Ok page ∧
    ∀ k r, owed acc i f k r → row_event r ∈ page) as Hpages.
  { intros i f Hi. destruct (Hplain i f Hi) as (Hf & Hs & Hb & Hl).
    destruct (filter_answer (cn_community conn) pk acc (extract_channel_id_from_filters fs) bs i f db Hrows Hb Hl) as (page & Hq & Hin).
    exists page. split; [done|]. intros k r Ho. apply (Hin (k, r)); [by apply owed_on_page|].
    destruct Ho as (_ & _ & _ & (Hkinds & _) & _). intros He. specialize (Hkinds _ He). set_solver. }
  eapply along_mono; [|apply history_all; [|set_solver]].
  - intros _ h4 [Hd|Hall]; [by left|right]. intros i f k r Hi Ho. destruct (Hpages i f Hi) as (page & Hq & Hin).
    eapply (Hall f _ page (row_event r)); [|exact Hq|by apply (Hin k r)|].
    + apply elem_of_lookup_imap. exists i, f. split; [reflexivity|done].
    + destruct Ho as (_ & _ & _ & Ha & Hacc & Hsee & _). by eapply accepted_intro.
  - apply Forall_forall. intros w (i & f & -> & Hi)%elem_of_lookup_imap. destruct (Hpages i f Hi) as (page & Hq & _). by exists page.
Qed.

Definition answered_in_full (h : Run) : Prop :=
  ∃ acc, (∀ ch, may_read_channel conn ctx ch h → ch ∈ acc) ∧
    ∀ i f k r, fs !! i = Some f → owed acc i f k r → sent (Nostr.id (er_event r)) h.

Lemma finish_closed msg h : along env (finish (Closed sub msg)) (λ _, closed) h.
Proof. apply (along_req (Send _)), along_return. exists sub, msg. left. Qed.

Lemma serve_all requested acc h :
  uuid_round_trip → rows_ok (cn_community conn) db → (∀ i f, fs !! i = Some f → plain_filter i f) →
  filters_are_huddle_liveness_only fs = false → knows acc h →
  along env (serve sub fs bs conn ctx requested acc) (λ _ h', closed h' ∨ dropped h' ∨ answered_in_full h') h.
Proof.
  intros Hu Hrows Hplain Hhuddle Hk. unfold serve.
  assert (∀ msg, along env (finish (Closed sub msg)) (λ _ h', closed h' ∨ dropped h' ∨ answered_in_full h') h) as Hclose.
  { intros msg. eapply along_mono; [|apply finish_closed]. by left. }
  case_bool_decide; [done|]. rewrite Hhuddle. destruct (if bool_decide _ then _ else _); [done|].
  assert (existsb (λ f, bool_decide (is_Some (search f))) fs = false) as ->.
  { apply not_true_iff_false. rewrite existsb_elem_of. intros (f & [i Hi]%list_elem_of_lookup & [x Hs]%bool_decide_eq_true).
    destruct (Hplain i f Hi) as (_ & Hn & _). congruence. }
  eapply along_mono; [|apply along_and; [by apply subscribe_all|apply along_knows; [apply all_subscribe|exact Hk]]].
  intros _ h' [[Hd|Hall] Hk']; [by right; left|]. right; right. by exists acc.
Qed.

Lemma knows_narrow known h :
  (∀ k, did (GetAccessibleChannelIdsCached (cn_community conn) pk) (Some k) h → k = known) →
  (∀ ch m, ¬ did (ConfirmMember (cn_community conn) ch pk) m h) → knows (narrow (ctx_channel_ids ctx) known) h.
Proof.
  intros Hk Hc ch [Ht [(known' & Hd & Hin)|Hd]]; [|by apply Hc in Hd]. apply narrow_elem. split; [|done].
  apply Hk in Hd as ->. done.
Qed.

Lemma handle_req_all :
  uuid_round_trip → rows_ok (cn_community conn) db → (∀ i f, fs !! i = Some f → plain_filter i f) →
  filters_are_huddle_liveness_only fs = false → env [] ReadAuthState = Authenticated ctx →
  along env (handle_req sub fs bs conn) (λ _ h', closed h' ∨ dropped h' ∨ answered_in_full h') [].
Proof.
  intros Hu Hrows Hplain Hhuddle Hauth. unfold handle_req. apply (along_req ReadAuthState). rewrite Hauth.
  assert (∀ msg h, along env (finish (Closed sub msg)) (λ _ h', closed h' ∨ dropped h' ∨ answered_in_full h') h) as Hclose.
  { intros msg h. eapply along_mono; [|apply finish_closed]. by left. }
  destruct (negb _ && negb _); [by apply (along_req (Send _))|]. apply (along_req SubscriptionIds).
  set (h := [_; _]). cbv beta. destruct (negb _ && _); [apply Hclose|].
  destruct (extract_channel_ids_from_filters_limited fs) as [requested|]; [|apply Hclose].
  assert (∀ y h, knows (narrow (ctx_channel_ids ctx) y) h →
    along env (confirmed ← confirm_channels (cn_community conn) pk (ctx_channel_ids ctx) (default [] requested) (narrow (ctx_channel_ids ctx) y);
               match confirmed with
               | None => finish (Closed sub "error: database error")
               | Some accessible => serve sub fs bs conn ctx requested accessible
               end) (λ _ h', closed h' ∨ dropped h' ∨ answered_in_full h') h) as Hserve.
  { intros y h1 Hk. apply along_bind. eapply along_mono; [|by apply confirm_knows]. intros [acc|] h2 Hk2; [|apply Hclose].
    by apply serve_all. }
  assert (∀ ch m, ¬ did (ConfirmMember (cn_community conn) ch pk) m h) as Hno.
  { intros ch m Hd. by apply elem_of_cons in Hd as [Hd|[Hd|Hd%not_elem_of_nil]%elem_of_cons]; try (apply (f_equal (asked (S := read_sig))) in Hd). }
  destruct (filters_are_nip43_membership_only fs).
  - apply along_bind, along_return, Hserve. apply knows_narrow; [|done]. intros k Hd.
    by apply elem_of_cons in Hd as [Hd|[Hd|Hd%not_elem_of_nil]%elem_of_cons]; try (apply (f_equal (asked (S := read_sig))) in Hd).
  - apply (along_req (GetAccessibleChannelIdsCached _ _)). destruct (env h _) as [known|] eqn:Ek; [|apply Hclose]. apply Hserve.
    apply knows_narrow.
    + intros k [Hd|[Hd|[Hd|Hd%not_elem_of_nil]%elem_of_cons]%elem_of_cons]%elem_of_cons; cbn in Hd; try done; try (by apply (f_equal (asked (S := read_sig))) in Hd).
      apply (f_equal (λ y : Exchange read_sig, match y with Answered (GetAccessibleChannelIdsCached _ _) a => a | _ => None end)) in Hd.
      cbn in Hd. congruence.
    + intros ch m [Hd|Hd]%elem_of_cons; [by apply (f_equal (asked (S := read_sig))) in Hd|by apply Hno in Hd].
Qed.

End history.

(** ** Properties *)

(** C39: A subscription is answered with everything that it may read. The request: not only
    about huddle liveness; its filters have no search and no before_id cursor, until and limit
    below 2^63 (larger ones wrap and hide events,
    ReadSamples.SampleRead.wrapped_bounds_hide_events), ids of 64 digits, and a single #p value
    is 64 hex digits. When its queries are answered by one database, whose rows are intact, such
    a request that is not closed and whose connection takes every message has sent, for each of
    its filters, every live event of the community that the filter accepts, that is in a channel
    open to the reader or in none, and that the reader may see - unless the limit of the filter
    is used up by newer rows that its query keeps - and then ended with EOSE. The event has to
    be findable by its tags (its mentions are indexed, its h tag names its channel, and it has
    one d tag at most). *)
Theorem subscription_is_answered_in_full {L : NostrLib} {NT : NostrTagLaws L} {T : TimeRange} {D : RowDecode} {U : UuidParse}
    (env : Answers read_sig) db sub fs bs conn ctx :
  uuid_round_trip → rows_ok (cn_community conn) db → (∀ i f, fs !! i = Some f → plain_filter bs i f) →
  filters_are_huddle_liveness_only fs = false → env [] ReadAuthState = Authenticated ctx →
  (∀ h q, env h (QueryEventsRouted q) = query_events_on q db) →
  let '(_, h) := run_program env (handle_req sub fs bs conn) [] in
  closed h ∨ dropped h ∨ (ended h ∧ answered_in_full db conn ctx fs bs h).
Proof.
  intros Hu Hrows Hplain Hhuddle Hauth Henv.
  pose proof (handle_req_all env db Henv sub conn ctx fs bs Hu Hrows Hplain Hhuddle Hauth) as Hall.
  pose proof (along_wp _ env _ _ [] I (wp_handle_req sub fs conn bs)) as Hover.
  unfold along in *. destruct (run_program env _ []) as [_ h]. unfold over in Hover. naive_solver.
Qed.
