(* ===== verification/ReadCount.v ===== *)
(** * A count is the number of events its reader may see

    Where [fast_count] lets the statement alone give the number, its conditions
    are those of the filter ([count_where_exact]); elsewhere the candidates are
    filtered again, up to the bound on their number. *)
From Stdlib Require Import Btauto.
From stdpp Require Import sorting.
From S2P Require Import Prelude Nostr Kinds EventFilter SubRegistry Program IngestPolicy IngestRequests ThreadStore ThreadPages.
From S2P Require Import ReadQuery ReadFilter ReadDoors ReadProps ReadPushdown ReadHistory.

Section counting.
Context {L : NostrLib} {NT : NostrTagLaws L} {T : TimeRange} {D : RowDecode} {U : UuidParse}.

(** ** What a count relies on *)

Definition lower_text (s : string) : Prop := to_ascii_lowercase s = s.

(** The tags of a row are written as its columns are. *)
Record canonical (db : ReadDb) (k : RowKey) (r : EventRow) : Prop := {
  ca_findable : findable db k r;
  ca_mentions : ∀ m, (k_community k, m, k_id k) ∈ event_mentions db → ∃ v, carries (er_event r) "p" v ∧ to_ascii_lowercase v = m;
  ca_p : ∀ v, carries (er_event r) "p" v → lower_text v;
  ca_h : ∀ ch, er_channel_id r = Some ch → has_h_tag (er_event r) → carries (er_event r) "h" (uuid_to_string ch);
  ca_author : lower_text (pubkey (er_event r))
}.

(** The filter has no empty list of values (which matches nothing, where the
    statement has no condition), its times can be represented, its channels are
    printed as channels are, and its [#p] and [#d] values are as the columns
    hold them. *)
Record countable (f : Filter) : Prop := {
  cf_ok : filter_ok f;
  cf_authors : authors f ≠ Some [];
  cf_ids : ids f ≠ Some [];
  cf_tags : ∀ x, tag_filter x f ≠ Some [];
  cf_since : ∀ s, since f = Some s → (s < 2 ^ 63)%Z ∧ in_time_range s = true;
  cf_until : ∀ u, until f = Some u → in_time_range u = true;
  cf_h : ∀ vs, tag_filter "h" f = Some vs → NoDup vs ∧ ∀ v, v ∈ vs → ∃ ch, uuid_parse v = Some ch ∧ v = uuid_to_string ch;
  cf_p : ∀ v, tag_filter "p" f = Some [v] → lower_text v;
  cf_d : ∀ vs, tag_filter "d" f = Some vs → "" ∉ vs
}.

(** A value of [#e] stands in an event only as an [e] tag has it. *)
Definition e_tags_plain (f : Filter) (e : Event) : Prop :=
  ∀ vs v, tag_filter "e" f = Some vs → v ∈ vs → tags_contain "e" v e = true → carries e "e" v.

(** ** The statement keeps nothing else *)

Lemma in_list_elim {A} (test : A → bool) l x l' : l = Some (x :: l') → in_list test l = true → ∃ y, y ∈ x :: l' ∧ test y = true.
Proof. intros ->. cbn [in_list]. by rewrite existsb_elem_of. Qed.

Lemma split_list {A} (test : A → bool) l vs :
  l = Some vs → vs ≠ [] → field_ok (sole l) test = true → in_list test (several l) = true → ∃ x, x ∈ vs ∧ test x = true.
Proof.
  intros -> Hne Hs Hv. destruct vs as [|x [|y vs]]; [done|..]; cbn in Hs.
  - exists x. split; [left|done].
  - by eapply in_list_elim in Hv.
Qed.

Lemma extract_d_tag_found e d : extract_d_tag e = Some d → d ≠ "" → carries e "d" d.
Proof.
  rewrite carries_values. unfold extract_d_tag, find_map. destruct (is_parameterized_replaceable _); [|done].
  change (omap (tag_value "d") (tags e)) with (tag_values "d" e). destruct (tag_values "d" e) as [|x l]; cbn; intros [= <-]; [done|left].
Qed.

Lemma from_timestamp_small z : (0 ≤ z < 2 ^ 63)%Z → in_time_range z = true → from_timestamp z = Some z.
Proof. intros Hz Ht. unfold from_timestamp. by rewrite as_i64_in_range, Ht. Qed.

(** What a pushable filter has besides its channels. *)
Lemma pushable_tags f x vs :
  filter_fully_pushable f = true → tag_filter x f = Some vs → vs ≠ [] →
  x = "h" ∨ (x = "p" ∧ ∃ v, vs = [v]) ∨ (x = "d" ∧ nip33_only (kinds f) = true) ∨ x = "e".
Proof.
  unfold filter_fully_pushable. intros [Ht _]%andb_true_iff Hx Hne. rewrite forallb_forall in Ht.
  specialize (Ht (x, vs)). rewrite <- list_elem_of_In, elem_of_map_to_list in Ht. specialize (Ht Hx). unfold tag_pushable in Ht. cbn [fst snd] in Ht.
  destruct (String.eqb_spec x "h") as [->|]; [by left|]. right.
  destruct (String.eqb_spec x "p") as [->|]; [left|right].
  - split; [done|]. destruct vs as [|v [|]]; cbn in Ht; [done|by exists v|done].
  - destruct (String.eqb_spec x "d") as [->|]; [left|right].
    + split; [done|]. apply orb_true_iff in Ht as [Ht|Ht]; [|done]. by apply bool_decide_eq_true in Ht.
    + destruct (String.eqb_spec x "e") as [->|]; [done|]. by apply bool_decide_eq_true in Ht.
Qed.

(** The fields of a filter but for its channels. *)
Lemma content_exact f ch c db k r :
  countable f → row_ok k r → canonical db k r → e_tags_plain f (er_event r) → k_community k = c → filter_fully_pushable f = true →
  kinds f ≠ Some [] → content_conditions (filter_to_query_params f ch c) db k (er_event r) = true →
  let e := er_event r in
  (∀ ks, kinds f = Some ks → kind e ∈ ks) ∧ (∀ ps, authors f = Some ps → pubkey e ∈ ps) ∧
  (∀ s, since f = Some s → (s ≤ created_at e)%Z) ∧
  (∀ js, ids f = Some js → ∃ i, i ∈ js ∧ starts_with i (Nostr.id e) = true) ∧
  (∀ x vs, tag_filter x f = Some vs → x ≠ "h" → ∃ v, v ∈ vs ∧ carries e x v).
Proof.
  intros Hf Hr Hcan He Hc Hp Hk Hcond e. unfold content_conditions in Hcond. rewrite !andb_true_iff in Hcond.
  destruct Hcond as [[[[[[[Hm Hkinds] Hpk] Hauthors] Hids] Hetags] Hsince] Hd].
  cbn [filter_to_query_params q_kinds q_pubkey q_authors q_ids q_e_tags q_since] in *. fold e in Hkinds, Hpk, Hauthors, Hetags, Hd.
  split_and!.
  - intros ks Hks. destruct ks as [|x ks]; [congruence|]. eapply in_list_elim in Hkinds as (y & Hy & Heq); [|exact Hks].
    apply Z.eqb_eq in Heq. unfold event_kind_u32 in Heq. by subst y.
  - intros ps Hps. destruct (split_list (String.eqb (pubkey e)) (authors f) ps) as (x & Hx & Heq); try done.
    + intros ->. by apply (cf_authors _ Hf).
    + apply String.eqb_eq in Heq. by subst x.
  - intros s Hs. destruct (cf_since _ Hf s Hs) as [Hs1 Hs2]. pose proof (fo_since _ (cf_ok _ Hf) s Hs).
    rewrite Hs in Hsince. cbn [mbind option_bind] in Hsince. rewrite from_timestamp_small in Hsince by (lia || done). cbn in Hsince.
    apply Z.leb_le in Hsince. by rewrite (ro_time _ _ Hr) in Hsince.
  - intros js Hjs. assert (js ≠ []) as Hne by (intros ->; by apply (cf_ids _ Hf)). destruct js as [|x js]; [done|]. rewrite Hjs in Hids.
    eapply in_list_elim in Hids as (y & Hy & Heq); [|done]. apply String.eqb_eq in Heq. exists y. split; [done|].
    rewrite <- Heq, (ro_id _ _ Hr). unfold starts_with. fold e. pose proof (strip_prefix_app (Nostr.id e) "") as Hsp.
    assert (∀ s : string, s +:+ "" = s) as Hnil by (intros s; induction s as [|a s IH]; [done|exact (f_equal (String a) IH)]).
    rewrite Hnil in Hsp. by rewrite Hsp.
  - intros x vs Hx Hxh. assert (vs ≠ []) as Hne by (intros ->; by apply (cf_tags _ Hf x)).
    destruct (pushable_tags f x vs Hp Hx Hne) as [->|[[-> (v & ->)]|[[-> Hn]| ->]]]; [done|..].
    + exists v. split; [left|]. unfold mention_condition in Hm. cbn [filter_to_query_params q_p_tag_hex q_community_id] in Hm. rewrite Hx in Hm.
      cbn [sole field_ok] in Hm. apply bool_decide_eq_true in Hm. rewrite <- Hc in Hm. destruct (ca_mentions _ _ _ Hcan _ Hm) as (w & Hw & Hl).
      rewrite (ca_p _ _ _ Hcan w Hw), (cf_p _ Hf v Hx) in Hl. by subst w.
    + unfold d_tag_condition in Hd. cbn [filter_to_query_params q_d_tag q_d_tags] in Hd. rewrite Hn, Hx in Hd.
      destruct (split_list (λ d, bool_decide (extract_d_tag e = Some d)) (Some vs) vs) as (d & Hdin & Hdeq); try done.
      * by destruct vs as [|d [|]].
      * by destruct vs as [|d [|]].
      * apply bool_decide_eq_true in Hdeq. exists d. split; [done|]. apply extract_d_tag_found; [done|]. intros ->. by apply (cf_d _ Hf vs).
    + destruct vs as [|x vs]; [done|]. rewrite Hx in Hetags. eapply in_list_elim in Hetags as (v & Hv & Hcont); [|done].
      exists v. split; [done|]. by eapply He.
Qed.

(** ** Channels *)

(** Where a row of a channel is counted for a filter. *)
Definition in_scope (f : Filter) (acc : list Uuid) (row_ch : option Uuid) : Prop :=
  match tag_filter "h" f with
  | Some vs => ∃ v ch, v ∈ vs ∧ uuid_parse v = Some ch ∧ ch ∈ acc ∧ row_ch = Some ch
  | None => ∀ ch, row_ch = Some ch → ch ∈ acc
  end.

Lemma named_channels (vs : list string) :
  NoDup vs → (∀ v, v ∈ vs → ∃ ch, uuid_parse v = Some ch ∧ v = uuid_to_string ch) →
  NoDup (omap uuid_parse vs) ∧ length (omap uuid_parse vs) = length vs.
Proof.
  induction 1 as [|v vs Hv Hn IH]; intros Hp; [split; [constructor|done]|].
  destruct IH as [H1 H2]; [intros w Hw; apply Hp; by right|]. destruct (Hp v) as (ch & Hch & Heq); [left|].
  cbn. rewrite Hch. cbn. split; [|f_equal; exact H2]. constructor; [|exact H1].
  intros (w & Hw & Hwch)%list_elem_of_omap. destruct (Hp w) as (ch' & Hch' & Heq'); [by right|]. apply Hv. congruence.
Qed.

Lemma push_unseen_all (l out : list Uuid) : NoDup (out ++ l) → foldl push_unseen out l = out ++ l.
Proof.
  revert out. induction l as [|x l IH]; intros out Hn; cbn; [by rewrite app_nil_r|].
  assert (push_unseen out x = out ++ [x]) as ->.
  { unfold push_unseen. rewrite decide_False; [done|]. apply NoDup_app in Hn as (_ & Hn & _). intros Hx. apply (Hn x Hx). left. }
  rewrite IH; rewrite <- app_assoc; done.
Qed.

Lemma requested_channels f vs : countable f → tag_filter "h" f = Some vs →
  extract_channel_ids_from_filters [f] = Some (omap uuid_parse vs) ∧ NoDup (omap uuid_parse vs) ∧ length (omap uuid_parse vs) = length vs.
Proof.
  intros Hf Hv. destruct (cf_h _ Hf vs Hv) as [Hn Hp]. pose proof (named_channels vs Hn Hp) as [H1 H2].
  split; [|done]. unfold extract_channel_ids_from_filters. rewrite Hv. cbn [mbind option_bind]. by rewrite push_unseen_all.
Qed.

Lemma no_channels f : tag_filter "h" f = None ↔ extract_channel_ids_from_filters [f] = None.
Proof. unfold extract_channel_ids_from_filters. by destruct (tag_filter "h" f). Qed.

(** The query by which a filter is counted. *)
Definition count_query (c : Uuid) (pk : string) (acc : list Uuid) (f : Filter) : EventQuery :=
  match extract_channel_ids_from_filters [f] with
  | Some requested => channel_count_query c pk acc requested (filter (λ ch, ch ∈ acc) requested) f
  | None => global_count_query c pk acc f
  end.

(** Its parts, whichever way it was made. *)
Lemma count_query_shape c pk acc f :
  ∃ ch_id, count_query c pk acc f =
    (let q := apply_channel_scope_to_query (build_event_query_from_filter f c) f ch_id acc in
     if filter_can_match_shared_gated_kinds f then set_shared_gated_reader (Some pk) q else q) ∧
    ch_id = match extract_channel_ids_from_filters [f] with
            | Some requested => if (length requested =? 1)%nat then head (filter (λ ch, ch ∈ acc) requested) else None
            | None => None
            end.
Proof.
  unfold count_query. destruct (extract_channel_ids_from_filters [f]) as [requested|] eqn:E; eexists; (split; [|reflexivity]); [done|].
  apply no_channels in E. unfold global_count_query, apply_channel_scope_to_query. by rewrite E.
Qed.

Lemma count_query_channel c pk acc f row_ch :
  countable f → (∀ chs, extract_channel_ids_from_filters [f] = Some chs → filter (λ ch, ch ∈ acc) chs ≠ []) →
  channel_condition (count_query c pk acc f) row_ch = true ↔ in_scope f acc row_ch.
Proof.
  intros Hf Hne. destruct (count_query_shape c pk acc f) as (ch_id & Hq & Hch). cbn zeta in Hq.
  set (q0 := build_event_query_from_filter f c) in *.
  assert (channel_condition (count_query c pk acc f) row_ch = channel_condition (apply_channel_scope_to_query q0 f ch_id acc) row_ch) as ->.
  { rewrite Hq. by destruct (filter_can_match_shared_gated_kinds f). }
  assert (q_channel_id q0 = ch_id ∧ (∀ u, ch_id = Some u → ∃ v, tag_filter "h" f = Some [v] ∧ uuid_parse v = Some u ∧ u ∈ acc)) as [Hid Hsome].
  { subst q0. cbn. unfold extract_channel_id_from_filter. destruct (tag_filter "h" f) as [vs|] eqn:Ev.
    - destruct (requested_channels f vs Hf Ev) as (Hex & _ & Hlen). rewrite Hex, Hlen in Hch. specialize (Hne _ Hex).
      destruct (cf_h _ Hf vs Ev) as [_ Hp]. cbn [mbind option_bind]. destruct vs as [|v [|w vs]]; [by subst| |by subst].
      destruct (Hp v) as (u & Hu & _); [left|]. cbn [single_channel]. cbn [length Nat.eqb] in Hch.
      assert (omap uuid_parse [v] = [u]) as Hone by (cbn; by rewrite Hu). rewrite Hone in *.
      rewrite filter_cons in Hch, Hne. destruct (decide (u ∈ acc)); [|done]. cbn in Hch. subst ch_id. split; [done|].
      intros u' [= <-]. by exists v.
    - apply no_channels in Ev. rewrite Ev in Hch. by subst. }
  rewrite scope_condition by done. unfold in_scope. destruct ch_id as [u|]; [|done].
  destruct (Hsome u eq_refl) as (v & Hv & Hu & Hacc). rewrite Hv. split.
  - intros ->. exists v, u. split; [left|done].
  - intros (v' & ch & Hin%list_elem_of_singleton & Hp & _ & ->). subst v'. congruence.
Qed.

Lemma count_query_community c pk acc f : q_community_id (count_query c pk acc f) = c.
Proof.
  destruct (count_query_shape c pk acc f) as (ch_id & -> & _). cbn zeta.
  destruct (filter_can_match_shared_gated_kinds f); cbn; by rewrite scoped_community.
Qed.

Lemma count_query_content c pk acc f db k e :
  content_conditions (count_query c pk acc f) db k e = content_conditions (filter_to_query_params f (extract_channel_id_from_filter f) c) db k e.
Proof.
  destruct (count_query_shape c pk acc f) as (ch_id & -> & _). cbn zeta. unfold apply_channel_scope_to_query.
  destruct (filter_can_match_shared_gated_kinds f), ch_id, (tag_filter "h" f); done.
Qed.

Lemma count_query_rest c pk acc f :
  let q := count_query c pk acc f in
  q_until q = until f ≫= from_timestamp ∧ q_before_id q = None ∧ q_custom_tag q = None ∧ q_offset q = None ∧ q_global_only q = false ∧
  q_shared_gated_reader q = (if filter_can_match_shared_gated_kinds f then Some pk else None) ∧
  matches_nothing q = is_empty_list (kinds f).
Proof.
  destruct (count_query_shape c pk acc f) as (ch_id & -> & _). cbn zeta. unfold apply_channel_scope_to_query, matches_nothing.
  destruct (filter_can_match_shared_gated_kinds f), ch_id, (tag_filter "h" f); cbn; (split_and!; try done);
    destruct (authors f) as [[|? [|]]|], (ids f) as [[|]|], (tag_filter "e" f) as [[|]|]; cbn; by rewrite ?orb_false_r.
Qed.

(** ** The conditions of the count *)

(** What a filter counts. *)
Definition counts (c : Uuid) (pk : string) (acc : list Uuid) (f : Filter) (k : RowKey) (r : EventRow) : Prop :=
  live_row c k r ∧ filter_accepts f (row_event r) ∧ (∀ ch, er_channel_id r = Some ch → ch ∈ acc) ∧ may_see (er_event r) pk.

Lemma counts_in_scope db f acc k r :
  uuid_round_trip → findable db k r → filter_accepts f (row_event r) → (∀ ch, er_channel_id r = Some ch → ch ∈ acc) → in_scope f acc (er_channel_id r).
Proof.
  intros Hu Hi Ha Hacc. unfold in_scope. destruct (tag_filter "h" f) as [vs|] eqn:Ev; [|done].
  destruct (accepted_channel db f k r vs Hu Hi Ha Ev) as (v & ch & Hv & Hch & Hp). exists v, ch. split_and!; auto.
Qed.

Lemma scope_channels f acc row_ch : in_scope f acc row_ch → ∀ ch, row_ch = Some ch → ch ∈ acc.
Proof. unfold in_scope. destruct (tag_filter "h" f); naive_solver. Qed.

(** The [#h] part of a filter, on a row in scope. *)
Lemma scope_accepts db f acc k r vs :
  countable f → canonical db k r → in_scope f acc (er_channel_id r) → tag_filter "h" f = Some vs → tag_constraint (row_event r) "h" vs.
Proof.
  intros Hf Hcan Hs Hv. unfold in_scope in Hs. rewrite Hv in Hs. destruct Hs as (v & ch & Hin & Hp & _ & Hch).
  destruct (cf_h _ Hf vs Hv) as [_ Hname]. destruct (Hname v Hin) as (ch' & Hp' & Heq). assert (ch' = ch) as -> by congruence.
  unfold tag_constraint. cbn [row_event with_received_at event channel_id].
  destruct (existsb (λ t, tag_kind t =? "h")%string (tags (er_event r))) eqn:Eh.
  - apply has_h_tag_spec in Eh. left. exists v. split; [done|]. rewrite Heq. by apply (ca_h _ _ _ Hcan).
  - right. split; [done|]. split; [by rewrite <- has_h_tag_spec, Eh|]. exists ch. split; [done|]. congruence.
Qed.

Lemma until_exact f k r : countable f → row_ok k r → field_ok (until f ≫= from_timestamp) (λ u, until_condition u None k) = true →
  ∀ u, until f = Some u → (created_at (er_event r) ≤ u)%Z.
Proof.
  intros Hf Hr Hu u Hfu. rewrite Hfu in Hu. cbn [mbind option_bind] in Hu.
  rewrite from_timestamp_small in Hu by (by eapply fo_until; [apply Hf|]) || by apply (cf_until _ Hf). cbn in Hu.
  apply Z.leb_le in Hu. by rewrite (ro_time _ _ Hr) in Hu.
Qed.

(** What the fast way to count relies on for visibility. *)
Lemma fast_count_visible f pk ev :
  fast_count f pk = true → filter_accepts f ev → lower_text pk → lower_text (pubkey (event ev)) → may_see (event ev) pk.
Proof.
  intros Hfast Ha Hpk Hev. unfold fast_count in Hfast. rewrite !andb_true_iff, !negb_true_iff in Hfast. destruct Hfast as [[[_ Hauth] Hres] Hshared].
  split; [|split].
  - intros Hk. apply (can_match_kind _ f) in Hk; [|done]. unfold filter_can_match_author_only_kinds in Hauth. rewrite Hk in Hauth.
    cbn in Hauth. apply (authors_are_reader_pubkey f pk ev) in Hauth; [|done]. congruence.
  - intros Hk. apply (can_match_kind _ f) in Hk; [|done]. unfold filter_can_match_shared_gated_kinds in Hshared. congruence.
  - intros Hk. apply (can_match_kind _ f) in Hk; [|done]. unfold filter_can_match_result_gated_kinds in Hres. rewrite Hk in Hres.
    apply negb_false_iff in Hres. by apply (p_names_reader_carries f pk ev).
Qed.

Lemma count_where_exact c pk acc f db k r :
  uuid_round_trip → countable f → fast_count f pk = true → lower_text pk → kinds f ≠ Some [] →
  (∀ chs, extract_channel_ids_from_filters [f] = Some chs → filter (λ ch, ch ∈ acc) chs ≠ []) →
  (k_community k = c → row_ok k r ∧ canonical db k r ∧ e_tags_plain f (er_event r)) →
  count_where (count_query c pk acc f) db k r = true ↔ counts c pk acc f k r.
Proof.
  intros Hu Hf Hfast Hpk Hk Hne Hrow. unfold count_where. rewrite andb_true_iff, common_conditions_split.
  rewrite count_query_community, count_query_channel, count_query_content by done.
  destruct (count_query_rest c pk acc f) as (-> & _). split.
  - intros [(Hlive & Hscope & Hcontent) Huntil]. destruct (Hrow (proj1 Hlive)) as (Hr & Hcan & He).
    assert (filter_accepts f (row_event r)) as Ha.
    { assert (filter_fully_pushable f = true) as Hp by (unfold fast_count in Hfast; rewrite !andb_true_iff in Hfast; apply Hfast).
      destruct (content_exact f _ c db k r Hf Hr Hcan He (proj1 Hlive) Hp Hk Hcontent) as (H1 & H2 & H3 & H4 & H5).
      split; [done|]. split; [done|]. split; [done|]. split; [by apply (until_exact f k r)|]. split; [done|]. intros x vs Hx.
      destruct (String.eqb_spec x "h") as [->|Hxh]; [by eapply scope_accepts|]. left. by apply (H5 x vs). }
    split; [done|]. split; [done|]. split; [by eapply scope_channels|]. apply (fast_count_visible f pk (row_event r)); try done. exact (ca_author _ _ _ Hcan).
  - intros (Hlive & Ha & Hacc & Hsee). destruct (Hrow (proj1 Hlive)) as (Hr & Hcan & He). pose proof (ca_findable _ _ _ Hcan) as Hi.
    split; [split; [done|split]|].
    + by apply (counts_in_scope db f acc k r).
    + apply content_keeps; try done; [by apply Hf|apply Hlive].
    + apply field_ok_spec. intros t Ht. by eapply until_keeps; [apply Hf|..].
Qed.

(** The candidates of the slow way hold all that is counted, and nothing from
    other channels. *)
Lemma candidates_exact c pk acc f db k r :
  uuid_round_trip → countable f →
  (∀ chs, extract_channel_ids_from_filters [f] = Some chs → filter (λ ch, ch ∈ acc) chs ≠ []) →
  (k_community k = c → row_ok k r ∧ canonical db k r) →
  query_where (count_query c pk acc f) db k r = true ∧ counted f pk (row_event r) = true ↔ counts c pk acc f k r.
Proof.
  intros Hu Hf Hne Hrow. unfold query_where, counted. rewrite !andb_true_iff, common_conditions_split, event_visible_spec.
  rewrite count_query_community, count_query_channel, count_query_content by done.
  destruct (count_query_rest c pk acc f) as (-> & -> & -> & _ & _ & Hreader & _).
  assert (filters_match [f] (row_event r) = true ↔ filter_accepts f (row_event r)) as ->.
  { rewrite filters_match_spec. split; [intros (f' & Hf'%list_elem_of_singleton & Ha); congruence|]. intros Ha. exists f. split; [by apply list_elem_of_singleton|done]. }
  split.
  - intros [[[[(Hlive & Hscope & _) _] _] _] [Ha Hsee]]. split; [done|]. split; [done|]. split; [by eapply scope_channels|done].
  - intros (Hlive & Ha & Hacc & Hsee). destruct (Hrow (proj1 Hlive)) as (Hr & Hcan). pose proof (ca_findable _ _ _ Hcan) as Hi.
    split; [split; [split; [split; [split; [done|split]|]|]|]|done].
    + by apply (counts_in_scope db f acc k r).
    + apply content_keeps; try done; [by apply Hf|apply Hlive].
    + done.
    + apply field_ok_spec. intros t Ht. by eapply until_keeps; [apply Hf|..].
    + unfold shared_gate_condition. rewrite Hreader. destruct (filter_can_match_shared_gated_kinds f); [|done]. by apply shared_gate_keeps.
Qed.

(** ** Numbers *)

Definition counts_row (c : Uuid) (pk : string) (acc : list Uuid) (f : Filter) (kr : RowKey * EventRow) : bool :=
  (k_community kr.1 =? c)%N && negb (er_deleted kr.2) && filter_match_one f (row_event kr.2) &&
  match er_channel_id kr.2 with Some ch => bool_decide (ch ∈ acc) | None => true end && event_visible_to_reader (er_event kr.2) pk.

Lemma counts_row_spec c pk acc f k r : counts_row c pk acc f (k, r) = true ↔ counts c pk acc f k r.
Proof.
  unfold counts_row, counts, live_row. cbn [fst snd]. rewrite !andb_true_iff, N.eqb_eq, negb_true_iff, filter_match_one_spec, event_visible_spec.
  destruct (er_channel_id r) as [ch|]; [rewrite bool_decide_eq_true|]; naive_solver.
Qed.

(** The number of events of one filter. *)
Definition visible_count (c : Uuid) (pk : string) (acc : list Uuid) (f : Filter) (db : ReadDb) : Z :=
  Z.of_nat (length (filter (λ kr, counts_row c pk acc f kr = true) (map_to_list (rows db)))).

Lemma visible_count_none c pk acc f db :
  (∀ k r, rows db !! k = Some r → ¬ counts c pk acc f k r) → visible_count c pk acc f db = 0%Z.
Proof.
  intros H. unfold visible_count. rewrite filter_nil; [done|]. apply Forall_forall. intros [k r] Hk%elem_of_map_to_list. rewrite counts_row_spec. auto.
Qed.

Lemma fast_number c pk acc f db :
  uuid_round_trip → countable f → fast_count f pk = true → lower_text pk →
  (∀ chs, extract_channel_ids_from_filters [f] = Some chs → filter (λ ch, ch ∈ acc) chs ≠ []) →
  (∀ k r, rows db !! k = Some r → k_community k = c → row_ok k r ∧ canonical db k r ∧ e_tags_plain f (er_event r)) →
  count_events_on (count_query c pk acc f) db = Ok (visible_count c pk acc f db).
Proof.
  intros Hu Hf Hfast Hpk Hne Hrows. unfold count_events_on.
  destruct (count_query_rest c pk acc f) as (_ & _ & _ & _ & _ & _ & ->). destruct (is_empty_list (kinds f)) eqn:Ek.
  - rewrite visible_count_none; [done|]. intros k r _ (_ & (Hk & _) & _). destruct (kinds f) as [[|]|]; try done.
    specialize (Hk _ eq_refl). set_solver.
  - unfold visible_count. do 3 f_equal. apply filter_ext. intros [k r] Hin%elem_of_map_to_list. cbn [fst snd].
    rewrite counts_row_spec. apply count_where_exact; try done; [by intros Hk; rewrite Hk in Ek|]. intros Hc. by apply Hrows.
Qed.

Lemma fallback_answer c pk acc f db :
  rows_ok c db →
  query_events_on (apply_count_fallback_limit (count_query c pk acc f)) db =
    if is_empty_list (kinds f) then Ok []
    else Ok (row_event ∘ snd <$> take (Z.to_nat (COUNT_FALLBACK_CANDIDATE_LIMIT + 1)) (selected (count_query c pk acc f) db)).
Proof.
  intros Hrows. destruct (count_query_rest c pk acc f) as (_ & Hb & _ & Ho & Hg & _ & Hm).
  pose proof (count_query_community c pk acc f) as Hc. set (q := count_query c pk acc f) in *. unfold query_events_on.
  change (q_before_id (apply_count_fallback_limit q)) with (q_before_id q). change (q_global_only (apply_count_fallback_limit q)) with (q_global_only q).
  change (matches_nothing (apply_count_fallback_limit q)) with (matches_nothing q). change (q_offset (apply_count_fallback_limit q)) with (q_offset q).
  change (selected (apply_count_fallback_limit q) db) with (selected q db).
  change (page_limit (apply_count_fallback_limit q)) with (COUNT_FALLBACK_CANDIDATE_LIMIT + 1)%Z.
  rewrite Hb, Hg, Ho, Hm. rewrite bool_decide_eq_false_2 by (by intros [? [=]]). cbn [andb default from_option].
  destruct (is_empty_list (kinds f)); [done|]. change ((COUNT_FALLBACK_CANDIDATE_LIMIT + 1 <? 0)%Z || (0 <? 0)%Z) with false. cbn iota.
  rewrite drop_0. apply collect_row_events, Forall_forall. intros [k r] Hin. apply list_elem_of_lookup in Hin as [j Hj].
  apply lookup_take_Some in Hj as [Hj%list_elem_of_lookup_2 _]. apply selected_community in Hj as [Hk Hcom]. apply Hrows; [done|]. cbn. congruence.
Qed.

Lemma slow_number c pk acc f db :
  uuid_round_trip → countable f →
  (∀ chs, extract_channel_ids_from_filters [f] = Some chs → filter (λ ch, ch ∈ acc) chs ≠ []) →
  (∀ k r, rows db !! k = Some r → k_community k = c → row_ok k r ∧ canonical db k r) →
  Z.of_nat (length (List.filter (counted f pk) (row_event ∘ snd <$> selected (count_query c pk acc f) db))) = visible_count c pk acc f db.
Proof.
  intros Hu Hf Hne Hrows. unfold visible_count, selected. f_equal.
  assert (∀ l : list (RowKey * EventRow), length (List.filter (counted f pk) (row_event ∘ snd <$> l)) = length (filter (λ kr, counted f pk (row_event kr.2) = true) l)) as ->.
  { intros l. induction l as [|kr l IH]; [done|]. cbn [fmap list_fmap List.filter]. rewrite filter_cons. unfold compose at 1.
    destruct (counted f pk (row_event kr.2)); cbn [decide]; [|by rewrite decide_False by done]. rewrite decide_True by done. cbn. by f_equal. }
  rewrite merge_sort_Permutation, list_filter_filter. f_equal. apply filter_ext. intros [k r] Hin%elem_of_map_to_list. cbn [fst snd].
  rewrite counts_row_spec, <- (candidates_exact c pk acc f db k r); [tauto|done..|]. intros Hc. by apply Hrows.
Qed.

(** ** The run of a count *)

Context (env : Answers read_sig) (db : ReadDb).
Context (sub : string) (conn : ConnectionState) (ctx : AuthContext) (known : list Uuid).
Abbreviation Run := (Trace read_sig) (only parsing).
Abbreviation pk := (ctx_pubkey ctx) (only parsing).
Abbreviation c := (cn_community conn) (only parsing).

(** The database and the caches answer for one state: statements run on [db],
    and the reader's channels are known, so that no membership is found that is
    not among them. *)
Record settled : Prop := {
  st_count : ∀ h q, env h (CountEventsRouted q) = count_events_on q db;
  st_query : ∀ h q, env h (QueryEventsRoutedBounded q) = query_events_on q db;
  st_known : ∀ h, env h (GetAccessibleChannelIdsCached c pk) = Some known;
  st_members : ∀ h ch, ∃ m, env h (ConfirmMember c ch pk) = Some m ∧ (m = true → ch ∈ known)
}.

(** The rows and the filters are as a count relies on. *)
Record well_kept (fs : list Filter) : Prop := {
  wk_uuids : uuid_round_trip;
  wk_filters : ∀ f, f ∈ fs → countable f;
  wk_rows : ∀ k r, rows db !! k = Some r → k_community k = c →
    row_ok k r ∧ canonical db k r ∧ ∀ f, f ∈ fs → e_tags_plain f (er_event r);
  wk_reader : lower_text pk
}.

(** The request was refused for a filter that needs too many candidates. *)
Definition too_broad (fs : list Filter) (acc : list Uuid) (h : Run) : Prop :=
  asked_for (Send (Closed sub "restricted: count filter requires narrower constraints")) h ∧
  ∃ f, f ∈ fs ∧ fast_count f pk = false ∧ (COUNT_FALLBACK_CANDIDATE_LIMIT < Z.of_nat (length (selected (count_query c pk acc f) db)))%Z.

Lemma too_broad_here fs acc f x h :
  f ∈ fs → fast_count f pk = false → (COUNT_FALLBACK_CANDIDATE_LIMIT < Z.of_nat (length (selected (count_query c pk acc f) db)))%Z →
  too_broad fs acc (Answered (S := read_sig) (Send (Closed sub "restricted: count filter requires narrower constraints")) x :: h).
Proof. intros Hf Hn Hl. split; [left|]. by exists f. Qed.

Lemma count_one_number fs acc f fast_query h :
  settled → well_kept fs → f ∈ fs →
  (∀ chs, extract_channel_ids_from_filters [f] = Some chs → filter (λ ch, ch ∈ acc) chs ≠ []) →
  count_events_on fast_query db = count_events_on (count_query c pk acc f) db →
  along env (count_one sub f pk fast_query (count_query c pk acc f))
    (λ r h', match r with Some n => n = visible_count c pk acc f db | None => too_broad fs acc h' end) h.
Proof.
  intros Hst Hwk Hf Hne Hfq. pose proof (wk_filters _ Hwk f Hf) as Hcf.
  assert (∀ k r, rows db !! k = Some r → k_community k = c → row_ok k r ∧ canonical db k r ∧ e_tags_plain f (er_event r)) as Hrows.
  { intros k r Hk Hc. destruct (wk_rows _ Hwk k r Hk Hc) as (H1 & H2 & H3). auto. }
  unfold count_one. destruct (fast_count f pk) eqn:Efast.
  - apply (along_req env (CountEventsRouted _)). rewrite (st_count Hst), Hfq.
    rewrite (fast_number c pk acc f db (wk_uuids _ Hwk) Hcf Efast (wk_reader _ Hwk) Hne Hrows). by apply along_return.
  - apply (along_req env (QueryEventsRoutedBounded _)). rewrite (st_query Hst), fallback_answer by (intros k r Hk Hc; by apply Hrows).
    assert (∀ k r, rows db !! k = Some r → k_community k = c → row_ok k r ∧ canonical db k r) as Hrows' by (intros k r Hk Hc; by destruct (Hrows k r Hk Hc) as (? & ? & _)).
    destruct (is_empty_list (kinds f)) eqn:Ek; cbn iota.
    + apply along_return. symmetry. apply visible_count_none. intros k r _ (_ & (Hkinds & _) & _).
      destruct (kinds f) as [[|]|]; try done. specialize (Hkinds _ eq_refl). set_solver.
    + unfold count_fallback_exceeded. rewrite length_fmap, length_take.
      destruct (Z.ltb_spec COUNT_FALLBACK_CANDIDATE_LIMIT (Z.of_nat (Nat.min (Z.to_nat (COUNT_FALLBACK_CANDIDATE_LIMIT + 1))
        (length (selected (count_query c pk acc f) db))))) as [Hlt|Hge].
      * apply (along_req env (Send _)), along_return. apply (too_broad_here fs acc f); [done..|]. unfold COUNT_FALLBACK_CANDIDATE_LIMIT in *. lia.
      * apply along_return. rewrite take_ge by (unfold COUNT_FALLBACK_CANDIDATE_LIMIT in *; lia).
        by apply slow_number; [apply Hwk|..].
Qed.

(** With settled channels, confirming changes nothing. *)
Lemma confirm_settled requested h :
  settled → let acc := narrow (ctx_channel_ids ctx) known in
  along env (confirm_channels c pk (ctx_channel_ids ctx) requested acc) (λ r _, r = Some acc) h.
Proof.
  intros Hst acc. revert h. induction requested as [|ch requested IH]; intros h; cbn [confirm_channels]; [done|].
  assert (∀ m, (token_allows (ctx_channel_ids ctx) ch = true → m = Some true → ch ∈ acc) →
    (resolve_request_local_access acc ch (token_allows (ctx_channel_ids ctx) ch) m).2 = acc) as Hres.
  { intros m Hm. unfold resolve_request_local_access. destruct (token_allows _ ch); cbn; [|done]. case_bool_decide; [done|].
    destruct m as [[]|]; [|done..]. by specialize (Hm eq_refl eq_refl). }
  destruct (negb _ || _) eqn:E.
  - rewrite Hres by done. apply IH.
  - apply (along_req env (ConfirmMember _ _ _)). destruct (st_members Hst h ch) as (m & Hm & Hin). rewrite Hm.
    rewrite Hres; [apply IH|]. intros Ht [= ->]. apply narrow_elem. split; [auto|]. by apply token_allows_spec.
Qed.

Definition total_count (fs : list Filter) : Z := foldr Z.add 0%Z ((λ f, visible_count c pk (narrow (ctx_channel_ids ctx) known) f db) <$> fs).

Definition counted_or_refused (all fs : list Filter) (total : Z) (h : Run) : Prop :=
  asked_for (Send (CountMsg sub (total + total_count fs))) h ∨ too_broad all (narrow (ctx_channel_ids ctx) known) h.

Lemma count_filters_number all fs total h :
  settled → well_kept all → (∀ f, f ∈ fs → f ∈ all) →
  along env (count_filters sub conn ctx fs (narrow (ctx_channel_ids ctx) known) total) (λ _, counted_or_refused all fs total) h.
Proof.
  intros Hst Hwk. set (acc := narrow (ctx_channel_ids ctx) known). revert total h.
  induction fs as [|f fs IH]; intros total h Hfs; cbn [count_filters].
  { apply (along_req env (Send _)), along_return. left. unfold total_count. cbn. rewrite Z.add_0_r. left. }
  assert (∀ n h', n = visible_count c pk acc f db →
    along env (count_filters sub conn ctx fs acc (total + n)) (λ _, counted_or_refused all (f :: fs) total) h') as Hgo.
  { intros n h' ->. eapply along_mono; [|apply IH; intros g Hg; apply Hfs; by right].
    intros _ h2 [Hs|Hb]; [left|by right]. unfold total_count in *. cbn. rewrite Z.add_assoc. exact Hs. }
  assert (∀ fast_query h', count_events_on fast_query db = count_events_on (count_query c pk acc f) db →
    (∀ chs, extract_channel_ids_from_filters [f] = Some chs → filter (λ ch, ch ∈ acc) chs ≠ []) →
    along env (n ← count_one sub f pk fast_query (count_query c pk acc f);
               match n with Some n => count_filters sub conn ctx fs acc (total + n) | None => mret tt end)
      (λ _, counted_or_refused all (f :: fs) total) h') as Hone.
  { intros fast_query h' Hfq Hne. apply along_bind. eapply along_mono; [|apply (count_one_number all); try done; apply Hfs; left].
    intros [n|] h2 Hr; [by apply Hgo|]. by right. }
  assert (countable f) as Hcf by (apply (wk_filters _ Hwk), Hfs; left).
  destruct (extract_channel_ids_from_filters [f]) as [requested|] eqn:Ereq.
  - apply along_bind. eapply along_mono; [|by apply confirm_settled]. intros r h1 ->. cbn iota. fold acc.
    destruct (filter (λ ch, ch ∈ acc) requested) as [|x l] eqn:Eauth.
    + pose proof (Hgo 0%Z h1) as Hz. rewrite Z.add_0_r in Hz. apply Hz. symmetry. apply visible_count_none. intros k r Hk (Hlive & Ha & Hacc & _).
      destruct (wk_rows _ Hwk k r Hk (proj1 Hlive)) as (_ & Hcan & _).
      destruct (tag_filter "h" f) as [vs|] eqn:Ev; [|apply no_channels in Ev; congruence].
      destruct (requested_channels f vs Hcf Ev) as (Hex & _ & _). assert (requested = omap uuid_parse vs) as -> by congruence.
      destruct (accepted_channel db f k r vs (wk_uuids _ Hwk) (ca_findable _ _ _ Hcan) Ha Ev) as (v & ch & Hv & Hch & Hp).
      assert (ch ∈ filter (λ ch, ch ∈ acc) (omap uuid_parse vs)) as Hin; [|rewrite Eauth in Hin; set_solver].
      apply list_elem_of_filter. split; [by apply Hacc|]. apply list_elem_of_omap. by exists v.
    + assert (channel_count_query c pk acc requested (x :: l) f = count_query c pk acc f) as Hq by (unfold count_query; by rewrite Ereq, Eauth).
      rewrite Hq. apply Hone; [done|]. intros chs [= <-]. by rewrite Eauth.
  - assert (global_count_query c pk acc f = count_query c pk acc f) as Hq by (unfold count_query; by rewrite Ereq).
    rewrite Hq. by apply Hone.
Qed.

End counting.

(** ** Properties *)

(** C40: A count is exact and tells only of what its reader may see, for a count that passes the
    gates, with at most 128 channel values, under these conditions. Filters: no empty list of
    authors, ids or tag values; each #h lists channels without repetition, printed as the relay
    prints them; until and since below 2^63 and representable; ids of 64 digits; a single #p
    value is 64 lower-case hex digits; no empty #d value. Rows: intact, with lower-case keys
    (the reader's too), mentions indexed exactly, h tag naming the channel, one d tag at most; a
    #e value stands in them only as the value of an e tag. The statements run on one database,
    and the cached channels of the reader are complete. Then the answer is the sum over the
    filters of the number of live events of the community that the filter accepts, that are in a
    channel open to the reader or in none, and that the reader may see, whether the database
    counted them or the relay; or the count is refused because a filter that the database cannot
    count alone has more than 5000 candidates. Without them it may count more
    (ReadSamples.SampleRead.empty_author_list_counts_everything,
    misspelt_channel_counts_everything). *)
Theorem count_is_exact {L : NostrLib} {NT : NostrTagLaws L} {T : TimeRange} {D : RowDecode} {U : UuidParse}
    (env : Answers read_sig) db sub fs conn ctx known msg :
  settled env db conn ctx known → well_kept db conn ctx fs → env [] ReadAuthState = Authenticated ctx →
  global_gate msg fs (ctx_pubkey ctx) = None → (explicit_values fs ≤ MAX_EXPLICIT_CHANNEL_VALUES)%nat →
  let '(_, h) := run_program env (handle_count sub fs conn) [] in counted_or_refused db sub conn ctx known fs fs 0 h.
Proof.
  intros Hst Hwk Hauth Hgate Hvals.
  enough (along env (handle_count sub fs conn) (λ _, counted_or_refused db sub conn ctx known fs fs 0) []) as Hrun by exact Hrun.
  unfold handle_count. apply (along_req env ReadAuthState). rewrite Hauth.
  assert (global_gate "restricted: p-gated kinds require #p tag matching your pubkey" fs (ctx_pubkey ctx) = None) as ->.
  { unfold global_gate in *. destruct (p_gated_filters_authorized _ _); [|done]. exact Hgate. }
  unfold extract_channel_ids_from_filters_limited. rewrite (proj2 (Nat.ltb_ge _ _)) by done.
  apply (along_req env (GetAccessibleChannelIdsCached _ _)). rewrite (st_known _ _ _ _ _ Hst).
  by apply count_filters_number.
Qed.
