(* ===== verification/ReadSamples.v ===== *)
(** * Subscriptions and counts evaluated

    A community with four events, and the handlers run on it: the witnesses of
    [ReadHistory] and [ReadCount], and what is counted when a [#h] value is not
    a channel. *)
From S2P Require Import Prelude Nostr Kinds EventFilter SubRegistry Program IngestPolicy IngestRequests ThreadStore.
From S2P Require Import ReadQuery ReadFilter ReadDoors ReadProps ReadPushdown ReadHistory ReadCount.

Module SampleRead.

#[local] Instance text : NostrLib := text_lib.
#[local] Instance text_tags : NostrTagLaws text_lib.
Proof. split; [|done]. intros t k rest H. simpl in *. by subst t. Qed.
#[local] Instance all_times : TimeRange := {| in_time_range := λ _, true |}.
#[local] Instance plain_rows : RowDecode := {| event_from_row := Some |}.
Definition is_binary (s : string) : bool := str_forall (λ c, Ascii.eqb c "0" || Ascii.eqb c "1") s.
#[local] Instance binary_uuids : UuidParse :=
  {| uuid_parse := λ s, if is_binary s then Some (Pos.pred_N (parse_pos s)) else None |}.

Lemma binary_round_trip : uuid_round_trip.
Proof.
  intros u. cbn [uuid_parse binary_uuids uuid_to_string text text_lib].
  assert (∀ p, is_binary (print_pos p) = true) as -> by (induction p as [p IH|p IH|]; [exact IH..|done]).
  by rewrite parse_print_pos, N.pos_pred_succ.
Qed.

(** ** The community *)

Fixpoint repeated (n : nat) (a : ascii) : string := match n with O => "" | S n => String a (repeated n a) end.

Definition row (i : ascii) (author : string) (k : Z) (ch : option N) (at_ : Z) : RowKey * EventRow :=
  ((100%N, at_, repeated 64 i),
   {| er_event := {| Nostr.id := repeated 64 i; pubkey := author; created_at := at_; kind := k;
                     tags := match ch with Some ch => [["h"; uuid_to_string ch]] | None => [] end; content := "" |};
      er_received_at := at_; er_channel_id := ch; er_deleted := false |}).

(** Two messages in channel 7, one in channel 8, and two reminders. *)
Definition sample_rows : list (RowKey * EventRow) :=
  [row "a" "alice" 9 (Some 7%N) 10; row "b" "reader" 9 (Some 7%N) 20; row "c" "alice" 9 (Some 8%N) 30;
   row "d" "alice" KIND_EVENT_REMINDER None 40; row "e" "reader" KIND_EVENT_REMINDER None 50].
Definition sample_db : ReadDb := {| rows := list_to_map sample_rows; event_mentions := ∅ |}.

Lemma sample_row k r : rows sample_db !! k = Some r → (k, r) ∈ sample_rows.
Proof. apply elem_of_list_to_map_2. Qed.

Lemma row_carries i author k ch at_ name v :
  carries (er_event (row i author k ch at_).2) name v → name = "h" ∧ ∃ c, ch = Some c ∧ v = uuid_to_string c.
Proof.
  intros (t & Ht & Hk & Hc). destruct ch as [c|]; [|by apply not_elem_of_nil in Ht]. apply list_elem_of_singleton in Ht. subst t.
  cbn in Hk, Hc. split; [done|]. exists c. split; [done|]. by injection Hc as <-.
Qed.

Lemma row_is_canonical i author k ch at_ : lower_text author → canonical sample_db (row i author k ch at_).1 (row i author k ch at_).2.
Proof.
  intros Ha. split.
  - split.
    + intros v Hv. by apply row_carries in Hv as [? _].
    + intros v Hv. apply row_carries in Hv as [_ (c & -> & ->)]. exists c. split; [done|]. apply binary_round_trip.
    + destruct ch; cbn; lia.
  - intros m Hm. set_solver.
  - intros v Hv. by apply row_carries in Hv as [? _].
  - intros c Hc Hh. cbn in Hc. subst ch. exists ["h"; uuid_to_string c]. split; [left|done].
  - exact Ha.
Qed.

Lemma row_is_kept i author kd ch at_ k r :
  (k, r) = row i author kd ch at_ → lower_text author → (0 ≤ at_ < 2 ^ 63)%Z → (0 ≤ kd < 65536)%Z → row_ok k r ∧ canonical sample_db k r.
Proof. intros [= -> ->] Ha Ht Hk. split; [by split|]. exact (row_is_canonical i author kd ch at_ Ha). Qed.

Lemma rows_are_kept k r : rows sample_db !! k = Some r → row_ok k r ∧ canonical sample_db k r.
Proof.
  intros Hk%sample_row. unfold sample_rows in Hk. rewrite !elem_of_cons in Hk.
  destruct Hk as [Hk|[Hk|[Hk|[Hk|[Hk|Hk%not_elem_of_nil]]]]]; [..|done]; by apply row_is_kept in Hk.
Qed.

(** ** The reader *)

Definition ctx : AuthContext := {| ctx_pubkey := "reader"; ctx_scopes := [MessagesRead]; ctx_channel_ids := None |}.
Definition conn : ConnectionState := {| cn_conn_id := 1; cn_community := 100; cn_mesh := false; cn_huddle_generation := 0 |}.
Definition env : Answers read_sig := λ h r,
  match r return ReadAns r with
  | ReadAuthState => Authenticated ctx
  | SubscriptionIds => []
  | InsertSubscription _ _ | RetainTopic _ | ReleaseTopic _ => tt
  | Send _ => true
  | GetAccessibleChannelIdsCached _ _ => Some [7%N]
  | ConfirmMember _ _ _ => Some false
  | RegisterChannelsScoped _ _ _ _ _ | RegisterGlobal _ _ _ _ => None
  | QueryEventsRouted q | QueryEventsRoutedBounded q => query_events_on q sample_db
  | CountEventsRouted q => count_events_on q sample_db
  | SearchEvents _ => None
  | GetEventsByIdsRouted _ _ => None
  | HuddleStartedLinks _ _ _ => None
  | DirectoryLookup _ _ => None
  | AudioRoomInUse _ _ => false
  | BuildLiveness _ _ _ => TagsInvalid
  end.

Definition of_kinds (ks : list Z) (h : option (list string)) : Nostr.Filter := {|
  ids := None; authors := None; kinds := Some ks; since := None; until := None;
  generic_tags := match h with Some h => {["h" := h]} | None => ∅ end; search := None; limit := None |}.

(** The messages of channel 7, and messages and reminders everywhere. *)
Definition in_seven : Nostr.Filter := of_kinds [9%Z] (Some [uuid_to_string 7]).
Definition everywhere : Nostr.Filter := of_kinds [9%Z; KIND_EVENT_REMINDER] None.
Definition filters : list Nostr.Filter := [in_seven; everywhere].

Lemma tag_filter_of x ks h vs : tag_filter x (of_kinds ks h) = Some vs → x = "h" ∧ h = Some vs.
Proof.
  unfold tag_filter, of_kinds. cbn. destruct h as [h|]; [|by rewrite lookup_empty]. intros [-> ->]%lookup_singleton_Some. done.
Qed.

Lemma of_kinds_ok ks h : filter_ok (of_kinds ks h).
Proof. split; try done. intros v Hv. by apply tag_filter_of in Hv as [? _]. Qed.

Lemma of_kinds_countable ks h :
  (∀ vs, h = Some vs → vs ≠ [] ∧ NoDup vs ∧ ∀ v, v ∈ vs → ∃ ch, v = uuid_to_string ch) → countable (of_kinds ks h).
Proof.
  intros Hh. split; try done.
  - apply of_kinds_ok.
  - intros x Hx. apply tag_filter_of in Hx as [-> ->]. by destruct (Hh [] eq_refl).
  - intros vs Hv. apply tag_filter_of in Hv as [_ ->]. destruct (Hh vs eq_refl) as (_ & Hn & Hv). split; [done|].
    intros v Hin. destruct (Hv v Hin) as (ch & ->). exists ch. split; [apply binary_round_trip|done].
  - intros v Hv. by apply tag_filter_of in Hv as [? _].
  - intros vs Hv. by apply tag_filter_of in Hv as [? _].
Qed.

(** What is sent, oldest first. *)
Definition sent_ids (h : Trace read_sig) : list string :=
  reverse (omap (λ x, match asked (S := read_sig) x with Send (EventMsg _ e) => Some (String.substring 0 1 (Nostr.id e)) | _ => None end) h).

(** The newer of the messages first, then the reader's own reminder; nothing
    twice, nothing of channel 8 and no reminder of somebody else. *)
Example subscription_run : sent_ids (run_program env (handle_req "s" filters [None; None] conn) []).2 = ["b"; "a"; "e"].
Proof. vm_compute. reflexivity. Qed.

Lemma subscription_is_answered_in_full_witness :
  let '(_, h) := run_program env (handle_req "s" filters [None; None] conn) [] in
  closed h ∨ dropped h ∨ (ended h ∧ answered_in_full sample_db conn ctx filters [None; None] h).
Proof.
  apply (subscription_is_answered_in_full env sample_db "s" filters [None; None] conn ctx).
  - exact binary_round_trip.
  - intros k r Hk _. by apply rows_are_kept.
  - intros [|[|i]] f Hf; try done; injection Hf as <-; (split; [apply of_kinds_ok|done]).
  - reflexivity.
  - reflexivity.
  - reflexivity.
Defined.

Lemma count_is_exact_witness :
  let '(_, h) := run_program env (handle_count "s" filters conn) [] in counted_or_refused sample_db "s" conn ctx [7%N] filters filters 0 h.
Proof.
  apply (count_is_exact env sample_db "s" filters conn ctx [7%N] "").
  - split; try done. intros h ch. by exists false.
  - split; [exact binary_round_trip| | |done].
    + intros f Hf. unfold filters in Hf. apply elem_of_cons in Hf as [->|Hf%list_elem_of_singleton]; [|subst f]; apply of_kinds_countable; [|done].
      intros vs [= <-]. split; [done|]. split; [apply NoDup_singleton|]. intros v ->%list_elem_of_singleton. by exists 7%N.
    + intros k r Hk _. destruct (rows_are_kept k r Hk) as [H1 H2]. split; [done|]. split; [done|].
      intros f Hf vs v Hv. unfold filters in Hf. apply elem_of_cons in Hf as [->|Hf%list_elem_of_singleton]; [|subst f];
        by apply tag_filter_of in Hv as [? _].
  - reflexivity.
  - reflexivity.
  - vm_compute. lia.
Defined.

Definition answered_count (fs : list Nostr.Filter) : option RelayMessage :=
  match head (run_program env (handle_count "s" fs conn) []).2 with
  | Some x => match asked (S := read_sig) x with Send m => Some m | _ => None end
  | None => None
  end.

(** Two messages for the first filter; the same and the reader's reminder for
    the second. *)
Example count_run : answered_count filters = Some (CountMsg "s" 5).
Proof. vm_compute. reflexivity. Qed.

(** Two values of [#h] of which one is not a channel: the query is made
    without a channel, since there are two values, and is not narrowed, since
    there is one channel.  So the message of channel 8 is counted, which the
    reader may not see. *)
Theorem misspelt_channel_counts_everything :
  answered_count [of_kinds [9%Z] (Some [uuid_to_string 7; "?"])] = Some (CountMsg "s" 3) ∧
  visible_count 100 "reader" [7%N] (of_kinds [9%Z] (Some [uuid_to_string 7; "?"])) sample_db = 2%Z.
Proof. vm_compute. done. Qed.

(** An empty list of authors matches nothing, but has no condition in the
    statement: both messages of channel 7 are counted. *)
Definition by_nobody : Nostr.Filter := {|
  ids := None; authors := Some []; kinds := Some [9%Z]; since := None; until := None; generic_tags := ∅; search := None; limit := None |}.
Theorem empty_author_list_counts_everything :
  answered_count [by_nobody] = Some (CountMsg "s" 2) ∧ visible_count 100 "reader" [7%N] by_nobody sample_db = 0%Z.
Proof. vm_compute. done. Qed.

(** Bounds that do not fit into [i64] wrap around: an upper bound at the end of
    time hides every event, and with the largest limit nothing is found. *)
Definition bounded (u : option Z) (l : option N) : Nostr.Filter := {|
  ids := None; authors := None; kinds := Some [9%Z]; since := None; until := u; generic_tags := ∅; search := None; limit := l |}.
Theorem wrapped_bounds_hide_events :
  sent_ids (run_program env (handle_req "s" [bounded None None] [None] conn) []).2 = ["b"; "a"] ∧
  filter_match_one (bounded (Some (2 ^ 64 - 1)%Z) None) (row_event (row "a" "alice" 9 (Some 7%N) 10).2) = true ∧
  sent_ids (run_program env (handle_req "s" [bounded (Some (2 ^ 64 - 1)%Z) None] [None] conn) []).2 = [] ∧
  sent_ids (run_program env (handle_req "s" [bounded None (Some (2 ^ 64 - 1)%N)] [None] conn) []).2 = [].
Proof. vm_compute. done. Qed.

End SampleRead.
