(* ===== verification/AuthEvents.v ===== *)
(** * Signed authentication events

    The checks of [maju-auth] ([nip42.rs], [nip98.rs]), the owner attestation of
    [maju-sdk/src/nip_oa.rs] and the device tag of
    [maju-relay/src/device_sessions.rs], on one event and one instant.

    Outside the sources, and parameters here: the [url] crate ([UrlLib]), the
    signatures and keys of the [nostr] crate ([SignatureLib]), and [serde_json]
    on the types that are read and written ([AuthJson]).  A public key is its
    lower-case hex string; [now] is [Timestamp::now] in seconds.  The texts of
    [SdkError] are shortened: they are only logged. *)
From S2P Require Import Prelude Nostr Channel WorkflowTemplate IngestPolicy.
From S2P Require ObjectStore.

(** ** The parts that are not in the sources *)

(** [Url::parse], [host_str], [set_host] (which leaves the URL unchanged when it
    fails), [path], [set_path] and [to_string]; [to_lowercase] of [str]. *)
Class UrlLib : Type := {
  Url : Type;
  url_parse : string → option Url;
  host_str : Url → option string;
  set_host : Url → string → Url;
  url_path : Url → string;
  set_path : Url → string → Url;
  url_to_string : Url → string;
  to_lowercase : string → string
}.

(** [EventId::new] of the fields of an event; [Event::verify_id], [Event::verify_signature]; [PublicKey::from_hex] and
    [xonly], [Signature::from_str], the digest of a text as a message, and
    [verify_schnorr]. *)
Class SignatureLib {L : NostrLib} : Type := {
  event_id : Event → string;
  verify_id : Event → bool;
  verify_signature : Event → bool;
  Message : Type;
  sha256_message : string → Message;
  public_key_from_hex : string → option string;
  xonly : string → option string;
  signature_from_str : string → option string;
  verify_schnorr : string → Message → string → bool
}.
#[global] Arguments SignatureLib L : clear implicits.

(** The JSON of an event, of a list of strings and of an untyped value. *)
Class AuthJson {L : NostrLib} {N : JsonNum} : Type := {
  event_from_json : string → option Event;
  strings_to_json : list string → option string;
  json_from_str : string → option JsonValue
}.
#[global] Arguments AuthJson L N : clear implicits.

Inductive AuthError :=
  | InvalidSignature | ChallengeMismatch | RelayUrlMismatch | EventExpired
  | Nip98Invalid (msg : string) | Nip98Replay | PubkeyMismatch
  | InsufficientScope (required : string) (have : list string) | ChannelAccessDenied | Internal (msg : string).
Inductive SdkError :=
  | ContentTooLarge (max got : N) | InvalidTag (msg : string) | EmojiTooLong | TooManyMentions | InvalidDiffMeta (msg : string)
  | InvalidInput (msg : string).

Definition TIMESTAMP_TOLERANCE_SECS : Z := 60.
Definition KIND_AUTHENTICATION : Z := 22242.
Definition KIND_HTTP_AUTH : Z := 27235.

(** [trim_end_matches('/')]. *)
Fixpoint trim_end_slashes (s : string) : string :=
  match s with
  | EmptyString => EmptyString
  | String c s' =>
      match trim_end_slashes s' with
      | EmptyString => if Ascii.eqb c "/" then EmptyString else String c EmptyString
      | rest => String c rest
      end
  end.

Module Verification.
Inductive VerificationError := InvalidId (computed got : string) | InvalidSignature | Secp (msg : string).
End Verification.

Section events.
Context {L : NostrLib} {UL : UrlLib} {SL : SignatureLib L} {JN : JsonNum} {AJ : AuthJson L JN} {DL : ObjectStore.DigestLib} {U : UuidParse}.

(** ** Verification ([maju-core/src/verification.rs]) *)

Definition verify_event (e : Event) : result Verification.VerificationError unit :=
  if negb (verify_id e) then Err (Verification.InvalidId (event_id e) (Nostr.id e))
  else if negb (verify_signature e) then Err Verification.InvalidSignature
  else Ok tt.

(** [tags.find(kind)] and [tags.iter().filter(|t| t.kind() == kind).count()]. *)
Definition find_tag (k : string) (e : Event) : option Tag := List.find (λ t, (tag_kind t =? k)%string) (tags e).
Definition tag_value (k : string) (e : Event) : option string := t ← find_tag k e; tag_content t.
Definition count_tags (k : string) (e : Event) : nat := length (List.filter (λ t, (tag_kind t =? k)%string) (tags e)).

Definition outside_window (now : Z) (e : Event) : bool := (TIMESTAMP_TOLERANCE_SECS <? Z.abs (now - created_at e))%Z.

(** ** NIP-42 *)

Definition normalize_relay_url (raw : string) : string :=
  match url_parse raw with
  | None => raw
  | Some parsed =>
      let parsed := match host_str parsed with
                    | Some h => if (h =? "localhost")%string || (h =? "::1")%string then set_host parsed "127.0.0.1" else parsed
                    | None => parsed
                    end in
      url_to_string (set_path parsed (trim_end_slashes (url_path parsed)))
  end.

Definition verify_nip42_event (now : Z) (e : Event) (expected_challenge relay_url : string) : result AuthError unit :=
  if negb (kind e =? KIND_AUTHENTICATION)%Z then Err InvalidSignature
  else match verify_event e with
  | Err _ => Err InvalidSignature
  | Ok _ =>
      match tag_value "challenge" e with
      | None => Err ChallengeMismatch
      | Some challenge =>
          if negb (challenge =? expected_challenge)%string then Err ChallengeMismatch
          else match tag_value "relay" e with
          | None => Err RelayUrlMismatch
          | Some relay =>
              if negb (normalize_relay_url relay =? normalize_relay_url relay_url)%string then Err RelayUrlMismatch
              else if outside_window now e then Err EventExpired else Ok tt
          end
      end
  end.

(** ** NIP-98 *)

Definition normalize_url (raw : string) : string :=
  match url_parse raw with
  | None => to_lowercase raw
  | Some parsed => url_to_string (set_path parsed (trim_end_slashes (url_path parsed)))
  end.

Definition eq_ignore_ascii_case (s t : string) : bool := (to_ascii_lowercase s =? to_ascii_lowercase t)%string.

(** The payload check: a hash in the event against the body of the request. *)
Definition payload_matches (e : Event) (body : option string) : bool :=
  match tag_value "payload" e, body with
  | Some payload_hex, Some body_bytes => (ObjectStore.sha256_hex body_bytes =? payload_hex)%string
  | _, _ => true
  end.

Definition verify_nip98_event (now : Z) (event_json expected_url expected_method : string) (body : option string) : result AuthError string :=
  match event_from_json event_json with
  | None => Err (Nip98Invalid "event JSON parse error")
  | Some e =>
      if negb (kind e =? KIND_HTTP_AUTH)%Z then Err (Nip98Invalid ("expected kind 27235, got " +:+ pretty (kind e)))
      else match verify_event e with
      | Err _ => Err (Nip98Invalid "invalid Schnorr signature")
      | Ok _ =>
          if outside_window now e then Err (Nip98Invalid "event timestamp outside ±60s window")
          else if negb (count_tags "u" e =? 1)%nat then Err (Nip98Invalid "expected exactly one `u` tag")
          else match tag_value "u" e with
          | None => Err (Nip98Invalid "missing `u` tag")
          | Some u_tag =>
              if negb (normalize_url u_tag =? normalize_url expected_url)%string then Err (Nip98Invalid "URL mismatch")
              else if negb (count_tags "method" e =? 1)%nat then Err (Nip98Invalid "expected exactly one `method` tag")
              else match tag_value "method" e with
              | None => Err (Nip98Invalid "missing `method` tag")
              | Some method_tag =>
                  if negb (eq_ignore_ascii_case method_tag expected_method) then Err (Nip98Invalid "method mismatch")
                  else if (1 <? count_tags "payload" e)%nat then Err (Nip98Invalid "at most one `payload` tag allowed")
                  else if negb (payload_matches e body) then Err (Nip98Invalid "payload tag SHA-256 mismatch")
                  else Ok (pubkey e)
              end
          end
      end
  end.

(** ** NIP-OA: an owner attests an agent *)

Definition is_ascii_whitespace (c : ascii) : bool :=
  existsb (Ascii.eqb c) (ascii_of_nat <$> [9; 10; 12; 13; 32]).

Definition validate_canonical_decimal (s : string) (min max : N) : result SdkError unit :=
  if (s =? "")%string then Err (InvalidInput "value must not be empty")
  else if (1 <? String.length s)%nat && starts_with "0" s then Err (InvalidInput "value has leading zero")
  else if negb (str_forall is_ascii_digit s) then Err (InvalidInput "value is not a valid decimal")
  else match parse_unsigned 64 s with
  | None => Err (InvalidInput "value out of range")
  | Some value => if (value <? min)%N || (max <? value)%N then Err (InvalidInput "value out of range") else Ok tt
  end.

Definition validate_clause (clause : string) : result SdkError unit :=
  match strip_prefix "kind=" clause with
  | Some value => validate_canonical_decimal value 0 65535
  | None =>
      match strip_prefix "created_at<" clause with
      | Some value => validate_canonical_decimal value 0 4294967295
      | None =>
          match strip_prefix "created_at>" clause with
          | Some value => validate_canonical_decimal value 0 4294967295
          | None => Err (InvalidInput "unsupported clause")
          end
      end
  end.

Fixpoint validate_clauses (clauses : list string) : result SdkError unit :=
  match clauses with
  | [] => Ok tt
  | clause :: rest =>
      if (clause =? "")%string then Err (InvalidInput "empty clause in conditions")
      else validate_clause clause ≫= λ _, validate_clauses rest
  end.

Definition validate_conditions (conditions : string) : result SdkError unit :=
  if (conditions =? "")%string then Ok tt
  else if negb (str_forall (λ c, negb (is_ascii_whitespace c)) conditions) then Err (InvalidInput "conditions must not contain whitespace")
  else validate_clauses (str_split "&" conditions).

Definition build_preimage (agent_pubkey conditions : string) : string :=
  "nostr:agent-auth:" +:+ agent_pubkey +:+ ":" +:+ conditions.
Definition hash_preimage (preimage : string) : Message := sha256_message preimage.

Definition is_lowercase_hex (c : ascii) : bool := is_ascii_digit c || in_range 97 102 c.

Definition parse_json_array (s : string) : result SdkError (list JsonValue) :=
  match json_from_str s with
  | None => Err (InvalidInput "invalid JSON")
  | Some (JArray arr) => Ok arr
  | Some _ => Err (InvalidInput "auth tag must be a JSON array")
  end.
(** [Value::as_str]. *)
Definition json_str (v : JsonValue) : option string := match v with JString s => Some s | _ => None end.

Record ParsedAuthTag := { owner_pubkey_hex : string; conditions : string; sig_hex : string }.

Definition lowercase_hex_of (n : nat) (s : string) : bool := (String.length s =? n)%nat && str_forall is_lowercase_hex s.

Definition parse_auth_tag_fields (json : string) : result SdkError ParsedAuthTag :=
  parse_json_array json ≫= λ arr,
  match arr with
  | [e0; e1; e2; e3] =>
      match json_str e0 with
      | None => Err (InvalidInput "element 0 must be a string")
      | Some label =>
          if negb (label =? "auth")%string then Err (InvalidInput "first element must be auth")
          else match json_str e1 with
          | None => Err (InvalidInput "element 1 (owner pubkey) must be a string")
          | Some owner =>
              if negb (lowercase_hex_of 64 owner) then Err (InvalidInput "owner pubkey must be 64 lowercase hex chars")
              else match json_str e2 with
              | None => Err (InvalidInput "element 2 (conditions) must be a string")
              | Some conds =>
                  validate_conditions conds ≫= λ _,
                  match json_str e3 with
                  | None => Err (InvalidInput "element 3 (signature) must be a string")
                  | Some sig =>
                      if negb (lowercase_hex_of 128 sig) then Err (InvalidInput "signature must be 128 lowercase hex chars")
                      else Ok {| owner_pubkey_hex := owner; conditions := conds; sig_hex := sig |}
                  end
              end
          end
      end
  | _ => Err (InvalidInput "auth tag must have 4 elements")
  end.

Definition verify_parsed_auth_tag (parsed : ParsedAuthTag) (agent_pubkey : string) : result SdkError string :=
  match public_key_from_hex (owner_pubkey_hex parsed) with
  | None => Err (InvalidInput "invalid owner pubkey")
  | Some owner_pubkey =>
      if (owner_pubkey =? agent_pubkey)%string then Err (InvalidInput "owner and agent pubkeys must differ")
      else match signature_from_str (sig_hex parsed) with
      | None => Err (InvalidInput "invalid signature hex")
      | Some sig =>
          match xonly owner_pubkey with
          | None => Err (InvalidInput "owner pubkey xonly conversion failed")
          | Some key =>
              if verify_schnorr sig (hash_preimage (build_preimage agent_pubkey (conditions parsed))) key
              then Ok owner_pubkey else Err (InvalidInput "signature verification failed")
          end
      end
  end.

Definition verify_auth_tag (auth_tag_json agent_pubkey : string) : result SdkError string :=
  parse_auth_tag_fields auth_tag_json ≫= λ parsed, verify_parsed_auth_tag parsed agent_pubkey.

(** A clause of time against the signed time; [kind=] clauses are skipped. *)
Definition clause_satisfied (at_ : Z) (clause : string) : result SdkError bool :=
  match strip_prefix "created_at<" clause with
  | Some value =>
      match parse_unsigned 64 value with
      | Some bound => Ok (at_ <? Z.of_N bound)%Z
      | None => Err (InvalidInput "invalid created_at< bound")
      end
  | None =>
      match strip_prefix "created_at>" clause with
      | Some value =>
          match parse_unsigned 64 value with
          | Some bound => Ok (Z.of_N bound <? at_)%Z
          | None => Err (InvalidInput "invalid created_at> bound")
          end
      | None => Ok true
      end
  end.

Fixpoint check_clauses (at_ : Z) (clauses : list string) : result SdkError unit :=
  match clauses with
  | [] => Ok tt
  | clause :: rest =>
      clause_satisfied at_ clause ≫= λ ok : bool,
      if ok then check_clauses at_ rest else Err (InvalidInput "auth event created_at does not satisfy the clause")
  end.

Definition verify_auth_tag_for_auth_event (auth_tag_json agent_pubkey : string) (auth_event_created_at : Z) : result SdkError string :=
  parse_auth_tag_fields auth_tag_json ≫= λ parsed,
  verify_parsed_auth_tag parsed agent_pubkey ≫= λ owner_pubkey,
  check_clauses auth_event_created_at (str_split "&" (conditions parsed)) ≫= λ _, Ok owner_pubkey.

(** ** The tags of an authentication event *)

Definition first_is (name : string) (t : Tag) : bool := bool_decide (as_slice t !! 0%nat = Some name).

Definition extract_auth_tag_json (e : Event) : option string :=
  match List.filter (first_is "auth") (tags e) with
  | [first] => strings_to_json (as_slice first)
  | _ => None
  end.

(** [extract_nip_oa_owner] of [api/mod.rs]; the agent's key is read back from
    its own bytes. *)
Definition extract_nip_oa_owner (pubkey : string) (auth_tag : option string) (signed_auth_created_at : option Z) : option string :=
  tag_json ← auth_tag; at_ ← signed_auth_created_at;
  match verify_auth_tag_for_auth_event tag_json pubkey at_ with Ok owner => Some owner | Err _ => None end.

Definition DEVICE_AUTH_TAG : string := "maju-device".
Definition DEVICE_AUTH_VERSION : string := "1".

Record DeviceDescriptor := {
  device_id : string; session_id : string; device_name : string; platform : string; app_version : string
}.
Record PresentedDevice := { pd_descriptor : DeviceDescriptor; pd_runner_id : option string }.

Definition validate_uuid (label value : string) : result string unit :=
  match uuid_parse value with Some _ => Ok tt | None => Err (label +:+ " must be a UUID") end.

Definition validate_text (label value : string) (max : nat) : result string unit :=
  let trimmed := trim value in
  if (trimmed =? "")%string || (max <? String.length trimmed)%nat then Err (label +:+ " must be 1-" +:+ pretty max +:+ " bytes")
  else Ok tt.

Definition parse_device_values (device session runner name plat version client : string) : result string PresentedDevice :=
  let runner := trim runner in
  let no_runner := (runner =? "")%string in
  validate_uuid "device id" device ≫= λ _,
  validate_uuid "device session id" session ≫= λ _,
  (if negb no_runner then validate_uuid "agent runner id" runner else Ok tt) ≫= λ _,
  validate_text "device name" name 80 ≫= λ _,
  validate_text "device platform" plat 32 ≫= λ _,
  validate_text "app version" version 32 ≫= λ _,
  if negb (client =? "desktop")%string && negb (client =? "agent")%string
  then Err "maju-device client type must be desktop or agent"
  else if (client =? "agent")%string && no_runner then Err "agent maju-device tag requires a runner id"
  else if (client =? "desktop")%string && negb no_runner then Err "desktop maju-device tag cannot carry a runner id"
  else Ok {| pd_descriptor := {| device_id := device; session_id := session; device_name := name; platform := plat; app_version := version |};
             pd_runner_id := if no_runner then None else Some runner |}.

Definition parse_auth_device (e : Event) : result string (option PresentedDevice) :=
  match List.filter (first_is DEVICE_AUTH_TAG) (tags e) with
  | [] => Ok None
  | [tag] =>
      match as_slice tag with
      | [_; version; device; session; runner; name; plat; app; client] =>
          if negb (version =? DEVICE_AUTH_VERSION)%string then Err "invalid maju-device tag version or field count"
          else parse_device_values device session runner name plat app client ≫= λ d, Ok (Some d)
      | _ => Err "invalid maju-device tag version or field count"
      end
  | _ => Err "AUTH contains more than one maju-device tag"
  end.

End events.
