(* ===== verification/AuthLimits.v ===== *)
(** * Limits shared by all runtimes through Redis

    The replay guard of HTTP authorizations ([maju-auth/src/nip98_replay.rs],
    [maju-pubsub/src/nip98_replay.rs], [check_nip98_replay] and its variants of
    [maju-relay/src/api]) and the rate limiter ([maju-auth/src/rate_limit.rs],
    [maju-pubsub/src/rate_limiter.rs], [maju-relay/src/admission.rs]).

    The commands are functions of the instant at which Redis runs them, in
    milliseconds.  A call may fail before its command runs, or lose the reply
    after it ran ([Fault]).  [shared_step] interleaves the calls of all
    runtimes; a limiter call that finds a counter without expiry sends its
    repair in a later step. *)
From S2P Require Import Prelude Nostr Channel WorkflowTemplate Tenant IngestPolicy AuthEvents.

(** ** Redis

    [redis_live now s k]: the value of a key that is present, with the instant
    at which it will expire. *)
Class ExpiringRedis : Type := {
  Redis : Type;
  redis_live : Z → Redis → string → option (string * option Z);
  (** [SET key value NX EX secs]; [true] is the reply [OK], [false] is nil *)
  redis_set_nx_ex : Z → Redis → string → string → Z → bool * Redis;
  (** the new number, or an error reply *)
  redis_incr : Z → Redis → string → option (N * Redis);
  redis_expire : Z → Redis → string → Z → Redis;
  redis_ttl : Z → Redis → string → Z
}.

(** What a command may have done to the keys other than its own: nothing, at
    its instant and later. *)
Definition untouched {R : ExpiringRedis} (now : Z) (k : string) (s s' : Redis) : Prop :=
  ∀ t k', (now ≤ t)%Z → k' ≠ k → redis_live t s' k' = redis_live t s k'.

Class ExpiringRedisLaws (R : ExpiringRedis) : Prop := {
  (** a key stays until it expires, and time creates none *)
  live_stays t t' s k v o : redis_live t s k = Some (v, o) → (t ≤ t')%Z → (∀ d, o = Some d → (t' < d)%Z) →
    redis_live t' s k = Some (v, o);
  live_earlier t t' s k x : redis_live t' s k = Some x → (t ≤ t')%Z → redis_live t s k = Some x;
  set_nx_free now s k v ttl : (0 < ttl)%Z → redis_live now s k = None →
    ∃ s', redis_set_nx_ex now s k v ttl = (true, s') ∧ redis_live now s' k = Some (v, Some (now + 1000 * ttl)%Z) ∧ untouched now k s s';
  set_nx_taken now s k v ttl x : redis_live now s k = Some x →
    ∃ s', redis_set_nx_ex now s k v ttl = (false, s') ∧ ∀ t k', (now ≤ t)%Z → redis_live t s' k' = redis_live t s k';
  incr_reply now s k n s' : redis_incr now s k = Some (n, s') →
    untouched now k s s' ∧
    match redis_live now s k with
    | None => n = 1%N ∧ redis_live now s' k = Some (pretty 1%N, None)
    | Some (v, o) => (1 ≤ n)%N ∧ v = pretty (n - 1)%N ∧ redis_live now s' k = Some (pretty n, o)
    end;
  expire_sets now s k secs v o : (0 < secs)%Z → redis_live now s k = Some (v, o) →
    redis_live now (redis_expire now s k secs) k = Some (v, Some (now + 1000 * secs)%Z);
  expire_frame now s k secs : untouched now k s (redis_expire now s k secs);
  expire_absent now s k secs : redis_live now s k = None → redis_live now (redis_expire now s k secs) k = None
}.

Inductive Fault := Executed | NoConnection | ReplyLost (executed : bool).

Section limits.
Context {L : NostrLib} {R : ExpiringRedis}.

(** ** The replay guard *)

Definition DEFAULT_REPLAY_TTL_SECS : Z := 120.
Definition MAX_REPLAY_TTL_SECS : Z := 3600.
Definition OPERATOR_REPLAY_SCOPE : string := "operator-management".
Definition ADMIN_REPLAY_SCOPE : string := "admin-moderation".

Definition nip98_replay_key_for_scope (scope event_id : string) : string := "maju:" +:+ scope +:+ ":nip98:" +:+ event_id.
(** The scope of a community: [try_mark]. *)
Definition community_scope (t : TenantContext) : string := uuid_to_string (community t).
Definition nip98_replay_key (t : TenantContext) (event_id : string) : string := nip98_replay_key_for_scope (community_scope t) event_id.

(** [u64::clamp]. *)
Definition clamp (lo hi z : Z) : Z := if (z <? lo)%Z then lo else if (hi <? z)%Z then hi else z.

Definition try_mark_in_scope (now : Z) (f : Fault) (s : Redis) (scope event_id : string) (ttl_secs : Z) : result AuthError bool * Redis :=
  let ttl := clamp DEFAULT_REPLAY_TTL_SECS MAX_REPLAY_TTL_SECS ttl_secs in
  let command := redis_set_nx_ex now s (nip98_replay_key_for_scope scope event_id) "1" ttl in
  match f with
  | NoConnection => (Err (Internal "Redis pool"), s)
  | ReplyLost executed => (Err (Internal "Redis SET NX EX"), if executed then command.2 else s)
  | Executed => (Ok command.1, command.2)
  end.

(** [check_nip98_replay], [check_operator_replay] and [claim_nip98_replay]: what
    they make of the answer of the guard. *)
Definition replay_verdict (marked : result AuthError bool) : result string unit :=
  match marked with
  | Ok true => Ok tt
  | Ok false => Err "NIP-98: replay detected"
  | Err _ => Err "NIP-98: replay check unavailable"
  end.

(** ** The rate limiter *)

Record RateLimitResult := { allowed : bool; current : N; limit : N; reset_in_secs : Z }.

Inductive LimitType := Messages | ApiCalls | GifSearches | WsEvents | IpConnections.
Definition key_suffix (l : LimitType) : string :=
  match l with Messages => "msg" | ApiCalls => "api" | GifSearches => "gif" | WsEvents => "ws" | IpConnections => "conn" end.

Record RateLimitConfig := {
  human_messages_per_min : N;
  gif_searches_per_min : N;
  human_api_calls_per_min : N;
  human_ws_events_per_sec : N;
  agent_standard_messages_per_min : N;
  agent_standard_api_calls_per_min : N;
  agent_elevated_messages_per_min : N;
  agent_platform_messages_per_min : N
}.
Definition default_config : RateLimitConfig := {|
  human_messages_per_min := 60; gif_searches_per_min := 30; human_api_calls_per_min := 300; human_ws_events_per_sec := 10;
  agent_standard_messages_per_min := 120; agent_standard_api_calls_per_min := 600;
  agent_elevated_messages_per_min := 300; agent_platform_messages_per_min := 600 |}.

Definition rate_limit_key (t : TenantContext) (pubkey : string) (l : LimitType) : string :=
  "maju:" +:+ uuid_to_string (community t) +:+ ":ratelimit:" +:+ pubkey +:+ ":" +:+ key_suffix l.
(** [ip] is printed. *)
Definition ip_rate_limit_key (ip : string) : string := "maju:ratelimit:ip:" +:+ ip +:+ ":conn".

(** [RATE_LIMIT_SCRIPT]: the counter and the seconds that it has left. *)
Definition rate_limit_script (now : Z) (s : Redis) (key : string) (window : Z) : option ((N * Z) * Redis) :=
  '(count, s) ← redis_incr now s key;
  let s := if (count =? 1)%N then redis_expire now s key window else s in
  Some ((count, redis_ttl now s key), s).

Definition limit_result (count lim : N) (reset : Z) : RateLimitResult :=
  {| allowed := (count <=? lim)%N; current := count; limit := lim; reset_in_secs := reset |}.

(** The script of [run_rate_limit]: its result, or the repair that it waits for. *)
Inductive Scripted := Decided (r : RateLimitResult) | NeedsRepair (count : N).
Definition run_script (now : Z) (f : Fault) (s : Redis) (key : string) (window : Z) (lim : N) : result AuthError Scripted * Redis :=
  match f with
  | NoConnection => (Err (Internal "Redis pool"), s)
  | ReplyLost executed =>
      (Err (Internal "Redis rate limit script"), if executed then from_option snd s (rate_limit_script now s key window) else s)
  | Executed =>
      match rate_limit_script now s key window with
      | None => (Err (Internal "Redis rate limit script"), s)
      | Some ((count, ttl), s') =>
          (Ok (if (ttl <? 0)%Z then NeedsRepair count else Decided (limit_result count lim (Z.max ttl 0))), s')
      end
  end.
(** The [EXPIRE] of a counter without expiry, and the result after it. *)
Definition run_repair (now : Z) (f : Fault) (s : Redis) (key : string) (window : Z) (count lim : N) : result AuthError RateLimitResult * Redis :=
  let s' := redis_expire now s key window in
  match f with
  | Executed => (Ok (limit_result count lim window), s')
  | NoConnection => (Err (Internal "Redis EXPIRE repair"), s)
  | ReplyLost executed => (Err (Internal "Redis EXPIRE repair"), if executed then s' else s)
  end.

Inductive AdmissionError := Exceeded (reset : Z) | Unavailable.
(** [check_principal] on the result of the limiter. *)
Definition principal_verdict (r : result AuthError RateLimitResult) : result AdmissionError unit :=
  match r with
  | Ok r => if allowed r then Ok tt else Err (Exceeded (reset_in_secs r))
  | Err _ => Err Unavailable
  end.

Definition WS_BURST_WINDOW_SECS : Z := 5.
Definition ws_admission_budget (per_second_limit : N) : Z * N :=
  (WS_BURST_WINDOW_SECS, Z.to_N (saturating_mul 64 (Z.of_N per_second_limit) WS_BURST_WINDOW_SECS)).

End limits.
