(* ===== verification/AuthShared.v ===== *)
(** * The limits under concurrent use

    [shared_step] interleaves the requests of all runtimes on one Redis: HTTP
    authorizations that were verified wait to be marked, limiter calls run their
    script and, if they have to, their repair.  A runtime reads its own clock,
    which is at most [skew] milliseconds from that of Redis. *)
From S2P Require Import Prelude Nostr Channel WorkflowTemplate Tenant IngestPolicy AuthEvents AuthLimits.

Section shared.
Context {L : NostrLib} {UI : UuidLaws L} {UL : UrlLib} {SL : SignatureLib L} {JN : JsonNum} {AJ : AuthJson L JN} {DL : ObjectStore.DigestLib}.
Context {R : ExpiringRedis} {RL : ExpiringRedisLaws R}.

(** A verified authorization; [az_at] is when, by the clock of Redis. *)
Record Authorization := { az_scope : string; az_event : Event; az_at : Z }.
Definition az_key (a : Authorization) : string := nip98_replay_key_for_scope (az_scope a) (Nostr.id (az_event a)).

(** A limiter call whose script ran, and the counter it made. *)
Record LimitCall := { lc_key : string; lc_window : Z; lc_limit : N; lc_time : Z; lc_count : N }.

Record World := {
  clock : Z;
  store : Redis;
  waiting : list Authorization;
  (** verdicts of the replay guard, newest first *)
  marked : list (Authorization * Z * result string unit);
  (** every run of the limiter's script, newest first *)
  scripts : list LimitCall;
  repairs : list LimitCall;
  admitted : list LimitCall
}.

(** The scopes of the callers: a community, the operator API, the admin API. *)
Definition replay_scope (scope : string) : Prop :=
  (∃ t, scope = community_scope t) ∨ scope = OPERATOR_REPLAY_SCOPE ∨ scope = ADMIN_REPLAY_SCOPE.

(** The windows of the callers: [enforce_ws_admission], [enforce_http_admission]
    and the search for GIFs. *)
Definition window_secs (l : LimitType) : Z := match l with WsEvents => WS_BURST_WINDOW_SECS | _ => 60 end.

(** A key of one of the two components. *)
Definition guarded (k : string) : Prop :=
  (∃ scope e, replay_scope scope ∧ k = nip98_replay_key_for_scope scope e) ∨ (∃ t pk l, k = rate_limit_key t pk l).

Definition with_store (w : World) (s : Redis) : World := {|
  clock := clock w; store := s; waiting := waiting w; marked := marked w; scripts := scripts w; repairs := repairs w; admitted := admitted w |}.

(** The callers' mark of a verified authorization, with their verdict. *)
Definition after_mark (w : World) (f : Fault) (a : Authorization) (rest : list Authorization) : World :=
  let '(m, s') := try_mark_in_scope (clock w) f (store w) (az_scope a) (Nostr.id (az_event a)) DEFAULT_REPLAY_TTL_SECS in
  {| clock := clock w; store := s'; waiting := rest; marked := (a, clock w, replay_verdict m) :: marked w;
     scripts := scripts w; repairs := repairs w; admitted := admitted w |}.

(** The run of a script and what became of its call. *)
Definition after_script (w : World) (f : Fault) (key : string) (window : Z) (lim : N) : World :=
  let '(r, s') := run_script (clock w) f (store w) key window lim in
  let ran := match f with NoConnection | ReplyLost false => None | _ => fst ∘ fst <$> rate_limit_script (clock w) (store w) key window end in
  let call n := {| lc_key := key; lc_window := window; lc_limit := lim; lc_time := clock w; lc_count := n |} in
  {| clock := clock w; store := s'; waiting := waiting w; marked := marked w;
     scripts := match ran with Some n => call n :: scripts w | None => scripts w end;
     repairs := match r with Ok (NeedsRepair n) => call n :: repairs w | _ => repairs w end;
     admitted := match r with
                 | Ok (Decided d) => if is_ok (principal_verdict (Ok d)) then call (current d) :: admitted w else admitted w
                 | _ => admitted w
                 end |}.

Definition after_repair (w : World) (f : Fault) (c : LimitCall) (rest : list LimitCall) : World :=
  let '(r, s') := run_repair (clock w) f (store w) (lc_key c) (lc_window c) (lc_count c) (lc_limit c) in
  {| clock := clock w; store := s'; waiting := waiting w; marked := marked w; scripts := scripts w; repairs := rest;
     admitted := if is_ok (principal_verdict r) then c :: admitted w else admitted w |}.

Inductive shared_step (skew : Z) (w : World) : World → Prop :=
  | time_passes t : (clock w ≤ t)%Z →
      shared_step skew w {| clock := t; store := store w; waiting := waiting w; marked := marked w; scripts := scripts w;
                            repairs := repairs w; admitted := admitted w |}
  | request_verified scope drift json url method body e pk :
      replay_scope scope → (Z.abs drift ≤ skew)%Z → event_from_json json = Some e →
      verify_nip98_event ((clock w + drift) / 1000) json url method body = Ok pk →
      shared_step skew w {| clock := clock w; store := store w;
                            waiting := {| az_scope := scope; az_event := e; az_at := clock w |} :: waiting w;
                            marked := marked w; scripts := scripts w; repairs := repairs w; admitted := admitted w |}
  | mark_sent a before after f :
      waiting w = before ++ a :: after →
      shared_step skew w (after_mark w f a (before ++ after))
  | script_sent t pk l lim f :
      shared_step skew w (after_script w f (rate_limit_key t pk l) (window_secs l) lim)
  | repair_sent c before after f :
      repairs w = before ++ c :: after →
      shared_step skew w (after_repair w f c (before ++ after))
  | others_write s' :
      (∀ t k, (clock w ≤ t)%Z → guarded k → redis_live t s' k = redis_live t (store w) k) →
      shared_step skew w (with_store w s').

Inductive shared_reachable (skew : Z) (w0 : World) : World → Prop :=
  | shared_start : shared_reachable skew w0 w0
  | shared_next w w' : shared_reachable skew w0 w → shared_step skew w w' → shared_reachable skew w0 w'.

(** Nothing has happened, and no counter stands at nought. *)
Definition fresh_world (w : World) : Prop :=
  waiting w = [] ∧ marked w = [] ∧ scripts w = [] ∧ repairs w = [] ∧ admitted w = [] ∧
  ∀ t pk l o, redis_live (clock w) (store w) (rate_limit_key t pk l) ≠ Some (pretty 0%N, o).

(** ** Keys *)

Lemma str_split_app c x y : str_split c (x +:+ String c y) = str_split c x ++ str_split c y.
Proof.
  induction x as [|a x IH]; simpl.
  - by rewrite Ascii.eqb_refl.
  - rewrite IH. destruct (Ascii.eqb a c); [done|]. pose proof (str_split_nonempty c x). by destruct (str_split c x).
Qed.

Lemma replay_scope_no_colon scope : replay_scope scope → str_contains_char ":" scope = false.
Proof. intros [[t ->]|[->| ->]]; [by apply uuid_no_char|done..]. Qed.

Lemma replay_key_parts scope e : replay_scope scope →
  str_split ":" (nip98_replay_key_for_scope scope e) = "maju" :: scope :: "nip98" :: str_split ":" e.
Proof.
  intros H%replay_scope_no_colon. unfold nip98_replay_key_for_scope.
  change ("maju:" +:+ ?x) with ("maju" +:+ String ":" x). rewrite str_split_cons by done. f_equal.
  change (":nip98:" +:+ e) with (String ":" ("nip98" +:+ String ":" e)). by rewrite !str_split_cons.
Qed.

Lemma limiter_key_parts t pk l :
  str_split ":" (rate_limit_key t pk l) = "maju" :: uuid_to_string (community t) :: "ratelimit" :: (str_split ":" pk ++ [key_suffix l]).
Proof.
  unfold rate_limit_key. change ("maju:" +:+ ?x) with ("maju" +:+ String ":" x). rewrite str_split_cons by done. f_equal.
  change (":ratelimit:" +:+ ?x) with (String ":" ("ratelimit" +:+ String ":" x)). rewrite !str_split_cons by first [by apply uuid_no_char|done].
  do 2 f_equal. change (":" +:+ key_suffix l) with (String ":" (key_suffix l)). rewrite str_split_app. f_equal. by destruct l.
Qed.

Lemma keys_apart scope e t pk l : replay_scope scope → nip98_replay_key_for_scope scope e ≠ rate_limit_key t pk l.
Proof. intros Hs E. apply (f_equal (str_split ":")) in E. by rewrite (replay_key_parts _ _ Hs), limiter_key_parts in E. Qed.

Lemma limiter_key_type t t' pk pk' l l' : rate_limit_key t pk l = rate_limit_key t' pk' l' → l = l'.
Proof.
  intros E. apply (f_equal (str_split ":")) in E. rewrite !limiter_key_parts in E. injection E as _ E.
  apply (f_equal last) in E. rewrite !last_snoc in E. by destruct l, l'.
Qed.

(** Different principals and communities have counters of their own. *)
Lemma limiter_key_injective t t' pk pk' l l' : rate_limit_key t pk l = rate_limit_key t' pk' l' →
  community t = community t' ∧ pk = pk' ∧ l = l'.
Proof.
  intros E. pose proof (limiter_key_type _ _ _ _ _ _ E) as <-. apply (f_equal (str_split ":")) in E. rewrite !limiter_key_parts in E.
  injection E as Hu Hp. apply app_inj_tail in Hp as [Hp _]. split; [by apply uuid_injective|]. split; [|done].
  by rewrite <- (str_join_split ":" pk), Hp, str_join_split.
Qed.

(** ** Single commands *)

Lemma untouched_refl now k s : untouched now k s s.
Proof. by intros t k' _ _. Qed.
Lemma untouched_trans now k s1 s2 s3 : untouched now k s1 s2 → untouched now k s2 s3 → untouched now k s1 s3.
Proof. intros H1 H2 t k' Ht Hk. by rewrite H2, H1. Qed.
Hint Resolve untouched_refl untouched_trans : core.

Lemma clamp_default : clamp DEFAULT_REPLAY_TTL_SECS MAX_REPLAY_TTL_SECS DEFAULT_REPLAY_TTL_SECS = 120%Z.
Proof. done. Qed.

Lemma set_nx_spec now s k v ttl : (0 < ttl)%Z →
  let '(b, s') := redis_set_nx_ex now s k v ttl in
  untouched now k s s' ∧
  match redis_live now s k with
  | None => b = true ∧ redis_live now s' k = Some (v, Some (now + 1000 * ttl)%Z)
  | Some _ => b = false ∧ ∀ t, (now ≤ t)%Z → redis_live t s' k = redis_live t s k
  end.
Proof.
  intros Ht. destruct (redis_live now s k) as [x|] eqn:E.
  - destruct (set_nx_taken now s k v ttl x E) as (s' & -> & H). split; [intros t k' ? _; by apply H|]. split; [done|]. intros t ?. by apply H.
  - by destruct (set_nx_free now s k v ttl Ht E) as (s' & -> & H & Hu).
Qed.

Lemma try_mark_spec now f s scope e :
  let '(m, s') := try_mark_in_scope now f s scope e DEFAULT_REPLAY_TTL_SECS in
  let k := nip98_replay_key_for_scope scope e in
  untouched now k s s' ∧
  (is_Some (redis_live now s k) → replay_verdict m ≠ Ok tt ∧ ∀ t, (now ≤ t)%Z → redis_live t s' k = redis_live t s k) ∧
  (replay_verdict m = Ok tt → redis_live now s k = None ∧ ∃ v, redis_live now s' k = Some (v, Some (now + 120000)%Z)).
Proof.
  unfold try_mark_in_scope. rewrite clamp_default. cbv zeta. pose proof (set_nx_spec now s (nip98_replay_key_for_scope scope e) "1" 120 ltac:(lia)) as H.
  destruct (redis_set_nx_ex now s (nip98_replay_key_for_scope scope e) "1" 120) as [b s']. cbn [fst snd]. destruct H as [Hu H].
  destruct (redis_live now s (nip98_replay_key_for_scope scope e)) as [x|]; destruct H as [-> H].
  - destruct f as [| |[]]; cbn; (split; [auto|]; split; [|done]; intros _; split; [done|]; auto).
  - destruct f as [| |[]]; cbn; (split; [auto|]; split; [by intros [? ?]|]); try done. intros _. split; [done|]. eexists. exact H.
Qed.

Lemma script_spec now s k win n ttl s' : (0 < win)%Z → rate_limit_script now s k win = Some ((n, ttl), s') →
  untouched now k s s' ∧
  match redis_live now s k with
  | None => n = 1%N ∧ redis_live now s' k = Some (pretty 1%N, Some (now + 1000 * win)%Z)
  | Some (v, o) => (1 ≤ n)%N ∧ v = pretty (n - 1)%N ∧
      redis_live now s' k = Some (pretty n, if (n =? 1)%N then Some (now + 1000 * win)%Z else o)
  end.
Proof.
  intros Hw. unfold rate_limit_script. destruct (redis_incr now s k) as [[c s1]|] eqn:E; [|done]. csimpl. intros H. simplify_eq/=.
  destruct (incr_reply _ _ _ _ _ E) as [Hu H]. destruct (redis_live now s k) as [[v o]|].
  - destruct H as (Hn & Hv & Hl). destruct (n =? 1)%N eqn:E1.
    + split; [eapply untouched_trans; [exact Hu|apply expire_frame]|]. split; [done|]. split; [done|]. by apply (expire_sets _ _ _ _ _ _ Hw) in Hl.
    + done.
  - destruct H as (-> & Hl). cbn. split; [eapply untouched_trans; [exact Hu|apply expire_frame]|]. split; [done|].
    by apply (expire_sets _ _ _ _ _ _ Hw) in Hl.
Qed.

(** ** The replay guard *)

(** What verification established, by a clock [skew] from that of Redis. *)
Definition verified_within (skew : Z) (a : Authorization) : Prop :=
  replay_scope (az_scope a) ∧
  ∃ drift, (Z.abs drift ≤ skew)%Z ∧ outside_window ((az_at a + drift) / 1000) (az_event a) = false.

(** The claim of an admitted authorization: 120 seconds are over, or the key is
    still there. *)
Definition claim_held (w : World) (a : Authorization) (m : Z) : Prop :=
  (m + 120000 ≤ clock w)%Z ∨ ∃ v d, redis_live (clock w) (store w) (az_key a) = Some (v, Some d) ∧ (m + 120000 ≤ d)%Z.

(** Admissions on one key are 120 seconds apart. *)
Definition spaced (l : list (Authorization * Z * result string unit)) : Prop :=
  ∀ i j a a' m m', i < j → l !! i = Some (a', m', Ok tt) → l !! j = Some (a, m, Ok tt) → az_key a' = az_key a → (m + 120000 ≤ m')%Z.

Record replay_inv (skew : Z) (w : World) : Prop := {
  ri_waiting a : a ∈ waiting w → verified_within skew a ∧ (az_at a ≤ clock w)%Z;
  ri_marked a m v : (a, m, v) ∈ marked w → verified_within skew a ∧ (az_at a ≤ m ≤ clock w)%Z;
  ri_claims a m : (a, m, Ok tt) ∈ marked w → claim_held w a m;
  ri_spaced : spaced (marked w);
  ri_repairs c : c ∈ repairs w → ∃ t pk l, lc_key c = rate_limit_key t pk l
}.

Lemma claim_kept w w' a m : claim_held w a m → (clock w ≤ clock w')%Z →
  redis_live (clock w') (store w') (az_key a) = redis_live (clock w') (store w) (az_key a) → claim_held w' a m.
Proof.
  intros [H|(v & d & Hl & Hd)] Hc E; [left; lia|]. destruct (Z.le_gt_cases d (clock w')) as [Hle|Hgt]; [left; lia|].
  right. exists v, d. split; [|done]. rewrite E. eapply live_stays; [exact Hl|done|]. intros ? [= <-]. lia.
Qed.

(** A step that neither marks nor verifies, and leaves the claims alone. *)
Lemma replay_inv_frame skew w w' : replay_inv skew w → (clock w ≤ clock w')%Z → waiting w' = waiting w → marked w' = marked w →
  (∀ c, c ∈ repairs w' → c ∈ repairs w ∨ ∃ t pk l, lc_key c = rate_limit_key t pk l) →
  (∀ scope e, replay_scope scope → redis_live (clock w') (store w') (nip98_replay_key_for_scope scope e) =
     redis_live (clock w') (store w) (nip98_replay_key_for_scope scope e)) →
  replay_inv skew w'.
Proof.
  intros [Hw Hm Hc Hs Hr] Ht Ew Em Hr' Hlive. split.
  - rewrite Ew. intros a [Ha Hle]%Hw. split; [done|lia].
  - rewrite Em. intros a m v [Ha Hle]%Hm. split; [done|lia].
  - rewrite Em. intros a m Ha. eapply claim_kept; [by apply Hc|done|]. apply Hlive. by apply Hm in Ha as [[? _] _].
  - by rewrite Em.
  - intros c [?%Hr|?]%Hr'; auto.
Qed.

Lemma script_repairs w f t pk l lim c : c ∈ repairs (after_script w f (rate_limit_key t pk l) (window_secs l) lim) →
  c ∈ repairs w ∨ ∃ t pk l, lc_key c = rate_limit_key t pk l.
Proof.
  unfold after_script. destruct (run_script _ _ _ _ _ _) as [[[r|n]|e] s']; cbn; try naive_solver.
  intros [->|?]%elem_of_cons; [right; by do 3 eexists|by left].
Qed.

Lemma window_positive l : (0 < window_secs l)%Z.
Proof. by destruct l. Qed.

Lemma script_untouched w f t pk l lim :
  untouched (clock w) (rate_limit_key t pk l) (store w) (store (after_script w f (rate_limit_key t pk l) (window_secs l) lim)) ∧
  clock (after_script w f (rate_limit_key t pk l) (window_secs l) lim) = clock w ∧
  waiting (after_script w f (rate_limit_key t pk l) (window_secs l) lim) = waiting w ∧
  marked (after_script w f (rate_limit_key t pk l) (window_secs l) lim) = marked w.
Proof.
  unfold after_script, run_script.
  destruct (rate_limit_script (clock w) (store w) (rate_limit_key t pk l) (window_secs l)) as [[[n ttl] s']|] eqn:E.
  - apply script_spec in E as [Hu _]; [|apply window_positive]. destruct f as [| |[]]; cbn; auto.
  - destruct f as [| |[]]; cbn; auto.
Qed.

Lemma repair_untouched w f c rest :
  untouched (clock w) (lc_key c) (store w) (store (after_repair w f c rest)) ∧
  clock (after_repair w f c rest) = clock w ∧ waiting (after_repair w f c rest) = waiting w ∧ marked (after_repair w f c rest) = marked w ∧
  repairs (after_repair w f c rest) = rest.
Proof. unfold after_repair, run_repair. destruct f as [| |[]]; cbn; auto using expire_frame. Qed.

Lemma mark_keeps skew w a before after f : replay_inv skew w → waiting w = before ++ a :: after →
  replay_inv skew (after_mark w f a (before ++ after)).
Proof.
  intros [Hw Hm Hc Hs Hr] E. unfold after_mark.
  pose proof (try_mark_spec (clock w) f (store w) (az_scope a) (Nostr.id (az_event a))) as Hspec.
  destruct (try_mark_in_scope _ _ _ _ _ _) as [r s']. destruct Hspec as (Hu & Htaken & Hok). fold (az_key a) in Htaken, Hok, Hu.
  assert (Ha : a ∈ waiting w) by (rewrite E; set_solver). apply Hw in Ha as [Hva Hat].
  assert (Hold : ∀ b m, (b, m, Ok tt) ∈ marked w → redis_live (clock w) (store w) (az_key a) = None → az_key b = az_key a → (m + 120000 ≤ clock w)%Z).
  { intros b m Hb Hnone Ek. destruct (Hc b m Hb) as [?|(v & d & Hl & _)]; [done|]. by rewrite Ek, Hnone in Hl. }
  split; cbn [clock store waiting marked repairs].
  - intros b Hb. apply Hw. rewrite E. set_solver.
  - intros b m v [[= -> -> _]|Hb]%elem_of_cons; [split; [done|lia]|]. by eapply Hm.
  - intros b m [Hnew|Hb]%elem_of_cons.
    + injection Hnew as -> -> Hv. destruct (Hok (eq_sym Hv)) as (_ & v & Hl). right. by exists v, (clock w + 120000)%Z.
    + destruct (decide (az_key b = az_key a)) as [Ek|Hk]; [|eapply claim_kept; [by apply Hc|done|]; by apply Hu].
      destruct (redis_live (clock w) (store w) (az_key a)) as [x|] eqn:El.
      * eapply claim_kept; [by apply Hc|done|]. cbn. rewrite Ek. apply Htaken; [by eexists|lia].
      * left. cbn. by eapply Hold.
  - intros [|i] [|j] b b' m m' Hij Hi Hj Ek; try lia.
    + cbn in Hi, Hj. injection Hi as <- <- Hv. destruct (Hok Hv) as [Hnone _]. apply list_elem_of_lookup_2 in Hj. by eapply Hold.
    + cbn in Hi, Hj. eapply (Hs i j); eauto. lia.
  - done.
Qed.

Lemma replay_step skew w w' : replay_inv skew w → shared_step skew w w' → replay_inv skew w'.
Proof.
  intros Hinv Hstep. pose proof Hinv as [Hw Hm Hc Hs Hr]. inversion Hstep; subst; clear Hstep.
  - eapply replay_inv_frame; eauto.
  - split; cbn [clock store waiting marked repairs]; try done.
    intros a [->|?]%elem_of_cons; [|auto]. split; [|done]. split; [done|]. exists drift. split; [done|].
    unfold verify_nip98_event in *. repeat case_match; simplify_eq/=; done.
  - by apply mark_keeps.
  - destruct (script_untouched w f t pk l lim) as (Hu & Ec & Ew & Em).
    eapply replay_inv_frame; eauto; [by rewrite Ec|apply script_repairs|]. intros scope e Hsc. rewrite Ec. apply Hu; [lia|by apply keys_apart].
  - destruct (repair_untouched w f c (before ++ after)) as (Hu & Ec & Ew & Em & Er).
    destruct (Hr c) as (t & pk & l & Ek); [match goal with H : repairs w = _ |- _ => rewrite H end; set_solver|].
    eapply replay_inv_frame; eauto; [by rewrite Ec| |].
    + rewrite Er. intros x Hx. left. match goal with H : repairs w = _ |- _ => rewrite H end. set_solver.
    + intros scope e Hsc. rewrite Ec. apply Hu; [lia|]. rewrite Ek. by apply keys_apart.
  - eapply replay_inv_frame; eauto; [cbn; lia|]. intros scope e Hsc. cbn.
    match goal with H : ∀ t k, _ → guarded k → _ |- _ => apply H end; [lia|]. left. by exists scope, e.
Qed.

Lemma replay_inv_reachable skew w0 w : fresh_world w0 → shared_reachable skew w0 w → replay_inv skew w.
Proof.
  intros (Ew & Em & _ & Er & _) Hr. induction Hr as [|w w' _ IH Hs]; [|by eapply replay_step].
  split; rewrite ?Ew, ?Em, ?Er; try (intros *; by rewrite elem_of_nil). by intros i j * _ H.
Qed.

(** A signed HTTP authorization is honoured at most once per community, by
    all runtimes together, unless it was first used before it was due: two
    admissions of one event are at least 120 seconds apart, and the later one
    needs an event that was dated, at the first, more than 59 seconds ahead less
    what the clocks ([skew]) and the way from the verification to Redis ([lag])
    may add. *)
Theorem http_authorization_admitted_once skew lag w0 w i j e scope at1 at2 m1 m2 :
  fresh_world w0 → shared_reachable skew w0 w → i < j →
  marked w !! j = Some ({| az_scope := scope; az_event := e; az_at := at1 |}, m1, Ok tt) →
  marked w !! i = Some ({| az_scope := scope; az_event := e; az_at := at2 |}, m2, Ok tt) →
  (m2 - at2 ≤ lag)%Z →
  (m1 + 120000 ≤ m2)%Z ∧ (m1 < 1000 * created_at e - 59000 + skew + lag)%Z.
Proof.
  intros Hf Hr Hij H1 H2 Hlag. destruct (replay_inv_reachable _ _ _ Hf Hr) as [_ Hm _ Hs _].
  pose proof (Hs i j _ _ _ _ Hij H2 H1 eq_refl) as Hgap. split; [done|].
  apply list_elem_of_lookup_2, Hm in H2 as [[_ (drift & Hd & Ho)] _]. cbn in Ho.
  unfold outside_window, TIMESTAMP_TOLERANCE_SECS in Ho. apply Z.ltb_ge in Ho. Z.to_euclidean_division_equations. lia.
Qed.

(** ** The rate limiter *)

(** Runs of one counter with window [W], newest first: each goes on counting,
    or starts again when the window of the last start is over. *)
Definition started (log : list (Z * N)) : option Z := fst <$> List.find (λ c, (c.2 =? 1)%N) log.

Fixpoint counting (W : Z) (log : list (Z * N)) : Prop :=
  match log with
  | [] => True
  | (t, n) :: rest =>
      counting W rest ∧ (1 ≤ n)%N ∧
      match rest with
      | [] => True
      | (t', n') :: _ => (t' ≤ t)%Z ∧ if (n =? 1)%N then ∀ c, started rest = Some c → (c + W ≤ t)%Z else n = (n' + 1)%N
      end
  end.

Definition within (a W : Z) (c : Z * N) : bool := (a <=? c.1)%Z && (c.1 <? a + W)%Z.
Definition let_in (a W : Z) (lim : N) (log : list (Z * N)) : nat := length (List.filter (λ c, within a W c && (c.2 <=? lim)%N) log).

Lemma counting_newest W t n rest x : counting W ((t, n) :: rest) → x ∈ rest → (x.1 ≤ t)%Z.
Proof.
  revert t n. induction rest as [|[t' n'] rest IH]; intros t n Hc Hx; [by apply elem_of_nil in Hx|].
  cbn [counting] in Hc. destruct Hc as (Hc & _ & Hle & _). apply elem_of_cons in Hx as [->|Hx]; [done|].
  specialize (IH t' n' Hc Hx). lia.
Qed.

Lemma started_newest W t n rest c : counting W ((t, n) :: rest) → started rest = Some c → (c ≤ t)%Z.
Proof.
  intros Hc H. unfold started in H. destruct (List.find _ rest) as [x|] eqn:E; [|done]. injection H as <-.
  apply List.find_some in E as [Hin%list_elem_of_In _]. by eapply counting_newest.
Qed.

Lemma none_let_in a W lim log : (∀ x, x ∈ log → (x.1 < a)%Z) → let_in a W lim log = 0.
Proof.
  intros H. unfold let_in. induction log as [|x log IH]; [done|]. cbn [List.filter]. unfold within at 1.
  rewrite (proj2 (Z.leb_gt a x.1)) by (apply H; left). cbn [andb]. apply IH. intros y Hy. apply H. by right.
Qed.

(** Within a window, at most the calls of two starts. *)
Lemma two_starts a W lim log : (0 < W)%Z → counting W log → (∀ x, x ∈ log → (x.1 < a + W)%Z) →
  match log with
  | [] => True
  | (_, n) :: _ =>
      let_in a W lim log ≤ N.to_nat (N.min n lim) +
        match started log with Some c => if (a <=? c)%Z then N.to_nat lim else 0 | None => 0 end
  end.
Proof.
  intros HW. induction log as [|[t n] rest IH]; intros Hc Hb; [done|].
  pose proof Hc as (Hc' & Hn & Hrest).
  assert (IH' := IH Hc' (λ x Hx, Hb x (list_elem_of_further _ _ _ Hx))). clear IH.
  assert (Ht : (t < a + W)%Z) by apply (Hb (t, n)), list_elem_of_here.
  destruct (Z.lt_ge_cases t a) as [Hlt|Hge].
  { rewrite none_let_in; [lia|]. intros x [->|Hx]%elem_of_cons; [done|]. apply (counting_newest _ _ _ _ _ Hc) in Hx. lia. }
  assert (Hhead : let_in a W lim ((t, n) :: rest) = (if (n <=? lim)%N then 1 else 0) + let_in a W lim rest).
  { unfold let_in. cbn [List.filter]. unfold within at 1. cbn [fst snd]. rewrite (proj2 (Z.leb_le a t)), (proj2 (Z.ltb_lt t (a + W))) by lia.
    cbn [andb]. by destruct (n <=? lim)%N. }
  rewrite Hhead. destruct rest as [|[t' n'] rest].
  { destruct (N.leb_spec n lim); cbn; lia. }
  destruct Hrest as [Hle Hnext]. unfold started. cbn [List.find fst snd fmap option_fmap option_map].
  destruct (N.eqb_spec n 1) as [->|Hne].
  - cbn [fmap option_fmap option_map fst snd]. rewrite (proj2 (Z.leb_le a t)) by lia.
    destruct (started ((t', n') :: rest)) as [c|] eqn:Es.
    + specialize (Hnext _ eq_refl). rewrite (proj2 (Z.leb_gt a c)) in IH' by lia. destruct (N.leb_spec 1 lim); lia.
    + destruct (N.leb_spec 1 lim); lia.
  - unfold started in IH'. cbn [List.find fst snd] in IH'. destruct (N.leb_spec n lim); lia.
Qed.

Lemma counted_twice a W lim log : (0 < W)%Z → counting W log → let_in a W lim log ≤ 2 * N.to_nat lim.
Proof.
  intros HW. induction log as [|[t n] rest IH]; intros Hc; [cbn; lia|].
  destruct (Z.lt_ge_cases t (a + W)) as [Hlt|Hge].
  - pose proof (two_starts a W lim ((t, n) :: rest) HW Hc) as H. cbn iota in H. etrans; [apply H|].
    + intros x [->|Hx]%elem_of_cons; [done|]. apply (counting_newest _ _ _ _ _ Hc) in Hx. lia.
    + destruct (started ((t, n) :: rest)) as [c|]; [destruct (a <=? c)%Z|]; lia.
  - destruct Hc as [Hc _]. unfold let_in. cbn [List.filter]. unfold within at 1. cbn [fst snd]. rewrite (proj2 (Z.ltb_ge t (a + W))) by lia.
    rewrite andb_false_r. by apply IH.
Qed.

Section counter.
Context (t0 : TenantContext) (pk0 : string) (l0 : LimitType).
Abbreviation K := (rate_limit_key t0 pk0 l0).
Abbreviation W := (1000 * window_secs l0)%Z.

Definition runs_of (l : list LimitCall) : list (Z * N) := (λ c, (lc_time c, lc_count c)) <$> filter (λ c, lc_key c = K) l.

(** The counter in Redis continues the runs of the script. *)
Definition counter_ok (now : Z) (s : Redis) (log : list (Z * N)) : Prop :=
  match redis_live now s K with
  | None => ∀ c, started log = Some c → (c + W ≤ now)%Z
  | Some (v, o) =>
      match log with [] => v ≠ pretty 0%N | (_, n) :: _ => v = pretty n end ∧
      ∀ c d, started log = Some c → o = Some d → (c + W ≤ d)%Z
  end.

Record limiter_inv (w : World) : Prop := {
  li_counting : counting W (runs_of (scripts w));
  li_recent x : x ∈ runs_of (scripts w) → (x.1 ≤ clock w)%Z;
  li_counter : counter_ok (clock w) (store w) (runs_of (scripts w));
  li_repairs c : c ∈ repairs w → lc_key c = K → lc_window c = window_secs l0;
  li_calls : admitted w ++ repairs w ⊆+ scripts w;
  li_admitted c : c ∈ admitted w → (lc_count c ≤ lc_limit c)%N
}.

Lemma started_recent w c : limiter_inv w → started (runs_of (scripts w)) = Some c → (c ≤ clock w)%Z.
Proof.
  intros [_ Hrec _ _ _ _] H. unfold started in H. destruct (List.find _ _) as [x|] eqn:E; [|done]. injection H as <-.
  apply List.find_some in E as [Hin%list_elem_of_In _]. by apply Hrec.
Qed.

Lemma counter_same now s s' log : redis_live now s' K = redis_live now s K → counter_ok now s log → counter_ok now s' log.
Proof. unfold counter_ok. by intros ->. Qed.

Lemma counter_later now t s log : (now ≤ t)%Z → counter_ok now s log → counter_ok t s log.
Proof.
  unfold counter_ok. intros Ht. destruct (redis_live t s K) as [[v o]|] eqn:E; [by rewrite (live_earlier _ _ _ _ _ E Ht)|].
  destruct (redis_live now s K) as [[v [d|]]|] eqn:E0; intros H c Hc.
  - destruct H as [_ H]. specialize (H c d Hc eq_refl). destruct (Z.lt_ge_cases t d) as [Hlt|]; [|lia].
    rewrite (live_stays now t s K v (Some d) E0 Ht) in E; [done|]. by intros ? [= <-].
  - by rewrite (live_stays now t s K v None E0 Ht) in E.
  - specialize (H c Hc). lia.
Qed.

(** One run of the script on the counter. *)
Lemma counter_script now s n ttl s' log :
  counter_ok now s log → counting W log → (∀ x, x ∈ log → (x.1 ≤ now)%Z) →
  rate_limit_script now s K (window_secs l0) = Some ((n, ttl), s') →
  counting W ((now, n) :: log) ∧ counter_ok now s' ((now, n) :: log).
Proof.
  intros Hok Hc Hrec [_ H]%script_spec; [|apply window_positive]. unfold counter_ok in *.
  assert (Hhead : ∀ t' n' rest, log = (t', n') :: rest → (t' ≤ now)%Z ∧ (1 ≤ n')%N).
  { intros t' n' rest ->. split; [apply (Hrec (t', n')); left|]. apply Hc. }
  destruct (redis_live now s K) as [[v o]|].
  - destruct H as (Hn & -> & ->), Hok as [Hv Hd].
    assert (Hne : n ≠ 1%N).
    { intros ->. destruct log as [|[t' n'] rest]; [done|]. apply (inj pretty) in Hv. destruct (Hhead _ _ _ eq_refl). cbn in Hv. lia. }
    rewrite (proj2 (N.eqb_neq n 1) Hne). split.
    + cbn [counting]. split; [done|]. split; [done|]. destruct log as [|[t' n'] rest]; [done|]. rewrite (proj2 (N.eqb_neq n 1) Hne).
      split; [by eapply Hhead|]. apply (inj pretty) in Hv. lia.
    + split; [done|]. intros c d. unfold started. cbn [List.find snd]. rewrite (proj2 (N.eqb_neq n 1) Hne). apply Hd.
  - destruct H as [-> ->]. split.
    + cbn [counting]. split; [done|]. split; [done|]. destruct log as [|[t' n'] rest]; [done|]. cbn. split; [by eapply Hhead|done].
    + split; [done|]. intros c d [= <-] [= <-]. done.
Qed.

Lemma runs_skip c l : lc_key c ≠ K → runs_of (c :: l) = runs_of l.
Proof. intros H. unfold runs_of. by rewrite filter_cons_False. Qed.
Lemma runs_take c l : lc_key c = K → runs_of (c :: l) = (lc_time c, lc_count c) :: runs_of l.
Proof. intros H. unfold runs_of. by rewrite filter_cons_True. Qed.

Lemma limiter_frame w w' : limiter_inv w → (clock w ≤ clock w')%Z → scripts w' = scripts w → repairs w' = repairs w →
  admitted w' = admitted w → redis_live (clock w') (store w') K = redis_live (clock w') (store w) K → limiter_inv w'.
Proof.
  intros [Hc Hr Hk Hrep Hcalls Ha] Ht Es Er Ea Hl. split; rewrite ?Es, ?Er, ?Ea; try done.
  - intros x Hx%Hr. lia.
  - eapply counter_same; [exact Hl|]. by eapply counter_later.
Qed.

Lemma limiter_script w f t pk l lim : limiter_inv w → limiter_inv (after_script w f (rate_limit_key t pk l) (window_secs l) lim).
Proof.
  intros Hinv. pose proof Hinv as [Hc Hr Hk Hrep Hcalls Ha].
  destruct (script_untouched w f t pk l lim) as (Hu & Ec & _ & _). revert Hu Ec. unfold after_script, run_script.
  destruct (rate_limit_script (clock w) (store w) (rate_limit_key t pk l) (window_secs l)) as [[[n ttl] s']|] eqn:E;
    [|by destruct f as [| |[]]; intros _ _; destruct w].
  set (call := {| lc_key := rate_limit_key t pk l; lc_window := window_secs l; lc_limit := lim; lc_time := clock w; lc_count := n |}).
  assert (Hnew : counting W (runs_of (call :: scripts w)) ∧ counter_ok (clock w) s' (runs_of (call :: scripts w)) ∧
                 (∀ x, x ∈ runs_of (call :: scripts w) → (x.1 ≤ clock w)%Z) ∧ (lc_key call = K → lc_window call = window_secs l0)).
  { destruct (decide (lc_key call = K)) as [Ek|Ek].
    - rewrite runs_take by done. pose proof (limiter_key_type _ _ _ _ _ _ Ek) as ->. cbn in Ek. rewrite Ek in E.
      destruct (counter_script _ _ _ _ _ _ Hk Hc Hr E) as [H1 H2]. do 2 (split; [done|]). split; [|done].
      intros x [->|Hx]%elem_of_cons; [done|by apply Hr].
    - rewrite runs_skip by done. split; [done|]. split; [|by split].
      eapply counter_same; [|exact Hk]. apply script_spec in E as [Hu' _]; [|apply window_positive]. apply Hu'; [lia|]. intros E'. by apply Ek. }
  destruct Hnew as (H1 & H2 & H3 & H4).
  assert (Hsub : admitted w ++ call :: repairs w ⊆+ call :: scripts w) by (rewrite <- Permutation_middle; by apply submseteq_skip).
  assert (Hsub' : admitted w ++ repairs w ⊆+ call :: scripts w) by (by apply submseteq_cons).
  intros _ _. destruct f as [| |[]]; cbn [fmap option_fmap option_map fst snd].
  - destruct (ttl <? 0)%Z; cbn; fold call.
    + split; cbn; try done. intros c [->|?]%elem_of_cons; auto.
    + destruct (n <=? lim)%N eqn:El; cbn; split; cbn; try done.
      * by apply (submseteq_skip call) in Hcalls.
      * intros c [->|?]%elem_of_cons; [by apply N.leb_le|auto].
  - by destruct w.
  - split; cbn; fold call; done.
  - by destruct w.
Qed.

Lemma limiter_repair w f c before after : limiter_inv w → repairs w = before ++ c :: after →
  limiter_inv (after_repair w f c (before ++ after)).
Proof.
  intros Hinv Er. pose proof Hinv as [Hc Hr Hk Hrep Hcalls Ha].
  assert (Hin : c ∈ repairs w) by (rewrite Er; set_solver).
  assert (Hperm : admitted w ++ repairs w ≡ₚ c :: (admitted w ++ before ++ after)).
  { rewrite Er, !(app_assoc (admitted w)). by rewrite <- Permutation_middle. }
  rewrite Hperm in Hcalls.
  assert (Hex : counter_ok (clock w) (redis_expire (clock w) (store w) (lc_key c) (lc_window c)) (runs_of (scripts w))).
  { destruct (decide (lc_key c = K)) as [Ek|Ek].
    - rewrite (Hrep c Hin Ek), Ek. unfold counter_ok in *. destruct (redis_live (clock w) (store w) K) as [[v o]|] eqn:El.
      + rewrite (expire_sets _ _ _ _ _ _ (window_positive l0) El). split; [apply Hk|]. intros d ? Hd [= <-].
        apply (started_recent _ _ Hinv) in Hd. lia.
      + by rewrite expire_absent.
    - eapply counter_same; [|exact Hk]. apply expire_frame; [lia|]. intros E'. by apply Ek. }
  assert (Hold : admitted w ++ before ++ after ⊆+ scripts w) by (etrans; [|exact Hcalls]; by apply submseteq_cons).
  assert (Hrest : ∀ d, d ∈ before ++ after → d ∈ repairs w) by (rewrite Er; set_solver).
  unfold after_repair, run_repair, limit_result.
  destruct f as [| |[]]; cbn; [|split; cbn; eauto..]. destruct (lc_count c <=? lc_limit c)%N eqn:El; cbn; split; cbn; eauto.
  intros d [->|?]%elem_of_cons; [by apply N.leb_le|auto].
Qed.

Lemma limiter_step skew w w' : replay_inv skew w → limiter_inv w → shared_step skew w w' → limiter_inv w'.
Proof.
  intros Hrep Hinv Hstep. inversion Hstep; subst; clear Hstep.
  - by eapply limiter_frame.
  - by eapply limiter_frame.
  - unfold after_mark. pose proof (try_mark_spec (clock w) f (store w) (az_scope a) (Nostr.id (az_event a))) as Hs.
    destruct (try_mark_in_scope _ _ _ _ _ _) as [r s']. destruct Hs as [Hu _].
    eapply limiter_frame; [exact Hinv|cbn; lia|done..|]. cbn. apply Hu; [lia|]. intros E. eapply keys_apart; [|by symmetry in E; exact E].
    apply (ri_waiting _ _ Hrep a). match goal with H : waiting w = _ |- _ => rewrite H end. set_solver.
  - by apply limiter_script.
  - by apply limiter_repair.
  - eapply limiter_frame; [exact Hinv|cbn; lia|done..|]. cbn.
    match goal with H : ∀ t k, _ → guarded k → _ |- _ => apply H end; [lia|]. right. by do 3 eexists.
Qed.

Lemma limiter_reachable skew w0 w : fresh_world w0 → shared_reachable skew w0 w → limiter_inv w.
Proof.
  intros Hf Hr. induction Hr as [|w w' Hr IH Hs].
  - destruct Hf as (_ & _ & Es & Er & Ea & Hz). split; rewrite ?Es, ?Er, ?Ea; try (intros *; by rewrite elem_of_nil); try done.
    unfold counter_ok. destruct (redis_live (clock w0) (store w0) K) as [[v o]|] eqn:E; [|done].
    split; [|done]. intros ->. by eapply Hz.
  - eapply limiter_step; eauto. by eapply replay_inv_reachable.
Qed.

End counter.

(** A limit bounds every stretch of time: whatever the runtimes do at the
    same time, calls of one principal that are admitted under a limit of at
    most [lim] per window, within any stretch as long as the window, are no
    more than twice [lim]. *)
Theorem rate_limit_bounds_every_interval skew w0 w t pk l lim a :
  fresh_world w0 → shared_reachable skew w0 w →
  length (filter (λ c, lc_key c = rate_limit_key t pk l ∧ (lc_limit c ≤ lim)%N ∧ (a ≤ lc_time c < a + 1000 * window_secs l)%Z) (admitted w))
    ≤ 2 * N.to_nat lim.
Proof.
  intros Hf Hr. destruct (limiter_reachable t pk l _ _ _ Hf Hr) as [Hc _ _ _ Hcalls Ha].
  etrans; [|apply (counted_twice a (1000 * window_secs l) lim _ ltac:(by destruct l) Hc)].
  assert (Hsub : admitted w ⊆+ scripts w) by (etrans; [apply submseteq_inserts_r|exact Hcalls]; done).
  unfold let_in, runs_of. revert Ha Hsub. generalize (admitted w), (scripts w). clear. intros adm scr Ha Hsub.
  transitivity (length (filter (λ c, lc_key c = rate_limit_key t pk l ∧ (lc_count c ≤ lim)%N ∧ (a ≤ lc_time c < a + 1000 * window_secs l)%Z) adm)).
  - induction adm as [|c adm IH]; [done|]. assert (IH' := IH ltac:(intros ? ?; apply Ha; by right) ltac:(etrans; [|exact Hsub]; by apply submseteq_cons)).
    assert (Hle := Ha c (list_elem_of_here _ _)). rewrite !filter_cons. repeat destruct (decide _); cbn; try lia. naive_solver lia.
  - transitivity (length (filter (λ c, lc_key c = rate_limit_key t pk l ∧ (lc_count c ≤ lim)%N ∧ (a ≤ lc_time c < a + 1000 * window_secs l)%Z) scr)).
    + apply submseteq_Permutation in Hsub as [k Hk]. rewrite Hk, filter_app, length_app. lia.
    + clear Ha Hsub. induction scr as [|c scr IH]; [done|]. rewrite !filter_cons. unfold within in *.
      destruct (decide (lc_key c = rate_limit_key t pk l)) as [E|E].
      * cbn. destruct (decide _) as [(_ & H1 & H2 & H3)|H].
        -- rewrite (proj2 (Z.leb_le _ _)), (proj2 (Z.ltb_lt _ _)), (proj2 (N.leb_le _ _)) by done. cbn. lia.
        -- destruct (_ && _ && _); cbn; lia.
      * rewrite decide_False by naive_solver. done.
Qed.

End shared.
