(* ===== verification/AuthMemory.v ===== *)
(** * A Redis in memory

    The parameters of [AuthShared] instantiated: a map of values with their
    expiry.  The laws of [ExpiringRedisLaws] hold of it, and the guard and the
    limiter are run on it. *)
From S2P Require Import Prelude Nostr Channel WorkflowTemplate Tenant IngestPolicy AuthEvents AuthLimits.

Definition cell : Type := string * option Z.
Definition mem_live (now : Z) (s : gmap string cell) (k : string) : option cell :=
  match s !! k with
  | Some (v, Some d) => if (now <? d)%Z then Some (v, Some d) else None
  | other => other
  end.

(** The number that a value prints. *)
Definition printed (v : string) : option N :=
  match parse_unsigned 64 v with Some n => if (pretty n =? v)%string then Some n else None | None => None end.

#[local] Instance mem_redis : ExpiringRedis := {|
  Redis := gmap string cell;
  redis_live := mem_live;
  redis_set_nx_ex now s k v ttl :=
    match mem_live now s k with Some _ => (false, s) | None => (true, <[k := (v, Some (now + 1000 * ttl)%Z)]> s) end;
  redis_incr now s k :=
    match mem_live now s k with
    | None => Some (1%N, <[k := (pretty 1%N, None)]> s)
    | Some (v, o) => match printed v with Some n => Some ((n + 1)%N, <[k := (pretty (n + 1)%N, o)]> s) | None => None end
    end;
  redis_expire now s k secs :=
    match mem_live now s k with Some (v, _) => <[k := (v, Some (now + 1000 * secs)%Z)]> s | None => s end;
  redis_ttl now s k :=
    match mem_live now s k with Some (_, Some d) => ((d - now) / 1000)%Z | Some (_, None) => -1 | None => -2 end%Z
|}.

Lemma mem_other t s k k' x : k' ≠ k → mem_live t (<[k := x]> s) k' = mem_live t s k'.
Proof. intros Hne. unfold mem_live. by rewrite lookup_insert_ne. Qed.

Lemma mem_here t s k v o : (∀ d, o = Some d → (t < d)%Z) → mem_live t (<[k := (v, o)]> s) k = Some (v, o).
Proof. intros Ho. unfold mem_live. rewrite lookup_insert_eq. destruct o as [d|]; [|done]. by rewrite (proj2 (Z.ltb_lt _ _)) by auto. Qed.

Lemma mem_live_some t s k v o : mem_live t s k = Some (v, o) ↔ s !! k = Some (v, o) ∧ ∀ d, o = Some d → (t < d)%Z.
Proof.
  unfold mem_live. destruct (s !! k) as [[v' [d'|]]|]; [|naive_solver..].
  destruct (Z.ltb_spec t d'); split; naive_solver lia.
Qed.

#[local] Instance mem_redis_laws : ExpiringRedisLaws mem_redis.
Proof.
  split.
  - intros t t' s k v o (H1 & H2)%mem_live_some Hle Hd. apply mem_live_some. split; [done|]. intros d ->. by apply Hd.
  - intros t t' s k [v o] (H1 & H2)%mem_live_some Hle. apply mem_live_some. split; [done|]. intros d ->. specialize (H2 d eq_refl). lia.
  - intros now s k v ttl Ht Hn. cbn in *. rewrite Hn. eexists. split; [done|]. split; [apply mem_here; intros d [= <-]; lia|].
    intros t k' Ht' Hne. by apply mem_other.
  - intros now s k v ttl x Hx. cbn in *. rewrite Hx. by eexists.
  - intros now s k n s' Hi. cbn in *. destruct (mem_live now s k) as [[v o]|] eqn:El.
    + destruct (printed v) as [m|] eqn:Ep; [|done]. injection Hi as <- <-. unfold printed in Ep.
      destruct (parse_unsigned 64 v) as [m'|]; [|done]. destruct (pretty m' =? v)%string eqn:Ev; [|done]. injection Ep as ->.
      apply String.eqb_eq in Ev. apply mem_live_some in El as [_ Ho]. split; [intros t k' _ Hne; by apply mem_other|].
      split_and!; [lia|by replace (m + 1 - 1)%N with m by lia|by apply mem_here].
    + injection Hi as <- <-. split; [intros t k' _ Hne; by apply mem_other|]. split; [done|by apply mem_here].
  - intros now s k secs v o Hs Hl. cbn in *. rewrite Hl. apply mem_here. intros d [= <-]. lia.
  - intros now s k secs t k' _ Hne. cbn. destruct (mem_live now s k) as [[v o]|]; [by apply mem_other|done].
  - intros now s k secs Hl. cbn in *. by rewrite Hl.
Qed.

(** An event is marked, refused while its mark lives, and taken again when the
    mark has expired: 120 s after the first, when an event that was stamped 60 s
    ahead is still inside its window. *)
Definition replays : list (result string unit) :=
  let '(m1, s1) := try_mark_in_scope 5000 Executed (∅ : gmap string cell) ADMIN_REPLAY_SCOPE "id" DEFAULT_REPLAY_TTL_SECS in
  let '(m2, s2) := try_mark_in_scope 124999 Executed s1 ADMIN_REPLAY_SCOPE "id" DEFAULT_REPLAY_TTL_SECS in
  let '(m3, s3) := try_mark_in_scope 125000 Executed s2 ADMIN_REPLAY_SCOPE "id" DEFAULT_REPLAY_TTL_SECS in
  replay_verdict <$> [m1; m2; m3].
Example mark_expires_early : replays = [Ok tt; Err "NIP-98: replay detected"; Ok tt].
Proof. vm_compute. reflexivity. Qed.

(** A counter of two per minute. *)
Definition limited : list (option bool) :=
  let call now s := run_script now Executed s "key" 60 2%N in
  let '(r1, s1) := call 0%Z (∅ : gmap string cell) in
  let '(r2, s2) := call 1000%Z s1 in
  let '(r3, s3) := call 2000%Z s2 in
  let '(r4, s4) := call 60000%Z s3 in
  (λ r, match r with Ok (Decided d) => Some (allowed d) | _ => None end) <$> [r1; r2; r3; r4].
Example limit_of_two : limited = [Some true; Some true; Some false; Some true].
Proof. vm_compute. reflexivity. Qed.
